(* ===== verification/_CoqProject ===== *)
-Q . S2P
Prelude.v
BitArray.v
Heap.v
Sha256.v
Crypto.v
Merkle.v
Types.v
ValidatorSet.v
VoteSet.v
HeightVoteSet.v
PartSet.v
GoTime.v
PrivVal.v
Block.v
State.v
DB.v
Store.v
CList.v
Mempool.v
Execution.v
Consensus.v
Autofile.v
Wal.v
Conn.v
Reactor.v
Pool.v
FastSync.v
Kademlia.v
Lite.v
Query.v
Safety.v
Agreement.v
DMCCoin.v
