(* ===== verification/Prelude.v ===== *)
(** * A verification development for DeMars-DMC

    DeMars-DMC is a Byzantine fault tolerant replication engine in Go, with an
    application that keeps coin accounts.  Validators exchange proposals,
    block parts and votes; a state machine per node locks, precommits and
    commits blocks; committed blocks are stored and executed, and the
    application answers with the validators of the next height.

    ** The parts of the program and the files that model them

    Each file holds one Module of its name.  Definitions keep the names of the
    code; a method [T.M] is [M] or [T_M].

    - [Prelude]: Go's panics as the monad [go], loops, slices, machine
      integers, byte strings, sorting ([sort.Slice], [sort.Search]) and the
      lemmas the components share; hints are in [go_db].
    - [BitArray]: libs/common/bit_array.go.
    - [Heap]: libs/common/heap.go with the sifting of container/heap.
    - [Sha256]: crypto/tmhash, with SHA-256 written out.
    - [Crypto]: crypto/pub_key.go, signature.go; the curves and go-amino are
      the classes [Curves] and [Amino].
    - [Merkle]: crypto/merkle: trees, proofs and their verification.
    - [Types]: types/vote.go, proposal.go, heartbeat.go, canonical_json.go,
      the block ids and commits of types/block.go.
    - [ValidatorSet]: types/validator.go, validator_set.go: the sorted set,
      the rotation of proposers, the verification of commits.
    - [VoteSet]: types/vote_set.go; [HeightVoteSet]:
      consensus/types/height_vote_set.go.
    - [PartSet]: types/part_set.go.
    - [GoTime]: the canonical time layout and the parser of package time that
      the signer uses; [PrivVal]: privval/priv_validator.go with its file and
      crashes.
    - [Block]: types/block.go, tx.go, params.go; [State]: state/state.go,
      validation.go, the state updates of execution.go, types/genesis.go,
      protobuf.go and results.go.
    - [Consensus]: consensus/state.go, one definition per handler and step
      function, over the monad [M] of a state, panics and effects (WAL
      entries, messages, timeouts, events, blocks saved and applied).  The
      block store, executor, mempool and signer are the record [Services].
    - [Safety]: the invariant of a node and that every handler keeps it;
      [Agreement]: the network of nodes and the theorems about decisions.
    - [DMCCoin]: abci/app/dmccoin: accounts, the write cache, transactions,
      their execution and the handlers of the application.
    - [DB]: libs/db: the database interface as the class [DB] with its laws,
      the map in memory, batches, the namespace of a prefix, iterators.
    - [Store]: state/store.go and blockchain/store.go over any database.
    - [CList]: libs/clist/clist.go: the concurrent list; a writer's calls are
      sequences of steps between which readers look, wait and return.
    - [Mempool]: mempool/mempool.go and mempool/reactor.go over [CList].
    - [Execution]: state/execution.go over the classes of an application and a
      mempool, and the handshake of consensus/replay.go.
    - [Autofile]: libs/autofile: a group of rotated files and its reader.
    - [Wal]: consensus/wal.go with the checksum of hash/crc32, and the replay of
      the logged messages of consensus/replay.go, over [Autofile] and
      [Consensus].
    - [Conn]: p2p/conn/connection.go: the multiplexed connection, as steps of
      its two ends in any order.
    - [Reactor]: consensus/reactor.go: the state of a peer, its messages, and
      the turns of the gossip routines, over [Consensus].
    - [Pool] and [FastSync]: blockchain/pool.go, as steps of the goroutines of
      the pool and its requesters in any order, and blockchain/reactor.go, over
      [Store] and [Execution].
    - [Kademlia]: p2p/kademlia/table.go and node.go: distances, the buckets,
      the search over the answers of the network.
    - [Lite]: lite/: the certifiers of the light client and their providers.
    - [Query]: libs/pubsub/query: the parser of event queries, rule by rule, and
      the conditions.

    ** What the theorems show

    - Consensus: no two correct nodes apply blocks with different hashes at a
      height ([agreement]); what is applied was decided, is valid and was saved
      first ([applied_decided]); votes and locks follow the rules that this
      needs ([voting_rule], [lock_rule]); heights, rounds, steps and
      majorities only go up ([run_monotone]).
    - Votes: the vote sets of validators that have keys and powers that add up
      keep their invariant under every sequence of votes and claims, report a majority only with the power behind it, and the
      commit they make verifies; the signer never signs two different votes
      for one height, round and step, across crashes.
    - Data: bit arrays and the heap behave as sets and priority queues;
      Merkle proofs and part sets are complete and binding (a second preimage
      gives a hash collision, which the proofs compute); a validator set is a
      map sorted by address.
    - State: which blocks are valid, that proposed blocks are, and what the
      next state is.
    - The application: what delivered transactions do to the accounts, which
      validators it names, and that the write cache changes nothing.
    - Storage: iterators end and read their domain in order; the keys with a
      prefix are a map of their own for reads, writes and ascending iterators
      ([prefixDB_refines]); blocks survive crashes between
      the writes ([block_store_durable]); the state store gives back what
      every height had ([state_store_remembers]).
    - Mempool: the list is linked and loses no wake-up in any interleaving of a
      writer, which removes no element twice, with readers ([clist_safe],
      [clist_wakes]); the pool implements an ordered list
      ([mempool_refines]), is bounded, ends its rechecks and is broadcast to
      every peer in full ([broadcast_complete]).
    - Execution: blocks are delivered in full ([exec_delivers_all]), applied
      atomically ([apply_block_atomic]), and the handshake recovers from every
      crash in between, also between the writes of the state
      ([handshake_recovers]); states are loaded without the caches of their
      validator sets, and it is shown that these do not matter.
    - The log: a group of files is the string of bytes written to it
      ([group_log]); a node that starts again handles the messages on disk
      since the last block and no others, if at most three bytes of a record
      are left after them ([catchup_replays]); a damaged byte is noticed
      ([corrupt_byte_detected]), and a record cut short by a crash stops the
      replay ([torn_tail_disables_replay]).
    - Connections: messages that are not empty and fit are delivered on every
      channel in order ([mconn_in_order]) and in full ([mconn_delivers]), and the memory of the
      receiver is bounded ([recv_bounded]).
    - Gossip: every vote is offered and every part of a block is sent to a peer
      exactly once ([votes_offered_once], [parts_delivered]); a vote is withheld
      only if the peer claimed it or it was sent ([marks_justified]); a bit
      array without words from a peer stops the node ([commit_step_crashes]).
    - Fast sync: the pool counts its requests right ([pending_exact]) and blames
      the right peer ([redo_blames_sender]); but it asks for two heights only
      ([sync_gets_stuck]), keeps bad blocks ([redo_is_lost]), and no block can be
      applied ([fast_sync_applies_nothing]).
    - Kademlia: the table is well formed after any operations ([table_wf]),
      a search ends, having queried the nodes it returns, with the closest
      entries of the table and of what it was told ([lookup_ends],
      [closest_correct]); but only one bucket is used ([one_bucket_used]) and
      random nodes are counted wrongly ([random_nodes_overcounted]).
    - Light client: with honest validators and a source that keeps to the
      heights asked for it certifies headers of the chain only
      ([light_client_sound]); the providers in memory keep the promises of their
      interface ([memProvider_laws], [cacheProvider_laws]); but a source can
      make it trust a single validator ([one_validator_takes_over]) or search
      without end ([search_never_ends]).
    - Queries: a query text is read back as its conditions ([query_roundtrip]),
      [Matches] is their conjunction ([Matches_Conditions]), the loops of the
      parser end ([parser_loops_end]); but the grammar accepts operands on
      which they panic ([accepted_query_panics]).
    - Errors: the panics that peers or inputs can cause are theorems of the
      component they are in.

    ** Parameters, bounds and fuel

    Code outside the repository (go-amino, go-wire, the curves, JSON) is a
    class of functions; what is used of it is a class of laws, and each
    theorem with such a law has a witness at an instance.  What go-amino reads
    back is what it stores, the exported fields ([SerialLaws]): a validator set
    comes back without its cached total.  Integers are [Z]
    with the wrap-around of [int64] and [uint64] written out where the code
    can overflow.  Loops are folds over the list or range they walk.  Fuel
    is used where the recursion is not structural: in the Merkle trees and
    the digits of varints, always the length of the data or more, with
    lemmas that this is enough; [sort.Search] halves a range and takes its
    length.

    A mutex makes a method one step; a goroutine that serves a queue is the
    sequence of its steps, in any order the queues allow.

    ** Not modelled

    Network and file I/O (the switch, the secret connection, UPnP, the TCP
    relay, autofiles, the LevelDB back ends), the transport of ABCI and RPC
    and the commands are I/O around the modelled parts; metrics and logging
    are output; code that protoc and the PEG tool generate is not code of
    the repository's own.  Floating-point statistics (trust metric, flow
    rates) are not modelled.  The String methods are left out throughout.
*)

From Stdlib Require Export ZArith Lia.
From Stdlib Require Export Strings.Byte.
From Stdlib Require Strings.String.
From stdpp Require Export base list gmap numbers strings sets sorting.

#[global] Open Scope Z_scope.

(** ** Go's run-time panics as a monad

    A Go function either returns or panics.  [go A] is the type of a
    computation that returns an [A] or panics; the reason is kept so that
    theorems can say which panic a call raises. *)

Inductive panic :=
| IndexOutOfRange
| SliceBounds
| NilDeref
| DivideByZero
| MakeSliceLen
| TypeAssertion
| PanicSanity (why : String.string)
| PanicConsensus (why : String.string)
| PanicCrisis (why : String.string)
| PanicMsg (why : String.string).

Inductive go (A : Type) :=
| Ret (a : A)
| Panic (p : panic).
Arguments Ret {A} a.
Arguments Panic {A} p.

#[export] Instance go_mret : MRet go := fun A a => Ret a.
#[export] Instance go_mbind : MBind go := fun A B f m =>
  match m with Ret a => f a | Panic p => Panic p end.
#[export] Instance go_fmap : FMap go := fun A B f m =>
  match m with Ret a => Ret (f a) | Panic p => Panic p end.

#[global] Instance panic_eq_dec : EqDecision panic.
Proof. solve_decision. Defined.

(** Reading through a pointer or calling a method of an interface: [None] is
    nil. *)
Definition deref {A} (p : option A) : go A := match p with Some a => Ret a | None => Panic NilDeref end.

(** [returns m] says that [m] does not panic. *)
Definition returns {A} (m : go A) : Prop := exists a, m = Ret a.

Lemma bind_ret_inv {A B} (m : go A) (k : A -> go B) b :
  m ≫= k = Ret b -> exists a, m = Ret a /\ k a = Ret b.
Proof. destruct m; cbn; [eauto | discriminate]. Qed.

Lemma fmap_ret_inv {A B} (m : go A) (f : A -> B) b :
  f <$> m = Ret b -> exists a, m = Ret a /\ b = f a.
Proof. destruct m; cbn; [intros [= <-]; eauto | discriminate]. Qed.

(** Invert every hypothesis saying that a monadic program returned. *)
Ltac go_inv :=
  repeat match goal with
  | H : Ret _ = Ret _ |- _ => injection H as H; subst
  | H : Panic _ = Ret _ |- _ => discriminate H
  | H : Ret _ = Panic _ |- _ => discriminate H
  | H : (_ ≫= _) = Ret _ |- _ =>
      let a := fresh "r" in let E := fresh "E" in
      apply bind_ret_inv in H as (a & E & H); cbn beta in H
  | H : (_ <$> _) = Ret _ |- _ =>
      let a := fresh "r" in let E := fresh "E" in
      apply fmap_ret_inv in H as (a & E & H)
  | H : mret _ = Ret _ |- _ => injection H as H; subst
  end.

(** Loops.  [go_fold f l s] runs the body [f] on the elements of [l] in
    order, threading the state [s] and stopping at the first panic. *)
Fixpoint go_fold {A S} (f : A -> S -> go S) (l : list A) (s : S) : go S :=
  match l with
  | [] => Ret s
  | x :: l => s' ← f x s; go_fold f l s'
  end.

(** [for i := a; i < b; i++ { body }] *)
Definition go_for {S} (a b : Z) (body : Z -> S -> go S) (s : S) : go S :=
  go_fold body (seqZ a (b - a)) s.

Lemma go_fold_app {A S} (f : A -> S -> go S) l1 l2 s :
  go_fold f (l1 ++ l2) s = (s' ← go_fold f l1 s; go_fold f l2 s').
Proof.
  revert s; induction l1 as [|x l1 IH]; intros s; cbn; [done|].
  destruct (f x s); cbn; auto.
Qed.

(** Loop invariants: [I k s] holds when the first [k] elements are done. *)
Lemma go_fold_inv {A S} (I : nat -> S -> Prop) (f : A -> S -> go S) l s :
  I 0%nat s ->
  (forall k x s, l !! k = Some x -> I k s -> exists s', f x s = Ret s' /\ I (Datatypes.S k) s') ->
  exists s', go_fold f l s = Ret s' /\ I (length l) s'.
Proof.
  revert I s; induction l as [|x l IH]; intros I s H0 Hs; cbn; [eauto|].
  destruct (Hs 0%nat x s) as (s' & -> & H1); [done..|]. cbn.
  apply (IH (fun k => I (Datatypes.S k))); [done|].
  intros k y t Hk. by apply (Hs (Datatypes.S k)).
Qed.

(** A loop that returned keeps what its body keeps. *)
Lemma go_fold_pres {A S} (P : S -> Prop) (f : A -> S -> go S) l s s' :
  (forall x s1 s2, P s1 -> f x s1 = Ret s2 -> P s2) -> P s -> go_fold f l s = Ret s' -> P s'.
Proof.
  intros Hf. revert s. induction l as [|x l IH]; intros s Hs E; cbn in E; go_inv; [done|]. by eapply IH; [eapply Hf|].
Qed.

Lemma go_for_inv {S} (I : Z -> S -> Prop) a b (body : Z -> S -> go S) s :
  a <= b -> I a s ->
  (forall i s, a <= i < b -> I i s -> exists s', body i s = Ret s' /\ I (i + 1) s') ->
  exists s', go_for a b body s = Ret s' /\ I b s'.
Proof.
  intros Hab H0 Hs. unfold go_for.
  destruct (go_fold_inv (fun k => I (a + Z.of_nat k)) body (seqZ a (b - a)) s)
    as (s' & E & H).
  - by rewrite Z.add_0_r.
  - intros k x t Hx HI. apply lookup_seqZ in Hx as [-> Hlt].
    destruct (Hs (a + Z.of_nat k) t) as (t' & E & H); [lia|done|].
    exists t'. split; [done|]. by replace (a + Z.of_nat (Datatypes.S k)) with (a + Z.of_nat k + 1) by lia.
  - exists s'. split; [done|]. rewrite length_seqZ in H. by replace (a + Z.of_nat (Z.to_nat (b - a))) with b in H by lia.
Qed.

(** ** Machine integers *)

Definition MaxInt64 : Z := 9223372036854775807.
Definition MinInt64 : Z := -9223372036854775808.
Definition two63 : Z := 9223372036854775808.
Definition two64 : Z := 18446744073709551616.

(** The value of a Go [int64] (or [int]) expression whose mathematical
    value is [z]. *)
Definition wrap64 (z : Z) : Z := (z + two63) mod two64 - two63.
(** The value of a Go [int32] expression. *)
Definition wrap32 (z : Z) : Z := (z + 2 ^ 31) mod 2 ^ 32 - 2 ^ 31.
(** The value of a Go [uint64] expression. *)
Definition uwrap64 (z : Z) : Z := z mod two64.

Definition int64 (z : Z) : Prop := MinInt64 <= z <= MaxInt64.

#[global] Instance int64_dec z : Decision (int64 z).
Proof. unfold int64. apply _. Defined.

Ltac unfold_int64 := unfold int64, wrap64, uwrap64, MinInt64, MaxInt64, two63, two64 in *.

Lemma wrap64_small z : int64 z -> wrap64 z = z.
Proof. unfold_int64; intros H; rewrite Z.mod_small; lia. Qed.

Lemma wrap64_int64 z : int64 (wrap64 z).
Proof.
  unfold_int64.
  pose proof (Z.mod_pos_bound (z + 9223372036854775808) 18446744073709551616); lia.
Qed.

(** The representative is unique: [wrap64 z] differs from [z] by a multiple
    of 2^64. *)
Lemma wrap64_eq z : exists k, wrap64 z = z + k * two64.
Proof.
  unfold wrap64. exists (- ((z + two63) / two64)).
  pose proof (Z.div_mod (z + two63) two64 ltac:(unfold two64; lia)); lia.
Qed.

Definition add64 a b := wrap64 (a + b).
Definition sub64 a b := wrap64 (a - b).
Definition mul64 a b := wrap64 (a * b).

(** [int] lengths and indices are plain [Z]: no slice of the program can
    have 2^63 elements. *)
Definition zlen {A} (l : list A) : Z := Z.of_nat (length l).

(** [MaxInt]/[MinInt] of libs/common/math.go are [Z.max] and [Z.min]. *)

(** ** Slices *)

(** [l[i]] *)
Definition idx {A} (l : list A) (i : Z) : go A :=
  if i <? 0 then Panic IndexOutOfRange
  else match l !! Z.to_nat i with Some x => Ret x | None => Panic IndexOutOfRange end.

(** [l[i] = x] *)
Definition upd {A} (l : list A) (i : Z) (x : A) : go (list A) :=
  if (i <? 0) || (zlen l <=? i) then Panic IndexOutOfRange
  else Ret (<[Z.to_nat i := x]> l).

(** [make([]T, n)] with zero value [z] *)
Definition mkslice {A} (n : Z) (z : A) : go (list A) :=
  if n <? 0 then Panic MakeSliceLen else Ret (replicate (Z.to_nat n) z).

(** [l[a:b]] *)
Definition slice {A} (l : list A) (a b : Z) : go (list A) :=
  if (a <? 0) || (b <? a) || (zlen l <? b) then Panic SliceBounds
  else Ret (take (Z.to_nat (b - a)) (drop (Z.to_nat a) l)).

(** [copy(dst, src)] *)
Definition gocopy {A} (dst src : list A) : list A :=
  take (length dst) src ++ drop (length src) dst.

Lemma idx_ret {A} (l : list A) i x :
  idx l i = Ret x <-> 0 <= i /\ l !! Z.to_nat i = Some x.
Proof.
  unfold idx. destruct (Z.ltb_spec i 0); [split; [done|lia]|].
  destruct (l !! Z.to_nat i); split; intros; destruct_and?; try done; try lia; naive_solver.
Qed.

Lemma idx_total {A} (l : list A) i : 0 <= i < zlen l -> exists x, idx l i = Ret x /\ l !! Z.to_nat i = Some x.
Proof.
  unfold zlen; intros H.
  destruct (lookup_lt_is_Some_2 l (Z.to_nat i)) as [x Hx]; [lia|].
  exists x. split; [apply idx_ret; split; [lia|done]|done].
Qed.

Lemma idx_lookup {A} (l : list A) i x : 0 <= i -> l !! Z.to_nat i = Some x -> idx l i = Ret x.
Proof. intros; by apply idx_ret. Qed.

Lemma upd_ret {A} (l : list A) i x : 0 <= i < zlen l -> upd l i x = Ret (<[Z.to_nat i := x]> l).
Proof. unfold upd; intros [H1 H2]. rewrite (proj2 (Z.ltb_ge _ _)), (proj2 (Z.leb_gt _ _)) by lia. done. Qed.

Lemma upd_inv {A} (l : list A) i x l' :
  upd l i x = Ret l' -> 0 <= i < zlen l /\ l' = <[Z.to_nat i := x]> l.
Proof.
  unfold upd. destruct (Z.ltb_spec i 0), (Z.leb_spec (zlen l) i); cbn; intros [= <-]; split; [lia|done].
Qed.

Lemma zlen_nonneg {A} (l : list A) : 0 <= zlen l.
Proof. unfold zlen; lia. Qed.

Lemma slice_ret {A} (l : list A) a b : 0 <= a <= b -> b <= zlen l ->
  slice l a b = Ret (take (Z.to_nat (b - a)) (drop (Z.to_nat a) l)).
Proof.
  intros Ha Hb. unfold slice. rewrite (proj2 (Z.ltb_ge a 0)), (proj2 (Z.ltb_ge b a)), (proj2 (Z.ltb_ge (zlen l) b)) by lia. done.
Qed.

Lemma zlen_insert {A} (l : list A) i x : zlen (<[i := x]> l) = zlen l.
Proof. unfold zlen. by rewrite length_insert. Qed.

Lemma zlen_app {A} (l k : list A) : zlen (l ++ k) = zlen l + zlen k.
Proof. unfold zlen. rewrite length_app; lia. Qed.

Lemma zlen_replicate {A} n (x : A) : zlen (replicate n x) = Z.of_nat n.
Proof. unfold zlen. by rewrite length_replicate. Qed.

Lemma length_gocopy {A} (dst src : list A) : length (gocopy dst src) = length dst.
Proof. unfold gocopy. rewrite length_app, length_take, length_drop. lia. Qed.

Lemma lookup_gocopy {A} (dst src : list A) i :
  (i < length dst)%nat -> gocopy dst src !! i = match src !! i with Some x => Some x | None => dst !! i end.
Proof.
  intros Hi. unfold gocopy. destruct (src !! i) eqn:E.
  - pose proof (lookup_lt_Some _ _ _ E).
    rewrite lookup_app_l by (rewrite length_take; lia). by rewrite lookup_take_lt by lia.
  - apply lookup_ge_None in E.
    rewrite lookup_app_r by (rewrite length_take; lia).
    rewrite length_take, lookup_drop. f_equal. lia.
Qed.

(** ** Bytes *)

Abbreviation bytes := (list Byte.byte).

Definition byte_Z (b : Byte.byte) : Z := Z.of_N (Byte.to_N b).
Definition Z_byte (z : Z) : Byte.byte :=
  match Byte.of_N (Z.to_N (z mod 256)) with Some b => b | None => Byte.x00 end.

Lemma byte_Z_range b : 0 <= byte_Z b < 256.
Proof. unfold byte_Z. pose proof (Byte.to_N_bounded b). lia. Qed.

Lemma byte_Z_inj a b : byte_Z a = byte_Z b -> a = b.
Proof.
  unfold byte_Z; intros H%N2Z.inj.
  assert (Some a = Some b) as [=]; [|done].
  by rewrite <- !Byte.of_to_N, H.
Qed.

Lemma Z_byte_of_Z b : Z_byte (byte_Z b) = b.
Proof.
  unfold Z_byte. pose proof (byte_Z_range b).
  rewrite Z.mod_small by lia. unfold byte_Z. by rewrite N2Z.id, Byte.of_to_N.
Qed.

Lemma byte_Z_of_byte z : byte_Z (Z_byte z) = z mod 256.
Proof.
  unfold Z_byte. pose proof (Z.mod_pos_bound z 256).
  destruct (Byte.of_N _) as [b|] eqn:E.
  - apply Byte.to_of_N in E. unfold byte_Z. rewrite E. lia.
  - apply Byte.of_N_None_iff in E. lia.
Qed.

#[global] Instance byte_eq_dec : EqDecision Byte.byte := Byte.byte_eq_dec.
#[global] Program Instance byte_countable : Countable Byte.byte :=
  inj_countable' Byte.to_N (fun n => default Byte.x00 (Byte.of_N n)) _.
Next Obligation. intros b. cbn beta. by rewrite Byte.of_to_N. Qed.

(** The bytes of a Go string literal. *)
Definition str (s : String.string) : bytes := String.list_byte_of_string s.
Arguments str s%_string_scope.

(** [bytes.Equal] *)
Definition bytes_eqb (a b : bytes) : bool := bool_decide (a = b).

Lemma bytes_eqb_true a b : bytes_eqb a b = true <-> a = b.
Proof. apply bool_decide_eq_true. Qed.

Lemma bytes_eqb_false a b : bytes_eqb a b = false <-> a <> b.
Proof. apply bool_decide_eq_false. Qed.

Lemma bytes_eqb_refl a : bytes_eqb a a = true.
Proof. by apply bytes_eqb_true. Qed.

(** [bytes.Compare]: lexicographic order, a proper prefix being smaller. *)
Fixpoint bytes_compare (a b : bytes) : comparison :=
  match a, b with
  | [], [] => Eq
  | [], _ :: _ => Lt
  | _ :: _, [] => Gt
  | x :: a, y :: b =>
      match Z.compare (byte_Z x) (byte_Z y) with
      | Eq => bytes_compare a b
      | c => c
      end
  end.

Lemma bytes_compare_eq a b : bytes_compare a b = Eq <-> a = b.
Proof.
  revert b; induction a as [|x a IH]; intros [|y b]; cbn; try done.
  destruct (Z.compare_spec (byte_Z x) (byte_Z y)) as [E|E|E].
  - apply byte_Z_inj in E as ->. rewrite IH. split; [by intros -> | by intros [=]].
  - split; [done|]. intros [= -> ->]; lia.
  - split; [done|]. intros [= -> ->]; lia.
Qed.

Lemma bytes_compare_antisym a b : bytes_compare b a = CompOpp (bytes_compare a b).
Proof.
  revert b; induction a as [|x a IH]; intros [|y b]; cbn; try done.
  rewrite Z.compare_antisym. destruct (Z.compare _ _); cbn; auto.
Qed.

Lemma bytes_compare_refl a : bytes_compare a a = Eq.
Proof. by apply bytes_compare_eq. Qed.

Lemma bytes_compare_trans a b c :
  bytes_compare a b = Lt -> bytes_compare b c = Lt -> bytes_compare a c = Lt.
Proof.
  revert b c; induction a as [|x a IH]; intros [|y b] [|z c]; cbn; try done.
  destruct (Z.compare_spec (byte_Z x) (byte_Z y)), (Z.compare_spec (byte_Z y) (byte_Z z)),
    (Z.compare_spec (byte_Z x) (byte_Z z)); try done; try lia; eauto.
Qed.

Definition bytes_lt (a b : bytes) : Prop := bytes_compare a b = Lt.
#[global] Instance bytes_lt_dec a b : Decision (bytes_lt a b).
Proof. unfold bytes_lt. solve_decision. Defined.

Lemma bytes_lt_irrefl a : ~ bytes_lt a a.
Proof. unfold bytes_lt. by rewrite bytes_compare_refl. Qed.

Lemma bytes_lt_total a b : bytes_lt a b \/ a = b \/ bytes_lt b a.
Proof.
  unfold bytes_lt. rewrite (bytes_compare_antisym a b).
  destruct (bytes_compare a b) eqn:E; [|by left|by right; right].
  right; left. by apply bytes_compare_eq.
Qed.

(** [hex.EncodeToString] *)
Definition hexDigit (z : Z) : Byte.byte := Z_byte (if z <? 10 then 48 + z else 87 + z).
Definition hexEncode (b : bytes) : bytes :=
  mjoin ((fun x => [hexDigit (byte_Z x / 16); hexDigit (byte_Z x mod 16)]) <$> b).

Lemma hexDigit_inj a b : 0 <= a < 16 -> 0 <= b < 16 -> hexDigit a = hexDigit b -> a = b.
Proof.
  unfold hexDigit. intros Ha Hb E. apply (f_equal byte_Z) in E. rewrite !byte_Z_of_byte in E.
  destruct (Z.ltb_spec a 10), (Z.ltb_spec b 10); rewrite !Z.mod_small in E by lia; lia.
Qed.

Lemma hexEncode_inj a b : hexEncode a = hexEncode b -> a = b.
Proof.
  revert b. induction a as [|x a IH]; intros [|y b] E; try done.
  unfold hexEncode in *. cbn in E. injection E as E1 E2 E3. rewrite (IH _ E3). f_equal.
  pose proof (byte_Z_range x). pose proof (byte_Z_range y). apply byte_Z_inj.
  apply hexDigit_inj in E1; [|split; [apply Z.div_pos|apply Z.div_lt_upper_bound]; lia..].
  apply hexDigit_inj in E2; [|apply Z.mod_pos_bound; lia..].
  rewrite (Z.div_mod (byte_Z x) 16), (Z.div_mod (byte_Z y) 16) by lia. congruence.
Qed.

(** ** Sums over slices *)

Definition sumZ {A} (f : A -> Z) (l : list A) : Z := foldr (fun x s => f x + s) 0 l.
#[global] Arguments sumZ : simpl never.

Lemma sumZ_cons {A} (f : A -> Z) x l : sumZ f (x :: l) = f x + sumZ f l.
Proof. done. Qed.

Lemma sumZ_app {A} (f : A -> Z) l k : sumZ f (l ++ k) = sumZ f l + sumZ f k.
Proof. induction l as [|x l IH]; cbn; [done|]. rewrite !sumZ_cons. lia. Qed.

Lemma sumZ_nonneg {A} (f : A -> Z) l : (forall x, x ∈ l -> 0 <= f x) -> 0 <= sumZ f l.
Proof.
  induction l as [|x l IH]; intros H; [done|]. rewrite sumZ_cons.
  pose proof (H x ltac:(set_solver)). assert (0 <= sumZ f l) by (apply IH; set_solver). lia.
Qed.

Lemma sumZ_le {A} (f g : A -> Z) l : (forall x, x ∈ l -> f x <= g x) -> sumZ f l <= sumZ g l.
Proof.
  induction l as [|x l IH]; intros H; [done|]. rewrite !sumZ_cons.
  pose proof (H x ltac:(set_solver)). assert (sumZ f l <= sumZ g l) by (apply IH; set_solver). lia.
Qed.

Lemma sumZ_ext {A} (f g : A -> Z) l : (forall x, x ∈ l -> f x = g x) -> sumZ f l = sumZ g l.
Proof.
  induction l as [|x l IH]; intros H; [done|]. rewrite !sumZ_cons.
  rewrite (H x) by set_solver. rewrite IH; [done|set_solver].
Qed.

Lemma sumZ_add {A} (f g : A -> Z) l : sumZ (fun x => f x + g x) l = sumZ f l + sumZ g l.
Proof. induction l as [|x l IH]; [done|]. rewrite !sumZ_cons. lia. Qed.

Lemma sumZ_perm {A} (f : A -> Z) l k : l ≡ₚ k -> sumZ f l = sumZ f k.
Proof. induction 1; rewrite ?sumZ_cons; lia. Qed.

Lemma sumZ_fmap {A B} (f : B -> Z) (g : A -> B) (l : list A) : sumZ f (g <$> l) = sumZ (fun x => f (g x)) l.
Proof. induction l as [|x l IH]; [done|]. by rewrite fmap_cons, !sumZ_cons, IH. Qed.

Lemma sumZ_insert {A} (f : A -> Z) l i x y :
  l !! i = Some y -> sumZ f (<[i := x]> l) = sumZ f l - f y + f x.
Proof.
  revert i; induction l as [|z l IH]; intros [|i] H; cbn in H; try done.
  - injection H as ->. change (<[0%nat := x]> (y :: l)) with (x :: l). rewrite !sumZ_cons. lia.
  - change (<[S i := x]> (z :: l)) with (z :: <[i := x]> l). rewrite !sumZ_cons, (IH _ H). lia.
Qed.

(** ** Package sort *)

(** [sort.Sort] returns a sorted permutation; for the orders of the program
    it is unique (see [isort_unique]), and insertion sort computes it. *)
Section Sort.
Context {A : Type} (less : A -> A -> bool).

Fixpoint sortInsert (x : A) (l : list A) : list A :=
  match l with
  | [] => [x]
  | y :: l => if less y x then y :: sortInsert x l else x :: y :: l
  end.
Definition isort (l : list A) : list A := foldr sortInsert [] l.

(** No element is less than an earlier one. *)
Definition sortedBy : list A -> Prop := StronglySorted (fun a b => less b a = false).

Lemma sortInsert_perm x l : sortInsert x l ≡ₚ x :: l.
Proof.
  induction l as [|y l IH]; cbn; [done|]. destruct (less y x); [|done].
  rewrite IH. apply Permutation_swap.
Qed.

Lemma isort_perm l : isort l ≡ₚ l.
Proof. induction l as [|x l IH]; cbn; [done|]. by rewrite sortInsert_perm, IH. Qed.

Context (less_asym : forall x y, less x y = true -> less y x = false).
Context (le_trans : forall x y z, less y x = false -> less z y = false -> less z x = false).

Lemma sortInsert_sorted x l : sortedBy l -> sortedBy (sortInsert x l).
Proof.
  unfold sortedBy. induction l as [|y l IH]; cbn; intros H.
  { repeat constructor. }
  apply StronglySorted_inv in H as [Hs Hf]. destruct (less y x) eqn:E.
  - constructor; [auto|]. rewrite sortInsert_perm. constructor; [auto|done].
  - constructor; [by constructor|]. constructor; [done|].
    eapply Forall_impl; [done|]. intros z Hz. by eapply le_trans.
Qed.

Lemma isort_sorted l : sortedBy (isort l).
Proof.
  unfold isort. induction l as [|x l IH]; cbn; [constructor|]. by apply sortInsert_sorted.
Qed.

Lemma isort_unique l k :
  (forall x y, x ∈ l -> y ∈ l -> less x y = false -> less y x = false -> x = y) ->
  sortedBy k -> k ≡ₚ l -> k = isort l.
Proof.
  intros Hanti Hk Hp. pose proof (isort_sorted l) as Hl. pose proof (isort_perm l) as Hpl.
  revert Hl Hpl. generalize (isort l). revert l Hanti Hp.
  induction k as [|x k IH]; intros l Hanti Hp m Hm Hpm.
  { apply Permutation_nil_l in Hp. subst l. by apply Permutation_nil_r in Hpm as ->. }
  destruct m as [|y m]; [apply Permutation_nil_l in Hpm; subst l; by apply Permutation_nil_r in Hp|].
  unfold sortedBy in *. apply StronglySorted_inv in Hk as [Hk Hfk]. apply StronglySorted_inv in Hm as [Hm Hfm].
  assert (Hxl : x ∈ l) by (rewrite <- Hp; by left).
  assert (Hyl : y ∈ l) by (rewrite <- Hpm; by left).
  assert (Hxx : forall z, less z z = false) by (intros z; destruct (less z z) eqn:E; [pose proof (less_asym _ _ E); congruence|done]).
  assert (x = y) as <-.
  { apply Hanti; [done|done| |].
    - rewrite <- Hpm in Hxl. apply elem_of_cons in Hxl as [->|Hx]; [done|].
      rewrite Forall_forall in Hfm. by apply Hfm.
    - rewrite <- Hp in Hyl. apply elem_of_cons in Hyl as [->|Hy]; [done|].
      rewrite Forall_forall in Hfk. by apply Hfk. }
  f_equal. rewrite <- Hp in Hpm. apply Permutation_cons_inv in Hpm.
  apply (IH Hk k); [|done|done|done].
  intros a b Ha Hb. apply Hanti; rewrite <- Hp; by right.
Qed.
End Sort.

(** [sort.Search(n, f)]: the binary search of the standard library.  The
    interval halves, so [n] steps are enough. *)
Fixpoint searchLoop (fuel : nat) (f : Z -> go bool) (i j : Z) : go Z :=
  match fuel with
  | O => Ret i
  | S fuel =>
      if i <? j then
        let h := i + (j - i) / 2 in
        b ← f h;
        if b : bool then searchLoop fuel f i h else searchLoop fuel f (h + 1) j
      else Ret i
  end.
Definition sort_Search (n : Z) (f : Z -> go bool) : go Z := searchLoop (Z.to_nat n) f 0 n.

Lemma searchLoop_spec fuel (f : Z -> go bool) (p : Z -> bool) i j :
  0 <= i <= j -> j - i <= Z.of_nat fuel ->
  (forall k, i <= k < j -> f k = Ret (p k)) ->
  (forall a b, i <= a <= b -> b < j -> p a = true -> p b = true) ->
  exists r, searchLoop fuel f i j = Ret r /\ i <= r <= j /\
    (forall k, i <= k < r -> p k = false) /\ (r < j -> p r = true).
Proof.
  revert i j. induction fuel as [|fuel IH]; intros i j Hij Hf Hp Hm; cbn [searchLoop].
  { exists i. split_and!; [done|lia|lia|lia|lia]. }
  destruct (Z.ltb_spec i j); [|exists i; split_and!; [done|lia..]].
  pose proof (Z.div_mod (j - i) 2 ltac:(lia)). pose proof (Z.mod_pos_bound (j - i) 2 ltac:(lia)).
  set (h := i + (j - i) / 2) in *. assert (i <= h < j) by (unfold h; lia).
  rewrite Hp by lia. cbn [mbind go_mbind]. destruct (p h) eqn:E.
  - destruct (IH i h) as (r & -> & Hr & Hlo & Hhi); [lia|unfold h in *; lia|intros; apply Hp; lia|intros a b **; apply (Hm a b); [lia..|done]|].
    exists r. split_and!; [done|lia|lia|done|]. intros _. destruct (Z.eq_dec r h) as [->|]; [done|apply Hhi; lia].
  - destruct (IH (h + 1) j) as (r & -> & Hr & Hlo & Hhi); [lia|unfold h in *; lia|intros; apply Hp; lia|intros a b **; apply (Hm a b); [lia..|done]|].
    exists r. split_and!; [done|lia|lia| |done]. intros k Hk.
    destruct (Z.ltb_spec h k); [apply Hlo; lia|].
    destruct (p k) eqn:Ek; [|done]. rewrite (Hm k h) in E by (done || lia). done.
Qed.

(** On a predicate that is monotone in the index, [sort.Search] returns the
    first index where it holds, or [n]. *)
Lemma sort_Search_spec n (f : Z -> go bool) (p : Z -> bool) : 0 <= n ->
  (forall k, 0 <= k < n -> f k = Ret (p k)) ->
  (forall a b, 0 <= a <= b -> b < n -> p a = true -> p b = true) ->
  exists r, sort_Search n f = Ret r /\ 0 <= r <= n /\
    (forall k, 0 <= k < r -> p k = false) /\ (r < n -> p r = true).
Proof. intros. unfold sort_Search. apply searchLoop_spec; try done; lia. Qed.

(** ** Hints *)

Create HintDb go_db.
Create Rewrite HintDb go_db.
#[export] Hint Resolve zlen_nonneg wrap64_int64 byte_Z_range : go_db.
#[export] Hint Rewrite @zlen_insert @zlen_app @zlen_replicate : go_db.

(** ** A codec that reads back what it writes, for examples *)

(** The binary digits of a number as bytes. *)
Fixpoint posBytes (p : positive) : bytes :=
  match p with xH => [] | xO p => Byte.x00 :: posBytes p | xI p => Byte.x01 :: posBytes p end.
Fixpoint bytesPos (b : bytes) : positive :=
  match b with [] => xH | x :: b => if decide (x = Byte.x00) then xO (bytesPos b) else xI (bytesPos b) end.

Lemma bytesPos_posBytes p : bytesPos (posBytes p) = p.
Proof. induction p as [p IH|p IH|]; cbn; [by rewrite IH|by rewrite IH|done]. Qed.

(** A leading byte makes every encoding non-empty. *)
Definition enc `{Countable A} (x : A) : bytes := Byte.x02 :: posBytes (encode x).
Definition dec `{Countable A} (b : bytes) : option A := decode (bytesPos (tail b)).
Lemma dec_enc `{Countable A} (x : A) : dec (enc x) = Some x.
Proof. unfold dec, enc. cbn [tail]. rewrite bytesPos_posBytes. apply decode_encode. Qed.

(** The value a computation returned, to name the states of an example run. *)
Definition fromRet {A} (d : A) (m : go A) : A := match m with Ret a => a | Panic _ => d end.
Definition isRet {A} (m : go A) : bool := match m with Ret _ => true | Panic _ => false end.
Lemma fromRet_ok {A} (d : A) m : isRet m = true -> m = Ret (fromRet d m).
Proof. by destruct m. Qed.

(** ** [bufio.Writer] *)

(** What a write of [p] to a buffer of [size] bytes passes on, and what stays
    in the buffer. *)
Definition bufio_Write (size : Z) (buf p : bytes) : bytes * bytes :=
  let avail := size - zlen buf in
  if zlen p <=? avail then ([], buf ++ p) else
  match buf with
  | [] => (p, [])
  | _ =>
      let q := drop (Z.to_nat avail) p in
      if zlen q <=? size then (buf ++ take (Z.to_nat avail) p, q) else (buf ++ p, [])
  end.
Lemma bufio_Write_split size buf p : let '(out, b) := bufio_Write size buf p in out ++ b = buf ++ p.
Proof.
  unfold bufio_Write. destruct (zlen p <=? _); [done|]. destruct buf as [|x buf]; [by rewrite app_nil_r|]. destruct (zlen (drop _ p) <=? _); [|by rewrite app_nil_r].
  by rewrite <- app_assoc, take_drop.
Qed.
