(* ===== verification/BitArray.v ===== *)
(** * libs/common/bit_array.go

    The bit arrays that votes, block parts and gossip use: a number of bits
    and 64-bit words.  A Go [*BitArray] is an [option BitArray], [None] being
    the nil pointer; methods that mutate the receiver return it. The mutex is
    not modelled: every method is one critical section. *)

From S2P Require Import Prelude.

Module BitArray.

Record BitArray := mkBitArray { Bits : Z; Elems : list Z }.

(** [uint64(1) << uint(i%64)]: a shift by 64 or more gives 0, and [uint] of
    a negative remainder is such a shift. *)
Definition bitmask (i : Z) : Z :=
  let s := uwrap64 (Z.rem i 64) in
  if s <? 64 then Z.shiftl 1 s else 0.

(** [^e] on a [uint64] *)
Definition not64 (e : Z) : Z := Z.lxor e (two64 - 1).

Definition NewBitArray (bits : Z) : go (option BitArray) :=
  if bits <=? 0 then Ret None
  else elems ← mkslice (Z.quot (bits + 63) 64) 0;
       Ret (Some (mkBitArray bits elems)).

Definition Size (bA : option BitArray) : Z :=
  match bA with None => 0 | Some bA => Bits bA end.

Definition getIndex (bA : BitArray) (i : Z) : go bool :=
  if Bits bA <=? i then Ret false
  else e ← idx (Elems bA) (Z.quot i 64);
       Ret (0 <? Z.land e (bitmask i)).

Definition GetIndex (bA : option BitArray) (i : Z) : go bool :=
  match bA with None => Ret false | Some bA => getIndex bA i end.

Definition setIndex (bA : BitArray) (i : Z) (v : bool) : go (BitArray * bool) :=
  if Bits bA <=? i then Ret (bA, false)
  else e ← idx (Elems bA) (Z.quot i 64);
       let e' := if v then Z.lor e (bitmask i) else Z.land e (not64 (bitmask i)) in
       elems ← upd (Elems bA) (Z.quot i 64) e';
       Ret (mkBitArray (Bits bA) elems, true).

Definition SetIndex (bA : option BitArray) (i : Z) (v : bool) : go (option BitArray * bool) :=
  match bA with
  | None => Ret (None, false)
  | Some bA => r ← setIndex bA i v; Ret (Some r.1, r.2)
  end.

Definition copy (bA : BitArray) : BitArray :=
  mkBitArray (Bits bA) (gocopy (replicate (length (Elems bA)) 0) (Elems bA)).

Definition Copy (bA : option BitArray) : option BitArray :=
  match bA with None => None | Some bA => Some (copy bA) end.

Definition copyBits (bA : BitArray) (bits : Z) : go BitArray :=
  c ← mkslice (Z.quot (bits + 63) 64) 0;
  Ret (mkBitArray bits (gocopy c (Elems bA))).

(** The loop [for i := 0; i < len(c.Elems); i++ { c.Elems[i] = op(c.Elems[i], o.Elems[i]) }]
    that [Or] and [and] share. *)
Definition wordLoop (op : Z -> Z -> Z) (c o : list Z) : go (list Z) :=
  go_for 0 (zlen c)
    (fun i c => x ← idx c i; y ← idx o i; upd c i (op x y)) c.

Definition Or (bA o : option BitArray) : go (option BitArray) :=
  match bA, o with
  | None, None => Ret None
  | None, Some _ => Ret (Copy o)
  | Some _, None => Ret (Copy bA)
  | Some bA, Some o =>
      c ← copyBits bA (Z.max (Bits bA) (Bits o));
      elems ← wordLoop Z.lor (Elems c) (Elems o);
      Ret (Some (mkBitArray (Bits c) elems))
  end.

Definition and (bA o : BitArray) : go BitArray :=
  c ← copyBits bA (Z.min (Bits bA) (Bits o));
  elems ← wordLoop Z.land (Elems c) (Elems o);
  Ret (mkBitArray (Bits c) elems).

Definition And (bA o : option BitArray) : go (option BitArray) :=
  match bA, o with
  | Some bA, Some o => c ← and bA o; Ret (Some c)
  | _, _ => Ret None
  end.

Definition not (bA : BitArray) : BitArray :=
  let c := copy bA in mkBitArray (Bits c) (not64 <$> Elems c).

Definition Not (bA : option BitArray) : option BitArray :=
  match bA with None => None | Some bA => Some (not bA) end.

Definition Sub (bA o : option BitArray) : go (option BitArray) :=
  match bA, o with
  | Some bA, Some o =>
      if Bits o <? Bits bA then
        let c := copy bA in
        elems ← go_for 0 (zlen (Elems o) - 1)
                  (fun i c => x ← idx c i; upd c i (Z.land x (not64 x))) (Elems c);
        let c := mkBitArray (Bits c) elems in
        let i := zlen (Elems o) - 1 in
        c ← (if 0 <=? i then
               go_for (i * 64) (Bits o)
                 (fun k c => x ← getIndex c k;
                             y ← (if x : bool then GetIndex (Some o) k else Ret true);
                             r ← setIndex c k (x && negb y);
                             Ret r.1) c
             else Ret c);
        Ret (Some c)
      else c ← and bA (not o); Ret (Some c)
  | _, _ => Ret None
  end.

Definition IsEmpty (bA : option BitArray) : bool :=
  match bA with
  | None => true
  | Some bA => forallb (fun e => negb (0 <? e)) (Elems bA)
  end.

Definition IsFull (bA : option BitArray) : go bool :=
  match bA with
  | None => Ret true
  | Some bA =>
      init ← slice (Elems bA) 0 (zlen (Elems bA) - 1);
      if negb (forallb (fun e => not64 e =? 0) init) then Ret false
      else
        let lastElemBits := Z.rem (Bits bA + 63) 64 + 1 in
        lastElem ← idx (Elems bA) (zlen (Elems bA) - 1);
        let mask := if lastElemBits <? 64 then uwrap64 (Z.shiftl 1 lastElemBits - 1) else uwrap64 (0 - 1) in
        Ret (Z.land (uwrap64 (lastElem + 1)) mask =? 0)
  end.

(** [PickRandom]: [RandIntn k n] is the [k]-th draw of the call, a number
    below [n]; the number of draws made so far is threaded through. *)
Section PickRandom.
Context (RandIntn : nat -> Z -> Z).

(** [for j := 0; j < n; j++]: the first set bit of [e] at or after [start],
    cyclically among the first [n] bits. *)
Fixpoint pickBit (e n start : Z) (js : list Z) : option Z :=
  match js with
  | [] => None
  | j :: js =>
      let bitIdx := Z.rem (j + start) n in
      if 0 <? Z.land e (Z.shiftl 1 bitIdx) then Some bitIdx else pickBit e n start js
  end.

Fixpoint pickElem (bA : BitArray) (start : Z) (idxs : list Z) (draws : nat) : go (Z * bool) :=
  match idxs with
  | [] => Ret (0, false)
  | i :: idxs =>
      let length := zlen (Elems bA) in
      let elemIdx := Z.rem (i + start) length in
      e ← idx (Elems bA) elemIdx;
      if elemIdx <? length - 1 then
        if 0 <? e then
          match pickBit e 64 (RandIntn draws 64) (seqZ 0 64) with
          | Some bitIdx => Ret (64 * elemIdx + bitIdx, true)
          | None => Panic (PanicSanity "should not happen")
          end
        else pickElem bA start idxs draws
      else
        let elemBits := Z.rem (Bits bA) 64 in
        let elemBits := if elemBits =? 0 then 64 else elemBits in
        match pickBit e elemBits (RandIntn draws elemBits) (seqZ 0 elemBits) with
        | Some bitIdx => Ret (64 * elemIdx + bitIdx, true)
        | None => pickElem bA start idxs (S draws)
        end
  end.

Definition PickRandom (bA : option BitArray) : go (Z * bool) :=
  match bA with
  | None => Ret (0, false)
  | Some bA =>
      let length := zlen (Elems bA) in
      if length =? 0 then Ret (0, false)
      else pickElem bA (RandIntn 0 length) (seqZ 0 length) 1
  end.
End PickRandom.

(** [binary.LittleEndian.PutUint64] *)
Definition leBytes (e : Z) : bytes :=
  (fun k => Z_byte (Z.shiftr e (8 * k))) <$> seqZ 0 8.

Definition Bytes (bA : option BitArray) : go bytes :=
  match bA with
  | None => Panic NilDeref
  | Some bA =>
      let numBytes := Z.quot (Bits bA + 7) 8 in
      bytes ← mkslice numBytes Byte.x00;
      go_for 0 (zlen (Elems bA))
        (fun i b => e ← idx (Elems bA) i;
                    tl ← slice b (i * 8) (zlen b);
                    Ret (take (Z.to_nat (i * 8)) b ++ gocopy tl (leBytes e))) bytes
  end.

Definition Update (bA o : option BitArray) : option BitArray :=
  match bA, o with
  | Some bA, Some o => Some (mkBitArray (Bits bA) (gocopy (Elems bA) (Elems o)))
  | _, _ => bA
  end.

(** ** JSON *)

Definition quote : Byte.byte := Byte.x22.
Definition ch_x : Byte.byte := Byte.x78.
Definition ch__ : Byte.byte := Byte.x5f.

Definition bitChars (bA : BitArray) : go bytes :=
  go_for 0 (Bits bA)
    (fun i bits => b ← getIndex bA i;
                   Ret (bits ++ [if b : bool then ch_x else ch__])) [].

Definition MarshalJSON (bA : option BitArray) : go bytes :=
  match bA with
  | None => Ret (str "null")
  | Some bA => bits ← bitChars bA; Ret ([quote] ++ bits ++ [quote])
  end.

(** [bitArrayJSONRegexp.FindStringSubmatch(b)[1]]: the expression matches a
    whole string made of a quote, bit characters and a quote. *)
Definition isBitChar (c : Byte.byte) : bool := bool_decide (c = ch_x) || bool_decide (c = ch__).
Definition matchBits (b : bytes) : option bytes :=
  match b with
  | q :: rest =>
      match rev rest with
      | q' :: mid =>
          if bool_decide (q = quote) && bool_decide (q' = quote) && forallb isBitChar mid
          then Some (rev mid) else None
      | [] => None
      end
  | [] => None
  end.

(** [inr] is the receiver after a successful call, [inl] the error. *)
Definition UnmarshalJSON (bz : bytes) : go (bytes + BitArray) :=
  if bytes_eqb bz (str "null") then Ret (inr (mkBitArray 0 []))
  else match matchBits bz with
       | None => Ret (inl bz)
       | Some bits =>
           bA2 ← NewBitArray (zlen bits);
           bA2 ← go_for 0 (zlen bits)
                   (fun i bA2 => c ← idx bits i;
                      if bool_decide (c = ch_x) then r ← SetIndex bA2 i true; Ret r.1
                      else Ret bA2) bA2;
           match bA2 with
           | None => Panic NilDeref
           | Some bA2 => Ret (inr bA2)
           end
       end.

(** ** Well-formedness and the bits of an array *)

Definition wf (bA : BitArray) : Prop :=
  0 < Bits bA /\ zlen (Elems bA) = (Bits bA + 63) / 64 /\
  Forall (fun e => 0 <= e < two64) (Elems bA).

#[global] Instance wf_dec bA : Decision (wf bA).
Proof. unfold wf. apply _. Defined.

(** Bit [i] of the array. *)
Definition bit (bA : BitArray) (i : Z) : bool :=
  match Elems bA !! Z.to_nat (i / 64) with
  | Some e => Z.testbit e (i mod 64)
  | None => false
  end.

(** No bits beyond [Bits] are set in the last word. *)
Definition noStragglers (bA : BitArray) : Prop :=
  forall i, Bits bA <= i -> bit bA i = false.

Lemma word_range (P : Z -> Prop) l k e : Forall P l -> l !! k = Some e -> P e.
Proof. intros H; eapply Forall_lookup_1; eauto. Qed.

Lemma bitmask_pow i : 0 <= i -> bitmask i = 2 ^ (i mod 64).
Proof.
  intros Hi. unfold bitmask, uwrap64, two64.
  rewrite Z.rem_mod_nonneg by lia. pose proof (Z.mod_pos_bound i 64 ltac:(lia)).
  rewrite Z.mod_small by lia. rewrite (proj2 (Z.ltb_lt _ _)) by lia.
  rewrite Z.shiftl_mul_pow2 by lia. lia.
Qed.

Lemma land_pow2 e s : 0 <= e -> 0 <= s -> Z.land e (2 ^ s) = if Z.testbit e s then 2 ^ s else 0.
Proof.
  intros He Hs. apply Z.bits_inj'. intros n Hn.
  rewrite Z.land_spec, Z.pow2_bits_eqb by lia.
  destruct (Z.eqb_spec s n) as [->|Hne].
  - destruct (Z.testbit e n) eqn:E; [by rewrite Z.pow2_bits_eqb, Z.eqb_refl by lia | by rewrite Z.bits_0].
  - rewrite andb_false_r. destruct (Z.testbit e s); [|by rewrite Z.bits_0].
    rewrite Z.pow2_bits_eqb by lia. symmetry. by apply Z.eqb_neq.
Qed.

Lemma land_pow2_pos e s : 0 <= e -> 0 <= s -> (0 <? Z.land e (2 ^ s)) = Z.testbit e s.
Proof.
  intros He Hs. rewrite land_pow2 by done.
  destruct (Z.testbit e s); [apply Z.ltb_lt; apply Z.pow_pos_nonneg; lia | done].
Qed.

Lemma not64_spec e n : 0 <= e < two64 -> 0 <= n < 64 -> Z.testbit (not64 e) n = negb (Z.testbit e n).
Proof.
  intros He Hn. unfold not64. rewrite Z.lxor_spec.
  change (two64 - 1) with (Z.ones 64). rewrite Z.ones_spec_low by lia. apply xorb_true_r.
Qed.

Lemma bits_lt_two64 e : 0 <= e -> (forall n, 64 <= n -> Z.testbit e n = false) -> 0 <= e < two64.
Proof.
  intros He H. split; [done|]. apply Z.lt_nge. intros Hge.
  assert (64 <= Z.log2 e) by (apply (Z.log2_le_mono (2^64)) in Hge; by rewrite Z.log2_pow2 in Hge).
  specialize (H _ H0). rewrite Z.bit_log2 in H; [done | unfold two64 in *; lia].
Qed.

Lemma testbit_high e n : 0 <= e < two64 -> 64 <= n -> Z.testbit e n = false.
Proof.
  intros He Hn. destruct (Z.eqb_spec e 0) as [->|]; [by rewrite Z.bits_0|].
  apply Z.bits_above_log2; [lia|].
  assert (Z.log2 e < 64); [|lia]. apply Z.log2_lt_pow2; [lia|]. unfold two64 in *; lia.
Qed.

Lemma not64_range e : 0 <= e < two64 -> 0 <= not64 e < two64.
Proof.
  intros He. apply bits_lt_two64.
  - unfold not64. apply Z.lxor_nonneg. unfold two64 in *; lia.
  - intros n Hn. unfold not64. rewrite Z.lxor_spec, (testbit_high e) by done.
    change (two64 - 1) with (Z.ones 64). by rewrite Z.ones_spec_high by lia.
Qed.

Lemma lor_range e f : 0 <= e < two64 -> 0 <= f < two64 -> 0 <= Z.lor e f < two64.
Proof.
  intros He Hf. apply bits_lt_two64; [apply Z.lor_nonneg; lia|].
  intros n Hn. by rewrite Z.lor_spec, !testbit_high.
Qed.

Lemma land_range e f : 0 <= e < two64 -> 0 <= f -> 0 <= Z.land e f < two64.
Proof.
  intros He Hf. apply bits_lt_two64; [apply Z.land_nonneg; lia|].
  intros n Hn. by rewrite Z.land_spec, testbit_high.
Qed.

Lemma pow2_range i : 0 <= 2 ^ (i mod 64) < two64.
Proof.
  pose proof (Z.mod_pos_bound i 64 ltac:(lia)). split; [apply Z.pow_nonneg; lia|].
  change two64 with (2 ^ 64). apply Z.pow_lt_mono_r; lia.
Qed.

#[local] Hint Resolve not64_range lor_range land_range pow2_range : core.

Lemma wf_words bA k e : wf bA -> Elems bA !! k = Some e -> 0 <= e < two64.
Proof. intros (_ & _ & H). by apply (word_range (fun e => 0 <= e < two64)). Qed.

Lemma wf_lookup bA i : wf bA -> 0 <= i < Bits bA ->
  exists e, Elems bA !! Z.to_nat (i / 64) = Some e /\ 0 <= e < two64 /\
            idx (Elems bA) (Z.quot i 64) = Ret e.
Proof.
  intros (H0 & Hlen & Hw) Hi.
  destruct (idx_total (Elems bA) (i / 64)) as (e & E & L).
  { rewrite Hlen. split; [apply Z.div_pos; lia|]. apply Z.div_lt_upper_bound; [lia|].
    pose proof (Z.div_mod (Bits bA + 63) 64 ltac:(lia)).
    pose proof (Z.mod_pos_bound (Bits bA + 63) 64 ltac:(lia)). lia. }
  exists e. split; [done|]. split; [by apply (word_range (fun e => 0 <= e < two64) (Elems bA) (Z.to_nat (i/64)))|].
  by rewrite Z.quot_div_nonneg by lia.
Qed.

Lemma getIndex_spec bA i : wf bA -> 0 <= i < Bits bA -> getIndex bA i = Ret (bit bA i).
Proof.
  intros Hwf Hi. destruct (wf_lookup bA i Hwf Hi) as (e & L & He & E).
  unfold getIndex, bit. rewrite (proj2 (Z.leb_gt _ _)) by lia. rewrite E, L. cbn.
  rewrite bitmask_pow by lia. by rewrite land_pow2_pos by (try lia; apply Z.mod_pos_bound; lia).
Qed.

Lemma getIndex_out bA i : Bits bA <= i -> getIndex bA i = Ret false.
Proof. intros. unfold getIndex. by rewrite (proj2 (Z.leb_le _ _)). Qed.

(** The word [setIndex] stores. *)
Definition setWord (e i : Z) (v : bool) : Z :=
  if v then Z.lor e (bitmask i) else Z.land e (not64 (bitmask i)).

Lemma setWord_range e i v : 0 <= e < two64 -> 0 <= i -> 0 <= setWord e i v < two64.
Proof.
  intros He Hi. unfold setWord. rewrite bitmask_pow by done.
  destruct v; [auto|]. apply land_range; [done|]. apply not64_range. auto.
Qed.

Lemma setWord_spec e i v n : 0 <= e < two64 -> 0 <= i -> 0 <= n < 64 ->
  Z.testbit (setWord e i v) n = if n =? i mod 64 then v else Z.testbit e n.
Proof.
  intros He Hi Hn. unfold setWord. rewrite bitmask_pow by done.
  pose proof (Z.mod_pos_bound i 64 ltac:(lia)).
  destruct v.
  - rewrite Z.lor_spec, Z.pow2_bits_eqb by lia. rewrite Z.eqb_sym.
    destruct (n =? i mod 64); [apply orb_true_r | apply orb_false_r].
  - rewrite Z.land_spec, not64_spec, Z.pow2_bits_eqb by auto with lia. rewrite (Z.eqb_sym n).
    destruct (i mod 64 =? n); [apply andb_false_r | apply andb_true_r].
Qed.

Lemma setIndex_eq bA i v e : 0 <= i < Bits bA -> wf bA ->
  Elems bA !! Z.to_nat (i / 64) = Some e ->
  setIndex bA i v = Ret (mkBitArray (Bits bA) (<[Z.to_nat (i / 64) := setWord e i v]> (Elems bA)), true).
Proof.
  intros Hi Hwf L. destruct (wf_lookup bA i Hwf Hi) as (e' & L' & _ & E).
  rewrite L in L'; injection L' as <-.
  unfold setIndex. rewrite (proj2 (Z.leb_gt _ _)) by lia. rewrite E. cbn.
  rewrite Z.quot_div_nonneg by lia. rewrite upd_ret; [done|].
  split; [apply Z.div_pos; lia|]. apply lookup_lt_Some in L. unfold zlen.
  pose proof (Z.div_pos i 64). lia.
Qed.

Lemma setIndex_spec bA i v : wf bA -> 0 <= i < Bits bA ->
  exists bA', setIndex bA i v = Ret (bA', true) /\ wf bA' /\ Bits bA' = Bits bA /\
    forall j, 0 <= j -> bit bA' j = if j =? i then v else bit bA j.
Proof.
  intros Hwf Hi. destruct (wf_lookup bA i Hwf Hi) as (e & L & He & _).
  eexists. split; [by apply setIndex_eq|]. destruct Hwf as (H0 & Hlen & Hw). split; [|split; [done|]].
  - split; [done|]. cbn. split; [by rewrite zlen_insert|].
    apply Forall_insert; [done|]. apply setWord_range; [done|lia].
  - intros j Hj. unfold bit; cbn.
    pose proof (Z.mod_pos_bound j 64 ltac:(lia)). pose proof (Z.div_mod j 64 ltac:(lia)).
    pose proof (Z.mod_pos_bound i 64 ltac:(lia)). pose proof (Z.div_mod i 64 ltac:(lia)).
    destruct (decide (i / 64 = j / 64)) as [Eq|Ne].
    + rewrite <- Eq, list_lookup_insert_eq by (by eapply lookup_lt_Some). rewrite L.
      rewrite setWord_spec by lia.
      destruct (Z.eqb_spec (j mod 64) (i mod 64)), (Z.eqb_spec j i); try done; lia.
    + rewrite list_lookup_insert_ne by (pose proof (Z.div_pos i 64); pose proof (Z.div_pos j 64); lia).
      destruct (Z.eqb_spec j i); [lia|done].
Qed.

(** ** Construction, copies and word-wise operations *)

Lemma nwords_pos b : 0 < b -> 1 <= (b + 63) / 64.
Proof. intros. apply Z.div_le_lower_bound; lia. Qed.

Lemma NewBitArray_spec n : 0 < n ->
  exists bA, NewBitArray n = Ret (Some bA) /\ wf bA /\ Bits bA = n /\ forall i, bit bA i = false.
Proof.
  intros Hn. unfold NewBitArray, mkslice. rewrite (proj2 (Z.leb_gt _ _)) by lia.
  rewrite Z.quot_div_nonneg by lia. pose proof (nwords_pos n Hn).
  rewrite (proj2 (Z.ltb_ge _ _)) by lia. cbn. eexists. split; [done|]. split; [|split; [done|]].
  - split; [done|]. cbn. rewrite zlen_replicate, Z2Nat.id by lia. split; [done|].
    apply Forall_replicate. unfold two64; lia.
  - intros i. unfold bit; cbn. destruct (replicate _ _ !! _) eqn:E; [|done].
    apply lookup_replicate in E as [-> _]. apply Z.bits_0.
Qed.

Lemma copy_eq bA : copy bA = bA.
Proof.
  destruct bA as [b es]. unfold copy, gocopy; cbn. f_equal.
  rewrite length_replicate, firstn_all, skipn_all2 by (rewrite length_replicate; lia). apply app_nil_r.
Qed.

(** The words of an array, 0 beyond the last one. *)
Definition word (bA : BitArray) (k : nat) : Z := default 0 (Elems bA !! k).

Lemma bit_word bA i : bit bA i = Z.testbit (word bA (Z.to_nat (i / 64))) (i mod 64).
Proof. unfold bit, word. destruct (_ !! _); cbn; [done|]. by rewrite Z.bits_0. Qed.

Lemma word_wf bA k : wf bA -> 0 <= word bA k < two64.
Proof.
  intros Hwf. unfold word. destruct (Elems bA !! k) eqn:E; cbn; [by eapply wf_words|unfold two64; lia].
Qed.

Lemma copyBits_spec bA bits : wf bA -> 0 < bits ->
  exists es, copyBits bA bits = Ret (mkBitArray bits es) /\ zlen es = (bits + 63) / 64 /\
    forall k, (k < length es)%nat -> es !! k = Some (word bA k).
Proof.
  intros Hwf Hb. unfold copyBits, mkslice. rewrite Z.quot_div_nonneg by lia.
  pose proof (nwords_pos bits Hb). rewrite (proj2 (Z.ltb_ge _ _)) by lia. cbn.
  eexists. split; [done|]. unfold zlen. rewrite length_gocopy, length_replicate. split; [lia|].
  intros k Hk. rewrite lookup_gocopy by (rewrite length_replicate; lia). unfold word.
  destruct (Elems bA !! k); [done|]. by apply lookup_replicate_2.
Qed.

Lemma wordLoop_spec op c o : (length c <= length o)%nat ->
  exists r, wordLoop op c o = Ret r /\ length r = length c /\
    forall k x y, c !! k = Some x -> o !! k = Some y -> r !! k = Some (op x y).
Proof.
  intros Hlen. unfold wordLoop.
  destruct (go_for_inv (fun i r => length r = length c /\
      forall k x y, c !! k = Some x -> o !! k = Some y ->
        r !! k = Some (if Z.of_nat k <? i then op x y else x))
    0 (zlen c) (fun i c => x ← idx c i; y ← idx o i; upd c i (op x y)) c) as (r & E & Hl & H).
  - apply zlen_nonneg.
  - split; [done|]. intros k x y Hc _. by rewrite (proj2 (Z.ltb_ge _ _)) by lia.
  - intros i s Hi [Hl H].
    destruct (idx_total c i) as (x & _ & Lx); [done|].
    destruct (idx_total o i) as (y & Ey & Ly); [unfold zlen in *; lia|].
    assert (idx s i = Ret x) as ->.
    { apply idx_ret. split; [lia|]. rewrite (H _ x y) by done. by rewrite (proj2 (Z.ltb_ge _ _)) by lia. }
    cbn. rewrite Ey. cbn. rewrite upd_ret by (unfold zlen in *; lia).
    eexists. split; [done|]. rewrite length_insert. split; [done|].
    intros k x' y' Hx' Hy'. destruct (decide (k = Z.to_nat i)) as [->|Hne].
    + rewrite list_lookup_insert_eq by (rewrite Hl; by eapply lookup_lt_Some).
      rewrite (proj2 (Z.ltb_lt _ _)) by lia. congruence.
    + rewrite list_lookup_insert_ne by done. rewrite (H _ x' y') by done.
      destruct (Z.ltb_spec (Z.of_nat k) i), (Z.ltb_spec (Z.of_nat k) (i + 1)); try done; lia.
  - exists r. split; [done|]. split; [done|]. intros k x y Hx Hy. rewrite (H k x y Hx Hy).
    rewrite (proj2 (Z.ltb_lt _ _)); [done|]. apply lookup_lt_Some in Hx. unfold zlen; lia.
Qed.

(** A word-wise operation on [n] words, [n] at most those of [o], gives the
    array whose words are the operation on the words of the arguments. *)
Lemma wordOp_spec op a o bits : wf a -> wf o -> 0 < bits -> (bits + 63) / 64 <= zlen (Elems o) ->
  (forall x y, 0 <= x < two64 -> 0 <= y < two64 -> 0 <= op x y < two64) ->
  exists es, (c ← copyBits a bits; elems ← wordLoop op (Elems c) (Elems o);
              Ret (mkBitArray (Bits c) elems)) = Ret (mkBitArray bits es) /\
    wf (mkBitArray bits es) /\
    forall k, Z.of_nat k < (bits + 63) / 64 -> es !! k = Some (op (word a k) (word o k)).
Proof.
  intros Ha Ho Hb Hlen Hop. destruct (copyBits_spec a bits Ha Hb) as (c & -> & Hc & Hw). cbn.
  destruct (wordLoop_spec op c (Elems o)) as (r & -> & Hl & H); [unfold zlen in *; lia|]. cbn.
  exists r. split; [done|].
  assert (Hr : forall k, Z.of_nat k < (bits + 63) / 64 -> r !! k = Some (op (word a k) (word o k))).
  { intros k Hk. apply H; [apply Hw; unfold zlen in *; lia|]. unfold word.
    destruct (lookup_lt_is_Some_2 (Elems o) k) as [y Hy]; [unfold zlen in *; lia|]. by rewrite Hy. }
  split; [|done]. split; [done|]. cbn. split; [unfold zlen in *; lia|].
  apply Forall_lookup_2. intros k e He.
  rewrite Hr in He by (apply lookup_lt_Some in He; unfold zlen in *; lia). injection He as <-.
  apply Hop; by apply word_wf.
Qed.

Lemma div64_lt i bits : 0 <= i < bits -> 0 <= i / 64 < (bits + 63) / 64.
Proof.
  intros H. split; [apply Z.div_pos; lia|]. apply Z.div_lt_upper_bound; [lia|].
  pose proof (Z.div_mod (bits + 63) 64 ltac:(lia)).
  pose proof (Z.mod_pos_bound (bits + 63) 64 ltac:(lia)). lia.
Qed.

Lemma not_spec bA : wf bA -> wf (not bA) /\ Bits (not bA) = Bits bA /\
  (forall i, 0 <= i < Bits bA -> bit (not bA) i = negb (bit bA i)) /\
  (forall k, Elems (not bA) !! k = not64 <$> (Elems bA !! k)).
Proof.
  intros Hwf. unfold not. rewrite copy_eq. cbn.
  assert (Hl : forall k, (not64 <$> Elems bA) !! k = not64 <$> (Elems bA !! k)) by (intros; apply list_lookup_fmap).
  split; [|split; [done|split; [|done]]].
  - destruct Hwf as (H0 & Hlen & Hw). split; [done|]. cbn. unfold zlen in *. rewrite length_fmap.
    split; [done|]. apply Forall_fmap. eapply Forall_impl; [done|]. intros e He. by apply not64_range.
  - intros i Hi. destruct (wf_lookup bA i Hwf Hi) as (e & L & He & _).
    unfold bit; cbn. rewrite Hl, L. cbn. apply not64_spec; [done|]. apply Z.mod_pos_bound; lia.
Qed.

Lemma and_spec a o : wf a -> wf o ->
  exists c, and a o = Ret c /\ wf c /\ Bits c = Z.min (Bits a) (Bits o) /\
    forall i, 0 <= i < Bits c -> bit c i = bit a i && bit o i.
Proof.
  intros Ha Ho. pose proof Ha as (Ha0 & _ & _). pose proof Ho as (Ho0 & Hol & _). unfold and.
  destruct (wordOp_spec Z.land a o (Z.min (Bits a) (Bits o))) as (es & -> & Hwf & H);
    [done|done|lia|rewrite Hol; apply Z.div_le_mono; lia|intros; apply land_range; lia|].
  eexists. split; [done|]. split; [done|]. split; [done|]. cbn. intros i Hi.
  pose proof (div64_lt i _ Hi). rewrite !bit_word. unfold word at 1; cbn.
  rewrite H by lia. cbn. apply Z.land_spec.
Qed.

Lemma Or_spec a o : wf a -> wf o -> (Bits a + 63) / 64 <= (Bits o + 63) / 64 ->
  exists c, Or (Some a) (Some o) = Ret (Some c) /\ wf c /\ Bits c = Z.max (Bits a) (Bits o) /\
    forall i, 0 <= i < Bits c -> bit c i = bit a i || bit o i.
Proof.
  intros Ha Ho Hle. pose proof Ha as (Ha0 & _ & _). pose proof Ho as (Ho0 & Hol & _). cbn.
  destruct (wordOp_spec Z.lor a o (Z.max (Bits a) (Bits o))) as (es & E & Hwf & H);
    [done|done|lia| |intros; apply lor_range; lia|].
  { rewrite Hol. destruct (Z.max_spec (Bits a) (Bits o)) as [[_ ->]|[_ ->]]; lia. }
  destruct (copyBits _ _) as [c|]; cbn in *; [|done].
  destruct (wordLoop _ _ _) as [r|]; cbn in *; [|done]. injection E as E1 E2. rewrite E1, E2.
  eexists. split; [done|]. split; [done|]. split; [done|]. cbn. intros i Hi.
  pose proof (div64_lt i _ Hi). rewrite !bit_word. unfold word at 1; cbn.
  rewrite H by lia. cbn. apply Z.lor_spec.
Qed.

Lemma land_not64 e : 0 <= e < two64 -> Z.land e (not64 e) = 0.
Proof.
  intros He. apply Z.bits_inj'. intros n Hn. rewrite Z.land_spec, Z.bits_0.
  destruct (Z.ltb_spec n 64); [rewrite not64_spec by lia; by destruct (Z.testbit e n)|].
  by rewrite testbit_high.
Qed.

(** The first loop of [Sub] on a longer receiver: the words it visits are
    and-ed with their own complement. *)
Lemma clearLoop_spec a n : wf a -> 0 <= n <= zlen (Elems a) ->
  exists es, go_for 0 n (fun i c => x ← idx c i; upd c i (Z.land x (not64 x))) (Elems a) = Ret es /\
    wf (mkBitArray (Bits a) es) /\
    forall k, es !! k = if Z.of_nat k <? n then (fun _ => 0) <$> (Elems a !! k) else Elems a !! k.
Proof.
  intros Ha Hn.
  destruct (go_for_inv (fun i es => wf (mkBitArray (Bits a) es) /\
      forall k, es !! k = if Z.of_nat k <? i then (fun _ => 0) <$> (Elems a !! k) else Elems a !! k)
    0 n (fun i c => x ← idx c i; upd c i (Z.land x (not64 x))) (Elems a)) as (es & E & H);
    [lia| | |by exists es].
  - split; [by destruct a|]. intros k. by rewrite (proj2 (Z.ltb_ge _ _)) by lia.
  - intros i s Hi [Hwf H].
    assert (Hl : zlen s = zlen (Elems a)) by (destruct Hwf as (_ & Hs & _), Ha as (_ & Ha' & _); cbn in *; congruence).
    destruct (idx_total s i) as (x & -> & Lx); [lia|]. cbn. rewrite upd_ret by lia.
    pose proof (wf_words _ _ _ Hwf Lx) as Hx. rewrite land_not64 by done.
    eexists. split; [done|]. destruct Hwf as (H0 & Hlen & Hw). split.
    + split; [done|]. cbn in *. rewrite zlen_insert. split; [done|].
      apply Forall_insert; [done|]. unfold two64; lia.
    + intros k. destruct (decide (k = Z.to_nat i)) as [->|Hne].
      * rewrite list_lookup_insert_eq by (by eapply lookup_lt_Some).
        rewrite H in Lx. rewrite (proj2 (Z.ltb_ge _ _)) in Lx by lia.
        rewrite (proj2 (Z.ltb_lt _ _)) by lia. by rewrite Lx.
      * rewrite list_lookup_insert_ne by done. rewrite H.
        destruct (Z.ltb_spec (Z.of_nat k) i), (Z.ltb_spec (Z.of_nat k) (i + 1)); try done; lia.
Qed.

(** The second loop of [Sub]. *)
Lemma subLoop_spec c o lo : wf c -> wf o -> 0 <= lo <= Bits o -> Bits o <= Bits c ->
  exists c', go_for lo (Bits o)
      (fun k c => x ← getIndex c k; y ← (if x : bool then GetIndex (Some o) k else Ret true);
                  r ← setIndex c k (x && negb y); Ret r.1) c = Ret c' /\
    wf c' /\ Bits c' = Bits c /\
    forall j, 0 <= j -> bit c' j = if (lo <=? j) && (j <? Bits o) then bit c j && negb (bit o j) else bit c j.
Proof.
  intros Hc Ho Hlo Hle.
  eapply (go_for_inv (fun i c' => wf c' /\ Bits c' = Bits c /\
    forall j, 0 <= j -> bit c' j = if (lo <=? j) && (j <? i) then bit c j && negb (bit o j) else bit c j)); [lia| |].
  - split; [done|]. split; [done|]. intros j Hj.
    destruct (Z.leb_spec lo j), (Z.ltb_spec j lo); try done; lia.
  - intros i s Hi (Hwf & Hb & H). rewrite getIndex_spec by (done || lia). cbn.
    assert (Hlt : bit s i = bit c i).
    { rewrite H by lia. destruct (Z.leb_spec lo i), (Z.ltb_spec i i); try done; lia. }
    assert ((if bit s i then getIndex o i else Ret true) = Ret (if bit s i then bit o i else true)) as ->.
    { destruct (bit s i); [by rewrite getIndex_spec by (done || lia)|done]. }
    cbn. destruct (setIndex_spec s i (bit s i && negb (if bit s i then bit o i else true)))
      as (s' & -> & Hwf' & Hb' & H'); [done|lia|]. cbn.
    exists s'. split; [done|]. split; [done|]. split; [lia|]. intros j Hj. rewrite H' by done.
    destruct (Z.eqb_spec j i) as [->|Hne].
    + rewrite (proj2 (Z.leb_le _ _)), (proj2 (Z.ltb_lt _ _)) by lia. cbn.
      rewrite Hlt. by destruct (bit c i).
    + rewrite H by done. destruct (Z.ltb_spec j i), (Z.ltb_spec j (i+1)); try lia; done.
Qed.

(** What [Sub] computes.  With [o] at least as long as the receiver it is the
    set difference.  With [o] shorter, the bits of all words of [o] but the
    last are cleared whatever [o] holds, the difference is taken in the last
    word of [o], and the rest of the receiver is kept. *)
Definition subBit (a o : BitArray) (i : Z) : bool :=
  if Bits o <? Bits a then
    if i <? 64 * (zlen (Elems o) - 1) then false
    else if i <? Bits o then bit a i && negb (bit o i)
    else bit a i
  else bit a i && negb (bit o i).

Lemma Sub_spec a o : wf a -> wf o ->
  exists c, Sub (Some a) (Some o) = Ret (Some c) /\ wf c /\ Bits c = Bits a /\
    forall i, 0 <= i < Bits a -> bit c i = subBit a o i.
Proof.
  intros Ha Ho. unfold Sub, subBit. destruct (Z.ltb_spec (Bits o) (Bits a)) as [Hlt|Hge].
  - rewrite copy_eq. pose proof Ho as (Ho0 & Hol & _). pose proof Ha as (Ha0 & Hal & _).
    pose proof (nwords_pos _ Ho0).
    assert ((Bits o + 63) / 64 <= (Bits a + 63) / 64) by (apply Z.div_le_mono; lia).
    destruct (clearLoop_spec a (zlen (Elems o) - 1)) as (es & -> & Hwf & Hes); [done|lia|]. cbn [mbind go_mbind Bits].
    rewrite (proj2 (Z.leb_le 0 _)) by lia.
    pose proof (Z.div_mod (Bits o + 63) 64 ltac:(lia)).
    pose proof (Z.mod_pos_bound (Bits o + 63) 64 ltac:(lia)).
    destruct (subLoop_spec (mkBitArray (Bits a) es) o ((zlen (Elems o) - 1) * 64))
      as (c & -> & Hwfc & Hb & Hc); [done|done|lia|cbn; lia|]. cbn.
    exists c. split; [done|]. split; [done|]. split; [done|]. intros i Hi. rewrite Hc by lia.
    assert (Hbit : bit (mkBitArray (Bits a) es) i = if i <? 64 * (zlen (Elems o) - 1) then false else bit a i).
    { pose proof (Z.div_mod i 64 ltac:(lia)). pose proof (Z.mod_pos_bound i 64 ltac:(lia)).
      pose proof (Z.div_pos i 64). unfold bit; cbn. rewrite Hes, Z2Nat.id by lia.
      destruct (Z.ltb_spec i (64 * (zlen (Elems o) - 1))), (Z.ltb_spec (i / 64) (zlen (Elems o) - 1)); try lia; [|done].
      destruct (Elems a !! _); cbn; [apply Z.bits_0|done]. }
    rewrite Hbit. destruct (Z.ltb_spec i (64 * (zlen (Elems o) - 1))), (Z.leb_spec ((zlen (Elems o) - 1) * 64) i); try lia; cbn.
    + done.
    + done.
  - destruct (not_spec o Ho) as (Hn & Hnb & Hni & _).
    destruct (and_spec a (not o)) as (c & -> & Hwf & Hb & H); [done..|]. cbn.
    exists c. split; [done|]. split; [done|]. rewrite Hnb in Hb. split; [lia|].
    intros i Hi. rewrite H by lia. by rewrite Hni by lia.
Qed.

(** An [o] with fewer words than the receiver makes [Or] index past its end. *)
Lemma Or_panics a o : wf a -> wf o -> (Bits o + 63) / 64 < (Bits a + 63) / 64 ->
  Or (Some a) (Some o) = Panic IndexOutOfRange.
Proof.
  intros Ha Ho Hlt. pose proof Ha as (Ha0 & Hal & _). pose proof Ho as (Ho0 & Hol & _). cbn.
  assert (Bits o < Bits a).
  { apply Z.lt_nge. intros Hge. assert ((Bits a + 63) / 64 <= (Bits o + 63) / 64) by (apply Z.div_le_mono; lia). lia. }
  rewrite Z.max_l by lia.
  destruct (copyBits_spec a (Bits a) Ha Ha0) as (c & -> & Hc & Hw). cbn.
  unfold wordLoop, go_for. rewrite Z.sub_0_r. rewrite <- Hol in Hlt. rewrite <- Hc in Hlt.
  assert (zlen c = zlen (Elems o) + (zlen c - zlen (Elems o))) as Hs by lia.
  rewrite Hs, seqZ_app by (unfold zlen in *; lia). rewrite go_fold_app.
  set (body := fun _ _ => _).
  destruct (go_for_inv (fun _ (r : list Z) => length r = length c) 0 (zlen (Elems o)) body c)
    as (r & E & Hr); [apply zlen_nonneg|done| |].
  - intros i s Hi Hs'. unfold body.
    destruct (idx_total s i) as (x & -> & _); [unfold zlen in *; lia|].
    destruct (idx_total (Elems o) i) as (y & -> & _); [done|]. cbn.
    rewrite upd_ret by (unfold zlen in *; lia). eexists; split; [done|]. by rewrite length_insert.
  - unfold go_for in E. rewrite Z.sub_0_r in E. rewrite E. cbn.
    rewrite Z.add_0_l, seqZ_cons by lia. cbn [go_fold]. unfold body.
    destruct (idx_total r (zlen (Elems o))) as (x & -> & _); [unfold zlen in *; lia|]. cbn.
    unfold idx. rewrite (proj2 (Z.ltb_ge _ _)) by (unfold zlen; lia).
    rewrite (proj2 (lookup_ge_None _ _)) by (unfold zlen; lia). done.
Qed.

(** ** IsFull *)

Lemma low_ones e n : 0 <= n ->
  e mod 2 ^ n = 2 ^ n - 1 <-> forall i, 0 <= i < n -> Z.testbit e i = true.
Proof.
  intros Hn. rewrite <- Z.land_ones by done. replace (2 ^ n - 1) with (Z.ones n) by (rewrite Z.ones_equiv; lia).
  split.
  - intros H i Hi. assert (Z.testbit (Z.land e (Z.ones n)) i = true) as Hb by (rewrite H; by apply Z.ones_spec_low).
    rewrite Z.land_spec in Hb. by apply andb_true_iff in Hb as [-> _].
  - intros H. apply Z.bits_inj'. intros i Hi. rewrite Z.land_spec.
    destruct (Z.ltb_spec i n); [by rewrite H | by rewrite Z.ones_spec_high, andb_false_r by lia].
Qed.

Lemma not64_zero e : 0 <= e < two64 -> not64 e = 0 <-> forall i, 0 <= i < 64 -> Z.testbit e i = true.
Proof.
  intros He. rewrite <- low_ones by lia. change (2 ^ 64) with two64. rewrite Z.mod_small by done.
  unfold not64. apply Z.lxor_eq_0_iff.
Qed.

Lemma succ_mask e n : 1 <= n <= 64 ->
  Z.land (uwrap64 (e + 1)) (if n <? 64 then uwrap64 (Z.shiftl 1 n - 1) else uwrap64 (0 - 1)) = 0 <->
  forall i, 0 <= i < n -> Z.testbit e i = true.
Proof.
  intros Hn. assert ((if n <? 64 then uwrap64 (Z.shiftl 1 n - 1) else uwrap64 (0 - 1)) = Z.ones n) as ->.
  { destruct (Z.ltb_spec n 64).
    - rewrite Z.ones_equiv, Z.shiftl_mul_pow2, Z.mul_1_l, <- Z.sub_1_r by lia. unfold uwrap64.
      apply Z.mod_small. assert (2 ^ n < 2 ^ 64) by (apply Z.pow_lt_mono_r; lia).
      pose proof (Z.pow_pos_nonneg 2 n). unfold two64; lia.
    - replace n with 64 by lia. done. }
  rewrite Z.land_ones by lia. unfold uwrap64. rewrite <- low_ones by lia.
  assert (((e + 1) mod two64) mod 2 ^ n = (e + 1) mod 2 ^ n) as ->.
  { change two64 with (2 ^ 64). replace (2 ^ 64) with (2 ^ n * 2 ^ (64 - n)) by (rewrite <- Z.pow_add_r by lia; f_equal; lia).
    pose proof (Z.pow_pos_nonneg 2 n). pose proof (Z.pow_pos_nonneg 2 (64 - n)).
    rewrite Z.rem_mul_r by lia. rewrite (Z.mul_comm (2 ^ n) (_ mod _)), Z.mod_add by lia. apply Z.mod_mod. lia. }
  assert (1 < 2 ^ n) by (change 1 with (2 ^ 0) at 1; apply Z.pow_lt_mono_r; lia).
  pose proof (Z.mod_pos_bound e (2 ^ n) ltac:(lia)).
  rewrite Z.add_mod by lia. rewrite (Z.mod_small 1) by lia.
  destruct (Z.eq_dec (e mod 2 ^ n) (2 ^ n - 1)) as [->|Hne].
  - rewrite Z.sub_add, Z.mod_same by lia. done.
  - rewrite Z.mod_small by lia. lia.
Qed.

(** The bits of [bA], word by word: all words but the last are whole and the
    last holds [(Bits + 63) mod 64 + 1] of them. *)
Lemma forall_bits bA (P : bool -> Prop) : wf bA ->
  (forall i, 0 <= i < Bits bA -> P (bit bA i)) <->
  (forall k e, Elems bA !! k = Some e -> forall n,
     0 <= n < (if Z.of_nat k =? zlen (Elems bA) - 1 then (Bits bA + 63) mod 64 + 1 else 64) -> P (Z.testbit e n)).
Proof.
  intros Hwf. pose proof Hwf as (H0 & Hl & _).
  pose proof (Z.div_mod (Bits bA + 63) 64 ltac:(lia)).
  pose proof (Z.mod_pos_bound (Bits bA + 63) 64 ltac:(lia)). split.
  - intros HP k e L n Hn. specialize (HP (64 * Z.of_nat k + n)).
    pose proof (lookup_lt_Some _ _ _ L). unfold zlen in *.
    assert (Hn64 : 0 <= n < 64) by (destruct (Z.of_nat k =? _); lia).
    unfold bit in HP. rewrite (Z.mul_comm 64), Z.div_add_l, Z.div_small, Z.add_0_r, Nat2Z.id, L in HP by lia.
    rewrite Z.add_comm, Z.mod_add, Z.mod_small in HP by lia. apply HP.
    destruct (Z.eqb_spec (Z.of_nat k) (Z.of_nat (length (Elems bA)) - 1)); lia.
  - intros HP i Hi. destruct (wf_lookup bA i Hwf Hi) as (e & L & _). unfold bit. rewrite L.
    eapply HP; [done|]. pose proof (Z.div_mod i 64 ltac:(lia)). pose proof (Z.mod_pos_bound i 64 ltac:(lia)).
    rewrite Z2Nat.id by (apply Z.div_pos; lia).
    destruct (Z.eqb_spec (i / 64) (zlen (Elems bA) - 1)); lia.
Qed.

Lemma initFull_spec bA : wf bA ->
  forallb (fun e => not64 e =? 0) (take (length (Elems bA) - 1) (Elems bA)) = true <->
  forall k e, Elems bA !! k = Some e -> Z.of_nat k <> zlen (Elems bA) - 1 ->
    forall n, 0 <= n < 64 -> Z.testbit e n = true.
Proof.
  intros Hwf. rewrite forallb_forall. split.
  - intros H1 k e' L' Hk. pose proof (lookup_lt_Some _ _ _ L').
    apply not64_zero; [by eapply wf_words|]. apply Z.eqb_eq, H1, list_elem_of_In.
    apply list_elem_of_lookup. exists k. rewrite lookup_take_lt by (unfold zlen in *; lia). done.
  - intros H1 x Hx%list_elem_of_In. apply list_elem_of_lookup in Hx as [k Hk].
    apply lookup_take_Some in Hk as [Hk Hlt]. apply Z.eqb_eq, not64_zero; [by eapply wf_words|].
    eapply H1; [done|]. unfold zlen; lia.
Qed.

Lemma IsFull_correct bA : wf bA ->
  exists b, IsFull (Some bA) = Ret b /\ (b = true <-> forall i, 0 <= i < Bits bA -> bit bA i = true).
Proof.
  intros Hwf. setoid_rewrite (forall_bits bA (fun b => b = true) Hwf).
  pose proof Hwf as (H0 & Hl & Hw). pose proof (nwords_pos _ H0).
  destruct (idx_total (Elems bA) (zlen (Elems bA) - 1)) as (e & E & L); [lia|].
  unfold IsFull, slice. rewrite (proj2 (Z.ltb_ge 0 0)), (proj2 (Z.ltb_ge _ 0)), (proj2 (Z.ltb_ge (zlen _) _)) by lia. cbn [orb mbind go_mbind].
  rewrite drop_0, Z.sub_0_r, E. cbn [mbind go_mbind].
  rewrite Z.rem_mod_nonneg by lia. pose proof (Z.mod_pos_bound (Bits bA + 63) 64 ltac:(lia)).
  replace (Z.to_nat (zlen (Elems bA) - 1)) with (length (Elems bA) - 1)%nat in * by (unfold zlen; lia).
  pose proof (initFull_spec bA Hwf) as Hinit.
  destruct (forallb _ _) eqn:Ef; cbn; eexists; (split; [done|]).
  - rewrite Z.eqb_eq, succ_mask by lia. pose proof (proj1 Hinit eq_refl) as Hi. split.
    + intros He k e' L' n Hn. destruct (Z.eqb_spec (Z.of_nat k) (zlen (Elems bA) - 1)) as [Hk|Hk]; [|by eapply Hi].
      replace k with (length (Elems bA) - 1)%nat in L' by (unfold zlen in *; lia).
      rewrite L in L'. injection L' as <-. auto.
    + intros HP i Hi'. eapply HP; [exact L|]. rewrite (proj2 (Z.eqb_eq _ _)); [done|unfold zlen in *; lia].
  - split; [done|]. intros HP. apply Hinit. intros k e' L' Hk n Hn. eapply HP; [done|].
    by rewrite (proj2 (Z.eqb_neq _ _)).
Qed.

(** ** PickRandom *)

Section PickRandomSpec.
Context (RandIntn : nat -> Z -> Z).
Context (RandIntn_range : forall k n, 0 < n -> 0 <= RandIntn k n < n).

Lemma pickBit_some e n s js b : 0 <= e -> 0 < n -> 0 <= s -> Forall (fun j => 0 <= j) js ->
  pickBit e n s js = Some b -> 0 <= b < n /\ Z.testbit e b = true.
Proof.
  intros He Hn Hs. induction js as [|j js IH]; cbn; [done|]. intros [Hj Hjs]%Forall_cons.
  rewrite Z.rem_mod_nonneg by lia. pose proof (Z.mod_pos_bound (j + s) n ltac:(lia)).
  rewrite Z.shiftl_mul_pow2, Z.mul_1_l, land_pow2_pos by lia.
  destruct (Z.testbit e ((j + s) mod n)) eqn:E; [|by auto]. intros Hb. injection Hb as <-. auto.
Qed.

Lemma pickBit_none e n s : 0 <= e -> 0 < n -> 0 <= s ->
  pickBit e n s (seqZ 0 n) = None -> forall b, 0 <= b < n -> Z.testbit e b = false.
Proof.
  intros He Hn Hs Hp b Hb.
  assert (Hall : forall js, Forall (fun j => 0 <= j) js -> pickBit e n s js = None ->
            forall j, j ∈ js -> Z.testbit e ((j + s) mod n) = false).
  { clear Hp. intros js. induction js as [|j js IH]; cbn; [set_solver|].
    intros [Hj Hjs]%Forall_cons. rewrite Z.rem_mod_nonneg by lia.
    pose proof (Z.mod_pos_bound (j + s) n ltac:(lia)).
    rewrite Z.shiftl_mul_pow2, Z.mul_1_l, land_pow2_pos by lia.
    destruct (Z.testbit _ _) eqn:E; [done|]. intros Hp j' [->|Hj']%elem_of_cons; [done|by apply IH]. }
  specialize (Hall (seqZ 0 n)). ospecialize (Hall _ Hp ((b - s) mod n) _).
  - apply Forall_forall. intros x Hx%elem_of_seqZ. lia.
  - apply elem_of_seqZ. apply Z.mod_pos_bound; lia.
  - rewrite Z.add_mod_idemp_l, Z.sub_add, Z.mod_small in Hall by lia. done.
Qed.

(** The number of bits [PickRandom] looks at in word [k]. *)
Definition wordBits (bA : BitArray) (k : Z) : Z :=
  if k =? zlen (Elems bA) - 1 then (Bits bA + 63) mod 64 + 1 else 64.

Lemma lastBits b : 0 < b -> (if Z.rem b 64 =? 0 then 64 else Z.rem b 64) = (b + 63) mod 64 + 1.
Proof.
  intros Hb. rewrite Z.rem_mod_nonneg by lia.
  pose proof (Z.div_mod b 64 ltac:(lia)). pose proof (Z.mod_pos_bound b 64 ltac:(lia)).
  pose proof (Z.div_mod (b + 63) 64 ltac:(lia)). pose proof (Z.mod_pos_bound (b + 63) 64 ltac:(lia)).
  destruct (Z.eqb_spec (b mod 64) 0); lia.
Qed.

Lemma wordBits_bit bA k e b : wf bA -> Elems bA !! Z.to_nat k = Some e -> 0 <= k ->
  0 <= b < wordBits bA k -> Z.testbit e b = true ->
  0 <= 64 * k + b < Bits bA /\ bit bA (64 * k + b) = true.
Proof.
  intros (H0 & Hl & _) L Hk Hb Ht. pose proof (lookup_lt_Some _ _ _ L). unfold wordBits in Hb.
  pose proof (Z.div_mod (Bits bA + 63) 64 ltac:(lia)).
  pose proof (Z.mod_pos_bound (Bits bA + 63) 64 ltac:(lia)).
  assert (0 <= b < 64) by (destruct (k =? _); lia). split.
  - unfold zlen in *. destruct (Z.eqb_spec k (Z.of_nat (length (Elems bA)) - 1)); lia.
  - unfold bit. rewrite (Z.mul_comm 64), Z.div_add_l, Z.div_small, Z.add_0_r, L by lia.
    by rewrite Z.add_comm, Z.mod_add, Z.mod_small by lia.
Qed.

(** One call over the word indices [idxs]: either a set bit of the array, or
    none of the words visited has one. *)
Lemma pickElem_spec bA s idxs draws : wf bA -> 0 <= s -> Forall (fun i => 0 <= i) idxs ->
  (exists i, pickElem RandIntn bA s idxs draws = Ret (i, true) /\ 0 <= i < Bits bA /\ bit bA i = true) \/
  (pickElem RandIntn bA s idxs draws = Ret (0, false) /\
   forall i e, i ∈ idxs -> Elems bA !! Z.to_nat ((i + s) mod zlen (Elems bA)) = Some e ->
     forall b, 0 <= b < wordBits bA ((i + s) mod zlen (Elems bA)) -> Z.testbit e b = false).
Proof.
  intros Hwf Hs. pose proof Hwf as (H0 & Hl & _). pose proof (nwords_pos _ H0).
  revert draws. induction idxs as [|i idxs IH]; intros draws; cbn [pickElem].
  { right. split; [done|]. set_solver. }
  intros [Hi Hidxs]%Forall_cons. rewrite Z.rem_mod_nonneg by lia.
  set (k := (i + s) mod zlen (Elems bA)).
  assert (Hk : 0 <= k < zlen (Elems bA)) by (apply Z.mod_pos_bound; lia).
  destruct (idx_total (Elems bA) k Hk) as (e & -> & L). cbn [mbind go_mbind].
  pose proof (wf_words _ _ _ Hwf L) as He.
  assert (Hrest : forall d, (forall b, 0 <= b < wordBits bA k -> Z.testbit e b = false) ->
    (exists i, pickElem RandIntn bA s idxs d = Ret (i, true) /\ 0 <= i < Bits bA /\ bit bA i = true) \/
    (pickElem RandIntn bA s idxs d = Ret (0, false) /\
     forall i' e, i' ∈ i :: idxs -> Elems bA !! Z.to_nat ((i' + s) mod zlen (Elems bA)) = Some e ->
     forall b, 0 <= b < wordBits bA ((i' + s) mod zlen (Elems bA)) -> Z.testbit e b = false)).
  { intros d Hno. destruct (IH d Hidxs) as [?|[E Hn]]; [by left|]. right. split; [done|].
    intros i' e' [->|Hin]%elem_of_cons L' b Hb; [|by eapply Hn].
    fold k in L', Hb. rewrite L in L'. injection L' as <-. auto. }
  assert (Hnn : forall n, Forall (fun j => 0 <= j) (seqZ 0 n)).
  { intros n. apply Forall_forall. intros x Hx%elem_of_seqZ. lia. }
  pose proof (Z.mod_pos_bound (Bits bA + 63) 64 ltac:(lia)).
  destruct (Z.ltb_spec k (zlen (Elems bA) - 1)).
  - assert (Hw : wordBits bA k = 64) by (unfold wordBits; by rewrite (proj2 (Z.eqb_neq _ _)) by lia).
    destruct (Z.ltb_spec 0 e).
    + destruct (pickBit _ _ _ _) eqn:E.
      * apply pickBit_some in E as [Hb Ht]; [|lia|lia|apply RandIntn_range; lia|done].
        left. eexists. split; [done|]. apply (wordBits_bit bA k e); [done|done|lia|lia|done].
      * assert (e <> 0) by lia. exfalso.
        pose proof (pickBit_none e 64 (RandIntn draws 64) ltac:(lia) ltac:(lia)
          ltac:(apply RandIntn_range; lia) E (Z.log2 e)) as Hno.
        rewrite Z.bit_log2 in Hno by lia. assert (true = false); [|done]. apply Hno.
        split; [apply Z.log2_nonneg|]. apply Z.log2_lt_pow2; [lia|]. unfold two64 in *; lia.
    + apply Hrest. intros b Hb. replace e with 0 by lia. apply Z.bits_0.
  - rewrite lastBits by done.
    assert (Hw : wordBits bA k = (Bits bA + 63) mod 64 + 1).
    { unfold wordBits. by rewrite (proj2 (Z.eqb_eq _ _)) by lia. }
    destruct (pickBit _ _ _ _) eqn:E.
    + apply pickBit_some in E as [Hb Ht]; [|lia|lia|apply RandIntn_range; lia|done].
      left. eexists. split; [done|]. apply (wordBits_bit bA k e); [done|done|lia|lia|done].
    + apply Hrest. rewrite Hw. eapply pickBit_none; [lia|lia| |done]. apply RandIntn_range; lia.
Qed.

Lemma PickRandom_spec bA : wf bA ->
  (exists i, PickRandom RandIntn (Some bA) = Ret (i, true) /\ 0 <= i < Bits bA /\ bit bA i = true) \/
  (PickRandom RandIntn (Some bA) = Ret (0, false) /\ forall i, 0 <= i < Bits bA -> bit bA i = false).
Proof.
  intros Hwf. pose proof Hwf as (H0 & Hl & _). pose proof (nwords_pos _ H0).
  unfold PickRandom. rewrite (proj2 (Z.eqb_neq _ _)) by lia.
  pose proof (RandIntn_range 0 (zlen (Elems bA)) ltac:(lia)) as Hr.
  destruct (pickElem_spec bA (RandIntn 0 (zlen (Elems bA))) (seqZ 0 (zlen (Elems bA))) 1 Hwf ltac:(lia))
    as [?|[E Hno]]; [|by left|].
  { apply Forall_forall. intros x Hx%elem_of_seqZ. lia. }
  right. split; [done|]. apply (forall_bits bA (fun b => b = false)); [done|].
  intros k e L n Hn. pose proof (lookup_lt_Some _ _ _ L).
  set (s := RandIntn _ _) in *. set (len := zlen (Elems bA)) in *.
  assert (Hidx : ((Z.of_nat k - s) mod len + s) mod len = Z.of_nat k).
  { rewrite Z.add_mod_idemp_l, Z.sub_add by lia. apply Z.mod_small. unfold len, zlen; lia. }
  eapply (Hno ((Z.of_nat k - s) mod len)); [apply elem_of_seqZ, Z.mod_pos_bound; lia| |].
  - rewrite Hidx, Nat2Z.id. done.
  - rewrite Hidx. done.
Qed.
End PickRandomSpec.

(** ** JSON *)

Definition bitChar (b : bool) : Byte.byte := if b then ch_x else ch__.

Lemma bitChars_spec bA : wf bA ->
  bitChars bA = Ret ((fun i => bitChar (bit bA i)) <$> seqZ 0 (Bits bA)).
Proof.
  intros Hwf. pose proof Hwf as (H0 & _ & _). unfold bitChars.
  destruct (go_for_inv (fun i bits => bits = (fun i => bitChar (bit bA i)) <$> seqZ 0 i) 0 (Bits bA)
    (fun i bits => b ← getIndex bA i; Ret (bits ++ [if b : bool then ch_x else ch__])) [])
    as (r & E & ->); [lia|done| |done].
  intros i s Hi ->. rewrite getIndex_spec by done. cbn. eexists. split; [done|].
  rewrite seqZ_app, fmap_app by lia. done.
Qed.

Lemma matchBits_spec mid : forallb isBitChar mid = true ->
  matchBits ([quote] ++ mid ++ [quote]) = Some mid.
Proof.
  intros H. unfold matchBits. cbn [app]. rewrite rev_app_distr. cbn [rev app].
  rewrite !bool_decide_true by done. cbn [andb].
  assert (forallb isBitChar (rev mid) = true) as ->.
  { apply forallb_forall. intros x Hx%in_rev. by eapply forallb_forall in H. }
  by rewrite rev_involutive.
Qed.

Lemma setLoop_spec bits bA : wf bA -> Bits bA = zlen bits -> (forall i, bit bA i = false) ->
  exists bA', go_for 0 (zlen bits)
      (fun i bA2 => c ← idx bits i;
         if bool_decide (c = ch_x) then r ← SetIndex bA2 i true; Ret r.1 else Ret bA2) (Some bA) = Ret (Some bA') /\
    wf bA' /\ Bits bA' = Bits bA /\
    forall i, 0 <= i -> bit bA' i = bool_decide (bits !! Z.to_nat i = Some ch_x).
Proof.
  intros Hwf Hb H0.
  destruct (go_for_inv (fun i r => exists bA', r = Some bA' /\ wf bA' /\ Bits bA' = Bits bA /\
      forall j, 0 <= j -> bit bA' j = (j <? i) && bool_decide (bits !! Z.to_nat j = Some ch_x))
    0 (zlen bits) (fun i bA2 => c ← idx bits i;
         if bool_decide (c = ch_x) then r ← SetIndex bA2 i true; Ret r.1 else Ret bA2) (Some bA))
    as (r & E & bA' & -> & Hwf' & Hb' & H); [apply zlen_nonneg| | |].
  - exists bA. split; [done|]. split; [done|]. split; [done|]. intros j Hj.
    rewrite H0, (proj2 (Z.ltb_ge _ _)) by lia. done.
  - intros i s Hi (a & -> & Hwa & Hba & Ha).
    destruct (idx_total bits i Hi) as (c & -> & L). cbn [mbind go_mbind].
    case_bool_decide as Hc.
    + cbn [SetIndex]. destruct (setIndex_spec a i true Hwa) as (a' & -> & Hwa' & Hba' & Ha'); [lia|]. cbn.
      eexists. split; [done|]. exists a'. split; [done|]. split; [done|]. split; [lia|].
      intros j Hj. rewrite Ha' by done. destruct (Z.eqb_spec j i) as [->|Hne].
      * rewrite L, Hc, bool_decide_true, (proj2 (Z.ltb_lt _ _)) by (done || lia). done.
      * rewrite Ha by done. destruct (Z.ltb_spec j i), (Z.ltb_spec j (i + 1)); try done; lia.
    + eexists. split; [done|]. exists a. split; [done|]. split; [done|]. split; [done|].
      intros j Hj. rewrite Ha by done. destruct (Z.eqb_spec j i) as [->|Hne].
      * rewrite L, bool_decide_false by congruence. by rewrite !andb_false_r.
      * destruct (Z.ltb_spec j i), (Z.ltb_spec j (i + 1)); try done; lia.
  - exists bA'. split; [done|]. split; [done|]. split; [done|]. intros i Hi. rewrite H by done.
    destruct (Z.ltb_spec i (zlen bits)); [done|]. rewrite bool_decide_false; [done|].
    rewrite lookup_ge_None_2; [done|]. unfold zlen in *; lia.
Qed.

(** Two arrays of the same size and the same bits are equal. *)
Lemma wf_ext a b : wf a -> wf b -> Bits a = Bits b -> (forall i, 0 <= i -> bit a i = bit b i) -> a = b.
Proof.
  intros (Ha0 & Hal & Haw) (Hb0 & Hbl & Hbw) HB H.
  destruct a as [ba ea], b as [bb eb]; cbn in *. subst bb. f_equal.
  assert (length ea = length eb) by (unfold zlen in *; lia).
  apply (list_eq_same_length ea eb (length ea)); [done|done|].
  intros k x y Hk Hx Hy. apply Z.bits_inj'. intros n Hn.
  pose proof (word_range _ _ _ _ Haw Hx). pose proof (word_range _ _ _ _ Hbw Hy).
  destruct (Z.ltb_spec n 64); [|by rewrite !testbit_high].
  specialize (H (64 * Z.of_nat k + n)). unfold bit in H; cbn in H.
  rewrite (Z.mul_comm 64), Z.div_add_l, Z.div_small, Z.add_0_r, Nat2Z.id, Hx, Hy in H by lia.
  rewrite Z.add_comm, Z.mod_add, Z.mod_small in H by lia. apply H. lia.
Qed.

Lemma bitChars_lookup bA i : 0 <= i ->
  bool_decide (((fun i => bitChar (bit bA i)) <$> seqZ 0 (Bits bA)) !! Z.to_nat i = Some ch_x) =
  (i <? Bits bA) && bit bA i.
Proof.
  intros Hi. rewrite list_lookup_fmap. destruct (Z.ltb_spec i (Bits bA)); cbn.
  - rewrite (proj2 (lookup_seqZ _ _ _ i)) by lia. cbn.
    destruct (bit bA i); [by rewrite bool_decide_true|by rewrite bool_decide_false].
  - rewrite lookup_seqZ_ge by lia. done.
Qed.

Lemma JSON_roundtrip_gen bA : wf bA ->
  exists bz bA', MarshalJSON (Some bA) = Ret bz /\ UnmarshalJSON bz = Ret (inr bA') /\
    wf bA' /\ Bits bA' = Bits bA /\ forall i, 0 <= i -> bit bA' i = (i <? Bits bA) && bit bA i.
Proof.
  intros Hwf. pose proof Hwf as (H0 & _ & _). cbn. rewrite bitChars_spec by done. cbn.
  set (bits := (fun i => bitChar (bit bA i)) <$> seqZ 0 (Bits bA)).
  exists ([quote] ++ bits ++ [quote]). unfold UnmarshalJSON.
  rewrite (proj2 (bytes_eqb_false _ _)) by (unfold quote, str; intros Hq; cbn in Hq; discriminate Hq).
  rewrite matchBits_spec.
  2:{ apply forallb_forall. intros x (i & -> & _)%list_elem_of_In%list_elem_of_fmap.
      unfold isBitChar, bitChar. by destruct (bit bA i). }
  assert (Hlen : zlen bits = Bits bA) by (unfold zlen, bits; rewrite length_fmap, length_seqZ; lia).
  destruct (NewBitArray_spec (zlen bits)) as (a & -> & Hwa & Hba & Ha); [lia|].
  cbn [mbind go_mbind]. destruct (setLoop_spec bits a Hwa Hba Ha) as (a' & -> & Hwa' & Hba' & Ha').
  exists a'. split; [done|]. split; [done|]. split; [done|]. split; [lia|].
  intros i Hi. rewrite Ha' by done. by apply bitChars_lookup.
Qed.

(** ** Arrays that track a slice of pointers *)

(** The array shows exactly the non-nil positions of the slice (a nil array
    for an empty one). *)
Definition present {A} (l : list (option A)) (i : nat) : bool :=
  match l !! i with Some None => false | _ => true end.

Definition bitsOK {A} (bA : option BitArray) (votes : list (option A)) : Prop :=
  match bA with
  | None => votes = []
  | Some b => wf b /\ Bits b = zlen votes /\
      forall i, 0 <= i < zlen votes -> bit b i = present votes (Z.to_nat i)
  end.

Lemma bitsOK_new {A} n : 0 <= n -> exists bA, NewBitArray n = Ret bA /\ bitsOK bA (replicate (Z.to_nat n) (@None A)).
Proof.
  intros Hn. destruct (Z.eq_dec n 0) as [->|Hne]; [by exists None|].
  destruct (NewBitArray_spec n ltac:(lia)) as (b & E & Hwf & Hb & Hi).
  exists (Some b). split; [done|]. split; [done|]. rewrite zlen_replicate, Z2Nat.id by lia. split; [done|].
  intros i Hir. unfold present. by rewrite Hi, lookup_replicate_2 by lia.
Qed.

Lemma bitsOK_set {A} bA (votes : list (option A)) i v : bitsOK bA votes -> (i < length votes)%nat ->
  exists bA', SetIndex bA (Z.of_nat i) true = Ret (bA', true) /\ bitsOK bA' (<[i := Some v]> votes).
Proof.
  intros Hb Hi. destruct bA as [b|]; [|cbn in Hb; subst votes; cbn in Hi; lia].
  destruct Hb as (Hwf & Hbits & Hbit). cbn [SetIndex].
  destruct (setIndex_spec b (Z.of_nat i) true Hwf) as (b' & -> & Hwf' & Hb' & H'); [unfold zlen in Hbits; lia|].
  cbn [mbind go_mbind fst snd]. exists (Some b'). split; [done|]. split; [done|]. rewrite zlen_insert. split; [congruence|].
  intros j Hj. rewrite H' by lia. destruct (Z.eqb_spec j (Z.of_nat i)) as [->|Hne].
  - unfold present. by rewrite Nat2Z.id, list_lookup_insert_eq by done.
  - rewrite Hbit by lia. unfold present. by rewrite list_lookup_insert_ne by lia.
Qed.

Lemma bitsOK_same {A} bA (v1 v2 : list (option A)) : length v1 = length v2 ->
  (forall i, v1 !! i = Some None <-> v2 !! i = Some None) -> bitsOK bA v1 -> bitsOK bA v2.
Proof.
  intros Hl Hs. destruct bA as [b|]; cbn.
  - unfold zlen. rewrite <- Hl. intros (Hwf & Hb & Hi). split; [done|]. split; [done|].
    intros i Hir. rewrite Hi by done. specialize (Hs (Z.to_nat i)). unfold present.
    destruct (v1 !! _) as [[x|]|], (v2 !! _) as [[y|]|]; naive_solver.
  - intros ->. destruct v2; [done|]. done.
Qed.

(** ** Properties *)

(** An array of 70 bits, two words. *)
Definition exampleBA : BitArray := mkBitArray 70 [5; 33].

Lemma exampleBA_wf : wf exampleBA.
Proof. apply (bool_decide_unpack (wf exampleBA)). vm_compute. exact I. Qed.

(** Setting a bit of a well-formed array succeeds, keeps it well-formed
    and of the same size, and afterwards [getIndex] reads the new value at
    that index and the old value at every other one. *)
Theorem setIndex_getIndex bA i v : wf bA -> 0 <= i < Bits bA ->
  exists bA', setIndex bA i v = Ret (bA', true) /\ wf bA' /\ Bits bA' = Bits bA /\
    forall j, 0 <= j < Bits bA -> getIndex bA' j = if j =? i then Ret v else getIndex bA j.
Proof.
  intros Hwf Hi. destruct (setIndex_spec bA i v Hwf Hi) as (bA' & E & Hwf' & Hb & H).
  exists bA'. split_and!; [done..|]. intros j Hj. rewrite !getIndex_spec by (done || lia).
  rewrite H by lia. by destruct (j =? i).
Qed.

Lemma setIndex_getIndex_witness : exists bA', setIndex exampleBA 68 true = Ret (bA', true) /\ getIndex bA' 68 = Ret true.
Proof.
  destruct (setIndex_getIndex exampleBA 68 true exampleBA_wf ltac:(cbn; lia)) as (bA' & E & _ & _ & H).
  exists bA'. split; [exact E|]. exact (H 68 ltac:(cbn; lia)).
Defined.

(** What [Sub] computes on every pair of well-formed arrays.  When [o] is
    at least as long as the receiver it is the set difference.  When [o] is
    shorter, every bit in a word of [o] before its last is cleared, whether
    or not [o] has that bit (the loop masks a word with its own complement);
    the difference is taken only in the last word of [o], and the bits beyond
    [o] are kept. *)
Theorem Sub_exact a o : wf a -> wf o ->
  exists c, Sub (Some a) (Some o) = Ret (Some c) /\ wf c /\ Bits c = Bits a /\
    forall i, 0 <= i < Bits a ->
      bit c i = if (Bits o <? Bits a) && (i <? 64 * (zlen (Elems o) - 1)) then false
                else bit a i && negb ((i <? Bits o) && bit o i).
Proof.
  intros Ha Ho. destruct (Sub_spec a o Ha Ho) as (c & E & Hwf & Hb & H).
  exists c. split_and!; [done..|]. intros i Hi. rewrite H by done. unfold subBit.
  destruct (Z.ltb_spec (Bits o) (Bits a)); cbn; [|by rewrite (proj2 (Z.ltb_lt _ _)) by lia].
  destruct (Z.ltb_spec i (64 * (zlen (Elems o) - 1))); [done|].
  destruct (i <? Bits o); cbn; [done|by rewrite andb_true_r].
Qed.

(** Bit 0 of a 130-bit array is lost although the 70-bit [o] does not have it. *)
Lemma Sub_exact_witness : exists c,
  Sub (Some (mkBitArray 130 [1; 0; 0])) (Some (mkBitArray 70 [4; 33])) = Ret (Some c) /\ bit c 0 = false.
Proof.
  assert (Ha : wf (mkBitArray 130 [1; 0; 0])).
  { apply (bool_decide_unpack (wf _)). vm_compute. exact I. }
  assert (Ho : wf (mkBitArray 70 [4; 33])).
  { apply (bool_decide_unpack (wf _)). vm_compute. exact I. }
  destruct (Sub_exact _ _ Ha Ho) as (c & E & _ & _ & H).
  exists c. split; [exact E|]. exact (H 0 ltac:(cbn; lia)).
Defined.

(** [IsFull] never panics on a well-formed array and is true exactly when
    every bit below [Bits] is set, whatever the straggler bits of the last
    word hold. *)
Theorem IsFull_spec bA : wf bA ->
  exists b, IsFull (Some bA) = Ret b /\ (b = true <-> forall i, 0 <= i < Bits bA -> bit bA i = true).
Proof. apply IsFull_correct. Qed.

Lemma IsFull_spec_witness : exists b, IsFull (Some exampleBA) = Ret b /\
  (b = true <-> forall i, 0 <= i < Bits exampleBA -> bit exampleBA i = true).
Proof. exact (IsFull_spec exampleBA exampleBA_wf). Defined.

(** For every sequence of random draws in range, [PickRandom] on a
    well-formed array returns a set bit below [Bits], or [(0, false)] exactly
    when there is none; it never reaches its [PanicSanity]. *)
Theorem PickRandom_correct (RandIntn : nat -> Z -> Z) bA :
  (forall k n, 0 < n -> 0 <= RandIntn k n < n) -> wf bA ->
  (exists i, PickRandom RandIntn (Some bA) = Ret (i, true) /\ 0 <= i < Bits bA /\ bit bA i = true) \/
  (PickRandom RandIntn (Some bA) = Ret (0, false) /\ forall i, 0 <= i < Bits bA -> bit bA i = false).
Proof. intros HR. by apply PickRandom_spec. Qed.

Lemma PickRandom_correct_witness :
  (exists i, PickRandom (fun k n => (Z.of_nat k + 3) mod n) (Some exampleBA) = Ret (i, true) /\
     0 <= i < Bits exampleBA /\ bit exampleBA i = true) \/
  (PickRandom (fun k n => (Z.of_nat k + 3) mod n) (Some exampleBA) = Ret (0, false) /\
     forall i, 0 <= i < Bits exampleBA -> bit exampleBA i = false).
Proof.
  apply (PickRandom_correct (fun k n => (Z.of_nat k + 3) mod n) exampleBA).
  - intros k n Hn. apply Z.mod_pos_bound; lia.
  - exact exampleBA_wf.
Defined.

(** Unmarshalling the JSON of a well-formed array gives an array of the
    same size with the same bits, and the very same array when the original
    has no straggler bits. *)
Theorem JSON_roundtrip bA : wf bA ->
  exists bz bA', MarshalJSON (Some bA) = Ret bz /\ UnmarshalJSON bz = Ret (inr bA') /\
    wf bA' /\ Bits bA' = Bits bA /\ (forall i, 0 <= i < Bits bA -> bit bA' i = bit bA i) /\
    (noStragglers bA -> bA' = bA).
Proof.
  intros Hwf. destruct (JSON_roundtrip_gen bA Hwf) as (bz & bA' & E & E' & Hwf' & Hb & H).
  exists bz, bA'. split_and!; [done..| |].
  - intros i Hi. rewrite H by lia. by rewrite (proj2 (Z.ltb_lt _ _)) by lia.
  - intros Hs. apply wf_ext; [done..|]. intros i Hi. rewrite H by done.
    destruct (Z.ltb_spec i (Bits bA)); [done|]. by rewrite Hs.
Qed.

Lemma JSON_roundtrip_witness : exists bz bA', MarshalJSON (Some exampleBA) = Ret bz /\
  UnmarshalJSON bz = Ret (inr bA') /\ Bits bA' = 70.
Proof.
  destruct (JSON_roundtrip exampleBA exampleBA_wf) as (bz & bA' & E & E' & _ & Hb & _).
  exists bz, bA'. split; [exact E|]. split; [exact E'|exact Hb].
Defined.

(** The empty JSON string is the one input that makes [UnmarshalJSON] panic:
    [NewBitArray(0)] is nil and is dereferenced. *)
Lemma UnmarshalJSON_empty : UnmarshalJSON [quote; quote] = Panic NilDeref.
Proof. reflexivity. Qed.
End BitArray.
