(* ===== verification/Heap.v ===== *)
(** * libs/common/heap.go and container/heap

    The priority queue used to find the next proposer.  A heap is the slice
    of its items; [Less] is a parameter because the priorities of the callers
    (among them pointers to live validators) are compared by a method of
    theirs, which may panic. *)

From S2P Require Import Prelude.

Module Heap.

Section Operations.
Context {V P : Type} (Less : P -> P -> go bool).

Record pqItem := mkItem { value : V; priority : P; index : Z }.
Abbreviation priorityQueue := (list pqItem).

Definition less (pq : priorityQueue) (i j : Z) : go bool :=
  x ← idx pq i; y ← idx pq j; Less (priority x) (priority y).

Definition setIndexOf (it : pqItem) (i : Z) : pqItem := mkItem (value it) (priority it) i.

Definition Swap (pq : priorityQueue) (i j : Z) : go priorityQueue :=
  x ← idx pq i; y ← idx pq j;
  pq ← upd pq i (setIndexOf y i);
  upd pq j (setIndexOf x j).

(** [up] and [down] of container/heap.  The fuel bounds the number of
    iterations by the height of the position: [up] is called with [j] and
    [down] with the length. *)
Fixpoint up (fuel : nat) (pq : priorityQueue) (j : Z) : go priorityQueue :=
  match fuel with
  | O => Ret pq
  | S fuel =>
      let i := Z.quot (j - 1) 2 in
      if i =? j then Ret pq
      else b ← less pq j i;
           if negb b then Ret pq
           else pq ← Swap pq i j; up fuel pq i
  end.

Fixpoint down (fuel : nat) (pq : priorityQueue) (i n : Z) : go (priorityQueue * Z) :=
  match fuel with
  | O => Ret (pq, i)
  | S fuel =>
      let j1 := 2 * i + 1 in
      if (n <=? j1) || (j1 <? 0) then Ret (pq, i)
      else
        let j2 := j1 + 1 in
        b2 ← (if j2 <? n then less pq j2 j1 else Ret false);
        let j := if b2 : bool then j2 else j1 in
        b ← less pq j i;
        if negb b then Ret (pq, i)
        else pq ← Swap pq i j; down fuel pq j n
  end.

Definition hPush (pq : priorityQueue) (it : pqItem) : go priorityQueue :=
  let n := zlen pq in
  let pq := pq ++ [setIndexOf it n] in
  up (S (length pq)) pq (zlen pq - 1).

Definition hPop (pq : priorityQueue) : go (priorityQueue * pqItem) :=
  let n := zlen pq - 1 in
  pq ← Swap pq 0 n;
  r ← down (S (length pq)) pq 0 n;
  item ← idx r.1 n;
  old ← slice r.1 0 n;
  Ret (old, setIndexOf item (-1)).

Definition hFix (pq : priorityQueue) (i : Z) : go priorityQueue :=
  r ← down (S (length pq)) pq i (zlen pq);
  if i <? r.2 then Ret r.1 else up (S (length pq)) r.1 i.

(** ** Heap *)

Definition NewHeap : priorityQueue := [].
Definition Len (h : priorityQueue) : Z := zlen h.

(** [Push], [PushBytes] and [PushComparable] differ only in the wrapper of
    the priority. *)
Definition PushComparable (h : priorityQueue) (v : V) (p : P) : go priorityQueue :=
  hPush h (mkItem v p 0).

Definition Peek (h : priorityQueue) : option V :=
  match h with [] => None | it :: _ => Some (value it) end.

Definition Update (h : priorityQueue) (v : V) (p : P) : go priorityQueue :=
  item ← idx h 0;
  h ← upd h 0 (mkItem v p (index item));
  hFix h (index item).

Definition Pop (h : priorityQueue) : go (priorityQueue * V) :=
  r ← hPop h; Ret (r.1, value r.2).
End Operations.
Arguments pqItem : clear implicits.

(** [cmpInt] and [cmpBytes], the priorities of [Push] and [PushBytes]. *)
Definition cmpInt_Less (i o : Z) : go bool := Ret (i <? o).
Definition cmpBytes_Less (bz o : bytes) : go bool :=
  Ret (match bytes_compare bz o with Lt => true | _ => false end).

(** ** Heap order *)

(** The transposition of two positions. *)
Definition tr (i j k : nat) : nat := if decide (k = i) then j else if decide (k = j) then i else k.

Lemma tr_inj i j k l : tr i j k = tr i j l -> k = l.
Proof. unfold tr. repeat case_decide; lia. Qed.

Section Spec.
Context {V P : Type} (Less : P -> P -> go bool) (lt : P -> P -> bool).
(** [comparable p q] says that [Less] returns on the two. *)
Context (comparable : P -> P -> Prop).
Context (Less_lt : forall p q, comparable p q -> Less p q = Ret (lt p q)).
Context (lt_irrefl : forall p, lt p p = false).
Context (lt_trans : forall p q r, lt p q = true -> lt q r = true -> lt p r = true).
Context (lt_weak : forall p q r, lt p r = true -> lt p q = true \/ lt q r = true).

Abbreviation pq := (list (pqItem V P)).

Definition entry (it : pqItem V P) : V * P := (value it, priority it).
(** The entries of the queue, without the bookkeeping [index]. *)
Definition entries (h : pq) : list (V * P) := entry <$> h.
Definition prio (h : pq) (k : nat) : option P := priority <$> (h !! k).

(** Every item knows its position. *)
Definition indexed (h : pq) : Prop := forall k it, h !! k = Some it -> index it = Z.of_nat k.
(** Items at different positions can be compared. *)
Definition comparables (h : pq) : Prop :=
  forall i j p q, i <> j -> prio h i = Some p -> prio h j = Some q -> comparable p q.
Definition le (p q : P) : Prop := lt q p = false.
Definition leAt (h : pq) (i j : nat) : Prop :=
  forall p q, prio h i = Some p -> prio h j = Some q -> le p q.
Definition parent (k : nat) : nat := ((k - 1) / 2)%nat.
(** The heap property: no item is less than its parent. *)
Definition heapOrdered (h : pq) : Prop := forall k, (0 < k)%nat -> leAt h (parent k) k.

Lemma le_refl p : le p p.
Proof. apply lt_irrefl. Qed.

Lemma le_trans p q r : le p q -> le q r -> le p r.
Proof.
  unfold le. intros H1 H2. destruct (lt r p) eqn:E; [|done].
  destruct (lt_weak r q p E); congruence.
Qed.

Lemma lt_le p q : lt p q = true -> le p q.
Proof.
  unfold le. intros H. destruct (lt q p) eqn:E; [|done]. specialize (lt_irrefl p).
  by rewrite (lt_trans p q p) in lt_irrefl.
Qed.

Lemma Swap_spec (h : pq) (i j : nat) : (i < length h)%nat -> (j < length h)%nat -> i <> j ->
  exists h', Swap h (Z.of_nat i) (Z.of_nat j) = Ret h' /\ length h' = length h /\
    (forall k, entry <$> (h' !! k) = entry <$> (h !! tr i j k)) /\
    (indexed h -> indexed h').
Proof.
  intros Hi Hj Hij.
  destruct (lookup_lt_is_Some_2 h i Hi) as [x Hx], (lookup_lt_is_Some_2 h j Hj) as [y Hy].
  unfold Swap. rewrite (idx_lookup h (Z.of_nat i) x) by (lia || by rewrite Nat2Z.id).
  cbn [mbind go_mbind]. rewrite (idx_lookup h (Z.of_nat j) y) by (lia || by rewrite Nat2Z.id).
  cbn [mbind go_mbind]. rewrite upd_ret by (unfold zlen; lia). cbn [mbind go_mbind].
  rewrite upd_ret by (unfold zlen; rewrite length_insert; lia). rewrite !Nat2Z.id.
  eexists. split; [done|]. rewrite !length_insert. split; [done|].
  split.
  - intros k. unfold tr. destruct (decide (k = i)) as [->|Hki].
    + rewrite list_lookup_insert_ne, list_lookup_insert_eq by (done || lia). by rewrite Hy.
    + destruct (decide (k = j)) as [->|Hkj].
      * rewrite list_lookup_insert_eq by (rewrite length_insert; lia). by rewrite Hx.
      * by rewrite !list_lookup_insert_ne by done.
  - intros Hidx k it. destruct (decide (k = j)) as [->|Hkj].
    + rewrite list_lookup_insert_eq by (rewrite length_insert; lia). by intros [= <-].
    + rewrite list_lookup_insert_ne by done. destruct (decide (k = i)) as [->|Hki].
      * rewrite list_lookup_insert_eq by lia. by intros [= <-].
      * rewrite list_lookup_insert_ne by done. apply Hidx.
Qed.

Lemma prio_entry (h : pq) k : prio h k = snd <$> (entry <$> (h !! k)).
Proof. unfold prio. by destruct (h !! k). Qed.

Lemma entries_perm (h h' : pq) i j : length h' = length h -> (i < length h)%nat -> (j < length h)%nat ->
  (forall k, entry <$> (h' !! k) = entry <$> (h !! tr i j k)) -> entries h' ≡ₚ entries h.
Proof.
  intros Hl Hi Hj H. apply Permutation_inj. unfold entries. rewrite !length_fmap. split; [done|].
  exists (tr i j). split; [intros ?? E; by eapply tr_inj|]. intros k. by rewrite !list_lookup_fmap.
Qed.

Lemma prio_swap (h h' : pq) i j : (forall k, entry <$> (h' !! k) = entry <$> (h !! tr i j k)) ->
  forall k, prio h' k = prio h (tr i j k).
Proof. intros H k. by rewrite !prio_entry, H. Qed.

Lemma comparables_swap (h h' : pq) i j : (forall k, prio h' k = prio h (tr i j k)) ->
  comparables h -> comparables h'.
Proof.
  intros H Hc a b p q Hab. rewrite !H. apply Hc. intros E%tr_inj. done.
Qed.

Lemma less_at (h : pq) i j p q : comparables h -> i <> j -> prio h i = Some p -> prio h j = Some q ->
  less Less h (Z.of_nat i) (Z.of_nat j) = Ret (lt p q).
Proof.
  intros Hc Hij Hp Hq. unfold less. pose proof (Hc i j p q Hij Hp Hq) as Hpq. unfold prio in *.
  destruct (h !! i) as [x|] eqn:Ex; [|done]. destruct (h !! j) as [y|] eqn:Ey; [|done].
  cbn in Hp, Hq. injection Hp as <-. injection Hq as <-.
  rewrite (idx_lookup h (Z.of_nat i) x) by (lia || by rewrite Nat2Z.id). cbn [mbind go_mbind].
  rewrite (idx_lookup h (Z.of_nat j) y) by (lia || by rewrite Nat2Z.id). cbn [mbind go_mbind].
  by apply Less_lt.
Qed.

Lemma prio_some (h : pq) k : (k < length h)%nat -> exists p, prio h k = Some p.
Proof. intros H. destruct (lookup_lt_is_Some_2 h k H) as [x Hx]. unfold prio. rewrite Hx. by exists (priority x). Qed.

Lemma parent_lt k : (0 < k)%nat -> (parent k < k)%nat.
Proof. intros. unfold parent. apply Nat.Div0.div_lt_upper_bound; lia. Qed.

Lemma parent_quot k : Z.quot (Z.of_nat k - 1) 2 = Z.of_nat (parent k).
Proof.
  unfold parent. destruct k as [|k]; [done|].
  rewrite Z.quot_div_nonneg by lia. rewrite Nat2Z.inj_div. f_equal. lia.
Qed.

Lemma parent_children k i : (0 < k)%nat -> parent k = i -> k = (2 * i + 1)%nat \/ k = (2 * i + 2)%nat.
Proof.
  intros Hk <-. unfold parent. pose proof (Nat.div_mod_eq (k - 1) 2). pose proof (Nat.mod_upper_bound (k - 1) 2). lia.
Qed.

Lemma parent_left i : parent (2 * i + 1) = i.
Proof. unfold parent. replace (2 * i + 1 - 1)%nat with (i * 2)%nat by lia. apply Nat.div_mul. lia. Qed.

Lemma parent_right i : parent (2 * i + 2) = i.
Proof.
  unfold parent. replace (2 * i + 2 - 1)%nat with (i * 2 + 1)%nat by lia.
  rewrite Nat.div_add_l by lia. rewrite (Nat.div_small 1 2) by lia. lia.
Qed.

(** What every heap routine keeps. *)
Definition sameItems (h h' : pq) : Prop :=
  entries h' ≡ₚ entries h /\ length h' = length h /\ (indexed h -> indexed h') /\ (comparables h -> comparables h').

Lemma sameItems_refl h : sameItems h h.
Proof. by split_and!. Qed.

Lemma sameItems_trans h1 h2 h3 : sameItems h1 h2 -> sameItems h2 h3 -> sameItems h1 h3.
Proof.
  intros (H1 & H2 & H3 & H4) (K1 & K2 & K3 & K4). split_and!; [by etrans|congruence|auto|auto].
Qed.

Lemma Swap_same (h : pq) i j : (i < length h)%nat -> (j < length h)%nat -> i <> j ->
  exists h', Swap h (Z.of_nat i) (Z.of_nat j) = Ret h' /\ sameItems h h' /\
    forall k, entry <$> (h' !! k) = entry <$> (h !! tr i j k).
Proof.
  intros Hi Hj Hij. destruct (Swap_spec h i j Hi Hj Hij) as (h' & E & Hl & He & Hx).
  exists h'. pose proof (prio_swap _ _ _ _ He). split; [done|]. split; [|done]. split_and!; [|done|done|].
  - by apply (entries_perm _ _ i j).
  - by apply (comparables_swap _ _ i j).
Qed.

Lemma tr_l i j : tr i j i = j.
Proof. unfold tr. by rewrite decide_True. Qed.

Lemma tr_r i j : tr i j j = i.
Proof. unfold tr. repeat case_decide; congruence. Qed.

Lemma tr_ne i j k : k <> i -> k <> j -> tr i j k = k.
Proof. intros. unfold tr. by rewrite !decide_False. Qed.

(** The heap property but for position [j], which may be too small; its
    children are not less than its parent. *)
Definition upInv (h : pq) (j : nat) : Prop :=
  (forall k, (0 < k)%nat -> k <> j -> leAt h (parent k) k) /\
  (forall k, (0 < k)%nat -> parent k = j -> (0 < j)%nat -> leAt h (parent j) k).

Lemma upInv_swap h h' j p q : (0 < j)%nat -> prio h j = Some p -> prio h (parent j) = Some q ->
  lt p q = true -> (forall k, prio h' k = prio h (tr (parent j) j k)) -> upInv h j -> upInv h' (parent j).
Proof.
  intros Hj Hp Hq Hlt Hs [H1 H2]. pose proof (parent_lt j Hj). set (i := parent j) in *.
  assert (Hi' : prio h' i = Some p) by (by rewrite Hs, tr_l).
  assert (Hj' : prio h' j = Some q) by (by rewrite Hs, tr_r).
  assert (Hk' : forall k, k <> i -> k <> j -> prio h' k = prio h k) by (intros; by rewrite Hs, tr_ne).
  pose proof (lt_le _ _ Hlt) as Hle.
  assert (Hsib : forall k r, (0 < k)%nat -> k <> j -> parent k = i -> prio h k = Some r -> le q r).
  { intros k r Hk0 Hkj Hpk Hr. apply (H1 k); [done|done|by rewrite Hpk|done]. }
  split.
  - intros k Hk Hki. destruct (decide (k = j)) as [->|Hkj].
    { fold i. intros a b Ha Hb. congruence. }
    intros a b Ha Hb. rewrite (Hk' k) in Hb by done.
    destruct (decide (parent k = i)) as [Hpi|Hpi]; [|destruct (decide (parent k = j)) as [Hpj|Hpj]].
    + rewrite Hpi, Hi' in Ha. injection Ha as <-. eapply le_trans; [exact Hle|]. apply (Hsib k); done.
    + rewrite Hpj, Hj' in Ha. injection Ha as <-. by eapply (H2 k).
    + rewrite Hk' in Ha by done. by eapply (H1 k).
  - intros k Hk Hpk Hi a b Ha Hb. pose proof (parent_lt i Hi).
    rewrite Hk' in Ha by lia.
    assert (le a q) by (eapply (H1 i); [lia|lia|done|done]).
    destruct (decide (k = j)) as [->|Hkj]; [congruence|].
    pose proof (parent_lt k Hk). rewrite Hk' in Hb by lia.
    eapply le_trans; [eassumption|]. apply (Hsib k); done.
Qed.

Lemma up_spec fuel h j : (j < fuel)%nat -> (j < length h)%nat -> comparables h -> upInv h j ->
  exists h', up Less fuel h (Z.of_nat j) = Ret h' /\ sameItems h h' /\ heapOrdered h'.
Proof.
  revert h j. induction fuel as [|fuel IH]; intros h j Hf Hl Hc Hinv; [lia|].
  cbn [up]. rewrite parent_quot. destruct (decide (j = 0%nat)) as [->|Hj].
  { exists h. split; [done|]. split; [apply sameItems_refl|]. intros k Hk. apply Hinv; lia. }
  pose proof (parent_lt j ltac:(lia)) as Hpl. rewrite (proj2 (Z.eqb_neq _ _)) by lia.
  destruct (prio_some h j Hl) as [p Hp], (prio_some h (parent j) ltac:(lia)) as [q Hq].
  rewrite (less_at h j (parent j) p q) by (done || lia). cbn [mbind go_mbind].
  destruct (lt p q) eqn:E; cbn [negb].
  - destruct (Swap_same h (parent j) j) as (h1 & -> & Hs & He1); [lia..|]. cbn [mbind go_mbind].
    pose proof (prio_swap _ _ _ _ He1) as Hp1.
    destruct (IH h1 (parent j)) as (h' & -> & Hs' & Ho); [lia|by destruct Hs as (_ & -> & _); lia|
      by apply Hs|by apply (upInv_swap h h1 j p q); try done; lia|].
    exists h'. split; [done|]. split; [by eapply sameItems_trans|done].
  - exists h. split; [done|]. split; [apply sameItems_refl|]. intros k Hk.
    destruct (decide (k = j)) as [->|Hkj]; [|by apply Hinv].
    intros a b Ha Hb. unfold le. congruence.
Qed.

(** The heap property among the first [n] positions but for position [i],
    which may be too large. *)
Definition downInv (n : nat) (h : pq) (i : nat) : Prop :=
  (forall k, (0 < k < n)%nat -> parent k <> i -> leAt h (parent k) k) /\
  (forall k, (0 < k < n)%nat -> parent k = i -> (0 < i)%nat -> leAt h (parent i) k).

Definition heapUpTo (n : nat) (h : pq) : Prop := forall k, (0 < k < n)%nat -> leAt h (parent k) k.

Lemma downInv_swap n h h' i j p q : parent j = i -> (0 < j < n)%nat -> prio h i = Some p -> prio h j = Some q ->
  lt q p = true -> (forall k r, (0 < k < n)%nat -> parent k = i -> prio h k = Some r -> le q r) ->
  (forall k, prio h' k = prio h (tr i j k)) -> downInv n h i -> downInv n h' j.
Proof.
  intros Hpj Hj Hp Hq Hlt Hmin Hs [H1 H2]. pose proof (parent_lt j ltac:(lia)).
  assert (Hi' : prio h' i = Some q) by (by rewrite Hs, tr_l).
  assert (Hj' : prio h' j = Some p) by (by rewrite Hs, tr_r).
  assert (Hk' : forall k, k <> i -> k <> j -> prio h' k = prio h k) by (intros; by rewrite Hs, tr_ne).
  split.
  - intros k Hk Hkj a b Ha Hb. pose proof (parent_lt k ltac:(lia)).
    destruct (decide (parent k = i)) as [Hpi|Hpi].
    + rewrite Hpi, Hi' in Ha. injection Ha as <-. destruct (decide (k = j)) as [->|Hne].
      * rewrite Hj' in Hb. injection Hb as <-. by apply lt_le.
      * rewrite Hk' in Hb by lia. by eapply (Hmin k).
    + assert (k <> j) by congruence. rewrite (Hk' (parent k)) in Ha by done.
      destruct (decide (k = i)) as [->|Hne].
      * rewrite Hi' in Hb. injection Hb as <-. eapply (H2 j); [done|done|lia|done|done].
      * rewrite Hk' in Hb by done. eapply (H1 k); [lia|done|done|done].
  - intros k Hk Hkj Hj0 a b Ha Hb. pose proof (parent_lt k ltac:(lia)). rewrite Hpj, Hi' in Ha. injection Ha as <-.
    rewrite Hk' in Hb by lia. eapply (H1 k); [lia|lia|by rewrite Hkj|done].
Qed.

(** The child [down] picks: one below [n] not greater than the other. *)
Lemma pickChild h n i (Hc : comparables h) : (n <= length h)%nat -> (2 * i + 1 < n)%nat ->
  exists j q, (b2 ← (if 2 * Z.of_nat i + 1 + 1 <? Z.of_nat n
                     then less Less h (2 * Z.of_nat i + 1 + 1) (2 * Z.of_nat i + 1) else Ret false);
               Ret (if b2 : bool then 2 * Z.of_nat i + 1 + 1 else 2 * Z.of_nat i + 1)) = Ret (Z.of_nat j) /\
    parent j = i /\ (0 < j < n)%nat /\ prio h j = Some q /\
    forall k r, (0 < k < n)%nat -> parent k = i -> prio h k = Some r -> le q r.
Proof.
  intros Hn Hl. destruct (prio_some h (2 * i + 1) ltac:(lia)) as [a Ha].
  replace (2 * Z.of_nat i + 1 + 1) with (Z.of_nat (2 * i + 2)) by lia.
  replace (2 * Z.of_nat i + 1) with (Z.of_nat (2 * i + 1)) by lia.
  destruct (Z.ltb_spec (Z.of_nat (2 * i + 2)) (Z.of_nat n)) as [Hr|Hr].
  - destruct (prio_some h (2 * i + 2) ltac:(lia)) as [b Hb].
    rewrite (less_at h _ _ b a) by (done || lia). cbn [mbind go_mbind].
    destruct (lt b a) eqn:E.
    + exists (2 * i + 2)%nat, b. split_and!; [done|apply parent_right|lia|lia|done|].
      intros k r Hk Hpk Hkr. apply parent_children in Hpk as [->| ->]; [| |lia].
      * replace r with a by congruence. by apply lt_le.
      * replace r with b by congruence. apply le_refl.
    + exists (2 * i + 1)%nat, a. split_and!; [done|apply parent_left|lia|lia|done|].
      intros k r Hk Hpk Hkr. apply parent_children in Hpk as [->| ->]; [| |lia].
      * replace r with a by congruence. apply le_refl.
      * unfold le. congruence.
  - cbn [mbind go_mbind]. exists (2 * i + 1)%nat, a. split_and!; [done|apply parent_left|lia|lia|done|].
    intros k r Hk Hpk Hkr. apply parent_children in Hpk as [->| ->]; [|lia|lia].
    replace r with a by congruence. apply le_refl.
Qed.

Lemma down_spec fuel n h i : (n < fuel + i)%nat -> (n <= length h)%nat -> (i < n)%nat ->
  comparables h -> downInv n h i ->
  exists h' i', down Less fuel h (Z.of_nat i) (Z.of_nat n) = Ret (h', i') /\ sameItems h h' /\
    heapUpTo n h' /\ Z.of_nat i <= i' /\ (i' = Z.of_nat i -> h' = h) /\
    (forall k, (n <= k)%nat -> entry <$> (h' !! k) = entry <$> (h !! k)).
Proof.
  revert h i. induction fuel as [|fuel IH]; intros h i Hf Hn Hi Hc Hinv; [lia|].
  cbn [down]. rewrite (proj2 (Z.ltb_ge (2 * Z.of_nat i + 1) 0)), orb_false_r by lia.
  destruct (Z.leb_spec (Z.of_nat n) (2 * Z.of_nat i + 1)) as [Hleaf|Hin].
  { exists h, (Z.of_nat i). split_and!; [done|apply sameItems_refl| |lia|done|done].
    intros k Hk. apply Hinv; [done|]. intros Hpk. apply parent_children in Hpk; lia. }
  destruct (pickChild h n i Hc Hn ltac:(lia)) as (j & q & Hpick & Hpj & Hj & Hq & Hmin).
  destruct (if _ <? _ then _ else _) as [b2|]; [|done]. cbn [mbind go_mbind] in *.
  injection Hpick as Hpick. rewrite Hpick.
  pose proof (parent_lt j ltac:(lia)). destruct (prio_some h i ltac:(lia)) as [p Hp].
  rewrite (less_at h j i q p) by (done || lia). cbn [mbind go_mbind].
  destruct (lt q p) eqn:E; cbn [negb].
  - destruct (Swap_same h i j) as (h1 & -> & Hs & He1); [lia..|]. cbn [mbind go_mbind].
    pose proof (prio_swap _ _ _ _ He1) as Hp1.
    destruct (IH h1 j) as (h' & i' & -> & Hs' & Ho & Hle & _ & Hout); [lia|destruct Hs as (_ & -> & _); lia|lia|
      by apply Hs|by eapply (downInv_swap n h h1 i j p q)|].
    exists h', i'. split_and!; [done|by eapply sameItems_trans|done|lia|lia|].
    intros k Hk. rewrite Hout, He1 by done. by rewrite tr_ne by lia.
  - exists h, (Z.of_nat i). split_and!; [done|apply sameItems_refl| |lia|done|done].
    intros k Hk. destruct (decide (parent k = i)) as [Hpk|Hpk]; [|by apply Hinv].
    intros a b Ha Hb. rewrite Hpk, Hp in Ha. injection Ha as <-.
    eapply le_trans; [|by eapply (Hmin k)]. done.
Qed.

(** The root of a heap is not greater than any item. *)
Lemma root_least h p : heapOrdered h -> prio h 0 = Some p -> forall k q, prio h k = Some q -> le p q.
Proof.
  intros Ho Hp k. induction (lt_wf k) as [k _ IH]. intros q Hq.
  destruct (decide (k = 0%nat)) as [->|Hk]; [replace q with p by congruence; apply le_refl|].
  pose proof (parent_lt k ltac:(lia)) as Hpl.
  assert (k < length h)%nat by (unfold prio in Hq; destruct (h !! k) eqn:E; [by eapply lookup_lt_Some|done]).
  destruct (prio_some h (parent k) ltac:(lia)) as [r Hr].
  eapply le_trans; [by eapply (IH (parent k))|]. by apply (Ho k ltac:(lia)).
Qed.

(** The invariant of a queue. *)
Definition queueInv (h : pq) : Prop := indexed h /\ comparables h /\ heapOrdered h.

Lemma queueInv_new : queueInv NewHeap.
Proof. split_and!; repeat intro; try done. Qed.

Lemma prio_app_l (h k : pq) i : (i < length h)%nat -> prio (h ++ k) i = prio h i.
Proof. intros. unfold prio. by rewrite lookup_app_l. Qed.

Lemma prio_lt (h : pq) i p : prio h i = Some p -> (i < length h)%nat.
Proof. unfold prio. destruct (h !! i) eqn:E; [intros; by eapply lookup_lt_Some|done]. Qed.

Lemma prio_snoc (h : pq) it i p : prio (h ++ [it]) i = Some p ->
  prio h i = Some p \/ i = length h /\ p = priority it.
Proof.
  intros H. pose proof (prio_lt _ _ _ H) as Hl. rewrite length_app in Hl; cbn in Hl.
  destruct (decide (i = length h)) as [->|Hne].
  - right. unfold prio in H. rewrite list_lookup_middle in H by done. cbn in H. split; congruence.
  - left. by rewrite prio_app_l in H by lia.
Qed.

Lemma PushComparable_spec h v p : queueInv h ->
  (forall k q, prio h k = Some q -> comparable p q /\ comparable q p) ->
  exists h', PushComparable Less h v p = Ret h' /\ queueInv h' /\ entries h' ≡ₚ (v, p) :: entries h.
Proof.
  intros (Hidx & Hc & Ho) Hcmp. unfold PushComparable, hPush, setIndexOf; cbn [value priority].
  set (it := mkItem v p (zlen h)).
  assert (Hc' : comparables (h ++ [it])).
  { intros i j a b Hij [Ha|[-> ->]]%prio_snoc [Hb|[-> ->]]%prio_snoc; [by eapply Hc|..|done].
    - by eapply Hcmp.
    - by eapply Hcmp. }
  assert (Hidx' : indexed (h ++ [it])).
  { intros k x Hk. apply lookup_app_Some in Hk as [Hk|[Hge Hk]]; [by apply Hidx|].
    apply list_lookup_singleton_Some in Hk as [E <-]. cbn. unfold zlen. lia. }
  assert (Hinv : upInv (h ++ [it]) (length h)).
  { split.
    - intros k Hk Hne a b Ha Hb. pose proof (prio_lt _ _ _ Hb) as Hl. rewrite length_app in Hl; cbn in Hl.
      pose proof (parent_lt k Hk). rewrite prio_app_l in Ha, Hb by lia. by apply (Ho k).
    - intros k Hk Hpk _ a b Ha Hb. pose proof (prio_lt _ _ _ Hb) as Hl. rewrite length_app in Hl; cbn in Hl.
      pose proof (parent_lt k Hk). lia. }
  replace (zlen (h ++ [it]) - 1) with (Z.of_nat (length h)) by (unfold zlen; rewrite length_app; cbn; lia).
  destruct (up_spec (S (length (h ++ [it]))) (h ++ [it]) (length h)) as (h' & -> & Hs & Ho');
    [rewrite length_app; cbn; lia..|done|done|].
  exists h'. split; [done|]. destruct Hs as (Hp & _ & Hi & Hcs). split; [by split_and!; auto|].
  rewrite Hp. unfold entries. rewrite fmap_app. cbn. by rewrite Permutation_app_comm.
Qed.

Lemma prio_cons (it : pqItem V P) h k : prio (it :: h) (S k) = prio h k.
Proof. done. Qed.

(** [Update] gives the root a new value and priority and restores the heap. *)
Lemma Update_spec it h v p : indexed (it :: h) -> comparables (mkItem v p 0 :: h) ->
  downInv (S (length h)) (mkItem v p 0 :: h) 0 ->
  exists h', Update Less (it :: h) v p = Ret h' /\ queueInv h' /\ entries h' ≡ₚ (v, p) :: entries h.
Proof.
  intros Hidx Hc Hinv. unfold Update. rewrite (idx_lookup (it :: h) 0 it) by done. cbn [mbind go_mbind].
  assert (Hi0 : index it = 0) by (by rewrite (Hidx 0%nat it)). rewrite Hi0.
  rewrite upd_ret by (unfold zlen; cbn; lia). cbn [mbind go_mbind].
  change (<[Z.to_nat 0:=mkItem v p 0]> (it :: h)) with (mkItem v p 0 :: h).
  unfold hFix. set (h0 := mkItem v p 0 :: h).
  destruct (down_spec (S (length h0)) (length h0) h0 0) as (h' & i' & E & Hs & Ho & Hle & Hsame & _);
    [lia|lia|cbn; lia|done|done|].
  change (Z.of_nat 0) with 0 in E. unfold zlen. rewrite E. cbn [mbind go_mbind fst snd].
  assert (Hidx0 : indexed h0).
  { intros [|k] x Hk; [cbn in Hk; by injection Hk as <-|]. by apply Hidx. }
  assert (Hq : queueInv h').
  { destruct Hs as (_ & Hl & Hi & Hcs). split_and!; [auto|auto|]. intros k Hk a b Ha Hb.
    pose proof (prio_lt _ _ _ Hb). apply (Ho k); [lia|done|done]. }
  exists h'. split; [|split; [done|by apply Hs]]. destruct (Z.ltb_spec 0 i') as [Hlt|Hge]; [done|].
  cbn [up]. done.
Qed.

Lemma queueInv_init (h : pq) x :
  indexed (h ++ [x]) -> comparables (h ++ [x]) -> heapUpTo (length h) (h ++ [x]) -> queueInv h.
Proof.
  intros Hi Hc Ho. split_and!.
  - intros k y Hk. apply Hi. by apply lookup_app_l_Some.
  - intros i j a b Hij Ha Hb. pose proof (prio_lt _ _ _ Ha). pose proof (prio_lt _ _ _ Hb).
    by apply (Hc i j); [done|rewrite prio_app_l..].
  - intros k Hk a b Ha Hb. pose proof (prio_lt _ _ _ Hb). pose proof (parent_lt k Hk).
    apply (Ho k); [lia|rewrite prio_app_l by lia; done|by rewrite prio_app_l].
Qed.

(** [Pop] takes the root off and leaves a heap of the other items. *)
Lemma Pop_spec it h : queueInv (it :: h) ->
  exists h', Pop Less (it :: h) = Ret (h', value it) /\ queueInv h' /\ entries h' ≡ₚ entries h.
Proof.
  intros (Hidx & Hc & Ho). destruct (decide (h = [])) as [->|Hne].
  { exists []. split_and!; [done|apply queueInv_new|done]. }
  assert (Hpos : (0 < length h)%nat) by (destruct h; [done|cbn; lia]).
  unfold Pop, hPop. set (h0 := it :: h) in *.
  assert (Hn : zlen h0 - 1 = Z.of_nat (length h)) by (unfold zlen; cbn; lia). rewrite Hn.
  destruct (Swap_same h0 0 (length h)) as (h1 & E1 & Hs1 & He1); [cbn; lia..|].
  change (Z.of_nat 0) with 0 in E1. rewrite E1. cbn [mbind go_mbind].
  pose proof (prio_swap _ _ _ _ He1) as Hp1.
  destruct (down_spec (S (length h1)) (length h) h1 0) as (h2 & i' & E2 & Hs2 & Ho2 & _ & _ & Hout);
    [destruct Hs1 as (_ & -> & _); cbn; lia..|lia|by apply Hs1| |].
  { split; [|lia]. intros k Hk Hk0 a b Ha Hb. pose proof (parent_lt k ltac:(lia)).
    rewrite Hp1, tr_ne in Ha by lia. rewrite Hp1, tr_ne in Hb by lia. apply (Ho k); [lia|done|done]. }
  change (Z.of_nat 0) with 0 in E2. rewrite E2. cbn [mbind go_mbind fst].
  destruct (sameItems_trans _ _ _ Hs1 Hs2) as (Hperm & Hl & Hi & Hcs).
  change (length h0) with (S (length h)) in Hl.
  specialize (Hout (length h) ltac:(lia)). rewrite He1, tr_r in Hout. cbn in Hout.
  destruct (h2 !! length h) as [x|] eqn:Ex; [|done]. injection Hout as Hv Hpx.
  rewrite (idx_lookup h2 (Z.of_nat (length h)) x) by (lia || by rewrite Nat2Z.id). cbn [mbind go_mbind].
  unfold slice. rewrite (proj2 (Z.ltb_ge (zlen h2) _)), (proj2 (Z.ltb_ge (Z.of_nat _) 0)) by (unfold zlen; lia).
  cbn [orb Z.ltb Z.compare mbind go_mbind fst snd setIndexOf value]. rewrite Z.sub_0_r, Nat2Z.id, drop_0, Hv.
  assert (Hsplit : h2 = take (length h) h2 ++ [x]).
  { rewrite <- (take_drop (length h) h2) at 1. f_equal. erewrite drop_S by done.
    f_equal. apply skipn_all2. lia. }
  exists (take (length h) h2). split; [done|]. rewrite Hsplit in Hi, Hcs, Ho2, Hperm. split.
  - eapply queueInv_init; [by apply Hi|by apply Hcs|]. rewrite length_take, Nat.min_l by lia. done.
  - unfold entries in *. rewrite fmap_app in Hperm. cbn in Hperm.
    unfold entry at 2 3 in Hperm. rewrite Hv, Hpx in Hperm.
    rewrite Permutation_app_comm in Hperm. cbn in Hperm. by apply Permutation_cons_inv in Hperm.
Qed.
End Spec.

(** The invariant only depends on the order of the priorities in the queue. *)
Lemma queueInv_ext {V P} (lt lt' : P -> P -> bool) (comparable : P -> P -> Prop) (h : list (pqItem V P)) :
  (forall i j p q, prio h i = Some p -> prio h j = Some q -> lt p q = lt' p q) ->
  queueInv lt comparable h -> queueInv lt' comparable h.
Proof.
  intros Hext (Hi & Hc & Ho). split_and!; [done|done|]. intros k Hk p q Hp Hq. unfold le.
  rewrite <- (Hext k (parent k) q p) by done. by apply (Ho k Hk).
Qed.

(** ** Properties *)

Section Sorting.
Context {V : Type}.

(** Push every pair of a list, keyed by its second component. *)
Definition pushAll (l : list (V * Z)) : go (list (pqItem (V * Z) Z)) :=
  go_fold (fun x h => PushComparable cmpInt_Less h x x.2) l NewHeap.

(** Pop until the heap is empty. *)
Fixpoint popAll (n : nat) (h : list (pqItem (V * Z) Z)) : go (list (V * Z)) :=
  match n with
  | O => Ret []
  | S n => r ← Pop cmpInt_Less h; l ← popAll n r.1; Ret (r.2 :: l)
  end.

Definition intInv (h : list (pqItem (V * Z) Z)) : Prop :=
  queueInv Z.ltb (fun _ _ => True) h /\ Forall (fun e => e.2 = e.1.2) (entries h).

Lemma ltb_irrefl_trans_weak :
  (forall p, (p <? p) = false) /\
  (forall p q r, (p <? q) = true -> (q <? r) = true -> (p <? r) = true) /\
  (forall p q r, (p <? r) = true -> (p <? q) = true \/ (q <? r) = true).
Proof. split_and!; intros; rewrite ?Z.ltb_lt, ?Z.ltb_ge in *; lia. Qed.

Lemma pushAll_spec l h : intInv h ->
  exists h', go_fold (fun x h => PushComparable cmpInt_Less h x x.2) l h = Ret h' /\ intInv h' /\
    entries h' ≡ₚ ((fun x => (x, x.2)) <$> l) ++ entries h.
Proof.
  destruct ltb_irrefl_trans_weak as (H1 & H2 & H3).
  revert h. induction l as [|x l IH]; intros h [Hq Hf]; cbn [go_fold]; [by exists h|].
  destruct (PushComparable_spec cmpInt_Less Z.ltb (fun _ _ => True) ltac:(done) H1 H2 H3 h x x.2 Hq ltac:(done))
    as (h1 & -> & Hq1 & Hp1). cbn [mbind go_mbind].
  destruct (IH h1) as (h' & -> & Hi & Hp).
  { split; [done|]. rewrite Hp1. by constructor. }
  exists h'. split; [done|]. split; [done|]. rewrite Hp, Hp1. cbn. by rewrite Permutation_middle.
Qed.

Lemma popAll_spec h : intInv h ->
  exists r, popAll (length h) h = Ret r /\ ((fun x => (x, x.2)) <$> r) ≡ₚ entries h /\
    StronglySorted (fun a b : V * Z => a.2 <= b.2) r.
Proof.
  destruct ltb_irrefl_trans_weak as (H1 & H2 & H3).
  remember (length h) as n eqn:Hn. revert h Hn. induction n as [|n IH]; intros h Hn [Hq Hf]; cbn [popAll].
  { destruct h; [|done]. exists []. split; [done|]. split; [done|constructor]. }
  destruct h as [|it h]; [done|]. cbn in Hn. injection Hn as Hn.
  destruct (Pop_spec cmpInt_Less Z.ltb (fun _ _ => True) ltac:(done) H1 H2 H3 it h Hq) as (h' & -> & Hq' & Hp).
  cbn [mbind go_mbind fst snd].
  assert (Hlen : length h' = length h).
  { apply Permutation_length in Hp. unfold entries in Hp. by rewrite !length_fmap in Hp. }
  cbn in Hf. apply Forall_cons in Hf as [Hit Hf].
  destruct (IH h') as (r & -> & Hr & Hs); [lia| |].
  { split; [done|]. by rewrite Hp. }
  cbn [mbind go_mbind]. exists (value it :: r). split; [done|]. split.
  { change (entries (it :: h)) with (entry it :: entries h). cbn. rewrite Hr, Hp.
    unfold entry. cbn in Hit. by rewrite Hit. }
  constructor; [done|]. apply Forall_forall. intros x Hx.
  assert (Hin : (x, x.2) ∈ entries h).
  { rewrite <- Hp, <- Hr. by apply (list_elem_of_fmap_2 (fun x => (x, x.2))). }
  apply list_elem_of_lookup in Hin as [k Hk]. unfold entries in Hk. rewrite list_lookup_fmap in Hk.
  destruct (h !! k) as [y|] eqn:Ey; [|done]. injection Hk as Hy1 Hy2. cbn in Hit. rewrite <- Hit.
  apply Z.ltb_ge. eapply (root_least Z.ltb H1 H3 (it :: h) (priority it)); [by apply Hq|done|].
  erewrite prio_cons. unfold prio. rewrite Ey. cbn. by rewrite Hy2.
Qed.
End Sorting.

(** Pushing any list of integer-keyed values and popping until the heap
    is empty never panics and returns the same values in non-decreasing order
    of priority: [Push], [Pop] and the sifting of container/heap keep the heap
    order and lose no item. *)
Theorem heap_sorts {V : Type} (l : list (V * Z)) :
  exists h r, pushAll l = Ret h /\ popAll (length l) h = Ret r /\
    r ≡ₚ l /\ StronglySorted (fun a b : V * Z => a.2 <= b.2) r.
Proof.
  destruct (pushAll_spec l NewHeap) as (h & E & Hi & Hp).
  { split; [apply queueInv_new|constructor]. }
  destruct (popAll_spec h Hi) as (r & Er & Hr & Hs).
  change (entries (V:=V*Z) (P:=Z) NewHeap) with (@nil (V * Z * Z)) in Hp. rewrite app_nil_r in Hp.
  assert (length h = length l) as Hlen.
  { apply Permutation_length in Hp. unfold entries in Hp. by rewrite !length_fmap in Hp. }
  exists h, r. split; [done|]. rewrite <- Hlen. split; [done|]. split; [|done].
  rewrite Hp in Hr. apply (fmap_Permutation fst) in Hr.
  rewrite <- !list_fmap_compose in Hr. by rewrite !list_fmap_id in Hr.
Qed.

End Heap.
