(* ===== verification/Sha256.v ===== *)
(** * crypto/sha256 and crypto/tmhash

    SHA-256 as the Go standard library computes it, on 32-bit words, and the
    truncated hash of crypto/tmhash. *)

From S2P Require Import Prelude.

Module Sha256.

Definition mask32 : Z := 4294967295.
Definition add32 (a b : Z) : Z := Z.land (a + b) mask32.
Definition rotr (n x : Z) : Z := Z.lor (Z.shiftr x n) (Z.land (Z.shiftl x (32 - n)) mask32).
Definition not32 (x : Z) : Z := Z.lxor x mask32.

(** The constants of FIPS 180-4: the first 32 bits of the fractional parts of
    the roots of the first primes, cube roots for the rounds and square roots
    for the initial state, found by bisection on the scaled root. *)
Definition isPrime (n : Z) : bool :=
  forallb (fun d => negb (n mod Z.of_nat d =? 0)) (seq 2 (Z.to_nat n - 2)).

Definition primes : list Z :=
  Eval vm_compute in filter (fun n => isPrime n = true) (seqZ 2 310).

Fixpoint bisect (n : nat) (below : Z -> bool) (lo hi : Z) : Z :=
  match n with
  | O => lo
  | S n =>
      let mid := (lo + hi) / 2 in
      if below mid then bisect n below mid hi else bisect n below lo mid
  end.

(** [floor (p ^ (1/k) * 2^32)] modulo [2^32]. *)
Definition rootBits (k p : Z) : Z :=
  Z.land (bisect 40 (fun r => r ^ k <=? p * 2 ^ (32 * k)) 0 (2 ^ 37)) mask32.

Definition K : list Z := Eval vm_compute in rootBits 3 <$> take 64 primes.

Definition init : list Z := Eval vm_compute in rootBits 2 <$> take 8 primes.

(** Big-endian bytes of a [w]-byte number. *)
Fixpoint beBytes (w : nat) (z : Z) : bytes :=
  match w with
  | O => []
  | S w => Z_byte (Z.shiftr z (8 * Z.of_nat w)) :: beBytes w z
  end.

Definition beWord (b : bytes) : Z := foldl (fun a x => a * 256 + byte_Z x) 0 b.

(** The padded message: a 1 bit, zeros, the bit length in 64 bits. *)
Definition pad (msg : bytes) : bytes :=
  let len := zlen msg in
  let zeros := (55 - len) mod 64 in
  msg ++ [Byte.x80] ++ replicate (Z.to_nat zeros) Byte.x00 ++ beBytes 8 (8 * len).

Fixpoint chunks (n : nat) (k : nat) (b : bytes) : list bytes :=
  match n with
  | O => []
  | S n => take k b :: chunks n k (drop k b)
  end.

(** The message schedule, kept in reverse order. *)
Fixpoint schedule (n : nat) (w : list Z) : list Z :=
  match n with
  | O => rev w
  | S n =>
      let g k := nth k w 0 in
      let s0 := Z.lxor (Z.lxor (rotr 7 (g 14%nat)) (rotr 18 (g 14%nat))) (Z.shiftr (g 14%nat) 3) in
      let s1 := Z.lxor (Z.lxor (rotr 17 (g 1%nat)) (rotr 19 (g 1%nat))) (Z.shiftr (g 1%nat) 10) in
      schedule n (add32 (add32 (g 15%nat) s0) (add32 (g 6%nat) s1) :: w)
  end.

Definition round (st : list Z) (kw : Z * Z) : list Z :=
  match st with
  | [a; b; c; d; e; f; g; h] =>
      let s1 := Z.lxor (Z.lxor (rotr 6 e) (rotr 11 e)) (rotr 25 e) in
      let ch := Z.lxor (Z.land e f) (Z.land (not32 e) g) in
      let t1 := add32 (add32 (add32 h s1) ch) (add32 kw.1 kw.2) in
      let s0 := Z.lxor (Z.lxor (rotr 2 a) (rotr 13 a)) (rotr 22 a) in
      let maj := Z.lxor (Z.lxor (Z.land a b) (Z.land a c)) (Z.land b c) in
      let t2 := add32 s0 maj in
      [add32 t1 t2; a; b; c; add32 d t1; e; f; g]
  | _ => st
  end.

Definition block (st : list Z) (chunk : bytes) : list Z :=
  let w := schedule 48 (rev (beWord <$> chunks 16 4 chunk)) in
  zip_with add32 st (foldl round st (zip K w)).

(** [sha256.Sum256] *)
Definition Sum256 (msg : bytes) : bytes :=
  let p := pad msg in
  mjoin (beBytes 4 <$> foldl block init (chunks (length p / 64) 64 p)).

Lemma length_beBytes w z : length (beBytes w z) = w.
Proof. induction w; cbn; congruence. Qed.

Lemma length_round st kw : length st = 8%nat -> length (round st kw) = 8%nat.
Proof. do 9 (destruct st as [|? st]; try done). Qed.

Lemma length_foldl_round l st : length st = 8%nat -> length (foldl round st l) = 8%nat.
Proof. revert st. induction l as [|x l IH]; intros st H; cbn; [done|]. apply IH. by apply length_round. Qed.

Lemma length_block st c : length st = 8%nat -> length (block st c) = 8%nat.
Proof. intros H. unfold block. rewrite length_zip_with, length_foldl_round, H by done. done. Qed.

Lemma length_Sum256 msg : length (Sum256 msg) = 32%nat.
Proof.
  unfold Sum256. set (l := chunks _ _ _). clearbody l.
  assert (Hl : forall st, length st = 8%nat -> length (foldl block st l) = 8%nat).
  { induction l as [|c l IH]; intros st H; cbn; [done|]. apply IH. by apply length_block. }
  specialize (Hl init eq_refl). revert Hl. generalize (foldl block init l). intros st H.
  do 9 (destruct st as [|? st]; try done).
Qed.

(** The two test vectors of FIPS 180-2, of one and of two blocks. *)
Example Sum256_abc : beWord (Sum256 (str "abc")) =
  0xba7816bf8f01cfea414140de5dae2223b00361a396177a9cb410ff61f20015ad.
Proof. vm_compute. reflexivity. Qed.

Example Sum256_two_blocks :
  beWord (Sum256 (str "abcdbcdecdefdefgefghfghighijhijkijkljklmklmnlmnomnopnopq")) =
  0x248d6a61d20638b8e5c026930c3e6039a33ce45964ff2167f6ecedd419db06c1.
Proof. vm_compute. reflexivity. Qed.

(** ** crypto/tmhash/hash.go *)

Definition Size : Z := 20.

(** [Sum]; [New], [Write] and [Sum(nil)] hash the concatenation of what was
    written. *)
Definition tmhash (bz : bytes) : bytes := take (Z.to_nat Size) (Sum256 bz).

Lemma length_tmhash bz : length (tmhash bz) = 20%nat.
Proof. unfold tmhash. rewrite length_take, length_Sum256. done. Qed.

End Sha256.
