(* ===== verification/Crypto.v ===== *)
(** * crypto

    Public keys and signatures (crypto/pub_key.go, crypto/signature.go) over
    the third-party curves, which are a parameter of the model, and the
    length-prefixed encoding of go-amino that hashing uses. *)

From S2P Require Import Prelude Sha256.
Import Sha256.

(** ** Third-party code *)

(** github.com/tendermint/ed25519, github.com/btcsuite/btcd/btcec and
    golang.org/x/crypto/ripemd160. *)
Class Curves := {
  ed25519_Verify : bytes -> bytes -> bytes -> bool;
  ed25519_Sign : bytes -> bytes -> bytes;
  ed25519_MakePublicKey : bytes -> bytes;
  btcec_PublicKey : Type;
  btcec_Signature : Type;
  btcec_ParsePubKey : bytes -> option btcec_PublicKey;
  btcec_ParseDERSignature : bytes -> option btcec_Signature;
  btcec_Verify : btcec_Signature -> bytes -> btcec_PublicKey -> bool;
  ripemd160 : bytes -> bytes;
}.

(** [amino.EncodeByteSlice] of github.com/tendermint/go-amino. *)
Class Amino := { EncodeByteSlice : bytes -> bytes }.

(** Its documented behaviour: the slice is prefixed with its length, so the
    encodings of a sequence of slices can be read back from the front. *)
Class AminoLaws `{Amino} := {
  EncodeByteSlice_prefix : forall a b s t,
    EncodeByteSlice a ++ s = EncodeByteSlice b ++ t -> a = b /\ s = t;
}.

Module Crypto.
Section Keys.
Context `{Curves}.

(** ** crypto/pub_key.go *)

Inductive PubKey :=
| PubKeyEd25519 (b : bytes)
| PubKeySecp256k1 (b : bytes).

Inductive Signature :=
| SignatureEd25519 (b : bytes)
| SignatureSecp256k1 (b : bytes).

#[export] Instance PubKey_eq_dec : EqDecision PubKey.
Proof. solve_decision. Defined.
#[export] Instance Signature_eq_dec : EqDecision Signature.
Proof. solve_decision. Defined.

Definition Address (pubKey : PubKey) : bytes :=
  match pubKey with
  | PubKeyEd25519 b => tmhash b
  | PubKeySecp256k1 b => ripemd160 (Sum256 b)
  end.

(** A nil [Signature] interface is [None]: the type assertion fails. *)
Definition VerifyBytes (pubKey : PubKey) (msg : bytes) (sig_ : option Signature) : bool :=
  match pubKey, sig_ with
  | PubKeyEd25519 b, Some (SignatureEd25519 sig) => ed25519_Verify b msg sig
  | PubKeySecp256k1 b, Some (SignatureSecp256k1 sig) =>
      match btcec_ParsePubKey b with
      | None => false
      | Some pub =>
          match btcec_ParseDERSignature sig with
          | None => false
          | Some s => btcec_Verify s (Sum256 msg) pub
          end
      end
  | _, _ => false
  end.

Definition PubKey_Equals (pubKey other : PubKey) : bool :=
  match pubKey, other with
  | PubKeyEd25519 a, PubKeyEd25519 b => bytes_eqb a b
  | PubKeySecp256k1 a, PubKeySecp256k1 b => bytes_eqb a b
  | _, _ => false
  end.

(** ** crypto/signature.go *)

Definition Signature_Equals (sig : Signature) (other : option Signature) : bool :=
  match sig, other with
  | SignatureEd25519 a, Some (SignatureEd25519 b) => bytes_eqb a b
  | SignatureSecp256k1 a, Some (SignatureSecp256k1 b) => bytes_eqb a b
  | _, _ => false
  end.

(** [len] of the 64-byte array of an Ed25519 signature is never 0. *)
Definition Signature_IsZero (sig : Signature) : bool :=
  match sig with
  | SignatureEd25519 _ => false
  | SignatureSecp256k1 b => zlen b =? 0
  end.

Lemma PubKey_Equals_eq a b : PubKey_Equals a b = true <-> a = b.
Proof.
  destruct a, b; cbn; rewrite ?bytes_eqb_true; split; try done; congruence.
Qed.

Lemma Signature_Equals_eq a b : Signature_Equals a b = true <-> b = Some a.
Proof.
  destruct a, b as [[]|]; cbn; rewrite ?bytes_eqb_true; split; try done; congruence.
Qed.

Lemma VerifyBytes_nil pk msg : VerifyBytes pk msg None = false.
Proof. by destruct pk. Qed.
End Keys.
End Crypto.
Export (hints) Crypto.

(** ** A concrete encoding *)

(** [encoding/binary.PutUvarint] *)
Fixpoint uvarint (fuel : nat) (x : Z) : bytes :=
  match fuel with
  | O => []
  | S fuel => if x <? 128 then [Z_byte x] else Z_byte (x mod 128 + 128) :: uvarint fuel (x / 128)
  end.

Definition uvarintSlice (b : bytes) : bytes := uvarint (S (length b)) (zlen b) ++ b.

Lemma Z_byte_inj a b : 0 <= a < 256 -> 0 <= b < 256 -> Z_byte a = Z_byte b -> a = b.
Proof.
  intros Ha Hb E. apply (f_equal byte_Z) in E. rewrite !byte_Z_of_byte, !Z.mod_small in E; lia.
Qed.

Lemma uvarint_prefix f g x y s t : 0 <= x < 128 ^ Z.of_nat (S f) -> 0 <= y < 128 ^ Z.of_nat (S g) ->
  uvarint (S f) x ++ s = uvarint (S g) y ++ t -> x = y /\ s = t.
Proof.
  revert g x y. induction f as [|f IH]; intros g x y Hx Hy.
  all: cbn [uvarint]; pose proof (Z.mod_pos_bound x 128 ltac:(lia)); pose proof (Z.mod_pos_bound y 128 ltac:(lia)).
  - change (128 ^ Z.of_nat 1) with 128 in Hx. rewrite (proj2 (Z.ltb_lt x 128)) by lia.
    destruct (Z.ltb_spec y 128); cbn [app]; intros E; injection E as E1 E2; apply Z_byte_inj in E1; try lia.
    by split; [lia|].
  - destruct (Z.ltb_spec x 128), (Z.ltb_spec y 128); cbn [app]; intros E; injection E as E1 E2;
      apply Z_byte_inj in E1; try lia; [by split; [lia|]|].
    destruct g as [|g]; [change (128 ^ Z.of_nat 1) with 128 in Hy; lia|].
    assert (Hd : forall n z, 0 <= z < 128 ^ Z.of_nat (S (S n)) -> 0 <= z / 128 < 128 ^ Z.of_nat (S n)).
    { intros n z Hz. split; [apply Z.div_pos; lia|]. apply Z.div_lt_upper_bound; [lia|].
      rewrite <- Z.pow_succ_r by lia. replace (Z.succ (Z.of_nat (S n))) with (Z.of_nat (S (S n))) by lia. apply Hz. }
    apply IH in E2 as [E2 ->]; [|by apply Hd..]. split; [|done].
    pose proof (Z.div_mod x 128 ltac:(lia)). pose proof (Z.div_mod y 128 ltac:(lia)). lia.
Qed.

Lemma zlen_pow128 (b : bytes) : 0 <= zlen b < 128 ^ Z.of_nat (S (length b)).
Proof.
  unfold zlen. split; [lia|]. transitivity (128 ^ Z.of_nat (length b)).
  - apply Z.pow_gt_lin_r; lia.
  - apply Z.pow_lt_mono_r; lia.
Qed.

Lemma uvarintSlice_prefix a b s t : uvarintSlice a ++ s = uvarintSlice b ++ t -> a = b /\ s = t.
Proof.
  unfold uvarintSlice. rewrite <- !app_assoc. intros E.
  apply uvarint_prefix in E as [Hl E]; [|apply zlen_pow128..].
  apply app_inj_1; [unfold zlen in Hl; lia|done].
Qed.

(** The instances below are for concrete evaluations. *)
Definition uvarintAmino : Amino := {| EncodeByteSlice := uvarintSlice |}.
Definition uvarintAminoLaws : @AminoLaws uvarintAmino.
Proof. constructor. exact uvarintSlice_prefix. Defined.

(** A toy signature scheme: the signature of a message is the public key
    followed by its hash. *)
Definition toyCurves : Curves := {|
  ed25519_Verify := fun pub msg sig => bytes_eqb sig (pub ++ tmhash msg);
  ed25519_Sign := fun priv msg => priv ++ tmhash msg;
  ed25519_MakePublicKey := fun priv => priv;
  btcec_PublicKey := bytes;
  btcec_Signature := bytes;
  btcec_ParsePubKey := fun b => Some b;
  btcec_ParseDERSignature := fun b => Some b;
  btcec_Verify := fun sig hash pub => bytes_eqb sig (pub ++ hash);
  ripemd160 := fun b => take 20 b;
|}.
