(* ===== verification/Merkle.v ===== *)
(** * crypto/merkle

    Simple Merkle trees: the root hash of a list of hashes, the proofs built
    over a tree of linked nodes, their verification, and the hash of a map of
    key-value pairs.  A nil byte slice and an empty one are the same value
    [[]] except in [computeHashFromAunts], whose callers test for nil and
    which returns an [option]. *)

From S2P Require Import Prelude Sha256 Crypto.
Import Sha256.

Module Merkle.
Section Merkle.
Context `{Amino}.

(** ** simple_tree.go *)

Definition SimpleHashFromTwoHashes (left right : bytes) : bytes :=
  tmhash (EncodeByteSlice left ++ EncodeByteSlice right).

(** [(len(hashes)+1)/2] *)
Definition half {A} (l : list A) : nat := ((length l + 1) / 2)%nat.

Fixpoint simpleHashFuel (fuel : nat) (hashes : list bytes) : bytes :=
  match fuel with
  | O => []
  | S fuel =>
      match hashes with
      | [] => []
      | [h] => h
      | _ => SimpleHashFromTwoHashes (simpleHashFuel fuel (take (half hashes) hashes))
                                     (simpleHashFuel fuel (drop (half hashes) hashes))
      end
  end.

(** Both halves of a list of two or more are shorter: the length is enough
    fuel. *)
Definition simpleHashFromHashes (hashes : list bytes) : bytes :=
  simpleHashFuel (length hashes) hashes.

(** [items] are given by their [Hash()]. *)
Definition SimpleHashFromHashers (items : list bytes) : bytes := simpleHashFromHashes items.

(** ** simple_proof.go *)

Record SimpleProof := mkSimpleProof { Aunts : list bytes }.

(** [computeHashFromAunts] with the inner hashes in reverse order: the source
    takes them off the end. *)
Fixpoint computeHashRev (index total : Z) (leafHash : option bytes) (rinner : list bytes) : option bytes :=
  if (total <=? index) || (index <? 0) || (total <=? 0) then None
  else if total =? 1 then
    match rinner with [] => leafHash | _ => None end
  else
    match rinner with
    | [] => None
    | last :: rinner =>
        let numLeft := Z.quot (add64 total 1) 2 in
        if index <? numLeft then
          match computeHashRev index numLeft leafHash rinner with
          | None => None
          | Some leftHash => Some (SimpleHashFromTwoHashes leftHash last)
          end
        else
          match computeHashRev (sub64 index numLeft) (sub64 total numLeft) leafHash rinner with
          | None => None
          | Some rightHash => Some (SimpleHashFromTwoHashes last rightHash)
          end
    end.

Definition computeHashFromAunts (index total : Z) (leafHash : option bytes) (innerHashes : list bytes) : option bytes :=
  computeHashRev index total leafHash (rev innerHashes).

Definition Verify (sp : SimpleProof) (index total : Z) (leafHash : option bytes) (rootHash : bytes) : bool :=
  match computeHashFromAunts index total leafHash (Aunts sp) with
  | None => false
  | Some computedHash => bytes_eqb computedHash rootHash
  end.

(** The tree of linked nodes lives in a store; a pointer is an index. *)
Record SimpleProofNode := mkNode {
  Hash : bytes; Parent : option nat; Left : option nat; Right : option nat }.
Abbreviation store := (list SimpleProofNode).

Definition deref (st : store) (p : option nat) : go SimpleProofNode :=
  match p with
  | None => Panic NilDeref
  | Some a => match st !! a with Some n => Ret n | None => Panic NilDeref end
  end.

(** The loop visits nodes of increasing address: the store's length is enough
    fuel. *)
Fixpoint FlattenAuntsFuel (fuel : nat) (st : store) (spn : option nat) : go (list bytes) :=
  match fuel with
  | O => Ret []
  | S fuel =>
      match spn with
      | None => Ret []
      | Some _ =>
          n ← deref st spn;
          match Left n, Right n with
          | Some l, _ => s ← deref st (Some l); rest ← FlattenAuntsFuel fuel st (Parent n); Ret (Hash s :: rest)
          | None, Some r => s ← deref st (Some r); rest ← FlattenAuntsFuel fuel st (Parent n); Ret (Hash s :: rest)
          | None, None => Ret []
          end
      end
  end.

Definition FlattenAunts (st : store) (spn : option nat) : go (list bytes) :=
  FlattenAuntsFuel (length st) st spn.

(** [leftRoot.Parent = root; leftRoot.Right = rightRoot] *)
Definition linkLeft (n : SimpleProofNode) (root right : nat) : SimpleProofNode :=
  mkNode (Hash n) (Some root) (Left n) (Some right).
(** [rightRoot.Parent = root; rightRoot.Left = leftRoot] *)
Definition linkRight (n : SimpleProofNode) (root left : nat) : SimpleProofNode :=
  mkNode (Hash n) (Some root) (Some left) (Right n).

Fixpoint trailsFuel (fuel : nat) (st : store) (items : list bytes) : go (store * list nat * option nat) :=
  match fuel with
  | O => Ret (st, [], None)
  | S fuel =>
      match items with
      | [] => Ret (st, [], None)
      | [h] => Ret (st ++ [mkNode h None None None], [length st], Some (length st))
      | _ =>
          l ← trailsFuel fuel st (take (half items) items);
          let '(st, lefts, leftRoot) := l in
          r ← trailsFuel fuel st (drop (half items) items);
          let '(st, rights, rightRoot) := r in
          ln ← deref st leftRoot;
          rn ← deref st rightRoot;
          let rootHash := SimpleHashFromTwoHashes (Hash ln) (Hash rn) in
          let root := length st in
          let st := st ++ [mkNode rootHash None None None] in
          match leftRoot, rightRoot with
          | Some la, Some ra =>
              let st := <[la := linkLeft ln root ra]> st in
              let st := <[ra := linkRight rn root la]> st in
              Ret (st, lefts ++ rights, Some root)
          | _, _ => Panic NilDeref
          end
      end
  end.

Definition trailsFromHashers (items : list bytes) : go (store * list nat * option nat) :=
  trailsFuel (length items) [] items.

Definition SimpleProofsFromHashers (items : list bytes) : go (bytes * list SimpleProof) :=
  t ← trailsFromHashers items;
  let '(st, trails, rootSPN) := t in
  root ← deref st rootSPN;
  proofs ← go_fold (fun trail ps => a ← FlattenAunts st (Some trail); Ret (ps ++ [mkSimpleProof a])) trails [];
  Ret (Hash root, proofs).

(** ** simple_map.go *)

Record KVPair := mkKVPair { Key : bytes; Value : bytes }.

Definition KVPair_Hash (kv : KVPair) : bytes :=
  tmhash (EncodeByteSlice (Key kv) ++ EncodeByteSlice (Value kv)).

Definition hashKVPairs (kvs : list KVPair) : bytes := SimpleHashFromHashers (KVPair_Hash <$> kvs).

(** The order of [KVPairs.Sort] (libs/common/kvpair.go): by key, then by value. *)
Definition kvLess (a b : KVPair) : bool :=
  match bytes_compare (Key a) (Key b) with
  | Lt => true
  | Gt => false
  | Eq => match bytes_compare (Value a) (Value b) with Lt => true | _ => false end
  end.

Record simpleMap := mkSimpleMap { kvs : list KVPair; sorted : bool }.
Definition newSimpleMap : simpleMap := mkSimpleMap [] false.
(** [value] is given by its [Hash()]. *)
Definition smSet (sm : simpleMap) (key : bytes) (vhash : bytes) : simpleMap :=
  mkSimpleMap (kvs sm ++ [mkKVPair key vhash]) false.
Definition smSort (sm : simpleMap) : simpleMap :=
  if sorted sm then sm else mkSimpleMap (isort kvLess (kvs sm)) true.
Definition smHash (sm : simpleMap) : simpleMap * bytes :=
  let sm := smSort sm in (sm, hashKVPairs (kvs sm)).

(** [m] lists the map in the order the range statement visits it. *)
Definition SimpleHashFromMap (m : list (bytes * bytes)) : bytes :=
  (smHash (foldl (fun sm kv => smSet sm kv.1 kv.2) newSimpleMap m)).2.

(** ** The root hash *)

Lemma half_bounds {A} (l : list A) : (2 <= length l)%nat -> (1 <= half l < length l)%nat.
Proof.
  intros H0. unfold half. pose proof (Nat.div_mod_eq (length l + 1) 2).
  pose proof (Nat.mod_upper_bound (length l + 1) 2). lia.
Qed.

Lemma half_quot {A} (l : list A) : zlen l < MaxInt64 -> Z.quot (add64 (zlen l) 1) 2 = Z.of_nat (half l).
Proof.
  intros Hmax. unfold add64. rewrite wrap64_small by (pose proof (zlen_nonneg l); unfold_int64; lia). clear Hmax. unfold zlen, half. rewrite Z.quot_div_nonneg by lia. rewrite Nat2Z.inj_div. f_equal; lia.
Qed.

Lemma list_case2 {A} (l : list A) : l = [] \/ (exists x, l = [x]) \/ (2 <= length l)%nat.
Proof. destruct l as [|x [|y l]]; [by left|right; left; by exists x|right; right; cbn; lia]. Qed.

Ltac len2 := rewrite ?length_take, ?length_drop; lia.

Lemma simpleHashFuel_more f g l : (length l <= f)%nat -> (length l <= g)%nat ->
  simpleHashFuel f l = simpleHashFuel g l.
Proof.
  revert g l. induction f as [|f IH]; intros g l Hf Hg.
  { destruct l; [|cbn in Hf; lia]. by destruct g. }
  destruct g as [|g]; [by destruct l; [|cbn in Hg; lia]|]. cbn [simpleHashFuel].
  destruct (list_case2 l) as [->|[[x ->]|H2]]; [done|done|].
  pose proof (half_bounds l H2). destruct l as [|x [|y l]]; [done|done|].
  f_equal; apply IH; len2.
Qed.

Lemma simpleHash_node l : (2 <= length l)%nat ->
  simpleHashFromHashes l = SimpleHashFromTwoHashes (simpleHashFromHashes (take (half l) l)) (simpleHashFromHashes (drop (half l) l)).
Proof.
  intros H2. pose proof (half_bounds l H2). unfold simpleHashFromHashes.
  rewrite (simpleHashFuel_more (length (take _ _)) (length l - 1)) by len2.
  rewrite (simpleHashFuel_more (length (drop _ _)) (length l - 1)) by len2.
  destruct l as [|x [|y l]]; [cbn in H2; lia..|]. done.
Qed.

(** ** Proofs *)

(** The aunts of leaf [i], from its sibling to a child of the root. *)
Fixpoint auntsFuel (fuel : nat) (l : list bytes) (i : nat) : list bytes :=
  match fuel with
  | O => []
  | S fuel =>
      match l with
      | [] | [_] => []
      | _ => if decide (i < half l)%nat
             then auntsFuel fuel (take (half l) l) i ++ [simpleHashFromHashes (drop (half l) l)]
             else auntsFuel fuel (drop (half l) l) (i - half l) ++ [simpleHashFromHashes (take (half l) l)]
      end
  end.

Lemma auntsFuel_node f l i : (2 <= length l)%nat ->
  auntsFuel (S f) l i = if decide (i < half l)%nat
             then auntsFuel f (take (half l) l) i ++ [simpleHashFromHashes (drop (half l) l)]
             else auntsFuel f (drop (half l) l) (i - half l) ++ [simpleHashFromHashes (take (half l) l)].
Proof. intros H2. destruct l as [|x [|y l]]; [cbn in H2; lia..|]. done. Qed.

Lemma computeHash_snoc index total leaf inner last : 0 <= index < total -> 2 <= total ->
  computeHashFromAunts index total leaf (inner ++ [last]) =
  let numLeft := Z.quot (add64 total 1) 2 in
  if index <? numLeft then
    match computeHashFromAunts index numLeft leaf inner with
    | None => None | Some h => Some (SimpleHashFromTwoHashes h last) end
  else
    match computeHashFromAunts (sub64 index numLeft) (sub64 total numLeft) leaf inner with
    | None => None | Some h => Some (SimpleHashFromTwoHashes last h) end.
Proof.
  intros Hi Ht. unfold computeHashFromAunts. rewrite rev_app_distr. cbn [rev app].
  cbn [computeHashRev]. rewrite (proj2 (Z.leb_gt total index)), (proj2 (Z.ltb_ge index 0)), (proj2 (Z.leb_gt total 0)), (proj2 (Z.eqb_neq total 1)) by lia.
  done.
Qed.

(** The aunts of a leaf hash to the root. *)
Lemma computeHash_aunts f l i h : (length l <= f)%nat -> zlen l < MaxInt64 -> l !! i = Some h ->
  computeHashFromAunts (Z.of_nat i) (zlen l) (Some h) (auntsFuel f l i) = Some (simpleHashFromHashes l).
Proof.
  revert l i. induction f as [|f IH]; intros l i Hf Hmax Hi.
  { destruct l; [done|cbn in Hf; lia]. }
  destruct (list_case2 l) as [->|[[x ->]|H2]]; [done| |].
  { apply list_lookup_singleton_Some in Hi as [-> ->]. reflexivity. }
  pose proof (half_bounds l H2) as Hh. pose proof (lookup_lt_Some _ _ _ Hi).
  rewrite auntsFuel_node, (simpleHash_node l) by done.
  destruct (decide (i < half l)%nat) as [Hlt|Hge]; rewrite computeHash_snoc by (unfold zlen; lia);
    cbv zeta; rewrite half_quot by done.
  - rewrite (proj2 (Z.ltb_lt _ _)) by lia.
    replace (Z.of_nat (half l)) with (zlen (take (half l) l)) by (unfold zlen; len2).
    rewrite IH; [done|len2|unfold zlen in *; len2|]. by rewrite lookup_take_lt.
  - rewrite (proj2 (Z.ltb_ge _ _)) by lia.
    replace (sub64 (Z.of_nat i) (Z.of_nat (half l))) with (Z.of_nat (i - half l)) by (unfold sub64; rewrite wrap64_small by (unfold zlen in *; unfold_int64; lia); lia).
    replace (sub64 (zlen l) (Z.of_nat (half l))) with (zlen (drop (half l) l)) by (unfold sub64; rewrite wrap64_small by (unfold zlen in *; unfold_int64; lia); unfold zlen; len2).
    rewrite IH; [done|len2|unfold zlen in *; len2|]. rewrite lookup_drop. rewrite <- Hi. f_equal. lia.
Qed.

(** ** The tree of linked nodes *)

(** [chain st a r hs]: following the parents from node [a] to node [r], the
    siblings on the way hash to [hs]. *)
Inductive chain (st : store) : nat -> nat -> list bytes -> Prop :=
| chain_refl a : chain st a a []
| chain_left a r n s sib p hs :
    st !! a = Some n -> Left n = Some s -> st !! s = Some sib -> Parent n = Some p -> (a < p)%nat ->
    chain st p r hs -> chain st a r (Hash sib :: hs)
| chain_right a r n s sib p hs :
    st !! a = Some n -> Left n = None -> Right n = Some s -> st !! s = Some sib -> Parent n = Some p -> (a < p)%nat ->
    chain st p r hs -> chain st a r (Hash sib :: hs).

Lemma chain_trans st a b c hs ks : chain st a b hs -> chain st b c ks -> chain st a c (hs ++ ks).
Proof. induction 1; cbn; intros; [done|eapply chain_left; eauto|eapply chain_right; eauto]. Qed.

(** Linking a root to a new parent keeps the chains below it: only nodes with
    no parent change, and no hash does. *)
Definition extends (st st' : store) : Prop :=
  (forall x n, st !! x = Some n -> Parent n <> None -> st' !! x = Some n) /\
  (forall x n, st !! x = Some n -> exists n', st' !! x = Some n' /\ Hash n' = Hash n).

Lemma chain_extends st st' a r hs : extends st st' -> chain st a r hs -> chain st' a r hs.
Proof.
  intros [H1 H2]. induction 1 as [|a r n s sib p hs Hn Hl Hs Hp Hlt Hc IH|a r n s sib p hs Hn Hl Hr Hs Hp Hlt Hc IH].
  - constructor.
  - destruct (H2 s sib Hs) as (n' & Hs' & <-). eapply chain_left; eauto. apply H1; congruence.
  - destruct (H2 s sib Hs) as (n' & Hs' & <-). eapply chain_right; eauto. apply H1; congruence.
Qed.

Lemma Flatten_chain st a r hs n f : chain st a r hs -> st !! r = Some n -> Left n = None -> Right n = None ->
  (length st - a <= f)%nat -> FlattenAuntsFuel f st (Some a) = Ret hs.
Proof.
  intros Hc Hr Hl Hrt. revert f.
  induction Hc as [a|a r m s sib p hs Hn Hl' Hs Hp Hlt Hc IH|a r m s sib p hs Hn Hl' Hr' Hs Hp Hlt Hc IH]; intros f Hf.
  - pose proof (lookup_lt_Some _ _ _ Hr). destruct f as [|f]; [lia|]. cbn. rewrite Hr. cbn. by rewrite Hl, Hrt.
  - pose proof (lookup_lt_Some _ _ _ Hn). destruct f as [|f]; [lia|].
    cbn. rewrite Hn. cbn. rewrite Hl', Hs, Hp. cbn. rewrite IH by (done || lia). done.
  - pose proof (lookup_lt_Some _ _ _ Hn). destruct f as [|f]; [lia|].
    cbn. rewrite Hn. cbn. rewrite Hl', Hr', Hs, Hp. cbn. rewrite IH by (done || lia). done.
Qed.

(** The nodes allocated so far are untouched. *)
Definition keeps (st st' : store) : Prop :=
  (length st <= length st')%nat /\ forall x, (x < length st)%nat -> st' !! x = st !! x.

Lemma keeps_extends st st' : keeps st st' -> extends st st'.
Proof.
  intros [_ Hk]. split.
  - intros x n Hx _. rewrite Hk; [done|by eapply lookup_lt_Some].
  - intros x n Hx. exists n. split; [|done]. rewrite Hk; [done|by eapply lookup_lt_Some].
Qed.

Lemma keeps_trans st1 st2 st3 : keeps st1 st2 -> keeps st2 st3 -> keeps st1 st3.
Proof. intros [H1 K1] [H2 K2]. split; [lia|]. intros x Hx. rewrite K2, K1 by lia. done. Qed.

Definition rootNode (h : bytes) : SimpleProofNode := mkNode h None None None.

(** What [trailsFromHashers] builds: a root that hashes the items, and for
    each item a node from which the aunts of the item are reached. *)
Definition treeOK (f : nat) (st st' : store) (items : list bytes) (trails : list nat) (r : nat) : Prop :=
  keeps st st' /\ (length st <= r < length st')%nat /\
  st' !! r = Some (rootNode (simpleHashFromHashes items)) /\
  length trails = length items /\
  forall i a, trails !! i = Some a -> (a < length st')%nat /\ chain st' a r (auntsFuel f items i).

(** The store after linking the two roots to a new one. *)
Definition linked (st : store) (la ra : nat) (lh rh : bytes) : store :=
  <[ra := linkRight (rootNode rh) (length st) la]>
    (<[la := linkLeft (rootNode lh) (length st) ra]> (st ++ [rootNode (SimpleHashFromTwoHashes lh rh)])).

Lemma linked_lookup st la ra lh rh : la <> ra -> (la < length st)%nat -> (ra < length st)%nat ->
  linked st la ra lh rh !! la = Some (linkLeft (rootNode lh) (length st) ra) /\
  linked st la ra lh rh !! ra = Some (linkRight (rootNode rh) (length st) la) /\
  linked st la ra lh rh !! length st = Some (rootNode (SimpleHashFromTwoHashes lh rh)) /\
  (forall x, x <> la -> x <> ra -> (x < length st)%nat -> linked st la ra lh rh !! x = st !! x).
Proof.
  intros Hne Hla Hra. unfold linked. split_and!.
  - rewrite list_lookup_insert_ne, list_lookup_insert_eq by (rewrite ?length_app; cbn; lia). done.
  - rewrite list_lookup_insert_eq by (rewrite length_insert, length_app; cbn; lia). done.
  - rewrite !list_lookup_insert_ne by lia. by rewrite list_lookup_middle.
  - intros x H1 H2 H3. rewrite !list_lookup_insert_ne by done. by rewrite lookup_app_l.
Qed.

Lemma length_linked st la ra lh rh : length (linked st la ra lh rh) = S (length st).
Proof. unfold linked. rewrite !length_insert, length_app. cbn. lia. Qed.

Lemma linked_extends st la ra lh rh : la <> ra ->
  st !! la = Some (rootNode lh) -> st !! ra = Some (rootNode rh) -> extends st (linked st la ra lh rh).
Proof.
  intros Hne Hla Hra.
  pose proof (lookup_lt_Some _ _ _ Hla). pose proof (lookup_lt_Some _ _ _ Hra).
  destruct (linked_lookup st la ra lh rh) as (L1 & L2 & _ & L4); [done..|]. split.
  - intros x n Hx Hp. rewrite L4; [done| | |by eapply lookup_lt_Some].
    + intros ->. rewrite Hla in Hx. injection Hx as <-. done.
    + intros ->. rewrite Hra in Hx. injection Hx as <-. done.
  - intros x n Hx. destruct (decide (x = la)) as [->|]; [|destruct (decide (x = ra)) as [->|]].
    + eexists. split; [done|]. rewrite Hla in Hx. by injection Hx as <-.
    + eexists. split; [done|]. rewrite Hra in Hx. by injection Hx as <-.
    + exists n. split; [|done]. rewrite L4; [done..|by eapply lookup_lt_Some].
Qed.

Lemma length_pos_ne {A} (l : list A) : (0 < length l)%nat -> l <> [].
Proof. intros ? ->. cbn in *. lia. Qed.

(** Linking the trees of the two halves gives the tree of the whole. *)
Lemma treeOK_link f st st1 st2 items lefts rights la ra : (2 <= length items)%nat ->
  treeOK f st st1 (take (half items) items) lefts la ->
  treeOK f st1 st2 (drop (half items) items) rights ra ->
  treeOK (S f) st (linked st2 la ra (simpleHashFromHashes (take (half items) items))
                     (simpleHashFromHashes (drop (half items) items))) items (lefts ++ rights) (length st2).
Proof.
  intros H2 (K1 & B1 & R1 & L1 & C1) (K2 & B2 & R2 & L2 & C2). pose proof (half_bounds items H2) as Hh.
  assert (R1' : st2 !! la = Some (rootNode (simpleHashFromHashes (take (half items) items)))).
  { rewrite <- R1. apply K2. lia. }
  set (lh := simpleHashFromHashes (take _ _)) in *. set (rh := simpleHashFromHashes (drop _ _)) in *.
  destruct (linked_lookup st2 la ra lh rh) as (Q1 & Q2 & Q3 & Q4); [lia..|].
  pose proof (linked_extends st2 la ra lh rh ltac:(lia) R1' R2) as Hext.
  split_and!.
  - split; [rewrite length_linked; destruct K1, K2; lia|]. intros x Hx.
    rewrite Q4 by (destruct K1, K2; lia). apply (keeps_trans st st1 st2); [done|done|done].
  - destruct K1, K2; lia.
  - rewrite length_linked. lia.
  - rewrite simpleHash_node by done. done.
  - rewrite length_app, L1, L2. len2.
  - intros i a Hi. rewrite length_linked, auntsFuel_node by done.
    apply lookup_app_Some in Hi as [Hi|[Hge Hi]].
    + pose proof (lookup_lt_Some _ _ _ Hi) as Hl. rewrite L1, length_take in Hl.
      rewrite decide_True by lia. destruct (C1 _ _ Hi) as [Ha Hc]. split; [destruct K2; lia|].
      apply (chain_trans _ a la).
      { apply (chain_extends st2); [done|]. apply (chain_extends st1); [by apply keeps_extends|done]. }
      eapply (chain_right _ _ _ _ _ (linkRight (rootNode rh) (length st2) la)); [exact Q1|done|done|exact Q2|done|lia|constructor].
    + rewrite L1, length_take in Hge, Hi. rewrite decide_False by lia.
      replace (i - (half items `min` length items))%nat with (i - half items)%nat in Hi by lia.
      destruct (C2 _ _ Hi) as [Ha Hc]. split; [lia|].
      apply (chain_trans _ a ra); [by apply (chain_extends st2)|].
      eapply (chain_left _ _ _ _ _ (linkLeft (rootNode lh) (length st2) ra)); [exact Q2|done|exact Q1|done|lia|constructor].
Qed.

Lemma trails_spec f st items : items <> [] -> (length items <= f)%nat ->
  exists st' trails r, trailsFuel f st items = Ret (st', trails, Some r) /\ treeOK f st st' items trails r.
Proof.
  revert st items. induction f as [|f IH]; intros st items Hne Hf; [destruct items; [done|cbn in Hf; lia]|].
  destruct (list_case2 items) as [->|[[h ->]|H2]]; [done| |].
  { cbn [trailsFuel]. do 3 eexists. split; [done|]. split_and!.
    - split; [rewrite length_app; lia|]. intros x Hx. by rewrite lookup_app_l.
    - lia.
    - rewrite length_app. cbn. lia.
    - by rewrite list_lookup_middle.
    - done.
    - intros i a Hi. apply list_lookup_singleton_Some in Hi as [-> <-].
      rewrite length_app. cbn. split; [lia|]. constructor. }
  pose proof (half_bounds items H2) as Hh.
  destruct (IH st (take (half items) items)) as (st1 & lefts & la & E1 & T1);
    [by apply length_pos_ne; len2|len2|].
  destruct (IH st1 (drop (half items) items)) as (st2 & rights & ra & E2 & T2);
    [by apply length_pos_ne; len2|len2|].
  do 3 eexists. split; [|by apply (treeOK_link f st st1 st2 items lefts rights la ra)].
  pose proof T1 as (_ & B1 & R1 & _). pose proof T2 as (K2 & _ & R2 & _).
  destruct items as [|x [|y l]]; [done|cbn in H2; lia|]. cbn [trailsFuel]. rewrite E1. cbn [mbind go_mbind].
  rewrite E2. cbn [mbind go_mbind deref].
  assert (st2 !! la = st1 !! la) as -> by (apply K2; lia). rewrite R1, R2. done.
Qed.

Lemma proofsLoop_spec st r n trails (aunts : nat -> list bytes) :
  st !! r = Some n -> Left n = None -> Right n = None ->
  (forall i a, trails !! i = Some a -> (a < length st)%nat /\ chain st a r (aunts i)) ->
  go_fold (fun trail ps => a ← FlattenAunts st (Some trail); Ret (ps ++ [mkSimpleProof a])) trails [] =
  Ret ((fun i => mkSimpleProof (aunts i)) <$> seq 0 (length trails)).
Proof.
  intros Hr Hl Hrt Hc.
  destruct (go_fold_inv (fun k ps => ps = (fun i => mkSimpleProof (aunts i)) <$> seq 0 k)
    (fun trail ps => a ← FlattenAunts st (Some trail); Ret (ps ++ [mkSimpleProof a])) trails [])
    as (s' & -> & ->); [done| |done].
  intros k a s Hk ->. destruct (Hc k a Hk) as [Ha Hch]. unfold FlattenAunts.
  rewrite (Flatten_chain st a r (aunts k) n) by (done || lia). cbn [mbind go_mbind].
  eexists. split; [done|]. by rewrite seq_S, fmap_app.
Qed.

Lemma SimpleProofs_spec items : items <> [] ->
  SimpleProofsFromHashers items =
  Ret (simpleHashFromHashes items,
       (fun i => mkSimpleProof (auntsFuel (length items) items i)) <$> seq 0 (length items)).
Proof.
  intros Hne. unfold SimpleProofsFromHashers, trailsFromHashers.
  destruct (trails_spec (length items) [] items Hne ltac:(lia)) as (st & trails & r & -> & _ & _ & Hr & Hl & Hc).
  cbn [mbind go_mbind deref]. rewrite Hr. cbn [mbind go_mbind].
  rewrite (proofsLoop_spec st r _ trails (auntsFuel (length items) items) Hr) by done.
  cbn [mbind go_mbind Hash rootNode]. by rewrite Hl.
Qed.

(** ** Binding: a second leaf under the same root is a hash collision *)

(** Given two proofs of the same position that hash to the same root, the
    two preimages at the highest node where they differ. *)
Fixpoint collisionRev (index total : Z) (l1 : bytes) (r1 : list bytes) (l2 : bytes) (r2 : list bytes)
  : option (bytes * bytes) :=
  match r1, r2 with
  | x1 :: r1, x2 :: r2 =>
      let numLeft := Z.quot (add64 total 1) 2 in
      if index <? numLeft then
        match computeHashRev index numLeft (Some l1) r1, computeHashRev index numLeft (Some l2) r2 with
        | Some h1, Some h2 =>
            if decide (h1 = h2) then
              if decide (x1 = x2) then collisionRev index numLeft l1 r1 l2 r2
              else Some (EncodeByteSlice h1 ++ EncodeByteSlice x1, EncodeByteSlice h2 ++ EncodeByteSlice x2)
            else Some (EncodeByteSlice h1 ++ EncodeByteSlice x1, EncodeByteSlice h2 ++ EncodeByteSlice x2)
        | _, _ => None
        end
      else
        match computeHashRev (sub64 index numLeft) (sub64 total numLeft) (Some l1) r1,
              computeHashRev (sub64 index numLeft) (sub64 total numLeft) (Some l2) r2 with
        | Some h1, Some h2 =>
            if decide (h1 = h2) then
              if decide (x1 = x2) then collisionRev (sub64 index numLeft) (sub64 total numLeft) l1 r1 l2 r2
              else Some (EncodeByteSlice x1 ++ EncodeByteSlice h1, EncodeByteSlice x2 ++ EncodeByteSlice h2)
            else Some (EncodeByteSlice x1 ++ EncodeByteSlice h1, EncodeByteSlice x2 ++ EncodeByteSlice h2)
        | _, _ => None
        end
  | _, _ => None
  end.

Definition findCollision (index total : Z) (l1 : bytes) (sp1 : SimpleProof) (l2 : bytes) (sp2 : SimpleProof) :=
  collisionRev index total l1 (rev (Aunts sp1)) l2 (rev (Aunts sp2)).

Lemma enc2_inj `{!AminoLaws} a b c d :
  EncodeByteSlice a ++ EncodeByteSlice b = EncodeByteSlice c ++ EncodeByteSlice d -> a = c /\ b = d.
Proof.
  intros E. apply EncodeByteSlice_prefix in E as [-> E].
  rewrite <- (app_nil_r (EncodeByteSlice b)), <- (app_nil_r (EncodeByteSlice d)) in E.
  by apply EncodeByteSlice_prefix in E as [-> _].
Qed.

Lemma collisionRev_spec `{!AminoLaws} index total l1 r1 l2 r2 h :
  computeHashRev index total (Some l1) r1 = Some h -> computeHashRev index total (Some l2) r2 = Some h ->
  l1 <> l2 ->
  exists x y, collisionRev index total l1 r1 l2 r2 = Some (x, y) /\ x <> y /\ tmhash x = tmhash y.
Proof.
  revert index total r2 h. induction r1 as [|x1 r1 IH]; intros index total r2 h H1 H2 Hne.
  - cbn [computeHashRev] in H1. destruct (_ || _ || _) eqn:Eg; [done|]. destruct (total =? 1) eqn:Et; [|done].
    destruct r2 as [|x2 r2]; cbn [computeHashRev] in H2; rewrite Eg, Et in H2; [congruence|done].
  - cbn [computeHashRev] in H1. destruct (_ || _ || _) eqn:Eg; [done|]. destruct (total =? 1) eqn:Et; [done|].
    destruct r2 as [|x2 r2]; cbn [computeHashRev] in H2; rewrite Eg, Et in H2; [done|]. cbn [collisionRev].
    destruct (index <? Z.quot (add64 total 1) 2).
    + destruct (computeHashRev _ _ (Some l1) r1) as [h1|] eqn:E1; [|done].
      destruct (computeHashRev _ _ (Some l2) r2) as [h2|] eqn:E2; [|done].
      injection H1 as H1. injection H2 as H2. rewrite <- H2 in H1. unfold SimpleHashFromTwoHashes in H1.
      repeat case_decide; subst; [by eapply IH|..]; do 2 eexists;
        (split; [done|split; [intros [? ?]%enc2_inj; congruence|done]]).
    + destruct (computeHashRev _ _ (Some l1) r1) as [h1|] eqn:E1; [|done].
      destruct (computeHashRev _ _ (Some l2) r2) as [h2|] eqn:E2; [|done].
      injection H1 as H1. injection H2 as H2. rewrite <- H2 in H1. unfold SimpleHashFromTwoHashes in H1.
      repeat case_decide; subst; [by eapply IH|..]; do 2 eexists;
        (split; [done|split; [intros [? ?]%enc2_inj; congruence|done]]).
Qed.

Lemma Verify_true sp index total leaf root : Verify sp index total leaf root = true <->
  computeHashFromAunts index total leaf (Aunts sp) = Some root.
Proof.
  unfold Verify. destruct (computeHashFromAunts _ _ _ _) as [h|]; [|done].
  rewrite bytes_eqb_true. split; congruence.
Qed.

(** The proofs built for a list verify, in the form the part sets use. *)
Lemma proofs_verify items : items <> [] -> zlen items < MaxInt64 ->
  exists proofs, SimpleProofsFromHashers items = Ret (SimpleHashFromHashers items, proofs) /\
    length proofs = length items /\
    forall i sp h, proofs !! i = Some sp -> items !! i = Some h ->
      Verify sp (Z.of_nat i) (zlen items) (Some h) (SimpleHashFromHashers items) = true.
Proof.
  intros Hne Hmax. rewrite SimpleProofs_spec by done. eexists. split; [done|].
  rewrite length_fmap, length_seq. split; [done|]. intros i sp h Hsp Hi.
  rewrite list_lookup_fmap in Hsp. apply fmap_Some in Hsp as (j & Hj & ->).
  apply lookup_seq in Hj as [-> _]. apply Verify_true. by apply computeHash_aunts.
Qed.

Lemma leaf_collision `{!AminoLaws} index total root l1 sp1 l2 sp2 :
  Verify sp1 index total (Some l1) root = true -> Verify sp2 index total (Some l2) root = true -> l1 <> l2 ->
  exists x y, findCollision index total l1 sp1 l2 sp2 = Some (x, y) /\ x <> y /\ tmhash x = tmhash y.
Proof. rewrite !Verify_true. intros H1 H2 Hne. by apply (collisionRev_spec index total l1 _ l2 _ root). Qed.

(** ** The hash of a map *)

Lemma bytes_compare_trich a b : bytes_compare a b <> Lt -> bytes_compare b a <> Lt -> a = b.
Proof.
  intros H1 H2. destruct (bytes_lt_total a b) as [?|[?|?]]; [done|done|done].
Qed.

Lemma kvLess_antisym x y : kvLess x y = false -> kvLess y x = false -> x = y.
Proof.
  unfold kvLess. destruct x as [k v], y as [k' v']; cbn.
  rewrite (bytes_compare_antisym k k'), (bytes_compare_antisym v v').
  destruct (bytes_compare k k') eqn:E; cbn; try done. apply bytes_compare_eq in E as ->.
  destruct (bytes_compare v v') eqn:E'; cbn; try done. by apply bytes_compare_eq in E' as ->.
Qed.

Lemma kvLess_asym x y : kvLess x y = true -> kvLess y x = false.
Proof.
  unfold kvLess. destruct x as [k v], y as [k' v']; cbn.
  rewrite (bytes_compare_antisym k k'), (bytes_compare_antisym v v').
  destruct (bytes_compare k k') eqn:E; cbn; try done. by destruct (bytes_compare v v').
Qed.

Lemma bytes_compare_le_trans a b c : bytes_compare b a <> Lt -> bytes_compare c b <> Lt -> bytes_compare c a <> Lt.
Proof.
  intros H1 H2 H3. destruct (bytes_lt_total a b) as [Hab|[->|Hab]]; [|done|done].
  apply H2. by eapply (bytes_compare_trans c a b).
Qed.

Lemma kvLess_trans x y z : kvLess y x = false -> kvLess z y = false -> kvLess z x = false.
Proof.
  unfold kvLess. destruct x as [k v], y as [k' v'], z as [k'' v'']; cbn.
  destruct (bytes_compare k' k) eqn:E1, (bytes_compare k'' k') eqn:E2; try done; intros H1 H2.
  - apply bytes_compare_eq in E1, E2. subst. rewrite bytes_compare_refl.
    pose proof (bytes_compare_le_trans v v' v''). destruct (bytes_compare v' v), (bytes_compare v'' v'), (bytes_compare v'' v); naive_solver.
  - apply bytes_compare_eq in E1. subst. by rewrite E2.
  - apply bytes_compare_eq in E2. subst. by rewrite E1.
  - rewrite (bytes_compare_antisym k k'') in *. rewrite (bytes_compare_antisym k k'), (bytes_compare_antisym k' k'') in *.
    destruct (bytes_compare k k') eqn:F1; try done. destruct (bytes_compare k' k'') eqn:F2; try done.
    by rewrite (bytes_compare_trans k k' k'').
Qed.

Lemma smSet_fold m sm : foldl (fun sm kv => smSet sm kv.1 kv.2) sm m =
  match m with [] => sm | _ => mkSimpleMap (kvs sm ++ ((fun kv => mkKVPair kv.1 kv.2) <$> m)) false end.
Proof.
  revert sm. induction m as [|kv m IH]; intros sm; [done|]. cbn. rewrite IH. unfold smSet; cbn.
  destruct m; cbn; [done|]. by rewrite <- app_assoc.
Qed.

Lemma SimpleHashFromMap_eq m :
  SimpleHashFromMap m = hashKVPairs (isort kvLess ((fun kv => mkKVPair kv.1 kv.2) <$> m)).
Proof. unfold SimpleHashFromMap. rewrite smSet_fold. by destruct m. Qed.

(** ** Properties *)

(** Proofs are complete.  For any non-empty list of leaf hashes
    [SimpleProofsFromHashers], which builds the tree of linked nodes and walks
    it up from each leaf, returns the same root as [SimpleHashFromHashers] and
    one proof per item, and each proof verifies for its own index and leaf. *)
Theorem SimpleProofs_complete items : items <> [] -> zlen items < MaxInt64 ->
  exists proofs, SimpleProofsFromHashers items = Ret (SimpleHashFromHashers items, proofs) /\
    length proofs = length items /\
    forall i sp h, proofs !! i = Some sp -> items !! i = Some h ->
      Verify sp (Z.of_nat i) (zlen items) (Some h) (SimpleHashFromHashers items) = true.
Proof. apply proofs_verify. Qed.

(** C11: proofs are binding.  If two leaf hashes verify at the same position
    against the same root, they are equal, or [findCollision] computes from
    the two proofs two different inputs with the same [tmhash]: a forged proof
    is at least as hard to find as a hash collision. *)
Theorem Verify_binding `{!AminoLaws} index total root l1 sp1 l2 sp2 :
  Verify sp1 index total (Some l1) root = true -> Verify sp2 index total (Some l2) root = true ->
  l1 = l2 \/
  exists x y, findCollision index total l1 sp1 l2 sp2 = Some (x, y) /\ x <> y /\ tmhash x = tmhash y.
Proof.
  intros H1 H2. destruct (decide (l1 = l2)); [by left|right]. by apply (leaf_collision _ _ root).
Qed.

(** The hash of a map does not depend on the order in which Go's range
    statement visits it. *)
Theorem SimpleHashFromMap_perm m m' : m ≡ₚ m' -> SimpleHashFromMap m = SimpleHashFromMap m'.
Proof.
  intros Hp. rewrite !SimpleHashFromMap_eq. f_equal.
  apply isort_unique; [apply kvLess_asym|apply kvLess_trans| |apply isort_sorted; [apply kvLess_asym|apply kvLess_trans]|].
  - intros x y _ _. apply kvLess_antisym.
  - by rewrite isort_perm, Hp.
Qed.

End Merkle.

(** ** Witnesses *)

Definition threeLeaves : list bytes := [str "a"; str "b"; str "c"].

Lemma SimpleProofs_complete_witness : exists proofs,
  @SimpleProofsFromHashers uvarintAmino threeLeaves = Ret (@SimpleHashFromHashers uvarintAmino threeLeaves, proofs) /\
  length proofs = 3%nat.
Proof.
  destruct (@SimpleProofs_complete uvarintAmino threeLeaves ltac:(discriminate) eq_refl) as (proofs & E & Hl & _).
  exists proofs. split; [exact E|exact Hl].
Defined.

Definition proofOfB : SimpleProof := mkSimpleProof [str "a"; str "c"].

Lemma Verify_binding_witness :
  let root := @SimpleHashFromHashers uvarintAmino threeLeaves in
  str "b" = str "b" \/
  exists x y, @findCollision uvarintAmino 1 3 (str "b") proofOfB (str "b") proofOfB = Some (x, y) /\ x <> y /\ tmhash x = tmhash y.
Proof.
  apply (@Verify_binding uvarintAmino uvarintAminoLaws 1 3 (@SimpleHashFromHashers uvarintAmino threeLeaves));
    vm_compute; reflexivity.
Defined.

Lemma SimpleHashFromMap_perm_witness :
  @SimpleHashFromMap uvarintAmino [(str "a", str "x"); (str "b", str "y")] =
  @SimpleHashFromMap uvarintAmino [(str "b", str "y"); (str "a", str "x")].
Proof. apply (@SimpleHashFromMap_perm uvarintAmino). apply Permutation_swap. Defined.
End Merkle.
