(* ===== verification/Types.v ===== *)
(** * types: block ids, votes, proposals, heartbeats and commits

    types/part_set.go (the header), types/block.go (BlockID, Commit),
    types/vote.go, types/proposal.go, types/heartbeat.go and
    types/canonical_json.go.  The amino codec is third-party code and a
    parameter; what is signed is the codec applied to the canonical struct. *)

From S2P Require Import Prelude Sha256 Crypto BitArray.
Import Crypto.

Module Types.

(** ** PartSetHeader and BlockID *)

Record PartSetHeader := mkPartSetHeader { psh_Total : Z; psh_Hash : bytes }.

#[export] Instance PartSetHeader_eq_dec : EqDecision PartSetHeader.
Proof. solve_decision. Defined.

Definition PartSetHeader_IsZero (psh : PartSetHeader) : bool := psh_Total psh =? 0.
Definition PartSetHeader_Equals (psh other : PartSetHeader) : bool :=
  (psh_Total psh =? psh_Total other) && bytes_eqb (psh_Hash psh) (psh_Hash other).

Record BlockID := mkBlockID { bid_Hash : bytes; bid_PartsHeader : PartSetHeader }.

#[export] Instance BlockID_eq_dec : EqDecision BlockID.
Proof. solve_decision. Defined.

(** The zero value [BlockID{}], the id of a nil vote. *)
Definition zeroPartSetHeader : PartSetHeader := mkPartSetHeader 0 [].
Definition zeroBlockID : BlockID := mkBlockID [] zeroPartSetHeader.

Definition BlockID_IsZero (b : BlockID) : bool :=
  (zlen (bid_Hash b) =? 0) && PartSetHeader_IsZero (bid_PartsHeader b).
Definition BlockID_Equals (b other : BlockID) : bool :=
  bytes_eqb (bid_Hash b) (bid_Hash other) &&
  PartSetHeader_Equals (bid_PartsHeader b) (bid_PartsHeader other).

(** ** Time *)

(** A [time.Time] is the number of nanoseconds since the Unix epoch. *)
Definition Time := Z.

Definition digit (n : Z) : Byte.byte := Z_byte (48 + n mod 10).
Definition digits2 (n : Z) : bytes := [digit (n / 10); digit n].
Definition digits3 (n : Z) : bytes := digit (n / 100) :: digits2 n.
Definition digits4 (n : Z) : bytes := digit (n / 1000) :: digits3 n.

(** Year, month and day of a number of days since the epoch (proleptic
    Gregorian calendar). *)
Definition civil (days : Z) : Z * Z * Z :=
  let z := days + 719468 in
  let era := z / 146097 in
  let doe := z mod 146097 in
  let yoe := (doe - doe / 1460 + doe / 36524 - doe / 146096) / 365 in
  let doy := doe - (365 * yoe + yoe / 4 - yoe / 100) in
  let mp := (5 * doy + 2) / 153 in
  let d := doy - (153 * mp + 2) / 5 + 1 in
  let m := if mp <? 10 then mp + 3 else mp - 9 in
  (yoe + era * 400 + (if m <=? 2 then 1 else 0), m, d).

(** [t.UTC().Format("2006-01-02T15:04:05.000Z")] for the years 0 to 9999: the
    time down to the millisecond. *)
Definition CanonicalTime (t : Time) : bytes :=
  let ms := t / 1000000 in
  let secs := ms / 1000 in
  let '(y, m, d) := civil (secs / 86400) in
  let s := secs mod 86400 in
  digits4 y ++ str "-" ++ digits2 m ++ str "-" ++ digits2 d ++ str "T" ++
  digits2 (s / 3600) ++ str ":" ++ digits2 (s / 60 mod 60) ++ str ":" ++ digits2 (s mod 60) ++
  str "." ++ digits3 (ms mod 1000) ++ str "Z".

Example CanonicalTime_epoch : CanonicalTime 0 = str "1970-01-01T00:00:00.000Z".
Proof. vm_compute. reflexivity. Qed.
Example CanonicalTime_leap : CanonicalTime 1582934399123456789 = str "2020-02-28T23:59:59.123Z".
Proof. vm_compute. reflexivity. Qed.

(** ** Votes, proposals, heartbeats *)

Definition VoteTypePrevote : Z := 1.
Definition VoteTypePrecommit : Z := 2.

Definition IsVoteTypeValid (type_ : Z) : bool :=
  if type_ =? VoteTypePrevote then true else if type_ =? VoteTypePrecommit then true else false.

Record Vote := mkVote {
  v_ValidatorAddress : bytes;
  v_ValidatorIndex : Z;
  v_Height : Z;
  v_Round : Z;
  v_Timestamp : Time;
  v_Type : Z;
  v_BlockID : BlockID;
  v_Signature : option Signature }.

#[export] Instance Vote_eq_dec : EqDecision Vote.
Proof. solve_decision. Defined.

Record Proposal := mkProposal {
  p_Height : Z;
  p_Round : Z;
  p_Timestamp : Time;
  p_BlockPartsHeader : PartSetHeader;
  p_POLRound : Z;
  p_POLBlockID : BlockID;
  p_Signature : option Signature }.

#[export] Instance Proposal_eq_dec : EqDecision Proposal.
Proof. solve_decision. Defined.

Definition NewProposal (now : Time) (height round : Z) (blockPartsHeader : PartSetHeader)
    (polRound : Z) (polBlockID : BlockID) : Proposal :=
  mkProposal height round now blockPartsHeader polRound polBlockID None.

Record Heartbeat := mkHeartbeat {
  hb_ValidatorAddress : bytes;
  hb_ValidatorIndex : Z;
  hb_Height : Z;
  hb_Round : Z;
  hb_Sequence : Z;
  hb_Signature : option Signature }.

(** ** Canonical structs *)

Record CanonicalJSONPartSetHeader := mkCPSH { cpsh_Hash : bytes; cpsh_Total : Z }.
Record CanonicalJSONBlockID := mkCBID { cbid_Hash : bytes; cbid_PartsHeader : CanonicalJSONPartSetHeader }.

Record CanonicalJSONProposal := mkCProposal {
  cp_ChainID : bytes; cp_Type : bytes; cp_BlockPartsHeader : CanonicalJSONPartSetHeader;
  cp_Height : Z; cp_POLBlockID : CanonicalJSONBlockID; cp_POLRound : Z; cp_Round : Z; cp_Timestamp : bytes }.

Record CanonicalJSONVote := mkCVote {
  cv_ChainID : bytes; cv_Type : bytes; cv_BlockID : CanonicalJSONBlockID;
  cv_Height : Z; cv_Round : Z; cv_Timestamp : bytes; cv_VoteType : Z }.

Record CanonicalJSONHeartbeat := mkCHeartbeat {
  ch_ChainID : bytes; ch_Type : bytes; ch_Height : Z; ch_Round : Z; ch_Sequence : Z;
  ch_ValidatorAddress : bytes; ch_ValidatorIndex : Z }.

Definition CanonicalPartSetHeader (psh : PartSetHeader) : CanonicalJSONPartSetHeader :=
  mkCPSH (psh_Hash psh) (psh_Total psh).

Definition CanonicalBlockID (b : BlockID) : CanonicalJSONBlockID :=
  mkCBID (bid_Hash b) (CanonicalPartSetHeader (bid_PartsHeader b)).

Definition CanonicalProposal (chainID : bytes) (p : Proposal) : CanonicalJSONProposal :=
  mkCProposal chainID (str "proposal") (CanonicalPartSetHeader (p_BlockPartsHeader p))
    (p_Height p) (CanonicalBlockID (p_POLBlockID p)) (p_POLRound p) (p_Round p) (CanonicalTime (p_Timestamp p)).

Definition CanonicalVote (chainID : bytes) (v : Vote) : CanonicalJSONVote :=
  mkCVote chainID (str "vote") (CanonicalBlockID (v_BlockID v)) (v_Height v) (v_Round v)
    (CanonicalTime (v_Timestamp v)) (v_Type v).

Definition CanonicalHeartbeat (chainID : bytes) (h : Heartbeat) : CanonicalJSONHeartbeat :=
  mkCHeartbeat chainID (str "heartbeat") (hb_Height h) (hb_Round h) (hb_Sequence h)
    (hb_ValidatorAddress h) (hb_ValidatorIndex h).

(** ** The codec *)

(** [cdc.MarshalBinaryBare] and [cdc.MarshalJSON] of go-amino at the types
    the package applies them to; they do not fail on these types. *)
Class Codec := {
  MarshalPartSetHeader : PartSetHeader -> bytes;
  MarshalJSONVote : CanonicalJSONVote -> bytes;
  MarshalJSONProposal : CanonicalJSONProposal -> bytes;
  MarshalJSONHeartbeat : CanonicalJSONHeartbeat -> bytes;
}.

Section Codec.
Context `{Codec} `{Curves}.

Definition Key (b : BlockID) : bytes := bid_Hash b ++ MarshalPartSetHeader (bid_PartsHeader b).

Definition Vote_SignBytes (chainID : bytes) (v : Vote) : bytes := MarshalJSONVote (CanonicalVote chainID v).
Definition Proposal_SignBytes (chainID : bytes) (p : Proposal) : bytes := MarshalJSONProposal (CanonicalProposal chainID p).
Definition Heartbeat_SignBytes (chainID : bytes) (h : Heartbeat) : bytes := MarshalJSONHeartbeat (CanonicalHeartbeat chainID h).

(** The errors of vote.go. *)
Inductive VoteError :=
| ErrVoteUnexpectedStep
| ErrVoteInvalidValidatorIndex
| ErrVoteInvalidValidatorAddress
| ErrVoteInvalidSignature
| ErrVoteInvalidBlockHash
| ErrVoteNonDeterministicSignature
| ErrVoteNil
| ErrVoteConflictingVotes (pubKey : option PubKey) (voteA voteB : Vote).

#[export] Instance VoteError_eq_dec : EqDecision VoteError.
Proof. solve_decision. Defined.

(** [nil] is [None], also of the key interface, on which a call panics. *)
Definition Vote_Verify (chainID : bytes) (pubKey : option PubKey) (vote : Vote) : go (option VoteError) :=
  pubKey ← deref pubKey;
  if negb (bytes_eqb (Address pubKey) (v_ValidatorAddress vote)) then Ret (Some ErrVoteInvalidValidatorAddress)
  else if negb (VerifyBytes pubKey (Vote_SignBytes chainID vote) (v_Signature vote)) then Ret (Some ErrVoteInvalidSignature)
  else Ret None.

(** ** Commit *)

Record Commit := mkCommit { c_BlockID : BlockID; c_Precommits : list (option Vote) }.

(** The zero [Vote] with the type of a precommit. *)
Definition emptyPrecommit : Vote := mkVote [] 0 0 0 0 VoteTypePrecommit zeroBlockID None.

Fixpoint firstSome {A} (l : list (option A)) : option A :=
  match l with
  | [] => None
  | Some x :: _ => Some x
  | None :: l => firstSome l
  end.

Definition FirstPrecommit (commit : Commit) : option Vote :=
  if zlen (c_Precommits commit) =? 0 then None
  else match firstSome (c_Precommits commit) with
       | Some v => Some v
       | None => Some emptyPrecommit
       end.

Definition Commit_Height (commit : Commit) : Z :=
  match FirstPrecommit commit with None => 0 | Some v => v_Height v end.
Definition Commit_Round (commit : Commit) : Z :=
  match FirstPrecommit commit with None => 0 | Some v => v_Round v end.
Definition Commit_Size (commit : option Commit) : Z :=
  match commit with None => 0 | Some c => zlen (c_Precommits c) end.
Definition Commit_IsCommit (commit : Commit) : bool := negb (zlen (c_Precommits commit) =? 0).
Definition Commit_GetByIndex (commit : Commit) (index : Z) : go (option Vote) := idx (c_Precommits commit) index.

Definition Commit_BitArray (commit : Commit) : go (option BitArray.BitArray) :=
  b ← BitArray.NewBitArray (zlen (c_Precommits commit));
  go_for 0 (zlen (c_Precommits commit))
    (fun i b => v ← idx (c_Precommits commit) i;
                r ← BitArray.SetIndex b i (match v with None => false | Some _ => true end);
                Ret r.1) b.

Inductive CommitError :=
| ErrCommitNilBlock
| ErrCommitNoPrecommits
| ErrCommitNotPrecommit
| ErrCommitHeight
| ErrCommitRound.

Fixpoint validatePrecommits (height round : Z) (l : list (option Vote)) : option CommitError :=
  match l with
  | [] => None
  | None :: l => validatePrecommits height round l
  | Some v :: l =>
      if negb (v_Type v =? VoteTypePrecommit) then Some ErrCommitNotPrecommit
      else if negb (v_Height v =? height) then Some ErrCommitHeight
      else if negb (v_Round v =? round) then Some ErrCommitRound
      else validatePrecommits height round l
  end.

Definition Commit_ValidateBasic (commit : Commit) : option CommitError :=
  if BlockID_IsZero (c_BlockID commit) then Some ErrCommitNilBlock
  else if zlen (c_Precommits commit) =? 0 then Some ErrCommitNoPrecommits
  else validatePrecommits (Commit_Height commit) (Commit_Round commit) (c_Precommits commit).
End Codec.

(** ** Lemmas *)

Lemma PartSetHeader_Equals_eq a b : PartSetHeader_Equals a b = true <-> a = b.
Proof.
  unfold PartSetHeader_Equals. rewrite andb_true_iff, Z.eqb_eq, bytes_eqb_true.
  destruct a, b; cbn; split; [by intros [-> ->]|by intros [= -> ->]].
Qed.

Lemma BlockID_Equals_eq a b : BlockID_Equals a b = true <-> a = b.
Proof.
  unfold BlockID_Equals. rewrite andb_true_iff, bytes_eqb_true, PartSetHeader_Equals_eq.
  destruct a, b; cbn; split; [by intros [-> ->]|by intros [= -> ->]].
Qed.

Lemma BlockID_Equals_false a b : BlockID_Equals a b = false <-> a <> b.
Proof. rewrite <- BlockID_Equals_eq. by destruct (BlockID_Equals a b). Qed.

Lemma BlockID_Equals_refl a : BlockID_Equals a a = true.
Proof. by apply BlockID_Equals_eq. Qed.

Lemma validatePrecommits_spec h r l : validatePrecommits h r l = None <->
  forall v, Some v ∈ l -> v_Type v = VoteTypePrecommit /\ v_Height v = h /\ v_Round v = r.
Proof.
  induction l as [|[v|] l IH]; cbn.
  - split; [intros _ v Hv; by apply elem_of_nil in Hv|done].
  - destruct (Z.eqb_spec (v_Type v) VoteTypePrecommit), (Z.eqb_spec (v_Height v) h), (Z.eqb_spec (v_Round v) r); cbn.
    1: { rewrite IH. split; intros Hl w.
         - intros [[= ->]|?]%elem_of_cons; auto.
         - intros ?. apply Hl. by right. }
    all: split; [done|]; intros Hl; destruct (Hl v ltac:(by left)) as (? & ? & ?); done.
  - rewrite IH. split; intros Hl w.
    + intros [[=]|?]%elem_of_cons; auto.
    + intros ?. apply Hl. by right.
Qed.

Lemma Vote_Verify_ok `{Codec} `{Curves} chainID key v : Vote_Verify chainID key v = Ret None <->
  exists pk, key = Some pk /\ Address pk = v_ValidatorAddress v /\
    VerifyBytes pk (Vote_SignBytes chainID v) (v_Signature v) = true.
Proof.
  unfold Vote_Verify. destruct key as [pk|]; cbn [deref mbind go_mbind].
  2:{ split; [done|]. by intros (pk & [=] & _). }
  destruct (bytes_eqb _ _) eqn:E; cbn [negb].
  - apply bytes_eqb_true in E. destruct (VerifyBytes _ _ _) eqn:Ev; cbn [negb]; split; try done.
    + intros _. by exists pk.
    + intros (k & [= <-] & _ & Hk). congruence.
  - apply bytes_eqb_false in E. split; [done|]. by intros (k & [= <-] & Hk & _).
Qed.

(** ** Block keys *)

Section KeyCollision.
Context `{Codec}.
(** amino writes the fields of a struct in order and omits those that hold
    the zero value: a part set header is the encoding of its total followed
    by that of the header with total 0. *)
Variable encTotal : Z -> bytes.
Hypothesis marshal_fields : forall n h,
  MarshalPartSetHeader (mkPartSetHeader n h) = encTotal n ++ MarshalPartSetHeader (mkPartSetHeader 0 h).

(** [Key], which the vote sets use to tell blocks apart, is not injective:
    it joins the block hash and the encoded header without a separator, and
    votes may carry a hash of any length.  Every block id with a non-zero
    total shares its key with another one. *)
Theorem Key_not_injective h n ph : encTotal n <> [] ->
  Key (mkBlockID h (mkPartSetHeader n ph)) = Key (mkBlockID (h ++ encTotal n) (mkPartSetHeader 0 ph)) /\
  BlockID_Equals (mkBlockID h (mkPartSetHeader n ph)) (mkBlockID (h ++ encTotal n) (mkPartSetHeader 0 ph)) = false.
Proof.
  intros Hn. unfold Key; cbn. rewrite (marshal_fields n ph), app_assoc. split; [done|].
  destruct (BlockID_Equals _ _) eqn:E; [|done]. apply BlockID_Equals_eq in E. injection E as E _.
  exfalso. apply Hn. apply (f_equal length) in E. rewrite length_app in E.
  destruct (encTotal n); [done|cbn in E; lia].
Qed.
End KeyCollision.

(** A codec with the field encoding of amino, for concrete evaluations:
    varint and length-prefixed fields, each preceded by its tag. *)
Definition encTotalField (n : Z) : bytes :=
  if n =? 0 then [] else Byte.x08 :: uvarint 10 (uwrap64 n).
Definition encHashField (h : bytes) : bytes :=
  match h with [] => [] | _ => Byte.x12 :: uvarintSlice h end.

Definition toyCodec : Codec := {|
  MarshalPartSetHeader := fun h => encTotalField (psh_Total h) ++ encHashField (psh_Hash h);
  MarshalJSONVote := fun v => uvarintSlice (cv_ChainID v) ++ uvarintSlice (cv_Type v) ++
    uvarintSlice (cbid_Hash (cv_BlockID v)) ++ uvarintSlice (cpsh_Hash (cbid_PartsHeader (cv_BlockID v))) ++
    uvarint 10 (uwrap64 (cpsh_Total (cbid_PartsHeader (cv_BlockID v)))) ++ uvarint 10 (uwrap64 (cv_Height v)) ++
    uvarint 10 (uwrap64 (cv_Round v)) ++ uvarintSlice (cv_Timestamp v) ++ uvarint 10 (uwrap64 (cv_VoteType v));
  MarshalJSONProposal := fun p => uvarintSlice (cp_ChainID p) ++ uvarintSlice (cp_Type p) ++
    uvarintSlice (cpsh_Hash (cp_BlockPartsHeader p)) ++ uvarint 10 (uwrap64 (cpsh_Total (cp_BlockPartsHeader p))) ++
    uvarint 10 (uwrap64 (cp_Height p)) ++ uvarintSlice (cbid_Hash (cp_POLBlockID p)) ++
    uvarint 10 (uwrap64 (cp_POLRound p)) ++ uvarint 10 (uwrap64 (cp_Round p)) ++ uvarintSlice (cp_Timestamp p);
  MarshalJSONHeartbeat := fun h => uvarintSlice (ch_ChainID h) ++ uvarintSlice (ch_Type h) ++
    uvarint 10 (uwrap64 (ch_Height h)) ++ uvarint 10 (uwrap64 (ch_Round h)) ++ uvarint 10 (uwrap64 (ch_Sequence h)) ++
    uvarintSlice (ch_ValidatorAddress h) ++ uvarint 10 (uwrap64 (ch_ValidatorIndex h));
|}.

Lemma Key_not_injective_witness :
  @Key toyCodec (mkBlockID (str "block") (mkPartSetHeader 3 (str "parts"))) =
  @Key toyCodec (mkBlockID (str "block" ++ encTotalField 3) (mkPartSetHeader 0 (str "parts"))) /\
  BlockID_Equals (mkBlockID (str "block") (mkPartSetHeader 3 (str "parts")))
                 (mkBlockID (str "block" ++ encTotalField 3) (mkPartSetHeader 0 (str "parts"))) = false.
Proof.
  apply (@Key_not_injective toyCodec encTotalField).
  - reflexivity.
  - vm_compute. discriminate.
Defined.
End Types.
Export (hints) Types.
