(* ===== verification/ValidatorSet.v ===== *)
(** * types/validator.go and types/validator_set.go

    The validators of a height, ordered by address, their proposer rotation
    and the verification of commits.  A [*Validator] inside a set is its
    position in [Validators]; the heap of [IncrementAccum] holds positions
    and its order reads the live validators, as the pointers of the source
    do.  [Proposer] is a copy of the validator: the source keeps a pointer,
    whose [Accum] no operation reads back. *)

From S2P Require Import Prelude Sha256 Crypto BitArray Heap Merkle Types.
Import Crypto Types.

Module ValidatorSet.

(** ** Clipped arithmetic (validator_set.go) *)

Definition safeMul (a b : Z) : Z * bool :=
  if (a =? 0) || (b =? 0) then (0, false)
  else if a =? 1 then (b, false)
  else if b =? 1 then (a, false)
  else if (a =? MinInt64) || (b =? MinInt64) then (-1, true)
  else let c := mul64 a b in (c, negb (Z.quot c b =? a)).

Definition safeAdd (a b : Z) : Z * bool :=
  if (0 <? b) && (sub64 MaxInt64 b <? a) then (-1, true)
  else if (b <? 0) && (a <? sub64 MinInt64 b) then (-1, true)
  else (add64 a b, false).

Definition safeSub (a b : Z) : Z * bool :=
  if (0 <? b) && (a <? add64 MinInt64 b) then (-1, true)
  else if (b <? 0) && (add64 MaxInt64 b <? a) then (-1, true)
  else (sub64 a b, false).

Definition safeMulClip (a b : Z) : Z :=
  let '(c, overflow) := safeMul a b in
  if overflow : bool then
    if ((a <? 0) || (b <? 0)) && negb ((a <? 0) && (b <? 0)) then MinInt64 else MaxInt64
  else c.

Definition safeAddClip (a b : Z) : Z :=
  let '(c, overflow) := safeAdd a b in
  if overflow : bool then if b <? 0 then MinInt64 else MaxInt64 else c.

Definition safeSubClip (a b : Z) : Z :=
  let '(c, overflow) := safeSub a b in
  if overflow : bool then if 0 <? b then MinInt64 else MaxInt64 else c.

(** ** Validator *)

(** The key interface may be nil. *)
Record Validator := mkValidator {
  val_Address : bytes; val_PubKey : option PubKey; val_VotingPower : Z; val_Accum : Z }.

#[export] Instance Validator_eq_dec : EqDecision Validator.
Proof. solve_decision. Defined.

Definition setAccum (v : Validator) (a : Z) : Validator :=
  mkValidator (val_Address v) (val_PubKey v) (val_VotingPower v) a.

Definition NewValidator `{Curves} (pubKey : PubKey) (votingPower : Z) : Validator :=
  mkValidator (Address pubKey) (Some pubKey) votingPower 0.

Definition CompareAccum (v : option Validator) (other : Validator) : go Validator :=
  match v with
  | None => Ret other
  | Some v =>
      if val_Accum other <? val_Accum v then Ret v
      else if val_Accum v <? val_Accum other then Ret other
      else match bytes_compare (val_Address v) (val_Address other) with
           | Lt => Ret v
           | Gt => Ret other
           | Eq => Panic (PanicSanity "Cannot compare identical validators")
           end
  end.

(** The encoding of the struct of [Validator.Hash] is third-party code. *)
Class ValidatorCodec := { MarshalValidator : bytes -> option PubKey -> Z -> bytes }.
Definition Validator_Hash `{ValidatorCodec} (v : Validator) : bytes :=
  Sha256.tmhash (MarshalValidator (val_Address v) (val_PubKey v) (val_VotingPower v)).

(** ** ValidatorSet *)

Record ValidatorSet := mkValidatorSet {
  Validators : list Validator; Proposer : option Validator; totalVotingPower : Z }.

#[export] Instance ValidatorSet_eq_dec : EqDecision ValidatorSet.
Proof. solve_decision. Defined.

Definition Size (vs : ValidatorSet) : Z := zlen (Validators vs).

(** The set, whose cache is filled, and the power. *)
Definition TotalVotingPower (vs : ValidatorSet) : ValidatorSet * Z :=
  let total :=
    if totalVotingPower vs =? 0
    then foldl (fun t v => safeAddClip t (val_VotingPower v)) (totalVotingPower vs) (Validators vs)
    else totalVotingPower vs in
  (mkValidatorSet (Validators vs) (Proposer vs) total, total).

Definition totalPower (vs : ValidatorSet) : Z := (TotalVotingPower vs).2.

(** [accumComparable.Less] on the pointers [i] and [j]. *)
Definition accumLess (vals : list Validator) (i j : Z) : go bool :=
  ac ← idx vals i; other ← idx vals j;
  larger ← CompareAccum (Some ac) other;
  Ret (bytes_eqb (val_Address larger) (val_Address ac)).

Definition incrPush (times i : Z) (st : list Validator * list (Heap.pqItem Z Z))
  : go (list Validator * list (Heap.pqItem Z Z)) :=
  let '(vals, h) := st in
  v ← idx vals i;
  vals ← upd vals i (setAccum v (safeAddClip (val_Accum v) (safeMulClip (val_VotingPower v) times)));
  h ← Heap.PushComparable (accumLess vals) h i i;
  Ret (vals, h).

Definition incrPick (times i : Z) (st : ValidatorSet * list (Heap.pqItem Z Z))
  : go (ValidatorSet * list (Heap.pqItem Z Z)) :=
  let '(vs, h) := st in
  match Heap.Peek h with
  | None => Panic TypeAssertion
  | Some mostest =>
      let '(vs, total) := TotalVotingPower vs in
      v ← idx (Validators vs) mostest;
      let v := setAccum v (safeSubClip (val_Accum v) total) in
      vals ← upd (Validators vs) mostest v;
      if i =? times - 1 then
        Ret (mkValidatorSet vals (Some v) (totalVotingPower vs), h)
      else
        h ← Heap.Update (accumLess vals) h mostest mostest;
        Ret (mkValidatorSet vals (Proposer vs) (totalVotingPower vs), h)
  end.

Definition IncrementAccum (vs : ValidatorSet) (times : Z) : go ValidatorSet :=
  st ← go_for 0 (zlen (Validators vs)) (incrPush times) (Validators vs, Heap.NewHeap);
  let '(vals, h) := st in
  st ← go_for 0 times (incrPick times) (mkValidatorSet vals (Proposer vs) (totalVotingPower vs), h);
  Ret st.1.

(** [ValidatorsByAddress.Less] *)
Definition byAddress (a b : Validator) : bool :=
  match bytes_compare (val_Address a) (val_Address b) with Lt => true | _ => false end.

(** [None] is a nil slice. *)
Definition NewValidatorSet (vals : option (list Validator)) : go ValidatorSet :=
  let vs := mkValidatorSet (isort byAddress (default [] vals)) None 0 in
  match vals with
  | None => Ret vs
  | Some _ => IncrementAccum vs 1
  end.

(** The search all lookups by address share. *)
Definition searchAddress (vals : list Validator) (address : bytes) : go Z :=
  sort_Search (zlen vals)
    (fun i => v ← idx vals i;
              Ret (match bytes_compare address (val_Address v) with Gt => false | _ => true end)).

Definition HasAddress (vs : ValidatorSet) (address : bytes) : go bool :=
  i ← searchAddress (Validators vs) address;
  if i <? zlen (Validators vs) then
    v ← idx (Validators vs) i; Ret (bytes_eqb (val_Address v) address)
  else Ret false.

Definition GetByAddress (vs : ValidatorSet) (address : bytes) : go (Z * option Validator) :=
  i ← searchAddress (Validators vs) address;
  if i <? zlen (Validators vs) then
    v ← idx (Validators vs) i;
    if bytes_eqb (val_Address v) address then Ret (i, Some v) else Ret (-1, None)
  else Ret (-1, None).

Definition GetByIndex (vs : ValidatorSet) (index : Z) : option (bytes * Validator) :=
  if (index <? 0) || (zlen (Validators vs) <=? index) then None
  else match Validators vs !! Z.to_nat index with
       | Some v => Some (val_Address v, v)
       | None => None
       end.

Definition findProposer (vs : ValidatorSet) : option Validator :=
  foldl (fun proposer v =>
           match proposer with
           | None => Some v
           | Some p => if byAddress v p then Some v else Some p
           end) None (Validators vs).

Definition GetProposer (vs : ValidatorSet) : ValidatorSet * option Validator :=
  if zlen (Validators vs) =? 0 then (vs, None)
  else match Proposer vs with
       | Some p => (vs, Some p)
       | None => let p := findProposer vs in
                 (mkValidatorSet (Validators vs) p (totalVotingPower vs), p)
       end.

Definition ValidatorSet_Hash `{Amino} `{ValidatorCodec} (vs : ValidatorSet) : bytes :=
  if zlen (Validators vs) =? 0 then []
  else Merkle.SimpleHashFromHashers (Validator_Hash <$> Validators vs).

Definition Add (vs : ValidatorSet) (val : Validator) : go (ValidatorSet * bool) :=
  i ← searchAddress (Validators vs) (val_Address val);
  if zlen (Validators vs) <=? i then
    Ret (mkValidatorSet (Validators vs ++ [val]) None 0, true)
  else
    v ← idx (Validators vs) i;
    if bytes_eqb (val_Address v) (val_Address val) then Ret (vs, false)
    else Ret (mkValidatorSet (take (Z.to_nat i) (Validators vs) ++ val :: drop (Z.to_nat i) (Validators vs)) None 0, true).

Definition Update (vs : ValidatorSet) (val : Validator) : go (ValidatorSet * bool) :=
  r ← GetByAddress vs (val_Address val);
  match r.2 with
  | None => Ret (vs, false)
  | Some _ =>
      vals ← upd (Validators vs) r.1 val;
      Ret (mkValidatorSet vals None 0, true)
  end.

Definition Remove (vs : ValidatorSet) (address : bytes) : go (ValidatorSet * option Validator) :=
  i ← searchAddress (Validators vs) address;
  if zlen (Validators vs) <=? i then Ret (vs, None)
  else
    v ← idx (Validators vs) i;
    if negb (bytes_eqb (val_Address v) address) then Ret (vs, None)
    else
      let newValidators := take (Z.to_nat i) (Validators vs) in
      let newValidators :=
        if i + 1 <? zlen (Validators vs)
        then newValidators ++ drop (Z.to_nat (i + 1)) (Validators vs) else newValidators in
      Ret (mkValidatorSet newValidators None 0, Some v).

(** ** Commits *)

Inductive VerifyError :=
| ErrWrongSetSize
| ErrWrongHeight
| ErrWrongRound
| ErrNotPrecommit
| ErrInvalidSignature
| ErrInsufficientPower
| ErrInsufficientOldPower
| ErrInsufficientCurPower.

Section VerifyCommit.
Context `{Codec} `{Curves}.

(** [total*2/3] in 64-bit arithmetic. *)
Definition twoThirds (total : Z) : Z := Z.quot (mul64 total 2) 3.

(** One iteration of the loop of [VerifyCommit]. *)
Definition verifyPrecommit (vs : ValidatorSet) (chainID : bytes) (blockID : BlockID) (height round : Z)
    (idx : Z) (precommit : option Vote) (tallied : Z) : go (VerifyError + Z) :=
  match precommit with
  | None => Ret (inr tallied)
  | Some precommit =>
      if negb (v_Height precommit =? height) then Ret (inl ErrWrongHeight)
      else if negb (v_Round precommit =? round) then Ret (inl ErrWrongRound)
      else if negb (v_Type precommit =? VoteTypePrecommit) then Ret (inl ErrNotPrecommit)
      else match GetByIndex vs idx with
           | None => Panic NilDeref
           | Some (_, val) =>
               pubKey ← deref (val_PubKey val);
               if negb (VerifyBytes pubKey (Vote_SignBytes chainID precommit) (v_Signature precommit))
               then Ret (inl ErrInvalidSignature)
               else if negb (BlockID_Equals blockID (v_BlockID precommit)) then Ret (inr tallied)
               else Ret (inr (add64 tallied (val_VotingPower val)))
           end
  end.

Fixpoint verifyLoop (vs : ValidatorSet) (chainID : bytes) (blockID : BlockID) (height round : Z)
    (idx : Z) (precommits : list (option Vote)) (tallied : Z) : go (VerifyError + Z) :=
  match precommits with
  | [] => Ret (inr tallied)
  | p :: precommits =>
      r ← verifyPrecommit vs chainID blockID height round idx p tallied;
      match r with
      | inl e => Ret (inl e)
      | inr tallied => verifyLoop vs chainID blockID height round (idx + 1) precommits tallied
      end
  end.

(** [nil] is [None].  The commit is the one the pointer refers to: callers that
    may hold a nil pointer dereference it first, which panics as the source does
    when it reads the precommits. *)
Definition VerifyCommit (vs : ValidatorSet) (chainID : bytes) (blockID : BlockID) (height : Z) (commit : Commit)
  : go (option VerifyError) :=
  if negb (Size vs =? zlen (c_Precommits commit)) then Ret (Some ErrWrongSetSize)
  else if negb (height =? Commit_Height commit) then Ret (Some ErrWrongHeight)
  else
    r ← verifyLoop vs chainID blockID height (Commit_Round commit) 0 (c_Precommits commit) 0;
    match r with
    | inl e => Ret (Some e)
    | inr tallied =>
        if twoThirds (totalPower vs) <? tallied then Ret None else Ret (Some ErrInsufficientPower)
    end.

(** The loop state of [VerifyCommitAny]: old power, new power, indices seen. *)
Definition verifyAnyPrecommit (vs newSet : ValidatorSet) (chainID : bytes) (blockID : BlockID) (height round : Z)
    (idx : Z) (precommit : option Vote) (st : Z * Z * gset Z) : go (VerifyError + Z * Z * gset Z) :=
  match precommit with
  | None => Ret (inr st)
  | Some precommit =>
      if negb (v_Height precommit =? height) then Ret (inl ErrWrongHeight)
      else if negb (v_Round precommit =? round) then Ret (inl ErrWrongRound)
      else if negb (v_Type precommit =? VoteTypePrecommit) then Ret (inl ErrNotPrecommit)
      else if negb (BlockID_Equals blockID (v_BlockID precommit)) then Ret (inr st)
      else
        r ← GetByAddress vs (v_ValidatorAddress precommit);
        match r with
        | (vi, None) => Ret (inr st)
        | (vi, Some ov) =>
            let '(oldPower, newPower, seen) := st in
            if decide (vi ∈ seen) then Ret (inr st)
            else
              let seen := {[ vi ]} ∪ seen in
              pubKey ← deref (val_PubKey ov);
              if negb (VerifyBytes pubKey (Vote_SignBytes chainID precommit) (v_Signature precommit))
              then Ret (inl ErrInvalidSignature)
              else
                let oldPower := add64 oldPower (val_VotingPower ov) in
                match GetByIndex newSet idx with
                | None => Panic NilDeref
                | Some (_, cv) =>
                    curKey ← deref (val_PubKey cv);
                    if PubKey_Equals curKey pubKey
                    then Ret (inr (oldPower, add64 newPower (val_VotingPower cv), seen))
                    else Ret (inr (oldPower, newPower, seen))
                end
        end
  end.

Fixpoint verifyAnyLoop (vs newSet : ValidatorSet) (chainID : bytes) (blockID : BlockID) (height round : Z)
    (idx : Z) (precommits : list (option Vote)) (st : Z * Z * gset Z) : go (VerifyError + Z * Z * gset Z) :=
  match precommits with
  | [] => Ret (inr st)
  | p :: precommits =>
      r ← verifyAnyPrecommit vs newSet chainID blockID height round idx p st;
      match r with
      | inl e => Ret (inl e)
      | inr st => verifyAnyLoop vs newSet chainID blockID height round (idx + 1) precommits st
      end
  end.

Definition VerifyCommitAny (vs newSet : ValidatorSet) (chainID : bytes) (blockID : BlockID) (height : Z)
    (commit : Commit) : go (option VerifyError) :=
  if negb (Size newSet =? zlen (c_Precommits commit)) then Ret (Some ErrWrongSetSize)
  else if negb (height =? Commit_Height commit) then Ret (Some ErrWrongHeight)
  else
    r ← verifyAnyLoop vs newSet chainID blockID height (Commit_Round commit) 0 (c_Precommits commit) (0, 0, ∅);
    match r with
    | inl e => Ret (Some e)
    | inr (oldPower, newPower, _) =>
        if oldPower <=? twoThirds (totalPower vs) then Ret (Some ErrInsufficientOldPower)
        else if newPower <=? twoThirds (totalPower newSet) then Ret (Some ErrInsufficientCurPower)
        else Ret None
    end.
End VerifyCommit.

(** ** Clipped arithmetic *)

(** The nearest [int64]. *)
Definition clip64 (z : Z) : Z := Z.max MinInt64 (Z.min MaxInt64 z).

Lemma clip64_small z : int64 z -> clip64 z = z.
Proof. unfold clip64, int64. lia. Qed.

Lemma clip64_int64 z : int64 (clip64 z).
Proof. unfold clip64, int64, MinInt64, MaxInt64. lia. Qed.

Lemma safeAddClip_clip a b : int64 a -> int64 b -> safeAddClip a b = clip64 (a + b).
Proof.
  intros Ha Hb. unfold safeAddClip, safeAdd, sub64, add64, clip64.
  destruct (Z.ltb_spec 0 b); cbn [andb].
  - rewrite wrap64_small by (unfold_int64; lia). rewrite (proj2 (Z.ltb_ge b 0)) by lia. cbn [andb].
    destruct (Z.ltb_spec (MaxInt64 - b) a); [unfold_int64; lia|].
    rewrite wrap64_small by (unfold_int64; lia). unfold_int64; lia.
  - destruct (Z.ltb_spec b 0); cbn [andb].
    + rewrite wrap64_small by (unfold_int64; lia).
      destruct (Z.ltb_spec a (MinInt64 - b)); [unfold_int64; lia|].
      rewrite wrap64_small by (unfold_int64; lia). unfold_int64; lia.
    + rewrite wrap64_small by (unfold_int64; lia). unfold_int64; lia.
Qed.

Lemma safeSubClip_clip a b : int64 a -> int64 b -> safeSubClip a b = clip64 (a - b).
Proof.
  intros Ha Hb. unfold safeSubClip, safeSub, sub64, add64, clip64.
  destruct (Z.ltb_spec 0 b); cbn [andb].
  - rewrite wrap64_small by (unfold_int64; lia). rewrite (proj2 (Z.ltb_ge b 0)) by lia. cbn [andb].
    destruct (Z.ltb_spec a (MinInt64 + b)); [unfold_int64; lia|].
    rewrite wrap64_small by (unfold_int64; lia). unfold_int64; lia.
  - destruct (Z.ltb_spec b 0); cbn [andb].
    + rewrite wrap64_small by (unfold_int64; lia).
      destruct (Z.ltb_spec (MaxInt64 + b) a); [unfold_int64; lia|].
      rewrite wrap64_small by (unfold_int64; lia). unfold_int64; lia.
    + rewrite wrap64_small by (unfold_int64; lia). unfold_int64; lia.
Qed.

(** The division test of [safeMul] detects exactly the wrapped products. *)
Lemma mul_overflow_test a b : int64 a -> int64 b -> a <> MinInt64 -> b <> MinInt64 -> b <> 0 ->
  (Z.quot (mul64 a b) b =? a) = true <-> int64 (a * b).
Proof.
  intros Ha Hb Ha' Hb' Hb0. rewrite Z.eqb_eq. split.
  - intros Hq. unfold mul64 in Hq. destruct (wrap64_eq (a * b)) as [k Hk].
    pose proof (Z.quot_rem (wrap64 (a * b)) b Hb0) as Hqr. rewrite Hq in Hqr.
    pose proof (Z.rem_bound_abs (wrap64 (a * b)) b Hb0).
    assert (Hr : Z.rem (wrap64 (a * b)) b = k * two64) by lia.
    assert (k = 0) as -> by (unfold_int64; lia).
    replace (a * b) with (wrap64 (a * b)) by lia. apply wrap64_int64.
  - intros Hab. unfold mul64. rewrite wrap64_small by done. by apply Z.quot_mul.
Qed.

Lemma safeMulClip_clip a b : int64 a -> int64 b -> safeMulClip a b = clip64 (a * b).
Proof.
  intros Ha Hb. unfold safeMulClip, safeMul.
  destruct (Z.eqb_spec a 0) as [->|Ha0]; [done|]. destruct (Z.eqb_spec b 0) as [->|Hb0]; cbn [orb].
  { by rewrite Z.mul_0_r. }
  destruct (Z.eqb_spec a 1) as [->|Ha1]; [by rewrite Z.mul_1_l, clip64_small|].
  destruct (Z.eqb_spec b 1) as [->|Hb1]; [by rewrite Z.mul_1_r, clip64_small|].
  assert (Hsign : ~ int64 (a * b) ->
    (if ((a <? 0) || (b <? 0)) && negb ((a <? 0) && (b <? 0)) then MinInt64 else MaxInt64) = clip64 (a * b)).
  { intros Hno. unfold clip64. unfold_int64.
    destruct (Z.ltb_spec a 0), (Z.ltb_spec b 0); cbn; nia. }
  destruct (Z.eqb_spec a MinInt64) as [->|Ham]; [|destruct (Z.eqb_spec b MinInt64) as [->|Hbm]]; cbn [orb].
  - apply Hsign. unfold_int64. nia.
  - apply Hsign. unfold_int64. nia.
  - pose proof (mul_overflow_test a b Ha Hb Ham Hbm Hb0) as Ht. destruct (Z.quot _ _ =? a) eqn:E; cbn [negb].
    + assert (int64 (a * b)) by by apply Ht. unfold mul64. by rewrite wrap64_small, clip64_small.
    + apply Hsign. intros Hi. by apply Ht in Hi.
Qed.

(** ** Total voting power *)

(** What a set must be for its 64-bit arithmetic to be exact, twice the total
    fits an [int64], and for signatures to be checked: every key is there. *)
Definition valsOK (vs : ValidatorSet) : Prop :=
  Forall (fun v => 0 <= val_VotingPower v) (Validators vs) /\
  2 * sumZ val_VotingPower (Validators vs) <= MaxInt64 /\
  Forall (fun v => val_PubKey v <> None) (Validators vs).

#[export] Instance valsOK_dec vs : Decision (valsOK vs).
Proof. unfold valsOK. apply _. Defined.

(** The cache is empty or holds the total. *)
Definition cacheOK (vs : ValidatorSet) : Prop :=
  totalVotingPower vs = 0 \/ totalVotingPower vs = foldl (fun t v => safeAddClip t (val_VotingPower v)) 0 (Validators vs).

Lemma foldl_total l t : Forall (fun v => 0 <= val_VotingPower v) l -> 0 <= t ->
  t + sumZ val_VotingPower l <= MaxInt64 ->
  foldl (fun t v => safeAddClip t (val_VotingPower v)) t l = t + sumZ val_VotingPower l.
Proof.
  revert t. induction l as [|v l IH]; intros t Hf Ht Hs; [change (sumZ _ []) with 0; cbn; lia|].
  apply Forall_cons in Hf as [Hv Hf]. rewrite sumZ_cons in *. cbn [foldl].
  assert (0 <= sumZ val_VotingPower l) by (apply sumZ_nonneg; by apply Forall_forall).
  rewrite safeAddClip_clip, clip64_small by (unfold_int64; lia). rewrite IH by (done || lia). lia.
Qed.

Lemma totalPower_sum vs : valsOK vs -> cacheOK vs -> totalPower vs = sumZ val_VotingPower (Validators vs).
Proof.
  intros (Hf & Hs & _) Hc. assert (0 <= sumZ val_VotingPower (Validators vs)) by (apply sumZ_nonneg; by apply Forall_forall).
  assert (Hfold : foldl (fun t v => safeAddClip t (val_VotingPower v)) 0 (Validators vs) = sumZ val_VotingPower (Validators vs)).
  { rewrite foldl_total by (done || lia). lia. }
  unfold totalPower, TotalVotingPower; cbn. destruct (Z.eqb_spec (totalVotingPower vs) 0) as [->|Hne]; [done|].
  destruct Hc; [done|congruence].
Qed.

(** The set without its cache, which go-amino does not store. *)
Definition uncached (vs : ValidatorSet) : ValidatorSet := mkValidatorSet (Validators vs) (Proposer vs) 0.

Lemma totalPower_fold vs : cacheOK vs -> totalPower vs = foldl (fun t v => safeAddClip t (val_VotingPower v)) 0 (Validators vs).
Proof.
  intros Hc. unfold totalPower, TotalVotingPower. cbn. destruct (Z.eqb_spec (totalVotingPower vs) 0) as [->|Hne]; [done|].
  destruct Hc; [done|congruence].
Qed.
Lemma uncached_cacheOK vs : cacheOK (uncached vs).
Proof. by left. Qed.

Lemma twoThirds_spec t x : 0 <= t -> 2 * t <= MaxInt64 -> twoThirds t < x <-> 2 * t < 3 * x.
Proof.
  intros H0 H1. unfold twoThirds, mul64. rewrite wrap64_small by (unfold_int64; lia).
  rewrite Z.quot_div_nonneg by lia. split; intros H2.
  - pose proof (Z.div_mod (t * 2) 3 ltac:(lia)). pose proof (Z.mod_pos_bound (t * 2) 3 ltac:(lia)). lia.
  - apply Z.div_lt_upper_bound; lia.
Qed.

(** ** Order by address *)

Definition addrLt (a b : Validator) : Prop := bytes_lt (val_Address a) (val_Address b).

(** The invariant of a set: strictly increasing addresses. *)
Definition addrSorted (l : list Validator) : Prop := StronglySorted addrLt l.

Lemma addrSorted_lookup l i j a b : addrSorted l -> (i < j)%nat -> l !! i = Some a -> l !! j = Some b -> addrLt a b.
Proof.
  intros Hs. revert i j. induction Hs as [|x l Hs IH Hf]; intros i j Hij Ha Hb; [done|].
  destruct j as [|j]; [lia|]. cbn in Hb. destruct i as [|i]; cbn in Ha.
  - injection Ha as <-. rewrite Forall_forall in Hf. apply Hf. by eapply list_elem_of_lookup_2.
  - eapply (IH i j); [lia|done|done].
Qed.

Lemma addrSorted_intro l :
  (forall i j a b, (i < j)%nat -> l !! i = Some a -> l !! j = Some b -> addrLt a b) -> addrSorted l.
Proof.
  induction l as [|x l IH]; intros H; constructor.
  - apply IH. intros i j a b Hij Ha Hb. apply (H (S i) (S j)); [lia|done|done].
  - apply Forall_forall. intros y Hy. apply list_elem_of_lookup in Hy as [k Hk]. apply (H 0%nat (S k)); [lia|done|done].
Qed.

Lemma addrLt_trans a b c : addrLt a b -> addrLt b c -> addrLt a c.
Proof. apply bytes_compare_trans. Qed.

Lemma addrLt_irrefl a : ~ addrLt a a.
Proof. apply bytes_lt_irrefl. Qed.

Lemma addrSorted_inj l i j a b : addrSorted l -> l !! i = Some a -> l !! j = Some b ->
  val_Address a = val_Address b -> i = j.
Proof.
  intros Hs Ha Hb Hab. destruct (Nat.lt_trichotomy i j) as [H|[H|H]]; [|done|].
  - pose proof (addrSorted_lookup l i j a b Hs H Ha Hb) as Hlt. unfold addrLt in Hlt. rewrite Hab in Hlt.
    by apply bytes_lt_irrefl in Hlt.
  - pose proof (addrSorted_lookup l j i b a Hs H Hb Ha) as Hlt. unfold addrLt in Hlt. rewrite Hab in Hlt.
    by apply bytes_lt_irrefl in Hlt.
Qed.

Definition notGt (a : bytes) (l : list Validator) (i : Z) : bool :=
  match l !! Z.to_nat i with
  | Some v => match bytes_compare a (val_Address v) with Gt => false | _ => true end
  | None => false
  end.

Lemma notGt_false a v : match bytes_compare a (val_Address v) with Gt => false | _ => true end = false ->
  bytes_lt (val_Address v) a.
Proof.
  unfold bytes_lt. rewrite (bytes_compare_antisym a (val_Address v)). by destruct (bytes_compare a _).
Qed.

(** The search finds the first validator whose address is not below. *)
Lemma searchAddress_spec l a : addrSorted l ->
  exists i : nat, searchAddress l a = Ret (Z.of_nat i) /\ (i <= length l)%nat /\
    (forall k v, (k < i)%nat -> l !! k = Some v -> bytes_lt (val_Address v) a) /\
    (forall v, l !! i = Some v -> val_Address v = a \/ bytes_lt a (val_Address v)).
Proof.
  intros Hs. unfold searchAddress.
  destruct (sort_Search_spec (zlen l) (fun i => v ← idx l i;
      Ret (match bytes_compare a (val_Address v) with Gt => false | _ => true end)) (notGt a l))
    as (r & E & Hr & Hlo & Hhi).
  - apply zlen_nonneg.
  - intros k Hk. destruct (idx_total l k Hk) as (v & -> & Hv). cbn. unfold notGt. by rewrite Hv.
  - intros x y Hxy Hy Hp. unfold notGt in *.
    destruct (l !! Z.to_nat x) as [v|] eqn:Ev; [|done].
    destruct (idx_total l y ltac:(lia)) as (w & _ & Hw). rewrite Hw.
    destruct (bytes_compare a (val_Address w)) eqn:E; [done..|]. exfalso.
    assert (Hwa : bytes_lt (val_Address w) a) by (unfold bytes_lt; by rewrite (bytes_compare_antisym a), E).
    destruct (decide (x = y)) as [->|Hne]; [rewrite Ev in Hw; injection Hw as ->; by rewrite E in Hp|].
    pose proof (addrSorted_lookup l (Z.to_nat x) (Z.to_nat y) v w Hs ltac:(lia) Ev Hw) as Hvw.
    assert (Hva : bytes_lt (val_Address v) a) by (eapply bytes_compare_trans; eauto).
    unfold bytes_lt in Hva. rewrite (bytes_compare_antisym a) in Hva. by destruct (bytes_compare a (val_Address v)).
  - exists (Z.to_nat r). rewrite Z2Nat.id by lia. split; [done|]. split; [unfold zlen in *; lia|]. split.
    + intros k v Hk Hv. specialize (Hlo (Z.of_nat k) ltac:(lia)). unfold notGt in Hlo.
      rewrite Nat2Z.id, Hv in Hlo. by apply notGt_false.
    + intros v Hv. pose proof (lookup_lt_Some _ _ _ Hv).
      specialize (Hhi ltac:(unfold zlen; lia)). unfold notGt in Hhi. rewrite Hv in Hhi.
      destruct (bytes_compare a (val_Address v)) eqn:Ec; [|by right|done]. apply bytes_compare_eq in Ec. by left.
Qed.

(** A validator of the set with the address sits where the search ends. *)
Lemma search_hit l a i k v : addrSorted l -> (i <= length l)%nat ->
  (forall k v, (k < i)%nat -> l !! k = Some v -> bytes_lt (val_Address v) a) ->
  (forall v, l !! i = Some v -> val_Address v = a \/ bytes_lt a (val_Address v)) ->
  l !! k = Some v -> val_Address v = a -> k = i.
Proof.
  intros Hs Hi Hlo Hhi Hv <-. destruct (Nat.lt_trichotomy k i) as [Hk|[Hk|Hk]]; [|done|].
  - by apply Hlo, bytes_lt_irrefl in Hv.
  - destruct (lookup_lt_is_Some_2 l i) as [w Hw]; [apply lookup_lt_Some in Hv; lia|].
    pose proof (addrSorted_lookup l i k w v Hs Hk Hw Hv) as Hwv. unfold addrLt in Hwv.
    destruct (Hhi w Hw) as [E|E]; [rewrite E in Hwv; by apply bytes_lt_irrefl in Hwv|].
    exfalso. eapply bytes_lt_irrefl, bytes_compare_trans; eauto.
Qed.

Lemma GetByAddress_spec vs a : addrSorted (Validators vs) ->
  (exists i v, GetByAddress vs a = Ret (Z.of_nat i, Some v) /\ Validators vs !! i = Some v /\ val_Address v = a) \/
  (GetByAddress vs a = Ret (-1, None) /\ forall v, v ∈ Validators vs -> val_Address v <> a).
Proof.
  intros Hs. destruct (searchAddress_spec (Validators vs) a Hs) as (i & E & Hi & Hlo & Hhi).
  unfold GetByAddress. rewrite E. cbn [mbind go_mbind].
  assert (Hmiss : forall v w, Validators vs !! i = Some w -> val_Address w <> a -> v ∈ Validators vs -> val_Address v <> a).
  { intros v w Hw Hne Hv Ha. apply list_elem_of_lookup in Hv as [k Hk].
    pose proof (search_hit _ a i k v Hs Hi Hlo Hhi Hk Ha) as ->. congruence. }
  destruct (Z.ltb_spec (Z.of_nat i) (zlen (Validators vs))) as [Hlt|Hge].
  - destruct (idx_total (Validators vs) (Z.of_nat i)) as (w & -> & Hw); [lia|]. rewrite Nat2Z.id in Hw.
    cbn [mbind go_mbind]. destruct (bytes_eqb _ _) eqn:Eb.
    + apply bytes_eqb_true in Eb. left. by exists i, w.
    + apply bytes_eqb_false in Eb. right. split; [done|]. intros v. by eapply Hmiss.
  - right. split; [done|]. intros v Hv Ha. apply list_elem_of_lookup in Hv as [k Hk].
    pose proof (search_hit _ a i k v Hs Hi Hlo Hhi Hk Ha) as ->.
    apply lookup_lt_Some in Hk. unfold zlen in Hge. lia.
Qed.

(** ** A set as a finite map from addresses *)

Definition asMap (l : list Validator) : gmap bytes Validator :=
  list_to_map ((fun v => (val_Address v, v)) <$> l).

Lemma addrSorted_NoDup l : addrSorted l -> NoDup ((fun v => (val_Address v, v)) <$> l).*1.
Proof.
  intros Hs. rewrite <- list_fmap_compose. apply NoDup_fmap_2_strong.
  - intros x y Hx Hy E. apply list_elem_of_lookup in Hx as [i Hi], Hy as [j Hj].
    pose proof (addrSorted_inj l i j x y Hs Hi Hj E) as ->. congruence.
  - apply NoDup_alt. intros i j x Hi Hj. by eapply addrSorted_inj.
Qed.

Lemma asMap_lookup (l : list Validator) a v : addrSorted l -> asMap l !! a = Some v <-> v ∈ l /\ val_Address v = a.
Proof.
  intros Hs. unfold asMap. rewrite <- elem_of_list_to_map by by apply addrSorted_NoDup.
  rewrite list_elem_of_fmap. split.
  - intros (w & [= -> ->] & Hw). done.
  - intros [Hv <-]. by exists v.
Qed.

Lemma asMap_None (l : list Validator) a : addrSorted l -> asMap l !! a = None <-> forall v, v ∈ l -> val_Address v <> a.
Proof.
  intros Hs. split.
  - intros Hn v Hv Ha. assert (asMap l !! a = Some v) by by apply asMap_lookup. congruence.
  - intros Hn. destruct (asMap l !! a) as [v|] eqn:E; [|done]. apply asMap_lookup in E as [Hv Ha]; [|done].
    by destruct (Hn v Hv).
Qed.

(** Equality of maps through membership. *)
Lemma asMap_ext (l : list Validator) (m : gmap bytes Validator) : addrSorted l ->
  (forall a v, m !! a = Some v <-> v ∈ l /\ val_Address v = a) -> asMap l = m.
Proof.
  intros Hs Hm. apply map_eq. intros a. apply option_eq. intros v. rewrite asMap_lookup, Hm by done. done.
Qed.

(** A sorted list is determined by its map. *)
Lemma asMap_inj l l' : addrSorted l -> addrSorted l' -> asMap l = asMap l' -> l = l'.
Proof.
  intros Hs Hs' E. assert (Hin : forall v, v ∈ l <-> v ∈ l').
  { intros v. pose proof (asMap_lookup l (val_Address v) v Hs) as H1. pose proof (asMap_lookup l' (val_Address v) v Hs') as H2. rewrite E in H1. tauto. }
  assert (Hnd : forall k, addrSorted k -> NoDup k) by (intros k Hk; eapply NoDup_fmap_1, NoDup_fmap_1, addrSorted_NoDup, Hk).
  apply (StronglySorted_unique_strong addrLt); [|done|done|by apply NoDup_Permutation; auto].
  intros x y _ _ H1 H2. destruct (addrLt_irrefl x). by eapply addrLt_trans.
Qed.

Lemma sorted_insert l i v : addrSorted l ->
  (forall k w, (k < i)%nat -> l !! k = Some w -> bytes_lt (val_Address w) (val_Address v)) ->
  (forall w, l !! i = Some w -> bytes_lt (val_Address v) (val_Address w)) -> (i <= length l)%nat ->
  addrSorted (take i l ++ v :: drop i l).
Proof.
  intros Hs Hlo Hhi Hi. apply addrSorted_intro.
  assert (Hat : forall k w, (take i l ++ v :: drop i l) !! k = Some w ->
    (k < i)%nat /\ l !! k = Some w \/ k = i /\ w = v \/ (i < k)%nat /\ l !! (k - 1)%nat = Some w).
  { intros k w Hk. apply lookup_app_Some in Hk as [Hk|[Hge Hk]].
    - apply lookup_take_Some in Hk as [Hk Hlt]. by left.
    - rewrite length_take, Nat.min_l in Hge, Hk by lia. destruct (k - i)%nat as [|m] eqn:Em.
      + injection Hk as <-. right; left. split; [lia|done].
      + change ((v :: drop i l) !! S m) with (drop i l !! m) in Hk. rewrite lookup_drop in Hk. right; right. split; [lia|]. by replace (k - 1)%nat with (i + m)%nat by lia. }
  assert (Hgt : forall k w, (i <= k)%nat -> l !! k = Some w -> addrLt v w).
  { intros k w Hk Hw. destruct (decide (k = i)) as [->|Hne]; [by apply Hhi|].
    destruct (lookup_lt_is_Some_2 l i) as [x Hx]; [apply lookup_lt_Some in Hw; lia|].
    eapply addrLt_trans; [by apply Hhi|]. eapply (addrSorted_lookup l i k); [done|lia|done|done]. }
  intros x y a b Hxy Ha Hb.
  destruct (Hat x a Ha) as [[? ?]|[[? ->]|[? ?]]], (Hat y b Hb) as [[? ?]|[[? ->]|[? ?]]]; try lia.
  - eapply (addrSorted_lookup l x y); [done|lia|done|done].
  - by eapply Hlo.
  - eapply (addrSorted_lookup l x (y - 1)); [done|lia|done|done].
  - eapply (Hgt (y - 1)%nat); [lia|done].
  - eapply (addrSorted_lookup l (x - 1) (y - 1)); [done|lia|done|done].
Qed.

Lemma insert_map l i v : addrSorted l ->
  (forall k w, (k < i)%nat -> l !! k = Some w -> bytes_lt (val_Address w) (val_Address v)) ->
  (forall w, l !! i = Some w -> bytes_lt (val_Address v) (val_Address w)) -> (i <= length l)%nat ->
  asMap l !! val_Address v = None ->
  addrSorted (take i l ++ v :: drop i l) /\
  asMap (take i l ++ v :: drop i l) = <[val_Address v := v]> (asMap l) /\
  take i l ++ v :: drop i l ≡ₚ v :: l.
Proof.
  intros Hs Hlo Hhi Hi Hnone. pose proof (sorted_insert l i v Hs Hlo Hhi Hi) as Hl.
  assert (Hp : take i l ++ v :: drop i l ≡ₚ v :: l) by (by rewrite <- Permutation_middle, take_drop).
  split; [done|]. split; [|done]. apply asMap_ext; [done|]. intros a w. rewrite Hp, elem_of_cons.
  destruct (decide (a = val_Address v)) as [->|Hna].
  - rewrite lookup_insert_eq. split; [intros [= <-]; by split; [left|]|].
    intros [[->|Hw] Ha]; [done|]. exfalso.
    assert (asMap l !! val_Address v = Some w) by by apply asMap_lookup. congruence.
  - rewrite lookup_insert_ne, asMap_lookup by done. split; [intros [? ?]; by split; [right|]|].
    intros [[->|?] ?]; [done|by split].
Qed.

Lemma Add_spec vs v : addrSorted (Validators vs) ->
  (asMap (Validators vs) !! val_Address v <> None /\ Add vs v = Ret (vs, false)) \/
  (asMap (Validators vs) !! val_Address v = None /\ exists l, Add vs v = Ret (mkValidatorSet l None 0, true) /\
     addrSorted l /\ asMap l = <[val_Address v := v]> (asMap (Validators vs)) /\ l ≡ₚ v :: Validators vs).
Proof.
  intros Hs. destruct (searchAddress_spec (Validators vs) (val_Address v) Hs) as (i & E & Hi & Hlo & Hhi).
  unfold Add. rewrite E. cbn [mbind go_mbind].
  assert (Hnone : (forall w, Validators vs !! i = Some w -> val_Address w <> val_Address v) ->
    asMap (Validators vs) !! val_Address v = None).
  { intros Hne. apply asMap_None; [done|]. intros w Hw Ha. apply list_elem_of_lookup in Hw as [k Hk].
    pose proof (search_hit _ _ i k w Hs Hi Hlo Hhi Hk Ha) as ->. by eapply Hne. }
  assert (Hlt' : (forall w, Validators vs !! i = Some w -> val_Address w <> val_Address v) ->
    forall w, Validators vs !! i = Some w -> bytes_lt (val_Address v) (val_Address w)).
  { intros Hne w Hw. destruct (Hhi w Hw) as [Heq|]; [|done]. by destruct (Hne w Hw). }
  destruct (Z.leb_spec (zlen (Validators vs)) (Z.of_nat i)) as [Hge|Hlt].
  - assert (Hnl : Validators vs !! i = None) by (apply lookup_ge_None; unfold zlen in Hge; lia).
    right. split; [apply Hnone; congruence|]. eexists. split; [done|].
    destruct (insert_map (Validators vs) i v) as (H1 & H2 & H3); [done|done|apply Hlt'; congruence|done|apply Hnone; congruence|].
    rewrite firstn_all2, skipn_all2 in H1, H2, H3 by (unfold zlen in Hge; lia). done.
  - destruct (idx_total (Validators vs) (Z.of_nat i)) as (w & -> & Hw); [lia|]. rewrite Nat2Z.id in Hw.
    cbn [mbind go_mbind]. destruct (bytes_eqb _ _) eqn:Eb.
    + apply bytes_eqb_true in Eb. left. split; [|done].
      assert (asMap (Validators vs) !! val_Address v = Some w) as ->; [|done].
      apply asMap_lookup; [done|]. split; [by eapply list_elem_of_lookup_2|done].
    + apply bytes_eqb_false in Eb. right. split; [apply Hnone; congruence|].
      rewrite Nat2Z.id. eexists. split; [done|].
      apply insert_map; [done|done|apply Hlt'; congruence|done|apply Hnone; congruence].
Qed.

Lemma sorted_replace l i v w : addrSorted l -> l !! i = Some w -> val_Address v = val_Address w ->
  addrSorted (<[i := v]> l) /\ asMap (<[i := v]> l) = <[val_Address v := v]> (asMap l).
Proof.
  intros Hs Hw Ha. pose proof (lookup_lt_Some _ _ _ Hw) as Hi.
  assert (Hat : forall k x, <[i := v]> l !! k = Some x -> exists y, l !! k = Some y /\ val_Address y = val_Address x).
  { intros k x Hk. destruct (decide (k = i)) as [->|Hne].
    - rewrite list_lookup_insert_eq in Hk by done. injection Hk as <-. by exists w.
    - rewrite list_lookup_insert_ne in Hk by done. by exists x. }
  assert (Hl : addrSorted (<[i := v]> l)).
  { apply addrSorted_intro. intros x y a b Hxy Hxa Hyb.
    destruct (Hat x a Hxa) as (a' & La & Ea), (Hat y b Hyb) as (b' & Lb & Eb).
    pose proof (addrSorted_lookup l x y a' b' Hs Hxy La Lb) as Hlt. unfold addrLt in *. congruence. }
  split; [done|]. apply asMap_ext; [done|]. intros a x.
  destruct (decide (a = val_Address v)) as [->|Hna].
  - rewrite lookup_insert_eq. split.
    + intros [= <-]. split; [|done]. apply list_elem_of_lookup. exists i. by apply list_lookup_insert_eq.
    + intros [Hx Hxa]. apply list_elem_of_lookup in Hx as [k Hk]. f_equal.
      assert (k = i) as ->.
      { destruct (Hat k x Hk) as (y & Hy & Ey). eapply (addrSorted_inj l k i y w); [done|done|done|congruence]. }
      rewrite list_lookup_insert_eq in Hk by done. congruence.
  - rewrite lookup_insert_ne, asMap_lookup by done. rewrite !list_elem_of_lookup. split.
    + intros [[k Hk] <-]. split; [|done]. exists k. rewrite list_lookup_insert_ne; [done|].
      intros <-. congruence.
    + intros [[k Hk] Hxa]. split; [|done]. exists k. rewrite list_lookup_insert_ne in Hk; [done|].
      intros <-. rewrite list_lookup_insert_eq in Hk by done. congruence.
Qed.

Lemma setUpdate_spec vs v : addrSorted (Validators vs) ->
  (asMap (Validators vs) !! val_Address v = None /\ Update vs v = Ret (vs, false)) \/
  (asMap (Validators vs) !! val_Address v <> None /\ exists l, Update vs v = Ret (mkValidatorSet l None 0, true) /\
     addrSorted l /\ asMap l = <[val_Address v := v]> (asMap (Validators vs))).
Proof.
  intros Hs. unfold Update.
  destruct (GetByAddress_spec vs (val_Address v) Hs) as [(i & w & -> & Hw & Ha)|[-> Hno]]; cbn [mbind go_mbind fst snd].
  - right. assert (asMap (Validators vs) !! val_Address v = Some w) as ->.
    { apply asMap_lookup; [done|]. split; [by eapply list_elem_of_lookup_2|done]. }
    split; [done|]. pose proof (lookup_lt_Some _ _ _ Hw). rewrite upd_ret by (unfold zlen; lia).
    cbn [mbind go_mbind]. rewrite Nat2Z.id. eexists. split; [done|]. by eapply sorted_replace.
  - left. split; [|done]. by apply asMap_None.
Qed.

Lemma sorted_delete l i w : addrSorted l -> l !! i = Some w ->
  addrSorted (delete i l) /\ asMap (delete i l) = delete (val_Address w) (asMap l).
Proof.
  intros Hs Hw.
  assert (Hat : forall k, delete i l !! k = if decide (k < i)%nat then l !! k else l !! S k).
  { intros k. case_decide; [by rewrite list_lookup_delete_lt|by rewrite list_lookup_delete_ge by lia]. }
  assert (Hl : addrSorted (delete i l)).
  { apply addrSorted_intro. intros x y a b Hxy. rewrite !Hat. intros Ha Hb.
    repeat case_decide; eapply addrSorted_lookup; [done| |done|done|done| |done|done|done| |done|done|done| |done|done]; lia. }
  split; [done|]. apply asMap_ext; [done|]. intros a x.
  rewrite lookup_delete_Some, asMap_lookup, !list_elem_of_lookup by done. split.
  - intros [Hne [[k Hk] <-]]. split; [|done].
    destruct (Nat.lt_trichotomy k i) as [?|[->|?]].
    + exists k. by rewrite Hat, decide_True.
    + congruence.
    + exists (k - 1)%nat. rewrite Hat, decide_False by lia. by replace (S (k - 1)) with k by lia.
  - intros [[k Hk] <-]. rewrite Hat in Hk. split.
    + intros E. case_decide.
      * pose proof (addrSorted_inj l i k w x Hs Hw Hk E). lia.
      * pose proof (addrSorted_inj l i (S k) w x Hs Hw Hk E). lia.
    + split; [|done]. case_decide; eauto.
Qed.

Lemma Remove_spec vs a : addrSorted (Validators vs) ->
  (asMap (Validators vs) !! a = None /\ Remove vs a = Ret (vs, None)) \/
  (exists v l, asMap (Validators vs) !! a = Some v /\ Remove vs a = Ret (mkValidatorSet l None 0, Some v) /\
     addrSorted l /\ asMap l = delete a (asMap (Validators vs))).
Proof.
  intros Hs. destruct (searchAddress_spec (Validators vs) a Hs) as (i & E & Hi & Hlo & Hhi).
  unfold Remove. rewrite E. cbn [mbind go_mbind].
  assert (Hmiss : (forall w, Validators vs !! i = Some w -> val_Address w <> a) -> asMap (Validators vs) !! a = None).
  { intros Hne. apply asMap_None; [done|]. intros w Hw Ha. apply list_elem_of_lookup in Hw as [k Hk].
    pose proof (search_hit _ _ i k w Hs Hi Hlo Hhi Hk Ha) as ->. by eapply Hne. }
  destruct (Z.leb_spec (zlen (Validators vs)) (Z.of_nat i)) as [Hge|Hlt].
  - left. split; [|done]. apply Hmiss. intros w Hw. apply lookup_lt_Some in Hw. unfold zlen in Hge. lia.
  - destruct (idx_total (Validators vs) (Z.of_nat i)) as (w & -> & Hw); [lia|]. rewrite Nat2Z.id in Hw.
    cbn [mbind go_mbind]. destruct (bytes_eqb _ _) eqn:Eb; cbn [negb].
    + apply bytes_eqb_true in Eb. subst a. right. exists w, (delete i (Validators vs)).
      destruct (sorted_delete (Validators vs) i w Hs Hw) as [Hd1 Hd2].
      split; [apply asMap_lookup; [done|]; split; [by eapply list_elem_of_lookup_2|done]|].
      split; [|done]. rewrite !Nat2Z.id, delete_take_drop.
      replace (Z.to_nat (Z.of_nat i + 1)) with (S i) by lia.
      destruct (Z.ltb_spec (Z.of_nat i + 1) (zlen (Validators vs))); [done|].
      rewrite (skipn_all2 (n:=S i)) by (unfold zlen in *; lia). by rewrite app_nil_r.
    + apply bytes_eqb_false in Eb. left. split; [apply Hmiss; congruence|done].
Qed.

(** ** Proposer rotation *)

(** The reference: the validator with the highest accum, ties broken by the
    lower address, found by a linear scan. *)
Definition rank (l : list Validator) (i : Z) : Z * bytes :=
  match l !! Z.to_nat i with Some v => (val_Accum v, val_Address v) | None => (0, []) end.
Definition before (p q : Z * bytes) : bool :=
  (q.1 <? p.1) || ((p.1 =? q.1) && match bytes_compare p.2 q.2 with Lt => true | _ => false end).
Definition ranksBefore (l : list Validator) (i j : Z) : bool := before (rank l i) (rank l j).

Definition findMost (l : list Validator) : Z :=
  foldl (fun m i => if ranksBefore l i m then i else m) 0 (seqZ 1 (zlen l - 1)).

(** One turn: the first validator pays the total and is the proposer. *)
Definition rotStep (total : Z) (st : list Validator * option Validator) : list Validator * option Validator :=
  match st.1 !! Z.to_nat (findMost st.1) with
  | None => st
  | Some v => let v := setAccum v (safeSubClip (val_Accum v) total) in
              (<[Z.to_nat (findMost st.1) := v]> st.1, Some v)
  end.

Definition addPower (times : Z) (v : Validator) : Validator :=
  setAccum v (safeAddClip (val_Accum v) (safeMulClip (val_VotingPower v) times)).

Definition rotate (vs : ValidatorSet) (times : Z) (n : nat) : list Validator * option Validator :=
  Nat.iter n (rotStep (totalPower vs)) (addPower times <$> Validators vs, Proposer vs).

Definition IncrementAccum_ref (vs : ValidatorSet) (times : Z) : ValidatorSet :=
  let r := rotate vs times (Z.to_nat times) in mkValidatorSet r.1 r.2 (totalPower vs).

Lemma before_order :
  (forall p, before p p = false) /\
  (forall p q r, before p q = true -> before q r = true -> before p r = true) /\
  (forall p q r, before p r = true -> before p q = true \/ before q r = true).
Proof.
  assert (Hb : forall p q, before p q = true <-> q.1 < p.1 \/ p.1 = q.1 /\ bytes_lt p.2 q.2).
  { intros p q. unfold before. rewrite orb_true_iff, andb_true_iff, Z.ltb_lt, Z.eqb_eq. unfold bytes_lt.
    destruct (bytes_compare p.2 q.2); intuition congruence. }
  split_and!.
  - intros p. destruct (before p p) eqn:E; [|done]. apply Hb in E as [|[_ E]]; [lia|by apply bytes_lt_irrefl in E].
  - intros p q r. rewrite !Hb. intros [?|[? H1]] [?|[? H2]]; [left; lia..|]. right. split; [lia|].
    by eapply bytes_compare_trans.
  - intros p q r. rewrite !Hb. intros Hpr.
    destruct (Z.lt_trichotomy p.1 q.1) as [?|[?|?]]; [right|..|left; by left].
    + left. lia.
    + destruct Hpr as [?|[? Hlt]]; [right; left; lia|]. destruct (Z.eq_dec q.1 r.1); [|left; lia].
      destruct (bytes_lt_total p.2 q.2) as [?|[Heq|?]]; [left; right; by split|..].
      * right. right. split; [done|]. by rewrite <- Heq.
      * right. right. split; [done|]. by eapply bytes_compare_trans.
Qed.

Definition inRange (n : Z) (i j : Z) : Prop := 0 <= i < n /\ 0 <= j < n /\ i <> j.

Lemma rank_at l i : 0 <= i < zlen l -> exists v, l !! Z.to_nat i = Some v /\ idx l i = Ret v /\ rank l i = (val_Accum v, val_Address v).
Proof.
  intros Hi. destruct (idx_total l i Hi) as (v & E & Hv). exists v. split; [done|]. split; [done|].
  unfold rank. by rewrite Hv.
Qed.

Lemma accumLess_spec l i j : addrSorted l -> inRange (zlen l) i j -> accumLess l i j = Ret (ranksBefore l i j).
Proof.
  intros Hs (Hi & Hj & Hij). unfold accumLess, ranksBefore, before.
  destruct (rank_at l i Hi) as (v & Lv & -> & ->), (rank_at l j Hj) as (w & Lw & -> & ->). cbn [mbind go_mbind fst snd].
  assert (Hne : val_Address v <> val_Address w).
  { intros E. pose proof (addrSorted_inj l _ _ v w Hs Lv Lw E). lia. }
  unfold CompareAccum.
  destruct (Z.ltb_spec (val_Accum w) (val_Accum v)); cbn [orb].
  { cbn [mbind go_mbind]. by rewrite bytes_eqb_refl. }
  destruct (Z.ltb_spec (val_Accum v) (val_Accum w)).
  { rewrite (proj2 (Z.eqb_neq _ _)) by lia. cbn [mbind go_mbind andb]. f_equal. apply bytes_eqb_false. congruence. }
  rewrite (proj2 (Z.eqb_eq _ _)) by lia. cbn [andb]. destruct (bytes_compare _ _) eqn:E; cbn [mbind go_mbind].
  - by apply bytes_compare_eq in E.
  - by rewrite bytes_eqb_refl.
  - f_equal. apply bytes_eqb_false. congruence.
Qed.

(** No validator ranks before [m]. *)
Definition isMost (l : list Validator) (m : Z) : Prop :=
  0 <= m < zlen l /\ forall j, 0 <= j < zlen l -> ranksBefore l j m = false.

Lemma isMost_unique l m m' : addrSorted l -> isMost l m -> isMost l m' -> m = m'.
Proof.
  intros Hs [Hm H1] [Hm' H2]. destruct (Z.eq_dec m m') as [|Hne]; [done|]. exfalso.
  specialize (H1 m' Hm'). specialize (H2 m Hm). unfold ranksBefore, before in *.
  destruct (rank_at l m Hm) as (v & Lv & _ & Ev), (rank_at l m' Hm') as (w & Lw & _ & Ew).
  rewrite Ev, Ew in *. cbn [fst snd] in *. rewrite (bytes_compare_antisym (val_Address v)) in H1.
  destruct (Z.ltb_spec (val_Accum v) (val_Accum w)), (Z.ltb_spec (val_Accum w) (val_Accum v)); try done.
  rewrite (proj2 (Z.eqb_eq _ _)) in H1 by lia. rewrite (proj2 (Z.eqb_eq _ _)) in H2 by lia. cbn in H1, H2.
  destruct (bytes_compare _ _) eqn:E; [|done|done]. apply bytes_compare_eq in E.
  pose proof (addrSorted_inj l _ _ v w Hs Lv Lw E). lia.
Qed.

Lemma findMost_isMost l : l <> [] -> isMost l (findMost l).
Proof.
  intros Hne. destruct before_order as (H1 & H2 & H3).
  assert (Hpos : 1 <= zlen l) by (destruct l; [done|unfold zlen; cbn; lia]).
  assert (Hgen : forall ks m, (forall k, k ∈ ks -> 0 <= k < zlen l) -> 0 <= m < zlen l ->
    let r := foldl (fun m i => if ranksBefore l i m then i else m) m ks in
    0 <= r < zlen l /\ ranksBefore l m r = false /\ forall k, k ∈ ks -> ranksBefore l k r = false).
  { induction ks as [|k ks IH]; intros m Hks Hm; cbn; [split_and!; [lia|lia|apply H1|intros k Hk; by apply elem_of_nil in Hk]|].
    destruct (ranksBefore l k m) eqn:E.
    - destruct (IH k) as (R1 & R2 & R3); [intros; apply Hks; by right|apply Hks; by left|].
      split; [done|]. split; [|intros x [->|Hx]%elem_of_cons; [done|by apply R3]].
      apply not_true_is_false. intros Em. unfold ranksBefore in *. rewrite (H2 _ _ _ E Em) in R2. done.
    - destruct (IH m) as (R1 & R2 & R3); [intros; apply Hks; by right|done|].
      split; [done|]. split; [done|]. intros x [->|Hx]%elem_of_cons; [|by apply R3].
      apply not_true_is_false. intros Ek. unfold ranksBefore in *.
      destruct (H3 _ (rank l m) _ Ek); congruence. }
  destruct (Hgen (seqZ 1 (zlen l - 1)) 0) as (R1 & R2 & R3); [intros k Hk%elem_of_seqZ; lia|lia|].
  split; [done|]. intros j Hj. destruct (Z.eq_dec j 0) as [->|]; [done|]. apply R3, elem_of_seqZ. lia.
Qed.

(** What the accumulators do not change. *)
Definition ids (l : list Validator) : list (bytes * option PubKey * Z) :=
  (fun v => (val_Address v, val_PubKey v, val_VotingPower v)) <$> l.

Lemma ids_lookup l k : ids l !! k = (fun v => (val_Address v, val_PubKey v, val_VotingPower v)) <$> (l !! k).
Proof. apply list_lookup_fmap. Qed.

Lemma ids_insert l i v a : l !! i = Some v -> ids (<[i := setAccum v a]> l) = ids l.
Proof. intros Hi. unfold ids. rewrite list_fmap_insert. apply list_insert_id. rewrite list_lookup_fmap, Hi. done. Qed.

Lemma ids_sorted l l' : ids l' = ids l -> addrSorted l -> addrSorted l'.
Proof.
  intros E Hs. apply addrSorted_intro. intros i j a b Hij Ha Hb.
  pose proof (ids_lookup l' i) as Ei. pose proof (ids_lookup l' j) as Ej.
  rewrite E, ids_lookup, Ha in Ei. rewrite E, ids_lookup, Hb in Ej.
  destruct (l !! i) as [a'|] eqn:Ea; [|done]. destruct (l !! j) as [b'|] eqn:Eb; [|done].
  injection Ei as Ei _. injection Ej as Ej _.
  pose proof (addrSorted_lookup l i j a' b' Hs Hij Ea Eb) as Hlt. unfold addrLt in *. congruence.
Qed.

Lemma ids_length l l' : ids l' = ids l -> length l' = length l.
Proof. intros E. apply (f_equal length) in E. unfold ids in E. by rewrite !length_fmap in E. Qed.

Lemma foldl_power_ids l t : foldl (fun t v => safeAddClip t (val_VotingPower v)) t l =
  foldl (fun t x => safeAddClip t x.2) t (ids l).
Proof. revert t. induction l as [|v l IH]; intros t; cbn; [done|]. apply IH. Qed.

Lemma totalPower_ids vs l p c : ids l = ids (Validators vs) -> c = totalVotingPower vs \/ c = totalPower vs ->
  totalPower (mkValidatorSet l p c) = totalPower vs.
Proof.
  intros E Hc. unfold totalPower, TotalVotingPower in *; cbn in *.
  assert (Hf : foldl (fun t v => safeAddClip t (val_VotingPower v)) 0 l =
               foldl (fun t v => safeAddClip t (val_VotingPower v)) 0 (Validators vs)) by (by rewrite !foldl_power_ids, E).
  destruct (Z.eqb_spec (totalVotingPower vs) 0) as [E0|E0].
  - rewrite E0 in *. destruct Hc as [->| ->]; [done|]. destruct (Z.eqb_spec (foldl (fun t v => safeAddClip t (val_VotingPower v)) 0 (Validators vs)) 0) as [E1|E1]; [|done].
    by rewrite E1, Hf.
  - destruct Hc as [->| ->]; by rewrite (proj2 (Z.eqb_neq _ _)).
Qed.

Definition pairs (n : Z) : list (Z * Z) := (fun k => (k, k)) <$> seqZ 0 n.

(** A heap of the first [n] validators of [l], ordered by their rank in it. *)
Definition heapOf (l : list Validator) (n : Z) (h : list (Heap.pqItem Z Z)) : Prop :=
  Heap.queueInv (ranksBefore l) (inRange (zlen l)) h /\ Heap.entries h ≡ₚ pairs n.

Lemma heapOf_entry l n h k it : heapOf l n h -> h !! k = Some it ->
  0 <= Heap.priority it < n /\ Heap.value it = Heap.priority it.
Proof.
  intros [_ Hp] Hk. assert (Hin : Heap.entry it ∈ pairs n).
  { rewrite <- Hp. unfold Heap.entries. apply list_elem_of_lookup. exists k. by rewrite list_lookup_fmap, Hk. }
  apply list_elem_of_fmap in Hin as (x & E & Hx). unfold Heap.entry in E. injection E as E1 E2.
  apply elem_of_seqZ in Hx. split; lia.
Qed.

Lemma heapOf_prio l n h k p : heapOf l n h -> Heap.prio h k = Some p -> 0 <= p < n.
Proof.
  intros Hh Hp. unfold Heap.prio in Hp. destruct (h !! k) as [it|] eqn:E; [|done]. injection Hp as <-.
  by apply (heapOf_entry l n h k it).
Qed.

(** Changing a validator outside the heap keeps it. *)
Lemma heapOf_change l n h v i : heapOf l n h -> n <= i -> 0 <= n -> heapOf (<[Z.to_nat i := v]> l) n h.
Proof.
  intros Hh Hi Hn. pose proof Hh as [Hq Hp]. split; [|done]. rewrite zlen_insert.
  eapply Heap.queueInv_ext; [|exact Hq]. intros a b p q Ha Hb.
  apply (heapOf_prio l n) in Ha, Hb; [|done..]. unfold ranksBefore, rank.
  by rewrite !list_lookup_insert_ne by lia.
Qed.

Lemma pairs_S n : 0 <= n -> pairs (n + 1) ≡ₚ (n, n) :: pairs n.
Proof.
  intros Hn. unfold pairs. rewrite seqZ_app, fmap_app by lia. cbn. rewrite Z.add_0_l.
  by rewrite Permutation_app_comm.
Qed.

Lemma pushLoop_spec times l : addrSorted l ->
  exists h, go_for 0 (zlen l) (incrPush times) (l, Heap.NewHeap) = Ret (addPower times <$> l, h) /\
    heapOf (addPower times <$> l) (zlen l) h.
Proof.
  intros Hs. destruct before_order as (O1 & O2 & O3).
  destruct (go_for_inv (fun i st => ids st.1 = ids l /\
      (forall k, st.1 !! k = if decide (Z.of_nat k < i) then addPower times <$> (l !! k) else l !! k) /\
      heapOf st.1 i st.2) 0 (zlen l) (incrPush times) (l, Heap.NewHeap)) as ([l' h] & E & _ & Hl & Hh).
  - apply zlen_nonneg.
  - cbn. split; [done|]. split; [intros k; by rewrite decide_False by lia|]. split; [apply Heap.queueInv_new|done].
  - intros i [m h] Hi (Hid & Hm & Hh). cbn [fst snd] in *. unfold incrPush.
    pose proof (ids_length _ _ Hid) as Hlen.
    destruct (idx_total m i) as (v & -> & Lv); [unfold zlen in *; lia|]. cbn [mbind go_mbind].
    rewrite upd_ret by (unfold zlen in *; lia). cbn [mbind go_mbind].
    fold (addPower times v). set (m' := <[Z.to_nat i := addPower times v]> m).
    assert (Hid' : ids m' = ids l) by (unfold m', addPower; by rewrite ids_insert).
    assert (Hs' : addrSorted m') by by apply (ids_sorted l).
    pose proof (ids_length _ _ Hid') as Hlen'.
    pose proof (heapOf_change m i h (addPower times v) i Hh ltac:(lia) ltac:(lia)) as Hh'. fold m' in Hh'.
    destruct (Heap.PushComparable_spec (accumLess m') (ranksBefore m') (inRange (zlen m'))
      (fun p q => accumLess_spec m' p q Hs') (fun p => O1 _) (fun p q r => O2 _ _ _) (fun p q r => O3 _ _ _) h i i) as (h' & -> & Hq & Hp).
    { apply Hh'. }
    { intros k q Hk. apply (heapOf_prio m' i) in Hk; [|done]. unfold inRange, zlen in *. lia. }
    cbn [mbind go_mbind]. eexists. split; [done|]. cbn [fst snd]. split; [done|]. split.
    + intros k. unfold m'. destruct (decide (k = Z.to_nat i)) as [->|Hne].
      * rewrite list_lookup_insert_eq by (unfold zlen in *; lia). rewrite decide_True by lia.
        rewrite Hm, decide_False in Lv by lia. by rewrite Lv.
      * rewrite list_lookup_insert_ne by done. rewrite Hm. repeat case_decide; try done; lia.
    + split; [done|]. rewrite Hp, pairs_S by lia. by rewrite (proj2 Hh).
  - cbn [fst snd] in *. assert (l' = addPower times <$> l) as ->.
    { apply list_eq. intros k. rewrite Hl, list_lookup_fmap. case_decide; [done|].
      rewrite lookup_ge_None_2 by (unfold zlen in *; lia). done. }
    by exists h.
Qed.

Lemma heapOf_root l h : l <> [] -> addrSorted l -> heapOf l (zlen l) h ->
  exists it h', h = it :: h' /\ Heap.value it = findMost l /\ Heap.priority it = findMost l.
Proof.
  intros Hne Hs Hh. destruct before_order as (O1 & O2 & O3). pose proof Hh as [Hq Hp].
  assert (Hlen : length h = length l).
  { apply Permutation_length in Hp. unfold Heap.entries, pairs in Hp. rewrite !length_fmap, length_seqZ in Hp. unfold zlen in Hp. lia. }
  destruct h as [|it h']; [destruct l; done|]. exists it, h'. split; [done|].
  destruct (heapOf_entry l (zlen l) (it :: h') 0 it Hh eq_refl) as [Hr Hv].
  assert (Heap.priority it = findMost l) as E; [|split; congruence].
  apply (isMost_unique l); [done| |by apply findMost_isMost].
  split; [done|]. intros j Hj.
  assert (Hin : (j, j) ∈ Heap.entries (it :: h')).
  { rewrite Hp. unfold pairs. apply (list_elem_of_fmap_2 (fun k => (k, k))). apply elem_of_seqZ. lia. }
  apply list_elem_of_lookup in Hin as [k Hk]. unfold Heap.entries in Hk. rewrite list_lookup_fmap in Hk.
  destruct ((it :: h') !! k) as [x|] eqn:Ex; [|done]. injection Hk as _ Hj'.
  eapply (Heap.root_least (ranksBefore l) (fun p => O1 _) (fun p q r => O3 _ _ _) (it :: h') (Heap.priority it)
    (proj2 (proj2 Hq)) eq_refl k).
  unfold Heap.prio. rewrite Ex. cbn. by rewrite Hj'.
Qed.

(** After the root's validator pays, [Update] restores the heap. *)
Lemma heapOf_update l v' it h : addrSorted l -> heapOf l (zlen l) (it :: h) ->
  let m := Heap.priority it in let l' := <[Z.to_nat m := v']> l in
  Heap.value it = m -> addrSorted l' ->
  exists h', Heap.Update (accumLess l') (it :: h) m m = Ret h' /\ heapOf l' (zlen l') h'.
Proof.
  intros Hs Hh m l' Hv Hs'. destruct before_order as (O1 & O2 & O3). pose proof Hh as [Hq Hp].
  assert (Hzl : zlen l' = zlen l) by apply zlen_insert.
  pose proof (heapOf_entry l (zlen l) (it :: h) 0 it Hh eq_refl) as [Hr _]. fold m in Hr.
  assert (Hprio : forall k, Heap.prio (Heap.mkItem m m 0 :: h) k = Heap.prio (it :: h) k) by (by intros [|k]).
  destruct Hq as (Hidx & Hc & Ho).
  assert (Hnm : forall k p, (0 < k)%nat -> Heap.prio (it :: h) k = Some p -> p <> m).
  { intros k p Hk Hpk ->. destruct (Hc 0%nat k m m) as (_ & _ & E); [lia|done|done|done]. }
  destruct (Heap.Update_spec (accumLess l') (ranksBefore l') (inRange (zlen l'))
    (fun p q => accumLess_spec l' p q Hs') (fun p => O1 _) (fun p q r => O2 _ _ _) (fun p q r => O3 _ _ _) it h m m)
    as (h' & E & Hq' & Hp').
  - done.
  - intros i j p q Hij. rewrite !Hprio, Hzl. by apply Hc.
  - split; [|lia]. intros k Hk Hpk a b. rewrite !Hprio. intros Ha Hb.
    pose proof (Heap.parent_lt k ltac:(lia)).
    assert (Heap.le (ranksBefore l) a b) as Hle by (apply (Ho k); [lia|done|done]).
    unfold Heap.le, ranksBefore, rank, l' in *.
    pose proof (heapOf_prio l (zlen l) _ _ _ Hh Ha). pose proof (heapOf_prio l (zlen l) _ _ _ Hh Hb).
    pose proof (Hnm (Heap.parent k) a ltac:(lia) Ha). pose proof (Hnm k b ltac:(lia) Hb).
    by rewrite !list_lookup_insert_ne by lia.
  - exists h'. split; [done|]. split; [done|]. rewrite Hp', Hzl, <- Hp. unfold Heap.entries; cbn.
    unfold Heap.entry at 2. by rewrite Hv.
Qed.

Lemma rotStep_ids total st : ids (rotStep total st).1 = ids st.1.
Proof.
  unfold rotStep. destruct (st.1 !! _) eqn:E; [|done]. by apply ids_insert.
Qed.

Lemma rotate_ids vs times n : ids (rotate vs times n).1 = ids (Validators vs).
Proof.
  unfold rotate. induction n as [|n IH]; [|rewrite Nat.iter_succ, rotStep_ids; exact IH].
  cbn. unfold ids, addPower. rewrite <- list_fmap_compose. done.
Qed.

Lemma rotate_S vs times n : rotate vs times (S n) = rotStep (totalPower vs) (rotate vs times n).
Proof. unfold rotate. apply Nat.iter_succ. Qed.

(** The state of the second loop after [i] turns. *)
Definition pickInv (vs0 : ValidatorSet) (times i : Z) (st : ValidatorSet * list (Heap.pqItem Z Z)) : Prop :=
  Validators st.1 = (rotate vs0 times (Z.to_nat i)).1 /\
  (totalVotingPower st.1 = totalVotingPower vs0 \/ totalVotingPower st.1 = totalPower vs0) /\
  (0 < i -> totalVotingPower st.1 = totalPower vs0) /\
  (i < times -> heapOf (Validators st.1) (zlen (Validators st.1)) st.2) /\
  (i = times -> Proposer st.1 = (rotate vs0 times (Z.to_nat i)).2).

Lemma incrPick_spec vs0 times i st : Validators vs0 <> [] -> addrSorted (Validators vs0) ->
  0 <= i < times -> pickInv vs0 times i st ->
  exists st', incrPick times i st = Ret st' /\ pickInv vs0 times (i + 1) st'.
Proof.
  intros Hne Hs Hi (Hv & Hc & _ & Hh & _). destruct st as [vs h]. cbn [fst snd] in *.
  pose proof (rotate_ids vs0 times (Z.to_nat i)) as Hid. rewrite <- Hv in Hid.
  pose proof (ids_sorted _ _ Hid Hs) as Hs'. pose proof (ids_length _ _ Hid) as Hlen.
  assert (Hne' : Validators vs <> []) by (destruct (Validators vs), (Validators vs0); done).
  specialize (Hh ltac:(lia)). destruct (heapOf_root _ h Hne' Hs' Hh) as (it & h' & -> & Evl & Epr).
  destruct (findMost_isMost (Validators vs) Hne') as [Hm _].
  set (m := findMost (Validators vs)) in *.
  assert (Htot : (TotalVotingPower vs).2 = totalPower vs0).
  { change (totalPower vs = totalPower vs0). destruct vs as [l p c]. by apply (totalPower_ids vs0 l p c). }
  unfold incrPick. cbn [Heap.Peek]. rewrite Evl.
  destruct (TotalVotingPower vs) as [vs1 total] eqn:Etv. cbn [snd] in Htot. subst total.
  assert (vs1 = mkValidatorSet (Validators vs) (Proposer vs) (totalPower vs0)) as ->.
  { unfold TotalVotingPower in Etv. injection Etv as <- <-. done. }
  cbn [Validators Proposer totalVotingPower].
  destruct (idx_total (Validators vs) m Hm) as (v & -> & Lv). cbn [mbind go_mbind].
  rewrite upd_ret by done. cbn [mbind go_mbind].
  set (v' := setAccum v (safeSubClip (val_Accum v) (totalPower vs0))).
  assert (Hstep : rotate vs0 times (Z.to_nat (i + 1)) = (<[Z.to_nat m := v']> (Validators vs), Some v')).
  { replace (Z.to_nat (i + 1)) with (S (Z.to_nat i)) by lia. rewrite rotate_S. unfold rotStep.
    rewrite <- Hv. fold m. by rewrite Lv. }
  destruct (Z.eqb_spec i (times - 1)) as [El|El].
  - eexists. split; [done|]. unfold pickInv. cbn [fst snd Validators Proposer totalVotingPower].
    rewrite Hstep. split_and!; [done|by right|done|lia|done].
  - destruct (heapOf_update (Validators vs) v' it h' Hs' Hh) as (h2 & E & Hh2); [congruence| |].
    { rewrite Epr. eapply ids_sorted; [|exact Hs']. by apply ids_insert. }
    rewrite Epr in E, Hh2. rewrite E. cbn [mbind go_mbind].
    eexists. split; [done|]. unfold pickInv. cbn [fst snd Validators Proposer totalVotingPower].
    rewrite Hstep. split_and!; [done|by right|done|done|lia].
Qed.

Lemma IncrementAccum_spec vs times : Validators vs <> [] -> addrSorted (Validators vs) -> 1 <= times ->
  IncrementAccum vs times = Ret (IncrementAccum_ref vs times).
Proof.
  intros Hne Hs Ht. unfold IncrementAccum.
  destruct (pushLoop_spec times (Validators vs) Hs) as (h & -> & Hh). cbn [mbind go_mbind].
  destruct (go_for_inv (pickInv vs times) 0 times (incrPick times)
    (mkValidatorSet (addPower times <$> Validators vs) (Proposer vs) (totalVotingPower vs), h)) as (st & -> & Hi).
  - lia.
  - split_and!; [done|by left|lia| |lia]. intros _. cbn [fst snd Validators].
    assert (zlen (addPower times <$> Validators vs) = zlen (Validators vs)) as ->; [|done].
    unfold zlen. by rewrite length_fmap.
  - intros i s Hir Hinv. by apply incrPick_spec.
  - cbn [mbind go_mbind]. destruct Hi as (Hv & _ & Hc & _ & Hp). destruct st as [[l p c] h']. cbn [fst Validators Proposer totalVotingPower] in *.
    unfold IncrementAccum_ref. rewrite Hv, Hp, Hc by lia. done.
Qed.

(** The rotation sees of the cache only that it is right, and fills it. *)
Lemma rotation_same vs vs' : cacheOK vs -> cacheOK vs' -> Validators vs' = Validators vs -> Validators vs <> [] ->
  IncrementAccum_ref vs' 1 = IncrementAccum_ref vs 1.
Proof.
  intros Hc Hc' Hv Hne. assert (Hm : isMost (addPower 1 <$> Validators vs) (findMost (addPower 1 <$> Validators vs))) by (apply findMost_isMost; by destruct (Validators vs)).
  destruct Hm as [Hm _]. unfold zlen in Hm.
  destruct (lookup_lt_is_Some_2 (addPower 1 <$> Validators vs) (Z.to_nat (findMost (addPower 1 <$> Validators vs)))) as [v Ev]; [lia|].
  assert (Hr : forall total p, rotStep total (addPower 1 <$> Validators vs, p) = rotStep total (addPower 1 <$> Validators vs, None)) by (intros total p; unfold rotStep; cbn [fst]; by rewrite Ev).
  unfold IncrementAccum_ref, rotate. rewrite (totalPower_fold vs), (totalPower_fold vs'), Hv by done.
  change (Z.to_nat 1) with 1%nat. change (Nat.iter 1 ?f ?x) with (f x). cbv beta. by rewrite (Hr _ (Proposer vs)), (Hr _ (Proposer vs')).
Qed.
Lemma rotation_cacheOK vs times : cacheOK vs -> cacheOK (IncrementAccum_ref vs times).
Proof.
  intros Hc. right. unfold IncrementAccum_ref. cbn [totalVotingPower Validators]. rewrite totalPower_fold by done.
  rewrite !foldl_power_ids. by rewrite rotate_ids.
Qed.

(** ** NewValidatorSet *)

Lemma byAddress_true a b : byAddress a b = true <-> addrLt a b.
Proof. unfold byAddress, addrLt, bytes_lt. destruct (bytes_compare _ _); naive_solver. Qed.

Lemma byAddress_false a b : byAddress b a = false <-> addrLt a b \/ val_Address a = val_Address b.
Proof.
  assert (Hx : byAddress b a = false <-> ~ addrLt b a) by (rewrite <- byAddress_true; by destruct (byAddress b a)).
  rewrite Hx. unfold addrLt. destruct (bytes_lt_total (val_Address a) (val_Address b)) as [Hl|[He|Hl]]; split; try tauto.
  - intros _ Hg. apply (addrLt_irrefl a). by eapply addrLt_trans.
  - intros _. rewrite He. apply addrLt_irrefl.
  - intros [Hg|He] _; [|rewrite He in Hl]; [apply (addrLt_irrefl a); by eapply addrLt_trans|by apply (addrLt_irrefl b)].
Qed.

Lemma isort_addrSorted l : NoDup (val_Address <$> l) -> addrSorted (isort byAddress l).
Proof.
  intros Hnd. rewrite <- (isort_perm byAddress l) in Hnd.
  assert (Hso : sortedBy byAddress (isort byAddress l)).
  { apply isort_sorted.
    - intros x y Hxy%byAddress_true. apply byAddress_false. by left.
    - intros x y z Hxy%byAddress_false Hyz%byAddress_false. apply byAddress_false.
      destruct Hxy as [Hxy|Hxy], Hyz as [Hyz|Hyz]; unfold addrLt in *; [left; by eapply addrLt_trans|..]; rewrite ?Hxy in *; rewrite <- ?Hyz; auto. }
  unfold sortedBy, addrSorted in *. induction Hso as [|x k Hk IH Hf]; [constructor|].
  rewrite fmap_cons in Hnd. apply NoDup_cons in Hnd as [Hx Hnd]. constructor; [by apply IH|].
  rewrite Forall_forall in *. intros y Hy. destruct (proj1 (byAddress_false x y) (Hf y Hy)) as [|E]; [done|].
  destruct Hx. rewrite E. apply list_elem_of_fmap. eauto.
Qed.

Lemma NewValidatorSet_spec l : l <> [] -> NoDup (val_Address <$> l) ->
  exists vs, NewValidatorSet (Some l) = Ret vs /\ addrSorted (Validators vs) /\ ids (Validators vs) ≡ₚ ids l.
Proof.
  intros Hne Hnd. unfold NewValidatorSet. cbn [default].
  pose proof (isort_addrSorted l Hnd) as Hs. pose proof (isort_perm byAddress l) as Hp.
  set (vs0 := mkValidatorSet (isort byAddress l) None 0).
  assert (Hne0 : Validators vs0 <> []).
  { cbn. intros E. rewrite E in Hp. apply Hne. symmetry. by apply Permutation_nil_l. }
  exists (IncrementAccum_ref vs0 1). split; [by apply IncrementAccum_spec|].
  assert (Hids : ids (Validators (IncrementAccum_ref vs0 1)) = ids (isort byAddress l)) by apply (rotate_ids vs0).
  split; [by eapply ids_sorted|]. rewrite Hids. unfold ids. by rewrite Hp.
Qed.

(** ** Commits *)

Section VerifyCommitSpec.
Context `{Codec} `{Curves}.

(** Verifying does not depend on whether the cache is filled. *)
Lemma VerifyCommit_uncached vs chainID blockID height commit : cacheOK vs ->
  VerifyCommit (uncached vs) chainID blockID height commit = VerifyCommit vs chainID blockID height commit.
Proof.
  intros Hc. assert (Hl : forall l i t, verifyLoop (uncached vs) chainID blockID height (Commit_Round commit) i l t = verifyLoop vs chainID blockID height (Commit_Round commit) i l t).
  { induction l as [|p l IH]; intros i t; [done|]. cbn [verifyLoop]. change (verifyPrecommit (uncached vs)) with (verifyPrecommit vs). destruct (verifyPrecommit _ _ _ _ _ _ _ _) as [[e|x]|]; [done| |done]. apply IH. }
  unfold VerifyCommit. rewrite Hl, (totalPower_fold vs Hc), (totalPower_fold (uncached vs)) by by left. done.
Qed.

(** A precommit of the commit, checked against the validator at its index. *)
Definition precommitOK (chainID : bytes) (height round : Z) (x : Validator * option Vote) : Prop :=
  match x.2 with
  | None => True
  | Some p => v_Height p = height /\ v_Round p = round /\ v_Type p = VoteTypePrecommit /\
              exists pk, val_PubKey x.1 = Some pk /\ VerifyBytes pk (Vote_SignBytes chainID p) (v_Signature p) = true
  end.

(** The power a precommit adds for [blockID]. *)
Definition powerFor (blockID : BlockID) (x : Validator * option Vote) : Z :=
  match x.2 with
  | None => 0
  | Some p => if BlockID_Equals blockID (v_BlockID p) then val_VotingPower x.1 else 0
  end.

Definition committedPower (vs : ValidatorSet) (blockID : BlockID) (commit : Commit) : Z :=
  sumZ (powerFor blockID) (zip (Validators vs) (c_Precommits commit)).

Lemma powerFor_bounds blockID l ps : Forall (fun v => 0 <= val_VotingPower v) l ->
  0 <= sumZ (powerFor blockID) (zip l ps) <= sumZ val_VotingPower l.
Proof.
  revert ps. induction l as [|v l IH]; intros ps Hf; [done|].
  apply Forall_cons in Hf as [Hv Hf]. assert (0 <= sumZ val_VotingPower l) by (apply sumZ_nonneg; by apply Forall_forall).
  destruct ps as [|p ps]; cbn [zip zip_with].
  - rewrite sumZ_cons. change (sumZ _ []) with 0. lia.
  - rewrite !sumZ_cons. specialize (IH ps Hf). unfold powerFor at 1 3; cbn.
    destruct p as [p|]; [destruct (BlockID_Equals _ _)|]; lia.
Qed.

Lemma GetByIndex_at vs k v : Validators vs !! k = Some v -> GetByIndex vs (Z.of_nat k) = Some (val_Address v, v).
Proof.
  intros Hv. pose proof (lookup_lt_Some _ _ _ Hv). unfold GetByIndex, zlen.
  rewrite (proj2 (Z.ltb_ge _ _)), (proj2 (Z.leb_gt _ _)) by lia. cbn. by rewrite Nat2Z.id, Hv.
Qed.

Lemma verifyLoop_spec vs chainID blockID height round k ps t :
  Forall (fun v => 0 <= val_VotingPower v) (drop k (Validators vs)) ->
  Forall (fun v => val_PubKey v <> None) (drop k (Validators vs)) ->
  (length ps = length (Validators vs) - k)%nat -> 0 <= t ->
  t + sumZ val_VotingPower (drop k (Validators vs)) <= MaxInt64 ->
  exists r, verifyLoop vs chainID blockID height round (Z.of_nat k) ps t = Ret r /\
    match r with
    | inr x => Forall (precommitOK chainID height round) (zip (drop k (Validators vs)) ps) /\
               x = t + sumZ (powerFor blockID) (zip (drop k (Validators vs)) ps)
    | inl _ => ~ Forall (precommitOK chainID height round) (zip (drop k (Validators vs)) ps)
    end.
Proof.
  revert k t. induction ps as [|p ps IH]; intros k t Hf Hpk Hl Ht Hs; cbn [verifyLoop].
  { eexists. split; [done|]. cbv beta iota. rewrite zip_with_nil_r. split; [constructor|change (sumZ _ []) with 0; lia]. }
  cbn in Hl. destruct (lookup_lt_is_Some_2 (Validators vs) k ltac:(lia)) as [v Hv].
  rewrite (drop_S _ _ _ Hv) in *. apply Forall_cons in Hf as [Hv0 Hf], Hpk as [Hk0 Hpk].
  rewrite sumZ_cons in Hs.
  assert (Hn : 0 <= sumZ val_VotingPower (drop (S k) (Validators vs))) by (apply sumZ_nonneg; by apply Forall_forall).
  replace (Z.of_nat k + 1) with (Z.of_nat (S k)) by lia. cbn [zip_with].
  assert (Hnext : forall t', 0 <= t' -> t' <= t + val_VotingPower v ->
    t' = t + powerFor blockID (v, p) -> precommitOK chainID height round (v, p) ->
    exists r, verifyLoop vs chainID blockID height round (Z.of_nat (S k)) ps t' = Ret r /\
    match r with
    | inr x => Forall (precommitOK chainID height round) ((v, p) :: zip (drop (S k) (Validators vs)) ps) /\
               x = t + sumZ (powerFor blockID) ((v, p) :: zip (drop (S k) (Validators vs)) ps)
    | inl _ => ~ Forall (precommitOK chainID height round) ((v, p) :: zip (drop (S k) (Validators vs)) ps)
    end).
  { intros t' Ht' Hle Hp Hok. destruct (IH (S k) t') as (r & E & Hr); [done|done|lia|done|lia|].
    exists r. split; [done|]. destruct r as [e|x].
    - rewrite Forall_cons. tauto.
    - rewrite Forall_cons, sumZ_cons. destruct Hr as [? ->]. split; [done|lia]. }
  assert (Hbad : ~ precommitOK chainID height round (v, p) ->
    ~ Forall (precommitOK chainID height round) ((v, p) :: zip (drop (S k) (Validators vs)) ps)).
  { intros Hno [? _]%Forall_cons. done. }
  unfold verifyPrecommit. destruct p as [p|]; cbn [mbind go_mbind].
  2:{ apply Hnext; [lia|lia|unfold powerFor; cbn; lia|done]. }
  destruct (Z.eqb_spec (v_Height p) height) as [E1|E1]; cbn [negb].
  2:{ eexists. split; [done|]. apply Hbad. unfold precommitOK. cbn. tauto. }
  destruct (Z.eqb_spec (v_Round p) round) as [E2|E2]; cbn [negb].
  2:{ eexists. split; [done|]. apply Hbad. unfold precommitOK. cbn. tauto. }
  destruct (Z.eqb_spec (v_Type p) VoteTypePrecommit) as [E3|E3]; cbn [negb].
  2:{ eexists. split; [done|]. apply Hbad. unfold precommitOK. cbn. tauto. }
  rewrite (GetByIndex_at vs k v Hv). destruct (val_PubKey v) as [pk|] eqn:Epk; [|done]. cbn [deref mbind go_mbind].
  destruct (VerifyBytes _ _ _) eqn:E4; cbn [negb].
  2:{ eexists. split; [done|]. apply Hbad. unfold precommitOK. cbn. rewrite Epk. intros (_ & _ & _ & pk' & [= <-] & ?). congruence. }
  destruct (BlockID_Equals _ _) eqn:E5; cbn [negb mbind go_mbind].
  - unfold add64. rewrite wrap64_small by (unfold_int64; lia).
    apply Hnext; [lia|lia|unfold powerFor; cbn; by rewrite E5|by split_and!; try exists pk].
  - apply Hnext; [lia|lia|unfold powerFor; cbn; rewrite E5; lia|by split_and!; try exists pk].
Qed.

Lemma VerifyCommit_spec vs chainID blockID height commit : valsOK vs -> cacheOK vs ->
  exists r, VerifyCommit vs chainID blockID height commit = Ret r /\
    (r = None <->
     length (c_Precommits commit) = length (Validators vs) /\ Commit_Height commit = height /\
     Forall (precommitOK chainID height (Commit_Round commit)) (zip (Validators vs) (c_Precommits commit)) /\
     2 * sumZ val_VotingPower (Validators vs) < 3 * committedPower vs blockID commit).
Proof.
  intros Hp Hc. pose proof Hp as (Hf & Hs & Hpk). pose proof (totalPower_sum vs Hp Hc) as Htot.
  assert (0 <= sumZ val_VotingPower (Validators vs)) by (apply sumZ_nonneg; by apply Forall_forall).
  unfold VerifyCommit, Size.
  destruct (Z.eqb_spec (zlen (Validators vs)) (zlen (c_Precommits commit))) as [El|El]; cbn [negb].
  2:{ eexists. split; [done|]. split; [done|]. unfold zlen in El. intros (E & _). lia. }
  destruct (Z.eqb_spec height (Commit_Height commit)) as [Eh|Eh]; cbn [negb].
  2:{ eexists. split; [done|]. split; [done|]. intros (_ & E & _). congruence. }
  destruct (verifyLoop_spec vs chainID blockID height (Commit_Round commit) 0 (c_Precommits commit) 0)
    as (r & E & Hr); [by rewrite drop_0|by rewrite drop_0|unfold zlen in El; lia|lia|rewrite drop_0; lia|].
  change (Z.of_nat 0) with 0 in E. rewrite E. cbn [mbind go_mbind]. rewrite drop_0 in Hr. destruct r as [e|x].
  - eexists. split; [done|]. split; [done|]. tauto.
  - destruct Hr as [Hok ->]. rewrite Z.add_0_l, Htot. unfold committedPower.
    pose proof (twoThirds_spec (sumZ val_VotingPower (Validators vs)) (sumZ (powerFor blockID) (zip (Validators vs) (c_Precommits commit))) ltac:(lia) ltac:(lia)).
    destruct (Z.ltb_spec (twoThirds (sumZ val_VotingPower (Validators vs))) (sumZ (powerFor blockID) (zip (Validators vs) (c_Precommits commit)))).
    + eexists. split; [done|]. split; [|done]. intros _. split_and!; [unfold zlen in El; lia|done|done|tauto].
    + eexists. split; [done|]. split; [done|]. intros (_ & _ & _ & ?). exfalso. lia.
Qed.
End VerifyCommitSpec.

(** ** Properties *)

Definition exampleVal (name : String.string) (power : Z) : Validator :=
  mkValidator (str name) (Some (PubKeyEd25519 (str name))) power 0.
Definition exampleSet : ValidatorSet :=
  mkValidatorSet [exampleVal "A" 5; exampleVal "B" 3; exampleVal "C" 2] None 0.

Lemma exampleSet_sorted : addrSorted (Validators exampleSet).
Proof. repeat constructor. Qed.

Lemma exampleSet_powers : valsOK exampleSet.
Proof. apply (bool_decide_unpack (valsOK exampleSet)). vm_compute. exact I. Qed.

(** The clipped arithmetic of the proposer rotation is saturating
    arithmetic: on every pair of [int64]s, sum, difference and product are the
    exact results clipped to the [int64] range, and nothing wraps around. *)
Theorem clip_arithmetic a b : int64 a -> int64 b ->
  safeAddClip a b = clip64 (a + b) /\ safeSubClip a b = clip64 (a - b) /\ safeMulClip a b = clip64 (a * b).
Proof. intros. split_and!; [by apply safeAddClip_clip|by apply safeSubClip_clip|by apply safeMulClip_clip]. Qed.

Lemma clip_arithmetic_witness : safeAddClip MaxInt64 MaxInt64 = MaxInt64 /\ safeMulClip MaxInt64 (-2) = MinInt64.
Proof.
  split.
  - exact (proj1 (clip_arithmetic MaxInt64 MaxInt64 ltac:(by unfold_int64) ltac:(by unfold_int64))).
  - exact (proj2 (proj2 (clip_arithmetic MaxInt64 (-2) ltac:(by unfold_int64) ltac:(by unfold_int64)))).
Defined.

(** C13: a set with strictly increasing addresses is a finite map from
    addresses to validators, and its operations implement those of the map.
    [GetByAddress] (a binary search) is lookup; [Add] inserts a new address
    and refuses a known one; [Update] overwrites a known address and refuses
    a new one; [Remove] deletes; each keeps the addresses sorted and
    invalidates the cached proposer and power exactly when the set changes. *)
Theorem set_refines_map vs : addrSorted (Validators vs) ->
  let m := asMap (Validators vs) in
  (forall a, exists i, GetByAddress vs a = Ret (i, m !! a)) /\
  (forall v, exists vs' added, Add vs v = Ret (vs', added) /\ addrSorted (Validators vs') /\
     added = bool_decide (m !! val_Address v = None) /\
     asMap (Validators vs') = (if added then <[val_Address v := v]> m else m) /\
     vs' = (if added then mkValidatorSet (Validators vs') None 0 else vs)) /\
  (forall v, exists vs' updated, Update vs v = Ret (vs', updated) /\ addrSorted (Validators vs') /\
     updated = bool_decide (m !! val_Address v <> None) /\
     asMap (Validators vs') = (if updated then <[val_Address v := v]> m else m) /\
     vs' = (if updated then mkValidatorSet (Validators vs') None 0 else vs)) /\
  (forall a, exists vs', Remove vs a = Ret (vs', m !! a) /\ addrSorted (Validators vs') /\
     asMap (Validators vs') = delete a m).
Proof.
  intros Hs m. split_and!.
  - intros a. destruct (GetByAddress_spec vs a Hs) as [(i & v & -> & Hv & Ha)|[-> Hno]].
    + exists (Z.of_nat i). do 2 f_equal. symmetry. apply asMap_lookup; [done|].
      split; [by eapply list_elem_of_lookup_2|done].
    + exists (-1). do 2 f_equal. symmetry. by apply asMap_None.
  - intros v. destruct (Add_spec vs v Hs) as [[Hin ->]|[Hno (l & -> & Hl & Hm & _)]].
    + exists vs, false. rewrite bool_decide_false by done. done.
    + eexists _, true. rewrite bool_decide_true by done. done.
  - intros v. destruct (setUpdate_spec vs v Hs) as [[Hno ->]|[Hin (l & -> & Hl & Hm)]].
    + exists vs, false. rewrite bool_decide_false by (fold m in Hno; rewrite Hno; tauto). done.
    + eexists _, true. rewrite bool_decide_true by done. done.
  - intros a. destruct (Remove_spec vs a Hs) as [[Hno ->]|(v & l & Hv & -> & Hl & Hm)].
    + exists vs. fold m in Hno. rewrite Hno. split_and!; [done|done|]. by rewrite delete_id.
    + eexists. fold m in Hv. rewrite Hv. done.
Qed.

Lemma set_refines_map_witness :
  exists i, GetByAddress exampleSet (str "B") = Ret (i, asMap (Validators exampleSet) !! str "B").
Proof. exact (proj1 (set_refines_map exampleSet exampleSet_sorted) (str "B")). Defined.

(** C14: [IncrementAccum], which keeps the validators in a binary heap ordered
    by their live accumulators, computes the same set as the plain definition:
    every accumulator grows by [times] times its power (clipped), then, in
    each of [times] turns, the validator with the highest accumulator (ties to
    the lower address) pays the total power, and the last one is the
    proposer.  It never panics on a non-empty set. *)
Theorem IncrementAccum_equiv vs times : Validators vs <> [] -> addrSorted (Validators vs) -> 1 <= times ->
  IncrementAccum vs times = Ret (IncrementAccum_ref vs times).
Proof. apply IncrementAccum_spec. Qed.

Lemma IncrementAccum_equiv_witness : IncrementAccum exampleSet 3 = Ret (IncrementAccum_ref exampleSet 3).
Proof. exact (IncrementAccum_equiv exampleSet 3 ltac:(discriminate) exampleSet_sorted ltac:(lia)). Defined.

(** C7: [VerifyCommit] accepts a commit exactly when it has one slot per
    validator, its height is the expected one, every precommit in it is a
    precommit of that height and of the commit's round whose signature
    verifies under the key of the validator at its index, and the validators
    that signed for [blockID] hold more than two thirds of the total power.
    This is for a commit that is not nil and a set whose validators all have a
    key and powers, not negative, whose double sum is an int64, and whose cached
    total is unset or right; on those it does not panic. *)
Theorem VerifyCommit_iff `{Codec} `{Curves} vs chainID blockID height commit : valsOK vs -> cacheOK vs ->
  exists r, VerifyCommit vs chainID blockID height commit = Ret r /\
    (r = None <->
     length (c_Precommits commit) = length (Validators vs) /\ Commit_Height commit = height /\
     Forall (precommitOK chainID height (Commit_Round commit)) (zip (Validators vs) (c_Precommits commit)) /\
     2 * sumZ val_VotingPower (Validators vs) < 3 * committedPower vs blockID commit).
Proof. apply VerifyCommit_spec. Qed.

Definition exampleBlock : BlockID := mkBlockID (str "block") (mkPartSetHeader 1 (str "parts")).
Definition signedVote (name : String.string) (i height round type_ : Z) (blockID : BlockID) : Vote :=
  let v := mkVote (str name) i height round 0 type_ blockID None in
  mkVote (str name) i height round 0 type_ blockID
    (Some (SignatureEd25519 (str name ++ Sha256.tmhash (@Vote_SignBytes toyCodec (str "chain") v)))).
Definition exampleCommit : Commit :=
  mkCommit exampleBlock [Some (signedVote "A" 0 7 0 2 exampleBlock); None; Some (signedVote "C" 2 7 0 2 exampleBlock)].

Lemma VerifyCommit_iff_witness : exists r,
  @VerifyCommit toyCodec toyCurves exampleSet (str "chain") exampleBlock 7 exampleCommit = Ret r /\ r = None.
Proof.
  destruct (@VerifyCommit_iff toyCodec toyCurves exampleSet (str "chain") exampleBlock 7 exampleCommit
    exampleSet_powers (or_introl eq_refl)) as (r & E & Hr).
  exists r. split; [exact E|]. apply Hr. split; [reflexivity|]. split; [reflexivity|].
  split; [|vm_compute; reflexivity].
  repeat constructor; try (vm_compute; reflexivity); (eexists; split; [reflexivity|vm_compute; reflexivity]).
Defined.
End ValidatorSet.
Export (hints) ValidatorSet.
