(* ===== verification/VoteSet.v ===== *)
(** * types/vote_set.go

    The votes of one height, round and type: the canonical votes, the votes
    by block, and the first block to gather more than two thirds of the
    power.  Votes by block is a map from block keys to records; the source
    mutates the records through pointers held only by the map. *)

From S2P Require Import Prelude Sha256 Crypto BitArray Types ValidatorSet.
Import Crypto Types ValidatorSet.

Module VoteSet.

Section Operations.
Context `{Codec} `{Curves}.

Record blockVotes := mkBlockVotes {
  bv_peerMaj23 : bool;
  bv_bitArray : option BitArray.BitArray;
  bv_votes : list (option Vote);
  bv_sum : Z }.

Definition newBlockVotes (peerMaj23 : bool) (numValidators : Z) : go blockVotes :=
  bA ← BitArray.NewBitArray numValidators;
  votes ← mkslice numValidators None;
  Ret (mkBlockVotes peerMaj23 bA votes 0).

Definition bv_addVerifiedVote (bv : blockVotes) (vote : Vote) (votingPower : Z) : go blockVotes :=
  let valIndex := v_ValidatorIndex vote in
  existing ← idx (bv_votes bv) valIndex;
  match existing with
  | Some _ => Ret bv
  | None =>
      r ← BitArray.SetIndex (bv_bitArray bv) valIndex true;
      votes ← upd (bv_votes bv) valIndex (Some vote);
      Ret (mkBlockVotes (bv_peerMaj23 bv) r.1 votes (add64 (bv_sum bv) votingPower))
  end.

Definition bv_getByIndex (bv : option blockVotes) (index : Z) : go (option Vote) :=
  match bv with None => Ret None | Some bv => idx (bv_votes bv) index end.

Record VoteSet := mkVoteSet {
  vs_chainID : bytes;
  vs_height : Z;
  vs_round : Z;
  vs_type : Z;
  vs_valSet : ValidatorSet;
  vs_votesBitArray : option BitArray.BitArray;
  vs_votes : list (option Vote);
  vs_sum : Z;
  vs_maj23 : option BlockID;
  vs_votesByBlock : gmap bytes blockVotes;
  vs_peerMaj23s : gmap bytes BlockID }.

Definition NewVoteSet (chainID : bytes) (height round type_ : Z) (valSet : ValidatorSet) : go VoteSet :=
  if height =? 0 then Panic (PanicSanity "Cannot make VoteSet for height == 0, doesn't make sense.")
  else
    bA ← BitArray.NewBitArray (Size valSet);
    votes ← mkslice (Size valSet) None;
    Ret (mkVoteSet chainID height round type_ valSet bA votes 0 None ∅ ∅).

Definition setVotes (vs : VoteSet) (bA : option BitArray.BitArray) (votes : list (option Vote)) (sum : Z) : VoteSet :=
  mkVoteSet (vs_chainID vs) (vs_height vs) (vs_round vs) (vs_type vs) (vs_valSet vs)
    bA votes sum (vs_maj23 vs) (vs_votesByBlock vs) (vs_peerMaj23s vs).
Definition setByBlock (vs : VoteSet) (m : gmap bytes blockVotes) : VoteSet :=
  mkVoteSet (vs_chainID vs) (vs_height vs) (vs_round vs) (vs_type vs) (vs_valSet vs)
    (vs_votesBitArray vs) (vs_votes vs) (vs_sum vs) (vs_maj23 vs) m (vs_peerMaj23s vs).
Definition setMaj23 (vs : VoteSet) (maj23 : option BlockID) (votes : list (option Vote)) : VoteSet :=
  mkVoteSet (vs_chainID vs) (vs_height vs) (vs_round vs) (vs_type vs) (vs_valSet vs)
    (vs_votesBitArray vs) votes (vs_sum vs) maj23 (vs_votesByBlock vs) (vs_peerMaj23s vs).
Definition setPeerMaj23s (vs : VoteSet) (m : gmap bytes BlockID) : VoteSet :=
  mkVoteSet (vs_chainID vs) (vs_height vs) (vs_round vs) (vs_type vs) (vs_valSet vs)
    (vs_votesBitArray vs) (vs_votes vs) (vs_sum vs) (vs_maj23 vs) (vs_votesByBlock vs) m.

(** [TotalVotingPower()*2/3 + 1] *)
Definition quorum (vs : VoteSet) : Z := add64 (twoThirds (totalPower (vs_valSet vs))) 1.

Definition getVote (vs : VoteSet) (valIndex : Z) (blockKey : bytes) : go (option Vote) :=
  existing ← idx (vs_votes vs) valIndex;
  let fromBlock := bv_getByIndex (vs_votesByBlock vs !! blockKey) valIndex in
  match existing with
  | Some v => if bytes_eqb (Key (v_BlockID v)) blockKey then Ret (Some v) else fromBlock
  | None => fromBlock
  end.

(** [for i, vote := range votesByBlock.votes { if vote != nil { voteSet.votes[i] = vote } }] *)
Definition copyVotes (votes : list (option Vote)) (from : list (option Vote)) : go (list (option Vote)) :=
  go_for 0 (zlen from)
    (fun i votes => v ← idx from i;
       match v with None => Ret votes | Some v => upd votes i (Some v) end) votes.

(** The first half of [addVerifiedVote]: the canonical votes. *)
Definition addCanonical (vs : VoteSet) (vote : Vote) (blockKey : bytes) (votingPower : Z) : go (VoteSet * option Vote) :=
  let valIndex := v_ValidatorIndex vote in
  existing ← idx (vs_votes vs) valIndex;
  match existing with
  | Some existing =>
      if BlockID_Equals (v_BlockID existing) (v_BlockID vote)
      then Panic (PanicSanity "addVerifiedVote does not expect duplicate votes")
      else
        match vs_maj23 vs with
        | Some maj23 =>
            if bytes_eqb (Key maj23) blockKey then
              votes ← upd (vs_votes vs) valIndex (Some vote);
              r ← BitArray.SetIndex (vs_votesBitArray vs) valIndex true;
              Ret (setVotes vs r.1 votes (vs_sum vs), Some existing)
            else Ret (vs, Some existing)
        | None => Ret (vs, Some existing)
        end
  | None =>
      votes ← upd (vs_votes vs) valIndex (Some vote);
      r ← BitArray.SetIndex (vs_votesBitArray vs) valIndex true;
      Ret (setVotes vs r.1 votes (add64 (vs_sum vs) votingPower), None)
  end.

(** The second half, once the record of the block is known. *)
Definition addToBlock (vs : VoteSet) (bv : blockVotes) (vote : Vote) (blockKey : bytes) (votingPower : Z) : go VoteSet :=
  let origSum := bv_sum bv in
  let quorum := quorum vs in
  bv ← bv_addVerifiedVote bv vote votingPower;
  let vs := setByBlock vs (<[blockKey := bv]> (vs_votesByBlock vs)) in
  if (origSum <? quorum) && (quorum <=? bv_sum bv) then
    match vs_maj23 vs with
    | None =>
        votes ← copyVotes (vs_votes vs) (bv_votes bv);
        Ret (setMaj23 vs (Some (v_BlockID vote)) votes)
    | Some _ => Ret vs
    end
  else Ret vs.

Definition addVerifiedVote (vs : VoteSet) (vote : Vote) (blockKey : bytes) (votingPower : Z)
  : go (VoteSet * bool * option Vote) :=
  r ← addCanonical vs vote blockKey votingPower;
  let '(vs, conflicting) := r in
  match vs_votesByBlock vs !! blockKey with
  | Some bv =>
      match conflicting with
      | Some c =>
          if negb (bv_peerMaj23 bv) then Ret (vs, false, Some c)
          else vs ← addToBlock vs bv vote blockKey votingPower; Ret (vs, true, Some c)
      | None => vs ← addToBlock vs bv vote blockKey votingPower; Ret (vs, true, None)
      end
  | None =>
      match conflicting with
      | Some c => Ret (vs, false, Some c)
      | None =>
          bv ← newBlockVotes false (Size (vs_valSet vs));
          vs ← addToBlock vs bv vote blockKey votingPower;
          Ret (vs, true, None)
      end
  end.

Definition addVote (vs : VoteSet) (vote : option Vote) : go (VoteSet * bool * option VoteError) :=
  match vote with
  | None => Ret (vs, false, Some ErrVoteNil)
  | Some vote =>
      let valIndex := v_ValidatorIndex vote in
      let valAddr := v_ValidatorAddress vote in
      let blockKey := Key (v_BlockID vote) in
      if valIndex <? 0 then Ret (vs, false, Some ErrVoteInvalidValidatorIndex)
      else if zlen valAddr =? 0 then Ret (vs, false, Some ErrVoteInvalidValidatorAddress)
      else if negb (v_Height vote =? vs_height vs) || negb (v_Round vote =? vs_round vs) || negb (v_Type vote =? vs_type vs)
      then Ret (vs, false, Some ErrVoteUnexpectedStep)
      else match GetByIndex (vs_valSet vs) valIndex with
      | None => Ret (vs, false, Some ErrVoteInvalidValidatorIndex)
      | Some (lookupAddr, val) =>
          if negb (bytes_eqb valAddr lookupAddr) then Ret (vs, false, Some ErrVoteInvalidValidatorAddress)
          else
            known ← getVote vs valIndex blockKey;
            match known with
            | Some existing =>
                match v_Signature existing with
                | None => Panic NilDeref
                | Some sig =>
                    if Signature_Equals sig (v_Signature vote) then Ret (vs, false, None)
                    else Ret (vs, false, Some ErrVoteNonDeterministicSignature)
                end
            | None =>
                verr ← Vote_Verify (vs_chainID vs) (val_PubKey val) vote;
                match verr with
                | Some err => Ret (vs, false, Some err)
                | None =>
                    r ← addVerifiedVote vs vote blockKey (val_VotingPower val);
                    let '(vs, added, conflicting) := r in
                    match conflicting with
                    | Some c => Ret (vs, added, Some (ErrVoteConflictingVotes (val_PubKey val) c vote))
                    | None =>
                        if negb added then Panic (PanicSanity "Expected to add non-conflicting vote")
                        else Ret (vs, added, None)
                    end
                end
            end
      end
  end.

Definition AddVote (vs : option VoteSet) (vote : option Vote) : go (VoteSet * bool * option VoteError) :=
  match vs with
  | None => Panic (PanicSanity "AddVote() on nil VoteSet")
  | Some vs => addVote vs vote
  end.

(** The boolean says that the peer's claim is not a conflicting one (a nil
    error). *)
Definition SetPeerMaj23 (vs : option VoteSet) (peerID : bytes) (blockID : BlockID) : go (VoteSet * bool) :=
  match vs with
  | None => Panic (PanicSanity "SetPeerMaj23() on nil VoteSet")
  | Some vs =>
      let blockKey := Key blockID in
      match vs_peerMaj23s vs !! peerID with
      | Some existing => if BlockID_Equals existing blockID then Ret (vs, true) else Ret (vs, false)
      | None =>
          let vs := setPeerMaj23s vs (<[peerID := blockID]> (vs_peerMaj23s vs)) in
          match vs_votesByBlock vs !! blockKey with
          | Some bv =>
              if bv_peerMaj23 bv then Ret (vs, true)
              else
                let bv := mkBlockVotes true (bv_bitArray bv) (bv_votes bv) (bv_sum bv) in
                Ret (setByBlock vs (<[blockKey := bv]> (vs_votesByBlock vs)), true)
          | None =>
              bv ← newBlockVotes true (Size (vs_valSet vs));
              Ret (setByBlock vs (<[blockKey := bv]> (vs_votesByBlock vs)), true)
          end
      end
  end.

(** ** Readers; [None] is a nil receiver. *)

Definition vsHeight (vs : option VoteSet) : Z := match vs with None => 0 | Some vs => vs_height vs end.
Definition vsRound (vs : option VoteSet) : Z := match vs with None => -1 | Some vs => vs_round vs end.
Definition vsType (vs : option VoteSet) : Z := match vs with None => 0 | Some vs => vs_type vs end.
Definition vsSize (vs : option VoteSet) : Z := match vs with None => 0 | Some vs => Size (vs_valSet vs) end.

Definition vsBitArray (vs : option VoteSet) : option BitArray.BitArray :=
  match vs with None => None | Some vs => BitArray.Copy (vs_votesBitArray vs) end.
Definition BitArrayByBlockID (vs : option VoteSet) (blockID : BlockID) : option BitArray.BitArray :=
  match vs with
  | None => None
  | Some vs => match vs_votesByBlock vs !! Key blockID with
               | Some bv => BitArray.Copy (bv_bitArray bv)
               | None => None
               end
  end.
Definition vsGetByIndex (vs : option VoteSet) (valIndex : Z) : go (option Vote) :=
  match vs with None => Ret None | Some vs => idx (vs_votes vs) valIndex end.
Definition vsGetByAddress (vs : option VoteSet) (address : bytes) : go (option Vote) :=
  match vs with
  | None => Ret None
  | Some vs =>
      r ← GetByAddress (vs_valSet vs) address;
      match r with
      | (_, None) => Panic (PanicSanity "GetByAddress(address) returned nil")
      | (valIndex, Some _) => idx (vs_votes vs) valIndex
      end
  end.

Definition HasTwoThirdsMajority (vs : option VoteSet) : bool :=
  match vs with None => false | Some vs => match vs_maj23 vs with None => false | Some _ => true end end.
Definition IsCommit (vs : option VoteSet) : bool :=
  match vs with
  | None => false
  | Some vs => if negb (vs_type vs =? VoteTypePrecommit) then false
               else match vs_maj23 vs with None => false | Some _ => true end
  end.
Definition HasTwoThirdsAny (vs : option VoteSet) : bool :=
  match vs with None => false | Some vs => twoThirds (totalPower (vs_valSet vs)) <? vs_sum vs end.
Definition HasAll (vs : VoteSet) : bool := vs_sum vs =? totalPower (vs_valSet vs).
Definition TwoThirdsMajority (vs : option VoteSet) : BlockID * bool :=
  match vs with
  | None => (zeroBlockID, false)
  | Some vs => match vs_maj23 vs with Some b => (b, true) | None => (zeroBlockID, false) end
  end.

Definition MakeCommit (vs : VoteSet) : go Commit :=
  if negb (vs_type vs =? VoteTypePrecommit)
  then Panic (PanicSanity "Cannot MakeCommit() unless VoteSet.Type is VoteTypePrecommit")
  else match vs_maj23 vs with
       | None => Panic (PanicSanity "Cannot MakeCommit() unless a blockhash has +2/3")
       | Some maj23 => Ret (mkCommit maj23 (vs_votes vs))
       end.
End Operations.

(** ** Power of a slice of votes *)

Section Spec.
Context `{Codec} `{Curves}.

Definition contrib (f : Vote -> bool) (x : Validator * option Vote) : Z :=
  match x.2 with Some v => if f v then val_VotingPower x.1 else 0 | None => 0 end.

(** The power of the validators whose vote in [votes] satisfies [f]. *)
Definition votedPower (f : Vote -> bool) (vals : list Validator) (votes : list (option Vote)) : Z :=
  sumZ (contrib f) (zip vals votes).

Definition anyVote (_ : Vote) : bool := true.
Definition forKey (k : bytes) (v : Vote) : bool := bytes_eqb (Key (v_BlockID v)) k.

Lemma votedPower_insert f vals votes i val o o' : vals !! i = Some val -> votes !! i = Some o ->
  votedPower f vals (<[i := o']> votes) = votedPower f vals votes - contrib f (val, o) + contrib f (val, o').
Proof.
  unfold votedPower. revert vals i. induction votes as [|w votes IH]; intros vals i Hv Ho; [done|].
  destruct vals as [|x vals]; [done|]. destruct i as [|i].
  - injection Hv as ->. injection Ho as ->. change (<[0%nat:=o']> (o :: votes)) with (o' :: votes).
    cbn [zip_with]. rewrite !sumZ_cons. lia.
  - change (<[S i:=o']> (w :: votes)) with (w :: <[i:=o']> votes). cbn [zip_with]. rewrite !sumZ_cons.
    rewrite (IH vals i Hv Ho). lia.
Qed.

Lemma votedPower_bounds f vals votes : Forall (fun v => 0 <= val_VotingPower v) vals ->
  0 <= votedPower f vals votes <= sumZ val_VotingPower vals.
Proof.
  unfold votedPower. revert votes. induction vals as [|v vals IH]; intros votes Hf; [done|].
  apply Forall_cons in Hf as [Hv Hf]. assert (0 <= sumZ val_VotingPower vals) by (apply sumZ_nonneg; by apply Forall_forall).
  destruct votes as [|w votes]; cbn [zip_with].
  - rewrite sumZ_cons. change (sumZ _ []) with 0. lia.
  - rewrite !sumZ_cons. specialize (IH votes Hf). unfold contrib at 1 3; cbn.
    destruct w as [w|]; [destruct (f w)|]; lia.
Qed.

Lemma votedPower_none f vals n : votedPower f vals (replicate n None) = 0.
Proof.
  unfold votedPower. revert n. induction vals as [|v vals IH]; intros [|n]; [done|done|done|].
  cbn [replicate zip_with]. rewrite sumZ_cons, IH. done.
Qed.

(** Votes that count in one slice count in the other. *)
Lemma votedPower_le f g vals v1 v2 : Forall (fun v => 0 <= val_VotingPower v) vals ->
  (forall i v, v1 !! i = Some (Some v) -> f v = true -> exists w, v2 !! i = Some (Some w) /\ g w = true) ->
  votedPower f vals v1 <= votedPower g vals v2.
Proof.
  unfold votedPower. revert v1 v2. induction vals as [|x vals IH]; intros v1 v2 Hf Hi; [done|].
  apply Forall_cons in Hf as [Hx Hf]. destruct v1 as [|o1 v1]; cbn [zip_with].
  { apply (votedPower_bounds g (x :: vals) v2). by constructor. }
  assert (Htl : forall i v, v1 !! i = Some (Some v) -> f v = true -> exists w, tail v2 !! i = Some (Some w) /\ g w = true).
  { intros i v Hv Hfv. destruct (Hi (S i) v Hv Hfv) as (w & Hw & Hg). exists w. split; [|done]. by destruct v2. }
  pose proof (IH v1 (tail v2) Hf Htl) as Hle. rewrite sumZ_cons.
  assert (0 <= contrib f (x, o1)) by (unfold contrib; cbn; destruct o1; [destruct (f _)|]; lia).
  destruct v2 as [|o2 v2]; cbn [tail zip_with] in *.
  - assert (contrib f (x, o1) = 0).
    { unfold contrib; cbn. destruct o1 as [v|]; [|done]. destruct (f v) eqn:E; [|done].
      destruct (Hi 0%nat v eq_refl E) as (w & Hw & _). done. }
    change (sumZ (contrib g) []) with 0 in *. rewrite zip_with_nil_r in Hle. change (sumZ (contrib g) []) with 0 in Hle. lia.
  - rewrite sumZ_cons. assert (contrib f (x, o1) <= contrib g (x, o2)); [|lia].
    unfold contrib at 1; cbn. destruct o1 as [v|]; [|unfold contrib; cbn; destruct o2; [destruct (g _)|]; lia].
    destruct (f v) eqn:E; [|unfold contrib; cbn; destruct o2; [destruct (g _)|]; lia].
    destruct (Hi 0%nat v eq_refl E) as (w & Hw & Hg). injection Hw as ->. unfold contrib; cbn. rewrite Hg. lia.
Qed.

Lemma votedPower_same f g vals v1 v2 : Forall (fun v => 0 <= val_VotingPower v) vals ->
  (forall i v, v1 !! i = Some (Some v) -> f v = true -> exists w, v2 !! i = Some (Some w) /\ g w = true) ->
  (forall i v, v2 !! i = Some (Some v) -> g v = true -> exists w, v1 !! i = Some (Some w) /\ f w = true) ->
  votedPower f vals v1 = votedPower g vals v2.
Proof. intros Hf H1 H2. apply Z.le_antisymm; by apply votedPower_le. Qed.

(** ** The invariant *)

(** A vote stored at position [i]: it is for this set's step, and the
    validator at [i] has its address and signed it. *)
Definition voteOK (vs : VoteSet) (i : nat) (v : Vote) : Prop :=
  v_ValidatorIndex v = Z.of_nat i /\
  v_Height v = vs_height vs /\ v_Round v = vs_round vs /\ v_Type v = vs_type vs /\
  exists val, Validators (vs_valSet vs) !! i = Some val /\
    v_ValidatorAddress v = val_Address val /\ Vote_Verify (vs_chainID vs) (val_PubKey val) v = Ret None.

Definition vals (vs : VoteSet) : list Validator := Validators (vs_valSet vs).

(** The record of block key [k]: signed votes for that key, each of a
    validator that also has a canonical vote, and their power. *)
Definition blockOK (vs : VoteSet) (k : bytes) (bv : blockVotes) : Prop :=
  length (bv_votes bv) = length (vals vs) /\
  BitArray.bitsOK (bv_bitArray bv) (bv_votes bv) /\
  (forall i v, bv_votes bv !! i = Some (Some v) ->
     voteOK vs i v /\ Key (v_BlockID v) = k /\ exists w, vs_votes vs !! i = Some (Some w)) /\
  bv_sum bv = votedPower anyVote (vals vs) (bv_votes bv).

(** The majority: the first block whose record reached the quorum. *)
Definition majOK (vs : VoteSet) : Prop :=
  match vs_maj23 vs with
  | None => forall k bv, vs_votesByBlock vs !! k = Some bv -> bv_sum bv < quorum vs
  | Some b => exists bv, vs_votesByBlock vs !! Key b = Some bv /\ quorum vs <= bv_sum bv /\
      forall i v, bv_votes bv !! i = Some (Some v) ->
        exists w, vs_votes vs !! i = Some (Some w) /\ Key (v_BlockID w) = Key b
  end.

(** The invariant but for the majority and for the tracking of the vote at
    position [e]. *)
Record Core (e : option nat) (vs : VoteSet) : Prop := mkCore {
  inv_powers : valsOK (vs_valSet vs);
  inv_cache : cacheOK (vs_valSet vs);
  inv_len : length (vs_votes vs) = length (vals vs);
  inv_bits : BitArray.bitsOK (vs_votesBitArray vs) (vs_votes vs);
  inv_votes : forall i v, vs_votes vs !! i = Some (Some v) -> voteOK vs i v;
  inv_sum : vs_sum vs = votedPower anyVote (vals vs) (vs_votes vs);
  inv_blocks : forall k bv, vs_votesByBlock vs !! k = Some bv -> blockOK vs k bv;
  inv_tracked : forall i v, vs_votes vs !! i = Some (Some v) -> e <> Some i ->
                  exists bv, vs_votesByBlock vs !! Key (v_BlockID v) = Some bv }.
Record InvE (e : option nat) (vs : VoteSet) : Prop := mkInvE {
  inv_core :> Core e vs;
  inv_maj : majOK vs }.
Definition Inv : VoteSet -> Prop := InvE None.

Lemma nonneg_vals e vs : Core e vs -> Forall (fun v => 0 <= val_VotingPower v) (vals vs).
Proof. intros Hi. apply (inv_powers e vs Hi). Qed.

Definition total (vs : VoteSet) : Z := sumZ val_VotingPower (vals vs).

Lemma total_nonneg e vs : Core e vs -> 0 <= total vs /\ 2 * total vs <= MaxInt64.
Proof.
  intros Hi. pose proof (inv_powers e vs Hi) as (Hf & Hs & _). split; [|done].
  apply sumZ_nonneg. by apply Forall_forall.
Qed.

Lemma quorum_eq e vs : Core e vs -> quorum vs = 2 * total vs / 3 + 1.
Proof.
  intros Hi. destruct (total_nonneg e vs Hi) as [H1 H2]. unfold quorum.
  rewrite totalPower_sum by (by destruct Hi). fold (vals vs). fold (total vs). unfold twoThirds, mul64, add64.
  rewrite (wrap64_small (total vs * 2)) by (unfold_int64; lia). rewrite Z.quot_div_nonneg by lia.
  rewrite (Z.mul_comm (total vs)). apply wrap64_small.
  pose proof (Z.div_pos (2 * total vs) 3 ltac:(lia) ltac:(lia)).
  pose proof (Z.div_le_upper_bound (2 * total vs) 3 (total vs) ltac:(lia) ltac:(lia)). unfold_int64. lia.
Qed.

(** Reaching the quorum is holding more than two thirds of the power. *)
Lemma quorum_iff e vs x : Core e vs -> quorum vs <= x <-> 2 * total vs < 3 * x.
Proof.
  intros Hi. rewrite (quorum_eq e vs Hi).
  pose proof (Z.div_mod (2 * total vs) 3 ltac:(lia)). pose proof (Z.mod_pos_bound (2 * total vs) 3 ltac:(lia)). lia.
Qed.

(** The fields no operation changes. *)
Definition static (vs : VoteSet) := (vs_chainID vs, vs_height vs, vs_round vs, vs_type vs, vs_valSet vs).

Lemma voteOK_static vs vs' i v : static vs' = static vs -> voteOK vs i v -> voteOK vs' i v.
Proof. unfold static, voteOK. by intros [= -> -> -> -> ->]. Qed.

Lemma static_vals vs vs' : static vs' = static vs -> vals vs' = vals vs.
Proof. unfold static, vals. by intros [= _ _ _ _ ->]. Qed.

Lemma static_quorum vs vs' : static vs' = static vs -> quorum vs' = quorum vs.
Proof. unfold static, quorum. by intros [= _ _ _ _ ->]. Qed.

Lemma contrib_any val o : contrib anyVote (val, o) = match o with Some _ => val_VotingPower val | None => 0 end.
Proof. by destruct o. Qed.

(** Storing a canonical vote. *)
Lemma store_vote e vs i v bA sum : InvE e vs -> voteOK vs i v -> (i < length (vs_votes vs))%nat ->
  BitArray.bitsOK bA (<[i := Some v]> (vs_votes vs)) ->
  sum = votedPower anyVote (vals vs) (<[i := Some v]> (vs_votes vs)) ->
  (match vs_maj23 vs with Some b => vs_votes vs !! i = Some None \/ Key (v_BlockID v) = Key b | None => True end) ->
  e = None ->
  InvE (Some i) (setVotes vs bA (<[i := Some v]> (vs_votes vs)) sum).
Proof.
  intros Hi Hv Hlt Hbits Hsum Hmaj ->. set (vs' := setVotes vs bA _ sum).
  assert (Hs : static vs' = static vs) by done.
  constructor; [constructor; try (by destruct (inv_core _ _ Hi))|].
  - cbn. rewrite length_insert. by apply (inv_len None vs Hi).
  - intros j w Hj. cbn in Hj. apply (voteOK_static vs); [done|].
    destruct (decide (j = i)) as [->|Hne].
    + rewrite list_lookup_insert_eq in Hj by done. by injection Hj as <-.
    + rewrite list_lookup_insert_ne in Hj by done. by apply (inv_votes None vs Hi).
  - intros k bv Hk. cbn in Hk. destruct (inv_blocks None vs Hi k bv Hk) as (H1 & H2 & H3 & H4).
    split_and!; [done|done| |done]. intros j w Hj. destruct (H3 j w Hj) as (K1 & K2 & x & K3).
    split; [by apply (voteOK_static vs)|]. split; [done|]. cbn. destruct (decide (j = i)) as [->|Hne].
    + exists v. by apply list_lookup_insert_eq.
    + exists x. by rewrite list_lookup_insert_ne.
  - intros j w Hj Hne. cbn in Hj |- *. assert (j <> i) by congruence.
    rewrite list_lookup_insert_ne in Hj by done. by apply (inv_tracked None vs Hi j w).
  - pose proof (inv_maj None vs Hi) as Hm. unfold majOK in *. cbn [vs_maj23 setVotes vs'] in *.
    destruct (vs_maj23 vs) as [b|]; [|done]. destruct Hm as (bv & K1 & K2 & K3). exists bv.
    split; [done|]. split; [done|]. intros j w Hj. destruct (K3 j w Hj) as (x & Hx & Hk). cbn.
    destruct (decide (j = i)) as [->|Hne]; [|exists x; by rewrite list_lookup_insert_ne].
    destruct Hmaj as [Hmaj|Hmaj]; [congruence|]. exists v. split; [by apply list_lookup_insert_eq|done].
Qed.

(** ** Adding to the record of a block *)

Lemma bv_add_spec e vs k bv i v w val : Core e vs -> blockOK vs k bv -> voteOK vs i v -> Key (v_BlockID v) = k ->
  vals vs !! i = Some val -> bv_votes bv !! i = Some None -> vs_votes vs !! i = Some (Some w) ->
  exists bv', bv_addVerifiedVote bv v (val_VotingPower val) = Ret bv' /\ blockOK vs k bv' /\
    bv_votes bv' = <[i := Some v]> (bv_votes bv) /\ bv_sum bv' = bv_sum bv + val_VotingPower val /\
    bv_peerMaj23 bv' = bv_peerMaj23 bv.
Proof.
  intros Hi (Hl & Hb & Hv & Hs) Hok Hk Hval Hnone Hw. unfold bv_addVerifiedVote.
  pose proof Hok as (Hidx & _). rewrite Hidx. pose proof (lookup_lt_Some _ _ _ Hnone) as Hlt.
  rewrite (idx_lookup _ _ None) by (lia || by rewrite Nat2Z.id). cbn [mbind go_mbind].
  destruct (BitArray.bitsOK_set (bv_bitArray bv) (bv_votes bv) i v Hb Hlt) as (bA & -> & Hb'). cbn [mbind go_mbind].
  rewrite upd_ret by (unfold zlen; lia). cbn [mbind go_mbind fst]. rewrite Nat2Z.id.
  destruct (total_nonneg e vs Hi) as [T0 T1]. pose proof (nonneg_vals e vs Hi) as Hnn.
  assert (Hsum : bv_sum bv + val_VotingPower val = votedPower anyVote (vals vs) (<[i := Some v]> (bv_votes bv))).
  { rewrite (votedPower_insert anyVote _ _ i val None) by done. rewrite !contrib_any, Hs. lia. }
  pose proof (votedPower_bounds anyVote (vals vs) (<[i := Some v]> (bv_votes bv)) Hnn) as Hbd.
  pose proof (votedPower_bounds anyVote (vals vs) (bv_votes bv) Hnn) as Hbd0. fold (total vs) in Hbd, Hbd0.
  unfold add64. rewrite wrap64_small by (unfold_int64; lia).
  eexists. split; [done|]. cbn. split; [|done]. split_and!; cbn.
  - by rewrite length_insert.
  - done.
  - intros j x Hj. destruct (decide (j = i)) as [->|Hne].
    + rewrite list_lookup_insert_eq in Hj by done. injection Hj as <-. split; [done|]. split; [done|]. by exists w.
    + rewrite list_lookup_insert_ne in Hj by done. by apply Hv.
  - done.
Qed.

Lemma copyVotes_spec votes from : length votes = length from ->
  exists r, copyVotes votes from = Ret r /\ length r = length votes /\
    forall j, r !! j = match from !! j with Some (Some v) => Some (Some v) | _ => votes !! j end.
Proof.
  intros Hl. unfold copyVotes.
  destruct (go_for_inv (fun i r => length r = length votes /\
     forall j, r !! j = if decide (Z.of_nat j < i) then match from !! j with Some (Some v) => Some (Some v) | _ => votes !! j end else votes !! j)
    0 (zlen from) (fun i votes => v ← idx from i; match v with None => Ret votes | Some v => upd votes i (Some v) end) votes)
    as (r & E & Hr & H'); [apply zlen_nonneg| | |].
  - split; [done|]. intros j. by rewrite decide_False by lia.
  - intros i s Hi [Hs Hj]. destruct (idx_total from i Hi) as (o & -> & Ho). cbn [mbind go_mbind]. destruct o as [v|].
    + rewrite upd_ret by (unfold zlen in *; lia). eexists. split; [done|]. rewrite length_insert. split; [done|].
      intros j. destruct (decide (j = Z.to_nat i)) as [->|Hne].
      * rewrite list_lookup_insert_eq by (unfold zlen in *; lia). rewrite decide_True by lia. by rewrite Ho.
      * rewrite list_lookup_insert_ne by done. rewrite Hj. repeat case_decide; try done; lia.
    + eexists. split; [done|]. split; [done|]. intros j. rewrite Hj.
      destruct (decide (j = Z.to_nat i)) as [->|Hne]; [rewrite Ho; repeat case_decide; done|repeat case_decide; try done; lia].
  - exists r. split; [done|]. split; [done|]. intros j. rewrite H'. case_decide; [done|].
    rewrite (lookup_ge_None_2 from) by (unfold zlen in *; lia). done.
Qed.

(** Putting an updated record back. *)
Lemma store_block vs k bv i v : Core (Some i) vs -> blockOK vs k bv ->
  vs_votes vs !! i = Some (Some v) -> (exists x, <[k := bv]> (vs_votesByBlock vs) !! Key (v_BlockID v) = Some x) ->
  Core None (setByBlock vs (<[k := bv]> (vs_votesByBlock vs))).
Proof.
  intros Hi Hb Hv Hx. set (vs' := setByBlock vs _).
  constructor; try (by destruct Hi); try done.
  - intros k' bv' Hk'. cbn in Hk'. destruct (decide (k' = k)) as [->|Hne].
    + rewrite lookup_insert_eq in Hk'. by injection Hk' as <-.
    + rewrite lookup_insert_ne in Hk' by done. by apply (inv_blocks (Some i) vs Hi).
  - intros j w Hj _. cbn in Hj |- *. destruct (decide (j = i)) as [->|Hne].
    + rewrite Hv in Hj. injection Hj as ->. done.
    + destruct (inv_tracked (Some i) vs Hi j w Hj ltac:(congruence)) as (x & E).
      destruct (decide (Key (v_BlockID w) = k)) as [->|]; [rewrite lookup_insert_eq; eauto|].
      rewrite lookup_insert_ne by done. eauto.
Qed.

(** The first quorum: the votes of the block become canonical. *)
Lemma set_majority vs k bv b : Core None vs -> vs_votesByBlock vs !! k = Some bv -> Key b = k ->
  quorum vs <= bv_sum bv ->
  exists votes, copyVotes (vs_votes vs) (bv_votes bv) = Ret votes /\ Inv (setMaj23 vs (Some b) votes).
Proof.
  intros Hi Hk Hb Hq. destruct (inv_blocks None vs Hi k bv Hk) as (B1 & B2 & B3 & B4).
  destruct (copyVotes_spec (vs_votes vs) (bv_votes bv)) as (votes & E & Hl & Hj); [by rewrite B1, (inv_len None vs Hi)|].
  exists votes. split; [done|].
  assert (Hsome : forall j, votes !! j = Some None <-> vs_votes vs !! j = Some None).
  { intros j. rewrite Hj. destruct (bv_votes bv !! j) as [[w|]|] eqn:Ej; [|done..].
    destruct (B3 j w Ej) as (_ & _ & x & Hx). by rewrite Hx. }
  assert (Hex : forall j w, vs_votes vs !! j = Some (Some w) -> exists x, votes !! j = Some (Some x)).
  { intros j w Hw. rewrite Hj. destruct (bv_votes bv !! j) as [[x|]|]; eauto. }
  assert (Hfrom : forall j w, votes !! j = Some (Some w) ->
    vs_votes vs !! j = Some (Some w) \/ bv_votes bv !! j = Some (Some w)).
  { intros j w. rewrite Hj. destruct (bv_votes bv !! j) as [[x|]|]; auto. }
  set (vs' := setMaj23 vs (Some b) votes).
  constructor; [constructor; try (by destruct Hi)|].
  - cbn. by rewrite Hl, (inv_len None vs Hi).
  - cbn. eapply BitArray.bitsOK_same; [symmetry; exact Hl|intros j; symmetry; apply Hsome|apply (inv_bits None vs Hi)].
  - intros j w [Hw|Hw]%Hfrom; apply (voteOK_static vs); try done; [by apply (inv_votes None vs Hi)|by apply B3].
  - cbn. rewrite (inv_sum None vs Hi). apply votedPower_same; [exact (proj1 (inv_powers None vs Hi))| |].
    + intros j w Hw _. destruct (Hex j w Hw) as (x & Hx). by exists x.
    + intros j w [Hw|Hw]%Hfrom _; [by exists w|]. destruct (B3 j w Hw) as (_ & _ & x & Hx). by exists x.
  - intros k' bv' Hk'. cbn in Hk'. destruct (inv_blocks None vs Hi k' bv' Hk') as (C1 & C2 & C3 & C4).
    split_and!; [done|done| |done]. intros j w Hw. destruct (C3 j w Hw) as (D1 & D2 & x & D3).
    split; [done|]. split; [done|]. by apply (Hex j x).
  - intros j w [Hw|Hw]%Hfrom _; cbn; [by apply (inv_tracked None vs Hi j w)|].
    destruct (B3 j w Hw) as (_ & -> & _). by exists bv.
  - unfold majOK. cbn. exists bv. rewrite Hb. split; [done|]. split; [done|]. intros j w Hw.
    exists w. rewrite Hj, Hw. split; [done|]. by destruct (B3 j w Hw) as (_ & -> & _).
Qed.

Lemma quorum_pos e vs : Core e vs -> 0 < quorum vs.
Proof.
  intros Hi. rewrite (quorum_eq e vs Hi). destruct (total_nonneg e vs Hi).
  pose proof (Z.div_pos (2 * total vs) 3 ltac:(lia) ltac:(lia)). lia.
Qed.

(** What a call that accepts a vote guarantees of the new state. *)
Definition extends (vs vs' : VoteSet) : Prop :=
  static vs' = static vs /\ vs_peerMaj23s vs' = vs_peerMaj23s vs /\
  (vs_maj23 vs <> None -> vs_maj23 vs' = vs_maj23 vs).

Lemma addToBlock_spec vs bv i v w val : let k := Key (v_BlockID v) in
  InvE (Some i) vs -> blockOK vs k bv -> voteOK vs i v -> vals vs !! i = Some val ->
  bv_votes bv !! i = Some None -> vs_votes vs !! i = Some (Some w) ->
  (w = v \/ exists x, vs_votesByBlock vs !! Key (v_BlockID w) = Some x) ->
  (vs_votesByBlock vs !! k = Some bv \/ vs_votesByBlock vs !! k = None /\ bv_sum bv = 0) ->
  (forall b, vs_maj23 vs = Some b -> Key b = k -> Key (v_BlockID w) = k) ->
  exists vs', addToBlock vs bv v k (val_VotingPower val) = Ret vs' /\ Inv vs' /\ extends vs vs' /\
    exists bv', vs_votesByBlock vs' !! k = Some bv' /\ bv_votes bv' !! i = Some (Some v).
Proof.
  intros k Hi Hb Hok Hval Hnone Hw Htr Hcur Hmaj. unfold addToBlock.
  destruct (bv_add_spec (Some i) vs k bv i v w val Hi Hb Hok eq_refl Hval Hnone Hw)
    as (bv' & -> & Hb' & Hvotes & Hsum & _). cbn [mbind go_mbind].
  assert (Hvp : 0 <= val_VotingPower val).
  { pose proof (nonneg_vals _ vs Hi) as Hn. by apply (Forall_lookup_1 _ _ _ _ Hn) in Hval. }
  set (vs1 := setByBlock vs (<[k := bv']> (vs_votesByBlock vs))).
  assert (Hv' : bv_votes bv' !! i = Some (Some v)).
  { rewrite Hvotes. apply list_lookup_insert_eq. by eapply lookup_lt_Some. }
  assert (Hx : exists x, <[k := bv']> (vs_votesByBlock vs) !! Key (v_BlockID w) = Some x).
  { destruct (decide (Key (v_BlockID w) = k)) as [->|Hne]; [rewrite lookup_insert_eq; eauto|].
    rewrite lookup_insert_ne by done. destruct Htr as [->|?]; [done|eauto]. }
  assert (Hcore : Core None vs1) by (apply (store_block vs k bv' i w); [apply (inv_core _ _ Hi)|done|done|done]).
  assert (Hrec : exists bv', vs_votesByBlock vs1 !! k = Some bv' /\ bv_votes bv' !! i = Some (Some v)).
  { exists bv'. split; [cbn; apply lookup_insert_eq|done]. }
  assert (Hext : extends vs vs1) by done.
  pose proof (inv_maj _ vs Hi) as Hm. unfold majOK in Hm.
  destruct (vs_maj23 vs) as [b|] eqn:Emaj.
  - (* a majority is known *)
    assert (Hm1 : majOK vs1).
    { unfold majOK. change (vs_maj23 vs1) with (vs_maj23 vs). rewrite Emaj. cbn [vs_votesByBlock vs1 setByBlock vs_votes]. destruct Hm as (bvb & M1 & M2 & M3).
      change (quorum vs1) with (quorum vs). destruct (decide (Key b = k)) as [Ek|Ek].
      - rewrite Ek, lookup_insert_eq. exists bv'. split; [done|].
        destruct Hcur as [Hcur|[Hcur _]]; [|congruence]. assert (bvb = bv) as -> by congruence. split; [lia|].
        intros j x Hj. rewrite Hvotes in Hj. destruct (decide (j = i)) as [->|Hne].
        + exists w. split; [done|]. by apply (Hmaj b).
        + rewrite list_lookup_insert_ne in Hj by done. destruct (M3 j x Hj) as (y & ? & ?). exists y. split; [done|congruence].
      - rewrite lookup_insert_ne by done. by exists bvb. }
    exists vs1. split; [|split; [by constructor|auto]].
    destruct (_ && _); [|done]. change (vs_maj23 vs1) with (vs_maj23 vs). by rewrite Emaj.
  - assert (Hlt : bv_sum bv < quorum vs).
    { destruct Hcur as [Hcur|[_ ->]]; [by apply (Hm k)|]. apply (quorum_pos (Some i)), Hi. }
    rewrite (proj2 (Z.ltb_lt _ _)) by done. cbn [andb].
    destruct (Z.leb_spec (quorum vs) (bv_sum bv')) as [Hq|Hq].
    + (* crossing the quorum: this block is the majority *)
      change (vs_maj23 vs1) with (vs_maj23 vs). rewrite Emaj.
      destruct (set_majority vs1 k bv' (v_BlockID v)) as (votes & E & Hinv);
        [done|cbn; apply lookup_insert_eq|done|done|].
      change (vs_votes vs) with (vs_votes vs1). rewrite E. cbn [mbind go_mbind].
      eexists. split; [done|]. split; [done|]. split; [|done]. split_and!; [done|done|by rewrite Emaj].
    + exists vs1. split; [done|]. split; [|auto]. constructor; [done|].
      unfold majOK. change (vs_maj23 vs1) with (vs_maj23 vs). rewrite Emaj. change (quorum vs1) with (quorum vs).
      cbn [vs_votesByBlock vs1 setByBlock]. intros k' bv'' Hk'. destruct (decide (k' = k)) as [->|Hne].
      * rewrite lookup_insert_eq in Hk'. by injection Hk' as <-.
      * rewrite lookup_insert_ne in Hk' by done. by apply (Hm k').
Qed.

(** ** addVerifiedVote *)

(** The vote is not known yet. *)
Definition unknown (vs : VoteSet) (i : nat) (k : bytes) : Prop :=
  (forall w, vs_votes vs !! i = Some (Some w) -> Key (v_BlockID w) <> k) /\
  (forall bv, vs_votesByBlock vs !! k = Some bv -> bv_votes bv !! i = Some None).

(** The canonical vote at [i], and whether a peer claimed a majority for [k]. *)
Definition canonical (vs : VoteSet) (i : nat) : option Vote := mjoin (vs_votes vs !! i).
Definition claimed (vs : VoteSet) (k : bytes) : bool :=
  match vs_votesByBlock vs !! k with Some bv => bv_peerMaj23 bv | None => false end.

Lemma canonical_spec vs i o : vs_votes vs !! i = Some o -> canonical vs i = o.
Proof. unfold canonical. by intros ->. Qed.

Lemma store_first vs i v val : Inv vs -> voteOK vs i v -> vals vs !! i = Some val -> vs_votes vs !! i = Some None ->
  exists bA, BitArray.SetIndex (vs_votesBitArray vs) (Z.of_nat i) true = Ret (bA, true) /\
    InvE (Some i) (setVotes vs bA (<[i := Some v]> (vs_votes vs)) (add64 (vs_sum vs) (val_VotingPower val))).
Proof.
  intros Hi Hok Hval Hn. pose proof (lookup_lt_Some _ _ _ Hn) as Hlt.
  destruct (BitArray.bitsOK_set _ _ i v (inv_bits None vs Hi) Hlt) as (bA & E & Hb). exists bA. split; [done|].
  pose proof (nonneg_vals None vs Hi) as Hnn. destruct (total_nonneg None vs Hi) as [T0 T1].
  pose proof (votedPower_bounds anyVote (vals vs) (<[i := Some v]> (vs_votes vs)) Hnn) as B1.
  pose proof (votedPower_bounds anyVote (vals vs) (vs_votes vs) Hnn) as B0. fold (total vs) in B0, B1.
  pose proof (votedPower_insert anyVote (vals vs) (vs_votes vs) i val None (Some v) Hval Hn) as Hs.
  rewrite !contrib_any in Hs.
  apply (store_vote None); [done|done|done|done| |destruct (vs_maj23 vs); [by left|done]|done].
  unfold add64. rewrite (inv_sum None vs Hi), wrap64_small by (unfold_int64; lia). lia.
Qed.

Lemma store_again vs i v w b : Inv vs -> voteOK vs i v -> vs_votes vs !! i = Some (Some w) ->
  vs_maj23 vs = Some b -> Key b = Key (v_BlockID v) ->
  exists bA, BitArray.SetIndex (vs_votesBitArray vs) (Z.of_nat i) true = Ret (bA, true) /\
    InvE None (setVotes vs bA (<[i := Some v]> (vs_votes vs)) (vs_sum vs)).
Proof.
  intros Hi Hok Hw Hb Hk. pose proof (lookup_lt_Some _ _ _ Hw) as Hlt.
  destruct (BitArray.bitsOK_set _ _ i v (inv_bits None vs Hi) Hlt) as (bA & E & Hbits). exists bA. split; [done|].
  assert (Hcore : InvE (Some i) (setVotes vs bA (<[i := Some v]> (vs_votes vs)) (vs_sum vs))).
  { apply (store_vote None); [done|done|done|done| |rewrite Hb; by right|done].
    destruct Hok as (_ & _ & _ & _ & val & Hval & _). fold (vals vs) in Hval.
    rewrite (inv_sum None vs Hi), (votedPower_insert anyVote _ _ i val (Some w)) by done.
    rewrite !contrib_any. lia. }
  constructor; [|apply (inv_maj _ _ Hcore)]. destruct (inv_core _ _ Hcore). constructor; try done.
  intros j x Hj _. cbn in Hj |- *. destruct (decide (j = i)) as [->|Hne]; [|apply (inv_tracked0 j x Hj); congruence].
  rewrite list_lookup_insert_eq in Hj by done. injection Hj as <-. rewrite <- Hk.
  pose proof (inv_maj None vs Hi) as Hm. unfold majOK in Hm. rewrite Hb in Hm.
  destruct Hm as (bv & ? & _). by exists bv.
Qed.

Lemma newBlockVotes_spec e vs k p : Core e vs ->
  exists bv, newBlockVotes p (Size (vs_valSet vs)) = Ret bv /\ blockOK vs k bv /\ bv_sum bv = 0 /\
    bv_peerMaj23 bv = p /\ bv_votes bv = replicate (length (vals vs)) None.
Proof.
  intros Hi. unfold newBlockVotes, Size.
  destruct (BitArray.bitsOK_new (A := Vote) (zlen (Validators (vs_valSet vs))) (zlen_nonneg _)) as (bA & -> & Hb). cbn [mbind go_mbind].
  unfold mkslice. rewrite (proj2 (Z.ltb_ge _ _)) by apply zlen_nonneg. cbn [mbind go_mbind].
  unfold zlen in *. rewrite Nat2Z.id in *. fold (vals vs) in *.
  eexists. split; [done|]. cbn. split; [|done]. split_and!; cbn.
  - apply length_replicate.
  - done.
  - intros i v Hv. apply lookup_replicate in Hv as [[=] _].
  - by rewrite votedPower_none.
Qed.

Lemma InvE_weaken i vs : InvE None vs -> InvE (Some i) vs.
Proof.
  intros Hi. constructor; [|apply (inv_maj _ _ Hi)]. destruct (inv_core _ _ Hi). constructor; try done.
  intros j v Hj _. by eapply inv_tracked0.
Qed.

(** The state and conflict after the first half. *)
Lemma addCanonical_spec vs i v val : let k := Key (v_BlockID v) in
  Inv vs -> voteOK vs i v -> vals vs !! i = Some val -> unknown vs i k ->
  exists vs1 w, addCanonical vs v k (val_VotingPower val) = Ret (vs1, canonical vs i) /\
    InvE (Some i) vs1 /\ (canonical vs i <> None -> Inv vs1) /\ extends vs vs1 /\
    vs_votesByBlock vs1 = vs_votesByBlock vs /\ vs_votes vs1 !! i = Some (Some w) /\
    (w = v \/ exists x, vs_votesByBlock vs1 !! Key (v_BlockID w) = Some x) /\
    (forall b, vs_maj23 vs1 = Some b -> Key b = k -> Key (v_BlockID w) = k).
Proof.
  intros k Hi Hok Hval [Hu1 Hu2]. pose proof Hok as (Hidx & _).
  destruct (lookup_lt_is_Some_2 (vs_votes vs) i) as [o Ho].
  { rewrite (inv_len None vs Hi). by eapply lookup_lt_Some. }
  pose proof (lookup_lt_Some _ _ _ Ho) as Hlt.
  unfold addCanonical. rewrite Hidx, (idx_lookup _ _ o) by (lia || by rewrite Nat2Z.id). cbn [mbind go_mbind].
  rewrite (canonical_spec vs i o Ho). destruct o as [w|].
  - destruct (BlockID_Equals _ _) eqn:Eeq.
    { apply BlockID_Equals_eq in Eeq. destruct (Hu1 w Ho). unfold k. by rewrite Eeq. }
    assert (Hsame : (forall b, vs_maj23 vs = Some b -> Key b <> k) ->
      exists vs1 w0, Ret (vs, Some w) = Ret (vs1, Some w) /\ InvE (Some i) vs1 /\ (Some w <> None -> Inv vs1) /\
        extends vs vs1 /\ vs_votesByBlock vs1 = vs_votesByBlock vs /\ vs_votes vs1 !! i = Some (Some w0) /\
        (w0 = v \/ exists x, vs_votesByBlock vs1 !! Key (v_BlockID w0) = Some x) /\
        (forall b, vs_maj23 vs1 = Some b -> Key b = k -> Key (v_BlockID w0) = k)).
    { intros Hk. exists vs, w. split; [done|]. split; [by apply InvE_weaken|]. split; [done|]. split; [done|].
      split; [done|]. split; [done|]. split; [right; by apply (inv_tracked None vs Hi i w)|].
      intros b Hb Hbk. by destruct (Hk b Hb). }
    destruct (vs_maj23 vs) as [b|] eqn:Eb.
    + destruct (bytes_eqb (Key b) k) eqn:Ek.
      * apply bytes_eqb_true in Ek. rewrite upd_ret by (unfold zlen; lia). cbn [mbind go_mbind].
        destruct (store_again vs i v w b Hi Hok Ho Eb Ek) as (bA & -> & Hinv). cbn [mbind go_mbind fst].
        rewrite Nat2Z.id. eexists _, v. split; [done|]. split; [by apply InvE_weaken|]. split; [done|].
        split; [done|]. split; [done|]. split; [cbn; by apply list_lookup_insert_eq|]. split; [by left|done].
      * apply bytes_eqb_false in Ek. apply Hsame. congruence.
    + apply Hsame. congruence.
  - rewrite upd_ret by (unfold zlen; lia). cbn [mbind go_mbind].
    destruct (store_first vs i v val Hi Hok Hval Ho) as (bA & -> & Hinv). cbn [mbind go_mbind fst].
    rewrite Nat2Z.id. eexists _, v. split; [done|]. split; [done|]. split; [done|]. split; [done|].
    split; [done|]. split; [cbn; by apply list_lookup_insert_eq|]. split; [by left|done].
Qed.

Lemma extends_trans vs1 vs2 vs3 : extends vs1 vs2 -> extends vs2 vs3 -> extends vs1 vs3.
Proof.
  intros (S1 & P1 & M1) (S2 & P2 & M2). split_and!; [congruence|congruence|].
  intros Hm. rewrite M2; [by apply M1|]. by rewrite M1.
Qed.

Lemma Inv_canonical vs k bv i v : Inv vs -> vs_votesByBlock vs !! k = Some bv -> bv_votes bv !! i = Some (Some v) ->
  is_Some (canonical vs i).
Proof.
  intros Hi Hk Hv. destruct (inv_blocks None vs Hi k bv Hk) as (_ & _ & Hb & _).
  destruct (Hb i v Hv) as (_ & _ & w & Hw). rewrite (canonical_spec _ _ _ Hw). eauto.
Qed.

Lemma addVerifiedVote_spec vs i v val : let k := Key (v_BlockID v) in
  Inv vs -> voteOK vs i v -> vals vs !! i = Some val -> unknown vs i k ->
  exists vs', addVerifiedVote vs v k (val_VotingPower val) =
      Ret (vs', bool_decide (canonical vs i = None) || claimed vs k, canonical vs i) /\
    Inv vs' /\ extends vs vs' /\ is_Some (canonical vs' i) /\
    (bool_decide (canonical vs i = None) || claimed vs k = true ->
     exists bv', vs_votesByBlock vs' !! k = Some bv' /\ bv_votes bv' !! i = Some (Some v)).
Proof.
  intros k Hi Hok Hval Hu.
  destruct (addCanonical_spec vs i v val Hi Hok Hval Hu) as (vs1 & w & E & Hi1 & Hc1 & Hx1 & Hbb & Hw & Htr & Hmaj).
  assert (Hst : static vs1 = static vs) by apply Hx1.
  assert (Hok1 : voteOK vs1 i v) by (by apply (voteOK_static vs)).
  assert (Hval1 : vals vs1 !! i = Some val) by (by rewrite (static_vals _ _ Hst)).
  assert (Hadd : forall bv, blockOK vs1 k bv -> bv_votes bv !! i = Some None ->
    (vs_votesByBlock vs1 !! k = Some bv \/ vs_votesByBlock vs1 !! k = None /\ bv_sum bv = 0) ->
    exists vs', addToBlock vs1 bv v k (val_VotingPower val) = Ret vs' /\ Inv vs' /\ extends vs vs' /\
      is_Some (canonical vs' i) /\ exists bv', vs_votesByBlock vs' !! k = Some bv' /\ bv_votes bv' !! i = Some (Some v)).
  { intros bv Hb Hn Hcur.
    destruct (addToBlock_spec vs1 bv i v w val Hi1 Hb Hok1 Hval1 Hn Hw Htr Hcur Hmaj) as (vs' & E' & Hi' & Hx' & bv' & Hk' & Hv').
    exists vs'. split; [done|]. split; [done|]. split; [by eapply extends_trans|].
    split; [by eapply (Inv_canonical vs' k)|by exists bv']. }
  unfold addVerifiedVote. fold k in E. rewrite E. cbn [mbind go_mbind]. rewrite Hbb. unfold claimed.
  destruct (vs_votesByBlock vs !! k) as [bv|] eqn:Ek.
  - assert (Hb : blockOK vs1 k bv) by (apply (inv_blocks _ vs1 Hi1); congruence).
    destruct (Hadd bv Hb (proj2 Hu bv Ek)) as (vs' & Ea & Hi' & Hx' & Hc' & Hr'); [left; congruence|].
    destruct (canonical vs i) as [c|] eqn:Ec.
    + rewrite bool_decide_false by done. cbn [orb]. destruct (bv_peerMaj23 bv); cbn [negb].
      * rewrite Ea. cbn [mbind go_mbind]. by exists vs'.
      * exists vs1. split; [done|]. split; [by apply Hc1|]. split; [done|].
        split; [by rewrite (canonical_spec _ _ _ Hw)|done].
    + rewrite bool_decide_true by done. cbn [orb]. rewrite Ea. cbn [mbind go_mbind]. by exists vs'.
  - destruct (canonical vs i) as [c|] eqn:Ec.
    + rewrite bool_decide_false by done. exists vs1. split; [done|]. split; [by apply Hc1|]. split; [done|].
      split; [by rewrite (canonical_spec _ _ _ Hw)|done].
    + rewrite bool_decide_true by done. cbn [orb].
      destruct (newBlockVotes_spec (Some i) vs1 k false Hi1) as (bv & -> & Hb & Hs & _ & Hv). cbn [mbind go_mbind].
      destruct (Hadd bv Hb) as (vs' & Ea & Hi' & Hx' & Hc' & Hr'); [|right; split; [congruence|done]|].
      { rewrite Hv. apply lookup_replicate_2. by eapply lookup_lt_Some. }
      rewrite Ea. cbn [mbind go_mbind]. by exists vs'.
Qed.

(** ** addVote *)

Lemma getVote_spec vs i k : Inv vs -> (i < length (vals vs))%nat ->
  (getVote vs (Z.of_nat i) k = Ret None /\ unknown vs i k) \/
  (exists w, getVote vs (Z.of_nat i) k = Ret (Some w) /\ voteOK vs i w /\ Key (v_BlockID w) = k).
Proof.
  intros Hi Hlt. destruct (lookup_lt_is_Some_2 (vs_votes vs) i) as [o Ho]; [by rewrite (inv_len None vs Hi)|].
  unfold getVote. rewrite (idx_lookup _ _ o) by (lia || by rewrite Nat2Z.id). cbn [mbind go_mbind].
  assert (Hblock : (forall w, o = Some w -> Key (v_BlockID w) <> k) ->
    (bv_getByIndex (vs_votesByBlock vs !! k) (Z.of_nat i) = Ret None /\ unknown vs i k) \/
    (exists w, bv_getByIndex (vs_votesByBlock vs !! k) (Z.of_nat i) = Ret (Some w) /\ voteOK vs i w /\ Key (v_BlockID w) = k)).
  { intros Hne. destruct (vs_votesByBlock vs !! k) as [bv|] eqn:Ek; cbn [bv_getByIndex].
    - destruct (inv_blocks None vs Hi k bv Ek) as (B1 & _ & B3 & _).
      destruct (lookup_lt_is_Some_2 (bv_votes bv) i) as [x Hx]; [by rewrite B1|].
      rewrite (idx_lookup _ _ x) by (lia || by rewrite Nat2Z.id). destruct x as [x|].
      + right. exists x. split; [done|]. destruct (B3 i x Hx) as (? & ? & _). done.
      + left. split; [done|]. split; [intros w Hw; apply Hne; congruence|]. intros bv' Hbv'. congruence.
    - left. split; [done|]. split; [intros w Hw; apply Hne; congruence|]. intros bv' Hbv'. congruence. }
  destruct o as [w|]; [|by apply Hblock]. destruct (bytes_eqb _ _) eqn:Eb.
  - apply bytes_eqb_true in Eb. right. exists w. split; [done|]. split; [by apply (inv_votes None vs Hi)|done].
  - apply bytes_eqb_false in Eb. apply Hblock. by intros ? [= ->].
Qed.

Lemma voteOK_signed vs i v : voteOK vs i v -> exists s, v_Signature v = Some s.
Proof.
  intros (_ & _ & _ & _ & val & _ & _ & Hv). apply Vote_Verify_ok in Hv as (pk & _ & _ & Hv).
  destruct (v_Signature v) as [s|]; [by exists s|]. by rewrite VerifyBytes_nil in Hv.
Qed.

Lemma Vote_Verify_cases vs i val v : Inv vs -> vals vs !! i = Some val ->
  Vote_Verify (vs_chainID vs) (val_PubKey val) v = Ret None \/
  exists err, Vote_Verify (vs_chainID vs) (val_PubKey val) v = Ret (Some err) /\ forall pk a b, err <> ErrVoteConflictingVotes pk a b.
Proof.
  intros Hi Hval. destruct (inv_powers None vs Hi) as (_ & _ & Hk).
  pose proof (Forall_lookup_1 _ _ i val Hk Hval) as Hkey. cbn in Hkey. unfold Vote_Verify.
  destruct (val_PubKey val) as [pk|]; [|done]. cbn [deref mbind go_mbind].
  destruct (negb _); [right; by eexists|]. destruct (negb _); [right; by eexists|by left].
Qed.

(** The answer of [addVote] to a vote, by cases. *)
Inductive outcome (vs : VoteSet) (vote : option Vote) (vs' : VoteSet) : bool -> option VoteError -> Prop :=
| Rejected err :
    vs' = vs -> (forall pk a b, err <> ErrVoteConflictingVotes pk a b) -> outcome vs vote vs' false (Some err)
| Duplicate v w i :
    vote = Some v -> vs' = vs -> voteOK vs i w -> Key (v_BlockID w) = Key (v_BlockID v) ->
    v_ValidatorIndex v = Z.of_nat i -> v_Signature w = v_Signature v -> outcome vs vote vs' false None
| Added v i :
    vote = Some v -> voteOK vs i v -> canonical vs i = None ->
    (exists bv, vs_votesByBlock vs' !! Key (v_BlockID v) = Some bv /\ bv_votes bv !! i = Some (Some v)) ->
    is_Some (canonical vs' i) -> outcome vs vote vs' true None
| Conflicting v i w pk added :
    vote = Some v -> voteOK vs i v -> canonical vs i = Some w -> voteOK vs i w ->
    Key (v_BlockID w) <> Key (v_BlockID v) ->
    (exists val, vals vs !! i = Some val /\ val_PubKey val = pk) ->
    added = claimed vs (Key (v_BlockID v)) ->
    outcome vs vote vs' added (Some (ErrVoteConflictingVotes pk w v)).

Lemma addVote_spec vs vote : Inv vs ->
  exists vs' added err, addVote vs vote = Ret (vs', added, err) /\ Inv vs' /\ extends vs vs' /\
    outcome vs vote vs' added err.
Proof.
  intros Hi. destruct vote as [v|]; cbn [addVote].
  2:{ exists vs, false, (Some ErrVoteNil). split; [done|]. split; [done|]. split; [done|]. by apply Rejected. }
  assert (Hrej : forall err, (forall pk a b, err <> ErrVoteConflictingVotes pk a b) ->
    exists vs' added err', Ret (vs, false, Some err) = Ret (vs', added, err') /\ Inv vs' /\ extends vs vs' /\
      outcome vs (Some v) vs' added err').
  { intros err Herr. exists vs, false, (Some err). split; [done|]. split; [done|]. split; [done|]. by apply Rejected. }
  destruct (Z.ltb_spec (v_ValidatorIndex v) 0) as [|Hidx]; [by apply Hrej|].
  destruct (zlen (v_ValidatorAddress v) =? 0); [by apply Hrej|].
  destruct (Z.eqb_spec (v_Height v) (vs_height vs)) as [Eh|]; cbn [negb orb]; [|by apply Hrej].
  destruct (Z.eqb_spec (v_Round v) (vs_round vs)) as [Er|]; cbn [negb orb]; [|by apply Hrej].
  destruct (Z.eqb_spec (v_Type v) (vs_type vs)) as [Et|]; cbn [negb orb]; [|by apply Hrej].
  destruct (GetByIndex (vs_valSet vs) (v_ValidatorIndex v)) as [[addr val]|] eqn:Eg; [|by apply Hrej].
  assert (Hval : vals vs !! Z.to_nat (v_ValidatorIndex v) = Some val /\ addr = val_Address val).
  { unfold GetByIndex in Eg. destruct (_ || _); [done|]. fold (vals vs) in Eg.
    destruct (vals vs !! _); [|done]. by injection Eg as <- <-. }
  destruct Hval as [Hval ->]. set (i := Z.to_nat (v_ValidatorIndex v)) in *.
  assert (Ei : v_ValidatorIndex v = Z.of_nat i) by (unfold i; lia). rewrite Ei.
  destruct (bytes_eqb _ _) eqn:Eaddr; cbn [negb]; [|by apply Hrej]. apply bytes_eqb_true in Eaddr.
  destruct (getVote_spec vs i (Key (v_BlockID v)) Hi) as [[-> Hu]|(w & -> & Hw & Hk)]; [by eapply lookup_lt_Some| |]; cbn [mbind go_mbind].
  - destruct (Vote_Verify_cases vs i val v Hi Hval) as [Ev|(err & Ev & Herr)]; rewrite Ev; cbn [mbind go_mbind]; [|by apply Hrej].
    assert (Hok : voteOK vs i v) by (split_and!; try done; by exists val).
    destruct (addVerifiedVote_spec vs i v val Hi Hok Hval Hu) as (vs' & -> & Hi' & Hx & Hc & Hadd). cbn [mbind go_mbind].
    destruct (canonical vs i) as [c|] eqn:Ec.
    + do 3 eexists. split; [done|]. split; [done|]. split; [done|].
      assert (Hcv : vs_votes vs !! i = Some (Some c)).
      { unfold canonical in Ec. by destruct (vs_votes vs !! i) as [[x|]|]; [injection Ec as ->|..]. }
      rewrite bool_decide_false by done. cbn [orb].
      eapply Conflicting; try done; [by apply (inv_votes None vs Hi)|by apply Hu|by exists val].
    + rewrite bool_decide_true by done. cbn [orb negb]. do 3 eexists. split; [done|]. split; [done|]. split; [done|].
      eapply Added; try done. by apply Hadd.
  - destruct (voteOK_signed vs i w Hw) as [s Hs]. rewrite Hs.
    destruct (Signature_Equals s (v_Signature v)) eqn:Es; [|by apply Hrej].
    apply Signature_Equals_eq in Es. exists vs, false, None. split; [done|]. split; [done|]. split; [done|].
    eapply Duplicate; try done. congruence.
Qed.

(** ** SetPeerMaj23 and NewVoteSet *)

Lemma blockOK_peer vs k bv p : blockOK vs k bv -> blockOK vs k (mkBlockVotes p (bv_bitArray bv) (bv_votes bv) (bv_sum bv)).
Proof. done. Qed.

(** Replacing or creating a record with the same votes keeps the invariant. *)
Lemma Inv_setBlock vs k bv bv' peers : Inv vs -> blockOK vs k bv' -> 
  (vs_votesByBlock vs !! k = Some bv /\ bv_votes bv' = bv_votes bv /\ bv_sum bv' = bv_sum bv) \/
  (vs_votesByBlock vs !! k = None /\ bv_sum bv' = 0) ->
  Inv (setByBlock (setPeerMaj23s vs peers) (<[k := bv']> (vs_votesByBlock vs))).
Proof.
  intros Hi Hb Hcase. constructor; [destruct (inv_core _ _ Hi); constructor; try done|].
  - intros k' x Hk'. cbn in Hk'. destruct (decide (k' = k)) as [->|Hne].
    + rewrite lookup_insert_eq in Hk'. by injection Hk' as <-.
    + rewrite lookup_insert_ne in Hk' by done. by apply inv_blocks0.
  - intros i v Hv _. cbn in Hv |- *. destruct (inv_tracked0 i v Hv ltac:(done)) as (x & Hx).
    destruct (decide (Key (v_BlockID v) = k)) as [->|]; [rewrite lookup_insert_eq; eauto|].
    rewrite lookup_insert_ne by done. eauto.
  - pose proof (inv_maj _ _ Hi) as Hm. pose proof (quorum_pos None vs Hi) as Hq. unfold majOK in *.
    cbn [vs_maj23 setByBlock setPeerMaj23s vs_votesByBlock vs_votes].
    change (quorum (setByBlock _ _)) with (quorum vs). destruct (vs_maj23 vs) as [b|].
    + destruct Hm as (x & M1 & M2 & M3). destruct (decide (Key b = k)) as [Ek|Hne].
      * rewrite Ek in *. rewrite lookup_insert_eq. exists bv'. destruct Hcase as [(C1 & C2 & C3)|[C1 _]]; [|congruence].
        rewrite C2, C3. assert (x = bv) as <- by congruence. done.
      * rewrite lookup_insert_ne by done. by exists x.
    + intros k' x Hk'. destruct (decide (k' = k)) as [->|Hne].
      * rewrite lookup_insert_eq in Hk'. injection Hk' as <-.
        destruct Hcase as [(C1 & C2 & ->)|[_ ->]]; [by eapply Hm|done].
      * rewrite lookup_insert_ne in Hk' by done. by eapply Hm.
Qed.

Lemma Inv_setPeers vs peers : Inv vs -> Inv (setPeerMaj23s vs peers).
Proof. intros Hi. constructor; [destruct (inv_core _ _ Hi); by constructor|apply (inv_maj _ _ Hi)]. Qed.

Lemma SetPeerMaj23_spec vs peer b : Inv vs ->
  exists vs' ok, SetPeerMaj23 (Some vs) peer b = Ret (vs', ok) /\ Inv vs' /\
    static vs' = static vs /\ vs_maj23 vs' = vs_maj23 vs /\ vs_votes vs' = vs_votes vs.
Proof.
  intros Hi. cbn [SetPeerMaj23]. destruct (vs_peerMaj23s vs !! peer) as [x|].
  { destruct (BlockID_Equals x b); do 2 eexists; done. }
  cbn [vs_votesByBlock setPeerMaj23s vs_valSet].
  destruct (vs_votesByBlock vs !! Key b) as [bv|] eqn:Ek.
  - destruct (bv_peerMaj23 bv).
    + do 2 eexists. split; [done|]. split; [by apply Inv_setPeers|done].
    + do 2 eexists. split; [done|]. split; [|done]. eapply Inv_setBlock; [done| |by left].
      apply blockOK_peer. by apply (inv_blocks None vs Hi).
  - destruct (newBlockVotes_spec None vs (Key b) true Hi) as (bv & -> & Hb & Hs & _). cbn [mbind go_mbind].
    do 2 eexists. split; [done|]. split; [|done]. by eapply (Inv_setBlock vs (Key b) bv); [| |right].
Qed.

Lemma NewVoteSet_spec chainID height round type_ valSet : valsOK valSet -> cacheOK valSet -> height <> 0 ->
  exists vs, NewVoteSet chainID height round type_ valSet = Ret vs /\ Inv vs /\
    static vs = (chainID, height, round, type_, valSet) /\ vs_maj23 vs = None.
Proof.
  intros Hp Hc Hh. unfold NewVoteSet. rewrite (proj2 (Z.eqb_neq _ _)) by done. unfold Size.
  destruct (BitArray.bitsOK_new (A := Vote) (zlen (Validators valSet)) (zlen_nonneg _)) as (bA & -> & Hb). cbn [mbind go_mbind].
  unfold mkslice. rewrite (proj2 (Z.ltb_ge _ _)) by apply zlen_nonneg. cbn [mbind go_mbind].
  unfold zlen in *. rewrite Nat2Z.id in *. eexists. split; [done|]. split; [|done].
  constructor; [constructor; try done|]; cbn.
  - apply length_replicate.
  - intros i v Hv. apply lookup_replicate in Hv as [[=] _].
  - by rewrite votedPower_none.
  - intros i v Hv. apply lookup_replicate in Hv as [[=] _].
  - intros k bv Hk. by rewrite lookup_empty in Hk.
Qed.

(** ** A majority is final *)

(** Whatever the validators, an operation that returns keeps the majority. *)
Definition majKept (vs vs' : VoteSet) : Prop := vs_maj23 vs <> None -> vs_maj23 vs' = vs_maj23 vs.

Lemma majKept_trans vs1 vs2 vs3 : majKept vs1 vs2 -> majKept vs2 vs3 -> majKept vs1 vs3.
Proof. unfold majKept. intros H1 H2 Hm. rewrite H2, H1 by (try rewrite H1; done). done. Qed.

Lemma addCanonical_maj vs v k p r : addCanonical vs v k p = Ret r -> majKept vs r.1.
Proof.
  unfold addCanonical. intros E. go_inv. destruct r0 as [w|]; [|go_inv; by intros ?].
  destruct (BlockID_Equals _ _); [done|]. destruct (vs_maj23 vs) as [b|] eqn:Em; [|go_inv; by intros ?].
  destruct (bytes_eqb _ _); go_inv; by intros ?.
Qed.

Lemma addToBlock_maj vs bv v k p vs' : addToBlock vs bv v k p = Ret vs' -> majKept vs vs'.
Proof.
  unfold addToBlock. intros E. go_inv. destruct (_ && _); [|go_inv; by intros ?].
  cbn [vs_maj23 setByBlock] in E. destruct (vs_maj23 vs) as [b|] eqn:Em; go_inv; intros Hm; cbn; congruence.
Qed.

Lemma addVerifiedVote_maj vs v k p r : addVerifiedVote vs v k p = Ret r -> majKept vs r.1.1.
Proof.
  unfold addVerifiedVote. intros E. go_inv. pose proof (addCanonical_maj _ _ _ _ _ E0) as Hc.
  destruct r0 as [vs1 c]. cbn in Hc. destruct (vs_votesByBlock vs1 !! k) as [bv|], c as [c|]; go_inv;
    try (destruct (negb _); go_inv); try done; eapply majKept_trans; try done; by eapply addToBlock_maj.
Qed.

Lemma addVote_maj vs vote r : addVote vs vote = Ret r -> majKept vs r.1.1.
Proof.
  unfold addVote. intros E. destruct vote as [v|]; [|go_inv; by intros ?].
  repeat match type of E with (if ?b then _ else _) = _ => destruct b; [go_inv; by intros ?|] end.
  destruct (GetByIndex _ _) as [[a val]|]; [|go_inv; by intros ?].
  destruct (negb _); [go_inv; by intros ?|]. go_inv. destruct r0 as [w|].
  { destruct (v_Signature w); [|done]. destruct (Signature_Equals _ _); go_inv; by intros ?. }
  go_inv. destruct r0 as [e|]; [go_inv; by intros ?|]. go_inv. pose proof (addVerifiedVote_maj _ _ _ _ _ E2) as Hm.
  destruct r0 as [[vs1 added] [c|]]; [by go_inv|]. destruct (negb added); [done|]. by go_inv.
Qed.

Lemma SetPeerMaj23_maj vs peer b r : SetPeerMaj23 (Some vs) peer b = Ret r -> majKept vs r.1.
Proof.
  cbn [SetPeerMaj23]. destruct (vs_peerMaj23s vs !! peer); [destruct (BlockID_Equals _ _); intros; go_inv; by intros ?|].
  cbn [setPeerMaj23s vs_votesByBlock vs_valSet]. destruct (vs_votesByBlock vs !! _) as [bv|];
    [destruct (bv_peerMaj23 bv)|]; intros; go_inv; by intros ?.
Qed.

(** ** Reachable vote sets *)

Inductive op :=
| OpAddVote (vote : option Vote)
| OpPeerMaj23 (peer : bytes) (blockID : BlockID).

Definition run (vs : VoteSet) (o : op) : go VoteSet :=
  match o with
  | OpAddVote vote => r ← AddVote (Some vs) vote; Ret r.1.1
  | OpPeerMaj23 peer b => r ← SetPeerMaj23 (Some vs) peer b; Ret r.1
  end.

Inductive reachable (chainID : bytes) (height round type_ : Z) (valSet : ValidatorSet) : VoteSet -> Prop :=
| reach_new vs : NewVoteSet chainID height round type_ valSet = Ret vs -> reachable chainID height round type_ valSet vs
| reach_step vs o vs' : reachable chainID height round type_ valSet vs -> run vs o = Ret vs' ->
    reachable chainID height round type_ valSet vs'.

Lemma run_spec vs o : Inv vs -> exists vs', run vs o = Ret vs' /\ Inv vs' /\ static vs' = static vs /\
  (vs_maj23 vs <> None -> vs_maj23 vs' = vs_maj23 vs).
Proof.
  intros Hi. destruct o as [vote|peer b]; cbn [run AddVote].
  - destruct (addVote_spec vs vote Hi) as (vs' & a & e & -> & Hi' & (Hs & _ & Hm) & _). by exists vs'.
  - destruct (SetPeerMaj23_spec vs peer b Hi) as (vs' & ok & -> & Hi' & Hs & Hm & _). by exists vs'.
Qed.

Lemma reachable_Inv chainID height round type_ valSet vs : valsOK valSet -> cacheOK valSet ->
  reachable chainID height round type_ valSet vs -> Inv vs /\ static vs = (chainID, height, round, type_, valSet).
Proof.
  intros Hp Hc Hr. induction Hr as [vs E|vs o vs' Hr IH E].
  - assert (height <> 0).
    { intros ->. unfold NewVoteSet in E. done. }
    destruct (NewVoteSet_spec chainID height round type_ valSet Hp Hc) as (vs' & E' & Hi & Hs & _); [done|].
    rewrite E in E'. by injection E' as ->.
  - destruct IH as [Hi Hs]. destruct (run_spec vs o Hi) as (x & E' & Hi' & Hs' & _).
    rewrite E in E'. injection E' as ->. split; [done|congruence].
Qed.

(** The votes behind a majority. *)
Lemma maj23_votes vs b : Inv vs -> vs_maj23 vs = Some b ->
  exists votes, length votes = length (vals vs) /\
    (forall i v, votes !! i = Some (Some v) -> voteOK vs i v /\ Key (v_BlockID v) = Key b) /\
    2 * total vs < 3 * votedPower anyVote (vals vs) votes.
Proof.
  intros Hi Hb. pose proof (inv_maj _ _ Hi) as Hm. unfold majOK in Hm. rewrite Hb in Hm.
  destruct Hm as (bv & Hk & Hq & _). destruct (inv_blocks None vs Hi _ bv Hk) as (B1 & _ & B3 & B4).
  exists (bv_votes bv). split; [done|]. split; [intros i v Hv; by destruct (B3 i v Hv) as (? & ? & _)|].
  rewrite <- B4. exact (proj1 (quorum_iff None vs _ Hi) Hq).
Qed.

(** ** Quorums intersect *)

Definition bothVoted (a b : option Vote) : option Vote :=
  match a, b with Some x, Some _ => Some x | _, _ => None end.

Lemma quorum_overlap vals v1 v2 : Forall (fun v => 0 <= val_VotingPower v) vals ->
  votedPower anyVote vals v1 + votedPower anyVote vals v2 <=
  sumZ val_VotingPower vals + votedPower anyVote vals (zip_with bothVoted v1 v2).
Proof.
  unfold votedPower. revert v1 v2. induction vals as [|x vals IH]; intros v1 v2 Hf; [done|].
  pose proof Hf as Hf0. apply Forall_cons in Hf as [Hx Hf].
  destruct v1 as [|o1 v1], v2 as [|o2 v2]; cbn [zip_with].
  - rewrite sumZ_cons. change (sumZ (contrib anyVote) []) with 0.
    assert (0 <= sumZ val_VotingPower vals) by (apply sumZ_nonneg; by apply Forall_forall). lia.
  - change (sumZ (contrib anyVote) []) with 0. pose proof (votedPower_bounds anyVote (x :: vals) (o2 :: v2) Hf0) as Hb.
    unfold votedPower in Hb. cbn [zip_with] in Hb. lia.
  - change (sumZ (contrib anyVote) []) with 0. pose proof (votedPower_bounds anyVote (x :: vals) (o1 :: v1) Hf0) as Hb.
    unfold votedPower in Hb. cbn [zip_with] in Hb. lia.
  - rewrite !sumZ_cons. specialize (IH v1 v2 Hf). rewrite !contrib_any. destruct o1, o2; cbn; lia.
Qed.

(** The canonical votes for the majority block reach the quorum too. *)
Lemma canonical_majority vs b : Inv vs -> vs_maj23 vs = Some b ->
  2 * total vs < 3 * votedPower (forKey (Key b)) (vals vs) (vs_votes vs).
Proof.
  intros Hi Hb. pose proof (inv_maj _ _ Hi) as Hm. unfold majOK in Hm. rewrite Hb in Hm.
  destruct Hm as (bv & Hk & Hq & Hv). destruct (inv_blocks None vs Hi _ bv Hk) as (B1 & _ & B3 & B4).
  apply (quorum_iff None vs _ Hi) in Hq. rewrite B4 in Hq.
  assert (votedPower anyVote (vals vs) (bv_votes bv) <= votedPower (forKey (Key b)) (vals vs) (vs_votes vs)); [|lia].
  apply votedPower_le; [exact (nonneg_vals None vs Hi)|]. intros i v Hiv _.
  destruct (Hv i v Hiv) as (w & Hw & Hkw). exists w. split; [done|]. by apply bytes_eqb_true.
Qed.

(** A majority for one block is two thirds for any. *)
Lemma maj23_any vs b : Inv vs -> vs_maj23 vs = Some b -> HasTwoThirdsAny (Some vs) = true.
Proof.
  intros Hi Hb. pose proof (canonical_majority vs b Hi Hb) as Hc. destruct (total_nonneg None vs Hi) as [T1 T2].
  cbn [HasTwoThirdsAny]. apply Z.ltb_lt. rewrite totalPower_sum by (by destruct Hi as [[]]). fold (vals vs). fold (total vs). apply twoThirds_spec; [done..|].
  rewrite (inv_sum None vs Hi).
  assert (votedPower (forKey (Key b)) (vals vs) (vs_votes vs) <= votedPower anyVote (vals vs) (vs_votes vs)); [|lia].
  apply votedPower_le; [exact (nonneg_vals None vs Hi)|]. intros i v Hv _. by exists v.
Qed.

Lemma powerFor_contrib b l ps : (forall i v, ps !! i = Some (Some v) -> Key (v_BlockID v) = Key b -> v_BlockID v = b) ->
  Forall (fun v => 0 <= val_VotingPower v) l ->
  votedPower (forKey (Key b)) l ps <= sumZ (powerFor b) (zip l ps).
Proof.
  unfold votedPower. revert ps. induction l as [|x l IH]; intros ps Hk Hf; [done|].
  apply Forall_cons in Hf as [Hx Hf]. destruct ps as [|o ps]; cbn [zip_with]; [done|]. rewrite !sumZ_cons.
  assert (contrib (forKey (Key b)) (x, o) <= powerFor b (x, o)); [|specialize (IH ps (fun i => Hk (S i)) Hf); lia].
  unfold contrib, powerFor, forKey; cbn. destruct o as [v|]; [|done].
  destruct (bytes_eqb _ _) eqn:E; [|by destruct (BlockID_Equals _ _)].
  apply bytes_eqb_true in E. rewrite (Hk 0%nat v eq_refl E), BlockID_Equals_refl. done.
Qed.

(** The first precommit of the canonical votes is of the set's step. *)
Lemma firstSome_elem (l : list (option Vote)) v : firstSome l = Some v -> exists i, l !! i = Some (Some v).
Proof.
  induction l as [|[w|] l IH]; cbn; [done|intros [= ->]; by exists 0%nat|].
  intros E. destruct (IH E) as [i Hi]. by exists (S i).
Qed.

Lemma firstSome_none (l : list (option Vote)) i v : firstSome l = None -> l !! i <> Some (Some v).
Proof.
  revert i. induction l as [|[w|] l IH]; intros i; cbn; [done|done|].
  intros E. destruct i as [|i]; [done|]. by apply IH.
Qed.

Lemma MakeCommit_ok vs b commit : Inv vs -> vs_maj23 vs = Some b -> MakeCommit vs = Ret commit ->
  (forall i v, vs_votes vs !! i = Some (Some v) -> Key (v_BlockID v) = Key b -> v_BlockID v = b) ->
  VerifyCommit (vs_valSet vs) (vs_chainID vs) b (vs_height vs) commit = Ret None.
Proof.
  intros Hi Hb Hc Hinj. unfold MakeCommit in Hc. destruct (Z.eqb_spec (vs_type vs) VoteTypePrecommit) as [Ht|]; [|done].
  cbn [negb] in Hc. rewrite Hb in Hc. injection Hc as <-.
  pose proof (canonical_majority vs b Hi Hb) as Hq. pose proof (nonneg_vals None vs Hi) as Hnn.
  assert (Hfirst : exists v i, firstSome (vs_votes vs) = Some v /\ voteOK vs i v).
  { destruct (firstSome (vs_votes vs)) as [v|] eqn:E.
    - destruct (firstSome_elem _ _ E) as [i Hv]. exists v, i. split; [done|]. by apply (inv_votes None vs Hi).
    - exfalso. assert (votedPower (forKey (Key b)) (vals vs) (vs_votes vs) <= 0).
      { rewrite <- (votedPower_none anyVote (vals vs) 0). apply votedPower_le; [done|].
        intros i v Hv. by destruct (firstSome_none _ i v E). }
      destruct (total_nonneg None vs Hi). lia. }
  destruct Hfirst as (v0 & i0 & E0 & (_ & Hh0 & Hr0 & _)).
  assert (Hne : vs_votes vs <> []) by (by intros E; rewrite E in E0).
  assert (Hz : (zlen (vs_votes vs) =? 0) = false).
  { apply Z.eqb_neq. unfold zlen. destruct (vs_votes vs); [done|cbn; lia]. }
  destruct (VerifyCommit_spec (vs_valSet vs) (vs_chainID vs) b (vs_height vs) (mkCommit b (vs_votes vs)))
    as (r & -> & Hr); [exact (inv_powers None vs Hi)|exact (inv_cache None vs Hi)|].
  f_equal. apply Hr. unfold Commit_Height, Commit_Round, FirstPrecommit. cbn [c_Precommits]. rewrite Hz, E0.
  split_and!; [exact (inv_len None vs Hi)|done| |].
  - apply Forall_forall. intros [val o] Hin. unfold precommitOK; cbn. destruct o as [v|]; [|done].
    apply list_elem_of_lookup in Hin as [i Hin]. apply lookup_zip_with_Some in Hin as (val' & o' & [= -> <-] & Hv1 & Hv2).
    destruct (inv_votes None vs Hi i v Hv2) as (_ & V2 & V3 & V4 & x & Hx & _ & Hver).
    apply Vote_Verify_ok in Hver as (pk & Hpk & _ & Hver). assert (x = val') as -> by congruence.
    split_and!; [done|congruence|congruence|by exists pk].
  - unfold committedPower; cbn. fold (vals vs). fold (total vs).
    pose proof (powerFor_contrib b (vals vs) (vs_votes vs) Hinj Hnn). lia.
Qed.

(** ** Properties *)

(** C15: a vote set for well-formed validators never panics.  If all validators
    have a key, powers that can be added up and a cached total that is unset or
    right, then from [NewVoteSet] on, after any sequence of
    votes (of any content) and majority claims, the invariant holds (votes
    are signed by the validator at their index, the bit arrays show exactly
    the votes present, the sums are the power of those votes, the majority is
    set exactly when a block reached the quorum), every further call returns,
    and a majority once found is never replaced. *)
Theorem VoteSet_invariant chainID height round type_ valSet vs : valsOK valSet -> cacheOK valSet ->
  reachable chainID height round type_ valSet vs ->
  Inv vs /\ forall o, exists vs', run vs o = Ret vs' /\ Inv vs' /\
    (vs_maj23 vs <> None -> vs_maj23 vs' = vs_maj23 vs).
Proof.
  intros Hp Hc Hr. destruct (reachable_Inv _ _ _ _ _ _ Hp Hc Hr) as [Hi _]. split; [done|]. intros o.
  destruct (run_spec vs o Hi) as (vs' & E & Hi' & _ & Hm). by exists vs'.
Qed.

(** What [AddVote] answers, on every branch.  A rejected vote leaves the
    set unchanged; a nil error with [added = false] is a duplicate of a stored
    vote; [added] without an error means the vote is validly signed, new, and
    recorded under its block; a conflict error carries two votes of one
    validator, both validly signed for this step and for different blocks,
    and then [added] tells whether a peer claimed a majority for the block. *)
Theorem AddVote_outcome chainID height round type_ valSet vs vote : valsOK valSet -> cacheOK valSet ->
  reachable chainID height round type_ valSet vs ->
  exists vs' added err, AddVote (Some vs) vote = Ret (vs', added, err) /\ outcome vs vote vs' added err.
Proof.
  intros Hp Hc Hr. destruct (reachable_Inv _ _ _ _ _ _ Hp Hc Hr) as [Hi _].
  destruct (addVote_spec vs vote Hi) as (vs' & added & err & E & _ & _ & Ho). by exists vs', added, err.
Qed.

(** C6: a reported majority is one.  When [TwoThirdsMajority] returns a block,
    validators holding more than two thirds of the power each signed a vote
    for its key at this height, round and type. *)
Theorem TwoThirdsMajority_sound chainID height round type_ valSet vs b : valsOK valSet -> cacheOK valSet ->
  reachable chainID height round type_ valSet vs -> TwoThirdsMajority (Some vs) = (b, true) ->
  exists votes, length votes = length (Validators valSet) /\
    (forall i v, votes !! i = Some (Some v) -> voteOK vs i v /\ Key (v_BlockID v) = Key b) /\
    2 * sumZ val_VotingPower (Validators valSet) < 3 * votedPower anyVote (Validators valSet) votes.
Proof.
  intros Hp Hc Hr Hm. destruct (reachable_Inv _ _ _ _ _ _ Hp Hc Hr) as [Hi Hs]. cbn in Hm.
  destruct (vs_maj23 vs) as [b'|] eqn:Eb; [|done]. injection Hm as ->.
  destruct (maj23_votes vs b Hi Eb) as (votes & H1 & H2 & H3). exists votes.
  unfold total, vals, static in *. injection Hs as _ _ _ _ Ev. rewrite Ev in H1, H3. done.
Qed.

(** Quorums intersect in double signers.  If two vote sets of the same
    step and validators (say, of two nodes) report majorities for blocks with
    different keys, then validators holding more than one third of the power
    signed both: each of them has two valid votes for different blocks at one
    height, round and type. *)
Theorem majorities_intersect chainID height round type_ valSet vs1 vs2 b1 b2 : valsOK valSet -> cacheOK valSet ->
  reachable chainID height round type_ valSet vs1 -> reachable chainID height round type_ valSet vs2 ->
  TwoThirdsMajority (Some vs1) = (b1, true) -> TwoThirdsMajority (Some vs2) = (b2, true) -> Key b1 <> Key b2 ->
  exists doubles,
    (forall i v, doubles !! i = Some (Some v) -> exists v1 v2, voteOK vs1 i v1 /\ voteOK vs1 i v2 /\
       Key (v_BlockID v1) = Key b1 /\ Key (v_BlockID v2) = Key b2) /\
    sumZ val_VotingPower (Validators valSet) < 3 * votedPower anyVote (Validators valSet) doubles.
Proof.
  intros Hp Hc Hr1 Hr2 Hm1 Hm2 Hne.
  destruct (reachable_Inv _ _ _ _ _ _ Hp Hc Hr1) as [Hi1 Hs1], (reachable_Inv _ _ _ _ _ _ Hp Hc Hr2) as [Hi2 Hs2].
  cbn in Hm1, Hm2. destruct (vs_maj23 vs1) as [x1|] eqn:E1; [|done]. destruct (vs_maj23 vs2) as [x2|] eqn:E2; [|done].
  injection Hm1 as ->. injection Hm2 as ->.
  destruct (maj23_votes vs1 b1 Hi1 E1) as (votes1 & _ & V1 & Q1), (maj23_votes vs2 b2 Hi2 E2) as (votes2 & _ & V2 & Q2).
  assert (Hst : static vs1 = static vs2) by congruence.
  exists (zip_with bothVoted votes1 votes2). split.
  - intros i v Hv. apply lookup_zip_with_Some in Hv as (o1 & o2 & Eo & L1 & L2).
    destruct o1 as [v1|], o2 as [v2|]; cbn in Eo; try done. exists v1, v2.
    destruct (V1 i v1 L1) as [A1 K1], (V2 i v2 L2) as [A2 K2]. split_and!; [done|by apply (voteOK_static vs2)|done|done].
  - unfold total, vals in *. unfold static in Hs1, Hs2. injection Hs1 as _ _ _ _ Ev1. injection Hs2 as _ _ _ _ Ev2.
    rewrite Ev1 in Q1. rewrite Ev2 in Q2.
    pose proof (quorum_overlap (Validators valSet) votes1 votes2 (proj1 Hp)). lia.
Qed.

(** The commit made from a precommit set with a majority passes
    [VerifyCommit] for that block, provided no canonical vote carries another
    block id with the same key. *)
Theorem MakeCommit_verifies chainID height round valSet vs b commit : valsOK valSet -> cacheOK valSet ->
  reachable chainID height round VoteTypePrecommit valSet vs -> TwoThirdsMajority (Some vs) = (b, true) ->
  (forall i v, vs_votes vs !! i = Some (Some v) -> Key (v_BlockID v) = Key b -> v_BlockID v = b) ->
  MakeCommit vs = Ret commit -> VerifyCommit valSet chainID b height commit = Ret None.
Proof.
  intros Hp Hc Hr Hm Hinj Hcm. destruct (reachable_Inv _ _ _ _ _ _ Hp Hc Hr) as [Hi Hs]. cbn in Hm.
  destruct (vs_maj23 vs) as [b'|] eqn:Eb; [|done]. injection Hm as ->.
  pose proof (MakeCommit_ok vs b commit Hi Eb Hcm Hinj) as Hok. unfold static in Hs.
  injection Hs as E1 E2 _ _ E3. by rewrite E1, E2, E3 in Hok.
Qed.
End Spec.

(** ** Witnesses *)

Section Examples.
#[local] Existing Instance toyCodec.
#[local] Existing Instance toyCurves.

Definition exVal (name : String.string) (power : Z) : Validator := NewValidator (PubKeyEd25519 (str name)) power.
Definition exVals : ValidatorSet := mkValidatorSet [exVal "A" 5; exVal "B" 3; exVal "C" 2] None 0.
Definition exVote (name : String.string) (i type_ : Z) (b : BlockID) : Vote :=
  let addr := Address (PubKeyEd25519 (str name)) in
  let v := mkVote addr i 7 0 0 type_ b None in
  mkVote addr i 7 0 0 type_ b
    (Some (SignatureEd25519 (str name ++ Sha256.tmhash (Vote_SignBytes (str "chain") v)))).
Definition blockA : BlockID := mkBlockID (str "block A") (mkPartSetHeader 1 (str "parts")).
Definition blockB : BlockID := mkBlockID (str "block B") (mkPartSetHeader 1 (str "parts")).

Definition emptyVS : VoteSet := mkVoteSet [] 1 0 0 exVals None [] 0 None ∅ ∅.
Definition vsNew : VoteSet := fromRet emptyVS (NewVoteSet (str "chain") 7 0 2 exVals).
Definition vsOne : VoteSet := fromRet emptyVS (run vsNew (OpAddVote (Some (exVote "A" 0 2 blockA)))).
Definition vsMaj : VoteSet := fromRet emptyVS (run vsOne (OpAddVote (Some (exVote "C" 2 2 blockA)))).
(** Another node sees A and C vote for block B. *)
Definition vsOneB : VoteSet := fromRet emptyVS (run vsNew (OpAddVote (Some (exVote "A" 0 2 blockB)))).
Definition vsMajB : VoteSet := fromRet emptyVS (run vsOneB (OpAddVote (Some (exVote "C" 2 2 blockB)))).

Lemma exVals_powers : valsOK exVals.
Proof. apply (bool_decide_unpack (valsOK exVals)). vm_compute. exact I. Qed.

Lemma vsNew_reachable : reachable (str "chain") 7 0 2 exVals vsNew.
Proof. apply reach_new. apply fromRet_ok. vm_compute. reflexivity. Qed.

Lemma step_reachable vs o : reachable (str "chain") 7 0 2 exVals vs -> isRet (run vs o) = true ->
  reachable (str "chain") 7 0 2 exVals (fromRet emptyVS (run vs o)).
Proof. intros Hr Ho. eapply reach_step; [exact Hr|by apply fromRet_ok]. Qed.

Lemma vsMaj_reachable : reachable (str "chain") 7 0 2 exVals vsMaj.
Proof.
  apply step_reachable; [apply step_reachable; [apply vsNew_reachable|]|]; vm_compute; reflexivity.
Qed.

Lemma vsMajB_reachable : reachable (str "chain") 7 0 2 exVals vsMajB.
Proof.
  apply step_reachable; [apply step_reachable; [apply vsNew_reachable|]|]; vm_compute; reflexivity.
Qed.

Lemma VoteSet_invariant_witness : Inv vsMaj.
Proof.
  exact (proj1 (VoteSet_invariant _ _ _ _ exVals vsMaj exVals_powers (or_introl eq_refl) vsMaj_reachable)).
Defined.

Lemma AddVote_outcome_witness : exists vs' added err,
  AddVote (Some vsMaj) (Some (exVote "B" 1 2 blockB)) = Ret (vs', added, err) /\
  outcome vsMaj (Some (exVote "B" 1 2 blockB)) vs' added err.
Proof.
  exact (AddVote_outcome _ _ _ _ exVals vsMaj (Some (exVote "B" 1 2 blockB)) exVals_powers (or_introl eq_refl) vsMaj_reachable).
Defined.

Lemma TwoThirdsMajority_sound_witness : exists votes, length votes = 3%nat /\
  2 * sumZ val_VotingPower (Validators exVals) < 3 * votedPower anyVote (Validators exVals) votes.
Proof.
  destruct (TwoThirdsMajority_sound _ _ _ _ exVals vsMaj blockA exVals_powers (or_introl eq_refl) vsMaj_reachable
    ltac:(vm_compute; reflexivity)) as (votes & H1 & _ & H3).
  exists votes. split; [exact H1|exact H3].
Defined.

Lemma majorities_intersect_witness : exists doubles,
  sumZ val_VotingPower (Validators exVals) < 3 * votedPower anyVote (Validators exVals) doubles.
Proof.
  destruct (majorities_intersect _ _ _ _ exVals vsMaj vsMajB blockA blockB exVals_powers (or_introl eq_refl)
    vsMaj_reachable vsMajB_reachable ltac:(vm_compute; reflexivity) ltac:(vm_compute; reflexivity)
    ltac:(vm_compute; discriminate)) as (doubles & _ & H2).
  exists doubles. exact H2.
Defined.

Lemma MakeCommit_verifies_witness :
  VerifyCommit exVals (str "chain") blockA 7 (mkCommit blockA (vs_votes vsMaj)) = Ret None.
Proof.
  apply (MakeCommit_verifies (str "chain") 7 0 exVals vsMaj blockA); [exact exVals_powers|left; reflexivity|exact vsMaj_reachable| | |].
  - vm_compute. reflexivity.
  - intros i v Hv _. do 3 (destruct i as [|i]; [vm_compute in Hv; first [discriminate Hv|injection Hv as <-; reflexivity]|]).
    vm_compute in Hv. discriminate Hv.
  - vm_compute. reflexivity.
Defined.
End Examples.
End VoteSet.
