(* ===== verification/HeightVoteSet.v ===== *)
(** * consensus/types/height_vote_set.go

    The vote sets of one height, by round: rounds [0..round] are always
    tracked, and each peer may open up to two more by sending votes for
    them.  The source hands out pointers to the vote sets of its map; here an
    operation on one of them writes the changed set back under its round and
    type. *)

From S2P Require Import Prelude Sha256 Crypto BitArray Types ValidatorSet VoteSet.
Import Crypto Types ValidatorSet.

Module HeightVoteSet.

Section Operations.
Context `{Codec} `{Curves}.

Record RoundVoteSet := mkRoundVoteSet {
  Prevotes_ : VoteSet.VoteSet;
  Precommits_ : VoteSet.VoteSet }.

(** Peers are identified by the bytes of their [p2p.NodeID]. *)
Record HeightVoteSet := mkHeightVoteSet {
  hvs_chainID : bytes;
  hvs_height : Z;
  hvs_valSet : ValidatorSet;
  hvs_round : Z;
  hvs_roundVoteSets : gmap Z RoundVoteSet;
  hvs_peerCatchupRounds : gmap bytes (list Z) }.

(** The errors of [AddVote]: those of the vote set, and a vote for a third
    unknown round. *)
Inductive AddVoteError :=
| VoteSetError (e : VoteError)
| GotVoteFromUnwantedRoundError.

Definition setRoundVoteSets (h : HeightVoteSet) (m : gmap Z RoundVoteSet) : HeightVoteSet :=
  mkHeightVoteSet (hvs_chainID h) (hvs_height h) (hvs_valSet h) (hvs_round h) m (hvs_peerCatchupRounds h).
Definition setHvsRound (h : HeightVoteSet) (r : Z) : HeightVoteSet :=
  mkHeightVoteSet (hvs_chainID h) (hvs_height h) (hvs_valSet h) r (hvs_roundVoteSets h) (hvs_peerCatchupRounds h).
Definition setCatchup (h : HeightVoteSet) (m : gmap bytes (list Z)) : HeightVoteSet :=
  mkHeightVoteSet (hvs_chainID h) (hvs_height h) (hvs_valSet h) (hvs_round h) (hvs_roundVoteSets h) m.

Definition addRound (h : HeightVoteSet) (round : Z) : go HeightVoteSet :=
  match hvs_roundVoteSets h !! round with
  | Some _ => Panic (PanicSanity "addRound() for an existing round")
  | None =>
      prevotes ← VoteSet.NewVoteSet (hvs_chainID h) (hvs_height h) round VoteTypePrevote (hvs_valSet h);
      precommits ← VoteSet.NewVoteSet (hvs_chainID h) (hvs_height h) round VoteTypePrecommit (hvs_valSet h);
      Ret (setRoundVoteSets h (<[round := mkRoundVoteSet prevotes precommits]> (hvs_roundVoteSets h)))
  end.

Definition Reset (h : HeightVoteSet) (height : Z) (valSet : ValidatorSet) : go HeightVoteSet :=
  h ← addRound (mkHeightVoteSet (hvs_chainID h) height valSet (hvs_round h) ∅ ∅) 0;
  Ret (setHvsRound h 0).

Definition NewHeightVoteSet (chainID : bytes) (height : Z) (valSet : ValidatorSet) : go HeightVoteSet :=
  Reset (mkHeightVoteSet chainID 0 (mkValidatorSet [] None 0) 0 ∅ ∅) height valSet.

Definition SetRound (h : HeightVoteSet) (round : Z) : go HeightVoteSet :=
  if negb (hvs_round h =? 0) && (round <? add64 (hvs_round h) 1)
  then Panic (PanicSanity "SetRound() must increment hvs.round")
  else
    h ← go_for (add64 (hvs_round h) 1) (round + 1)
          (fun r h => match hvs_roundVoteSets h !! r with Some _ => Ret h | None => addRound h r end) h;
    Ret (setHvsRound h round).

Definition getVoteSet (h : HeightVoteSet) (round type_ : Z) : go (option VoteSet.VoteSet) :=
  match hvs_roundVoteSets h !! round with
  | None => Ret None
  | Some rvs =>
      if type_ =? VoteTypePrevote then Ret (Some (Prevotes_ rvs))
      else if type_ =? VoteTypePrecommit then Ret (Some (Precommits_ rvs))
      else Panic (PanicSanity "Unexpected vote type")
  end.

(** The vote set at [round] and [type_] mutated through its pointer. *)
Definition putVoteSet (h : HeightVoteSet) (round type_ : Z) (vs : VoteSet.VoteSet) : HeightVoteSet :=
  match hvs_roundVoteSets h !! round with
  | None => h
  | Some rvs =>
      let rvs' := if type_ =? VoteTypePrevote then mkRoundVoteSet vs (Precommits_ rvs)
                  else mkRoundVoteSet (Prevotes_ rvs) vs in
      setRoundVoteSets h (<[round := rvs']> (hvs_roundVoteSets h))
  end.

(** [voteSet.AddVote(vote)] on the set at the vote's round and type. *)
Definition addToVoteSet (h : HeightVoteSet) (vs : option VoteSet.VoteSet) (vote : Vote)
  : go (HeightVoteSet * bool * option AddVoteError) :=
  r ← VoteSet.AddVote vs (Some vote);
  Ret (putVoteSet h (v_Round vote) (v_Type vote) r.1.1, r.1.2, option_map VoteSetError r.2).

Definition AddVote (h : HeightVoteSet) (vote : option Vote) (peerID : bytes)
  : go (HeightVoteSet * bool * option AddVoteError) :=
  match vote with
  | None => Panic NilDeref
  | Some vote =>
      if negb (IsVoteTypeValid (v_Type vote)) then Ret (h, false, None)
      else
        voteSet ← getVoteSet h (v_Round vote) (v_Type vote);
        match voteSet with
        | Some _ => addToVoteSet h voteSet vote
        | None =>
            let rndz := default [] (hvs_peerCatchupRounds h !! peerID) in
            if zlen rndz <? 2 then
              h ← addRound h (v_Round vote);
              voteSet ← getVoteSet h (v_Round vote) (v_Type vote);
              addToVoteSet
                (setCatchup h (<[peerID := rndz ++ [v_Round vote]]> (hvs_peerCatchupRounds h)))
                voteSet vote
            else Ret (h, false, Some GotVoteFromUnwantedRoundError)
        end
  end.

Definition Prevotes (h : HeightVoteSet) (round : Z) : go (option VoteSet.VoteSet) := getVoteSet h round VoteTypePrevote.
Definition Precommits (h : HeightVoteSet) (round : Z) : go (option VoteSet.VoteSet) := getVoteSet h round VoteTypePrecommit.

(** The descending loop of [POLInfo], from round [n - 1] down to 0. *)
Fixpoint polLoop (h : HeightVoteSet) (n : nat) : go (Z * BlockID) :=
  match n with
  | O => Ret (-1, zeroBlockID)
  | S n =>
      rvs ← getVoteSet h (Z.of_nat n) VoteTypePrevote;
      match VoteSet.TwoThirdsMajority rvs with
      | (polBlockID, true) => Ret (Z.of_nat n, polBlockID)
      | (_, false) => polLoop h n
      end
  end.

Definition POLInfo (h : HeightVoteSet) : go (Z * BlockID) := polLoop h (Z.to_nat (hvs_round h + 1)).

(** The boolean is [err == nil]. *)
Definition SetPeerMaj23 (h : HeightVoteSet) (round type_ : Z) (peerID : bytes) (blockID : BlockID)
  : go (HeightVoteSet * bool) :=
  if negb (IsVoteTypeValid type_) then Ret (h, false)
  else
    voteSet ← getVoteSet h round type_;
    match voteSet with
    | None => Ret (h, true)
    | Some _ =>
        r ← VoteSet.SetPeerMaj23 voteSet (hexEncode peerID) blockID;
        Ret (putVoteSet h round type_ r.1, r.2)
    end.
End Operations.

Section Spec.
Context `{Codec} `{Curves}.

(** ** The invariant *)

(** A vote set of the height, at round [r] and of type [t]. *)
Definition setOK (h : HeightVoteSet) (r t : Z) (vs : VoteSet.VoteSet) : Prop :=
  VoteSet.Inv vs /\ VoteSet.static vs = (hvs_chainID h, hvs_height h, r, t, hvs_valSet h).

Record hInv (h : HeightVoteSet) : Prop := mkHInv {
  hi_powers : valsOK (hvs_valSet h);
  hi_cache : cacheOK (hvs_valSet h);
  hi_height : hvs_height h <> 0;
  hi_range : 0 <= hvs_round h < MaxInt64;
  hi_rounds : forall r, 0 <= r <= hvs_round h -> is_Some (hvs_roundVoteSets h !! r);
  hi_sets : forall r x, hvs_roundVoteSets h !! r = Some x ->
              setOK h r VoteTypePrevote (Prevotes_ x) /\ setOK h r VoteTypePrecommit (Precommits_ x);
  hi_catchup : forall p l, hvs_peerCatchupRounds h !! p = Some l -> (length l <= 2)%nat;
  hi_extra : forall r, is_Some (hvs_roundVoteSets h !! r) ->
               0 <= r <= hvs_round h \/ exists p l, hvs_peerCatchupRounds h !! p = Some l /\ r ∈ l }.

(** What every operation keeps: the step of each tracked set, and its
    majority once it has one. *)
Definition grows (h h' : HeightVoteSet) : Prop :=
  hvs_chainID h' = hvs_chainID h /\ hvs_height h' = hvs_height h /\ hvs_valSet h' = hvs_valSet h /\
  forall r t vs, getVoteSet h r t = Ret (Some vs) ->
    exists vs', getVoteSet h' r t = Ret (Some vs') /\ VoteSet.static vs' = VoteSet.static vs /\
      (VoteSet.vs_maj23 vs <> None -> VoteSet.vs_maj23 vs' = VoteSet.vs_maj23 vs).

Lemma grows_refl h : grows h h.
Proof. split_and!; [done..|]. intros r t vs Hg. by exists vs. Qed.

Lemma grows_trans h1 h2 h3 : grows h1 h2 -> grows h2 h3 -> grows h1 h3.
Proof.
  intros (A1 & A2 & A3 & A4) (B1 & B2 & B3 & B4). split_and!; [congruence..|].
  intros r t vs Hg. destruct (A4 r t vs Hg) as (v2 & G2 & S2 & M2), (B4 r t _ G2) as (v3 & G3 & S3 & M3).
  exists v3. split; [done|]. split; [congruence|]. intros Hm. rewrite M3, M2; [done..|]. by rewrite M2.
Qed.

Lemma getVoteSet_ret h r t : IsVoteTypeValid t = true ->
  exists o, getVoteSet h r t = Ret o /\ (o = None <-> hvs_roundVoteSets h !! r = None).
Proof.
  unfold getVoteSet, IsVoteTypeValid. intros Ht. destruct (hvs_roundVoteSets h !! r) as [x|]; [|by exists None].
  destruct (t =? VoteTypePrevote); [by eexists|]. destruct (t =? VoteTypePrecommit); [by eexists|done].
Qed.

Lemma getVoteSet_some h r t vs : getVoteSet h r t = Ret (Some vs) ->
  exists x, hvs_roundVoteSets h !! r = Some x /\
    ((t = VoteTypePrevote /\ vs = Prevotes_ x) \/ (t = VoteTypePrecommit /\ vs = Precommits_ x)).
Proof.
  unfold getVoteSet. destruct (hvs_roundVoteSets h !! r) as [x|]; [|done].
  destruct (Z.eqb_spec t VoteTypePrevote); [intros [= <-]; eauto|].
  destruct (Z.eqb_spec t VoteTypePrecommit); [intros [= <-]; eauto|done].
Qed.

Lemma getVoteSet_ok h r t vs : hInv h -> getVoteSet h r t = Ret (Some vs) -> setOK h r t vs.
Proof.
  intros Hi Hg. apply getVoteSet_some in Hg as (x & Hx & [[-> ->]|[-> ->]]); by apply (hi_sets h Hi r x).
Qed.

(** Sets over a larger map of rounds. *)
Lemma getVoteSet_mono h m r t vs : (forall r x, hvs_roundVoteSets h !! r = Some x -> m !! r = Some x) ->
  getVoteSet h r t = Ret (Some vs) -> getVoteSet (setRoundVoteSets h m) r t = Ret (Some vs).
Proof.
  intros Hm. unfold getVoteSet. cbn. destruct (hvs_roundVoteSets h !! r) as [x|] eqn:E; [|done]. by rewrite (Hm _ _ E).
Qed.

(** Mutating one set by an operation that keeps its invariant. *)
Lemma putVoteSet_spec h r t vs vs' : hInv h -> getVoteSet h r t = Ret (Some vs) -> VoteSet.Inv vs' ->
  VoteSet.static vs' = VoteSet.static vs ->
  (VoteSet.vs_maj23 vs <> None -> VoteSet.vs_maj23 vs' = VoteSet.vs_maj23 vs) ->
  hInv (putVoteSet h r t vs') /\ grows h (putVoteSet h r t vs') /\
  getVoteSet (putVoteSet h r t vs') r t = Ret (Some vs') /\
  hvs_peerCatchupRounds (putVoteSet h r t vs') = hvs_peerCatchupRounds h /\
  hvs_round (putVoteSet h r t vs') = hvs_round h.
Proof.
  intros Hi Hg Hv Hs Hm. pose proof (getVoteSet_ok _ _ _ _ Hi Hg) as [_ Hst].
  pose proof Hg as Hg0. apply getVoteSet_some in Hg0 as (x & Hx & Ht). unfold putVoteSet. rewrite Hx.
  set (x' := if t =? VoteTypePrevote then _ else _).
  assert (Hx' : forall t', (t' = t /\ getVoteSet (setRoundVoteSets h (<[r:=x']> (hvs_roundVoteSets h))) r t' = Ret (Some vs')) \/
    (t' <> t /\ getVoteSet (setRoundVoteSets h (<[r:=x']> (hvs_roundVoteSets h))) r t' = getVoteSet h r t')).
  { intros t'. unfold getVoteSet. cbn. rewrite lookup_insert_eq, Hx. unfold x'. destruct Ht as [[-> ->]|[-> ->]]; cbn.
    all: destruct (Z.eqb_spec t' VoteTypePrevote), (Z.eqb_spec t' VoteTypePrecommit); subst; cbn; eauto; try done; auto. }
  split; [|split; [split_and!; [done..|]|split_and!; [|done..]]].
  - constructor; try apply Hi.
    + intros r' Hr. cbn. destruct (decide (r' = r)) as [->|]; [rewrite lookup_insert_eq; eauto|].
      rewrite lookup_insert_ne by done. by apply Hi.
    + intros r' y Hy. cbn in Hy. destruct (decide (r' = r)) as [->|].
      2:{ rewrite lookup_insert_ne in Hy by done. by apply (hi_sets h Hi). }
      rewrite lookup_insert_eq in Hy. injection Hy as <-. destruct (hi_sets h Hi r x Hx) as [H1 H2].
      assert (setOK h r t vs') by (split; [done|congruence]).
      unfold x'. destruct Ht as [[-> ->]|[-> ->]]; by split.
    + intros r' Hr. cbn in Hr. destruct (decide (r' = r)) as [->|]; [apply (hi_extra h Hi); eauto|].
      rewrite lookup_insert_ne in Hr by done. by apply (hi_extra h Hi).
  - intros r' t' vs0 Hg'. destruct (decide (r' = r)) as [->|Hne].
    + destruct (Hx' t') as [[-> E]|[Hne E]]; [|by exists vs0; rewrite E].
      rewrite Hg in Hg'. injection Hg' as ->. by exists vs'.
    + exists vs0. split; [|done]. unfold getVoteSet in *. cbn. by rewrite lookup_insert_ne.
  - destruct (Hx' t) as [[_ E]|[]]; done.
Qed.

Lemma addRound_spec h r : valsOK (hvs_valSet h) -> cacheOK (hvs_valSet h) -> hvs_height h <> 0 ->
  hvs_roundVoteSets h !! r = None ->
  exists x, addRound h r = Ret (setRoundVoteSets h (<[r := x]> (hvs_roundVoteSets h))) /\
    setOK h r VoteTypePrevote (Prevotes_ x) /\ setOK h r VoteTypePrecommit (Precommits_ x) /\
    VoteSet.NewVoteSet (hvs_chainID h) (hvs_height h) r VoteTypePrevote (hvs_valSet h) = Ret (Prevotes_ x) /\
    VoteSet.NewVoteSet (hvs_chainID h) (hvs_height h) r VoteTypePrecommit (hvs_valSet h) = Ret (Precommits_ x).
Proof.
  intros Hp Hc Hh Hr. unfold addRound. rewrite Hr.
  destruct (VoteSet.NewVoteSet_spec (hvs_chainID h) (hvs_height h) r VoteTypePrevote (hvs_valSet h) Hp Hc Hh)
    as (v1 & E1 & I1 & S1 & _). rewrite E1. cbn [mbind go_mbind].
  destruct (VoteSet.NewVoteSet_spec (hvs_chainID h) (hvs_height h) r VoteTypePrecommit (hvs_valSet h) Hp Hc Hh)
    as (v2 & E2 & I2 & S2 & _). rewrite E2. cbn [mbind go_mbind].
  by exists (mkRoundVoteSet v1 v2).
Qed.

Lemma NewHeightVoteSet_spec chainID height valSet : valsOK valSet -> cacheOK valSet -> height <> 0 ->
  exists h, NewHeightVoteSet chainID height valSet = Ret h /\ hInv h /\ hvs_round h = 0 /\
    hvs_chainID h = chainID /\ hvs_height h = height /\ hvs_valSet h = valSet.
Proof.
  intros Hp Hc Hh. unfold NewHeightVoteSet, Reset. cbn [hvs_chainID hvs_round].
  destruct (addRound_spec (mkHeightVoteSet chainID height valSet 0 ∅ ∅) 0 Hp Hc Hh (lookup_empty 0))
    as (x & -> & H1 & H2 & _). cbn [mbind go_mbind].
  eexists. split; [done|]. split; [|done]. constructor; cbn; try done.
  - intros r Hr. assert (r = 0) as -> by lia. rewrite lookup_insert_eq. eauto.
  - intros r y Hy. apply lookup_insert_Some in Hy as [[<- <-]|[_ Hy]]; [done|]. by rewrite lookup_empty in Hy.
  - intros r [y Hy]. left. apply lookup_insert_Some in Hy as [[<- _]|[_ Hy]]; [lia|]. by rewrite lookup_empty in Hy.
Qed.

(** The state of the loop of [SetRound] before round [i]: rounds below are
    tracked, nothing else changed. *)
Definition filling (h : HeightVoteSet) (i : Z) (h' : HeightVoteSet) : Prop :=
  exists m, h' = setRoundVoteSets h m /\
    (forall r x, hvs_roundVoteSets h !! r = Some x -> m !! r = Some x) /\
    (forall r, 0 <= r < i -> is_Some (m !! r)) /\
    (forall r x, m !! r = Some x -> setOK h r VoteTypePrevote (Prevotes_ x) /\ setOK h r VoteTypePrecommit (Precommits_ x)) /\
    (forall r, is_Some (m !! r) -> 0 <= r < i \/ is_Some (hvs_roundVoteSets h !! r)).

Lemma filling_step h i h' : hInv h -> 0 <= i -> filling h i h' ->
  exists h'', match hvs_roundVoteSets h' !! i with Some _ => Ret h' | None => addRound h' i end = Ret h'' /\
    filling h (i + 1) h''.
Proof.
  intros Hi Hi0 (m & -> & Hm & Hr & Hs & Hx). cbn [hvs_roundVoteSets setRoundVoteSets].
  destruct (m !! i) as [x|] eqn:Ei.
  - eexists. split; [done|]. exists m. split_and!; try done.
    + intros r ?. destruct (decide (r = i)) as [->|]; [eauto|]. apply Hr. lia.
    + intros r Hsome. destruct (Hx r Hsome); [left; lia|by right].
  - destruct (addRound_spec (setRoundVoteSets h m) i (hi_powers h Hi) (hi_cache h Hi) (hi_height h Hi) Ei) as (x & -> & H1 & H2 & _).
    eexists. split; [done|]. exists (<[i := x]> m). cbn [hvs_roundVoteSets setRoundVoteSets]. split_and!; [done|..].
    + intros r y Hy. rewrite lookup_insert_ne; [by apply Hm|]. intros <-. rewrite (Hm _ _ Hy) in Ei. done.
    + intros r ?. destruct (decide (r = i)) as [->|]; [rewrite lookup_insert_eq; eauto|].
      rewrite lookup_insert_ne by done. apply Hr. lia.
    + intros r y [[<- <-]|[_ Hy]]%lookup_insert_Some; [done|]. by apply Hs.
    + intros r [y [[<- <-]|[_ Hy]]%lookup_insert_Some]; [left; lia|].
      destruct (Hx r); [by eexists|left; lia|by right].
Qed.

Lemma SetRound_spec h round : hInv h -> hvs_round h = 0 \/ hvs_round h < round -> 0 <= round < MaxInt64 ->
  exists h', SetRound h round = Ret h' /\ hInv h' /\ grows h h' /\ hvs_round h' = round /\
    hvs_peerCatchupRounds h' = hvs_peerCatchupRounds h.
Proof.
  intros Hi Hg Hr. pose proof (hi_range h Hi) as Hrange. unfold SetRound, add64.
  rewrite wrap64_small by (unfold_int64; lia).
  replace (negb (hvs_round h =? 0) && (round <? hvs_round h + 1)) with false.
  2:{ destruct (Z.eqb_spec (hvs_round h) 0), (Z.ltb_spec round (hvs_round h + 1)); cbn; lia. }
  destruct (go_for_inv (filling h) (hvs_round h + 1) (round + 1)
    (fun r h => match hvs_roundVoteSets h !! r with Some _ => Ret h | None => addRound h r end) h)
    as (h' & -> & m & -> & Hm & Hrs & Hs & Hx); [lia| | |].
  - exists (hvs_roundVoteSets h). split; [by destruct h|]. split_and!; [done|..].
    + intros r ?. apply Hi. lia.
    + apply Hi.
    + intros r ?. by right.
  - intros i s Hir Hf. apply filling_step; [done|lia|done].
  - cbn [mbind go_mbind]. eexists. split; [done|]. split; [|split; [|done]].
    + constructor; try apply Hi; cbn; try done.
      * intros r ?. apply Hrs. lia.
      * intros r Hsome. destruct (Hx r Hsome) as [|Hold]; [left; lia|].
        destruct (hi_extra h Hi r Hold) as [|]; [|by right]. left. lia.
    + split_and!; [done..|]. intros r t vs Hgv. exists vs. split; [|done].
      exact (getVoteSet_mono h m r t vs Hm Hgv).
Qed.

(** ** AddVote *)

Definition catchupRounds (h : HeightVoteSet) (peer : bytes) : list Z := default [] (hvs_peerCatchupRounds h !! peer).

(** The answer of [AddVote] by cases: a vote of unknown type is ignored, a
    vote for an untracked round from a peer that has opened two is refused,
    and any other vote goes to the set of its round and type, which is
    created and charged to the peer when it is not tracked. *)
Inductive answer (h : HeightVoteSet) (v : Vote) (peer : bytes) (h' : HeightVoteSet) (added : bool)
  : option AddVoteError -> Prop :=
| Ignored : IsVoteTypeValid (v_Type v) = false -> h' = h -> added = false -> answer h v peer h' added None
| Unwanted : hvs_roundVoteSets h !! v_Round v = None -> (2 <= length (catchupRounds h peer))%nat ->
    h' = h -> added = false -> answer h v peer h' added (Some GotVoteFromUnwantedRoundError)
| Tracked vs vs' err : getVoteSet h (v_Round v) (v_Type v) = Ret (Some vs) ->
    getVoteSet h' (v_Round v) (v_Type v) = Ret (Some vs') -> VoteSet.outcome vs (Some v) vs' added err ->
    hvs_peerCatchupRounds h' = hvs_peerCatchupRounds h ->
    answer h v peer h' added (option_map VoteSetError err)
| Opened vs vs' err : hvs_roundVoteSets h !! v_Round v = None -> (length (catchupRounds h peer) < 2)%nat ->
    VoteSet.NewVoteSet (hvs_chainID h) (hvs_height h) (v_Round v) (v_Type v) (hvs_valSet h) = Ret vs ->
    getVoteSet h' (v_Round v) (v_Type v) = Ret (Some vs') -> VoteSet.outcome vs (Some v) vs' added err ->
    hvs_peerCatchupRounds h' = <[peer := catchupRounds h peer ++ [v_Round v]]> (hvs_peerCatchupRounds h) ->
    answer h v peer h' added (option_map VoteSetError err).

Lemma addToVoteSet_spec h v vs : hInv h -> getVoteSet h (v_Round v) (v_Type v) = Ret (Some vs) ->
  exists h' vs' added err, addToVoteSet h (Some vs) v = Ret (h', added, option_map VoteSetError err) /\
    hInv h' /\ grows h h' /\ getVoteSet h' (v_Round v) (v_Type v) = Ret (Some vs') /\
    VoteSet.outcome vs (Some v) vs' added err /\
    hvs_peerCatchupRounds h' = hvs_peerCatchupRounds h /\ hvs_round h' = hvs_round h.
Proof.
  intros Hi Hg. destruct (getVoteSet_ok _ _ _ _ Hi Hg) as [Hv _]. unfold addToVoteSet. cbn [VoteSet.AddVote].
  destruct (VoteSet.addVote_spec vs (Some v) Hv) as (vs' & added & err & -> & Hv' & (Hs & _ & Hm) & Ho).
  cbn [mbind go_mbind fst snd].
  destruct (putVoteSet_spec h _ _ vs vs' Hi Hg Hv' Hs Hm) as (A1 & A2 & A3 & A4 & A5).
  by exists (putVoteSet h (v_Round v) (v_Type v) vs'), vs', added, err.
Qed.

(** Opening round [r] on behalf of [peer]. *)
Lemma openRound_spec h r t peer : hInv h -> IsVoteTypeValid t = true -> hvs_roundVoteSets h !! r = None ->
  (length (catchupRounds h peer) < 2)%nat ->
  exists x vs, let h1 := setRoundVoteSets h (<[r := x]> (hvs_roundVoteSets h)) in
    let h2 := setCatchup h1 (<[peer := catchupRounds h peer ++ [r]]> (hvs_peerCatchupRounds h)) in
    addRound h r = Ret h1 /\ getVoteSet h1 r t = Ret (Some vs) /\ getVoteSet h2 r t = Ret (Some vs) /\
    VoteSet.NewVoteSet (hvs_chainID h) (hvs_height h) r t (hvs_valSet h) = Ret vs /\
    hInv h2 /\ grows h h2.
Proof.
  intros Hi Ht Hr Hl.
  destruct (addRound_spec h r (hi_powers h Hi) (hi_cache h Hi) (hi_height h Hi) Hr) as (x & E & H1 & H2 & E1 & E2).
  exists x, (if t =? VoteTypePrevote then Prevotes_ x else Precommits_ x). cbn zeta.
  split; [done|].
  assert (Hget : forall m, getVoteSet (setCatchup (setRoundVoteSets h (<[r := x]> (hvs_roundVoteSets h))) m) r t =
    Ret (Some (if t =? VoteTypePrevote then Prevotes_ x else Precommits_ x))).
  { intros m. unfold getVoteSet. cbn. rewrite lookup_insert_eq. unfold IsVoteTypeValid in Ht.
    destruct (t =? VoteTypePrevote); [done|]. by destruct (t =? VoteTypePrecommit). }
  split; [exact (Hget (hvs_peerCatchupRounds h))|]. split; [apply Hget|]. split; [|split].
  - unfold IsVoteTypeValid in Ht. destruct (Z.eqb_spec t VoteTypePrevote) as [->|]; [done|].
    by destruct (Z.eqb_spec t VoteTypePrecommit) as [->|].
  - constructor; try apply Hi; cbn.
    + intros r' Hr'. destruct (hi_rounds h Hi r' Hr') as [y Hy]. exists y. rewrite lookup_insert_ne; [done|]. congruence.
    + intros r' y [[<- <-]|[_ Hy]]%lookup_insert_Some; [done|]. by apply (hi_sets h Hi).
    + intros p l [[<- <-]|[_ Hp]]%lookup_insert_Some; [rewrite length_app; cbn; lia|]. by apply (hi_catchup h Hi p).
    + assert (Hin : forall q l y, hvs_peerCatchupRounds h !! q = Some l -> y ∈ l -> exists q' l',
        <[peer := catchupRounds h peer ++ [r]]> (hvs_peerCatchupRounds h) !! q' = Some l' /\ y ∈ l').
      { intros q l y Hq Hy. destruct (decide (q = peer)) as [->|Hne].
        - exists peer, (catchupRounds h peer ++ [r]). rewrite lookup_insert_eq. split; [done|].
          unfold catchupRounds. rewrite Hq. cbn. set_solver.
        - exists q, l. by rewrite lookup_insert_ne. }
      intros r' [y [[<- <-]|[_ Hy]]%lookup_insert_Some].
      * right. exists peer, (catchupRounds h peer ++ [r]). rewrite lookup_insert_eq. split; [done|set_solver].
      * destruct (hi_extra h Hi r' ltac:(by eexists)) as [|(p & l & Hp & Hl')]; [by left|]. right. by eapply Hin.
  - split_and!; [done..|]. intros r' t' vs Hg. exists vs. split; [|done].
    apply (getVoteSet_mono h (<[r := x]> (hvs_roundVoteSets h))); [|done].
    intros r0 y Hy. rewrite lookup_insert_ne; [done|]. congruence.
Qed.

Lemma AddVote_spec h v peer : hInv h ->
  exists h' added err, AddVote h (Some v) peer = Ret (h', added, err) /\ hInv h' /\ grows h h' /\
    hvs_round h' = hvs_round h /\ answer h v peer h' added err.
Proof.
  intros Hi. cbn [AddVote]. destruct (IsVoteTypeValid (v_Type v)) eqn:Et; cbn [negb].
  2:{ exists h, false, None. split; [done|]. split; [done|]. split; [apply grows_refl|]. split; [done|]. by apply Ignored. }
  destruct (getVoteSet_ret h (v_Round v) (v_Type v) Et) as (o & Eo & Hn). rewrite Eo. cbn [mbind go_mbind].
  destruct o as [vs|].
  { destruct (addToVoteSet_spec h v vs Hi Eo) as (h' & vs' & added & err & -> & Hi' & Hgr & Hg' & Ho & Hc & Hr).
    exists h', added, (option_map VoteSetError err). split; [done|]. split; [done|]. split; [done|]. split; [done|].
    by eapply Tracked. }
  assert (Hr : hvs_roundVoteSets h !! v_Round v = None) by by apply Hn.
  change (default [] (hvs_peerCatchupRounds h !! peer)) with (catchupRounds h peer).
  destruct (Z.ltb_spec (zlen (catchupRounds h peer)) 2) as [Hl|Hl]; unfold zlen in Hl.
  - destruct (openRound_spec h (v_Round v) (v_Type v) peer Hi Et Hr ltac:(lia)) as (x & vs & E1 & G1 & G2 & En & Hi2 & Hgr2).
    rewrite E1. cbn [mbind go_mbind]. rewrite G1. cbn [mbind go_mbind hvs_peerCatchupRounds setRoundVoteSets].
    destruct (addToVoteSet_spec _ v vs Hi2 G2) as (h' & vs' & added & err & E & Hi' & Hgr & Hg' & Ho & Hc & Hr').
    exists h', added, (option_map VoteSetError err). split; [exact E|]. split; [done|].
    split; [by eapply grows_trans|]. split; [done|]. eapply Opened; [done|lia|done..].
  - exists h, false, (Some GotVoteFromUnwantedRoundError). split; [done|]. split; [done|]. split; [apply grows_refl|].
    split; [done|]. apply Unwanted; [done|lia|done..].
Qed.

Lemma hvSetPeerMaj23_spec h r t peer b : hInv h ->
  exists h' ok, SetPeerMaj23 h r t peer b = Ret (h', ok) /\ hInv h' /\ grows h h' /\
    hvs_round h' = hvs_round h /\ hvs_peerCatchupRounds h' = hvs_peerCatchupRounds h.
Proof.
  intros Hi. pose proof (grows_refl h) as Hrefl. unfold SetPeerMaj23. destruct (IsVoteTypeValid t) eqn:Et; cbn [negb].
  2:{ by exists h, false. }
  destruct (getVoteSet_ret h r t Et) as (o & Eo & Hn). rewrite Eo. cbn [mbind go_mbind].
  destruct o as [vs|]; [|by exists h, true]. destruct (getVoteSet_ok _ _ _ _ Hi Eo) as [Hv _].
  destruct (VoteSet.SetPeerMaj23_spec vs (hexEncode peer) b Hv) as (vs' & ok & -> & Hv' & Hs & Hm & _).
  cbn [mbind go_mbind fst snd].
  destruct (putVoteSet_spec h r t vs vs' Hi Eo Hv' Hs) as (A1 & A2 & A3 & A4 & A5); [done|].
  by exists (putVoteSet h r t vs'), ok.
Qed.

(** ** Reachable states *)

Inductive hop :=
| HSetRound (round : Z)
| HAddVote (vote : Vote) (peer : bytes)
| HPeerMaj23 (round type_ : Z) (peer : bytes) (blockID : BlockID).

Definition hrun (h : HeightVoteSet) (o : hop) : go HeightVoteSet :=
  match o with
  | HSetRound r => SetRound h r
  | HAddVote v p => x ← AddVote h (Some v) p; Ret x.1.1
  | HPeerMaj23 r t p b => x ← SetPeerMaj23 h r t p b; Ret x.1
  end.

(** The calls the consensus makes: rounds only go up and do not overflow. *)
Definition hallowed (h : HeightVoteSet) (o : hop) : Prop :=
  match o with
  | HSetRound r => (hvs_round h = 0 \/ hvs_round h < r) /\ 0 <= r < MaxInt64
  | _ => True
  end.

Lemma hrun_spec h o : hInv h -> hallowed h o -> exists h', hrun h o = Ret h' /\ hInv h' /\ grows h h'.
Proof.
  intros Hi Ha. destruct o as [r|v p|r t p b]; cbn [hrun].
  - destruct Ha as [H1 H2]. destruct (SetRound_spec h r Hi H1 H2) as (h' & -> & A & B & _). by exists h'.
  - destruct (AddVote_spec h v p Hi) as (h' & ad & err & -> & A & B & _). by exists h'.
  - destruct (hvSetPeerMaj23_spec h r t p b Hi) as (h' & ok & -> & A & B & _). by exists h'.
Qed.

Inductive hreachable (chainID : bytes) (height : Z) (valSet : ValidatorSet) : HeightVoteSet -> Prop :=
| hreach_new h : NewHeightVoteSet chainID height valSet = Ret h -> hreachable chainID height valSet h
| hreach_step h o h' : hreachable chainID height valSet h -> hallowed h o -> hrun h o = Ret h' ->
    hreachable chainID height valSet h'.

Lemma hreachable_inv chainID height valSet h : valsOK valSet -> cacheOK valSet ->
  hreachable chainID height valSet h -> hInv h.
Proof.
  intros Hp Hc Hr. induction Hr as [h E|h o h' Hr IH Ha E].
  - assert (height <> 0) by (by intros ->).
    destruct (NewHeightVoteSet_spec chainID height valSet Hp Hc) as (h' & E' & Hi & _); [done|].
    rewrite E in E'. by injection E' as ->.
  - destruct (hrun_spec h o IH Ha) as (x & E' & Hi & _). rewrite E in E'. by injection E' as ->.
Qed.

(** The rounds tracked beyond the current one, with repetitions. *)
Definition extraRounds (h : HeightVoteSet) : list Z := mjoin (map_to_list (hvs_peerCatchupRounds h)).*2.

Lemma length_mjoin_le {A} (k : nat) (ls : list (list A)) : Forall (fun l => (length l <= k)%nat) ls ->
  (length (mjoin ls) <= k * length ls)%nat.
Proof. induction 1 as [|l ls Hl _ IH]; [cbn; lia|].
  change (mjoin (l :: ls)) with (l ++ mjoin ls). rewrite length_app. cbn [length]. nia.
Qed.

Lemma size_list_to_set_le (l : list Z) : (size (list_to_set l : gset Z) <= length l)%nat.
Proof.
  induction l as [|x l IH]; [done|]. rewrite list_to_set_cons, size_union_alt, size_singleton. cbn [length].
  assert (size ((list_to_set l : gset Z) ∖ {[x]}) <= size (list_to_set l : gset Z))%nat by (apply subseteq_size; set_solver).
  lia.
Qed.

Lemma tracked_bound h : hInv h ->
  Z.of_nat (size (hvs_roundVoteSets h)) <= hvs_round h + 1 + 2 * Z.of_nat (size (hvs_peerCatchupRounds h)).
Proof.
  intros Hi. rewrite <- (size_dom (D := gset Z)).
  assert (Hsub : dom (hvs_roundVoteSets h) ⊆@{gset Z} list_to_set (seqZ 0 (hvs_round h + 1) ++ extraRounds h)).
  { intros r Hr. apply elem_of_dom in Hr. apply elem_of_list_to_set, elem_of_app.
    destruct (hi_extra h Hi r Hr) as [|(p & l & Hp & Hl)]; [left; apply elem_of_seqZ; lia|right].
    apply list_elem_of_join. exists l. split; [done|]. apply list_elem_of_fmap. exists (p, l).
    split; [done|]. by apply elem_of_map_to_list. }
  apply subseteq_size in Hsub. pose proof (size_list_to_set_le (seqZ 0 (hvs_round h + 1) ++ extraRounds h)).
  assert (length (extraRounds h) <= 2 * size (hvs_peerCatchupRounds h))%nat.
  { rewrite <- length_map_to_list. unfold extraRounds. rewrite <- (length_fmap snd). apply length_mjoin_le.
    apply Forall_forall. intros l Hl. apply list_elem_of_fmap in Hl as ([p l'] & -> & Hl).
    apply elem_of_map_to_list in Hl. by apply (hi_catchup h Hi p). }
  rewrite length_app, length_seqZ in *. pose proof (hi_range h Hi). lia.
Qed.

(** ** POLInfo *)

(** Round [r] has a polka: more than two thirds prevoted [b]. *)
Definition polka (h : HeightVoteSet) (r : Z) (b : BlockID) : Prop :=
  exists x, hvs_roundVoteSets h !! r = Some x /\ VoteSet.vs_maj23 (Prevotes_ x) = Some b.

Lemma polLoop_spec h n : 
  exists r b, polLoop h n = Ret (r, b) /\ ((r = -1 /\ forall r' b', 0 <= r' < Z.of_nat n -> ~ polka h r' b') \/
     (0 <= r < Z.of_nat n /\ polka h r b /\ forall r' b', r < r' < Z.of_nat n -> ~ polka h r' b')).
Proof.
  induction n as [|n (r & b & E & IH)]; cbn [polLoop].
  { exists (-1), zeroBlockID. split; [done|]. left. split; [done|]. intros; lia. }
  assert (Hgo : (forall b', ~ polka h (Z.of_nat n) b') -> exists r b, polLoop h n = Ret (r, b) /\ ((r = -1 /\ forall r' b', 0 <= r' < Z.of_nat (S n) -> ~ polka h r' b') \/
     (0 <= r < Z.of_nat (S n) /\ polka h r b /\ forall r' b', r < r' < Z.of_nat (S n) -> ~ polka h r' b'))).
  { intros Hno. exists r, b. split; [done|]. destruct IH as [[-> IH]|(H1 & H2 & IH)].
    - left. split; [done|]. intros r' b' Hr'. destruct (decide (r' = Z.of_nat n)) as [->|]; [apply Hno|apply IH; lia].
    - right. split; [lia|]. split; [done|]. intros r' b' Hr'.
      destruct (decide (r' = Z.of_nat n)) as [->|]; [apply Hno|apply IH; lia]. }
  unfold getVoteSet. destruct (hvs_roundVoteSets h !! Z.of_nat n) as [x|] eqn:Ex.
  2:{ cbn [mbind go_mbind VoteSet.TwoThirdsMajority]. apply Hgo. intros b' (x & Hx & _). congruence. }
  cbn [Z.eqb VoteTypePrevote Pos.eqb mbind go_mbind VoteSet.TwoThirdsMajority].
  destruct (VoteSet.vs_maj23 (Prevotes_ x)) as [b'|] eqn:Em.
  - exists (Z.of_nat n), b'. split; [done|]. right. split; [lia|]. split; [by exists x|]. intros; lia.
  - apply Hgo. intros b' (x' & Hx' & Hm). congruence.
Qed.

(** ** Majorities are final *)

(** The set of round [r] and type [t] has a majority for [b]. *)
Definition majority (h : HeightVoteSet) (t r : Z) (b : BlockID) : Prop :=
  exists vs, getVoteSet h r t = Ret (Some vs) /\ VoteSet.vs_maj23 vs = Some b.

(** The sets are right, if the validators are. *)
Definition sound (h : HeightVoteSet) : Prop := valsOK (hvs_valSet h) -> cacheOK (hvs_valSet h) ->
  forall r t vs, getVoteSet h r t = Ret (Some vs) -> setOK h r t vs.

(** What every operation keeps when it returns, whatever the state: the
    majorities, and the soundness of the sets of this height. *)
Record keeps (h h' : HeightVoteSet) : Prop := mkKeeps {
  keeps_maj : forall t r b, majority h t r b -> majority h' t r b;
  keeps_static : (hvs_chainID h', hvs_height h', hvs_valSet h') = (hvs_chainID h, hvs_height h, hvs_valSet h);
  keeps_sound : sound h -> sound h' }.

#[export] Instance keeps_preorder : PreOrder keeps.
Proof.
  split; [done|]. intros h1 h2 h3 [A1 A2 A3] [B1 B2 B3]. split; [by intros t r b Hm; apply B1, A1|congruence|by intros Hs; apply B3, A3].
Qed.

Lemma majority_fun h t r b b' : majority h t r b -> majority h t r b' -> b = b'.
Proof. intros (vs & E & Hm) (vs' & E' & Hm'). congruence. Qed.

(** The counters besides the sets do not matter. *)
Lemma keeps_other h h' : hvs_roundVoteSets h' = hvs_roundVoteSets h ->
  (hvs_chainID h', hvs_height h', hvs_valSet h') = (hvs_chainID h, hvs_height h, hvs_valSet h) -> keeps h h'.
Proof.
  intros Hr Hs. injection Hs as S1 S2 S3. split; [|congruence|]; unfold majority, sound, setOK, getVoteSet; rewrite Hr, ?S1, ?S2, ?S3; done.
Qed.

Lemma addRound_keeps h r h' : addRound h r = Ret h' -> keeps h h'.
Proof.
  unfold addRound. destruct (hvs_roundVoteSets h !! r) eqn:Er; [done|]. intros E. go_inv. split; [|done|].
  - intros t r' b (vs & Eg & Hb). exists vs. split; [|done]. apply getVoteSet_mono; [|done].
    intros r'' x Hx. rewrite lookup_insert_ne; [done|]. intros <-. congruence.
  - intros Hs Hp Hc r' t vs (x & Hx & Hcase)%getVoteSet_some. cbn in Hx. assert (hvs_height h <> 0) as Hh by (intros Hz; by rewrite Hz in E0).
    apply lookup_insert_Some in Hx as [[<- <-]|[_ Hx]].
    + destruct (VoteSet.NewVoteSet_spec (hvs_chainID h) (hvs_height h) r t (hvs_valSet h) Hp Hc Hh) as (v & Ev & Iv & Sv & _).
      destruct Hcase as [[-> ->]|[-> ->]]; (split; [|]); cbn; congruence.
    + refine (Hs Hp Hc r' t vs _). unfold getVoteSet. rewrite Hx. by destruct Hcase as [[-> ->]|[-> ->]].
Qed.

Lemma SetRound_keeps h round h' : SetRound h round = Ret h' -> keeps h h'.
Proof.
  unfold SetRound. destruct (_ && _); [done|]. intros E. go_inv.
  transitivity r; [|by apply keeps_other].
  eapply (go_fold_pres (keeps h)); [|reflexivity|exact E0]. intros x s1 s2 Hs Ef.
  cbn beta in Ef. destruct (hvs_roundVoteSets s1 !! x); [by simplify_eq|]. etrans; [done|]. by eapply addRound_keeps.
Qed.

(** Where a set was put, and where not. *)
Lemma getVoteSet_put h r t vs vs' r' t' w : getVoteSet h r t = Ret (Some vs) -> getVoteSet (putVoteSet h r t vs') r' t' = Ret (Some w) ->
  (r' = r /\ t' = t /\ w = vs') \/ (~ (r' = r /\ t' = t) /\ getVoteSet h r' t' = Ret (Some w)).
Proof.
  intros Eg Ep. apply getVoteSet_some in Eg as (x & Hx & Hcase). unfold putVoteSet in Ep. rewrite Hx in Ep.
  apply getVoteSet_some in Ep as (y & Hy & Hyc). cbn in Hy. apply lookup_insert_Some in Hy as [[<- <-]|[Hne Hy]].
  - unfold getVoteSet. rewrite Hx. destruct Hcase as [[-> ->]|[-> ->]], Hyc as [[-> ->]|[-> ->]]; cbn; [by left|right|right|by left].
    all: split; [by intros [_ [=]]|done].
  - right. split; [by intros [-> _]|]. unfold getVoteSet. rewrite Hy. by destruct Hyc as [[-> ->]|[-> ->]].
Qed.

Lemma getVoteSet_put_eq h r t vs vs' : getVoteSet h r t = Ret (Some vs) -> getVoteSet (putVoteSet h r t vs') r t = Ret (Some vs').
Proof.
  intros Eg. apply getVoteSet_some in Eg as (x & Hx & Hcase). unfold putVoteSet, getVoteSet. rewrite Hx. cbn. rewrite lookup_insert_eq.
  by destruct Hcase as [[-> _]|[-> _]].
Qed.

Lemma getVoteSet_put_ne h r t vs vs' r' t' w : getVoteSet h r t = Ret (Some vs) -> ~ (r' = r /\ t' = t) ->
  getVoteSet h r' t' = Ret (Some w) -> getVoteSet (putVoteSet h r t vs') r' t' = Ret (Some w).
Proof.
  intros Eg Hne Ew. apply getVoteSet_some in Eg as (x & Hx & Hcase), Ew as (y & Hy & Hyc). unfold putVoteSet, getVoteSet. rewrite Hx. cbn.
  destruct (decide (r' = r)) as [->|Hr]; [|rewrite lookup_insert_ne by done; rewrite Hy; by destruct Hyc as [[-> ->]|[-> ->]]].
  rewrite lookup_insert_eq. assert (y = x) as -> by congruence.
  destruct Hcase as [[-> _]|[-> _]], Hyc as [[-> ->]|[-> ->]]; cbn; try done; by destruct Hne.
Qed.

Lemma putVoteSet_keeps h r t vs vs' : getVoteSet h r t = Ret (Some vs) -> VoteSet.majKept vs vs' ->
  (VoteSet.Inv vs -> VoteSet.Inv vs' /\ VoteSet.static vs' = VoteSet.static vs) -> keeps h (putVoteSet h r t vs').
Proof.
  intros Eg Hm Hi. split.
  - intros t' r' b (w & Ew & Hb). destruct (decide (r' = r /\ t' = t)) as [[-> ->]|Hne].
    + exists vs'. split; [by eapply getVoteSet_put_eq|]. assert (w = vs) as -> by congruence. by rewrite Hm; [|congruence].
    + exists w. split; [by eapply getVoteSet_put_ne|done].
  - unfold putVoteSet. by destruct (hvs_roundVoteSets h !! r).
  - intros Hs Hp Hc r' t' w Ew. assert (hvs_valSet (putVoteSet h r t vs') = hvs_valSet h /\ hvs_height (putVoteSet h r t vs') = hvs_height h /\
      hvs_chainID (putVoteSet h r t vs') = hvs_chainID h) as (S1 & S2 & S3) by (unfold putVoteSet; by destruct (hvs_roundVoteSets h !! r)).
    rewrite S1 in Hp, Hc. unfold setOK. rewrite S1, S2, S3. destruct (getVoteSet_put _ _ _ _ _ _ _ _ Eg Ew) as [(-> & -> & ->)|[_ Ew']].
    + destruct (Hs Hp Hc _ _ _ Eg) as [Iv Sv]. destruct (Hi Iv) as [Iv' Sv']. split; [done|congruence].
    + exact (Hs Hp Hc _ _ _ Ew').
Qed.

Lemma addToVoteSet_keeps h v vs r : getVoteSet h (v_Round v) (v_Type v) = Ret vs -> addToVoteSet h vs v = Ret r -> keeps h r.1.1.
Proof.
  unfold addToVoteSet. intros Eg E. go_inv. cbn [fst]. destruct vs as [vs|]; [|done]. cbn [VoteSet.AddVote] in E0.
  eapply putVoteSet_keeps; [done|exact (VoteSet.addVote_maj _ _ _ E0)|]. intros Hi.
  destruct (VoteSet.addVote_spec vs (Some v) Hi) as (vs' & added & err & Ea & Hi' & (Hst & _) & _). rewrite E0 in Ea. injection Ea as ->.
  by split.
Qed.

Lemma AddVote_keeps h vote peer r : AddVote h vote peer = Ret r -> keeps h r.1.1.
Proof.
  unfold AddVote. destruct vote as [v|]; [|done]. destruct (negb _); [intros; by go_inv|]. intros E. go_inv.
  destruct r0 as [vs|]; [by eapply addToVoteSet_keeps|]. destruct (_ <? 2); [|by go_inv]. go_inv.
  etrans; [by eapply addRound_keeps|].
  etrans; [|eapply addToVoteSet_keeps; [|exact E]; exact E2]. by apply keeps_other.
Qed.

Lemma SetPeerMaj23_keeps h r t peer b x : SetPeerMaj23 h r t peer b = Ret x -> keeps h x.1.
Proof.
  unfold SetPeerMaj23. destruct (negb _); [intros; by go_inv|]. intros E. go_inv.
  destruct r0 as [vs|]; [|by go_inv]. go_inv. cbn [fst]. eapply putVoteSet_keeps; [done|by eapply VoteSet.SetPeerMaj23_maj|].
  intros Hi. destruct (VoteSet.SetPeerMaj23_spec vs (hexEncode peer) b Hi) as (vs' & ok & Es & Hi' & Hst & _). rewrite E1 in Es.
  injection Es as ->. by split.
Qed.

Lemma NewHeightVoteSet_sound chainID height valSet h : NewHeightVoteSet chainID height valSet = Ret h ->
  hvs_height h = height /\ hvs_valSet h = valSet /\ sound h.
Proof.
  unfold NewHeightVoteSet, Reset. cbn [hvs_chainID hvs_round]. intros E. go_inv. apply addRound_keeps in E0 as [_ Hst Hs]. cbn in Hst.
  injection Hst as S1 S2 S3. cbn. split; [done|]. split; [done|].
  apply (keeps_sound r (setHvsRound r 0)); [by apply keeps_other|]. apply Hs. intros _ _ r' t vs Eg. done.
Qed.

(** ** Properties *)

(** The vote sets of a height.  After any sequence of votes, majority
    claims and increasing rounds, every round up to the current one is
    tracked, every tracked set satisfies the vote-set invariant for its own
    round and type, no peer holds more than two catch-up rounds, and at most
    [round + 1 + 2 * peers] rounds are tracked; every further call returns and
    keeps the majorities already found. *)
Theorem HeightVoteSet_invariant chainID height valSet h : valsOK valSet -> cacheOK valSet ->
  hreachable chainID height valSet h ->
  hInv h /\
  Z.of_nat (size (hvs_roundVoteSets h)) <= hvs_round h + 1 + 2 * Z.of_nat (size (hvs_peerCatchupRounds h)) /\
  forall o, hallowed h o -> exists h', hrun h o = Ret h' /\ hInv h' /\ grows h h'.
Proof.
  intros Hp Hc Hr. pose proof (hreachable_inv _ _ _ _ Hp Hc Hr) as Hi.
  split; [done|]. split; [by apply tracked_bound|]. intros o. by apply hrun_spec.
Qed.

(** What [AddVote] does with a vote of a peer, on every branch: unknown
    types are ignored; a vote for an untracked round opens it while the peer
    has opened fewer than two, and is refused with
    [GotVoteFromUnwantedRoundError] otherwise, changing nothing; every other
    vote is answered by the set of its round and type. *)
Theorem HeightVoteSet_AddVote chainID height valSet h v peer : valsOK valSet -> cacheOK valSet ->
  hreachable chainID height valSet h ->
  exists h' added err, AddVote h (Some v) peer = Ret (h', added, err) /\ answer h v peer h' added err.
Proof.
  intros Hp Hc Hr. pose proof (hreachable_inv _ _ _ _ Hp Hc Hr) as Hi.
  destruct (AddVote_spec h v peer Hi) as (h' & added & err & E & _ & _ & _ & Ha). by exists h', added, err.
Qed.

(** [POLInfo] returns the latest round up to the current one whose
    prevotes have a two-thirds majority, with the block (or nil) it is for,
    and -1 exactly when there is none. *)
Theorem POLInfo_latest h : 0 <= hvs_round h ->
  exists r b, POLInfo h = Ret (r, b) /\
    ((r = -1 /\ forall r' b', 0 <= r' <= hvs_round h -> ~ polka h r' b') \/
     (0 <= r <= hvs_round h /\ polka h r b /\ forall r' b', r < r' <= hvs_round h -> ~ polka h r' b')).
Proof.
  intros Hr. destruct (polLoop_spec h (Z.to_nat (hvs_round h + 1))) as (r & b & E & Hs). exists r, b.
  rewrite Z2Nat.id in Hs by lia. split; [done|]. destruct Hs as [[-> Hs]|(H1 & H2 & Hs)].
  - left. split; [done|]. intros; apply Hs; lia.
  - right. split; [lia|]. split; [done|]. intros; apply Hs; lia.
Qed.
End Spec.

(** ** Witnesses *)

Section Examples.
#[local] Existing Instance toyCodec.
#[local] Existing Instance toyCurves.

Definition emptyHVS : HeightVoteSet := mkHeightVoteSet [] 0 VoteSet.exVals 0 ∅ ∅.
Definition hvsNew : HeightVoteSet := fromRet emptyHVS (NewHeightVoteSet (str "chain") 7 VoteSet.exVals).
Definition hvsOne : HeightVoteSet := fromRet emptyHVS (hrun hvsNew (HAddVote (VoteSet.exVote "A" 0 1 VoteSet.blockA) (str "peer"))).
Definition hvsMaj : HeightVoteSet := fromRet emptyHVS (hrun hvsOne (HAddVote (VoteSet.exVote "C" 2 1 VoteSet.blockA) (str "peer"))).
Definition hvsRound : HeightVoteSet := fromRet emptyHVS (hrun hvsMaj (HSetRound 2)).

Lemma hvsRound_reachable : hreachable (str "chain") 7 VoteSet.exVals hvsRound.
Proof.
  apply hreach_step with hvsMaj (HSetRound 2).
  - apply hreach_step with hvsOne (HAddVote (VoteSet.exVote "C" 2 1 VoteSet.blockA) (str "peer")).
    + apply hreach_step with hvsNew (HAddVote (VoteSet.exVote "A" 0 1 VoteSet.blockA) (str "peer")).
      * apply hreach_new. apply fromRet_ok. vm_compute. reflexivity.
      * exact I.
      * apply fromRet_ok. vm_compute. reflexivity.
    + exact I.
    + apply fromRet_ok. vm_compute. reflexivity.
  - split; [left; vm_compute; reflexivity|unfold MaxInt64; lia].
  - apply fromRet_ok. vm_compute. reflexivity.
Qed.

Lemma HeightVoteSet_invariant_witness : hInv hvsRound.
Proof.
  exact (proj1 (HeightVoteSet_invariant _ _ VoteSet.exVals hvsRound VoteSet.exVals_powers (or_introl eq_refl) hvsRound_reachable)).
Defined.

Lemma HeightVoteSet_AddVote_witness : exists h' added err,
  AddVote hvsRound (Some (VoteSet.exVote "B" 1 1 VoteSet.blockB)) (str "peer") = Ret (h', added, err) /\
  answer hvsRound (VoteSet.exVote "B" 1 1 VoteSet.blockB) (str "peer") h' added err.
Proof.
  exact (HeightVoteSet_AddVote _ _ VoteSet.exVals hvsRound (VoteSet.exVote "B" 1 1 VoteSet.blockB) (str "peer") VoteSet.exVals_powers
    (or_introl eq_refl) hvsRound_reachable).
Defined.

(** The polka of round 0 is still the latest one at round 2. *)
Lemma POLInfo_latest_witness : polka hvsRound 0 VoteSet.blockA.
Proof.
  destruct (POLInfo_latest hvsRound ltac:(vm_compute; discriminate)) as (r & b & E & H).
  assert (E' : POLInfo hvsRound = Ret (0, VoteSet.blockA)) by (vm_compute; reflexivity).
  rewrite E' in E. injection E as <- <-. destruct H as [[[=] _]|(_ & H & _)]. exact H.
Defined.
End Examples.
End HeightVoteSet.
Export (hints) HeightVoteSet.
