(* ===== verification/PartSet.v ===== *)
(** * types/part_set.go

    A block cut into parts with Merkle proofs: construction from the data,
    collection of parts against a header, and the reader over a complete
    set.  The cached hash of a part is transparent, as the bytes of a part
    never change, and is not part of the model. *)

From S2P Require Import Prelude Sha256 Crypto BitArray Merkle Types.
Import Types.

Module PartSet.

Section Operations.
Context `{Amino}.

Record Part := mkPart {
  Index : Z;
  Bytes : bytes;
  Proof_ : Merkle.SimpleProof }.

Definition Part_Hash (p : Part) : bytes := Sha256.tmhash (Bytes p).

Record PartSet := mkPartSet {
  ps_total : Z;
  ps_hash : bytes;
  ps_parts : list (option Part);
  ps_partsBitArray : option BitArray.BitArray;
  ps_count : Z }.

Inductive PartSetError := ErrPartSetUnexpectedIndex | ErrPartSetInvalidProof.

(** The body of the first loop of [NewPartSetFromData]: part [i] is cut out
    of the data, stored, and its bit set. *)
Definition cutPart (data : bytes) (partSize i : Z) (st : list (option Part) * option BitArray.BitArray)
  : go (list (option Part) * option BitArray.BitArray) :=
  b ← slice data (mul64 i partSize) (Z.min (zlen data) (mul64 (i + 1) partSize));
  parts ← upd st.1 i (Some (mkPart i b (Merkle.mkSimpleProof [])));
  r ← BitArray.SetIndex st.2 i true;
  Ret (parts, r.1).

(** [Hash()] of each element of [parts_]. *)
Fixpoint hashAll (parts : list (option Part)) : go (list bytes) :=
  match parts with
  | [] => Ret []
  | None :: _ => Panic NilDeref
  | Some p :: parts => hs ← hashAll parts; Ret (Part_Hash p :: hs)
  end.

(** [parts[i].Proof = *proofs[i]] *)
Definition setProof (proofs : list Merkle.SimpleProof) (i : Z) (parts : list (option Part)) : go (list (option Part)) :=
  p ← idx parts i;
  pr ← idx proofs i;
  match p with
  | None => Panic NilDeref
  | Some p => upd parts i (Some (mkPart (Index p) (Bytes p) pr))
  end.

Definition NewPartSetFromData (data : bytes) (partSize : Z) : go PartSet :=
  if partSize =? 0 then Panic DivideByZero
  else
    let total := Z.quot (wrap64 (zlen data + partSize - 1)) partSize in
    parts ← mkslice total None;
    bA ← BitArray.NewBitArray total;
    st ← go_for 0 total (cutPart data partSize) (parts, bA);
    hs ← hashAll st.1;
    rp ← Merkle.SimpleProofsFromHashers hs;
    parts ← go_for 0 total (setProof rp.2) st.1;
    Ret (mkPartSet total rp.1 parts st.2 total).

Definition NewPartSetFromHeader (header : PartSetHeader) : go PartSet :=
  parts ← mkslice (psh_Total header) None;
  bA ← BitArray.NewBitArray (psh_Total header);
  Ret (mkPartSet (psh_Total header) (psh_Hash header) parts bA 0).

Definition Header (ps : option PartSet) : PartSetHeader :=
  match ps with None => zeroPartSetHeader | Some ps => mkPartSetHeader (ps_total ps) (ps_hash ps) end.
Definition HasHeader (ps : option PartSet) (header : PartSetHeader) : bool :=
  match ps with None => false | Some _ => PartSetHeader_Equals (Header ps) header end.
Definition psBitArray (ps : PartSet) : option BitArray.BitArray := BitArray.Copy (ps_partsBitArray ps).
Definition Hash (ps : option PartSet) : bytes := match ps with None => [] | Some ps => ps_hash ps end.
Definition HashesTo (ps : option PartSet) (hash : bytes) : bool :=
  match ps with None => false | Some ps => bytes_eqb (ps_hash ps) hash end.
Definition Count (ps : option PartSet) : Z := match ps with None => 0 | Some ps => ps_count ps end.
Definition Total (ps : option PartSet) : Z := match ps with None => 0 | Some ps => ps_total ps end.

Definition AddPart (ps : PartSet) (part : option Part) : go (PartSet * bool * option PartSetError) :=
  match part with
  | None => Panic NilDeref
  | Some part =>
      if ps_total ps <=? Index part then Ret (ps, false, Some ErrPartSetUnexpectedIndex)
      else
        old ← idx (ps_parts ps) (Index part);
        match old with
        | Some _ => Ret (ps, false, None)
        | None =>
            if negb (Merkle.Verify (Proof_ part) (Index part) (ps_total ps) (Some (Part_Hash part)) (ps_hash ps))
            then Ret (ps, false, Some ErrPartSetInvalidProof)
            else
              parts ← upd (ps_parts ps) (Index part) (Some part);
              r ← BitArray.SetIndex (ps_partsBitArray ps) (Index part) true;
              Ret (mkPartSet (ps_total ps) (ps_hash ps) parts r.1 (add64 (ps_count ps) 1), true, None)
        end
  end.

Definition GetPart (ps : PartSet) (index : Z) : go (option Part) := idx (ps_parts ps) index.
Definition IsComplete (ps : PartSet) : bool := ps_count ps =? ps_total ps.

(** ** The reader *)

(** [psr_reader] holds the unread bytes of the [bytes.Reader]. *)
Record PartSetReader := mkReader {
  psr_i : Z;
  psr_parts : list (option Part);
  psr_reader : bytes }.

Definition NewPartSetReader (parts : list (option Part)) : go PartSetReader :=
  p ← idx parts 0;
  match p with
  | None => Panic NilDeref
  | Some p => Ret (mkReader 0 parts (Bytes p))
  end.

Definition GetReader (ps : PartSet) : go PartSetReader :=
  if negb (IsComplete ps) then Panic (PanicSanity "Cannot GetReader() on incomplete PartSet")
  else NewPartSetReader (ps_parts ps).

(** [bytes.Reader.Read]: the bytes copied, those left, and whether the error
    is [io.EOF]. *)
Definition readerRead (r : bytes) (n : nat) : bytes * bytes * bool :=
  match r with [] => ([], [], true) | _ => (take n r, drop n r, false) end.

(** [Read(p)] for a buffer of [n] bytes: the reader afterwards, the bytes
    copied into the buffer, and whether the error is [io.EOF].  [None] is out
    of fuel. *)
Fixpoint readFuel (fuel : nat) (psr : PartSetReader) (n : nat) : option (go (PartSetReader * bytes * bool)) :=
  match fuel with
  | O => None
  | S fuel =>
      let readerLen := length (psr_reader psr) in
      if (n <=? readerLen)%nat then
        let '(got, rest, eof) := readerRead (psr_reader psr) n in
        Some (Ret (mkReader (psr_i psr) (psr_parts psr) rest, got, eof))
      else if (0 <? readerLen)%nat then
        match readFuel fuel psr readerLen with
        | Some (Ret (psr, got1, false)) =>
            match readFuel fuel psr (n - readerLen) with
            | Some (Ret (psr, got2, eof)) => Some (Ret (psr, got1 ++ got2, eof))
            | r => r
            end
        | r => r
        end
      else
        let i := psr_i psr + 1 in
        if zlen (psr_parts psr) <=? i then Some (Ret (mkReader i (psr_parts psr) (psr_reader psr), [], true))
        else match idx (psr_parts psr) i with
             | Ret (Some p) => readFuel fuel (mkReader i (psr_parts psr) (Bytes p)) n
             | Ret None => Some (Panic NilDeref)
             | Panic e => Some (Panic e)
             end
  end.

(** Each part is entered once, with at most one nested call in it. *)
Definition Read (psr : PartSetReader) (n : nat) : option (go (PartSetReader * bytes * bool)) :=
  readFuel (2 * length (psr_parts psr) + 3) psr n.
End Operations.

Section Spec.
Context `{Amino}.

(** ** The reader *)

Definition partBytes (p : option Part) : bytes := match p with Some p => Bytes p | None => [] end.
Definition contents (parts : list (option Part)) : bytes := mjoin (partBytes <$> parts).
Definition complete (parts : list (option Part)) : Prop := forall i o, parts !! i = Some o -> is_Some o.

(** The bytes a reader has not returned yet. *)
Definition unread (psr : PartSetReader) : bytes :=
  psr_reader psr ++ contents (drop (Z.to_nat (psr_i psr + 1)) (psr_parts psr)).

Definition partsLeft (psr : PartSetReader) : nat := (length (psr_parts psr) - Z.to_nat (psr_i psr + 1))%nat.

Lemma contents_drop parts i p : parts !! i = Some p -> contents (drop i parts) = partBytes p ++ contents (drop (S i) parts).
Proof. intros Hi. by rewrite (drop_S parts p i Hi). Qed.

(** What one [Read] returns. *)
Definition readOK (psr : PartSetReader) (n : nat) (psr' : PartSetReader) (got : bytes) (eof : bool) : Prop :=
  got = take n (unread psr) /\ unread psr' = drop n (unread psr) /\ psr_parts psr' = psr_parts psr /\
  0 <= psr_i psr' /\ (n <> 0%nat -> eof = (length (unread psr) <? n)%nat).

Lemma readFuel_direct f psr n : (n <= length (psr_reader psr))%nat -> 0 <= psr_i psr ->
  exists psr' got eof, readFuel (S f) psr n = Some (Ret (psr', got, eof)) /\ readOK psr n psr' got eof /\
    psr' = mkReader (psr_i psr) (psr_parts psr) (drop n (psr_reader psr)) /\ (psr_reader psr <> [] -> eof = false).
Proof.
  intros Hn H0'. cbn [readFuel]. rewrite (proj2 (Nat.leb_le _ _) Hn). unfold readerRead, readOK, unread.
  destruct (psr_reader psr) as [|b r] eqn:Er.
  - assert (n = 0%nat) as -> by (cbn in Hn; lia). do 3 eexists. split; [done|]. cbn. rewrite !drop_0, take_0.
    split_and!; try done.
  - rewrite <- Er in *. do 3 eexists. split; [done|]. cbn [psr_reader psr_i psr_parts].
    rewrite take_app_le, drop_app_le by done. split_and!; try done.
    intros _. symmetry. apply Nat.ltb_ge. rewrite length_app. lia.
Qed.

Lemma readFuel_spec f psr n : complete (psr_parts psr) -> 0 <= psr_i psr ->
  (2 * partsLeft psr + 2 + (match psr_reader psr with [] => 0 | _ => 1 end) <= f)%nat ->
  exists psr' got eof, readFuel f psr n = Some (Ret (psr', got, eof)) /\ readOK psr n psr' got eof.
Proof.
  revert psr n. induction f as [|f IH]; intros psr n Hc H0' Hf; [lia|].
  destruct (Nat.leb_spec n (length (psr_reader psr))) as [Hn|Hn].
  { destruct (readFuel_direct f psr n Hn H0') as (psr' & got & eof & E & Hr & _). by exists psr', got, eof. }
  cbn [readFuel]. rewrite (proj2 (Nat.leb_gt _ _) Hn). destruct (decide (psr_reader psr = [])) as [Er|Hne].
  - rewrite Er in Hf, Hn |- *. cbn [length Nat.ltb Nat.leb]. destruct (Z.leb_spec (zlen (psr_parts psr)) (psr_i psr + 1)) as [Hi|Hi]; unfold zlen in Hi.
    + do 3 eexists. split; [done|]. unfold readOK, unread. rewrite Er. cbn [psr_reader psr_i psr_parts].
      rewrite !drop_ge by lia. cbn. rewrite take_nil, drop_nil. split_and!; try done; [lia|]. by destruct n.
    + destruct (idx_total (psr_parts psr) (psr_i psr + 1)) as (o & -> & Ho); [unfold zlen; lia|].
      destruct (Hc _ _ Ho) as [p ->].
      destruct (IH (mkReader (psr_i psr + 1) (psr_parts psr) (Bytes p)) n) as (psr' & got & eof & -> & Hr); cbn [psr_parts psr_i psr_reader].
      { done. } { lia. }
      { revert Hf. unfold partsLeft. cbn [psr_parts psr_i]. pose proof (lookup_lt_Some _ _ _ Ho). destruct (Bytes p); lia. }
      do 3 eexists. split; [done|]. revert Hr. unfold readOK, unread. cbn [psr_reader psr_i psr_parts]. rewrite Er.
      rewrite (contents_drop _ _ _ Ho). replace (Z.to_nat (psr_i psr + 1 + 1)) with (S (Z.to_nat (psr_i psr + 1))) by lia. done.
  - assert (Hpos : (0 < length (psr_reader psr))%nat) by (destruct (psr_reader psr); cbn; [done|lia]).
    assert (Hf' : (2 * partsLeft psr + 2 <= f)%nat) by (destruct (psr_reader psr); [done|lia]).
    rewrite (proj2 (Nat.ltb_lt _ _) Hpos). destruct f as [|f]; [lia|].
    destruct (readFuel_direct f psr (length (psr_reader psr)) (le_n _) H0') as (p1 & got1 & eof1 & -> & Hr1 & Ep & He).
    rewrite (He Hne). rewrite drop_all in Ep.
    destruct (IH p1 (n - length (psr_reader psr))%nat) as (p2 & got2 & eof2 & -> & Hr2).
    { by rewrite Ep. } { by rewrite Ep. }
    { rewrite Ep. revert Hf'. unfold partsLeft. cbn [psr_reader psr_parts psr_i]. lia. }
    do 3 eexists. split; [done|]. destruct Hr1 as (-> & U1 & P1 & _ & _), Hr2 as (-> & U2 & P2 & I2 & E2).
    split_and!; [|..|congruence|done|].
    + rewrite U1. set (u := unread psr). replace n with (length (psr_reader psr) + (n - length (psr_reader psr)))%nat at 2 by lia.
      by rewrite take_take_drop.
    + rewrite U2, U1, drop_drop. f_equal. lia.
    + intros _. rewrite E2 by lia. rewrite U1, length_drop.
      assert (length (psr_reader psr) <= length (unread psr))%nat by (unfold unread; rewrite length_app; lia).
      destruct (Nat.ltb_spec (length (unread psr) - length (psr_reader psr)) (n - length (psr_reader psr))),
        (Nat.ltb_spec (length (unread psr)) n); lia.
Qed.

(** ** The invariant of a part set *)

Definition one {A} (o : option A) : Z := match o with Some _ => 1 | None => 0 end.

Lemma sum_one_le {A} (l : list (option A)) : 0 <= sumZ one l <= zlen l.
Proof.
  induction l as [|o l IH]; [done|]. rewrite sumZ_cons. unfold zlen in *. cbn [length]. destruct o; cbn [one]; lia.
Qed.

Lemma sum_one_full {A} (l : list (option A)) : sumZ one l = zlen l <-> forall i o, l !! i = Some o -> is_Some o.
Proof.
  induction l as [|o l IH]; [done|]. pose proof (sum_one_le l). rewrite sumZ_cons. unfold zlen in *. cbn [length]. split.
  - intros E [|i] x Hx; cbn in Hx; [injection Hx as <-; destruct o; cbn [one] in E; [done|lia]|].
    apply (proj1 IH) with (i := i); [|done]. destruct o; cbn [one] in E; lia.
  - intros Hall. destruct (Hall 0%nat o eq_refl) as [x ->]. cbn [one].
    rewrite (proj2 IH); [lia|]. intros i. apply (Hall (S i)).
Qed.

(** Part [p] belongs at position [i] of a set of [total] parts with root [hash]. *)
Definition partOK (total : Z) (hash : bytes) (i : nat) (p : Part) : Prop :=
  Index p = Z.of_nat i /\ Merkle.Verify (Proof_ p) (Index p) total (Some (Part_Hash p)) hash = true.

Record psInv (ps : PartSet) : Prop := mkPsInv {
  psi_total : ps_total ps = zlen (ps_parts ps);
  psi_bits : BitArray.bitsOK (ps_partsBitArray ps) (ps_parts ps);
  psi_count : ps_count ps = sumZ one (ps_parts ps);
  psi_parts : forall i p, ps_parts ps !! i = Some (Some p) -> partOK (ps_total ps) (ps_hash ps) i p }.

Lemma IsComplete_iff ps : psInv ps -> IsComplete ps = true <-> complete (ps_parts ps).
Proof.
  intros Hi. unfold IsComplete. rewrite Z.eqb_eq, (psi_count ps Hi), (psi_total ps Hi). apply sum_one_full.
Qed.

Lemma NewPartSetFromHeader_spec header : 0 <= psh_Total header ->
  exists ps, NewPartSetFromHeader header = Ret ps /\ psInv ps /\ ps_total ps = psh_Total header /\
    ps_hash ps = psh_Hash header /\ ps_parts ps = replicate (Z.to_nat (psh_Total header)) None.
Proof.
  intros Ht. unfold NewPartSetFromHeader, mkslice. rewrite (proj2 (Z.ltb_ge _ _)) by done. cbn [mbind go_mbind].
  destruct (BitArray.bitsOK_new (A := Part) (psh_Total header) Ht) as (bA & -> & Hb). cbn [mbind go_mbind].
  eexists. split; [done|]. split; [|done]. constructor; cbn; [by rewrite zlen_replicate, Z2Nat.id|done| |].
  - generalize (Z.to_nat (psh_Total header)). intros n. induction n as [|n IH]; [done|]. cbn [replicate]. by rewrite sumZ_cons, <- IH.
  - intros i p Hp. by apply lookup_replicate in Hp as [[=] _].
Qed.

(** The answer of [AddPart], by cases. *)
Inductive added (ps : PartSet) (p : Part) (ps' : PartSet) : bool -> option PartSetError -> Prop :=
| PartUnexpected : ps_total ps <= Index p -> ps' = ps -> added ps p ps' false (Some ErrPartSetUnexpectedIndex)
| PartKnown q : ps_parts ps !! Z.to_nat (Index p) = Some (Some q) -> ps' = ps -> added ps p ps' false None
| PartInvalid : ps_parts ps !! Z.to_nat (Index p) = Some None ->
    Merkle.Verify (Proof_ p) (Index p) (ps_total ps) (Some (Part_Hash p)) (ps_hash ps) = false ->
    ps' = ps -> added ps p ps' false (Some ErrPartSetInvalidProof)
| PartAdded : ps_parts ps !! Z.to_nat (Index p) = Some None ->
    partOK (ps_total ps) (ps_hash ps) (Z.to_nat (Index p)) p ->
    ps_parts ps' = <[Z.to_nat (Index p) := Some p]> (ps_parts ps) ->
    ps_count ps' = ps_count ps + 1 -> added ps p ps' true None.

Lemma AddPart_spec ps p : psInv ps -> zlen (ps_parts ps) <= MaxInt64 -> 0 <= Index p ->
  exists ps' ok err, AddPart ps (Some p) = Ret (ps', ok, err) /\ psInv ps' /\ added ps p ps' ok err /\
    ps_total ps' = ps_total ps /\ ps_hash ps' = ps_hash ps.
Proof.
  intros Hi Hmax Hp. cbn [AddPart].
  destruct (Z.leb_spec (ps_total ps) (Index p)) as [Ht|Ht].
  { do 3 eexists. split; [done|]. split; [done|]. split; [by apply PartUnexpected|done]. }
  pose proof (psi_total ps Hi) as Et. destruct (idx_total (ps_parts ps) (Index p)) as (o & -> & Ho); [lia|]. cbn [mbind go_mbind].
  destruct o as [q|].
  { do 3 eexists. split; [done|]. split; [done|]. split; [by eapply PartKnown|done]. }
  destruct (Merkle.Verify _ _ _ _ _) eqn:Ev; cbn [negb].
  2:{ do 3 eexists. split; [done|]. split; [done|]. split; [by apply PartInvalid|done]. }
  rewrite upd_ret by lia. cbn [mbind go_mbind]. set (i := Z.to_nat (Index p)) in *.
  assert (Ei : Index p = Z.of_nat i) by (unfold i; lia).
  destruct (BitArray.bitsOK_set _ _ i p (psi_bits ps Hi)) as (bA & EbA & Hb); [by eapply lookup_lt_Some|].
  rewrite Ei, EbA. cbn [mbind go_mbind fst]. pose proof (sumZ_insert one (ps_parts ps) i (Some p) None Ho) as Hs.
  cbn [one] in Hs. pose proof (sum_one_le (ps_parts ps)) as Hle. pose proof (sum_one_le (<[i:=Some p]> (ps_parts ps))) as Hle'.
  rewrite zlen_insert in Hle'. pose proof (psi_count ps Hi) as Ec.
  assert (Ecount : add64 (ps_count ps) 1 = ps_count ps + 1) by (apply wrap64_small; unfold_int64; lia).
  assert (Hok : partOK (ps_total ps) (ps_hash ps) i p) by done.
  do 3 eexists. split; [done|]. split; [constructor; cbn; [by rewrite zlen_insert|done|lia|]|].
  - intros j x Hx. destruct (decide (j = i)) as [->|].
    + rewrite list_lookup_insert_eq in Hx by (by eapply lookup_lt_Some). by injection Hx as <-.
    + rewrite list_lookup_insert_ne in Hx by done. by apply (psi_parts ps Hi).
  - split; [|done]. by apply PartAdded.
Qed.

(** ** Cutting the data *)

Definition chunk (data : bytes) (k i : nat) : bytes := take k (drop (i * k) data).
Definition cut (data : bytes) (k i : nat) : Part := mkPart (Z.of_nat i) (chunk data k i) (Merkle.mkSimpleProof []).

Lemma chunks_join data k n : mjoin (chunk data k <$> seq 0 n) = take (n * k) data.
Proof.
  induction n as [|n IH]; [done|]. rewrite seq_S, fmap_app. cbn [fmap list_fmap Nat.add].
  rewrite join_app, IH. change (mjoin [chunk data k n]) with (chunk data k n ++ []). rewrite app_nil_r. unfold chunk.
  replace (S n * k)%nat with (n * k + k)%nat by lia. by rewrite take_take_drop.
Qed.

(** Positions below [i] hold [f], the others [g]. *)
Definition filledTo {A} (f g : nat -> A) (total i : nat) (l : list A) : Prop :=
  length l = total /\ forall j, (j < total)%nat -> l !! j = Some (if (j <? i)%nat then f j else g j).

Lemma filledTo_step {A} (f g : nat -> A) total i l : (i < total)%nat -> filledTo f g total i l ->
  filledTo f g total (S i) (<[i := f i]> l).
Proof.
  intros Hi [Hl Hj]. split; [by rewrite length_insert|]. intros j Hjt. destruct (decide (j = i)) as [->|Hne].
  - rewrite list_lookup_insert_eq by lia. by rewrite (proj2 (Nat.ltb_lt i (S i))) by lia.
  - rewrite list_lookup_insert_ne, Hj by done. by destruct (Nat.ltb_spec j i), (Nat.ltb_spec j (S i)); try lia.
Qed.

Lemma filledTo_all {A} (f g : nat -> A) total l : filledTo f g total total l -> l = f <$> seq 0 total.
Proof.
  intros [Hl Hj]. apply list_eq. intros j. rewrite list_lookup_fmap. destruct (decide (j < total)%nat) as [Hlt|Hge].
  - rewrite Hj, lookup_seq_lt by done. by rewrite (proj2 (Nat.ltb_lt _ _) Hlt).
  - rewrite lookup_ge_None_2 by lia. by rewrite (lookup_ge_None_2 (seq 0 total)) by (rewrite length_seq; lia).
Qed.

Lemma cutPart_spec data k total i parts bA : (0 < k)%nat -> zlen data + Z.of_nat k <= MaxInt64 ->
  (i * k < length data)%nat -> (i < total)%nat ->
  filledTo (fun j => Some (cut data k j)) (fun _ => None) total i parts -> BitArray.bitsOK bA parts ->
  exists parts' bA', cutPart data (Z.of_nat k) (Z.of_nat i) (parts, bA) = Ret (parts', bA') /\
    filledTo (fun j => Some (cut data k j)) (fun _ => None) total (S i) parts' /\ BitArray.bitsOK bA' parts'.
Proof.
  intros Hk Hmax Hik Hi Hf Hb. unfold cutPart, zlen in *. cbn [fst snd]. unfold mul64.
  rewrite !wrap64_small by (unfold_int64; nia).
  assert (Es : slice data (Z.of_nat i * Z.of_nat k) (Z.min (zlen data) ((Z.of_nat i + 1) * Z.of_nat k)) = Ret (chunk data k i)).
  { unfold slice, zlen, chunk.
    replace ((Z.of_nat i * Z.of_nat k <? 0) || _ || _) with false.
    2:{ symmetry. rewrite !orb_false_iff, !Z.ltb_ge. lia. }
    f_equal. replace (Z.to_nat (Z.of_nat i * Z.of_nat k)) with (i * k)%nat by lia.
    destruct (decide (length data <= i * k + k)%nat).
    - rewrite !take_ge; [done|rewrite length_drop; lia..].
    - f_equal. lia. }
  unfold zlen in Es. rewrite Es. cbn [mbind go_mbind].
  rewrite upd_ret by (unfold zlen; destruct Hf as [-> _]; lia). cbn [mbind go_mbind]. rewrite Nat2Z.id.
  destruct (BitArray.bitsOK_set bA parts i (cut data k i) Hb) as (bA' & -> & Hb'); [destruct Hf as [-> _]; lia|].
  cbn [mbind go_mbind fst]. do 2 eexists. split; [done|]. split; [|done]. exact (filledTo_step (fun j => Some (cut data k j)) _ total i parts Hi Hf).
Qed.

Lemma hashAll_some (l : list Part) : hashAll (Some <$> l) = Ret (Part_Hash <$> l).
Proof. induction l as [|p l IH]; [done|]. rewrite fmap_cons. cbn [hashAll]. by rewrite IH. Qed.

Definition withProof (proofs : list Merkle.SimpleProof) (data : bytes) (k i : nat) : Part :=
  mkPart (Z.of_nat i) (chunk data k i) (default (Merkle.mkSimpleProof []) (proofs !! i)).

Lemma setProof_spec proofs data k total i parts : length proofs = total -> (i < total)%nat ->
  filledTo (fun j => Some (withProof proofs data k j)) (fun j => Some (cut data k j)) total i parts ->
  exists parts', setProof proofs (Z.of_nat i) parts = Ret parts' /\
    filledTo (fun j => Some (withProof proofs data k j)) (fun j => Some (cut data k j)) total (S i) parts'.
Proof.
  intros Hl Hi Hf. pose proof Hf as [Hlen Hj]. unfold setProof.
  rewrite (idx_lookup parts (Z.of_nat i) (Some (cut data k i))); [|lia|].
  2:{ rewrite Nat2Z.id, Hj by done. by rewrite Nat.ltb_irrefl. }
  cbn [mbind go_mbind]. destruct (lookup_lt_is_Some_2 proofs i) as [pr Hpr]; [lia|].
  rewrite (idx_lookup proofs (Z.of_nat i) pr); [|lia|by rewrite Nat2Z.id]. cbn [mbind go_mbind].
  rewrite upd_ret by (unfold zlen; lia). rewrite Nat2Z.id. eexists. split; [done|].
  replace (mkPart _ _ pr) with (withProof proofs data k i) by (unfold withProof; by rewrite Hpr).
  by apply (filledTo_step (fun j => Some (withProof proofs data k j))).
Qed.

Lemma parts_count len k : 0 < len -> 0 < k -> len + k <= MaxInt64 ->
  let total := Z.quot (wrap64 (len + k - 1)) k in 0 < total /\ (total - 1) * k < len <= total * k.
Proof.
  intros Hl Hk Hmax. cbn zeta. rewrite wrap64_small by (unfold_int64; lia). rewrite Z.quot_div_nonneg by lia.
  pose proof (Z.div_mod (len + k - 1) k ltac:(lia)). pose proof (Z.mod_pos_bound (len + k - 1) k ltac:(lia)). nia.
Qed.

Lemma firstLoop data k total bA : (0 < k)%nat -> zlen data + Z.of_nat k <= MaxInt64 ->
  (Z.of_nat total - 1) * Z.of_nat k < zlen data -> BitArray.bitsOK bA (replicate total (@None Part)) ->
  exists bA', go_for 0 (Z.of_nat total) (cutPart data (Z.of_nat k)) (replicate total None, bA) =
    Ret (Some <$> (cut data k <$> seq 0 total), bA') /\ BitArray.bitsOK bA' (Some <$> (cut data k <$> seq 0 total)).
Proof.
  intros Hk Hmax Hlen HbA.
  destruct (go_for_inv (fun i st => filledTo (fun j => Some (cut data k j)) (fun _ => None) total (Z.to_nat i) st.1 /\
    BitArray.bitsOK st.2 st.1) 0 (Z.of_nat total) (cutPart data (Z.of_nat k)) (replicate total None, bA))
    as ([parts1 bA1] & -> & Hf1 & Hb1); [lia| | |].
  { split; [|done]. split; [apply length_replicate|]. intros j Hj. by apply lookup_replicate_2. }
  { intros i [p b] Hi [Hf1 Hb1]. cbn [fst snd] in *. unfold zlen in Hlen.
    destruct (cutPart_spec data k total (Z.to_nat i) p b) as (p' & b' & E & Hf' & Hb'); [lia|done|nia|lia|done|done|].
    rewrite Z2Nat.id in E by lia. exists (p', b'). split; [done|]. cbn [fst snd].
    by replace (Z.to_nat (i + 1)) with (S (Z.to_nat i)) by lia. }
  cbn [fst snd] in *. rewrite Nat2Z.id in Hf1. pose proof (filledTo_all _ _ _ _ Hf1) as E1.
  rewrite <- list_fmap_compose. exists bA1. rewrite E1 in Hb1 |- *. done.
Qed.

Lemma secondLoop proofs data k total : length proofs = total ->
  go_for 0 (Z.of_nat total) (setProof proofs) (Some <$> (cut data k <$> seq 0 total)) =
    Ret (Some <$> (withProof proofs data k <$> seq 0 total)).
Proof.
  intros Hl. rewrite <- !list_fmap_compose.
  destruct (go_for_inv (fun i l => filledTo (fun j => Some (withProof proofs data k j)) (fun j => Some (cut data k j)) total (Z.to_nat i) l)
    0 (Z.of_nat total) (setProof proofs) ((Some ∘ cut data k) <$> seq 0 total)) as (parts2 & -> & Hf2); [lia| | |].
  { split; [by rewrite length_fmap, length_seq|]. intros j Hj. by rewrite list_lookup_fmap, lookup_seq_lt. }
  { intros i l Hi Hf. destruct (setProof_spec proofs data k total (Z.to_nat i) l Hl) as (l' & E & Hf'); [lia|done|].
    rewrite Z2Nat.id in E by lia. exists l'. split; [done|]. by replace (Z.to_nat (i + 1)) with (S (Z.to_nat i)) by lia. }
  rewrite Nat2Z.id in Hf2. by rewrite (filledTo_all _ _ _ _ Hf2).
Qed.

(** Facts on the finished slice of parts. *)
Lemma finished_lookup {A} (f : nat -> A) total i p : (Some <$> (f <$> seq 0 total)) !! i = Some (Some p) ->
  (i < total)%nat /\ p = f i.
Proof.
  rewrite <- list_fmap_compose, list_lookup_fmap. intros (j & Hj & E)%fmap_Some.
  apply lookup_seq in Hj as [-> Hi]. by injection E as ->.
Qed.

Lemma finished_complete {A} (l : list A) i o : (Some <$> l) !! i = Some o -> is_Some o.
Proof. rewrite list_lookup_fmap. intros (x & _ & ->)%fmap_Some. eauto. Qed.

Lemma finished_contents proofs data k total : (length data <= total * k)%nat ->
  contents (Some <$> (withProof proofs data k <$> seq 0 total)) = data.
Proof.
  intros Hl. unfold contents. rewrite <- !list_fmap_compose.
  rewrite (list_fmap_ext _ (chunk data k) (seq 0 total)) by done. rewrite chunks_join. by apply take_ge.
Qed.

(** The set [NewPartSetFromData] builds: complete, and its parts are the
    consecutive slices of the data. *)
Lemma NewPartSetFromData_spec data partSize : data <> [] -> 0 < partSize -> zlen data + partSize <= MaxInt64 ->
  exists ps, NewPartSetFromData data partSize = Ret ps /\ psInv ps /\ complete (ps_parts ps) /\
    contents (ps_parts ps) = data /\ zlen (ps_parts ps) <= MaxInt64 /\ 0 < zlen (ps_parts ps).
Proof.
  intros Hd Hps Hmax. assert (Hlen : 0 < zlen data) by (unfold zlen; destruct data; [done|cbn [length]; lia]).
  destruct (parts_count (zlen data) partSize Hlen Hps Hmax) as [Ht Hb].
  unfold NewPartSetFromData. rewrite (proj2 (Z.eqb_neq _ _)) by lia.
  set (totalZ := Z.quot _ _) in *. set (total := Z.to_nat totalZ). set (k := Z.to_nat partSize).
  assert (Et : totalZ = Z.of_nat total) by (unfold total; lia). assert (Ek : partSize = Z.of_nat k) by (unfold k; lia).
  rewrite Et, Ek in *. clearbody k total totalZ.
  unfold mkslice. rewrite (proj2 (Z.ltb_ge _ _)) by lia. cbn [mbind go_mbind]. rewrite Nat2Z.id.
  destruct (BitArray.bitsOK_new (A := Part) (Z.of_nat total)) as (bA & -> & HbA); [lia|]. cbn [mbind go_mbind].
  rewrite Nat2Z.id in HbA. destruct (firstLoop data k total bA) as (bA1 & -> & Hb1); [lia|lia|lia|done|].
  cbn [mbind go_mbind fst snd]. rewrite hashAll_some. cbn [mbind go_mbind].
  destruct (Merkle.proofs_verify (Part_Hash <$> (cut data k <$> seq 0 total))) as (proofs & -> & Hlp & Hv).
  { destruct total; [lia|done]. }
  { unfold zlen. rewrite !length_fmap, length_seq. nia. }
  rewrite !length_fmap, length_seq in Hlp. unfold zlen in Hv. rewrite !length_fmap, length_seq in Hv.
  cbn [mbind go_mbind fst snd]. rewrite secondLoop by done. cbn [mbind go_mbind]. eexists. split; [done|]. cbn [ps_parts].
  assert (Hz : zlen (Some <$> (withProof proofs data k <$> seq 0 total)) = Z.of_nat total)
    by (unfold zlen; rewrite !length_fmap, length_seq; done).
  split; [constructor; cbn [ps_total ps_hash ps_parts ps_partsBitArray ps_count]|].
  - done.
  - eapply BitArray.bitsOK_same; [| |exact Hb1]; [by rewrite !length_fmap|].
    intros i. split; intros Hi; by apply finished_complete in Hi as [? [=]].
  - rewrite (proj2 (sum_one_full _)); [done|]. intros i o. apply finished_complete.
  - intros i p Hp. apply finished_lookup in Hp as [Hi ->]. split; [done|]. cbn [Index withProof Proof_].
    destruct (lookup_lt_is_Some_2 proofs i) as [sp Hsp]; [lia|]. rewrite Hsp. cbn [default from_option id]. apply (Hv i sp); [done|].
    by rewrite <- list_fmap_compose, list_lookup_fmap, lookup_seq_lt.
  - split; [intros i o; apply finished_complete|]. rewrite Hz. unfold zlen in *. 
    split; [apply finished_contents; nia|]. nia.
Qed.

(** ** Sending a part set *)

(** The receiver adds the parts of [l] in order. *)
Definition receive (ps : PartSet) (l : list Part) : go PartSet :=
  go_fold (fun p ps => r ← AddPart ps (Some p); Ret r.1.1) l ps.

(** [r] collects parts of [ps] and already has those in [seen]. *)
Definition collecting (ps : PartSet) (seen : list Part) (r : PartSet) : Prop :=
  psInv r /\ ps_total r = ps_total ps /\ ps_hash r = ps_hash ps /\
  (forall i p, ps_parts r !! i = Some (Some p) -> ps_parts ps !! i = Some (Some p)) /\
  (forall p, p ∈ seen -> ps_parts r !! Z.to_nat (Index p) = Some (Some p)).

Lemma collecting_step ps seen r p i : psInv ps -> zlen (ps_parts ps) <= MaxInt64 -> ps_parts ps !! i = Some (Some p) ->
  collecting ps seen r -> exists r' ok, AddPart r (Some p) = Ret (r', ok, None) /\ collecting ps (seen ++ [p]) r'.
Proof.
  intros Hps Hmax Hp (Hr & Et & Eh & Hsub & Hseen). destruct (psi_parts ps Hps i p Hp) as [Ei Hv].
  pose proof (lookup_lt_Some _ _ _ Hp) as Hlt. pose proof (psi_total ps Hps) as Etot. pose proof (psi_total r Hr) as Ertot.
  assert (Ein : Z.to_nat (Index p) = i) by lia. unfold zlen in Etot, Ertot.
  destruct (AddPart_spec r p Hr) as (r' & ok & err & E & Hr' & Ha & Et' & Eh'); [unfold zlen in *; lia|lia|].
  assert (Hlook : exists o, ps_parts r !! i = Some o) by (apply lookup_lt_is_Some_2; lia).
  destruct Hlook as [o Ho]. destruct Ha as [Hge _|q Hq Er'|Hn Hv' _|Hn Hok Eparts Ecnt]; [lia| | |].
  - rewrite Er' in E. exists r, false. split; [done|]. split_and!; try done. intros p' Hp'. apply elem_of_app in Hp' as [|Hp']; [by apply Hseen|].
    apply list_elem_of_singleton in Hp' as ->. rewrite Ein in Hq |- *. rewrite Hq. f_equal. apply Hsub in Hq. congruence.
  - rewrite Et, Eh in Hv'. congruence.
  - exists r', true. split; [done|]. rewrite Ein in Eparts, Hn. split_and!; [done|congruence..| |].
    + intros j x Hx. rewrite Eparts in Hx. destruct (decide (j = i)) as [->|].
      * rewrite list_lookup_insert_eq in Hx by lia. by injection Hx as <-.
      * rewrite list_lookup_insert_ne in Hx by done. by apply Hsub.
    + intros p' Hp'. rewrite Eparts. destruct (decide (Z.to_nat (Index p') = i)) as [E'|Hne].
      * rewrite E', list_lookup_insert_eq by lia. apply elem_of_app in Hp' as [Hp'|Hp'].
        -- apply Hseen in Hp'. rewrite E' in Hp'. congruence.
        -- by apply list_elem_of_singleton in Hp' as ->.
      * rewrite list_lookup_insert_ne by done. apply elem_of_app in Hp' as [Hp'|Hp']; [by apply Hseen|].
        apply list_elem_of_singleton in Hp' as ->. done.
Qed.

Lemma receive_collecting ps r l : psInv ps -> zlen (ps_parts ps) <= MaxInt64 -> collecting ps [] r ->
  (forall p, p ∈ l -> exists i, ps_parts ps !! i = Some (Some p)) ->
  exists r', receive r l = Ret r' /\ collecting ps l r'.
Proof.
  intros Hps Hmax Hr Hl.
  destruct (go_fold_inv (fun k s => collecting ps (take k l) s) (fun p ps => r ← AddPart ps (Some p); Ret r.1.1) l r)
    as (r' & E & Hc); [done| |].
  - intros k p s Hk Hs. destruct (Hl p) as [i Hi]; [by eapply list_elem_of_lookup_2|].
    destruct (collecting_step ps (take k l) s p i Hps Hmax Hi Hs) as (s' & ok & -> & Hs'). cbn [mbind go_mbind fst].
    exists s'. split; [done|]. by rewrite (take_S_r l k p Hk).
  - exists r'. split; [done|]. by rewrite take_ge in Hc.
Qed.

Lemma collecting_all ps r l : psInv ps -> complete (ps_parts ps) -> collecting ps l r ->
  (forall i p, ps_parts ps !! i = Some (Some p) -> p ∈ l) -> ps_parts r = ps_parts ps.
Proof.
  intros Hps Hc (Hr & Et & _ & _ & Hseen) Hall. apply list_eq. intros i.
  destruct (ps_parts ps !! i) as [o|] eqn:Ei.
  - destruct (Hc i o Ei) as [p ->]. specialize (Hseen p (Hall i p Ei)).
    destruct (psi_parts ps Hps i p Ei) as [-> _] in Hseen. by rewrite Nat2Z.id in Hseen.
  - apply lookup_ge_None in Ei. apply lookup_ge_None. pose proof (psi_total ps Hps) as E1. pose proof (psi_total r Hr) as E2.
    unfold zlen in *. lia.
Qed.

Lemma GetReader_spec ps : psInv ps -> complete (ps_parts ps) -> 0 < zlen (ps_parts ps) ->
  exists psr, GetReader ps = Ret psr /\ psr_parts psr = ps_parts ps /\ 0 <= psr_i psr /\ unread psr = contents (ps_parts ps).
Proof.
  intros Hi Hc Hpos. unfold GetReader. rewrite (proj2 (IsComplete_iff ps Hi) Hc). cbn [negb]. unfold NewPartSetReader.
  destruct (idx_total (ps_parts ps) 0) as (o & -> & Ho); [lia|]. cbn [mbind go_mbind]. destruct (Hc _ _ Ho) as [p ->].
  eexists. split; [done|]. split; [done|]. split; [done|]. unfold unread. cbn [psr_reader psr_i psr_parts].
  change (Z.to_nat (0 + 1)) with 1%nat. change (Z.to_nat 0) with 0%nat in Ho.
  destruct (ps_parts ps) as [|x l]; [done|]. by injection Ho as ->.
Qed.

Lemma Read_spec psr n : complete (psr_parts psr) -> 0 <= psr_i psr ->
  exists psr' got eof, Read psr n = Some (Ret (psr', got, eof)) /\ readOK psr n psr' got eof.
Proof. intros Hc Hi. apply readFuel_spec; [done|done|]. unfold partsLeft. destruct (psr_reader psr); lia. Qed.

(** A receiver reached by adding any parts to an empty set with the header. *)
Inductive collected (header : PartSetHeader) : PartSet -> Prop :=
| collected_new ps : NewPartSetFromHeader header = Ret ps -> collected header ps
| collected_add ps p ps' ok err : collected header ps -> AddPart ps p = Ret (ps', ok, err) -> collected header ps'.

Lemma AddPart_inv ps p ps' ok err : psInv ps -> zlen (ps_parts ps) <= MaxInt64 -> AddPart ps p = Ret (ps', ok, err) ->
  psInv ps' /\ ps_total ps' = ps_total ps /\ ps_hash ps' = ps_hash ps.
Proof.
  intros Hi Hmax E. destruct p as [p|]; [|done]. destruct (Z_lt_le_dec (Index p) 0) as [Hneg|Hpos].
  - exfalso. cbn [AddPart] in E. pose proof (psi_total ps Hi). pose proof (zlen_nonneg (ps_parts ps)).
    rewrite (proj2 (Z.leb_gt _ _)) in E by lia. unfold idx in E. rewrite (proj2 (Z.ltb_lt _ _)) in E by done. done.
  - destruct (AddPart_spec ps p Hi Hmax Hpos) as (x & a & b & E' & H1 & _ & H2 & H3). rewrite E in E'. by injection E' as -> -> ->.
Qed.

Lemma collected_inv header ps : 0 <= psh_Total header <= MaxInt64 -> collected header ps ->
  psInv ps /\ ps_total ps = psh_Total header /\ ps_hash ps = psh_Hash header.
Proof.
  intros Ht. induction 1 as [ps E|ps p ps' ok err Hc (Hi & E1 & E2) E].
  - destruct (NewPartSetFromHeader_spec header) as (x & E' & Hi & H1 & H2 & _); [lia|]. rewrite E in E'. by injection E' as ->.
  - destruct (AddPart_inv ps p ps' ok err Hi) as (A1 & A2 & A3); [|done|].
    { pose proof (psi_total ps Hi). lia. }
    split_and!; [done|congruence..].
Qed.

(** The collision two different parts at one position give. *)
Definition partCollision (total : Z) (p q : Part) : option (bytes * bytes) :=
  if decide (Part_Hash p = Part_Hash q) then Some (Bytes p, Bytes q)
  else Merkle.findCollision (Index p) total (Part_Hash p) (Proof_ p) (Part_Hash q) (Proof_ q).

Lemma partCollision_spec `{!AminoLaws} total hash i p q : partOK total hash i p -> partOK total hash i q -> Bytes p <> Bytes q ->
  exists x y, partCollision total p q = Some (x, y) /\ x <> y /\ Sha256.tmhash x = Sha256.tmhash y.
Proof.
  intros [Ip Vp] [Iq Vq] Hne. unfold partCollision. destruct (decide _) as [E|Hh]; [by exists (Bytes p), (Bytes q)|].
  apply (Merkle.leaf_collision (Index p) total hash); [done| |done]. by rewrite Ip, <- Iq.
Qed.

(** Two complete slices of parts hold the same bytes or differ at some part. *)
Lemma contents_eq l1 l2 : length l1 = length l2 -> complete l1 -> complete l2 ->
  contents l1 = contents l2 \/
  exists i p q, l1 !! i = Some (Some p) /\ l2 !! i = Some (Some q) /\ Bytes p <> Bytes q.
Proof.
  revert l2. induction l1 as [|o1 l1 IH]; intros [|o2 l2] Hl H1 H2; try done; [by left|].
  destruct (H1 0%nat o1 eq_refl) as [p ->], (H2 0%nat o2 eq_refl) as [q ->].
  destruct (decide (Bytes p = Bytes q)) as [E|]; [|right; by exists 0%nat, p, q].
  destruct (IH l2) as [Hc|(i & p' & q' & A & B & C)]; [by injection Hl|intros i; apply (H1 (S i))|intros i; apply (H2 (S i))| |].
  - left. change (contents (Some p :: l1)) with (Bytes p ++ contents l1).
    change (contents (Some q :: l2)) with (Bytes q ++ contents l2). by rewrite E, Hc.
  - right. by exists (S i), p', q'.
Qed.

(** ** Properties *)

(** C16: a block sent in parts arrives.  The parts cut from any non-empty data,
    added in any order and with any repetitions to an empty set made from the
    header, are all accepted, complete the set, and its reader returns the
    data. *)
Theorem PartSet_transfer data partSize : data <> [] -> 0 < partSize -> zlen data + partSize <= MaxInt64 ->
  exists ps r0, NewPartSetFromData data partSize = Ret ps /\ NewPartSetFromHeader (Header (Some ps)) = Ret r0 /\
    forall l, (forall p, p ∈ l <-> Some p ∈ ps_parts ps) ->
      exists r psr psr', receive r0 l = Ret r /\ IsComplete r = true /\ GetReader r = Ret psr /\
        Read psr (length data) = Some (Ret (psr', data, false)).
Proof.
  intros Hd Hk Hmax. destruct (NewPartSetFromData_spec data partSize Hd Hk Hmax) as (ps & Eps & Hi & Hc & Hcon & Hlen & Hpos).
  destruct (NewPartSetFromHeader_spec (Header (Some ps))) as (r0 & Er0 & Hi0 & Et0 & Eh0 & Ep0).
  { cbn. rewrite (psi_total ps Hi). lia. }
  exists ps, r0. split; [done|]. split; [done|]. intros l Hl.
  destruct (receive_collecting ps r0 l Hi Hlen) as (r & Er & Hr).
  { split_and!; [done..| |by intros p Hp%elem_of_nil]. intros i p Hp. rewrite Ep0 in Hp. by apply lookup_replicate in Hp as [[=] _]. }
  { intros p Hp%Hl. by apply list_elem_of_lookup in Hp. }
  assert (Eparts : ps_parts r = ps_parts ps).
  { apply (collecting_all ps r l Hi Hc Hr). intros i p Hp. apply Hl. by eapply list_elem_of_lookup_2. }
  destruct Hr as [Hir _]. destruct (GetReader_spec r Hir) as (psr & Epsr & Ppsr & Ipsr & Upsr); [by rewrite Eparts..|].
  destruct (Read_spec psr (length data)) as (psr' & got & eof & E & Hgot & _ & _ & _ & Heof); [by rewrite Ppsr, Eparts|done|].
  exists r, psr, psr'. split; [done|]. split; [apply IsComplete_iff; [done|by rewrite Eparts]|]. split; [done|].
  rewrite Upsr, Eparts, Hcon in Hgot, Heof. rewrite take_ge in Hgot by done. rewrite Heof, Nat.ltb_irrefl, Hgot in E by (by destruct data).
  done.
Qed.

(** C10: a complete set has the data of its header.  Whatever parts were added
    (malformed, duplicated, forged), a set with the header of the parts of
    [data] that becomes complete holds exactly [data], or at some position
    two parts with different bytes are both proved, from which
    [partCollision] computes two inputs with one [tmhash]. *)
Theorem PartSet_binding `{!AminoLaws} data partSize ps r : data <> [] -> 0 < partSize -> zlen data + partSize <= MaxInt64 ->
  NewPartSetFromData data partSize = Ret ps -> collected (Header (Some ps)) r -> IsComplete r = true ->
  contents (ps_parts r) = data \/
  exists i p q x y, ps_parts ps !! i = Some (Some p) /\ ps_parts r !! i = Some (Some q) /\ Bytes p <> Bytes q /\
    partCollision (ps_total ps) p q = Some (x, y) /\ x <> y /\ Sha256.tmhash x = Sha256.tmhash y.
Proof.
  intros Hd Hk Hmax Eps Hr Hcr. destruct (NewPartSetFromData_spec data partSize Hd Hk Hmax) as (ps' & E & Hi & Hc & Hcon & Hlen & Hpos).
  rewrite Eps in E. injection E as <-. pose proof (psi_total ps Hi) as Et.
  destruct (collected_inv (Header (Some ps)) r) as (Hir & Ert & Erh); [cbn; lia|done|]. cbn in Ert, Erh.
  apply (IsComplete_iff r Hir) in Hcr. pose proof (psi_total r Hir) as Er. unfold zlen in *.
  destruct (contents_eq (ps_parts ps) (ps_parts r)) as [Heq|(i & p & q & Hp & Hq & Hne)]; [lia|done|done|left; congruence|right].
  pose proof (psi_parts ps Hi i p Hp) as Okp. pose proof (psi_parts r Hir i q Hq) as Okq. rewrite Ert, Erh in Okq.
  destruct (partCollision_spec (ps_total ps) (ps_hash ps) i p q Okp Okq Hne) as (x & y & Hcoll). by exists i, p, q, x, y.
Qed.

(** [AddPart] on every branch, for sets collected from a header: a part
    past the end or without a valid proof is refused and changes nothing, a
    known position is left alone, and otherwise the part is stored, its bit
    set and the count raised by one; a negative index panics. *)
Theorem AddPart_outcome header ps p : 0 <= psh_Total header <= MaxInt64 -> collected header ps ->
  (0 <= Index p -> exists ps' ok err, AddPart ps (Some p) = Ret (ps', ok, err) /\ psInv ps' /\ added ps p ps' ok err) /\
  (Index p < 0 -> AddPart ps (Some p) = Panic IndexOutOfRange).
Proof.
  intros Ht Hc. destruct (collected_inv header ps Ht Hc) as (Hi & Et & _). pose proof (psi_total ps Hi) as El. split.
  - intros Hp. destruct (AddPart_spec ps p Hi) as (ps' & ok & err & E & H1 & H2 & _); [lia|done|]. by exists ps', ok, err.
  - intros Hp. cbn [AddPart]. rewrite (proj2 (Z.leb_gt _ _)) by lia. unfold idx. by rewrite (proj2 (Z.ltb_lt _ _)).
Qed.

(** The reader concatenates the parts.  On a reader over a complete set,
    with any buffer size, [Read] terminates without a panic, returns the next
    bytes of the concatenation, leaves the rest, and (for a non-empty buffer)
    reports end of file exactly when the buffer could not be filled. *)
Theorem Read_next psr n : complete (psr_parts psr) -> 0 <= psr_i psr ->
  exists psr' got eof, Read psr n = Some (Ret (psr', got, eof)) /\
    got = take n (unread psr) /\ unread psr' = drop n (unread psr) /\
    (n <> 0%nat -> eof = (length (unread psr) <? n)%nat).
Proof.
  intros Hc Hi. destruct (Read_spec psr n Hc Hi) as (psr' & got & eof & E & A & B & _ & _ & C). by exists psr', got, eof.
Qed.
End Spec.

(** ** Witnesses *)

Section Examples.
#[local] Existing Instance uvarintAmino.
#[local] Existing Instance uvarintAminoLaws.

Definition exData : bytes := str "seven bytes".
Definition emptyPS : PartSet := mkPartSet 0 [] [] None 0.
Definition fromRet {A} (d : A) (m : go A) : A := match m with Ret a => a | Panic _ => d end.
Definition exSet : PartSet := fromRet emptyPS (NewPartSetFromData exData 5).
Definition exEmpty : PartSet := fromRet emptyPS (NewPartSetFromHeader (Header (Some exSet))).
Definition exParts : list Part := omap id (ps_parts exSet).
Definition exReceived : PartSet := fromRet emptyPS (receive exEmpty (reverse exParts)).

Lemma PartSet_transfer_witness : exists ps r0,
  NewPartSetFromData exData 5 = Ret ps /\ NewPartSetFromHeader (Header (Some ps)) = Ret r0.
Proof.
  destruct (PartSet_transfer exData 5) as (ps & r0 & H1 & H2 & _); [discriminate|lia|vm_compute; discriminate|].
  exists ps, r0. split; [exact H1|exact H2].
Defined.

Lemma receive_collected header ps l ps' : collected header ps -> receive ps l = Ret ps' -> collected header ps'.
Proof.
  revert ps. induction l as [|p l IH]; intros ps Hc E; cbn [receive go_fold] in E; [by injection E as <-|].
  destruct (AddPart ps (Some p)) as [[[x ok] err]|] eqn:Ea; [|done]. apply (IH x); [|exact E]. by eapply collected_add.
Qed.

Lemma exReceived_collected : collected (Header (Some exSet)) exReceived.
Proof.
  apply (receive_collected _ exEmpty (reverse exParts)).
  - apply collected_new. vm_compute. reflexivity.
  - vm_compute. reflexivity.
Qed.

Lemma PartSet_binding_witness : contents (ps_parts exReceived) = exData \/
  exists i p q x y, ps_parts exSet !! i = Some (Some p) /\ ps_parts exReceived !! i = Some (Some q) /\ Bytes p <> Bytes q /\
    partCollision (ps_total exSet) p q = Some (x, y) /\ x <> y /\ Sha256.tmhash x = Sha256.tmhash y.
Proof.
  apply (PartSet_binding exData 5); [discriminate|lia|vm_compute; discriminate|vm_compute; reflexivity|exact exReceived_collected|vm_compute; reflexivity].
Defined.

Lemma AddPart_outcome_witness : AddPart exReceived (Some (mkPart (-1) [] (Merkle.mkSimpleProof []))) = Panic IndexOutOfRange.
Proof.
  apply (proj2 (AddPart_outcome (Header (Some exSet)) exReceived (mkPart (-1) [] (Merkle.mkSimpleProof []))
    ltac:(vm_compute; split; discriminate) exReceived_collected)). vm_compute. reflexivity.
Defined.

Definition exReader : PartSetReader := fromRet (mkReader 0 [] []) (GetReader exReceived).

Lemma exReader_complete : complete (psr_parts exReader).
Proof.
  intros i o Ho. do 3 (destruct i as [|i]; [vm_compute in Ho; injection Ho as <-; eexists; reflexivity|]).
  vm_compute in Ho. discriminate Ho.
Qed.

Lemma Read_next_witness : exists psr' got eof, Read exReader 5 = Some (Ret (psr', got, eof)) /\ got = str "seven".
Proof.
  destruct (Read_next exReader 5 exReader_complete ltac:(vm_compute; discriminate)) as (psr' & got & eof & E & Hg & _).
  exists psr', got, eof. split; [exact E|]. rewrite Hg. vm_compute. reflexivity.
Defined.
End Examples.
End PartSet.
