(* ===== verification/GoTime.v ===== *)
(** * time.Parse for the layout of types.TimeFormat

    The parser of package time for the layout "2006-01-02T15:04:05.000Z" and
    its round trip with [CanonicalTime]: parsing a formatted time gives the
    time truncated to the millisecond. *)

From S2P Require Import Prelude Types.
Import Types.

Module GoTime.

(** The error of a parse is [None]. *)
Definition isDigit (b : Byte.byte) : bool := (48 <=? byte_Z b) && (byte_Z b <=? 57).
Definition digitVal (b : Byte.byte) : Z := byte_Z b - 48.

(** [atoi] of package time on the unsigned digits [s]. *)
Fixpoint digitsVal (acc : Z) (s : bytes) : option Z :=
  match s with
  | [] => Some acc
  | b :: s => if isDigit b then digitsVal (acc * 10 + digitVal b) s else None
  end.

Definition atoi (s : bytes) : option Z :=
  match s with
  | [] => None
  | b :: s' =>
      if byte_Z b =? 45 then match s' with [] => None | _ => Z.opp <$> digitsVal 0 s' end
      else if byte_Z b =? 43 then match s' with [] => None | _ => digitsVal 0 s' end
      else digitsVal 0 s
  end.

(** [getnum(s, fixed)]: one digit is enough unless [fixed]. *)
Definition getnum (s : bytes) (fixed : bool) : option (Z * bytes) :=
  match s with
  | a :: s1 =>
      if negb (isDigit a) then None
      else match s1 with
           | b :: s2 => if isDigit b then Some (digitVal a * 10 + digitVal b, s2)
                        else if fixed then None else Some (digitVal a, s1)
           | [] => if fixed then None else Some (digitVal a, s1)
           end
  | [] => None
  end.

(** [skip]: the literal text of the layout. *)
Definition skip (s : bytes) (c : Byte.byte) : option bytes :=
  match s with b :: s => if decide (b = c) then Some s else None | [] => None end.

Definition getYear (s : bytes) : option (Z * bytes) :=
  if (length s <? 4)%nat then None
  else match s with
       | b :: _ => if isDigit b then y ← atoi (take 4 s); Some (y, drop 4 s) else None
       | [] => None
       end.

(** [parseNanoseconds] on a point and three digits. *)
Definition getMillis (s : bytes) : option (Z * bytes) :=
  if (length s <? 4)%nat then None
  else match s with
       | b :: s' =>
           if decide (b = Byte.x2e) then
             ns ← atoi (take 3 s');
             if (ns <? 0) || (1000000000 <=? ns) then None else Some (ns * 1000000, drop 3 s')
           else None
       | [] => None
       end.

Definition leap (y : Z) : bool := (y mod 4 =? 0) && (negb (y mod 100 =? 0) || (y mod 400 =? 0)).
Definition daysIn (m y : Z) : Z :=
  if m =? 2 then (if leap y then 29 else 28)
  else if (m =? 4) || (m =? 6) || (m =? 9) || (m =? 11) then 30 else 31.

(** Days from the epoch to a date of the proleptic Gregorian calendar. *)
Definition daysFrom (y m d : Z) : Z :=
  let y := if m <=? 2 then y - 1 else y in
  let era := y / 400 in
  let yoe := y mod 400 in
  let mp := if 2 <? m then m - 3 else m + 9 in
  let doy := (153 * mp + 2) / 5 + d - 1 in
  let doe := yoe * 365 + yoe / 4 - yoe / 100 + doy in
  era * 146097 + doe - 719468.

Definition inRange (lo hi : Z) (r : option (Z * bytes)) : option (Z * bytes) :=
  match r with Some (n, s) => if (lo <=? n) && (n <=? hi) then Some (n, s) else None | None => None end.

(** [time.Parse(TimeFormat, value)] *)
Definition timeParse (value : bytes) : option Time :=
  '(year, s) ← getYear value; s ← skip s Byte.x2d;
  '(month, s) ← inRange 1 12 (getnum s true); s ← skip s Byte.x2d;
  '(day, s) ← getnum s true; s ← skip s Byte.x54;
  '(hour, s) ← inRange 0 23 (getnum s false); s ← skip s Byte.x3a;
  '(min, s) ← inRange 0 59 (getnum s true); s ← skip s Byte.x3a;
  '(sec, s) ← inRange 0 59 (getnum s true);
  '(nsec, s) ← getMillis s; s ← skip s Byte.x5a;
  match s with
  | [] => if (day <? 1) || (daysIn month year <? day) then None
          else Some ((daysFrom year month day * 86400 + hour * 3600 + min * 60 + sec) * 1000000000 + nsec)
  | _ => None
  end.

(** ** The calendar *)

(** Year and day of a 400-year era: a 366th day only in leap years. *)
Lemma era_ranges doe era : 0 <= doe < 146097 ->
  let yoe := (doe - doe / 1460 + doe / 36524 - doe / 146096) / 365 in
  let doy := doe - (365 * yoe + yoe / 4 - yoe / 100) in
  0 <= yoe <= 399 /\ 0 <= doy <= 365 /\ (doy = 365 -> leap (yoe + era * 400 + 1) = true).
Proof.
  intros Hdoe. cbn zeta. set (yoe := (doe - _ + _ - _) / 365). set (doy := doe - (365 * yoe + yoe / 4 - yoe / 100)).
  assert (0 <= yoe <= 399 /\ 0 <= doy <= 365) by (subst doy yoe; Z.to_euclidean_division_equations; lia).
  split_and!; [tauto..|]. intros E. assert (Hl : (yoe + 1) mod 4 = 0 /\ ((yoe + 1) mod 100 <> 0 \/ yoe = 399)).
  { subst doy yoe. clear - Hdoe E. Z.to_euclidean_division_equations; lia. }
  unfold leap. destruct Hl as [H4 H100].
  replace ((yoe + era * 400 + 1) mod 4) with 0 by (clear - H4; Z.to_euclidean_division_equations; lia).
  destruct H100 as [H100|H399].
  - replace ((yoe + era * 400 + 1) mod 100) with ((yoe + 1) mod 100) by (clear; Z.to_euclidean_division_equations; lia).
    by rewrite (proj2 (Z.eqb_neq _ _) H100).
  - rewrite H399. replace ((399 + era * 400 + 1) mod 400) with 0 by (clear; Z.to_euclidean_division_equations; lia).
    by rewrite orb_true_r.
Qed.

Lemma civil_ranges days : let '(y, m, d) := civil days in
  1 <= m <= 12 /\ 1 <= d <= daysIn m y /\ daysFrom y m d = days.
Proof.
  unfold civil. cbn zeta. set (z := days + 719468). pose proof (Z.mod_pos_bound z 146097 ltac:(lia)) as Hdoe.
  pose proof (Z.div_mod z 146097 ltac:(lia)) as Hz. set (doe := z mod 146097) in *. set (era := z / 146097) in *.
  destruct (era_ranges doe era Hdoe) as (Hy & Hd & Hleap). set (yoe := (doe - _ + _ - _) / 365) in *. clearbody yoe.
  set (doy := doe - (365 * yoe + yoe / 4 - yoe / 100)) in *. assert (Edoy : doe = yoe * 365 + yoe / 4 - yoe / 100 + doy) by lia.
  clearbody doy. set (mp := (5 * doy + 2) / 153).
  assert (Hmp : 0 <= mp <= 11) by (subst mp; clear - Hd; Z.to_euclidean_division_equations; lia).
  assert (Hback : forall m, m = (if mp <? 10 then mp + 3 else mp - 9) ->
    1 <= m <= 12 /\ (if 2 <? m then m - 3 else m + 9) = mp /\ ((m <=? 2) = (10 <=? mp))).
  { intros m ->. destruct (Z.ltb_spec mp 10), (Z.leb_spec 10 mp); try lia.
    - destruct (Z.ltb_spec 2 (mp + 3)), (Z.leb_spec (mp + 3) 2); lia.
    - destruct (Z.ltb_spec 2 (mp - 9)), (Z.leb_spec (mp - 9) 2); lia. }
  set (m := if mp <? 10 then _ else _) in *. destruct (Hback m eq_refl) as (Hm & Emp & Ele).
  split; [done|]. split.
  - unfold daysIn. assert (Hcase : mp = 11 \/ mp <= 10) by lia. destruct Hcase as [E11|H10].
    + assert (Hdoy : 337 <= doy) by (subst mp; clear - E11; Z.to_euclidean_division_equations; lia).
      assert (Em : m = 2) by (unfold m; by rewrite E11). rewrite Em, E11. change ((153 * 11 + 2) / 5) with 337.
      change (2 =? 2) with true. change (2 <=? 2) with true. cbv iota.
      destruct (decide (doy = 365)) as [E|Hne]; [rewrite (Hleap E); lia|]. destruct (leap _); lia.
    + assert (Hdm : 1 <= doy - (153 * mp + 2) / 5 + 1 <= (if (m =? 4) || (m =? 6) || (m =? 9) || (m =? 11) then 30 else 31)).
      { assert (Hmps : mp = 0 \/ mp = 1 \/ mp = 2 \/ mp = 3 \/ mp = 4 \/ mp = 5 \/ mp = 6 \/ mp = 7 \/ mp = 8 \/ mp = 9 \/ mp = 10) by lia.
        subst m. assert (Hq : 153 * mp <= 5 * doy + 2 < 153 * mp + 153) by (subst mp; clear; Z.to_euclidean_division_equations; lia).
        clearbody mp. clear - Hq Hmps. destruct_or! Hmps; rewrite Hmps in *;
          match goal with |- context [if ?b then 30 else 31] => let v := eval vm_compute in b in change b with v end;
          cbv iota; Z.to_euclidean_division_equations; lia. }
      destruct (Z.eqb_spec m 2) as [E2|]; [|done]. subst m. destruct (mp <? 10) eqn:E; lia.
  - unfold daysFrom. rewrite Emp, Ele.
    replace (if 10 <=? mp then _ else _) with (yoe + era * 400).
    2:{ destruct (10 <=? mp); lia. }
    replace ((yoe + era * 400) / 400) with era by (clear - Hy; Z.to_euclidean_division_equations; lia).
    replace ((yoe + era * 400) mod 400) with yoe by (clear - Hy; Z.to_euclidean_division_equations; lia). lia.
Qed.

(** ** Digits *)

Lemma isDigit_digit n : isDigit (digit n) = true.
Proof.
  unfold isDigit, digit. rewrite byte_Z_of_byte. pose proof (Z.mod_pos_bound n 10 ltac:(lia)).
  rewrite Z.mod_small by lia. rewrite andb_true_iff, !Z.leb_le. lia.
Qed.

Lemma digitVal_digit n : digitVal (digit n) = n mod 10.
Proof.
  unfold digitVal, digit. rewrite byte_Z_of_byte. pose proof (Z.mod_pos_bound n 10 ltac:(lia)).
  rewrite Z.mod_small by lia. lia.
Qed.

Lemma getnum_digits2 n s b : 0 <= n < 100 -> getnum (digits2 n ++ s) b = Some (n, s).
Proof.
  intros Hn. cbn [digits2 app getnum]. rewrite !isDigit_digit. cbn [negb]. rewrite !digitVal_digit.
  do 2 f_equal. Z.to_euclidean_division_equations; lia.
Qed.

Lemma atoi_digit n s : atoi (digit n :: s) = digitsVal 0 (digit n :: s).
Proof.
  unfold atoi. pose proof (isDigit_digit n) as Hd. unfold isDigit in Hd. apply andb_true_iff in Hd as [H1 H2].
  apply Z.leb_le in H1, H2. by rewrite (proj2 (Z.eqb_neq _ 45)), (proj2 (Z.eqb_neq _ 43)) by lia.
Qed.

Lemma getYear_digits4 n s : 0 <= n < 10000 -> getYear (digits4 n ++ s) = Some (n, s).
Proof.
  intros Hn. unfold getYear. cbn [digits4 digits3 digits2 app length Nat.ltb Nat.leb take drop].
  rewrite isDigit_digit, atoi_digit. cbn [digitsVal]. rewrite !isDigit_digit, !digitVal_digit.
  rewrite take_0, drop_0. cbn [digitsVal mbind option_bind].
  do 2 f_equal. Z.to_euclidean_division_equations; lia.
Qed.

Lemma getMillis_digits3 n s : 0 <= n < 1000 -> getMillis (str "." ++ digits3 n ++ s) = Some (n * 1000000, s).
Proof.
  intros Hn. unfold getMillis. change (str ".") with [Byte.x2e]. cbn [digits3 digits2 app length Nat.ltb Nat.leb take drop].
  rewrite decide_True by done. rewrite atoi_digit. cbn [digitsVal]. rewrite !isDigit_digit, !digitVal_digit.
  rewrite take_0, drop_0. cbn [digitsVal mbind option_bind].
  replace (((0 * 10 + _) * 10 + _) * 10 + _) with n by (Z.to_euclidean_division_equations; lia).
  rewrite (proj2 (Z.ltb_ge _ _)), (proj2 (Z.leb_gt _ _)) by lia. done.
Qed.

Lemma inRange_ok lo hi n s : lo <= n <= hi -> inRange lo hi (Some (n, s)) = Some (n, s).
Proof. intros Hn. unfold inRange. by rewrite (proj2 (Z.leb_le lo n)), (proj2 (Z.leb_le n hi)) by lia. Qed.

Lemma skip_str c s x : str x = [c] -> skip (str x ++ s) c = Some s.
Proof. intros ->. cbn. by rewrite decide_True. Qed.

(** The times whose year has four digits. *)
Definition timeOK (t : Time) : Prop := let '(y, _, _) := civil (t / 1000000 / 1000 / 86400) in 0 <= y <= 9999.
#[global] Instance timeOK_dec t : Decision (timeOK t).
Proof. unfold timeOK. destruct (civil _) as [[y m] d]. apply _. Defined.

Lemma timeParse_CanonicalTime t : timeOK t -> timeParse (CanonicalTime t) = Some (t / 1000000 * 1000000).
Proof.
  unfold timeOK, CanonicalTime. cbn zeta. pose proof (civil_ranges (t / 1000000 / 1000 / 86400)) as Hc.
  destruct (civil _) as [[y m] d]. destruct Hc as (Hm & Hd & Hf). intros Hy. set (ms := t / 1000000) in *.
  set (s := ms / 1000 mod 86400). assert (Hs : 0 <= s < 86400) by (apply Z.mod_pos_bound; lia).
  assert (Hd31 : d <= 31) by (unfold daysIn in Hd; repeat case_match; lia).
  unfold timeParse. rewrite getYear_digits4 by lia. cbn [mbind option_bind]. rewrite skip_str by done. cbn [mbind option_bind].
  rewrite getnum_digits2, inRange_ok by lia. cbn [mbind option_bind]. rewrite skip_str by done. cbn [mbind option_bind].
  rewrite getnum_digits2 by lia. cbn [mbind option_bind]. rewrite skip_str by done. cbn [mbind option_bind].
  rewrite getnum_digits2, inRange_ok by (Z.to_euclidean_division_equations; lia). cbn [mbind option_bind].
  rewrite skip_str by done. cbn [mbind option_bind].
  rewrite getnum_digits2, inRange_ok by (Z.to_euclidean_division_equations; lia). cbn [mbind option_bind].
  rewrite skip_str by done. cbn [mbind option_bind].
  rewrite getnum_digits2, inRange_ok by (Z.to_euclidean_division_equations; lia). cbn [mbind option_bind].
  rewrite getMillis_digits3 by (apply Z.mod_pos_bound; lia). cbn [mbind option_bind].
  change (str "Z") with [Byte.x5a]. cbn [skip]. rewrite decide_True by done. cbn [mbind option_bind].
  rewrite (proj2 (Z.ltb_ge d 1)), (proj2 (Z.ltb_ge (daysIn m y) d)) by lia. cbn [orb]. f_equal. rewrite Hf.
  subst s. clear. Z.to_euclidean_division_equations; lia.
Qed.

(** Formatting the parsed time gives the same string. *)
Lemma CanonicalTime_truncate t : CanonicalTime (t / 1000000 * 1000000) = CanonicalTime t.
Proof. unfold CanonicalTime. by rewrite Z.div_mul by lia. Qed.
End GoTime.
