(* ===== verification/PrivVal.v ===== *)
(** * privval/priv_validator.go and crypto/priv_key.go

    The file-backed signer of a validator.  [FilePV] is the signer in memory,
    its file is the bytes last written by [save]; signing returns the signer,
    the file if it was rewritten, the (updated) message and an error.  The
    JSON codec of go-amino and the signing curves are parameters. *)

From S2P Require Import Prelude Sha256 Crypto Types GoTime.
Import Crypto Types.

(** [priv.Sign(hash)] of btcec followed by [Serialize]; [None] is an error. *)
Class Signing := { btcec_Sign : bytes -> bytes -> option bytes }.

Module PrivVal.

Inductive PrivKey :=
| PrivKeyEd25519 (b : bytes)
| PrivKeySecp256k1 (b : bytes).

Definition PrivKey_Equals (privKey other : PrivKey) : bool :=
  match privKey, other with
  | PrivKeyEd25519 a, PrivKeyEd25519 b => bytes_eqb a b
  | PrivKeySecp256k1 a, PrivKeySecp256k1 b => bytes_eqb a b
  | _, _ => false
  end.

Record FilePV := mkFilePV {
  pv_Address : bytes;
  pv_PubKey : PubKey;
  LastHeight : Z;
  LastRound : Z;
  LastStep : Z;
  LastSignature : option Signature;
  LastSignBytes : option bytes;
  pv_PrivKey : PrivKey;
  filePath : bytes }.

Definition setPath (pv : FilePV) (path : bytes) : FilePV :=
  mkFilePV (pv_Address pv) (pv_PubKey pv) (LastHeight pv) (LastRound pv) (LastStep pv)
    (LastSignature pv) (LastSignBytes pv) (pv_PrivKey pv) path.

(** [cdc.UnmarshalJSON] and [cdc.MarshalJSONIndent] at the types of the
    package; [None] is an error. *)
Class JSONCodec := {
  UnmarshalJSONVote : bytes -> option CanonicalJSONVote;
  UnmarshalJSONProposal : bytes -> option CanonicalJSONProposal;
  MarshalFilePV : FilePV -> bytes;
  UnmarshalFilePV : bytes -> option FilePV }.

(** What is marshalled is read back; [filePath] is not an exported field. *)
Class JSONLaws `{Codec} `{JSONCodec} := {
  Unmarshal_vote : forall v, UnmarshalJSONVote (MarshalJSONVote v) = Some v;
  Unmarshal_proposal : forall p, UnmarshalJSONProposal (MarshalJSONProposal p) = Some p;
  Unmarshal_pv : forall pv, UnmarshalFilePV (MarshalFilePV pv) = Some (setPath pv []) }.

Inductive PVError :=
| HeightRegression
| RoundRegression
| StepRegression
| NoLastSignature
| ConflictingData
| SignError.

Section Operations.
Context `{Codec} `{Curves} `{Signing} `{JSONCodec}.

Definition PrivKey_Sign (k : PrivKey) (msg : bytes) : option Signature :=
  match k with
  | PrivKeyEd25519 b => Some (SignatureEd25519 (ed25519_Sign b msg))
  | PrivKeySecp256k1 b => SignatureSecp256k1 <$> btcec_Sign b (Sha256.Sum256 msg)
  end.

Definition stepNone : Z := 0.
Definition stepPropose : Z := 1.
Definition stepPrevote : Z := 2.
Definition stepPrecommit : Z := 3.

Definition voteToStep (vote : Vote) : go Z :=
  if v_Type vote =? VoteTypePrevote then Ret stepPrevote
  else if v_Type vote =? VoteTypePrecommit then Ret stepPrecommit
  else Panic (PanicSanity "Unknown vote type").

(** [GenFilePV] for the key [privKey] drawn at random, with its public key. *)
Definition GenFilePV (privKey : PrivKey) (pubKey : PubKey) (path : bytes) : FilePV :=
  mkFilePV (Address pubKey) pubKey 0 0 stepNone None None privKey path.

(** [LoadFilePV] on the contents of the file; [None] exits the process. *)
Definition LoadFilePV (path contents : bytes) : option FilePV :=
  pv ← UnmarshalFilePV contents; Some (setPath pv path).

(** [save]: the new contents of the file.  [writeOK] is the outcome of
    [WriteFileAtomic], which replaces the file or leaves it as it was. *)
Definition save (writeOK : bool) (pv : FilePV) : go bytes :=
  if bool_decide (filePath pv = []) then Panic (PanicMsg "Cannot save PrivValidator: filePath not set")
  else if writeOK then Ret (MarshalFilePV pv) else Panic (PanicMsg "WriteFileAtomic").

(** [LoadOrGenFilePV]: [None] contents is a missing file. *)
Definition LoadOrGenFilePV (writeOK : bool) (path : bytes) (contents : option bytes) (privKey : PrivKey) (pubKey : PubKey)
  : go (option FilePV * option bytes) :=
  match contents with
  | Some c => Ret (LoadFilePV path c, None)
  | None =>
      let pv := GenFilePV privKey pubKey path in
      file ← save writeOK pv;
      Ret (Some pv, Some file)
  end.

Definition Reset (writeOK : bool) (pv : FilePV) : go (FilePV * bytes) :=
  let pv := mkFilePV (pv_Address pv) (pv_PubKey pv) 0 0 0 None None (pv_PrivKey pv) (filePath pv) in
  file ← save writeOK pv;
  Ret (pv, file).

(** [true] is "HRS unchanged". *)
Definition checkHRS (pv : FilePV) (height round step : Z) : go (bool * option PVError) :=
  if height <? LastHeight pv then Ret (false, Some HeightRegression)
  else if LastHeight pv =? height then
    if round <? LastRound pv then Ret (false, Some RoundRegression)
    else if LastRound pv =? round then
      if step <? LastStep pv then Ret (false, Some StepRegression)
      else if LastStep pv =? step then
        match LastSignBytes pv with
        | Some _ =>
            match LastSignature pv with
            | None => Panic (PanicMsg "pv: LastSignature is nil but LastSignBytes is not!")
            | Some _ => Ret (true, None)
            end
        | None => Ret (false, Some NoLastSignature)
        end
      else Ret (false, None)
    else Ret (false, None)
  else Ret (false, None).

Definition orPanic {A} (why : String.string) (o : option A) : go A :=
  match o with Some a => Ret a | None => Panic (PanicMsg why) end.

Definition voteWithTime (v : CanonicalJSONVote) (t : bytes) : CanonicalJSONVote :=
  mkCVote (cv_ChainID v) (cv_Type v) (cv_BlockID v) (cv_Height v) (cv_Round v) t (cv_VoteType v).
Definition proposalWithTime (p : CanonicalJSONProposal) (t : bytes) : CanonicalJSONProposal :=
  mkCProposal (cp_ChainID p) (cp_Type p) (cp_BlockPartsHeader p) (cp_Height p) (cp_POLBlockID p) (cp_POLRound p) (cp_Round p) t.

Definition checkVotesOnlyDifferByTimestamp (now : Time) (lastSignBytes newSignBytes : bytes) : go (Time * bool) :=
  lastVote ← orPanic "LastSignBytes cannot be unmarshalled into vote" (UnmarshalJSONVote lastSignBytes);
  newVote ← orPanic "signBytes cannot be unmarshalled into vote" (UnmarshalJSONVote newSignBytes);
  lastTime ← orPanic "time.Parse" (GoTime.timeParse (cv_Timestamp lastVote));
  let now := CanonicalTime now in
  let lastVoteBytes := MarshalJSONVote (voteWithTime lastVote now) in
  let newVoteBytes := MarshalJSONVote (voteWithTime newVote now) in
  Ret (lastTime, bytes_eqb newVoteBytes lastVoteBytes).

Definition checkProposalsOnlyDifferByTimestamp (now : Time) (lastSignBytes newSignBytes : bytes) : go (Time * bool) :=
  lastProposal ← orPanic "LastSignBytes cannot be unmarshalled into proposal" (UnmarshalJSONProposal lastSignBytes);
  newProposal ← orPanic "signBytes cannot be unmarshalled into proposal" (UnmarshalJSONProposal newSignBytes);
  lastTime ← orPanic "time.Parse" (GoTime.timeParse (cp_Timestamp lastProposal));
  let now := CanonicalTime now in
  let lastProposalBytes := MarshalJSONProposal (proposalWithTime lastProposal now) in
  let newProposalBytes := MarshalJSONProposal (proposalWithTime newProposal now) in
  Ret (lastTime, bytes_eqb newProposalBytes lastProposalBytes).

Definition saveSigned (writeOK : bool) (pv : FilePV) (height round step : Z) (signBytes : bytes) (sig : Signature)
  : go (FilePV * bytes) :=
  let pv := mkFilePV (pv_Address pv) (pv_PubKey pv) height round step (Some sig) (Some signBytes)
              (pv_PrivKey pv) (filePath pv) in
  file ← save writeOK pv;
  Ret (pv, file).

Definition setVoteSig (v : Vote) (t : Time) (sig : option Signature) : Vote :=
  mkVote (v_ValidatorAddress v) (v_ValidatorIndex v) (v_Height v) (v_Round v) t (v_Type v) (v_BlockID v) sig.
Definition setProposalSig (p : Proposal) (t : Time) (sig : option Signature) : Proposal :=
  mkProposal (p_Height p) (p_Round p) t (p_BlockPartsHeader p) (p_POLRound p) (p_POLBlockID p) sig.

Definition signVote (writeOK : bool) (now : Time) (pv : FilePV) (chainID : bytes) (vote : Vote)
  : go (FilePV * option bytes * Vote * option PVError) :=
  step ← voteToStep vote;
  let signBytes := Vote_SignBytes chainID vote in
  hrs ← checkHRS pv (v_Height vote) (v_Round vote) step;
  match hrs with
  | (_, Some err) => Ret (pv, None, vote, Some err)
  | (true, None) =>
      let last := default [] (LastSignBytes pv) in
      if bytes_eqb signBytes last then
        Ret (pv, None, setVoteSig vote (v_Timestamp vote) (LastSignature pv), None)
      else
        r ← checkVotesOnlyDifferByTimestamp now last signBytes;
        if (r.2 : bool) then Ret (pv, None, setVoteSig vote r.1 (LastSignature pv), None)
        else Ret (pv, None, vote, Some ConflictingData)
  | (false, None) =>
      match PrivKey_Sign (pv_PrivKey pv) signBytes with
      | None => Ret (pv, None, vote, Some SignError)
      | Some sig =>
          r ← saveSigned writeOK pv (v_Height vote) (v_Round vote) step signBytes sig;
          Ret (r.1, Some r.2, setVoteSig vote (v_Timestamp vote) (Some sig), None)
      end
  end.

Definition signProposal (writeOK : bool) (now : Time) (pv : FilePV) (chainID : bytes) (proposal : Proposal)
  : go (FilePV * option bytes * Proposal * option PVError) :=
  let signBytes := Proposal_SignBytes chainID proposal in
  hrs ← checkHRS pv (p_Height proposal) (p_Round proposal) stepPropose;
  match hrs with
  | (_, Some err) => Ret (pv, None, proposal, Some err)
  | (true, None) =>
      let last := default [] (LastSignBytes pv) in
      if bytes_eqb signBytes last then
        Ret (pv, None, setProposalSig proposal (p_Timestamp proposal) (LastSignature pv), None)
      else
        r ← checkProposalsOnlyDifferByTimestamp now last signBytes;
        if (r.2 : bool) then Ret (pv, None, setProposalSig proposal r.1 (LastSignature pv), None)
        else Ret (pv, None, proposal, Some ConflictingData)
  | (false, None) =>
      match PrivKey_Sign (pv_PrivKey pv) signBytes with
      | None => Ret (pv, None, proposal, Some SignError)
      | Some sig =>
          r ← saveSigned writeOK pv (p_Height proposal) (p_Round proposal) stepPropose signBytes sig;
          Ret (r.1, Some r.2, setProposalSig proposal (p_Timestamp proposal) (Some sig), None)
      end
  end.

Definition SignHeartbeat (pv : FilePV) (chainID : bytes) (hb : Heartbeat) : Heartbeat * option PVError :=
  match PrivKey_Sign (pv_PrivKey pv) (Heartbeat_SignBytes chainID hb) with
  | None => (hb, Some SignError)
  | Some sig => (mkHeartbeat (hb_ValidatorAddress hb) (hb_ValidatorIndex hb) (hb_Height hb) (hb_Round hb)
                   (hb_Sequence hb) (Some sig), None)
  end.

(** The exported methods take the lock and prefix the error message. *)
Definition SignVote := signVote.
Definition SignProposal := signProposal.
End Operations.

Section Spec.
Context `{Codec} `{Curves} `{Signing} `{JSONCodec} `{!JSONLaws}.

(** ** Released signatures *)

(** A signature handed out: height, round and step, the bytes it signs (those
    of the returned message) and the signature. *)
Record Entry := mkEntry { e_height : Z; e_round : Z; e_step : Z; e_bytes : bytes; e_sig : option Signature }.

Definition hrs (e : Entry) : Z * Z * Z := (e_height e, e_round e, e_step e).
Definition last (pv : FilePV) : Z * Z * Z := (LastHeight pv, LastRound pv, LastStep pv).

(** Lexicographic order on height, round and step. *)
Definition hrsLt (a b : Z * Z * Z) : Prop :=
  a.1.1 < b.1.1 \/ (a.1.1 = b.1.1 /\ (a.1.2 < b.1.2 \/ (a.1.2 = b.1.2 /\ a.2 < b.2))).
Definition hrsLe (a b : Z * Z * Z) : Prop := hrsLt a b \/ a = b.

Lemma hrsLt_trans a b c : hrsLe a b -> hrsLt b c -> hrsLt a c.
Proof. destruct a as [[a1 a2] a3], b as [[b1 b2] b3], c as [[c1 c2] c3]. intros [Hl|[= -> -> ->]]; [|done]. unfold hrsLt in *. cbn in *. lia. Qed.

Lemma hrsLt_irrefl a : ~ hrsLt a a.
Proof. destruct a as [[a1 a2] a3]. unfold hrsLt. cbn. lia. Qed.

Definition voteEntry (chainID : bytes) (v : Vote) : Entry :=
  mkEntry (v_Height v) (v_Round v) (if v_Type v =? VoteTypePrevote then stepPrevote else stepPrecommit)
    (Vote_SignBytes chainID v) (v_Signature v).
Definition proposalEntry (chainID : bytes) (p : Proposal) : Entry :=
  mkEntry (p_Height p) (p_Round p) stepPropose (Proposal_SignBytes chainID p) (p_Signature p).

(** The last signed bytes are those of a message of the last step, and the
    last signature is the key's signature over them. *)
Definition lastOK (pv : FilePV) : Prop :=
  match LastSignBytes pv with
  | None => True
  | Some sb =>
      is_Some (LastSignature pv) /\ PrivKey_Sign (pv_PrivKey pv) sb = LastSignature pv /\
      ((LastStep pv = stepPropose /\ exists c p, sb = Proposal_SignBytes c p /\ GoTime.timeOK (p_Timestamp p)) \/
       (LastStep pv <> stepPropose /\ exists c v, sb = Vote_SignBytes c v /\ GoTime.timeOK (v_Timestamp v)))
  end.

(** The outcome of a signing call: an error that changes nothing, the last
    signature again for the last message, or a fresh signature for a later
    step, recorded and written to the file. *)
Inductive signResult (pv : FilePV) : FilePV -> option bytes -> option Entry -> option PVError -> Prop :=
| ResErr err : signResult pv pv None None (Some err)
| ResSame e : hrs e = last pv -> LastSignBytes pv = Some (e_bytes e) -> e_sig e = LastSignature pv ->
    signResult pv pv None (Some e) None
| ResNew e pv' : hrsLt (last pv) (hrs e) -> last pv' = hrs e -> LastSignBytes pv' = Some (e_bytes e) ->
    LastSignature pv' = e_sig e -> pv_PrivKey pv' = pv_PrivKey pv -> filePath pv' = filePath pv -> lastOK pv' ->
    signResult pv pv' (Some (MarshalFilePV pv')) (Some e) None.

Lemma checkHRS_spec pv h r s : lastOK pv -> exists b err, checkHRS pv h r s = Ret (b, err) /\
  (err = None -> (b = true /\ (h, r, s) = last pv /\ is_Some (LastSignBytes pv)) \/
                 (b = false /\ hrsLt (last pv) (h, r, s))) /\
  (err <> None -> hrsLt (h, r, s) (last pv) \/ ((h, r, s) = last pv /\ LastSignBytes pv = None)).
Proof.
  intros Hok. unfold checkHRS, last, hrsLt. cbn [fst snd].
  destruct (Z.ltb_spec h (LastHeight pv)); [do 2 eexists; split; [done|]; split; [done|]; intros _; left; lia|].
  destruct (Z.eqb_spec (LastHeight pv) h) as [E1|]; [|do 2 eexists; split; [done|]; split; [|done]; intros _; right; split; [done|lia]].
  destruct (Z.ltb_spec r (LastRound pv)); [do 2 eexists; split; [done|]; split; [done|]; intros _; left; lia|].
  destruct (Z.eqb_spec (LastRound pv) r) as [E2|]; [|do 2 eexists; split; [done|]; split; [|done]; intros _; right; split; [done|lia]].
  destruct (Z.ltb_spec s (LastStep pv)); [do 2 eexists; split; [done|]; split; [done|]; intros _; left; lia|].
  destruct (Z.eqb_spec (LastStep pv) s) as [E3|]; [|do 2 eexists; split; [done|]; split; [|done]; intros _; right; split; [done|lia]].
  unfold lastOK in Hok. destruct (LastSignBytes pv) as [sb|] eqn:Es.
  - destruct Hok as [[sig ->] _]. do 2 eexists. split; [done|]. split; [|done]. intros _. left. by rewrite E1, E2, E3.
  - do 2 eexists. split; [done|]. split; [done|]. intros _. right. by rewrite E1, E2, E3.
Qed.

Lemma saveSigned_spec pv h r s sb sig : filePath pv <> [] -> exists pv',
  saveSigned true pv h r s sb sig = Ret (pv', MarshalFilePV pv') /\ last pv' = (h, r, s) /\
  LastSignBytes pv' = Some sb /\ LastSignature pv' = Some sig /\ pv_PrivKey pv' = pv_PrivKey pv /\ filePath pv' = filePath pv.
Proof.
  intros Hp. unfold saveSigned, save. cbn [filePath]. rewrite bool_decide_false by done. cbn [mbind go_mbind]. by eexists.
Qed.

(** ** Messages that differ only by their time *)

Lemma MarshalJSONVote_inj v w : MarshalJSONVote v = MarshalJSONVote w -> v = w.
Proof. intros E. apply (f_equal UnmarshalJSONVote) in E. rewrite !Unmarshal_vote in E. congruence. Qed.

Lemma MarshalJSONProposal_inj v w : MarshalJSONProposal v = MarshalJSONProposal w -> v = w.
Proof. intros E. apply (f_equal UnmarshalJSONProposal) in E. rewrite !Unmarshal_proposal in E. congruence. Qed.

Lemma checkVotes_spec now c0 v0 c v : GoTime.timeOK (v_Timestamp v0) ->
  exists t ok, checkVotesOnlyDifferByTimestamp now (Vote_SignBytes c0 v0) (Vote_SignBytes c v) = Ret (t, ok) /\
    (ok = true <-> forall sig, Vote_SignBytes c (setVoteSig v t sig) = Vote_SignBytes c0 v0).
Proof.
  intros Ht. unfold checkVotesOnlyDifferByTimestamp, Vote_SignBytes. rewrite !Unmarshal_vote. cbn [orPanic mbind go_mbind].
  cbn [cv_Timestamp CanonicalVote]. rewrite GoTime.timeParse_CanonicalTime by done. cbn [orPanic mbind go_mbind].
  do 2 eexists. split; [done|]. rewrite bytes_eqb_true. split.
  - intros E%MarshalJSONVote_inj sig. f_equal.
    apply (f_equal (fun x => voteWithTime x (CanonicalTime (v_Timestamp v0 / 1000000 * 1000000)))) in E.
    rewrite (GoTime.CanonicalTime_truncate (v_Timestamp v0)) in E. unfold CanonicalVote. cbn [v_Timestamp setVoteSig].
    rewrite GoTime.CanonicalTime_truncate. exact E.
  - intros E. specialize (E None). apply MarshalJSONVote_inj in E. f_equal.
    exact (f_equal (fun x => voteWithTime x (CanonicalTime now)) E).
Qed.

Lemma checkProposals_spec now c0 p0 c p : GoTime.timeOK (p_Timestamp p0) ->
  exists t ok, checkProposalsOnlyDifferByTimestamp now (Proposal_SignBytes c0 p0) (Proposal_SignBytes c p) = Ret (t, ok) /\
    (ok = true <-> forall sig, Proposal_SignBytes c (setProposalSig p t sig) = Proposal_SignBytes c0 p0).
Proof.
  intros Ht. unfold checkProposalsOnlyDifferByTimestamp, Proposal_SignBytes. rewrite !Unmarshal_proposal. cbn [orPanic mbind go_mbind].
  cbn [cp_Timestamp CanonicalProposal]. rewrite GoTime.timeParse_CanonicalTime by done. cbn [orPanic mbind go_mbind].
  do 2 eexists. split; [done|]. rewrite bytes_eqb_true. split.
  - intros E%MarshalJSONProposal_inj sig. f_equal.
    apply (f_equal (fun x => proposalWithTime x (CanonicalTime (p_Timestamp p0 / 1000000 * 1000000)))) in E.
    rewrite (GoTime.CanonicalTime_truncate (p_Timestamp p0)) in E. unfold CanonicalProposal. cbn [p_Timestamp setProposalSig].
    rewrite GoTime.CanonicalTime_truncate. exact E.
  - intros E. specialize (E None). apply MarshalJSONProposal_inj in E. f_equal.
    exact (f_equal (fun x => proposalWithTime x (CanonicalTime now)) E).
Qed.

(** ** The two signing methods *)

Lemma voteToStep_entry v : IsVoteTypeValid (v_Type v) = true ->
  voteToStep v = Ret (if v_Type v =? VoteTypePrevote then stepPrevote else stepPrecommit).
Proof. unfold IsVoteTypeValid, voteToStep. destruct (_ =? VoteTypePrevote); [done|]. by destruct (_ =? VoteTypePrecommit). Qed.

Lemma signVote_spec now pv chainID v : lastOK pv -> filePath pv <> [] -> IsVoteTypeValid (v_Type v) = true ->
  GoTime.timeOK (v_Timestamp v) ->
  exists pv' file v' err, signVote true now pv chainID v = Ret (pv', file, v', err) /\
    signResult pv pv' file (match err with None => Some (voteEntry chainID v') | Some _ => None end) err /\
    v_Height v' = v_Height v /\ v_Round v' = v_Round v /\ v_Type v' = v_Type v /\ v_BlockID v' = v_BlockID v.
Proof.
  intros Hok Hp Ht Htime. unfold signVote. rewrite (voteToStep_entry v Ht). cbn [mbind go_mbind].
  set (s := if v_Type v =? VoteTypePrevote then stepPrevote else stepPrecommit). assert (Hs : s <> stepPropose) by (unfold s; by destruct (_ =? _)).
  destruct (checkHRS_spec pv (v_Height v) (v_Round v) s Hok) as (b & err & -> & Hnone & _). cbn [mbind go_mbind].
  destruct err as [err|].
  { exists pv, None, v, (Some err). split; [by destruct b|]. split; [constructor|done]. }
  destruct (Hnone eq_refl) as [(-> & Eh & sb & Esb)|[-> Hlt]].
  - rewrite Esb. cbn [default from_option id]. pose proof Hok as Hok'. unfold lastOK in Hok'. rewrite Esb in Hok'.
    destruct Hok' as (_ & Hsig & [[E1 _]|(_ & c0 & v0 & Hsb & Ht0)]).
    { exfalso. apply Hs. unfold last in Eh. injection Eh as _ _ Eh. congruence. }
    destruct (bytes_eqb _ sb) eqn:Eb.
    + apply bytes_eqb_true in Eb. do 4 eexists. split; [done|]. split; [|done].
      apply ResSame; [exact Eh|cbn [e_bytes voteEntry]; rewrite Esb, <- Eb; done|done].
    + rewrite Hsb. destruct (checkVotes_spec now c0 v0 chainID v Ht0) as (t & ok & -> & Hiff). cbn [mbind go_mbind fst snd].
      destruct ok; do 4 eexists; (split; [done|]); (split; [|done]); [|constructor].
      apply ResSame; [exact Eh|cbn [e_bytes voteEntry]; by rewrite (proj1 Hiff eq_refl), <- Hsb|done].
  - destruct (PrivKey_Sign (pv_PrivKey pv) _) as [sig|] eqn:Esig.
    2:{ do 4 eexists. split; [done|]. split; [constructor|done]. }
    destruct (saveSigned_spec pv (v_Height v) (v_Round v) s (Vote_SignBytes chainID v) sig Hp) as (pv' & -> & F1 & F2 & F3 & F4 & F5).
    cbn [mbind go_mbind fst snd]. do 4 eexists. split; [done|]. split; [|done].
    apply ResNew; try done. unfold lastOK. rewrite F2, F3, F4. split; [done|]. split; [done|]. right.
    unfold last in F1. injection F1 as _ _ ->. split; [done|]. by exists chainID, v.
Qed.

Lemma signProposal_spec now pv chainID p : lastOK pv -> filePath pv <> [] -> GoTime.timeOK (p_Timestamp p) ->
  exists pv' file p' err, signProposal true now pv chainID p = Ret (pv', file, p', err) /\
    signResult pv pv' file (match err with None => Some (proposalEntry chainID p') | Some _ => None end) err /\
    p_Height p' = p_Height p /\ p_Round p' = p_Round p /\ p_BlockPartsHeader p' = p_BlockPartsHeader p.
Proof.
  intros Hok Hp Htime. unfold signProposal.
  destruct (checkHRS_spec pv (p_Height p) (p_Round p) stepPropose Hok) as (b & err & -> & Hnone & _). cbn [mbind go_mbind].
  destruct err as [err|].
  { exists pv, None, p, (Some err). split; [by destruct b|]. split; [constructor|done]. }
  destruct (Hnone eq_refl) as [(-> & Eh & sb & Esb)|[-> Hlt]].
  - rewrite Esb. cbn [default from_option id]. pose proof Hok as Hok'. unfold lastOK in Hok'. rewrite Esb in Hok'.
    destruct Hok' as (_ & Hsig & [(_ & c0 & p0 & Hsb & Ht0)|[E1 _]]).
    2:{ exfalso. apply E1. unfold last in Eh. injection Eh as _ _ Eh. congruence. }
    destruct (bytes_eqb _ sb) eqn:Eb.
    + apply bytes_eqb_true in Eb. do 4 eexists. split; [done|]. split; [|done].
      apply ResSame; [exact Eh|cbn [e_bytes proposalEntry]; rewrite Esb, <- Eb; done|done].
    + rewrite Hsb. destruct (checkProposals_spec now c0 p0 chainID p Ht0) as (t & ok & -> & Hiff). cbn [mbind go_mbind fst snd].
      destruct ok; do 4 eexists; (split; [done|]); (split; [|done]); [|constructor].
      apply ResSame; [exact Eh|cbn [e_bytes proposalEntry]; by rewrite (proj1 Hiff eq_refl), <- Hsb|done].
  - destruct (PrivKey_Sign (pv_PrivKey pv) _) as [sig|] eqn:Esig.
    2:{ do 4 eexists. split; [done|]. split; [constructor|done]. }
    destruct (saveSigned_spec pv (p_Height p) (p_Round p) stepPropose (Proposal_SignBytes chainID p) sig Hp) as (pv' & -> & F1 & F2 & F3 & F4 & F5).
    cbn [mbind go_mbind fst snd]. do 4 eexists. split; [done|]. split; [|done].
    apply ResNew; try done. unfold lastOK. rewrite F2, F3, F4. split; [done|]. split; [done|]. left.
    unfold last in F1. injection F1 as _ _ ->. split; [done|]. by exists chainID, p.
Qed.

(** ** Histories of a signer *)

(** The signer in memory, the contents of its file, and what it released. *)
Record World := mkWorld { mem : FilePV; disk : bytes; released : list Entry }.

(** A request to sign, as the consensus makes it. *)
Inductive request :=
| ReqVote (chainID : bytes) (v : Vote)
| ReqProposal (chainID : bytes) (p : Proposal).

Definition requestOK (r : request) : Prop :=
  match r with
  | ReqVote _ v => IsVoteTypeValid (v_Type v) = true /\ GoTime.timeOK (v_Timestamp v)
  | ReqProposal _ p => GoTime.timeOK (p_Timestamp p)
  end.

(** What the call returns: the signer, the rewritten file, and the released
    signature (none when there is an error). *)
Definition serve (writeOK : bool) (now : Time) (pv : FilePV) (r : request) : go (FilePV * option bytes * option Entry) :=
  match r with
  | ReqVote c v =>
      x ← SignVote writeOK now pv c v;
      let '(pv, file, v, err) := x in
      Ret (pv, file, match err with None => Some (voteEntry c v) | Some _ => None end)
  | ReqProposal c p =>
      x ← SignProposal writeOK now pv c p;
      let '(pv, file, p, err) := x in
      Ret (pv, file, match err with None => Some (proposalEntry c p) | Some _ => None end)
  end.

Definition writeFile (file : option bytes) (d : bytes) : bytes := default d file.
Definition releaseEntry (e : option Entry) (l : list Entry) : list Entry := match e with Some e => l ++ [e] | None => l end.

(** Requests are served, and the process may crash at any time and restart
    from its file: while idle, or inside a call, before or after the file was
    rewritten but before the signature was released. *)
Inductive wstep (path : bytes) : World -> World -> Prop :=
| step_serve w now r pv' file e : requestOK r -> serve true now (mem w) r = Ret (pv', file, e) ->
    wstep path w (mkWorld pv' (writeFile file (disk w)) (releaseEntry e (released w)))
| step_crash w pv : LoadFilePV path (disk w) = Some pv -> wstep path w (mkWorld pv (disk w) (released w))
| step_crash_after_write w now r pv' file e pv : requestOK r -> serve true now (mem w) r = Ret (pv', Some file, e) ->
    LoadFilePV path file = Some pv -> wstep path w (mkWorld pv file (released w)).

Inductive whistory (path : bytes) (pv0 : FilePV) : World -> Prop :=
| hist_start : whistory path pv0 (mkWorld pv0 (MarshalFilePV pv0) [])
| hist_step w w' : whistory path pv0 w -> wstep path w w' -> whistory path pv0 w'.

Record WInv (path : bytes) (k : PrivKey) (w : World) : Prop := mkWInv {
  wi_disk : disk w = MarshalFilePV (mem w);
  wi_path : filePath (mem w) = path;
  wi_key : pv_PrivKey (mem w) = k;
  wi_last : lastOK (mem w);
  wi_log : forall e, e ∈ released w -> hrsLt (hrs e) (last (mem w)) \/
             (hrs e = last (mem w) /\ LastSignBytes (mem w) = Some (e_bytes e) /\ e_sig e = LastSignature (mem w));
  wi_sig : forall e, e ∈ released w -> is_Some (e_sig e) /\ PrivKey_Sign k (e_bytes e) = e_sig e;
  wi_uniq : forall e1 e2, e1 ∈ released w -> e2 ∈ released w -> hrs e1 = hrs e2 -> e1 = e2 }.

Lemma serve_spec now pv r : lastOK pv -> filePath pv <> [] -> requestOK r ->
  exists pv' file e err, serve true now pv r = Ret (pv', file, e) /\ signResult pv pv' file e err.
Proof.
  intros Hok Hp Hr. destruct r as [c v|c p]; cbn [serve]; unfold SignVote, SignProposal.
  - destruct Hr as [H1' H2']. destruct (signVote_spec now pv c v Hok Hp H1' H2') as (pv' & file & v' & err & -> & Hs & _).
    cbn [mbind go_mbind]. by eexists _, _, _, err.
  - destruct (signProposal_spec now pv c p Hok Hp Hr) as (pv' & file & p' & err & -> & Hs & _).
    cbn [mbind go_mbind]. by eexists _, _, _, err.
Qed.

Lemma Load_saved path pv : filePath pv = path -> LoadFilePV path (MarshalFilePV pv) = Some pv.
Proof. intros <-. unfold LoadFilePV. rewrite Unmarshal_pv. cbn [mbind option_bind]. by destruct pv. Qed.

Lemma entry_eq e1 e2 : hrs e1 = hrs e2 -> e_bytes e1 = e_bytes e2 -> e_sig e1 = e_sig e2 -> e1 = e2.
Proof. destruct e1, e2. unfold hrs. cbn. intros [= -> -> ->] -> ->. done. Qed.

(** The file and the memory after a call, whether or not its signature got
    out: the log so far stays below or at the new last step. *)
Lemma WInv_result path k w pv' file e err : WInv path k w -> signResult (mem w) pv' file e err ->
  WInv path k (mkWorld pv' (writeFile file (disk w)) (released w)).
Proof.
  intros Hw Hs. destruct Hs as [err|e _ _ _|e pv' Hlt Hl Hb Hsg Hk Hpath Hok]; [by destruct w|by destruct w|].
  constructor; cbn; try apply Hw; [done|rewrite Hpath; apply Hw|rewrite Hk; apply Hw|done|].
  intros x Hx. left. rewrite Hl. eapply hrsLt_trans; [|exact Hlt].
  destruct (wi_log path k w Hw x Hx) as [Hx'|[Hx' _]]; [by left|by right].
Qed.

Lemma WInv_release path k w pv' file e err : WInv path k w -> signResult (mem w) pv' file (Some e) err ->
  WInv path k (mkWorld pv' (writeFile file (disk w)) (released w ++ [e])).
Proof.
  intros Hw Hs. pose proof (WInv_result path k w pv' file (Some e) err Hw Hs) as Hw'.
  assert (He : hrs e = last pv' /\ LastSignBytes pv' = Some (e_bytes e) /\ e_sig e = LastSignature pv')
    by (inversion Hs; subst; done).
  destruct He as (E1 & E2 & E3).
  assert (Hold : forall x, x ∈ released w -> hrs x = hrs e -> x = e).
  { intros x Hx Ex. destruct (wi_log _ _ _ Hw' x Hx) as [Hlt|(_ & B1 & B2)]; cbn [mem] in *.
    - rewrite Ex, E1 in Hlt. by apply hrsLt_irrefl in Hlt.
    - apply entry_eq; [done|congruence|congruence]. }
  constructor; try apply Hw'.
  - intros x Hx. cbn [released] in Hx. apply elem_of_app in Hx as [Hx|Hx]; [by apply (wi_log _ _ _ Hw')|].
    apply list_elem_of_singleton in Hx as ->. by right.
  - intros x Hx. cbn [released] in Hx. apply elem_of_app in Hx as [Hx|Hx]; [by apply (wi_sig _ _ _ Hw')|].
    apply list_elem_of_singleton in Hx as ->. pose proof (wi_last _ _ _ Hw') as Hok. cbn [mem] in Hok.
    unfold lastOK in Hok. rewrite E2 in Hok. destruct Hok as (A1 & A2 & _). rewrite E3. split; [done|].
    rewrite <- A2. f_equal. symmetry. apply (wi_key _ _ _ Hw').
  - intros a b Ha Hb Eab. cbn [released] in Ha, Hb. apply elem_of_app in Ha as [Ha|Ha], Hb as [Hb|Hb].
    + by apply (wi_uniq _ _ _ Hw).
    + apply list_elem_of_singleton in Hb as ->. by apply Hold.
    + apply list_elem_of_singleton in Ha as ->. symmetry. by apply Hold.
    + apply list_elem_of_singleton in Ha as ->. by apply list_elem_of_singleton in Hb as ->.
Qed.

Lemma wstep_inv path k w w' : path <> [] -> WInv path k w -> wstep path w w' -> WInv path k w'.
Proof.
  intros Hp Hw Hs. assert (Hfp : filePath (mem w) <> []) by (rewrite (wi_path _ _ _ Hw); done).
  destruct Hs as [w now r pv' file e Hr E|w pv E|w now r pv' file e pv Hr E El].
  - destruct (serve_spec now (mem w) r (wi_last _ _ _ Hw) Hfp Hr) as (x & f & en & err & E' & Hs). rewrite E in E'.
    injection E' as <- <- <-. destruct e as [e|]; [by eapply WInv_release|by eapply WInv_result].
  - rewrite (wi_disk _ _ _ Hw) in E. rewrite (Load_saved path (mem w) (wi_path _ _ _ Hw)) in E. injection E as <-.
    by destruct w.
  - destruct (serve_spec now (mem w) r (wi_last _ _ _ Hw) Hfp Hr) as (x & f & en & err & E' & Hs). rewrite E in E'.
    injection E' as <- <- <-. pose proof (WInv_result path k w pv' (Some file) e err Hw Hs) as Hw'.
    pose proof (wi_disk _ _ _ Hw') as Ed. cbn in Ed. rewrite Ed, (Load_saved path pv' (wi_path _ _ _ Hw')) in El.
    injection El as <-. exact Hw'.
Qed.

Lemma whistory_inv path pv0 w : path <> [] -> filePath pv0 = path -> LastSignBytes pv0 = None ->
  whistory path pv0 w -> WInv path (pv_PrivKey pv0) w.
Proof.
  intros Hp Hf Hn. induction 1 as [|w w' Hh IH Hs]; [|by eapply wstep_inv].
  constructor; cbn; try done; [unfold lastOK; by rewrite Hn|..].
  - intros e He. by apply elem_of_nil in He.
  - intros e He. by apply elem_of_nil in He.
  - intros e1 e2 He. by apply elem_of_nil in He.
Qed.

(** ** Properties *)

(** C5: a validator never double-signs.  Starting from a new key, through any
    sequence of requests to sign votes and proposals and of crashes and
    restarts from the file (also between the write of the file and the return
    of the signature), two signatures released for the same height, round and
    step sign the same bytes and are the same signature; every released
    signature is the key's signature over the bytes of the message it was
    returned with. *)
Theorem no_double_sign path pv0 w : path <> [] -> filePath pv0 = path -> LastSignBytes pv0 = None ->
  whistory path pv0 w ->
  (forall e1 e2, e1 ∈ released w -> e2 ∈ released w -> hrs e1 = hrs e2 -> e1 = e2) /\
  (forall e, e ∈ released w -> is_Some (e_sig e) /\ PrivKey_Sign (pv_PrivKey pv0) (e_bytes e) = e_sig e).
Proof.
  intros Hp Hf Hn Hh. pose proof (whistory_inv path pv0 w Hp Hf Hn Hh) as Hw.
  split; [apply (wi_uniq _ _ _ Hw)|apply (wi_sig _ _ _ Hw)].
Qed.

(** [SignVote] in any state a signer can be in returns without a panic
    (when the file can be written) and does one of three things: it refuses
    and changes nothing; it releases the last signature for a vote whose bytes
    are the last signed ones, restoring the old timestamp if only that
    differed; or it signs a later step, having first recorded it on disk. *)
Theorem SignVote_outcome path pv0 w now chainID v : path <> [] -> filePath pv0 = path -> LastSignBytes pv0 = None ->
  whistory path pv0 w -> IsVoteTypeValid (v_Type v) = true -> GoTime.timeOK (v_Timestamp v) ->
  exists pv' file v' err, SignVote true now (mem w) chainID v = Ret (pv', file, v', err) /\
    signResult (mem w) pv' file (match err with None => Some (voteEntry chainID v') | Some _ => None end) err /\
    v_Height v' = v_Height v /\ v_Round v' = v_Round v /\ v_Type v' = v_Type v /\ v_BlockID v' = v_BlockID v.
Proof.
  intros Hp Hf Hn Hh. pose proof (whistory_inv path pv0 w Hp Hf Hn Hh) as Hw.
  apply signVote_spec; [apply Hw|]. by rewrite (wi_path _ _ _ Hw).
Qed.
End Spec.

Section Examples.
#[local] Existing Instance toyCurves.

Definition sigSum (s : Signature) : bytes + bytes := match s with SignatureEd25519 b => inl b | SignatureSecp256k1 b => inr b end.
Definition sumSig (s : bytes + bytes) : Signature := match s with inl b => SignatureEd25519 b | inr b => SignatureSecp256k1 b end.
Definition pubSum (k : PubKey) : bytes + bytes := match k with PubKeyEd25519 b => inl b | PubKeySecp256k1 b => inr b end.
Definition sumPub (s : bytes + bytes) : PubKey := match s with inl b => PubKeyEd25519 b | inr b => PubKeySecp256k1 b end.
Definition privSum (k : PrivKey) : bytes + bytes := match k with PrivKeyEd25519 b => inl b | PrivKeySecp256k1 b => inr b end.
Definition sumPriv (s : bytes + bytes) : PrivKey := match s with inl b => PrivKeyEd25519 b | inr b => PrivKeySecp256k1 b end.

Definition pvTuple (pv : FilePV) :=
  (pv_Address pv, pubSum (pv_PubKey pv), (LastHeight pv, LastRound pv, LastStep pv), sigSum <$> LastSignature pv,
   LastSignBytes pv, privSum (pv_PrivKey pv)).
Definition tuplePV (t : bytes * (bytes + bytes) * (Z * Z * Z) * option (bytes + bytes) * option bytes * (bytes + bytes)) : FilePV :=
  let '(a, k, (h, r, s), sig, sb, priv) := t in mkFilePV a (sumPub k) h r s (sumSig <$> sig) sb (sumPriv priv) [].

Definition blockTuple (b : CanonicalJSONBlockID) := (cbid_Hash b, cpsh_Hash (cbid_PartsHeader b), cpsh_Total (cbid_PartsHeader b)).
Definition tupleBlock (t : bytes * bytes * Z) : CanonicalJSONBlockID := mkCBID t.1.1 (mkCPSH t.1.2 t.2).
Definition voteTuple (v : CanonicalJSONVote) :=
  (cv_ChainID v, cv_Type v, blockTuple (cv_BlockID v), cv_Height v, cv_Round v, cv_Timestamp v, cv_VoteType v).
Definition tupleVote (t : bytes * bytes * (bytes * bytes * Z) * Z * Z * bytes * Z) : CanonicalJSONVote :=
  let '(c, ty, b, h, r, ts, vt) := t in mkCVote c ty (tupleBlock b) h r ts vt.
Definition proposalTuple (p : CanonicalJSONProposal) :=
  (cp_ChainID p, cp_Type p, (cpsh_Hash (cp_BlockPartsHeader p), cpsh_Total (cp_BlockPartsHeader p)), cp_Height p,
   blockTuple (cp_POLBlockID p), cp_POLRound p, cp_Round p, cp_Timestamp p).
Definition tupleProposal (t : bytes * bytes * (bytes * Z) * Z * (bytes * bytes * Z) * Z * Z * bytes) : CanonicalJSONProposal :=
  let '(c, ty, (ph, pt), h, b, pr, r, ts) := t in mkCProposal c ty (mkCPSH ph pt) h (tupleBlock b) pr r ts.

Definition pairCodec : Codec := {|
  MarshalPartSetHeader := fun h => enc (psh_Total h, psh_Hash h);
  MarshalJSONVote := fun v => enc (voteTuple v);
  MarshalJSONProposal := fun p => enc (proposalTuple p);
  MarshalJSONHeartbeat := fun h => enc (ch_ChainID h, ch_Height h, ch_Round h, ch_Sequence h) |}.
Definition pairJSON : JSONCodec := {|
  UnmarshalJSONVote := fun b => tupleVote <$> dec b;
  UnmarshalJSONProposal := fun b => tupleProposal <$> dec b;
  MarshalFilePV := fun pv => enc (pvTuple pv);
  UnmarshalFilePV := fun b => tuplePV <$> dec b |}.
#[local] Existing Instance pairCodec.
#[local] Existing Instance pairJSON.
#[local] Instance noSecp : Signing := {| btcec_Sign := fun _ _ => None |}.

Lemma pairLaws : JSONLaws.
Proof.
  constructor.
  - intros [c ty [h [ph pt]] hh r ts vt]. cbn. by rewrite dec_enc.
  - intros [c ty [ph pt] hh [h [bh bt]] pr r ts]. cbn. by rewrite dec_enc.
  - intros [a k h r s sig sb priv path]. cbn. rewrite dec_enc. by destruct k, sig as [[]|], priv.
Qed.

Definition exPV : FilePV := GenFilePV (PrivKeyEd25519 (str "A")) (PubKeyEd25519 (str "A")) (str "f").
Definition exVote (t : Time) : Vote := mkVote [] 0 7 0 t 2 zeroBlockID None.
Definition exWorld : World := mkWorld exPV (MarshalFilePV exPV) [].

(** The world after a request is served. *)
Definition after (w : World) (r : request) : World :=
  match serve true 0 (mem w) r with
  | Ret (pv, file, e) => mkWorld pv (writeFile file (disk w)) (releaseEntry e (released w))
  | Panic _ => w
  end.
(** The vote is signed, then asked for again a second later. *)
Definition exFirst : World := after exWorld (ReqVote (str "c") (exVote 0)).
Definition exSecond : World := after exFirst (ReqVote (str "c") (exVote 1000000000)).

Lemma after_step path w r : requestOK r -> match serve true 0 (mem w) r with Ret _ => true | Panic _ => false end = true ->
  wstep path w (after w r).
Proof.
  intros Hr E. unfold after. destruct (serve true 0 (mem w) r) as [[[pv file] e]|] eqn:Es; [|done]. by eapply step_serve.
Qed.

Lemma exVote_ok c t : GoTime.timeOK t -> requestOK (ReqVote c (exVote t)).
Proof. by split. Qed.

Lemma exSecond_history : whistory (str "f") exPV exSecond.
Proof.
  apply hist_step with exFirst; [apply hist_step with exWorld; [apply hist_start|]|].
  - apply after_step; [apply exVote_ok; vm_compute; split; discriminate|vm_compute; reflexivity].
  - apply after_step; [apply exVote_ok; vm_compute; split; discriminate|vm_compute; reflexivity].
Qed.

(** Both requests were answered, with one and the same entry. *)
Lemma no_double_sign_witness : length (released exSecond) = 2%nat /\
  forall e1 e2, e1 ∈ released exSecond -> e2 ∈ released exSecond -> hrs e1 = hrs e2 -> e1 = e2.
Proof.
  split; [vm_compute; reflexivity|].
  refine (proj1 (no_double_sign (str "f") exPV exSecond _ _ _ exSecond_history)); [exact pairLaws|discriminate|reflexivity|reflexivity].
Defined.

Lemma SignVote_outcome_witness : exists pv' file v' err,
  SignVote true 0 (mem exSecond) (str "c") (exVote 5) = Ret (pv', file, v', err).
Proof.
  destruct (@SignVote_outcome _ _ _ _ pairLaws (str "f") exPV exSecond 0 (str "c") (exVote 5)
    ltac:(discriminate) eq_refl eq_refl exSecond_history eq_refl ltac:(vm_compute; split; discriminate))
    as (pv' & file & v' & err & E & _).
  exists pv', file, v', err. exact E.
Defined.
End Examples.
End PrivVal.
