(* ===== verification/Block.v ===== *)
(** * types/block.go, types/tx.go, types/params.go, types/block_meta.go

    Transactions and their Merkle proofs, the buckets of a block, headers and
    their hash, blocks and their basic validation.  A nil pointer is [None].
    The cached hashes of [Data] and [Commit] are transparent, as their
    contents never change.  The amino encoding of each field and the JSON
    decoding of transactions are parameters. *)

From S2P Require Import Prelude Sha256 Crypto Merkle Types ValidatorSet PartSet.
Import Crypto Types.

Module Block.

Abbreviation Tx := bytes.

(** ** types/params.go *)

Record ConsensusParams := mkParams {
  BlockSize_MaxBytes : Z;
  BlockSize_MaxTxs : Z;
  BlockSize_MaxGas : Z;
  TxSize_MaxBytes : Z;
  TxSize_MaxGas : Z;
  BlockPartSizeBytes : Z;
  Evidence_MaxAge : Z }.

Definition DefaultConsensusParams : ConsensusParams := mkParams 22020096 10000 (-1) 10240 (-1) 65536 100000.
Definition MaxBlockSizeBytes : Z := 104857600.

Inductive ParamsError := ErrMaxBytesNotPositive | ErrPartSizeNotPositive | ErrMaxBytesTooBig.

Definition Params_Validate (p : ConsensusParams) : option ParamsError :=
  if BlockSize_MaxBytes p <=? 0 then Some ErrMaxBytesNotPositive
  else if BlockPartSizeBytes p <=? 0 then Some ErrPartSizeNotPositive
  else if MaxBlockSizeBytes <? BlockSize_MaxBytes p then Some ErrMaxBytesTooBig
  else None.

(** The updates of [abci.ConsensusParams]; each of its structs may be nil. *)
Record ParamUpdates := mkParamUpdates {
  up_BlockSize : option (Z * Z * Z);
  up_TxSize : option (Z * Z);
  up_BlockGossip : option Z }.

Definition pos (new old : Z) : Z := if 0 <? new then new else old.

Definition Params_Update (p : ConsensusParams) (p2 : option ParamUpdates) : ConsensusParams :=
  match p2 with
  | None => p
  | Some u =>
      let '(mb, mt, mg) :=
        match up_BlockSize u with
        | None => (BlockSize_MaxBytes p, BlockSize_MaxTxs p, BlockSize_MaxGas p)
        | Some (mb, mt, mg) => (pos mb (BlockSize_MaxBytes p), pos mt (BlockSize_MaxTxs p), pos mg (BlockSize_MaxGas p))
        end in
      let '(tb, tg) :=
        match up_TxSize u with
        | None => (TxSize_MaxBytes p, TxSize_MaxGas p)
        | Some (tb, tg) => (pos tb (TxSize_MaxBytes p), pos tg (TxSize_MaxGas p))
        end in
      let ps := match up_BlockGossip u with None => BlockPartSizeBytes p | Some n => pos n (BlockPartSizeBytes p) end in
      mkParams mb mt mg tb tg ps (Evidence_MaxAge p)
  end.

(** ** Data structures *)

Record TxBucket := mkTxBucket { BucketId : bytes; Txs : list Tx }.
Record Data := mkData { TxBuckets : list TxBucket }.

(** A nil [DataHash] is [None]; the other hashes are compared and encoded by
    their bytes only. *)
Record Header := mkHeader {
  ChainID : bytes;
  Height : Z;
  Time_ : Time;
  NumTxs : Z;
  LastBlockID : BlockID;
  TotalTxs : Z;
  LastBucketHashes : option (list (bytes * bytes));
  DataHash : option bytes;
  ValidatorsHash : bytes;
  ConsensusHash : bytes;
  AppHash : bytes;
  LastResultsHash : bytes }.

Record Block := mkBlock {
  b_Header : option Header;
  b_Data : option Data;
  b_Commit : option Commit }.

(** [cdc.MarshalBinaryBare] at the types that are hashed, and
    [cdc.MarshalBinary] of a block. *)
Class BlockCodec := {
  aminoString : bytes -> bytes;
  aminoInt64 : Z -> bytes;
  aminoInt : Z -> bytes;
  aminoTime : Time -> bytes;
  aminoBlockID : BlockID -> bytes;
  aminoHexBytes : bytes -> bytes;
  aminoVote : Vote -> bytes;
  MarshalBlock : Block -> bytes;
  (** [cdc.UnmarshalBinaryReader(r, &block, maxSize)] for a reader with these
      bytes: the pointer afterwards, and whether there was no error. *)
  UnmarshalBlock : option Block -> bytes -> Z -> option Block * bool }.

(** [json.Unmarshal] into [dmccoin.TxUTXO] and [dmccoin.DMCTx]: the address
    of the first, the input and output addresses of the second.  Errors are
    ignored by the caller, leaving the fields decoded so far.  [fmtAddress] is
    [fmt.Sprintf("%x", address)], which is up to the methods of the address
    type, [data.Bytes] of go-wire. *)
Class TxDecoder := {
  utxoAddress : Tx -> bytes;
  dmcAddresses : Tx -> bytes * bytes;
  fmtAddress : bytes -> bytes }.

Section Hashing.
Context `{Amino} `{BlockCodec}.

(** [hasher.Hash]: empty strings and slices hash as no bytes at all. *)
Definition hashItem (isEmpty : bool) (bz : bytes) : bytes := Sha256.tmhash (if isEmpty then [] else bz).
Definition hashString (s : bytes) : bytes := hashItem (zlen s =? 0) (aminoString s).
Definition hashHexBytes (s : bytes) : bytes := hashItem (zlen s =? 0) (aminoHexBytes s).
Definition hashInt64 (z : Z) : bytes := hashItem false (aminoInt64 z).
Definition hashInt (z : Z) : bytes := hashItem false (aminoInt z).

Definition Params_Hash (p : ConsensusParams) : bytes :=
  Merkle.SimpleHashFromMap [
    (str "block_gossip_part_size_bytes", hashInt (BlockPartSizeBytes p));
    (str "block_size_max_bytes", hashInt (BlockSize_MaxBytes p));
    (str "block_size_max_gas", hashInt64 (BlockSize_MaxGas p));
    (str "block_size_max_txs", hashInt (BlockSize_MaxTxs p));
    (str "tx_size_max_bytes", hashInt (TxSize_MaxBytes p));
    (str "tx_size_max_gas", hashInt64 (TxSize_MaxGas p))].

(** ** types/tx.go *)

Definition Tx_Hash (tx : Tx) : bytes := Sha256.tmhash tx.

Fixpoint txsHashFuel (fuel : nat) (txs : list Tx) : bytes :=
  match fuel with
  | O => []
  | S fuel =>
      match txs with
      | [] => []
      | [tx] => Tx_Hash tx
      | _ => Merkle.SimpleHashFromTwoHashes (txsHashFuel fuel (take (Merkle.half txs) txs))
                                            (txsHashFuel fuel (drop (Merkle.half txs) txs))
      end
  end.
(** Both halves of two or more transactions are shorter. *)
Definition Txs_Hash (txs : list Tx) : bytes := txsHashFuel (length txs) txs.

(** The first position where [p] holds, or -1. *)
Fixpoint indexOf (p : Tx -> bool) (txs : list Tx) (i : Z) : Z :=
  match txs with
  | [] => -1
  | tx :: txs => if p tx then i else indexOf p txs (i + 1)
  end.
Definition Txs_Index (txs : list Tx) (tx : Tx) : Z := indexOf (fun t => bytes_eqb t tx) txs 0.
Definition Txs_IndexByHash (txs : list Tx) (hash : bytes) : Z := indexOf (fun t => bytes_eqb (Tx_Hash t) hash) txs 0.

Record TxProof := mkTxProof {
  tp_Index : Z; tp_Total : Z; tp_RootHash : bytes; tp_Data : Tx; tp_Proof : Merkle.SimpleProof }.

Definition Txs_Proof (txs : list Tx) (i : Z) : go TxProof :=
  rp ← Merkle.SimpleProofsFromHashers (Tx_Hash <$> txs);
  tx ← idx txs i;
  proof ← idx rp.2 i;
  Ret (mkTxProof i (zlen txs) rp.1 tx proof).

Definition LeafHash (tp : TxProof) : bytes := Tx_Hash (tp_Data tp).

Inductive TxProofError := ErrProofDataHash | ErrProofIndex | ErrProofTotal | ErrProofInconsistent.

Definition TxProof_Validate (tp : TxProof) (dataHash : bytes) : option TxProofError :=
  if negb (bytes_eqb dataHash (tp_RootHash tp)) then Some ErrProofDataHash
  else if tp_Index tp <? 0 then Some ErrProofIndex
  else if tp_Total tp <=? 0 then Some ErrProofTotal
  else if negb (Merkle.Verify (tp_Proof tp) (tp_Index tp) (tp_Total tp) (Some (LeafHash tp)) (tp_RootHash tp))
       then Some ErrProofInconsistent
  else None.

(** ** types/block.go *)

Definition startingHash : bytes := Sha256.Sum256 [Byte.x00].

(** The loop of [TxBuckets.Hash]: [acc] is [None] before the first bucket. *)
Definition bucketsStep (start : bytes) (acc : option bytes) (bucket : TxBucket) : option bytes :=
  match acc with
  | None => Some start
  | Some h => Some (Merkle.SimpleHashFromTwoHashes h (Txs_Hash (Txs bucket)))
  end.
Definition bucketsLoop (start : bytes) (buckets : list TxBucket) : option bytes := foldl (bucketsStep start) None buckets.
Definition TxBuckets_Hash (buckets : list TxBucket) : option bytes := bucketsLoop startingHash buckets.

Definition Data_Hash (data : option Data) : option bytes :=
  match data with None => None | Some d => TxBuckets_Hash (TxBuckets d) end.

Definition TotalTxsInBuckets (data : option Data) : Z :=
  match data with
  | None => 0
  | Some d => foldl (fun n b => add64 n (zlen (Txs b))) 0 (TxBuckets d)
  end.

Definition orNil (h : option bytes) : bytes := default [] h.

Definition Header_Hash (h : option Header) : bytes :=
  match h with
  | None => []
  | Some h =>
      if zlen (ValidatorsHash h) =? 0 then []
      else Merkle.SimpleHashFromMap [
        (str "ChainID", hashString (ChainID h));
        (str "Height", hashInt64 (Height h));
        (str "Time", hashItem false (aminoTime (Time_ h)));
        (str "NumTxs", hashInt64 (NumTxs h));
        (str "TotalTxs", hashInt64 (TotalTxs h));
        (str "LastBlockID", hashItem false (aminoBlockID (LastBlockID h)));
        (str "Data", hashHexBytes (orNil (DataHash h)));
        (str "Validators", hashHexBytes (ValidatorsHash h));
        (str "App", hashHexBytes (AppHash h));
        (str "Consensus", hashHexBytes (ConsensusHash h));
        (str "Results", hashHexBytes (LastResultsHash h))]
  end.

Definition setDataHash (h : Header) (d : option bytes) : Header :=
  mkHeader (ChainID h) (Height h) (Time_ h) (NumTxs h) (LastBlockID h) (TotalTxs h) (LastBucketHashes h) d
    (ValidatorsHash h) (ConsensusHash h) (AppHash h) (LastResultsHash h).

(** [fillHeader] on the header and data of a block. *)
Definition fillHeader (h : Header) (d : option Data) : Header :=
  match DataHash h with None => setDataHash h (Data_Hash d) | Some _ => h end.

(** [Hash] fills in the header of the block as a side effect: [filled] is the
    block afterwards. *)
Definition filled (b : Block) : Block :=
  match b_Header b, b_Data b, b_Commit b with
  | Some h, Some d, Some c => mkBlock (Some (fillHeader h (Some d))) (Some d) (Some c)
  | _, _, _ => b
  end.

Definition Hash (b : option Block) : bytes :=
  match b with
  | None => []
  | Some b =>
      match b_Header b, b_Data b, b_Commit b with
      | Some h, Some d, Some _ => Header_Hash (Some (fillHeader h (Some d)))
      | _, _, _ => []
      end
  end.

Definition HashesTo (b : option Block) (hash : bytes) : bool :=
  if zlen hash =? 0 then false
  else match b with None => false | Some _ => bytes_eqb (Hash b) hash end.

Definition MakePartSet (b : option Block) (partSize : Z) : go (option PartSet.PartSet) :=
  match b with
  | None => Ret None
  | Some b => ps ← PartSet.NewPartSetFromData (MarshalBlock b) partSize; Ret (Some ps)
  end.

Definition Commit_Hash (c : Commit) : bytes :=
  Merkle.SimpleHashFromHashers
    ((fun v => match v with None => hashItem true [] | Some v => hashItem false (aminoVote v) end) <$> c_Precommits c).

Inductive BlockError :=
| ErrNilBlock
| ErrNumTxs
| ErrBlockCommit (e : CommitError)
| ErrDataHash.

(** A field read through the embedded header pointer. *)
Definition hdr (b : Block) : go Header := deref (b_Header b).

Definition ValidateBasic (b : option Block) : go (option BlockError) :=
  match b with
  | None => Ret (Some ErrNilBlock)
  | Some b =>
      h ← hdr b;
      if negb (NumTxs h =? TotalTxsInBuckets (b_Data b)) then Ret (Some ErrNumTxs)
      else
        commitErr ← (if negb (Height h =? 1) then
                       match b_Commit b with
                       | None => Panic NilDeref
                       | Some c => Ret (Commit_ValidateBasic c)
                       end
                     else Ret None);
        match commitErr with
        | Some e => Ret (Some (ErrBlockCommit e))
        | None =>
            if negb (bytes_eqb (orNil (DataHash h)) (orNil (Data_Hash (b_Data b)))) then Ret (Some ErrDataHash)
            else Ret None
        end
  end.

Record BlockMeta := mkBlockMeta { bm_BlockID : BlockID; bm_Header : option Header }.
Definition NewBlockMeta (b : Block) (parts : option PartSet.PartSet) : BlockMeta :=
  mkBlockMeta (mkBlockID (Hash (Some b)) (PartSet.Header parts)) (b_Header (filled b)).

(** ** MakeBlock *)

Context `{TxDecoder}.

(** [fmt.Sprintf("%x", i)] for [0 <= i < 256]. *)
Definition hexInt (i : Z) : bytes :=
  if i <? 16 then [hexDigit i] else [hexDigit (i / 16); hexDigit (i mod 16)].

Definition getBucketId (tx : Tx) (height : Z) : go (bytes * bytes) :=
  if (Z.rem height 100 =? 1) && (1 <? height) then
    segment ← slice (utxoAddress tx) 0 2;
    Ret (segment, [])
  else
    segment1 ← slice (fmtAddress (dmcAddresses tx).1) 0 2;
    segment2 ← slice (fmtAddress (dmcAddresses tx).2) 0 2;
    Ret (segment1, segment2).

Definition emptyBuckets : list TxBucket := (fun i => mkTxBucket (hexInt i) []) <$> seqZ 0 255.

Definition addToBucket (segments : bytes * bytes) (tx : Tx) (b : TxBucket) : TxBucket :=
  if bytes_eqb (BucketId b) segments.1 || bytes_eqb (BucketId b) segments.2
  then mkTxBucket (BucketId b) (Txs b ++ [tx]) else b.

(** The loop over the transactions. *)
Definition fillBuckets (height : Z) (txs : list Tx) (buckets : list TxBucket) : go (list TxBucket) :=
  go_fold (fun tx buckets => segments ← getBucketId tx height; Ret (addToBucket segments tx <$> buckets)) txs buckets.

Definition MakeBlock (now : Time) (height : Z) (txs : list Tx) (commit : option Commit) : go Block :=
  buckets ← fillBuckets height txs emptyBuckets;
  let d := mkData buckets in
  let h := mkHeader [] height now (zlen txs) zeroBlockID 0 None None [] [] [] [] in
  Ret (mkBlock (Some (fillHeader h (Some d))) (Some d) commit).
End Hashing.

Section Spec.
Context `{Amino} `{BlockCodec} `{TxDecoder}.

(** ** Transactions *)

Lemma txsHashFuel_eq f txs : txsHashFuel f txs = Merkle.simpleHashFuel f (Tx_Hash <$> txs).
Proof.
  revert txs. induction f as [|f IH]; intros txs; [done|]. cbn [txsHashFuel Merkle.simpleHashFuel].
  destruct txs as [|a [|b txs]]; [done|done|]. rewrite !IH, fmap_take, fmap_drop.
  assert (Eh : Merkle.half (a :: b :: txs) = Merkle.half (Tx_Hash <$> a :: b :: txs))
    by (unfold Merkle.half; by rewrite length_fmap).
  by rewrite Eh.
Qed.

Lemma Txs_Hash_eq txs : Txs_Hash txs = Merkle.SimpleHashFromHashers (Tx_Hash <$> txs).
Proof.
  unfold Txs_Hash, Merkle.SimpleHashFromHashers, Merkle.simpleHashFromHashes. by rewrite txsHashFuel_eq, length_fmap.
Qed.

Lemma Txs_Proof_spec txs i tx : zlen txs < MaxInt64 -> txs !! i = Some tx ->
  exists sp, Txs_Proof txs (Z.of_nat i) = Ret (mkTxProof (Z.of_nat i) (zlen txs) (Txs_Hash txs) tx sp) /\
    Merkle.Verify sp (Z.of_nat i) (zlen txs) (Some (Tx_Hash tx)) (Txs_Hash txs) = true.
Proof.
  intros Hmax Hi. pose proof (lookup_lt_Some _ _ _ Hi) as Hlt. unfold Txs_Proof.
  destruct (Merkle.proofs_verify (Tx_Hash <$> txs)) as (proofs & -> & Hl & Hv); [by destruct txs|unfold zlen; by rewrite length_fmap|].
  rewrite length_fmap in Hl. unfold zlen in Hv. rewrite length_fmap in Hv. cbn [mbind go_mbind fst snd].
  rewrite (idx_lookup txs (Z.of_nat i) tx) by (try rewrite Nat2Z.id; try lia; done). cbn [mbind go_mbind].
  destruct (lookup_lt_is_Some_2 proofs i) as [sp Hsp]; [lia|].
  rewrite (idx_lookup proofs (Z.of_nat i) sp) by (try rewrite Nat2Z.id; try lia; done). cbn [mbind go_mbind].
  rewrite <- Txs_Hash_eq in *. exists sp. split; [done|]. apply (Hv i sp (Tx_Hash tx)); [done|].
  by rewrite list_lookup_fmap, Hi.
Qed.

(** ** The number of transactions in the buckets *)

Definition inBucket (segments : bytes * bytes) (id : bytes) : Z :=
  if bytes_eqb id segments.1 || bytes_eqb id segments.2 then 1 else 0.
Definition bucketIds : list bytes := hexInt <$> seqZ 0 255.
(** In how many of the 255 buckets a transaction with these segments lands. *)
Definition bucketCount (segments : bytes * bytes) : Z := sumZ (inBucket segments) bucketIds.

Definition txCount (b : TxBucket) : Z := zlen (Txs b).

Lemma addToBucket_ids seg tx (bs : list TxBucket) : BucketId <$> (addToBucket seg tx <$> bs) = BucketId <$> bs.
Proof.
  rewrite <- list_fmap_compose. apply list_fmap_ext. intros i b _. unfold addToBucket. cbn. by destruct (_ || _).
Qed.

Lemma addToBucket_count seg tx (bs : list TxBucket) :
  sumZ txCount (addToBucket seg tx <$> bs) = sumZ txCount bs + sumZ (inBucket seg) (BucketId <$> bs).
Proof.
  induction bs as [|b bs IH]; [done|]. rewrite !fmap_cons, !sumZ_cons, IH.
  unfold addToBucket at 1, inBucket at 2, txCount at 1 3. destruct (_ || _); cbn [Txs]; rewrite ?zlen_app; unfold zlen; cbn [length]; lia.
Qed.

Lemma fillBuckets_spec height txs segs bs : Forall2 (fun tx s => getBucketId tx height = Ret s) txs segs ->
  exists bs', fillBuckets height txs bs = Ret bs' /\ BucketId <$> bs' = BucketId <$> bs /\
    sumZ txCount bs' = sumZ txCount bs + sumZ (fun s => sumZ (inBucket s) (BucketId <$> bs)) segs.
Proof.
  intros Hf. revert bs. induction Hf as [|tx s txs segs Hs Hf IH]; intros bs.
  { exists bs. split; [done|]. split; [done|]. change (sumZ _ []) with 0. lia. }
  unfold fillBuckets. cbn [go_fold]. rewrite Hs. cbn [mbind go_mbind].
  destruct (IH (addToBucket s tx <$> bs)) as (bs' & E & Hids & Hsum). exists bs'. split; [exact E|].
  rewrite addToBucket_ids in Hids, Hsum. split; [done|]. rewrite Hsum, addToBucket_count, sumZ_cons. lia.
Qed.

Lemma total_sum bs n : 0 <= n -> n + sumZ txCount bs <= MaxInt64 ->
  foldl (fun n b => add64 n (zlen (Txs b))) n bs = n + sumZ txCount bs.
Proof.
  revert n. induction bs as [|b bs IH]; intros n Hn Hmax; cbn [foldl].
  { change (sumZ _ []) with 0. lia. }
  rewrite sumZ_cons in Hmax |- *. pose proof (zlen_nonneg (Txs b)) as Hz.
  assert (0 <= sumZ txCount bs) by (apply sumZ_nonneg; intros; apply zlen_nonneg).
  change (txCount b) with (zlen (Txs b)) in *. set (z := zlen (Txs b)) in *. set (s := sumZ txCount bs) in *.
  unfold add64. rewrite wrap64_small by (unfold_int64; lia). rewrite IH; lia.
Qed.

Lemma emptyBuckets_ids : BucketId <$> emptyBuckets = bucketIds.
Proof. unfold emptyBuckets, bucketIds. rewrite <- list_fmap_compose. done. Qed.

Lemma emptyBuckets_count : sumZ txCount emptyBuckets = 0.
Proof. vm_compute. reflexivity. Qed.

Lemma MakeBlock_spec now height txs commit segs : Forall2 (fun tx s => getBucketId tx height = Ret s) txs segs ->
  sumZ bucketCount segs <= MaxInt64 ->
  exists h d, MakeBlock now height txs commit = Ret (mkBlock (Some h) (Some d) commit) /\
    NumTxs h = zlen txs /\ Height h = height /\ DataHash h = Data_Hash (Some d) /\
    TotalTxsInBuckets (Some d) = sumZ bucketCount segs.
Proof.
  intros Hf Hmax. destruct (fillBuckets_spec height txs segs emptyBuckets Hf) as (bs & E & _ & Hsum).
  rewrite emptyBuckets_count, emptyBuckets_ids in Hsum. change (sumZ _ segs) with (sumZ bucketCount segs) in Hsum.
  unfold MakeBlock. rewrite E. cbn [mbind go_mbind]. do 2 eexists. split; [done|]. split; [done|]. split; [done|]. split; [done|].
  cbn [TotalTxsInBuckets TxBuckets]. rewrite total_sum; lia.
Qed.

(** The collision a second transaction at one position of the tree gives. *)
Definition txCollision (total : Z) (p q : TxProof) : option (bytes * bytes) :=
  if decide (LeafHash p = LeafHash q) then Some (tp_Data p, tp_Data q)
  else Merkle.findCollision (tp_Index p) total (LeafHash p) (tp_Proof p) (LeafHash q) (tp_Proof q).

Lemma TxProof_Validate_ok tp root : TxProof_Validate tp root = None ->
  root = tp_RootHash tp /\ 0 <= tp_Index tp /\ 0 < tp_Total tp /\
  Merkle.Verify (tp_Proof tp) (tp_Index tp) (tp_Total tp) (Some (LeafHash tp)) root = true.
Proof.
  unfold TxProof_Validate. destruct (bytes_eqb root _) eqn:E; [|done]. apply bytes_eqb_true in E as ->.
  destruct (Z.ltb_spec (tp_Index tp) 0); [done|]. destruct (Z.leb_spec (tp_Total tp) 0); [done|]. cbn [negb].
  destruct (Merkle.Verify _ _ _ _ _); [done|done].
Qed.

(** The hash of the buckets after the first, latest first. *)
Fixpoint chain (start : bytes) (ts : list bytes) : bytes :=
  match ts with
  | [] => start
  | t :: ts => Merkle.SimpleHashFromTwoHashes (chain start ts) t
  end.

Lemma bucketsStep_chain start bs ts :
  foldl (bucketsStep start) (Some (chain start ts)) bs = Some (chain start (rev (Txs_Hash <$> (Txs <$> bs)) ++ ts)).
Proof.
  revert ts. induction bs as [|b bs IH]; intros ts; [done|]. cbn [foldl bucketsStep].
  change (Merkle.SimpleHashFromTwoHashes (chain start ts) (Txs_Hash (Txs b))) with (chain start (Txs_Hash (Txs b) :: ts)).
  rewrite IH, !fmap_cons. cbn [rev]. by rewrite <- app_assoc.
Qed.

Lemma bucketsLoop_chain start b bs : bucketsLoop start (b :: bs) = Some (chain start (rev (Txs_Hash <$> (Txs <$> bs)))).
Proof. pose proof (bucketsStep_chain start bs []) as E. rewrite app_nil_r in E. exact E. Qed.

Lemma Data_Hash_chain b bs : Data_Hash (Some (mkData (b :: bs))) = Some (chain startingHash (rev (Txs_Hash <$> (Txs <$> bs)))).
Proof. exact (bucketsLoop_chain startingHash b bs). Qed.

Lemma Hash_data h commit d1 d2 : Data_Hash (Some d1) = Data_Hash (Some d2) ->
  Hash (Some (mkBlock (Some h) (Some d1) (Some commit))) = Hash (Some (mkBlock (Some h) (Some d2) (Some commit))).
Proof. intros E. unfold Hash, fillHeader. cbn [b_Header b_Data b_Commit]. rewrite E. reflexivity. Qed.

(** The two preimages at the last bucket where two chains differ. *)
Fixpoint chainCollision (start : bytes) (ts us : list bytes) : option (bytes * bytes) :=
  match ts, us with
  | t :: ts, u :: us =>
      if decide (t = u /\ chain start ts = chain start us) then chainCollision start ts us
      else Some (EncodeByteSlice (chain start ts) ++ EncodeByteSlice t, EncodeByteSlice (chain start us) ++ EncodeByteSlice u)
  | _, _ => None
  end.

Lemma chainCollision_spec `{!AminoLaws} start ts us : length ts = length us -> chain start ts = chain start us ->
  ts = us \/ exists x y, chainCollision start ts us = Some (x, y) /\ x <> y /\ Sha256.tmhash x = Sha256.tmhash y.
Proof.
  revert us. induction ts as [|t ts IH]; intros [|u us] Hl Hc; try done; [by left|]. cbn [chainCollision].
  injection Hl as Hl. destruct (decide _) as [[-> Ec]|Hne].
  - destruct (IH us Hl Ec) as [->|Hx]; [by left|by right].
  - right. do 2 eexists. split; [done|]. split; [|exact Hc]. intros [E1 E2]%Merkle.enc2_inj. by apply Hne.
Qed.

Lemma chain_covers `{!AminoLaws} start (ts us : list bytes) : length ts = length us ->
  Some (chain start (rev ts)) = Some (chain start (rev us)) ->
  ts = us \/ exists x y, chainCollision start (rev ts) (rev us) = Some (x, y) /\ x <> y /\ Sha256.tmhash x = Sha256.tmhash y.
Proof.
  intros Hl [= E]. destruct (chainCollision_spec start (rev ts) (rev us)) as [Er|Hx]; [by rewrite !length_rev|done| |by right].
  left. apply (f_equal (@rev bytes)) in Er. by rewrite !rev_involutive in Er.
Qed.

(** ** Properties *)

(** Proofs of transactions.  The hash of a list of transactions is the
    Merkle root of their hashes; the proof of each of them validates against
    it; and a proof that validates for a position shows the transaction at
    that position, or yields two inputs with one [tmhash]. *)
Theorem TxProof_correct `{!AminoLaws} txs i tx : zlen txs < MaxInt64 -> txs !! i = Some tx ->
  Txs_Hash txs = Merkle.SimpleHashFromHashers (Tx_Hash <$> txs) /\
  exists tp, Txs_Proof txs (Z.of_nat i) = Ret tp /\ tp_Data tp = tx /\ TxProof_Validate tp (Txs_Hash txs) = None /\
    forall q, tp_Index q = Z.of_nat i -> tp_Total q = zlen txs -> TxProof_Validate q (Txs_Hash txs) = None ->
      tp_Data q = tx \/
      exists x y, txCollision (zlen txs) tp q = Some (x, y) /\ x <> y /\ Sha256.tmhash x = Sha256.tmhash y.
Proof.
  intros Hmax Hi. split; [apply Txs_Hash_eq|]. destruct (Txs_Proof_spec txs i tx Hmax Hi) as (sp & E & Hv).
  eexists. split; [exact E|]. split; [done|]. pose proof (lookup_lt_Some _ _ _ Hi). split.
  - unfold TxProof_Validate. cbn [tp_RootHash tp_Index tp_Total tp_Proof LeafHash tp_Data]. rewrite bytes_eqb_refl. cbn [negb].
    rewrite (proj2 (Z.ltb_ge _ _)), (proj2 (Z.leb_gt _ _)) by (unfold zlen; lia). unfold LeafHash. cbn [tp_Data]. by rewrite Hv.
  - intros q Qi Qt Qv. destruct (TxProof_Validate_ok q _ Qv) as (_ & _ & _ & Hq). rewrite Qi, Qt in Hq.
    destruct (decide (tp_Data q = tx)) as [|Hne]; [by left|right]. unfold txCollision.
    destruct (decide (LeafHash _ = LeafHash q)) as [Eh|Hh]; [exists tx, (tp_Data q); by split_and!|].
    by apply (Merkle.leaf_collision (Z.of_nat i) (zlen txs) (Txs_Hash txs)).
Qed.

(** When a block passes the count check of its own maker.  [MakeBlock] sets
    [NumTxs] to the number of transactions, but files each transaction in
    every bucket it touches; [ValidateBasic] rejects the block with a wrong
    [NumTxs] exactly when the bucket counts of the transactions do not add up
    to their number, as for any transfer between two different buckets. *)
Theorem MakeBlock_NumTxs now height txs commit segs : Forall2 (fun tx s => getBucketId tx height = Ret s) txs segs ->
  sumZ bucketCount segs <= MaxInt64 ->
  exists b, MakeBlock now height txs (Some commit) = Ret b /\
    (ValidateBasic (Some b) = Ret (Some ErrNumTxs) <-> sumZ bucketCount segs <> zlen txs) /\
    (sumZ bucketCount segs = zlen txs -> height = 1 \/ Commit_ValidateBasic commit = None -> ValidateBasic (Some b) = Ret None).
Proof.
  intros Hf Hmax. destruct (MakeBlock_spec now height txs (Some commit) segs Hf Hmax) as (h & d & E & En & Eh & Ed & Et).
  eexists. split; [exact E|]. unfold ValidateBasic. cbn [hdr deref b_Header b_Data b_Commit mbind go_mbind]. rewrite En, Eh, Ed, Et.
  rewrite bytes_eqb_refl. cbn [negb]. destruct (Z.eqb_spec (zlen txs) (sumZ bucketCount segs)) as [Eq|Hne]; cbn [negb].
  - split; [|intros _ [ -> | -> ]; [done|by destruct (height =? 1)]]. split; [|congruence]. intros Hc. exfalso.
    destruct (height =? 1); cbn [negb mbind go_mbind] in Hc; [done|]. by destruct (Commit_ValidateBasic commit).
  - split; [|congruence]. split; [congruence|done].
Qed.

(** What the data hash of a block covers.  If two blocks with as many
    buckets have the same data hash, then every bucket but the first has the
    same transactions hash in both, or two inputs with one [tmhash] are
    computed from them; the first bucket is not covered at all: its
    transactions can be replaced without changing the data hash or the block
    hash. *)
Theorem data_hash_covers `{!AminoLaws} b1 bs1 b2 bs2 h commit : length bs1 = length bs2 ->
  (Data_Hash (Some (mkData (b1 :: bs1))) = Data_Hash (Some (mkData (b2 :: bs2))) ->
    Txs_Hash <$> (Txs <$> bs1) = Txs_Hash <$> (Txs <$> bs2) \/
    exists x y, chainCollision startingHash (rev (Txs_Hash <$> (Txs <$> bs1))) (rev (Txs_Hash <$> (Txs <$> bs2))) = Some (x, y) /\
      x <> y /\ Sha256.tmhash x = Sha256.tmhash y) /\
  Data_Hash (Some (mkData (b1 :: bs1))) = Data_Hash (Some (mkData (b2 :: bs1))) /\
  Hash (Some (mkBlock (Some h) (Some (mkData (b1 :: bs1))) (Some commit))) =
  Hash (Some (mkBlock (Some h) (Some (mkData (b2 :: bs1))) (Some commit))).
Proof.
  intros Hl. assert (E : Data_Hash (Some (mkData (b1 :: bs1))) = Data_Hash (Some (mkData (b2 :: bs1))))
    by (rewrite (Data_Hash_chain b1), (Data_Hash_chain b2); apply eq_refl).
  split; [|split; [exact E|exact (Hash_data h commit _ _ E)]].
  rewrite (Data_Hash_chain b1), (Data_Hash_chain b2). apply chain_covers. by rewrite !length_fmap.
Qed.
End Spec.

(** ** Witnesses *)

Section Examples.
#[local] Existing Instance uvarintAmino.
#[local] Existing Instance uvarintAminoLaws.

Definition toyBlockCodec : BlockCodec := {|
  aminoString := uvarintSlice; aminoInt64 := fun z => uvarint 10 (uwrap64 z); aminoInt := fun z => uvarint 10 (uwrap64 z);
  aminoTime := fun z => uvarint 10 (uwrap64 z); aminoBlockID := fun b => uvarintSlice (bid_Hash b);
  aminoHexBytes := uvarintSlice; aminoVote := fun v => uvarint 10 (uwrap64 (v_Height v));
  MarshalBlock := fun b => [Byte.x00]; UnmarshalBlock := fun b _ _ => (b, false) |}.
(** A transaction is its input address followed by its output address, one byte each. *)
Definition toyDecoder : TxDecoder := {|
  utxoAddress := fun tx => tx; dmcAddresses := fun tx => (take 1 tx, drop 1 tx); fmtAddress := hexEncode |}.
#[local] Existing Instance toyBlockCodec.
#[local] Existing Instance toyDecoder.

Definition exTxs : list Tx := [str "ab"; str "cd"; str "ee"].

Lemma TxProof_correct_witness : Txs_Hash exTxs = Merkle.SimpleHashFromHashers (Tx_Hash <$> exTxs) /\
  exists tp, Txs_Proof exTxs 1 = Ret tp /\ tp_Data tp = str "cd" /\ TxProof_Validate tp (Txs_Hash exTxs) = None.
Proof.
  destruct (TxProof_correct exTxs 1 (str "cd") eq_refl eq_refl) as [E (tp & E1 & E2 & E3 & _)].
  split; [exact E|]. exists tp. split; [exact E1|split; [exact E2|exact E3]].
Defined.

(** One transfer from an address starting with 0x61 to one starting with
    0x62: the maker's block is rejected. *)
Lemma MakeBlock_NumTxs_witness : exists b, MakeBlock 0 2 [str "ab"] (Some (mkCommit zeroBlockID [])) = Ret b /\
  ValidateBasic (Some b) = Ret (Some ErrNumTxs).
Proof.
  destruct (MakeBlock_NumTxs 0 2 [str "ab"] (mkCommit zeroBlockID []) [(str "61", str "62")]
    ltac:(constructor; [vm_compute; reflexivity|constructor]) ltac:(vm_compute; discriminate)) as (b & E & H & _).
  exists b. split; [exact E|]. apply H. vm_compute. discriminate.
Defined.

(** Two lists of two buckets that differ in the first one. *)
Lemma data_hash_covers_witness : let d tx := mkData [mkTxBucket (str "0") [tx]; mkTxBucket (str "1") []] in
  Data_Hash (Some (d (str "ab"))) = Data_Hash (Some (d (str "cd"))).
Proof.
  exact (proj1 (proj2 (data_hash_covers (mkTxBucket (str "0") [str "ab"]) [mkTxBucket (str "1") []]
    (mkTxBucket (str "0") [str "cd"]) [mkTxBucket (str "1") []]
    (mkHeader [] 0 0 0 zeroBlockID 0 None None [] [] [] []) (mkCommit zeroBlockID []) eq_refl))).
Defined.
End Examples.
End Block.
