(* ===== verification/State.v ===== *)
(** * state/state.go, state/validation.go, types/genesis.go, types/protobuf.go,
    types/results.go

    The state between two blocks: how it starts from a genesis document, the
    block proposed from it, the validation of the next block against it and
    its update from the responses of the application.  The empty [State]
    (nil validator sets) is not a value of the record: where the source can
    hold one, it is [None] of an option. *)

From S2P Require Import Prelude Sha256 Crypto Merkle Types ValidatorSet PartSet Block.
Import Crypto Types ValidatorSet.

Module State.

Record State := mkState {
  ChainID : bytes;
  LastBlockHeight : Z;
  LastBlockTotalTx : Z;
  LastBlockID : BlockID;
  LastBlockTime : Time;
  Validators : ValidatorSet;
  LastValidators : ValidatorSet;
  LastHeightValidatorsChanged : Z;
  Params : Block.ConsensusParams;
  LastHeightConsensusParamsChanged : Z;
  LastResultsHash : bytes;
  AppHash : bytes }.

(** ** types/genesis.go *)

(** The key interface may be nil. *)
Record GenesisValidator := mkGenesisValidator { gv_PubKey : option PubKey; gv_Power : Z; gv_Name : bytes }.

Record GenesisDoc := mkGenesisDoc {
  gd_GenesisTime : Time;
  gd_ChainID : bytes;
  gd_ConsensusParams : option Block.ConsensusParams;
  gd_Validators : list GenesisValidator;
  gd_AppHash : bytes }.

Inductive GenesisError := ErrNoChainID | ErrGenesisParams (e : Block.ParamsError) | ErrNoValidators | ErrNoVotingPower.

(** The zero [time.Time], the start of year 1. *)
Definition zeroTime : Time := -62135596800 * 1000000000.

(** The completed document; [now] is [time.Now()]. *)
Definition ValidateAndComplete (now : Time) (g : GenesisDoc) : GenesisError + GenesisDoc :=
  if zlen (gd_ChainID g) =? 0 then inl ErrNoChainID
  else
    match (match gd_ConsensusParams g with
           | None => inr Block.DefaultConsensusParams
           | Some p => match Block.Params_Validate p with Some e => inl (ErrGenesisParams e) | None => inr p end
           end) with
    | inl e => inl e
    | inr p =>
        if zlen (gd_Validators g) =? 0 then inl ErrNoValidators
        else if existsb (fun v => gv_Power v =? 0) (gd_Validators g) then inl ErrNoVotingPower
        else inr (mkGenesisDoc (if gd_GenesisTime g =? zeroTime then now else gd_GenesisTime g)
                               (gd_ChainID g) (Some p) (gd_Validators g) (gd_AppHash g))
    end.

(** ** types/protobuf.go *)

(** [abci.PubKey] and [abci.Validator]. *)
Record abciPubKey := mkAbciPubKey { apk_Type : bytes; apk_Data : bytes }.
Record abciValidator := mkAbciValidator { av_Address : bytes; av_PubKey : abciPubKey; av_Power : Z }.

Definition ABCIPubKeyTypeEd25519 : bytes := str "ed25519".
Definition ABCIPubKeyTypeSecp256k1 : bytes := str "secp256k1".

(** [nil] and unknown key types panic; there are no others. *)
Definition TM2PB_PubKey (pubKey : option PubKey) : go abciPubKey :=
  match pubKey with
  | None => Panic (PanicSanity "unknown pubkey type")
  | Some (PubKeyEd25519 b) => Ret (mkAbciPubKey ABCIPubKeyTypeEd25519 b)
  | Some (PubKeySecp256k1 b) => Ret (mkAbciPubKey ABCIPubKeyTypeSecp256k1 b)
  end.

Definition TM2PB_Validator (val : Validator) : abciValidator :=
  mkAbciValidator (val_Address val) (mkAbciPubKey [] []) (val_VotingPower val).

Definition TM2PB_Validators (vals : ValidatorSet) : list abciValidator := TM2PB_Validator <$> ValidatorSet.Validators vals.

(** [nil, error] is [None]. *)
Definition PB2TM_PubKey (pubKey : abciPubKey) : option PubKey :=
  if bytes_eqb (apk_Type pubKey) ABCIPubKeyTypeEd25519 then
    if zlen (apk_Data pubKey) =? 32 then Some (PubKeyEd25519 (apk_Data pubKey)) else None
  else if bytes_eqb (apk_Type pubKey) ABCIPubKeyTypeSecp256k1 then
    if zlen (apk_Data pubKey) =? 33 then Some (PubKeySecp256k1 (apk_Data pubKey)) else None
  else None.

(** The key field of the validators is left nil; there is no error. *)
Definition PB2TM_Validators (vals : list abciValidator) : list Validator :=
  (fun v => mkValidator (av_Address v) None (av_Power v) 0) <$> vals.

(** ** types/results.go and the responses of state/store.go *)

Record ResponseDeliverTx := mkDeliverTx { dtx_Code : Z; dtx_Data : bytes }.

(** The responses that the state keeps: of the delivered transactions (nil
    until the response arrives), the parameter updates of EndBlock, and the
    validators of GetValidatorSet. *)
Record ABCIResponses := mkResponses {
  DeliverTx : list (option ResponseDeliverTx);
  ConsensusParamUpdates : option Block.ParamUpdates;
  GetValidatorSet : list abciValidator }.

(** [aminoHash] of an [ABCIResult]. *)
Class ResultCodec := { aminoResult : Z -> bytes -> bytes }.

Record ABCIResult := mkResult { res_Code : Z; res_Data : bytes }.

Definition NewResultFromResponse (response : option ResponseDeliverTx) : go ABCIResult :=
  r ← deref response; Ret (mkResult (dtx_Code r) (dtx_Data r)).

Definition NewResults (del : list (option ResponseDeliverTx)) : go (list ABCIResult) :=
  go_fold (fun d res => r ← NewResultFromResponse d; Ret (res ++ [r])) del [].

Definition Result_Hash `{ResultCodec} (a : ABCIResult) : bytes := Block.hashItem false (aminoResult (res_Code a) (res_Data a)).
Definition Results_Hash `{Amino} `{ResultCodec} (a : list ABCIResult) : bytes :=
  Merkle.SimpleHashFromHashers (Result_Hash <$> a).
Definition ProveResult `{Amino} `{ResultCodec} (a : list ABCIResult) (i : Z) : go Merkle.SimpleProof :=
  rp ← Merkle.SimpleProofsFromHashers (Result_Hash <$> a);
  idx rp.2 i.

Definition ResultsHash `{Amino} `{ResultCodec} (arz : ABCIResponses) : go bytes :=
  res ← NewResults (DeliverTx arz);
  Ret (Results_Hash res).

Section Operations.
Context `{Codec} `{Curves} `{Amino} `{ValidatorCodec} `{Block.BlockCodec} `{Block.TxDecoder} `{ResultCodec}.

(** ** state/state.go *)

Definition MakeGenesisState (now : Time) (genDoc : GenesisDoc) : go (GenesisError + State) :=
  match ValidateAndComplete now genDoc with
  | inl e => Ret (inl e)
  | inr g =>
      validators ← go_fold (fun val vals =>
        pubKey ← deref (gv_PubKey val);
        Ret (vals ++ [mkValidator (Address pubKey) (Some pubKey) (gv_Power val) 0])) (gd_Validators g) [];
      vs ← NewValidatorSet (Some validators);
      last ← NewValidatorSet None;
      params ← deref (gd_ConsensusParams g);
      Ret (inr (mkState (gd_ChainID g) 0 0 zeroBlockID (gd_GenesisTime g) vs last 1 params 1 [] (gd_AppHash g)))
  end.

(** The fields of the header that [MakeBlock] fills from the state. *)
Definition fillFromState (st : State) (h : Block.Header) : Block.Header :=
  Block.mkHeader (ChainID st) (Block.Height h) (Block.Time_ h) (Block.NumTxs h) (LastBlockID st)
    (add64 (LastBlockTotalTx st) (Block.NumTxs h)) (Block.LastBucketHashes h) (Block.DataHash h)
    (ValidatorSet_Hash (Validators st)) (Block.Params_Hash (Params st)) (AppHash st) (LastResultsHash st).

Definition MakeBlock (st : State) (now : Time) (height : Z) (txs : list Block.Tx) (commit : option Commit)
  : go (Block.Block * option PartSet.PartSet) :=
  b ← Block.MakeBlock now height txs commit;
  h ← Block.hdr b;
  let b := Block.mkBlock (Some (fillFromState st h)) (Block.b_Data b) (Block.b_Commit b) in
  parts ← Block.MakePartSet (Some b) (Block.BlockPartSizeBytes (Params st));
  Ret (b, parts).

(** ** state/validation.go *)

Inductive ValidateError :=
| ErrBasic (e : Block.BlockError)
| ErrChainID | ErrHeight | ErrLastBlockID | ErrTotalTxs | ErrAppHash | ErrConsensusHash
| ErrLastResultsHash | ErrValidatorsHash | ErrFirstCommit | ErrCommitSize
| ErrCommit (e : VerifyError).

Definition validateCommit (st : State) (h : Block.Header) (commit : option Commit) : go (option ValidateError) :=
  c ← deref commit;
  if Block.Height h =? 1 then
    if negb (zlen (c_Precommits c) =? 0) then Ret (Some ErrFirstCommit) else Ret None
  else if negb (zlen (c_Precommits c) =? Size (LastValidators st)) then Ret (Some ErrCommitSize)
  else
    e ← VerifyCommit (LastValidators st) (ChainID st) (LastBlockID st) (sub64 (Block.Height h) 1) c;
    Ret (option_map ErrCommit e).

Definition validateBlock (st : State) (block : option Block.Block) : go (option ValidateError) :=
  basic ← Block.ValidateBasic block;
  match basic with
  | Some e => Ret (Some (ErrBasic e))
  | None =>
      b ← deref block;
      h ← Block.hdr b;
      if negb (bytes_eqb (Block.ChainID h) (ChainID st)) then Ret (Some ErrChainID)
      else if negb (Block.Height h =? add64 (LastBlockHeight st) 1) then Ret (Some ErrHeight)
      else if negb (BlockID_Equals (Block.LastBlockID h) (LastBlockID st)) then Ret (Some ErrLastBlockID)
      else if negb (Block.TotalTxs h =? add64 (LastBlockTotalTx st) (Block.TotalTxsInBuckets (Block.b_Data b)))
           then Ret (Some ErrTotalTxs)
      else if negb (bytes_eqb (Block.AppHash h) (AppHash st)) then Ret (Some ErrAppHash)
      else if negb (bytes_eqb (Block.ConsensusHash h) (Block.Params_Hash (Params st))) then Ret (Some ErrConsensusHash)
      else if negb (bytes_eqb (Block.LastResultsHash h) (LastResultsHash st)) then Ret (Some ErrLastResultsHash)
      else if negb (bytes_eqb (Block.ValidatorsHash h) (ValidatorSet_Hash (Validators st))) then Ret (Some ErrValidatorsHash)
      else validateCommit st h (Block.b_Commit b)
  end.

(** ** state/execution.go: updates of the state *)

Inductive UpdateError := ErrAddValidator | ErrRemoveValidator | ErrUpdateValidator | ErrParams (e : Block.ParamsError).

(** One iteration of the loop of [updateValidators]; the validators are
    updated in place, so also when an error is returned. *)
Definition updateValidator (currentSet : ValidatorSet) (valUpdate : Validator) : go (ValidatorSet * option UpdateError) :=
  r ← GetByAddress currentSet (val_Address valUpdate);
  match r.2 with
  | None =>
      a ← Add currentSet valUpdate;
      Ret (a.1, if negb a.2 then Some ErrAddValidator else None)
  | Some _ =>
      if val_VotingPower valUpdate =? 0 then
        d ← Remove currentSet (val_Address valUpdate);
        Ret (d.1, match d.2 with None => Some ErrRemoveValidator | Some _ => None end)
      else
        u ← Update currentSet valUpdate;
        Ret (u.1, if negb u.2 then Some ErrUpdateValidator else None)
  end.

Fixpoint updateValidatorsLoop (currentSet : ValidatorSet) (updates : list Validator) : go (ValidatorSet * option UpdateError) :=
  match updates with
  | [] => Ret (currentSet, None)
  | u :: updates =>
      r ← updateValidator currentSet u;
      match r.2 with Some e => Ret r | None => updateValidatorsLoop r.1 updates end
  end.

Definition updateValidators (currentSet : ValidatorSet) (abciUpdates : list abciValidator) : go (ValidatorSet * option UpdateError) :=
  updateValidatorsLoop currentSet (PB2TM_Validators abciUpdates).

Definition updateState (st : State) (blockID : BlockID) (header : option Block.Header) (arz : ABCIResponses)
  : go (UpdateError + State) :=
  h ← deref header;
  vals ← (if 0 <? zlen (GetValidatorSet arz) then
            r ← updateValidators (Validators st) (GetValidatorSet arz);
            match r.2 with
            | Some e => Ret (inl e)
            | None => Ret (inr (r.1, add64 (Block.Height h) 1))
            end
          else Ret (inr (Validators st, LastHeightValidatorsChanged st)));
  match vals with
  | inl e => Ret (inl e)
  | inr (nextValSet, lastHeightValsChanged) =>
      nextValSet ← IncrementAccum nextValSet 1;
      match (match ConsensusParamUpdates arz with
             | None => inr (Params st, LastHeightConsensusParamsChanged st)
             | Some u =>
                 let nextParams := Block.Params_Update (Params st) (Some u) in
                 match Block.Params_Validate nextParams with
                 | Some e => inl (ErrParams e)
                 | None => inr (nextParams, add64 (Block.Height h) 1)
                 end
             end) with
      | inl e => Ret (inl e)
      | inr (nextParams, lastHeightParamsChanged) =>
          resultsHash ← ResultsHash arz;
          Ret (inr (mkState (ChainID st) (Block.Height h) (add64 (LastBlockTotalTx st) (Block.NumTxs h)) blockID
            (Block.Time_ h) nextValSet (Validators st) lastHeightValsChanged nextParams lastHeightParamsChanged
            resultsHash []))
      end
  end.
End Operations.

Section Spec.
Context `{Codec} `{Curves} `{Amino} `{ValidatorCodec} `{Block.BlockCodec} `{Block.TxDecoder} `{ResultCodec}.

(** ** Validation *)

Lemma ValidateBasic_iff h d c : exists r, Block.ValidateBasic (Some (Block.mkBlock (Some h) d (Some c))) = Ret r /\
  (r = None <-> Block.NumTxs h = Block.TotalTxsInBuckets d /\ (Block.Height h = 1 \/ Commit_ValidateBasic c = None) /\
     Block.orNil (Block.DataHash h) = Block.orNil (Block.Data_Hash d)).
Proof.
  unfold Block.ValidateBasic. cbn [Block.hdr deref Block.b_Header Block.b_Data Block.b_Commit mbind go_mbind].
  destruct (Z.eqb_spec (Block.NumTxs h) (Block.TotalTxsInBuckets d)) as [E1|E1]; cbn [negb].
  2:{ eexists. split; [done|]. split; [done|]. tauto. }
  destruct (bytes_eqb _ _) eqn:E2; [apply bytes_eqb_true in E2|apply bytes_eqb_false in E2];
    (destruct (Z.eqb_spec (Block.Height h) 1) as [E3|E3]; cbn [negb mbind go_mbind];
     [|destruct (Commit_ValidateBasic c) eqn:E4; cbn [mbind go_mbind]]); eexists; (split; [done|]); split; (done || intuition congruence).
Qed.

(** The commit a block of height [height] must carry. *)
Definition commitFor (st : State) (height : Z) (c : Commit) : Prop :=
  if decide (height = 1) then c_Precommits c = []
  else
    Commit_ValidateBasic c = None /\
    length (c_Precommits c) = length (ValidatorSet.Validators (LastValidators st)) /\
    Commit_Height c = height - 1 /\
    Forall (precommitOK (ChainID st) (height - 1) (Commit_Round c))
      (zip (ValidatorSet.Validators (LastValidators st)) (c_Precommits c)) /\
    2 * sumZ val_VotingPower (ValidatorSet.Validators (LastValidators st)) <
    3 * committedPower (LastValidators st) (LastBlockID st) c.

(** The contents of the next block that the state determines. *)
Definition headerFor (st : State) (h : Block.Header) (d : option Block.Data) : Prop :=
  Block.ChainID h = ChainID st /\ Block.Height h = LastBlockHeight st + 1 /\ Block.LastBlockID h = LastBlockID st /\
  Block.NumTxs h = Block.TotalTxsInBuckets d /\
  Block.TotalTxs h = add64 (LastBlockTotalTx st) (Block.TotalTxsInBuckets d) /\
  Block.orNil (Block.DataHash h) = Block.orNil (Block.Data_Hash d) /\
  Block.AppHash h = AppHash st /\ Block.ConsensusHash h = Block.Params_Hash (Params st) /\
  Block.LastResultsHash h = LastResultsHash st /\ Block.ValidatorsHash h = ValidatorSet_Hash (Validators st).

Definition heightOK (st : State) : Prop := 0 <= LastBlockHeight st < MaxInt64.

Lemma validateCommit_spec st h c : valsOK (LastValidators st) -> cacheOK (LastValidators st) ->
  0 < Block.Height h <= MaxInt64 ->
  exists r, validateCommit st h (Some c) = Ret r /\
    (r = None -> Block.Height h = 1 \/ Commit_ValidateBasic c = None -> commitFor st (Block.Height h) c) /\
    (commitFor st (Block.Height h) c -> r = None).
Proof.
  intros Hv Hc Hh. unfold validateCommit, commitFor. cbn [deref mbind go_mbind].
  destruct (Z.eqb_spec (Block.Height h) 1) as [E1|E1].
  { rewrite decide_True by done. destruct (Z.eqb_spec (zlen (c_Precommits c)) 0) as [E2|E2]; cbn [negb];
      eexists; (split; [done|]); split; try done.
    - intros _ _. by destruct (c_Precommits c).
    - intros E3. by rewrite E3 in E2. }
  rewrite decide_False by done. unfold Size.
  destruct (Z.eqb_spec (zlen (c_Precommits c)) (zlen (ValidatorSet.Validators (LastValidators st)))) as [E2|E2]; cbn [negb].
  2:{ eexists. split; [done|]. split; [done|]. unfold zlen in E2. intros (_ & E3 & _). lia. }
  unfold sub64. rewrite wrap64_small by (unfold_int64; lia).
  destruct (VerifyCommit_spec (LastValidators st) (ChainID st) (LastBlockID st) (Block.Height h - 1) c Hv Hc) as (r & -> & Hr).
  cbn [mbind go_mbind]. eexists. split; [done|]. destruct r as [e|]; cbn [option_map].
  - split; [done|]. intros (_ & Hrest). by apply Hr in Hrest.
  - split; [|done]. intros _ [?|Hb]; [done|]. split; [done|]. by apply Hr.
Qed.

(** The outermost check of a chain of them. *)
Ltac check K :=
  match goal with |- exists _, (if negb ?b then _ else _) = _ /\ _ =>
    let E := fresh in destruct b eqn:E; cbn [negb];
    [|eexists; split; [reflexivity|]; split; [discriminate|]];
    rewrite ?bytes_eqb_true, ?bytes_eqb_false, ?BlockID_Equals_eq, ?BlockID_Equals_false, ?Z.eqb_eq, ?Z.eqb_neq in E;
    [rename E into K|tauto]
  end.

Lemma validateBlock_spec st h d c : valsOK (LastValidators st) -> cacheOK (LastValidators st) -> heightOK st ->
  exists r, validateBlock st (Some (Block.mkBlock (Some h) d (Some c))) = Ret r /\
    (r = None <-> headerFor st h d /\ commitFor st (Block.Height h) c).
Proof.
  intros Hv Hc Hh. unfold validateBlock, headerFor.
  destruct (ValidateBasic_iff h d c) as (rb & -> & Hb). cbn [mbind go_mbind].
  destruct rb as [e|].
  { eexists. split; [done|]. split; [done|]. intros [Hd Hcf]. exfalso. enough (Some e = None) by done. apply Hb.
    split_and!; [tauto| |tauto]. unfold commitFor in Hcf. case_decide; [by left|right; tauto]. }
  destruct (proj1 Hb eq_refl) as (B1 & B2 & B3).
  cbn [deref Block.hdr Block.b_Header Block.b_Data Block.b_Commit mbind go_mbind].
  assert (Ea : add64 (LastBlockHeight st) 1 = LastBlockHeight st + 1)
    by (apply wrap64_small; unfold heightOK in Hh; unfold_int64; lia). rewrite Ea.
  check K1. check K2. check K3. check K4. check K5. check K6. check K7. check K8.
  destruct (validateCommit_spec st h c Hv Hc) as (r & E & Hr1 & Hr2); [unfold heightOK in Hh; lia|].
  exists r. split; [exact E|]. split; [|tauto]. intros Er. split; [tauto|]. by apply Hr1.
Qed.

(** ** Proposed blocks *)

Lemma MakeBlock_contents st now height txs commit segs :
  Forall2 (fun tx s => Block.getBucketId tx height = Ret s) txs segs -> sumZ Block.bucketCount segs <= MaxInt64 ->
  exists h d, Block.MakeBlock now height txs commit = Ret (Block.mkBlock (Some h) (Some d) commit) /\
    Block.Height h = height /\ Block.NumTxs h = zlen txs /\ Block.TotalTxsInBuckets (Some d) = sumZ Block.bucketCount segs /\
    (height = LastBlockHeight st + 1 ->
     headerFor st (fillFromState st h) (Some d) <-> zlen txs = sumZ Block.bucketCount segs).
Proof.
  intros Hf Hm. destruct (Block.MakeBlock_spec now height txs commit segs Hf Hm) as (h & d & E & En & Eh & Ed & Et).
  exists h, d. split_and!; try done. intros Eheight. unfold headerFor, fillFromState.
  cbn [Block.ChainID Block.Height Block.LastBlockID Block.NumTxs Block.TotalTxs Block.DataHash Block.AppHash Block.ConsensusHash Block.LastResultsHash Block.ValidatorsHash].
  rewrite Et, En, Ed. split; [tauto|].
  intros Eq. split_and!; try done; [congruence|congruence].
Qed.

(** ** Updates of the validator set *)

(** What a validator update does to the set, as a map by address. *)
Definition applyUpdate (m : gmap bytes Validator) (u : abciValidator) : gmap bytes Validator :=
  if decide (av_Power u = 0 /\ m !! av_Address u <> None) then delete (av_Address u) m
  else <[av_Address u := mkValidator (av_Address u) None (av_Power u) 0]> m.

Lemma updateValidator_spec vs u : addrSorted (ValidatorSet.Validators vs) ->
  exists l, updateValidator vs (mkValidator (av_Address u) None (av_Power u) 0) = Ret (mkValidatorSet l None 0, None) /\
    addrSorted l /\ asMap l = applyUpdate (asMap (ValidatorSet.Validators vs)) u.
Proof.
  intros Hs. unfold updateValidator, applyUpdate. set (v := mkValidator _ _ _ _). cbn [val_Address val_VotingPower v].
  destruct (GetByAddress_spec vs (av_Address u) Hs) as [(i & w & -> & Hw & Ha)|[-> Hno]]; cbn [mbind go_mbind snd].
  - assert (Hm : asMap (ValidatorSet.Validators vs) !! av_Address u = Some w).
    { apply asMap_lookup; [done|]. split; [by eapply list_elem_of_lookup_2|done]. }
    destruct (Z.eqb_spec (av_Power u) 0) as [E0|E0].
    + rewrite decide_True by (rewrite Hm; done).
      destruct (Remove_spec vs (av_Address u) Hs) as [[Hx _]|(x & l & _ & -> & Hl & Hd)]; [congruence|].
      cbn [mbind go_mbind fst snd]. by eexists.
    + rewrite decide_False by tauto.
      destruct (setUpdate_spec vs v Hs) as [[Hx _]|[_ (l & -> & Hl & Hd)]]; [cbn in Hx; congruence|].
      cbn [mbind go_mbind fst snd negb]. by eexists.
  - assert (Hm : asMap (ValidatorSet.Validators vs) !! av_Address u = None) by by apply asMap_None.
    rewrite decide_False by (rewrite Hm; tauto).
    destruct (Add_spec vs v Hs) as [[Hx _]|[_ (l & -> & Hl & Hd & _)]]; [cbn in Hx; congruence|].
    cbn [mbind go_mbind fst snd negb]. by eexists.
Qed.

Lemma updateValidators_spec vs us : addrSorted (ValidatorSet.Validators vs) ->
  exists vs', updateValidators vs us = Ret (vs', None) /\ addrSorted (ValidatorSet.Validators vs') /\
    (us <> [] -> exists l, vs' = mkValidatorSet l None 0) /\
    asMap (ValidatorSet.Validators vs') = foldl applyUpdate (asMap (ValidatorSet.Validators vs)) us.
Proof.
  unfold updateValidators, PB2TM_Validators. revert vs. induction us as [|u us IH]; intros vs Hs.
  { exists vs. split_and!; done. }
  rewrite fmap_cons. cbn [updateValidatorsLoop foldl].
  destruct (updateValidator_spec vs u Hs) as (l & -> & Hs1 & <-). cbn [mbind go_mbind fst snd].
  destruct (IH (mkValidatorSet l None 0) Hs1) as (vs' & E & Hs' & Hc' & Hm). exists vs'. split_and!; [exact E|done| |done].
  intros _. destruct us; [|by apply Hc']. cbn in E. exists l. by injection E as <-.
Qed.

(** The power and key of each address; proposer rotation leaves them alone. *)
Definition keyPower (l : list Validator) : gmap bytes (option PubKey * Z) :=
  (fun v => (val_PubKey v, val_VotingPower v)) <$> asMap l.

Lemma keyPower_ids l l' : ids l = ids l' -> keyPower l = keyPower l'.
Proof.
  intros E. unfold keyPower, asMap. rewrite <- !list_to_map_fmap. f_equal.
  rewrite <- !list_fmap_compose.
  assert (Hc : forall k : list Validator,
    (prod_map id (fun v => (val_PubKey v, val_VotingPower v)) ∘ (fun v => (val_Address v, v))) <$> k =
    (fun x : bytes * option PubKey * Z => (x.1.1, (x.1.2, x.2))) <$> ids k).
  { intros k. unfold ids. rewrite <- list_fmap_compose. done. }
  by rewrite !Hc, E.
Qed.

Lemma applyUpdate_key us m a v : a ∈ av_Address <$> us -> foldl applyUpdate m us !! a = Some v -> val_PubKey v = None.
Proof.
  induction us as [|u us IH] using rev_ind; [by intros ?%elem_of_nil|]. rewrite fmap_app, foldl_app. cbn [foldl].
  intros Ha. unfold applyUpdate at 1. destruct (decide (a = av_Address u)) as [->|Hne].
  - case_decide; [by rewrite lookup_delete_eq|]. rewrite lookup_insert_eq. by intros [= <-].
  - apply elem_of_app in Ha as [Ha|Ha]; [|apply list_elem_of_singleton in Ha; done].
    case_decide; [rewrite lookup_delete_ne by done|rewrite lookup_insert_ne by done]; by apply IH.
Qed.

(** ** The update of the state *)

Lemma asMap_empty l : addrSorted l -> asMap l = ∅ <-> l = [].
Proof.
  intros Hs. split; [|by intros ->]. destruct l as [|v l]; [done|]. intros E.
  assert (asMap (v :: l) !! val_Address v = Some v) as Hv; [|by rewrite E, lookup_empty in Hv].
  apply asMap_lookup; [done|]. split; [left|done].
Qed.

(** The parameters after a block, if they are valid. *)
Definition nextParams (st : State) (arz : ABCIResponses) : Block.ParamsError + Block.ConsensusParams :=
  match ConsensusParamUpdates arz with
  | None => inr (Params st)
  | Some u =>
      let p := Block.Params_Update (Params st) (Some u) in
      match Block.Params_Validate p with Some e => inl e | None => inr p end
  end.

(** The validators after a block, before the rotation. *)
Definition nextVals (st : State) (arz : ABCIResponses) : gmap bytes Validator :=
  foldl applyUpdate (asMap (ValidatorSet.Validators (Validators st))) (GetValidatorSet arz).

(** The set that the rotation starts from, of the validators [l]. *)
Definition nextSet (st : State) (arz : ABCIResponses) (l : list Validator) : ValidatorSet :=
  if bool_decide (GetValidatorSet arz = []) then Validators st else mkValidatorSet l None 0.
(** The height at which the validators, or the parameters, last changed. *)
Definition valsChanged (st : State) (h : Block.Header) (arz : ABCIResponses) : Z :=
  if bool_decide (GetValidatorSet arz = []) then LastHeightValidatorsChanged st else add64 (Block.Height h) 1.
Definition paramsChanged (st : State) (h : Block.Header) (arz : ABCIResponses) : Z :=
  if bool_decide (ConsensusParamUpdates arz = None) then LastHeightConsensusParamsChanged st else add64 (Block.Height h) 1.

Lemma nextValSet_spec st h arz : addrSorted (ValidatorSet.Validators (Validators st)) ->
  exists l,
    (if 0 <? zlen (GetValidatorSet arz) then
       r ← updateValidators (Validators st) (GetValidatorSet arz);
       match r.2 with
       | Some e => Ret (inl e)
       | None => Ret (inr (r.1, add64 (Block.Height h) 1))
       end
     else Ret (inr (Validators st, LastHeightValidatorsChanged st)))
    = Ret (inr (nextSet st arz l, valsChanged st h arz)) /\
    addrSorted l /\ asMap l = nextVals st arz /\ ValidatorSet.Validators (nextSet st arz l) = l.
Proof.
  intros Hs. unfold nextVals, nextSet, valsChanged.
  destruct (updateValidators_spec (Validators st) (GetValidatorSet arz) Hs) as (vs & Eu & Hs' & Hc & Hm). rewrite Eu.
  destruct (GetValidatorSet arz) as [|u us] eqn:E.
  - cbn in *. by exists (ValidatorSet.Validators (Validators st)).
  - assert ((0 <? zlen (u :: us)) = true) as -> by (apply Z.ltb_lt; unfold zlen; cbn; lia).
    cbn [mbind go_mbind fst snd]. rewrite !bool_decide_false by done. destruct Hc as (l & ->); [done|]. by exists l.
Qed.
Lemma nextSet_cacheOK st arz l : cacheOK (Validators st) -> cacheOK (nextSet st arz l).
Proof. intros Hc. unfold nextSet. case_bool_decide; [done|]. by left. Qed.

Lemma IncrementAccum_nil vs : ValidatorSet.Validators vs = [] -> exists p, IncrementAccum vs 1 = Panic p.
Proof. destruct vs as [l p c]. cbn. intros ->. eexists. reflexivity. Qed.

(** The responses, once all of them have arrived. *)
Definition allDelivered (arz : ABCIResponses) : option (list ResponseDeliverTx) := mapM id (DeliverTx arz).
Definition resultOf (r : ResponseDeliverTx) : ABCIResult := mkResult (dtx_Code r) (dtx_Data r).

Lemma NewResults_all del : NewResults del = match mapM id del with Some rs => Ret (resultOf <$> rs) | None => Panic NilDeref end.
Proof.
  unfold NewResults. assert (Hg : forall acc, go_fold (fun d res => r ← NewResultFromResponse d; Ret (res ++ [r])) del acc =
    match mapM id del with Some rs => Ret (acc ++ (resultOf <$> rs)) | None => Panic NilDeref end); [|apply (Hg [])].
  induction del as [|[d|] del IH]; intros acc; cbn [go_fold mapM id mbind option_bind].
  - cbn. by rewrite app_nil_r.
  - cbn [NewResultFromResponse deref mbind go_mbind]. rewrite IH. destruct (mapM id del) as [rs|]; cbn; [|done]. by rewrite <- app_assoc.
  - done.
Qed.

(** The new state, from the set that is rotated, the parameters and the results. *)
Definition stateAfter (st : State) (blockID : BlockID) (h : Block.Header) (arz : ABCIResponses) (vs : ValidatorSet) (params : Block.ConsensusParams) (rs : list ResponseDeliverTx) : State :=
  mkState (ChainID st) (Block.Height h) (add64 (LastBlockTotalTx st) (Block.NumTxs h)) blockID (Block.Time_ h) (IncrementAccum_ref vs 1) (Validators st)
    (valsChanged st h arz) params (paramsChanged st h arz) (Results_Hash (resultOf <$> rs)) [].

Lemma updateState_full st blockID h arz : addrSorted (ValidatorSet.Validators (Validators st)) ->
  exists l, addrSorted l /\ asMap l = nextVals st arz /\ ValidatorSet.Validators (nextSet st arz l) = l /\
  (l = [] -> exists p, updateState st blockID (Some h) arz = Panic p) /\
  (l <> [] -> updateState st blockID (Some h) arz =
     match nextParams st arz, allDelivered arz with
     | inl e, _ => Ret (inl (ErrParams e))
     | inr _, None => Panic NilDeref
     | inr params, Some rs => Ret (inr (stateAfter st blockID h arz (nextSet st arz l) params rs))
     end).
Proof.
  intros Hs. destruct (nextValSet_spec st h arz Hs) as (l & E & Hs' & Hm & Hl). exists l. split_and!; [done|done|done|..];
    intros Hn; unfold updateState; cbn [deref mbind go_mbind]; rewrite E; cbn [mbind go_mbind].
  { rewrite <- Hl in Hn. destruct (IncrementAccum_nil _ Hn) as [p ->]. by exists p. }
  rewrite IncrementAccum_spec by first [lia|by rewrite Hl]. cbn [mbind go_mbind]. unfold ResultsHash, nextParams, allDelivered. rewrite NewResults_all. unfold stateAfter, paramsChanged.
  destruct (ConsensusParamUpdates arz) as [u|]; [destruct (Block.Params_Validate _); [done|]|]; by destruct (mapM id (DeliverTx arz)).
Qed.

Lemma allDelivered_some arz : Forall is_Some (DeliverTx arz) -> is_Some (allDelivered arz).
Proof. intros Hd. by apply mapM_is_Some. Qed.
Lemma updateState_spec st blockID h arz : addrSorted (ValidatorSet.Validators (Validators st)) -> Forall is_Some (DeliverTx arz) ->
  (nextVals st arz = ∅ -> exists p, updateState st blockID (Some h) arz = Panic p) /\
  (nextVals st arz <> ∅ -> exists r, updateState st blockID (Some h) arz = Ret r /\
     match nextParams st arz with
     | inl e => r = inl (ErrParams e)
     | inr params => exists st', r = inr st' /\
         ChainID st' = ChainID st /\ LastBlockHeight st' = Block.Height h /\ LastBlockID st' = blockID /\
         LastBlockTotalTx st' = add64 (LastBlockTotalTx st) (Block.NumTxs h) /\
         LastValidators st' = Validators st /\ Params st' = params /\
         addrSorted (ValidatorSet.Validators (Validators st')) /\
         keyPower (ValidatorSet.Validators (Validators st')) = (fun v => (val_PubKey v, val_VotingPower v)) <$> nextVals st arz /\
         LastHeightValidatorsChanged st' =
           (if bool_decide (GetValidatorSet arz = []) then LastHeightValidatorsChanged st else add64 (Block.Height h) 1)
     end).
Proof.
  intros Hs Hd. destruct (updateState_full st blockID h arz Hs) as (l & Hs' & Hm & Hl & Hnil & Hcons). split; intros Hn; rewrite <- Hm in Hn; rewrite (asMap_empty _ Hs') in Hn; [by apply Hnil|].
  rewrite (Hcons Hn). destruct (allDelivered_some arz Hd) as [rs ->]. destruct (nextParams st arz) as [e|params]; [by eexists|]. eexists. split; [reflexivity|]. eexists. split; [reflexivity|].
  assert (Hids : ids (ValidatorSet.Validators (IncrementAccum_ref (nextSet st arz l) 1)) = ids l) by (rewrite <- Hl at 2; apply rotate_ids).
  split_and!; try done; cbn [stateAfter Validators].
  - by eapply ids_sorted.
  - rewrite (keyPower_ids _ _ Hids). unfold keyPower. by rewrite Hm.
Qed.

(** *** States that were stored *)

(** The state without the caches of its sets, which go-amino does not store. *)
Definition uncachedState (st : State) : State :=
  mkState (ChainID st) (LastBlockHeight st) (LastBlockTotalTx st) (LastBlockID st) (LastBlockTime st) (uncached (Validators st)) (uncached (LastValidators st))
    (LastHeightValidatorsChanged st) (Params st) (LastHeightConsensusParamsChanged st) (LastResultsHash st) (AppHash st).
Definition cachesOK (st : State) : Prop := cacheOK (Validators st) /\ cacheOK (LastValidators st).

Lemma ValidatorSet_Hash_uncached vs : ValidatorSet_Hash (uncached vs) = ValidatorSet_Hash vs.
Proof. reflexivity. Qed.
Lemma validateCommit_uncached st h c : cachesOK st -> validateCommit (uncachedState st) h c = validateCommit st h c.
Proof. intros [_ Hc]. destruct c as [c|]; [|reflexivity]. unfold validateCommit. cbn [deref mbind go_mbind uncachedState LastValidators ChainID LastBlockID]. by rewrite VerifyCommit_uncached. Qed.
Lemma validateBlock_uncached st b : cachesOK st -> validateBlock (uncachedState st) b = validateBlock st b.
Proof.
  intros Hc. unfold validateBlock. cbn [uncachedState ChainID LastBlockHeight LastBlockTotalTx LastBlockID Validators Params LastResultsHash AppHash]. rewrite ValidatorSet_Hash_uncached.
  generalize (Block.ValidateBasic b). intros [[e|]|p]; cbn [mbind go_mbind]; [reflexivity| |reflexivity]. generalize (deref b). intros [b'|p]; cbn [mbind go_mbind]; [|reflexivity].
  generalize (Block.hdr b'). intros [h|p]; cbn [mbind go_mbind]; [|reflexivity]. by rewrite (validateCommit_uncached st h _ Hc).
Qed.

(** Updating a stored state gives what updating the state itself gives, up to
    the caches. *)
Lemma updateState_uncached st blockID h arz : addrSorted (ValidatorSet.Validators (Validators st)) -> cachesOK st ->
  match updateState st blockID (Some h) arz with
  | Ret (inr st') => exists st'', updateState (uncachedState st) blockID (Some h) arz = Ret (inr st'') /\ uncachedState st'' = uncachedState st' /\ cachesOK st' /\ cachesOK st''
  | Ret (inl e) => updateState (uncachedState st) blockID (Some h) arz = Ret (inl e)
  | Panic _ => exists p, updateState (uncachedState st) blockID (Some h) arz = Panic p
  end.
Proof.
  intros Hs [Hc _]. destruct (updateState_full st blockID h arz Hs) as (l & Hs1 & Hm1 & Hl1 & Hn1 & Hr1).
  destruct (updateState_full (uncachedState st) blockID h arz Hs) as (l' & Hs2 & Hm2 & Hl2 & Hn2 & Hr2).
  assert (l' = l) as -> by (apply asMap_inj; [done|done|]; rewrite Hm2, Hm1; done).
  destruct (decide (l = [])) as [->|Hne]; [destruct (Hn1 eq_refl) as [p ->]; by apply Hn2|]. rewrite (Hr1 Hne), (Hr2 Hne). clear Hr1 Hr2 Hn1 Hn2.
  change (nextParams (uncachedState st) arz) with (nextParams st arz). destruct (nextParams st arz) as [e|params]; [done|]. destruct (allDelivered arz) as [rs|]; [|by eexists].
  pose proof (nextSet_cacheOK st arz l Hc) as Hc1. pose proof (nextSet_cacheOK (uncachedState st) arz l (uncached_cacheOK _)) as Hc2.
  eexists. split; [reflexivity|]. split_and!; [|by split; [apply rotation_cacheOK|]|by split; [apply rotation_cacheOK|apply uncached_cacheOK]].
  unfold stateAfter. by rewrite (rotation_same _ _ Hc1 Hc2) by by rewrite ?Hl2, ?Hl1.
Qed.

(** ** Genesis *)

Lemma ValidateAndComplete_ok now g g' : ValidateAndComplete now g = inr g' ->
  gd_ChainID g' = gd_ChainID g /\ gd_Validators g' = gd_Validators g /\ gd_Validators g <> [] /\ gd_AppHash g' = gd_AppHash g /\
  exists p, gd_ConsensusParams g' = Some p /\ Block.Params_Validate p = None.
Proof.
  unfold ValidateAndComplete. destruct (_ =? 0); [done|].
  assert (Hd : Block.Params_Validate Block.DefaultConsensusParams = None) by reflexivity.
  destruct (gd_ConsensusParams g) as [p|]; [destruct (Block.Params_Validate p) eqn:Ep; [done|]|];
    (destruct (Z.eqb_spec (zlen (gd_Validators g)) 0) as [|Hne]; [done|]); (destruct (existsb _ _); [done|]);
    intros [= <-]; cbn [gd_ChainID gd_Validators gd_AppHash gd_ConsensusParams]; split_and!; try done; eauto;
    intros E; by rewrite E in Hne.
Qed.

Definition genesisVals (pks : list PubKey) (vs : list GenesisValidator) : list Validator :=
  zip_with (fun pk v => NewValidator pk (gv_Power v)) pks vs.

Lemma genesis_fold vs pks acc : gv_PubKey <$> vs = Some <$> pks ->
  go_fold (fun val vals => pubKey ← deref (gv_PubKey val);
    Ret (vals ++ [mkValidator (Address pubKey) (Some pubKey) (gv_Power val) 0])) vs acc = Ret (acc ++ genesisVals pks vs).
Proof.
  revert pks acc. induction vs as [|v vs IH]; intros [|pk pks] acc E; try done; [cbn; by rewrite app_nil_r|].
  rewrite !fmap_cons in E. injection E as Ek E. cbn [go_fold]. rewrite Ek. cbn [deref mbind go_mbind].
  rewrite (IH pks) by done. unfold genesisVals. cbn [zip_with]. by rewrite <- app_assoc.
Qed.

Lemma genesisVals_addresses pks vs : length pks = length vs -> val_Address <$> genesisVals pks vs = Address <$> pks.
Proof.
  revert vs. induction pks as [|pk pks IH]; intros [|v vs] Hl; try done. injection Hl as Hl.
  unfold genesisVals. cbn [zip_with]. rewrite !fmap_cons. f_equal. by apply IH.
Qed.

(** The conditions on a set are conditions on its keys and powers. *)
Lemma valsOK_ids vs l : ids (ValidatorSet.Validators vs) ≡ₚ ids l -> Forall (fun v => 0 <= val_VotingPower v) l ->
  2 * sumZ val_VotingPower l <= MaxInt64 -> Forall (fun v => val_PubKey v <> None) l -> valsOK vs.
Proof.
  intros Hp Hnn Hmx Hkey.
  assert (Hall : forall (P : bytes * option PubKey * Z -> Prop) k,
    Forall (fun v => P (val_Address v, val_PubKey v, val_VotingPower v)) k <-> Forall P (ids k)).
  { intros P k. unfold ids. by rewrite Forall_fmap. }
  split_and!.
  - apply (Hall (fun x => 0 <= x.2)). rewrite Hp. by apply Hall.
  - pose proof (sumZ_perm (fun x : bytes * option PubKey * Z => x.2) _ _ Hp) as E. unfold ids in E.
    rewrite !sumZ_fmap in E. cbn [snd] in E. etrans; [|exact Hmx]. apply Z.eq_le_incl. by f_equal.
  - apply (Hall (fun x => x.1.2 <> None)). rewrite Hp. by apply Hall.
Qed.

(** ** Properties *)

(** C8: [validateBlock] accepts exactly the next block of the state.  For a block
    with a header and a commit, and a state whose height has a next one and whose
    last validators all have a key, powers that can be added up and a cached
    total that is unset or right, it does not panic; it returns nil exactly
    when the header has the chain, height, previous block, application hash,
    parameters, results and validators of the state, counts and hashes its
    own transactions, and the commit is empty for the first block and
    otherwise holds valid precommits of the last validators for the last
    block, with more than two thirds of the power. *)
Theorem validateBlock_iff st h d c : valsOK (LastValidators st) -> cacheOK (LastValidators st) -> heightOK st ->
  exists r, validateBlock st (Some (Block.mkBlock (Some h) d (Some c))) = Ret r /\
    (r = None <-> headerFor st h d /\ commitFor st (Block.Height h) c).
Proof. apply validateBlock_spec. Qed.

(** The block [State.MakeBlock] proposes for the next height, with a good
    commit, is accepted by [validateBlock] exactly when the number of
    transactions is the number of bucket entries they make; it comes with a
    complete part set of its encoding. *)
Theorem MakeBlock_valid st now txs commit segs : let height := LastBlockHeight st + 1 in
  Forall2 (fun tx s => Block.getBucketId tx height = Ret s) txs segs -> sumZ Block.bucketCount segs <= MaxInt64 ->
  valsOK (LastValidators st) -> cacheOK (LastValidators st) -> heightOK st -> commitFor st height commit ->
  0 < Block.BlockPartSizeBytes (Params st) ->
  exists b, (exists r, validateBlock st (Some b) = Ret r /\ (r = None <-> zlen txs = sumZ Block.bucketCount segs)) /\
    (Block.MarshalBlock b <> [] -> zlen (Block.MarshalBlock b) + Block.BlockPartSizeBytes (Params st) <= MaxInt64 ->
     exists ps, MakeBlock st now height txs (Some commit) = Ret (b, Some ps) /\
       PartSet.complete (PartSet.ps_parts ps) /\ PartSet.contents (PartSet.ps_parts ps) = Block.MarshalBlock b).
Proof.
  intros height Hf Hm Hv Hc Hh Hcf Hps.
  destruct (MakeBlock_contents st now height txs (Some commit) segs Hf Hm) as (h & d & E & Eh & En & Et & Hhd).
  exists (Block.mkBlock (Some (fillFromState st h)) (Some d) (Some commit)). split.
  - destruct (validateBlock_spec st (fillFromState st h) (Some d) commit Hv Hc Hh) as (r & Er & Hr).
    exists r. split; [exact Er|]. rewrite Hr, Hhd by done. cbn [fillFromState Block.Height]. rewrite Eh. tauto.
  - intros Hne Hsz. destruct (PartSet.NewPartSetFromData_spec _ _ Hne Hps Hsz) as (ps & Eps & _ & Hcomp & Hcon & _).
    exists ps. split; [|done]. unfold MakeBlock. rewrite E. cbn [mbind go_mbind Block.hdr deref Block.b_Header Block.b_Data Block.b_Commit].
    unfold Block.MakePartSet. rewrite Eps. done.
Qed.

(** C9: the state after a block.  On a state whose validators are in address
    order [updateState] panics when the updates leave no validator, returns the
    error of the parameters when they are not valid, and panics when a response
    is missing; otherwise it returns the state in which every field is spelled
    out: the chain and the new total of transactions, height, id and time of the
    block, the former validators as the last ones, the rotation of the
    validators after the updates (applied in order as to a map), the heights at
    which validators and parameters changed, the new parameters, the hash of the
    results, and an application hash that is still to be set. *)
Theorem updateState_next st blockID h arz : addrSorted (ValidatorSet.Validators (Validators st)) ->
  exists l, addrSorted l /\ asMap l = nextVals st arz /\
    (l = [] -> exists p, updateState st blockID (Some h) arz = Panic p) /\
    (l <> [] -> updateState st blockID (Some h) arz =
       match nextParams st arz, allDelivered arz with
       | inl e, _ => Ret (inl (ErrParams e))
       | inr _, None => Panic NilDeref
       | inr params, Some rs =>
           Ret (inr (mkState (ChainID st) (Block.Height h) (add64 (LastBlockTotalTx st) (Block.NumTxs h)) blockID (Block.Time_ h)
             (IncrementAccum_ref (nextSet st arz l) 1) (Validators st) (valsChanged st h arz) params (paramsChanged st h arz)
             (Results_Hash (resultOf <$> rs)) []))
       end).
Proof.
  intros Hs. destruct (updateState_full st blockID h arz Hs) as (l & Hs' & Hm & _ & Hn & Hr). by exists l.
Qed.

(** Validators set by the application cannot vote.  [PB2TM.Validators]
    drops their keys, so in the state after a block that names an address in
    its validator updates, the validator of that address has a nil key, and
    checking any vote of it panics. *)
Theorem updated_validators_cannot_vote st blockID h arz st' v : addrSorted (ValidatorSet.Validators (Validators st)) ->
  Forall is_Some (DeliverTx arz) -> updateState st blockID (Some h) arz = Ret (inr st') ->
  v ∈ ValidatorSet.Validators (Validators st') -> val_Address v ∈ av_Address <$> GetValidatorSet arz ->
  val_PubKey v = None /\ forall vote, Vote_Verify (ChainID st') (val_PubKey v) vote = Panic NilDeref.
Proof.
  intros Hs Hd E Hv Ha. destruct (updateState_spec st blockID h arz Hs Hd) as [H1' H2'].
  destruct (decide (nextVals st arz = ∅)) as [En|En]; [destruct (H1' En) as [p Ep]; congruence|].
  destruct (H2' En) as (r & Er & Hr). rewrite E in Er. injection Er as <-. destruct (nextParams st arz); [done|].
  destruct Hr as (x & [= <-] & _ & _ & _ & _ & _ & _ & Hs' & Hk & _).
  assert (Hv' : keyPower (ValidatorSet.Validators (Validators st')) !! val_Address v = Some (val_PubKey v, val_VotingPower v)).
  { unfold keyPower. rewrite lookup_fmap, (proj2 (asMap_lookup _ (val_Address v) v Hs')) by done. done. }
  rewrite Hk, lookup_fmap in Hv'. destruct (nextVals st arz !! val_Address v) as [w|] eqn:Ew; [|done].
  injection Hv' as Hpk _. rewrite <- Hpk, (applyUpdate_key _ _ _ _ Ha Ew). done.
Qed.

(** The state at genesis.  When the document is complete and its keys have
    distinct addresses, [MakeGenesisState] returns the state before the first
    block: valid parameters, no last validators, and the validators of the
    document in address order; the set can check signatures if the powers
    are not negative and do not overflow. *)
Theorem genesis_state now g g' pks : ValidateAndComplete now g = inr g' -> gv_PubKey <$> gd_Validators g = Some <$> pks ->
  NoDup (Address <$> pks) ->
  exists st, MakeGenesisState now g = Ret (inr st) /\ ChainID st = gd_ChainID g /\ LastBlockHeight st = 0 /\
    Block.Params_Validate (Params st) = None /\ ValidatorSet.Validators (LastValidators st) = [] /\
    addrSorted (ValidatorSet.Validators (Validators st)) /\
    ids (ValidatorSet.Validators (Validators st)) ≡ₚ ids (genesisVals pks (gd_Validators g)) /\
    (Forall (fun v => 0 <= val_VotingPower v) (genesisVals pks (gd_Validators g)) ->
     2 * sumZ val_VotingPower (genesisVals pks (gd_Validators g)) <= MaxInt64 -> valsOK (Validators st)).
Proof.
  intros Eg Epk Hnd. destruct (ValidateAndComplete_ok now g g' Eg) as (G1 & G2 & G3 & G4 & p & G5 & G6).
  assert (Hlen : length pks = length (gd_Validators g)).
  { apply (f_equal length) in Epk. by rewrite !length_fmap in Epk. }
  pose proof (genesisVals_addresses pks (gd_Validators g) Hlen) as Haddr.
  destruct (NewValidatorSet_spec (genesisVals pks (gd_Validators g))) as (vs & Evs & Hs & Hids).
  { intros E. rewrite E in Haddr. destruct (gd_Validators g), pks; done. }
  { by rewrite Haddr. }
  unfold MakeGenesisState. rewrite Eg, G2, (genesis_fold _ pks) by done. cbn [mbind go_mbind app]. rewrite Evs.
  cbn [mbind go_mbind NewValidatorSet default isort foldr]. rewrite G5. cbn [deref mbind go_mbind].
  eexists. split; [reflexivity|]. cbn [ChainID LastBlockHeight Params LastValidators Validators ValidatorSet.Validators].
  split_and!; try done. intros Hnn Hmx. apply (valsOK_ids vs _ Hids Hnn Hmx).
  apply Forall_lookup_2. intros i v Hv. apply lookup_zip_with_Some in Hv as (pk & gv & -> & _). done.
Qed.
End Spec.

(** ** Witnesses *)

Section Examples.
#[local] Existing Instance toyCodec.
#[local] Existing Instance toyCurves.
#[local] Existing Instance uvarintAmino.
#[local] Existing Instance Block.toyBlockCodec.
#[local] Existing Instance Block.toyDecoder.
Definition toyValidatorCodec : ValidatorCodec := {| MarshalValidator := fun addr _ power => addr ++ uvarint 10 (uwrap64 power) |}.
Definition toyResultCodec : ResultCodec := {| aminoResult := fun code data => uvarint 10 code ++ data |}.
#[local] Existing Instance toyValidatorCodec.
#[local] Existing Instance toyResultCodec.

(** The state after height 7, whose block the example commit is for. *)
Definition exState : State :=
  mkState (str "chain") 7 3 exampleBlock 0 exampleSet exampleSet 1 Block.DefaultConsensusParams 1 [] (str "app").
Definition exHeader : Block.Header :=
  fillFromState exState (Block.mkHeader [] 8 0 0 zeroBlockID 0 None None [] [] [] []).

Lemma exCommit_for : commitFor exState 8 exampleCommit.
Proof.
  unfold commitFor. rewrite decide_False by lia. split_and!; [reflexivity|reflexivity|reflexivity| |vm_compute; reflexivity].
  repeat constructor; (eexists; split; [reflexivity|vm_compute; reflexivity]).
Qed.

Lemma exState_height : heightOK exState.
Proof. unfold heightOK. cbn. unfold MaxInt64. lia. Qed.

Lemma validateBlock_iff_witness :
  validateBlock exState (Some (Block.mkBlock (Some exHeader) (Some (Block.mkData [])) (Some exampleCommit))) = Ret None.
Proof.
  destruct (validateBlock_iff exState exHeader (Some (Block.mkData [])) exampleCommit
    exampleSet_powers (or_introl eq_refl) exState_height) as (r & E & Hr).
  rewrite E. f_equal. apply Hr. split; [|exact exCommit_for]. split_and!; vm_compute; reflexivity.
Defined.

(** A transfer within one bucket gives a valid proposal. *)
Lemma MakeBlock_valid_witness : exists b ps, MakeBlock exState 0 8 [str "aa"] (Some exampleCommit) = Ret (b, Some ps) /\
  validateBlock exState (Some b) = Ret None.
Proof.
  destruct (MakeBlock_valid exState 0 [str "aa"] exampleCommit [(str "61", str "61")]
    ltac:(constructor; [vm_compute; reflexivity|constructor]) ltac:(vm_compute; discriminate)
    exampleSet_powers (or_introl eq_refl) exState_height exCommit_for ltac:(reflexivity)) as (b & (r & Er & Hr) & Hps).
  destruct (Hps ltac:(discriminate) ltac:(vm_compute; discriminate)) as (ps & Eps & _).
  exists b, ps. split; [exact Eps|]. rewrite Er. f_equal. apply Hr. vm_compute. reflexivity.
Defined.

(** A block after which the application raises the power of the first validator. *)
Definition exResponses : ABCIResponses :=
  mkResponses [Some (mkDeliverTx 0 [])] None [mkAbciValidator (str "A") (mkAbciPubKey [] []) 9].

Lemma exResponses_delivered : Forall is_Some (DeliverTx exResponses).
Proof. repeat constructor. by eexists. Qed.

Lemma exNextVals : nextVals exState exResponses <> ∅.
Proof. intros E. apply (f_equal (fun m => m !! str "A")) in E. vm_compute in E. discriminate. Qed.

Lemma updateState_next_witness : exists l st', val_VotingPower <$> asMap l !! str "A" = Some 9 /\ updateState exState exampleBlock (Some exHeader) exResponses = Ret (inr st') /\
  LastBlockHeight st' = 8 /\ Validators st' = IncrementAccum_ref (mkValidatorSet l None 0) 1 /\ LastValidators st' = Validators exState.
Proof.
  destruct (updateState_next exState exampleBlock exHeader exResponses exampleSet_sorted) as (l & Hs & Hm & _ & Hr).
  assert (Hl : l <> []) by (intros ->; apply exNextVals; rewrite <- Hm; reflexivity). specialize (Hr Hl).
  exists l. eexists. split; [rewrite Hm; vm_compute; reflexivity|]. split; [exact Hr|]. split; [reflexivity|]. split; reflexivity.
Defined.

Lemma updated_validators_cannot_vote_witness : exists v, val_Address v = str "A" /\ val_PubKey v = None /\
  forall vote, Vote_Verify (str "chain") (val_PubKey v) vote = Panic NilDeref.
Proof.
  destruct (updateState exState exampleBlock (Some exHeader) exResponses) as [[e|st']|p] eqn:E;
    [exfalso; vm_compute in E; discriminate| |exfalso; vm_compute in E; discriminate].
  pose proof E as E'. vm_compute in E'. injection E' as E'.
  destruct (ValidatorSet.Validators (Validators st')) as [|v l] eqn:El; [rewrite <- E' in El; discriminate El|].
  assert (Hv : val_Address v = str "A") by (rewrite <- E' in El; cbn in El; injection El as <- _; reflexivity).
  exists v. split; [exact Hv|].
  assert (Hc : ChainID st' = str "chain") by (rewrite <- E'; reflexivity). rewrite <- Hc.
  apply (updated_validators_cannot_vote exState exampleBlock exHeader exResponses st' v exampleSet_sorted exResponses_delivered E).
  - rewrite El. left.
  - rewrite Hv. left.
Defined.

Definition exGenesis : GenesisDoc :=
  mkGenesisDoc 5 (str "chain") None [mkGenesisValidator (Some (PubKeyEd25519 (str "B"))) 2 []; mkGenesisValidator (Some (PubKeyEd25519 (str "A"))) 1 []] [].

Lemma genesis_state_witness : exists st, MakeGenesisState 0 exGenesis = Ret (inr st) /\ LastBlockHeight st = 0 /\ valsOK (Validators st).
Proof.
  destruct (genesis_state 0 exGenesis (mkGenesisDoc 5 (str "chain") (Some Block.DefaultConsensusParams) (gd_Validators exGenesis) [])
    [PubKeyEd25519 (str "B"); PubKeyEd25519 (str "A")] eq_refl eq_refl
    ltac:(apply (bool_decide_unpack _); vm_compute; exact I)) as (st & E & _ & Hh & _ & _ & _ & _ & Hok).
  exists st. split; [exact E|]. split; [exact Hh|]. apply Hok; [|vm_compute; discriminate].
  repeat constructor; cbn; lia.
Defined.
End Examples.
End State.
