(* ===== verification/DB.v ===== *)
(** * Key-value databases: libs/db

    The interface of a database and its iterators ([types.go]) is the class
    [DB], and what its documentation promises the class [DBLaws]: a finite map
    from byte strings to byte strings, walked in the order of the keys.  The
    in-memory database ([mem_db.go]) and the database of the keys with a
    prefix in another database ([prefix_db.go]) are instances; the clients of
    a database are proved against the class.

    [nil] is [None].  A database turns a nil key or value into an empty one. *)

From S2P Require Import Prelude.

Definition byteLe (a b : bytes) : bool := match bytes_compare a b with Gt => false | _ => true end.
Definition byteLt (a b : bytes) : bool := match bytes_compare a b with Lt => true | _ => false end.

Module DB.

(** ** util.go *)

(** The loops walk down from index [i - 1]. *)
Fixpoint incrLoop (i : nat) (ret : bytes) : option bytes :=
  match i with
  | O => None
  | S i =>
      match ret !! i with
      | None => None
      | Some b =>
          if byte_Z b <? 255 then Some (<[i := Z_byte (byte_Z b + 1)]> ret)
          else incrLoop i (<[i := Z_byte 0]> ret)
      end
  end.
Definition cpIncr (bz : bytes) : go (option bytes) :=
  if zlen bz =? 0 then Panic (PanicMsg "cpIncr expects non-zero bz length") else Ret (incrLoop (length bz) bz).

Fixpoint decrLoop (i : nat) (ret : bytes) : option bytes :=
  match i with
  | O => None
  | S i =>
      match ret !! i with
      | None => None
      | Some b =>
          if byte_Z b >? 0 then Some (<[i := Z_byte (byte_Z b - 1)]> ret)
          else decrLoop i (<[i := Z_byte 255]> ret)
      end
  end.
Definition cpDecr (bz : bytes) : go (option bytes) :=
  if zlen bz =? 0 then Panic (PanicMsg "cpDecr expects non-zero bz length") else Ret (decrLoop (length bz) bz).

Definition IsKeyInDomain (key : bytes) (start end_ : option bytes) (isReverse : bool) : bool :=
  if negb isReverse then
    if byteLt key (default [] start) then false else
    match end_ with Some e => negb (byteLe e key) | None => true end
  else
    if match start with Some s => byteLt s key | None => false end then false else
    match end_ with Some e => negb (byteLe key e) | None => true end.

(** ** types.go *)

(** A database [D] with iterators [I]. *)
Class DB (D I : Type) := {
  Get : D -> bytes -> option bytes;
  Has : D -> bytes -> bool;
  Set_ : D -> bytes -> option bytes -> D;
  Delete : D -> bytes -> D;
  Iterator : D -> option bytes -> option bytes -> go I;
  ReverseIterator : D -> option bytes -> option bytes -> go I;
  Valid : I -> bool;
  Next : I -> go I;
  Key : I -> go bytes;
  Value : I -> go (option bytes);
  Close : I -> I }.

(** The loop [for ; itr.Valid(); itr.Next()] that reads every entry. *)
Fixpoint readAll {D I} `{DB D I} (fuel : nat) (it : I) : go (option (list (bytes * option bytes))) :=
  if negb (Valid it) then Ret (Some []) else
  match fuel with
  | O => Ret None
  | S fuel =>
      k ← Key it;
      v ← Value it;
      it ← Next it;
      r ← readAll fuel it;
      Ret (option_map (cons (k, v)) r)
  end.

(** Reading [it] to its end gives the entries [l]. *)
Inductive iterates {D I} `{DB D I} : I -> list (bytes * bytes) -> Prop :=
| iter_end it : Valid it = false -> iterates it []
| iter_next it k v it' l : Valid it = true -> Key it = Ret k -> Value it = Ret (Some v) -> Next it = Ret it' -> iterates it' l ->
    iterates it ((k, v) :: l).

(** The entries of a map in the order of their keys. *)
Definition keyLess (a b : bytes * bytes) : bool := byteLt a.1 b.1.
Definition inDomain (start end_ : option bytes) (isReverse : bool) (kv : bytes * bytes) : bool := IsKeyInDomain kv.1 start end_ isReverse.
Definition entries (m : gmap bytes bytes) : list (bytes * bytes) := isort keyLess (map_to_list m).
Definition domainEntries (m : gmap bytes bytes) (start end_ : option bytes) (isReverse : bool) : list (bytes * bytes) :=
  let l := List.filter (inDomain start end_ isReverse) (entries m) in
  if isReverse then rev l else l.
#[global] Arguments domainEntries : simpl never.

(** What a database promises: it holds a map. *)
Class DBLaws (D I : Type) `{DB D I} := {
  contents : D -> gmap bytes bytes;
  db_wf : D -> Prop;
  Get_contents : forall s k, db_wf s -> Get s k = contents s !! k;
  Has_contents : forall s k, db_wf s -> Has s k = bool_decide (is_Some (contents s !! k));
  Set_contents : forall s k v, db_wf s -> db_wf (Set_ s k v) /\ contents (Set_ s k v) = <[k := default [] v]> (contents s);
  Delete_contents : forall s k, db_wf s -> db_wf (Delete s k) /\ contents (Delete s k) = delete k (contents s);
  Iterator_contents : forall s a b, db_wf s -> exists it, Iterator s a b = Ret it /\ iterates it (domainEntries (contents s) a b false);
  Close_invalid : forall it, Valid (Close it) = false }.

(** ** mem_db.go *)

Abbreviation MemDB := (gmap bytes bytes).
Definition NewMemDB : MemDB := ∅.
Definition nonNilBytes (bz : option bytes) : bytes := default [] bz.

(** [for i := 0; i < nkeys/2; i++] swaps [keys[i]] and [keys[nkeys-i-1]]. *)
Definition swapStep (nkeys : nat) (keys : list bytes) (i : nat) : list bytes :=
  match keys !! i, keys !! (nkeys - i - 1)%nat with
  | Some a, Some b => <[(nkeys - i - 1)%nat := a]> (<[i := b]> keys)
  | _, _ => keys
  end.
Definition reverseLoop (keys : list bytes) : list bytes :=
  let nkeys := length keys in foldl (swapStep nkeys) keys (seq 0 (nkeys / 2)).

(** [walk] is the order in which Go walks the keys of the map. *)
Definition sortedKeys (walk : list bytes) (start end_ : option bytes) (reverse : bool) : list bytes :=
  let keys := isort byteLt (List.filter (fun key => IsKeyInDomain key start end_ reverse) walk) in
  if reverse then reverseLoop keys else keys.
Definition getSortedKeys (db : MemDB) := sortedKeys (map_to_list db).*1.

Record memDBIterator := mkMemIter {
  mi_db : option MemDB; mi_cur : Z; mi_keys : list bytes; mi_start : option bytes; mi_end : option bytes }.
Definition newMemDBIterator (db : MemDB) (keys : list bytes) (start end_ : option bytes) : memDBIterator :=
  mkMemIter (Some db) 0 keys start end_.
Definition mi_Valid (itr : memDBIterator) : bool := (0 <=? mi_cur itr) && (mi_cur itr <? zlen (mi_keys itr)).
Definition assertIsValid (itr : memDBIterator) : go unit :=
  if negb (mi_Valid itr) then Panic (PanicMsg "memDBIterator is invalid") else Ret tt.
Definition mi_Next (itr : memDBIterator) : go memDBIterator :=
  _ ← assertIsValid itr;
  Ret (mkMemIter (mi_db itr) (mi_cur itr + 1) (mi_keys itr) (mi_start itr) (mi_end itr)).
Definition mi_Key (itr : memDBIterator) : go bytes :=
  _ ← assertIsValid itr;
  idx (mi_keys itr) (mi_cur itr).
Definition mi_Value (itr : memDBIterator) : go (option bytes) :=
  _ ← assertIsValid itr;
  key ← idx (mi_keys itr) (mi_cur itr);
  db ← deref (mi_db itr);
  Ret (db !! key).
Definition mi_Close (itr : memDBIterator) : memDBIterator := mkMemIter None (mi_cur itr) [] (mi_start itr) (mi_end itr).

Definition mem_Iterator (db : MemDB) (start end_ : option bytes) : memDBIterator :=
  newMemDBIterator db (getSortedKeys db start end_ false) start end_.
Definition mem_ReverseIterator (db : MemDB) (start end_ : option bytes) : memDBIterator :=
  newMemDBIterator db (getSortedKeys db start end_ true) start end_.

#[export] Instance memDB : DB MemDB memDBIterator := {|
  Get := fun db key => db !! key;
  Has := fun db key => bool_decide (is_Some (db !! key));
  Set_ := fun db key value => <[key := nonNilBytes value]> db;
  Delete := fun db key => delete key db;
  Iterator := fun db start end_ => Ret (mem_Iterator db start end_);
  ReverseIterator := fun db start end_ => Ret (mem_ReverseIterator db start end_);
  Valid := mi_Valid; Next := mi_Next; Key := mi_Key; Value := mi_Value; Close := mi_Close |}.

(** ** mem_batch.go *)

Inductive operation := opSet (key : bytes) (value : option bytes) | opDelete (key : bytes).
Definition batch_Set (ops : list operation) (key : bytes) (value : option bytes) := ops ++ [opSet key value].
Definition batch_Delete (ops : list operation) (key : bytes) := ops ++ [opDelete key].
(** The operations without and with sync are the same on a map. *)
Definition batch_write {D I} `{DB D I} (db : D) (ops : list operation) : D :=
  foldl (fun db op => match op with opSet k v => Set_ db k v | opDelete k => Delete db k end) db ops.

(** ** prefix_db.go *)

Definition IteratePrefix {D I} `{DB D I} (db : D) (prefix : bytes) : go I :=
  if zlen prefix =? 0 then Iterator db None None else
  end_ ← cpIncr prefix;
  Iterator db (Some prefix) end_.

Section PrefixDB.
Context {D I : Type} `{DB D I}.

Record prefixDB := mkPrefixDB { pdb_prefix : bytes; pdb_db : D }.
Definition prefixed (pdb : prefixDB) (key : bytes) : bytes := pdb_prefix pdb ++ key.
Definition withDB (pdb : prefixDB) (db : D) : prefixDB := mkPrefixDB (pdb_prefix pdb) db.

(** The source is shared: it is the pointer of the iterator. *)
Record prefixIterator := mkPrefixIter {
  pi_prefix : bytes; pi_start : option bytes; pi_end : option bytes; pi_valid : bool; pi_source : I }.

Definition hasPrefix (b prefix : bytes) : bool := bool_decide (take (length prefix) b = prefix).
Definition atPrefix (source : I) (prefix : bytes) : go bool :=
  if negb (Valid source) then Ret false else
  k ← Key source; Ret (hasPrefix k prefix).
Definition newPrefixIterator (prefix : bytes) (start end_ : option bytes) (source : I) : go prefixIterator :=
  ok ← atPrefix source prefix;
  Ret (mkPrefixIter prefix start end_ ok source).
Definition pi_Valid (itr : prefixIterator) : bool := pi_valid itr && Valid (pi_source itr).
Definition withSource (itr : prefixIterator) (source : I) : prefixIterator :=
  mkPrefixIter (pi_prefix itr) (pi_start itr) (pi_end itr) (pi_valid itr) source.
(** [Next] has a value receiver: setting [valid] is lost, closing the source
    is not. *)
Definition pi_Next (itr : prefixIterator) : go prefixIterator :=
  if negb (pi_valid itr) then Panic (PanicMsg "prefixIterator invalid, cannot call Next()") else
  source ← Next (pi_source itr);
  ok ← atPrefix source (pi_prefix itr);
  Ret (withSource itr (if ok : bool then source else Close source)).
Definition stripPrefix (key prefix : bytes) : go bytes :=
  if zlen key <? zlen prefix then Panic (PanicMsg "should not happen") else
  a ← slice key 0 (zlen prefix);
  if negb (bytes_eqb a prefix) then Panic (PanicMsg "should not happne") else
  slice key (zlen prefix) (zlen key).
Definition pi_Key (itr : prefixIterator) : go bytes :=
  if negb (pi_valid itr) then Panic (PanicMsg "prefixIterator invalid, cannot call Key()") else
  k ← Key (pi_source itr);
  stripPrefix k (pi_prefix itr).
Definition pi_Value (itr : prefixIterator) : go (option bytes) :=
  if negb (pi_valid itr) then Panic (PanicMsg "prefixIterator invalid, cannot call Value()") else
  Value (pi_source itr).
Definition pi_Close (itr : prefixIterator) : prefixIterator := withSource itr (Close (pi_source itr)).

Definition skipOne (itr : I) (skipKey : option bytes) : go I :=
  if Valid itr then
    k ← Key itr;
    if bytes_eqb k (default [] skipKey) then Next itr else Ret itr
  else Ret itr.

Definition pdb_Iterator (pdb : prefixDB) (start end_ : option bytes) : go prefixIterator :=
  let pstart := pdb_prefix pdb ++ default [] start in
  pend ← match end_ with None => cpIncr (pdb_prefix pdb) | Some e => Ret (Some (pdb_prefix pdb ++ e)) end;
  source ← Iterator (pdb_db pdb) (Some pstart) pend;
  newPrefixIterator (pdb_prefix pdb) start end_ source.

Definition pdb_ReverseIterator (pdb : prefixDB) (start end_ : option bytes) : go prefixIterator :=
  pstart ← match start with None => cpIncr (pdb_prefix pdb) | Some s => Ret (Some (pdb_prefix pdb ++ s)) end;
  pend ← match end_ with None => cpDecr (pdb_prefix pdb) | Some e => Ret (Some (pdb_prefix pdb ++ e)) end;
  ritr ← ReverseIterator (pdb_db pdb) pstart pend;
  ritr ← match start with None => k ← cpIncr (pdb_prefix pdb); skipOne ritr k | Some _ => Ret ritr end;
  newPrefixIterator (pdb_prefix pdb) start end_ ritr.

#[export] Instance prefixDB_DB : DB prefixDB prefixIterator := {|
  Get := fun pdb key => Get (pdb_db pdb) (prefixed pdb key);
  Has := fun pdb key => Has (pdb_db pdb) (prefixed pdb key);
  Set_ := fun pdb key value => withDB pdb (Set_ (pdb_db pdb) (prefixed pdb key) value);
  Delete := fun pdb key => withDB pdb (Delete (pdb_db pdb) (prefixed pdb key));
  Iterator := pdb_Iterator;
  ReverseIterator := pdb_ReverseIterator;
  Valid := pi_Valid; Next := pi_Next; Key := pi_Key; Value := pi_Value; Close := pi_Close |}.

(** [prefixBatch]: the operations with prefixed keys on the batch below. *)
Definition prefixOp (prefix : bytes) (op : operation) : operation :=
  match op with opSet k v => opSet (prefix ++ k) v | opDelete k => opDelete (prefix ++ k) end.
End PrefixDB.
Arguments prefixDB : clear implicits.
Arguments prefixIterator : clear implicits.

(** ** The order of byte strings *)

Lemma byteLt_lt a b : byteLt a b = true <-> bytes_lt a b.
Proof. unfold byteLt, bytes_lt. by destruct (bytes_compare a b). Qed.
Lemma byteLe_not_lt a b : byteLe a b = negb (byteLt b a).
Proof. unfold byteLe, byteLt. rewrite (bytes_compare_antisym b a). by destruct (bytes_compare b a). Qed.
Lemma byteLt_trans a b c : byteLt a b = true -> byteLt b c = true -> byteLt a c = true.
Proof. rewrite !byteLt_lt. apply bytes_compare_trans. Qed.
Lemma byteLt_irrefl a : byteLt a a = false.
Proof. unfold byteLt. by rewrite bytes_compare_refl. Qed.
Lemma byteLt_asym a b : byteLt a b = true -> byteLt b a = false.
Proof. unfold byteLt. rewrite (bytes_compare_antisym a b). by destruct (bytes_compare a b). Qed.
Lemma byteLe_antisym a b : byteLt a b = false -> byteLt b a = false -> a = b.
Proof.
  destruct (bytes_lt_total a b) as [E|[E|E]]; [|done|]; apply byteLt_lt in E; intros; congruence.
Qed.
Lemma byteLe_trans a b c : byteLt b a = false -> byteLt c b = false -> byteLt c a = false.
Proof.
  intros Hab Hbc. destruct (byteLt c a) eqn:E; [|done]. destruct (byteLt a b) eqn:E2.
  - by rewrite (byteLt_trans c a b) in Hbc.
  - rewrite (byteLe_antisym a b) in E by done. congruence.
Qed.

Lemma bytes_compare_app p x y : bytes_compare (p ++ x) (p ++ y) = bytes_compare x y.
Proof. induction p as [|b p IH]; [done|]. cbn. by rewrite Z.compare_refl. Qed.
Lemma byteLt_app p x y : byteLt (p ++ x) (p ++ y) = byteLt x y.
Proof. unfold byteLt. by rewrite bytes_compare_app. Qed.
Lemma byteLt_nil x : byteLt x [] = false.
Proof. by destruct x. Qed.
Lemma byteLt_prefix p x : byteLt (p ++ x) p = false.
Proof. rewrite <- (app_nil_r p) at 2. rewrite byteLt_app. apply byteLt_nil. Qed.

(** A key from [p] on that does not start with [p] is after all that do. *)
Lemma after_prefix p k x : byteLt k p = false -> take (length p) k <> p -> byteLt (p ++ x) k = true.
Proof.
  revert k. induction p as [|b p IH]; intros k Hk Hp; [done|]. destruct k as [|c k]; [done|]. unfold byteLt in *. cbn in *.
  rewrite Z.compare_antisym in Hk. destruct (Z.compare_spec (byte_Z b) (byte_Z c)) as [E|E|E]; cbn in *; [|done|done].
  apply byte_Z_inj in E as ->. apply IH; [by destruct (bytes_compare k p)|]. intros Ht. by rewrite Ht in Hp.
Qed.

(** ** Increments *)

Definition allFF (b : bytes) : Prop := Forall (fun x => byte_Z x = 255) b.

(** The increment by recursion from the front. *)
Fixpoint incr (b : bytes) : option bytes :=
  match b with
  | [] => None
  | x :: b' =>
      match incr b' with
      | Some r => Some (x :: r)
      | None => if byte_Z x <? 255 then Some (Z_byte (byte_Z x + 1) :: replicate (length b') (Z_byte 0)) else None
      end
  end.

Lemma incr_snoc a x : incr (a ++ [x]) =
  if byte_Z x <? 255 then Some (a ++ [Z_byte (byte_Z x + 1)]) else option_map (fun r => r ++ [Z_byte 0]) (incr a).
Proof.
  induction a as [|y a IH]; cbn; [by destruct (byte_Z x <? 255)|]. rewrite IH. destruct (byte_Z x <? 255); [done|].
  destruct (incr a); cbn; [done|]. destruct (byte_Z y <? 255); [|done]. cbn. f_equal. f_equal.
  rewrite length_app, Nat.add_comm. cbn. apply replicate_cons_app.
Qed.

Lemma insert_middle {A} (a l : list A) x y : <[length a := y]> (a ++ x :: l) = a ++ y :: l.
Proof. rewrite insert_app_r_alt by done. by rewrite Nat.sub_diag. Qed.

Lemma incrLoop_spec a n : incrLoop (length a) (a ++ replicate n (Z_byte 0)) = option_map (fun r => r ++ replicate n (Z_byte 0)) (incr a).
Proof.
  revert n. induction a as [|x a IH] using rev_ind; intros n; [done|]. rewrite length_app, Nat.add_comm, incr_snoc. cbn [length plus incrLoop].
  rewrite <- app_assoc. cbn [app]. rewrite list_lookup_middle by done. destruct (byte_Z x <? 255).
  - cbn. rewrite insert_middle. by rewrite <- app_assoc.
  - rewrite insert_middle. change (Z_byte 0 :: replicate n (Z_byte 0)) with (replicate (S n) (Z_byte 0)). rewrite IH.
    destruct (incr a); [|done]. cbn. by rewrite <- app_assoc.
Qed.

Lemma cpIncr_spec p : p <> [] -> cpIncr p = Ret (incr p).
Proof.
  intros Hp. unfold cpIncr. replace (zlen p =? 0) with false by (destruct p; [done|unfold zlen; cbn [length]; symmetry; apply Z.eqb_neq; lia]).
  f_equal. pose proof (incrLoop_spec p 0) as E. cbn in E. rewrite app_nil_r in E. rewrite E. destruct (incr p); cbn; [by rewrite app_nil_r|done].
Qed.

Lemma byte_succ x : byte_Z x < 255 -> byte_Z (Z_byte (byte_Z x + 1)) = byte_Z x + 1.
Proof. intros Hx. rewrite byte_Z_of_byte. pose proof (byte_Z_range x). rewrite Z.mod_small; lia. Qed.

(** The increment is after every key with the prefix. *)
Lemma incr_after p e x : incr p = Some e -> byteLt (p ++ x) e = true.
Proof.
  revert e. induction p as [|b p IH]; intros e; [done|]. cbn. destruct (incr p) as [r|].
  - intros [= <-]. unfold byteLt. cbn. rewrite Z.compare_refl. apply (IH r eq_refl).
  - destruct (byte_Z b <? 255) eqn:Eb; [|done]. apply Z.ltb_lt in Eb. intros [= <-]. unfold byteLt. cbn.
    rewrite byte_succ by done. by rewrite (proj2 (Z.compare_lt_iff _ _)) by lia.
Qed.

(** ** Maps and their entries in order *)

Definition kvLt (a b : bytes * bytes) : Prop := byteLt a.1 b.1 = true.
#[global] Instance kvLt_trans : Transitive kvLt.
Proof. intros a b c. apply byteLt_trans. Qed.
#[global] Instance kvLt_antisym : AntiSymm (=) kvLt.
Proof. intros a b Ha Hb. unfold kvLt in *. rewrite (byteLt_asym _ _ Ha) in Hb. done. Qed.

Lemma sorted_NoDup l : StronglySorted kvLt l -> NoDup l.
Proof.
  induction 1 as [|x l _ IH Hf]; constructor; [|done]. intros Hx. rewrite Forall_forall in Hf.
  specialize (Hf x Hx). unfold kvLt in Hf. by rewrite byteLt_irrefl in Hf.
Qed.

(** A sorted list is determined by its elements. *)
Lemma sorted_eq l l' : StronglySorted kvLt l -> StronglySorted kvLt l' -> (forall x, x ∈ l <-> x ∈ l') -> l = l'.
Proof.
  intros Hl Hl' Hx. apply (StronglySorted_unique kvLt); [done|done|]. apply NoDup_Permutation; [by apply sorted_NoDup..|done].
Qed.

Lemma sorted_filter f l : StronglySorted kvLt l -> StronglySorted kvLt (List.filter f l).
Proof.
  induction 1 as [|x l _ IH Hf]; cbn; [constructor|]. destruct (f x); [|done]. constructor; [done|].
  rewrite Forall_forall in *. intros y Hy. apply Hf. apply list_elem_of_In, filter_In in Hy as [Hy _]. by apply list_elem_of_In.
Qed.

Lemma elem_filter (f : bytes * bytes -> bool) l x : x ∈ List.filter f l <-> x ∈ l /\ f x = true.
Proof. by rewrite !list_elem_of_In, filter_In. Qed.

Lemma sortedBy_strict {A} (less : A -> A -> bool) l : (forall x y, less x y = false -> less y x = false -> x = y) -> NoDup l ->
  sortedBy less l -> StronglySorted (fun a b => less a b = true) l.
Proof.
  intros Ha Hn Hs. induction Hs as [|x l Hs IH Hf]; [constructor|]. apply NoDup_cons in Hn as [Hx Hn]. constructor; [by apply IH|].
  rewrite Forall_forall in *. intros y Hy. specialize (Hf y Hy). cbn in Hf. destruct (less x y) eqn:E; [done|].
  by rewrite (Ha x y E Hf) in Hx.
Qed.

Lemma keyLess_strict l : NoDup l.*1 -> sortedBy keyLess l -> StronglySorted kvLt l.
Proof.
  intros Hn Hs. induction Hs as [|x l Hs IH Hf]; [constructor|]. apply NoDup_cons in Hn as [Hx Hn]. constructor; [by apply IH|].
  rewrite Forall_forall in *. intros y Hy. specialize (Hf y Hy). unfold kvLt. destruct (byteLt x.1 y.1) eqn:E; [done|].
  destruct Hx. rewrite (byteLe_antisym x.1 y.1 E Hf). apply list_elem_of_fmap. by exists y.
Qed.

Lemma entries_spec m : StronglySorted kvLt (entries m) /\ forall k v, (k, v) ∈ entries m <-> m !! k = Some v.
Proof.
  unfold entries. pose proof (isort_perm keyLess (map_to_list m)) as Hp. split.
  - apply keyLess_strict; [rewrite Hp; apply NoDup_fst_map_to_list|]. apply isort_sorted; [intros; by apply byteLt_asym|].
    intros x y z. apply byteLe_trans.
  - intros k v. by rewrite Hp, elem_of_map_to_list.
Qed.

Lemma domain_spec m a b : StronglySorted kvLt (domainEntries m a b false) /\
  forall k v, (k, v) ∈ domainEntries m a b false <-> m !! k = Some v /\ IsKeyInDomain k a b false = true.
Proof.
  destruct (entries_spec m) as [Hs He]. split; [by apply sorted_filter|]. intros k v. unfold domainEntries. by rewrite elem_filter, He.
Qed.

(** ** Reading to the end *)

(** As many steps as there are entries are enough. *)
Lemma readAll_spec {D I} `{DB D I} (it : I) l fuel : iterates it l -> (length l <= fuel)%nat ->
  readAll fuel it = Ret (Some ((fun kv => (kv.1, Some kv.2)) <$> l)).
Proof.
  intros Hi. revert fuel. induction Hi as [it Hv|it k v it' l Hv Hk Hva Hn _ IH]; intros fuel Hf.
  - destruct fuel; cbn; by rewrite Hv.
  - destruct fuel as [|fuel]; [cbn in Hf; lia|]. cbn in *. rewrite Hv. cbn. rewrite Hk. cbn. rewrite Hva. cbn. rewrite Hn. cbn.
    rewrite IH by lia. done.
Qed.

(** ** The in-memory database *)

Lemma memIter_iterates db keys a b i : Forall (fun k => is_Some (db !! k)) keys -> (i <= length keys)%nat ->
  iterates (mkMemIter (Some db) (Z.of_nat i) keys a b) ((fun k => (k, default [] (db !! k))) <$> drop i keys).
Proof.
  intros Hk. remember (length keys - i)%nat as n eqn:En. revert i En. induction n as [|n IH]; intros i En Hi.
  - rewrite drop_ge by lia. constructor. cbn. unfold mi_Valid. cbn. apply andb_false_iff. right. apply Z.ltb_ge. unfold zlen. lia.
  - destruct (lookup_lt_is_Some_2 keys i) as [k Ek]; [lia|]. rewrite (drop_S _ _ _ Ek). cbn [fmap list_fmap].
    destruct (proj1 (Forall_forall _ _) Hk k) as [v Ev]; [by eapply list_elem_of_lookup_2|].
    assert (Hv : mi_Valid (mkMemIter (Some db) (Z.of_nat i) keys a b) = true).
    { unfold mi_Valid. cbn. apply andb_true_iff. rewrite Z.leb_le, Z.ltb_lt. unfold zlen. lia. }
    assert (Hx : idx keys (Z.of_nat i) = Ret k) by (apply idx_lookup; [lia|by rewrite Nat2Z.id]).
    apply (iter_next _ k _ (mkMemIter (Some db) (Z.of_nat (S i)) keys a b)); cbn.
    + done.
    + unfold mi_Key, assertIsValid. rewrite Hv. exact Hx.
    + unfold mi_Value, assertIsValid. rewrite Hv. cbn. rewrite Hx. cbn. by rewrite Ev.
    + unfold mi_Next, assertIsValid. rewrite Hv. cbn. do 2 f_equal. lia.
    + apply IH; lia.
Qed.

Lemma elem_filterB {A} (f : A -> bool) l x : x ∈ List.filter f l <-> x ∈ l /\ f x = true.
Proof. by rewrite !list_elem_of_In, filter_In. Qed.

(** The sorted keys do not depend on the order of the walk. *)
Lemma sortedKeys_forward walk a b : NoDup walk -> let ks := sortedKeys walk a b false in
  StronglySorted (fun x y => byteLt x y = true) ks /\ forall k, k ∈ ks <-> k ∈ walk /\ IsKeyInDomain k a b false = true.
Proof.
  intros Hn ks. unfold ks, sortedKeys. set (l := List.filter _ walk). pose proof (isort_perm byteLt l) as Hp. split.
  - apply sortedBy_strict; [apply byteLe_antisym| |].
    + rewrite Hp. unfold l. rewrite NoDup_ListNoDup in *. by apply List.NoDup_filter.
    + apply isort_sorted; [apply byteLt_asym|apply byteLe_trans].
  - intros k. rewrite Hp. unfold l. by rewrite (elem_filterB (fun key => IsKeyInDomain key a b false)).
Qed.

Lemma sorted_keys_entries (db : MemDB) ks : StronglySorted (fun x y => byteLt x y = true) ks ->
  StronglySorted kvLt ((fun k => (k, default [] (db !! k))) <$> ks).
Proof.
  induction 1 as [|k ks _ IH Hf]; cbn; constructor; [done|]. apply Forall_forall. intros y (k' & -> & Hk)%list_elem_of_fmap.
  exact (proj1 (Forall_forall _ _) Hf k' Hk).
Qed.

(** The keys with their values are the entries of the domain. *)
Lemma mem_domain (db : MemDB) a b : Forall (fun k => is_Some (db !! k)) (getSortedKeys db a b false) /\
  (fun k => (k, default [] (db !! k))) <$> getSortedKeys db a b false = domainEntries db a b false.
Proof.
  assert (Hw : forall k, k ∈ (map_to_list db).*1 <-> is_Some (db !! k)).
  { intros k. rewrite list_elem_of_fmap. split; [intros ([k' v] & -> & Hk); apply elem_of_map_to_list in Hk; by exists v|].
    intros [v Hv]. exists (k, v). by rewrite elem_of_map_to_list. }
  destruct (sortedKeys_forward (map_to_list db).*1 a b (NoDup_fst_map_to_list db)) as [Hs Hk]. fold (getSortedKeys db a b false) in *.
  split; [apply Forall_forall; intros k Hin; apply Hw; by apply Hk|]. destruct (domain_spec db a b) as [Hs' Hd].
  apply sorted_eq; [by apply sorted_keys_entries|done|]. intros [k v]. rewrite Hd, list_elem_of_fmap. split.
  - intros (k' & [= -> ->] & Hin). apply Hk in Hin as [Hin Hdom]. apply Hw in Hin as [v Ev]. by rewrite Ev.
  - intros [Hm Hdom]. exists k. rewrite Hm. split; [done|]. apply Hk. split; [|done]. apply Hw. by exists v.
Qed.

#[export] Instance memDB_laws : DBLaws MemDB memDBIterator.
Proof.
  refine {| contents := fun db => db; db_wf := fun _ => True |}; try done.
  - intros db a b _. eexists. split; [done|]. destruct (mem_domain db a b) as [Hk <-].
    exact (memIter_iterates db _ a b 0 Hk ltac:(lia)).
  - intros it. cbn. unfold mi_Valid. cbn. apply andb_false_iff. destruct (Z.leb_spec 0 (mi_cur it)); [right|by left]. by apply Z.ltb_ge.
Defined.

(** The swaps reverse the keys. *)
Lemma swapStep_lookup n keys i j : length keys = n -> (i < n / 2)%nat -> (j < n)%nat ->
  swapStep n keys i !! j = if decide (j = i \/ j = n - i - 1)%nat then keys !! (n - j - 1)%nat else keys !! j.
Proof.
  intros Hl Hi Hj. assert (n / 2 * 2 <= n)%nat by (pose proof (Nat.div_mod_eq n 2); lia).
  unfold swapStep. destruct (lookup_lt_is_Some_2 keys i) as [x Ex]; [lia|]. destruct (lookup_lt_is_Some_2 keys (n - i - 1)) as [y Ey]; [lia|].
  rewrite Ex, Ey. destruct (decide (j = n - i - 1)%nat) as [->|Hn].
  - rewrite list_lookup_insert_eq by (rewrite length_insert; lia). rewrite decide_True by (by right).
    replace (n - (n - i - 1) - 1)%nat with i by lia. done.
  - rewrite list_lookup_insert_ne by done. destruct (decide (j = i)) as [->|Hji].
    + rewrite list_lookup_insert_eq by lia. rewrite decide_True by (by left). done.
    + rewrite list_lookup_insert_ne by done. rewrite decide_False by lia. done.
Qed.

Lemma length_swapStep n keys i : length (swapStep n keys i) = length keys.
Proof. unfold swapStep. repeat case_match; rewrite ?length_insert; done. Qed.

Lemma swaps_lookup keys m j : let n := length keys in (m <= n / 2)%nat -> (j < n)%nat ->
  length (foldl (swapStep n) keys (seq 0 m)) = n /\
  foldl (swapStep n) keys (seq 0 m) !! j = if decide (j < m \/ n - m <= j)%nat then keys !! (n - j - 1)%nat else keys !! j.
Proof.
  intros n. assert (n / 2 * 2 <= n)%nat by (pose proof (Nat.div_mod_eq n 2); lia). revert j.
  induction m as [|m IH]; intros j Hm Hj; [split; [done|by rewrite decide_False by lia]|].
  rewrite seq_S, foldl_app. cbn [foldl plus]. set (l := foldl _ keys (seq 0 m)) in *.
  assert (Hl : length l = n) by (apply (IH j); lia). split; [by rewrite length_swapStep|].
  rewrite swapStep_lookup by lia. destruct (decide (j = m \/ j = n - m - 1)%nat) as [Hd|Hd].
  - rewrite (proj2 (IH (n - j - 1)%nat ltac:(lia) ltac:(lia))). rewrite decide_False by lia. by rewrite decide_True by lia.
  - rewrite (proj2 (IH j ltac:(lia) Hj)). destruct (decide (j < m \/ n - m <= j)%nat); [rewrite decide_True by lia|rewrite decide_False by lia]; done.
Qed.

Lemma reverseLoop_spec keys : reverseLoop keys = rev keys.
Proof.
  unfold reverseLoop. remember (length keys) as n eqn:Hn. rewrite rev_alt. change (rev_append keys []) with (reverse keys).
  apply list_eq. intros j. destruct (decide (j < n)%nat) as [Hj|Hj].
  - destruct (swaps_lookup keys (n / 2) j ltac:(by subst) ltac:(by subst)) as [_ E]. rewrite <- Hn in E. rewrite E, reverse_lookup by lia.
    rewrite <- Hn. replace (n - S j)%nat with (n - j - 1)%nat by lia. case_decide as Hd; [done|]. f_equal.
    pose proof (Nat.div_mod_eq n 2). pose proof (Nat.mod_upper_bound n 2 ltac:(lia)). lia.
  - destruct (decide (n = 0)%nat) as [E|E]; [by destruct keys; subst|].
    destruct (swaps_lookup keys (n / 2) 0 ltac:(by subst) ltac:(lia)) as [Hl _]. rewrite <- Hn in Hl.
    rewrite !lookup_ge_None_2; [done|rewrite length_reverse; lia|lia].
Qed.

(** Iterating backwards walks the same entries in the opposite order. *)
Lemma mem_reverse (db : MemDB) a b : exists it, ReverseIterator db a b = Ret it /\ iterates it (domainEntries db a b true).
Proof.
  eexists. split; [done|]. set (ks := getSortedKeys db a b true).
  assert (Hks : ks = rev (isort byteLt (List.filter (fun key => IsKeyInDomain key a b true) (map_to_list db).*1))) by apply reverseLoop_spec.
  set (l := isort byteLt _) in Hks. pose proof (isort_perm byteLt (List.filter (fun key => IsKeyInDomain key a b true) (map_to_list db).*1)) as Hp. fold l in Hp.
  assert (Hk : forall k, k ∈ l <-> is_Some (db !! k) /\ IsKeyInDomain k a b true = true).
  { intros k. rewrite Hp. rewrite (elem_filterB (fun key => IsKeyInDomain key a b true)). rewrite list_elem_of_fmap. split.
    - intros [([k' v] & -> & Hin) Hd]. apply elem_of_map_to_list in Hin. split; [by exists v|done].
    - intros [[v Hv] Hd]. split; [|done]. exists (k, v). by rewrite elem_of_map_to_list. }
  assert (Hl : (fun k => (k, default [] (db !! k))) <$> l = List.filter (inDomain a b true) (entries db)).
  { destruct (entries_spec db) as [Hs He]. apply sorted_eq.
    - apply sorted_keys_entries, sortedBy_strict; [apply byteLe_antisym| |apply isort_sorted; [apply byteLt_asym|apply byteLe_trans]].
      rewrite Hp. pose proof (NoDup_fst_map_to_list db) as Hn. rewrite NoDup_ListNoDup in *. by apply List.NoDup_filter.
    - by apply sorted_filter.
    - intros [k v]. rewrite elem_filter, He, list_elem_of_fmap. split.
      + intros (k' & [= -> ->] & Hin). apply Hk in Hin as [[v Ev] Hd]. by rewrite Ev.
      + intros [Hm Hd]. exists k. rewrite Hm. split; [done|]. apply Hk. split; [by exists v|done]. }
  unfold domainEntries. rewrite <- Hl. rewrite <- map_rev. fold (fmap (M:=list) (fun k => (k, default [] (db !! k))) (rev l)). rewrite <- Hks.
  apply (memIter_iterates db ks a b 0); [|lia]. apply Forall_forall. intros k Hin. rewrite Hks in Hin.
  apply list_elem_of_In, in_rev, list_elem_of_In in Hin. by apply Hk.
Qed.

(** ** The database of a prefix *)

Lemma hasPrefix_spec k p : hasPrefix k p = true <-> exists x, k = p ++ x.
Proof.
  unfold hasPrefix. rewrite bool_decide_eq_true. split.
  - intros E. exists (drop (length p) k). by rewrite <- E at 1; rewrite take_drop.
  - intros [x ->]. by rewrite take_app_length.
Qed.

Lemma to_nat_zlen {A} (l : list A) : Z.to_nat (zlen l) = length l.
Proof. apply Nat2Z.id. Qed.

Lemma stripPrefix_spec p x : stripPrefix (p ++ x) p = Ret x.
Proof.
  pose proof (zlen_nonneg x). pose proof (zlen_nonneg p). unfold stripPrefix. rewrite (proj2 (Z.ltb_ge _ _)) by (rewrite zlen_app; lia).
  rewrite (slice_ret (p ++ x) 0 (zlen p)) by (rewrite ?zlen_app; lia). change (Z.to_nat 0) with O. rewrite Z.sub_0_r, to_nat_zlen, skipn_0, take_app_length. cbn. rewrite bytes_eqb_refl. cbn.
  rewrite slice_ret by (rewrite ?zlen_app; lia). rewrite to_nat_zlen, drop_app_length, take_ge; [done|]. rewrite zlen_app. unfold zlen. lia.
Qed.

(** The leading entries that have the prefix, without it. *)
Fixpoint strippedRun (p : bytes) (l : list (bytes * bytes)) : list (bytes * bytes) :=
  match l with
  | [] => []
  | (k, v) :: l => if hasPrefix k p then (drop (length p) k, v) :: strippedRun p l else []
  end.

(** The entries of [m] with the prefix, without it. *)
Definition stripEntry (p : bytes) (kv : bytes * bytes) : option (bytes * bytes) :=
  if hasPrefix kv.1 p then Some (drop (length p) kv.1, kv.2) else None.
Definition subMap (p : bytes) (m : gmap bytes bytes) : gmap bytes bytes := list_to_map (omap (stripEntry p) (map_to_list m)).

Lemma stripEntry_spec p kv k v : stripEntry p kv = Some (k, v) <-> kv = (p ++ k, v).
Proof.
  unfold stripEntry. destruct kv as [k' v']. cbn. destruct (hasPrefix k' p) eqn:E.
  - apply hasPrefix_spec in E as [x ->]. rewrite drop_app_length. split; [by intros [= -> ->]|]. intros [= Hx ->]. by apply app_inv_head in Hx as ->.
  - split; [done|]. intros [= -> ->]. assert (hasPrefix (p ++ k) p = true) by (apply hasPrefix_spec; eauto). congruence.
Qed.

Lemma elem_stripped p m k v : (k, v) ∈ omap (stripEntry p) (map_to_list m) <-> m !! (p ++ k) = Some v.
Proof.
  rewrite list_elem_of_omap. split.
  - intros (kv & Hin & E). apply stripEntry_spec in E as ->. by apply elem_of_map_to_list.
  - intros E. exists (p ++ k, v). split; [by apply elem_of_map_to_list|by apply stripEntry_spec].
Qed.

Lemma NoDup_stripped p l : NoDup l.*1 -> NoDup (omap (stripEntry p) l).*1.
Proof.
  induction l as [|kv l IH]; cbn; [constructor|]. intros [Hk Hn]%NoDup_cons. destruct (stripEntry p kv) as [[k v]|] eqn:E; [|by apply IH].
  cbn. constructor; [|by apply IH]. intros ([k' v'] & Ek & (kv' & Hin & E')%list_elem_of_omap)%list_elem_of_fmap. cbn in Ek. subst k'.
  apply stripEntry_spec in E, E'. subst kv kv'. apply Hk. apply list_elem_of_fmap. by exists (p ++ k, v').
Qed.

Lemma subMap_lookup p m k : subMap p m !! k = m !! (p ++ k).
Proof.
  apply option_eq. intros v. unfold subMap. rewrite <- elem_of_list_to_map by (apply NoDup_stripped, NoDup_fst_map_to_list). apply elem_stripped.
Qed.

Lemma subMap_insert p m k v : subMap p (<[p ++ k := v]> m) = <[k := v]> (subMap p m).
Proof.
  apply map_eq. intros x. rewrite subMap_lookup. destruct (decide (x = k)) as [->|Hx]; [by rewrite !lookup_insert_eq|].
  rewrite !lookup_insert_ne by (done || by intros ?%app_inv_head). by rewrite subMap_lookup.
Qed.

Lemma subMap_delete p m k : subMap p (delete (p ++ k) m) = delete k (subMap p m).
Proof.
  apply map_eq. intros x. rewrite subMap_lookup. destruct (decide (x = k)) as [->|Hx]; [by rewrite !lookup_delete_eq|].
  rewrite !lookup_delete_ne by (done || by intros ?%app_inv_head). by rewrite subMap_lookup.
Qed.

(** A run that is sorted from [p] on has its prefixed entries in front. *)
Lemma strippedRun_spec p l : StronglySorted kvLt l -> Forall (fun kv => byteLt kv.1 p = false) l ->
  StronglySorted kvLt (strippedRun p l) /\ forall k v, (k, v) ∈ strippedRun p l <-> (p ++ k, v) ∈ l.
Proof.
  induction 1 as [|[k0 v0] l Hs IH Hf]; intros Hp; cbn; [split; [constructor|]; intros k v; by rewrite !elem_of_nil|].
  apply Forall_cons in Hp as [Hp0 Hp]. destruct (IH Hp) as [IHs IHe]. cbn in Hp0. rewrite Forall_forall in Hf. destruct (hasPrefix k0 p) eqn:E.
  - apply hasPrefix_spec in E as [x ->]. rewrite drop_app_length. split.
    + constructor; [done|]. rewrite Forall_forall. intros [k v] Hk. apply IHe, Hf in Hk. unfold kvLt in *. cbn in *. by rewrite byteLt_app in Hk.
    + intros k v. rewrite !elem_of_cons, IHe. split; (intros [E|?]; [left|by right]).
      * by injection E as -> ->.
      * injection E as Ek ->. by apply app_inv_head in Ek as ->.
  - split; [constructor|]. intros k v. rewrite elem_of_nil, elem_of_cons. split; [done|].
    assert (Hno : take (length p) k0 <> p) by (intros Ht; unfold hasPrefix in E; by rewrite Ht, bool_decide_eq_true_2 in E).
    intros [[= Hk _]|Hin].
    + apply Hno. rewrite <- Hk. by rewrite take_app_length.
    + apply Hf in Hin. unfold kvLt in Hin. cbn in Hin. pose proof (after_prefix p k0 k Hp0 Hno) as Ha. by rewrite (byteLt_asym _ _ Ha) in Hin.
Qed.

Section PrefixLaws.
Context {D I : Type} `{Hlaws : DBLaws D I}.

(** The iterator of a prefix reads the leading run of its source. *)
Lemma prefixIter_iterates p a b (source : I) l : iterates source l ->
  iterates (mkPrefixIter p a b (match l with [] => false | kv :: _ => hasPrefix kv.1 p end) source) (strippedRun p l) /\
  atPrefix source p = Ret (match l with [] => false | kv :: _ => hasPrefix kv.1 p end).
Proof.
  induction 1 as [it Hv|it k v it' l Hv Hk Hva Hn _ [IH IHp]]; unfold atPrefix; rewrite Hv; cbn.
  - split; [by constructor|done].
  - rewrite Hk. split; [|done]. destruct (hasPrefix k p) eqn:E; [|by constructor].
    apply hasPrefix_spec in E as [x ->]. rewrite drop_app_length. eapply iter_next; cbn.
    + unfold pi_Valid. cbn. exact Hv.
    + unfold pi_Key. cbn. rewrite Hk. cbn. apply stripPrefix_spec.
    + unfold pi_Value. cbn. exact Hva.
    + unfold pi_Next. cbn. rewrite Hn. cbn. rewrite IHp. reflexivity.
    + unfold withSource. cbn. destruct l as [|[k' v'] l]; cbn in *.
      * constructor. cbn. unfold pi_Valid. cbn. apply Close_invalid.
      * destruct (hasPrefix k' p) eqn:E'; [done|]. constructor. cbn. unfold pi_Valid. cbn. apply Close_invalid.
Qed.

Lemma prefix_domain p start end_ pend k : p <> [] ->
  match end_ with None => cpIncr p | Some e => Ret (Some (p ++ e)) end = Ret pend ->
  IsKeyInDomain (p ++ k) (Some (p ++ default [] start)) pend false = IsKeyInDomain k start end_ false.
Proof.
  intros Hp E. unfold IsKeyInDomain. cbn. rewrite byteLt_app. destruct (byteLt k (default [] start)); [done|].
  destruct end_ as [e|]; [injection E as <-; by rewrite !byteLe_not_lt, byteLt_app|].
  rewrite cpIncr_spec in E by done. injection E as <-. destruct (incr p) as [e|] eqn:Ei; [|done].
  rewrite byteLe_not_lt. by rewrite (incr_after p e k Ei).
Qed.

#[export] Instance prefixDB_laws : DBLaws (prefixDB D) (prefixIterator I).
Proof.
  refine {| contents := fun pdb => subMap (pdb_prefix pdb) (contents (pdb_db pdb));
            db_wf := fun pdb => pdb_prefix pdb <> [] /\ db_wf (pdb_db pdb) |}.
  - intros s k [_ Hw]. cbn. by rewrite subMap_lookup, Get_contents.
  - intros s k [_ Hw]. cbn. by rewrite subMap_lookup, Has_contents.
  - intros s k v [Hp Hw]. cbn. destruct (Set_contents (pdb_db s) (prefixed s k) v Hw) as [Hw' ->]. split; [by split|]. apply subMap_insert.
  - intros s k [Hp Hw]. cbn. destruct (Delete_contents (pdb_db s) (prefixed s k) Hw) as [Hw' ->]. split; [by split|]. apply subMap_delete.
  - intros s a b [Hp Hw]. cbn. unfold pdb_Iterator. set (p := pdb_prefix s) in *.
    destruct (match b with None => cpIncr p | Some e => Ret (Some (p ++ e)) end) as [pend|] eqn:Ee;
      [|destruct b; [done|by rewrite cpIncr_spec in Ee]].
    cbn. destruct (Iterator_contents (pdb_db s) (Some (p ++ default [] a)) pend Hw) as (src & -> & Hi). cbn.
    set (l := domainEntries _ _ _ _) in Hi. destruct (domain_spec (contents (pdb_db s)) (Some (p ++ default [] a)) pend) as [Hs He]. fold l in Hs, He.
    destruct (prefixIter_iterates p a b src l Hi) as [Hit Hat]. unfold newPrefixIterator. rewrite Hat. cbn. eexists. split; [done|].
    assert (Hge : Forall (fun kv => byteLt kv.1 p = false) l).
    { apply Forall_forall. intros [k v] Hk. apply He in Hk as [_ Hd]. unfold IsKeyInDomain in Hd. cbn in *.
      destruct (byteLt k (p ++ default [] a)) eqn:El; [done|]. eapply byteLe_trans; [apply (byteLt_prefix p (default [] a))|exact El]. }
    destruct (strippedRun_spec p l Hs Hge) as [Hrs Hre]. destruct (domain_spec (subMap p (contents (pdb_db s))) a b) as [Hs' He'].
    rewrite (sorted_eq (domainEntries _ a b false) (strippedRun p l)); [exact Hit|done|done|]. intros [k v].
    rewrite He', Hre, He, subMap_lookup, (prefix_domain p a b pend k Hp Ee). done.
  - intros it. cbn. unfold pi_Valid. cbn. rewrite Close_invalid. apply andb_false_r.
Defined.
End PrefixLaws.

(** ** Iterating over a prefix *)

Lemma incr_tight a b k : byte_Z b < 255 -> byteLt k (a ++ [b]) = false -> byteLt k (a ++ [Z_byte (byte_Z b + 1)]) = true ->
  hasPrefix k (a ++ [b]) = true.
Proof.
  intros Hb. revert k. induction a as [|x a IH]; intros [|c k]; try done; unfold byteLt in *; cbn.
  - rewrite byte_succ by done. rewrite Z.compare_antisym. intros H1 H2. apply hasPrefix_spec.
    destruct (Z.compare_spec (byte_Z b) (byte_Z c)) as [E|E|E]; cbn in *; [|destruct (Z.compare_spec (byte_Z c) (byte_Z b + 1)); [|lia|done]; by destruct k|done].
    apply byte_Z_inj in E as ->. by exists k.
  - destruct (Z.compare_spec (byte_Z c) (byte_Z x)) as [E|E|E]; [|done|done]. apply byte_Z_inj in E as ->. intros H1 H2.
    destruct (proj1 (hasPrefix_spec _ _) (IH k H1 H2)) as [y ->]. apply hasPrefix_spec. by exists y.
Qed.

Lemma allFF_incr p : allFF p -> incr p = None.
Proof. induction 1 as [|x p Hx _ IH]; cbn; [done|]. rewrite IH. by rewrite Hx. Qed.

Lemma allFF_prefix p k : allFF p -> byteLt k p = false -> hasPrefix k p = true.
Proof.
  intros Hp. revert k. induction Hp as [|x p Hx _ IH]; intros k Hk; [apply hasPrefix_spec; by exists k|]. destruct k as [|c k]; [done|].
  unfold byteLt in Hk. cbn in Hk. pose proof (byte_Z_range c). destruct (Z.compare_spec (byte_Z c) (byte_Z x)) as [E|E|E]; [|done|lia].
  apply byte_Z_inj in E as ->. destruct (proj1 (hasPrefix_spec k p) (IH k Hk)) as [y ->]. apply hasPrefix_spec. by exists y.
Qed.

(** The prefixes whose increment is the first key after those with the prefix. *)
Definition tightPrefix (p : bytes) : Prop := allFF p \/ exists a b, p = a ++ [b] /\ byte_Z b < 255.

Lemma domain_prefix p e k : tightPrefix p -> incr p = e -> IsKeyInDomain k (Some p) e false = hasPrefix k p.
Proof.
  intros Ht <-. unfold IsKeyInDomain. cbn. destruct (hasPrefix k p) eqn:Eh.
  - apply hasPrefix_spec in Eh as [x ->]. rewrite byteLt_prefix. destruct (incr p) as [e|] eqn:Ei; [|done]. by rewrite byteLe_not_lt, (incr_after p e x Ei).
  - destruct (byteLt k p) eqn:El; [done|]. destruct Ht as [Hf|(a & b & -> & Hb)].
    + by rewrite (allFF_prefix p k Hf El) in Eh.
    + rewrite incr_snoc, (proj2 (Z.ltb_lt _ _)) by done. rewrite byteLe_not_lt. destruct (byteLt k (a ++ [Z_byte (byte_Z b + 1)])) eqn:E2; [|done].
      by rewrite (incr_tight a b k Hb El E2) in Eh.
Qed.

(** ** The theorems *)

(** Iterating over the in-memory database ends and is complete.  Both
    iterators, read in a loop of at most as many steps as there are keys,
    give exactly the entries whose keys are in the domain, in increasing and
    in decreasing order of the keys. *)
Theorem iterators_terminate (db : MemDB) start end_ :
  (exists it, Iterator db start end_ = Ret it /\
     readAll (size db) it = Ret (Some ((fun kv => (kv.1, Some kv.2)) <$> domainEntries db start end_ false))) /\
  (exists it, ReverseIterator db start end_ = Ret it /\
     readAll (size db) it = Ret (Some ((fun kv => (kv.1, Some kv.2)) <$> domainEntries db start end_ true))).
Proof.
  assert (Hl : forall r, (length (domainEntries db start end_ r) <= size db)%nat).
  { intros r. assert (length (entries db) = size db) as <- by (unfold entries; by rewrite isort_perm, length_map_to_list).
    unfold domainEntries. destruct r; rewrite ?length_rev; apply List.filter_length_le. }
  split.
  - destruct (Iterator_contents db start end_ ltac:(exact Logic.I)) as (it & E & Hi). exists it. split; [done|]. by apply readAll_spec.
  - destruct (mem_reverse db start end_) as (it & E & Hi). exists it. split; [done|]. by apply readAll_spec.
Qed.

(** C18: a prefixed database is a database of its own.  Over any database that
    keeps the laws, reads see the map of the keys with the prefix, writes and
    deletions change that map and no key without the prefix; and when the prefix
    is not empty, [Iterator] reads the entries of its domain in ascending order,
    although its source may walk on to keys without the prefix.  Nothing is said
    of [ReverseIterator], nor of iterating with the empty prefix. *)
Theorem prefixDB_refines {D I} `{DBLaws D I} (pdb : prefixDB D) : db_wf (pdb_db pdb) ->
  let m := subMap (pdb_prefix pdb) (contents (pdb_db pdb)) in
  (forall k, Get pdb k = m !! k /\ Has pdb k = bool_decide (is_Some (m !! k))) /\
  (forall k v, let pdb' := Set_ pdb k v in subMap (pdb_prefix pdb') (contents (pdb_db pdb')) = <[k := default [] v]> m /\
     forall x, hasPrefix x (pdb_prefix pdb) = false -> contents (pdb_db pdb') !! x = contents (pdb_db pdb) !! x) /\
  (forall k, let pdb' := Delete pdb k in subMap (pdb_prefix pdb') (contents (pdb_db pdb')) = delete k m /\
     forall x, hasPrefix x (pdb_prefix pdb) = false -> contents (pdb_db pdb') !! x = contents (pdb_db pdb) !! x) /\
  (pdb_prefix pdb <> [] -> forall a b, exists it, Iterator pdb a b = Ret it /\ iterates it (domainEntries m a b false)).
Proof.
  intros Hw m. assert (Hother : forall k x, hasPrefix x (pdb_prefix pdb) = false -> x <> prefixed pdb k).
  { intros k x Hx ->. assert (hasPrefix (prefixed pdb k) (pdb_prefix pdb) = true) by (apply hasPrefix_spec; by exists k). congruence. }
  split_and!.
  - intros k. cbn. unfold m. by rewrite subMap_lookup, Get_contents, Has_contents.
  - intros k v. cbn. destruct (Set_contents (pdb_db pdb) (prefixed pdb k) v Hw) as [_ ->]. split; [apply subMap_insert|].
    intros x Hx. apply lookup_insert_ne. by apply not_eq_sym, Hother.
  - intros k. cbn. destruct (Delete_contents (pdb_db pdb) (prefixed pdb k) Hw) as [_ ->]. split; [apply subMap_delete|].
    intros x Hx. apply lookup_delete_ne. by apply not_eq_sym, Hother.
  - intros Hp a b. exact (Iterator_contents pdb a b (conj Hp Hw)).
Qed.

(** [IteratePrefix] reads exactly the keys with the prefix, when the prefix
    does not end in 0xFF or is all 0xFF. *)
Theorem IteratePrefix_exact {D I} `{DBLaws D I} (db : D) (p : bytes) : db_wf db -> tightPrefix p ->
  exists it, IteratePrefix db p = Ret it /\ iterates it (List.filter (fun kv => hasPrefix kv.1 p) (entries (contents db))).
Proof.
  intros Hw Ht. destruct (decide (p = [])) as [->|Hp].
  - destruct (Iterator_contents db None None Hw) as (it & E & Hi). exists it. split; [done|]. unfold domainEntries in Hi.
    erewrite List.filter_ext; [exact Hi|]. intros [k v]. unfold inDomain, IsKeyInDomain. cbn. by rewrite byteLt_nil.
  - unfold IteratePrefix. replace (zlen p =? 0) with false by (destruct p; [done|unfold zlen; cbn [length]; symmetry; apply Z.eqb_neq; lia]).
    rewrite cpIncr_spec by done. cbn. destruct (Iterator_contents db (Some p) (incr p) Hw) as (it & E & Hi). exists it. split; [done|].
    unfold domainEntries in Hi. erewrite List.filter_ext; [exact Hi|]. intros [k v]. symmetry. exact (domain_prefix p _ k Ht eq_refl).
Qed.

(** Otherwise it reads past them: with the prefix ["a\xFF"] it comes to the
    key ["b"]; and the reverse iterator of that prefix, which starts at
    ["b"], finds nothing although there is a key with the prefix. *)
Definition aFF : bytes := str "a" ++ [Z_byte 255].
Definition overrunDB : MemDB := {[ aFF := str "1"; str "b" := str "2" ]}.
Lemma IteratePrefix_overruns :
  (it ← IteratePrefix overrunDB aFF; readAll 5 it) = Ret (Some [(aFF, Some (str "1")); (str "b", Some (str "2"))]) /\
  (it ← ReverseIterator (mkPrefixDB aFF overrunDB) None None; readAll 5 it) = Ret (Some []) /\
  Get (mkPrefixDB aFF overrunDB) [] = Some (str "1").
Proof. split_and!; vm_compute; reflexivity. Qed.

Definition exPrefix : prefixDB MemDB := mkPrefixDB (str "s/") {[ str "s/a" := str "1"; str "t" := str "2" ]}.
Lemma prefixDB_refines_witness : Get exPrefix (str "a") = Some (str "1") /\
  contents (pdb_db (Set_ exPrefix (str "b") (Some (str "3")))) !! str "t" = Some (str "2").
Proof.
  destruct (prefixDB_refines exPrefix ltac:(exact Logic.I)) as (Hg & Hs & _ & _). split.
  - rewrite (proj1 (Hg (str "a"))). vm_compute. reflexivity.
  - rewrite (proj2 (Hs (str "b") (Some (str "3"))) (str "t")); vm_compute; reflexivity.
Defined.
End DB.
