(* ===== verification/Store.v ===== *)
(** * Stores: state/store.go and blockchain/store.go

    What the node keeps in its databases: the state with the validators and
    parameters of each height, the responses of the application, and the
    blocks.  Both stores work on any database of [libs/db] (the class [DB]),
    and the theorems on any that keeps its laws.  The encodings of go-amino are
    the class [Serial], their round trip the class [SerialLaws]: a value is read
    back as what its exported fields hold. *)

From S2P Require Import Prelude Sha256 Crypto Merkle Types ValidatorSet PartSet Block State DB.
Import Crypto Types ValidatorSet.

(** ** fmt: [%v] of an integer

    An [int64] has at most 19 digits. *)

Fixpoint decDigits (fuel : nat) (n : Z) : bytes :=
  match fuel with
  | O => []
  | S fuel => if n <? 10 then [Z_byte (48 + n)] else decDigits fuel (n / 10) ++ [Z_byte (48 + n mod 10)]
  end.
Definition formatInt (z : Z) : bytes := if z <? 0 then "-"%byte :: decDigits 20 (- z) else decDigits 20 z.

(** ** go-amino *)

(** [cdc.MustMarshalBinaryBare] and [cdc.UnmarshalBinaryBare] of a type. *)
Class Serial (T : Type) := { marshal : T -> bytes; unmarshal : bytes -> option T }.
(** What is left of a value when its fields that are not exported are zero. *)
Class Persistent (T : Type) := { persisted : T -> T }.
Class SerialLaws (T : Type) `{Serial T} `{Persistent T} := { unmarshal_marshal : forall x : T, unmarshal (marshal x) = Some (persisted x) }.

Module Store.

#[export] Instance ConsensusParams_eq_dec : EqDecision Block.ConsensusParams.
Proof. solve_decision. Defined.

(** ** state/store.go *)

Definition calcValidatorsKey (height : Z) : bytes := str "validatorsKey:" ++ formatInt height.
Definition calcConsensusParamsKey (height : Z) : bytes := str "consensusParamsKey:" ++ formatInt height.
Definition calcABCIResponsesKey (height : Z) : bytes := str "abciResponsesKey:" ++ formatInt height.
Definition stateKey : bytes := str "stateKey".

Record ValidatorsInfo := mkValInfo { vi_ValidatorSet : option ValidatorSet; vi_LastHeightChanged : Z }.
Record ConsensusParamsInfo := mkParamsInfo { cpi_ConsensusParams : Block.ConsensusParams; cpi_LastHeightChanged : Z }.
Definition emptyParams : Block.ConsensusParams := Block.mkParams 0 0 0 0 0 0 0.

(** A validator set does not store the cache of its power; the other types
    have only exported fields, or caches that this development computes anew. *)
#[global] Instance State_persistent : Persistent State.State := {| persisted := State.uncachedState |}.
#[global] Instance ValidatorsInfo_persistent : Persistent ValidatorsInfo := {| persisted := fun vi => mkValInfo (uncached <$> vi_ValidatorSet vi) (vi_LastHeightChanged vi) |}.
#[global] Instance ConsensusParamsInfo_persistent : Persistent ConsensusParamsInfo := {| persisted := id |}.
#[global] Instance ABCIResponses_persistent : Persistent State.ABCIResponses := {| persisted := id |}.
#[global] Instance BlockMeta_persistent : Persistent Block.BlockMeta := {| persisted := id |}.
#[global] Instance Part_persistent : Persistent PartSet.Part := {| persisted := id |}.

Inductive StoreError := ErrNoValSetForHeight (height : Z) | ErrNoConsensusParamsForHeight (height : Z) | ErrNoABCIResponsesForHeight (height : Z).

Section StateStore.
Context {D I : Type} `{DB.DB D I}.
Context `{Serial State.State} `{Serial ValidatorsInfo} `{Serial ConsensusParamsInfo} `{Serial State.ABCIResponses}.

(** A value that does not decode ends the process. *)
Definition exitOn {T} (o : option T) : go T := match o with Some x => Ret x | None => Panic (PanicMsg "Data has been corrupted or its spec has changed") end.

(** [nil] when nothing is stored, or an empty encoding. *)
Definition loadAs (T : Type) `{Serial T} (db : D) (key : bytes) : go (option T) :=
  let buf := default [] (DB.Get db key) in
  if zlen buf =? 0 then Ret None else
  x ← exitOn (unmarshal buf); Ret (Some x).

(** The empty state is [None]. *)
Definition LoadState (db : D) : go (option State.State) := loadAs State.State db stateKey.

Definition saveValidatorsInfo (db : D) (nextHeight changeHeight : Z) (valSet : ValidatorSet) : D :=
  let valInfo := mkValInfo (if changeHeight =? nextHeight then Some valSet else None) changeHeight in
  DB.Set_ db (calcValidatorsKey nextHeight) (Some (marshal valInfo)).
Definition saveConsensusParamsInfo (db : D) (nextHeight changeHeight : Z) (params : Block.ConsensusParams) : D :=
  let paramsInfo := mkParamsInfo (if changeHeight =? nextHeight then params else emptyParams) changeHeight in
  DB.Set_ db (calcConsensusParamsKey nextHeight) (Some (marshal paramsInfo)).
Definition SaveState (db : D) (st : State.State) : D :=
  let nextHeight := add64 (State.LastBlockHeight st) 1 in
  let db := saveValidatorsInfo db nextHeight (State.LastHeightValidatorsChanged st) (State.Validators st) in
  let db := saveConsensusParamsInfo db nextHeight (State.LastHeightConsensusParamsChanged st) (State.Params st) in
  DB.Set_ db stateKey (Some (marshal st)).

(** The databases between the writes of [SaveState]. *)
Definition partialSaves (db : D) (st : State.State) : list D :=
  let nextHeight := add64 (State.LastBlockHeight st) 1 in
  let db1 := saveValidatorsInfo db nextHeight (State.LastHeightValidatorsChanged st) (State.Validators st) in
  [db1; saveConsensusParamsInfo db1 nextHeight (State.LastHeightConsensusParamsChanged st) (State.Params st)].

Definition loadValidatorsInfo (db : D) (height : Z) : go (option ValidatorsInfo) := loadAs ValidatorsInfo db (calcValidatorsKey height).
(** The set may be nil without an error. *)
Definition LoadValidators (db : D) (height : Z) : go (StoreError + option ValidatorSet) :=
  valInfo ← loadValidatorsInfo db height;
  match valInfo with
  | None => Ret (inl (ErrNoValSetForHeight height))
  | Some valInfo =>
      match vi_ValidatorSet valInfo with
      | Some vs => Ret (inr (Some vs))
      | None =>
          valInfo2 ← loadValidatorsInfo db (vi_LastHeightChanged valInfo);
          match valInfo2 with
          | None => Panic (PanicSanity "Couldn't find validators at height as last changed from height")
          | Some valInfo2 => Ret (inr (vi_ValidatorSet valInfo2))
          end
      end
  end.

Definition loadConsensusParamsInfo (db : D) (height : Z) : go (option ConsensusParamsInfo) :=
  loadAs ConsensusParamsInfo db (calcConsensusParamsKey height).
(** When the second look-up finds nothing, the message of the panic reads the
    nil pointer. *)
Definition LoadConsensusParams (db : D) (height : Z) : go (StoreError + Block.ConsensusParams) :=
  paramsInfo ← loadConsensusParamsInfo db height;
  match paramsInfo with
  | None => Ret (inl (ErrNoConsensusParamsForHeight height))
  | Some paramsInfo =>
      if bool_decide (cpi_ConsensusParams paramsInfo = emptyParams) then
        paramsInfo2 ← loadConsensusParamsInfo db (cpi_LastHeightChanged paramsInfo);
        paramsInfo2 ← deref paramsInfo2;
        Ret (inr (cpi_ConsensusParams paramsInfo2))
      else Ret (inr (cpi_ConsensusParams paramsInfo))
  end.

Definition saveABCIResponses (db : D) (height : Z) (abciResponses : State.ABCIResponses) : D :=
  DB.Set_ db (calcABCIResponsesKey height) (Some (marshal abciResponses)).
Definition LoadABCIResponses (db : D) (height : Z) : go (StoreError + State.ABCIResponses) :=
  r ← loadAs State.ABCIResponses db (calcABCIResponsesKey height);
  match r with
  | None => Ret (inl (ErrNoABCIResponsesForHeight height))
  | Some r => Ret (inr r)
  end.

(** [now] is [time.Now()] of the genesis. *)
Definition LoadStateFromDBOrGenesisDoc `{Codec} `{Curves} `{Amino} (db : D) (now : Time) (genesisDoc : State.GenesisDoc)
  : go (D * (State.GenesisError + State.State)) :=
  st ← LoadState db;
  match st with
  | Some st => Ret (db, inr st)
  | None =>
      r ← State.MakeGenesisState now genesisDoc;
      match r with
      | inl e => Ret (db, inl e)
      | inr st => Ret (SaveState db st, inr st)
      end
  end.
End StateStore.

(** ** blockchain/store.go *)

Definition calcBlockMetaKey (height : Z) : bytes := str "H:" ++ formatInt height.
Definition calcBlockPartKey (height partIndex : Z) : bytes := str "P:" ++ formatInt height ++ str ":" ++ formatInt partIndex.
Definition calcBlockCommitKey (height : Z) : bytes := str "C:" ++ formatInt height.
Definition calcSeenCommitKey (height : Z) : bytes := str "SC:" ++ formatInt height.
Definition blockStoreKey : bytes := str "blockStore".
Definition bucketKey (height : Z) (bucketID : bytes) : bytes := formatInt height ++ str " " ++ bucketID.

Record BlockStoreStateJSON := mkStoreState { bsj_Height : Z }.

(** The length-prefixed codec of [cdc.UnmarshalBinary] and the bare one of
    [cdc.MarshalBinaryBare], for blocks and buckets. *)
Class StoreCodec := {
  UnmarshalBinaryBlock : bytes -> option Block.Block;
  UnmarshalBinaryBucket : bytes -> option Block.TxBucket;
  MarshalBinaryBareBucket : Block.TxBucket -> bytes;
  MarshalStoreState : BlockStoreStateJSON -> bytes;
  UnmarshalStoreState : bytes -> option BlockStoreStateJSON }.

Section BlockStore.
Context {D I : Type} `{DB.DB D I} `{StoreCodec}.
Context `{Codec} `{Amino} `{Block.BlockCodec}.
Context `{Serial Block.BlockMeta} `{Serial PartSet.Part} `{Serial Commit}.

Record BlockStore := mkBlockStore { bs_db : D; bs_height : Z }.

Definition panicOn {T} (why : String.string) (o : option T) : go T := match o with Some x => Ret x | None => Panic (PanicMsg why) end.

Definition LoadBlockStoreStateJSON (db : D) : go BlockStoreStateJSON :=
  let bz := default [] (DB.Get db blockStoreKey) in
  if zlen bz =? 0 then Ret (mkStoreState 0) else panicOn "Could not unmarshal bytes" (UnmarshalStoreState bz).
Definition NewBlockStore (db : D) : go BlockStore :=
  bsjson ← LoadBlockStoreStateJSON db;
  Ret (mkBlockStore db (bsj_Height bsjson)).

Definition loadBare (T : Type) `{Serial T} (bs : BlockStore) (key : bytes) (why : String.string) : go (option T) :=
  let bz := default [] (DB.Get (bs_db bs) key) in
  if zlen bz =? 0 then Ret None else
  x ← panicOn why (unmarshal bz); Ret (Some x).
Definition LoadBlockPart (bs : BlockStore) (height index : Z) : go (option PartSet.Part) :=
  loadBare PartSet.Part bs (calcBlockPartKey height index) "Error reading block part".
Definition LoadBlockMeta (bs : BlockStore) (height : Z) : go (option Block.BlockMeta) :=
  loadBare Block.BlockMeta bs (calcBlockMetaKey height) "Error reading block meta".
Definition LoadBlockCommit (bs : BlockStore) (height : Z) : go (option Commit) :=
  loadBare Commit bs (calcBlockCommitKey height) "Error reading block commit".
Definition LoadSeenCommit (bs : BlockStore) (height : Z) : go (option Commit) :=
  loadBare Commit bs (calcSeenCommitKey height) "Error reading block seen commit".

Definition LoadBlock (bs : BlockStore) (height : Z) : go (option Block.Block) :=
  blockMeta ← LoadBlockMeta bs height;
  match blockMeta with
  | None => Ret None
  | Some blockMeta =>
      buf ← go_for 0 (psh_Total (bid_PartsHeader (Block.bm_BlockID blockMeta))) (fun i buf =>
        part ← LoadBlockPart bs height i;
        part ← deref part;
        Ret (buf ++ PartSet.Bytes part)) [];
      b ← panicOn "Error reading block" (UnmarshalBinaryBlock buf);
      Ret (Some b)
  end.

Definition SaveBucket (bs : BlockStore) (height : Z) (bucketID : bytes) (bucket : Block.TxBucket) : BlockStore :=
  mkBlockStore (DB.Set_ (bs_db bs) (bucketKey height bucketID) (Some (MarshalBinaryBareBucket bucket))) (bs_height bs).
Definition LoadBucket (bs : BlockStore) (height : Z) (bucketID : bytes) : go Block.TxBucket :=
  panicOn "Error reading bucket" (UnmarshalBinaryBucket (default [] (DB.Get (bs_db bs) (bucketKey height bucketID)))).

(** The writes of [SaveBlock], in order.  A complete part set has all its
    parts; go-amino panics on the nil commit. *)
Definition blockWrites (bs : BlockStore) (block : option Block.Block) (blockParts : PartSet.PartSet) (seenCommit : Commit)
  : go (Z * list (bytes * bytes)) :=
  match block with
  | None => Panic (PanicSanity "BlockStore can only save a non-nil block")
  | Some b =>
      h ← deref (Block.b_Header b);
      let height := Block.Height h in
      if negb (height =? add64 (bs_height bs) 1) then Panic (PanicSanity "BlockStore can only save contiguous blocks") else
      if negb (PartSet.IsComplete blockParts) then Panic (PanicSanity "BlockStore can only save complete block part sets") else
      let meta := (calcBlockMetaKey height, marshal (Block.NewBlockMeta b (Some blockParts))) in
      parts ← go_for 0 (PartSet.Total (Some blockParts)) (fun i l =>
        part ← PartSet.GetPart blockParts i;
        part ← deref part;
        Ret (l ++ [(calcBlockPartKey height i, marshal part)])) [];
      commit ← deref (Block.b_Commit b);
      Ret (height, meta :: parts ++
        [(calcBlockCommitKey (sub64 height 1), marshal commit);
         (calcSeenCommitKey height, marshal seenCommit);
         (blockStoreKey, MarshalStoreState (mkStoreState height));
         ([], [])])
  end.
Definition applyWrites (db : D) (l : list (bytes * bytes)) : D := foldl (fun db kv => DB.Set_ db kv.1 (Some kv.2)) db l.
Definition SaveBlock (bs : BlockStore) (block : option Block.Block) (blockParts : PartSet.PartSet) (seenCommit : Commit) : go BlockStore :=
  '(height, l) ← blockWrites bs block blockParts seenCommit;
  Ret (mkBlockStore (applyWrites (bs_db bs) l) height).
End BlockStore.
Arguments BlockStore : clear implicits.

(** ** Keys *)

Definition decVal (l : bytes) : Z := foldl (fun a b => 10 * a + (byte_Z b - 48)) 0 l.

Lemma digit_val n : 0 <= n < 10 -> byte_Z (Z_byte (48 + n)) = 48 + n.
Proof. intros Hn. rewrite byte_Z_of_byte, Z.mod_small; lia. Qed.

Lemma decDigits_val fuel n : 0 <= n < 10 ^ Z.of_nat fuel -> decVal (decDigits fuel n) = n.
Proof.
  revert n. induction fuel as [|fuel IH]; intros n Hn; [cbn in *; lia|]. rewrite Nat2Z.inj_succ, Z.pow_succ_r in Hn by lia. cbn [decDigits].
  destruct (Z.ltb_spec n 10) as [Hl|Hl].
  - unfold decVal. cbn [foldl]. rewrite digit_val; lia.
  - unfold decVal. rewrite foldl_app. cbn [foldl]. fold (decVal (decDigits fuel (n / 10))). pose proof (Z.mod_pos_bound n 10). pose proof (Z.div_mod n 10).
    rewrite IH by (split; [apply Z.div_pos; lia|apply Z.div_lt_upper_bound; lia]). rewrite digit_val; lia.
Qed.

Definition isDigitByte (b : Byte.byte) : Prop := 48 <= byte_Z b <= 57.

Lemma minus_not_digit : ~ isDigitByte "-"%byte.
Proof. intros [Hd _]. vm_compute in Hd. by apply Hd. Qed.
Lemma colon_not_digit : ~ isDigitByte ":"%byte.
Proof. intros [_ Hd]. vm_compute in Hd. by apply Hd. Qed.

Lemma decDigits_digits fuel n : 0 <= n -> Forall isDigitByte (decDigits fuel n).
Proof.
  revert n. induction fuel as [|fuel IH]; intros n Hn; cbn; [constructor|]. destruct (Z.ltb_spec n 10).
  - constructor; [|constructor]. unfold isDigitByte. rewrite digit_val; lia.
  - pose proof (Z.mod_pos_bound n 10). apply Forall_app. split; [apply IH, Z.div_pos; lia|]. constructor; [|constructor].
    unfold isDigitByte. rewrite digit_val; lia.
Qed.

Lemma decDigits_first fuel n b l : 0 <= n -> decDigits fuel n = b :: l -> isDigitByte b.
Proof. intros Hn E. pose proof (decDigits_digits fuel n Hn) as Hd. rewrite E in Hd. by apply Forall_cons in Hd as [? _]. Qed.

Lemma decDigits_inj fuel a b : 0 <= a < 10 ^ Z.of_nat fuel -> 0 <= b < 10 ^ Z.of_nat fuel -> decDigits fuel a = decDigits fuel b -> a = b.
Proof. intros Ha Hb E. rewrite <- (decDigits_val fuel a Ha), <- (decDigits_val fuel b Hb). by rewrite E. Qed.

Lemma pow20 z : int64 z -> Z.abs z < 10 ^ Z.of_nat 20.
Proof. unfold int64, MinInt64, MaxInt64. change (10 ^ Z.of_nat 20) with 100000000000000000000. lia. Qed.

Lemma formatInt_inj a b : int64 a -> int64 b -> formatInt a = formatInt b -> a = b.
Proof.
  intros Ha%pow20 Hb%pow20. unfold formatInt. destruct (Z.ltb_spec a 0), (Z.ltb_spec b 0); intros E.
  - apply (f_equal (@tail _)) in E. change (decDigits 20 (- a) = decDigits 20 (- b)) in E. apply decDigits_inj in E; lia.
  - exfalso. apply minus_not_digit. eapply (decDigits_first 20 b); [lia|by rewrite <- E].
  - exfalso. apply minus_not_digit. eapply (decDigits_first 20 a); [lia|by rewrite E].
  - apply decDigits_inj in E; lia.
Qed.

Lemma formatInt_chars z b : b ∈ formatInt z -> isDigitByte b \/ b = "-"%byte.
Proof.
  unfold formatInt. destruct (Z.ltb_spec z 0) as [Hz|Hz].
  - intros [->|Hb]%elem_of_cons; [by right|]. left. eapply (proj1 (Forall_forall _ _)); [|exact Hb]. apply decDigits_digits. lia.
  - intros Hb. left. eapply (proj1 (Forall_forall _ _)); [|exact Hb]. apply decDigits_digits. lia.
Qed.

Lemma formatInt_no_colon z : ":"%byte ∉ formatInt z.
Proof. intros [Hd|Hd]%formatInt_chars; [by apply colon_not_digit|done]. Qed.

(** What is before the first separator is determined. *)
Lemma split_at {A} (c : A) a b x y : c ∉ a -> c ∉ b -> a ++ c :: x = b ++ c :: y -> a = b /\ x = y.
Proof.
  revert b. induction a as [|u a IH]; intros [|v b] Ha Hb E; cbn in E.
  - by injection E.
  - injection E as -> _. destruct Hb. left.
  - injection E as -> _. destruct Ha. left.
  - injection E as -> E. rewrite elem_of_cons in Ha, Hb. destruct (IH b) as [-> ->]; try done; naive_solver.
Qed.

Lemma partKey_inj h i h' i' : int64 h -> int64 i -> int64 h' -> int64 i' -> calcBlockPartKey h i = calcBlockPartKey h' i' -> h = h' /\ i = i'.
Proof.
  intros Hh Hi Hh' Hi' E. unfold calcBlockPartKey in E. apply app_inv_head in E. change (str ":") with [":"%byte] in E. cbn [app] in E.
  apply split_at in E as [E1 E2]; [|apply formatInt_no_colon..]. split; by apply formatInt_inj.
Qed.

(** Keys of different kinds differ. *)
Definition stateKind (k : bytes) : option nat :=
  match k with "v"%byte :: _ => Some 0%nat | "c"%byte :: _ => Some 1%nat | "a"%byte :: _ => Some 2%nat | "s"%byte :: _ => Some 3%nat | _ => None end.
Definition blockKind (k : bytes) : option nat :=
  match k with "H"%byte :: _ => Some 0%nat | "P"%byte :: _ => Some 1%nat | "C"%byte :: _ => Some 2%nat | "S"%byte :: _ => Some 3%nat
  | "b"%byte :: _ => Some 4%nat | [] => Some 5%nat | _ => None end.

(** ** Values that are stored when they change

    [rec] is the value of each height up to [top], [chg] the height at which
    it last changed; the value there is the same in the sense of [same]. *)

Section History.
Context {X : Type} (same : X -> X -> Prop) `{!Reflexive same} `{!Transitive same}.

Record history (rec : gmap Z X) (chg : gmap Z Z) (top : Z) : Prop := {
  hist_dom : forall h, is_Some (rec !! h) <-> 1 <= h <= top;
  hist_chg : forall h x, rec !! h = Some x -> exists c x', chg !! h = Some c /\ 1 <= c <= h /\ chg !! c = Some c /\ rec !! c = Some x' /\ same x' x }.

Lemma history_first x : history {[1 := x]} {[1 := 1]} 1.
Proof.
  split.
  - intros h. rewrite lookup_singleton_is_Some. lia.
  - intros h y [<- <-]%lookup_singleton_Some. exists 1, x. rewrite !lookup_singleton_eq. split_and!; done || lia.
Qed.

Lemma history_step rec chg top x c : history rec chg top -> 1 <= top ->
  (c = top + 1 \/ exists y, rec !! top = Some y /\ chg !! top = Some c /\ same y x) ->
  history (<[top + 1 := x]> rec) (<[top + 1 := c]> chg) (top + 1).
Proof.
  intros [Hd Hc] Ht Hx. split.
  - intros h. destruct (decide (h = top + 1)) as [->|Hne]; [rewrite lookup_insert_eq; split; [lia|by eexists]|].
    rewrite lookup_insert_ne by done. rewrite Hd. lia.
  - assert (Hin : forall h y, rec !! h = Some y -> 1 <= h <= top) by (intros h y E; apply Hd; by exists y).
    intros h y E. destruct (decide (h = top + 1)) as [->|Hne].
    + rewrite lookup_insert_eq in E. injection E as <-. rewrite lookup_insert_eq. destruct Hx as [->|(y & Ey & Ec & Hs)].
      * exists (top + 1), x. rewrite !lookup_insert_eq. split_and!; done || lia.
      * destruct (Hc top y Ey) as (c' & x' & Ec' & Hb & Ecc & Ex' & Hs'). assert (c' = c) as -> by congruence. exists c, x'.
        rewrite !lookup_insert_ne by lia. split_and!; try done; try lia. by transitivity y.
    + rewrite lookup_insert_ne in E by done. rewrite lookup_insert_ne by done. destruct (Hc h y E) as (c' & x' & Ec' & Hb & Ecc & Ex' & Hs').
      pose proof (Hin h y E). exists c', x'. rewrite !lookup_insert_ne by lia. done.
Qed.

(** What a store of such values holds. *)
Definition holds (m : gmap bytes bytes) (key : Z -> bytes) (info : option X -> Z -> bytes) (rec : gmap Z X) (chg : gmap Z Z) : Prop :=
  forall h x c, rec !! h = Some x -> chg !! h = Some c -> m !! key h = Some (info (if c =? h then Some x else None) c).

Lemma holds_step m key info rec chg top x c m' : (forall a b, int64 a -> int64 b -> key a = key b -> a = b) -> 0 <= top < MaxInt64 ->
  (forall h, is_Some (rec !! h) -> 1 <= h <= top) -> holds m key info rec chg ->
  m' !! key (top + 1) = Some (info (if c =? top + 1 then Some x else None) c) ->
  (forall h, 1 <= h <= top -> m' !! key h = m !! key h) ->
  holds m' key info (<[top + 1 := x]> rec) (<[top + 1 := c]> chg).
Proof.
  intros Hinj Ht Hd Hm Hnew Hold h y d. destruct (decide (h = top + 1)) as [->|Hne].
  - rewrite !lookup_insert_eq. intros [= <-] [= <-]. done.
  - rewrite !lookup_insert_ne by done. intros Er Ec. rewrite Hold by (apply Hd; by exists y). by apply Hm.
Qed.
End History.

(** ** The state store *)

(** An encoding is empty only for zero values. *)
Class InfoLaws `{Serial State.State} `{Serial ValidatorsInfo} `{Serial ConsensusParamsInfo} := {
  marshal_state : forall st : State.State, State.ChainID st <> [] -> marshal st <> [];
  marshal_valInfo : forall vi : ValidatorsInfo, vi_LastHeightChanged vi <> 0 -> marshal vi <> [];
  marshal_paramsInfo : forall pi : ConsensusParamsInfo, cpi_LastHeightChanged pi <> 0 -> marshal pi <> [] }.

Section StateStoreSpec.
Context {D I : Type} `{DB.DBLaws D I}.
Context `{Serial State.State} `{Serial ValidatorsInfo} `{Serial ConsensusParamsInfo} `{Serial State.ABCIResponses}.
Context `{!SerialLaws State.State} `{!SerialLaws ValidatorsInfo} `{!SerialLaws ConsensusParamsInfo} `{!SerialLaws State.ABCIResponses} `{!InfoLaws}.
Context `{Codec} `{Curves} `{Amino} `{ValidatorCodec} `{Block.BlockCodec} `{Block.TxDecoder} `{State.ResultCodec}.

Lemma loadAs_some {T} `{SerialLaws T} (db : D) key (x : T) : DB.db_wf db -> DB.contents db !! key = Some (marshal x) -> marshal x <> [] ->
  loadAs T db key = Ret (Some (persisted x)).
Proof.
  intros Hw E Hne. unfold loadAs. rewrite DB.Get_contents, E by done. cbn. rewrite (proj2 (Z.eqb_neq _ _)), unmarshal_marshal; [done|].
  unfold zlen. destruct (marshal x); [done|cbn; lia].
Qed.

Definition sameVals (a b : ValidatorSet) : Prop := State.keyPower (ValidatorSet.Validators a) = State.keyPower (ValidatorSet.Validators b).
#[local] Instance sameVals_refl : Reflexive sameVals.
Proof. by intros x. Qed.
#[local] Instance sameVals_trans : Transitive sameVals.
Proof. intros x y z. unfold sameVals. congruence. Qed.

Definition valInfoBytes (o : option ValidatorSet) (c : Z) : bytes := marshal (mkValInfo o c).
Definition paramsInfoBytes (o : option Block.ConsensusParams) (c : Z) : bytes := marshal (mkParamsInfo (default emptyParams o) c).

(** A run of the node as the state store sees it: the genesis state is saved,
    then the state after each block, with the application hash of its commit;
    in between the process may restart with the state it loads.  [vals] and
    [params] are the validators and parameters of each height. *)
Definition withAppHash (st : State.State) (appHash : bytes) : State.State :=
  State.mkState (State.ChainID st) (State.LastBlockHeight st) (State.LastBlockTotalTx st) (State.LastBlockID st) (State.LastBlockTime st)
    (State.Validators st) (State.LastValidators st) (State.LastHeightValidatorsChanged st) (State.Params st)
    (State.LastHeightConsensusParamsChanged st) (State.LastResultsHash st) appHash.

Inductive savedChain (db0 : D) : D -> State.State -> gmap Z ValidatorSet -> gmap Z Block.ConsensusParams -> Prop :=
| chain_genesis st : DB.db_wf db0 -> State.ChainID st <> [] -> addrSorted (ValidatorSet.Validators (State.Validators st)) -> State.cachesOK st ->
    State.LastBlockHeight st = 0 -> State.LastHeightValidatorsChanged st = 1 -> State.LastHeightConsensusParamsChanged st = 1 ->
    savedChain db0 (SaveState db0 st) st {[1 := State.Validators st]} {[1 := State.Params st]}
| chain_block db st vals params blockID h arz st' appHash : savedChain db0 db st vals params ->
    Block.Height h = State.LastBlockHeight st + 1 -> Block.Height h < MaxInt64 -> Forall is_Some (State.DeliverTx arz) ->
    State.updateState st blockID (Some h) arz = Ret (inr st') ->
    let db := saveABCIResponses db (Block.Height h) arz in
    savedChain db0 (SaveState db (withAppHash st' appHash)) (withAppHash st' appHash)
      (<[Block.Height h + 1 := State.Validators st']> vals) (<[Block.Height h + 1 := State.Params st']> params)
| chain_restart db st vals params st' : savedChain db0 db st vals params -> LoadState db = Ret (Some st') -> savedChain db0 db st' vals params.

Record storeInv (db : D) (st : State.State) (vals : gmap Z ValidatorSet) (params : gmap Z Block.ConsensusParams) (cv cp : gmap Z Z) : Prop := {
  si_wf : DB.db_wf db;
  si_height : 0 <= State.LastBlockHeight st < MaxInt64;
  si_chain : State.ChainID st <> [];
  si_sorted : addrSorted (ValidatorSet.Validators (State.Validators st));
  si_caches : State.cachesOK st;
  si_state : exists st0, DB.contents db !! stateKey = Some (marshal st0) /\ State.uncachedState st0 = State.uncachedState st;
  si_vals : exists vs, vals !! (State.LastBlockHeight st + 1) = Some vs /\ sameVals vs (State.Validators st);
  si_cv : cv !! (State.LastBlockHeight st + 1) = Some (State.LastHeightValidatorsChanged st);
  si_params : params !! (State.LastBlockHeight st + 1) = Some (State.Params st);
  si_cp : cp !! (State.LastBlockHeight st + 1) = Some (State.LastHeightConsensusParamsChanged st);
  si_hv : history sameVals vals cv (State.LastBlockHeight st + 1);
  si_hp : history eq params cp (State.LastBlockHeight st + 1);
  si_dv : holds (DB.contents db) calcValidatorsKey valInfoBytes vals cv;
  si_dp : holds (DB.contents db) calcConsensusParamsKey paramsInfoBytes params cp }.

Lemma valKey_inj a b : int64 a -> int64 b -> calcValidatorsKey a = calcValidatorsKey b -> a = b.
Proof. intros Ha Hb E. by apply app_inv_head, formatInt_inj in E. Qed.
Lemma paramsKey_inj a b : int64 a -> int64 b -> calcConsensusParamsKey a = calcConsensusParamsKey b -> a = b.
Proof. intros Ha Hb E. by apply app_inv_head, formatInt_inj in E. Qed.

Lemma kind_ne k k' : stateKind k <> stateKind k' -> k <> k'.
Proof. congruence. Qed.

(** What [SaveState] writes, and that it leaves the other keys. *)
Lemma SaveState_spec (db : D) st : DB.db_wf db -> int64 (State.LastBlockHeight st + 1) ->
  let n := State.LastBlockHeight st + 1 in let db' := SaveState db st in
  DB.db_wf db' /\ DB.contents db' !! stateKey = Some (marshal st) /\
  DB.contents db' !! calcValidatorsKey n =
    Some (valInfoBytes (if State.LastHeightValidatorsChanged st =? n then Some (State.Validators st) else None) (State.LastHeightValidatorsChanged st)) /\
  DB.contents db' !! calcConsensusParamsKey n =
    Some (paramsInfoBytes (if State.LastHeightConsensusParamsChanged st =? n then Some (State.Params st) else None) (State.LastHeightConsensusParamsChanged st)) /\
  (forall h, int64 h -> h <> n -> DB.contents db' !! calcValidatorsKey h = DB.contents db !! calcValidatorsKey h /\
     DB.contents db' !! calcConsensusParamsKey h = DB.contents db !! calcConsensusParamsKey h) /\
  (forall h, DB.contents db' !! calcABCIResponsesKey h = DB.contents db !! calcABCIResponsesKey h).
Proof.
  intros Hw Hn n db'. unfold db', SaveState, saveValidatorsInfo, saveConsensusParamsInfo.
  assert (add64 (State.LastBlockHeight st) 1 = n) as -> by (unfold add64; by apply wrap64_small).
  match goal with |- context [DB.Set_ (DB.Set_ (DB.Set_ db ?k1 ?v1) ?k2 ?v2) ?k3 ?v3] =>
    destruct (DB.Set_contents db k1 v1 Hw) as [W1 E1]; set (d1 := DB.Set_ db k1 v1) in *;
    destruct (DB.Set_contents d1 k2 v2 W1) as [W2 E2]; set (d2 := DB.Set_ d1 k2 v2) in *;
    destruct (DB.Set_contents d2 k3 v3 W2) as [W3 E3]; set (d3 := DB.Set_ d2 k3 v3) in * end.
  cbn [default] in *. rewrite E3, E2, E1. split_and!.
  - done.
  - by rewrite lookup_insert_eq.
  - rewrite !lookup_insert_ne by (apply kind_ne; done). by rewrite lookup_insert_eq.
  - rewrite lookup_insert_ne by (apply kind_ne; done). rewrite lookup_insert_eq. unfold paramsInfoBytes. by destruct (State.LastHeightConsensusParamsChanged st =? n).
  - intros h Hh Hne. split.
    + rewrite (lookup_insert_ne _ stateKey), (lookup_insert_ne _ (calcConsensusParamsKey n)) by (apply kind_ne; done).
      rewrite lookup_insert_ne; [done|]. intros E. apply valKey_inj in E; [congruence|done|done].
    + rewrite (lookup_insert_ne _ stateKey), (lookup_insert_ne _ (calcConsensusParamsKey n)); [| |apply kind_ne; done].
      * by rewrite lookup_insert_ne by (apply kind_ne; done).
      * intros E. apply paramsKey_inj in E; [congruence|done|done].
  - intros h. rewrite !lookup_insert_ne by (apply kind_ne; done). done.
Qed.

(** Before its last write, the state and the responses are the former ones. *)
Lemma partialSaves_spec (db db' : D) st : DB.db_wf db -> db' ∈ partialSaves db st ->
  DB.db_wf db' /\ LoadState db' = LoadState db /\ forall h, LoadABCIResponses db' h = LoadABCIResponses db h.
Proof.
  intros Hw Hin. unfold partialSaves, saveValidatorsInfo, saveConsensusParamsInfo in Hin.
  match type of Hin with _ ∈ [DB.Set_ db ?k1 ?v1; DB.Set_ _ ?k2 ?v2] =>
    destruct (DB.Set_contents db k1 v1 Hw) as [W1 E1]; set (d1 := DB.Set_ db k1 v1) in *; destruct (DB.Set_contents d1 k2 v2 W1) as [W2 E2]; set (d2 := DB.Set_ d1 k2 v2) in * end.
  assert (Hsame : forall k, stateKind k = Some 3%nat \/ stateKind k = Some 2%nat -> DB.db_wf db' /\ DB.Get db' k = DB.Get db k).
  { intros k Hk. apply elem_of_cons in Hin as [->|Hin]; [split; [done|]|apply list_elem_of_singleton in Hin as ->; split; [done|]];
      rewrite !DB.Get_contents, ?E2, ?E1 by done; rewrite !lookup_insert_ne; try done; intros <-; by destruct Hk. }
  split; [apply (Hsame stateKey); by left|]. split; [|intros h]; unfold LoadState, LoadABCIResponses, loadAs.
  - by rewrite (proj2 (Hsame stateKey (or_introl eq_refl))).
  - by rewrite (proj2 (Hsame (calcABCIResponsesKey h) (or_intror eq_refl))).
Qed.

(** The state that is loaded. *)
Lemma storeInv_load db st vals params cv cp : storeInv db st vals params cv cp -> LoadState db = Ret (Some (State.uncachedState st)).
Proof.
  intros Hi. destruct (si_state _ _ _ _ _ _ Hi) as (st0 & E & Eu). rewrite <- Eu. refine (loadAs_some db stateKey st0 _ E _); [apply Hi|]. apply marshal_state.
  apply (f_equal State.ChainID) in Eu. cbn in Eu. rewrite Eu. apply Hi.
Qed.

(** One block: when the validators and the parameters change. *)
Lemma updateState_params st blockID h arz st' : State.updateState st blockID (Some h) arz = Ret (inr st') ->
  (State.LastHeightConsensusParamsChanged st' = add64 (Block.Height h) 1 \/
   State.LastHeightConsensusParamsChanged st' = State.LastHeightConsensusParamsChanged st /\ State.Params st' = State.Params st).
Proof.
  unfold State.updateState. cbn [deref mbind go_mbind]. intros E. apply bind_ret_inv in E as ([e|[vs c]] & _ & E); [done|].
  apply bind_ret_inv in E as (vs' & _ & E). destruct (State.ConsensusParamUpdates arz) as [u|]; [destruct (Block.Params_Validate _); [done|]|];
    apply bind_ret_inv in E as (res & _ & E); injection E as <-; [by left|by right].
Qed.

Lemma updateState_step st blockID h arz st' : addrSorted (ValidatorSet.Validators (State.Validators st)) -> Forall is_Some (State.DeliverTx arz) ->
  State.updateState st blockID (Some h) arz = Ret (inr st') ->
  State.ChainID st' = State.ChainID st /\ State.LastBlockHeight st' = Block.Height h /\ addrSorted (ValidatorSet.Validators (State.Validators st')) /\
  (State.LastHeightValidatorsChanged st' = add64 (Block.Height h) 1 \/
   State.LastHeightValidatorsChanged st' = State.LastHeightValidatorsChanged st /\ sameVals (State.Validators st) (State.Validators st')).
Proof.
  intros Hs Hd E. destruct (State.updateState_spec st blockID h arz Hs Hd) as [Hp Hr].
  destruct (decide (State.nextVals st arz = ∅)) as [En|En]; [destruct (Hp En) as [p Ep]; congruence|].
  destruct (Hr En) as (r & Er & Hm). rewrite E in Er. injection Er as <-. destruct (State.nextParams st arz) as [e|params]; [done|].
  destruct Hm as (x & [= <-] & Hc & Hh & _ & _ & _ & _ & Hs' & Hk & Hv). split_and!; try done. rewrite Hv. case_bool_decide as Hg; [|by left].
  right. split; [done|]. unfold sameVals. rewrite Hk. unfold State.nextVals. by rewrite Hg.
Qed.

Lemma savedChain_inv db0 db st vals params : savedChain db0 db st vals params -> exists cv cp, storeInv db st vals params cv cp.
Proof.
  induction 1 as [st Hw Hc Hs Hca Hh Hv Hp|db st vals params blockID h arz st' appHash _ (cv & cp & IH) Hh Hmax Hd E db1|db st vals params st' _ (cv & cp & Hi) El].
  - exists {[1 := 1]}, {[1 := 1]}. destruct (SaveState_spec db0 st Hw) as (W & Es & Ev & Ep & _); [rewrite Hh; done|].
    rewrite Hh in *. change (0 + 1) with 1 in *. rewrite Hv in Ev. rewrite Hp in Ep. change (1 =? 1) with true in *.
    split; rewrite ?Hh; change (0 + 1) with 1; try done.
    all: rewrite ?lookup_singleton_eq, ?Hv, ?Hp; try done.
    + by exists st.
    + by exists (State.Validators st).
    + by apply history_first, _.
    + by apply history_first, _.
    + intros a x c [<- <-]%lookup_singleton_Some [_ <-]%lookup_singleton_Some. exact Ev.
    + intros a x c [<- <-]%lookup_singleton_Some [_ <-]%lookup_singleton_Some. exact Ep.
  - destruct IH as [Hw Hb Hc Hs Hca _ (v0 & Hv & Hsame0) Hcv Hp Hcp Hhv Hhp Hdv Hdp].
    pose proof (State.updateState_uncached st blockID h arz Hs Hca) as Huc. rewrite E in Huc. destruct Huc as (_ & _ & _ & Hca' & _).
    destruct (updateState_step st blockID h arz st' Hs Hd E) as (Ec & Eh & Hs' & Hchv). pose proof (updateState_params st blockID h arz st' E) as Hchp.
    set (t := State.LastBlockHeight st + 1) in *.
    assert (Ht : 1 <= t < MaxInt64) by (unfold t in *; lia). assert (H64 : forall x, 1 <= x <= t + 1 -> int64 x) by (intros x; unfold int64, MinInt64, MaxInt64 in *; lia).
    assert (Eadd : add64 (Block.Height h) 1 = t + 1) by (rewrite Hh; unfold add64; apply wrap64_small, H64; lia). rewrite Eadd in *.
    destruct (DB.Set_contents db (calcABCIResponsesKey (Block.Height h)) (Some (marshal arz)) Hw) as [W1 E1]. fold (saveABCIResponses db (Block.Height h) arz) in W1, E1.
    fold db1 in W1, E1. clearbody db1. cbn [default] in E1.
    assert (Hkeep : forall k, stateKind k <> Some 2%nat -> DB.contents db1 !! k = DB.contents db !! k).
    { intros k Hk. rewrite E1. apply lookup_insert_ne. intros <-. by apply Hk. }
    set (st1 := withAppHash st' appHash). destruct (SaveState_spec db1 st1 W1) as (W & Es & Ev & Ep & Hold & _).
    { cbn. rewrite Eh, Hh. apply H64. lia. }
    assert (En : State.LastBlockHeight st1 + 1 = t + 1) by (cbn; lia). rewrite En in Ev, Ep, Hold.
    replace (Block.Height h + 1) with (t + 1) by lia.
    exists (<[t + 1 := State.LastHeightValidatorsChanged st']> cv), (<[t + 1 := State.LastHeightConsensusParamsChanged st']> cp).
    assert (Ech : State.ChainID st1 <> []) by (cbn; by rewrite Ec).
    split; rewrite ?En, ?lookup_insert_eq; try done; try lia.
    + by exists st1.
    + by exists (State.Validators st').
    + apply history_step; [apply _|apply _|done|lia|]. destruct Hchv as [->|[-> Hsame]]; [by left|right]. exists v0. split_and!; [done|done|]. by transitivity (State.Validators st).
    + apply history_step; [apply _|apply _|done|lia|]. destruct Hchp as [->|[-> Hsame]]; [by left|right]. by exists (State.Params st).
    + apply (holds_step (DB.contents db) _ _ _ _ t); [apply valKey_inj|lia|intros x Hx; by apply (hist_dom _ _ _ _ Hhv)|done|exact Ev|].
      intros x Hx. rewrite (proj1 (Hold x (H64 x ltac:(lia)) ltac:(lia))). by apply Hkeep.
    + apply (holds_step (DB.contents db) _ _ _ _ t); [apply paramsKey_inj|lia|intros x Hx; by apply (hist_dom _ _ _ _ Hhp)|done|exact Ep|].
      intros x Hx. rewrite (proj2 (Hold x (H64 x ltac:(lia)) ltac:(lia))). by apply Hkeep.
  - rewrite (storeInv_load _ _ _ _ _ _ Hi) in El. injection El as <-. exists cv, cp. destruct Hi as [Hw Hb Hc Hs Hca (st0 & Est & Eu) Hv Hcv Hp Hcp Hhv Hhp Hdv Hdp].
    split; try done; [split; apply uncached_cacheOK|by exists st0].
Qed.

(** The state store remembers every height.  After any chain of blocks,
    [LoadState] gives the last state, without caches; for every height up to the next one,
    [LoadValidators] gives validators with the keys and powers of those of
    that height (their priorities are those of the height they last changed
    at), and [LoadConsensusParams] the parameters of that height. *)
Theorem state_store_remembers db0 db st vals params : savedChain db0 db st vals params ->
  LoadState db = Ret (Some (State.uncachedState st)) /\
  (forall h, is_Some (vals !! h) <-> 1 <= h <= State.LastBlockHeight st + 1) /\
  (forall h vs, vals !! h = Some vs -> exists vs', LoadValidators db h = Ret (inr (Some vs')) /\ sameVals vs' vs) /\
  (forall h p, params !! h = Some p -> LoadConsensusParams db h = Ret (inr p)).
Proof.
  intros Hc. destruct (savedChain_inv _ _ _ _ _ Hc) as (cv & cp & Hi). split; [by eapply storeInv_load|]. destruct Hi as [Hw Hb Hch Hs _ _ Hv Hcv Hp Hcp Hhv Hhp Hdv Hdp]. split; [apply (hist_dom _ _ _ _ Hhv)|]. split.
  - intros h vs E. destruct (hist_chg _ _ _ _ Hhv h vs E) as (c & vs' & Ec & Hcb & Ecc & Evs' & Hsame).
    pose proof (Hdv h vs c E Ec) as Eh. pose proof (Hdv c vs' c Evs' Ecc) as Ecd. rewrite Z.eqb_refl in Ecd.
    assert (Hld : forall o k x, DB.contents db !! calcValidatorsKey k = Some (valInfoBytes o x) -> x = c -> loadValidatorsInfo db k = Ret (Some (mkValInfo (uncached <$> o) x))).
    { intros o k x Ek ->. refine (loadAs_some db _ (mkValInfo o c) Hw Ek _). apply marshal_valInfo. cbn. lia. }
    unfold LoadValidators. rewrite (Hld _ _ _ Eh eq_refl). cbn. destruct (Z.eqb_spec c h) as [->|Hne].
    + by exists (uncached vs).
    + cbn. rewrite (Hld _ _ _ Ecd eq_refl). cbn. by exists (uncached vs').
  - intros h p E. destruct (hist_chg _ _ _ _ Hhp h p E) as (c & p' & Ec & Hcb & Ecc & Ep' & <-).
    pose proof (Hdp h p' c E Ec) as Eh. pose proof (Hdp c p' c Ep' Ecc) as Ecd. rewrite Z.eqb_refl in Ecd.
    assert (Hld : forall o k, DB.contents db !! calcConsensusParamsKey k = Some (paramsInfoBytes o c) ->
      loadConsensusParamsInfo db k = Ret (Some (mkParamsInfo (default emptyParams o) c))).
    { intros o k Ek. refine (loadAs_some db _ (mkParamsInfo (default emptyParams o) c) Hw Ek _). apply marshal_paramsInfo. cbn. lia. }
    unfold LoadConsensusParams. rewrite (Hld _ _ Eh). cbn. case_bool_decide as He.
    + rewrite (Hld _ _ Ecd). done.
    + destruct (Z.eqb_spec c h); [done|]. by destruct He.
Qed.
End StateStoreSpec.

(** ** The block store *)

Section BlockStoreSpec.
Context {D I : Type} `{DB.DBLaws D I} `{StoreCodec}.
Context `{Codec} `{Amino} `{Block.BlockCodec}.
Context `{Serial Block.BlockMeta} `{Serial PartSet.Part} `{Serial Commit}.
Context `{!SerialLaws Block.BlockMeta} `{!SerialLaws PartSet.Part}.

(** Writing entries into a map, in order. *)
Definition writeAll (m : gmap bytes bytes) (l : list (bytes * bytes)) : gmap bytes bytes := foldl (fun m kv => <[kv.1 := kv.2]> m) m l.

Lemma applyWrites_contents (db : D) l : DB.db_wf db -> DB.db_wf (applyWrites db l) /\ DB.contents (applyWrites db l) = writeAll (DB.contents db) l.
Proof.
  revert db. induction l as [|[k v] l IH]; intros db Hw; [done|]. destruct (DB.Set_contents db k (Some v) Hw) as [W E].
  destruct (IH (DB.Set_ db k (Some v)) W) as [W' E']. split; [exact W'|]. change (default [] (Some v)) with v in E. unfold writeAll in *. cbn [foldl fst snd]. rewrite <- E. exact E'.
Qed.

Lemma writeAll_out m l k : k ∉ l.*1 -> writeAll m l !! k = m !! k.
Proof.
  revert m. induction l as [|[k' v] l IH]; intros m Hk; [done|]. cbn in Hk. apply not_elem_of_cons in Hk as [Hne Hk].
  unfold writeAll in *. cbn [foldl fst snd]. rewrite IH by done. by apply lookup_insert_ne.
Qed.

Lemma writeAll_in m l k v : NoDup l.*1 -> (k, v) ∈ l -> writeAll m l !! k = Some v.
Proof.
  revert m. induction l as [|[k' v'] l IH]; intros m Hn Hin; [by apply elem_of_nil in Hin|]. cbn in Hn. apply NoDup_cons in Hn as [Hk Hn].
  unfold writeAll in *. cbn [foldl fst snd]. apply elem_of_cons in Hin as [[= -> ->]|Hin]; [|by apply IH].
  fold (writeAll (<[k' := v']> m) l). rewrite writeAll_out by done. apply lookup_insert_eq.
Qed.

(** A block that the node saves: it has a header and a commit, its parts are
    those of its encoding, and the codec reads it back. *)
Record savable (b : Block.Block) (h : Block.Header) (c : Commit) (ps : PartSet.PartSet) : Prop := {
  sb_header : Block.b_Header b = Some h;
  sb_commit : Block.b_Commit b = Some c;
  sb_total : PartSet.ps_total ps = zlen (PartSet.ps_parts ps);
  sb_small : zlen (PartSet.ps_parts ps) <= MaxInt64;
  sb_count : PartSet.IsComplete ps = true;
  sb_parts : PartSet.complete (PartSet.ps_parts ps);
  sb_bytes : UnmarshalBinaryBlock (PartSet.contents (PartSet.ps_parts ps)) = Some b;
  sb_meta_bytes : marshal (Block.NewBlockMeta b (Some ps)) <> [];
  sb_part_bytes : forall p, Some p ∈ PartSet.ps_parts ps -> marshal p <> [] }.

(** The codec reads back the height. *)
Definition heightCodec : Prop := forall n, 0 <= n <= MaxInt64 -> MarshalStoreState (mkStoreState n) <> [] /\
  UnmarshalStoreState (MarshalStoreState (mkStoreState n)) = Some (mkStoreState n).

Definition partWrites (height : Z) (parts : list (option PartSet.Part)) : list (bytes * bytes) :=
  imap (fun i o => (calcBlockPartKey height (Z.of_nat i), match o with Some p => marshal p | None => [] end)) parts.
Definition lastWrites (height : Z) (c sc : Commit) : list (bytes * bytes) :=
  [(calcBlockCommitKey (sub64 height 1), marshal c); (calcSeenCommitKey height, marshal sc)].
Definition descriptor (height : Z) : list (bytes * bytes) := [(blockStoreKey, MarshalStoreState (mkStoreState height)); ([], [])].

Lemma partLoop_spec height (ps : PartSet.PartSet) : PartSet.ps_total ps = zlen (PartSet.ps_parts ps) -> PartSet.complete (PartSet.ps_parts ps) ->
  go_for 0 (PartSet.Total (Some ps)) (fun i l => part ← PartSet.GetPart ps i; part ← deref part; Ret (l ++ [(calcBlockPartKey height i, marshal part)])) [] =
    Ret (partWrites height (PartSet.ps_parts ps)).
Proof.
  intros Ht Hc. unfold PartSet.Total. rewrite Ht. set (parts := PartSet.ps_parts ps) in *.
  destruct (go_for_inv (fun i l => l = partWrites height (take (Z.to_nat i) parts)) 0 (zlen parts)
    (fun i l => part ← PartSet.GetPart ps i; part ← deref part; Ret (l ++ [(calcBlockPartKey height i, marshal part)])) []) as (s & -> & ->).
  - apply zlen_nonneg.
  - done.
  - intros i l Hi ->. destruct (idx_total parts i Hi) as (o & Eo & Hl). unfold PartSet.GetPart. fold parts. rewrite Eo. cbn.
    destruct (Hc _ _ Hl) as [p ->]. cbn. eexists. split; [done|]. replace (Z.to_nat (i + 1)) with (S (Z.to_nat i)) by lia.
    rewrite (take_S_r _ _ _ Hl). unfold partWrites. rewrite imap_app. f_equal. cbn.
    apply lookup_lt_Some in Hl. rewrite length_take. replace (Z.of_nat (_ + 0)) with i by lia. done.
  - f_equal. rewrite take_ge; [done|]. unfold zlen. lia.
Qed.

Lemma blockWrites_spec (bs : BlockStore D) b h c ps sc : savable b h c ps -> blockWrites bs (Some b) ps sc =
  if negb (Block.Height h =? add64 (bs_height bs) 1) then Panic (PanicSanity "BlockStore can only save contiguous blocks")
  else Ret (Block.Height h, ((calcBlockMetaKey (Block.Height h), marshal (Block.NewBlockMeta b (Some ps))) ::
         partWrites (Block.Height h) (PartSet.ps_parts ps) ++ lastWrites (Block.Height h) c sc) ++ descriptor (Block.Height h)).
Proof.
  intros Hs. unfold blockWrites. rewrite (sb_header _ _ _ _ Hs). cbn [deref mbind go_mbind]. destruct (negb (_ =? _)); [done|].
  rewrite (sb_count _ _ _ _ Hs). cbn [negb]. rewrite (partLoop_spec _ ps (sb_total _ _ _ _ Hs) (sb_parts _ _ _ _ Hs)). cbn [mbind go_mbind].
  rewrite (sb_commit _ _ _ _ Hs). cbn. by rewrite <- app_assoc.
Qed.

Lemma bkind_ne k k' : blockKind k <> blockKind k' -> k <> k'.
Proof. congruence. Qed.
Lemma metaKey_inj a b : int64 a -> int64 b -> calcBlockMetaKey a = calcBlockMetaKey b -> a = b.
Proof. intros Ha Hb E. by apply app_inv_head, formatInt_inj in E. Qed.
Lemma partKey_height h i h' i' : int64 h -> int64 h' -> calcBlockPartKey h i = calcBlockPartKey h' i' -> h = h'.
Proof.
  intros Hh Hh' E. unfold calcBlockPartKey in E. apply app_inv_head in E. change (str ":") with [":"%byte] in E. cbn [app] in E.
  apply split_at in E as [E1 _]; [|apply formatInt_no_colon..]. by apply formatInt_inj.
Qed.

Lemma partWrites_elem height parts kv : kv ∈ partWrites height parts <->
  exists i o, parts !! i = Some o /\ kv = (calcBlockPartKey height (Z.of_nat i), match o with Some p => marshal p | None => [] end).
Proof.
  unfold partWrites. rewrite list_elem_of_lookup. setoid_rewrite list_lookup_imap. split.
  - intros [i E]. apply fmap_Some in E as (o & Ho & ->). by exists i, o.
  - intros (i & o & Ho & ->). exists i. by rewrite Ho.
Qed.

(** All writes of a block but the descriptor. *)
Definition bodyWrites b c ps sc (height : Z) : list (bytes * bytes) :=
  (calcBlockMetaKey height, marshal (Block.NewBlockMeta b (Some ps))) :: partWrites height (PartSet.ps_parts ps) ++ lastWrites height c sc.

Lemma bodyWrites_key b c ps sc height k : k ∈ (bodyWrites b c ps sc height).*1 ->
  k = calcBlockMetaKey height \/ (exists i, k = calcBlockPartKey height i) \/ k = calcBlockCommitKey (sub64 height 1) \/ k = calcSeenCommitKey height.
Proof.
  intros ([k' v] & -> & Hin)%list_elem_of_fmap. cbn. unfold bodyWrites in Hin. rewrite elem_of_cons, elem_of_app in Hin.
  destruct Hin as [[= -> _]|[Hin|Hin]]; [by left| |].
  - apply partWrites_elem in Hin as (i & o & _ & [= -> _]). right; left. by exists (Z.of_nat i).
  - unfold lastWrites in Hin. rewrite elem_of_cons, list_elem_of_singleton in Hin. destruct Hin as [[= -> _]|[= -> _]]; [right; right; by left|by do 3 right].
Qed.

Lemma NoDup_partWrites height parts : zlen parts <= MaxInt64 -> int64 height -> NoDup (partWrites height parts).*1.
Proof.
  intros Hl Hh. unfold partWrites. rewrite fmap_imap. apply NoDup_alt. intros i j k Hi Hj. rewrite list_lookup_imap in Hi, Hj.
  apply fmap_Some in Hi as (o & Ho & ->). apply fmap_Some in Hj as (o' & Ho' & E). cbn in E.
  assert (H64 : forall n o, parts !! n = Some o -> int64 (Z.of_nat n)) by (intros n x Hx%lookup_lt_Some; unfold zlen, int64, MinInt64, MaxInt64 in *; lia).
  apply partKey_inj in E as [_ E]; [lia|done|by eapply H64|done|by eapply H64].
Qed.

Lemma NoDup_writes b c ps sc height : zlen (PartSet.ps_parts ps) <= MaxInt64 -> int64 height ->
  NoDup (bodyWrites b c ps sc height ++ descriptor height).*1.
Proof.
  intros Hl Hh. unfold bodyWrites, lastWrites, descriptor. rewrite fmap_app. cbn [app fmap list_fmap fst]. rewrite fmap_app. cbn [app fmap list_fmap fst].
  assert (Hp : forall k, k ∈ (partWrites height (PartSet.ps_parts ps)).*1 -> blockKind k = Some 1%nat).
  { intros k ([k' v] & -> & Hin)%list_elem_of_fmap. apply partWrites_elem in Hin as (i & o & _ & [= -> _]). done. }
  constructor.
  - rewrite !elem_of_app, !elem_of_cons, !elem_of_nil. intros Hin. assert (blockKind (calcBlockMetaKey height) = Some 0%nat) as Hk by done.
    destruct Hin as [[Hin%Hp|[E|[E|[]]]]|[E|[E|[]]]]; try (rewrite E in Hk); discriminate.
  - rewrite <- app_assoc. apply NoDup_app. split_and!; [by apply NoDup_partWrites| |].
    + intros k Hk%Hp. rewrite !elem_of_app, !elem_of_cons, !elem_of_nil. intros Hin. destruct Hin as [[->|[->|[]]]|[->|[->|[]]]]; discriminate.
    + cbn [app]. repeat constructor; rewrite ?elem_of_cons, ?elem_of_nil; intros Hin; repeat destruct Hin as [Hin|Hin]; try apply (f_equal blockKind) in Hin; done.
Qed.

(** ** Loading depends on the keys of the height only *)

Lemma loadBare_ext T `{Serial T} (bs bs' : BlockStore D) key why : DB.db_wf (bs_db bs) -> DB.db_wf (bs_db bs') ->
  DB.contents (bs_db bs') !! key = DB.contents (bs_db bs) !! key -> loadBare T bs' key why = loadBare T bs key why.
Proof. intros Hw Hw' E. unfold loadBare. by rewrite !DB.Get_contents, E by done. Qed.

Lemma go_fold_ext {A S} (f g : A -> S -> go S) l s : (forall x s, f x s = g x s) -> go_fold f l s = go_fold g l s.
Proof. intros E. revert s. induction l as [|x l IH]; intros s; [done|]. cbn. rewrite E. destruct (g x s); [apply IH|done]. Qed.

Lemma LoadBlock_ext (bs bs' : BlockStore D) h : DB.db_wf (bs_db bs) -> DB.db_wf (bs_db bs') ->
  DB.contents (bs_db bs') !! calcBlockMetaKey h = DB.contents (bs_db bs) !! calcBlockMetaKey h ->
  (forall i, DB.contents (bs_db bs') !! calcBlockPartKey h i = DB.contents (bs_db bs) !! calcBlockPartKey h i) ->
  LoadBlock bs' h = LoadBlock bs h.
Proof.
  intros Hw Hw' Em Ep. unfold LoadBlock, LoadBlockMeta. rewrite (loadBare_ext _ bs bs') by done.
  destruct (loadBare Block.BlockMeta bs _ _) as [[m|]|]; [|done|done]. cbn. unfold go_for. erewrite go_fold_ext; [done|].
  intros i buf. unfold LoadBlockPart. by rewrite (loadBare_ext _ bs bs').
Qed.

Lemma loadBare_some T `{SerialLaws T} (bs : BlockStore D) key why (x : T) : DB.db_wf (bs_db bs) ->
  DB.contents (bs_db bs) !! key = Some (marshal x) -> marshal x <> [] -> loadBare T bs key why = Ret (Some (persisted x)).
Proof.
  intros Hw E Hne. unfold loadBare. rewrite DB.Get_contents, E by done. cbn. rewrite (proj2 (Z.eqb_neq _ _)), unmarshal_marshal; [done|].
  unfold zlen. destruct (marshal x); [done|cbn; lia].
Qed.

Lemma LoadBlock_saved (bs : BlockStore D) b h c ps sc height : DB.db_wf (bs_db bs) -> savable b h c ps ->
  (forall k v, (k, v) ∈ bodyWrites b c ps sc height -> DB.contents (bs_db bs) !! k = Some v) ->
  LoadBlock bs height = Ret (Some b).
Proof.
  intros Hw Hs Hk. unfold LoadBlock, LoadBlockMeta.
  rewrite (loadBare_some _ _ _ _ (Block.NewBlockMeta b (Some ps))); [|done|apply Hk; left|apply (sb_meta_bytes _ _ _ _ Hs)].
  cbn [persisted BlockMeta_persistent id mbind go_mbind Block.NewBlockMeta Block.bm_BlockID bid_PartsHeader PartSet.Header psh_Total].
  rewrite (sb_total _ _ _ _ Hs). set (parts := PartSet.ps_parts ps).
  destruct (go_for_inv (fun i buf => buf = PartSet.contents (take (Z.to_nat i) parts)) 0 (zlen parts)
    (fun i buf => part ← LoadBlockPart bs height i; part ← deref part; Ret (buf ++ PartSet.Bytes part)) []) as (s & -> & ->).
  - apply zlen_nonneg.
  - done.
  - intros i buf Hi ->. destruct (idx_total parts i Hi) as (o & _ & Hl). destruct (sb_parts _ _ _ _ Hs _ _ Hl) as [p ->].
    unfold LoadBlockPart. rewrite (loadBare_some _ _ _ _ p); [|done| |].
    + cbn. eexists. split; [done|]. replace (Z.to_nat (i + 1)) with (S (Z.to_nat i)) by lia. rewrite (take_S_r _ _ _ Hl).
      unfold PartSet.contents. rewrite fmap_app, join_app. cbn. by rewrite app_nil_r.
    + apply Hk. right. apply elem_of_app. left. apply partWrites_elem. exists (Z.to_nat i), (Some p). split; [done|]. by rewrite Z2Nat.id by lia.
    + apply (sb_part_bytes _ _ _ _ Hs). by eapply list_elem_of_lookup_2.
  - cbn [mbind go_mbind]. rewrite take_ge by (unfold zlen; lia). unfold parts. rewrite (sb_bytes _ _ _ _ Hs). done.
Qed.

(** ** Runs of the block store with crashes *)

(** The store is opened on a database without blocks; it saves blocks and
    buckets; in the middle of the writes of a block the node may crash and
    open the store again.  [blocks] are those saved. *)
Inductive storeRuns : BlockStore D -> gmap Z Block.Block -> Prop :=
| runs_open db bs : DB.db_wf db -> DB.contents db !! blockStoreKey = None -> NewBlockStore db = Ret bs -> storeRuns bs ∅
| runs_save bs blocks b h c ps sc bs' : storeRuns bs blocks -> savable b h c ps -> 1 <= Block.Height h <= MaxInt64 ->
    SaveBlock bs (Some b) ps sc = Ret bs' -> storeRuns bs' (<[Block.Height h := b]> blocks)
| runs_bucket bs blocks height bucketID bucket : storeRuns bs blocks -> storeRuns (SaveBucket bs height bucketID bucket) blocks
| runs_crash bs blocks b h c ps sc height l n bs' : storeRuns bs blocks -> savable b h c ps -> 1 <= Block.Height h <= MaxInt64 ->
    blockWrites bs (Some b) ps sc = Ret (height, l) -> NewBlockStore (applyWrites (bs_db bs) (take n l)) = Ret bs' ->
    storeRuns bs' (if bool_decide (bs_height bs' = height) then <[height := b]> blocks else blocks).

Record runInv (bs : BlockStore D) (blocks : gmap Z Block.Block) : Prop := {
  ri_wf : DB.db_wf (bs_db bs);
  ri_height : 0 <= bs_height bs <= MaxInt64;
  ri_open : NewBlockStore (bs_db bs) = Ret bs;
  ri_dom : forall h, is_Some (blocks !! h) <-> 1 <= h <= bs_height bs;
  ri_load : forall h b, blocks !! h = Some b -> LoadBlock bs h = Ret (Some b) }.

Lemma NewBlockStore_same (db db' : D) h : DB.db_wf db -> DB.db_wf db' -> DB.contents db' !! blockStoreKey = DB.contents db !! blockStoreKey ->
  NewBlockStore db = Ret (mkBlockStore db h) -> NewBlockStore db' = Ret (mkBlockStore db' h).
Proof.
  intros Hw Hw' E. unfold NewBlockStore, LoadBlockStoreStateJSON. rewrite !DB.Get_contents, E by done.
  destruct (if _ =? 0 then _ else _); cbn; [by intros [= ->]|done].
Qed.

Lemma NewBlockStore_desc (db : D) height : heightCodec -> 0 <= height <= MaxInt64 -> DB.db_wf db ->
  DB.contents db !! blockStoreKey = Some (MarshalStoreState (mkStoreState height)) -> NewBlockStore db = Ret (mkBlockStore db height).
Proof.
  intros Hc Hh Hw E. destruct (Hc height Hh) as [Hne Hu]. unfold NewBlockStore, LoadBlockStoreStateJSON. rewrite DB.Get_contents, E by done. cbn.
  rewrite (proj2 (Z.eqb_neq _ _)) by (unfold zlen; destruct (MarshalStoreState _); [done|cbn; lia]). by rewrite Hu.
Qed.

Lemma take_writes b c ps sc height n : let l := bodyWrites b c ps sc height ++ descriptor height in
  blockStoreKey ∉ (take n l).*1 \/ exists rest, take n l = bodyWrites b c ps sc height ++ (blockStoreKey, MarshalStoreState (mkStoreState height)) :: rest.
Proof.
  intros l. unfold l. rewrite take_app. destruct (decide (n <= length (bodyWrites b c ps sc height))%nat) as [Hn|Hn].
  - left. replace (n - length (bodyWrites b c ps sc height))%nat with 0%nat by lia. cbn [take descriptor]. rewrite app_nil_r.
    intros Hin. assert (Hin' : blockStoreKey ∈ (bodyWrites b c ps sc height).*1).
    { rewrite list_elem_of_fmap in *. destruct Hin as (kv & E & Hin). exists kv. split; [done|]. by eapply elem_of_take in Hin as (i & Hi & _); eapply list_elem_of_lookup_2. }
    apply bodyWrites_key in Hin' as [E|[[i E]|[E|E]]]; apply (f_equal blockKind) in E; done.
  - right. rewrite take_ge by lia. destruct (n - length (bodyWrites b c ps sc height))%nat as [|k] eqn:Ek; [lia|]. cbn [take descriptor]. by eexists.
Qed.

(** Some or all of the writes of a block. *)
Lemma writes_inv (bs : BlockStore D) blocks b h c ps sc n : heightCodec -> runInv bs blocks -> savable b h c ps -> 1 <= Block.Height h <= MaxInt64 ->
  Block.Height h = bs_height bs + 1 ->
  let height := Block.Height h in let db' := applyWrites (bs_db bs) (take n (bodyWrites b c ps sc height ++ descriptor height)) in
  (blockStoreKey ∉ (take n (bodyWrites b c ps sc height ++ descriptor height)).*1 -> runInv (mkBlockStore db' (bs_height bs)) blocks) /\
  (blockStoreKey ∈ (take n (bodyWrites b c ps sc height ++ descriptor height)).*1 -> runInv (mkBlockStore db' height) (<[height := b]> blocks)).
Proof.
  intros Hcodec [Hw Hb Ho Hd Hl] Hs Hr Hh height db'. set (l := take n _) in *.
  destruct (applyWrites_contents (bs_db bs) l Hw) as [W E]. fold db' in W, E.
  assert (Hi : int64 height) by (unfold int64, MinInt64, MaxInt64, height in *; lia).
  assert (Hsub : forall k, k ∈ l.*1 -> k ∈ (bodyWrites b c ps sc height).*1 \/ k = blockStoreKey \/ k = []).
  { intros k Hk. rewrite list_elem_of_fmap in Hk. destruct Hk as (kv & -> & Hk). unfold l in Hk. apply elem_of_take in Hk as (i & Hk & _).
    apply list_elem_of_lookup_2, elem_of_app in Hk as [Hk|Hk]; [left; apply list_elem_of_fmap; by exists kv|right].
    unfold descriptor in Hk. rewrite elem_of_cons, list_elem_of_singleton in Hk. destruct Hk as [-> | ->]; [by left|by right]. }
  assert (Hold : forall hh x, int64 hh -> hh <> height -> LoadBlock (mkBlockStore db' x) hh = LoadBlock bs hh).
  { intros hh x Hi' Hne. apply LoadBlock_ext; [done|done| |].
    - cbn [bs_db]. rewrite E, writeAll_out; [done|]. intros [Hk|[Hk|Hk]]%Hsub; [|done|done].
      apply bodyWrites_key in Hk as [Hk|[[i Hk]|[Hk|Hk]]]; try (by apply (f_equal blockKind) in Hk). by apply metaKey_inj in Hk.
    - intros i. cbn [bs_db]. rewrite E, writeAll_out; [done|]. intros [Hk|[Hk|Hk]]%Hsub; [|done|done].
      apply bodyWrites_key in Hk as [Hk|[[j Hk]|[Hk|Hk]]]; try (by apply (f_equal blockKind) in Hk). by apply partKey_height in Hk. }
  assert (H64 : forall hh, 1 <= hh <= bs_height bs -> int64 hh) by (intros hh; unfold int64, MinInt64, MaxInt64 in *; lia).
  assert (Hdom : forall hh bb, blocks !! hh = Some bb -> 1 <= hh <= bs_height bs) by (intros hh bb Eb; apply Hd; by exists bb).
  split; intros Hk.
  - split; cbn [bs_db bs_height]; try done.
    + apply (NewBlockStore_same (bs_db bs)); [done|done|by rewrite E, writeAll_out|]. by destruct bs.
    + intros hh bb Eb. pose proof (Hdom hh bb Eb). rewrite Hold; [by apply Hl|by apply H64|unfold height; lia].
  - assert (Hn : NoDup l.*1).
    { unfold l. rewrite fmap_take. pose proof (NoDup_writes b c ps sc height (sb_small _ _ _ _ Hs) Hi) as Hn. rewrite <- (take_drop n) in Hn. by apply NoDup_app in Hn as [Hn _]. }
    destruct (take_writes b c ps sc height n) as [Hno|[rest Hrest]]; [done|]. fold l in Hrest.
    split; cbn [bs_db bs_height]; [done|unfold height; lia| | |].
    + apply NewBlockStore_desc; [done|unfold height; lia|done|]. rewrite E. apply writeAll_in; [done|]. rewrite Hrest. apply elem_of_app. right. left.
    + intros hh. destruct (decide (hh = height)) as [->|Hne]; [rewrite lookup_insert_eq; split; [intros _; unfold height; lia|by eexists]|].
      rewrite lookup_insert_ne by done. rewrite Hd. unfold height in *. lia.
    + intros hh bb. destruct (decide (hh = height)) as [->|Hne].
      * rewrite lookup_insert_eq. intros [= <-]. apply (LoadBlock_saved _ b h c ps sc); [done|done|]. intros k v Hkv. cbn [bs_db]. rewrite E.
        apply writeAll_in; [done|]. rewrite Hrest. apply elem_of_app. by left.
      * rewrite lookup_insert_ne by done. intros Eb. pose proof (Hdom hh bb Eb). rewrite Hold; [by apply Hl|by apply H64|done].
Qed.

Lemma contiguous (bs : BlockStore D) b h c ps sc height l : 0 <= bs_height bs <= MaxInt64 -> savable b h c ps -> 1 <= Block.Height h <= MaxInt64 ->
  blockWrites bs (Some b) ps sc = Ret (height, l) ->
  height = Block.Height h /\ Block.Height h = bs_height bs + 1 /\ l = bodyWrites b c ps sc height ++ descriptor height.
Proof.
  intros Hb Hs Hr E. rewrite (blockWrites_spec bs b h c ps sc Hs) in E. destruct (Z.eqb_spec (Block.Height h) (add64 (bs_height bs) 1)) as [Eh|]; [|done].
  cbn in E. injection E as <- <-. split; [done|]. split; [|done]. destruct (decide (bs_height bs = MaxInt64)) as [Em|Em].
  - rewrite Em in Eh. change (add64 MaxInt64 1) with MinInt64 in Eh. unfold MinInt64, MaxInt64 in *. lia.
  - unfold add64 in Eh. rewrite wrap64_small in Eh; [done|]. unfold int64, MinInt64, MaxInt64 in *. lia.
Qed.

Lemma bucketKey_kind height bucketID : blockKind (bucketKey height bucketID) = None.
Proof.
  unfold bucketKey. destruct (formatInt height) as [|x l] eqn:E.
  - unfold formatInt in E. destruct (height <? 0); [done|]. cbn in E. destruct (height <? 10); [done|]. by destruct (decDigits 19 (height / 10)).
  - destruct (formatInt_chars height x) as [Hd| ->]; [rewrite E; left| |done]. unfold isDigitByte in Hd. cbn [app].
    destruct x; try done; vm_compute in Hd; by destruct Hd as [A B]; exfalso; (apply A; reflexivity) || (apply B; reflexivity).
Qed.

Lemma storeRuns_inv (bs : BlockStore D) blocks : heightCodec -> storeRuns bs blocks -> runInv bs blocks.
Proof.
  intros Hcodec. induction 1 as [db bs Hw He Ho|bs blocks b h c ps sc bs' _ IH Hs Hr E|bs blocks height bucketID bucket _ IH|
    bs blocks b h c ps sc height l n bs' _ IH Hs Hr E Eo].
  - assert (bs = mkBlockStore db 0) as ->.
    { unfold NewBlockStore, LoadBlockStoreStateJSON in Ho. rewrite DB.Get_contents, He in Ho by done. cbn in Ho. by injection Ho as <-. }
    split; cbn [bs_db bs_height]; [done|unfold MaxInt64; lia|done| |].
    + intros h. rewrite lookup_empty. split; [by intros []|lia].
    + intros h b. by rewrite lookup_empty.
  - unfold SaveBlock in E. destruct (blockWrites bs (Some b) ps sc) as [[height l]|] eqn:Ew; [|done]. cbn in E. injection E as <-.
    destruct (contiguous bs b h c ps sc height l (ri_height _ _ IH) Hs Hr Ew) as (-> & Eh & ->).
    destruct (writes_inv bs blocks b h c ps sc (length (bodyWrites b c ps sc (Block.Height h) ++ descriptor (Block.Height h))) Hcodec IH Hs Hr Eh) as [_ Hin].
    rewrite firstn_all in Hin. apply Hin. rewrite fmap_app, elem_of_app. right. left.
  - destruct IH as [Hw Hb Ho Hd Hl]. unfold SaveBucket. set (k := bucketKey height bucketID). pose proof (bucketKey_kind height bucketID) as Hk. fold k in Hk.
    destruct (DB.Set_contents (bs_db bs) k (Some (MarshalBinaryBareBucket bucket)) Hw) as [W E].
    assert (Hsame : forall x, blockKind x <> None -> DB.contents (DB.Set_ (bs_db bs) k (Some (MarshalBinaryBareBucket bucket))) !! x = DB.contents (bs_db bs) !! x).
    { intros x Hx. rewrite E. apply lookup_insert_ne. intros <-. by rewrite Hk in Hx. }
    split; cbn [bs_db bs_height]; try done.
    + apply (NewBlockStore_same (bs_db bs)); [done|done|by apply Hsame|by destruct bs].
    + intros hh b Eb. rewrite <- (Hl hh b Eb). apply LoadBlock_ext; [done|done|by apply Hsame|]. intros i. by apply Hsame.
  - destruct (contiguous bs b h c ps sc height l (ri_height _ _ IH) Hs Hr E) as (-> & Eh & ->).
    destruct (writes_inv bs blocks b h c ps sc n Hcodec IH Hs Hr Eh) as [Hout Hin]. set (w := take n _) in *.
    destruct (decide (blockStoreKey ∈ w.*1)) as [Hk|Hk].
    + specialize (Hin Hk). pose proof (ri_open _ _ Hin) as Eo'. cbn [bs_db] in Eo'. rewrite Eo in Eo'. injection Eo' as ->. cbn. by rewrite bool_decide_true.
    + specialize (Hout Hk). pose proof (ri_open _ _ Hout) as Eo'. cbn [bs_db] in Eo'. rewrite Eo in Eo'. injection Eo' as ->. cbn. rewrite bool_decide_false; [done|lia].
Qed.

Lemma restart_ok (bs : BlockStore D) blocks b h c ps sc height l n : heightCodec -> storeRuns bs blocks -> savable b h c ps ->
  1 <= Block.Height h <= MaxInt64 -> blockWrites bs (Some b) ps sc = Ret (height, l) ->
  exists bs', NewBlockStore (applyWrites (bs_db bs) (take n l)) = Ret bs'.
Proof.
  intros Hcodec IH%storeRuns_inv Hs Hr E; [|done]. destruct (contiguous bs b h c ps sc height l (ri_height _ _ IH) Hs Hr E) as (-> & Eh & ->).
  destruct (writes_inv bs blocks b h c ps sc n Hcodec IH Hs Hr Eh) as [Hout Hin]. set (w := take n _) in *.
  destruct (decide (blockStoreKey ∈ w.*1)) as [Hk|Hk]; eexists; [exact (ri_open _ _ (Hin Hk))|exact (ri_open _ _ (Hout Hk))].
Qed.

(** C19: blocks are durable.  Over any database, after any sequence of saved
    blocks and buckets and of crashes between the writes of a block, the
    store holds the blocks of all heights from 1 to its height, each loads as
    it was saved, opening the database again gives the same store, and a
    crash after any number of the writes of the next block leaves a database
    that opens. *)
Theorem block_store_durable (bs : BlockStore D) blocks : heightCodec -> storeRuns bs blocks ->
  (forall h, is_Some (blocks !! h) <-> 1 <= h <= bs_height bs) /\
  (forall h b, blocks !! h = Some b -> LoadBlock bs h = Ret (Some b)) /\
  NewBlockStore (bs_db bs) = Ret bs /\
  (forall b h c ps sc height l n, savable b h c ps -> 1 <= Block.Height h <= MaxInt64 -> blockWrites bs (Some b) ps sc = Ret (height, l) ->
    exists bs', NewBlockStore (applyWrites (bs_db bs) (take n l)) = Ret bs').
Proof.
  intros Hc Hr. destruct (storeRuns_inv bs blocks Hc Hr) as [_ _ Ho Hd Hl]. split_and!; [done..|].
  intros b h c ps sc height l n. by apply restart_ok with (blocks := blocks).
Qed.
End BlockStoreSpec.

(** ** Witnesses *)

Section Examples.
#[local] Existing Instance toyCodec.
#[local] Existing Instance toyCurves.
#[local] Existing Instance uvarintAmino.
#[local] Existing Instance Block.toyBlockCodec.
#[local] Existing Instance Block.toyDecoder.
#[local] Existing Instance State.toyValidatorCodec.
#[local] Existing Instance State.toyResultCodec.
#[local] Existing Instances DB.memDB DB.memDB_laws.

#[local] Instance PubKey_countable : Countable PubKey :=
  inj_countable' (fun k => match k with PubKeyEd25519 b => inl b | PubKeySecp256k1 b => inr b end)
    (fun s => match s with inl b => PubKeyEd25519 b | inr b => PubKeySecp256k1 b end) ltac:(by intros []).
#[local] Instance Signature_countable : Countable Signature :=
  inj_countable' (fun k => match k with SignatureEd25519 b => inl b | SignatureSecp256k1 b => inr b end)
    (fun s => match s with inl b => SignatureEd25519 b | inr b => SignatureSecp256k1 b end) ltac:(by intros []).
#[local] Instance Validator_countable : Countable Validator :=
  inj_countable' (fun v => (val_Address v, val_PubKey v, val_VotingPower v, val_Accum v))
    (fun '(a, k, p, c) => mkValidator a k p c) ltac:(by intros []).
#[local] Instance ValidatorSet_countable : Countable ValidatorSet :=
  inj_countable' (fun v => (ValidatorSet.Validators v, ValidatorSet.Proposer v, totalVotingPower v))
    (fun '(a, k, p) => mkValidatorSet a k p) ltac:(by intros []).
#[local] Instance BlockID_countable : Countable BlockID :=
  inj_countable' (fun b => (bid_Hash b, psh_Total (bid_PartsHeader b), psh_Hash (bid_PartsHeader b)))
    (fun '(h, t, p) => mkBlockID h (mkPartSetHeader t p)) ltac:(by intros [? []]).
#[local] Instance Params_countable : Countable Block.ConsensusParams :=
  inj_countable' (fun p => (Block.BlockSize_MaxBytes p, Block.BlockSize_MaxTxs p, Block.BlockSize_MaxGas p, Block.TxSize_MaxBytes p, Block.TxSize_MaxGas p,
      Block.BlockPartSizeBytes p, Block.Evidence_MaxAge p))
    (fun '(a, b, c, d, e, f, g) => Block.mkParams a b c d e f g) ltac:(by intros []).
#[local] Instance State_eq_dec : EqDecision State.State.
Proof. solve_decision. Defined.
#[local] Instance State_countable : Countable State.State :=
  inj_countable' (fun s => (State.ChainID s, State.LastBlockHeight s, State.LastBlockTotalTx s, State.LastBlockID s, State.LastBlockTime s, State.Validators s,
      State.LastValidators s, State.LastHeightValidatorsChanged s, State.Params s, State.LastHeightConsensusParamsChanged s, State.LastResultsHash s, State.AppHash s))
    (fun '(a, b, c, d, e, f, g, h, i, j, k, l) => State.mkState a b c d e f g h i j k l) ltac:(by intros []).
#[local] Instance ValInfo_eq_dec : EqDecision ValidatorsInfo.
Proof. solve_decision. Defined.
#[local] Instance ValInfo_countable : Countable ValidatorsInfo :=
  inj_countable' (fun v => (vi_ValidatorSet v, vi_LastHeightChanged v)) (fun '(a, b) => mkValInfo a b) ltac:(by intros []).
#[local] Instance ParamsInfo_eq_dec : EqDecision ConsensusParamsInfo.
Proof. solve_decision. Defined.
#[local] Instance ParamsInfo_countable : Countable ConsensusParamsInfo :=
  inj_countable' (fun v => (cpi_ConsensusParams v, cpi_LastHeightChanged v)) (fun '(a, b) => mkParamsInfo a b) ltac:(by intros []).
#[local] Instance Updates_eq_dec : EqDecision Block.ParamUpdates.
Proof. solve_decision. Defined.
#[local] Instance Updates_countable : Countable Block.ParamUpdates :=
  inj_countable' (fun u => (Block.up_BlockSize u, Block.up_TxSize u, Block.up_BlockGossip u)) (fun '(a, b, c) => Block.mkParamUpdates a b c) ltac:(by intros []).
#[local] Instance DeliverTx_eq_dec : EqDecision State.ResponseDeliverTx.
Proof. solve_decision. Defined.
#[local] Instance DeliverTx_countable : Countable State.ResponseDeliverTx :=
  inj_countable' (fun u => (State.dtx_Code u, State.dtx_Data u)) (fun '(a, b) => State.mkDeliverTx a b) ltac:(by intros []).
#[local] Instance abciPubKey_eq_dec : EqDecision State.abciPubKey.
Proof. solve_decision. Defined.
#[local] Instance abciValidator_eq_dec : EqDecision State.abciValidator.
Proof. solve_decision. Defined.
#[local] Instance abciValidator_countable : Countable State.abciValidator :=
  inj_countable' (fun v => (State.av_Address v, State.apk_Type (State.av_PubKey v), State.apk_Data (State.av_PubKey v), State.av_Power v))
    (fun '(a, t, d, p) => State.mkAbciValidator a (State.mkAbciPubKey t d) p) ltac:(by intros [? [] ?]).
#[local] Instance Responses_eq_dec : EqDecision State.ABCIResponses.
Proof. solve_decision. Defined.
#[local] Instance Responses_countable : Countable State.ABCIResponses :=
  inj_countable' (fun r => (State.DeliverTx r, State.ConsensusParamUpdates r, State.GetValidatorSet r)) (fun '(a, b, c) => State.mkResponses a b c) ltac:(by intros []).
#[local] Instance Header_eq_dec : EqDecision Block.Header.
Proof. solve_decision. Defined.
#[local] Instance Header_countable : Countable Block.Header :=
  inj_countable' (fun h => (Block.ChainID h, Block.Height h, Block.Time_ h, Block.NumTxs h, Block.LastBlockID h, Block.TotalTxs h, Block.LastBucketHashes h, Block.DataHash h,
      Block.ValidatorsHash h, Block.ConsensusHash h, Block.AppHash h, Block.LastResultsHash h))
    (fun '(a, b, c, d, e, f, g, h, i, j, k, l) => Block.mkHeader a b c d e f g h i j k l) ltac:(by intros []).
#[local] Instance Meta_eq_dec : EqDecision Block.BlockMeta.
Proof. solve_decision. Defined.
#[local] Instance Meta_countable : Countable Block.BlockMeta :=
  inj_countable' (fun m => (Block.bm_BlockID m, Block.bm_Header m)) (fun '(a, b) => Block.mkBlockMeta a b) ltac:(by intros []).
#[local] Instance Proof_eq_dec : EqDecision Merkle.SimpleProof.
Proof. solve_decision. Defined.
#[local] Instance Part_eq_dec : EqDecision PartSet.Part.
Proof. solve_decision. Defined.
#[local] Instance Part_countable : Countable PartSet.Part :=
  inj_countable' (fun p => (PartSet.Index p, PartSet.Bytes p, Merkle.Aunts (PartSet.Proof_ p)))
    (fun '(a, b, c) => PartSet.mkPart a b (Merkle.mkSimpleProof c)) ltac:(by intros [? ? []]).

#[local] Instance encSerial `{Countable T} `{Persistent T} : Serial T := {| marshal := enc; unmarshal := fun bz => persisted <$> dec bz |}.
#[local] Instance encLaws `{Countable T} `{Persistent T} : SerialLaws T.
Proof. split. intros x. cbn. by rewrite dec_enc. Qed.
#[local] Instance encInfo : InfoLaws.
Proof. by split. Qed.

(** *** The state store *)

(** The genesis state and one block, after which the power of a validator
    is raised. *)
Definition exStart : State.State := State.mkState (str "chain") 0 0 zeroBlockID 0 exampleSet exampleSet 1 Block.DefaultConsensusParams 1 [] (str "app").
Definition exFirst : Block.Header := Block.mkHeader (str "chain") 1 0 1 zeroBlockID 1 None None [] [] [] [].
Definition exNext : State.State :=
  match State.updateState exStart exampleBlock (Some exFirst) State.exResponses with Ret (inr st) => st | _ => exStart end.

Lemma exNext_ok : State.updateState exStart exampleBlock (Some exFirst) State.exResponses = Ret (inr exNext).
Proof. unfold exNext. destruct (State.updateState _ _ _ _) as [[e|st]|p] eqn:E; [exfalso|reflexivity|exfalso]; vm_compute in E; discriminate. Qed.
Lemma exStart_caches : State.cachesOK exStart.
Proof. by split; left. Qed.

(** The validators of the first height are still there after the block. *)
Lemma state_store_remembers_witness : exists (db : DB.MemDB) vs, LoadValidators db 1 = Ret (inr (Some vs)) /\ sameVals vs exampleSet.
Proof.
  pose proof (chain_block ∅ _ _ _ _ exampleBlock exFirst State.exResponses exNext [] (chain_genesis ∅ exStart Logic.I ltac:(discriminate) exampleSet_sorted exStart_caches eq_refl eq_refl eq_refl)
    eq_refl eq_refl State.exResponses_delivered exNext_ok) as Hc.
  destruct (state_store_remembers _ _ _ _ _ Hc) as (_ & _ & Hv & _).
  destruct (Hv 1 exampleSet) as (vs & E & Hs); [rewrite lookup_insert_ne by done; apply lookup_singleton_eq|].
  eexists _, vs. split; [exact E|exact Hs].
Defined.

(** *** The block store *)

(** Two blocks, whose encodings are a byte. *)
Definition exBlk (n : Z) : Block.Block := Block.mkBlock (Some (Block.mkHeader (str "chain") n 0 0 zeroBlockID 0 None None [] [] [] [])) (Some (Block.mkData [])) (Some (mkCommit zeroBlockID [])).
Definition exHdr (n : Z) : Block.Header := Block.mkHeader (str "chain") n 0 0 zeroBlockID 0 None None [] [] [] [].
Definition exCommit : Commit := mkCommit zeroBlockID [].
Definition toyStoreCodec : StoreCodec := {|
  UnmarshalBinaryBlock := fun bz => match bz with [b] => Some (exBlk (byte_Z b)) | _ => None end;
  UnmarshalBinaryBucket := fun _ => None;
  MarshalBinaryBareBucket := fun _ => [];
  MarshalStoreState := fun s => enc (bsj_Height s);
  UnmarshalStoreState := fun bz => mkStoreState <$> dec bz |}.
#[local] Existing Instance toyStoreCodec.
#[local] Instance commitSerial : Serial Commit := {| marshal := fun _ => []; unmarshal := fun _ => None |}.

Lemma toyHeightCodec : heightCodec.
Proof. intros n _. split; [done|]. cbn. by rewrite dec_enc. Qed.

Definition exPs (n : Z) : PartSet.PartSet := PartSet.mkPartSet 1 [] [Some (PartSet.mkPart 0 [Z_byte n] (Merkle.mkSimpleProof []))] None 1.
Lemma exSavable n : byte_Z (Z_byte n) = n -> savable (exBlk n) (exHdr n) exCommit (exPs n).
Proof.
  intros Hn. split; try done.
  - by intros [|[|i]] p; [intros [= <-]; eexists| |].
  - cbn. by rewrite Hn.
Qed.

Lemma exSaved : exists bs1 : BlockStore DB.MemDB, storeRuns bs1 (<[1 := exBlk 1]> ∅) /\ bs_height bs1 = 1.
Proof.
  assert (R0 : storeRuns (mkBlockStore (∅ : DB.MemDB) 0) ∅) by (by apply (runs_open ∅)). pose proof (exSavable 1 eq_refl) as S1.
  eexists. split; [apply (runs_save _ _ _ (exHdr 1) _ _ exCommit _ R0 S1); [done|]|]; [unfold SaveBlock; by rewrite (blockWrites_spec _ _ _ _ _ _ S1)|done].
Qed.

(** The first block is saved, and the node crashes after a write of the second. *)
Lemma block_store_durable_witness : exists bs : BlockStore DB.MemDB, bs_height bs = 1 /\ LoadBlock bs 1 = Ret (Some (exBlk 1)).
Proof.
  destruct exSaved as (bs1 & R1 & Eh1). pose proof (exSavable 2 eq_refl) as S2.
  pose proof (blockWrites_spec bs1 _ _ _ _ exCommit S2) as W. rewrite Eh1 in W. change (negb _) with false in W. cbv iota in W.
  pose proof (block_store_durable _ _ toyHeightCodec R1) as (_ & _ & Ho & Hopen).
  destruct (Hopen _ _ _ _ exCommit _ _ 1%nat S2 ltac:(done) W) as [bs2 E2].
  pose proof (runs_crash _ _ _ _ _ _ exCommit _ _ 1%nat bs2 R1 S2 ltac:(done) W E2) as R2.
  assert (Eh : bs_height bs2 = 1).
  { pose proof E2 as E3. rewrite (NewBlockStore_same (bs_db bs1) _ 1) in E3; [by injection E3 as <-|exact Logic.I|exact Logic.I|by apply lookup_insert_ne|rewrite Ho, <- Eh1; by destruct bs1]. }
  pose proof (block_store_durable _ _ toyHeightCodec R2) as (_ & Hl & _ & _). exists bs2. split; [exact Eh|]. apply Hl.
  rewrite bool_decide_false by (rewrite Eh; discriminate). apply lookup_insert_eq.
Defined.
End Examples.
End Store.
