(* ===== verification/CList.v ===== *)
(** * The concurrent linked list: libs/clist/clist.go

    Writers hold the mutex of the list and change elements one at a time under
    the mutex of each element; readers walk the elements without the mutex of
    the list, and wait for the next element.  A list is kept with the store of
    all elements it ever had, an element is its index.  A wait group and the
    channel made with it are a gate; an element keeps its old gates, which
    readers may still wait on. *)

From S2P Require Import Prelude.

Module CList.

(** ** Gates *)

Record Gate := mkGate { g_count : Z; g_closed : bool }.
Definition waitGroup1 : Gate := mkGate 1 false.
(** [wg.Done()] and [close(ch)]. *)
Definition release (g : Gate) : go Gate :=
  if g_count g - 1 <? 0 then Panic (PanicMsg "sync: negative WaitGroup counter") else
  if g_closed g then Panic (PanicMsg "close of closed channel") else
  Ret (mkGate (g_count g - 1) true).

Record Gates := mkGates { gs_old : list Gate; gs_cur : Gate }.
Definition newGates : Gates := mkGates [] waitGroup1.
Definition renew (gs : Gates) : Gates := mkGates (gs_old gs ++ [gs_cur gs]) waitGroup1.
Definition releaseCur (gs : Gates) : go Gates := g ← release (gs_cur gs); Ret (mkGates (gs_old gs) g).
(** The gate a reader got when there were [k] older ones. *)
Definition gateAt (gs : Gates) (k : nat) : option Gate := (gs_old gs ++ [gs_cur gs]) !! k.

Section CList.
Context {V : Type}.

(** ** CElement *)

Record CElement := mkElem {
  e_prev : option nat; e_prevG : Gates;
  e_next : option nat; e_nextG : Gates;
  e_removed : bool;
  e_Value : V }.

(** The list, with the elements it had. *)
Record CList := mkCList { l_elems : list CElement; l_gates : Gates; l_head : option nat; l_tail : option nat; l_len : Z }.

Definition elem (l : CList) (e : nat) : go CElement := match l_elems l !! e with Some x => Ret x | None => Panic NilDeref end.
Definition setElem (l : CList) (e : nat) (x : CElement) : CList := mkCList (<[e := x]> (l_elems l)) (l_gates l) (l_head l) (l_tail l) (l_len l).

Definition Next (l : CList) (e : nat) : go (option nat) := x ← elem l e; Ret (e_next x).
Definition Prev (l : CList) (e : nat) : go (option nat) := x ← elem l e; Ret (e_prev x).
Definition Removed (l : CList) (e : nat) : go bool := x ← elem l e; Ret (e_removed x).
Definition Value (l : CList) (e : nat) : go V := x ← elem l e; Ret (e_Value x).

Definition DetachNext (l : CList) (e : nat) : go CList :=
  x ← elem l e;
  if negb (e_removed x) then Panic (PanicMsg "DetachNext() must be called after Remove(e)") else
  Ret (setElem l e (mkElem (e_prev x) (e_prevG x) None (e_nextG x) (e_removed x) (e_Value x))).
Definition DetachPrev (l : CList) (e : nat) : go CList :=
  x ← elem l e;
  if negb (e_removed x) then Panic (PanicMsg "DetachPrev() must be called after Remove(e)") else
  Ret (setElem l e (mkElem None (e_prevG x) (e_next x) (e_nextG x) (e_removed x) (e_Value x))).

(** The gates after a pointer changes from [old] to [new]. *)
Definition onPointer (gs : Gates) (old new : option nat) : go Gates :=
  match old, new with
  | Some _, None => Ret (renew gs)
  | None, Some _ => releaseCur gs
  | _, _ => Ret gs
  end.
Definition SetNext (l : CList) (e : nat) (newNext : option nat) : go CList :=
  x ← elem l e;
  gs ← onPointer (e_nextG x) (e_next x) newNext;
  Ret (setElem l e (mkElem (e_prev x) (e_prevG x) newNext gs (e_removed x) (e_Value x))).
Definition SetPrev (l : CList) (e : nat) (newPrev : option nat) : go CList :=
  x ← elem l e;
  gs ← onPointer (e_prevG x) (e_prev x) newPrev;
  Ret (setElem l e (mkElem newPrev gs (e_next x) (e_nextG x) (e_removed x) (e_Value x))).
Definition SetRemoved (l : CList) (e : nat) : go CList :=
  x ← elem l e;
  pg ← match e_prev x with None => releaseCur (e_prevG x) | Some _ => Ret (e_prevG x) end;
  ng ← match e_next x with None => releaseCur (e_nextG x) | Some _ => Ret (e_nextG x) end;
  Ret (setElem l e (mkElem (e_prev x) pg (e_next x) ng true (e_Value x))).

(** ** CList *)

Definition New : CList := mkCList [] newGates None None 0.
Definition Len (l : CList) : Z := l_len l.
Definition Front (l : CList) : option nat := l_head l.
Definition Back (l : CList) : option nat := l_tail l.

(** What a writer does under the mutex of the list after its first reads, one
    element at a time. *)
Inductive micro := mSetNext (e : nat) (n : option nat) | mSetPrev (e : nat) (p : option nat) | mSetRemoved (e : nat) | mHead (o : option nat) | mTail (o : option nat).
Definition exec (m : micro) (l : CList) : go CList :=
  match m with
  | mSetNext e n => SetNext l e n
  | mSetPrev e p => SetPrev l e p
  | mSetRemoved e => SetRemoved l e
  | mHead o => Ret (mkCList (l_elems l) (l_gates l) o (l_tail l) (l_len l))
  | mTail o => Ret (mkCList (l_elems l) (l_gates l) (l_head l) o (l_len l))
  end.
Definition run (ms : list micro) (l : CList) : go CList := go_fold exec ms l.

Definition pushBegin (l : CList) (v : V) : go (CList * nat * list micro) :=
  let e := length (l_elems l) in
  let x := mkElem None newGates None newGates false v in
  gs ← (if l_len l =? 0 then releaseCur (l_gates l) else Ret (l_gates l));
  let l := mkCList (l_elems l ++ [x]) gs (l_head l) (l_tail l) (l_len l + 1) in
  Ret (l, e, match l_tail l with
             | None => [mHead (Some e); mTail (Some e)]
             | Some t => [mSetPrev e (Some t); mSetNext t (Some e); mTail (Some e)]
             end).
Definition PushBack (l : CList) (v : V) : go (CList * nat) :=
  '(l, e, ms) ← pushBegin l v;
  l ← run ms l;
  Ret (l, e).

Definition isPtr (o : option nat) (e : nat) : bool := match o with Some x => Nat.eqb x e | None => false end.
Definition isNil (o : option nat) : bool := match o with None => true | Some _ => false end.
Definition removeBegin (l : CList) (e : nat) : go (CList * list micro) :=
  prev ← Prev l e;
  next ← Next l e;
  if isNil (l_head l) || isNil (l_tail l) then Panic (PanicMsg "Remove(e) on empty CList") else
  if isNil prev && negb (isPtr (l_head l) e) then Panic (PanicMsg "Remove(e) with false head") else
  if isNil next && negb (isPtr (l_tail l) e) then Panic (PanicMsg "Remove(e) with false tail") else
  let gs := if l_len l =? 1 then renew (l_gates l) else l_gates l in
  Ret (mkCList (l_elems l) gs (l_head l) (l_tail l) (l_len l - 1),
       [match prev with None => mHead next | Some p => mSetNext p next end;
        match next with None => mTail prev | Some n => mSetPrev n prev end;
        mSetRemoved e]).
Definition Remove (l : CList) (e : nat) : go CList :=
  '(l, ms) ← removeBegin l e;
  run ms l.

(** ** Waiting *)

(** [e.NextWait], [e.PrevWait], [l.FrontWait] and [l.BackWait]. *)
Inductive query := NextWait (e : nat) | PrevWait (e : nat) | FrontWait | BackWait.
(** The result, if there is one; the gates it waits at otherwise. *)
Definition look (l : CList) (q : query) : go (option (option nat)) :=
  match q with
  | NextWait e => x ← elem l e; Ret (if negb (isNil (e_next x)) || e_removed x then Some (e_next x) else None)
  | PrevWait e => x ← elem l e; Ret (if negb (isNil (e_prev x)) || e_removed x then Some (e_prev x) else None)
  | FrontWait => Ret (match l_head l with Some h => Some (Some h) | None => None end)
  | BackWait => Ret (match l_tail l with Some t => Some (Some t) | None => None end)
  end.
Definition gatesOf (l : CList) (q : query) : go Gates :=
  match q with
  | NextWait e => x ← elem l e; Ret (e_nextG x)
  | PrevWait e => x ← elem l e; Ret (e_prevG x)
  | FrontWait | BackWait => Ret (l_gates l)
  end.

(** A goroutine in such a loop: about to look, waiting at a gate, returned. *)
Inductive reader := Looking (q : query) | Waiting (q : query) (gate : nat) | Returned (q : query) (r : option nat).
(** One turn; a wait ends when the counter is zero. *)
Definition turn (l : CList) (r : reader) : go reader :=
  match r with
  | Looking q =>
      o ← look l q;
      match o with
      | Some res => Ret (Returned q res)
      | None => gs ← gatesOf l q; Ret (Waiting q (length (gs_old gs)))
      end
  | Waiting q k =>
      gs ← gatesOf l q;
      Ret (match gateAt gs k with
           | Some g => if g_count g =? 0 then Looking q else Waiting q k
           | None => Waiting q k
           end)
  | Returned q res => Ret (Returned q res)
  end.

(** ** A list with its goroutines *)

Record Sys := mkSys { s_list : CList; s_pending : list micro; s_readers : list reader }.
Definition needsMutex (r : reader) : bool := match r with Looking FrontWait | Looking BackWait => true | _ => false end.

(** The writer holds the mutex for a whole operation, so there is one at a time.
    It removes an element at most once, as the caller of [Remove] must see to:
    a second time releases a wait group that is released and panics. *)
Inductive step : Sys -> Sys -> Prop :=
| step_push l rs v l' e ms : pushBegin l v = Ret (l', e, ms) -> step (mkSys l [] rs) (mkSys l' ms rs)
| step_remove l rs e l' ms : Removed l e = Ret false -> removeBegin l e = Ret (l', ms) -> step (mkSys l [] rs) (mkSys l' ms rs)
| step_micro l m ms rs l' : exec m l = Ret l' -> step (mkSys l (m :: ms) rs) (mkSys l' ms rs)
| step_detachNext l ms rs e l' : DetachNext l e = Ret l' -> step (mkSys l ms rs) (mkSys l' ms rs)
| step_detachPrev l ms rs e l' : DetachPrev l e = Ret l' -> step (mkSys l ms rs) (mkSys l' ms rs)
| step_enter l ms rs q : (match q with NextWait e | PrevWait e => is_Some (l_elems l !! e) | _ => True end) ->
    step (mkSys l ms rs) (mkSys l ms (rs ++ [Looking q]))
| step_reader l ms rs i r r' : rs !! i = Some r -> (needsMutex r = true -> ms = []) -> turn l r = Ret r' ->
    step (mkSys l ms rs) (mkSys l ms (<[i := r']> rs)).

Definition initial : Sys := mkSys New [] [].
Inductive reachable : Sys -> Prop :=
| reach_init : reachable initial
| reach_step s s' : reachable s -> step s s' -> reachable s'.
End CList.
Arguments CElement : clear implicits.
Arguments CList : clear implicits.
Arguments Sys : clear implicits.

(** ** Gates are released once *)

Definition openG (g : Gate) : Prop := g = mkGate 1 false.
Definition shut (g : Gate) : Prop := g = mkGate 0 true.
(** Old gates are shut; the current one is if [b]. *)
Definition gatesOK (gs : Gates) (b : bool) : Prop := Forall shut (gs_old gs) /\ gs_cur gs = if b then mkGate 0 true else mkGate 1 false.

Lemma newGates_ok : gatesOK newGates false.
Proof. by split. Qed.
Lemma renew_ok gs : gatesOK gs true -> gatesOK (renew gs) false.
Proof. intros [Ho Hc]. split; [|done]. apply Forall_app. split; [done|]. by constructor. Qed.
Lemma releaseCur_ok gs : gatesOK gs false -> exists gs', releaseCur gs = Ret gs' /\ gatesOK gs' true /\ gs_old gs' = gs_old gs.
Proof. intros [Ho Hc]. unfold releaseCur. rewrite Hc. cbn. by eexists. Qed.
Section Proofs.
Context {V : Type}.

Definition someB {A} (o : option A) : bool := match o with Some _ => true | None => false end.
Lemma onPointer_ok gs old new : gatesOK gs (someB old) -> exists gs', onPointer gs old new = Ret gs' /\ gatesOK gs' (someB new).
Proof.
  intros H. destruct old, new; cbn in *; [by eexists| |destruct (releaseCur_ok gs H) as (gs' & E & H' & _); by exists gs'|by eexists].
  eexists. split; [done|]. by apply renew_ok.
Qed.

Definition elemOK (x : CElement V) : Prop := gatesOK (e_nextG x) (someB (e_next x) || e_removed x) /\ gatesOK (e_prevG x) (someB (e_prev x) || e_removed x).
Definition gateInv (l : CList V) : Prop := Forall elemOK (l_elems l) /\ gatesOK (l_gates l) (negb (l_len l =? 0)).

(** ** Shapes: a list without its gates *)

Record El := mkEl { el_prev : option nat; el_next : option nat; el_removed : bool; el_value : V }.
Record Shape := mkShape { sh_elems : list El; sh_head : option nat; sh_tail : option nat; sh_len : Z }.
Definition elOf (x : CElement V) : El := mkEl (e_prev x) (e_next x) (e_removed x) (e_Value x).
Definition shape (l : CList V) : Shape := mkShape (elOf <$> l_elems l) (l_head l) (l_tail l) (l_len l).

Definition setEl (e : nat) (f : El -> El) (s : Shape) : Shape := mkShape (alter f e (sh_elems s)) (sh_head s) (sh_tail s) (sh_len s).
Definition effect (m : micro) (s : Shape) : Shape :=
  match m with
  | mSetNext e n => setEl e (fun x => mkEl (el_prev x) n (el_removed x) (el_value x)) s
  | mSetPrev e p => setEl e (fun x => mkEl p (el_next x) (el_removed x) (el_value x)) s
  | mSetRemoved e => setEl e (fun x => mkEl (el_prev x) (el_next x) true (el_value x)) s
  | mHead o => mkShape (sh_elems s) o (sh_tail s) (sh_len s)
  | mTail o => mkShape (sh_elems s) (sh_head s) o (sh_len s)
  end.
Definition effects (ms : list micro) (s : Shape) : Shape := foldl (fun s m => effect m s) s ms.

Definition target (m : micro) : option nat := match m with mSetNext e _ | mSetPrev e _ | mSetRemoved e => Some e | _ => None end.
Definition live (s : Shape) (e : nat) : Prop := exists x, sh_elems s !! e = Some x /\ el_removed x = false.

Lemma live_elem l e : live (shape l) e -> exists x, l_elems l !! e = Some x /\ e_removed x = false.
Proof. intros (x & E & R). cbn in E. rewrite list_lookup_fmap in E. destruct (l_elems l !! e) as [y|]; [|done]. injection E as <-. by exists y. Qed.

Lemma setElem_ok l e x f : gateInv l -> l_elems l !! e = Some x -> forall x', elemOK x' -> elOf x' = f (elOf x) ->
  gateInv (setElem l e x') /\ shape (setElem l e x') = setEl e f (shape l).
Proof.
  intros [Hg Hl] E x' Hx Ef. split; [split; [by apply Forall_insert|done]|].
  unfold shape, setElem, setEl. cbn. f_equal. rewrite list_fmap_insert, Ef. symmetry.
  apply list_eq. intros i. destruct (decide (i = e)) as [->|Hne].
  - rewrite list_lookup_alter_eq, list_lookup_fmap, E. cbn. rewrite list_lookup_insert_eq; [done|]. rewrite length_fmap. by eapply lookup_lt_Some.
  - by rewrite list_lookup_alter_ne, list_lookup_insert_ne.
Qed.

Lemma exec_ok m l : gateInv l -> (forall e, target m = Some e -> live (shape l) e) ->
  exists l', exec m l = Ret l' /\ gateInv l' /\ shape l' = effect m (shape l).
Proof.
  intros HI Ht. destruct m as [e n|e p|e|o|o]; cbn [target] in Ht; [..|by eexists|by eexists].
  all: destruct (live_elem _ _ (Ht e eq_refl)) as (x & E & R); pose proof (proj1 (Forall_lookup _ _) (proj1 HI) _ _ E) as [Hn Hp].
  all: cbn [exec]; unfold SetNext, SetPrev, SetRemoved, elem; rewrite E; cbn [mbind go_mbind].
  - rewrite R, orb_false_r in Hn. destruct (onPointer_ok _ _ n Hn) as (gs & -> & Hgs). eexists. split; [done|].
    apply (setElem_ok _ _ x); [done|done| |done]. split; cbn; [by rewrite R, orb_false_r|done].
  - rewrite R, orb_false_r in Hp. destruct (onPointer_ok _ _ p Hp) as (gs & -> & Hgs). eexists. split; [done|].
    apply (setElem_ok _ _ x); [done|done| |done]. split; cbn; [done|by rewrite R, orb_false_r].
  - rewrite R, orb_false_r in Hn, Hp.
    assert (Hr : forall o gs, gatesOK gs (someB o) -> exists gs', match o : option nat with None => releaseCur gs | Some _ => Ret gs end = Ret gs' /\ gatesOK gs' true).
    { intros [] gs Hgs; [by eexists|]. destruct (releaseCur_ok gs Hgs) as (gs' & E' & H' & _). by exists gs'. }
    destruct (Hr _ _ Hp) as (pg & -> & Hpg), (Hr _ _ Hn) as (ng & -> & Hng). cbn [mbind go_mbind]. eexists. split; [done|].
    apply (setElem_ok _ _ x); [done|done| |done]. split; cbn; by rewrite orb_true_r.
Qed.


(** ** Linked lists *)

Definition before (L : list nat) (i : nat) : option nat := match i with O => None | S j => L !! j end.
Definition mono (L : list nat) : Prop := forall i j a b, L !! i = Some a -> L !! j = Some b -> (i < j)%nat -> (a < b)%nat.

(** The elements that are not removed are [L], in order, linked both ways. *)
Record linked (s : Shape) (L : list nat) : Prop := {
  lk_mono : mono L;
  lk_live : forall e, e ∈ L <-> live s e;
  lk_head : sh_head s = L !! O;
  lk_tail : sh_tail s = last L;
  lk_len : sh_len s = zlen L;
  lk_ptr : forall i e x, L !! i = Some e -> sh_elems s !! e = Some x -> el_next x = L !! S i /\ el_prev x = before L i }.

(** [n] is after [e], with no element of [L] between them. *)
Definition nextOf (L : list nat) (e n : nat) : Prop := (e < n)%nat /\ forall y, y ∈ L -> (e < y)%nat -> (n <= y)%nat.
Definition noskip (s : Shape) (L : list nat) : Prop := forall e x n, sh_elems s !! e = Some x -> el_next x = Some n -> nextOf L e n /\ (n < length (sh_elems s))%nat.

(** What is left to do leads to the linked list [L]. *)
Fixpoint pend (s : Shape) (L : list nat) (ms : list micro) : Prop :=
  match ms with
  | [] => linked s L
  | m :: ms => (forall e, target m = Some e -> live s e) /\ (forall e n, m = mSetNext e (Some n) -> nextOf L e n /\ live s n) /\ pend (effect m s) L ms
  end.

Lemma mono_inj L i j e : mono L -> L !! i = Some e -> L !! j = Some e -> i = j.
Proof.
  intros Hm Hi Hj. destruct (decide (i < j)%nat) as [Hl|Hl]; [specialize (Hm _ _ _ _ Hi Hj Hl); lia|].
  destruct (decide (j < i)%nat) as [Hg|Hg]; [specialize (Hm _ _ _ _ Hj Hi Hg); lia|lia].
Qed.
Lemma mono_le L i j a b : mono L -> L !! i = Some a -> L !! j = Some b -> (a < b)%nat -> (i < j)%nat.
Proof.
  intros Hm Hi Hj Hab. destruct (decide (j < i)%nat) as [Hl|Hl]; [specialize (Hm _ _ _ _ Hj Hi Hl); lia|].
  destruct (decide (i = j)) as [->|Hne]; [rewrite Hi in Hj; injection Hj; lia|lia].
Qed.
Lemma mono_delete L i : mono L -> mono (delete i L).
Proof.
  intros Hm j k a b Hj Hk Hl. destruct (decide (j < i)%nat), (decide (k < i)%nat);
    rewrite ?list_lookup_delete_lt, ?list_lookup_delete_ge in * by lia; eapply Hm; eauto; lia.
Qed.
Lemma mono_snoc L e : mono L -> (forall y, y ∈ L -> (y < e)%nat) -> mono (L ++ [e]).
Proof.
  intros Hm He j k a b Hj Hk Hl. apply lookup_app_Some in Hj as [Hj|[Hj Ej]]; [|apply lookup_lt_Some in Hk; rewrite length_app in Hk; cbn in Hk; lia].
  apply lookup_app_Some in Hk as [Hk|[_ Ek]]; [by eapply Hm|]. apply list_lookup_singleton_Some in Ek as [_ <-]. apply He. by eapply list_elem_of_lookup_2.
Qed.

Lemma sh_alter s e f i : sh_elems (setEl e f s) !! i = (if decide (i = e) then f <$> sh_elems s !! i else sh_elems s !! i).
Proof. cbn. case_decide as Hd; [subst; apply list_lookup_alter_eq|by apply list_lookup_alter_ne]. Qed.

Lemma effect_length m s : length (sh_elems (effect m s)) = length (sh_elems s).
Proof. destruct m; cbn; rewrite ?length_alter; done. Qed.

Lemma noskip_effect m s L : noskip s L -> (forall e n, m = mSetNext e (Some n) -> nextOf L e n /\ live s n) -> noskip (effect m s) L.
Proof.
  intros Hn Hm e x n. rewrite effect_length. destruct m as [t o|t o|t|o|o]; cbn [effect]; [..|apply Hn|apply Hn]; rewrite sh_alter; case_decide as Hd; try apply Hn; subst t.
  all: destruct (sh_elems s !! e) as [y|] eqn:E; [|done]; intros [= <-]; cbn.
  - intros ->. destruct (Hm e n eq_refl) as (H & z & Ez & _). split; [done|]. by eapply lookup_lt_Some.
  - by eapply Hn.
  - by eapply Hn.
Qed.

Lemma setEl_live s e f x : (forall y, el_removed (f y) = el_removed y) -> live s x -> live (setEl e f s) x.
Proof.
  intros Hf (y & E & R). unfold live. rewrite sh_alter. case_decide; [|by exists y]. rewrite E. exists (f y). split; [done|]. by rewrite Hf.
Qed.

(** *** PushBack *)

Definition pushShape (s : Shape) (v : V) : Shape := mkShape (sh_elems s ++ [mkEl None None false v]) (sh_head s) (sh_tail s) (sh_len s + 1).
Definition pushMicros (s : Shape) (e : nat) : list micro :=
  match sh_tail s with
  | None => [mHead (Some e); mTail (Some e)]
  | Some t => [mSetPrev e (Some t); mSetNext t (Some e); mTail (Some e)]
  end.

Lemma linked_lt s L e : linked s L -> e ∈ L -> (e < length (sh_elems s))%nat.
Proof. intros Hl He. apply (lk_live _ _ Hl) in He as (x & E & _). by eapply lookup_lt_Some. Qed.

Lemma live_push s v e : live (pushShape s v) e <-> live s e \/ e = length (sh_elems s).
Proof.
  unfold live, pushShape. cbn. setoid_rewrite lookup_snoc_Some. split.
  - intros (x & [[_ E]|[-> _]] & R); [left; by exists x|by right].
  - intros [(x & E & R)| ->]; [exists x; split; [left; split; [by eapply lookup_lt_Some|done]|done]|eexists; split; [by right|done]].
Qed.

Lemma before_snoc L e j : (j <= length L)%nat -> before (L ++ [e]) j = before L j.
Proof. intros Hj. destruct j; [done|]. cbn. by rewrite lookup_app_l by lia. Qed.
Lemma last_index (L : list nat) j t : last L = Some t -> L !! j = Some t -> mono L -> S j = length L.
Proof. intros Hl Hj Hm. rewrite last_lookup in Hl. pose proof (mono_inj _ _ _ _ Hm Hl Hj). apply lookup_lt_Some in Hj. lia. Qed.

Lemma push_pend_empty s v : linked s [] -> let e := length (sh_elems s) in pend (pushShape s v) [e] [mHead (Some e); mTail (Some e)].
Proof.
  intros Hl e. do 2 (split; [done|]; split; [done|]). split; cbn; [|..|done|done| |].
  - intros [|i] [|j] a b; cbn; intros; (lia || done).
  - intros x. rewrite list_elem_of_singleton. change (live _ x) with (live (pushShape s v) x). rewrite live_push. rewrite <- (lk_live _ _ Hl), elem_of_nil. unfold e. naive_solver.
  - rewrite (lk_len _ _ Hl). done.
  - intros [|i] x y; cbn; [|done]. intros [= <-]. rewrite lookup_snoc_Some. intros [[Hlt _]|[_ <-]]; [unfold e in Hlt; lia|done].
Qed.

Lemma push_pend s L v : linked s L -> let e := length (sh_elems s) in pend (pushShape s v) (L ++ [e]) (pushMicros s e).
Proof.
  intros Hl e. unfold pushMicros. rewrite (lk_tail _ _ Hl). destruct (last L) as [t|] eqn:Et; [|apply last_None in Et as ->; by apply push_pend_empty].
  assert (Hlt : forall y, y ∈ L -> (y < e)%nat) by (intros y; apply (linked_lt _ _ _ Hl)).
  assert (Ht : t ∈ L) by (by apply last_Some_elem_of).
  assert (Hmax : forall y, y ∈ L -> (y <= t)%nat).
  { intros y [j Hj]%list_elem_of_lookup. rewrite last_lookup in Et. destruct (decide (j = pred (length L))) as [->|Hne]; [rewrite Hj in Et; injection Et; lia|].
    apply lookup_lt_Some in Hj as Hj'. pose proof (lk_mono _ _ Hl _ _ _ _ Hj Et ltac:(lia)). lia. }
  assert (Hmono : mono (L ++ [e])) by (apply mono_snoc; [apply (lk_mono _ _ Hl)|done]).
  assert (Hlive : forall x, live (pushShape s v) x <-> x ∈ L ++ [e]).
  { intros x. rewrite live_push, <- (lk_live _ _ Hl), elem_of_app, list_elem_of_singleton. done. }
  cbn [pend target]. split; [intros ? [= <-]; apply Hlive, elem_of_app; right; by apply list_elem_of_singleton|]. split; [done|].
  split; [intros ? [= <-]; apply setEl_live; [done|]; apply Hlive, elem_of_app; by left|]. split.
  { intros ? ? [= <- <-]. split; [|apply setEl_live; [done|]; apply Hlive, elem_of_app; right; by apply list_elem_of_singleton]. split; [by apply Hlt|]. intros y [Hy|Hy%list_elem_of_singleton]%elem_of_app Hty; [specialize (Hmax y Hy); lia|lia]. }
  split; [done|]. split; [done|]. split; [exact Hmono| |rewrite lookup_app_l; [apply (lk_head _ _ Hl)|destruct L; [done|cbn; lia]]|by rewrite last_snoc| |].
  - intros x. rewrite <- Hlive. cbn [effect]. split; [intros; by repeat apply setEl_live|]. unfold live. cbn [sh_elems]. intros (y & E & R).
    change (alter _ t _) with (sh_elems (setEl t (fun x => mkEl (el_prev x) (Some e) (el_removed x) (el_value x)) (setEl e (fun x => mkEl (Some t) (el_next x) (el_removed x) (el_value x)) (pushShape s v)))) in E.
    rewrite !sh_alter in E. repeat case_decide; subst; destruct (sh_elems (pushShape s v) !! _) as [z|] eqn:Ez; try done; injection E as <-; by exists z.
  - cbn. rewrite (lk_len _ _ Hl). unfold zlen. rewrite length_app. cbn. lia.
  - intros j y x Hj E. cbn [effect sh_elems] in E.
    change (alter _ t _) with (sh_elems (setEl t (fun x => mkEl (el_prev x) (Some e) (el_removed x) (el_value x)) (setEl e (fun x => mkEl (Some t) (el_next x) (el_removed x) (el_value x)) (pushShape s v)))) in E.
    rewrite !sh_alter in E. unfold pushShape in E. cbn [sh_elems] in E. apply lookup_snoc_Some in Hj as [[Hjl Hj]|[-> <-]].
    + pose proof (Hlt y ltac:(by eapply list_elem_of_lookup_2)) as Hye. rewrite (decide_False (P := y = e)) in E by lia. rewrite (lookup_app_l (sh_elems s)) in E by (unfold e in Hye; lia).
      rewrite before_snoc by lia. case_decide as Hyt.
      * subst y. destruct (sh_elems s !! t) as [z|] eqn:Ez; [|done]. injection E as <-. cbn [el_next el_prev].
        pose proof (last_index _ _ _ Et Hj (lk_mono _ _ Hl)) as Hjl'. rewrite lookup_app_r by lia. rewrite Hjl', Nat.sub_diag. split; [done|]. apply (lk_ptr _ _ Hl j t z Hj Ez).
      * destruct (lk_ptr _ _ Hl j y x Hj E) as [Hn Hp]. split; [|done]. rewrite Hn. symmetry. apply lookup_app_l.
        destruct (decide (S j = length L)) as [Hsl|]; [|lia]. exfalso. apply Hyt. rewrite last_lookup, <- Hsl in Et. cbn in Et. congruence.
    + rewrite (decide_False (P := e = t)) in E by (specialize (Hlt t Ht); lia). rewrite decide_True in E by done. rewrite lookup_app_r in E by (unfold e; lia). unfold e in E at 1. rewrite Nat.sub_diag in E. cbn in E. injection E as <-.
      cbn [el_next el_prev]. rewrite lookup_ge_None_2 by (rewrite length_app; cbn; lia). split; [done|]. rewrite before_snoc by lia.
      rewrite last_lookup in Et. destruct L as [|a K]; [done|]. cbn in *. done.
Qed.

(** *** Remove *)

Definition unlinkNext (prev next : option nat) : micro := match prev with None => mHead next | Some p => mSetNext p next end.
Definition unlinkPrev (prev next : option nat) : micro := match next with None => mTail prev | Some n => mSetPrev n prev end.
Definition shrink (s : Shape) : Shape := mkShape (sh_elems s) (sh_head s) (sh_tail s) (sh_len s - 1).

Lemma unlinkNext_elems prev next s y : sh_elems (effect (unlinkNext prev next) s) !! y =
  (fun x => if decide (prev = Some y) then mkEl (el_prev x) next (el_removed x) (el_value x) else x) <$> sh_elems s !! y.
Proof.
  destruct prev as [p|]; cbn [unlinkNext effect]; [rewrite sh_alter|].
  - destruct (sh_elems s !! y); cbn; repeat case_decide; congruence.
  - cbn. by destruct (sh_elems s !! y).
Qed.
Lemma unlinkPrev_elems prev next s y : sh_elems (effect (unlinkPrev prev next) s) !! y =
  (fun x => if decide (next = Some y) then mkEl prev (el_next x) (el_removed x) (el_value x) else x) <$> sh_elems s !! y.
Proof.
  destruct next as [p|]; cbn [unlinkPrev effect]; [rewrite sh_alter|].
  - destruct (sh_elems s !! y); cbn; repeat case_decide; congruence.
  - cbn. by destruct (sh_elems s !! y).
Qed.

Lemma effect_live m s x : (forall e, m <> mSetRemoved e) -> live s x -> live (effect m s) x.
Proof. intros Hm. destruct m as [e n|e p|e|o|o]; cbn; [by apply setEl_live|by apply setEl_live|by destruct (Hm e)|done|done]. Qed.

Lemma elem_delete L i e y : mono L -> L !! i = Some e -> (y ∈ delete i L <-> y ∈ L /\ y <> e).
Proof.
  intros Hm Hi. rewrite !list_elem_of_lookup. split.
  - intros [j Hj]. destruct (decide (j < i)%nat); rewrite ?list_lookup_delete_lt, ?list_lookup_delete_ge in Hj by lia;
      (split; [by eexists|]); intros ->; pose proof (mono_inj _ _ _ _ Hm Hi Hj); lia.
  - intros [[j Hj] Hne]. destruct (decide (j < i)%nat); [exists j; by rewrite list_lookup_delete_lt|].
    destruct (decide (j = i)) as [->|]; [congruence|]. exists (pred j). rewrite list_lookup_delete_ge by lia. by replace (S (pred j)) with j by lia.
Qed.

Lemma last_delete L i : last (delete i L) = (if decide (S i = length L) then before L i else if decide (i < length L)%nat then last L else last L) :> option nat.
Proof.
  destruct (decide (i < length L)%nat) as [Hi|Hi].
  - rewrite last_lookup, length_delete by (by apply lookup_lt_is_Some). case_decide as Hl.
    + destruct i; cbn; [by destruct L as [|? []]|]. rewrite list_lookup_delete_lt by lia. f_equal. lia.
    + rewrite list_lookup_delete_ge by lia. rewrite last_lookup. f_equal. lia.
  - rewrite decide_False by lia. f_equal. rewrite delete_take_drop, take_ge, drop_ge by lia. apply app_nil_r.
Qed.

Lemma before_Some L i p : before L i = Some p -> exists k, i = S k /\ L !! k = Some p.
Proof. destruct i as [|k]; [done|]. intros Hp. by exists k. Qed.

Lemma nextOf_delete L i e p n : mono L -> L !! i = Some e -> before L i = Some p -> L !! S i = Some n -> nextOf (delete i L) p n.
Proof.
  intros Hm Hi (k & -> & Hk)%before_Some En. split; [eapply Hm; [exact Hk|exact En|lia]|].
  intros y Hy Hqy. apply (elem_delete _ _ _ _ Hm Hi) in Hy as [[j Hj]%list_elem_of_lookup Hne]. pose proof (mono_le _ _ _ _ _ Hm Hk Hj Hqy).
  destruct (decide (j = S k)) as [->|]; [congruence|]. destruct (decide (j = S (S k))) as [->|]; [rewrite En in Hj; injection Hj; lia|].
  pose proof (Hm _ _ _ _ En Hj ltac:(lia)). lia.
Qed.

(** The pointers of the elements that are left. *)
Lemma unlink_ptr L i j y : mono L -> delete i L !! j = Some y -> exists k, L !! k = Some y /\
  (if decide (before L i = Some y) then L !! S i else L !! S k) = delete i L !! S j /\
  (if decide (L !! S i = Some y) then before L i else before L k) = before (delete i L) j.
Proof.
  intros Hm Hj. destruct (decide (j < i)%nat) as [Hji|Hji].
  - rewrite list_lookup_delete_lt in Hj by lia. exists j. split; [done|].
    rewrite (decide_False (P := L !! S i = Some y)) by (intros E; pose proof (mono_inj _ _ _ _ Hm E Hj); lia). split.
    + case_decide as Hb; [apply before_Some in Hb as (k & -> & Hk); pose proof (mono_inj _ _ _ _ Hm Hk Hj); subst; by rewrite list_lookup_delete_ge by lia|].
      destruct (decide (S j < i)%nat); [by rewrite list_lookup_delete_lt|]. destruct i as [|k]; [lia|]. assert (k = j) as -> by lia. done.
    + destruct j; cbn; [done|]. by rewrite list_lookup_delete_lt by lia.
  - rewrite list_lookup_delete_ge in Hj by lia. exists (S j). split; [done|].
    rewrite (decide_False (P := before L i = Some y)) by (intros (k & -> & Hk)%before_Some; pose proof (mono_inj _ _ _ _ Hm Hk Hj); lia).
    rewrite list_lookup_delete_ge by lia. split; [done|].
    destruct (decide (j = i)) as [->|Hne]; [rewrite decide_True by done; destruct i; cbn; [done|by rewrite list_lookup_delete_lt by lia]|].
    rewrite decide_False by (intros E; pose proof (mono_inj _ _ _ _ Hm E Hj); lia). destruct j as [|j]; [lia|]. cbn. by rewrite list_lookup_delete_ge by lia.
Qed.

Lemma unlink_elems s L i e y :
  let s2 := effect (unlinkPrev (before L i) (L !! S i)) (effect (unlinkNext (before L i) (L !! S i)) (shrink s)) in
  sh_elems (effect (mSetRemoved e) s2) !! y =
    (fun x => mkEl (if decide (L !! S i = Some y) then before L i else el_prev x)
      (if decide (before L i = Some y) then L !! S i else el_next x) (if decide (y = e) then true else el_removed x) (el_value x)) <$> sh_elems s !! y.
Proof.
  intros s2. cbn [effect]. rewrite sh_alter. unfold s2. rewrite unlinkPrev_elems, unlinkNext_elems. cbn [shrink sh_elems].
  destruct (sh_elems s !! y) as [[]|]; cbn; repeat case_decide; done.
Qed.

Lemma remove_pend s L i e : linked s L -> L !! i = Some e ->
  pend (shrink s) (delete i L) [unlinkNext (before L i) (L !! S i); unlinkPrev (before L i) (L !! S i); mSetRemoved e].
Proof.
  intros Hl Hi. pose proof (lk_mono _ _ Hl) as Hm.
  assert (Hlive : forall y, y ∈ L -> live (shrink s) y) by (intros y Hy; by apply (lk_live _ _ Hl)).
  set (s1 := effect (unlinkNext (before L i) (L !! S i)) (shrink s)). set (s2 := effect (unlinkPrev (before L i) (L !! S i)) s1).
  assert (H1 : forall y, y ∈ L -> live s1 y) by (intros y Hy; apply effect_live; [by destruct (before L i)|by apply Hlive]).
  assert (H2 : forall y, y ∈ L -> live s2 y) by (intros y Hy; apply effect_live; [by destruct (L !! S i)|by apply H1]).
  pose proof (unlink_elems s L i e) as E2. cbv zeta in E2. fold s1 s2 in E2.
  cbn [pend]. fold s1 s2. split.
  { intros p Hp. destruct (before L i) as [q|] eqn:Eb; [|done]. injection Hp as <-. apply Hlive. destruct (before_Some _ _ _ Eb) as (k & -> & Hk). by eapply list_elem_of_lookup_2. }
  split.
  { intros p n Hp. destruct (before L i) as [q|] eqn:Eb; [|done]. injection Hp as <- En. split; [by apply (nextOf_delete L i e)|]. apply Hlive. by eapply list_elem_of_lookup_2. }
  split; [intros p Hp; destruct (L !! S i) as [q|] eqn:En; [|done]; injection Hp as <-; apply H1; by eapply list_elem_of_lookup_2|].
  split; [by destruct (L !! S i)|]. split; [intros ? [= <-]; apply H2; by eapply list_elem_of_lookup_2|]. split; [done|].
  split; [by apply mono_delete| | | | |].
  - intros y. rewrite (elem_delete _ _ _ _ Hm Hi), (lk_live _ _ Hl). unfold live. rewrite E2. destruct (sh_elems s !! y) as [x|]; cbn; [|naive_solver].
    split; [intros [(z & [= ->] & Hz) Hne]; eexists; split; [done|]; cbn; by rewrite decide_False|].
    intros (z & [= <-] & Hz). cbn in Hz. case_decide; [done|]. split; [by exists x|done].
  - destruct i as [|k]; cbn [before unlinkNext] in *.
    + subst s2 s1. cbn. destruct (L !! 1%nat) eqn:En; cbn; rewrite list_lookup_delete_ge by lia; done.
    + rewrite list_lookup_delete_lt by lia. rewrite <- (lk_head _ _ Hl). subst s2 s1. apply lookup_lt_Some in Hi.
      destruct (lookup_lt_is_Some_2 L k ltac:(lia)) as [p ->]. by destruct (L !! S (S k)).
  - rewrite last_delete. subst s2 s1. destruct (L !! S i) as [n|] eqn:En; cbn [unlinkPrev effect].
    + apply lookup_lt_Some in En. rewrite decide_False, decide_True by lia. rewrite <- (lk_tail _ _ Hl). by destruct (before L i).
    + apply lookup_ge_None in En. apply lookup_lt_Some in Hi. by rewrite decide_True by lia.
  - subst s2 s1. transitivity (sh_len s - 1); [by destruct (before L i), (L !! S i)|]. rewrite (lk_len _ _ Hl). unfold zlen. rewrite length_delete by done. apply lookup_lt_Some in Hi. lia.
  - intros j y x Hj. rewrite E2. destruct (sh_elems s !! y) as [z|] eqn:Ez; [|done]. cbn. intros [= <-]. cbn.
    destruct (unlink_ptr L i j y Hm Hj) as (k & Hk & Hn' & Hp'). destruct (lk_ptr _ _ Hl _ _ _ Hk Ez) as [-> ->]. done.
Qed.

(** ** The operations keep the list *)

Definition values (l : CList V) : list V := e_Value <$> l_elems l.
Definition listInv (l : CList V) (L : list nat) (ms : list micro) : Prop := gateInv l /\ noskip (shape l) L /\ pend (shape l) L ms.

Lemma shape_values l : el_value <$> sh_elems (shape l) = values l.
Proof. unfold values. cbn. rewrite <- list_fmap_compose. done. Qed.
Lemma effect_values m s : el_value <$> sh_elems (effect m s) = el_value <$> sh_elems s.
Proof.
  apply list_eq. intros i. rewrite !list_lookup_fmap. destruct m as [e n|e n|e|o|o]; cbn [effect]; [..|done|done]; rewrite sh_alter; case_decide; [|done| |done| |done];
    by destruct (sh_elems s !! i).
Qed.

Lemma exec_inv l L m ms : listInv l L (m :: ms) -> exists l', exec m l = Ret l' /\ listInv l' L ms /\ shape l' = effect m (shape l).
Proof.
  intros (Hg & Hn & Ht & Hm & Hp). destruct (exec_ok m l Hg Ht) as (l' & E & Hg' & Es). exists l'. split; [done|]. split; [|done].
  split; [done|]. rewrite Es. split; [by apply noskip_effect|done].
Qed.

Lemma run_inv ms l L : listInv l L ms -> exists l', run ms l = Ret l' /\ listInv l' L [] /\ values l' = values l /\ shape l' = effects ms (shape l).
Proof.
  revert l. induction ms as [|m ms IH]; intros l Hl; [by exists l|]. destruct (exec_inv l L m ms Hl) as (l1 & E & H1 & S1).
  destruct (IH l1 H1) as (l2 & E2 & H2 & V2 & S2). exists l2. unfold run in *. cbn. rewrite E. cbn. split; [done|]. split; [done|].
  split; [by rewrite V2, <- !shape_values, S1, effect_values|]. by rewrite S2, S1.
Qed.

Lemma length_shape l : length (sh_elems (shape l)) = length (l_elems l).
Proof. cbn. apply length_fmap. Qed.

Lemma pushBegin_ok l L v : listInv l L [] -> exists l' ms, let e := length (l_elems l) in
  pushBegin l v = Ret (l', e, ms) /\ listInv l' (L ++ [e]) ms /\ values l' = values l ++ [v].
Proof.
  intros ([Hg Hgl] & Hn & Hl). unfold pushBegin.
  assert (Hgs : exists gs, (if l_len l =? 0 then releaseCur (l_gates l) else Ret (l_gates l)) = Ret gs /\ gatesOK gs true).
  { destruct (l_len l =? 0); cbn in Hgl; [|by exists (l_gates l)]. destruct (releaseCur_ok _ Hgl) as (gs & E & H' & _). by exists gs. }
  destruct Hgs as (gs & -> & Hgs). cbn [mbind go_mbind]. eexists _, _. split; [done|].
  assert (Es : shape (mkCList (l_elems l ++ [mkElem None newGates None newGates false v]) gs (l_head l) (l_tail l) (l_len l + 1)) = pushShape (shape l) v).
  { unfold shape, pushShape. cbn. by rewrite fmap_app. }
  split; [split_and!|by unfold values; cbn; rewrite fmap_app].
  - split; cbn; [apply Forall_app; split; [done|]; constructor; [|done]; by split|]. pose proof (lk_len _ _ Hl) as El. cbn in El.
    rewrite (proj2 (Z.eqb_neq _ _)); [done|]. rewrite El. pose proof (zlen_nonneg L). lia.
  - rewrite Es, <- length_shape. intros e x n. cbn [pushShape sh_elems]. rewrite lookup_snoc_Some, length_app. intros [[Hlt Ex]|[-> <-]]; [|done].
    intros En. destruct (Hn e x n Ex En) as [[H1 H2] H3]. split; [|cbn [length]; lia]. split; [done|].
    intros y [Hy|Hy%list_elem_of_singleton]%elem_of_app Hey; [by apply H2|lia].
  - rewrite Es, <- length_shape. apply (push_pend (shape l) L v Hl).
Qed.

Lemma removeBegin_ok l L i e : listInv l L [] -> L !! i = Some e -> exists l' ms,
  removeBegin l e = Ret (l', ms) /\ listInv l' (delete i L) ms /\ values l' = values l /\ shape l' = shrink (shape l) /\
  ms = [unlinkNext (before L i) (L !! S i); unlinkPrev (before L i) (L !! S i); mSetRemoved e].
Proof.
  intros ([Hg Hgl] & Hn & Hl) Hi. pose proof (proj1 (lk_live _ _ Hl e) ltac:(by eapply list_elem_of_lookup_2)) as Hlive.
  destruct (live_elem _ _ Hlive) as (x & Ex & Rx). destruct (lk_ptr _ _ Hl i e (elOf x) Hi) as [En Ep]; [cbn; by rewrite list_lookup_fmap, Ex|]. cbn in En, Ep.
  pose proof (lk_head _ _ Hl) as Eh. pose proof (lk_tail _ _ Hl) as Et. pose proof (lk_len _ _ Hl) as El. cbn in Eh, Et, El.
  apply lookup_lt_Some in Hi as Hlt. unfold removeBegin, Prev, Next, elem. rewrite Ex. cbn [mbind go_mbind]. rewrite En, Ep, Eh, Et.
  assert (isNil (L !! O) = false) as -> by (destruct L; [cbn in Hlt; lia|done]).
  assert (isNil (last L) = false) as -> by (destruct (last L) eqn:E; [done|apply last_None in E as ->; cbn in Hlt; lia]).
  assert (isNil (before L i) && negb (isPtr (L !! O) e) = false) as ->.
  { destruct i as [|k]; cbn [before]; [rewrite Hi; cbn; by rewrite Nat.eqb_refl|]. by destruct (lookup_lt_is_Some_2 L k ltac:(lia)) as [p ->]. }
  assert (isNil (L !! S i) && negb (isPtr (last L) e) = false) as ->.
  { destruct (L !! S i) eqn:Es; [done|]. apply lookup_ge_None in Es. rewrite last_lookup. replace (pred (length L)) with i by lia. rewrite Hi. cbn. by rewrite Nat.eqb_refl. }
  cbn [orb]. eexists _, _. split; [done|]. split; [split_and!|split_and!; [done| |done]; unfold shape, shrink; cbn; by rewrite Eh, Et].
  - split; [done|]. cbn. rewrite El in *. unfold zlen in *. destruct (Z.eqb_spec (Z.of_nat (length L)) 1) as [E1|E1].
    + rewrite E1. cbn. apply renew_ok. by rewrite E1 in Hgl.
    + rewrite (proj2 (Z.eqb_neq _ _)) by lia. by rewrite (proj2 (Z.eqb_neq _ _)) in Hgl by lia.
  - intros a z n Ea Ez. destruct (Hn a z n Ea Ez) as [[H1 H2] H3]. split; [|done]. split; [done|]. intros y Hy. apply H2. by apply (elem_delete _ _ _ _ (lk_mono _ _ Hl) Hi) in Hy as [Hy _].
  - pose proof (remove_pend (shape l) L i e Hl Hi) as Hp. unfold shrink in Hp. cbn [shape sh_elems sh_head sh_tail sh_len] in Hp. rewrite Eh, Et in Hp. exact Hp.
Qed.

(** *** Complete operations *)

Definition good (l : CList V) (L : list nat) : Prop := listInv l L [].

Lemma New_good : good New [].
Proof.
  split_and!; [by split|by intros ? ? ?|]. split; cbn; try done. intros e. rewrite elem_of_nil. split; [done|]. by intros (x & E & _).
Qed.

Lemma PushBack_good l L v : good l L -> exists l', PushBack l v = Ret (l', length (l_elems l)) /\ good l' (L ++ [length (l_elems l)]) /\ values l' = values l ++ [v].
Proof.
  intros Hl. destruct (pushBegin_ok l L v Hl) as (l1 & ms & E & H1 & V1). destruct (run_inv ms l1 _ H1) as (l2 & E2 & H2 & V2 & _).
  exists l2. unfold PushBack. rewrite E. cbn. rewrite E2. cbn. split; [done|]. split; [done|congruence].
Qed.

Lemma Next_good l L i e : good l L -> L !! i = Some e -> Next l e = Ret (L !! S i) /\ Removed l e = Ret false.
Proof.
  intros (_ & _ & Hl) Hi. pose proof (proj1 (lk_live _ _ Hl e) ltac:(by eapply list_elem_of_lookup_2)) as Hlive.
  destruct (live_elem _ _ Hlive) as (x & Ex & Rx). destruct (lk_ptr _ _ Hl i e (elOf x) Hi) as [En Ep]; [cbn; by rewrite list_lookup_fmap, Ex|].
  unfold Next, Removed, elem. rewrite Ex. cbn in *. by rewrite En, Rx.
Qed.

Lemma Remove_good l L i e : good l L -> L !! i = Some e -> exists l', Remove l e = Ret l' /\ good l' (delete i L) /\ values l' = values l /\
  Next l' e = Ret (L !! S i) /\ Removed l' e = Ret true.
Proof.
  intros Hl Hi. destruct (removeBegin_ok l L i e Hl Hi) as (l1 & ms & E & H1 & V1 & S1 & Ems). destruct (run_inv ms l1 _ H1) as (l2 & E2 & H2 & V2 & S2).
  exists l2. unfold Remove. rewrite E. cbn. rewrite E2. split; [done|]. split; [done|]. split; [congruence|].
  destruct Hl as (_ & _ & Hl). pose proof (proj1 (lk_live _ _ Hl e) ltac:(by eapply list_elem_of_lookup_2)) as Hlive.
  destruct (live_elem _ _ Hlive) as (x & Ex & Rx). assert (Exs : sh_elems (shape l) !! e = Some (elOf x)) by (cbn; by rewrite list_lookup_fmap, Ex).
  pose proof (unlink_elems (shape l) L i e e) as Hu. cbv zeta in Hu. rewrite <- S1 in Hu. rewrite Ems in S2. unfold effects in S2. cbn [foldl] in S2. rewrite <- S2, Exs in Hu.
  cbn [fmap option_fmap option_map] in Hu. rewrite (decide_True (P := e = e)) in Hu by done.
  rewrite (decide_False (P := before L i = Some e)) in Hu by (intros (k & -> & Hk)%before_Some; pose proof (mono_inj _ _ _ _ (lk_mono _ _ Hl) Hk Hi); lia).
  rewrite (proj1 (lk_ptr _ _ Hl i e _ Hi Exs)) in Hu. cbn [shape sh_elems] in Hu. rewrite list_lookup_fmap in Hu.
  unfold Next, Removed, elem. destruct (l_elems l2 !! e) as [z|]; [|done]. injection Hu as _ Hn Hr _. cbn. by rewrite Hn, Hr.
Qed.

(** ** Detaching removed elements *)

Definition simEl (x x' : El) : Prop := el_removed x = el_removed x' /\ (el_removed x = false -> x = x').
Definition sim (s s' : Shape) : Prop := Forall2 simEl (sh_elems s) (sh_elems s') /\ sh_head s = sh_head s' /\ sh_tail s = sh_tail s' /\ sh_len s = sh_len s'.

Lemma sim_live s s' e : sim s s' -> live s e <-> live s' e.
Proof.
  intros [Hf _]. unfold live. split; intros (x & E & R).
  - destruct (Forall2_lookup_l _ _ _ _ _ Hf E) as (x' & E' & Hr & _). exists x'. by rewrite <- Hr.
  - destruct (Forall2_lookup_r _ _ _ _ _ Hf E) as (x' & E' & Hr & _). exists x'. by rewrite Hr.
Qed.

Lemma sim_setEl e f s s' : live s e -> sim s s' -> sim (setEl e f s) (setEl e f s').
Proof.
  intros (x & E & R) (Hf & H1 & H2 & H3). split; [|done]. cbn. apply Forall2_alter; [done|].
  intros y y' Ey Ey' [Hr Hs]. rewrite E in Ey. injection Ey as <-. by rewrite <- (Hs R).
Qed.
Lemma sim_effect m s s' : (forall e, target m = Some e -> live s e) -> sim s s' -> sim (effect m s) (effect m s').
Proof.
  intros Ht Hs. destruct m as [e n|e p|e|o|o]; cbn in *; try (by apply sim_setEl; [apply Ht|]); destruct Hs as (Hf & H1 & H2 & H3); by split_and!.
Qed.

Lemma linked_sim s s' L : sim s s' -> linked s L -> linked s' L.
Proof.
  intros Hs Hl. pose proof Hs as (Hf & H1 & H2 & H3). split; rewrite <- ?H1, <- ?H2, <- ?H3; try apply Hl.
  - intros e. rewrite <- (sim_live _ _ _ Hs). apply Hl.
  - intros i e x Hi E. destruct (Forall2_lookup_r _ _ _ _ _ Hf E) as (y & Ey & Hr & Hy).
    pose proof (proj1 (lk_live _ _ Hl e) ltac:(by eapply list_elem_of_lookup_2)) as (z & Ez & Rz). rewrite Ey in Ez. injection Ez as <-.
    rewrite <- (Hy Rz). by apply (lk_ptr _ _ Hl i e y).
Qed.

Lemma pend_sim ms s s' L : sim s s' -> pend s L ms -> pend s' L ms.
Proof.
  revert s s'. induction ms as [|m ms IH]; intros s s' Hs; [by apply linked_sim|]. intros (Ht & Hm & Hp). split; [|split].
  - intros e He. by apply (sim_live _ _ _ Hs), Ht.
  - intros e n Hn. destruct (Hm e n Hn) as [H1 H2]. split; [done|]. by apply (sim_live _ _ _ Hs).
  - apply (IH (effect m s)); [by apply sim_effect|done].
Qed.

(** Replacing the pointers of a removed element, by nothing in the case of [next]. *)
Lemma detach_inv l L ms e x x' : listInv l L ms -> l_elems l !! e = Some x -> e_removed x = true -> e_removed x' = true ->
  e_nextG x' = e_nextG x -> e_prevG x' = e_prevG x -> (e_next x' = None \/ e_next x' = e_next x) -> listInv (setElem l e x') L ms.
Proof.
  intros (Hg & Hn & Hp) E R R' Gn Gp Hnx. pose proof (proj1 (Forall_lookup _ _) (proj1 Hg) _ _ E) as [Hxn Hxp].
  destruct (setElem_ok l e x (fun _ => elOf x') Hg E x') as [Hg' Es]; [|done|].
  { rewrite R, orb_true_r in Hxn, Hxp. split; rewrite R', orb_true_r; [by rewrite Gn|by rewrite Gp]. }
  split; [done|]. rewrite Es. split.
  - intros a z n. rewrite sh_alter. cbn [setEl sh_elems]. rewrite length_alter. case_decide as Hd; [subst a|apply Hn].
    destruct (sh_elems (shape l) !! e) as [y|] eqn:Ey; [|done]. intros [= <-] En. cbn in En. destruct Hnx as [Hx|Hx]; [congruence|].
    apply (Hn e y n Ey). cbn in Ey. rewrite list_lookup_fmap, E in Ey. injection Ey as <-. cbn. congruence.
  - apply (pend_sim ms (shape l)); [|done]. split; [|done]. cbn [setEl sh_elems]. apply Forall2_same_length_lookup. split; [by rewrite length_alter|].
    intros i y y' Ey Ey'. destruct (decide (i = e)) as [->|Hne]; [|rewrite list_lookup_alter_ne, Ey in Ey' by done; by injection Ey' as <-].
    rewrite list_lookup_alter_eq, Ey in Ey'. injection Ey' as <-. cbn in Ey. rewrite list_lookup_fmap, E in Ey. injection Ey as <-.
    split; cbn; [by rewrite R, R'|by rewrite R].
Qed.

Lemma DetachPrev_inv l L ms e : listInv l L ms -> Removed l e = Ret true ->
  exists l', DetachPrev l e = Ret l' /\ listInv l' L ms /\ values l' = values l /\ Next l' e = Next l e.
Proof.
  intros Hl Hr. unfold Removed, DetachPrev, Next, elem in *. destruct (l_elems l !! e) as [x|] eqn:E; [|done]. cbn in *. injection Hr as R. rewrite R. cbn.
  eexists. split; [done|]. split; [apply (detach_inv l L ms e x); cbn; auto|]. split.
  - unfold values. cbn. rewrite list_fmap_insert. cbn. apply list_insert_id. by rewrite list_lookup_fmap, E.
  - cbn. rewrite list_lookup_insert_eq by (by eapply lookup_lt_Some). done.
Qed.

(** ** Readers *)

Definition readerOK (l : CList V) (r : reader) : Prop :=
  match r with
  | Looking q | Returned q _ => exists gs, gatesOf l q = Ret gs
  | Waiting q k => exists gs, gatesOf l q = Ret gs /\ (k <= length (gs_old gs))%nat
  end.
Definition grows (l l' : CList V) : Prop := forall q gs, gatesOf l q = Ret gs -> exists gs', gatesOf l' q = Ret gs' /\ (length (gs_old gs) <= length (gs_old gs'))%nat.

#[local] Instance grows_trans : Transitive grows.
Proof. intros a b c H1 H2 q gs E. destruct (H1 q gs E) as (g1 & E1 & L1), (H2 q g1 E1) as (g2 & E2 & L2). exists g2. split; [done|lia]. Qed.
Lemma grows_reader l l' r : grows l l' -> readerOK l r -> readerOK l' r.
Proof.
  intros Hg. destruct r as [q|q k|q res]; cbn; [intros [gs E]|intros (gs & E & Hk)|intros [gs E]]; destruct (Hg q gs E) as (gs' & E' & Hl); exists gs'; [done|split; [done|lia]|done].
Qed.

Lemma release_grows gs gs' : releaseCur gs = Ret gs' -> gs_old gs' = gs_old gs.
Proof. unfold releaseCur. destruct (release (gs_cur gs)); [|done]. by intros [= <-]. Qed.
Lemma pointer_grows gs old new gs' : onPointer gs old new = Ret gs' -> (length (gs_old gs) <= length (gs_old gs'))%nat.
Proof. destruct old, new; cbn; [by intros [= <-]|intros [= <-]; cbn; rewrite length_app; lia|by intros ->%release_grows|by intros [= <-]]. Qed.
Lemma setElem_grows l e x x' : l_elems l !! e = Some x -> (length (gs_old (e_nextG x)) <= length (gs_old (e_nextG x')))%nat ->
  (length (gs_old (e_prevG x)) <= length (gs_old (e_prevG x')))%nat -> grows l (setElem l e x').
Proof.
  intros E Hn Hp q gs. destruct q as [a|a| |]; cbn; unfold elem; cbn; [..|by intros [= <-]; eexists|by intros [= <-]; eexists].
  all: destruct (decide (a = e)) as [->|Hne]; [rewrite E, list_lookup_insert_eq by (by eapply lookup_lt_Some)|rewrite list_lookup_insert_ne by done; intros H; by exists gs].
  all: cbn; intros [= <-]; eauto.
Qed.

Lemma exec_grows m l l' : exec m l = Ret l' -> grows l l'.
Proof.
  destruct m as [e n|e p|e|o|o]; cbn [exec]; unfold SetNext, SetPrev, SetRemoved, elem.
  1-3: destruct (l_elems l !! e) as [x|] eqn:E; [|done]; cbn [mbind go_mbind]; intros H.
  - apply bind_ret_inv in H as (gs & Eg & [= <-]). apply (setElem_grows l e x); [done|cbn; by eapply pointer_grows|done].
  - apply bind_ret_inv in H as (gs & Eg & [= <-]). apply (setElem_grows l e x); [done|done|cbn; by eapply pointer_grows].
  - apply bind_ret_inv in H as (pg & Ep & H). apply bind_ret_inv in H as (ng & En & [= <-]). apply (setElem_grows l e x); [done|..]; cbn.
    + destruct (e_next x); [by injection En as <-|by rewrite (release_grows _ _ En)].
    + destruct (e_prev x); [by injection Ep as <-|by rewrite (release_grows _ _ Ep)].
  - intros [= <-]. intros q gs Hq. exists gs. by split; [destruct q|].
  - intros [= <-]. intros q gs Hq. exists gs. by split; [destruct q|].
Qed.
Lemma run_grows ms l l' : run ms l = Ret l' -> grows l l'.
Proof.
  revert l. induction ms as [|m ms IH]; intros l E; unfold run in E; cbn in E; [injection E as <-; intros q gs Hq; by exists gs|].
  destruct (exec m l) as [l1|] eqn:E1; [|done]. transitivity l1; [by apply (exec_grows m)|by apply IH].
Qed.
Lemma pushBegin_grows l v l' e ms : pushBegin l v = Ret (l', e, ms) -> grows l l'.
Proof.
  unfold pushBegin. intros E. apply bind_ret_inv in E as (gs & Eg & [= <- <- <-]).
  assert (Hl : gs_old gs = gs_old (l_gates l)) by (destruct (l_len l =? 0); [by apply release_grows|by injection Eg as <-]).
  intros [a|a| |] g; cbn; unfold elem; cbn; [..|intros [= <-]; exists gs; split; [done|by rewrite Hl]|intros [= <-]; exists gs; split; [done|by rewrite Hl]].
  all: destruct (l_elems l !! a) as [x|] eqn:Ea; [|done]; rewrite (lookup_app_l_Some _ _ _ _ Ea); cbn; intros [= <-]; by eexists.
Qed.
Lemma removeBegin_grows l e l' ms : removeBegin l e = Ret (l', ms) -> grows l l'.
Proof.
  unfold removeBegin. intros E. apply bind_ret_inv in E as (p & Ep & E). apply bind_ret_inv in E as (n & En & E).
  destruct (_ || _); [done|]. destruct (_ && _); [done|]. destruct (_ && _); [done|]. injection E as <- <-.
  intros [a|a| |] g; cbn; [intros H; by exists g|intros H; by exists g|..]; intros [= <-]; eexists; (split; [done|]); destruct (l_len l =? 1); cbn; rewrite ?length_app; lia.
Qed.

Lemma gates_old l L ms q gs : listInv l L ms -> gatesOf l q = Ret gs -> Forall shut (gs_old gs).
Proof.
  intros ([Hg Hl] & _) E. destruct q as [e|e| |]; cbn in E; [..|injection E as <-; apply Hl|injection E as <-; apply Hl].
  all: unfold elem in E; destruct (l_elems l !! e) as [x|] eqn:Ex; [|done]; injection E as <-; apply (proj1 (Forall_lookup _ _) Hg _ _ Ex).
Qed.
Lemma gate_shut l L ms q gs k : listInv l L ms -> gatesOf l q = Ret gs -> (k < length (gs_old gs))%nat -> exists g, gateAt gs k = Some g /\ g_count g = 0.
Proof.
  intros Hl E Hk. pose proof (gates_old l L ms q gs Hl E) as Ho.
  unfold gateAt. rewrite lookup_app_l by done. destruct (lookup_lt_is_Some_2 _ _ Hk) as [g E']. exists g. split; [done|]. by rewrite (proj1 (Forall_lookup _ _) Ho _ _ E').
Qed.

Definition needsList (q : query) : Prop := q = FrontWait \/ q = BackWait.
(** If there is a result, the current gate is released. *)
Lemma gate_result l L ms q gs res : listInv l L ms -> (needsList q -> ms = []) -> gatesOf l q = Ret gs -> look l q = Ret (Some res) -> g_count (gs_cur gs) = 0.
Proof.
  intros ([Hg Hl] & _ & Hp) Hms E Hk. destruct q as [e|e| |]; cbn in E, Hk.
  1-2: unfold elem in *; destruct (l_elems l !! e) as [x|] eqn:Ex; [|done]; destruct (proj1 (Forall_lookup _ _) Hg _ _ Ex) as [[_ Hn] [_ Hpv]];
    injection E as <-; cbn in Hk; rewrite ?Hn, ?Hpv; by destruct (e_next x), (e_prev x), (e_removed x).
  all: rewrite Hms in Hp by (by (left + right)); injection E as <-; pose proof (lk_len _ _ Hp) as El; pose proof (lk_head _ _ Hp) as Eh; pose proof (lk_tail _ _ Hp) as Et; cbn in *.
  all: destruct Hl as [_ Hc]; rewrite Hc; destruct L as [|a K]; [first [rewrite Eh in Hk|rewrite Et in Hk]; done|].
  all: rewrite El; unfold zlen; cbn [length]; by rewrite (proj2 (Z.eqb_neq _ _)) by lia.
Qed.

Lemma wake l L ms q k res : listInv l L ms -> (needsList q -> ms = []) -> readerOK l (Waiting q k) -> look l q = Ret (Some res) ->
  turn l (Waiting q k) = Ret (Looking q) /\ turn l (Looking q) = Ret (Returned q res).
Proof.
  intros Hl Hms (gs & E & Hk) Hr. cbn. rewrite E, Hr. cbn. split; [|done].
  destruct (decide (k < length (gs_old gs))%nat) as [Hlt|Hge].
  - destruct (gate_shut l L ms q gs k Hl E Hlt) as (g & -> & ->). done.
  - unfold gateAt. rewrite lookup_app_r by lia. replace (k - length (gs_old gs))%nat with 0%nat by lia. cbn. by rewrite (gate_result l L ms q gs res Hl Hms E Hr).
Qed.

(** ** The list with its goroutines *)

Definition sysInv (s : Sys V) (L : list nat) : Prop := listInv (s_list s) L (s_pending s) /\ Forall (readerOK (s_list s)) (s_readers s).

Lemma readers_grow (l l' : CList V) rs : grows l l' -> Forall (readerOK l) rs -> Forall (readerOK l') rs.
Proof. intros Hg Hr. eapply Forall_impl; [exact Hr|]. intros r. by apply grows_reader. Qed.

Lemma turn_ok l L ms r : listInv l L ms -> readerOK l r -> exists r', turn l r = Ret r' /\ readerOK l r'.
Proof.
  intros _ Hr. destruct r as [q|q k|q res]; [|destruct Hr as (gs & E & Hk)|by exists (Returned q res)].
  - destruct Hr as [gs E]. assert (exists o, look l q = Ret o) as [[res|] Eo].
    { destruct q as [e|e| |]; cbn in E |- *; [..|by eexists|by eexists]; unfold elem in *; by destruct (l_elems l !! e); [eexists|]. }
    + exists (Returned q res). cbn. rewrite Eo. split; [done|by exists gs].
    + exists (Waiting q (length (gs_old gs))). cbn. rewrite Eo, E. split; [done|by exists gs].
  - cbn. rewrite E. cbn. eexists. split; [done|]. destruct (gateAt gs k) as [g|]; [destruct (g_count g =? 0)|]; cbn; eauto.
Qed.

Lemma detach_shape (l : CList V) e l' : (DetachNext l e = Ret l' \/ DetachPrev l e = Ret l') -> exists x x', l_elems l !! e = Some x /\ l' = setElem l e x' /\ e_removed x = true /\
  e_removed x' = true /\ e_nextG x' = e_nextG x /\ e_prevG x' = e_prevG x /\ (e_next x' = None \/ e_next x' = e_next x).
Proof.
  unfold DetachNext, DetachPrev, elem. destruct (l_elems l !! e) as [x|]; [|by intros [|]]. cbn. destruct (e_removed x) eqn:R; [|by intros [|]].
  intros [[= <-]|[= <-]]; eexists x, _; (split; [done|]); (split; [reflexivity|]); cbn; auto 10.
Qed.

(** A step adds at most the element it pushes. *)
Lemma step_inv s s' L : step s s' -> sysInv s L -> exists L', sysInv s' L' /\ (length (l_elems (s_list s)) <= length (l_elems (s_list s')))%nat /\
  forall y, y ∈ L' -> y ∈ L \/ (length (l_elems (s_list s)) <= y)%nat.
Proof.
  intros Hs [Hl Hr]. destruct Hs as [l rs v l' e ms E|l rs e l' ms R E|l m ms rs l' E|l ms rs e l' E|l ms rs e l' E|l ms rs q Hq|l ms rs i r r' Ei Hm E]; cbn in *.
  - destruct (pushBegin_ok l L v Hl) as (l1 & ms1 & E1 & H1 & V1). rewrite E in E1. injection E1 as <- -> <-. eexists. split; [split; [exact H1|by apply (readers_grow l); [eapply pushBegin_grows|]]|].
    split; [apply (f_equal length) in V1; unfold values in V1; rewrite length_app, !length_fmap in V1; lia|]. intros y [Hy|Hy%list_elem_of_singleton]%elem_of_app; [by left|right; lia].
  - pose proof Hl as (_ & _ & Hlk). assert (He : live (shape l) e).
    { unfold Removed, elem in R. destruct (l_elems l !! e) as [x|] eqn:Ex; [|done]. exists (elOf x). cbn in *. injection R as R. by rewrite list_lookup_fmap, Ex. }
    apply (lk_live _ _ Hlk) in He as [i Hi]%list_elem_of_lookup. destruct (removeBegin_ok l L i e Hl Hi) as (l1 & ms1 & E1 & H1 & V1 & _).
    rewrite E in E1. injection E1 as <- <-. eexists. split; [split; [exact H1|by apply (readers_grow l); [eapply removeBegin_grows|]]|].
    split; [apply (f_equal length) in V1; unfold values in V1; rewrite !length_fmap in V1; lia|]. intros y Hy. left. by apply (elem_delete _ _ _ _ (lk_mono _ _ Hlk) Hi) in Hy as [Hy _].
  - destruct (exec_inv l L m ms Hl) as (l1 & E1 & H1 & S1). rewrite E in E1. injection E1 as <-. exists L. split; [split; [done|by apply (readers_grow l); [eapply exec_grows|]]|].
    split; [|by left]. rewrite <- !length_shape, S1, effect_length. done.
  - destruct (detach_shape l e l' (or_introl E)) as (x & x' & Ex & -> & R & R' & Gn & Gp & Hx). exists L. split; [split; [by apply (detach_inv l L ms e x)|]|split; [cbn; by rewrite length_insert|by left]].
    apply (readers_grow l); [|done]. apply (setElem_grows l e x); [done|by rewrite Gn|by rewrite Gp].
  - destruct (detach_shape l e l' (or_intror E)) as (x & x' & Ex & -> & R & R' & Gn & Gp & Hx). exists L. split; [split; [by apply (detach_inv l L ms e x)|]|split; [cbn; by rewrite length_insert|by left]].
    apply (readers_grow l); [|done]. apply (setElem_grows l e x); [done|by rewrite Gn|by rewrite Gp].
  - exists L. split; [split; [done|]|by split; [|left]]. apply Forall_app. split; [done|]. constructor; [|done]. destruct q as [e|e| |]; cbn; [..|by eexists|by eexists]; unfold elem; destruct Hq as [x ->]; by eexists.
  - exists L. split; [split; [done|]|by split; [|left]]. pose proof (proj1 (Forall_lookup _ _) Hr _ _ Ei) as Hri. destruct (turn_ok l L ms r Hl Hri) as (r1 & E1 & H1). rewrite E in E1. injection E1 as <-. by apply Forall_insert.
Qed.

Lemma step_grows (s s' : Sys V) : step s s' -> grows (s_list s) (s_list s').
Proof.
  intros Hs. destruct Hs as [l rs v l' e ms E|l rs e l' ms R E|l m ms rs l' E|l ms rs e l' E|l ms rs e l' E|l ms rs q Hq|l ms rs i r r' Ei Hm E]; cbn;
    [by eapply pushBegin_grows|by eapply removeBegin_grows|by eapply exec_grows|..|intros q' gs Hg; by exists gs|intros q' gs Hg; by exists gs].
  - destruct (detach_shape l e l' (or_introl E)) as (x & x' & Ex & -> & R & R' & Gn & Gp & Hx). apply (setElem_grows l e x); [done|by rewrite Gn|by rewrite Gp].
  - destruct (detach_shape l e l' (or_intror E)) as (x & x' & Ex & -> & R & R' & Gn & Gp & Hx). apply (setElem_grows l e x); [done|by rewrite Gn|by rewrite Gp].
Qed.

Lemma reachable_inv s : reachable s -> exists L, sysInv s L.
Proof.
  induction 1 as [|s s' _ [L IH] Hs]; [exists []; split; [apply New_good|constructor]|]. destruct (step_inv s s' L Hs IH) as (L' & H' & _). by exists L'.
Qed.

(** Following [next] from an element; [None] if it takes more than [fuel] steps. *)
Fixpoint walk (fuel : nat) (l : CList V) (o : option nat) : go (option (list nat)) :=
  match o, fuel with
  | None, _ => Ret (Some [])
  | Some _, O => Ret None
  | Some e, S fuel => n ← Next l e; r ← walk fuel l n; Ret (option_map (cons e) r)
  end.

Lemma walk_good l L fuel i : good l L -> (length L <= fuel + i)%nat -> walk fuel l (L !! i) = Ret (Some (drop i L)).
Proof.
  intros Hl. revert i. induction fuel as [|fuel IH]; intros i Hf.
  - rewrite lookup_ge_None_2, drop_ge by lia. done.
  - destruct (L !! i) as [e|] eqn:Hi; [|apply lookup_ge_None in Hi; by rewrite drop_ge by lia]. cbn [walk].
    rewrite (proj1 (Next_good l L i e Hl Hi)). cbn. rewrite IH by lia. cbn. by rewrite (drop_S _ _ _ Hi).
Qed.

Lemma mono_length L n : mono L -> (forall y, y ∈ L -> (y < n)%nat) -> (length L <= n)%nat.
Proof.
  intros Hm. revert n. induction L as [|y L IH] using rev_ind; intros n Hn; [cbn; lia|]. rewrite length_app. cbn.
  assert (length L <= y)%nat; [|specialize (Hn y ltac:(apply elem_of_app; right; by apply list_elem_of_singleton)); lia]. apply IH.
  - intros i j a b Hi Hj. by apply (Hm i j); apply lookup_app_l_Some.
  - intros z [i Hi]%list_elem_of_lookup. apply (Hm i (length L)); [by apply lookup_app_l_Some|by rewrite lookup_app_r, Nat.sub_diag by lia|by eapply lookup_lt_Some].
Qed.

(** C20: the concurrent list is safe as long as no element is removed twice.  With
    one writer at a time, which pushes or removes an element that is still in the
    list, and any number of readers, in any interleaving of the steps on single
    elements, no step panics (a wait group is released once, a channel closed
    once), and a next element is always a later one.  When no writer is in the
    middle of an operation, a next element, also that of an element that was
    removed, leaves out no element that is in the list; walking from [Front]
    gives the elements that were not removed, in the order they were pushed, and
    [Len] is their number. *)
Theorem clist_safe (s : Sys V) : reachable s -> let l := s_list s in
  (s_pending s = [] -> (forall v, exists r, pushBegin l v = Ret r) /\ (forall e, Removed l e = Ret false -> exists r, removeBegin l e = Ret r)) /\
  (forall m ms, s_pending s = m :: ms -> exists l', exec m l = Ret l') /\
  (forall i r, s_readers s !! i = Some r -> exists r', turn l r = Ret r') /\
  (forall e n, Next l e = Ret (Some n) -> (e < n)%nat /\ (s_pending s = [] -> forall y, Removed l y = Ret false -> (e < y)%nat -> (n <= y)%nat)) /\
  (s_pending s = [] -> exists L, walk (length (l_elems l)) l (Front l) = Ret (Some L) /\ mono L /\ (forall e, e ∈ L <-> Removed l e = Ret false) /\ Len l = zlen L).
Proof.
  intros Hs l. destruct (reachable_inv s Hs) as (L & Hl & Hr). fold l in Hl, Hr.
  assert (Hrem : forall e, Removed l e = Ret false <-> live (shape l) e).
  { intros e. unfold Removed, elem, live. cbn. rewrite list_lookup_fmap. destruct (l_elems l !! e) as [x|]; cbn; [|by split; [|intros (? & ? & ?)]].
    split; [intros [= E]; by exists (elOf x)|]. by intros (? & [= <-] & E); cbn in E; rewrite E. }
  split_and!.
  - intros Ep. rewrite Ep in Hl. split; [intros v; destruct (pushBegin_ok l L v Hl) as (l1 & ms & E & _); by eexists|].
    intros e He%Hrem. apply (lk_live _ _ (proj2 (proj2 Hl))) in He as [i Hi]%list_elem_of_lookup. destruct (removeBegin_ok l L i e Hl Hi) as (l1 & ms & E & _). by eexists.
  - intros m ms Ep. rewrite Ep in Hl. destruct (exec_inv l L m ms Hl) as (l1 & E & _). by exists l1.
  - intros i r Hi. destruct (turn_ok l L _ r Hl (proj1 (Forall_lookup _ _) Hr _ _ Hi)) as (r' & E & _). by exists r'.
  - intros e n En. unfold Next, elem in En. destruct (l_elems l !! e) as [x|] eqn:Ex; [|done]. injection En as En. destruct Hl as (_ & Hn & Hp).
    destruct (Hn e (elOf x) n) as [[H1 H2] _]; [cbn; by rewrite list_lookup_fmap, Ex|done|]. split; [done|]. intros Ep y Hy%Hrem. apply H2. rewrite Ep in Hp. by apply (lk_live _ _ Hp).
  - intros Ep. rewrite Ep in Hl. pose proof Hl as (_ & _ & Hk). exists L. pose proof (lk_mono _ _ Hk) as Hm. split_and!; [|done| |apply (lk_len _ _ Hk)].
    + unfold Front. pose proof (lk_head _ _ Hk) as Eh. cbn in Eh. rewrite Eh, (walk_good l L _ 0 Hl); [by rewrite drop_0|]. rewrite Nat.add_0_r. apply mono_length; [done|].
      intros y Hy. rewrite <- length_shape. by apply (linked_lt _ _ _ Hk).
    + intros e. rewrite Hrem. apply (lk_live _ _ Hk).
Qed.

(** No wake-up is lost.  A goroutine that waits in [NextWait], [PrevWait],
    [FrontWait] or [BackWait], on any gate it got, returns in two turns as
    soon as there is something to return: a neighbour, the removal of its
    element, or an element in the list.  In particular pushing an element
    wakes those that wait for the first or the next one, and they get it. *)
Theorem clist_wakes (s : Sys V) i q k : reachable s -> s_readers s !! i = Some (Waiting q k) -> let l := s_list s in
  (forall res, (needsList q -> s_pending s = []) -> look l q = Ret (Some res) ->
    turn l (Waiting q k) = Ret (Looking q) /\ turn l (Looking q) = Ret (Returned q res)) /\
  (forall v, s_pending s = [] -> look l q = Ret None -> (forall e, q <> PrevWait e) -> exists l' e', PushBack l v = Ret (l', e') /\ Value l' e' = Ret v /\
    turn l' (Waiting q k) = Ret (Looking q) /\ turn l' (Looking q) = Ret (Returned q (Some e'))).
Proof.
  intros Hs Hi l. destruct (reachable_inv s Hs) as (L & Hl & Hr). fold l in Hl, Hr. pose proof (proj1 (Forall_lookup _ _) Hr _ _ Hi) as Hri.
  split; [intros res Hq; by apply (wake l L (s_pending s))|]. intros v Ep Hn Hq. rewrite Ep in Hl.
  destruct (pushBegin_ok l L v Hl) as (l1 & ms & E1 & H1 & V1). destruct (run_inv ms l1 _ H1) as (l2 & E2 & H2 & V2 & _).
  assert (Hg : grows l l2) by (transitivity l1; [by eapply pushBegin_grows|by eapply run_grows]).
  set (e' := length (l_elems l)) in *. exists l2, e'. split; [unfold PushBack; rewrite E1; cbn; by rewrite E2|]. split.
  { assert (Ev : values l2 !! e' = Some v) by (rewrite V2, V1; apply list_lookup_middle; unfold values; by rewrite length_fmap). unfold values in Ev. rewrite list_lookup_fmap in Ev.
    unfold Value, elem. destruct (l_elems l2 !! e'); [by injection Ev as <-|done]. }
  apply (wake l2 (L ++ [e']) []); [done|done|by apply (grows_reader l)|]. pose proof Hl as (_ & _ & Hk). pose proof H2 as (_ & _ & Hk2).
  destruct q as [e|e| |]; [|by destruct (Hq e)|..]; cbn in Hn |- *.
  - destruct (elem l e) as [x|] eqn:Ee; [|done]. cbn in Hn. unfold elem in Ee. destruct (l_elems l !! e) as [y|] eqn:Ey; [|done]. injection Ee as ->.
    destruct (e_next x) eqn:Enx; [done|]. destruct (e_removed x) eqn:Erm; [done|]. assert (He : e ∈ L) by (apply (lk_live _ _ Hk); exists (elOf x); cbn; by rewrite list_lookup_fmap, Ey).
    apply list_elem_of_lookup in He as [j Hj]. destruct (Next_good l2 _ j e H2 (lookup_app_l_Some _ _ _ _ Hj)) as [En2 _]. unfold Next, elem in *.
    destruct (l_elems l2 !! e) as [z|]; [|done]. injection En2 as En2. cbn. rewrite En2. destruct (lk_ptr _ _ Hk j e (elOf x) Hj) as [Hx _]; [cbn; by rewrite list_lookup_fmap, Ey|].
    cbn in Hx. rewrite Enx in Hx. symmetry in Hx. apply lookup_ge_None in Hx. apply lookup_lt_Some in Hj. rewrite lookup_app_r by lia. by replace (S j - length L)%nat with 0%nat by lia.
  - pose proof (lk_head _ _ Hk) as Eh. pose proof (lk_head _ _ Hk2) as Eh2. cbn in Eh, Eh2. rewrite Eh in Hn. rewrite Eh2. by destruct L.
  - pose proof (lk_tail _ _ Hk2) as Et2. cbn in Et2. by rewrite Et2, last_snoc.
Qed.
End Proofs.

(** ** Witnesses *)

(** A reader waits for the element after the first, which is pushed later. *)
Definition exList : CList Z := (fromRet (New, 0%nat) (PushBack New 7)).1.
Definition exSys : Sys Z := mkSys exList [] [Waiting (NextWait 0) 0].

Lemma exSys_reachable : reachable exSys.
Proof.
  assert (R1 : reachable (mkSys (V := Z) New [] [])) by constructor.
  assert (Ep : exists l e ms, pushBegin (V := Z) New 7 = Ret (l, e, ms)) by (eexists _, _, _; reflexivity). destruct Ep as (l & e & ms & Ep).
  pose proof (reach_step _ _ R1 (step_push _ _ _ _ _ _ Ep)) as R2. injection Ep as <- <- <-.
  pose proof (reach_step _ _ R2 (step_micro _ (mHead (Some 0%nat)) _ _ _ eq_refl)) as R3.
  pose proof (reach_step _ _ R3 (step_micro _ (mTail (Some 0%nat)) _ _ _ eq_refl)) as R4.
  assert (R5 : reachable (mkSys exList [] [Looking (NextWait 0)])) by (apply (reach_step _ _ R4), (step_enter exList [] [] (NextWait 0)); by eexists).
  apply (reach_step _ _ R5), (step_reader exList [] [Looking (NextWait 0)] 0 (Looking (NextWait 0))); done.
Qed.

Lemma clist_safe_witness : exists L, walk 1 exList (Front exList) = Ret (Some L) /\ Len exList = zlen L.
Proof. destruct (clist_safe exSys exSys_reachable) as (_ & _ & _ & _ & H). destruct (H eq_refl) as (L & E & _ & _ & El). exists L. split; [exact E|exact El]. Defined.

Lemma clist_wakes_witness : exists l' e', PushBack exList 8 = Ret (l', e') /\ turn l' (Looking (NextWait 0)) = Ret (Returned (NextWait 0) (Some e')).
Proof.
  destruct (clist_wakes exSys 0 (NextWait 0) 0 exSys_reachable eq_refl) as [_ H].
  destruct (H 8 eq_refl eq_refl ltac:(discriminate)) as (l' & e' & E & _ & _ & R). exists l', e'. split; [exact E|exact R].
Defined.
End CList.
