(* ===== verification/Mempool.v ===== *)
(** * The mempool: mempool/mempool.go and mempool/reactor.go

    Transactions that passed the application wait here, in a concurrent list,
    to be proposed.  Requests to the application are answered in order; the
    connection is the queue of the requests that are not answered yet, and an
    answer may come at any later time. *)

From S2P Require Import Prelude Crypto Types Block CList.
Import Types.

Module Mempool.

(** ** The cache of seen transactions *)

Record mapTxCache := mkMapCache { mc_size : Z; mc_map : gset bytes; mc_list : list bytes }.
Definition newMapTxCache (cacheSize : Z) : mapTxCache := mkMapCache cacheSize ∅ [].
Definition mc_Reset (cache : mapTxCache) : mapTxCache := mkMapCache (mc_size cache) ∅ [].
Definition mc_Push (cache : mapTxCache) (tx : bytes) : go (mapTxCache * bool) :=
  if decide (tx ∈ mc_map cache) then Ret (cache, false) else
  c ← (if mc_size cache <=? zlen (mc_list cache) then
         match mc_list cache with
         | [] => Panic NilDeref
         | popped :: rest => Ret (mkMapCache (mc_size cache) (mc_map cache ∖ {[popped]}) rest)
         end
       else Ret cache);
  Ret (mkMapCache (mc_size c) ({[tx]} ∪ mc_map c) (mc_list c ++ [tx]), true).
Definition mc_Remove (cache : mapTxCache) (tx : bytes) : mapTxCache := mkMapCache (mc_size cache) (mc_map cache ∖ {[tx]}) (mc_list cache).

(** The interface, with [nopTxCache]. *)
Inductive txCache := MapCache (c : mapTxCache) | NopCache.
Definition cache_Reset (c : txCache) : txCache := match c with MapCache c => MapCache (mc_Reset c) | NopCache => NopCache end.
Definition cache_Push (c : txCache) (tx : bytes) : go (txCache * bool) :=
  match c with
  | MapCache c => '(c, ok) ← mc_Push c tx; Ret (MapCache c, ok)
  | NopCache => Ret (NopCache, true)
  end.
Definition cache_Remove (c : txCache) (tx : bytes) : txCache := match c with MapCache c => MapCache (mc_Remove c tx) | NopCache => NopCache end.

(** ** The mempool *)

Record MempoolConfig := mkConfig { cfg_Size : Z; cfg_CacheSize : Z; cfg_Recheck : bool; cfg_RecheckEmpty : bool }.
Record mempoolTx := mkMempoolTx { mt_counter : Z; mt_height : Z; mt_tx : bytes }.

(** [txsAvailable] is nil, or a channel of capacity one.  [conn] are the
    requests the application has not answered; [wal] the bytes written to
    the log, if there is one; [buckets] the chain requesters started in the
    blockchain reactor, if it is set. *)
Record Mempool := mkMempool {
  config : MempoolConfig;
  txs : CList.CList mempoolTx;
  counter : Z;
  height : Z;
  rechecking : Z;
  recheckCursor : option nat;
  recheckEnd : option nat;
  notifiedTxsAvailable : bool;
  txsAvailable : option (option Z);
  cache : txCache;
  wal : option bytes;
  conn : list (bytes * Z);
  buckets : option (gmap bytes Z) }.

Definition setTxs (m : Mempool) t := mkMempool (config m) t (counter m) (height m) (rechecking m) (recheckCursor m) (recheckEnd m) (notifiedTxsAvailable m) (txsAvailable m) (cache m) (wal m) (conn m) (buckets m).
Definition setCounter (m : Mempool) c := mkMempool (config m) (txs m) c (height m) (rechecking m) (recheckCursor m) (recheckEnd m) (notifiedTxsAvailable m) (txsAvailable m) (cache m) (wal m) (conn m) (buckets m).
Definition setHeight (m : Mempool) h n := mkMempool (config m) (txs m) (counter m) h (rechecking m) (recheckCursor m) (recheckEnd m) n (txsAvailable m) (cache m) (wal m) (conn m) (buckets m).
Definition setRecheck (m : Mempool) r c e := mkMempool (config m) (txs m) (counter m) (height m) r c e (notifiedTxsAvailable m) (txsAvailable m) (cache m) (wal m) (conn m) (buckets m).
Definition setNotify (m : Mempool) n ch := mkMempool (config m) (txs m) (counter m) (height m) (rechecking m) (recheckCursor m) (recheckEnd m) n ch (cache m) (wal m) (conn m) (buckets m).
Definition setCache (m : Mempool) c := mkMempool (config m) (txs m) (counter m) (height m) (rechecking m) (recheckCursor m) (recheckEnd m) (notifiedTxsAvailable m) (txsAvailable m) c (wal m) (conn m) (buckets m).
Definition setWal (m : Mempool) w := mkMempool (config m) (txs m) (counter m) (height m) (rechecking m) (recheckCursor m) (recheckEnd m) (notifiedTxsAvailable m) (txsAvailable m) (cache m) w (conn m) (buckets m).
Definition setConn (m : Mempool) q := mkMempool (config m) (txs m) (counter m) (height m) (rechecking m) (recheckCursor m) (recheckEnd m) (notifiedTxsAvailable m) (txsAvailable m) (cache m) (wal m) q (buckets m).
Definition setBuckets (m : Mempool) b := mkMempool (config m) (txs m) (counter m) (height m) (rechecking m) (recheckCursor m) (recheckEnd m) (notifiedTxsAvailable m) (txsAvailable m) (cache m) (wal m) (conn m) b.

Definition NewMempool (config : MempoolConfig) (height : Z) : Mempool :=
  mkMempool config CList.New 0 height 0 None None false None
    (if 0 <? cfg_CacheSize config then MapCache (newMapTxCache (cfg_CacheSize config)) else NopCache) None [] None.
Definition EnableTxsAvailable (m : Mempool) : Mempool := setNotify m (notifiedTxsAvailable m) (Some None).
Definition Size (m : Mempool) : Z := CList.Len (txs m).

(** A loop over the elements whose body may remove the one it is at.  [fuel]
    is the number of elements the list ever had. *)
Fixpoint forElems {S} (fuel : nat) (body : nat -> CList.CList mempoolTx * S -> go (CList.CList mempoolTx * S))
    (o : option nat) (st : CList.CList mempoolTx * S) : go (CList.CList mempoolTx * S) :=
  match o, fuel with
  | None, _ => Ret st
  | Some _, O => Panic (PanicMsg "out of fuel")
  | Some e, S fuel =>
      st ← body e st;
      n ← CList.Next st.1 e;
      forElems fuel body n st
  end.
Definition forTxs {S} (body : nat -> CList.CList mempoolTx * S -> go (CList.CList mempoolTx * S)) (l : CList.CList mempoolTx) (s : S) :=
  forElems (length (CList.l_elems l)) body (CList.Front l) (l, s).

Definition removeElem (l : CList.CList mempoolTx) (e : nat) : go (CList.CList mempoolTx) :=
  l ← CList.Remove l e;
  CList.DetachPrev l e.

Definition Flush (m : Mempool) : go Mempool :=
  let m := setCache m (cache_Reset (cache m)) in
  '(l, _) ← forTxs (fun e st => l ← removeElem st.1 e; Ret (l, tt)) (txs m) tt;
  Ret (setTxs m l).

Definition notifyTxsAvailable (m : Mempool) : go Mempool :=
  if Size m =? 0 then Panic (PanicMsg "notified txs available but mempool is empty!") else
  match txsAvailable m with
  | Some ch =>
      if notifiedTxsAvailable m then Ret m
      else Ret (setNotify m true (Some (match ch with None => Some (add64 (height m) 1) | Some h => Some h end)))
  | None => Ret m
  end.

(** Checking a transaction.  [connErr] is the error of the connection, and
    [bucketIDs] those of the response if it is there already. *)
Inductive CheckError := ErrMempoolIsFull | ErrTxInCache | ErrConn.
Definition newline : bytes := [Z_byte 10].
Definition CheckTx (m : Mempool) (tx : bytes) (connErr : bool) (bucketIDs : list bytes) : go (Mempool * option CheckError * bytes) :=
  if cfg_Size (config m) <=? Size m then Ret (m, Some ErrMempoolIsFull, []) else
  '(c, ok) ← cache_Push (cache m) tx;
  let m := setCache m c in
  if negb ok then Ret (m, Some ErrTxInCache, []) else
  let m := match wal m with Some w => setWal m (Some (w ++ tx ++ newline)) | None => m end in
  if connErr then Ret (m, Some ErrConn, []) else
  let m := setConn m (conn m ++ [(tx, add64 (height m) 1)]) in
  match bucketIDs with
  | [] => Ret (m, None, [])
  | id :: _ => b ← deref (buckets m); Ret (setBuckets m (Some (<[id := height m]> b)), None, [])
  end.

Definition CodeTypeOK : Z := 0.
Definition resCbNormal (m : Mempool) (tx : bytes) (code : Z) : go Mempool :=
  if code =? CodeTypeOK then
    let m := setCounter m (add64 (counter m) 1) in
    '(l, _) ← CList.PushBack (txs m) (mkMempoolTx (counter m) (height m) tx);
    notifyTxsAvailable (setTxs m l)
  else Ret (setCache m (cache_Remove (cache m) tx)).

Definition samePtr (a b : option nat) : bool := bool_decide (a = b).
Definition resCbRecheck (m : Mempool) (cursor : nat) (tx : bytes) (code : Z) : go Mempool :=
  memTx ← CList.Value (txs m) cursor;
  if negb (bytes_eqb tx (mt_tx memTx)) then Panic (PanicSanity "Unexpected tx response from proxy during recheck") else
  m ← (if code =? CodeTypeOK then Ret m else
         l ← removeElem (txs m) cursor;
         Ret (setCache (setTxs m l) (cache_Remove (cache m) tx)));
  next ← (if samePtr (recheckCursor m) (recheckEnd m) then Ret None else CList.Next (txs m) cursor);
  let m := setRecheck m (rechecking m) next (recheckEnd m) in
  match next with
  | Some _ => Ret m
  | None =>
      let m := setRecheck m 0 None (recheckEnd m) in
      if 0 <? Size m then notifyTxsAvailable m else Ret m
  end.

(** The answer to the first request of the connection. *)
Definition resCb (m : Mempool) (tx : bytes) (code : Z) : go Mempool :=
  match recheckCursor m with
  | None => resCbNormal m tx code
  | Some cursor => resCbRecheck m cursor tx code
  end.
Definition respond (m : Mempool) (code : Z) : go Mempool :=
  match conn m with
  | [] => Ret m
  | (tx, _) :: q => resCb (setConn m q) tx code
  end.

(** The code stops at the limit; walking on adds nothing. *)
Definition collectTxs (m : Mempool) (maxTxs : Z) : go (list bytes) :=
  if maxTxs =? 0 then Ret [] else
  let maxTxs := if maxTxs <? 0 then CList.Len (txs m) else maxTxs in
  '(_, l) ← forTxs (fun e st => if zlen st.2 <? maxTxs then memTx ← CList.Value st.1 e; Ret (st.1, st.2 ++ [mt_tx memTx]) else Ret st) (txs m) [];
  Ret l.
(** [Reap] waits until the recheck is done. *)
Definition Reap (m : Mempool) (maxTxs : Z) : option (go (list bytes)) :=
  if 0 <? rechecking m then None else Some (collectTxs m maxTxs).

Definition txsMapOf (txBuckets : list Block.TxBucket) : gset bytes := list_to_set (txBuckets ≫= Block.Txs).
Definition filterTxs (l : CList.CList mempoolTx) (blockTxsMap : gset bytes) : go (CList.CList mempoolTx * list bytes) :=
  forTxs (fun e st =>
    memTx ← CList.Value st.1 e;
    if decide (mt_tx memTx ∈ blockTxsMap) then l ← removeElem st.1 e; Ret (l, st.2)
    else Ret (st.1, st.2 ++ [mt_tx memTx])) l [].

Definition recheckTxs (m : Mempool) (goodTxs : list bytes) : Mempool :=
  match goodTxs with
  | [] => m
  | _ => let m := setRecheck m 1 (CList.Front (txs m)) (CList.Back (txs m)) in
         setConn m (conn m ++ ((fun tx => (tx, add64 (height m) 1)) <$> goodTxs))
  end.
Definition Update (m : Mempool) (h : Z) (txBuckets : list Block.TxBucket) : go Mempool :=
  let m := setHeight m h false in
  '(l, goodTxs) ← filterTxs (txs m) (txsMapOf txBuckets);
  let m := setTxs m l in
  Ret (if cfg_Recheck (config m) && (cfg_RecheckEmpty (config m) || (0 <? zlen goodTxs)) then recheckTxs m goodTxs else m).

(** ** The list of the mempool *)

Abbreviation txList := (CList.CList mempoolTx).
Definition pool (l : txList) (L : list nat) : list mempoolTx := omap (fun e => CList.values l !! e) L.

Lemma value_good (l : txList) L i e : CList.good l L -> L !! i = Some e -> exists t, CList.Value l e = Ret t /\ CList.values l !! e = Some t.
Proof.
  intros (_ & _ & Hl) Hi. pose proof (proj1 (CList.lk_live _ _ Hl e) ltac:(by eapply list_elem_of_lookup_2)) as Hlive.
  destruct (CList.live_elem _ _ Hlive) as (x & Ex & _). exists (CList.e_Value x). unfold CList.Value, CList.elem, CList.values. by rewrite list_lookup_fmap, Ex.
Qed.
Lemma pool_app (l : txList) A B : pool l (A ++ B) = pool l A ++ pool l B.
Proof. apply omap_app. Qed.
Lemma pool_cons (l : txList) e t B : CList.values l !! e = Some t -> pool l (e :: B) = t :: pool l B.
Proof. intros E. unfold pool. cbn. by rewrite E. Qed.
Lemma pool_values (l l' : txList) L : CList.values l = CList.values l' -> pool l L = pool l' L.
Proof. intros E. unfold pool. by rewrite E. Qed.
Lemma pool_grow (l l' : txList) v L : CList.good l L -> CList.values l' = CList.values l ++ [v] -> pool l' L = pool l L.
Proof.
  intros Hl E. unfold pool. rewrite E. apply list_omap_ext, Forall2_same_length_lookup. split; [done|]. intros i x y Hx Hy. rewrite Hx in Hy. injection Hy as <-.
  destruct (value_good l L i x Hl Hx) as (t & _ & Ev). by rewrite Ev, (lookup_app_l_Some _ _ _ _ Ev).
Qed.
Lemma pool_sub (l : txList) L K : CList.good l L -> (forall e, e ∈ K -> e ∈ L) -> length (pool l K) = length K.
Proof.
  intros Hl. induction K as [|e K IH]; intros HK; [done|]. destruct (proj1 (list_elem_of_lookup L e) (HK e ltac:(left))) as [i Hi].
  destruct (value_good l L i e Hl Hi) as (t & _ & Ev). rewrite (pool_cons _ _ _ _ Ev). cbn. f_equal. apply IH. intros y Hy. apply HK. by right.
Qed.
Lemma pool_length (l : txList) L : CList.good l L -> length (pool l L) = length L.
Proof. intros Hl. by apply (pool_sub l L). Qed.
(** The element at an index splits the list and the pool there. *)
Lemma pool_split (l : txList) L i e : CList.good l L -> L !! i = Some e -> exists t, CList.Value l e = Ret t /\ CList.values l !! e = Some t /\
  pool l L = pool l (take i L) ++ t :: pool l (drop (S i) L) /\ length (pool l (take i L)) = i.
Proof.
  intros Hl Hi. destruct (value_good l L i e Hl Hi) as (t & Et & Ev). exists t. split; [done|]. split; [done|]. split.
  - rewrite <- (take_drop_middle L i e Hi) at 1. by rewrite pool_app, (pool_cons _ _ _ _ Ev).
  - rewrite (pool_sub l L); [apply length_take_le; apply lookup_lt_Some in Hi; lia|done|]. intros y (j & Hj & _)%elem_of_take. by eapply list_elem_of_lookup_2.
Qed.
Lemma pool_lookup (l : txList) L i e t : CList.good l L -> L !! i = Some e -> CList.Value l e = Ret t -> pool l L !! i = Some t.
Proof.
  intros Hl Hi Et. destruct (pool_split l L i e Hl Hi) as (u & Eu & _ & -> & Hlen). rewrite lookup_app_r by lia. rewrite Hlen, Nat.sub_diag. cbn. congruence.
Qed.
Lemma pool_delete (l : txList) L i : CList.good l L -> pool l (delete i L) = delete i (pool l L).
Proof.
  intros Hl. destruct (L !! i) as [e|] eqn:Hi.
  - destruct (pool_split l L i e Hl Hi) as (u & _ & _ & -> & Hlen). rewrite delete_take_drop, pool_app. rewrite <- Hlen at 3. by rewrite delete_middle.
  - apply lookup_ge_None in Hi. rewrite !delete_take_drop, !take_ge, !drop_ge; rewrite ?(pool_length l L Hl); try lia. by rewrite !app_nil_r.
Qed.

Lemma good_fuel (l : txList) L : CList.good l L -> (length L <= length (CList.l_elems l))%nat.
Proof.
  intros (_ & _ & Hk). apply CList.mono_length; [apply (CList.lk_mono _ _ Hk)|]. intros y Hy. rewrite <- CList.length_shape. by apply (CList.linked_lt _ _ _ Hk).
Qed.
Lemma good_front (l : txList) L : CList.good l L -> CList.Front l = L !! O /\ CList.Back l = last L /\ CList.Len l = zlen L.
Proof.
  intros (_ & _ & Hk). pose proof (CList.lk_head _ _ Hk) as H1. pose proof (CList.lk_tail _ _ Hk) as H2. pose proof (CList.lk_len _ _ Hk) as H3. done.
Qed.

Lemma removeElem_good (l : txList) L i e : CList.good l L -> L !! i = Some e -> exists l', removeElem l e = Ret l' /\ CList.good l' (delete i L) /\
  CList.values l' = CList.values l /\ CList.Next l' e = Ret (L !! S i).
Proof.
  intros Hl Hi. destruct (CList.Remove_good l L i e Hl Hi) as (l1 & E1 & H1 & V1 & N1 & R1). destruct (CList.DetachPrev_inv l1 _ [] e H1 R1) as (l2 & E2 & H2 & V2 & N2).
  exists l2. unfold removeElem. rewrite E1. cbn. rewrite E2. split_and!; [done|done|congruence|congruence].
Qed.

Lemma forElems_inv {S} (P : nat -> txList -> S -> Prop) body L :
  (forall i e l s, L !! i = Some e -> P i l s -> exists l' s', body e (l, s) = Ret (l', s') /\ CList.Next l' e = Ret (L !! (1 + i)%nat) /\ P (1 + i)%nat l' s') ->
  forall fuel i l s, (length L <= fuel + i)%nat -> (i <= length L)%nat -> P i l s -> exists l' s', forElems fuel body (L !! i) (l, s) = Ret (l', s') /\ P (length L) l' s'.
Proof.
  intros Hb fuel. induction fuel as [|fuel IH]; intros i l s Hf Hi HP.
  - rewrite lookup_ge_None_2 by lia. exists l, s. split; [done|]. by replace (length L) with i by lia.
  - destruct (L !! i) as [e|] eqn:He; [|exists l, s; split; [done|]; apply lookup_ge_None in He; by replace (length L) with i by lia].
    destruct (Hb i e l s He HP) as (l1 & s1 & E1 & N1 & P1). cbn [forElems]. rewrite E1. cbn [mbind go_mbind fst]. rewrite N1. cbn [mbind go_mbind].
    apply IH; [lia|apply lookup_lt_Some in He; lia|done].
Qed.
Lemma forTxs_inv {S} (P : nat -> txList -> S -> Prop) body l L s : CList.good l L ->
  (forall i e l s, L !! i = Some e -> P i l s -> exists l' s', body e (l, s) = Ret (l', s') /\ CList.Next l' e = Ret (L !! (1 + i)%nat) /\ P (1 + i)%nat l' s') ->
  P 0%nat l s -> exists l' s', forTxs body l s = Ret (l', s') /\ P (length L) l' s'.
Proof.
  intros Hl Hb HP. unfold forTxs. rewrite (proj1 (good_front l L Hl)). apply (forElems_inv P body L Hb); [rewrite Nat.add_0_r; by apply good_fuel|lia|done].
Qed.

(** *** The loops *)

Lemma Flush_list (l : txList) L : CList.good l L -> exists l', forTxs (fun e st => l ← removeElem st.1 e; Ret (l, tt)) l tt = Ret (l', tt) /\ CList.good l' [] /\ CList.values l' = CList.values l.
Proof.
  intros Hl. destruct (forTxs_inv (fun i l' _ => CList.good l' (drop i L) /\ CList.values l' = CList.values l) (fun e st => l ← removeElem st.1 e; Ret (l, tt)) l L tt Hl) as (l' & [] & E & H & HV).
  - intros i e l1 [] Hi [H1 V1]. destruct (removeElem_good l1 (drop i L) 0 e H1) as (l2 & E2 & H2 & V2 & N2); [rewrite lookup_drop; by rewrite Nat.add_0_r|].
    exists l2, tt. cbn [fst]. rewrite E2. split; [done|]. rewrite lookup_drop in N2. split; [by rewrite N2, Nat.add_1_r|]. rewrite (drop_S _ _ _ Hi) in H2. split; [exact H2|congruence].
  - by rewrite drop_0.
  - exists l'. split; [done|]. by rewrite drop_ge in H by lia.
Qed.

Lemma filter_list (l : txList) L keep : CList.good l L -> exists l' L', filterTxs l keep = Ret (l', mt_tx <$> filter (fun t => mt_tx t ∉ keep) (pool l L)) /\
  CList.good l' L' /\ CList.values l' = CList.values l /\ pool l' L' = filter (fun t => mt_tx t ∉ keep) (pool l L).
Proof.
  intros Hl. set (fl := filter (fun t => mt_tx t ∉ keep)).
  destruct (forTxs_inv (fun i l' g => exists K, CList.good l' (K ++ drop i L) /\ CList.values l' = CList.values l /\ pool l K = fl (pool l (take i L)) /\ g = mt_tx <$> pool l K)
    (fun e st => memTx ← CList.Value st.1 e; if decide (mt_tx memTx ∈ keep) then l ← removeElem st.1 e; Ret (l, st.2) else Ret (st.1, st.2 ++ [mt_tx memTx])) l L [] Hl)
    as (l' & g & E & K & HK & HV & HP & ->).
  - intros i e l1 g Hi (K & H1 & V1 & P1 & ->). rewrite (drop_S _ _ _ Hi) in H1.
    assert (HeK : (K ++ e :: drop (S i) L) !! length K = Some e) by (by apply list_lookup_middle).
    destruct (value_good l1 _ _ e H1 HeK) as (t & Et & Ev). rewrite V1 in Ev. cbn [fst snd]. rewrite Et. cbn [mbind go_mbind].
    assert (HSi : (K ++ e :: drop (S i) L) !! S (length K) = L !! (1 + i)%nat).
    { rewrite lookup_app_r by lia. replace (S (length K) - length K)%nat with 1%nat by lia. change ((e :: drop (S i) L) !! 1%nat) with (drop (S i) L !! 0%nat). rewrite lookup_drop. f_equal. lia. }
    assert (Htake : pool l (take (S i) L) = pool l (take i L) ++ [t]) by (rewrite (take_S_r _ _ _ Hi), pool_app, (pool_cons _ _ _ _ Ev); done).
    destruct (decide (mt_tx t ∈ keep)) as [Hin|Hin].
    + destruct (removeElem_good l1 _ (length K) e H1 HeK) as (l2 & E2 & H2 & V2 & N2). rewrite E2. cbn [mbind go_mbind]. eexists l2, _. split; [done|]. split; [by rewrite N2, HSi|].
      rewrite delete_middle in H2. exists K. split; [done|]. split; [congruence|]. split; [|done]. cbn [Nat.add]. rewrite Htake. unfold fl. rewrite filter_app, filter_cons_False, filter_nil, app_nil_r by (by intros H; apply H). done.
    + eexists l1, _. split; [done|]. split; [by rewrite (proj1 (CList.Next_good l1 _ _ e H1 HeK)), HSi|]. exists (K ++ [e]). rewrite <- app_assoc. split; [done|]. split; [done|].
      rewrite pool_app, (pool_cons _ _ _ _ Ev), P1. cbn [Nat.add]. rewrite Htake. split; [unfold fl; by rewrite filter_app, filter_cons_True|by rewrite fmap_app].
  - exists []. cbn. by rewrite drop_0.
  - rewrite drop_ge, app_nil_r in HK by lia. rewrite take_ge in HP by lia. exists l', K. unfold filterTxs. rewrite E, HP. split; [done|]. split; [done|]. split; [done|].
    by rewrite (pool_values l' l K HV).
Qed.

Lemma collect_list m L n : CList.good (txs m) L -> collectTxs m n = Ret (if n <? 0 then mt_tx <$> pool (txs m) L else take (Z.to_nat n) (mt_tx <$> pool (txs m) L)).
Proof.
  intros Hl. unfold collectTxs. destruct (Z.eqb_spec n 0) as [->|Hn]; [done|]. set (k := if n <? 0 then CList.Len (txs m) else n). set (l := txs m) in *.
  assert (Hk : 0 <= k) by (unfold k; rewrite (proj2 (proj2 (good_front _ _ Hl))); destruct (Z.ltb_spec n 0); [apply zlen_nonneg|lia]).
  destruct (forTxs_inv (fun i l' g => l' = l /\ g = take (Z.to_nat k) (mt_tx <$> pool l (take i L)))
    (fun e st => if zlen st.2 <? k then memTx ← CList.Value st.1 e; Ret (st.1, st.2 ++ [mt_tx memTx]) else Ret st) l L [] Hl) as (l' & g & E & -> & ->).
  - intros i e l1 g Hi [-> ->]. destruct (value_good l L i e Hl Hi) as (t & Et & Ev). cbn [fst snd].
    assert (Htake : pool l (take (S i) L) = pool l (take i L) ++ [t]) by (rewrite (take_S_r _ _ _ Hi), pool_app, (pool_cons _ _ _ _ Ev); done).
    destruct (Z.ltb_spec (zlen (take (Z.to_nat k) (mt_tx <$> pool l (take i L)))) k) as [Hlt|Hge]; unfold zlen in *; rewrite length_take in *.
    + rewrite Et. cbn [mbind go_mbind]. eexists _, _. split; [done|]. split; [apply (CList.Next_good l L i e Hl Hi)|]. split; [done|]. cbn [Nat.add]. rewrite Htake, fmap_app. cbn.
      rewrite (take_ge (mt_tx <$> pool l (take i L))), (take_ge (_ ++ _)) by (rewrite ?length_app; cbn; lia). done.
    + eexists _, _. split; [done|]. split; [apply (CList.Next_good l L i e Hl Hi)|]. split; [done|]. cbn [Nat.add]. rewrite Htake, fmap_app, take_app_le by lia. done.
  - split; [done|]. by destruct (Z.to_nat k).
  - rewrite E. cbn. rewrite (take_ge L) by lia. f_equal. unfold k. rewrite (proj2 (proj2 (good_front _ _ Hl))). destruct (n <? 0); [|done]. apply take_ge.
    rewrite length_fmap, (pool_length l L Hl). unfold zlen. lia.
Qed.

(** ** What the mempool promises *)

(** The transactions in order, how many of the last ones wait for the answer
    to their recheck, and the new transactions that wait for their answer. *)
Record Pool := mkPool { p_txs : list mempoolTx; p_todo : nat; p_new : list bytes }.

Inductive op :=
| opCheck (tx : bytes) (connErr : bool) (bucketIDs : list bytes)
| opAnswer (code : Z)
| opUpdate (height : Z) (txBuckets : list Block.TxBucket)
| opFlush
| opEnable
| opReceive.

(** [opReceive] is the consumer of [TxsAvailable]. *)
Definition apply (m : Mempool) (o : op) : go Mempool :=
  match o with
  | opCheck tx connErr bucketIDs => '(m, _, _) ← CheckTx m tx connErr bucketIDs; Ret m
  | opAnswer code => respond m code
  | opUpdate h bs => Update m h bs
  | opFlush => Flush m
  | opEnable => Ret (EnableTxsAvailable m)
  | opReceive => Ret (match txsAvailable m with Some _ => setNotify m (notifiedTxsAvailable m) (Some None) | None => m end)
  end.

(** The callers: the executor flushes the connection before [Update]; buckets
    are requested only with a blockchain reactor; [Flush] between rechecks. *)
Definition enabled (m : Mempool) (o : op) : Prop :=
  match o with
  | opCheck _ _ bucketIDs => bucketIDs = [] \/ buckets m <> None
  | opAnswer _ => conn m <> []
  | opUpdate _ _ => conn m = []
  | opFlush => recheckCursor m = None
  | _ => True
  end.

Definition inCache (c : txCache) (tx : bytes) : Prop := match c with MapCache c => tx ∈ mc_map c | NopCache => False end.
#[export] Instance inCache_dec c tx : Decision (inCache c tx).
Proof. destruct c; cbn; apply _. Defined.
Definition accepts (m : Mempool) (tx : bytes) (connErr : bool) : bool :=
  bool_decide (Size m < cfg_Size (config m)) && negb (bool_decide (inCache (cache m) tx)) && negb connErr.

Definition aAnswer (counter height : Z) (a : Pool) (code : Z) : Pool :=
  match p_todo a with
  | S k => mkPool (if code =? 0 then p_txs a else delete (length (p_txs a) - S k)%nat (p_txs a)) k (p_new a)
  | O => match p_new a with
         | [] => a
         | tx :: new => mkPool (if code =? 0 then p_txs a ++ [mkMempoolTx (add64 counter 1) height tx] else p_txs a) 0 new
         end
  end.
Definition aUpdate (recheck : bool) (a : Pool) (bs : list Block.TxBucket) : Pool :=
  let ts := filter (fun t => mt_tx t ∉ txsMapOf bs) (p_txs a) in
  mkPool ts (if recheck then length ts else 0%nat) (p_new a).
Definition aStep (m : Mempool) (a : Pool) (o : op) : Pool :=
  match o with
  | opCheck tx connErr _ => if accepts m tx connErr then mkPool (p_txs a) (p_todo a) (p_new a ++ [tx]) else a
  | opAnswer code => aAnswer (counter m) (height m) a code
  | opUpdate _ bs => aUpdate (cfg_Recheck (config m)) a bs
  | opFlush => mkPool [] 0 (p_new a)
  | _ => a
  end.

Definition refines (m : Mempool) (a : Pool) : Prop := exists L,
  CList.good (txs m) L /\ pool (txs m) L = p_txs a /\ (p_todo a <= length L)%nat /\
  (conn m).*1 = (mt_tx <$> drop (length L - p_todo a) (p_txs a)) ++ p_new a /\
  recheckCursor m = (match p_todo a with O => None | S k => L !! (length L - S k)%nat end) /\
  (p_todo a <> 0%nat -> recheckEnd m = last L) /\
  rechecking m = (match p_todo a with O => 0 | S _ => 1 end).

Definition cacheOK (c : txCache) : Prop := match c with
  | MapCache c => 0 < mc_size c /\ zlen (mc_list c) <= mc_size c /\ (forall tx, tx ∈ mc_map c -> tx ∈ mc_list c)
  | NopCache => True
  end.

Lemma cache_Push_ok c tx : cacheOK c -> exists c', cache_Push c tx = Ret (c', negb (bool_decide (inCache c tx))) /\ cacheOK c'.
Proof.
  destruct c as [c|]; [|by exists NopCache]. intros (Hs & Hl & Hm). cbn. unfold mc_Push. destruct (decide (tx ∈ mc_map c)) as [Hin|Hin].
  - exists (MapCache c). cbn. by rewrite bool_decide_true.
  - rewrite bool_decide_false by done. destruct (Z.leb_spec (mc_size c) (zlen (mc_list c))) as [Hf|Hf].
    + destruct (mc_list c) as [|p r] eqn:El; [unfold zlen in Hf; cbn in Hf; lia|]. cbn. eexists. split; [done|]. cbn. split; [done|]. unfold zlen in *. rewrite length_app. cbn in *. split; [lia|].
      intros t. rewrite elem_of_union, elem_of_singleton, elem_of_difference, not_elem_of_singleton, elem_of_app, list_elem_of_singleton. intros [->|[Ht Hne]]; [by right|left].
      specialize (Hm t Ht). by apply elem_of_cons in Hm as [->|Hm].
    + cbn. eexists. split; [done|]. cbn. split; [done|]. unfold zlen in *. rewrite length_app. cbn. split; [lia|].
      intros t. rewrite elem_of_union, elem_of_singleton, elem_of_app, list_elem_of_singleton. intros [->|Ht]; [by right|left; by apply Hm].
Qed.
Lemma cache_Remove_ok c tx : cacheOK c -> cacheOK (cache_Remove c tx).
Proof. destruct c as [c|]; [|done]. intros (Hs & Hl & Hm). split; [done|]. split; [done|]. cbn. intros t [Ht _]%elem_of_difference. by apply Hm. Qed.
Lemma cache_Reset_ok c : cacheOK c -> cacheOK (cache_Reset c).
Proof. destruct c as [c|]; [|done]. intros (Hs & Hl & Hm). split; [done|]. split; [unfold zlen; cbn; lia|]. by intros t Ht%elem_of_empty. Qed.

(** *** CheckTx *)

Ltac check_done := split; [reflexivity|]; split; [by split|]; cbn; rewrite ?fmap_app; split_and!; done.

Lemma CheckTx_spec m tx connErr ids : cacheOK (cache m) -> (ids = [] \/ buckets m <> None) -> exists m' r, CheckTx m tx connErr ids = Ret (m', r, []) /\
  (r = None <-> accepts m tx connErr = true) /\ cacheOK (cache m') /\
  txs m' = txs m /\ counter m' = counter m /\ height m' = height m /\ rechecking m' = rechecking m /\ recheckCursor m' = recheckCursor m /\ recheckEnd m' = recheckEnd m /\
  notifiedTxsAvailable m' = notifiedTxsAvailable m /\ txsAvailable m' = txsAvailable m /\ config m' = config m /\ (buckets m' = None <-> buckets m = None) /\
  (conn m').*1 = (conn m).*1 ++ (if accepts m tx connErr then [tx] else []).
Proof.
  intros Hc Hids. unfold CheckTx, accepts. destruct (Z.leb_spec (cfg_Size (config m)) (Size m)) as [Hf|Hf].
  { rewrite (bool_decide_false (Size m < _)) by lia. cbn. exists m, (Some ErrMempoolIsFull). rewrite app_nil_r. check_done. }
  rewrite (bool_decide_true (Size m < _)) by lia. cbn [andb]. destruct (cache_Push_ok (cache m) tx Hc) as (c & -> & Hc'). cbn [mbind go_mbind]. change (wal (setCache m c)) with (wal m).
  destruct (bool_decide (inCache (cache m) tx)); cbn [negb]; [eexists _, (Some ErrTxInCache); rewrite app_nil_r; check_done|]. cbn [andb].
  destruct connErr; cbn [negb]; [destruct (wal m); eexists _, (Some ErrConn); rewrite app_nil_r; check_done|].
  destruct ids as [|id ids]; [destruct (wal m) eqn:Ew; cbn; rewrite ?Ew; eexists _, None; check_done|].
  destruct Hids as [|Hb]; [done|]. destruct (buckets m) as [b|] eqn:Eb; [|done].
  destruct (wal m) eqn:Ew; cbn; rewrite ?Ew, ?Eb; cbn; eexists _, None; check_done.
Qed.

Lemma check_refines m a tx ce ids : refines m a -> cacheOK (cache m) -> (ids = [] \/ buckets m <> None) ->
  exists m', apply m (opCheck tx ce ids) = Ret m' /\ refines m' (aStep m a (opCheck tx ce ids)) /\ cacheOK (cache m').
Proof.
  intros (L & Hl & Hp & Ht & Hq & Hcur & Hend & Hre) Hc Hids. destruct (CheckTx_spec m tx ce ids Hc Hids) as (m' & r & E & Hr & Hc' & E1 & E2 & E3 & E4 & E5 & E6 & E7 & E8 & E9 & E10 & E11).
  exists m'. cbn. rewrite E. split; [done|]. split; [|done]. exists L. rewrite E1, E4, E5, E6, E11, Hq. destruct (accepts m tx ce); cbn; split_and!; try done; [by rewrite app_assoc|by rewrite app_nil_r].
Qed.

Lemma notify_spec m : Size m <> 0 -> exists n ch, notifyTxsAvailable m = Ret (setNotify m n ch) /\ (txsAvailable m = None -> ch = None /\ n = notifiedTxsAvailable m) /\
  (txsAvailable m <> None -> ch <> None /\ n = true).
Proof.
  intros Hs. unfold notifyTxsAvailable. rewrite (proj2 (Z.eqb_neq _ _) Hs). destruct (txsAvailable m) as [ch|] eqn:E.
  - destruct (notifiedTxsAvailable m) eqn:En; [exists true, (Some ch); split; [destruct m; cbn in *; by rewrite En, E|done]|]. eexists true, _. split; [done|done].
  - exists (notifiedTxsAvailable m), None. split; [by destruct m; cbn in *; rewrite E|done].
Qed.

Lemma Size_good m L : CList.good (txs m) L -> Size m = zlen L.
Proof. intros Hl. apply (good_front _ _ Hl). Qed.

(** *** Answers *)

Lemma answer_new m a code : refines m a -> cacheOK (cache m) -> p_todo a = 0%nat -> conn m <> [] ->
  exists m', respond m code = Ret m' /\ refines m' (aAnswer (counter m) (height m) a code) /\ cacheOK (cache m').
Proof.
  intros (L & Hl & Hp & Ht & Hq & Hcur & Hend & Hre) Hc Htodo Hne. unfold respond, aAnswer. rewrite Htodo in *. rewrite Nat.sub_0_r, <- Hp, drop_ge in Hq by (rewrite (pool_length _ _ Hl); lia). cbn in Hq.
  destruct (conn m) as [|[tx h] q] eqn:Eq; [done|]. cbn in Hq. rewrite <- Hq. unfold resCb. cbn [recheckCursor setConn]. rewrite Hcur. unfold resCbNormal. change CodeTypeOK with 0. destruct (code =? 0).
  - cbn [txs setConn setCounter counter height]. destruct (CList.PushBack_good (txs m) L (mkMempoolTx (add64 (counter m) 1) (height m) tx) Hl) as (l' & El & Hl' & Vl). rewrite El. cbn [mbind go_mbind].
    set (m1 := setTxs (setCounter (setConn m q) (add64 (counter m) 1)) l').
    assert (Hs : Size m1 <> 0) by (rewrite (Size_good m1 _ Hl'); unfold zlen; rewrite length_app; cbn; lia).
    destruct (notify_spec m1 Hs) as (n & ch & -> & _). eexists. split; [done|]. split; [|done]. eexists. cbn [txs conn recheckCursor recheckEnd rechecking setNotify m1 setTxs setCounter setConn p_txs p_todo p_new].
    split; [exact Hl'|]. split.
    { rewrite pool_app, (pool_grow (txs m) l' _ L Hl Vl), Hp. rewrite (pool_cons l' _ (mkMempoolTx (add64 (counter m) 1) (height m) tx)); [done|].
      rewrite Vl. apply list_lookup_middle. unfold CList.values. by rewrite length_fmap. }
    split; [lia|]. rewrite Nat.sub_0_r, drop_ge; [done|]. rewrite length_app, <- Hp, (pool_length _ _ Hl), length_app. done.
  - eexists. split; [done|]. split; [|cbn; by apply cache_Remove_ok]. exists L. cbn. rewrite Nat.sub_0_r, <- Hp, drop_ge by (rewrite (pool_length _ _ Hl); lia). done.
Qed.

Lemma drop_delete {A} (l : list A) i : (i < length l)%nat -> drop i (delete i l) = drop (S i) l.
Proof. intros Hi. rewrite delete_take_drop, drop_app, length_take, (drop_ge (take i l)) by (rewrite length_take; lia). replace (i - i `min` length l)%nat with 0%nat by lia. by rewrite drop_0. Qed.

(** The end of a recheck, with [k] elements left. *)
Lemma recheck_next m L' l' k n cursor c : CList.good l' L' -> (k <= length L')%nat ->
  (k = 0%nat -> samePtr (Some cursor) (recheckEnd m) = true) -> (k <> 0%nat -> samePtr (Some cursor) (recheckEnd m) = false /\ recheckEnd m = last L' /\
    CList.Next l' cursor = Ret (L' !! (length L' - k)%nat)) ->
  recheckCursor m = Some cursor -> rechecking m = 1 -> let m1 := setCache (setTxs m l') c in
  (conn m).*1 = (mt_tx <$> drop (length L' - k) (pool l' L')) ++ n ->
  exists m', (next ← (if samePtr (recheckCursor m1) (recheckEnd m1) then Ret None else CList.Next (txs m1) cursor);
    let m := setRecheck m1 (rechecking m1) next (recheckEnd m1) in
    match next with
    | Some _ => Ret m
    | None => let m := setRecheck m 0 None (recheckEnd m) in if 0 <? Size m then notifyTxsAvailable m else Ret m
    end) = Ret m' /\ refines m' (mkPool (pool l' L') k n) /\ cache m' = c.
Proof.
  intros Hl Hk H0 H1 Ecur Ere m1 Hq. cbn [recheckCursor recheckEnd rechecking m1 setCache setTxs txs]. rewrite Ecur. destruct k as [|k].
  - rewrite H0 by done. cbn [mbind go_mbind]. set (m2 := setRecheck _ 0 None _).
    assert (HR : forall n' ch, refines (setNotify m2 n' ch) (mkPool (pool l' L') 0 n)) by (intros n' ch; exists L'; cbn; split_and!; done).
    destruct (Z.ltb_spec 0 (Size m2)) as [Hs|Hs].
    + destruct (notify_spec m2 ltac:(lia)) as (n' & ch & -> & _). eexists. split; [done|]. split; [apply HR|done].
    + eexists. split; [done|]. split; [|done]. specialize (HR (notifiedTxsAvailable m2) (txsAvailable m2)). by destruct m.
  - destruct (H1 ltac:(done)) as (-> & Eend & ->). cbn [mbind go_mbind]. destruct (lookup_lt_is_Some_2 L' (length L' - S k) ltac:(lia)) as [x Ex]. rewrite Ex.
    eexists. split; [done|]. split; [|done]. exists L'. cbn. rewrite Ex. split_and!; done.
Qed.

Lemma answer_recheck m a code k : refines m a -> cacheOK (cache m) -> p_todo a = S k ->
  exists m', respond m code = Ret m' /\ refines m' (aAnswer (counter m) (height m) a code) /\ cacheOK (cache m').
Proof.
  intros (L & Hl & Hp & Ht & Hq & Hcur & Hend & Hre) Hc Htodo. rewrite Htodo in *. set (i := (length L - S k)%nat) in *.
  destruct (lookup_lt_is_Some_2 L i ltac:(lia)) as [e He]. rewrite He in Hcur. destruct (pool_split (txs m) L i e Hl He) as (t & Et & Ev & Esp & Elen).
  assert (Edrop : drop i (p_txs a) = t :: drop (S i) (p_txs a)) by (rewrite <- Hp; apply drop_S; by apply (pool_lookup _ _ _ e)).
  rewrite Edrop in Hq. destruct (conn m) as [|[tx h] q] eqn:Eq; [done|]. cbn in Hq. injection Hq as -> Hq.
  unfold respond, aAnswer. rewrite Eq, Htodo. unfold resCb. cbn [recheckCursor setConn]. rewrite Hcur. unfold resCbRecheck. cbn [txs setConn]. rewrite Et. cbn [mbind go_mbind].
  rewrite bytes_eqb_refl. cbn [negb].
  pose proof Hl as (_ & _ & Hk). pose proof (CList.lk_mono _ _ Hk) as Hmono. specialize (Hend ltac:(done)).
  assert (Hlen : length (p_txs a) = length L) by (rewrite <- Hp; by apply pool_length). rewrite Hlen. fold i.
  assert (H0 : k = 0%nat -> samePtr (Some e) (recheckEnd (setConn m q)) = true).
  { intros ->. unfold samePtr. apply bool_decide_eq_true. cbn. rewrite Hend, last_lookup, <- He. f_equal. unfold i. lia. }
  assert (H1 : k <> 0%nat -> samePtr (Some e) (recheckEnd (setConn m q)) = false).
  { intros Hk0. unfold samePtr. apply bool_decide_eq_false. cbn. rewrite Hend, last_lookup. intros E. symmetry in E. pose proof (CList.mono_inj _ _ _ _ Hmono He E). unfold i in *. lia. }
  change CodeTypeOK with 0. destruct (code =? 0).
  - cbn [mbind go_mbind]. rewrite <- Hp. destruct (recheck_next (setConn m q) L (txs m) k (p_new a) e (cache m)) as (m' & Em & HR & Hcm); try done; [lia| | |].
    + intros Hk0. split; [by apply H1|]. split; [done|]. rewrite (proj1 (CList.Next_good _ _ _ _ Hl He)). f_equal. f_equal. unfold i. lia.
    + cbn. rewrite Hq, Hp. do 3 f_equal. unfold i. lia.
    + exists m'. split; [destruct m; exact Em|]. split; [done|]. by rewrite Hcm.
  - destruct (removeElem_good (txs m) L i e Hl He) as (l' & El & Hl' & Vl & Nl). rewrite El. cbn [mbind go_mbind]. set (L' := delete i L) in *.
    assert (Hlen' : length L' = (length L - 1)%nat) by (unfold L'; rewrite length_delete by done; lia).
    assert (Epool : pool l' L' = delete i (p_txs a)) by (rewrite (pool_values l' (txs m) _ Vl), <- Hp; by apply pool_delete). rewrite <- Epool.
    destruct (recheck_next (setConn m q) L' l' k (p_new a) e (cache_Remove (cache m) (mt_tx t))) as (m' & Em & HR & Hcm); try done; [lia| | |].
    + intros Hk0. split; [by apply H1|]. split; [|rewrite Nl, Hlen'; f_equal; unfold L'; rewrite list_lookup_delete_ge by (unfold i; lia); f_equal; unfold i; lia].
      cbn. rewrite Hend. unfold L'. rewrite CList.last_delete, decide_False by (unfold i; lia). by case_decide.
    + cbn. rewrite Hq, Epool. rewrite Hlen'. replace (length L - 1 - k)%nat with i by (unfold i; lia). by rewrite drop_delete by (rewrite Hlen; unfold i; lia).
    + exists m'. split; [exact Em|]. split; [done|]. rewrite Hcm. by apply cache_Remove_ok.
Qed.

Lemma update_refines m a h bs : refines m a -> conn m = [] -> exists m', Update m h bs = Ret m' /\ refines m' (aUpdate (cfg_Recheck (config m)) a bs) /\ cache m' = cache m.
Proof.
  intros (L & Hl & Hp & Ht & Hq & Hcur & Hend & Hre) Ec. rewrite Ec in Hq. symmetry in Hq. apply app_nil in Hq as [Hd Hnew]. apply fmap_nil_inv in Hd.
  assert (Htodo : p_todo a = 0%nat).
  { apply (f_equal length) in Hd. rewrite length_drop, <- Hp, (pool_length _ _ Hl) in Hd. cbn in Hd. lia. }
  rewrite Htodo in *. unfold Update. cbn [setHeight txs]. destruct (filter_list (txs m) L (txsMapOf bs) Hl) as (l' & L' & -> & Hl' & Vl & Ep). cbn [mbind go_mbind].
  rewrite Hp in *. set (ts := filter _ (p_txs a)) in *. eexists. split; [done|]. cbn [config setTxs setHeight cfg_Recheck].
  assert (Hlen : length L' = length ts) by (rewrite <- Ep; symmetry; by apply pool_length).
  assert (Hoff : forall m', txs m' = l' -> conn m' = [] -> recheckCursor m' = None -> rechecking m' = 0 -> refines m' (mkPool ts 0 (p_new a))).
  { intros m' E1 E2 E3 E4. exists L'. rewrite E1, E2, E3, E4, Hnew. cbn. rewrite Nat.sub_0_r, drop_ge by lia. split_and!; try done. lia. }
  unfold aUpdate. fold ts. destruct (cfg_Recheck (config m)); cbn [andb]; [|split; [by apply Hoff|done]].
  destruct ts as [|t ts'] eqn:Ets; cbn [fmap list_fmap].
  - destruct (cfg_RecheckEmpty (config m) || _); (split; [by apply Hoff|done]).
  - rewrite (proj2 (Z.ltb_lt 0 _)), orb_true_r by (unfold zlen; cbn; lia). split; [|done]. exists L'. cbn. destruct (good_front l' L' Hl') as (Ef & Eb & _).
    rewrite Ec, Hnew, Hlen, Ef, Eb. replace (S (length ts') - S (length ts'))%nat with 0%nat by lia. cbn. rewrite app_nil_r, <- list_fmap_compose. rewrite Nat.sub_diag. split_and!; try done. cbn. f_equal. by rewrite <- list_fmap_compose.
Qed.

Lemma flush_refines m a : refines m a -> recheckCursor m = None -> exists m', Flush m = Ret m' /\ refines m' (mkPool [] 0 (p_new a)) /\ cache m' = cache_Reset (cache m).
Proof.
  intros (L & Hl & Hp & Ht & Hq & Hcur & Hend & Hre) Ec. unfold Flush. cbn [setCache txs]. destruct (Flush_list (txs m) L Hl) as (l' & -> & Hl' & _). cbn [mbind go_mbind]. eexists. split; [done|]. split; [|done].
  rewrite Ec in Hcur. destruct (p_todo a) as [|k]; [|symmetry in Hcur; apply lookup_ge_None in Hcur; lia].
  exists []. cbn. split_and!; try done. rewrite Hq, Nat.sub_0_r, <- Hp, drop_ge by (rewrite (pool_length _ _ Hl); lia). done.
Qed.

Lemma op_total m a o : refines m a -> cacheOK (cache m) -> enabled m o -> exists m', apply m o = Ret m' /\ refines m' (aStep m a o) /\ cacheOK (cache m').
Proof.
  intros HR Hc He. destruct o as [tx ce ids|code|h bs| | |]; cbn [apply aStep enabled] in *.
  - by apply check_refines.
  - destruct (p_todo a) as [|k] eqn:E; [by apply answer_new|by apply (answer_recheck m a code k)].
  - destruct (update_refines m a h bs HR He) as (m' & E & H' & Ec). exists m'. by rewrite Ec.
  - destruct (flush_refines m a HR He) as (m' & E & H' & Ec). exists m'. rewrite Ec. split; [done|]. split; [done|by apply cache_Reset_ok].
  - eexists. split; [done|]. split; [exact HR|exact Hc].
  - eexists. split; [done|]. by destruct (txsAvailable m).
Qed.

(** C21: the mempool refines a queue.  Whatever its callers and the
    application do, no operation panics and each does what it does to the
    abstract pool: accepted transactions wait for their answer and are
    appended in order, a block removes its transactions and starts a recheck
    of all others, each later answer keeps or removes the next one; [Reap]
    waits for the recheck and returns the first transactions in order. *)
Theorem mempool_refines m a o : refines m a -> cacheOK (cache m) -> enabled m o ->
  (exists m', apply m o = Ret m' /\ refines m' (aStep m a o) /\ cacheOK (cache m')) /\
  (forall n, Reap m n = if p_todo a then Some (Ret (if n <? 0 then mt_tx <$> p_txs a else take (Z.to_nat n) (mt_tx <$> p_txs a))) else None).
Proof.
  intros HR Hc He. split; [by apply op_total|].
  intros n. destruct HR as (L & Hl & Hp & _ & _ & _ & _ & Hre). unfold Reap. rewrite Hre. destruct (p_todo a); cbn; [|done]. by rewrite (collect_list m L n Hl), Hp.
Qed.

(** ** Runs *)

(** A run from a new mempool.  Every transaction is checked with at most [n]
    requests unanswered; with a local application that is none. *)
Inductive runs (c : MempoolConfig) (h0 : Z) (n : nat) : Mempool -> Pool -> Prop :=
| run_new : runs c h0 n (NewMempool c h0) (mkPool [] 0 [])
| run_op m a o m' : runs c h0 n m a -> enabled m o -> (match o with opCheck _ _ _ => (length (conn m) <= n)%nat | _ => True end) ->
    apply m o = Ret m' -> runs c h0 n m' (aStep m a o).

Lemma new_refines c h0 : refines (NewMempool c h0) (mkPool [] 0 []) /\ cacheOK (cache (NewMempool c h0)).
Proof.
  split; [exists []; split; [apply CList.New_good|]; split_and!; done || (cbn; lia)|]. cbn. destruct (Z.ltb_spec 0 (cfg_CacheSize c)) as [Hs|Hs]; [|done].
  split; [done|]. split; [unfold zlen; cbn; lia|]. by intros t Ht%elem_of_empty.
Qed.

Lemma op_refines m a o m' : refines m a -> cacheOK (cache m) -> enabled m o -> apply m o = Ret m' -> refines m' (aStep m a o) /\ cacheOK (cache m').
Proof.
  intros HR Hc He Ea. destruct (op_total m a o HR Hc He) as (m1 & E1 & H1 & H2). rewrite Ea in E1. by injection E1 as <-.
Qed.

Lemma runs_refines c h0 n m a : runs c h0 n m a -> refines m a /\ cacheOK (cache m).
Proof. induction 1 as [|m a o m' _ [HR Hc] He _ Ea]; [apply new_refines|by apply (op_refines m)]. Qed.

(** *** The recheck ends *)

Fixpoint kept (ts : list mempoolTx) (codes : list Z) : list mempoolTx :=
  match ts, codes with
  | t :: ts, code :: codes => (if code =? 0 then [t] else []) ++ kept ts codes
  | ts, _ => ts
  end.

Lemma aAnswer_todo cn h A t B new code :
  aAnswer cn h (mkPool (A ++ t :: B) (S (length B)) new) code = mkPool ((A ++ if code =? 0 then [t] else []) ++ B) (length B) new.
Proof.
  unfold aAnswer. cbn. f_equal. replace (length (A ++ t :: B) - S (length B))%nat with (length A) by (rewrite length_app; cbn; lia).
  destruct (code =? 0); rewrite <- app_assoc; [done|]. by rewrite delete_middle.
Qed.

Lemma recheck_run B : forall m A new codes, refines m (mkPool (A ++ B) (length B) new) -> cacheOK (cache m) -> length codes = length B ->
  exists m', go_fold (fun code m => respond m code) codes m = Ret m' /\ refines m' (mkPool (A ++ kept B codes) 0 new) /\ cacheOK (cache m').
Proof.
  induction B as [|t B IH]; intros m A new codes HR Hc Hl; destruct codes as [|code codes]; try done; [by exists m|]. cbn [go_fold length kept].
  destruct (answer_recheck m _ code (length B) HR Hc eq_refl) as (m1 & E1 & H1 & C1). rewrite E1. cbn [mbind go_mbind]. rewrite aAnswer_todo in H1. injection Hl as Hl.
  destruct (IH m1 _ new codes H1 C1 Hl) as (m2 & E2 & H2 & C2). exists m2. split; [done|]. split; [|done]. by rewrite app_assoc.
Qed.

Lemma Reap_done m L : CList.good (txs m) L -> rechecking m = 0 -> Reap m (-1) = Some (Ret (mt_tx <$> pool (txs m) L)).
Proof. intros HL Hre. unfold Reap. rewrite Hre. cbn [Z.ltb Z.compare]. by rewrite (collect_list m L (-1) HL). Qed.

(** Every recheck ends.  In any run, whatever the application answers,
    the answers to the requests of a recheck end it: the cursor is nil,
    [Reap] no longer waits, and it returns the transactions that were not
    rechecked and those that were accepted again, in their order. *)
Theorem recheck_completes c h0 n m a codes : runs c h0 n m a -> length codes = p_todo a ->
  exists m', go_fold (fun code m => respond m code) codes m = Ret m' /\ recheckCursor m' = None /\
    let i := (length (p_txs a) - p_todo a)%nat in
    Reap m' (-1) = Some (Ret (mt_tx <$> (take i (p_txs a) ++ kept (drop i (p_txs a)) codes))).
Proof.
  intros [HR Hc]%runs_refines Hl. set (i := (length (p_txs a) - p_todo a)%nat). pose proof HR as (L & HL & Hp & Ht & _).
  assert (Hlen : length (drop i (p_txs a)) = p_todo a) by (pose proof (pool_length _ _ HL) as Hpl; rewrite Hp in Hpl; rewrite length_drop; unfold i; lia).
  destruct (recheck_run (drop i (p_txs a)) m (take i (p_txs a)) (p_new a) codes) as (m' & E & (L' & HL' & Hp' & _ & _ & Hcur & _ & Hre) & _); [|done|by rewrite Hlen|].
  { rewrite take_drop, Hlen. by destruct a. }
  exists m'. split; [done|]. split; [done|]. cbv zeta. by rewrite (Reap_done m' L' HL' Hre), Hp'.
Qed.

(** *** Bounds *)

Lemma aAnswer_size cn h a code : (length (p_txs (aAnswer cn h a code)) + length (p_new (aAnswer cn h a code)) <= length (p_txs a) + length (p_new a))%nat.
Proof.
  destruct a as [ts [|k] [|tx new]]; unfold aAnswer; cbn; destruct (code =? 0); cbn; rewrite ?length_app; cbn; try lia;
    rewrite delete_take_drop, length_app, length_take, length_drop; lia.
Qed.

Lemma aStep_size c h0 n m a o m' : runs c h0 n m a -> (match o with opCheck _ _ _ => (length (conn m) <= n)%nat | _ => True end) -> config m = c -> 0 <= cfg_Size c ->
  Z.of_nat (length (p_txs a) + length (p_new a)) <= cfg_Size c + Z.of_nat n ->
  apply m o = Ret m' -> Z.of_nat (length (p_txs (aStep m a o)) + length (p_new (aStep m a o))) <= cfg_Size c + Z.of_nat n.
Proof.
  intros [(L & Hl & Hp & Ht & Hq & _) _]%runs_refines Hn Ec Hs IH _. destruct o as [tx ce ids|code|h bs| | |]; cbn [aStep]; try done.
  - unfold accepts. case_bool_decide as Hsz; [|done]. cbn. destruct (negb _ && negb _); [|done]. cbn. rewrite (Size_good m L Hl), Ec in Hsz. unfold zlen in Hsz.
    rewrite length_app, <- Hp, (pool_length _ _ Hl). apply (f_equal length) in Hq. rewrite length_app, !length_fmap in Hq. cbn. lia.
  - pose proof (aAnswer_size (counter m) (height m) a code). lia.
  - cbn. pose proof (length_filter (fun t => mt_tx t ∉ txsMapOf bs) (p_txs a)). lia.
  - cbn. lia.
Qed.

Definition cacheSize (c : txCache) : option Z := match c with MapCache c => Some (mc_size c) | NopCache => None end.
Definition same (m m' : Mempool) : Prop := config m' = config m /\ cacheSize (cache m') = cacheSize (cache m).
Ltac binds := repeat match goal with
  | H : mbind _ _ = Ret _ |- _ => apply bind_ret_inv in H as (? & ? & H)
  | H : Ret _ = Ret _ |- _ => injection H as <-
  | H : context [match ?x with _ => _ end] |- _ => destruct x eqn:?; try discriminate H
  end.

Lemma notify_same m m' : notifyTxsAvailable m = Ret m' -> same m m'.
Proof. unfold notifyTxsAvailable. intros H. binds. all: by split. Qed.
Lemma cache_Push_same c tx c' b : cache_Push c tx = Ret (c', b) -> cacheSize c' = cacheSize c.
Proof. unfold cache_Push, mc_Push. intros H. binds; simplify_eq; done. Qed.
Lemma cache_Remove_same c tx : cacheSize (cache_Remove c tx) = cacheSize c.
Proof. by destruct c. Qed.
Lemma respond_same m code m' : respond m code = Ret m' -> same m m'.
Proof.
  unfold respond, resCb, resCbNormal, resCbRecheck. intros H. binds; try (apply notify_same in H as [Hc1 Hc2]; unfold same; rewrite Hc1, Hc2).
  all: split; cbn; rewrite ?cache_Remove_same; done.
Qed.
Lemma apply_same m o m' : apply m o = Ret m' -> same m m'.
Proof.
  destruct o as [tx ce ids|code|h bs| | |]; cbn [apply]; [|apply respond_same|..]; intros H.
  - apply bind_ret_inv in H as ([[m1 r] b] & H & [= <-]). unfold CheckTx in H. binds; simplify_eq; try by split.
    all: match goal with E : cache_Push _ _ = Ret _ |- _ => apply cache_Push_same in E; destruct (wal m); (split; [done|]); exact E end.
  - unfold Update in H. binds; simplify_eq. unfold recheckTxs. repeat case_match; by split.
  - unfold Flush in H. binds; simplify_eq. split; [done|]. cbn. by destruct (cache m).
  - by injection H as <-.
  - injection H as <-. by destruct (txsAvailable m).
Qed.
Lemma runs_same c h0 n m a : runs c h0 n m a -> same (NewMempool c h0) m.
Proof. induction 1 as [|m a o m' _ [IH1 IH2] _ _ Ea]; [done|]. apply apply_same in Ea as [E1 E2]. split; congruence. Qed.

Lemma list_to_set_size (l : list bytes) : (size (list_to_set l : gset bytes) <= length l)%nat.
Proof.
  induction l as [|x l IH]; [done|]. cbn [list_to_set length]. rewrite size_union_alt, size_singleton.
  assert (size (list_to_set l ∖ {[x]} : gset bytes) <= size (list_to_set l : gset bytes))%nat by (apply subseteq_size; set_solver). lia.
Qed.

(** The mempool is bounded.  In any run in which at most [n] requests are
    unanswered when a transaction is checked (none with a local application),
    the pool holds at most [n] transactions more than its size; the cache
    never holds more transactions than its size, not even removed ones, and
    every transaction it refuses is among them. *)
Theorem mempool_bounded c h0 n m a : runs c h0 n m a -> 0 <= cfg_Size c ->
  Size m <= cfg_Size c + Z.of_nat n /\
  match cache m with
  | MapCache k => zlen (mc_list k) <= cfg_CacheSize c /\ Z.of_nat (size (mc_map k)) <= cfg_CacheSize c /\ forall tx, tx ∈ mc_map k -> tx ∈ mc_list k
  | NopCache => True
  end.
Proof.
  intros Hr Hs. assert (Hb : Z.of_nat (length (p_txs a) + length (p_new a)) <= cfg_Size c + Z.of_nat n).
  { induction Hr as [|m a o m' Hr IH He Hn Ea]; [cbn; lia|]. apply (aStep_size c h0 n m a o m'); try done. apply (runs_same _ _ _ _ _ Hr). }
  destruct (runs_refines _ _ _ _ _ Hr) as [(L & Hl & Hp & _) Hc]. destruct (runs_same _ _ _ _ _ Hr) as [_ Ec]. split.
  - rewrite (Size_good m L Hl). unfold zlen. rewrite <- (pool_length _ _ Hl), Hp. lia.
  - destruct (cache m) as [k|]; [|done]. destruct Hc as (_ & Hz & Hm). cbn in Ec. destruct (0 <? cfg_CacheSize c); [|done]. injection Ec as Ec. cbn in Ec. rewrite Ec in Hz. split; [done|]. split; [|done].
    assert (Hsub : mc_map k ⊆ list_to_set (mc_list k)) by (intros t Ht; apply elem_of_list_to_set; by apply Hm).
    apply subseteq_size in Hsub. pose proof (list_to_set_size (mc_list k)). unfold zlen in Hz. lia.
Qed.

(** ** Notifications *)

Lemma notify_channel m m' : notifyTxsAvailable m = Ret m' -> height m' = height m /\ Size m' = Size m /\ rechecking m' = rechecking m /\
  (forall h, txsAvailable m = Some (Some h) -> txsAvailable m' = Some (Some h)) /\ (txsAvailable m <> None -> notifiedTxsAvailable m' = true).
Proof. unfold notifyTxsAvailable. intros H. binds; split_and!; cbn; intros; simplify_eq; done. Qed.

Lemma respond_channel m code m' : respond m code = Ret m' -> height m' = height m /\
  (forall h, txsAvailable m = Some (Some h) -> txsAvailable m' = Some (Some h)) /\
  (recheckCursor m <> None -> rechecking m = 1 -> rechecking m' = 0 -> txsAvailable m <> None -> 0 < Size m' -> notifiedTxsAvailable m' = true).
Proof.
  unfold respond, resCb, resCbNormal, resCbRecheck. intros H. binds; try (apply notify_channel in H as (Hh & Hz & Hr & Hc & Hn); cbn in *; split; [exact Hh|]; split; [exact Hc|]; intros; first [congruence|by apply Hn]).
  all: split; [done|]; split; [done|]; cbn in *; intros; try done; try congruence.
  all: exfalso; match goal with E : (0 <? _) = false |- _ => apply Z.ltb_ge in E; unfold Size in *; cbn in *; lia end.
Qed.

Lemma recheck_channel codes : forall m a m', refines m a -> cacheOK (cache m) -> length codes = p_todo a -> codes <> [] ->
  go_fold (fun code m => respond m code) codes m = Ret m' -> height m' = height m /\
  (forall h, txsAvailable m = Some (Some h) -> txsAvailable m' = Some (Some h) /\ (0 < Size m' -> rechecking m' = 0 -> notifiedTxsAvailable m' = true)).
Proof.
  induction codes as [|code codes IH]; intros m a m' HR Hc Hl Hne E; [done|]. cbn in E, Hl.
  destruct (answer_recheck m a code (length codes) HR Hc (eq_sym Hl)) as (m1 & E1 & H1 & C1). rewrite E1 in E. cbn in E. destruct (respond_channel m code m1 E1) as (Hh & Hch & Hno).
  destruct codes as [|code' codes].
  - cbn in E. injection E as <-. split; [done|]. intros h Eh. split; [by apply Hch|]. intros Hs Hre. destruct HR as (L & HL & _ & Ht & _ & Hcur & _ & Hr). rewrite <- Hl in Hcur, Hr, Ht. cbn in Ht.
    apply Hno; [|done|done|congruence|done]. rewrite Hcur. intros En. apply lookup_ge_None in En. cbn in En. lia.
  - destruct (IH m1 _ m' H1 C1) as [Hh' Hc']; [unfold aAnswer; by rewrite <- Hl|done|done|]. split; [congruence|]. intros h Eh. by apply Hc', Hch.
Qed.

(** A notification that was not read hides the next one.  If the height
    in [TxsAvailable] was not received before a block is committed, then after
    the recheck the mempool holds transactions and counts itself as having
    notified, but the channel still has the old height; the consensus ignores
    it, and no other is sent before the next block. *)
Theorem stale_notification c h0 n m a h H bs codes : runs c h0 n m a -> cfg_Recheck c = true -> conn m = [] -> txsAvailable m = Some (Some h) ->
  let ts := filter (fun t => mt_tx t ∉ txsMapOf bs) (p_txs a) in length codes = length ts -> kept ts codes <> [] ->
  exists m1 m2, Update m H bs = Ret m1 /\ go_fold (fun code m => respond m code) codes m1 = Ret m2 /\
    Reap m2 (-1) = Some (Ret (mt_tx <$> kept ts codes)) /\ height m2 = H /\ txsAvailable m2 = Some (Some h) /\ notifiedTxsAvailable m2 = true.
Proof.
  intros Hr Ere Eq Ech ts Hl Hk. destruct (runs_refines _ _ _ _ _ Hr) as [HR Hc]. destruct (runs_same _ _ _ _ _ Hr) as [Ecfg _].
  destruct (update_refines m a H bs HR Eq) as (m1 & E1 & H1 & C1). unfold aUpdate in H1. rewrite Ecfg in H1. cbn [config NewMempool] in H1. rewrite Ere in H1. fold ts in H1.
  assert (Hcm1 : cacheOK (cache m1)) by (by rewrite C1). assert (Hhc : height m1 = H /\ txsAvailable m1 = Some (Some h)).
  { unfold Update in E1. binds; simplify_eq; unfold recheckTxs; repeat case_match; done. }
  destruct (recheck_run ts m1 [] (p_new a) codes H1 Hcm1 Hl) as (m2 & E2 & H2 & _). cbn [app] in H2.
  assert (Hne : codes <> []) by (intros ->; symmetry in Hl; apply length_zero_iff_nil in Hl; rewrite Hl in Hk; by apply Hk).
  destruct (recheck_channel codes m1 _ m2 H1 Hcm1 Hl Hne E2) as [Hh Hch]. destruct (Hch h (proj2 Hhc)) as [Hch1 Hno]. destruct H2 as (L & HL & Hp & _ & _ & _ & _ & Hre). cbn in Hp, Hre.
  exists m1, m2. split; [done|]. split; [done|]. split; [by rewrite (Reap_done m2 L HL Hre), Hp|].
  split; [destruct Hhc; congruence|]. split; [done|]. apply Hno; [|done]. rewrite (Size_good m2 L HL). unfold zlen. rewrite <- (pool_length _ _ HL), Hp. destruct (kept ts codes); [done|cbn; lia].
Qed.

(** ** Flushing during a recheck *)

Lemma Value_values (l : txList) e t : CList.values l !! e = Some t -> CList.Value l e = Ret t /\ exists x, CList.l_elems l !! e = Some x.
Proof. unfold CList.values, CList.Value, CList.elem. rewrite list_lookup_fmap. destruct (CList.l_elems l !! e) as [x|]; [|done]. intros [= <-]. split; [done|by exists x]. Qed.

(** [Flush] during a recheck breaks the mempool.  It removes the elements
    but leaves the cursor; the first transaction that the application then
    refuses is removed a second time, which panics. *)
Theorem flush_during_recheck_panics m a code : refines m a -> p_todo a <> 0%nat -> code <> 0 ->
  exists m' why, Flush m = Ret m' /\ respond m' code = Panic why.
Proof.
  intros (L & Hl & Hp & Ht & Hq & Hcur & _) Htodo Hcode. unfold Flush. cbn [setCache txs]. destruct (Flush_list (txs m) L Hl) as (l' & -> & Hl' & Vl). cbn [mbind go_mbind].
  destruct (p_todo a) as [|k] eqn:Ek; [done|]. set (i := (length L - S k)%nat) in *. destruct (lookup_lt_is_Some_2 L i ltac:(lia)) as [e He].
  destruct (value_good (txs m) L i e Hl He) as (t & Et & Ev). rewrite He in Hcur.
  rewrite <- Hp, (drop_S _ t) in Hq by (by apply (pool_lookup _ _ _ e)). destruct (conn m) as [|[tx h] q] eqn:Eq; [done|]. cbn in Hq. injection Hq as -> Hq.
  eexists _, _. split; [done|]. unfold respond. cbn [setTxs setCache conn]. rewrite Eq. unfold resCb. cbn [setConn setTxs setCache recheckCursor]. rewrite Hcur. unfold resCbRecheck. cbn [setConn setTxs setCache txs].
  rewrite <- Vl in Ev. destruct (Value_values l' e t Ev) as (-> & x & Ex). cbn [mbind go_mbind]. rewrite bytes_eqb_refl. cbn [negb]. rewrite (proj2 (Z.eqb_neq code CodeTypeOK)) by done.
  unfold removeElem, CList.Remove, CList.removeBegin, CList.Prev, CList.Next, CList.elem. rewrite Ex. cbn [mbind go_mbind]. destruct (good_front l' [] Hl') as (Ef & _). unfold CList.Front in Ef. cbn in Ef. rewrite Ef. cbn. done.
Qed.

(** ** mempool/reactor.go *)

Definition maxMsgSize : Z := 1048576.
(** [cdc.UnmarshalBinaryBare] of a message; the transaction of a [TxMessage]. *)
Class MempoolCodec := { UnmarshalTxMessage : bytes -> option bytes }.
Definition DecodeMessage `{MempoolCodec} (bz : bytes) : option bytes := if maxMsgSize <? zlen bz then None else UnmarshalTxMessage bz.

Record MempoolReactor := mkReactor { r_Mempool : Mempool; UnprocessedTxs : list (option bytes) }.
Definition NewMempoolReactor (mempool : Mempool) : MempoolReactor := mkReactor mempool (replicate 100 None).
(** Every free slot gets the transaction. *)
Definition keepUnprocessed (tx : bytes) (l : list (option bytes)) : list (option bytes) := (fun o => match o with None => Some tx | Some t => Some t end) <$> l.

(** The reactor, and whether the peer is stopped. *)
Definition Receive `{MempoolCodec} (r : MempoolReactor) (msgBytes : bytes) (connErr : bool) (bucketIDs : list bytes) : go (MempoolReactor * bool) :=
  match DecodeMessage msgBytes with
  | None => Ret (r, true)
  | Some tx =>
      '(m, _, bucketID) ← CheckTx (r_Mempool r) tx connErr bucketIDs;
      Ret (mkReactor m (if bytes_eqb bucketID [] then UnprocessedTxs r else keepUnprocessed tx (UnprocessedTxs r)), false)
  end.

(** A tick of [poolRoutine]: the transactions that wait are checked again,
    the one of slot [i] with [connErr i] and [bucketIDs i]. *)
Definition poolTick (r : MempoolReactor) (connErr : Z -> bool) (bucketIDs : Z -> list bytes) : go MempoolReactor :=
  go_for 0 100 (fun i r =>
    o ← idx (UnprocessedTxs r) i;
    match o with
    | None => Ret r
    | Some tx =>
        '(m, _, bucketID) ← CheckTx (r_Mempool r) tx (connErr i) (bucketIDs i);
        Ret (mkReactor m (if bytes_eqb bucketID [] then <[Z.to_nat i := None]> (UnprocessedTxs r) else UnprocessedTxs r))
    end) r.

(** [broadcastTxRoutine]: about to wait for the first transaction, waiting for
    it at a gate of the list, at an element, waiting at a gate of the element
    that was sent. *)
Inductive broadcast := bBegin | bWaitFront (gate : nat) | bAt (e : nat) | bWaitNext (e gate : nat).
Definition closedAt (gs : CList.Gates) (k : nat) : bool := match CList.gateAt gs k with Some g => CList.g_closed g | None => false end.
(** A turn; [peerHeight] is that of the state of the peer, if it has one, and
    [success] what [peer.Send] returns.  The second result is what is sent. *)
Definition broadcastTurn (l : txList) (b : broadcast) (peerHeight : option Z) (success : bool) : go (broadcast * option nat) :=
  match b with
  | bBegin => Ret (bWaitFront (length (CList.gs_old (CList.l_gates l))), None)
  | bWaitFront k =>
      if closedAt (CList.l_gates l) k then Ret (match CList.Front l with None => bBegin | Some e => bAt e end, None)
      else Ret (b, None)
  | bAt e =>
      memTx ← CList.Value l e;
      if match peerHeight with Some h => h <? sub64 (mt_height memTx) 1 | None => false end then Ret (b, None) else
      if negb success then Ret (b, None) else
      gs ← CList.gatesOf l (CList.NextWait e);
      Ret (bWaitNext e (length (CList.gs_old gs)), Some e)
  | bWaitNext e k =>
      gs ← CList.gatesOf l (CList.NextWait e);
      if closedAt gs k then n ← CList.Next l e; Ret (match n with None => bBegin | Some n => bAt n end, None)
      else Ret (b, None)
  end.

(** The routine beside the other goroutines; [sent] are the elements sent. *)
Inductive broadcasts : CList.Sys mempoolTx -> broadcast -> list nat -> Prop :=
| bc_start : broadcasts CList.initial bBegin []
| bc_other s s' b sent : broadcasts s b sent -> CList.step s s' -> broadcasts s' b sent
| bc_turn s b sent peerHeight success b' o : broadcasts s b sent -> (forall k, b = bWaitFront k -> CList.s_pending s = []) ->
    broadcastTurn (CList.s_list s) b peerHeight success = Ret (b', o) -> broadcasts s b' (match o with Some e => sent ++ [e] | None => sent end).

(** All elements of the list before the position were sent. *)
Definition bcOK (l : txList) (L : list nat) (b : broadcast) (sent : list nat) : Prop :=
  match b with
  | bBegin => True
  | bWaitFront k => (k <= length (CList.gs_old (CList.l_gates l)))%nat
  | bAt e => (e < length (CList.l_elems l))%nat /\ forall y, y ∈ L -> (y < e)%nat -> y ∈ sent
  | bWaitNext e k => (e < length (CList.l_elems l))%nat /\ (exists gs, CList.gatesOf l (CList.NextWait e) = Ret gs /\ (k <= length (CList.gs_old gs))%nat) /\ forall y, y ∈ L -> (y <= e)%nat -> y ∈ sent
  end.

Lemma bcOK_step l l' L L' b sent : CList.grows l l' -> (length (CList.l_elems l) <= length (CList.l_elems l'))%nat ->
  (forall y, y ∈ L' -> y ∈ L \/ (length (CList.l_elems l) <= y)%nat) -> bcOK l L b sent -> bcOK l' L' b sent.
Proof.
  intros Hg Hlen HL. destruct b as [|k|e|e k]; cbn [bcOK]; [done|..].
  - intros Hk. destruct (Hg CList.FrontWait _ eq_refl) as (gs' & [= <-] & Hle). lia.
  - intros [He Hs]. split; [lia|]. intros y Hy Hye. destruct (HL y Hy) as [Hy'|]; [by apply Hs|lia].
  - intros (He & (gs & Eg & Hk) & Hs). split; [lia|]. split; [destruct (Hg _ _ Eg) as (gs' & Eg' & Hle); exists gs'; split; [done|lia]|]. intros y Hy Hye. destruct (HL y Hy) as [Hy'|]; [by apply Hs|lia].
Qed.

Lemma bcOK_turn l L ms b sent ph ok b' o : CList.listInv l L ms -> bcOK l L b sent -> (forall k, b = bWaitFront k -> ms = []) ->
  broadcastTurn l b ph ok = Ret (b', o) -> bcOK l L b' (match o with Some e => sent ++ [e] | None => sent end).
Proof.
  intros Hl Hb Hms. destruct b as [|k|e|e k]; cbn [broadcastTurn].
  - intros [= <- <-]. cbn. lia.
  - destruct (closedAt _ k); [|by intros [= <- <-]]. rewrite (Hms k eq_refl) in Hl. destruct (good_front l L Hl) as (Ef & _). rewrite Ef. destruct (L !! O) as [e|] eqn:E0; intros [= <- <-]; [|done].
    pose proof Hl as (_ & _ & Hk). split; [rewrite <- CList.length_shape; apply (CList.linked_lt _ _ _ Hk); by eapply list_elem_of_lookup_2|].
    intros y [i Hi]%list_elem_of_lookup Hlt. pose proof (CList.mono_le _ _ _ _ _ (CList.lk_mono _ _ Hk) Hi E0 Hlt). lia.
  - destruct Hb as [He Hs]. intros E. apply bind_ret_inv in E as (t & _ & E). destruct (match ph with Some h => _ | None => _ end); [by injection E as <- <-|]. destruct ok; cbn in E; [|by injection E as <- <-].
    apply bind_ret_inv in E as (gs & Eg & [= <- <-]). split; [done|]. split; [exists gs; split; [done|lia]|].
    intros y Hy Hye. rewrite elem_of_app, list_elem_of_singleton. destruct (decide (y = e)) as [->|]; [by right|left; apply Hs; [done|lia]].
  - destruct Hb as (He & (gs & Eg & Hk) & Hs). rewrite Eg. cbn [mbind go_mbind]. destruct (closedAt gs k); [|intros [= <- <-]; cbn; eauto].
    intros E. apply bind_ret_inv in E as (n & En & [= <- <-]). destruct n as [n|]; [|done]. destruct Hl as (_ & Hn & _). unfold CList.Next, CList.elem in En.
    destruct (CList.l_elems l !! e) as [x|] eqn:Ex; [|done]. injection En as En. destruct (Hn e (CList.elOf x) n) as [[H1 H2] H3]; [cbn; by rewrite list_lookup_fmap, Ex|done|].
    rewrite CList.length_shape in H3. split; [done|]. intros y Hy Hyn. apply Hs; [done|]. destruct (decide (y <= e)%nat); [done|]. specialize (H2 y Hy ltac:(lia)). lia.
Qed.

Lemma broadcasts_inv s b sent : broadcasts s b sent -> exists L, CList.sysInv s L /\ bcOK (CList.s_list s) L b sent.
Proof.
  induction 1 as [|s s' b sent _ (L & Hs & Hb) Hst|s b sent ph ok b' o _ (L & Hs & Hb) Hms E].
  - exists []. split; [split; [apply CList.New_good|constructor]|done].
  - destruct (CList.step_inv s s' L Hst Hs) as (L' & Hs' & Hlen & HL). exists L'. split; [done|]. by apply (bcOK_step (CList.s_list s) _ L); [apply CList.step_grows|..].
  - exists L. split; [done|]. eapply bcOK_turn; [apply Hs|exact Hb|exact Hms|exact E].
Qed.

(** A peer is sent every transaction.  In any interleaving with the writers
    of the list, whenever the routine of a peer waits (its channel is not
    closed) and no writer is active, every transaction that is in the mempool
    has been sent to the peer. *)
Theorem broadcast_complete s b sent : broadcasts s b sent -> CList.s_pending s = [] -> let l := CList.s_list s in
  (match b with
   | bWaitFront k => closedAt (CList.l_gates l) k = false
   | bWaitNext e k => exists gs, CList.gatesOf l (CList.NextWait e) = Ret gs /\ closedAt gs k = false
   | _ => False
   end) -> forall y, CList.Removed l y = Ret false -> y ∈ sent.
Proof.
  intros Hb Ep l Hw y Hy. destruct (broadcasts_inv s b sent Hb) as (L & [Hl _] & Hok). fold l in Hl, Hok. rewrite Ep in Hl. pose proof Hl as ([Hg Hgl] & _ & Hk).
  assert (HyL : y ∈ L).
  { apply (CList.lk_live _ _ Hk). unfold CList.Removed, CList.elem in Hy. destruct (CList.l_elems l !! y) as [x|] eqn:Ex; [|done]. exists (CList.elOf x). cbn in *. injection Hy as Hy. by rewrite list_lookup_fmap, Ex. }
  assert (Hcur : forall gs q, CList.gatesOf l q = Ret gs -> forall k, (k <= length (CList.gs_old gs))%nat -> closedAt gs k = false -> CList.g_closed (CList.gs_cur gs) = false).
  { intros gs q Eg k Hle Hcl. unfold closedAt in Hcl. destruct (decide (k < length (CList.gs_old gs))%nat) as [Hlt|Hge].
    - exfalso. assert (Ho : Forall CList.shut (CList.gs_old gs)) by (by eapply CList.gates_old).
      unfold CList.gateAt in Hcl. rewrite lookup_app_l in Hcl by done. destruct (lookup_lt_is_Some_2 _ _ Hlt) as [g Eg']. rewrite Eg' in Hcl. by rewrite (proj1 (Forall_lookup _ _) Ho _ _ Eg') in Hcl.
    - unfold CList.gateAt in Hcl. rewrite lookup_app_r in Hcl by lia. by replace (k - length (CList.gs_old gs))%nat with 0%nat in Hcl by lia. }
  destruct b as [|k|e|e k]; [done| |done|].
  - exfalso. pose proof (Hcur _ CList.FrontWait eq_refl k Hok Hw) as Hc. destruct Hgl as [_ Ec]. rewrite Ec in Hc. pose proof (CList.lk_len _ _ Hk) as El. cbn in El.
    destruct (Z.eqb_spec (CList.l_len l) 0) as [E0|]; [|done]. rewrite El in E0. unfold zlen in E0. destruct L; [by apply elem_of_nil in HyL|cbn in E0; lia].
  - destruct Hok as (He & (gs & Eg & Hle) & Hs), Hw as (gs' & Eg' & Hcl). rewrite Eg in Eg'. injection Eg' as <-. pose proof (Hcur _ _ Eg k Hle Hcl) as Hc.
    cbn in Eg. unfold CList.elem in Eg. destruct (CList.l_elems l !! e) as [x|] eqn:Ex; [|done]. injection Eg as <-. destruct (proj1 (Forall_lookup _ _) Hg _ _ Ex) as [[_ Hn] _]. rewrite Hn in Hc.
    destruct (CList.e_next x) eqn:En; [done|]. destruct (CList.e_removed x) eqn:Er; [done|]. apply Hs; [done|].
    assert (He' : e ∈ L) by (apply (CList.lk_live _ _ Hk); exists (CList.elOf x); cbn; by rewrite list_lookup_fmap, Ex). apply list_elem_of_lookup in He' as [i Hi]. apply list_elem_of_lookup in HyL as [j Hj].
    destruct (CList.lk_ptr _ _ Hk i e (CList.elOf x) Hi) as [Hx _]; [cbn; by rewrite list_lookup_fmap, Ex|]. cbn in Hx. rewrite En in Hx. symmetry in Hx. apply lookup_ge_None in Hx.
    apply lookup_lt_Some in Hj as Hj'. destruct (decide (j = i)) as [->|]; [rewrite Hi in Hj; injection Hj; lia|]. pose proof (CList.lk_mono _ _ Hk _ _ _ _ Hj Hi ltac:(lia)). lia.
Qed.

(** ** Witnesses *)

Section Examples.
(** No cache; the application has not seen anything yet. *)
Definition exCfg : MempoolConfig := mkConfig 10 0 true true.
Definition after (m : Mempool) (o : op) : Mempool := fromRet m (apply m o).
Lemma after_run n m a o : runs exCfg 4 n m a -> enabled m o -> (match o with opCheck _ _ _ => (length (conn m) <= n)%nat | _ => True end) ->
  isRet (apply m o) = true -> runs exCfg 4 n (after m o) (aStep m a o).
Proof. intros Hr He Hn Hi. apply (run_op _ _ _ _ _ _ _ Hr He Hn). by apply fromRet_ok. Qed.

(** A transaction arrives at height 4 and is accepted; the channel has 5. *)
Definition exM1 : Mempool := after (NewMempool exCfg 4) opEnable.
Definition exM2 : Mempool := after exM1 (opCheck (str "a") false []).
Definition exM3 : Mempool := after exM2 (opAnswer 0).
Definition exPool : Pool := mkPool [mkMempoolTx 1 4 (str "a")] 0 [].
Lemma exM3_runs : runs exCfg 4 0 exM3 exPool.
Proof.
  pose proof (after_run 0 _ _ opEnable (run_new _ _ _) Logic.I Logic.I eq_refl) as R1.
  pose proof (after_run 0 _ _ (opCheck (str "a") false []) R1 (or_introl eq_refl) ltac:(cbn; lia) eq_refl) as R2.
  assert (R3 : runs exCfg 4 0 exM3 _) by (apply (after_run 0 _ _ (opAnswer 0) R2); [discriminate|exact Logic.I|vm_compute; reflexivity]). exact R3.
Qed.

(** A block without the transaction: it is rechecked. *)
Definition exM4 : Mempool := after exM3 (opUpdate 5 []).
Lemma exM4_runs : runs exCfg 4 0 exM4 (mkPool [mkMempoolTx 1 4 (str "a")] 1 []).
Proof. assert (R : runs exCfg 4 0 exM4 (aStep exM3 exPool (opUpdate 5 []))) by (apply (after_run 0 _ _ _ exM3_runs); [vm_compute; reflexivity|exact Logic.I|vm_compute; reflexivity]). exact R. Qed.

Lemma mempool_refines_witness : Reap exM3 10 = Some (Ret [str "a"]).
Proof.
  destruct (runs_refines _ _ _ _ _ exM3_runs) as [HR Hc]. destruct (mempool_refines exM3 exPool (opCheck (str "b") false []) HR Hc (or_introl eq_refl)) as [_ H]. exact (H 10).
Defined.

Lemma recheck_completes_witness : exists m', go_fold (fun code m => respond m code) [1] exM4 = Ret m' /\ Reap m' (-1) = Some (Ret []).
Proof. destruct (recheck_completes exCfg 4 0 exM4 _ [1] exM4_runs eq_refl) as (m' & E & _ & R). exists m'. split; [exact E|exact R]. Defined.

Lemma mempool_bounded_witness : Size exM4 <= 10.
Proof. exact (proj1 (mempool_bounded exCfg 4 0 exM4 _ exM4_runs ltac:(cbn; lia))). Defined.

Lemma stale_notification_witness : exists m1 m2, Update exM3 5 [] = Ret m1 /\ go_fold (fun code m => respond m code) [0] m1 = Ret m2 /\
  height m2 = 5 /\ txsAvailable m2 = Some (Some 5) /\ notifiedTxsAvailable m2 = true.
Proof.
  destruct (stale_notification exCfg 4 0 exM3 exPool 5 5 [] [0] exM3_runs eq_refl ltac:(vm_compute; reflexivity) ltac:(vm_compute; reflexivity) eq_refl ltac:(vm_compute; discriminate))
    as (m1 & m2 & E1 & E2 & _ & H). exists m1, m2. split; [exact E1|]. split; [exact E2|exact H].
Defined.

Lemma flush_during_recheck_panics_witness : exists m' why, Flush exM4 = Ret m' /\ respond m' 1 = Panic why.
Proof. destruct (runs_refines _ _ _ _ _ exM4_runs) as [HR _]. exact (flush_during_recheck_panics exM4 _ 1 HR ltac:(discriminate) ltac:(discriminate)). Defined.

Definition exTx : mempoolTx := mkMempoolTx 1 4 (str "a").
Definition exList : txList := (fromRet (CList.New, 0%nat) (CList.PushBack CList.New exTx)).1.
Lemma exBroadcast : broadcasts (CList.mkSys exList [] []) (bWaitNext 0 0) [0%nat].
Proof.
  assert (Ep : exists l e ms, CList.pushBegin CList.New exTx = Ret (l, e, ms)) by (eexists _, _, _; reflexivity). destruct Ep as (l & e & ms & Ep).
  pose proof (bc_other _ _ _ _ bc_start (CList.step_push _ _ _ _ _ _ Ep)) as R1. injection Ep as <- <- <-.
  pose proof (bc_other _ _ _ _ R1 (CList.step_micro _ (CList.mHead (Some 0%nat)) _ _ _ eq_refl)) as R2.
  pose proof (bc_other _ _ _ _ R2 (CList.step_micro _ (CList.mTail (Some 0%nat)) _ _ _ eq_refl)) as R3.
  pose proof (bc_turn _ _ _ None true (bWaitFront 0) None R3 ltac:(discriminate) eq_refl) as R4.
  pose proof (bc_turn _ _ _ None true (bAt 0) None R4 ltac:(done) eq_refl) as R5.
  exact (bc_turn _ _ _ None true (bWaitNext 0 0) (Some 0%nat) R5 ltac:(discriminate) eq_refl).
Qed.
Lemma broadcast_complete_witness : (0%nat : nat) ∈ [0%nat].
Proof. exact (broadcast_complete _ _ _ exBroadcast eq_refl (ex_intro _ _ (conj eq_refl eq_refl)) 0%nat eq_refl). Defined.
End Examples.
End Mempool.
