(* ===== verification/Execution.v ===== *)
(** * Executing blocks: state/execution.go and the handshake of consensus/replay.go

    A block is validated, executed on the application, the responses are
    saved, the state is updated, the application commits, the mempool is
    updated and the state is saved.  After a crash the handshake finds out
    where the application is and replays what it misses.  The application, its
    connection and the mempool are classes. *)

From S2P Require Import Prelude Sha256 Crypto Merkle Types ValidatorSet PartSet Block State DB Store CList Mempool.
Import Crypto Types ValidatorSet.

Module Execution.

(** ** ABCI *)

(** abci.Header, with the fields that are filled. *)
Record abciHeader := mkAbciHeader {
  ah_ChainID : bytes; ah_Height : Z; ah_Time : Z; ah_NumTxs : Z; ah_TotalTxs : Z;
  ah_LastBlockHash : bytes; ah_ValidatorsHash : bytes; ah_AppHash : bytes }.
Record SigningValidator := mkSigningValidator { sv_Validator : State.abciValidator; sv_SignedLastBlock : bool }.
Record RequestBeginBlock := mkBeginBlock { rb_Hash : bytes; rb_Header : abciHeader; rb_Validators : list SigningValidator }.
Record RequestInitChain := mkInitChain { ri_Time : Z; ri_ChainId : bytes; ri_ConsensusParams : Block.ParamUpdates; ri_Validators : list State.abciValidator }.

(** The Unix time of a time. *)
Definition Unix (t : Time) : Z := t / 1000000000.

Definition TM2PB_Header (h : Block.Header) : abciHeader :=
  mkAbciHeader (Block.ChainID h) (Block.Height h) (Unix (Block.Time_ h)) (wrap32 (Block.NumTxs h)) (Block.TotalTxs h)
    (bid_Hash (Block.LastBlockID h)) (Block.ValidatorsHash h) (Block.AppHash h).
Definition TM2PB_ConsensusParams (p : Block.ConsensusParams) : Block.ParamUpdates :=
  Block.mkParamUpdates (Some (wrap32 (Block.BlockSize_MaxBytes p), wrap32 (Block.BlockSize_MaxTxs p), Block.BlockSize_MaxGas p))
    (Some (wrap32 (Block.TxSize_MaxBytes p), Block.TxSize_MaxGas p)) (Some (wrap32 (Block.BlockPartSizeBytes p))).
Definition PB2TM_ConsensusParams (csp : Block.ParamUpdates) : go Block.ConsensusParams :=
  '(mb, mt, mg) ← deref (Block.up_BlockSize csp);
  '(tb, tg) ← deref (Block.up_TxSize csp);
  ps ← deref (Block.up_BlockGossip csp);
  Ret (Block.mkParams mb mt mg tb tg ps 0).

(** abci/types/application.go: what the executor and the handshake use. *)
Class Application (A : Type) := {
  app_Info : A -> Z * bytes;
  app_InitChain : A -> RequestInitChain -> go (A * (list State.abciValidator * option Block.ParamUpdates));
  app_BeginBlock : A -> RequestBeginBlock -> go A;
  app_DeliverTx : A -> bytes -> Z -> go (A * State.ResponseDeliverTx);
  app_DeliverBucketedTx : A -> bytes -> Z -> bytes -> go A;
  app_EndBlock : A -> go (A * option Block.ParamUpdates);
  app_GetValidatorSet : A -> Z -> go (A * list State.abciValidator);
  app_Commit : A -> go (A * bytes) }.

(** proxy.AppConnConsensus: the requests may fail.  Answers come in the order
    of the requests, so all callbacks of [DeliverTxAsync] are done before
    [EndBlockSync] returns; they are done with the request here. *)
Inductive ConnError := ErrConn.
Class AppConn (A : Type) := {
  Error_ : A -> option ConnError;
  InitChainSync : A -> RequestInitChain -> go (A * (ConnError + (list State.abciValidator * option Block.ParamUpdates)));
  BeginBlockSync : A -> RequestBeginBlock -> go (A * option ConnError);
  DeliverTxAsync : A -> bytes -> Z -> go (A * State.ResponseDeliverTx);
  DeliverBucketedTxSync : A -> bytes -> Z -> bytes -> go A;
  EndBlockSync : A -> go (A * (ConnError + option Block.ParamUpdates));
  GetValidatorSetSync : A -> Z -> go (A * (ConnError + list State.abciValidator));
  CommitSync : A -> go (A * (ConnError + bytes)) }.

(** abci/client/local_client.go *)
Definition localClient {A} `{Application A} : AppConn A := {|
  Error_ := fun _ => None;
  InitChainSync := fun a req => '(a, r) ← app_InitChain a req; Ret (a, inr r);
  BeginBlockSync := fun a req => a ← app_BeginBlock a req; Ret (a, None);
  DeliverTxAsync := app_DeliverTx;
  DeliverBucketedTxSync := app_DeliverBucketedTx;
  EndBlockSync := fun a => '(a, r) ← app_EndBlock a; Ret (a, inr r);
  GetValidatorSetSync := fun a h => '(a, r) ← app_GetValidatorSet a h; Ret (a, inr r);
  CommitSync := fun a => '(a, r) ← app_Commit a; Ret (a, inr r) |}.

(** state/services.go: the mempool that the executor updates. *)
Class MempoolService (P : Type) := {
  mp_FlushAppConn : P -> go (P * option ConnError);
  mp_Update : P -> Z -> list Block.TxBucket -> go (P * option ConnError) }.
#[export] Instance MockMempool : MempoolService unit := {| mp_FlushAppConn := fun m => Ret (m, None); mp_Update := fun m _ _ => Ret (m, None) |}.

(** ** Executing *)

Section Execution.
Context {A : Type} `{AppConn A}.
Context `{Codec} `{Curves} `{Amino} `{ValidatorCodec} `{Block.BlockCodec} `{Block.TxDecoder} `{State.ResultCodec}.

Definition NewABCIResponses (h : Block.Header) : go (list (option State.ResponseDeliverTx)) :=
  if Block.NumTxs h <? 0 then Panic (PanicMsg "makeslice: len out of range") else Ret (replicate (Z.to_nat (Block.NumTxs h)) None).

Definition getBeginBlockValidatorInfo (h : Block.Header) (commit : option Commit) (lastValSet : ValidatorSet) : go (list SigningValidator) :=
  _ ← (if 1 <? Block.Height h then
         c ← deref commit;
         if negb (zlen (c_Precommits c) =? zlen (ValidatorSet.Validators lastValSet)) then Panic (PanicMsg "precommit length doesn't match valset length") else Ret tt
       else Ret tt);
  go_for 0 (zlen (ValidatorSet.Validators lastValSet)) (fun i signVals =>
    val ← idx (ValidatorSet.Validators lastValSet) i;
    c ← deref commit;
    vote ← (if i <? zlen (c_Precommits c) then idx (c_Precommits c) i else Ret None);
    Ret (signVals ++ [mkSigningValidator (State.TM2PB_Validator val) (match vote with Some _ => true | None => false end)])) [].

(** The loops over the buckets: the application, the responses and the index
    of the next one. *)
Definition deliverTx (height : Z) (tx : bytes) (st : A * list (option State.ResponseDeliverTx) * Z) : go (A * list (option State.ResponseDeliverTx) * Z * option ConnError) :=
  let '(a, res, txIndex) := st in
  '(a, txRes) ← DeliverTxAsync a tx height;
  res ← upd res txIndex (Some txRes);
  Ret (a, res, txIndex + 1, Error_ a).
Fixpoint deliverTxs (height : Z) (txs : list bytes) (st : A * list (option State.ResponseDeliverTx) * Z) : go (A * list (option State.ResponseDeliverTx) * Z * option ConnError) :=
  match txs with
  | [] => Ret (st, None)
  | tx :: txs =>
      '(st, err) ← deliverTx height tx st;
      match err with Some e => Ret (st, Some e) | None => deliverTxs height txs st end
  end.
Fixpoint deliverBuckets (height : Z) (buckets : list Block.TxBucket) (st : A * list (option State.ResponseDeliverTx) * Z) : go (A * list (option State.ResponseDeliverTx) * Z * option ConnError) :=
  match buckets with
  | [] => Ret (st, None)
  | b :: buckets =>
      '(st, err) ← deliverTxs height (Block.Txs b) st;
      match err with Some e => Ret (st, Some e) | None => deliverBuckets height buckets st end
  end.

Definition execBlockOnProxyApp (a : A) (block : option Block.Block) (lastValSet : ValidatorSet) : go (A * (ConnError + State.ABCIResponses)) :=
  b ← deref block;
  h ← Block.hdr b;
  responses ← NewABCIResponses h;
  signVals ← getBeginBlockValidatorInfo h (Block.b_Commit b) lastValSet;
  '(a, err) ← BeginBlockSync a (mkBeginBlock (Block.Hash (Some b)) (TM2PB_Header h) signVals);
  match err with
  | Some e => Ret (a, inl e)
  | None =>
      d ← deref (Block.b_Data b);
      '(a, responses, _, err) ← deliverBuckets (Block.Height h) (Block.TxBuckets d) (a, responses, 0);
      match err with
      | Some e => Ret (a, inl e)
      | None =>
          '(a, endBlock) ← EndBlockSync a;
          match endBlock with
          | inl e => Ret (a, inl e)
          | inr updates =>
              '(a, vals) ← GetValidatorSetSync a (add64 (Block.Height h) 1);
              match vals with
              | inl e => Ret (a, inl e)
              | inr vals => Ret (a, inr (State.mkResponses responses updates vals))
              end
          end
      end
  end.

Definition ExecCommitBlock (a : A) (block : option Block.Block) (lastValSet : ValidatorSet) : go (A * (ConnError + bytes)) :=
  '(a, r) ← execBlockOnProxyApp a block lastValSet;
  match r with
  | inl e => Ret (a, inl e)
  | inr _ => CommitSync a
  end.

(** ** BlockExecutor *)

Section Executor.
Context {P : Type} `{MempoolService P}.
Context {D I : Type} `{DB.DB D I}.
Context `{Serial State.State} `{Serial Store.ValidatorsInfo} `{Serial Store.ConsensusParamsInfo} `{Serial State.ABCIResponses}.

Record BlockExecutor := mkExec { be_db : D; be_app : A; be_mempool : P }.
Inductive ExecError := ErrInvalidBlock (e : State.ValidateError) | ErrProxyAppConn (e : ConnError) | ErrUpdate (e : State.UpdateError) | ErrCommit (e : ConnError).

(** [updates] are the validators in the answer of [EndBlock], which nothing else
    reads.  The set is a copy, and is dropped. *)
Definition UpdateValidatorsSet (be : BlockExecutor) (st : State.State) (updates : list State.abciValidator) : go (BlockExecutor * option ExecError) :=
  '(a, endBlock) ← EndBlockSync (be_app be);
  let be := mkExec (be_db be) a (be_mempool be) in
  match endBlock with
  | inl e => Ret (be, Some (ErrProxyAppConn e))
  | inr _ => '(_, err) ← State.updateValidators (State.Validators st) updates; Ret (be, match err with Some e => Some (ErrUpdate e) | None => None end)
  end.

Definition Commit_ (be : BlockExecutor) (h : Block.Header) (d : Block.Data) : go (BlockExecutor * (ConnError + bytes)) :=
  '(m, err) ← mp_FlushAppConn (be_mempool be);
  match err with
  | Some e => Ret (mkExec (be_db be) (be_app be) m, inl e)
  | None =>
      '(a, res) ← CommitSync (be_app be);
      match res with
      | inl e => Ret (mkExec (be_db be) a m, inl e)
      | inr data =>
          '(m, err) ← mp_Update m (Block.Height h) (Block.TxBuckets d);
          Ret (mkExec (be_db be) a m, match err with Some e => inl e | None => inr data end)
      end
  end.

(** The executor as it is at each of the crash points, the last one at the
    end; and the result. *)
Definition ApplyBlock (be : BlockExecutor) (st : State.State) (blockID : BlockID) (block : option Block.Block) : go (list BlockExecutor * BlockExecutor * (ExecError + State.State)) :=
  err ← State.validateBlock st block;
  match err with
  | Some e => Ret ([], be, inl (ErrInvalidBlock e))
  | None =>
      '(a, r) ← execBlockOnProxyApp (be_app be) block (State.LastValidators st);
      let be1 := mkExec (be_db be) a (be_mempool be) in
      match r with
      | inl e => Ret ([], be1, inl (ErrProxyAppConn e))
      | inr responses =>
          b ← deref block;
          h ← Block.hdr b;
          d ← deref (Block.b_Data b);
          let be2 := mkExec (Store.saveABCIResponses (be_db be1) (Block.Height h) responses) (be_app be1) (be_mempool be1) in
          r ← State.updateState st blockID (Block.b_Header b) responses;
          match r with
          | inl e => Ret ([be1; be2], be2, inl (ErrUpdate e))
          | inr st1 =>
              '(be3, r) ← Commit_ be2 h d;
              match r with
              | inl e => Ret ([be1; be2], be3, inl (ErrCommit e))
              | inr appHash =>
                  let st2 := Store.withAppHash st1 appHash in
                  let be4 := mkExec (Store.SaveState (be_db be3) st2) (be_app be3) (be_mempool be3) in
                  Ret ([be1; be2; be3; be4], be4, inr st2)
              end
          end
      end
  end.

Definition ApplyBucket (a : A) (height : Z) (txBucket : Block.TxBucket) : go (A * option ConnError) :=
  (fix loop txs a := match txs with
                     | [] => Ret (a, None)
                     | tx :: txs => a ← DeliverBucketedTxSync a tx height (Block.BucketId txBucket);
                                    match Error_ a with Some e => Ret (a, Some e) | None => loop txs a end
                     end) (Block.Txs txBucket) a.
End Executor.
End Execution.
Arguments BlockExecutor : clear implicits.

(** ** The handshake *)

(** [mockProxyApp]; what it does not define is that of [BaseApplication]. *)
Record mockProxyApp := mkMock { mock_appHash : bytes; mock_txCount : Z; mock_abciResponses : State.ABCIResponses }.
Definition mockApplication : Application mockProxyApp := {|
  app_Info := fun _ => (0, []);
  app_InitChain := fun mock _ => Ret (mock, ([], None));
  app_BeginBlock := fun mock _ => Ret mock;
  app_DeliverTx := fun mock _ _ =>
    r ← idx (State.DeliverTx (mock_abciResponses mock)) (mock_txCount mock);
    r ← deref r;
    Ret (mkMock (mock_appHash mock) (mock_txCount mock + 1) (mock_abciResponses mock), r);
  app_DeliverBucketedTx := fun mock _ _ _ => Ret mock;
  app_EndBlock := fun mock => Ret (mkMock (mock_appHash mock) 0 (mock_abciResponses mock), State.ConsensusParamUpdates (mock_abciResponses mock));
  app_GetValidatorSet := fun mock _ => Ret (mock, []);
  app_Commit := fun mock => Ret (mock, mock_appHash mock) |}.
Definition newMockProxyApp (appHash : bytes) (abciResponses : State.ABCIResponses) : mockProxyApp := mkMock appHash 0 abciResponses.
#[export] Instance mockConn : AppConn mockProxyApp := @localClient _ mockApplication.

Section Handshake.
Context `{Codec} `{Curves} `{Amino} `{ValidatorCodec} `{Block.BlockCodec} `{Block.TxDecoder} `{State.ResultCodec}.
Context {D I : Type} `{DB.DB D I}.
Context `{Serial State.State} `{Serial Store.ValidatorsInfo} `{Serial Store.ConsensusParamsInfo} `{Serial State.ABCIResponses}.
Context {D' I' : Type} `{DB.DB D' I'} `{Store.StoreCodec} `{Serial Block.BlockMeta} `{Serial PartSet.Part} `{Serial Commit}.

Record Handshaker := mkHandshaker { hs_stateDB : D; hs_initialState : State.State; hs_store : Store.BlockStore D'; hs_genDoc : State.GenesisDoc; hs_nBlocks : Z }.
Definition NewHandshaker (stateDB : D) (state : State.State) (store : Store.BlockStore D') (genDoc : State.GenesisDoc) : Handshaker := mkHandshaker stateDB state store genDoc 0.
Inductive HsError := HsInfo (e : ConnError) | HsNegative (height : Z) | HsConn (e : ConnError) | ErrAppBlockHeightTooHigh (core app : Z) | HsStore (e : Store.StoreError) | HsExec (e : ExecError).

Definition withDB (hs : Handshaker) (db : D) (blocks : Z) : Handshaker := mkHandshaker db (hs_initialState hs) (hs_store hs) (hs_genDoc hs) (hs_nBlocks hs + blocks).

Definition checkAppHash (st : State.State) (appHash : bytes) : go unit :=
  if bytes_eqb (State.AppHash st) appHash then Ret tt else Panic (PanicMsg "state.AppHash does not match AppHash after replay").

Definition replayBlock {A} `{AppConn A} (hs : Handshaker) (a : A) (st : State.State) (height : Z) : go (Handshaker * A * (HsError + State.State)) :=
  block ← Store.LoadBlock (hs_store hs) height;
  meta ← Store.LoadBlockMeta (hs_store hs) height;
  meta ← deref meta;
  '(_, be, r) ← ApplyBlock (mkExec (hs_stateDB hs) a tt) st (Block.bm_BlockID meta) block;
  match r with
  | inl e => Ret (withDB hs (be_db be) 0, be_app be, inl (HsExec e))
  | inr st => Ret (withDB hs (be_db be) 1, be_app be, inr st)
  end.

Section App.
Context {A : Type} `{AppConn A} (InfoSync : A -> ConnError + (Z * bytes)).

(** The loop of [replayBlocks]: [n] blocks from height [i] on. *)
Fixpoint replayLoop (n : nat) (i : Z) (hs : Handshaker) (a : A) (st : State.State) (appHash : bytes) : go (Handshaker * A * (HsError + bytes)) :=
  match n with
  | O => Ret (hs, a, inr appHash)
  | S n =>
      block ← Store.LoadBlock (hs_store hs) i;
      '(a, r) ← ExecCommitBlock a block (State.LastValidators st);
      match r with
      | inl e => Ret (hs, a, inl (HsConn e))
      | inr appHash => replayLoop n (i + 1) (withDB hs (hs_stateDB hs) 1) a st appHash
      end
  end.
Definition replayBlocks (hs : Handshaker) (a : A) (st : State.State) (appBlockHeight storeBlockHeight : Z) (mutateState : bool) : go (Handshaker * A * (HsError + bytes)) :=
  let finalBlock := if mutateState then sub64 storeBlockHeight 1 else storeBlockHeight in
  '(hs, a, r) ← replayLoop (Z.to_nat (finalBlock - appBlockHeight)) (appBlockHeight + 1) hs a st [];
  match r with
  | inl e => Ret (hs, a, inl e)
  | inr appHash =>
      if mutateState then
        '(hs, a, r) ← replayBlock hs a st storeBlockHeight;
        match r with
        | inl e => Ret (hs, a, inl e)
        | inr st => _ ← checkAppHash st (State.AppHash st); Ret (hs, a, inr (State.AppHash st))
        end
      else _ ← checkAppHash st appHash; Ret (hs, a, inr appHash)
  end.

(** The state with the validators and parameters that the application
    answers to [InitChain].  The bytes of the application in the genesis
    document are handed over unread. *)
Definition initChain (hs : Handshaker) (a : A) (st : State.State) : go (Handshaker * A * (HsError + State.State)) :=
  params ← deref (State.gd_ConsensusParams (hs_genDoc hs));
  '(a, res) ← InitChainSync a (mkInitChain (Unix (State.gd_GenesisTime (hs_genDoc hs))) (State.gd_ChainID (hs_genDoc hs)) (TM2PB_ConsensusParams params)
                                 (State.TM2PB_Validator <$> ValidatorSet.Validators (State.Validators st)));
  match res with
  | inl e => Ret (hs, a, inl (HsConn e))
  | inr (vals, updates) =>
      vals ← (if 0 <? zlen vals then NewValidatorSet (Some (State.PB2TM_Validators vals)) else Ret (State.Validators st));
      params ← match updates with Some u => PB2TM_ConsensusParams u | None => Ret (State.Params st) end;
      let st := State.mkState (State.ChainID st) (State.LastBlockHeight st) (State.LastBlockTotalTx st) (State.LastBlockID st) (State.LastBlockTime st) vals
                  (State.LastValidators st) (State.LastHeightValidatorsChanged st) params (State.LastHeightConsensusParamsChanged st) (State.LastResultsHash st) (State.AppHash st) in
      Ret (withDB hs (Store.SaveState (hs_stateDB hs) st) 0, a, inr st)
  end.

Definition ReplayBlocks (hs : Handshaker) (a : A) (st : State.State) (appHash : bytes) (appBlockHeight : Z) : go (Handshaker * A * (HsError + bytes)) :=
  let storeBlockHeight := Store.bs_height (hs_store hs) in
  let stateBlockHeight := State.LastBlockHeight st in
  '(hs, a, r) ← (if appBlockHeight =? 0 then initChain hs a st else Ret (hs, a, inr st));
  match r with
  | inl e => Ret (hs, a, inl e)
  | inr st =>
      if storeBlockHeight =? 0 then _ ← checkAppHash st appHash; Ret (hs, a, inr appHash)
      else if storeBlockHeight <? appBlockHeight then Ret (hs, a, inl (ErrAppBlockHeightTooHigh storeBlockHeight appBlockHeight))
      else if storeBlockHeight <? stateBlockHeight then Panic (PanicSanity "StateBlockHeight > StoreBlockHeight")
      else if add64 stateBlockHeight 1 <? storeBlockHeight then Panic (PanicSanity "StoreBlockHeight > StateBlockHeight + 1")
      else if storeBlockHeight =? stateBlockHeight then
        if appBlockHeight <? storeBlockHeight then replayBlocks hs a st appBlockHeight storeBlockHeight false
        else if appBlockHeight =? storeBlockHeight then _ ← checkAppHash st appHash; Ret (hs, a, inr appHash)
        else Panic (PanicSanity "Should never happen")
      else if storeBlockHeight =? add64 stateBlockHeight 1 then
        if appBlockHeight <? stateBlockHeight then replayBlocks hs a st appBlockHeight storeBlockHeight true
        else if appBlockHeight =? stateBlockHeight then
          '(hs, a, r) ← replayBlock hs a st storeBlockHeight;
          Ret (hs, a, match r with inl e => inl e | inr st => inr (State.AppHash st) end)
        else if appBlockHeight =? storeBlockHeight then
          responses ← Store.LoadABCIResponses (hs_stateDB hs) storeBlockHeight;
          match responses with
          | inl e => Ret (hs, a, inl (HsStore e))
          | inr abciResponses =>
              '(hs, _, r) ← replayBlock hs (newMockProxyApp appHash abciResponses) st storeBlockHeight;
              Ret (hs, a, match r with inl e => inl e | inr st => inr (State.AppHash st) end)
          end
        else Panic (PanicSanity "Should never happen")
      else Panic (PanicSanity "Should never happen")
  end.

Definition Handshake (hs : Handshaker) (a : A) : go (Handshaker * A * option HsError) :=
  match InfoSync a with
  | inl e => Ret (hs, a, Some (HsInfo e))
  | inr (blockHeight, appHash) =>
      if blockHeight <? 0 then Ret (hs, a, Some (HsNegative blockHeight)) else
      '(hs, a, r) ← ReplayBlocks hs a (hs_initialState hs) appHash blockHeight;
      Ret (hs, a, match r with inl e => Some e | inr _ => None end)
  end.
End App.
End Handshake.
Arguments Handshaker : clear implicits.

(** ** The deliveries *)

Section Deliveries.
Context {A : Type} `{AppConn A}.
Context `{Codec} `{Curves} `{Amino} `{ValidatorCodec} `{Block.BlockCodec} `{Block.TxDecoder} `{State.ResultCodec}.

(** Delivering transactions one after the other. *)
Fixpoint deliverAll (height : Z) (txs : list bytes) (a : A) : go (A * list State.ResponseDeliverTx) :=
  match txs with
  | [] => Ret (a, [])
  | tx :: txs => '(a, r) ← DeliverTxAsync a tx height; '(a, rs) ← deliverAll height txs a; Ret (a, r :: rs)
  end.

Definition bucketTxs (buckets : list Block.TxBucket) : list bytes := buckets ≫= Block.Txs.

Lemma deliverTxs_app height xs ys st : deliverTxs height (xs ++ ys) st =
  ('(st, err) ← deliverTxs height xs st; match err with Some e => Ret (st, Some e) | None => deliverTxs height ys st end).
Proof.
  revert st. induction xs as [|x xs IH]; intros st; [done|]. cbn. destruct (deliverTx height x st) as [[st1 [e|]]|]; [done|apply IH|done].
Qed.
Lemma deliverBuckets_flat height buckets st : deliverBuckets height buckets st = deliverTxs height (bucketTxs buckets) st.
Proof.
  revert st. induction buckets as [|b bs IH]; intros st; [done|]. cbn. rewrite deliverTxs_app. destruct (deliverTxs height (Block.Txs b) st) as [[st1 [e|]]|]; [done|apply IH|done].
Qed.

(** The responses are filled in from the left. *)
Lemma fill_next (rs : list State.ResponseDeliverTx) r k : <[Z.to_nat (zlen rs) := Some r]> ((Some <$> rs) ++ replicate (S k) None) = (Some <$> (rs ++ [r])) ++ replicate k None.
Proof. unfold zlen. rewrite Nat2Z.id. rewrite insert_app_r_alt by (rewrite length_fmap; lia). rewrite length_fmap, Nat.sub_diag. cbn. by rewrite fmap_app, <- app_assoc. Qed.

Lemma deliver_inv height txs : forall a k rs a' res n, deliverTxs height txs (a, (Some <$> rs) ++ replicate k None, zlen rs) = Ret (a', res, n, None) ->
  exists rs', deliverAll height txs a = Ret (a', rs') /\ length rs' = length txs /\ (length txs <= k)%nat /\ res = (Some <$> (rs ++ rs')) ++ replicate (k - length txs) None.
Proof.
  induction txs as [|tx txs IH]; intros a k rs a' res n; cbn [deliverTxs deliverAll].
  - intros [= <- <- <-]. exists []. rewrite app_nil_r, Nat.sub_0_r. split_and!; (done || cbn; lia).
  - unfold deliverTx. intros E. apply bind_ret_inv in E as ([st err] & E1 & E). apply bind_ret_inv in E1 as ([a1 r] & Er & E1). rewrite Er. cbn [mbind go_mbind].
    apply bind_ret_inv in E1 as (res1 & Eu & [= <- <-]). apply upd_inv in Eu as [Hi ->]. destruct (Error_ a1); [done|].
    assert (Hk : (0 < k)%nat) by (unfold zlen in Hi; rewrite length_app, length_fmap, length_replicate in Hi; lia).
    destruct k as [|k]; [lia|]. rewrite fill_next in E. replace (zlen rs + 1) with (zlen (rs ++ [r])) in E by (unfold zlen; rewrite length_app; cbn; lia).
    destruct (IH _ _ _ _ _ _ E) as (rs' & E' & Hl & Hle & ->). exists (r :: rs'). rewrite E'. cbn. split_and!; [done|lia|lia|]. by rewrite <- app_assoc.
Qed.

Lemma deliver_fwd height txs : (forall a, Error_ a = None) -> forall a rs, deliverTxs height txs (a, (Some <$> rs) ++ replicate (length txs) None, zlen rs) =
  ('(a, rs') ← deliverAll height txs a; Ret (a, Some <$> (rs ++ rs'), zlen rs + zlen txs, None)).
Proof.
  intros He. induction txs as [|tx txs IH]; intros a rs; cbn [deliverTxs deliverAll length].
  - cbn. rewrite !app_nil_r. by rewrite Z.add_0_r.
  - unfold deliverTx. destruct (DeliverTxAsync a tx height) as [[a1 r]|]; [|done]. cbn [mbind go_mbind].
    rewrite upd_ret by (unfold zlen; rewrite length_app, length_fmap, length_replicate; lia). cbn [mbind go_mbind]. rewrite He.
    rewrite fill_next. replace (zlen rs + 1) with (zlen (rs ++ [r])) by (unfold zlen; rewrite length_app; cbn; lia). rewrite IH.
    destruct (deliverAll height txs a1) as [[a2 rs2]|]; [|done]. cbn [mbind go_mbind]. rewrite <- app_assoc.
    by replace (zlen (rs ++ [r]) + zlen txs) with (zlen rs + zlen (tx :: txs)) by (unfold zlen; rewrite length_app; cbn; lia).
Qed.
End Deliveries.

(** ** The executor *)

Lemma add64_wrap a b : add64 (wrap64 a) b = wrap64 (a + b).
Proof.
  unfold add64. destruct (wrap64_eq a) as [k ->]. unfold wrap64. f_equal. replace (a + k * two64 + b + two63) with (a + b + two63 + k * two64) by lia. by apply Z_mod_plus_full.
Qed.

Lemma total_wrap bs : forall n, foldl (fun n b => add64 n (zlen (Block.Txs b))) (wrap64 n) bs = wrap64 (n + zlen (bucketTxs bs)).
Proof.
  induction bs as [|b bs IH]; intros n; cbn [foldl]; [by rewrite Z.add_0_r|]. rewrite add64_wrap, IH. f_equal. unfold bucketTxs, zlen. cbn. rewrite length_app. lia.
Qed.
Lemma TotalTxs_wrap d : Block.TotalTxsInBuckets (Some d) = wrap64 (zlen (bucketTxs (Block.TxBuckets d))).
Proof. exact (total_wrap _ 0). Qed.

Lemma wrap64_above n : 0 <= n <= wrap64 n -> wrap64 n = n.
Proof. intros Hn. pose proof (wrap64_int64 n) as Hi. apply wrap64_small. unfold_int64. lia. Qed.

Section ExecSpec.
Context {A : Type} `{AppConn A}.
Context `{Codec} `{Curves} `{Amino} `{ValidatorCodec} `{Block.BlockCodec} `{Block.TxDecoder} `{State.ResultCodec}.

(** What a valid block has. *)
Lemma validated_inv st b : State.validateBlock st (Some b) = Ret None -> exists h, Block.b_Header b = Some h /\
  Block.Height h = add64 (State.LastBlockHeight st) 1 /\ Block.NumTxs h = Block.TotalTxsInBuckets (Block.b_Data b).
Proof.
  unfold State.validateBlock, Block.ValidateBasic, Block.hdr. destruct (Block.b_Header b) as [h|] eqn:Eh; [|done]. cbn [deref mbind go_mbind].
  destruct (Z.eqb_spec (Block.NumTxs h) (Block.TotalTxsInBuckets (Block.b_Data b))) as [En|]; [|done]. cbn [negb]. intros E.
  apply bind_ret_inv in E as (r & E1 & E). destruct r as [e|]; [done|]. cbn [deref mbind go_mbind] in E. rewrite Eh in E. cbn [deref mbind go_mbind] in E.
  destruct (bytes_eqb (Block.ChainID h) _); [|done]. cbn [negb] in E. destruct (Z.eqb_spec (Block.Height h) (add64 (State.LastBlockHeight st) 1)) as [Ehh|]; [|done]. by exists h.
Qed.

(** A successful execution, step by step. *)
Record execution (a : A) (b : Block.Block) (vals : ValidatorSet) (a' : A) (r : State.ABCIResponses) (h : Block.Header) (d : Block.Data) : Prop := {
  ex_header : Block.b_Header b = Some h;
  ex_data : Block.b_Data b = Some d;
  ex_steps : exists signVals a1 a2 a3 rs, getBeginBlockValidatorInfo h (Block.b_Commit b) vals = Ret signVals /\
    BeginBlockSync a (mkBeginBlock (Block.Hash (Some b)) (TM2PB_Header h) signVals) = Ret (a1, None) /\
    deliverAll (Block.Height h) (bucketTxs (Block.TxBuckets d)) a1 = Ret (a2, rs) /\
    EndBlockSync a2 = Ret (a3, inr (State.ConsensusParamUpdates r)) /\
    GetValidatorSetSync a3 (add64 (Block.Height h) 1) = Ret (a', inr (State.GetValidatorSet r)) /\
    zlen rs = zlen (bucketTxs (Block.TxBuckets d)) /\ zlen rs <= Block.NumTxs h /\
    State.DeliverTx r = (Some <$> rs) ++ replicate (Z.to_nat (Block.NumTxs h - zlen rs)) None }.

Lemma execution_inv a b vals a' r : execBlockOnProxyApp a (Some b) vals = Ret (a', inr r) -> exists h d, execution a b vals a' r h d.
Proof.
  unfold execBlockOnProxyApp, Block.hdr, NewABCIResponses. cbn [deref mbind go_mbind]. destruct (Block.b_Header b) as [h|] eqn:Eh; [|done]. cbn [deref mbind go_mbind].
  destruct (Z.ltb_spec (Block.NumTxs h) 0) as [|Hn]; [done|]. intros E. apply bind_ret_inv in E as (? & [= <-] & E). apply bind_ret_inv in E as (signVals & Es & E).
  apply bind_ret_inv in E as ([a1 err] & Eb & E). destruct err as [|]; [done|]. destruct (Block.b_Data b) as [d|] eqn:Ed; [|done]. cbn [deref mbind go_mbind] in E.
  rewrite deliverBuckets_flat in E. apply bind_ret_inv in E as ([[[a2 res] n] err] & Edl & E). destruct err as [|]; [done|].
  apply bind_ret_inv in E as ([a3 eb] & Ee & E). destruct eb as [|updates]; [done|]. apply bind_ret_inv in E as ([a4 vs] & Eg & E). destruct vs as [|vs]; [done|]. injection E as <- <-.
  destruct (deliver_inv _ _ _ _ [] _ _ _ Edl) as (rs & Ed2 & Hl & Hle & ->). exists h, d. split; [done|done|]. exists signVals, a1, a2, a3, rs.
  cbn [State.DeliverTx State.ConsensusParamUpdates State.GetValidatorSet app]. unfold zlen. rewrite Hl. split_and!; try done; [lia|]. do 2 f_equal. lia.
Qed.

Lemma exec_delivered a b vals a' r h d : execution a b vals a' r h d -> Block.NumTxs h = Block.TotalTxsInBuckets (Block.b_Data b) ->
  Forall is_Some (State.DeliverTx r) /\ zlen (State.DeliverTx r) = Block.NumTxs h.
Proof.
  intros [Eh Ed (sv & a1 & a2 & a3 & rs & _ & _ & _ & _ & _ & Hl & Hle & Er)] Hn. rewrite Ed, TotalTxs_wrap, <- Hl in Hn.
  rewrite Hn in Hle, Er |- *. rewrite wrap64_above in Er |- * by (pose proof (zlen_nonneg rs); lia). rewrite Er, Z.sub_diag. cbn. rewrite app_nil_r. split.
  - apply Forall_fmap, Forall_forall. intros x _. by eexists.
  - unfold zlen. by rewrite length_fmap.
Qed.

(** [execution_inv] the other way round. *)
Lemma execution_intro a b vals h d signVals a1 a2 a3 a4 rs updates vs : Block.b_Header b = Some h -> Block.b_Data b = Some d ->
  Block.NumTxs h = zlen (bucketTxs (Block.TxBuckets d)) -> getBeginBlockValidatorInfo h (Block.b_Commit b) vals = Ret signVals ->
  BeginBlockSync a (mkBeginBlock (Block.Hash (Some b)) (TM2PB_Header h) signVals) = Ret (a1, None) -> (forall a, Error_ a = None) ->
  deliverAll (Block.Height h) (bucketTxs (Block.TxBuckets d)) a1 = Ret (a2, rs) -> EndBlockSync a2 = Ret (a3, inr updates) ->
  GetValidatorSetSync a3 (add64 (Block.Height h) 1) = Ret (a4, inr vs) ->
  execBlockOnProxyApp a (Some b) vals = Ret (a4, inr (State.mkResponses (Some <$> rs) updates vs)).
Proof.
  intros Eh Ed Hn Es Eb He Edl Ee Eg. unfold execBlockOnProxyApp, Block.hdr, NewABCIResponses. cbn [deref mbind go_mbind]. rewrite Eh. cbn [deref mbind go_mbind]. rewrite (proj2 (Z.ltb_ge _ _)) by (rewrite Hn; apply zlen_nonneg).
  cbn [mbind go_mbind]. rewrite Es. cbn [mbind go_mbind]. rewrite Eb. cbn [mbind go_mbind]. rewrite Ed. cbn [deref mbind go_mbind]. rewrite deliverBuckets_flat, Hn. unfold zlen at 1. rewrite Nat2Z.id.
  pose proof (deliver_fwd (Block.Height h) (bucketTxs (Block.TxBuckets d)) He a1 []) as Ef. cbn [fmap list_fmap app] in Ef. change (zlen []) with 0 in Ef. rewrite Ef, Edl.
  cbn [mbind go_mbind]. rewrite Ee. cbn [mbind go_mbind]. by rewrite Eg.
Qed.
End ExecSpec.

(** ** Applying a block *)

Section ApplySpec.
Context {A : Type} `{AppConn A}.
Context {P : Type} `{MempoolService P}.
Context {D I : Type} `{DB.DBLaws D I}.
Context `{Serial State.State} `{Serial Store.ValidatorsInfo} `{Serial Store.ConsensusParamsInfo} `{Serial State.ABCIResponses}.
Context `{!SerialLaws State.State} `{!SerialLaws Store.ValidatorsInfo} `{!SerialLaws Store.ConsensusParamsInfo} `{!SerialLaws State.ABCIResponses} `{!Store.InfoLaws}.
Context `{Codec} `{Curves} `{Amino} `{ValidatorCodec} `{Block.BlockCodec} `{Block.TxDecoder} `{State.ResultCodec}.

(** A successful call, step by step: the states of the application and of the
    mempool, the responses, the header and the contents. *)
Record application (be : BlockExecutor A P D) (st : State.State) (id : BlockID) (b : Block.Block) (a1 a2 : A) (m1 m2 : P) (r : State.ABCIResponses) (h : Block.Header) (d : Block.Data) (st1 : State.State) (appHash : bytes) : Prop := {
  ap_valid : State.validateBlock st (Some b) = Ret None;
  ap_run : execBlockOnProxyApp (be_app be) (Some b) (State.LastValidators st) = Ret (a1, inr r);
  ap_exec : execution (be_app be) b (State.LastValidators st) a1 r h d;
  ap_update : State.updateState st id (Some h) r = Ret (inr st1);
  ap_flush : mp_FlushAppConn (be_mempool be) = Ret (m1, None);
  ap_commit : CommitSync a1 = Ret (a2, inr appHash);
  ap_pool : mp_Update m1 (Block.Height h) (Block.TxBuckets d) = Ret (m2, None) }.

Definition savedResponses (db : D) (h : Block.Header) (r : State.ABCIResponses) : D := Store.saveABCIResponses db (Block.Height h) r.
Definition savedState (db : D) (h : Block.Header) (r : State.ABCIResponses) (st2 : State.State) : D := Store.SaveState (savedResponses db h r) st2.
Definition points (be : BlockExecutor A P D) (a1 a2 : A) (m2 : P) (r : State.ABCIResponses) (h : Block.Header) (st2 : State.State) : list (BlockExecutor A P D) :=
  [mkExec (be_db be) a1 (be_mempool be); mkExec (savedResponses (be_db be) h r) a1 (be_mempool be); mkExec (savedResponses (be_db be) h r) a2 m2;
   mkExec (savedState (be_db be) h r st2) a2 m2].

Lemma ApplyBlock_inv be st id block pts be' st2 : ApplyBlock be st id block = Ret (pts, be', inr st2) ->
  exists b a1 a2 m1 m2 r h d st1 appHash, block = Some b /\ application be st id b a1 a2 m1 m2 r h d st1 appHash /\ st2 = Store.withAppHash st1 appHash /\
    be' = mkExec (savedState (be_db be) h r st2) a2 m2 /\ pts = points be a1 a2 m2 r h st2.
Proof.
  unfold ApplyBlock. intros E. apply bind_ret_inv in E as (err & Ev & E). destruct err; [done|]. apply bind_ret_inv in E as ([a1 x] & Ex & E). destruct x as [|r]; [done|].
  destruct block as [b|]; [|done]. cbn [deref mbind go_mbind] in E. destruct (execution_inv _ _ _ _ _ Ex) as (h & d & Hx). pose proof (ex_header _ _ _ _ _ _ _ Hx) as Eh. pose proof (ex_data _ _ _ _ _ _ _ Hx) as Ed.
  unfold Block.hdr in E. rewrite Eh in E. cbn [deref mbind go_mbind] in E. rewrite Ed in E. cbn [deref mbind go_mbind] in E.
  apply bind_ret_inv in E as (u & Eu & E). destruct u as [|st1]; [done|]. apply bind_ret_inv in E as ([be3 y] & Ec & E). destruct y as [|appHash]; [done|]. injection E as <- <- <-.
  unfold Commit_ in Ec. cbn [be_db be_app be_mempool] in Ec. apply bind_ret_inv in Ec as ([m1 err] & Ef & Ec). destruct err; [done|]. apply bind_ret_inv in Ec as ([a2 res] & Ecm & Ec). destruct res as [|data]; [done|].
  apply bind_ret_inv in Ec as ([m2 err] & Em & Ec). destruct err; [done|]. injection Ec as <- <-.
  by exists b, a1, a2, m1, m2, r, h, d, st1, data.
Qed.

Lemma ApplyBlock_intro be st id b a1 a2 m1 m2 r h d st1 appHash : application be st id b a1 a2 m1 m2 r h d st1 appHash -> let st2 := Store.withAppHash st1 appHash in
  ApplyBlock be st id (Some b) = Ret (points be a1 a2 m2 r h st2, mkExec (savedState (be_db be) h r st2) a2 m2, inr st2).
Proof.
  intros [Ev Ex [Eh Ed _] Eu Ef Ec Em] st2. unfold ApplyBlock. rewrite Ev. cbn [mbind go_mbind]. rewrite Ex. cbn [deref mbind go_mbind be_db be_app be_mempool]. unfold Block.hdr. rewrite Eh. cbn [deref mbind go_mbind].
  rewrite Ed. cbn [deref mbind go_mbind]. rewrite Eu. cbn [mbind go_mbind]. unfold Commit_. cbn [be_db be_app be_mempool]. rewrite Ef. cbn [mbind go_mbind]. rewrite Ec. cbn [mbind go_mbind]. by rewrite Em.
Qed.

(** An error leaves the database, or has saved the responses. *)
Lemma ApplyBlock_error be st id block pts be' e : ApplyBlock be st id block = Ret (pts, be', inl e) ->
  forall p, p ∈ be' :: pts -> be_db p = be_db be \/ exists h r, be_db p = savedResponses (be_db be) h r.
Proof.
  unfold ApplyBlock. intros E. apply bind_ret_inv in E as (err & Ev & E). destruct err.
  { injection E as <- <- <-. intros p ->%list_elem_of_singleton. by left. }
  apply bind_ret_inv in E as ([a1 x] & Ex & E). destruct x as [|r].
  { injection E as <- <- <-. intros p ->%list_elem_of_singleton. by left. }
  apply bind_ret_inv in E as (b & _ & E). apply bind_ret_inv in E as (h & _ & E). apply bind_ret_inv in E as (d & _ & E). apply bind_ret_inv in E as (u & _ & E).
  assert (Hpts : forall q p, be_db q = savedResponses (be_db be) h r -> p ∈ [q; mkExec (be_db be) a1 (be_mempool be); mkExec (savedResponses (be_db be) h r) a1 (be_mempool be)] ->
    be_db p = be_db be \/ exists h r, be_db p = savedResponses (be_db be) h r).
  { intros q p Eq Hp. rewrite !elem_of_cons in Hp. destruct Hp as [->|[->|[->|Hp]]]; [right; by exists h, r|by left|right; by exists h, r|by apply not_elem_of_nil in Hp]. }
  destruct u as [|st1]; [injection E as <- <- <-; intros p; by apply Hpts|].
  apply bind_ret_inv in E as ([be3 y] & Ec & E). destruct y as [|appHash]; [|done]. injection E as <- <- <-. intros p. apply Hpts.
  unfold Commit_ in Ec. apply bind_ret_inv in Ec as ([m1 err] & _ & Ec). destruct err; [by injection Ec as <-|]. apply bind_ret_inv in Ec as ([a2 res] & _ & Ec).
  destruct res; [by injection Ec as <-|]. apply bind_ret_inv in Ec as ([m2 err] & _ & Ec). by injection Ec as <-.
Qed.

(** The database after the responses are saved. *)
Lemma responses_kept (db : D) h r : DB.db_wf db -> DB.db_wf (savedResponses db h r) /\
  Store.LoadState (savedResponses db h r) = Store.LoadState db /\ (marshal r <> [] -> Store.LoadABCIResponses (savedResponses db h r) (Block.Height h) = Ret (inr r)).
Proof.
  intros Hw. destruct (DB.Set_contents db (Store.calcABCIResponsesKey (Block.Height h)) (Some (marshal r)) Hw) as [W E]. fold (Store.saveABCIResponses db (Block.Height h) r) in W, E.
  fold (savedResponses db h r) in W, E. cbn [default] in E. split_and!; [done| |].
  - unfold Store.LoadState, Store.loadAs. by rewrite !DB.Get_contents, E, lookup_insert_ne by done.
  - intros Hm. unfold Store.LoadABCIResponses. rewrite (Store.loadAs_some (savedResponses db h r) _ r W); [done|by rewrite E, lookup_insert_eq|done].
Qed.

(** The height of a block that follows a saved state. *)
Lemma chain_height db0 db st vals params b h : Store.savedChain db0 db st vals params -> State.validateBlock st (Some b) = Ret None -> Block.b_Header b = Some h ->
  0 <= State.LastBlockHeight st /\ Block.Height h = State.LastBlockHeight st + 1 /\ Block.NumTxs h = Block.TotalTxsInBuckets (Block.b_Data b) /\ DB.db_wf db /\ Store.LoadState db = Ret (Some (State.uncachedState st)).
Proof.
  intros Hc Ev Eh. destruct (Store.savedChain_inv _ _ _ _ _ Hc) as (cv & cp & Hi). destruct (validated_inv _ _ Ev) as (h' & Eh' & Ehh & En). rewrite Eh in Eh'. injection Eh' as <-.
  pose proof (Store.si_height _ _ _ _ _ _ Hi) as Hb. split; [lia|]. split; [|split; [done|split; [apply Hi|]]].
  - rewrite Ehh. unfold add64. apply wrap64_small. unfold_int64. lia.
  - by eapply Store.storeInv_load.
Qed.
End ApplySpec.

Section Theorems.
Context {A : Type} `{AppConn A}.
Context {P : Type} `{MempoolService P}.
Context {D I : Type} `{DB.DBLaws D I}.
Context `{Serial State.State} `{Serial Store.ValidatorsInfo} `{Serial Store.ConsensusParamsInfo} `{Serial State.ABCIResponses}.
Context `{!SerialLaws State.State} `{!SerialLaws Store.ValidatorsInfo} `{!SerialLaws Store.ConsensusParamsInfo} `{!SerialLaws State.ABCIResponses} `{!Store.InfoLaws}.
Context `{Codec} `{Curves} `{Amino} `{ValidatorCodec} `{Block.BlockCodec} `{Block.TxDecoder} `{State.ResultCodec}.

(** What executing a block should be: begin, the transactions of the buckets
    in order, end, and the validators of the next height. *)
Definition execReference (a : A) (b : Block.Block) (h : Block.Header) (d : Block.Data) (vals : ValidatorSet) : go (A * (ConnError + State.ABCIResponses)) :=
  signVals ← getBeginBlockValidatorInfo h (Block.b_Commit b) vals;
  '(a, err) ← BeginBlockSync a (mkBeginBlock (Block.Hash (Some b)) (TM2PB_Header h) signVals);
  match err with
  | Some e => Ret (a, inl e)
  | None =>
      '(a, rs) ← deliverAll (Block.Height h) (bucketTxs (Block.TxBuckets d)) a;
      '(a, endBlock) ← EndBlockSync a;
      match endBlock with
      | inl e => Ret (a, inl e)
      | inr updates =>
          '(a, vs) ← GetValidatorSetSync a (Block.Height h + 1);
          match vs with
          | inl e => Ret (a, inl e)
          | inr vs => Ret (a, inr (State.mkResponses (Some <$> rs) updates vs))
          end
      end
  end.

(** A valid block is delivered in full.  Over a connection without errors
    [execBlockOnProxyApp] of a block that counts its own transactions is the
    reference: every transaction of every bucket is delivered once and in
    order, its response lands in its own slot, no slot stays empty and the
    counter never leaves the slice. *)
Theorem exec_delivers_all a b h d vals : (forall a, Error_ a = None) -> Block.b_Header b = Some h -> Block.b_Data b = Some d ->
  Block.NumTxs h = Block.TotalTxsInBuckets (Some d) -> zlen (bucketTxs (Block.TxBuckets d)) <= MaxInt64 -> 0 <= Block.Height h < MaxInt64 ->
  execBlockOnProxyApp a (Some b) vals = execReference a b h d vals.
Proof.
  intros He Eh Ed Hn Hmax Hh. pose proof (zlen_nonneg (bucketTxs (Block.TxBuckets d))) as Hpos. rewrite TotalTxs_wrap, wrap64_small in Hn by (unfold_int64; lia).
  unfold execBlockOnProxyApp, execReference, Block.hdr, NewABCIResponses. cbn [deref mbind go_mbind]. rewrite Eh. cbn [deref mbind go_mbind]. rewrite (proj2 (Z.ltb_ge _ _)) by lia. cbn [mbind go_mbind].
  destruct (getBeginBlockValidatorInfo _ _ _) as [signVals|]; [|done]. cbn [mbind go_mbind]. destruct (BeginBlockSync _ _) as [[a1 err]|]; [|done]. cbn [mbind go_mbind].
  destruct err; [done|]. rewrite Ed. cbn [deref mbind go_mbind]. rewrite deliverBuckets_flat, Hn. unfold zlen at 1. rewrite Nat2Z.id.
  pose proof (deliver_fwd (Block.Height h) (bucketTxs (Block.TxBuckets d)) He a1 []) as Ef. cbn [fmap list_fmap app] in Ef. change (zlen []) with 0 in Ef. rewrite Ef.
  destruct (deliverAll _ _ _) as [[a2 rs]|]; [|done]. cbn [mbind go_mbind]. destruct (EndBlockSync a2) as [[a3 [e|updates]]|]; [done| |done]. cbn [mbind go_mbind].
  by replace (add64 (Block.Height h) 1) with (Block.Height h + 1) by (unfold add64; rewrite wrap64_small by (unfold_int64; lia); done).
Qed.

(** C23: applying a block is atomic.  From a chain of saved states, whatever the
    block, the application and the mempool do: if [ApplyBlock] returns an error
    the stored state is still the former one; if it succeeds the stored states
    are a chain with one more block, so that [LoadState] gives the new state
    with the hash of the application; and at each point where the process may
    crash, also between the writes of [SaveState], [LoadState] gives the former
    state until the new one is saved.  A state is loaded without the caches of
    its validator sets, which are not stored. *)
Theorem apply_block_atomic (db0 : D) be st vals params id block pts be' res : Store.savedChain db0 (be_db be) st vals params -> State.LastBlockHeight st + 1 < MaxInt64 ->
  ApplyBlock be st id block = Ret (pts, be', res) ->
  let loads db s := Store.LoadState db = Ret (Some (State.uncachedState s)) in
  match res with
  | inl _ => Forall (fun p => loads (be_db p) st) (be' :: pts)
  | inr st2 =>
      (exists vals' params', Store.savedChain db0 (be_db be') st2 vals' params') /\ loads (be_db be') st2 /\
      State.LastBlockHeight st2 = State.LastBlockHeight st + 1 /\ CommitSync (be_app (default be (pts !! 1%nat))) = Ret (be_app be', inr (State.AppHash st2)) /\
      exists p1 p2 p3, pts = [p1; p2; p3; be'] /\ be_db be' = Store.SaveState (be_db p3) st2 /\
        Forall (fun p => loads (be_db p) st) [p1; p2; p3] /\ Forall (fun db => loads db st) (Store.partialSaves (be_db p3) st2)
  end.
Proof.
  intros Hc Hmax E loads. destruct res as [e|st2].
  - apply Forall_forall. intros p Hp. destruct (Store.savedChain_inv _ _ _ _ _ Hc) as (cv & cp & Hi). pose proof (Store.storeInv_load _ _ _ _ _ _ Hi) as El.
    destruct (ApplyBlock_error _ _ _ _ _ _ _ E p Hp) as [Eq|(h & r & Eq)]; unfold loads; rewrite Eq; [done|]. by rewrite (proj1 (proj2 (responses_kept (be_db be) h r (Store.si_wf _ _ _ _ _ _ Hi)))).
  - destruct (ApplyBlock_inv _ _ _ _ _ _ _ E) as (b & a1 & a2 & m1 & m2 & r & h & d & st1 & appHash & -> & [Ev Er Hx Eu Ef Ec Em] & -> & -> & ->).
    destruct (chain_height _ _ _ _ _ b h Hc Ev (ex_header _ _ _ _ _ _ _ Hx)) as (H0' & Hh & Hn & Hw & El). destruct (exec_delivered _ _ _ _ _ _ _ Hx Hn) as [Hd _].
    destruct (responses_kept (be_db be) h r Hw) as (W1 & El1 & _).
    assert (Hc' : Store.savedChain db0 (savedState (be_db be) h r (Store.withAppHash st1 appHash)) (Store.withAppHash st1 appHash)
      (<[Block.Height h + 1 := State.Validators st1]> vals) (<[Block.Height h + 1 := State.Params st1]> params)) by (eapply Store.chain_block; [done|done|lia|done|done]).
    destruct (Store.savedChain_inv _ _ _ _ _ Hc') as (cv & cp & Hi). cbn [be_db be_app]. split; [by eexists _, _|]. split; [by eapply Store.storeInv_load|].
    split; [|split; [exact Ec|]].
    + destruct (Store.savedChain_inv _ _ _ _ _ Hc) as (cv0 & cp0 & Hi0). destruct (Store.updateState_step _ _ _ _ _ (Store.si_sorted _ _ _ _ _ _ Hi0) Hd Eu) as (_ & Eh & _). cbn. by rewrite Eh.
    + eexists _, _, _. split; [reflexivity|]. split; [done|]. unfold loads. split; [rewrite !Forall_cons; cbn [be_db]; rewrite El1; by rewrite Forall_nil|].
      apply Forall_forall. intros db Hdb. destruct (Store.partialSaves_spec _ _ _ W1 Hdb) as (_ & -> & _). by rewrite El1.
Qed.
End Theorems.

(** ** The executor with the mempool *)

Section WithMempool.
(** What the application answers to the first request that waits. *)
Context (check : Mempool.Mempool -> Z).

(** [FlushSync] returns when every request has been answered. *)
Fixpoint answerAll (n : nat) (m : Mempool.Mempool) : go Mempool.Mempool :=
  match n with
  | O => Ret m
  | S n => m ← Mempool.respond m (check m); answerAll n m
  end.
Definition mempoolService : MempoolService Mempool.Mempool := {|
  mp_FlushAppConn := fun m => m ← answerAll (length (Mempool.conn m)) m; Ret (m, None);
  mp_Update := fun m h bs => m ← Mempool.Update m h bs; Ret (m, None) |}.
#[local] Existing Instance mempoolService.

Lemma conn_length m a : Mempool.refines m a -> length (Mempool.conn m) = (Mempool.p_todo a + length (Mempool.p_new a))%nat.
Proof.
  intros (L & Hl & Hp & Ht & Hc & _). apply (f_equal length) in Hc. rewrite length_fmap, length_app, length_fmap, length_drop, <- Hp, (Mempool.pool_length _ _ Hl) in Hc. lia.
Qed.

Lemma aAnswer_length cn h a code : (Mempool.p_todo a + length (Mempool.p_new a) <> 0)%nat ->
  S (Mempool.p_todo (Mempool.aAnswer cn h a code) + length (Mempool.p_new (Mempool.aAnswer cn h a code))) = (Mempool.p_todo a + length (Mempool.p_new a))%nat.
Proof. unfold Mempool.aAnswer. destruct (Mempool.p_todo a); cbn; [destruct (Mempool.p_new a); cbn; lia|lia]. Qed.

(** Everything is answered, so no new transaction waits and no recheck is on. *)
Lemma answerAll_ok n : forall m a, Mempool.refines m a -> Mempool.cacheOK (Mempool.cache m) -> n = length (Mempool.conn m) ->
  exists m' ts, answerAll n m = Ret m' /\ Mempool.refines m' (Mempool.mkPool ts 0 []) /\ Mempool.cacheOK (Mempool.cache m') /\ Mempool.conn m' = [] /\ Mempool.config m' = Mempool.config m.
Proof.
  induction n as [|n IH]; intros m a HR Hc Hn; cbn [answerAll]; pose proof (conn_length m a HR) as Hl.
  - exists m, (Mempool.p_txs a). destruct a as [ts t new]. cbn in *. destruct t; [|lia]. destruct new; [|cbn in *; lia]. split_and!; try done. by destruct (Mempool.conn m).
  - destruct (Mempool.op_total m a (Mempool.opAnswer (check m)) HR Hc) as (m1 & E1 & H1 & C1); [cbn; by destruct (Mempool.conn m)|]. cbn [Mempool.apply] in E1. rewrite E1. cbn [mbind go_mbind].
    destruct (Mempool.respond_same _ _ _ E1) as [Ecfg _]. rewrite <- Ecfg. apply (IH m1 _ H1 C1). rewrite (conn_length _ _ H1). cbn [Mempool.aStep]. pose proof (aAnswer_length (Mempool.counter m) (Mempool.height m) a (check m)). lia.
Qed.

Context {A : Type} `{AppConn A} {D : Type}.

(** The executor keeps the contract of the mempool.  [Update] must be called
    only when no request is unanswered; [Commit] flushes the connection first,
    so whatever is in flight and whatever the application answers, it does not
    panic, it fails only if the application does, and it leaves a mempool at
    the height of the block without the transactions of the block, all others
    waiting for their recheck when rechecks are on. *)
Theorem commit_updates_mempool (be : BlockExecutor A Mempool.Mempool D) h d a p appHash : Mempool.refines (be_mempool be) p -> Mempool.cacheOK (Mempool.cache (be_mempool be)) ->
  CommitSync (be_app be) = Ret (a, inr appHash) ->
  exists m p', Commit_ be h d = Ret (mkExec (be_db be) a m, inr appHash) /\ Mempool.refines m p' /\ Mempool.cacheOK (Mempool.cache m) /\ Mempool.height m = Block.Height h /\
    (forall t, t ∈ Mempool.p_txs p' -> Mempool.mt_tx t ∉ bucketTxs (Block.TxBuckets d)) /\
    Mempool.p_todo p' = (if Mempool.cfg_Recheck (Mempool.config (be_mempool be)) then length (Mempool.p_txs p') else 0%nat).
Proof.
  intros HR Hc Ec. destruct (answerAll_ok _ _ _ HR Hc eq_refl) as (m1 & ts & E1 & H1 & C1 & Q1 & Ecfg).
  destruct (Mempool.op_total m1 _ (Mempool.opUpdate (Block.Height h) (Block.TxBuckets d)) H1 C1 Q1) as (m2 & E2 & H2 & C2). cbn [Mempool.apply Mempool.aStep] in E2, H2. rewrite Ecfg in H2.
  eexists m2, _. split; [|split; [exact H2|]].
  - unfold Commit_. cbn [mp_FlushAppConn mp_Update mempoolService]. rewrite E1. cbn [mbind go_mbind]. rewrite Ec. cbn [mbind go_mbind]. by rewrite E2.
  - split; [done|]. split; [|split; [|done]].
    + unfold Mempool.Update in E2. apply bind_ret_inv in E2 as ([l good] & _ & E2). injection E2 as <-. destruct (_ && _); [|done]. unfold Mempool.recheckTxs. by destruct good.
    + cbn. intros t [Ht _]%list_elem_of_filter Hin. apply Ht. unfold Mempool.txsMapOf. by apply elem_of_list_to_set.
Qed.
End WithMempool.

(** ** Recovering *)

Section Recovery.
Context `{Codec} `{Curves} `{Amino} `{ValidatorCodec} `{Block.BlockCodec} `{Block.TxDecoder} `{State.ResultCodec}.
Context {D I : Type} `{DB.DBLaws D I}.
Context `{Serial State.State} `{Serial Store.ValidatorsInfo} `{Serial Store.ConsensusParamsInfo} `{Serial State.ABCIResponses}.
Context `{!SerialLaws State.State} `{!SerialLaws Store.ValidatorsInfo} `{!SerialLaws Store.ConsensusParamsInfo} `{!SerialLaws State.ABCIResponses} `{!Store.InfoLaws}.
Context {D' I' : Type} `{DB.DB D' I'} `{Store.StoreCodec} `{Serial Block.BlockMeta} `{Serial PartSet.Part} `{Serial Commit}.

(** The mock application gives the responses back. *)
Lemma mock_delivers height txs : forall hash i rs updates vals, length rs = (i + length txs)%nat -> let r := State.mkResponses (Some <$> rs) updates vals in
  deliverAll height txs (mkMock hash (Z.of_nat i) r) = Ret (mkMock hash (zlen rs) r, drop i rs).
Proof.
  induction txs as [|tx txs IH]; intros hash i rs updates vals Hl; cbn [deliverAll length] in *.
  - rewrite drop_ge by lia. do 3 f_equal. unfold zlen. lia.
  - cbn [DeliverTxAsync mockConn localClient app_DeliverTx mockApplication mock_abciResponses mock_txCount mock_appHash]. cbn [State.DeliverTx].
    destruct (lookup_lt_is_Some_2 rs i) as [x Hx]; [lia|]. assert (Ei : idx (Some <$> rs) (Z.of_nat i) = Ret (Some x)).
    { apply idx_lookup; [lia|]. by rewrite Nat2Z.id, list_lookup_fmap, Hx. }
    rewrite Ei. cbn [deref mbind go_mbind]. replace (Z.of_nat i + 1) with (Z.of_nat (S i)) by lia. rewrite (IH hash (S i) rs updates vals) by lia. cbn [mbind go_mbind]. by rewrite (drop_S rs x i Hx).
Qed.

(** The responses without the validators. *)
Definition forget (r : State.ABCIResponses) : State.ABCIResponses := State.mkResponses (State.DeliverTx r) (State.ConsensusParamUpdates r) [].

Lemma mock_exec {A} `{AppConn A} a b vals a' r h d hash : execution a b vals a' r h d -> Block.NumTxs h = Block.TotalTxsInBuckets (Block.b_Data b) ->
  execBlockOnProxyApp (newMockProxyApp hash r) (Some b) vals = Ret (newMockProxyApp hash r, inr (forget r)).
Proof.
  intros [Eh Ed (sv & a1 & a2 & a3 & rs & Es & _ & _ & _ & _ & Hl & Hle & Er)] Hn. rewrite Ed, TotalTxs_wrap, <- Hl in Hn. rewrite Hn in Hle. rewrite wrap64_above in Hn by (pose proof (zlen_nonneg rs); lia).
  rewrite Hn, Z.sub_diag in Er. cbn in Er. rewrite app_nil_r in Er. unfold forget. rewrite Er. destruct r as [ds updates vs]. cbn in Er. subst ds.
  set (r := State.mkResponses (Some <$> rs) updates vs).
  apply (execution_intro (newMockProxyApp hash r) b vals h d sv (newMockProxyApp hash r) (mkMock hash (zlen rs) r) (newMockProxyApp hash r)); try done; [by rewrite Hn| ].
  rewrite (mock_delivers _ _ hash 0 rs updates vs) by (unfold zlen in Hl; lia). by rewrite drop_0.
Qed.

(** [replayBlock] is [ApplyBlock] of the stored block. *)
Lemma replayBlock_ok {A} `{AppConn A} (hs : Handshaker D D') (a : A) st n b meta a1 a2 r h d st1 appHash : Store.LoadBlock (hs_store hs) n = Ret (Some b) -> Store.LoadBlockMeta (hs_store hs) n = Ret (Some meta) ->
  application (mkExec (hs_stateDB hs) a tt) st (Block.bm_BlockID meta) b a1 a2 tt tt r h d st1 appHash -> let st2 := Store.withAppHash st1 appHash in
  replayBlock hs a st n = Ret (withDB hs (savedState (hs_stateDB hs) h r st2) 1, a2, inr st2).
Proof.
  intros Eb Em Ha st2. unfold replayBlock. rewrite Eb. cbn [mbind go_mbind]. rewrite Em. cbn [deref mbind go_mbind]. by rewrite (ApplyBlock_intro _ _ _ _ _ _ _ _ _ _ _ _ _ Ha).
Qed.

Section App.
Context {A : Type} `{AppConn A} {P : Type} `{MempoolService P} (InfoSync : A -> ConnError + (Z * bytes)).
(** Responses are never encoded as nothing. *)
Context (responses_nonempty : forall r : State.ABCIResponses, marshal r <> []).

(** The request of [InitChain] that the handshake makes. *)
Definition initRequest (genDoc : State.GenesisDoc) (params : Block.ConsensusParams) (st : State.State) : RequestInitChain :=
  mkInitChain (Unix (State.gd_GenesisTime genDoc)) (State.gd_ChainID genDoc) (TM2PB_ConsensusParams params) (State.TM2PB_Validator <$> ValidatorSet.Validators (State.Validators st)).

(** A node that stored a block and applied it: [be] is the executor before,
    [be'] after, [st2] the new state.  [a0] is the application as it restarts
    when it has not committed the block: where it last committed, and before
    the first block as it is before [InitChain], which then changes neither
    validators nor parameters. *)
Record applied (db0 : D) (bs : Store.BlockStore D') (genDoc : State.GenesisDoc) (a0 : A) (be be' : BlockExecutor A P D) (st : State.State) (b : Block.Block) (meta : Block.BlockMeta) (pts : list (BlockExecutor A P D)) (st2 : State.State) : Prop := {
  apd_chain : exists vals params, Store.savedChain db0 (be_db be) st vals params;
  apd_height : 0 <= State.LastBlockHeight st < MaxInt64 - 1;
  apd_run : ApplyBlock be st (Block.bm_BlockID meta) (Some b) = Ret (pts, be', inr st2);
  apd_store : Store.bs_height bs = State.LastBlockHeight st + 1;
  apd_block : Store.LoadBlock bs (State.LastBlockHeight st + 1) = Ret (Some b);
  apd_meta : Store.LoadBlockMeta bs (State.LastBlockHeight st + 1) = Ret (Some meta);
  apd_info : exists hash, InfoSync a0 = inr (State.LastBlockHeight st, hash);
  apd_before : if decide (State.LastBlockHeight st = 0)
               then exists params, State.gd_ConsensusParams genDoc = Some params /\ InitChainSync a0 (initRequest genDoc params st) = Ret (be_app be, inr ([], None))
               else a0 = be_app be;
  apd_info' : InfoSync (be_app be') = inr (State.LastBlockHeight st + 1, State.AppHash st2) }.

(** The databases and applications that a restart finds, by the time of the
    crash: before and after the responses are saved, after the commit, between
    the writes of the state, after it is saved. *)
Definition restarts (a0 : A) (pts : list (BlockExecutor A P D)) (st2 : State.State) : list (D * A) :=
  match pts with
  | [p1; p2; p3; p4] => [(be_db p1, a0); (be_db p2, a0)] ++ ((fun db => (db, be_app p3)) <$> be_db p3 :: Store.partialSaves (be_db p3) st2) ++ [(be_db p4, be_app p4)]
  | _ => []
  end.

Lemma savedChain_load db0 (db : D) st vals params : Store.savedChain db0 db st vals params -> Store.LoadState db = Ret (Some (State.uncachedState st)) /\ DB.db_wf db.
Proof. intros Hc. destruct (Store.savedChain_inv _ _ _ _ _ Hc) as (cv & cp & Hi). split; [by eapply Store.storeInv_load|apply Hi]. Qed.

(** The branches of the handshake that recover a block. *)
Lemma handshake_real (hs : Handshaker D D') a n hash st2 hs' a2 : InfoSync a = inr (n, hash) -> 0 < n < MaxInt64 -> State.LastBlockHeight (hs_initialState hs) = n -> Store.bs_height (hs_store hs) = n + 1 ->
  replayBlock hs a (hs_initialState hs) (n + 1) = Ret (hs', a2, inr st2) -> Handshake InfoSync hs a = Ret (hs', a2, None).
Proof.
  intros Ei Hn Es Hb Er. unfold Handshake. rewrite Ei. rewrite (proj2 (Z.ltb_ge _ _)) by lia. unfold ReplayBlocks. rewrite (proj2 (Z.eqb_neq n 0)) by lia. cbn [mbind go_mbind]. rewrite Hb, Es.
  replace (add64 n 1) with (n + 1) by (unfold add64; rewrite wrap64_small by (unfold_int64; lia); done).
  rewrite (proj2 (Z.eqb_neq (n + 1) 0)), !(proj2 (Z.ltb_ge _ _)) by lia. rewrite (proj2 (Z.eqb_neq (n + 1) n)) by lia. rewrite Z.ltb_irrefl, !Z.eqb_refl, Er. done.
Qed.
Lemma handshake_first (hs : Handshaker D D') a0 a hash params st2 hs' a2 : InfoSync a0 = inr (0, hash) -> State.LastBlockHeight (hs_initialState hs) = 0 -> Store.bs_height (hs_store hs) = 1 ->
  State.gd_ConsensusParams (hs_genDoc hs) = Some params -> InitChainSync a0 (initRequest (hs_genDoc hs) params (hs_initialState hs)) = Ret (a, inr ([], None)) ->
  replayBlock (withDB hs (Store.SaveState (hs_stateDB hs) (hs_initialState hs)) 0) a (hs_initialState hs) 1 = Ret (hs', a2, inr st2) -> Handshake InfoSync hs a0 = Ret (hs', a2, None).
Proof.
  intros Ei Es Hb Ep Ea Er. unfold Handshake. rewrite Ei. change (0 <? 0) with false. unfold ReplayBlocks. rewrite Z.eqb_refl. unfold initChain. rewrite Ep. cbn [deref mbind go_mbind].
  fold (initRequest (hs_genDoc hs) params (hs_initialState hs)). rewrite Ea. cbn [mbind go_mbind]. change (0 <? zlen (@nil State.abciValidator)) with false. cbn [mbind go_mbind].
  assert (Est : State.mkState (State.ChainID (hs_initialState hs)) (State.LastBlockHeight (hs_initialState hs)) (State.LastBlockTotalTx (hs_initialState hs)) (State.LastBlockID (hs_initialState hs)) (State.LastBlockTime (hs_initialState hs))
    (State.Validators (hs_initialState hs)) (State.LastValidators (hs_initialState hs)) (State.LastHeightValidatorsChanged (hs_initialState hs)) (State.Params (hs_initialState hs))
    (State.LastHeightConsensusParamsChanged (hs_initialState hs)) (State.LastResultsHash (hs_initialState hs)) (State.AppHash (hs_initialState hs)) = hs_initialState hs) by (by destruct (hs_initialState hs)).
  rewrite Est, Hb, Es. change (add64 0 1) with 1. change (1 =? 0) with false. change (1 <? 0) with false. change (1 <? 1) with false. change (1 =? 1) with true. change (0 <? 0) with false. change (0 =? 0) with true. by rewrite Er.
Qed.
Lemma handshake_mock (hs : Handshaker D D') a n hash r st2 hs' mock' : InfoSync a = inr (n + 1, hash) -> 0 <= n < MaxInt64 -> State.LastBlockHeight (hs_initialState hs) = n -> Store.bs_height (hs_store hs) = n + 1 ->
  Store.LoadABCIResponses (hs_stateDB hs) (n + 1) = Ret (inr r) -> replayBlock hs (newMockProxyApp hash r) (hs_initialState hs) (n + 1) = Ret (hs', mock', inr st2) -> Handshake InfoSync hs a = Ret (hs', a, None).
Proof.
  intros Ei Hn Es Hb El Er. unfold Handshake. rewrite Ei. rewrite (proj2 (Z.ltb_ge _ _)) by lia. unfold ReplayBlocks. rewrite (proj2 (Z.eqb_neq (n + 1) 0)) by lia. cbn [mbind go_mbind]. rewrite Hb, Es.
  replace (add64 n 1) with (n + 1) by (unfold add64; rewrite wrap64_small by (unfold_int64; lia); done).
  rewrite (proj2 (Z.eqb_neq (n + 1) 0)), !(proj2 (Z.ltb_ge _ _)) by lia. rewrite !(proj2 (Z.eqb_neq (n + 1) n)) by lia. rewrite !Z.eqb_refl, El. cbn [mbind go_mbind]. by rewrite Er.
Qed.

Lemma handshake_synced (hs : Handshaker D D') a n hash : InfoSync a = inr (n, hash) -> 0 < n < MaxInt64 -> State.LastBlockHeight (hs_initialState hs) = n -> Store.bs_height (hs_store hs) = n ->
  State.AppHash (hs_initialState hs) = hash -> Handshake InfoSync hs a = Ret (hs, a, None).
Proof.
  intros Ei Hn Es Hb Eh. unfold Handshake. rewrite Ei. rewrite (proj2 (Z.ltb_ge _ _)) by lia. unfold ReplayBlocks. rewrite (proj2 (Z.eqb_neq n 0)) by lia. cbn [mbind go_mbind]. rewrite Hb, Es.
  replace (add64 n 1) with (n + 1) by (unfold add64; rewrite wrap64_small by (unfold_int64; lia); done).
  rewrite (proj2 (Z.eqb_neq n 0)), !(proj2 (Z.ltb_ge _ _)) by lia. rewrite !Z.eqb_refl. unfold checkAppHash. by rewrite Eh, bytes_eqb_refl.
Qed.

(** The executor of the replay does what the one that crashed did. *)
Lemma application_replay (be : BlockExecutor A P D) st id b a1 a2 (m1 m2 : P) r h d st1 appHash (db : D) : application be st id b a1 a2 m1 m2 r h d st1 appHash ->
  application (mkExec db (be_app be) tt) st id b a1 a2 tt tt r h d st1 appHash.
Proof. intros [Ev Er Hx Eu _ Ec _]. by split. Qed.

(** From the state without caches the block is applied as well, and leads to the
    same state up to caches. *)
Lemma application_uncached (be : BlockExecutor A P D) st id b a1 a2 (m1 m2 : P) r h d st1 appHash : application be st id b a1 a2 m1 m2 r h d st1 appHash ->
  State.cachesOK st -> addrSorted (ValidatorSet.Validators (State.Validators st)) ->
  exists st1', application be (State.uncachedState st) id b a1 a2 m1 m2 r h d st1' appHash /\ State.uncachedState st1' = State.uncachedState st1.
Proof.
  intros [Ev Er Hx Eu Ef Ec Em] Hc Hs. pose proof (State.updateState_uncached st id h r Hs Hc) as Hu. rewrite Eu in Hu. destruct Hu as (st1' & Eu' & Es & _). exists st1'. split; [|done].
  destruct Hx as [Eh Ed Hx]. split; [by rewrite State.validateBlock_uncached|exact Er|split; [exact Eh|exact Ed|exact Hx]|done|done|done|done].
Qed.

(** With the mock application the validators are not updated. *)
Lemma application_mock (be : BlockExecutor A P D) st id b a1 a2 (m1 m2 : P) r h d st1 st1' appHash (db : D) : application be st id b a1 a2 m1 m2 r h d st1 appHash ->
  State.updateState st id (Some h) (forget r) = Ret (inr st1') -> let mock := newMockProxyApp appHash r in
  application (mkExec db mock tt) st id b mock mock tt tt (forget r) h d st1' appHash.
Proof.
  intros [Ev Er Hx Eu _ Ec _] Eu' mock. destruct (validated_inv _ _ Ev) as (h' & Eh' & _ & Hn). rewrite (ex_header _ _ _ _ _ _ _ Hx) in Eh'. injection Eh' as <-.
  pose proof (mock_exec _ _ _ _ _ _ _ appHash Hx Hn) as Em. destruct (execution_inv _ _ _ _ _ Em) as (h'' & d'' & Hx'). pose proof Hx' as [Eh Ed _].
  rewrite (ex_header _ _ _ _ _ _ _ Hx) in Eh. injection Eh as <-. rewrite (ex_data _ _ _ _ _ _ _ Hx) in Ed. injection Ed as <-. by split.
Qed.

(** A saved state is loaded. *)
Lemma saved_load (db : D) h r st2 : DB.db_wf db -> State.ChainID st2 <> [] -> int64 (State.LastBlockHeight st2 + 1) -> Store.LoadState (savedState db h r st2) = Ret (Some (State.uncachedState st2)).
Proof.
  intros Hw Hc Hh. destruct (responses_kept db h r Hw) as (W1 & _). destruct (Store.SaveState_spec (savedResponses db h r) st2 W1 Hh) as (W & Es & _).
  refine (Store.loadAs_some _ _ st2 W Es _). by apply Store.marshal_state.
Qed.

(** What the run that crashed gives the replay: the steps of the run, and those
    of a run from the state that is loaded. *)
Record facts (be be' : BlockExecutor A P D) (st : State.State) (b : Block.Block) (meta : Block.BlockMeta) (pts : list (BlockExecutor A P D)) (st2 : State.State)
  (a1 a2 : A) (m1 m2 : P) (r : State.ABCIResponses) (h : Block.Header) (d : Block.Data) (st1 st1' : State.State) (appHash : bytes) : Prop := {
  fa_run : application be st (Block.bm_BlockID meta) b a1 a2 m1 m2 r h d st1 appHash;
  fa_loaded : application be (State.uncachedState st) (Block.bm_BlockID meta) b a1 a2 m1 m2 r h d st1' appHash;
  fa_same : State.uncachedState (Store.withAppHash st1' appHash) = State.uncachedState (Store.withAppHash st1 appHash);
  fa_st2 : st2 = Store.withAppHash st1 appHash;
  fa_be' : be' = mkExec (savedState (be_db be) h r st2) a2 m2;
  fa_pts : pts = points be a1 a2 m2 r h st2;
  fa_height : Block.Height h = State.LastBlockHeight st + 1;
  fa_load : Store.LoadState (be_db be) = Ret (Some (State.uncachedState st));
  fa_wf : DB.db_wf (be_db be);
  fa_chain : State.ChainID st <> [];
  fa_sorted : addrSorted (ValidatorSet.Validators (State.Validators st));
  fa_changed : State.LastHeightValidatorsChanged st <= State.LastBlockHeight st + 1;
  fa_all : Forall is_Some (State.DeliverTx r) }.
Lemma applied_facts db0 bs genDoc a0 be be' st b meta pts st2 : applied db0 bs genDoc a0 be be' st b meta pts st2 ->
  exists a1 a2 m1 m2 r h d st1 st1' appHash, facts be be' st b meta pts st2 a1 a2 m1 m2 r h d st1 st1' appHash.
Proof.
  intros [(vals & params & Hc) Hh E _ _ _ _ _ _]. destruct (ApplyBlock_inv _ _ _ _ _ _ _ E) as (b' & a1 & a2 & m1 & m2 & r & h & d & st1 & appHash & [= <-] & Ha & -> & -> & ->).
  pose proof Ha as [Ev _ Hx _ _ _ _]. destruct (chain_height _ _ _ _ _ b h Hc Ev (ex_header _ _ _ _ _ _ _ Hx)) as (_ & Ehh & Hn & Hw & El).
  destruct (Store.savedChain_inv _ _ _ _ _ Hc) as (cv & cp & Hi). destruct (exec_delivered _ _ _ _ _ _ _ Hx Hn) as [Hd _].
  destruct (application_uncached _ _ _ _ _ _ _ _ _ _ _ _ _ Ha (Store.si_caches _ _ _ _ _ _ Hi) (Store.si_sorted _ _ _ _ _ _ Hi)) as (st1' & Ha' & Es).
  exists a1, a2, m1, m2, r, h, d, st1, st1', appHash. split; try done; [|apply Hi..|].
  - change (Store.withAppHash (State.uncachedState st1') appHash = Store.withAppHash (State.uncachedState st1) appHash). by rewrite Es.
  - destruct (Store.si_vals _ _ _ _ _ _ Hi) as (vs & Hv & _).
    destruct (Store.hist_chg _ _ _ _ (Store.si_hv _ _ _ _ _ _ Hi) _ _ Hv) as (c & vs' & Ec & Hb & _). rewrite (Store.si_cv _ _ _ _ _ _ Hi) in Ec. injection Ec as <-. lia.
Qed.

Lemma updated_facts st id h r st1 appHash : addrSorted (ValidatorSet.Validators (State.Validators st)) -> Forall is_Some (State.DeliverTx r) -> State.ChainID st <> [] -> Block.Height h = State.LastBlockHeight st + 1 -> 0 <= State.LastBlockHeight st < MaxInt64 - 1 ->
  State.updateState st id (Some h) r = Ret (inr st1) -> let st2 := Store.withAppHash st1 appHash in State.LastBlockHeight st2 = State.LastBlockHeight st + 1 /\ State.ChainID st2 <> [] /\ int64 (State.LastBlockHeight st2 + 1).
Proof.
  intros Hs Hd Hc Hh Hmax Eu st2. destruct (Store.updateState_step _ _ _ _ _ Hs Hd Eu) as (Ec & Eh & _). cbn. rewrite Ec, Eh, Hh. split_and!; [done|done|unfold_int64; lia].
Qed.

(** The replay with the application. *)
Lemma real_recovers db0 bs genDoc a0 be be' st b meta pts st2 (db : D) : applied db0 bs genDoc a0 be be' st b meta pts st2 -> DB.db_wf db ->
  exists hs, Handshake InfoSync (NewHandshaker db (State.uncachedState st) bs genDoc) a0 = Ret (hs, be_app be', None) /\ Store.LoadState (hs_stateDB hs) = Ret (Some (State.uncachedState st2)).
Proof.
  intros Happ W. destruct (applied_facts _ _ _ _ _ _ _ _ _ _ _ Happ) as (a1 & a2 & m1 & m2 & r & h & d & st1 & st1' & appHash & [_ Ha Es -> -> -> Hh _ _ Hch Hs _ Hd]).
  destruct Happ as [_ Hb _ Hst Eb Em [hash Ei] Hbef _]. rewrite <- Es. cbn [be_app].
  destruct (updated_facts (State.uncachedState st) _ _ _ _ appHash Hs Hd Hch Hh Hb (ap_update _ _ _ _ _ _ _ _ _ _ _ _ _ Ha)) as (_ & Hch2 & H64).
  destruct (decide (State.LastBlockHeight st = 0)) as [E0|Hne].
  - destruct Hbef as (params & Ep & Ea0). rewrite E0 in *. set (hs0 := NewHandshaker db (State.uncachedState st) bs genDoc). set (db' := Store.SaveState db (State.uncachedState st)).
    assert (W' : DB.db_wf db') by (apply Store.SaveState_spec; [done|]; cbn; rewrite E0; unfold_int64; lia).
    pose proof (replayBlock_ok (withDB hs0 db' 0) (be_app be) (State.uncachedState st) _ b meta a1 a2 r h d st1' appHash Eb Em (application_replay be _ _ _ _ _ m1 m2 _ _ _ _ _ _ Ha)) as Er.
    eexists. split; [eapply (handshake_first hs0 a0 (be_app be)); [exact Ei|exact E0|exact Hst|exact Ep|exact Ea0|exact Er]|]. by apply saved_load.
  - subst a0. pose proof (replayBlock_ok (NewHandshaker db (State.uncachedState st) bs genDoc) (be_app be) (State.uncachedState st) _ b meta a1 a2 r h d st1' appHash Eb Em (application_replay be _ _ _ _ _ m1 m2 _ _ _ _ _ _ Ha)) as Er.
    eexists. split; [eapply handshake_real; [exact Ei|lia|done|done|exact Er]|]. by apply saved_load.
Qed.

(** The replay with the mock application. *)
Lemma mock_recovers (db : D) bs (be : BlockExecutor A P D) st b meta a1 a2 (m1 m2 : P) r h d st1 st1' appHash genDoc (a : A) : application be st (Block.bm_BlockID meta) b a1 a2 m1 m2 r h d st1 appHash ->
  Block.Height h = State.LastBlockHeight st + 1 -> 0 <= State.LastBlockHeight st < MaxInt64 - 1 -> DB.db_wf db -> State.ChainID st <> [] -> addrSorted (ValidatorSet.Validators (State.Validators st)) -> Forall is_Some (State.DeliverTx r) ->
  Store.bs_height bs = State.LastBlockHeight st + 1 -> Store.LoadBlock bs (State.LastBlockHeight st + 1) = Ret (Some b) -> Store.LoadBlockMeta bs (State.LastBlockHeight st + 1) = Ret (Some meta) ->
  Store.LoadABCIResponses db (State.LastBlockHeight st + 1) = Ret (inr r) -> InfoSync a = inr (State.LastBlockHeight st + 1, appHash) -> State.updateState st (Block.bm_BlockID meta) (Some h) (forget r) = Ret (inr st1') ->
  exists hs, Handshake InfoSync (NewHandshaker db st bs genDoc) a = Ret (hs, a, None) /\ Store.LoadState (hs_stateDB hs) = Ret (Some (State.uncachedState (Store.withAppHash st1' appHash))).
Proof.
  intros Ha Hh Hb Hw Hch Hs Hd Hst Eb Em Er1 Ei Eu.
  destruct (updated_facts _ _ _ _ _ appHash Hs (Hd : Forall is_Some (State.DeliverTx (forget r))) Hch Hh Hb Eu) as (_ & Hch2 & H64).
  pose proof (replayBlock_ok (NewHandshaker db st bs genDoc) (newMockProxyApp appHash r) st _ b meta _ _ (forget r) h d st1' appHash Eb Em
    (application_mock be _ _ _ a1 a2 m1 m2 r h d st1 st1' appHash _ Ha Eu)) as Er. eexists. split; [eapply handshake_mock; [exact Ei|lia|done|done|exact Er1|exact Er]|]. by apply saved_load.
Qed.

(** What a restart finds. *)
Lemma restarts_cases db0 bs genDoc a0 be be' st b meta pts st2 k db a : applied db0 bs genDoc a0 be be' st b meta pts st2 -> restarts a0 pts st2 !! k = Some (db, a) ->
  DB.db_wf db /\ Store.LoadState db = Ret (Some (State.uncachedState (if decide (k < 5)%nat then st else st2))) /\
  ((k < 2)%nat /\ a = a0 \/ (2 <= k < 5)%nat /\ a = be_app be' /\ (exists p3, pts !! 2%nat = Some p3 /\ Store.LoadABCIResponses db (State.LastBlockHeight st + 1) = Store.LoadABCIResponses (be_db p3) (State.LastBlockHeight st + 1)) \/ k = 5%nat /\ a = be_app be').
Proof.
  intros Happ Hk. destruct (applied_facts _ _ _ _ _ _ _ _ _ _ _ Happ) as (a1 & a2 & m1 & m2 & r & h & d & st1 & st1' & appHash & [Ha _ _ E2 -> -> Hh El Hw Hch Hs _ Hd]).
  destruct (responses_kept (be_db be) h r Hw) as (W1 & El1 & _). rewrite El in El1.
  assert (Hpart : forall x, x ∈ savedResponses (be_db be) h r :: Store.partialSaves (savedResponses (be_db be) h r) st2 -> DB.db_wf x /\ Store.LoadState x = Ret (Some (State.uncachedState st)) /\
    forall n, Store.LoadABCIResponses x n = Store.LoadABCIResponses (savedResponses (be_db be) h r) n).
  { intros x [->|Hx]%elem_of_cons; [done|]. destruct (Store.partialSaves_spec _ _ _ W1 Hx) as (? & -> & ?). done. }
  cbn [restarts points be_db be_app app] in Hk. unfold Store.partialSaves in Hk at 1. cbn [fmap list_fmap app] in Hk.
  assert (Hmock : forall x, x ∈ savedResponses (be_db be) h r :: Store.partialSaves (savedResponses (be_db be) h r) st2 -> Some (x, a2) = Some (db, a) -> (2 <= k < 5)%nat ->
    DB.db_wf db /\ Store.LoadState db = Ret (Some (State.uncachedState (if decide (k < 5)%nat then st else st2))) /\ a = a2 /\
    exists p3, points be a1 a2 m2 r h st2 !! 2%nat = Some p3 /\ Store.LoadABCIResponses db (State.LastBlockHeight st + 1) = Store.LoadABCIResponses (be_db p3) (State.LastBlockHeight st + 1)).
  { intros x Hx [= -> ->] Hk5. destruct (Hpart _ Hx) as (? & ? & ?). rewrite decide_True by lia. split_and!; try done. eexists. split; [reflexivity|done]. }
  destruct k as [|[|[|[|[|[|k]]]]]]; [| | | | | |done].
  - injection Hk as <- <-. rewrite decide_True by lia. split_and!; try done. left. split; [lia|done].
  - injection Hk as <- <-. rewrite decide_True by lia. split_and!; try done. left. split; [lia|done].
  - destruct (Hmock _ ltac:(by left) Hk ltac:(lia)) as (? & ? & ? & ?). split_and!; try done. right. left. split_and!; [lia|lia|done|done].
  - destruct (Hmock _ ltac:(right; by left) Hk ltac:(lia)) as (? & ? & ? & ?). split_and!; try done. right. left. split_and!; [lia|lia|done|done].
  - destruct (Hmock _ ltac:(right; right; by left) Hk ltac:(lia)) as (? & ? & ? & ?). split_and!; try done. right. left. split_and!; [lia|lia|done|done].
  - injection Hk as <- <-. rewrite decide_False by lia. subst st2. destruct (updated_facts _ _ _ _ _ appHash Hs Hd Hch Hh (apd_height _ _ _ _ _ _ _ _ _ _ _ Happ) (ap_update _ _ _ _ _ _ _ _ _ _ _ _ _ Ha)) as (_ & Hch2 & H64).
    split; [by apply Store.SaveState_spec|]. split; [by apply saved_load|]. by right; right.
Qed.

(** C22: the handshake recovers every crash while a block is applied, the first
    one included.  The process may stop before or after the responses are saved,
    after the commit, between the three writes of the state or after it is
    saved; the application restarts with what it last committed, and before the
    first block it is initialised again, which is taken to change neither
    validators nor parameters.  The state that is then loaded and the handshake,
    which replays the block with the application or with the mock one as needed,
    bring the application to where the run without the crash ended, without
    committing twice, and store the state that is loaded after that run; after a
    crash between the commit and the save this takes that the application named
    no validators. *)
Theorem handshake_recovers db0 bs genDoc a0 be be' st b meta pts st2 k db a : applied db0 bs genDoc a0 be be' st b meta pts st2 -> restarts a0 pts st2 !! k = Some (db, a) ->
  ((2 <= k <= 4)%nat -> forall r, Store.LoadABCIResponses db (State.LastBlockHeight st + 1) = Ret (inr r) -> State.GetValidatorSet r = []) ->
  Store.LoadState (be_db be') = Ret (Some (State.uncachedState st2)) /\
  exists s hs, Store.LoadState db = Ret (Some s) /\ Handshake InfoSync (NewHandshaker db s bs genDoc) a = Ret (hs, be_app be', None) /\ Store.LoadState (hs_stateDB hs) = Store.LoadState (be_db be').
Proof.
  intros Happ Hk Hvals. destruct (restarts_cases _ _ _ _ _ _ _ _ _ _ _ _ _ _ Happ Hk) as (Hw & El & Hcases).
  destruct (applied_facts _ _ _ _ _ _ _ _ _ _ _ Happ) as (a1 & a2 & m1 & m2 & r & h & d & st1 & st1' & appHash & [Ha Ha' Es E2 E3 E4 Hh _ Hw0 Hch Hs _ Hd]).
  pose proof Happ as [_ Hb _ Hst Eb Em _ _ Ei']. destruct (updated_facts _ _ _ _ _ appHash Hs Hd Hch Hh Hb (ap_update _ _ _ _ _ _ _ _ _ _ _ _ _ Ha)) as (Hh2 & Hch2 & H64). rewrite <- E2 in Hh2, Hch2, H64.
  assert (El2 : Store.LoadState (be_db be') = Ret (Some (State.uncachedState st2))) by (rewrite E3; by apply saved_load). split; [done|]. rewrite El2.
  destruct Hcases as [[Hk2 ->]|[(Hk2 & -> & p3 & Hp3 & Eresp)|[-> ->]]].
  - rewrite decide_True in El by lia. exists (State.uncachedState st). destruct (real_recovers _ _ _ _ _ _ _ _ _ _ _ db Happ Hw) as (hs & E & E'). by exists hs.
  - rewrite decide_True in El by lia. exists (State.uncachedState st). destruct (responses_kept (be_db be) h r Hw0) as (_ & _ & Er1). specialize (Er1 (responses_nonempty r)). rewrite Hh in Er1.
    rewrite E4 in Hp3. injection Hp3 as <-. cbn [be_db] in Eresp. rewrite Er1 in Eresp. specialize (Hvals ltac:(lia) r Eresp).
    destruct (mock_recovers db bs be (State.uncachedState st) b meta a1 a2 m1 m2 r h d st1' st1' appHash genDoc (be_app be')) as (hs & E & E'); try done.
    + rewrite Ei', E2. done.
    + destruct r as [x y vs]. cbn in Hvals. subst vs. apply (ap_update _ _ _ _ _ _ _ _ _ _ _ _ _ Ha').
    + exists hs. rewrite E', Es, E2. done.
  - cbn in El. exists (State.uncachedState st2), (NewHandshaker db (State.uncachedState st2) bs genDoc). split; [done|]. split; [|exact El].
    eapply handshake_synced; [exact Ei'|lia|exact Hh2|exact Hst|done].
Qed.

(** A crash between the commit and the save loses validator updates.  The
    mock application does not answer [GetValidatorSet], so when the application
    named validators for the block, the handshake succeeds but ends in a
    state with the validators of the former one, not those that the other
    nodes have. *)
Theorem mock_replay_loses_validators db0 bs genDoc a0 be be' st b meta pts st2 db a r : applied db0 bs genDoc a0 be be' st b meta pts st2 -> restarts a0 pts st2 !! 2%nat = Some (db, a) ->
  Store.LoadABCIResponses db (State.LastBlockHeight st + 1) = Ret (inr r) -> State.GetValidatorSet r <> [] -> ValidatorSet.Validators (State.Validators st) <> [] ->
  exists s hs st3, Store.LoadState db = Ret (Some s) /\ Handshake InfoSync (NewHandshaker db s bs genDoc) a = Ret (hs, be_app be', None) /\ Store.LoadState (hs_stateDB hs) = Ret (Some st3) /\
    State.LastBlockHeight st3 = State.LastBlockHeight st2 /\ State.AppHash st3 = State.AppHash st2 /\ Store.sameVals (State.Validators st) (State.Validators st3) /\
    State.LastHeightValidatorsChanged st3 < State.LastHeightValidatorsChanged st2.
Proof.
  intros Happ Hk Hr Hv Hne. destruct (restarts_cases _ _ _ _ _ _ _ _ _ _ _ _ _ _ Happ Hk) as (Hw & El & Hcases). destruct Hcases as [[? _]|[(_ & -> & p3 & Hp3 & Eresp)|[? _]]]; [lia| |done].
  destruct (applied_facts _ _ _ _ _ _ _ _ _ _ _ Happ) as (a1 & a2 & m1 & m2 & r' & h & d & st1 & st1' & appHash & [Ha Ha' Es E2 E3 E4 Hh _ Hw0 Hch Hs Hlast Hd]).
  destruct Happ as [_ Hb _ Hst Eb Em _ _ Ei']. destruct (responses_kept (be_db be) h r' Hw0) as (_ & _ & Er1). specialize (Er1 (responses_nonempty r')).
  rewrite E4 in Hp3. injection Hp3 as <-. cbn [be_db] in Eresp. rewrite Hh in Er1. rewrite Hr, Er1 in Eresp. injection Eresp as ->.
  pose proof (ap_update _ _ _ _ _ _ _ _ _ _ _ _ _ Ha) as Eu. destruct (State.updateState_spec st (Block.bm_BlockID meta) h r' Hs Hd) as [Hp1 Hr1].
  destruct (decide (State.nextVals st r' = ∅)) as [En|En]; [destruct (Hp1 En); congruence|]. destruct (Hr1 En) as (x & Ex & Hx). rewrite Eu in Ex. injection Ex as <-.
  destruct (State.nextParams st r') as [|ps] eqn:Enp; [done|]. destruct Hx as (y & [= <-] & _ & Eh1 & _ & _ & _ & _ & _ & _ & Elh). rewrite bool_decide_false in Elh by done.
  destruct (State.updateState_spec (State.uncachedState st) (Block.bm_BlockID meta) h (forget r') Hs Hd) as [_ Hr2]. destruct Hr2 as (x & Ex & Hx).
  { change (asMap (ValidatorSet.Validators (State.Validators st)) <> ∅). destruct (ValidatorSet.Validators (State.Validators st)) as [|v l] eqn:Ev; [done|]. intros Em0. apply (f_equal (fun m => m !! val_Address v)) in Em0.
    rewrite lookup_empty, (proj2 (asMap_lookup _ (val_Address v) v Hs)) in Em0; [done|split; [by left|done]]. }
  change (State.nextParams (State.uncachedState st) (forget r')) with (State.nextParams st r') in Hx. rewrite Enp in Hx. destruct Hx as (st3 & -> & _ & Eh1' & _ & _ & _ & _ & _ & Hk3 & Elh'). rewrite bool_decide_true in Elh' by done.
  destruct (mock_recovers db bs be (State.uncachedState st) b meta a1 a2 m1 m2 r' h d st1' st3 appHash genDoc (be_app be')) as (hs & E & E'); try done; [by rewrite Ei', E2|].
  exists (State.uncachedState st), hs, (State.uncachedState (Store.withAppHash st3 appHash)). split; [done|]. split; [done|]. split; [done|]. subst st2. cbn in *. rewrite Eh1, Eh1', Elh, Elh'.
  split; [done|]. split; [done|]. split; [exact (eq_sym Hk3)|]. unfold add64. rewrite Hh, wrap64_small by (unfold_int64; lia). lia.
Qed.

(** An application that is behind cannot be replayed over a change of the
    number of validators.  [replayBlocks] executes every missing block with the
    last validators of the newest state, so the first missing block whose
    commit was made by another number of validators panics. *)
Theorem replay_old_block_panics (hs : Handshaker D D') a n hash b h c : InfoSync a = inr (n, hash) -> 0 < n < Store.bs_height (hs_store hs) -> Store.bs_height (hs_store hs) < MaxInt64 ->
  State.LastBlockHeight (hs_initialState hs) = Store.bs_height (hs_store hs) -> Store.LoadBlock (hs_store hs) (n + 1) = Ret (Some b) ->
  Block.b_Header b = Some h -> Block.Height h = n + 1 -> Block.b_Commit b = Some c -> zlen (c_Precommits c) <> zlen (ValidatorSet.Validators (State.LastValidators (hs_initialState hs))) ->
  exists why, Handshake InfoSync hs a = Panic why.
Proof.
  intros Ei Hn Hmax Es Eb Eh Ehh Ec Hne. unfold Handshake. rewrite Ei. rewrite (proj2 (Z.ltb_ge _ _)) by lia. unfold ReplayBlocks. rewrite (proj2 (Z.eqb_neq n 0)) by lia. cbn [mbind go_mbind]. rewrite Es.
  set (m := Store.bs_height (hs_store hs)) in *. replace (add64 m 1) with (m + 1) by (unfold add64; rewrite wrap64_small by (unfold_int64; lia); done).
  rewrite (proj2 (Z.eqb_neq m 0)), !(proj2 (Z.ltb_ge _ _)) by lia. rewrite Z.eqb_refl, (proj2 (Z.ltb_lt n m)) by lia. unfold replayBlocks.
  replace (Z.to_nat (m - n)) with (S (Z.to_nat (m - n - 1))) by lia. cbn [replayLoop]. rewrite Eb. cbn [mbind go_mbind]. unfold ExecCommitBlock, execBlockOnProxyApp, Block.hdr. cbn [deref mbind go_mbind]. rewrite Eh. cbn [deref mbind go_mbind].
  unfold NewABCIResponses. destruct (Block.NumTxs h <? 0); [by eexists|]. cbn [mbind go_mbind]. unfold getBeginBlockValidatorInfo. rewrite (proj2 (Z.ltb_lt 1 (Block.Height h))) by lia. rewrite Ec. cbn [deref mbind go_mbind].
  rewrite (proj2 (Z.eqb_neq _ _)) by done. by eexists.
Qed.
End App.
End Recovery.

(** ** Witnesses *)

Section Examples.
#[local] Existing Instance toyCodec.
#[local] Existing Instance toyCurves.
#[local] Existing Instance uvarintAmino.
#[local] Existing Instance Block.toyBlockCodec.
#[local] Existing Instance Block.toyDecoder.
#[local] Existing Instance State.toyValidatorCodec.
#[local] Existing Instance State.toyResultCodec.
#[local] Existing Instances DB.memDB DB.memDB_laws.
#[local] Existing Instances Store.State_countable Store.ValInfo_countable Store.ParamsInfo_countable Store.Responses_countable Store.Meta_countable Store.Part_countable.
#[local] Existing Instances Store.encSerial Store.encLaws Store.encInfo Store.commitSerial.

(** An application that counts its commits and names the validators [vals]. *)
Definition exApp (vals : list State.abciValidator) : Application Z := {|
  app_Info := fun n => (n, str "app");
  app_InitChain := fun n _ => Ret (n, ([], None));
  app_BeginBlock := fun n _ => Ret n;
  app_DeliverTx := fun n tx _ => Ret (n, State.mkDeliverTx 0 tx);
  app_DeliverBucketedTx := fun n _ _ _ => Ret n;
  app_EndBlock := fun n => Ret (n, None);
  app_GetValidatorSet := fun n _ => Ret (n, vals);
  app_Commit := fun n => Ret (n + 1, str "app") |}.
Definition exInfo (n : Z) : ConnError + (Z * bytes) := inr (n, str "app").

(** The state after a first block without transactions, and a second block
    with one. *)
Definition exResponses1 : State.ABCIResponses := State.mkResponses [] None [].
Definition exHeader1 : Block.Header := Block.mkHeader (str "chain") 1 0 0 zeroBlockID 0 None None [] [] [] [].
Definition exState1 : State.State := match State.updateState Store.exStart exampleBlock (Some exHeader1) exResponses1 with Ret (inr st) => st | _ => Store.exStart end.
Definition exSt : State.State := Store.withAppHash exState1 (str "app").
Definition exData : Block.Data := Block.mkData [Block.mkTxBucket (str "00") [str "tx"]].
Definition exHeader2 : Block.Header :=
  State.fillFromState exSt (Block.mkHeader [] 2 0 1 zeroBlockID 0 None (Block.Data_Hash (Some exData)) [] [] [] []).
Definition exCommit2 : Commit := mkCommit exampleBlock [Some (signedVote "A" 0 1 0 2 exampleBlock); None; Some (signedVote "C" 2 1 0 2 exampleBlock)].
Definition exBlock2 : Block.Block := Block.mkBlock (Some exHeader2) (Some exData) (Some exCommit2).

Lemma exState1_ok : State.updateState Store.exStart exampleBlock (Some exHeader1) exResponses1 = Ret (inr exState1).
Proof. unfold exState1. destruct (State.updateState _ _ _ _) as [[e|st]|p] eqn:E; [exfalso|reflexivity|exfalso]; vm_compute in E; discriminate. Qed.
Lemma exBlock2_valid : State.validateBlock exSt (Some exBlock2) = Ret None.
Proof. vm_compute. reflexivity. Qed.

Lemma exChain : exists db : DB.MemDB, Store.savedChain ∅ db exSt (<[2 := State.Validators exState1]> {[1 := exampleSet]}) (<[2 := State.Params exState1]> {[1 := Block.DefaultConsensusParams]}).
Proof.
  assert (H0 : Store.savedChain (∅ : DB.MemDB) (Store.SaveState ∅ Store.exStart) Store.exStart {[1 := exampleSet]} {[1 := Block.DefaultConsensusParams]}) by (by apply Store.chain_genesis; [..|apply exampleSet_sorted|apply Store.exStart_caches| | | ]).
  eexists. exact (Store.chain_block _ _ _ _ _ exampleBlock exHeader1 exResponses1 exState1 (str "app") H0 eq_refl eq_refl (Forall_nil_2 _) exState1_ok).
Qed.

(** The block is applied, and the state is the next one. *)
Definition exMeta : Block.BlockMeta := Block.mkBlockMeta exampleBlock (Some exHeader2).
Definition exResponses2 (vals : list State.abciValidator) : State.ABCIResponses := State.mkResponses [Some (State.mkDeliverTx 0 (str "tx"))] None vals.
Definition exState2 (vals : list State.abciValidator) : State.State := match State.updateState exSt exampleBlock (Some exHeader2) (exResponses2 vals) with Ret (inr st) => st | _ => exSt end.
Definition exNames : list State.abciValidator := [State.mkAbciValidator (str "A") (State.mkAbciPubKey [] []) 9].

Lemma exState2_ok vals : vals = [] \/ vals = exNames -> State.updateState exSt exampleBlock (Some exHeader2) (exResponses2 vals) = Ret (inr (exState2 vals)).
Proof. intros Hv. unfold exState2. destruct (State.updateState _ _ _ _) as [[e|st]|p] eqn:E; [exfalso|reflexivity|exfalso]; destruct Hv as [-> | ->]; vm_compute in E; discriminate. Qed.

(** The stored block: its encoding is a byte. *)
#[local] Instance exCodec : Store.StoreCodec := {|
  Store.UnmarshalBinaryBlock := fun bz => match bz with [b] => Some exBlock2 | _ => None end;
  Store.UnmarshalBinaryBucket := fun _ => None;
  Store.MarshalBinaryBareBucket := fun _ => [];
  Store.MarshalStoreState := fun s => enc (Store.bsj_Height s);
  Store.UnmarshalStoreState := fun bz => Store.mkStoreState <$> dec bz |}.
Lemma exStore : exists bs : Store.BlockStore DB.MemDB, Store.bs_height bs = 2 /\ Store.LoadBlock bs 2 = Ret (Some exBlock2) /\ Store.LoadBlockMeta bs 2 = Ret (Some exMeta).
Proof.
  set (part := PartSet.mkPart 0 [Z_byte 2] (Merkle.mkSimpleProof [])).
  exists (Store.mkBlockStore (<[Store.calcBlockPartKey 2 0 := marshal part]> (<[Store.calcBlockMetaKey 2 := marshal exMeta]> (∅ : DB.MemDB))) 2). split; [done|].
  match goal with |- Store.LoadBlock ?x _ = _ /\ _ => set (bs := x) end.
  assert (Em : Store.LoadBlockMeta bs 2 = Ret (Some exMeta)).
  { refine (Store.loadBare_some (D := DB.MemDB) _ bs _ _ exMeta Logic.I _ _); [|done]. cbn [DB.contents DB.memDB_laws Store.bs_db bs]. rewrite lookup_insert_ne by done. apply lookup_insert_eq. }
  assert (Ep : Store.LoadBlockPart bs 2 0 = Ret (Some part)).
  { refine (Store.loadBare_some (D := DB.MemDB) _ bs _ _ part Logic.I _ _); [|done]. cbn [DB.contents DB.memDB_laws Store.bs_db bs]. apply lookup_insert_eq. }
  assert (Hp : PartSet.Bytes part = [Z_byte 2]) by done. split; [|done]. clearbody bs part. unfold Store.LoadBlock. rewrite Em. cbn [mbind go_mbind exMeta Block.bm_BlockID exampleBlock bid_PartsHeader psh_Total].
  unfold go_for. change (seqZ 0 (1 - 0)) with [0]. cbn [go_fold]. rewrite Ep. cbn [deref mbind go_mbind app]. by rewrite Hp.
Qed.

Section Conn.
Context (vals : list State.abciValidator) (Hv : vals = [] \/ vals = exNames).
Definition exConn : AppConn Z := @localClient Z (exApp vals).
#[local] Existing Instance exConn.

Lemma exExec : execBlockOnProxyApp 1 (Some exBlock2) (State.LastValidators exSt) = Ret (1, inr (exResponses2 vals)).
Proof. vm_compute. reflexivity. Qed.

Lemma exSt_height : State.LastBlockHeight exSt = 1.
Proof. vm_compute. reflexivity. Qed.

Lemma exApplied : exists bs (be be' : BlockExecutor Z unit DB.MemDB) pts, applied exInfo ∅ bs State.exGenesis 1 be be' exSt exBlock2 exMeta pts (Store.withAppHash (exState2 vals) (str "app")) /\
  be_app be' = 2 /\ pts = points be 1 2 tt (exResponses2 vals) exHeader2 (Store.withAppHash (exState2 vals) (str "app")) /\ DB.db_wf (be_db be).
Proof.
  destruct exChain as [db Hc]. destruct exStore as (bs & Hb & Eb & Em). destruct (execution_inv _ _ _ _ _ exExec) as (h & d & Hx). pose proof Hx as [[= <-] [= <-] _].
  assert (Ha : application (mkExec db 1 tt) exSt exampleBlock exBlock2 1 2 tt tt (exResponses2 vals) exHeader2 exData (exState2 vals) (str "app")).
  { split; [exact exBlock2_valid|exact exExec|exact Hx|by apply exState2_ok|done|done|done]. }
  pose proof (ApplyBlock_intro _ _ _ _ _ _ _ _ _ _ _ _ _ Ha) as Ea. cbv zeta in Ea. exists bs, (mkExec db 1 tt), (mkExec (savedState db exHeader2 (exResponses2 vals) (Store.withAppHash (exState2 vals) (str "app"))) 2 tt). eexists.
  split; [|split; [reflexivity|split; [reflexivity|exact Logic.I]]].
  split; rewrite ?exSt_height; [eexists _, _; exact Hc|split; [discriminate|reflexivity]|exact Ea|exact Hb|exact Eb|exact Em|exists (str "app"); reflexivity|reflexivity|reflexivity].
Qed.
End Conn.

Lemma exResponses_load (db : DB.MemDB) vals : Store.LoadABCIResponses (savedResponses db exHeader2 (exResponses2 vals)) 2 = Ret (inr (exResponses2 vals)).
Proof. apply (responses_kept db exHeader2 (exResponses2 vals)); done. Qed.

Lemma exNonempty (r : State.ABCIResponses) : marshal r <> [].
Proof. done. Qed.

Section Quiet.
#[local] Instance exQuiet : AppConn Z := exConn [].

Lemma exec_delivers_all_witness : execBlockOnProxyApp 1 (Some exBlock2) (State.LastValidators exSt) = execReference 1 exBlock2 exHeader2 exData (State.LastValidators exSt).
Proof. apply exec_delivers_all; [done|done|done|vm_compute; reflexivity|vm_compute; discriminate|split; vm_compute; [discriminate|reflexivity]]. Defined.

Lemma apply_block_atomic_witness : exists (be be' : BlockExecutor Z unit DB.MemDB) pts st2, ApplyBlock be exSt exampleBlock (Some exBlock2) = Ret (pts, be', inr st2) /\
  Store.LoadState (be_db be') = Ret (Some (State.uncachedState st2)) /\ State.LastBlockHeight st2 = 2.
Proof.
  destruct (exApplied [] (or_introl eq_refl)) as (bs & be & be' & pts & Ha & _). destruct Ha as [(vals & params & Hc) _ E _ _ _ _ _ _].
  destruct (apply_block_atomic _ _ _ _ _ _ _ _ _ _ Hc eq_refl E) as (_ & El & Eh & _). exists be, be', pts, (Store.withAppHash (exState2 []) (str "app")). split; [exact E|]. split; [exact El|exact Eh].
Defined.

(** The mempool keeps a transaction that is not in the block. *)
Lemma commit_updates_mempool_witness : exists m, @Commit_ Z _ Mempool.Mempool (mempoolService (fun _ => 0)) unit (mkExec tt 1 Mempool.exM3) exHeader2 exData = Ret (mkExec tt 2 m, inr (str "app")) /\ Mempool.height m = 2.
Proof.
  assert (Ec : CommitSync 1 = Ret (2, inr (str "app"))) by reflexivity.
  destruct (commit_updates_mempool (fun _ => 0) (mkExec tt 1 Mempool.exM3) exHeader2 exData 2 Mempool.exPool (str "app")
    (proj1 (Mempool.runs_refines _ _ _ _ _ Mempool.exM3_runs)) (proj2 (Mempool.runs_refines _ _ _ _ _ Mempool.exM3_runs)) Ec) as (m & p & E & _ & _ & Hh & _). by exists m.
Defined.

(** A crash after the commit. *)
Lemma handshake_recovers_witness : exists bs (db : DB.MemDB) s hs st2, Store.LoadState db = Ret (Some s) /\ Handshake exInfo (NewHandshaker db s bs State.exGenesis) 2 = Ret (hs, 2, None) /\
  Store.LoadState (hs_stateDB hs) = Ret (Some (State.uncachedState st2)) /\ State.LastBlockHeight st2 = 2.
Proof.
  destruct (exApplied [] (or_introl eq_refl)) as (bs & be & be' & pts & Ha & Ea & -> & Hw). set (st2 := Store.withAppHash (exState2 []) (str "app")) in *.
  destruct (handshake_recovers exInfo exNonempty _ _ _ _ _ _ _ _ _ _ _ 2%nat _ _ Ha eq_refl) as (El2 & s & hs & El & Eh & Eq).
  { intros _ r Hr. cbn [be_db] in Hr. rewrite exSt_height, exResponses_load in Hr. by injection Hr as <-. }
  rewrite Ea in Eh. rewrite El2 in Eq. eexists bs, _, s, hs, st2. split; [exact El|]. split; [exact Eh|]. split; [exact Eq|]. vm_compute. reflexivity.
Defined.

(** Three validators signed, the newest state knows one. *)
Definition exLater : State.State := State.mkState (str "chain") 2 0 exampleBlock 0 exampleSet (mkValidatorSet [exampleVal "A" 5] None 0) 1 Block.DefaultConsensusParams 1 [] (str "app").
Lemma replay_old_block_panics_witness : exists bs why, Handshake exInfo (NewHandshaker (∅ : DB.MemDB) exLater bs State.exGenesis) 1 = Panic why.
Proof.
  destruct exStore as (bs & Hb & Eb & _). exists bs. assert (Hn : 0 < 1 < Store.bs_height bs) by (rewrite Hb; lia). assert (Hm : Store.bs_height bs < MaxInt64) by (rewrite Hb; reflexivity).
  apply (replay_old_block_panics exInfo (NewHandshaker (∅ : DB.MemDB) exLater bs State.exGenesis) 1 1 (str "app") exBlock2 exHeader2 exCommit2 eq_refl Hn Hm (eq_sym Hb) Eb eq_refl eq_refl eq_refl). discriminate.
Defined.
End Quiet.

Section Naming.
#[local] Instance exNaming : AppConn Z := exConn exNames.

(** The application raised the power of a validator. *)
Lemma mock_replay_loses_validators_witness : exists bs (db : DB.MemDB) s hs st3, Store.LoadState db = Ret (Some s) /\ Handshake exInfo (NewHandshaker db s bs State.exGenesis) 2 = Ret (hs, 2, None) /\ Store.LoadState (hs_stateDB hs) = Ret (Some st3) /\
  State.LastHeightValidatorsChanged st3 < 3.
Proof.
  destruct (exApplied exNames (or_intror eq_refl)) as (bs & be & be' & pts & Ha & Ea & -> & Hw).
  destruct (mock_replay_loses_validators exInfo exNonempty _ _ _ _ _ _ _ _ _ _ _ _ _ _ Ha eq_refl (exResponses_load _ _) ltac:(done) ltac:(vm_compute; discriminate)) as (s & hs & st3 & Es & Eh & El & _ & _ & _ & Hlt).
  rewrite Ea in Eh. exists bs, (savedResponses (be_db be) exHeader2 (exResponses2 exNames)), s, hs, st3. split; [exact Es|]. split; [exact Eh|]. split; [exact El|]. eapply Z.lt_le_trans; [exact Hlt|]. vm_compute. discriminate.
Defined.
End Naming.
End Examples.
End Execution.
