(* ===== verification/Consensus.v ===== *)
(** * consensus/state.go, consensus/types/round_state.go

    The consensus state machine: what the receive routine does with each
    proposal, block part, vote, timeout and notice of transactions.

    A function of the source that changes the state is a computation [M] that
    reads and writes the state [CS] and may panic.  A panic ends the receive
    routine for good, so what deferred calls do while one unwinds is not
    modelled.  Pointers to part sets are references into the store
    [cs_parts], as the proposal, the locked and the valid part set may be one
    object.  A block that is locked or valid was hashed before, so that its
    header is filled in; [filled] tracks this side effect on the proposal
    block.  Decoding a proposal block is taken to allocate a new one.  What a
    step writes, sends, publishes and schedules is appended to the log
    [cs_effects]; the services that a step calls are the class [Services]. *)

From S2P Require Import Prelude Sha256 Crypto Merkle Types ValidatorSet VoteSet HeightVoteSet PartSet Block State.
Import Crypto Types ValidatorSet.

Module Consensus.

(** ** config/config.go *)

Record ConsensusConfig := mkConfig {
  TimeoutPropose : Z;
  TimeoutProposeDelta : Z;
  TimeoutPrevote : Z;
  TimeoutPrevoteDelta : Z;
  TimeoutPrecommit : Z;
  TimeoutPrecommitDelta : Z;
  TimeoutCommit : Z;
  SkipTimeoutCommit : bool;
  CreateEmptyBlocks : bool;
  CreateEmptyBlocksInterval : Z }.

Definition millisecond : Z := 1000000.
Definition second : Z := 1000000000.

Definition WaitForTxs (c : ConsensusConfig) : bool := negb (CreateEmptyBlocks c) || (0 <? CreateEmptyBlocksInterval c).
Definition EmptyBlocksInterval (c : ConsensusConfig) : Z := mul64 (CreateEmptyBlocksInterval c) second.
Definition Propose (c : ConsensusConfig) (round : Z) : Z :=
  mul64 (add64 (TimeoutPropose c) (mul64 (TimeoutProposeDelta c) round)) millisecond.
Definition Prevote (c : ConsensusConfig) (round : Z) : Z :=
  mul64 (add64 (TimeoutPrevote c) (mul64 (TimeoutPrevoteDelta c) round)) millisecond.
Definition Precommit (c : ConsensusConfig) (round : Z) : Z :=
  mul64 (add64 (TimeoutPrecommit c) (mul64 (TimeoutPrecommitDelta c) round)) millisecond.
Definition CommitAt (c : ConsensusConfig) (t : Time) : Time := t + mul64 (TimeoutCommit c) millisecond.

(** ** consensus/types/round_state.go *)

Definition RoundStepNewHeight : Z := 1.
Definition RoundStepNewRound : Z := 2.
Definition RoundStepPropose : Z := 3.
Definition RoundStepPrevote : Z := 4.
Definition RoundStepPrevoteWait : Z := 5.
Definition RoundStepPrecommit : Z := 6.
Definition RoundStepPrecommitWait : Z := 7.
Definition RoundStepCommit : Z := 8.

(** [None] is nil; a part set is an index into the store. *)
Record RoundState := mkRoundState {
  Height : Z;
  Round : Z;
  Step : Z;
  StartTime : Time;
  CommitTime : Time;
  Validators : option ValidatorSet;
  Proposal_ : option Proposal;
  ProposalBlock : option Block.Block;
  ProposalBlockParts : option nat;
  LockedRound : Z;
  LockedBlock : option Block.Block;
  LockedBlockParts : option nat;
  ValidRound : Z;
  ValidBlock : option Block.Block;
  ValidBlockParts : option nat;
  Votes : option HeightVoteSet.HeightVoteSet;
  CommitRound : Z;
  LastCommit : option VoteSet.VoteSet;
  LastValidators : option ValidatorSet }.

Definition zeroRoundState : RoundState :=
  mkRoundState 0 0 0 State.zeroTime State.zeroTime None None None None 0 None None 0 None None None 0 None None.

Definition setRoundStep (r : Z) (s : Z) (rs : RoundState) : RoundState :=
  mkRoundState (Height rs) r s (StartTime rs) (CommitTime rs) (Validators rs) (Proposal_ rs) (ProposalBlock rs)
    (ProposalBlockParts rs) (LockedRound rs) (LockedBlock rs) (LockedBlockParts rs) (ValidRound rs)
    (ValidBlock rs) (ValidBlockParts rs) (Votes rs) (CommitRound rs) (LastCommit rs) (LastValidators rs).

Definition setValidators (v : option ValidatorSet) (rs : RoundState) : RoundState :=
  mkRoundState (Height rs) (Round rs) (Step rs) (StartTime rs) (CommitTime rs) v (Proposal_ rs) (ProposalBlock rs)
    (ProposalBlockParts rs) (LockedRound rs) (LockedBlock rs) (LockedBlockParts rs) (ValidRound rs)
    (ValidBlock rs) (ValidBlockParts rs) (Votes rs) (CommitRound rs) (LastCommit rs) (LastValidators rs).

Definition setProposal (p : option Proposal) (b : option Block.Block) (ps : option nat) (rs : RoundState) : RoundState :=
  mkRoundState (Height rs) (Round rs) (Step rs) (StartTime rs) (CommitTime rs) (Validators rs) p b ps (LockedRound rs)
    (LockedBlock rs) (LockedBlockParts rs) (ValidRound rs) (ValidBlock rs) (ValidBlockParts rs) (Votes rs)
    (CommitRound rs) (LastCommit rs) (LastValidators rs).

Definition setLocked (r : Z) (b : option Block.Block) (ps : option nat) (rs : RoundState) : RoundState :=
  mkRoundState (Height rs) (Round rs) (Step rs) (StartTime rs) (CommitTime rs) (Validators rs) (Proposal_ rs)
    (ProposalBlock rs) (ProposalBlockParts rs) r b ps (ValidRound rs) (ValidBlock rs) (ValidBlockParts rs)
    (Votes rs) (CommitRound rs) (LastCommit rs) (LastValidators rs).

Definition setValid (r : Z) (b : option Block.Block) (ps : option nat) (rs : RoundState) : RoundState :=
  mkRoundState (Height rs) (Round rs) (Step rs) (StartTime rs) (CommitTime rs) (Validators rs) (Proposal_ rs)
    (ProposalBlock rs) (ProposalBlockParts rs) (LockedRound rs) (LockedBlock rs) (LockedBlockParts rs) r b ps
    (Votes rs) (CommitRound rs) (LastCommit rs) (LastValidators rs).

Definition setVotes (v : option HeightVoteSet.HeightVoteSet) (rs : RoundState) : RoundState :=
  mkRoundState (Height rs) (Round rs) (Step rs) (StartTime rs) (CommitTime rs) (Validators rs) (Proposal_ rs)
    (ProposalBlock rs) (ProposalBlockParts rs) (LockedRound rs) (LockedBlock rs) (LockedBlockParts rs)
    (ValidRound rs) (ValidBlock rs) (ValidBlockParts rs) v (CommitRound rs) (LastCommit rs) (LastValidators
    rs).

Definition setCommit (r : Z) (t : Time) (rs : RoundState) : RoundState :=
  mkRoundState (Height rs) (Round rs) (Step rs) (StartTime rs) t (Validators rs) (Proposal_ rs) (ProposalBlock rs)
    (ProposalBlockParts rs) (LockedRound rs) (LockedBlock rs) (LockedBlockParts rs) (ValidRound rs)
    (ValidBlock rs) (ValidBlockParts rs) (Votes rs) r (LastCommit rs) (LastValidators rs).

Definition setLastCommit (v : option VoteSet.VoteSet) (rs : RoundState) : RoundState :=
  mkRoundState (Height rs) (Round rs) (Step rs) (StartTime rs) (CommitTime rs) (Validators rs) (Proposal_ rs)
    (ProposalBlock rs) (ProposalBlockParts rs) (LockedRound rs) (LockedBlock rs) (LockedBlockParts rs)
    (ValidRound rs) (ValidBlock rs) (ValidBlockParts rs) (Votes rs) (CommitRound rs) v (LastValidators rs).

(** ** Messages, timeouts and effects *)

Inductive Msg :=
| ProposalMessage (p : option Proposal)
| BlockPartMessage (height round : Z) (part : option PartSet.Part)
| VoteMessage (v : option Vote).

Record timeoutInfo := mkTimeoutInfo { ti_Duration : Z; ti_Height : Z; ti_Round : Z; ti_Step : Z }.

Inductive WalEntry :=
| WalStep (height round step : Z)
| WalMsg (m : Msg) (peer : bytes)
| WalTimeout (ti : timeoutInfo)
| WalEndHeight (height : Z).

Inductive Event :=
| EventNewRoundStep | EventNewRound | EventCompleteProposal | EventPolka | EventUnlock | EventLock | EventRelock
| EventTimeoutPropose | EventTimeoutWait | EventVote (v : Vote).

Inductive Effect :=
| EffTimeout (ti : timeoutInfo)
| EffInternal (m : Msg)
| EffWal (e : WalEntry)
| EffEvent (e : Event)
| EffHeartbeat (height round : Z)
| EffSaved (b : option Block.Block) (parts : option PartSet.PartSet) (seenCommit : Commit)
| EffAlreadyStored (height : Z)
| EffApplied (st : State.State) (blockID : BlockID) (b : option Block.Block)
| EffKilled
(** The votes of a height, when [updateToState] drops them: not an output of
    the program, but what the theorems about earlier heights refer to. *)
| EffVotes (height : Z) (votes : option HeightVoteSet.HeightVoteSet).

(** ** The services *)

(** [World] is the state of the services: clock, signer, stores, application
    and mempool.  [privAddress] is [None] when there is no private
    validator. *)
Class Services := {
  World : Type;
  timeNow : World -> Time * World;
  privAddress : option bytes;
  privSignVote : World -> bytes -> Vote -> option Vote * World;
  privSignProposal : World -> bytes -> Proposal -> option Proposal * World;
  storeHeight : World -> Z;
  storeMeta : World -> Z -> option Block.BlockMeta;
  storeSeenCommit : World -> Z -> option Commit;
  storeSave : World -> option Block.Block -> option PartSet.PartSet -> Commit -> go World;
  applyBlock : World -> State.State -> BlockID -> option Block.Block -> go (option State.State * World);
  reap : World -> Z -> list Block.Tx;
  accounts : World -> Z -> go (option (list State.abciValidator) * World);
  marshalUTXO : bytes -> Z -> Block.Tx;
  config : ConsensusConfig }.

Section Machine.
Context `{Codec} `{Curves} `{Amino} `{ValidatorCodec} `{Block.BlockCodec} `{Block.TxDecoder}.
Context {Svc : Services}.

Record CS := mkCS {
  cs_rs : RoundState;
  cs_state : option State.State;
  cs_parts : list PartSet.PartSet;
  cs_world : World;
  cs_effects : list Effect }.

(** ** Computations *)

Definition M (A : Type) : Type := CS -> go (A * CS).
#[export] Instance M_ret : MRet M := fun A a cs => Ret (a, cs).
#[export] Instance M_bind : MBind M := fun A B f m cs =>
  match m cs with Ret (a, cs') => f a cs' | Panic p => Panic p end.

Definition lift {A} (m : go A) : M A := fun cs => match m with Ret a => Ret (a, cs) | Panic p => Panic p end.
Definition panic_ {A} (p : panic) : M A := fun _ => Panic p.
Definition getCS : M CS := fun cs => Ret (cs, cs).
Definition getRS : M RoundState := fun cs => Ret (cs_rs cs, cs).
Definition modRS (f : RoundState -> RoundState) : M unit := fun cs =>
  Ret (tt, mkCS (f (cs_rs cs)) (cs_state cs) (cs_parts cs) (cs_world cs) (cs_effects cs)).
Definition putState (st : State.State) : M unit := fun cs =>
  Ret (tt, mkCS (cs_rs cs) (Some st) (cs_parts cs) (cs_world cs) (cs_effects cs)).
Definition putParts (ps : list PartSet.PartSet) : M unit := fun cs =>
  Ret (tt, mkCS (cs_rs cs) (cs_state cs) ps (cs_world cs) (cs_effects cs)).
Definition putWorld (w : World) : M unit := fun cs =>
  Ret (tt, mkCS (cs_rs cs) (cs_state cs) (cs_parts cs) w (cs_effects cs)).
Definition emit (e : Effect) : M unit := fun cs =>
  Ret (tt, mkCS (cs_rs cs) (cs_state cs) (cs_parts cs) (cs_world cs) (cs_effects cs ++ [e])).
Definition getState : M State.State := fun cs => match cs_state cs with Some st => Ret (st, cs) | None => Panic NilDeref end.
Definition whenM (b : bool) (m : M unit) : M unit := if b then m else mret tt.

(** A call of a service that returns a value and changes the world. *)
Definition call {A} (f : World -> A * World) : M A := fun cs =>
  let '(a, w) := f (cs_world cs) in
  Ret (a, mkCS (cs_rs cs) (cs_state cs) (cs_parts cs) w (cs_effects cs)).
(** The same of one that may panic. *)
Definition callGo {A} (f : World -> go (A * World)) : M A := fun cs =>
  match f (cs_world cs) with
  | Ret (a, w) => Ret (a, mkCS (cs_rs cs) (cs_state cs) (cs_parts cs) w (cs_effects cs))
  | Panic p => Panic p
  end.
Definition ask {A} (f : World -> A) : M A := fun cs => Ret (f (cs_world cs), cs).

(** ** Part sets behind pointers *)

(** [None] is a nil pointer; references are never dangling. *)
Definition loadParts (p : option nat) : M (option PartSet.PartSet) := fun cs =>
  match p with None => Ret (None, cs) | Some i => Ret (cs_parts cs !! i, cs) end.
Definition newParts (ps : PartSet.PartSet) : M (option nat) := fun cs =>
  Ret (Some (length (cs_parts cs)), mkCS (cs_rs cs) (cs_state cs) (cs_parts cs ++ [ps]) (cs_world cs) (cs_effects cs)).
Definition storeParts (p : option nat) (ps : PartSet.PartSet) : M unit := fun cs =>
  match p with
  | None => Panic NilDeref
  | Some i => Ret (tt, mkCS (cs_rs cs) (cs_state cs) (<[i := ps]> (cs_parts cs)) (cs_world cs) (cs_effects cs))
  end.

(** ** Managing the state *)

Definition updateRoundStep (round step : Z) : M unit := modRS (setRoundStep round step).

Definition scheduleTimeout (duration height round step : Z) : M unit :=
  emit (EffTimeout (mkTimeoutInfo duration height round step)).

(** [rs.StartTime.Sub(time.Now())] saturates. *)
Definition scheduleRound0 : M unit :=
  now ← call timeNow;
  rs ← getRS;
  scheduleTimeout (clip64 (StartTime rs - now)) (Height rs) 0 RoundStepNewHeight.

Definition sendInternalMessage (m : Msg) : M unit := emit (EffInternal m).

Definition newStep : M unit :=
  rs ← getRS;
  emit (EffWal (WalStep (Height rs) (Round rs) (Step rs)));;
  emit (EffEvent EventNewRoundStep).

Definition getVotes : M HeightVoteSet.HeightVoteSet := rs ← getRS; lift (deref (Votes rs)).
Definition prevotesAt (round : Z) : M (option VoteSet.VoteSet) := v ← getVotes; lift (HeightVoteSet.Prevotes v round).
Definition precommitsAt (round : Z) : M (option VoteSet.VoteSet) := v ← getVotes; lift (HeightVoteSet.Precommits v round).
Definition getValidators : M ValidatorSet := rs ← getRS; lift (deref (Validators rs)).

(** [cs.ProposalBlock.Hash()] fills in the header of the block. *)
Definition fillProposal : M unit :=
  modRS (fun rs => setProposal (Proposal_ rs) (option_map Block.filled (ProposalBlock rs)) (ProposalBlockParts rs) rs).
Definition proposalHashesTo (hash : bytes) : M bool :=
  if zlen hash =? 0 then mret false
  else
    fillProposal;;
    rs ← getRS;
    mret (Block.HashesTo (ProposalBlock rs) hash).

Definition validateProposal : M (option State.ValidateError) :=
  st ← getState;
  rs ← getRS;
  lift (State.validateBlock st (ProposalBlock rs)).

(** ** Votes *)

Definition signVote (type_ : Z) (hash : bytes) (header : PartSetHeader) : M (option Vote) :=
  addr ← lift (deref privAddress);
  vals ← getValidators;
  r ← lift (GetByAddress vals addr);
  now ← call timeNow;
  rs ← getRS;
  st ← getState;
  let vote := mkVote addr r.1 (Height rs) (Round rs) now type_ (mkBlockID hash header) None in
  call (fun w => privSignVote w (State.ChainID st) vote).

Definition signAddVote (type_ : Z) (hash : bytes) (header : PartSetHeader) : M unit :=
  match privAddress with
  | None => mret tt
  | Some addr =>
      vals ← getValidators;
      has ← lift (HasAddress vals addr);
      if negb has then mret tt
      else
        vote ← signVote type_ hash header;
        match vote with
        | Some v => sendInternalMessage (VoteMessage (Some v))
        | None => mret tt
        end
  end.

(** ** Proposals *)

Definition isProposalComplete : M bool :=
  rs ← getRS;
  match Proposal_ rs, ProposalBlock rs with
  | Some proposal, Some _ =>
      if p_POLRound proposal <? 0 then mret true
      else
        prevotes ← prevotesAt (p_POLRound proposal);
        mret (VoteSet.HasTwoThirdsMajority prevotes)
  | _, _ => mret false
  end.

Definition isProposer : M bool :=
  vals ← getValidators;
  p ← lift (deref (GetProposer vals).2);
  addr ← lift (deref privAddress);
  mret (bytes_eqb (val_Address p) addr).

(** The commit of the previous block, or nothing to propose. *)
Definition lastCommitForProposal : M (option Commit) :=
  rs ← getRS;
  if Height rs =? 1 then mret (Some (mkCommit zeroBlockID []))
  else if VoteSet.HasTwoThirdsMajority (LastCommit rs) then
    lc ← lift (deref (LastCommit rs));
    c ← lift (VoteSet.MakeCommit lc);
    mret (Some c)
  else mret None.

Definition createProposalBlock : M (option (Block.Block * option PartSet.PartSet)) :=
  commit ← lastCommitForProposal;
  match commit with
  | None => mret None
  | Some commit =>
      rs ← getRS;
      st ← getState;
      txs ← (if (Z.rem (Height rs) 100 =? 1) && (1 <? Height rs) then
               res ← callGo (fun w => accounts w (mul64 (-1) (Height rs)));
               balances ← lift (deref res);
               mret ((fun bal => marshalUTXO (State.av_Address bal) (uwrap64 (State.av_Power bal))) <$> balances)
             else ask (fun w => reap w (Block.BlockSize_MaxTxs (State.Params st))));
      now ← call timeNow;
      r ← lift (State.MakeBlock st now (Height rs) txs (Some commit));
      mret (Some r)
  end.

(** One block part message for each part. *)
Fixpoint sendParts (ps : PartSet.PartSet) (i : Z) (n : nat) : M unit :=
  match n with
  | O => mret tt
  | S n =>
      part ← lift (PartSet.GetPart ps i);
      rs ← getRS;
      sendInternalMessage (BlockPartMessage (Height rs) (Round rs) part);;
      sendParts ps (i + 1) n
  end.

Definition proposeBlock (height round : Z) (blockParts : option PartSet.PartSet) : M unit :=
  votes ← getVotes;
  pol ← lift (HeightVoteSet.POLInfo votes);
  now ← call timeNow;
  st ← getState;
  let proposal := NewProposal now height round (PartSet.Header blockParts) pol.1 pol.2 in
  signed ← call (fun w => privSignProposal w (State.ChainID st) proposal);
  match signed with
  | None => mret tt
  | Some proposal =>
      sendInternalMessage (ProposalMessage (Some proposal));;
      match blockParts with
      | None => mret tt
      | Some ps => sendParts ps 0 (Z.to_nat (PartSet.ps_total ps))
      end
  end.

Definition defaultDecideProposal (height round : Z) : M unit :=
  rs ← getRS;
  match LockedBlock rs, ValidBlock rs with
  | Some _, _ => ps ← loadParts (LockedBlockParts rs); proposeBlock height round ps
  | None, Some _ => ps ← loadParts (ValidBlockParts rs); proposeBlock height round ps
  | None, None =>
      r ← createProposalBlock;
      match r with
      | None => mret tt
      | Some (_, ps) => proposeBlock height round ps
      end
  end.

(** ** Prevote *)

Definition defaultDoPrevote : M unit :=
  rs ← getRS;
  match LockedBlock rs with
  | Some b =>
      ps ← loadParts (LockedBlockParts rs);
      signAddVote VoteTypePrevote (Block.Hash (Some b)) (PartSet.Header ps)
  | None =>
      match ProposalBlock rs with
      | None => signAddVote VoteTypePrevote [] zeroPartSetHeader
      | Some _ =>
          err ← validateProposal;
          match err with
          | Some _ => signAddVote VoteTypePrevote [] zeroPartSetHeader
          | None =>
              fillProposal;;
              rs ← getRS;
              ps ← loadParts (ProposalBlockParts rs);
              signAddVote VoteTypePrevote (Block.Hash (ProposalBlock rs)) (PartSet.Header ps)
          end
      end
  end.

(** The guard that the steps of a round share: [true] when there is nothing to
    do, as the machine is at another height or already past [step]. *)
Definition pastStep (rs : RoundState) (height round step : Z) : bool :=
  negb (Height rs =? height) || (round <? Round rs) || ((Round rs =? round) && (step <=? Step rs)).

Definition enterPrevote (height round : Z) : M unit :=
  rs ← getRS;
  if pastStep rs height round RoundStepPrevote then mret tt
  else
    complete ← isProposalComplete;
    whenM complete (emit (EffEvent EventCompleteProposal));;
    defaultDoPrevote;;
    updateRoundStep round RoundStepPrevote;;
    newStep.

Definition enterPrevoteWait (height round : Z) : M unit :=
  rs ← getRS;
  if pastStep rs height round RoundStepPrevoteWait then mret tt
  else
    prevotes ← prevotesAt round;
    if negb (VoteSet.HasTwoThirdsAny prevotes)
    then panic_ (PanicSanity "enterPrevoteWait, but Prevotes does not have any +2/3 votes")
    else
      scheduleTimeout (Prevote config round) height round RoundStepPrevoteWait;;
      updateRoundStep round RoundStepPrevoteWait;;
      newStep.

(** ** Propose *)

Definition enterPropose (height round : Z) : M unit :=
  rs ← getRS;
  if pastStep rs height round RoundStepPropose then mret tt
  else
    scheduleTimeout (Propose config round) height round RoundStepPropose;;
    match privAddress with
    | None => mret tt
    | Some addr =>
        vals ← getValidators;
        has ← lift (HasAddress vals addr);
        if negb has then mret tt
        else
          proposer ← isProposer;
          whenM proposer (defaultDecideProposal height round)
    end;;
    updateRoundStep round RoundStepPropose;;
    newStep;;
    complete ← isProposalComplete;
    rs ← getRS;
    whenM complete (enterPrevote height (Round rs)).

(** ** NewRound *)

Definition needProofBlock (height : Z) : M bool :=
  if height =? 1 then mret true
  else
    meta ← ask (fun w => storeMeta w (sub64 height 1));
    meta ← lift (deref meta);
    h ← lift (deref (Block.bm_Header meta));
    st ← getState;
    mret (negb (bytes_eqb (State.AppHash st) (Block.AppHash h))).

Definition enterNewRound (height round : Z) : M unit :=
  rs ← getRS;
  if negb (Height rs =? height) || (round <? Round rs) || ((Round rs =? round) && negb (Step rs =? RoundStepNewHeight))
  then mret tt
  else
    now ← call timeNow;
    vals ← getValidators;
    vals ← (if Round rs <? round then lift (IncrementAccum vals (sub64 round (Round rs))) else mret vals);
    updateRoundStep round RoundStepNewRound;;
    modRS (setValidators (Some vals));;
    whenM (negb (round =? 0)) (modRS (setProposal None None None));;
    votes ← getVotes;
    votes ← lift (HeightVoteSet.SetRound votes (add64 round 1));
    modRS (setVotes (Some votes));;
    emit (EffEvent EventNewRound);;
    needProof ← (if WaitForTxs config && (round =? 0) then needProofBlock height else mret true);
    let waitForTxs := WaitForTxs config && (round =? 0) && negb needProof in
    if waitForTxs then
      whenM (0 <? CreateEmptyBlocksInterval config)
        (scheduleTimeout (EmptyBlocksInterval config) height round RoundStepNewRound);;
      emit (EffHeartbeat height round)
    else enterPropose height round.

(** ** Precommit *)

(** The tail of [enterPrecommit] when two thirds prevoted for [blockID]. *)
Definition precommitBlock (round : Z) (blockID : BlockID) : M unit :=
  rs ← getRS;
  if Block.HashesTo (LockedBlock rs) (bid_Hash blockID) then
    modRS (setLocked round (LockedBlock rs) (LockedBlockParts rs));;
    emit (EffEvent EventRelock);;
    signAddVote VoteTypePrecommit (bid_Hash blockID) (bid_PartsHeader blockID)
  else
    proposed ← proposalHashesTo (bid_Hash blockID);
    if proposed : bool then
      err ← validateProposal;
      match err with
      | Some _ => panic_ (PanicConsensus "enterPrecommit: +2/3 prevoted for an invalid block")
      | None =>
          rs ← getRS;
          modRS (setLocked round (ProposalBlock rs) (ProposalBlockParts rs));;
          emit (EffEvent EventLock);;
          signAddVote VoteTypePrecommit (bid_Hash blockID) (bid_PartsHeader blockID)
      end
    else
      modRS (setLocked 0 None None);;
      rs ← getRS;
      ps ← loadParts (ProposalBlockParts rs);
      (if negb (PartSet.HasHeader ps (bid_PartsHeader blockID)) then
         ps ← lift (PartSet.NewPartSetFromHeader (bid_PartsHeader blockID));
         p ← newParts ps;
         modRS (setProposal (Proposal_ rs) None p)
       else mret tt);;
      emit (EffEvent EventUnlock);;
      signAddVote VoteTypePrecommit [] zeroPartSetHeader.

Definition doPrecommit (round : Z) : M unit :=
  prevotes ← prevotesAt round;
  match VoteSet.TwoThirdsMajority prevotes with
  | (_, false) => signAddVote VoteTypePrecommit [] zeroPartSetHeader
  | (blockID, true) =>
      emit (EffEvent EventPolka);;
      votes ← getVotes;
      pol ← lift (HeightVoteSet.POLInfo votes);
      if pol.1 <? round then panic_ (PanicSanity "This POLRound should be the round")
      else if zlen (bid_Hash blockID) =? 0 then
        rs ← getRS;
        match LockedBlock rs with
        | None => mret tt
        | Some _ => modRS (setLocked 0 None None);; emit (EffEvent EventUnlock)
        end;;
        signAddVote VoteTypePrecommit [] zeroPartSetHeader
      else precommitBlock round blockID
  end.

Definition enterPrecommit (height round : Z) : M unit :=
  rs ← getRS;
  if pastStep rs height round RoundStepPrecommit then mret tt
  else
    doPrecommit round;;
    updateRoundStep round RoundStepPrecommit;;
    newStep.

Definition enterPrecommitWait (height round : Z) : M unit :=
  rs ← getRS;
  if pastStep rs height round RoundStepPrecommitWait then mret tt
  else
    precommits ← precommitsAt round;
    if negb (VoteSet.HasTwoThirdsAny precommits)
    then panic_ (PanicSanity "enterPrecommitWait, but Precommits does not have any +2/3 votes")
    else
      scheduleTimeout (Precommit config round) height round RoundStepPrecommitWait;;
      updateRoundStep round RoundStepPrecommitWait;;
      newStep.

(** ** Commit *)

(** [state] is not ahead of [cs.state], which is not empty. *)
Definition notAhead (cur : option State.State) (st : State.State) : bool :=
  match cur with None => false | Some c => State.LastBlockHeight st <=? State.LastBlockHeight c end.

(** The precommits that decided the height just finished. *)
Definition lastPrecommits : M (option VoteSet.VoteSet) :=
  rs ← getRS;
  match Votes rs with
  | Some votes =>
      if -1 <? CommitRound rs then
        precommits ← lift (HeightVoteSet.Precommits votes (CommitRound rs));
        if negb (VoteSet.HasTwoThirdsMajority precommits)
        then panic_ (PanicSanity "updateToState(state) called but last Precommit round didn't have +2/3")
        else mret precommits
      else mret None
  | None => mret None
  end.

Definition updateToState (st : State.State) : M unit :=
  cs ← getCS;
  let rs := cs_rs cs in
  if (-1 <? CommitRound rs) && (0 <? Height rs) && negb (Height rs =? State.LastBlockHeight st)
  then panic_ (PanicSanity "updateToState() expected another state height")
  else if match cs_state cs with None => false | Some c => negb (add64 (State.LastBlockHeight c) 1 =? Height rs) end
  then panic_ (PanicSanity "Inconsistent cs.state.LastBlockHeight+1 vs cs.Height")
  else if notAhead (cs_state cs) st then newStep
  else
    last ← lastPrecommits;
    let height := add64 (State.LastBlockHeight st) 1 in
    startTime ← (if CommitTime rs =? State.zeroTime then now ← call timeNow; mret (CommitAt config now)
                 else mret (CommitAt config (CommitTime rs)));
    votes ← lift (HeightVoteSet.NewHeightVoteSet (State.ChainID st) height (State.Validators st));
    emit (EffVotes (Height rs) (Votes rs));;
    modRS (fun rs => mkRoundState height 0 RoundStepNewHeight startTime (CommitTime rs) (Some (State.Validators st))
      None None None 0 None None 0 None None (Some votes) (-1) last (Some (State.LastValidators st)));;
    putState st;;
    newStep.

(** What [recordMetrics] reads; the metrics themselves are left out. *)
Definition recordMetrics (height : Z) (b : Block.Block) : M unit :=
  _ ← lift (deref (Block.b_Commit b));
  if 1 <? height then
    meta ← ask (fun w => storeMeta w (sub64 height 1));
    meta ← lift (deref meta);
    _ ← lift (deref (Block.bm_Header meta));
    mret tt
  else mret tt.

(** [cs.blockStore.SaveBlock], unless the store has the block. *)
Definition saveBlock (b : option Block.Block) (parts : option PartSet.PartSet) (height : Z) : M unit :=
  stored ← ask storeHeight;
  if stored <? height then
    rs ← getRS;
    precommits ← precommitsAt (CommitRound rs);
    precommits ← lift (deref precommits);
    seenCommit ← lift (VoteSet.MakeCommit precommits);
    emit (EffSaved b parts seenCommit);;
    callGo (fun w => w ← storeSave w b parts seenCommit; Ret (tt, w))
  else emit (EffAlreadyStored height).

Definition finalizeCommit (height : Z) : M unit :=
  rs ← getRS;
  if negb (Height rs =? height) || negb (Step rs =? RoundStepCommit) then mret tt
  else
    precommits ← precommitsAt (CommitRound rs);
    parts ← loadParts (ProposalBlockParts rs);
    match VoteSet.TwoThirdsMajority precommits with
    | (_, false) => panic_ (PanicSanity "Cannot finalizeCommit, commit does not have two thirds majority")
    | (blockID, true) =>
        if negb (PartSet.HasHeader parts (bid_PartsHeader blockID))
        then panic_ (PanicSanity "Expected ProposalBlockParts header to be commit header")
        else
          hashes ← proposalHashesTo (bid_Hash blockID);
          if negb hashes then panic_ (PanicSanity "Cannot finalizeCommit, ProposalBlock does not hash to commit hash")
          else
            err ← validateProposal;
            match err with
            | Some _ => panic_ (PanicConsensus "+2/3 committed an invalid block")
            | None =>
                rs ← getRS;
                b ← lift (deref (ProposalBlock rs));
                h ← lift (deref (Block.b_Header b));
                saveBlock (Some b) parts (Block.Height h);;
                emit (EffWal (WalEndHeight height));;
                st ← getState;
                let id := mkBlockID (Block.Hash (Some b)) (PartSet.Header parts) in
                emit (EffApplied st id (Some b));;
                res ← callGo (fun w => applyBlock w st id (Some b));
                match res with
                | None => emit EffKilled
                | Some st' =>
                    recordMetrics height b;;
                    updateToState st';;
                    scheduleRound0
                end
            end
    end.

Definition tryFinalizeCommit (height : Z) : M unit :=
  rs ← getRS;
  if negb (Height rs =? height) then panic_ (PanicSanity "tryFinalizeCommit() cs.Height vs height")
  else
    precommits ← precommitsAt (CommitRound rs);
    let '(blockID, ok) := VoteSet.TwoThirdsMajority precommits in
    if negb ok || (zlen (bid_Hash blockID) =? 0) then mret tt
    else
      hashes ← proposalHashesTo (bid_Hash blockID);
      if negb hashes then mret tt else finalizeCommit height.

Definition enterCommit (height commitRound : Z) : M unit :=
  rs ← getRS;
  if negb (Height rs =? height) || (RoundStepCommit <=? Step rs) then mret tt
  else
    precommits ← precommitsAt commitRound;
    match VoteSet.TwoThirdsMajority precommits with
    | (_, false) => panic_ (PanicSanity "RunActionCommit() expects +2/3 precommits")
    | (blockID, true) =>
        whenM (Block.HashesTo (LockedBlock rs) (bid_Hash blockID))
          (modRS (setProposal (Proposal_ rs) (LockedBlock rs) (LockedBlockParts rs)));;
        hashes ← proposalHashesTo (bid_Hash blockID);
        rs ← getRS;
        ps ← loadParts (ProposalBlockParts rs);
        (if negb hashes && negb (PartSet.HasHeader ps (bid_PartsHeader blockID)) then
           ps ← lift (PartSet.NewPartSetFromHeader (bid_PartsHeader blockID));
           p ← newParts ps;
           modRS (setProposal (Proposal_ rs) None p)
         else mret tt);;
        rs ← getRS;
        updateRoundStep (Round rs) RoundStepCommit;;
        now ← call timeNow;
        modRS (setCommit commitRound now);;
        newStep;;
        tryFinalizeCommit height
    end.

(** ** Proposals and block parts *)

Inductive MsgError :=
| ErrInvalidProposalPOLRound
| ErrPartSet (e : PartSet.PartSetError)
| ErrDecodeBlock
| ErrVoteHeightMismatch
| ErrAddingVote
| ErrVote (e : HeightVoteSet.AddVoteError).

Definition defaultSetProposal (proposal : option Proposal) : M (option MsgError) :=
  rs ← getRS;
  match Proposal_ rs with
  | Some _ => mret None
  | None =>
      p ← lift (deref proposal);
      if negb (p_Height p =? Height rs) || negb (p_Round p =? Round rs) then mret None
      else if RoundStepCommit <=? Step rs then mret None
      else if negb (p_POLRound p =? -1) && ((p_POLRound p <? 0) || (p_Round p <=? p_POLRound p))
      then mret (Some ErrInvalidProposalPOLRound)
      else
        ps ← lift (PartSet.NewPartSetFromHeader (p_BlockPartsHeader p));
        ref ← newParts ps;
        modRS (setProposal (Some p) (ProposalBlock rs) ref);;
        mret None
  end.

(** [Update Valid* if we can]: [blockID] got two thirds of the prevotes of
    [polRound]. *)
Definition updateValid (blockID : BlockID) (polRound : Z) : M unit :=
  rs ← getRS;
  if negb (BlockID_IsZero blockID) && (ValidRound rs <? polRound) && (polRound <=? Round rs) then
    hashes ← proposalHashesTo (bid_Hash blockID);
    rs ← getRS;
    whenM hashes (modRS (setValid polRound (ProposalBlock rs) (ProposalBlockParts rs)))
  else mret tt.

(** What follows when the last part of a block was added. *)
Definition completeBlock (height : Z) (ps : PartSet.PartSet) : M (bool * option MsgError) :=
  _ ← lift (PartSet.GetReader ps);
  rs ← getRS;
  st ← getState;
  let '(b, ok) := Block.UnmarshalBlock (ProposalBlock rs) (PartSet.contents (PartSet.ps_parts ps))
                    (Block.BlockSize_MaxBytes (State.Params st)) in
  modRS (setProposal (Proposal_ rs) b (ProposalBlockParts rs));;
  if negb ok then mret (true, Some ErrDecodeBlock)
  else
    b ← lift (deref b);
    _ ← lift (deref (Block.b_Header b));
    fillProposal;;
    rs ← getRS;
    prevotes ← prevotesAt (Round rs);
    (let '(blockID, hasTwoThirds) := VoteSet.TwoThirdsMajority prevotes in
     whenM hasTwoThirds (updateValid blockID (Round rs)));;
    complete ← (if Step rs <=? RoundStepPropose then isProposalComplete else mret false);
    (if complete : bool then enterPrevote height (Round rs)
     else whenM (Step rs =? RoundStepCommit) (tryFinalizeCommit height));;
    mret (true, None).

Definition addProposalBlockPart (height : Z) (part : option PartSet.Part) : M (bool * option MsgError) :=
  rs ← getRS;
  if negb (Height rs =? height) then mret (false, None)
  else
    ps ← loadParts (ProposalBlockParts rs);
    match ps with
    | None => _ ← lift (deref part); mret (false, None)
    | Some ps =>
        r ← lift (PartSet.AddPart ps part);
        let '(ps, added, err) := r in
        storeParts (ProposalBlockParts rs) ps;;
        match err with
        | Some e => mret (added, Some (ErrPartSet e))
        | None => if added && PartSet.IsComplete ps then completeBlock height ps else mret (added, None)
        end
    end.

(** ** Votes *)

(** A precommit of the previous height, which comes in while the machine waits
    for the new height. *)
Definition addLastCommitVote (vote : Vote) : M (bool * option MsgError) :=
  rs ← getRS;
  if negb ((Step rs =? RoundStepNewHeight) && (v_Type vote =? VoteTypePrecommit)) then mret (false, Some ErrVoteHeightMismatch)
  else
    r ← lift (VoteSet.AddVote (LastCommit rs) (Some vote));
    let '(last, added, err) := r in
    let err := option_map (fun e => ErrVote (HeightVoteSet.VoteSetError e)) err in
    modRS (setLastCommit (Some last));;
    if negb added then mret (added, err)
    else
      emit (EffEvent (EventVote vote));;
      whenM (SkipTimeoutCommit config && VoteSet.HasAll last) (enterNewRound (Height rs) 0);;
      mret (added, err).

(** Two thirds of the prevotes of [round] are for [blockID]: unlock if the
    lock is older and of another block, and update the valid block. *)
Definition onPolka (blockID : BlockID) (round : Z) : M unit :=
  rs ← getRS;
  whenM (match LockedBlock rs with None => false | Some _ => true end && (LockedRound rs <? round) && (round <=? Round rs) &&
         negb (Block.HashesTo (LockedBlock rs) (bid_Hash blockID)))
    (modRS (setLocked 0 None None);; emit (EffEvent EventUnlock));;
  updateValid blockID round.

Definition onPrevote (height round : Z) : M unit :=
  prevotes ← prevotesAt round;
  (let '(blockID, ok) := VoteSet.TwoThirdsMajority prevotes in whenM ok (onPolka blockID round));;
  rs ← getRS;
  if (Round rs <=? round) && VoteSet.HasTwoThirdsAny prevotes then
    enterNewRound height round;;
    if VoteSet.HasTwoThirdsMajority prevotes then enterPrecommit height round
    else
      enterPrevote height round;;
      enterPrevoteWait height round
  else
    match Proposal_ rs with
    | None => mret tt
    | Some p =>
        if (0 <=? p_POLRound p) && (p_POLRound p =? round) then
          complete ← isProposalComplete;
          whenM complete (enterPrevote height (Round rs))
        else mret tt
    end.

Definition onPrecommit (height round : Z) : M unit :=
  precommits ← precommitsAt round;
  match VoteSet.TwoThirdsMajority precommits with
  | (blockID, true) =>
      if zlen (bid_Hash blockID) =? 0 then enterNewRound height (add64 round 1)
      else
        enterNewRound height round;;
        enterPrecommit height round;;
        enterCommit height round;;
        precommits ← lift (deref precommits);
        if SkipTimeoutCommit config && VoteSet.HasAll precommits then
          rs ← getRS;
          enterNewRound (Height rs) 0
        else mret tt
  | (_, false) =>
      rs ← getRS;
      if (Round rs <=? round) && VoteSet.HasTwoThirdsAny precommits then
        enterNewRound height round;;
        enterPrecommit height round;;
        enterPrecommitWait height round
      else mret tt
  end.

Definition addVote (vote : Vote) (peerID : bytes) : M (bool * option MsgError) :=
  rs ← getRS;
  if add64 (v_Height vote) 1 =? Height rs then addLastCommitVote vote
  else if negb (v_Height vote =? Height rs) then mret (false, Some ErrVoteHeightMismatch)
  else
    votes ← getVotes;
    r ← lift (HeightVoteSet.AddVote votes (Some vote) peerID);
    let '(votes, added, err) := r in
    let err := option_map ErrVote err in
    modRS (setVotes (Some votes));;
    if negb added then mret (added, err)
    else
      emit (EffEvent (EventVote vote));;
      (if v_Type vote =? VoteTypePrevote then onPrevote (Height rs) (v_Round vote)
       else if v_Type vote =? VoteTypePrecommit then onPrecommit (Height rs) (v_Round vote)
       else panic_ (PanicMsg "Unexpected vote type"));;
      mret (added, err).

(** [cs.evpool] is not set anywhere in the program: the call on the nil
    interface panics. *)
Definition tryAddVote (vote : option Vote) (peerID : bytes) : M (option MsgError) :=
  vote ← lift (deref vote);
  r ← addVote vote peerID;
  match r.2 with
  | None => mret None
  | Some (ErrVote (HeightVoteSet.VoteSetError (ErrVoteConflictingVotes _ _ _))) =>
      addr ← lift (deref privAddress);
      if bytes_eqb (v_ValidatorAddress vote) addr then mret r.2
      else panic_ NilDeref
  | Some ErrVoteHeightMismatch => mret (Some ErrVoteHeightMismatch)
  | Some _ => mret (Some ErrAddingVote)
  end.

(** ** The receive routine *)

Definition handleMsg (m : Msg) (peerID : bytes) : M unit :=
  match m with
  | ProposalMessage p => _ ← defaultSetProposal p; mret tt
  | BlockPartMessage height _ part => _ ← addProposalBlockPart height part; mret tt
  | VoteMessage v => _ ← tryAddVote v peerID; mret tt
  end.

Definition handleTimeout (ti : timeoutInfo) : M unit :=
  rs ← getRS;
  if negb (ti_Height ti =? Height rs) || (ti_Round ti <? Round rs) || ((ti_Round ti =? Round rs) && (ti_Step ti <? Step rs))
  then mret tt
  else if ti_Step ti =? RoundStepNewHeight then enterNewRound (ti_Height ti) 0
  else if ti_Step ti =? RoundStepNewRound then enterPropose (ti_Height ti) 0
  else if ti_Step ti =? RoundStepPropose then emit (EffEvent EventTimeoutPropose);; enterPrevote (ti_Height ti) (ti_Round ti)
  else if ti_Step ti =? RoundStepPrevoteWait then emit (EffEvent EventTimeoutWait);; enterPrecommit (ti_Height ti) (ti_Round ti)
  else if ti_Step ti =? RoundStepPrecommitWait then
    emit (EffEvent EventTimeoutWait);; enterNewRound (ti_Height ti) (add64 (ti_Round ti) 1)
  else panic_ (PanicMsg "Invalid timeout step").

Definition handleTxsAvailable (height : Z) : M unit := enterPropose height 0.

(** What the receive routine waits for, and a claim of a majority, which the
    reactor passes to the votes itself. *)
Inductive Input :=
| InTxsAvailable (height : Z)
| InPeer (m : Msg) (peer : bytes)
| InInternal (m : Msg)
| InTimeout (ti : timeoutInfo)
| InMaj23 (height round type_ : Z) (peer : bytes) (blockID : BlockID).

Definition setPeerMaj23 (height round type_ : Z) (peer : bytes) (blockID : BlockID) : M unit :=
  rs ← getRS;
  if negb (Height rs =? height) then mret tt
  else
    votes ← getVotes;
    r ← lift (HeightVoteSet.SetPeerMaj23 votes round type_ peer blockID);
    modRS (setVotes (Some r.1)).

Definition receive (i : Input) : M unit :=
  match i with
  | InTxsAvailable height => handleTxsAvailable height
  | InPeer m peer => emit (EffWal (WalMsg m peer));; handleMsg m peer
  | InInternal m => emit (EffWal (WalMsg m []));; handleMsg m []
  | InTimeout ti => emit (EffWal (WalTimeout ti));; handleTimeout ti
  | InMaj23 height round type_ peer blockID => setPeerMaj23 height round type_ peer blockID
  end.

(** ** Start *)

Definition addSeenPrecommits (l : list (option Vote)) (vs : VoteSet.VoteSet) : go VoteSet.VoteSet :=
  go_fold (fun o vs =>
    match o with
    | None => Ret vs
    | Some v =>
        r ← VoteSet.AddVote (Some vs) (Some v);
        match r with
        | (vs, true, None) => Ret vs
        | _ => Panic (PanicCrisis "Failed to reconstruct LastCommit")
        end
    end) l vs.

Definition reconstructLastCommit (st : State.State) : M unit :=
  if State.LastBlockHeight st =? 0 then mret tt
  else
    seen ← ask (fun w => storeSeenCommit w (State.LastBlockHeight st));
    seen ← lift (deref seen);
    vs ← lift (VoteSet.NewVoteSet (State.ChainID st) (State.LastBlockHeight st) (Commit_Round seen) VoteTypePrecommit
                 (State.LastValidators st));
    vs ← lift (addSeenPrecommits (c_Precommits seen) vs);
    if negb (VoteSet.HasTwoThirdsMajority (Some vs))
    then panic_ (PanicSanity "Failed to reconstruct LastCommit: Does not have +2/3 maj")
    else modRS (setLastCommit (Some vs)).

(** There is no write-ahead log and no event bus yet: what is written and
    published here is lost. *)
Definition NewConsensusState (st : State.State) (w : World) : go CS :=
  r ← (updateToState st;; reconstructLastCommit st) (mkCS zeroRoundState None [] w []);
  Ret (mkCS (cs_rs r.2) (cs_state r.2) (cs_parts r.2) (cs_world r.2) []).

(** [OnStart], without the replay of the write-ahead log. *)
Definition start (st : State.State) (w : World) : go CS :=
  cs ← NewConsensusState st w;
  r ← scheduleRound0 cs;
  Ret r.2.
End Machine.

Definition CompareHRS (h1 r1 s1 h2 r2 s2 : Z) : Z :=
  if h1 <? h2 then -1 else if h2 <? h1 then 1
  else if r1 <? r2 then -1 else if r2 <? r1 then 1
  else if s1 <? s2 then -1 else if s2 <? s1 then 1 else 0.
End Consensus.
