(* ===== verification/Autofile.v ===== *)
(** * Rotated files: libs/autofile

    A group is a head file, written through a buffer, and the files it was
    rotated into.  A reader goes from file to file.  The disk is a value; the
    directory holds the files of the group only, and writes do not fail. *)

From S2P Require Import Prelude.

Module Autofile.

(** ** The disk and the head *)

(** The files by their index, and the head, which does not exist between a
    rotation and the next write. *)
Record Disk := mkDisk { d_rolled : gmap Z bytes; d_head : option bytes }.

(** [AutoFile]: the file is opened, and created, when it is needed. *)
Definition openHead (d : Disk) : Disk := mkDisk (d_rolled d) (Some (default [] (d_head d))).
Definition af_Write (d : Disk) (b : bytes) : Disk := mkDisk (d_rolled d) (Some (default [] (d_head d) ++ b)).
Definition af_Sync (d : Disk) : Disk := openHead d.
Definition af_Size (d : Disk) : Disk * Z := (openHead d, zlen (default [] (d_head d))).

(** [bufio.Writer] of 40960 bytes. *)
Definition bufSize : Z := 4096 * 10.
Definition buf_Write (buf p : bytes) : bytes * bytes := bufio_Write bufSize buf p.

(** ** The group *)

Record Group := mkGroup { g_disk : Disk; g_headBuf : bytes; headSizeLimit : Z; totalSizeLimit : Z; minIndex : Z; maxIndex : Z }.
Definition defaultHeadSizeLimit : Z := 10 * 1024 * 1024.
Definition defaultTotalSizeLimit : Z := 1 * 1024 * 1024 * 1024.
Definition maxFilesToRemove : Z := 4.

Definition setDisk (g : Group) (d : Disk) : Group := mkGroup d (g_headBuf g) (headSizeLimit g) (totalSizeLimit g) (minIndex g) (maxIndex g).
Definition setBuf (g : Group) (d : Disk) (buf : bytes) : Group := mkGroup d buf (headSizeLimit g) (totalSizeLimit g) (minIndex g) (maxIndex g).

Record GroupInfo := mkInfo { gi_MinIndex : Z; gi_MaxIndex : Z; gi_TotalSize : Z; gi_HeadSize : Z }.
Definition indexStep (acc : Z * Z * Z) (file : Z * bytes) : Z * Z * Z :=
  let '(lo, hi, total) := acc in
  (if (lo =? -1) || (file.1 <? lo) then file.1 else lo, if hi <? file.1 then file.1 else hi, total + zlen file.2).
Definition readGroupInfo (d : Disk) : GroupInfo :=
  let headSize := zlen (default [] (d_head d)) in
  let '(lo, hi, total) := foldl indexStep (-1, -1, headSize) (map_to_list (d_rolled d)) in
  if lo =? -1 then mkInfo 0 0 total headSize else mkInfo lo (hi + 1) total headSize.

Definition OpenGroup (d : Disk) : Group :=
  let d := openHead d in
  let gInfo := readGroupInfo d in
  mkGroup d [] defaultHeadSizeLimit defaultTotalSizeLimit (gi_MinIndex gInfo) (gi_MaxIndex gInfo).

Definition Write (g : Group) (p : bytes) : Group :=
  let '(out, buf) := buf_Write (g_headBuf g) p in
  setBuf g (match out with [] => g_disk g | _ => af_Write (g_disk g) out end) buf.
Definition Flush (g : Group) : Group :=
  setBuf g (af_Sync (match g_headBuf g with [] => g_disk g | buf => af_Write (g_disk g) buf end)) [].

(** The rename fails when there is no head. *)
Definition RotateFile (g : Group) : go Group :=
  match d_head (g_disk g) with
  | None => Panic (PanicMsg "rename: no such file or directory")
  | Some head => Ret (mkGroup (mkDisk (<[maxIndex g := head]> (d_rolled (g_disk g))) None) (g_headBuf g) (headSizeLimit g) (totalSizeLimit g) (minIndex g) (maxIndex g + 1))
  end.

Definition checkHeadSizeLimit (g : Group) : go Group :=
  if headSizeLimit g =? 0 then Ret g else
  let '(d, size) := af_Size (g_disk g) in
  let g := setDisk g d in
  if headSizeLimit g <=? size then RotateFile g else Ret g.

(** The loop of [checkTotalSizeLimit]: at most [n] more files from [index]. *)
Fixpoint removeLoop (n : nat) (index last totalSize limit : Z) (d : Disk) : Disk :=
  match n with
  | O => d
  | S n =>
      if totalSize <? limit then d
      else if index =? last then d
      else match d_rolled d !! index with
           | None => removeLoop n (index + 1) last totalSize limit d
           | Some file => removeLoop n (index + 1) last (totalSize - zlen file) limit (mkDisk (delete index (d_rolled d)) (d_head d))
           end
  end.
Definition checkTotalSizeLimit (g : Group) : Group :=
  if totalSizeLimit g =? 0 then g else
  let gInfo := readGroupInfo (g_disk g) in
  setDisk g (removeLoop (Z.to_nat maxFilesToRemove) (gi_MinIndex gInfo) (gi_MaxIndex gInfo) (gi_TotalSize gInfo) (totalSizeLimit g) (g_disk g)).

(** ** Reading *)

Inductive IOError := EOF | ErrNotExist | ErrEmptySlice.

(** [gr_cur] is what is left of the open file. *)
Record GroupReader := mkReader { gr_curIndex : Z; gr_cur : option bytes; gr_curLine : option bytes }.

Definition fileAt (g : Group) (index : Z) : option bytes := if index =? maxIndex g then d_head (g_disk g) else d_rolled (g_disk g) !! index.
Definition openFile (g : Group) (index : Z) : IOError + GroupReader :=
  if maxIndex g <? index then inl EOF else
  match fileAt g index with
  | None => inl ErrNotExist
  | Some content => inr (mkReader index (Some content) None)
  end.
Definition NewReader (g : Group) (index : Z) : IOError + GroupReader := openFile g index.
Definition Close (gr : GroupReader) : GroupReader := match gr_cur gr with Some _ => mkReader 0 None None | None => gr end.

(** The loop of [Read]: [need] bytes are still wanted.  A read from an open
    file gives what is there, possibly in several turns. *)
Fixpoint readLoop (fuel : nat) (g : Group) (gr : GroupReader) (rest : bytes) (need : nat) (acc : bytes) : go (GroupReader * bytes * option IOError) :=
  match fuel with
  | O => Panic (PanicMsg "out of fuel")
  | S fuel =>
      match need with
      | O => Ret (mkReader (gr_curIndex gr) (Some rest) (gr_curLine gr), acc, None)
      | S _ =>
          match rest with
          | [] =>
              match openFile g (gr_curIndex gr + 1) with
              | inl e => Ret (mkReader (gr_curIndex gr) (Some []) (gr_curLine gr), acc, Some e)
              | inr gr => readLoop fuel g gr (default [] (gr_cur gr)) need acc
              end
          | _ => readLoop fuel g gr (drop need rest) (need - length rest) (acc ++ take need rest)
          end
      end
  end.
Definition readFuel (g : Group) (gr : GroupReader) : nat := (2 * Z.to_nat (maxIndex g - gr_curIndex gr) + 4)%nat.
Definition Read (g : Group) (gr : GroupReader) (n : nat) : go (GroupReader * bytes * option IOError) :=
  match n with
  | O => Ret (gr, [], Some ErrEmptySlice)
  | S _ =>
      match (match gr_cur gr with Some _ => inr gr | None => openFile g (gr_curIndex gr) end) with
      | inl e => Ret (gr, [], Some e)
      | inr gr => readLoop (readFuel g gr) g gr (default [] (gr_cur gr)) n []
      end
  end.

(** ** What a reader sees *)

(** The bytes of [k] files from [index] on, if they all exist. *)
Fixpoint filesFrom (g : Group) (k : nat) (index : Z) : option bytes :=
  match k with
  | O => Some []
  | S k => f ← fileAt g index; rest ← filesFrom g k (index + 1); Some (f ++ rest)
  end.
Definition streamFrom (g : Group) (index : Z) : option bytes := filesFrom g (Z.to_nat (maxIndex g - index + 1)) index.
Definition remaining (g : Group) (gr : GroupReader) : option bytes :=
  cur ← gr_cur gr; rest ← streamFrom g (gr_curIndex gr + 1); Some (cur ++ rest).

Lemma streamFrom_end g index : maxIndex g < index -> streamFrom g index = Some [].
Proof. intros Hi. unfold streamFrom. by replace (Z.to_nat (maxIndex g - index + 1)) with 0%nat by lia. Qed.
Lemma streamFrom_cons g index : index <= maxIndex g -> streamFrom g index = (f ← fileAt g index; rest ← streamFrom g (index + 1); Some (f ++ rest)).
Proof.
  intros Hi. unfold streamFrom. replace (Z.to_nat (maxIndex g - index + 1)) with (S (Z.to_nat (maxIndex g - (index + 1) + 1))) by lia. done.
Qed.

Lemma openFile_ok g index s : index <= maxIndex g -> streamFrom g index = Some s -> exists gr, openFile g index = inr gr /\ gr_curIndex gr = index /\ is_Some (gr_cur gr) /\ remaining g gr = Some s.
Proof.
  intros Hi Hs. rewrite streamFrom_cons in Hs by done. unfold openFile. rewrite (proj2 (Z.ltb_ge _ _)) by lia. destruct (fileAt g index) as [f|] eqn:Ef; [|done].
  eexists. split; [done|]. split; [done|]. split; [by eexists|]. unfold remaining. cbn in *. by destruct (streamFrom g (index + 1)).
Qed.

(** The loop of [Read] takes the bytes it needs from the stream, or all there
    are; the fuel is two turns per file. *)
Definition turns (g : Group) (gr : GroupReader) (rest : bytes) (need : nat) : nat :=
  match need with O => 0 | S _ => 2 * Z.to_nat (maxIndex g - gr_curIndex gr) + (match rest with [] => 1 | _ => 2 end) end.

Lemma readLoop_spec g : forall fuel gr rest need acc s, (turns g gr rest need < fuel)%nat -> gr_curIndex gr <= maxIndex g ->
  remaining g (mkReader (gr_curIndex gr) (Some rest) (gr_curLine gr)) = Some s ->
  exists gr', readLoop fuel g gr rest need acc = Ret (gr', acc ++ take need s, if (need <=? length s)%nat then None else Some EOF) /\
    gr_curIndex gr' <= maxIndex g /\ is_Some (gr_cur gr') /\ remaining g gr' = Some (drop need s).
Proof.
  induction fuel as [|fuel IH]; intros gr rest need acc s Hf Hi Hr; [lia|]. cbn [readLoop]. destruct need as [|need].
  { eexists. rewrite take_0, app_nil_r. split; [done|]. split; [done|]. split; [by eexists|done]. }
  destruct rest as [|b rest].
  - unfold remaining in Hr. cbn [gr_cur gr_curIndex mbind option_bind] in Hr. destruct (streamFrom g (gr_curIndex gr + 1)) as [t|] eqn:Et; [|done]. injection Hr as <-. cbn [app].
    destruct (decide (gr_curIndex gr = maxIndex g)) as [E|E].
    + rewrite streamFrom_end in Et by lia. injection Et as <-. unfold openFile. rewrite (proj2 (Z.ltb_lt _ _)) by lia. eexists. split; [by rewrite take_nil, app_nil_r|].
      split; [done|]. split; [by eexists|]. unfold remaining. cbn [gr_cur gr_curIndex mbind option_bind]. by rewrite streamFrom_end by lia.
    + destruct (openFile_ok g (gr_curIndex gr + 1) t ltac:(lia) Et) as (gr1 & -> & Ei & [f Ef] & Hrem). rewrite Ef. cbn [default]. apply IH; [|lia|].
      * unfold turns in *. rewrite Ei. destruct f; cbn in *; lia.
      * unfold remaining in *. by rewrite Ef in Hrem.
  - unfold remaining in Hr. cbn [gr_cur gr_curIndex mbind option_bind] in Hr. destruct (streamFrom g (gr_curIndex gr + 1)) as [t|] eqn:Et; [|done]. injection Hr as <-.
    set (r := b :: rest) in *. destruct (IH gr (drop (S need) r) (S need - length r)%nat (acc ++ take (S need) r) (drop (S need) r ++ t)) as (gr' & E & Hi' & Hc' & Hr').
    + unfold turns in *. destruct (S need - length r)%nat eqn:En; [cbn in Hf; lia|]. rewrite (drop_ge r) by lia. cbn in *. lia.
    + done.
    + unfold remaining. cbn [gr_cur gr_curIndex mbind option_bind]. by rewrite Et.
    + change (b :: rest ++ t) with (r ++ t). exists gr'. split; [|split; [done|split; [done|]]].
      * cbn [readLoop] in E |- *. fold r. rewrite E. f_equal. rewrite (take_app r t), <- app_assoc.
        destruct (decide (length r <= S need)%nat) as [Hle|Hgt].
        -- rewrite (drop_ge r) by done. cbn [app]. rewrite length_app. destruct (Nat.leb_spec (S need - length r) (length t)), (Nat.leb_spec (S need) (length r + length t)). all: (done || lia).
        -- replace (S need - length r)%nat with 0%nat by lia. rewrite !take_0. by rewrite (proj2 (Nat.leb_le 0 _)), (proj2 (Nat.leb_le (S need) _)) by (rewrite ?length_app; lia).
      * rewrite Hr', (drop_app r t). f_equal. destruct (decide (length r <= S need)%nat) as [Hle|Hgt]; [by rewrite (drop_ge r) by done|]. replace (S need - length r)%nat with 0%nat by lia. done.
Qed.

Lemma readBytes_spec g gr n s : (0 < n)%nat -> gr_curIndex gr <= maxIndex g -> remaining g gr = Some s ->
  exists gr', Read g gr n = Ret (gr', take n s, if (n <=? length s)%nat then None else Some EOF) /\ gr_curIndex gr' <= maxIndex g /\ is_Some (gr_cur gr') /\ remaining g gr' = Some (drop n s).
Proof.
  intros Hn Hi Hr. destruct n as [|n]; [lia|]. unfold Read. destruct (gr_cur gr) as [cur|] eqn:Ec; [|by unfold remaining in Hr; rewrite Ec in Hr]. rewrite Ec. cbn [default].
  apply (readLoop_spec g (readFuel g gr) gr cur (S n) []); [|done|by unfold remaining in *; rewrite Ec in Hr]. unfold turns, readFuel. destruct cur; lia.
Qed.

(** ** The group as a log *)

(** The rotated files are those from [minIndex] up to the head. *)
Record groupOK (g : Group) : Prop := {
  gok_range : 0 <= minIndex g <= maxIndex g;
  gok_files : forall i, is_Some (d_rolled (g_disk g) !! i) <-> minIndex g <= i < maxIndex g }.

(** All bytes written: the rotated files, the head and the buffer. *)
Fixpoint rolledFrom (files : gmap Z bytes) (k : nat) (index : Z) : bytes :=
  match k with O => [] | S k => default [] (files !! index) ++ rolledFrom files k (index + 1) end.
Definition onDisk (g : Group) : bytes := rolledFrom (d_rolled (g_disk g)) (Z.to_nat (maxIndex g - minIndex g)) (minIndex g) ++ default [] (d_head (g_disk g)).
Definition log (g : Group) : bytes := onDisk g ++ g_headBuf g.

Lemma buf_Write_split buf p : let '(out, b) := buf_Write buf p in out ++ b = buf ++ p.
Proof. apply bufio_Write_split. Qed.

Lemma Write_log g p : groupOK g -> groupOK (Write g p) /\ log (Write g p) = log g ++ p.
Proof.
  intros [Hr Hf]. unfold Write. pose proof (buf_Write_split (g_headBuf g) p) as Hs. destruct (buf_Write (g_headBuf g) p) as [out b]. unfold log, onDisk.
  destruct out as [|x out]; (split; [split; [exact Hr|exact Hf]|]); cbn [setBuf g_disk g_headBuf maxIndex minIndex].
  - cbn [app] in Hs. subst b. by rewrite app_assoc.
  - cbn [af_Write d_rolled d_head]. generalize (default [] (d_head (g_disk g))). intros h. cbn [default id from_option]. rewrite <- !app_assoc. do 2 f_equal. exact Hs.
Qed.

Lemma Flush_log g : groupOK g -> groupOK (Flush g) /\ log (Flush g) = log g /\ onDisk (Flush g) = log g /\ is_Some (d_head (g_disk (Flush g))) /\ g_headBuf (Flush g) = [].
Proof.
  intros [Hr Hf]. unfold Flush, log, onDisk. destruct (g_headBuf g) as [|x buf]; cbn [setBuf g_disk g_headBuf af_Sync af_Write openHead d_rolled d_head default maxIndex minIndex];
    (split; [split; [exact Hr|exact Hf]|]); unfold id; rewrite ?app_nil_r, <- ?app_assoc; split_and!; (done || by eexists).
Qed.

Lemma rolledFrom_snoc files k : forall i, rolledFrom files (S k) i = rolledFrom files k i ++ default [] (files !! (i + Z.of_nat k)).
Proof.
  induction k as [|k IH]; intros i; cbn [rolledFrom]; [by rewrite Z.add_0_r, app_nil_r|]. rewrite <- app_assoc. f_equal. specialize (IH (i + 1)). cbn [rolledFrom] in IH. rewrite IH. do 3 f_equal. lia.
Qed.
Lemma rolledFrom_ext files files' k : forall i, (forall j, i <= j < i + Z.of_nat k -> files' !! j = files !! j) -> rolledFrom files' k i = rolledFrom files k i.
Proof. induction k as [|k IH]; intros i He; cbn; [done|]. rewrite He by lia. f_equal. apply IH. intros j Hj. apply He. lia. Qed.

Lemma RotateFile_log g : groupOK g -> is_Some (d_head (g_disk g)) -> exists g', RotateFile g = Ret g' /\ groupOK g' /\ log g' = log g /\ g_headBuf g' = g_headBuf g.
Proof.
  intros [Hr Hf] [h Eh]. unfold RotateFile. rewrite Eh. eexists. split; [done|]. split; [|split; [|done]].
  - split; cbn [minIndex maxIndex g_disk d_rolled]; [lia|]. intros i. destruct (decide (i = maxIndex g)) as [-> |Hne]; [rewrite lookup_insert_eq; split; [lia|by eexists]|]. rewrite lookup_insert_ne, Hf by done. lia.
  - unfold log, onDisk. cbn [minIndex maxIndex g_disk d_rolled d_head default g_headBuf]. rewrite app_nil_r, Eh. cbn [default]. f_equal.
    replace (Z.to_nat (maxIndex g + 1 - minIndex g)) with (S (Z.to_nat (maxIndex g - minIndex g))) by lia. rewrite rolledFrom_snoc.
    replace (minIndex g + Z.of_nat (Z.to_nat (maxIndex g - minIndex g))) with (maxIndex g) by lia. rewrite lookup_insert_eq. cbn [default]. f_equal.
    apply rolledFrom_ext. intros j Hj. apply lookup_insert_ne. lia.
Qed.

Lemma openHead_log g : groupOK g -> groupOK (setDisk g (openHead (g_disk g))) /\ log (setDisk g (openHead (g_disk g))) = log g.
Proof. intros [Hr Hf]. by split. Qed.

Lemma checkHeadSizeLimit_log g : groupOK g -> exists g', checkHeadSizeLimit g = Ret g' /\ groupOK g' /\ log g' = log g /\ g_headBuf g' = g_headBuf g.
Proof.
  intros Hg. unfold checkHeadSizeLimit. destruct (headSizeLimit g =? 0); [by exists g|]. cbn [af_Size]. destruct (openHead_log g Hg) as [H1 H2]. destruct (_ <=? _).
  - destruct (RotateFile_log _ H1) as (g' & E & H3 & H4 & H5); [by eexists|]. exists g'. split; [done|]. split; [done|]. by rewrite H4.
  - by eexists.
Qed.

(** The stream from the first file is what is on disk. *)
Lemma stream_rolled g : groupOK g -> is_Some (d_head (g_disk g)) -> streamFrom g (minIndex g) = Some (onDisk g).
Proof.
  intros [Hr Hf] [h Eh]. unfold onDisk. rewrite Eh. cbn [default].
  assert (Hgen : forall k i, minIndex g <= i -> i + Z.of_nat k = maxIndex g -> streamFrom g i = Some (rolledFrom (d_rolled (g_disk g)) k i ++ h)).
  { induction k as [|k IH]; intros i Hi Hk.
    - rewrite streamFrom_cons by lia. rewrite streamFrom_end by lia. unfold fileAt. replace (i =? maxIndex g) with true by lia. rewrite Eh. cbn. by rewrite app_nil_r.
    - rewrite streamFrom_cons by lia. rewrite (IH (i + 1)) by lia. unfold fileAt. replace (i =? maxIndex g) with false by lia. destruct (proj2 (Hf i)) as [f Ef]; [lia|]. rewrite Ef. cbn. by rewrite Ef, <- app_assoc. }
  apply Hgen; lia.
Qed.

(** Scanning the directory finds the first and the last index. *)
Lemma indexStep_spec l : forall lo hi total, (forall f, f ∈ l -> 0 <= f.1) -> -1 <= lo -> -1 <= hi ->
  let '(lo', hi', total') := foldl indexStep (lo, hi, total) l in
  (lo' = -1 <-> lo = -1 /\ l = []) /\ (lo' = lo \/ lo' ∈ l.*1) /\ (hi' = hi \/ hi' ∈ l.*1) /\ (lo' <> -1 -> (lo <> -1 -> lo' <= lo) /\ Forall (fun f => lo' <= f.1) l) /\ hi <= hi' /\ Forall (fun f => f.1 <= hi') l.
Proof.
  induction l as [|f l IH]; intros lo hi total Hp Hlo Hhi; cbn [foldl].
  { split_and!; try done; try tauto; try lia; intros Hne; split; (lia || done). }
  specialize (Hp f ltac:(by left)) as Hf. cbn [indexStep]. set (lo1 := if (lo =? -1) || (f.1 <? lo) then f.1 else lo). set (hi1 := if hi <? f.1 then f.1 else hi).
  assert (H1 : lo1 = f.1 /\ (lo = -1 \/ f.1 < lo) \/ lo1 = lo /\ lo <> -1 /\ lo <= f.1) by (unfold lo1; destruct (Z.eqb_spec lo (-1)), (Z.ltb_spec f.1 lo); cbn; lia).
  assert (H2 : hi1 = f.1 /\ hi < f.1 \/ hi1 = hi /\ f.1 <= hi) by (unfold hi1; destruct (Z.ltb_spec hi f.1); lia).
  specialize (IH lo1 hi1 (total + zlen f.2) ltac:(intros; apply Hp; by right) ltac:(lia) ltac:(lia)).
  destruct (foldl indexStep (lo1, hi1, total + zlen f.2) l) as [[lo' hi'] total']. destruct IH as (I1 & I2 & I3 & I4 & I5 & I6).
  assert (Hn : lo1 <> -1) by lia. rewrite fmap_cons, !elem_of_cons, !Forall_cons. split_and!; try lia; try done.
  - split; [intros E; apply I1 in E; lia|intros [_ [=]]].
  - destruct I2 as [-> |I2]; [|by right; right]. destruct H1 as [[-> _]|[-> _]]; [by right; left|by left].
  - destruct I3 as [-> |I3]; [|by right; right]. destruct H2 as [[-> _]|[-> _]]; [by right; left|by left].
  - intros Hne. destruct (I4 Hne) as [I7 I8]. specialize (I7 Hn). split; [lia|]. split; [lia|done].
Qed.

Lemma readGroupInfo_spec g : groupOK g -> let gInfo := readGroupInfo (g_disk g) in
  (minIndex g < maxIndex g -> gi_MinIndex gInfo = minIndex g /\ gi_MaxIndex gInfo = maxIndex g) /\ (minIndex g = maxIndex g -> gi_MinIndex gInfo = 0 /\ gi_MaxIndex gInfo = 0).
Proof.
  intros [Hr Hf]. unfold readGroupInfo. set (files := map_to_list (d_rolled (g_disk g))).
  assert (Hk : forall i, i ∈ files.*1 <-> minIndex g <= i < maxIndex g).
  { intros i. rewrite <- Hf. unfold files. split.
    - intros ([j f] & -> & Hin)%list_elem_of_fmap. apply elem_of_map_to_list in Hin. by exists f.
    - intros [f E]. apply list_elem_of_fmap. exists (i, f). split; [done|]. by apply elem_of_map_to_list. }
  pose proof (indexStep_spec files (-1) (-1) (zlen (default [] (d_head (g_disk g))))) as Hs. destruct (foldl indexStep _ files) as [[lo hi] total].
  destruct Hs as (I1 & I2 & I3 & I4 & _ & I6); [|lia|lia|].
  { intros f Hin. specialize (proj1 (Hk f.1) ltac:(by apply list_elem_of_fmap_2)). lia. }
  split; intros Hlt.
  - assert (Hne : lo <> -1). { intros E. apply I1 in E as [_ E]. specialize (proj2 (Hk (minIndex g)) ltac:(lia)). by rewrite E; intros ?%not_elem_of_nil. }
    rewrite (proj2 (Z.eqb_neq _ _)) by done. cbn. destruct I2 as [?|I2]; [done|]. apply Hk in I2. destruct (I4 Hne) as [_ I8].
    assert (Hin : forall i, i ∈ files.*1 -> lo <= i <= hi). { intros i (f & -> & Hin)%list_elem_of_fmap. rewrite Forall_forall in I8, I6. split; [by apply I8|by apply I6]. }
    pose proof (Hin (minIndex g) (proj2 (Hk (minIndex g)) ltac:(lia))). pose proof (Hin (maxIndex g - 1) (proj2 (Hk (maxIndex g - 1)) ltac:(lia))).
    destruct I3 as [I3|I3]; [lia|]. apply Hk in I3. lia.
  - assert (Hnil : files = []). { destruct files as [|f l] eqn:E; [done|]. specialize (proj1 (Hk f.1)) as Hx. rewrite fmap_cons in Hx. specialize (Hx ltac:(by left)). lia. }
    by rewrite (proj2 I1).
Qed.

(** Opening the group again: the buffer is lost, the rest is there. *)
Lemma OpenGroup_log g : groupOK g -> groupOK (OpenGroup (g_disk g)) /\ log (OpenGroup (g_disk g)) = onDisk g /\ is_Some (d_head (g_disk (OpenGroup (g_disk g)))).
Proof.
  intros Hg. pose proof (readGroupInfo_spec (setDisk g (openHead (g_disk g))) (proj1 (openHead_log g Hg))) as [H1 H2]. destruct Hg as [Hr Hf]. cbn [setDisk minIndex maxIndex g_disk] in H1, H2.
  unfold OpenGroup. destruct (decide (minIndex g = maxIndex g)) as [E|E].
  - destruct (H2 E) as [-> ->]. split; [|split; [|by eexists]].
    + split; cbn [minIndex maxIndex g_disk openHead d_rolled]; [lia|]. intros i. rewrite Hf. lia.
    + unfold log, onDisk. cbn [minIndex maxIndex g_disk openHead d_rolled d_head g_headBuf]. rewrite app_nil_r. by replace (maxIndex g - minIndex g) with 0 by lia.
  - destruct (H1 ltac:(lia)) as [-> ->]. split; [by split|]. split; [|by eexists]. unfold log, onDisk. cbn [minIndex maxIndex g_disk openHead d_rolled d_head g_headBuf]. by rewrite app_nil_r.
Qed.

(** ** Properties *)

Inductive op := opWrite (p : bytes) | opFlush | opTick.
Definition apply (o : op) (g : Group) : go Group :=
  match o with opWrite p => Ret (Write g p) | opFlush => Ret (Flush g) | opTick => checkHeadSizeLimit g end.
Definition bytesOf (ops : list op) : bytes := ops ≫= (fun o => match o with opWrite p => p | _ => [] end).

Lemma ops_log ops : forall g, groupOK g -> exists g', go_fold apply ops g = Ret g' /\ groupOK g' /\ log g' = log g ++ bytesOf ops.
Proof.
  induction ops as [|o ops IH]; intros g Hg; cbn [go_fold]; [by exists g; rewrite app_nil_r|].
  assert (H1 : exists g1, apply o g = Ret g1 /\ groupOK g1 /\ log g1 = log g ++ (match o with opWrite p => p | _ => [] end)).
  { destruct o as [p| |]; cbn [apply]; rewrite ?app_nil_r.
    - eexists. split; [done|]. by apply Write_log.
    - eexists. split; [done|]. destruct (Flush_log g Hg) as (H1 & H2 & _). by split.
    - destruct (checkHeadSizeLimit_log g Hg) as (g' & E & H1 & H2 & _). by exists g'. }
  destruct H1 as (g1 & E1 & H1 & H2). rewrite E1. cbn [mbind go_mbind]. destruct (IH g1 H1) as (g2 & E2 & H3 & H4). exists g2. split; [done|]. split; [done|]. rewrite H4, H2, <- app_assoc. done.
Qed.

(** C24: a group is an append-only log.  Whatever is written, flushed and
    rotated from an empty directory on, nothing panics; once the buffer is
    flushed, a reader from the first file reads all bytes written, in order
    and across the files, and reports the end exactly when fewer than asked
    for are left; and so does the group that is opened on the same disk. *)
Theorem group_log ops : exists g, go_fold apply ops (OpenGroup (mkDisk ∅ None)) = Ret g /\
  forall g', g' = Flush g \/ g' = OpenGroup (g_disk (Flush g)) -> exists gr, NewReader g' (minIndex g') = inr gr /\
    forall n, (0 < n)%nat -> exists gr', Read g' gr n = Ret (gr', take n (bytesOf ops), if (n <=? length (bytesOf ops))%nat then None else Some EOF) /\ remaining g' gr' = Some (drop n (bytesOf ops)).
Proof.
  assert (H0 : groupOK (OpenGroup (mkDisk ∅ None))) by (split; [done|]; intros i; change (minIndex _) with 0; change (maxIndex _) with 0; cbn; rewrite lookup_empty; split; [by intros []|lia]).
  destruct (ops_log ops _ H0) as (g & E & Hg & Hl). exists g. split; [done|]. change (log (OpenGroup (mkDisk ∅ None))) with ([] : bytes) in Hl. cbn [app] in Hl. destruct (Flush_log g Hg) as (F1 & F2 & F3 & F4 & F5).
  assert (Hread : forall g', groupOK g' -> is_Some (d_head (g_disk g')) -> onDisk g' = bytesOf ops -> exists gr, NewReader g' (minIndex g') = inr gr /\
    forall n, (0 < n)%nat -> exists gr', Read g' gr n = Ret (gr', take n (bytesOf ops), if (n <=? length (bytesOf ops))%nat then None else Some EOF) /\ remaining g' gr' = Some (drop n (bytesOf ops))).
  { intros g' Hg' Hh' Ho'. pose proof (stream_rolled g' Hg' Hh') as Hs. rewrite Ho' in Hs. destruct (openFile_ok g' (minIndex g') _ ltac:(apply Hg') Hs) as (gr & Eo & Ei & _ & Hrem).
    exists gr. split; [done|]. intros n Hn. destruct (readBytes_spec g' gr n _ Hn ltac:(rewrite Ei; apply Hg') Hrem) as (gr' & ER & _ & _ & Hr'). by exists gr'. }
  intros g' [-> | ->]; apply Hread; try done; [congruence|..]; destruct (OpenGroup_log _ F1) as (O1 & O2 & O3); try done.
  unfold log in O2. rewrite app_nil_r in O2. congruence.
Qed.

(** ** Removing old files *)

Lemma removeLoop_spec n : forall index last total limit d, index <= last -> (forall i, index <= i < last -> is_Some (d_rolled d !! i)) ->
  exists j, (j <= n)%nat /\ index + Z.of_nat j <= last /\ d_head (removeLoop n index last total limit d) = d_head d /\
    forall i, d_rolled (removeLoop n index last total limit d) !! i = if decide (index <= i < index + Z.of_nat j) then None else d_rolled d !! i.
Proof.
  induction n as [|n IH]; intros index last total limit d Hle Hf; cbn [removeLoop].
  { exists 0%nat. split_and!; [lia|lia|done|]. intros i. by rewrite decide_False by lia. }
  assert (Hstop : exists j, (j <= S n)%nat /\ index + Z.of_nat j <= last /\ d_head d = d_head d /\ forall i, d_rolled d !! i = if decide (index <= i < index + Z.of_nat j) then None else d_rolled d !! i).
  { exists 0%nat. split_and!; [lia|lia|done|]. intros i. by rewrite decide_False by lia. }
  destruct (total <? limit); [done|]. destruct (Z.eqb_spec index last) as [|Hne]; [done|]. destruct (Hf index) as [f Ef]; [lia|]. rewrite Ef.
  destruct (IH (index + 1) last (total - zlen f) limit (mkDisk (delete index (d_rolled d)) (d_head d))) as (j & Hj & Hl & Hh & Hr); [lia| |].
  { intros i Hi. cbn. rewrite lookup_delete_ne by lia. apply Hf. lia. }
  exists (S j). split; [lia|]. split; [lia|]. split; [done|]. intros i. rewrite Hr. cbn [d_rolled]. destruct (decide (index = i)) as [<-|Hi].
  - rewrite (decide_False (P := index + 1 <= index < _)) by lia. rewrite lookup_delete_eq. by rewrite decide_True by lia.
  - rewrite lookup_delete_ne by done. destruct (decide (index + 1 <= i < _)), (decide (index <= i < _)); (done || lia).
Qed.

(** Removing old files leaves [minIndex], so that until the group is opened
    again its first file cannot be read once it was removed; the files that
    are left are the last ones, unchanged. *)
Lemma prune_unreadable g : groupOK g -> minIndex g < maxIndex g -> exists j, (j <= 4)%nat /\
  (forall i, d_rolled (g_disk (checkTotalSizeLimit g)) !! i = if decide (i < minIndex g + Z.of_nat j) then None else d_rolled (g_disk g) !! i) /\
  (j <> 0%nat -> NewReader (checkTotalSizeLimit g) (minIndex (checkTotalSizeLimit g)) = inl ErrNotExist).
Proof.
  intros Hg Hlt. pose proof (gok_files g Hg) as Hf. unfold checkTotalSizeLimit. destruct (totalSizeLimit g =? 0).
  { exists 0%nat. split; [lia|]. split; [|done]. intros i. destruct (decide (i < _)) as [Hi|]; [|done]. apply eq_None_not_Some. intros Hs%Hf. lia. }
  destruct (readGroupInfo_spec g Hg) as [Hi _]. destruct (Hi Hlt) as [E1 E2]. rewrite E1, E2.
  destruct (removeLoop_spec 4 (minIndex g) (maxIndex g) (gi_TotalSize (readGroupInfo (g_disk g))) (totalSizeLimit g) (g_disk g)) as (j & Hj & Hl & _ & Hr); [lia|intros; by apply Hf|].
  change (Z.to_nat maxFilesToRemove) with 4%nat. exists j. split; [lia|]. cbn [setDisk g_disk minIndex]. split.
  - intros i. rewrite Hr. destruct (decide (minIndex g <= i < _)), (decide (i < _)); try done; try lia. apply eq_None_not_Some. intros Hs%Hf. lia.
  - intros Hne. unfold NewReader, openFile, fileAt. cbn [setDisk g_disk maxIndex]. rewrite (proj2 (Z.ltb_ge _ _)) by lia. rewrite (proj2 (Z.eqb_neq _ _)) by lia. rewrite Hr, decide_True by lia. done.
Qed.
End Autofile.
