(* ===== verification/Wal.v ===== *)
(** * The write-ahead log: consensus/wal.go and the replay of consensus/replay.go

    Every input of the receive routine is written to a group of files before
    it is handled.  After a crash the inputs since the last block are read back
    and handled again.  The checksum is that of hash/crc32; go-amino is a
    parameter. *)

From S2P Require Import Prelude Sha256 Crypto Merkle Types ValidatorSet VoteSet HeightVoteSet PartSet Block State Consensus Autofile.
Import Crypto Types ValidatorSet Consensus.

Module Wal.

(** ** hash/crc32 with the Castagnoli polynomial *)

Definition castagnoli : Z := 0x82f63b78.
Definition crcShift (c : Z) : Z := if Z.testbit c 0 then Z.lxor (Z.shiftr c 1) castagnoli else Z.shiftr c 1.
Definition crcTable : list Z := Eval vm_compute in (fun i => Nat.iter 8 crcShift i) <$> seqZ 0 256.
Definition crcUpdate (crc : Z) (b : Byte.byte) : Z := Z.lxor (nth (Z.to_nat (Z.land (Z.lxor crc (byte_Z b)) 255)) crcTable 0) (Z.shiftr crc 8).
Definition mask32 : Z := 0xffffffff.
Definition Checksum (data : bytes) : Z := Z.lxor (foldl crcUpdate mask32 data) mask32.

(** ** The encoding *)

Definition PutUint32 (v : Z) : bytes := [Z_byte (v / 2 ^ 24); Z_byte (v / 2 ^ 16); Z_byte (v / 2 ^ 8); Z_byte v].
Definition Uint32 (b : bytes) : Z := foldl (fun n x => 256 * n + byte_Z x) 0 b.

Record TimedWALMessage := mkTimed { tw_Time : Time; tw_Msg : WalEntry }.
Class WalCodec := { MarshalTimed : TimedWALMessage -> bytes; UnmarshalTimed : bytes -> option TimedWALMessage }.

Definition maxMsgSizeBytes : Z := 1024 * 1024.
Inductive WalError := ErrEOF | ErrRead (e : Autofile.IOError) | ErrTooLong (length : Z) | DataCorruptionError.
Definition IsDataCorruptionError (e : WalError) : bool := match e with DataCorruptionError => true | _ => false end.

Section Wal.
Context `{WalCodec}.

(** The length is cut to 32 bits, and the slice made for it. *)
Definition encode (v : TimedWALMessage) : bytes :=
  let data := MarshalTimed v in
  let length := zlen data mod 2 ^ 32 in
  PutUint32 (Checksum data) ++ PutUint32 length ++ take (Z.to_nat length) data.
Definition Encode (g : Autofile.Group) (v : TimedWALMessage) : Autofile.Group := Autofile.Write g (encode v).

Definition Decode (g : Autofile.Group) (gr : Autofile.GroupReader) : go (Autofile.GroupReader * (WalError + TimedWALMessage)) :=
  '(gr, b, err) ← Autofile.Read g gr 4;
  match err with
  | Some Autofile.EOF => Ret (gr, inl ErrEOF)
  | Some e => Ret (gr, inl (ErrRead e))
  | None =>
      let crc := Uint32 b in
      '(gr, b, err) ← Autofile.Read g gr 4;
      match err with
      | Some e => Ret (gr, inl (ErrRead e))
      | None =>
          let length := Uint32 b in
          if maxMsgSizeBytes <? length then Ret (gr, inl (ErrTooLong length)) else
          '(gr, data, err) ← Autofile.Read g gr (Z.to_nat length);
          match err with
          | Some e => Ret (gr, inl (ErrRead e))
          | None =>
              if negb (Checksum data =? crc) then Ret (gr, inl DataCorruptionError) else
              match UnmarshalTimed data with
              | None => Ret (gr, inl DataCorruptionError)
              | Some v => Ret (gr, inr v)
              end
          end
      end
  end.

(** ** baseWAL *)

Definition NewWAL (d : Autofile.Disk) : Autofile.Group := Autofile.OpenGroup d.
Definition Write (wal : Autofile.Group) (now : Time) (msg : WalEntry) : Autofile.Group := Encode wal (mkTimed now msg).
Definition WriteSync (wal : Autofile.Group) (now : Time) (msg : WalEntry) : Autofile.Group := Autofile.Flush (Write wal now msg).
Definition OnStart (wal : Autofile.Group) (now : Time) : Autofile.Group :=
  let '(d, size) := Autofile.af_Size (Autofile.g_disk wal) in
  let wal := Autofile.setDisk wal d in
  if size =? 0 then WriteSync wal now (WalEndHeight 0) else wal.

(** The messages of one reader, up to the marker of [height]: found, the end
    with the last height, or an error.  [fuel] bounds the messages. *)
Inductive scan := Found (gr : Autofile.GroupReader) | AtEnd (lastHeightFound : Z) | Failed (e : WalError).
Fixpoint scanFile (fuel : nat) (g : Autofile.Group) (gr : Autofile.GroupReader) (height : Z) (ignore : bool) (lastHeightFound : Z) : go scan :=
  match fuel with
  | O => Panic (PanicMsg "out of fuel")
  | S fuel =>
      '(gr, r) ← Decode g gr;
      match r with
      | inl ErrEOF => Ret (AtEnd lastHeightFound)
      | inl e => if ignore && IsDataCorruptionError e then scanFile fuel g gr height ignore lastHeightFound else Ret (Failed e)
      | inr msg =>
          match tw_Msg msg with
          | WalEndHeight h => if h =? height then Ret (Found gr) else scanFile fuel g gr height ignore h
          | _ => scanFile fuel g gr height ignore lastHeightFound
          end
      end
  end.

(** The files from the last one back; [n] is how many are left. *)
Fixpoint searchFiles (fuel n : nat) (g : Autofile.Group) (index height : Z) (ignore : bool) (lastHeightFound : Z) : go (WalError + option Autofile.GroupReader) :=
  match n with
  | O => Ret (inr None)
  | S n =>
      match Autofile.NewReader g index with
      | inl e => Ret (inl (ErrRead e))
      | inr gr =>
          r ← scanFile fuel g gr height ignore lastHeightFound;
          match r with
          | Found gr => Ret (inr (Some gr))
          | Failed e => Ret (inl e)
          | AtEnd last => if (0 <? last) && (last <? height) then Ret (inr None) else searchFiles fuel n g (index - 1) height ignore last
          end
      end
  end.
Definition scanFuel (g : Autofile.Group) : nat := S (length (Autofile.onDisk g)).
Definition SearchForEndHeight (wal : Autofile.Group) (height : Z) (ignore : bool) : go (WalError + option Autofile.GroupReader) :=
  searchFiles (scanFuel wal) (Z.to_nat (Autofile.maxIndex wal - Autofile.minIndex wal + 1)) wal (Autofile.maxIndex wal) height ignore (-1).
End Wal.

(** ** Replay *)

Section Replay.
Context `{WalCodec}.
Context `{Codec} `{Curves} `{Amino} `{ValidatorCodec} `{Block.BlockCodec} `{Block.TxDecoder} {Svc : Services}.

Inductive ReplayError := ReplayWal (e : WalError) | ErrHasEndHeight | ErrNoEndHeight.

(** Without a channel of steps, a step is only logged. *)
Definition readReplayMessage (msg : TimedWALMessage) : M unit :=
  match tw_Msg msg with
  | WalEndHeight _ => mret tt
  | WalStep _ _ _ => mret tt
  | WalMsg m peer => handleMsg m peer
  | WalTimeout ti => handleTimeout ti
  end.

Fixpoint replayLoop (fuel : nat) (g : Autofile.Group) (gr : Autofile.GroupReader) : M (option ReplayError) :=
  match fuel with
  | O => panic_ (PanicMsg "out of fuel")
  | S fuel =>
      '(gr, r) ← lift (Decode g gr);
      match r with
      | inl ErrEOF => mret None
      | inl DataCorruptionError => panic_ (PanicMsg "data has been corrupted in last height of consensus WAL")
      | inl e => mret (Some (ReplayWal e))
      | inr msg => readReplayMessage msg;; replayLoop fuel g gr
      end
  end.

Definition catchupReplay (wal : Autofile.Group) (csHeight : Z) : M (option ReplayError) :=
  r ← lift (SearchForEndHeight wal csHeight true);
  match r with
  | inl e => mret (Some (ReplayWal e))
  | inr (Some _) => mret (Some ErrHasEndHeight)
  | inr None =>
      r ← lift (SearchForEndHeight wal (sub64 csHeight 1) true);
      match r with
      | inl e => mret (Some (ReplayWal e))
      | inr None => mret (Some ErrNoEndHeight)
      | inr (Some gr) => replayLoop (scanFuel wal) wal gr
      end
  end.
End Replay.

(** ** The checksum detects a wrong byte *)

Definition uint32 (z : Z) : Prop := 0 <= z < 2 ^ 32.

Lemma uint32_bits z : uint32 z <-> 0 <= z /\ forall n, 32 <= n -> Z.testbit z n = false.
Proof.
  unfold uint32. split.
  - intros Hz. split; [lia|]. intros n Hn. destruct (decide (z = 0)) as [-> |Hne]; [apply Z.bits_0|]. apply Z.bits_above_log2; [lia|]. assert (Z.log2 z < 32) by (apply Z.log2_lt_pow2; lia). lia.
  - intros [Hz Hb]. split; [done|]. destruct (decide (z = 0)) as [-> |Hne]; [lia|]. apply Z.log2_lt_pow2; [lia|]. apply Z.nle_gt. intros Hl.
    specialize (Hb _ Hl). rewrite Z.bit_log2 in Hb by lia. done.
Qed.

Lemma crcTable_ok : Forall uint32 crcTable /\ length crcTable = 256%nat /\ NoDup ((fun t => Z.shiftr t 24) <$> crcTable).
Proof.
  split_and!; [|done|].
  - apply (bool_decide_unpack (Forall (fun t => 0 <= t < 2 ^ 32) crcTable)). vm_compute. done.
  - apply (bool_decide_unpack (NoDup ((fun t => Z.shiftr t 24) <$> crcTable))). vm_compute. done.
Qed.

Definition entry (x : Z) : Z := nth (Z.to_nat x) crcTable 0.
Lemma entry_ok x : 0 <= x < 256 -> uint32 (entry x).
Proof.
  intros Hx. destruct crcTable_ok as (Hu & Hl & _). unfold entry. rewrite Forall_forall in Hu. apply Hu. apply list_elem_of_In, nth_In. lia.
Qed.
Lemma entry_inj x y : 0 <= x < 256 -> 0 <= y < 256 -> Z.shiftr (entry x) 24 = Z.shiftr (entry y) 24 -> x = y.
Proof.
  intros Hx Hy E. destruct crcTable_ok as (_ & Hl & Hn). assert (Hk : forall z, 0 <= z < 256 -> ((fun t => Z.shiftr t 24) <$> crcTable) !! Z.to_nat z = Some (Z.shiftr (entry z) 24)).
  { intros z Hz. rewrite list_lookup_fmap. destruct (lookup_lt_is_Some_2 crcTable (Z.to_nat z)) as [t Et]; [lia|]. unfold entry. by rewrite (nth_lookup_Some _ _ 0 _ Et), Et. }
  pose proof (Hk x Hx) as E1. pose proof (Hk y Hy) as E2. rewrite E in E1. pose proof (NoDup_lookup _ _ _ _ Hn E1 E2). lia.
Qed.

Lemma low_byte x : 0 <= Z.land x 255 < 256.
Proof. change 255 with (Z.ones 8). rewrite Z.land_ones by lia. apply Z.mod_pos_bound. lia. Qed.

Lemma crcUpdate_ok s b : uint32 s -> uint32 (crcUpdate s b).
Proof.
  intros Hs. pose proof (entry_ok _ (low_byte (Z.lxor s (byte_Z b)))) as He. apply uint32_bits in Hs as [Hs Hsb]. apply uint32_bits in He as [He Heb]. unfold crcUpdate, entry in *. apply uint32_bits. split.
  - apply Z.lxor_nonneg. rewrite Z.shiftr_nonneg. tauto.
  - intros n Hn. rewrite Z.lxor_spec, Heb by done. rewrite Z.shiftr_spec by lia. rewrite Hsb by lia. done.
Qed.

(** The state and the byte can be recovered from the next state. *)
Lemma crcUpdate_split s s' b b' : uint32 s -> uint32 s' -> crcUpdate s b = crcUpdate s' b' ->
  Z.land (Z.lxor s (byte_Z b)) 255 = Z.land (Z.lxor s' (byte_Z b')) 255 /\ Z.shiftr s 8 = Z.shiftr s' 8.
Proof.
  intros Hs Hs' E. unfold crcUpdate in E. fold (entry (Z.land (Z.lxor s (byte_Z b)) 255)) in E. fold (entry (Z.land (Z.lxor s' (byte_Z b')) 255)) in E.
  assert (Hz : forall s, uint32 s -> Z.shiftr (Z.shiftr s 8) 24 = 0). { intros t Ht. rewrite Z.shiftr_shiftr by lia. rewrite Z.shiftr_div_pow2 by lia. apply Z.div_small. exact Ht. }
  assert (Ex : Z.land (Z.lxor s (byte_Z b)) 255 = Z.land (Z.lxor s' (byte_Z b')) 255).
  { apply entry_inj; [apply low_byte..|]. apply (f_equal (fun z => Z.shiftr z 24)) in E. by rewrite !Z.shiftr_lxor, !Hz, !Z.lxor_0_r in E by done. }
  split; [done|]. rewrite Ex in E. apply (f_equal (Z.lxor (entry (Z.land (Z.lxor s' (byte_Z b')) 255)))) in E. by rewrite <- !Z.lxor_assoc, !Z.lxor_nilpotent, !Z.lxor_0_l in E.
Qed.

Lemma split_low s : s = Z.lor (Z.shiftl (Z.shiftr s 8) 8) (Z.land s 255).
Proof.
  apply Z.bits_inj'. intros n Hn. rewrite Z.lor_spec, Z.land_spec, Z.shiftl_spec by lia. change 255 with (Z.ones 8). destruct (decide (n < 8)).
  - rewrite (Z.testbit_neg_r _ (n - 8)) by lia. rewrite Z.ones_spec_low by lia. by rewrite andb_true_r.
  - rewrite Z.shiftr_spec by lia. rewrite Z.ones_spec_high by lia. rewrite andb_false_r, orb_false_r. f_equal. lia.
Qed.

Lemma land_lxor_inj s s' m : Z.land (Z.lxor s m) 255 = Z.land (Z.lxor s' m) 255 -> Z.land s 255 = Z.land s' 255.
Proof.
  intros E. assert (Hd : forall t, Z.land (Z.lxor t m) 255 = Z.lxor (Z.land t 255) (Z.land m 255)).
  { intros t. apply Z.bits_inj'. intros n Hn. rewrite Z.land_spec, !Z.lxor_spec, !Z.land_spec. by destruct (Z.testbit t n), (Z.testbit m n), (Z.testbit 255 n). }
  rewrite !Hd in E. apply (f_equal (fun z => Z.lxor z (Z.land m 255))) in E. by rewrite !Z.lxor_assoc, !Z.lxor_nilpotent, !Z.lxor_0_r in E.
Qed.

Lemma crcUpdate_inj s s' b : uint32 s -> uint32 s' -> crcUpdate s b = crcUpdate s' b -> s = s'.
Proof. intros Hs Hs' E. destruct (crcUpdate_split _ _ _ _ Hs Hs' E) as [E1 E2]. rewrite (split_low s), (split_low s'), E2. f_equal. by eapply land_lxor_inj. Qed.
Lemma crcUpdate_byte s b b' : uint32 s -> crcUpdate s b = crcUpdate s b' -> b = b'.
Proof.
  intros Hs E. destruct (crcUpdate_split _ _ _ _ Hs Hs E) as [E1 _]. rewrite !(Z.lxor_comm s) in E1. apply land_lxor_inj in E1.
  change 255 with (Z.ones 8) in E1. rewrite !Z.land_ones in E1 by lia. rewrite !Z.mod_small in E1 by apply byte_Z_range. by apply byte_Z_inj.
Qed.

Lemma crc_fold_inj l : forall s s', uint32 s -> uint32 s' -> foldl crcUpdate s l = foldl crcUpdate s' l -> s = s'.
Proof. induction l as [|b l IH]; intros s s' Hs Hs' E; [done|]. cbn in E. apply IH in E; [|by apply crcUpdate_ok..]. by eapply crcUpdate_inj. Qed.
Lemma crc_fold_ok l : forall s, uint32 s -> uint32 (foldl crcUpdate s l).
Proof. induction l as [|b l IH]; intros s Hs; [done|]. cbn. apply IH. by apply crcUpdate_ok. Qed.

Lemma mask32_ok : uint32 mask32.
Proof. unfold uint32, mask32. lia. Qed.
Lemma Checksum_ok data : uint32 (Checksum data).
Proof.
  pose proof (crc_fold_ok data _ mask32_ok) as Hf. unfold Checksum. apply uint32_bits in Hf as [H1 H2]. destruct (proj1 (uint32_bits _) mask32_ok) as [H3 H4]. apply uint32_bits. split; [apply Z.lxor_nonneg; tauto|].
  intros n Hn. by rewrite Z.lxor_spec, H2, H4.
Qed.
Lemma Checksum_byte l b b' r : b <> b' -> Checksum (l ++ b :: r) <> Checksum (l ++ b' :: r).
Proof.
  intros Hne E. unfold Checksum in E. apply (f_equal (fun z => Z.lxor z mask32)) in E. rewrite !Z.lxor_assoc, !Z.lxor_nilpotent, !Z.lxor_0_r in E. rewrite !foldl_app in E. cbn [foldl] in E.
  pose proof (crc_fold_ok l _ mask32_ok) as Hs. apply crc_fold_inj in E; [|by apply crcUpdate_ok..]. by apply crcUpdate_byte in E.
Qed.

(** The check value of the polynomial. *)
Lemma Checksum_check : Checksum (str "123456789") = 0xe3069283.
Proof. vm_compute. reflexivity. Qed.

(** ** Reading records *)

Lemma Uint32_Put v : uint32 v -> Uint32 (PutUint32 v) = v.
Proof.
  unfold uint32. intros Hv. unfold Uint32, PutUint32. cbn [foldl]. rewrite !byte_Z_of_byte. Z.to_euclidean_division_equations. lia.
Qed.

Class WalLaws `{WalCodec} : Prop := {
  unmarshal_timed : forall v, UnmarshalTimed (MarshalTimed v) = Some v;
  timed_nonempty : forall v, MarshalTimed v <> [] }.

Section Records.
Context `{WalLaws}.

(** What the log holds: messages, and records that were damaged but kept
    their length. *)
Inductive item := Whole (v : TimedWALMessage) | Damaged (crc : Z) (data : bytes).
Definition record (crc : Z) (data : bytes) : bytes := PutUint32 crc ++ PutUint32 (zlen data) ++ data.
Definition encItem (x : item) : bytes := match x with Whole v => record (Checksum (MarshalTimed v)) (MarshalTimed v) | Damaged crc data => record crc data end.
Definition encItems (l : list item) : bytes := l ≫= encItem.
Definition fits (data : bytes) : Prop := 0 < zlen data <= maxMsgSizeBytes.
Definition itemOK (x : item) : Prop :=
  match x with
  | Whole v => fits (MarshalTimed v)
  | Damaged crc data => uint32 crc /\ fits data /\ (Checksum data <> crc \/ UnmarshalTimed data = None)
  end.
Definition decoded (x : item) : WalError + TimedWALMessage := match x with Whole v => inr v | Damaged _ _ => inl DataCorruptionError end.

Lemma encode_whole v : fits (MarshalTimed v) -> encode v = encItem (Whole v).
Proof.
  intros Hf. unfold encode, encItem, record. assert (E : zlen (MarshalTimed v) mod 2 ^ 32 = zlen (MarshalTimed v)) by (apply Z.mod_small; unfold fits, maxMsgSizeBytes in Hf; lia).
  rewrite E. do 2 f_equal. apply take_ge. unfold zlen. lia.
Qed.

Lemma Read_exact g gr a s : a <> [] -> Autofile.gr_curIndex gr <= Autofile.maxIndex g -> Autofile.remaining g gr = Some (a ++ s) ->
  exists gr', Autofile.Read g gr (length a) = Ret (gr', a, None) /\ Autofile.gr_curIndex gr' <= Autofile.maxIndex g /\ Autofile.remaining g gr' = Some s.
Proof.
  intros Hne Hi Hr. destruct (Autofile.readBytes_spec g gr (length a) (a ++ s)) as (gr' & E & Hi' & _ & Hr'); [by destruct a; [|cbn; lia]|done|done|].
  exists gr'. rewrite E, take_app_length, drop_app_length in *. rewrite length_app, (proj2 (Nat.leb_le _ _)) by lia. done.
Qed.

Lemma Decode_item g gr x s : itemOK x -> Autofile.gr_curIndex gr <= Autofile.maxIndex g -> Autofile.remaining g gr = Some (encItem x ++ s) ->
  exists gr', Decode g gr = Ret (gr', decoded x) /\ Autofile.gr_curIndex gr' <= Autofile.maxIndex g /\ Autofile.remaining g gr' = Some s.
Proof.
  intros Hx Hi Hr. assert (Hrec : exists crc data, encItem x = record crc data /\ uint32 crc /\ fits data /\
    decoded x = if negb (Checksum data =? crc) then inl DataCorruptionError else match UnmarshalTimed data with None => inl DataCorruptionError | Some v => inr v end).
  { destruct x as [v|crc data]; cbn in *.
    - eexists _, _. split; [done|]. split; [apply Checksum_ok|]. split; [done|]. by rewrite Z.eqb_refl, unmarshal_timed.
    - destruct Hx as (Hu & Hf & Hbad). exists crc, data. split_and!; try done. destruct (Z.eqb_spec (Checksum data) crc) as [E|]; [|done]. destruct Hbad as [?| ->]; done. }
  destruct Hrec as (crc & data & E & Hu & Hf & Hd). rewrite E in Hr. unfold record in Hr. rewrite <- !app_assoc in Hr. unfold Decode.
  destruct (Read_exact g gr (PutUint32 crc) _ ltac:(done) Hi Hr) as (g1 & E1 & I1 & R1). change (length (PutUint32 crc)) with 4%nat in E1. rewrite E1. cbn [mbind go_mbind].
  destruct (Read_exact g g1 (PutUint32 (zlen data)) _ ltac:(done) I1 R1) as (g2 & E2 & I2 & R2). change (length (PutUint32 (zlen data))) with 4%nat in E2. rewrite E2. cbn [mbind go_mbind].
  assert (Hl : uint32 (zlen data)) by (unfold uint32, fits, maxMsgSizeBytes in *; lia). rewrite !Uint32_Put by done. destruct Hf as [Hf1 Hf2]. rewrite (proj2 (Z.ltb_ge _ _)) by done.
  destruct (Read_exact g g2 data _ ltac:(by intros ->) I2 R2) as (g3 & E3 & I3 & R3). unfold zlen at 1. rewrite Nat2Z.id, E3. cbn [mbind go_mbind]. rewrite Hd. exists g3. split; [|done].
  destruct (negb _); [done|]. by destruct (UnmarshalTimed data).
Qed.

Lemma Read_short g gr n s : (length s < n)%nat -> Autofile.gr_curIndex gr <= Autofile.maxIndex g -> Autofile.remaining g gr = Some s ->
  exists gr', Autofile.Read g gr n = Ret (gr', s, Some Autofile.EOF).
Proof.
  intros Hn Hi Hr. destruct (Autofile.readBytes_spec g gr n s) as (gr' & E & _); [lia|done|done|]. exists gr'. by rewrite E, take_ge, (proj2 (Nat.leb_gt _ _)) by lia.
Qed.

(** At the end, and at the beginning of a record that was not written in full. *)
Definition torn (s : bytes) : Prop := exists x rest, itemOK x /\ rest <> [] /\ encItem x = s ++ rest.
Lemma Decode_torn g gr s : torn s -> Autofile.gr_curIndex gr <= Autofile.maxIndex g -> Autofile.remaining g gr = Some s ->
  exists gr', Decode g gr = Ret (gr', inl (if (length s <? 4)%nat then ErrEOF else ErrRead Autofile.EOF)).
Proof.
  intros (x & rest & Hx & Hne & E) Hi Hr. assert (Hrec : exists crc data, encItem x = record crc data /\ fits data /\ uint32 crc).
  { destruct x as [v|crc data]; cbn in *; eexists _, _; (split; [done|]); [split; [done|apply Checksum_ok]|tauto]. }
  destruct Hrec as (crc & data & Er & Hf & Hu). rewrite Er in E. unfold record in E. unfold Decode. destruct (Nat.ltb_spec (length s) 4) as [Hs|Hs].
  { destruct (Read_short g gr 4 s Hs Hi Hr) as (gr' & ->). by eexists. }
  assert (E1 : exists s1, s = PutUint32 crc ++ s1 /\ PutUint32 (zlen data) ++ data = s1 ++ rest).
  { exists (drop 4 s). pose proof (f_equal (take 4) E) as Et. pose proof (f_equal (drop 4) E) as Ed. rewrite (take_app_le s), (take_app_length' (PutUint32 crc)) in Et by done.
    rewrite (drop_app_le s), (drop_app_length' (PutUint32 crc)) in Ed by done. rewrite Et. by rewrite take_drop. }
  destruct E1 as (s1 & -> & E1). destruct (Read_exact g gr (PutUint32 crc) s1 ltac:(done) Hi Hr) as (g1 & Eg1 & I1 & R1). change (length (PutUint32 crc)) with 4%nat in Eg1. rewrite Eg1. cbn [mbind go_mbind].
  destruct (decide (length s1 < 4)%nat) as [Hs1|Hs1]; [destruct (Read_short g g1 4 s1 Hs1 I1 R1) as (gr' & ->); by eexists|].
  assert (E2 : exists s2, s1 = PutUint32 (zlen data) ++ s2 /\ data = s2 ++ rest).
  { exists (drop 4 s1). pose proof (f_equal (take 4) E1) as Et. pose proof (f_equal (drop 4) E1) as Ed. rewrite (take_app_le s1), (take_app_length' (PutUint32 (zlen data))) in Et by (done || lia).
    rewrite (drop_app_le s1), (drop_app_length' (PutUint32 (zlen data))) in Ed by (done || lia). rewrite Et. by rewrite take_drop. }
  destruct E2 as (s2 & -> & E2). destruct (Read_exact g g1 (PutUint32 (zlen data)) s2 ltac:(done) I1 R1) as (g2 & Eg2 & I2 & R2). change (length (PutUint32 (zlen data))) with 4%nat in Eg2. rewrite Eg2. cbn [mbind go_mbind].
  destruct Hf as [Hf1 Hf2]. rewrite Uint32_Put by (unfold uint32, maxMsgSizeBytes in *; lia). rewrite (proj2 (Z.ltb_ge _ _)) by done.
  destruct (Read_short g g2 (Z.to_nat (zlen data)) s2) as (gr' & ->); [|done|done|by eexists]. unfold zlen. rewrite Nat2Z.id, E2, length_app. destruct rest; [done|cbn; lia].
Qed.
Lemma Decode_end g gr : Autofile.gr_curIndex gr <= Autofile.maxIndex g -> Autofile.remaining g gr = Some [] -> exists gr', Decode g gr = Ret (gr', inl ErrEOF).
Proof. intros Hi Hr. unfold Decode. destruct (Read_short g gr 4 [] ltac:(cbn; lia) Hi Hr) as (gr' & ->). by eexists. Qed.
End Records.

(** ** Searching *)

Section Search.
Context `{WalLaws}.

Definition markerOf (x : item) : option Z := match x with Whole v => match tw_Msg v with WalEndHeight h => Some h | _ => None end | Damaged _ _ => None end.
Definition markers (l : list item) : list Z := omap markerOf l.
Definition lastMarker (a : Z) (l : list item) : Z := default a (last (markers l)).
(** What follows the first marker of [h]. *)
Fixpoint afterMarker (h : Z) (l : list item) : option (list item) :=
  match l with
  | [] => None
  | x :: l => if bool_decide (markerOf x = Some h) then Some l else afterMarker h l
  end.

Lemma afterMarker_None h l : afterMarker h l = None <-> h ∉ markers l.
Proof.
  induction l as [|x l IH]; cbn [afterMarker]; [split; [intros _; apply not_elem_of_nil|done]|]. unfold markers in *. cbn [omap list_omap]. case_bool_decide as Hx.
  - rewrite Hx. split; [done|]. intros Hn. by destruct Hn; left.
  - rewrite IH. destruct (markerOf x) as [m|]; [|done]. rewrite not_elem_of_cons. split; [intros Hn; split; [congruence|done]|tauto].
Qed.
Lemma afterMarker_app h l1 l2 : h ∉ markers l1 -> afterMarker h (l1 ++ l2) = afterMarker h l2.
Proof.
  intros Hn%afterMarker_None. induction l1 as [|x l1 IH]; [done|]. cbn in *. case_bool_decide; [done|]. by apply IH.
Qed.
Lemma markers_app l1 l2 : markers (l1 ++ l2) = markers l1 ++ markers l2.
Proof. apply omap_app. Qed.
Lemma encItems_app l1 l2 : encItems (l1 ++ l2) = encItems l1 ++ encItems l2.
Proof. unfold encItems. apply bind_app. Qed.
Lemma encItems_length l : (length l <= length (encItems l))%nat.
Proof.
  induction l as [|x l IH]; [done|]. unfold encItems in *. cbn. rewrite length_app. assert (1 <= length (encItem x))%nat by (destruct x; cbn; lia). lia.
Qed.

(** A reader that goes through the log to a tail of fewer than four bytes, or
    of more. *)
Lemma scan_spec g h : forall fuel gr l t a, (length l < fuel)%nat -> Forall itemOK l -> (t = [] \/ torn t) -> Autofile.gr_curIndex gr <= Autofile.maxIndex g -> Autofile.remaining g gr = Some (encItems l ++ t) ->
  match afterMarker h l with
  | Some l' => exists gr', scanFile fuel g gr h true a = Ret (Found gr') /\ Autofile.gr_curIndex gr' <= Autofile.maxIndex g /\ Autofile.remaining g gr' = Some (encItems l' ++ t)
  | None => scanFile fuel g gr h true a = Ret (if (length t <? 4)%nat then AtEnd (lastMarker a l) else Failed (ErrRead Autofile.EOF))
  end.
Proof.
  induction fuel as [|fuel IH]; intros gr l t a Hf Hl Ht Hi Hr; [lia|]. destruct l as [|x l]; cbn [afterMarker].
  - cbn in Hr. cbn [scanFile]. assert (Hd : exists gr', Decode g gr = Ret (gr', inl (if (length t <? 4)%nat then ErrEOF else ErrRead Autofile.EOF))).
    { destruct Ht as [-> |Ht]; [by apply Decode_end|by apply Decode_torn]. }
    destruct Hd as (gr' & ->). cbn [mbind go_mbind]. by destruct (length t <? 4)%nat.
  - apply Forall_cons in Hl as [Hx Hl]. unfold encItems in Hr. cbn [mbind list_bind] in Hr. rewrite <- app_assoc in Hr. destruct (Decode_item g gr x _ Hx Hi Hr) as (g1 & Ed & I1 & R1). fold (encItems l) in R1.
    cbn [scanFile]. rewrite Ed. cbn [mbind go_mbind]. cbn [length] in Hf. specialize (IH g1 l t).
    unfold lastMarker, markers. cbn [omap list_omap]. fold (markers l). destruct x as [v|crc data]; cbn [decoded markerOf].
    + destruct (tw_Msg v) as [| | |m]; try (rewrite bool_decide_false by done; apply IH; (done || lia)). destruct (Z.eqb_spec m h) as [-> |Hne].
      * rewrite bool_decide_true by done. by exists g1.
      * rewrite bool_decide_false by congruence. specialize (IH m ltac:(lia) Hl Ht I1 R1). destruct (afterMarker h l); [done|]. rewrite IH. unfold lastMarker. rewrite last_cons. by destruct (last (markers l)).
    + rewrite bool_decide_false by done. cbn [IsDataCorruptionError andb]. apply IH; (done || lia).
Qed.

(** The log in files that begin with a record: [recs i] is in file [i], and
    [t] the tail of the head. *)
Fixpoint itemsFrom (recs : Z -> list item) (k : nat) (i : Z) : list item := match k with O => [] | S k => recs i ++ itemsFrom recs k (i + 1) end.
Record logged (g : Autofile.Group) (recs : Z -> list item) (t : bytes) : Prop := {
  lg_ok : Autofile.groupOK g;
  lg_items : forall i, Autofile.minIndex g <= i <= Autofile.maxIndex g -> Forall itemOK (recs i);
  lg_files : forall i, Autofile.minIndex g <= i < Autofile.maxIndex g -> Autofile.fileAt g i = Some (encItems (recs i));
  lg_head : Autofile.fileAt g (Autofile.maxIndex g) = Some (encItems (recs (Autofile.maxIndex g)) ++ t);
  lg_tail : t = [] \/ torn t }.
Definition itemsAt (g : Autofile.Group) (recs : Z -> list item) (i : Z) : list item := itemsFrom recs (Z.to_nat (Autofile.maxIndex g - i + 1)) i.
Definition allItems (g : Autofile.Group) (recs : Z -> list item) : list item := itemsAt g recs (Autofile.minIndex g).

Lemma itemsAt_end g recs i : Autofile.maxIndex g < i -> itemsAt g recs i = [].
Proof. intros Hi. unfold itemsAt. by replace (Z.to_nat _) with 0%nat by lia. Qed.
Lemma itemsAt_cons g recs i : i <= Autofile.maxIndex g -> itemsAt g recs i = recs i ++ itemsAt g recs (i + 1).
Proof. intros Hi. unfold itemsAt. by replace (Z.to_nat (Autofile.maxIndex g - i + 1)) with (S (Z.to_nat (Autofile.maxIndex g - (i + 1) + 1))) by lia. Qed.
Lemma itemsAt_split g recs : forall k i, i + Z.of_nat k <= Autofile.maxIndex g + 1 -> itemsAt g recs i = itemsFrom recs k i ++ itemsAt g recs (i + Z.of_nat k).
Proof.
  induction k as [|k IH]; intros i Hk; [by rewrite Z.add_0_r|]. rewrite itemsAt_cons by lia. cbn [itemsFrom]. rewrite <- app_assoc. f_equal. rewrite (IH (i + 1)) by lia. do 2 f_equal. lia.
Qed.

Lemma logged_at g recs t i : logged g recs t -> Autofile.minIndex g <= i <= Autofile.maxIndex g -> Autofile.streamFrom g i = Some (encItems (itemsAt g recs i) ++ t) /\ Forall itemOK (itemsAt g recs i).
Proof.
  intros Hl Hi. assert (Hgen : forall k j, Autofile.minIndex g <= j -> j + Z.of_nat k = Autofile.maxIndex g -> Autofile.streamFrom g j = Some (encItems (itemsAt g recs j) ++ t) /\ Forall itemOK (itemsAt g recs j)).
  { induction k as [|k IH]; intros j Hj Hk; rewrite Autofile.streamFrom_cons, itemsAt_cons by lia; (split; [|apply Forall_app; split; [apply (lg_items _ _ _ Hl); lia|]]).
    - rewrite Autofile.streamFrom_end, (itemsAt_end g) by lia. replace j with (Autofile.maxIndex g) by lia. rewrite (lg_head _ _ _ Hl). cbn. by rewrite !app_nil_r.
    - rewrite itemsAt_end by lia. done.
    - destruct (IH (j + 1)) as [-> _]; [lia..|]. rewrite (lg_files _ _ _ Hl) by lia. cbn. by rewrite encItems_app, <- app_assoc.
    - apply IH; lia. }
  apply (Hgen (Z.to_nat (Autofile.maxIndex g - i))); lia.
Qed.

Lemma logged_fuel g recs t i : logged g recs t -> Autofile.minIndex g <= i <= Autofile.maxIndex g -> (length (itemsAt g recs i) < scanFuel g)%nat.
Proof.
  intros Hl Hi. unfold scanFuel. pose proof (logged_at g recs t (Autofile.minIndex g) Hl ltac:(lia)) as [Hs _].
  assert (Hh : is_Some (Autofile.d_head (Autofile.g_disk g))). { pose proof (lg_head _ _ _ Hl) as E. unfold Autofile.fileAt in E. rewrite Z.eqb_refl in E. by eexists. }
  rewrite (Autofile.stream_rolled g (lg_ok _ _ _ Hl) Hh) in Hs. injection Hs as ->. rewrite length_app.
  pose proof (encItems_length (itemsAt g recs (Autofile.minIndex g))). rewrite (itemsAt_split g recs (Z.to_nat (i - Autofile.minIndex g)) (Autofile.minIndex g)) in * by lia.
  replace (Autofile.minIndex g + Z.of_nat (Z.to_nat (i - Autofile.minIndex g))) with i in * by lia. rewrite length_app in *. lia.
Qed.

(** The heights of the markers grow; markers of height 0 do not matter to a
    search for a later height, since a start writes one to an empty head. *)
Definition relevant (h m : Z) : Prop := 0 < m \/ h <= 0.
#[local] Instance relevant_dec h m : Decision (relevant h m).
Proof. unfold relevant. apply _. Defined.
Definition ordered (h : Z) (l : list item) : Prop := StronglySorted Z.lt (filter (relevant h) (markers l)).

Lemma ordered_fresh h l1 l2 : ordered h (l1 ++ l2) -> h ∈ markers l2 -> h ∉ markers l1.
Proof.
  unfold ordered. rewrite markers_app, filter_app. intros Hs H2 H1. apply StronglySorted_app in Hs as (Hs & _).
  assert (Hr : relevant h h) by (unfold relevant; lia). specialize (Hs h h). rewrite !list_elem_of_filter in Hs. specialize (Hs (conj Hr H1) (conj Hr H2)). lia.
Qed.
Lemma ordered_last h l1 l2 m : ordered h (l1 ++ l2) -> last (markers l2) = Some m -> 0 < m < h -> h ∉ markers (l1 ++ l2).
Proof.
  unfold ordered. rewrite markers_app. intros Hs Hm Hlt Hin. assert (E : exists l, markers l1 ++ markers l2 = l ++ [m]). { apply last_Some in Hm as [l ->]. exists (markers l1 ++ l). by rewrite app_assoc. }
  destruct E as [l E]. rewrite E in Hs, Hin. rewrite filter_app in Hs. apply elem_of_app in Hin as [Hin|Hin%list_elem_of_singleton]; [|lia].
  apply StronglySorted_app in Hs as (Hs & _). specialize (Hs h m). rewrite !list_elem_of_filter, list_elem_of_singleton in Hs.
  assert (h < m) by (apply Hs; unfold relevant; (split; [lia|done])). lia.
Qed.

Lemma searchFiles_spec g recs t h : logged g recs t -> (length t < 4)%nat -> ordered h (allItems g recs) ->
  forall n index, Z.of_nat n <= Autofile.maxIndex g - Autofile.minIndex g + 1 -> index = Autofile.minIndex g + Z.of_nat n - 1 -> h ∉ markers (itemsAt g recs (index + 1)) ->
  exists r, searchFiles (scanFuel g) n g index h true (lastMarker (-1) (itemsAt g recs (index + 1))) = Ret (inr r) /\
    match afterMarker h (allItems g recs) with
    | Some l => exists gr, r = Some gr /\ Autofile.gr_curIndex gr <= Autofile.maxIndex g /\ Autofile.remaining g gr = Some (encItems l ++ t)
    | None => r = None
    end.
Proof.
  intros Hl Ht Hs. induction n as [|n IH]; intros index Hn -> Hh; cbn [searchFiles].
  { exists None. split; [done|]. replace (Autofile.minIndex g + Z.of_nat 0 - 1 + 1) with (Autofile.minIndex g) in Hh by lia. unfold allItems. by rewrite (proj2 (afterMarker_None h _) Hh). }
  replace (Autofile.minIndex g + Z.of_nat (S n) - 1) with (Autofile.minIndex g + Z.of_nat n) in * by lia. set (i := Autofile.minIndex g + Z.of_nat n) in *.
  destruct (logged_at g recs t i Hl ltac:(lia)) as [Hst Hok]. destruct (Autofile.openFile_ok g i _ ltac:(lia) Hst) as (gr & Eo & Ei & _ & Hr). unfold Autofile.NewReader. rewrite Eo.
  pose proof (scan_spec g h (scanFuel g) gr _ t (lastMarker (-1) (itemsAt g recs (i + 1))) (logged_fuel g recs t i Hl ltac:(lia)) Hok (lg_tail _ _ _ Hl) ltac:(lia) Hr) as Hsc.
  assert (Eall : allItems g recs = itemsFrom recs n (Autofile.minIndex g) ++ itemsAt g recs i) by (unfold allItems; rewrite (itemsAt_split g recs n) by lia; done).
  rewrite Eall in Hs |- *. destruct (afterMarker h (itemsAt g recs i)) as [l|] eqn:Ea.
  - destruct Hsc as (gr' & -> & Hi' & Hr'). cbn [mbind go_mbind]. eexists. split; [done|]. rewrite afterMarker_app, Ea; [by exists gr'|].
    apply (ordered_fresh h _ _ Hs). apply dec_stable. intros Hn2%afterMarker_None. congruence.
  - rewrite Hsc. rewrite (proj2 (Nat.ltb_lt _ _)) by done. cbn [mbind go_mbind]. apply afterMarker_None in Ea as Hni.
    assert (El : lastMarker (lastMarker (-1) (itemsAt g recs (i + 1))) (itemsAt g recs i) = lastMarker (-1) (itemsAt g recs i)).
    { unfold lastMarker. rewrite (itemsAt_cons g recs i) by lia. rewrite markers_app, last_app. by destruct (last (markers (itemsAt g recs (i + 1)))). }
    rewrite El. destruct ((0 <? _) && _) eqn:Eb.
    + exists None. split; [done|]. apply andb_true_iff in Eb as [H1%Z.ltb_lt H2%Z.ltb_lt]. unfold lastMarker in H1, H2. destruct (last (markers (itemsAt g recs i))) as [m|] eqn:Em; [|cbn in H1; lia].
      pose proof (ordered_last h _ _ m Hs Em (conj H1 H2)) as Hnot. by rewrite (proj2 (afterMarker_None h _) Hnot).
    + rewrite <- Eall. specialize (IH (i - 1) ltac:(lia) ltac:(lia)). replace (i - 1 + 1) with i in IH by lia. by apply IH.
Qed.

Lemma search_ok g recs t h : logged g recs t -> (length t < 4)%nat -> ordered h (allItems g recs) ->
  exists r, SearchForEndHeight g h true = Ret (inr r) /\
    match afterMarker h (allItems g recs) with
    | Some l => exists gr, r = Some gr /\ Autofile.gr_curIndex gr <= Autofile.maxIndex g /\ Autofile.remaining g gr = Some (encItems l ++ t)
    | None => r = None
    end.
Proof.
  intros Hl Ht Hs. pose proof (Autofile.gok_range g (lg_ok _ _ _ Hl)) as Hr. unfold SearchForEndHeight.
  pose proof (searchFiles_spec g recs t h Hl Ht Hs (Z.to_nat (Autofile.maxIndex g - Autofile.minIndex g + 1)) (Autofile.maxIndex g) ltac:(lia) ltac:(lia)) as Hx.
  rewrite (itemsAt_end g recs (Autofile.maxIndex g + 1)) in Hx by lia. apply Hx. apply not_elem_of_nil.
Qed.

(** A tail of four bytes or more is an error before anything is found. *)
Lemma search_torn g recs t h : logged g recs t -> (4 <= length t)%nat -> h ∉ markers (allItems g recs) -> SearchForEndHeight g h true = Ret (inl (ErrRead Autofile.EOF)).
Proof.
  intros Hl Ht Hh. pose proof (Autofile.gok_range g (lg_ok _ _ _ Hl)) as Hr. unfold SearchForEndHeight.
  replace (Z.to_nat (Autofile.maxIndex g - Autofile.minIndex g + 1)) with (S (Z.to_nat (Autofile.maxIndex g - Autofile.minIndex g))) by lia. cbn [searchFiles].
  set (i := Autofile.maxIndex g) in *. destruct (logged_at g recs t i Hl ltac:(lia)) as [Hst Hok]. destruct (Autofile.openFile_ok g i _ ltac:(lia) Hst) as (gr & Eo & Ei & _ & Hrem). unfold Autofile.NewReader. rewrite Eo.
  pose proof (scan_spec g h (scanFuel g) gr _ t (-1) (logged_fuel g recs t i Hl ltac:(lia)) Hok (lg_tail _ _ _ Hl) ltac:(lia) Hrem) as Hsc.
  rewrite (proj2 (afterMarker_None h _)) in Hsc; [by rewrite Hsc, (proj2 (Nat.ltb_ge _ _)) by done|].
  intros Hin. apply Hh. unfold allItems. rewrite (itemsAt_split g recs (Z.to_nat (i - Autofile.minIndex g)) (Autofile.minIndex g)) by lia.
  replace (Autofile.minIndex g + Z.of_nat (Z.to_nat (i - Autofile.minIndex g))) with i by lia. rewrite markers_app. apply elem_of_app. by right.
Qed.
End Search.

(** ** Writing, crashing and starting again *)

Section Crash.
Context `{WalLaws}.

(** Messages written to the buffer, messages saved with [WriteSync], and the tick
    that may rotate the head. *)
Inductive walOp := opWrite (now : Time) (msg : WalEntry) | opSave (now : Time) (msg : WalEntry) | opTick.
Definition applyWal (o : walOp) (g : Autofile.Group) : go Autofile.Group :=
  match o with opWrite now msg => Ret (Write g now msg) | opSave now msg => Ret (WriteSync g now msg) | opTick => Autofile.checkHeadSizeLimit g end.
Definition saved (ops : list walOp) : list TimedWALMessage := omap (fun o => match o with opWrite now msg | opSave now msg => Some (mkTimed now msg) | opTick => None end) ops.
(** How many of the last messages were not synced; [None] if the head may be
    rotated while there are such. *)
Fixpoint unsynced (u : nat) (ops : list walOp) : option nat :=
  match ops with
  | [] => Some u
  | opWrite _ _ :: ops => unsynced (S u) ops
  | opSave _ _ :: ops => unsynced 0 ops
  | opTick :: ops => match u with O => unsynced 0 ops | S _ => None end
  end.
(** A crash leaves the files, with [p] of what was not written yet. *)
Definition crash (g : Autofile.Group) (p : bytes) : Autofile.Disk := match p with [] => Autofile.g_disk g | _ => Autofile.af_Write (Autofile.g_disk g) p end.
(** It is a part of the buffer and of a record that was being written. *)
Definition partly (g : Autofile.Group) (p : bytes) : Prop := exists v rest, fits (MarshalTimed v) /\ rest <> [] /\ Autofile.g_headBuf g ++ encode v = p ++ rest.

(** The files hold the records [recs], but for the end of the last [u] of them,
    which is in the buffer. *)
Record tracked (g : Autofile.Group) (recs : Z -> list item) (u : nat) : Prop := {
  sy_ok : Autofile.groupOK g;
  sy_min : Autofile.minIndex g = 0;
  sy_files : forall i, 0 <= i < Autofile.maxIndex g -> Autofile.d_rolled (Autofile.g_disk g) !! i = Some (encItems (recs i));
  sy_head : default [] (Autofile.d_head (Autofile.g_disk g)) ++ Autofile.g_headBuf g = encItems (recs (Autofile.maxIndex g));
  sy_items : forall i, Forall itemOK (recs i);
  sy_last : exists l1 l2, recs (Autofile.maxIndex g) = l1 ++ l2 /\ length l2 = u /\ (length (Autofile.g_headBuf g) <= length (encItems l2))%nat }.

Lemma tracked_buf g recs : tracked g recs 0 -> Autofile.g_headBuf g = [].
Proof. intros Hs. destruct (sy_last _ _ _ Hs) as (l1 & l2 & _ & ->%nil_length_inv & Hl). by apply nil_length_inv, Nat.le_0_r. Qed.

Lemma itemsFrom_ext recs recs' k : forall i, (forall j, i <= j < i + Z.of_nat k -> recs' j = recs j) -> itemsFrom recs' k i = itemsFrom recs k i.
Proof. induction k as [|k IH]; intros i Hj; cbn; [done|]. rewrite Hj by lia. f_equal. apply IH. intros j Hk. apply Hj. lia. Qed.
Lemma allItems_head g recs : Autofile.groupOK g -> allItems g recs = itemsFrom recs (Z.to_nat (Autofile.maxIndex g - Autofile.minIndex g)) (Autofile.minIndex g) ++ recs (Autofile.maxIndex g).
Proof.
  intros [Hr _]. unfold allItems. rewrite (itemsAt_split g recs (Z.to_nat (Autofile.maxIndex g - Autofile.minIndex g))) by lia. f_equal.
  replace (Autofile.minIndex g + Z.of_nat _) with (Autofile.maxIndex g) by lia. rewrite itemsAt_cons, itemsAt_end, app_nil_r by lia. done.
Qed.

Lemma Write_head g p : Autofile.maxIndex (Autofile.Write g p) = Autofile.maxIndex g /\ Autofile.minIndex (Autofile.Write g p) = Autofile.minIndex g /\
  Autofile.d_rolled (Autofile.g_disk (Autofile.Write g p)) = Autofile.d_rolled (Autofile.g_disk g) /\ (length (Autofile.g_headBuf (Autofile.Write g p)) <= length (Autofile.g_headBuf g) + length p)%nat /\
  default [] (Autofile.d_head (Autofile.g_disk (Autofile.Write g p))) ++ Autofile.g_headBuf (Autofile.Write g p) = (default [] (Autofile.d_head (Autofile.g_disk g)) ++ Autofile.g_headBuf g) ++ p.
Proof.
  unfold Autofile.Write. pose proof (Autofile.buf_Write_split (Autofile.g_headBuf g) p) as Hb. destruct (Autofile.buf_Write _ _) as [out b]. pose proof (f_equal length Hb) as Hl. rewrite !length_app in Hl.
  split; [done|]. split; [done|]. split; [by destruct out|]. split; [cbn; lia|]. rewrite <- app_assoc, <- Hb. destruct out as [|x out]; cbn; [done|]. unfold id. by rewrite <- app_assoc.
Qed.
Lemma Flush_head g : Autofile.maxIndex (Autofile.Flush g) = Autofile.maxIndex g /\ Autofile.minIndex (Autofile.Flush g) = Autofile.minIndex g /\
  Autofile.d_rolled (Autofile.g_disk (Autofile.Flush g)) = Autofile.d_rolled (Autofile.g_disk g) /\ Autofile.g_headBuf (Autofile.Flush g) = [] /\
  default [] (Autofile.d_head (Autofile.g_disk (Autofile.Flush g))) = default [] (Autofile.d_head (Autofile.g_disk g)) ++ Autofile.g_headBuf g.
Proof. unfold Autofile.Flush. destruct (Autofile.g_headBuf g); split_and!; try done. by rewrite app_nil_r. Qed.

Lemma write_tracked g recs u now msg : tracked g recs u -> fits (MarshalTimed (mkTimed now msg)) ->
  exists recs', tracked (Write g now msg) recs' (S u) /\ allItems (Write g now msg) recs' = allItems g recs ++ [Whole (mkTimed now msg)].
Proof.
  intros Hs Hf. set (v := mkTimed now msg) in *. set (m := Autofile.maxIndex g). unfold Write, Encode. fold v. destruct (Write_head g (encode v)) as (E1 & E2 & E3 & E4 & E5).
  destruct (Autofile.Write_log g (encode v) (sy_ok _ _ _ Hs)) as [Ho _]. exists (fun i => if decide (i = m) then recs i ++ [Whole v] else recs i).
  assert (Hv : encItems [Whole v] = encode v) by (rewrite encode_whole by done; unfold encItems; cbn; by rewrite app_nil_r). split.
  - split; rewrite ?E1, ?E2, ?E3, ?E5.
    + done.
    + apply Hs.
    + intros i Hi. rewrite decide_False by lia. by apply Hs.
    + rewrite decide_True by done. by rewrite (sy_head _ _ _ Hs), encItems_app, Hv.
    + intros i. destruct (decide _); [|apply Hs]. apply Forall_app. split; [apply Hs|]. by apply Forall_singleton.
    + rewrite decide_True by done. destruct (sy_last _ _ _ Hs) as (l1 & l2 & El & Hl & Hb). exists l1, (l2 ++ [Whole v]). rewrite El, app_assoc, length_app, encItems_app, Hv, length_app. split_and!; [done|cbn; lia|lia].
  - rewrite !allItems_head by (done || apply Hs). rewrite E1, E2. fold m. rewrite decide_True by done. rewrite app_assoc. do 2 f_equal. apply itemsFrom_ext. intros j Hj. rewrite decide_False; [done|]. pose proof (Autofile.gok_range g (sy_ok _ _ _ Hs)). lia.
Qed.
Lemma flush_tracked g recs u : tracked g recs u -> tracked (Autofile.Flush g) recs 0 /\ allItems (Autofile.Flush g) recs = allItems g recs.
Proof.
  intros Hs. destruct (Flush_head g) as (E1 & E2 & E3 & E4 & E5). split; [|unfold allItems, itemsAt; by rewrite E1, E2]. split; rewrite ?E1, ?E2, ?E3, ?E4, ?E5, ?app_nil_r; try apply Hs.
  - apply Autofile.Flush_log, Hs.
  - exists (recs (Autofile.maxIndex g)), []. by rewrite app_nil_r.
Qed.
Lemma save_tracked g recs u now msg : tracked g recs u -> fits (MarshalTimed (mkTimed now msg)) ->
  exists recs', tracked (WriteSync g now msg) recs' 0 /\ allItems (WriteSync g now msg) recs' = allItems g recs ++ [Whole (mkTimed now msg)].
Proof. intros Hs Hf. destruct (write_tracked g recs u now msg Hs Hf) as (recs' & H1 & <-). exists recs'. by eapply flush_tracked. Qed.

Lemma rotate_tracked g recs : tracked g recs 0 -> is_Some (Autofile.d_head (Autofile.g_disk g)) -> exists g' recs', Autofile.RotateFile g = Ret g' /\ tracked g' recs' 0 /\ allItems g' recs' = allItems g recs.
Proof.
  intros Hs [h Eh]. destruct (Autofile.RotateFile_log g (sy_ok _ _ _ Hs) ltac:(by eexists)) as (g' & Eg & Ho & _ & _). exists g'. unfold Autofile.RotateFile in Eg. rewrite Eh in Eg. injection Eg as <-. set (m := Autofile.maxIndex g) in *.
  pose proof (Autofile.gok_range g (sy_ok _ _ _ Hs)) as Hr. pose proof (sy_head _ _ _ Hs) as Hh. rewrite Eh, (tracked_buf _ _ Hs), app_nil_r in Hh. cbn in Hh. unfold id in Hh. pose proof (sy_min _ _ _ Hs) as Hm. fold m in Hr.
  exists (fun i => if decide (i = m + 1) then [] else recs i). unfold Autofile.RotateFile. rewrite Eh. split; [done|]. split.
  - split; cbn [Autofile.minIndex Autofile.maxIndex Autofile.g_headBuf Autofile.g_disk Autofile.d_rolled Autofile.d_head default]; [done|apply Hs| | | |].
    + intros i Hi. rewrite decide_False by lia. destruct (decide (i = m)) as [-> |Hne]; [by rewrite lookup_insert_eq, Hh|]. rewrite lookup_insert_ne by done. apply Hs. fold m. lia.
    + rewrite (tracked_buf _ _ Hs). by rewrite decide_True.
    + intros i. destruct (decide _); [done|apply Hs].
    + exists [], []. rewrite (tracked_buf _ _ Hs). by rewrite decide_True.
  - rewrite !allItems_head by (done || apply Hs). cbn [Autofile.minIndex Autofile.maxIndex]. rewrite decide_True, app_nil_r by done. fold m.
    rewrite (itemsFrom_ext recs) by (intros j Hj; rewrite decide_False; [done|lia]). replace (Z.to_nat (m + 1 - Autofile.minIndex g)) with (Z.to_nat (m - Autofile.minIndex g) + 1)%nat by lia.
    assert (Hsn : forall k i, itemsFrom recs (k + 1) i = itemsFrom recs k i ++ recs (i + Z.of_nat k)).
    { induction k as [|k IH]; intros i; cbn [itemsFrom Nat.add]; [by rewrite Z.add_0_r, app_nil_r|]. rewrite IH, <- app_assoc. do 3 f_equal. lia. }
    rewrite Hsn. do 2 f_equal. lia.
Qed.

Lemma openHead_tracked g recs u : tracked g recs u -> tracked (Autofile.setDisk g (Autofile.openHead (Autofile.g_disk g))) recs u.
Proof. intros [Ho ? ? ? ? ?]. split; try done. by apply Autofile.openHead_log. Qed.
Lemma tick_tracked g recs : tracked g recs 0 -> exists g' recs', Autofile.checkHeadSizeLimit g = Ret g' /\ tracked g' recs' 0 /\ allItems g' recs' = allItems g recs.
Proof.
  intros Hs. unfold Autofile.checkHeadSizeLimit. destruct (Autofile.headSizeLimit g =? 0); [by exists g, recs|]. cbn [Autofile.af_Size]. pose proof (openHead_tracked g recs 0 Hs) as Hs1. destruct (_ <=? _).
  - destruct (rotate_tracked _ _ Hs1 ltac:(by eexists)) as (g1 & recs1 & E & H1 & H2). by exists g1, recs1.
  - by exists (Autofile.setDisk g (Autofile.openHead (Autofile.g_disk g))), recs.
Qed.

Lemma ops_tracked ops : forall g recs u u', tracked g recs u -> Forall (fun v => fits (MarshalTimed v)) (saved ops) -> unsynced u ops = Some u' ->
  exists g' recs', go_fold applyWal ops g = Ret g' /\ tracked g' recs' u' /\ allItems g' recs' = allItems g recs ++ (Whole <$> saved ops).
Proof.
  induction ops as [|o ops IH]; intros g recs u u' Hs Hf Hu; cbn [go_fold unsynced] in *; [injection Hu as <-; by exists g, recs; rewrite app_nil_r|]. destruct o as [now msg|now msg|]; cbn in Hf.
  - apply Forall_cons in Hf as [Hv Hf]. destruct (write_tracked g recs u now msg Hs Hv) as (recs1 & Hs1 & E1). cbn [applyWal mbind go_mbind]. destruct (IH _ _ _ _ Hs1 Hf Hu) as (g' & recs' & E & Hs' & Ea).
    exists g', recs'. split_and!; [done..|]. by rewrite Ea, E1, <- app_assoc.
  - apply Forall_cons in Hf as [Hv Hf]. destruct (save_tracked g recs u now msg Hs Hv) as (recs1 & Hs1 & E1). cbn [applyWal mbind go_mbind]. destruct (IH _ _ _ _ Hs1 Hf Hu) as (g' & recs' & E & Hs' & Ea).
    exists g', recs'. split_and!; [done..|]. by rewrite Ea, E1, <- app_assoc.
  - destruct u; [|done]. destruct (tick_tracked g recs Hs) as (g1 & recs1 & E1 & Hs1 & Ea1). cbn [applyWal]. rewrite E1. cbn [mbind go_mbind].
    destruct (IH _ _ _ _ Hs1 Hf Hu) as (g' & recs' & E & Hs' & Ea). exists g', recs'. by rewrite Ea, Ea1.
Qed.

(** A part of some records is whole records and a part of the next one. *)
Lemma part_split l : forall p rest, Forall itemOK l -> encItems l = p ++ rest -> rest <> [] ->
  exists l1 x l2 t r, l = l1 ++ x :: l2 /\ p = encItems l1 ++ t /\ itemOK x /\ r <> [] /\ encItem x = t ++ r.
Proof.
  induction l as [|x l IH]; intros p rest Hok E Hr; [by destruct p, rest|]. apply Forall_cons in Hok as [Hx Hok]. change (encItem x ++ encItems l = p ++ rest) in E.
  destruct (Nat.le_gt_cases (length (encItem x)) (length p)) as [Hle|Hlt].
  - assert (Ep : p = encItem x ++ drop (length (encItem x)) p).
    { rewrite <- (take_drop (length (encItem x)) p) at 1. f_equal. rewrite <- (take_app_le p rest) by lia. rewrite <- E. apply take_app_length. }
    rewrite Ep, <- app_assoc in E. apply app_inv_head in E. destruct (IH _ _ Hok E Hr) as (l1 & y & l2 & t & r & -> & Ed & Hy).
    exists (x :: l1), y, l2, t, r. split_and!; [done| |apply Hy..]. rewrite Ep, Ed. unfold encItems. cbn. by rewrite app_assoc.
  - exists [], x, l, p, (drop (length p) (encItem x)). split_and!; [done|done|done| |].
    + intros Ed. apply (f_equal length) in Ed. rewrite length_drop in Ed. cbn in Ed. lia.
    + rewrite <- (take_drop (length p) (encItem x)) at 1. f_equal. rewrite <- (take_app_le (encItem x) (encItems l)) by lia. rewrite E. apply take_app_length.
Qed.

(** A part of the first record of [l], or of another one if there is none. *)
Definition cut (l : list item) (t : bytes) : Prop := exists x rest, itemOK x /\ rest <> [] /\ encItem x = t ++ rest /\ forall y, head l = Some y -> y = x.
Lemma cut_torn l t : cut l t -> torn t.
Proof. intros (x & rest & Hx & Hr & E & _). by exists x, rest. Qed.

(** What a crash leaves of the head. *)
Lemma partly_head g recs u p : tracked g recs u -> partly g p ->
  exists l1 l2 t, recs (Autofile.maxIndex g) = l1 ++ l2 /\ (length l2 <= u)%nat /\ default [] (Autofile.d_head (crash g p)) = encItems l1 ++ t /\ cut l2 t.
Proof.
  intros Hs (v & rest & Hv & Hr & Ep). set (m := Autofile.maxIndex g). set (hd := default [] (Autofile.d_head (Autofile.g_disk g))).
  assert (Ec : default [] (Autofile.d_head (crash g p)) = hd ++ p) by (destruct p; cbn [crash]; [by rewrite app_nil_r|done]).
  assert (E : encItems (recs m ++ [Whole v]) = (hd ++ p) ++ rest).
  { rewrite encItems_app. unfold m. rewrite <- (sy_head _ _ _ Hs), <- !app_assoc, <- Ep. do 2 f_equal. rewrite encode_whole by done. unfold encItems. cbn. by rewrite app_nil_r. }
  assert (Hok : Forall itemOK (recs m ++ [Whole v])) by (apply Forall_app; split; [apply Hs|by apply Forall_singleton]).
  destruct (part_split _ _ _ Hok E Hr) as (l1 & x & l2 & t & r & El & Ep1 & Hx0 & Hr0 & Ex).
  destruct (exists_last (l := x :: l2) ltac:(done)) as (l2' & y & Ey). rewrite Ey, app_assoc in El. apply app_inj_tail in El as [El _].
  exists l1, l2', t. split; [done|]. split; [|rewrite Ec, Ep1; split; [done|]; exists x, r; split_and!; try done; intros z Hz; destruct l2' as [|z' l2']; [done|]; cbn in Ey, Hz; congruence].
  assert (Hlt : (length t < length (encItem x))%nat) by (rewrite Ex, length_app; destruct r; [done|cbn; lia]).
  destruct (sy_last _ _ _ Hs) as (k1 & k2 & Ek & Hk & Hb). fold m in Ek. destruct (Nat.le_gt_cases (length l2') u) as [|Hgt]; [done|exfalso].
  (* one more record than was not synced is missing: then it is on disk *)
  assert (Hx : exists k, k1 = l1 ++ x :: k).
  { rewrite El in Ek. apply app_eq_inv in Ek as [(k & -> & ->)|(k & -> & ->)]; [rewrite length_app in Hk; lia|].
    destruct k as [|z k]; [cbn in Hgt; lia|]. exists k. cbn in Ey. injection Ey as <- _. done. }
  destruct Hx as (k & ->). apply (f_equal length) in Ep1. rewrite !length_app in Ep1.
  pose proof (f_equal length (sy_head _ _ _ Hs)) as Hh. fold m hd in Hh. rewrite Ek, !encItems_app, !length_app in Hh. change (encItems (x :: k)) with (encItem x ++ encItems k) in Hh. rewrite length_app in Hh. lia.
Qed.
End Crash.

Section Restart.
Context `{WalLaws}.

(** The node comes up again: the group is opened and the log started. *)
Definition restart (g : Autofile.Group) (p : bytes) (now : Time) : Autofile.Group := OnStart (NewWAL (crash g p)) now.

Lemma tracked_logged g recs : tracked g recs 0 -> is_Some (Autofile.d_head (Autofile.g_disk g)) -> logged g recs [].
Proof.
  intros Hs [h Eh]. pose proof (Autofile.gok_range g (sy_ok _ _ _ Hs)) as Hr. split; [apply Hs|intros; apply Hs| | |by left].
  - intros i Hi. unfold Autofile.fileAt. rewrite (proj2 (Z.eqb_neq _ _)) by lia. apply Hs. lia.
  - pose proof (sy_head _ _ _ Hs) as Hh. unfold Autofile.fileAt. rewrite Z.eqb_refl, app_nil_r, <- Hh, (tracked_buf _ _ Hs), Eh, app_nil_r. done.
Qed.

Lemma reopen g recs u p : tracked g recs u -> partly g p ->
  let g1 := NewWAL (crash g p) in
  exists recs' l2 t, logged g1 recs' t /\ allItems g recs = allItems g1 recs' ++ l2 /\ (length l2 <= u)%nat /\ cut l2 t /\ (forall i, Forall itemOK (recs' i)) /\
    Autofile.d_head (Autofile.g_disk g1) = Some (encItems (recs' (Autofile.maxIndex g1)) ++ t) /\ Autofile.g_headBuf g1 = [] /\ Autofile.minIndex g1 = 0 /\ Autofile.onDisk g1 = encItems (allItems g1 recs') ++ t.
Proof.
  intros Hs Hp. destruct (partly_head g recs u p Hs Hp) as (l1 & l2 & t & El & Hl & Eh & Ht). pose proof (sy_ok _ _ _ Hs) as Ho. pose proof (Autofile.gok_range g Ho) as Hr. pose proof (sy_min _ _ _ Hs) as Hm.
  assert (Hd1 : Autofile.d_rolled (crash g p) = Autofile.d_rolled (Autofile.g_disk g)) by (by destruct p). set (gc := Autofile.setDisk g (Autofile.openHead (crash g p))).
  assert (Hc : Autofile.groupOK gc) by (split; [done|]; cbn; rewrite Hd1; apply Ho).
  assert (Hi : Autofile.minIndex (NewWAL (crash g p)) = 0 /\ Autofile.maxIndex (NewWAL (crash g p)) = Autofile.maxIndex g).
  { pose proof (Autofile.readGroupInfo_spec gc Hc) as [H1 H2]. cbn [gc Autofile.setDisk Autofile.minIndex Autofile.maxIndex Autofile.g_disk] in H1, H2. unfold NewWAL, Autofile.OpenGroup. cbn [Autofile.minIndex Autofile.maxIndex].
    destruct (decide (Autofile.minIndex g = Autofile.maxIndex g)) as [E|E]; [destruct (H2 E) as [-> ->]; lia|destruct (H1 ltac:(lia)) as [-> ->]; lia]. }
  destruct Hi as [Hi1 Hi2]. assert (Hh : Autofile.d_head (Autofile.g_disk (NewWAL (crash g p))) = Some (encItems l1 ++ t)) by (rewrite <- Eh; done).
  assert (Hrl : Autofile.d_rolled (Autofile.g_disk (NewWAL (crash g p))) = Autofile.d_rolled (Autofile.g_disk g)) by (rewrite <- Hd1; done).
  set (m := Autofile.maxIndex g) in *. exists (fun i => if decide (i = m) then l1 else recs i), l2, t.
  assert (Hlog : logged (NewWAL (crash g p)) (fun i => if decide (i = m) then l1 else recs i) t).
  { split; rewrite ?Hi1, ?Hi2; [| | |unfold Autofile.fileAt; rewrite Hi2, Z.eqb_refl, decide_True; done|right; by eapply cut_torn].
    - split; rewrite ?Hi1, ?Hi2, ?Hrl; [lia|]. rewrite <- Hm. apply Ho.
    - intros i _. destruct (decide _); [|apply Hs]. pose proof (sy_items _ _ _ Hs m) as Hok. rewrite El in Hok. by apply Forall_app in Hok as [? _].
    - intros i Hx. unfold Autofile.fileAt. rewrite Hi2, (proj2 (Z.eqb_neq _ _)), decide_False, Hrl by lia. apply Hs. fold m. lia. }
  split; [done|]. split; [|split; [done|split; [done|]]].
  { rewrite !allItems_head by (apply Hs || apply Hlog). rewrite Hi1, Hi2, Hm. fold m. rewrite decide_True, El, app_assoc by done. do 2 f_equal. apply itemsFrom_ext. intros j Hj. rewrite decide_False; [done|lia]. }
  split; [|split; [rewrite Hi2, decide_True; done|split; [done|split; [done|]]]].
  - intros i. destruct (decide _); [|apply Hs]. pose proof (sy_items _ _ _ Hs m) as Hok. rewrite El in Hok. by apply Forall_app in Hok as [? _].
  - pose proof (lg_ok _ _ _ Hlog) as Hok1. pose proof (Autofile.stream_rolled _ Hok1 ltac:(by rewrite Hh)) as E1. destruct (logged_at _ _ _ (Autofile.minIndex (NewWAL (crash g p))) Hlog) as [E2 _]; [pose proof (Autofile.gok_range _ Hok1); lia|].
    rewrite E1 in E2. by injection E2.
Qed.

(** On an empty head a marker of height 0 is added. *)
Lemma restart_logged g recs u p now : tracked g recs u -> partly g p -> fits (MarshalTimed (mkTimed now (WalEndHeight 0))) ->
  exists recs' kept lost l t, allItems g recs = kept ++ lost /\ (length lost <= u)%nat /\ cut lost t /\ Autofile.onDisk (NewWAL (crash g p)) = encItems kept ++ t /\
    logged (restart g p now) recs' t /\ allItems (restart g p now) recs' = kept ++ l /\
    (l = [] \/ l = [Whole (mkTimed now (WalEndHeight 0))] /\ default [] (Autofile.d_head (crash g p)) = [] /\ t = []).
Proof.
  intros Hs Hp Hf. destruct (reopen g recs u p Hs Hp) as (recs' & lost & t & Hl & Ha & Hlen & Ht & Hok & Hh & Hb & Hm & Hdisk). unfold restart, OnStart. set (g1 := NewWAL (crash g p)) in *. cbn [Autofile.af_Size].
  assert (Ehd : Autofile.d_head (Autofile.g_disk g1) = Some (default [] (Autofile.d_head (crash g p)))) by done.
  assert (E1 : Autofile.setDisk g1 (Autofile.openHead (Autofile.g_disk g1)) = g1).
  { unfold Autofile.setDisk, Autofile.openHead. rewrite Hh. destruct g1 as [[r hd] ? ? ? ? ?]. cbn in *. by rewrite Hh. }
  rewrite E1, Hh. cbn [default]. unfold id. set (m := Autofile.maxIndex g1) in *.
  destruct (Z.eqb_spec (zlen (encItems (recs' m) ++ t)) 0) as [E0|_]; [|exists recs', (allItems g1 recs'), lost, [], t; rewrite app_nil_r; by split_and!; [..|left]].
  assert (En : encItems (recs' m) ++ t = []) by (destruct (encItems _ ++ t); [done|unfold zlen in E0; cbn in E0; lia]).
  assert (Hempty : default [] (Autofile.d_head (crash g p)) = []) by (rewrite Ehd, En in Hh; by injection Hh).
  apply app_eq_nil in En as [En ->]. assert (Hs1 : tracked g1 recs' 0).
  { split; [apply Hl|done| |rewrite Hh, Hb, !app_nil_r; done|done|exists (recs' m), []; by rewrite app_nil_r, Hb].
    intros i Hi. pose proof (lg_files _ _ _ Hl i ltac:(lia)) as E. unfold Autofile.fileAt in E. by rewrite (proj2 (Z.eqb_neq _ _)) in E by lia. }
  destruct (save_tracked g1 recs' 0 now (WalEndHeight 0) Hs1 Hf) as (recs2 & Hs2 & Ea). exists recs2, (allItems g1 recs'), lost, [Whole (mkTimed now (WalEndHeight 0))], []. split_and!; try done.
  - apply tracked_logged; [done|]. apply (Autofile.Flush_log (Write g1 now (WalEndHeight 0))). apply (Autofile.Write_log g1). apply Hl.
  - by right.
Qed.

Lemma start_tracked now : fits (MarshalTimed (mkTimed now (WalEndHeight 0))) ->
  exists recs, tracked (OnStart (NewWAL (Autofile.mkDisk ∅ None)) now) recs 0 /\ allItems (OnStart (NewWAL (Autofile.mkDisk ∅ None)) now) recs = [Whole (mkTimed now (WalEndHeight 0))].
Proof.
  intros Hf. set (g := NewWAL (Autofile.mkDisk ∅ None)). assert (Hs : tracked g (fun _ => []) 0).
  { split; try done; [split; [done|]| |by exists [], []]; intros i; [|change (0 <= i < 0 -> (∅ : gmap Z bytes) !! i = Some []); lia]. change (is_Some ((∅ : gmap Z bytes) !! i) <-> 0 <= i < 0). rewrite lookup_empty. split; [by intros []|lia]. }
  destruct (save_tracked g _ 0 now (WalEndHeight 0) Hs Hf) as (recs & H1 & H2). exists recs. split; [exact H1|]. etrans; [exact H2|]. done.
Qed.
End Restart.

(** ** Replay of the log *)

Section Catchup.
Context `{WalLaws}.
Context `{Codec} `{Curves} `{Amino} `{ValidatorCodec} `{Block.BlockCodec} `{Block.TxDecoder} {Svc : Services}.

Fixpoint replayAll (l : list TimedWALMessage) : M unit := match l with [] => mret tt | v :: l => readReplayMessage v;; replayAll l end.
Definition heights (l : list TimedWALMessage) : list Z := markers (Whole <$> l).

Lemma replayAll_snoc l now h cs : replayAll (l ++ [mkTimed now (WalEndHeight h)]) cs = replayAll l cs.
Proof.
  revert cs. induction l as [|v l IH]; intros cs; [done|]. cbn [replayAll app]. unfold mbind, M_bind. destruct (readReplayMessage v cs) as [[[] cs']|]; [apply IH|done].
Qed.

Lemma replayLoop_spec g t : (t = [] \/ torn t) -> (length t < 4)%nat -> forall fuel gr l cs, (length l < fuel)%nat -> Forall itemOK (Whole <$> l) -> Autofile.gr_curIndex gr <= Autofile.maxIndex g ->
  Autofile.remaining g gr = Some (encItems (Whole <$> l) ++ t) -> replayLoop fuel g gr cs = (replayAll l;; mret None) cs.
Proof.
  intros Ht Hlt. induction fuel as [|fuel IH]; intros gr l cs Hf Hl Hi Hr; [lia|]. cbn [replayLoop]. unfold mbind at 1, M_bind, lift at 1. destruct l as [|v l].
  - assert (Hd : exists gr', Decode g gr = Ret (gr', inl ErrEOF)).
    { destruct Ht as [-> |Ht]; [by apply Decode_end|]. destruct (Decode_torn g gr t Ht Hi Hr) as (gr' & E). rewrite (proj2 (Nat.ltb_lt _ _)) in E by done. by exists gr'. }
    destruct Hd as (gr' & ->). done.
  - rewrite fmap_cons in Hl, Hr. apply Forall_cons in Hl as [Hx Hl]. unfold encItems in Hr. cbn [mbind list_bind] in Hr. rewrite <- app_assoc in Hr. destruct (Decode_item g gr _ _ Hx Hi Hr) as (g1 & -> & I1 & R1). fold (encItems (Whole <$> l)) in R1.
    cbn [decoded replayAll]. unfold mbind, M_bind. destruct (readReplayMessage v cs) as [[[] cs']|]; [|done]. cbn [length] in Hf. rewrite (IH g1 l cs') by (done || lia). done.
Qed.

Lemma markers_sorted_fresh pre h now post : StronglySorted Z.lt (heights (pre ++ mkTimed now (WalEndHeight h) :: post)) -> h ∉ heights pre.
Proof.
  unfold heights. rewrite fmap_app, markers_app. intros Hs Hin. apply StronglySorted_app in Hs as (Hs & _). assert (Hlt : h < h); [|lia]. apply Hs; [done|]. change (h ∈ h :: heights post). left.
Qed.
Lemma heights_filter (P : Z -> Prop) `{!forall x, Decision (P x)} l : StronglySorted Z.lt l -> StronglySorted Z.lt (filter P l).
Proof.
  induction 1 as [|x l Hs IH Hx]; [constructor|]. rewrite filter_cons. case_decide; [|done]. constructor; [done|]. rewrite Forall_forall in *. intros y [_ Hy]%list_elem_of_filter. by apply Hx.
Qed.
Lemma ordered_zero h all l now : StronglySorted Z.lt (heights all) -> l = [] \/ l = [Whole (mkTimed now (WalEndHeight 0))] /\ 0 < h -> ordered h ((Whole <$> all) ++ l).
Proof.
  intros Hs Hl. unfold ordered. rewrite markers_app, filter_app. pose proof (heights_filter (relevant h) _ Hs) as Hf. destruct Hl as [-> |[-> Hh]]; [by rewrite app_nil_r|].
  change (markers [Whole (mkTimed now (WalEndHeight 0))]) with [0]. rewrite filter_cons_False, app_nil_r by (unfold relevant; lia). exact Hf.
Qed.

(** [all] is what was saved before the crash: the marker of the start, then the
    messages of [ops]. *)
Definition allSaved (now : Time) (ops : list walOp) : list TimedWALMessage := mkTimed now (WalEndHeight 0) :: saved ops.

(** The log after a crash: [kept] are the messages on disk, all but the last [u]
    at most, and [t] what is there of the next one. *)
Definition leaves (now : Time) (ops : list walOp) (u : nat) (g : Autofile.Group) (p : bytes) (kept : list TimedWALMessage) (t : bytes) : Prop :=
  (exists lost, allSaved now ops = kept ++ lost /\ (length lost <= u)%nat /\ cut (Whole <$> lost) t) /\ Autofile.onDisk (NewWAL (crash g p)) = encItems (Whole <$> kept) ++ t.
Lemma crash_logged now ops now' u : Forall (fun v => fits (MarshalTimed v)) (mkTimed now' (WalEndHeight 0) :: allSaved now ops) -> unsynced 0 ops = Some u ->
  exists g, go_fold applyWal ops (OnStart (NewWAL (Autofile.mkDisk ∅ None)) now) = Ret g /\ forall p, partly g p ->
    exists recs kept l t, leaves now ops u g p kept t /\ logged (restart g p now') recs t /\ allItems (restart g p now') recs = (Whole <$> kept) ++ l /\
      (l = [] \/ l = [Whole (mkTimed now' (WalEndHeight 0))] /\ default [] (Autofile.d_head (crash g p)) = [] /\ t = []).
Proof.
  intros [Hf' [Hf0 Hf]%Forall_cons]%Forall_cons Hu. destruct (start_tracked now Hf0) as (recs0 & Hs0 & E0). destruct (ops_tracked ops _ _ _ _ Hs0 Hf Hu) as (g & recs & Eg & Hs & Ea). exists g. split; [exact Eg|]. intros p Hp.
  destruct (restart_logged g recs u p now' Hs Hp Hf') as (recs' & kept & lost & l & t & Ek & Hlen & Ht & Hd & Hl & El & Hc).
  assert (Ew : Whole <$> allSaved now ops = kept ++ lost) by (rewrite <- Ek, Ea, E0; done). apply fmap_app_inv in Ew as (k1 & k2 & -> & -> & Ek1). rewrite length_fmap in Hlen.
  exists recs', k1, l, t. split; [split; [by exists k2|done]|done].
Qed.

(** Messages up to the end of the log, and perhaps a marker of height 0. *)
Lemma replay_suffix g recs t gr all post l now pre v cs : logged g recs t -> (length t < 4)%nat -> allItems g recs = (Whole <$> all) ++ l -> all = pre ++ v :: post ->
  Autofile.gr_curIndex gr <= Autofile.maxIndex g -> Autofile.remaining g gr = Some (encItems ((Whole <$> post) ++ l) ++ t) -> l = [] \/ l = [Whole (mkTimed now (WalEndHeight 0))] ->
  replayLoop (scanFuel g) g gr cs = (replayAll post;; mret None) cs.
Proof.
  intros Hlog Hlt Ea -> Hi Hr Hl. pose proof (Autofile.gok_range g (lg_ok _ _ _ Hlog)) as Hrg. pose proof (logged_fuel g recs t (Autofile.minIndex g) Hlog ltac:(lia)) as Hfuel.
  destruct (logged_at g recs t (Autofile.minIndex g) Hlog ltac:(lia)) as [_ Hok]. fold (allItems g recs) in Hok, Hfuel. rewrite Ea in Hok, Hfuel.
  assert (El : exists extra, l = Whole <$> extra /\ forall cs, replayAll (post ++ extra) cs = replayAll post cs).
  { destruct Hl as [-> | ->]; [exists []|exists [mkTimed now (WalEndHeight 0)]]; (split; [done|]); intros c; [by rewrite app_nil_r|apply replayAll_snoc]. }
  destruct El as (extra & -> & He). rewrite <- fmap_app in Hr. rewrite !fmap_app, <- app_assoc, fmap_cons in Hok, Hfuel. cbn [app] in Hok, Hfuel. rewrite <- fmap_app in Hok, Hfuel.
  rewrite (replayLoop_spec g t (lg_tail _ _ _ Hlog) Hlt (scanFuel g) gr (post ++ extra) cs); [|rewrite length_app in Hfuel; cbn [length] in Hfuel; rewrite !length_fmap in Hfuel; lia|by apply Forall_app in Hok as [_ [_ Hok]%Forall_cons]|done|done].
  unfold mbind, M_bind. by rewrite He.
Qed.

(** The replay of what is on disk. *)
Lemma replay_kept g recs t kept l now pre tm h post cs : logged g recs t -> (length t < 4)%nat ->
  allItems g recs = (Whole <$> kept) ++ l -> kept = pre ++ mkTimed tm (WalEndHeight (h - 1)) :: post -> StronglySorted Z.lt (heights kept) -> h ∉ heights post -> 1 <= h <= MaxInt64 ->
  l = [] \/ l = [Whole (mkTimed now (WalEndHeight 0))] /\ 0 < h - 1 -> catchupReplay g h cs = (replayAll post;; mret None) cs.
Proof.
  intros Hlog Hlt Ea Hall Hsorted Hnew Hh Hl'.
  assert (Hsub : sub64 h 1 = h - 1) by (unfold sub64; apply wrap64_small; unfold_int64; lia).
  assert (Hfresh : h - 1 ∉ heights pre) by (eapply markers_sorted_fresh; rewrite <- Hall; exact Hsorted).
  assert (Hnone : h ∉ markers (allItems g recs)).
  { rewrite Ea, Hall, fmap_app, !markers_app. cbn [fmap list_fmap markers omap list_omap markerOf tw_Msg]. intros [[Hin|[Hin|Hin]%elem_of_cons]%elem_of_app|Hin]%elem_of_app; [|lia|done|].
    - rewrite Hall in Hsorted. unfold heights in Hsorted. rewrite fmap_app, markers_app in Hsorted. apply StronglySorted_app in Hsorted as (Hs & _). assert (Hx : h < h - 1); [|lia]. apply Hs; [done|]. apply list_elem_of_here.
    - destruct Hl' as [-> |[-> ?]]; [by apply not_elem_of_nil in Hin|]. apply list_elem_of_singleton in Hin. lia. }
  unfold catchupReplay. rewrite Hsub. unfold mbind at 1, M_bind, lift at 1.
  destruct (search_ok _ recs t h Hlog Hlt) as (r & -> & Hr); [rewrite Ea; apply (ordered_zero _ _ _ now); [done|]; destruct Hl' as [?|[? ?]]; [by left|right; split; [done|lia]]|].
  rewrite (proj2 (afterMarker_None h _) Hnone) in Hr. subst r. cbv beta iota. unfold mbind at 1, M_bind, lift at 1.
  destruct (search_ok _ recs t (h - 1) Hlog Hlt) as (r & -> & Hr); [rewrite Ea; by apply (ordered_zero _ _ _ now)|].
  rewrite Ea, Hall, fmap_app, <- app_assoc, afterMarker_app in Hr by exact Hfresh. cbn [fmap list_fmap app afterMarker markerOf tw_Msg] in Hr. rewrite bool_decide_true in Hr by done.
  destruct Hr as (gr & -> & Hi & Hrem). eapply replay_suffix; [exact Hlog|exact Hlt|exact Ea|exact Hall|exact Hi|exact Hrem|destruct Hl' as [?|[? _]]; [by left|by right]].
Qed.
End Catchup.

(** ** Properties *)

(** In a log whose files begin with records, whose markers grow and whose
    last record may have lost all but three bytes, [SearchForEndHeight] finds the
    marker of a height exactly when the log holds it, and the reader it returns
    has in front of it everything written after the marker, over all later
    files; records with a wrong checksum are passed over. *)
Theorem wal_search `{WalLaws} (g : Autofile.Group) (recs : Z -> list item) (t : bytes) (h : Z)
  (Hlog : logged g recs t) (Ht : (length t < 4)%nat) (Hord : ordered h (allItems g recs)) :
  match afterMarker h (allItems g recs) with
  | Some l => exists gr, SearchForEndHeight g h true = Ret (inr (Some gr)) /\ Autofile.remaining g gr = Some (encItems l ++ t)
  | None => SearchForEndHeight g h true = Ret (inr None)
  end.
Proof.
  destruct (search_ok g recs t h Hlog Ht Hord) as (r & Es & Hr). destruct (afterMarker h (allItems g recs)) as [l|]; [|by subst].
  destruct Hr as (gr & -> & _ & Hrem). by exists gr.
Qed.

(** C25: Replay after a crash.  Messages of at most the record size are written,
    to the buffer or with [WriteSync], their end-of-height markers in increasing
    order; the head is rotated at any time when nothing is in the buffer.  The
    process then stops, with any part on disk of the buffer and of a record that
    is being written, and is started again.  The disk holds the encodings of all
    messages but some that were written after the last [WriteSync], and a part of
    one record.  If less than four bytes of that part are there, and among the
    messages on disk is a marker of [h - 1] and none of [h], then [catchupReplay]
    of height [h] handles the messages on disk after that marker, all of them, in
    order, and nothing else; at height 1 this takes that the head was not empty
    when the log was opened. *)
Theorem catchup_replays `{WalLaws} `{Codec} `{Curves} `{Amino} `{ValidatorCodec} `{Block.BlockCodec} `{Block.TxDecoder} {Svc : Services}
  (now now' : Time) (ops : list walOp) (u : nat)
  (Hfits : Forall (fun v => fits (MarshalTimed v)) (mkTimed now' (WalEndHeight 0) :: allSaved now ops))
  (Hsorted : StronglySorted Z.lt (heights (allSaved now ops))) (Hu : unsynced 0 ops = Some u) :
  exists g, go_fold applyWal ops (OnStart (NewWAL (Autofile.mkDisk ∅ None)) now) = Ret g /\ forall p, partly g p ->
    exists kept t, leaves now ops u g p kept t /\
      forall pre tm h post cs, kept = pre ++ mkTimed tm (WalEndHeight (h - 1)) :: post -> h ∉ heights post -> 1 <= h <= MaxInt64 -> (length t < 4)%nat ->
        1 < h \/ default [] (Autofile.d_head (crash g p)) <> [] -> catchupReplay (restart g p now') h cs = (replayAll post;; mret None) cs.
Proof.
  destruct (crash_logged now ops now' u Hfits Hu) as (g & Eg & Hg). exists g. split; [exact Eg|]. intros p Hp. destruct (Hg p Hp) as (recs & kept & l & t & Hleft & Hlog & Ea & Hl).
  exists kept, t. split; [done|]. intros pre tm h post cs Hall Hnew Hh Hlt Hcase. destruct Hleft as [(lost & Ek & _) _].
  assert (Hsk : StronglySorted Z.lt (heights kept)) by (rewrite Ek in Hsorted; unfold heights in Hsorted; rewrite fmap_app, markers_app in Hsorted; by apply StronglySorted_app in Hsorted as (_ & Hs & _)).
  by eapply replay_kept; [exact Hlog|exact Hlt|exact Ea|exact Hall|exact Hsk|exact Hnew|exact Hh|destruct Hl as [?|(? & ? & _)]; [by left|right; split; [done|]; destruct Hcase; [lia|done]]].
Qed.

(** A record cut off after its first four bytes, as a crash in the middle of a
    write leaves it, stops the replay: the search for the marker of [h], which is
    only there to check that it is absent, fails at the cut record, and
    [catchupReplay] returns that error having handled no message, even though
    the marker of [h - 1] and the messages after it are intact. *)
Theorem torn_tail_disables_replay `{WalLaws} `{Codec} `{Curves} `{Amino} `{ValidatorCodec} `{Block.BlockCodec} `{Block.TxDecoder} {Svc : Services}
  (now now' : Time) (ops : list walOp) (u : nat)
  (Hfits : Forall (fun v => fits (MarshalTimed v)) (mkTimed now' (WalEndHeight 0) :: allSaved now ops)) (Hu : unsynced 0 ops = Some u) :
  exists g, go_fold applyWal ops (OnStart (NewWAL (Autofile.mkDisk ∅ None)) now) = Ret g /\ forall p, partly g p ->
    exists kept t, leaves now ops u g p kept t /\
      forall h cs, h ∉ heights kept -> (4 <= length t)%nat -> catchupReplay (restart g p now') h cs = Ret (Some (ReplayWal (ErrRead Autofile.EOF)), cs).
Proof.
  destruct (crash_logged now ops now' u Hfits Hu) as (g & Eg & Hg). exists g. split; [exact Eg|]. intros p Hp. destruct (Hg p Hp) as (recs & kept & l & t & Hleft & Hlog & Ea & Hl).
  exists kept, t. split; [done|]. intros h cs Hnew Hlen. destruct Hl as [->|(_ & _ & ->)]; [|cbn in Hlen; lia].
  rewrite app_nil_r in Ea. unfold catchupReplay. unfold mbind, M_bind, lift. rewrite (search_torn _ recs t h Hlog Hlen); [done|]. by rewrite Ea.
Qed.

(** When one byte of a record's data has changed, [Decode] reports corrupted
    data, whatever the bytes decode to, and leaves the reader at the next
    record. *)
Theorem corrupt_byte_detected `{WalLaws} (g : Autofile.Group) (gr : Autofile.GroupReader) (l r rest : bytes) (b b' : Byte.byte)
  (Hfit : fits (l ++ b :: r)) (Hb : b <> b') (Hi : Autofile.gr_curIndex gr <= Autofile.maxIndex g)
  (Hr : Autofile.remaining g gr = Some (record (Checksum (l ++ b :: r)) (l ++ b' :: r) ++ rest)) :
  exists gr', Decode g gr = Ret (gr', inl DataCorruptionError) /\ Autofile.remaining g gr' = Some rest.
Proof.
  destruct (Decode_item g gr (Damaged (Checksum (l ++ b :: r)) (l ++ b' :: r)) rest) as (gr' & Ed & _ & Hrest); [|done|done|by exists gr'].
  split; [apply Checksum_ok|]. split; [unfold fits, zlen in *; rewrite length_app in *; exact Hfit|]. left. intros E. by apply (Checksum_byte l b b' r Hb).
Qed.

(** ** Witnesses *)

(** Everything a message holds, in a countable type. *)
Definition sigRaw (s : option Signature) : option (bytes + bytes) := (fun s => match s with SignatureEd25519 b => inl b | SignatureSecp256k1 b => inr b end) <$> s.
Definition rawSig (s : option (bytes + bytes)) : option Signature := (fun s => match s with inl b => SignatureEd25519 b | inr b => SignatureSecp256k1 b end) <$> s.
Definition idRaw (b : BlockID) : bytes * (Z * bytes) := (bid_Hash b, (psh_Total (bid_PartsHeader b), psh_Hash (bid_PartsHeader b))).
Definition rawID (b : bytes * (Z * bytes)) : BlockID := mkBlockID b.1 (mkPartSetHeader b.2.1 b.2.2).
Definition voteRaw (v : Vote) := (v_ValidatorAddress v, v_ValidatorIndex v, v_Height v, v_Round v, v_Timestamp v : Z, v_Type v, idRaw (v_BlockID v), sigRaw (v_Signature v)).
Definition rawVote (x : bytes * Z * Z * Z * Z * Z * (bytes * (Z * bytes)) * option (bytes + bytes)) : Vote :=
  let '(a, i, h, r, t, ty, id, s) := x in mkVote a i h r t ty (rawID id) (rawSig s).
Definition proposalRaw (p : Proposal) := (p_Height p, p_Round p, p_Timestamp p : Z, psh_Total (p_BlockPartsHeader p), psh_Hash (p_BlockPartsHeader p), p_POLRound p, idRaw (p_POLBlockID p), sigRaw (p_Signature p)).
Definition rawProposal (x : Z * Z * Z * Z * bytes * Z * (bytes * (Z * bytes)) * option (bytes + bytes)) : Proposal :=
  let '(h, r, t, n, ph, pol, id, s) := x in mkProposal h r t (mkPartSetHeader n ph) pol (rawID id) (rawSig s).
Definition partRaw (p : PartSet.Part) := (PartSet.Index p, PartSet.Bytes p, Merkle.Aunts (PartSet.Proof_ p)).
Definition rawPart (x : Z * bytes * list bytes) : PartSet.Part := let '(i, b, a) := x in PartSet.mkPart i b (Merkle.mkSimpleProof a).
Definition timedRaw (v : TimedWALMessage) :=
  (tw_Time v : Z, match tw_Msg v with
   | WalStep h r s => inl (inl (h, r, s))
   | WalEndHeight h => inl (inr (inl h))
   | WalTimeout ti => inl (inr (inr (ti_Duration ti, ti_Height ti, ti_Round ti, ti_Step ti)))
   | WalMsg m peer => inr (peer, match m with
     | ProposalMessage p => inl (proposalRaw <$> p)
     | BlockPartMessage h r p => inr (inl (h, r, partRaw <$> p))
     | VoteMessage w => inr (inr (voteRaw <$> w))
     end)
   end).
Definition rawTimed (x : Z * (Z * Z * Z + (Z + Z * Z * Z * Z) + bytes * (option (Z * Z * Z * Z * bytes * Z * (bytes * (Z * bytes)) * option (bytes + bytes)) +
    (Z * Z * option (Z * bytes * list bytes) + option (bytes * Z * Z * Z * Z * Z * (bytes * (Z * bytes)) * option (bytes + bytes)))))) : TimedWALMessage :=
  mkTimed x.1 (match x.2 with
  | inl (inl (h, r, s)) => WalStep h r s
  | inl (inr (inl h)) => WalEndHeight h
  | inl (inr (inr (d, h, r, s))) => WalTimeout (mkTimeoutInfo d h r s)
  | inr (peer, inl p) => WalMsg (ProposalMessage (rawProposal <$> p)) peer
  | inr (peer, inr (inl (h, r, p))) => WalMsg (BlockPartMessage h r (rawPart <$> p)) peer
  | inr (peer, inr (inr w)) => WalMsg (VoteMessage (rawVote <$> w)) peer
  end).
Lemma raw_timed v : rawTimed (timedRaw v) = v.
Proof. destruct v as [tm [h r s|[[[? ? ? [] ? [? []] [[]|]]|]|h r [[? ? []]|]|[[? ? ? ? ? ? [? []] [[]|]]|]] peer|[]|h]]; reflexivity. Qed.

Definition toyWal : WalCodec := {| MarshalTimed := fun v => enc (timedRaw v); UnmarshalTimed := fun b => rawTimed <$> dec b |}.
#[local] Existing Instance toyWal.
#[local] Instance toyWalLaws : WalLaws.
Proof. split; intros v; [|done]. cbn. rewrite dec_enc. cbn. by rewrite raw_timed. Qed.

Section Examples.
#[local] Existing Instance toyCodec.
#[local] Existing Instance toyCurves.
#[local] Existing Instance uvarintAmino.
#[local] Existing Instance State.toyValidatorCodec.
#[local] Existing Instance Block.toyBlockCodec.
#[local] Existing Instance Block.toyDecoder.

(** A node that is no validator. *)
Definition exServices : Services := {|
  World := unit;
  timeNow := fun w => (0, w);
  privAddress := None;
  privSignVote := fun w _ v => (None, w);
  privSignProposal := fun w _ p => (None, w);
  storeHeight := fun _ => 0; storeMeta := fun _ _ => None; storeSeenCommit := fun _ _ => None;
  storeSave := fun w _ _ _ => Ret w;
  applyBlock := fun w _ _ _ => Ret (None, w);
  reap := fun _ _ => []; accounts := fun w _ => Ret (None, w); marshalUTXO := fun _ _ => [];
  config := mkConfig 3000 500 1000 500 1000 500 1000 false true 0 |}.
#[local] Existing Instance exServices.

Definition exTimeout : WalEntry := WalTimeout (mkTimeoutInfo 5 2 0 1).
Definition exOps : list walOp := [opWrite 1 exTimeout; opSave 2 (WalEndHeight 1); opTick; opWrite 3 exTimeout; opSave 4 exTimeout].
Definition exPost : list TimedWALMessage := [mkTimed 3 exTimeout; mkTimed 4 exTimeout].
(** Some bytes of a further record. *)
Definition exAll : list TimedWALMessage := allSaved 0 exOps.
Definition exNext : bytes := encode (mkTimed 5 exTimeout).
Definition exPart (n : nat) : bytes := take n exNext.

Lemma exOps_fit : Forall (fun v => fits (MarshalTimed v)) (mkTimed 9 (WalEndHeight 0) :: allSaved 0 exOps).
Proof. repeat (constructor; [unfold fits, maxMsgSizeBytes; vm_compute; split; congruence|]). constructor. Qed.
(** After the crash everything is on disk, and the part. *)
Lemma exLeft g n kept t : (n = 3 \/ n = 9)%nat -> go_fold applyWal exOps (OnStart (NewWAL (Autofile.mkDisk ∅ None)) 0) = Ret g ->
  partly g (exPart n) /\ (leaves 0 exOps 0 g (exPart n) kept t -> kept = exAll /\ length t = n).
Proof.
  intros Hn Eg. assert (E : Autofile.g_headBuf g = [] /\ length (Autofile.onDisk (NewWAL (crash g (exPart n)))) = (length (encItems (Whole <$> exAll)) + n)%nat).
  { assert (E : (g ← go_fold applyWal exOps (OnStart (NewWAL (Autofile.mkDisk ∅ None)) 0); Ret (Autofile.g_headBuf g, length (Autofile.onDisk (NewWAL (crash g (exPart n)))))) =
      Ret ([], length (encItems (Whole <$> exAll)) + n)%nat) by (destruct Hn as [-> | ->]; vm_compute; reflexivity). rewrite Eg in E. cbn [mbind go_mbind] in E. by injection E as -> ->. }
  destruct E as [Hb Hd]. split.
  - exists (mkTimed 5 exTimeout), (drop n exNext). split; [unfold fits, maxMsgSizeBytes; vm_compute; split; congruence|]. rewrite Hb. unfold exPart. cbn [app]. fold exNext. rewrite take_drop. split; [|done].
    intros E. apply (f_equal length) in E. destruct Hn as [-> | ->]; vm_compute in E; discriminate.
  - intros ((lost & Ek & Hl & _) & Ed). assert (lost = []) as -> by (destruct lost; [done|cbn in Hl; lia]). rewrite app_nil_r in Ek. subst kept. split; [done|]. apply (f_equal length) in Ed. rewrite length_app in Ed. fold exAll in Ed. lia.
Qed.

Lemma catchup_replays_witness : exists g, go_fold applyWal exOps (OnStart (NewWAL (Autofile.mkDisk ∅ None)) 0) = Ret g /\
  catchupReplay (restart g (exPart 3) 9) 2 (mkCS zeroRoundState None [] tt []) = (replayAll exPost;; mret None) (mkCS zeroRoundState None [] tt []).
Proof.
  destruct (catchup_replays 0 9 exOps 0 exOps_fit) as (g & Eg & Hg); [repeat constructor|reflexivity|]. exists g. split; [exact Eg|].
  assert (Hn : (3 = 3 \/ 3 = 9)%nat) by lia.
  destruct (Hg (exPart 3) (proj1 (exLeft g 3 [] [] Hn Eg))) as (kept & t & Hl & Hr). destruct (proj2 (exLeft g 3 kept t Hn Eg) Hl) as [-> Ht].
  apply (Hr [mkTimed 0 (WalEndHeight 0); mkTimed 1 exTimeout] 2 2 exPost); [reflexivity| |split; vm_compute; congruence|rewrite Ht; repeat constructor|left; lia].
  apply (bool_decide_unpack _). vm_compute. exact I.
Defined.

Lemma torn_tail_disables_replay_witness : exists g, go_fold applyWal exOps (OnStart (NewWAL (Autofile.mkDisk ∅ None)) 0) = Ret g /\
  catchupReplay (restart g (exPart 9) 9) 2 (mkCS zeroRoundState None [] tt []) = Ret (Some (ReplayWal (ErrRead Autofile.EOF)), mkCS zeroRoundState None [] tt []).
Proof.
  destruct (torn_tail_disables_replay 0 9 exOps 0 exOps_fit) as (g & Eg & Hg); [reflexivity|]. exists g. split; [exact Eg|].
  assert (Hn : (9 = 3 \/ 9 = 9)%nat) by lia.
  destruct (Hg (exPart 9) (proj1 (exLeft g 9 [] [] Hn Eg))) as (kept & t & Hl & Hr). destruct (proj2 (exLeft g 9 kept t Hn Eg) Hl) as [-> Ht].
  apply Hr; [|rewrite Ht; lia]. apply (bool_decide_unpack _). vm_compute. exact I.
Defined.
End Examples.

(** Two files, a damaged record in the second. *)
Definition exRecs (i : Z) : list item := if i =? 0 then [Whole (mkTimed 0 (WalEndHeight 1))] else [Damaged 7 [Byte.x01]; Whole (mkTimed 2 exTimeout)].
Definition exGroup : Autofile.Group := Autofile.mkGroup (Autofile.mkDisk {[0 := encItems (exRecs 0)]} (Some (encItems (exRecs 1)))) [] 0 0 0 1.
Lemma exGroup_logged : logged exGroup exRecs [].
Proof.
  split.
  - split; cbn; [lia|]. intros i. rewrite lookup_singleton_is_Some. lia.
  - intros i _. unfold exRecs. destruct (i =? 0); repeat constructor; unfold fits, maxMsgSizeBytes; vm_compute; try split; try congruence; left; congruence.
  - intros i Hi. cbn in Hi. replace i with 0 by lia. reflexivity.
  - by rewrite app_nil_r.
  - by left.
Qed.

Lemma wal_search_witness : exists gr, SearchForEndHeight exGroup 1 true = Ret (inr (Some gr)) /\ Autofile.remaining exGroup gr = Some (encItems (exRecs 1)).
Proof.
  pose proof (wal_search exGroup exRecs [] 1 exGroup_logged) as Hw. cbn [afterMarker] in Hw. destruct Hw as (gr & Es & Hr).
  - cbn. lia.
  - unfold ordered. repeat constructor.
  - exists gr. split; [exact Es|]. rewrite Hr. reflexivity.
Defined.

Definition exRecord : bytes := record (Checksum [Byte.x01; Byte.x02]) [Byte.x01; Byte.x03].
Definition exDamaged : Autofile.Group := Autofile.mkGroup (Autofile.mkDisk ∅ (Some exRecord)) [] 0 0 0 0.
Lemma corrupt_byte_detected_witness : exists gr', Decode exDamaged (Autofile.mkReader 0 (Some exRecord) None) = Ret (gr', inl DataCorruptionError) /\ Autofile.remaining exDamaged gr' = Some [].
Proof.
  apply (corrupt_byte_detected exDamaged (Autofile.mkReader 0 (Some exRecord) None) [Byte.x01] [] [] Byte.x02 Byte.x03); [unfold fits, maxMsgSizeBytes; vm_compute; split; congruence|congruence|cbn; lia|vm_compute; reflexivity].
Defined.
End Wal.
