(* ===== verification/Conn.v ===== *)
(** * The multiplexed connection: p2p/conn/connection.go

    Messages of several channels are cut into packets, which share one stream
    of bytes; pings and pongs travel between them.  Each end has a routine that
    sends and one that receives, and any number of callers that queue messages;
    a run is a sequence of their steps in any order.  go-amino is a parameter. *)

From S2P Require Import Prelude.

Module Conn.

(** ** float32 and float64 *)

(** A float is [m * 2 ^ e] with a mantissa of [p] bits; rounding is to the
    nearest, ties to even.  Exponents are not bounded: the values here are far
    from the limits. *)
Definition float : Type := Z * Z.
Definition roundPos (p num den : Z) : float :=
  if num =? 0 then (0, 0) else
  let e := Z.log2 num - Z.log2 den - p in
  let e := if num * 2 ^ Z.max (- e) 0 <? den * 2 ^ p * 2 ^ Z.max e 0 then e else e + 1 in
  let n := num * 2 ^ Z.max (- e) 0 in
  let d := den * 2 ^ Z.max e 0 in
  let q := n / d in
  let r := n mod d in
  let q := if (d <? 2 * r) || ((2 * r =? d) && Z.odd q) then q + 1 else q in
  if q =? 2 ^ p then (2 ^ (p - 1), e + 1) else (q, e).
Definition round (p num den : Z) : float := let '(m, e) := roundPos p (Z.abs num) den in (Z.sgn num * m, e).
Definition float_lt (a b : float) : bool := let k := Z.min a.2 b.2 in a.1 * 2 ^ (a.2 - k) <? b.1 * 2 ^ (b.2 - k).
Definition float32 (n : Z) : float := round 24 n 1.
Definition float64 (n : Z) : float := round 53 n 1.
(** The quotient of two floats of 24 bits, the divisor positive. *)
Definition div32 (a b : float) : float := round 24 (a.1 * 2 ^ Z.max (a.2 - b.2) 0) (b.1 * 2 ^ Z.max (b.2 - a.2) 0).
Definition MaxFloat32 : float := (2 ^ 24 - 1, 104).
(** The constant 0.8 is 7205759403792794 * 2 ^ -53. *)
Definition times08 (a : float) : float := let '(m, e) := round 53 (a.1 * 7205759403792794) 1 in (m, e + a.2 - 53).
(** The integer of 64 bits: towards zero. *)
Definition toInt64 (a : float) : Z := wrap64 (if 0 <=? a.2 then a.1 * 2 ^ a.2 else Z.quot a.1 (2 ^ - a.2)).

(** ** Packets *)

Record PacketMsg := mkPacketMsg { ChannelID : Z; EOF : Z; Bytes : bytes }.
Inductive Packet := PacketPing | PacketPong | PacketOf (p : PacketMsg).

(** [ReadPacket max s] is [UnmarshalBinaryReader] on the bytes that have come. *)
Inductive reading := Incomplete | Malformed | Got (p : Packet) (rest : bytes).
Class PacketCodec := { MarshalPacket : Packet -> bytes; ReadPacket : Z -> bytes -> reading }.

(** ** Channels *)

Definition defaultMaxPacketMsgPayloadSize : Z := 1024.
Definition numBatchPacketMsgs : nat := 10.
Definition minWriteBufferSize : Z := 65536.
Definition defaultSendQueueCapacity : Z := 1.
Definition defaultRecvBufferCapacity : Z := 4096.
Definition defaultRecvMessageCapacity : Z := 22020096.

Record MConnConfig := mkConfig { SendRate : Z; RecvRate : Z; MaxPacketMsgPayloadSize : Z; FlushThrottle : Z; PingInterval : Z; PongTimeout : Z }.
Definition DefaultMConnConfig : MConnConfig := mkConfig 512000 512000 defaultMaxPacketMsgPayloadSize (100 * 10 ^ 6) (60 * 10 ^ 9) (45 * 10 ^ 9).

Record ChannelDescriptor := mkDesc { ID : Z; Priority : Z; SendQueueCapacity : Z; RecvBufferCapacity : Z; RecvMessageCapacity : Z }.
Definition FillDefaults (d : ChannelDescriptor) : ChannelDescriptor :=
  mkDesc (ID d) (Priority d)
    (if SendQueueCapacity d =? 0 then defaultSendQueueCapacity else SendQueueCapacity d)
    (if RecvBufferCapacity d =? 0 then defaultRecvBufferCapacity else RecvBufferCapacity d)
    (if RecvMessageCapacity d =? 0 then defaultRecvMessageCapacity else RecvMessageCapacity d).

Record Channel := mkChannel {
  desc : ChannelDescriptor; sendQueue : list bytes; sendQueueSize : Z; recving : bytes; sending : bytes; recentlySent : Z; maxPacketMsgPayloadSize : Z }.
Definition newChannel (maxPayload : Z) (d : ChannelDescriptor) : go Channel :=
  let d := FillDefaults d in
  if Priority d <=? 0 then Panic (PanicSanity "Channel default priority must be a positive integer")
  else if (SendQueueCapacity d <? 0) || (RecvBufferCapacity d <? 0) then Panic MakeSliceLen
  else Ret (mkChannel d [] 0 [] [] 0 maxPayload).

(** [sendBytes] and [trySendBytes] queue when there is room; one waits for it,
    with a limit, the other does not. *)
Definition trySendBytes (ch : Channel) (b : bytes) : option Channel :=
  if zlen (sendQueue ch) <? SendQueueCapacity (desc ch)
  then Some (mkChannel (desc ch) (sendQueue ch ++ [b]) (wrap32 (sendQueueSize ch + 1)) (recving ch) (sending ch) (recentlySent ch) (maxPacketMsgPayloadSize ch))
  else None.
Definition canSend (ch : Channel) : bool := sendQueueSize ch <? defaultSendQueueCapacity.
Definition isSendPending (ch : Channel) : Channel * bool :=
  match sending ch with
  | [] =>
      match sendQueue ch with
      | [] => (ch, false)
      | b :: queue => (mkChannel (desc ch) queue (sendQueueSize ch) (recving ch) b (recentlySent ch) (maxPacketMsgPayloadSize ch), true)
      end
  | _ => (ch, true)
  end.
Definition nextPacketMsg (ch : Channel) : go (Channel * PacketMsg) :=
  let maxSize := maxPacketMsgPayloadSize ch in
  let cut := Z.min maxSize (zlen (sending ch)) in
  if cut <? 0 then Panic SliceBounds else
  let bs := take (Z.to_nat cut) (sending ch) in
  if zlen (sending ch) <=? maxSize
  then Ret (mkChannel (desc ch) (sendQueue ch) (wrap32 (sendQueueSize ch - 1)) (recving ch) [] (recentlySent ch) maxSize, mkPacketMsg (ID (desc ch)) 1 bs)
  else Ret (mkChannel (desc ch) (sendQueue ch) (sendQueueSize ch) (recving ch) (drop (Z.to_nat cut) (sending ch)) (recentlySent ch) maxSize, mkPacketMsg (ID (desc ch)) 0 bs).

Inductive RecvError := ErrCapacity (recvCap recvReceived : Z).
Definition setRecving (ch : Channel) (b : bytes) : Channel := mkChannel (desc ch) (sendQueue ch) (sendQueueSize ch) b (sending ch) (recentlySent ch) (maxPacketMsgPayloadSize ch).
Definition recvPacketMsg (ch : Channel) (packet : PacketMsg) : Channel * (RecvError + option bytes) :=
  let recvCap := RecvMessageCapacity (desc ch) in
  let recvReceived := zlen (recving ch) + zlen (Bytes packet) in
  if recvCap <? recvReceived then (ch, inl (ErrCapacity recvCap recvReceived)) else
  let bs := recving ch ++ Bytes packet in
  if EOF packet =? 1 then (setRecving ch [], inr (Some bs)) else (setRecving ch bs, inr None).
Definition updateStats (ch : Channel) : Channel :=
  mkChannel (desc ch) (sendQueue ch) (sendQueueSize ch) (recving ch) (sending ch) (toInt64 (times08 (float64 (recentlySent ch)))) (maxPacketMsgPayloadSize ch).

Section Conn.
Context `{PacketCodec}.

Definition writePacketMsgTo (ch : Channel) : go (Channel * bytes) :=
  '(ch, packet) ← nextPacketMsg ch;
  let bz := MarshalPacket (PacketOf packet) in
  Ret (mkChannel (desc ch) (sendQueue ch) (sendQueueSize ch) (recving ch) (sending ch) (add64 (recentlySent ch) (zlen bz)) (maxPacketMsgPayloadSize ch), bz).

(** ** MConnection *)

(** Where [sendRoutine] is: at its [select], in [sendSomePacketMsgs] with some
    packets to go, or over. *)
Inductive position := AtSelect | InBatch (left : nat) | Over.

Inductive ConnError := ErrPongTimeout | ErrMalformed | ErrRead | ErrUnknownChannel (id : Z) | ErrRecv (e : RecvError) | ErrPanic (p : panic).

(** The callers of [Send] that have queued their message and not yet woken the
    routine are counted by [waking]; [delivered] is what [onReceive] was
    called with and [reported] what [onError] was. *)
Record MConnection := mkConn {
  channels : list Channel;
  channelsIdx : gmap Z nat;
  maxPacketMsgSize : Z;
  running : bool;
  errored : bool;
  send : bool;
  pong : bool;
  pongTimeoutCh : option bool;
  pongTimer : bool;
  flushSet : bool;
  bufConnWriter : bytes;
  sendPos : position;
  recvOver : bool;
  waking : nat;
  delivered : list (Z * bytes);
  reported : list ConnError }.

Definition setChannels (c : MConnection) (l : list Channel) : MConnection :=
  mkConn l (channelsIdx c) (maxPacketMsgSize c) (running c) (errored c) (send c) (pong c) (pongTimeoutCh c) (pongTimer c) (flushSet c) (bufConnWriter c) (sendPos c) (recvOver c) (waking c) (delivered c) (reported c).
Definition setSend (c : MConnection) (b : bool) : MConnection :=
  mkConn (channels c) (channelsIdx c) (maxPacketMsgSize c) (running c) (errored c) b (pong c) (pongTimeoutCh c) (pongTimer c) (flushSet c) (bufConnWriter c) (sendPos c) (recvOver c) (waking c) (delivered c) (reported c).
Definition setPong (c : MConnection) (b : bool) : MConnection :=
  mkConn (channels c) (channelsIdx c) (maxPacketMsgSize c) (running c) (errored c) (send c) b (pongTimeoutCh c) (pongTimer c) (flushSet c) (bufConnWriter c) (sendPos c) (recvOver c) (waking c) (delivered c) (reported c).
Definition setPongTimeout (c : MConnection) (ch : option bool) (timer : bool) : MConnection :=
  mkConn (channels c) (channelsIdx c) (maxPacketMsgSize c) (running c) (errored c) (send c) (pong c) ch timer (flushSet c) (bufConnWriter c) (sendPos c) (recvOver c) (waking c) (delivered c) (reported c).
Definition setWriter (c : MConnection) (flush : bool) (buf : bytes) : MConnection :=
  mkConn (channels c) (channelsIdx c) (maxPacketMsgSize c) (running c) (errored c) (send c) (pong c) (pongTimeoutCh c) (pongTimer c) flush buf (sendPos c) (recvOver c) (waking c) (delivered c) (reported c).
Definition setPos (c : MConnection) (pos : position) : MConnection :=
  mkConn (channels c) (channelsIdx c) (maxPacketMsgSize c) (running c) (errored c) (send c) (pong c) (pongTimeoutCh c) (pongTimer c) (flushSet c) (bufConnWriter c) pos (recvOver c) (waking c) (delivered c) (reported c).
Definition setWaking (c : MConnection) (n : nat) : MConnection :=
  mkConn (channels c) (channelsIdx c) (maxPacketMsgSize c) (running c) (errored c) (send c) (pong c) (pongTimeoutCh c) (pongTimer c) (flushSet c) (bufConnWriter c) (sendPos c) (recvOver c) n (delivered c) (reported c).
Definition deliver (c : MConnection) (id : Z) (b : bytes) : MConnection :=
  mkConn (channels c) (channelsIdx c) (maxPacketMsgSize c) (running c) (errored c) (send c) (pong c) (pongTimeoutCh c) (pongTimer c) (flushSet c) (bufConnWriter c) (sendPos c) (recvOver c) (waking c) (delivered c ++ [(id, b)]) (reported c).
Definition setRecvOver (c : MConnection) : MConnection :=
  mkConn (channels c) (channelsIdx c) (maxPacketMsgSize c) (running c) (errored c) (send c) false (pongTimeoutCh c) (pongTimer c) (flushSet c) (bufConnWriter c) (sendPos c) true (waking c) (delivered c) (reported c).

Definition stopForError (c : MConnection) (e : ConnError) : MConnection :=
  mkConn (channels c) (channelsIdx c) (maxPacketMsgSize c) false true (send c) (pong c) (pongTimeoutCh c) (pongTimer c) (flushSet c) (bufConnWriter c) (sendPos c) (recvOver c) (waking c) (delivered c)
    (if errored c then reported c else reported c ++ [e]).

Definition maxPacketMsgSizeOf (maxPayload : Z) : Z := zlen (MarshalPacket (PacketOf (mkPacketMsg 1 1 (replicate (Z.to_nat maxPayload) Byte.x00)))) + 10.

Fixpoint newChannels (maxPayload : Z) (descs : list ChannelDescriptor) : go (list Channel) :=
  match descs with [] => Ret [] | d :: descs => ch ← newChannel maxPayload d; l ← newChannels maxPayload descs; Ret (ch :: l) end.
Definition indexChannels (l : list Channel) : gmap Z nat := foldl (fun idx p => <[ID (desc p.2) := p.1]> idx) ∅ (zip (seq 0 (length l)) l).
(** The channels are new, and the connection is started. *)
Definition NewMConnection (config : MConnConfig) (descs : list ChannelDescriptor) : go MConnection :=
  if PingInterval config <=? PongTimeout config then Panic (PanicMsg "pongTimeout must be less than pingInterval (otherwise, next ping will reset pong timer)") else
  let maxPayload := MaxPacketMsgPayloadSize config in
  l ← newChannels maxPayload descs;
  if maxPayload <? 0 then Panic MakeSliceLen else
  Ret (mkConn l (indexChannels l) (maxPacketMsgSizeOf maxPayload) true false false false None false false [] AtSelect false 0 [] []).

(** ** Sending *)

(** [Send] and [TrySend] up to the wake-up: [None] if the message was not
    queued. *)
Definition Send (c : MConnection) (chID : Z) (b : bytes) : option MConnection :=
  if negb (running c) then None else
  i ← channelsIdx c !! chID;
  ch ← channels c !! i;
  ch ← trySendBytes ch b;
  Some (setWaking (setChannels c (<[i := ch]> (channels c))) (S (waking c))).
Definition wake (c : MConnection) : option MConnection :=
  match waking c with O => None | S n => Some (setSend (setWaking c n) true) end.
Definition CanSend (c : MConnection) (chID : Z) : bool :=
  running c && match channelsIdx c !! chID with Some i => match channels c !! i with Some ch => canSend ch | None => false end | None => false end.

Definition ratio (ch : Channel) : float := div32 (float32 (recentlySent ch)) (float32 (Priority (desc ch))).
(** The loop of [sendPacketMsg] over the channels from the [i]th. *)
Fixpoint leastLoop (l : list Channel) (i : nat) (leastRatio : float) (leastChannel : option nat) : list Channel * option nat :=
  match l with
  | [] => ([], leastChannel)
  | ch :: l =>
      let '(ch, pending) := isSendPending ch in
      let '(leastRatio, leastChannel) := if pending && float_lt (ratio ch) leastRatio then (ratio ch, Some i) else (leastRatio, leastChannel) in
      let '(l, least) := leastLoop l (S i) leastRatio leastChannel in
      (ch :: l, least)
  end.

(** What goes to the connection is given with the new state. *)
Definition bufWrite (c : MConnection) (flush : bool) (bz : bytes) : MConnection * bytes :=
  let '(out, buf) := bufio_Write minWriteBufferSize (bufConnWriter c) bz in (setWriter c flush buf, out).
Definition flush (c : MConnection) (flushSet : bool) : MConnection * bytes := (setWriter c flushSet [], bufConnWriter c).

Definition sendPacketMsg (c : MConnection) : go (MConnection * bytes * bool) :=
  let '(l, least) := leastLoop (channels c) 0 MaxFloat32 None in
  let c := setChannels c l in
  match least with
  | None => Ret (c, [], true)
  | Some i =>
      ch ← idx l (Z.of_nat i);
      '(ch, bz) ← writePacketMsgTo ch;
      let '(c, out) := bufWrite (setChannels c (<[i := ch]> l)) true bz in
      Ret (c, out, false)
  end.

(** ** The routines *)

(** A branch of [sendRoutine], or a step in the middle of one: [None] when it
    cannot be taken. *)
Inductive event :=
| EvSend (chID : Z) (b : bytes)   (* a caller queues *)
| EvWake                          (* and wakes the routine *)
| EvFlushTimer
| EvStats
| EvPing
| EvPongTimer                     (* the pong is late *)
| EvPongTimeoutCh
| EvPong
| EvSendToken                     (* the routine is woken *)
| EvPacket                        (* a turn of sendSomePacketMsgs *)
| EvBatchEnd
| EvQuit
| EvRecv                          (* a turn of recvRoutine *)
| EvReadError.                    (* the connection is closed or fails *)

(** The end of a turn of [sendRoutine]. *)
Definition endTurn (c : MConnection) : MConnection := if running c then setPos c AtSelect else setPongTimeout (setPos c Over) (pongTimeoutCh c) false.
Definition failTurn (c : MConnection) (e : ConnError) : MConnection := setPongTimeout (setPos (stopForError c e) Over) (pongTimeoutCh c) false.

Definition sendStep (ev : event) (c : MConnection) : option (MConnection * bytes) :=
  match ev, sendPos c with
  | EvFlushTimer, AtSelect => if flushSet c then let '(c, out) := flush c false in Some (endTurn c, out) else None
  | EvStats, AtSelect => Some (endTurn (setChannels c (updateStats <$> channels c)), [])
  | EvPing, AtSelect =>
      let '(c, out) := bufWrite c (flushSet c) (MarshalPacket PacketPing) in
      let '(c, out') := flush (setPongTimeout c (pongTimeoutCh c) true) (flushSet c) in
      Some (endTurn c, out ++ out')
  | EvPongTimeoutCh, AtSelect =>
      match pongTimeoutCh c with
      | Some true => Some (if running c then failTurn (setPongTimeout c None (pongTimer c)) ErrPongTimeout else endTurn (setPongTimeout c None (pongTimer c)), [])
      | Some false => Some (endTurn (setPongTimeout c None false), [])
      | None => None
      end
  | EvPong, AtSelect =>
      if pong c || recvOver c then
        let '(c, out) := bufWrite (setPong c false) (flushSet c) (MarshalPacket PacketPong) in
        let '(c, out') := flush c (flushSet c) in
        Some (endTurn c, out ++ out')
      else None
  | EvQuit, AtSelect => if running c then None else Some (setPongTimeout (setPos c Over) (pongTimeoutCh c) false, [])
  | EvSendToken, AtSelect => if send c then Some (setPos (setSend c false) (InBatch numBatchPacketMsgs), []) else None
  | EvPacket, InBatch (S n) =>
      match sendPacketMsg c with
      | Panic p => Some (setPos (stopForError c (ErrPanic p)) Over, [])
      | Ret (c, out, true) => Some (endTurn c, out)
      | Ret (c, out, false) => Some (setPos c (InBatch n), out)
      end
  | EvBatchEnd, InBatch O => Some (endTurn (setSend c true), [])
  | _, _ => None
  end.

Definition failRecv (c : MConnection) (e : ConnError) : MConnection := setRecvOver (stopForError c e).
(** A turn of [recvRoutine] on the bytes that have come; what is left of them
    is given back. *)
Definition recvStep (c : MConnection) (s : bytes) : option (MConnection * bytes) :=
  if recvOver c then None else
  match ReadPacket (maxPacketMsgSize c) s with
  | Incomplete => None
  | Malformed => Some (if running c then failRecv c ErrMalformed else setRecvOver c, s)
  | Got PacketPing rest => Some (setPong c true, rest)
  | Got PacketPong rest => Some (match pongTimeoutCh c with None => setPongTimeout c (Some false) (pongTimer c) | Some _ => c end, rest)
  | Got (PacketOf pkt) rest =>
      match (i ← channelsIdx c !! ChannelID pkt; ch ← channels c !! i; Some (i, ch)) with
      | None => Some (failRecv c (ErrUnknownChannel (ChannelID pkt)), rest)
      | Some (i, ch) =>
          match recvPacketMsg ch pkt with
          | (ch, inl e) => Some (let c := setChannels c (<[i := ch]> (channels c)) in if running c then failRecv c (ErrRecv e) else setRecvOver c, rest)
          | (ch, inr None) => Some (setChannels c (<[i := ch]> (channels c)), rest)
          | (ch, inr (Some b)) => Some (deliver (setChannels c (<[i := ch]> (channels c))) (ChannelID pkt) b, rest)
          end
      end
  end.

(** A step of one end: the bytes that have come before and after, the state,
    and the bytes it puts on the wire.  Nothing is written once the connection
    is closed. *)
Definition step (ev : event) (c : MConnection) (input : bytes) : option (MConnection * bytes * bytes) :=
  match ev with
  | EvSend chID b => c ← Send c chID b; Some (c, input, [])
  | EvWake => c ← wake c; Some (c, input, [])
  | EvPongTimer =>
      if pongTimer c then Some (match pongTimeoutCh c with None => setPongTimeout c (Some true) false | Some _ => setPongTimeout c (pongTimeoutCh c) false end, input, []) else None
  | EvRecv => '(c, input) ← recvStep c input; Some (c, input, [])
  | EvReadError => if recvOver c then None else Some (if running c then failRecv c ErrRead else setRecvOver c, input, [])
  | _ => '(c', out) ← sendStep ev c; Some (c', input, if running c then out else [])
  end.

(** Two ends and the bytes on the way between them. *)
Record Net := mkNet { endA : MConnection; endB : MConnection; toB : bytes; toA : bytes }.
Inductive side := A | B.
Definition netStep (net : Net) (ev : side * event) : option Net :=
  match ev.1 with
  | A => '(c, input, out) ← step ev.2 (endA net) (toA net); Some (mkNet c (endB net) (toB net ++ out) input)
  | B => '(c, input, out) ← step ev.2 (endB net) (toB net); Some (mkNet (endA net) c input (toA net ++ out))
  end.
Fixpoint runNet (evs : list (side * event)) (net : Net) : option Net := match evs with [] => Some net | ev :: evs => net ← netStep net ev; runNet evs net end.
End Conn.

(** ** Rounding *)

Lemma roundPos_bounds p num den : 2 <= p -> 0 < num -> 0 < den ->
  2 ^ (p - 2) <= (roundPos p num den).1 <= 2 ^ (p + 1) /\ Z.log2 num - Z.log2 den - p <= (roundPos p num den).2 <= Z.log2 num - Z.log2 den - p + 2.
Proof.
  intros Hp Hn Hd. unfold roundPos. rewrite (proj2 (Z.eqb_neq num 0)) by lia. set (e0 := Z.log2 num - Z.log2 den - p). set (e := if _ <? _ then e0 else e0 + 1).
  assert (He : e0 <= e <= e0 + 1) by (unfold e; destruct (_ <? _); lia). set (n := num * 2 ^ Z.max (- e) 0). set (d := den * 2 ^ Z.max e 0).
  pose proof (Z.log2_spec num Hn) as [Ln Un]. pose proof (Z.log2_spec den Hd) as [Ld Ud]. pose proof (Z.log2_nonneg num). pose proof (Z.log2_nonneg den).
  assert (Hdp : 0 < d) by (unfold d; apply Z.mul_pos_pos; [done|]; apply Z.pow_pos_nonneg; lia).
  assert (Hlo : d * 2 ^ (p - 2) <= n).
  { unfold n, d. apply Z.le_trans with (2 ^ Z.succ (Z.log2 den) * 2 ^ Z.max e 0 * 2 ^ (p - 2)).
    - apply Z.mul_le_mono_nonneg_r; [apply Z.pow_nonneg; lia|]. apply Z.mul_le_mono_nonneg_r; [apply Z.pow_nonneg; lia|lia].
    - rewrite <- !Z.pow_add_r by lia. apply Z.le_trans with (2 ^ Z.log2 num * 2 ^ Z.max (- e) 0); [rewrite <- Z.pow_add_r by lia; apply Z.pow_le_mono_r; lia|]. apply Z.mul_le_mono_nonneg_r; [apply Z.pow_nonneg; lia|done]. }
  assert (Hhi : n < d * 2 ^ (p + 1)).
  { unfold n, d. apply Z.lt_le_trans with (2 ^ Z.succ (Z.log2 num) * 2 ^ Z.max (- e) 0); [apply Z.mul_lt_mono_pos_r; [apply Z.pow_pos_nonneg; lia|done]|].
    apply Z.le_trans with (2 ^ Z.log2 den * 2 ^ Z.max e 0 * 2 ^ (p + 1)); [rewrite <- !Z.pow_add_r by lia; apply Z.pow_le_mono_r; lia|].
    apply Z.mul_le_mono_nonneg_r; [apply Z.pow_nonneg; lia|]. apply Z.mul_le_mono_nonneg_r; [apply Z.pow_nonneg; lia|done]. }
  assert (Hq1 : 2 ^ (p - 2) <= n / d) by (apply Z.div_le_lower_bound; lia). assert (Hq2 : n / d < 2 ^ (p + 1)) by (apply Z.div_lt_upper_bound; lia).
  assert (Hpw : 2 ^ (p - 2) <= 2 ^ (p - 1) <= 2 ^ (p + 1)) by (split; apply Z.pow_le_mono_r; lia).
  destruct ((d <? 2 * (n mod d)) || _); destruct (_ =? 2 ^ p); cbn [fst snd]; lia.
Qed.

Definition finite (f : float) : Prop := Z.abs f.1 <= 2 ^ 25 /\ f.2 <= 80.
Lemma finite_lt f : finite f -> float_lt f MaxFloat32 = true.
Proof.
  intros [Hm He]. unfold float_lt, MaxFloat32. cbn [fst snd]. rewrite Z.min_l, Z.sub_diag, Z.mul_1_r by lia. apply Z.ltb_lt.
  apply Z.lt_le_trans with ((2 ^ 24 - 1) * 2 ^ 24); [lia|]. apply Z.mul_le_mono_nonneg_l; [lia|]. apply Z.pow_le_mono_r; lia.
Qed.

Lemma log2_int64 z : int64 z -> Z.log2 (Z.abs z) <= 63.
Proof. intros Hz. destruct (decide (z = 0)) as [-> |]; [done|]. enough (Z.log2 (Z.abs z) < 64) by lia. apply Z.log2_lt_pow2; unfold_int64; lia. Qed.

Lemma ratio_finite n prio : int64 n -> 0 < prio -> finite (div32 (float32 n) (float32 prio)).
Proof.
  intros Hn Hp. destruct (decide (n = 0)) as [-> |Hn0]; [assert (E : div32 (float32 0) (float32 prio) = (0, 0)) by reflexivity; rewrite E; split; cbn; lia|]. assert (F : forall z, float32 z = (Z.sgn z * (roundPos 24 (Z.abs z) 1).1, (roundPos 24 (Z.abs z) 1).2)) by (intros z; unfold float32, round; by destruct (roundPos _ _ _)).
  unfold div32. rewrite !F. cbn [fst snd]. rewrite (Z.abs_eq prio) by lia. rewrite (Z.sgn_pos prio Hp).
  pose proof (roundPos_bounds 24 (Z.abs n) 1 ltac:(lia) ltac:(lia) ltac:(lia)) as [Hm1 He1]. pose proof (roundPos_bounds 24 prio 1 ltac:(lia) Hp ltac:(lia)) as [Hm2 He2].
  destruct (roundPos 24 (Z.abs n) 1) as [m1 e1], (roundPos 24 prio 1) as [m2 e2]. cbn [fst snd] in *. change (Z.log2 1) with 0 in *. pose proof (log2_int64 n Hn) as Hl. pose proof (Z.log2_nonneg prio). rewrite Z.mul_1_l.
  assert (E1 : 0 < m1) by (pose proof (Z.pow_pos_nonneg 2 (24 - 2)); lia). assert (E2 : 0 < m2) by (pose proof (Z.pow_pos_nonneg 2 (24 - 2)); lia).
  set (num := Z.sgn n * m1 * 2 ^ Z.max (e1 - e2) 0). set (den := m2 * 2 ^ Z.max (e2 - e1) 0).
  assert (Ed : 0 < den) by (apply Z.mul_pos_pos; [done|]; apply Z.pow_pos_nonneg; lia). assert (En : Z.abs num = m1 * 2 ^ Z.max (e1 - e2) 0).
  { unfold num. assert (Es : Z.abs (Z.sgn n) = 1) by (by destruct n). rewrite !Z.abs_mul, Es, (Z.abs_eq m1), (Z.abs_eq (2 ^ _)) by (lia || apply Z.pow_nonneg; lia). lia. }
  assert (En0 : 0 < Z.abs num) by (rewrite En; apply Z.mul_pos_pos; [done|]; apply Z.pow_pos_nonneg; lia). unfold round.
  pose proof (roundPos_bounds 24 (Z.abs num) den ltac:(lia) En0 Ed) as [Hm He]. destruct (roundPos 24 (Z.abs num) den) as [m e]. cbn [fst snd] in *.
  assert (Hln : Z.log2 (Z.abs num) <= 25 + Z.max (e1 - e2) 0).
  { rewrite En. apply Z.lt_succ_r. apply Z.log2_lt_pow2; [rewrite <- En; done|]. apply Z.le_lt_trans with (2 ^ 25 * 2 ^ Z.max (e1 - e2) 0); [apply Z.mul_le_mono_nonneg_r; [apply Z.pow_nonneg; lia|exact (proj2 Hm1)]|]. rewrite <- Z.pow_add_r by lia. apply Z.pow_lt_mono_r; lia. }
  pose proof (Z.log2_nonneg den). split; cbn [fst snd]; [|lia]. pose proof (Z.pow_pos_nonneg 2 (24 - 2)). rewrite Z.abs_mul, (Z.abs_eq m) by lia. assert (Z.abs (Z.sgn num) <= 1) by (destruct num; cbn; lia). change (2 ^ (24 + 1)) with (2 ^ 25) in Hm. nia.
Qed.


(** ** Channels and packets *)

(** Ids and flags are bytes. *)
Definition wire (p : Packet) : Prop := match p with PacketOf m => 0 <= ChannelID m < 256 /\ 0 <= EOF m < 256 | _ => True end.

(** What the codec promises: a packet is read back with what follows it, a
    part of one is not an error, and the length of a packet depends on its
    payload, up to the ten bytes the source leaves. *)
Class PacketLaws `{PacketCodec} : Prop := {
  read_packet : forall max p s, wire p -> zlen (MarshalPacket p) <= max -> ReadPacket max (MarshalPacket p ++ s) = Got p s;
  read_partial : forall max p s r, wire p -> zlen (MarshalPacket p) <= max -> MarshalPacket p = s ++ r -> r <> [] -> ReadPacket max s = Incomplete;
  packet_nonempty : forall p, MarshalPacket p <> [];
  packet_size : forall id eof b b', 0 <= id < 256 -> 0 <= eof < 2 -> (length b <= length b')%nat -> zlen (MarshalPacket (PacketOf (mkPacketMsg id eof b))) <= zlen (MarshalPacket (PacketOf (mkPacketMsg 1 1 b'))) + 10;
  ping_size : forall b, zlen (MarshalPacket PacketPing) <= zlen (MarshalPacket (PacketOf (mkPacketMsg 1 1 b))) + 10;
  pong_size : forall b, zlen (MarshalPacket PacketPong) <= zlen (MarshalPacket (PacketOf (mkPacketMsg 1 1 b))) + 10 }.

(** The channel of an id. *)
Definition chan (c : MConnection) (id : Z) : option Channel := i ← channelsIdx c !! id; channels c !! i.

(** The messages that packets complete, and what is begun. *)
Fixpoint assemble (r : bytes) (l : list PacketMsg) : list bytes * bytes :=
  match l with
  | [] => ([], r)
  | p :: l => if EOF p =? 1 then let '(ms, r') := assemble [] l in ((r ++ Bytes p) :: ms, r') else assemble (r ++ Bytes p) l
  end.
Lemma assemble_snoc l : forall r p, assemble r (l ++ [p]) =
  let '(ms, r') := assemble r l in if EOF p =? 1 then (ms ++ [r' ++ Bytes p], []) else (ms, r' ++ Bytes p).
Proof.
  induction l as [|q l IH]; intros r p; cbn [app assemble]; [by destruct (EOF p =? 1)|]. rewrite !IH. destruct (EOF q =? 1); [|done]. destruct (assemble [] l) as [ms r']. by destruct (EOF p =? 1).
Qed.
Lemma assemble_prefix l : forall r, match assemble r l with (m :: _, _) => r `prefix_of` m | ([], r') => r `prefix_of` r' end.
Proof.
  induction l as [|p l IH]; intros r; cbn [assemble]; [done|]. destruct (EOF p =? 1).
  - destruct (assemble [] l). by eexists.
  - specialize (IH (r ++ Bytes p)). destruct (assemble (r ++ Bytes p) l) as [[|m ms] r']; destruct IH as [k Hk]; exists (Bytes p ++ k); by rewrite Hk, app_assoc.
Qed.

Definition msgsOn (id : Z) (l : list Packet) : list PacketMsg := omap (fun p => match p with PacketOf m => if ChannelID m =? id then Some m else None | _ => None end) l.
Lemma msgsOn_app id l1 l2 : msgsOn id (l1 ++ l2) = msgsOn id l1 ++ msgsOn id l2.
Proof. apply omap_app. Qed.
Definition deliveredOn (id : Z) (c : MConnection) : list bytes := omap (fun d => if d.1 =? id then Some d.2 else None) (delivered c).

(** What a channel still has to send, after [r] of the first message. *)
Definition toSend (r : bytes) (ch : Channel) : list bytes := match sending ch with [] => sendQueue ch | b => (r ++ b) :: sendQueue ch end.
Definition chanOK (P : Z) (ch : Channel) : Prop :=
  0 <= ID (desc ch) < 256 /\ 0 < Priority (desc ch) /\ int64 (recentlySent ch) /\ maxPacketMsgPayloadSize ch = P /\ Forall (fun b => b <> []) (sendQueue ch).

Lemma pending_ok P ch : chanOK P ch -> chanOK P (isSendPending ch).1.
Proof.
  intros Hc. unfold isSendPending. destruct (sending ch); [|done]. destruct (sendQueue ch) as [|m q] eqn:E; [done|]. destruct Hc as (? & ? & ? & ? & Hq). rewrite E in Hq. apply Forall_cons in Hq as [_ Hq]. unfold chanOK. cbn. tauto.
Qed.
Lemma pending_toSend P r ch : chanOK P ch -> (sending ch = [] -> r = []) -> toSend r (isSendPending ch).1 = toSend r ch /\ (sending (isSendPending ch).1 = [] -> r = []).
Proof.
  intros (_ & _ & _ & _ & Hq) Hr. unfold isSendPending, toSend. destruct (sending ch) as [|x b] eqn:Es; [|by cbn; rewrite Es]. destruct (sendQueue ch) as [|m q] eqn:Eq; [by cbn; rewrite Es, Eq|].
  cbn. rewrite (Hr eq_refl). by destruct m; [apply Forall_cons in Hq as []|].
Qed.
Lemma pending_true P ch : chanOK P ch -> (isSendPending ch).2 = bool_decide (sending (isSendPending ch).1 <> []) /\ ((isSendPending ch).2 = false -> sending ch = [] /\ sendQueue ch = []).
Proof.
  intros (_ & _ & _ & _ & Hq). unfold isSendPending. destruct (sending ch) as [|x b] eqn:Es; [|cbn; rewrite Es; split; [by rewrite bool_decide_true|done]]. destruct (sendQueue ch) as [|m q] eqn:Eq; cbn.
  - rewrite Es. split; [by rewrite bool_decide_false; [|naive_solver]|done].
  - apply Forall_cons in Hq as [Hm _]. split; [by rewrite bool_decide_true|done].
Qed.

(** The channel that is chosen has something to send, and there is one when any
    channel has. *)
Lemma leastLoop_spec P l : Forall (chanOK P) l -> forall i r least,
  let '(l', least') := leastLoop l i r least in
  l' = (fun ch => (isSendPending ch).1) <$> l /\
  (least' = least \/ exists k ch, least' = Some (i + k)%nat /\ l' !! k = Some ch /\ sending ch <> []) /\
  (least' = None -> r = MaxFloat32 -> Forall (fun ch => sending ch = [] /\ sendQueue ch = []) l).
Proof.
  induction 1 as [|ch l Hc Hl IH]; intros i r least; cbn [leastLoop]; [by split_and!; [|left|]|]. pose proof (pending_true P ch Hc) as [Hp Hnp]. pose proof (pending_ok P ch Hc) as (_ & Hprio & Hint & _).
  destruct (isSendPending ch) as [ch' b] eqn:Ei. cbn [fst snd] in *. rewrite fmap_cons, Ei. cbn [fst]. pose proof (ratio_finite (recentlySent ch') _ Hint Hprio) as Hfin%finite_lt. fold (ratio ch') in Hfin.
  destruct (b && float_lt (ratio ch') r) eqn:Eb.
  - apply andb_true_iff in Eb as [-> _]. specialize (IH (S i) (ratio ch') (Some i)). destruct (leastLoop l (S i) (ratio ch') (Some i)) as [l' least']. destruct IH as (-> & Hs & _). split; [done|]. split.
    + right. destruct Hs as [-> |(k & c & -> & Hk & Hne)]; [exists 0%nat, ch'|exists (S k), c]; (split; [f_equal; lia|]); [|done]. split; [done|]. symmetry in Hp. by apply bool_decide_eq_true in Hp.
    + intros E. by destruct Hs as [-> |(k & c & -> & _)].
  - specialize (IH (S i) r least). destruct (leastLoop l (S i) r least) as [l' least']. destruct IH as (-> & Hs & Hn). split; [done|]. split.
    + destruct Hs as [-> |(k & c & -> & Hk & Hne)]; [by left|]. right. exists (S k), c. split; [f_equal; lia|done].
    + intros E Er. subst r. rewrite Hfin, andb_true_r in Eb. subst b. constructor; [by apply Hnp|by apply Hn].
Qed.

(** ** The invariant of an end *)

Section Flow.
Context `{PacketLaws} (P : Z) (HP : 0 < P) (IDs : gmap Z nat) (caps : Z -> Z).

(** The channels and their index. *)
Record static (c : MConnection) : Prop := {
  st_index : channelsIdx c = IDs;
  st_chan : forall id i, IDs !! id = Some i -> exists ch, channels c !! i = Some ch /\ ID (desc ch) = id;
  st_id : forall i ch, channels c !! i = Some ch -> IDs !! ID (desc ch) = Some i;
  st_ok : Forall (chanOK P) (channels c);
  st_cap : forall i ch, channels c !! i = Some ch -> RecvMessageCapacity (desc ch) = caps (ID (desc ch));
  st_max : maxPacketMsgSize c = maxPacketMsgSizeOf P }.

Definition idle (ch : Channel) : Prop := sending ch = [] /\ sendQueue ch = [].
(** No wake-up is lost: a running connection with something to send is about to
    look for it, and one with bytes in its buffer is about to flush. *)
Record live (c : MConnection) : Prop := {
  lv_over : sendPos c <> Over;
  lv_batch : forall n, sendPos c = InBatch n -> (n <= 10)%nat;
  lv_wake : Forall idle (channels c) \/ send c = true \/ waking c <> 0%nat \/ exists n, sendPos c = InBatch n;
  lv_flush : bufConnWriter c = [] \/ flushSet c = true }.

Definition kept (l l' : list Channel) : Prop := Forall2 (fun ch ch' => desc ch' = desc ch /\ chanOK P ch') l l'.
Lemma static_kept c c' : static c -> kept (channels c) (channels c') -> channelsIdx c' = channelsIdx c -> maxPacketMsgSize c' = maxPacketMsgSize c -> static c'.
Proof.
  intros [H1 H2 H3 H4 H5 H6] Hk Ei Em.
  assert (Hb : forall i ch', channels c' !! i = Some ch' -> exists ch, channels c !! i = Some ch /\ desc ch' = desc ch). { intros i ch' Hl. destruct (Forall2_lookup_r _ _ _ _ _ Hk Hl) as (ch & ? & ? & _). by exists ch. }
  split.
  - congruence.
  - intros id i Hi. destruct (H2 _ _ Hi) as (ch & Hl & Hid). destruct (Forall2_lookup_l _ _ _ _ _ Hk Hl) as (ch' & Hl' & Ed & _). exists ch'. by rewrite Ed.
  - intros i ch' Hl. destruct (Hb _ _ Hl) as (ch & Hl0 & Ed). rewrite Ed. by apply H3.
  - apply Forall_lookup. intros i ch' Hl. destruct (Forall2_lookup_r _ _ _ _ _ Hk Hl) as (ch & _ & _ & Hok). done.
  - intros i ch' Hl. destruct (Hb _ _ Hl) as (ch & Hl0 & Ed). rewrite Ed. by eapply H5.
  - congruence.
Qed.
Lemma kept_refl l : Forall (chanOK P) l -> kept l l.
Proof. intros Hl. apply Forall_Forall2_diag. by eapply Forall_impl; [exact Hl|]. Qed.
Lemma kept_insert l i ch ch' : Forall (chanOK P) l -> l !! i = Some ch -> desc ch' = desc ch -> chanOK P ch' -> kept l (<[i := ch']> l).
Proof. intros Hl Hi Ed Hc. rewrite <- (list_insert_id l i ch) at 1 by done. apply Forall2_insert; [by apply kept_refl|done]. Qed.
Lemma static_self c c' : static c -> channels c' = channels c -> channelsIdx c' = channelsIdx c -> maxPacketMsgSize c' = maxPacketMsgSize c -> static c'.
Proof. intros Hs E ? ?. apply (static_kept c); [done| |done|done]. rewrite E. apply kept_refl, Hs. Qed.

Lemma chan_lookup c id ch : static c -> chan c id = Some ch <-> exists i, IDs !! id = Some i /\ channels c !! i = Some ch.
Proof. intros Hs. unfold chan. rewrite (st_index _ Hs). destruct (IDs !! id) as [i|]; cbn; split; [by exists i|by intros (? & [= <-] & ?)|done|by intros (? & ? & _)]. Qed.
Lemma chan_ID c id ch : static c -> chan c id = Some ch -> ID (desc ch) = id /\ chanOK P ch /\ RecvMessageCapacity (desc ch) = caps id.
Proof.
  intros Hs (i & Hi & Hl)%chan_lookup; [|done]. destruct (st_chan _ Hs _ _ Hi) as (ch' & Hl' & Hid). assert (ch' = ch) as -> by congruence. split; [done|]. split; [by eapply Forall_lookup_1; [apply Hs|]|]. rewrite <- Hid. by eapply st_cap.
Qed.

(** ** What a step does to the messages of the sender *)

Definition newOn (ev : event) (id : Z) : list bytes := match ev with EvSend i b => if i =? id then [b] else [] | _ => [] end.

(** The channels [l] become [l'], by putting [pkts] on the wire. *)
Definition moved (new : Z -> list bytes) (pkts : list Packet) (ch ch' : Channel) : Prop :=
  let id := ID (desc ch) in forall r, (sending ch = [] -> r = []) ->
    let '(ms, r') := assemble r (msgsOn id pkts) in toSend r ch ++ new id = ms ++ toSend r' ch' /\ (sending ch' = [] -> r' = []).
Definition packetOK (p : Packet) : Prop :=
  zlen (MarshalPacket p) <= maxPacketMsgSizeOf P /\ wire p /\ match p with PacketOf m => is_Some (IDs !! ChannelID m) | _ => True end.
Record sends (new : Z -> list bytes) (c c' : MConnection) (out : bytes) : Prop := {
  sd_run : running c' = true -> running c = true;
  sd_stop : running c' = false -> out = [] /\ forall id, new id = [];
  sd_move : running c' = true -> exists pkts, bufConnWriter c ++ (pkts ≫= MarshalPacket) = out ++ bufConnWriter c' /\ Forall packetOK pkts /\ Forall2 (moved new pkts) (channels c) (channels c') }.

Lemma moved_quiet new pkts ch ch' : msgsOn (ID (desc ch)) pkts = [] -> new (ID (desc ch)) = [] -> sending ch' = sending ch -> sendQueue ch' = sendQueue ch -> moved new pkts ch ch'.
Proof. intros Hp Hn E1 E2 r Hr. rewrite Hp. cbn. rewrite Hn, app_nil_r. unfold toSend. by rewrite E1, E2. Qed.
Lemma moved_refl new pkts l : (forall id, msgsOn id pkts = []) -> (forall id, new id = []) -> Forall2 (moved new pkts) l l.
Proof. intros Hp Hn. apply Forall_Forall2_diag. apply Forall_forall. intros ch _. by apply moved_quiet. Qed.
Lemma sends_none c c' : running c' = running c -> bufConnWriter c' = bufConnWriter c -> Forall2 (fun ch ch' => sending ch' = sending ch /\ sendQueue ch' = sendQueue ch) (channels c) (channels c') -> sends (fun _ => []) c c' [].
Proof.
  intros Er Eb Hc. split; [congruence|done|]. intros _. exists []. rewrite Eb, app_nil_r. split; [done|]. split; [done|]. eapply Forall2_impl; [exact Hc|]. intros ch ch' [? ?]. by apply moved_quiet.
Qed.
Lemma same_chans l : Forall2 (fun ch ch' => sending ch' = sending ch /\ sendQueue ch' = sendQueue ch) l l.
Proof. apply Forall_Forall2_diag. by apply Forall_forall. Qed.
Lemma sends_stop c c' : running c' = false -> sends (fun _ => []) c c' [].
Proof. intros E. split; [congruence|done|congruence]. Qed.
Lemma sends_control c c' out p : running c' = running c -> channels c' = channels c -> (p = PacketPing \/ p = PacketPong) -> out ++ bufConnWriter c' = bufConnWriter c ++ MarshalPacket p ->
  sends (fun _ => []) c c' (if running c then out else []).
Proof.
  intros Er Ec Hp Eo. split; [congruence| |].
  - intros E. rewrite <- Er, E. done.
  - intros E. rewrite <- Er, E. exists [p]. cbn. rewrite app_nil_r. split; [done|]. rewrite Ec. split.
    + constructor; [|done]. unfold packetOK, maxPacketMsgSizeOf. destruct Hp as [-> | ->]; (split; [|done]); [apply ping_size|apply pong_size].
    + apply moved_refl; [|done]. intros id. by destruct Hp as [-> | ->].
Qed.


(** ** Sending a packet *)

Definition pend (ch : Channel) : nat := (length (sending ch) + sum_list (length <$> sendQueue ch))%nat.

Lemma nextPacketMsg_spec ch : chanOK P ch -> sending ch <> [] -> exists ch' pkt, nextPacketMsg ch = Ret (ch', pkt) /\
  desc ch' = desc ch /\ chanOK P ch' /\ recving ch' = recving ch /\ ChannelID pkt = ID (desc ch) /\ 0 <= EOF pkt < 2 /\ zlen (Bytes pkt) <= P /\ (pend ch' < pend ch)%nat /\
  forall r, let '(ms, r') := assemble r [pkt] in toSend r ch = ms ++ toSend r' ch' /\ (sending ch' = [] -> r' = []).
Proof.
  intros (H1 & H2 & H3 & H4 & H5) Hs. unfold nextPacketMsg. rewrite H4. assert (Hl : 0 < zlen (sending ch)) by (unfold zlen; destruct (sending ch); [done|cbn [length]; lia]). rewrite (proj2 (Z.ltb_ge (Z.min P (zlen (sending ch))) 0)) by lia.
  destruct (Z.leb_spec (zlen (sending ch)) P) as [Hle|Hgt].
  - eexists _, _. split; [done|]. cbn [desc recving ChannelID EOF Bytes sending sendQueue]. rewrite Z.min_r, take_ge by (unfold zlen in *; lia). split_and!; try done; try lia.
    + unfold pend. cbn. unfold zlen in Hl. lia.
    + intros r. cbn. unfold toSend. cbn. destruct (sending ch) eqn:E; [done|]. done.
  - rewrite Z.min_l by lia. eexists _, _. split; [done|]. cbn [desc recving ChannelID EOF Bytes sending sendQueue]. split_and!; try done; try lia.
    + unfold zlen. rewrite length_take. lia.
    + unfold pend. cbn. rewrite length_drop. unfold zlen in *. lia.
    + intros r. cbn. unfold toSend. cbn. destruct (drop (Z.to_nat P) (sending ch)) as [|x d] eqn:E.
      { apply (f_equal length) in E. rewrite length_drop in E. unfold zlen in Hgt. cbn in E. lia. }
      destruct (sending ch) as [|y s] eqn:Es; [done|]. split; [|done]. rewrite <- E, <- app_assoc, take_drop. done.
Qed.

Lemma pend_pending ch : pend (isSendPending ch).1 = pend ch.
Proof. unfold pend, isSendPending. destruct (sending ch) eqn:E; [|by cbn; rewrite E]. destruct (sendQueue ch) eqn:E'; [by cbn; rewrite E, E'|]. done. Qed.

Definition pending (c : MConnection) : nat := sum_list (pend <$> channels c).

Lemma sum_insert l : forall i ch ch', l !! i = Some ch -> (pend ch' < pend ch)%nat -> (sum_list (pend <$> <[i := ch']> l) < sum_list (pend <$> l))%nat.
Proof.
  induction l as [|x l IH]; intros [|i] ch ch' Hl Hp; try done; cbn [lookup list_lookup] in Hl.
  - injection Hl as ->. change (pend ch' + sum_list (pend <$> l) < pend ch + sum_list (pend <$> l))%nat. lia.
  - specialize (IH i ch ch' Hl Hp). change (pend x + sum_list (pend <$> <[i := ch']> l) < pend x + sum_list (pend <$> l))%nat. lia.
Qed.

Record sameSend (c c' : MConnection) : Prop := {
  ss_idx : channelsIdx c' = channelsIdx c; ss_max : maxPacketMsgSize c' = maxPacketMsgSize c; ss_run : running c' = running c; ss_over : recvOver c' = recvOver c;
  ss_send : send c' = send c; ss_waking : waking c' = waking c; ss_pos : sendPos c' = sendPos c; ss_delivered : delivered c' = delivered c;
  ss_recving : Forall2 (fun ch ch' => recving ch' = recving ch /\ desc ch' = desc ch) (channels c) (channels c') }.

Lemma moved_pending pkts ch : chanOK P ch -> msgsOn (ID (desc ch)) pkts = [] -> moved (fun _ => []) pkts ch (isSendPending ch).1.
Proof. intros Hc Hm r Hr. rewrite Hm. cbn. rewrite app_nil_r. destruct (pending_toSend P r ch Hc Hr) as [-> ?]. done. Qed.
Lemma pending_desc ch : desc (isSendPending ch).1 = desc ch /\ recving (isSendPending ch).1 = recving ch.
Proof. unfold isSendPending. destruct (sending ch), (sendQueue ch); done. Qed.

Lemma sendPacketMsg_spec c : static c -> exists c' out eof, sendPacketMsg c = Ret (c', out, eof) /\ kept (channels c) (channels c') /\ sameSend c c' /\
  if eof then out = [] /\ bufConnWriter c' = bufConnWriter c /\ flushSet c' = flushSet c /\ Forall idle (channels c') /\ Forall2 (moved (fun _ => []) []) (channels c) (channels c')
  else flushSet c' = true /\ (pending c' < pending c)%nat /\ exists pkt, packetOK (PacketOf pkt) /\ bufConnWriter c ++ MarshalPacket (PacketOf pkt) = out ++ bufConnWriter c' /\ Forall2 (moved (fun _ => []) [PacketOf pkt]) (channels c) (channels c').
Proof.
  intros Hs. pose proof (st_ok _ Hs) as Hok. unfold sendPacketMsg. pose proof (leastLoop_spec P (channels c) Hok 0 MaxFloat32 None) as Hl. destruct (leastLoop (channels c) 0 MaxFloat32 None) as [l least]. destruct Hl as (El & Hsome & Hnone).
  assert (Hk : kept (channels c) l). { rewrite El. apply Forall2_fmap_r, Forall_Forall2_diag. eapply Forall_impl; [exact Hok|]. intros ch Hc. split; [apply pending_desc|by apply pending_ok]. }
  assert (Hrl : Forall2 (fun ch ch' => recving ch' = recving ch /\ desc ch' = desc ch) (channels c) l). { rewrite El. apply Forall2_fmap_r, Forall_Forall2_diag. apply Forall_forall. intros ch _. split; apply pending_desc. }
  destruct least as [k|].
  - destruct Hsome as [?|(i & ch1 & [= ->] & Hch1 & Hne)]; [done|]. cbn [Nat.add] in *. destruct (Forall2_lookup_r _ _ _ _ _ Hk Hch1) as (ch & Hch & Hd1 & Hc1). assert (Hc : chanOK P ch) by (by eapply Forall_lookup_1).
    assert (E1 : ch1 = (isSendPending ch).1). { rewrite El, list_lookup_fmap, Hch in Hch1. by injection Hch1. }
    destruct (nextPacketMsg_spec ch1 Hc1 Hne) as (ch' & pkt & En & Hd & Hc' & Hrv & Hid & Heof & Hlen & Hpd & Hm). rewrite (idx_lookup l (Z.of_nat i) ch1) by (rewrite ?Nat2Z.id; (done || lia)). cbn [mbind go_mbind]. unfold writePacketMsgTo. rewrite En. cbn [mbind go_mbind].
    set (bz := MarshalPacket (PacketOf pkt)). set (ch2 := mkChannel _ _ _ _ _ _ _). unfold bufWrite. cbn [setChannels bufConnWriter]. pose proof (bufio_Write_split minWriteBufferSize (bufConnWriter c) bz) as Hb. destruct (bufio_Write _ _ bz) as [out buf].
    assert (Hc2 : chanOK P ch2) by (destruct Hc' as (? & ? & ? & ? & ?); unfold chanOK, ch2; cbn [desc recentlySent maxPacketMsgPayloadSize sendQueue]; split; [done|]; split; [done|]; split; [apply wrap64_int64|done]).
    assert (Hkl : kept (channels c) (<[i := ch2]> l)). { rewrite <- (list_insert_id (channels c) i ch) by done. apply Forall2_insert; [done|]. cbn. by rewrite Hd, Hd1. }
    eexists _, out, false. split; [reflexivity|]. cbn [channels setWriter setChannels]. split; [done|]. split; [|split; [done|split]].
    + split; try done. cbn. rewrite <- (list_insert_id (channels c) i ch) by done. apply Forall2_insert; [done|]. cbn. rewrite Hrv, Hd, Hd1, E1. split; [apply pending_desc|done].
    + unfold pending. cbn [channels setWriter setChannels]. assert (Hp2 : (pend ch2 < pend ch1)%nat) by (unfold pend in *; cbn; lia). pose proof (sum_insert l i ch1 ch2 Hch1 Hp2) as Hx. enough (sum_list (pend <$> l) = sum_list (pend <$> channels c)) by lia.
      rewrite El, <- list_fmap_compose. f_equal. apply list_fmap_ext. intros j x _. cbn. apply pend_pending.
    + exists pkt. split; [|split; [symmetry; exact Hb|]].
      * split; [|split; [cbn; rewrite Hid, Hd1; split; [apply Hc|lia]|rewrite Hid, Hd1; exists i; by apply (st_id _ Hs)]]. destruct pkt as [id eof bs]. unfold maxPacketMsgSizeOf. apply packet_size; [cbn in Hid; rewrite Hid; apply Hc1|done|]. rewrite length_replicate. cbn in Hlen. unfold zlen in Hlen. lia.
      * apply Forall2_same_length_lookup. split; [rewrite length_insert, El, length_fmap; done|]. intros j x y Hx Hy. destruct (decide (j = i)) as [-> |Hji].
        -- rewrite list_lookup_insert_eq in Hy by (by eapply lookup_lt_Some). injection Hy as <-. assert (x = ch) as -> by congruence. intros r Hr. cbn [msgsOn omap list_omap]. rewrite Hid, Hd1, Z.eqb_refl.
           specialize (Hm r). rewrite app_nil_r. destruct (pending_toSend P r ch Hc Hr) as [Et _]. rewrite <- E1 in Et. rewrite <- Et. cbn [assemble] in Hm |- *. destruct (EOF pkt =? 1); exact Hm.
        -- rewrite list_lookup_insert_ne, El, list_lookup_fmap, Hx in Hy by done. injection Hy as <-. apply moved_pending; [by eapply Forall_lookup_1|]. cbn [msgsOn omap list_omap]. rewrite (proj2 (Z.eqb_neq _ _)); [done|].
           intros E. apply Hji. pose proof (st_id _ Hs _ _ Hx) as Hi1. pose proof (st_id _ Hs _ _ Hch) as Hi2. rewrite <- E, Hid, Hd1, Hi2 in Hi1. by injection Hi1.
  - specialize (Hnone eq_refl eq_refl). eexists _, [], true. split; [reflexivity|]. cbn [channels setChannels]. split; [done|]. split; [by split|]. split_and!; try done.
    + rewrite El. apply Forall_fmap. eapply Forall_impl; [exact Hnone|]. intros ch [E1 E2]. cbn. unfold isSendPending. by rewrite E1, E2.
    + rewrite El. apply Forall2_fmap_r, Forall_Forall2_diag. eapply Forall_impl; [exact Hok|]. intros ch Hc. by apply moved_pending.
Qed.

(** ** Steps of one end *)

Lemma sends_keep c c' out : running c' = running c -> out ++ bufConnWriter c' = bufConnWriter c -> Forall2 (fun ch ch' => sending ch' = sending ch /\ sendQueue ch' = sendQueue ch) (channels c) (channels c') ->
  sends (fun _ => []) c c' (if running c then out else []).
Proof.
  intros Er Eb Hc. split; [congruence|intros E; by rewrite <- Er, E|]. intros E. rewrite <- Er, E. exists []. cbn [mbind list_bind]. rewrite Eb, app_nil_r. split; [done|]. split; [done|]. eapply Forall2_impl; [exact Hc|]. intros ch ch' [? ?]. by apply moved_quiet.
Qed.

Definition recvSame (c c' : MConnection) : Prop := delivered c' = delivered c /\ Forall2 (fun ch ch' => recving ch' = recving ch /\ desc ch' = desc ch) (channels c) (channels c').
Lemma recvSame_self c c' : delivered c' = delivered c -> channels c' = channels c -> recvSame c c'.
Proof. intros E1 E2. split; [done|]. rewrite E2. apply Forall_Forall2_diag. by apply Forall_forall. Qed.

(** What is shown of every step. *)
Record stepOK (ev : event) (c c' : MConnection) (out : bytes) : Prop := {
  so_static : static c';
  so_live : running c' = true -> live c';
  so_sends : sends (newOn ev) c c' out;
  so_recv : ev = EvRecv \/ recvSame c c' }.

(** Steps that leave the channels, and the duty to wake and flush. *)
Lemma step_plain ev c c' out o : running c = true -> o = out -> static c -> (running c = true -> live c) -> channels c' = channels c -> channelsIdx c' = channelsIdx c -> maxPacketMsgSize c' = maxPacketMsgSize c -> running c' = running c ->
  out ++ bufConnWriter c' = bufConnWriter c -> delivered c' = delivered c -> (forall id, newOn ev id = []) -> (running c = true -> sendPos c = AtSelect -> sendPos c' = AtSelect) -> (sendPos c = AtSelect \/ sendPos c' = sendPos c) ->
  (send c = true -> send c' = true) -> (waking c = 0%nat \/ waking c' = waking c) -> (bufConnWriter c' = [] \/ flushSet c' = flushSet c) -> stepOK ev c c' o.
Proof.
  intros Hrun -> Hs Hl Ec Ei Em Er Eb Ed En Hp1 Hp2 Hsend Hw Hf. split.
  - by apply (static_self c).
  - intros Hr. rewrite Er in Hr. destruct (Hl Hr) as [L1 L2 L3 L4]. specialize (Hp1 Hr). split.
    + destruct Hp2 as [E|E]; [by rewrite (Hp1 E)|by rewrite E].
    + intros n En'. destruct Hp2 as [E|E]; [by rewrite (Hp1 E) in En'|]. apply L2. by rewrite <- E.
    + rewrite Ec. destruct L3 as [L3|[L3|[L3|[n L3]]]]; [by left|right; left; by apply Hsend| |].
      * right; right; left. destruct Hw as [?| ->]; done.
      * right; right; right. exists n. destruct Hp2 as [E|E]; [congruence|by rewrite E].
    + destruct Hf as [?|Ef]; [by left|]. destruct L4 as [E|E]; [|right; by rewrite Ef]. left. rewrite E in Eb. by apply app_eq_nil in Eb as [_ ?].
  - destruct (sends_keep c c' out Er Eb) as [S1 S2 S3]; [rewrite Ec; apply same_chans|]. rewrite Hrun in S2, S3. split; [done| |].
    + intros E. split; [by apply S2|done].
    + intros E. destruct (S3 E) as (pkts & ? & ? & Hm). exists pkts. split; [done|]. split; [done|]. eapply Forall2_impl; [exact Hm|]. intros ch ch' Hmv r Hr. rewrite En. by apply Hmv.
  - right. by apply recvSame_self.
Qed.

Lemma step_stop ev c c' : static c -> channels c' = channels c -> channelsIdx c' = channelsIdx c -> maxPacketMsgSize c' = maxPacketMsgSize c -> running c' = false -> delivered c' = delivered c -> (forall id, newOn ev id = []) -> stepOK ev c c' [].
Proof.
  intros Hs Ec Ei Em Er Ed En. split; [by apply (static_self c)|by rewrite Er| |right; by apply recvSame_self]. split; [by rewrite Er|done|by rewrite Er].
Qed.

Lemma step_control ev c c' out p o : running c = true -> o = out -> static c -> (running c = true -> live c) -> channels c' = channels c -> channelsIdx c' = channelsIdx c -> maxPacketMsgSize c' = maxPacketMsgSize c -> running c' = running c ->
  (p = PacketPing \/ p = PacketPong) -> out = bufConnWriter c ++ MarshalPacket p -> bufConnWriter c' = [] -> delivered c' = delivered c -> (forall id, newOn ev id = []) -> (running c = true -> sendPos c' = AtSelect) -> sendPos c = AtSelect ->
  send c' = send c -> waking c' = waking c -> stepOK ev c c' o.
Proof.
  intros Hrun -> Hs Hl Ec Ei Em Er Hp Eo Eb Ed En Hp1 Hp2 Hsend Hw. split.
  - by apply (static_self c).
  - intros Hr. rewrite Er in Hr. destruct (Hl Hr) as [L1 L2 L3 L4]. specialize (Hp1 Hr). split; [congruence|congruence| |by left].
    rewrite Ec, Hsend, Hw. destruct L3 as [L3|[L3|[L3|[n L3]]]]; [by left|by right; left|by right; right; left|congruence].
  - destruct (sends_control c c' out p Er Ec Hp) as [S1 S2 S3]; [by rewrite Eb, app_nil_r|]. rewrite Hrun in S2, S3. split; [done| |].
    + intros E. split; [by apply S2|done].
    + intros E. destruct (S3 E) as (pkts & ? & ? & Hm). exists pkts. split; [done|]. split; [done|]. eapply Forall2_impl; [exact Hm|]. intros ch ch' Hmv r Hr. rewrite En. by apply Hmv.
  - right. by apply recvSame_self.
Qed.

Lemma bufWrite_flush c f1 bz : let '(c1, out) := bufWrite c f1 bz in out ++ bufConnWriter c1 = bufConnWriter c ++ bz.
Proof. unfold bufWrite. pose proof (bufio_Write_split minWriteBufferSize (bufConnWriter c) bz) as Hb. destruct (bufio_Write _ _ bz) as [out buf]. exact Hb. Qed.

Ltac plain Er Hl := eapply step_plain; [exact Er|reflexivity|..]; cbn; rewrite ?app_nil_r; try done; try (left; done); try (right; done); try (intros _; by apply Hl).

Lemma endTurn_same c : running (endTurn c) = running c /\ channels (endTurn c) = channels c /\ channelsIdx (endTurn c) = channelsIdx c /\ maxPacketMsgSize (endTurn c) = maxPacketMsgSize c /\
  bufConnWriter (endTurn c) = bufConnWriter c /\ delivered (endTurn c) = delivered c.
Proof. unfold endTurn. destruct (running c) eqn:E; cbn; by rewrite E. Qed.

(** A turn of [sendSomePacketMsgs]. *)
Lemma packet_ok c n c' out : static c -> (running c = true -> live c) -> sendPos c = InBatch (S n) -> sendStep EvPacket c = Some (c', out) -> stepOK EvPacket c c' (if running c then out else []).
Proof.
  intros Hs Hl Ep E. cbn [sendStep] in E. rewrite Ep in E. destruct (sendPacketMsg_spec c Hs) as (c1 & o & eof & Es & Hk & [S1 S2 S3 S4 S5 S6 S7 S8 S9] & Hc). rewrite Es in E. destruct eof; injection E as <- <-.
  - destruct Hc as (-> & Hb & Hf & Hidle & Hm). destruct (endTurn_same c1) as (Hrun & Hch & Hix & Hmx & Hbw & Hdl). split.
    + apply (static_kept c); [done|by rewrite Hch|congruence..].
    + intros Hr. rewrite Hrun in Hr. unfold endTurn. rewrite Hr. rewrite S3 in Hr. destruct (Hl Hr) as [L1 L2 L3 L4]. split; cbn; [done|done|by left|]. rewrite Hb, Hf. done.
    + replace (if running c then [] else []) with (@nil Byte.byte) by (by destruct (running c)). split; [congruence|done|]. intros Hr. exists []. rewrite Hch, Hbw, Hb, app_nil_r. done.
    + right. split; [congruence|]. by rewrite Hch.
  - destruct Hc as (Hf & _ & pkt & Hp & Hb & Hm). split.
    + by apply (static_kept c).
    + cbn. intros Hr. rewrite S3 in Hr. destruct (Hl Hr) as [L1 L2 L3 L4]. split; cbn; [done|intros k [= <-]; specialize (L2 _ Ep); lia|right; right; right; by eexists|by right].
    + split; cbn [running setPos]; rewrite S3; [done|by intros ->|]. intros ->. exists [PacketOf pkt]. cbn. rewrite app_nil_r. split; [done|]. split; [by constructor|done].
    + right. by split.
Qed.

Lemma sendStep_ok ev c c' out : static c -> (running c = true -> live c) -> sendStep ev c = Some (c', out) -> (forall id, newOn ev id = []) /\ stepOK ev c c' (if running c then out else []).
Proof.
  intros Hs Hl E. assert (En : forall id, newOn ev id = []) by (by destruct ev). split; [exact En|]. destruct ev; try done; cbn [sendStep] in E; destruct (sendPos c) as [|n|] eqn:Ep; try done.
  - destruct (flushSet c); [|done]. cbn in E. injection E as <- <-. unfold endTurn. destruct (running c) eqn:Er; cbn; rewrite ?Er; [|apply step_stop; by cbn]. plain Er Hl.
  - injection E as <- <-. assert (Hk : kept (channels c) (updateStats <$> channels c)). { apply Forall2_fmap_r, Forall_Forall2_diag. eapply Forall_impl; [apply Hs|]. intros ch (? & ? & ? & ? & ?). split; [done|]. unfold chanOK, updateStats. cbn [desc recentlySent maxPacketMsgPayloadSize sendQueue]. split; [done|]. split; [done|]. split; [apply wrap64_int64|done]. }
    destruct (endTurn_same (setChannels c (updateStats <$> channels c))) as (Hrun & Hch & Hix & Hmx & Hbw & Hdl).
    split.
    + apply (static_kept c); [done|by rewrite Hch|done..].
    + intros Hr. rewrite Hrun in Hr. change (running c = true) in Hr. destruct (Hl Hr) as [L1 L2 L3 L4]. unfold endTurn. cbn [setChannels running]. rewrite Hr. split; cbn; [done|done| |done]. destruct L3 as [L3|[L3|[L3|[n L3]]]]; [left|by right; left|by right; right; left|congruence].
      apply Forall_fmap. eapply Forall_impl; [exact L3|]. intros ch [? ?]. by split.
    + apply sends_keep; [done|done|]. rewrite Hch. apply Forall2_fmap_r, Forall_Forall2_diag. by apply Forall_forall.
    + right. split; [done|]. rewrite Hch. apply Forall2_fmap_r, Forall_Forall2_diag. by apply Forall_forall.
  - pose proof (bufWrite_flush c (flushSet c) (MarshalPacket PacketPing)) as Hb. unfold bufWrite in E, Hb. destruct (bufio_Write _ _ _) as [o buf]. cbn in E, Hb. injection E as <- <-. unfold endTurn. cbn. destruct (running c) eqn:Er; [|apply step_stop; by cbn].
    eapply (step_control _ _ _ _ PacketPing); [exact Er|reflexivity|..]; cbn; try done; [intros _; by apply Hl|by left].
  - destruct (pongTimeoutCh c) as [[]|]; [| |done]; injection E as <- <-; unfold endTurn; destruct (running c) eqn:Er; cbn; rewrite ?Er; try (apply step_stop; by cbn). plain Er Hl.
  - destruct (pong c || recvOver c); [|done]. pose proof (bufWrite_flush (setPong c false) (flushSet c) (MarshalPacket PacketPong)) as Hb. unfold bufWrite in E, Hb. cbn in E, Hb. destruct (bufio_Write _ _ _) as [o buf]. cbn in E, Hb. injection E as <- <-. unfold endTurn. cbn. destruct (running c) eqn:Er; [|apply step_stop; by cbn].
    eapply (step_control _ _ _ _ PacketPong); [exact Er|reflexivity|..]; cbn; try done; [intros _; by apply Hl|by right].
  - destruct (send c) eqn:Esd; [|done]. injection E as <- <-. split.
    + by apply (static_self c).
    + cbn. intros Hr. destruct (Hl Hr) as [L1 L2 L3 L4]. split; cbn; [done|intros k [= <-]; done|right; right; right; by eexists|done].
    + apply sends_keep; [done|done|apply same_chans].
    + right. by apply recvSame_self.
  - destruct n as [|n]; [done|]. apply (packet_ok c n); [done..|]. cbn [sendStep]. by rewrite Ep.
  - destruct n as [|n]; [|done]. injection E as <- <-. destruct (endTurn_same (setSend c true)) as (Hrun & Hch & Hix & Hmx & Hbw & Hdl). split.
    + by apply (static_self c).
    + intros Hr. rewrite Hrun in Hr. change (running c = true) in Hr. destruct (Hl Hr) as [L1 L2 L3 L4]. unfold endTurn. cbn [setSend running]. rewrite Hr. split; cbn; [done|done|by right; left|done].
    + apply sends_keep; [done|done|]. rewrite Hch. apply same_chans.
    + right. by apply recvSame_self.
  - destruct (running c) eqn:Er; [done|]. injection E as <- <-. apply step_stop; by cbn.
Qed.

Lemma recv_fields c s c' rest : recvStep c s = Some (c', rest) ->
  channelsIdx c' = channelsIdx c /\ maxPacketMsgSize c' = maxPacketMsgSize c /\ bufConnWriter c' = bufConnWriter c /\ sendPos c' = sendPos c /\ send c' = send c /\ waking c' = waking c /\ flushSet c' = flushSet c /\
  (running c' = true -> running c = true) /\ Forall2 (fun ch ch' => desc ch' = desc ch /\ (chanOK P ch -> chanOK P ch') /\ sending ch' = sending ch /\ sendQueue ch' = sendQueue ch) (channels c) (channels c').
Proof.
  assert (Hself : Forall2 (fun ch ch' => desc ch' = desc ch /\ (chanOK P ch -> chanOK P ch') /\ sending ch' = sending ch /\ sendQueue ch' = sendQueue ch) (channels c) (channels c)) by (apply Forall_Forall2_diag; by apply Forall_forall).
  assert (Hins : forall i ch b, channels c !! i = Some ch -> Forall2 (fun ch ch' => desc ch' = desc ch /\ (chanOK P ch -> chanOK P ch') /\ sending ch' = sending ch /\ sendQueue ch' = sendQueue ch) (channels c) (<[i := setRecving ch b]> (channels c))).
  { intros i ch b Hi. rewrite <- (list_insert_id (channels c) i ch) at 1 by done. by apply Forall2_insert. }
  unfold recvStep. destruct (recvOver c); [done|]. destruct (ReadPacket (maxPacketMsgSize c) s) as [| |[| |pkt] r]; try done.
  - destruct (running c) eqn:Er; intros [= <- <-]; cbn; by rewrite ?Er.
  - intros [= <- <-]. done.
  - intros [= <- <-]. by destruct (pongTimeoutCh c).
  - destruct (channelsIdx c !! ChannelID pkt) as [i|]; cbn [mbind option_bind]; [|intros [= <- <-]; by cbn]. destruct (channels c !! i) as [ch|] eqn:Ech; cbn [mbind option_bind]; [|intros [= <- <-]; by cbn].
    unfold recvPacketMsg. destruct (_ <? _); [|destruct (EOF pkt =? 1); intros [= <- <-]; cbn; split_and!; try done; by apply Hins].
    cbn [running setChannels]. rewrite (list_insert_id _ _ _ Ech). destruct (running c) eqn:Er; intros [= <- <-]; cbn; by rewrite ?Er.
Qed.

Lemma recvStep_ok c s c' rest : static c -> (running c = true -> live c) -> recvStep c s = Some (c', rest) -> stepOK EvRecv c c' [].
Proof.
  intros Hs Hl E. destruct (recv_fields _ _ _ _ E) as (E1 & E2 & E3 & E4 & E5 & E6 & E7 & E8 & E9). split; [| | |by left].
  - apply (static_kept c); [done| |done|done]. apply Forall2_same_length_lookup. split; [by eapply Forall2_length|].
    intros i ch ch' Hi Hi'. destruct (Forall2_lookup_lr _ _ _ _ _ _ E9 Hi Hi') as (? & Hok & _). split; [done|]. apply Hok. eapply Forall_lookup_1; [apply Hs|done].
  - intros Hr. destruct (Hl (E8 Hr)) as [L1 L2 L3 L4]. split; rewrite ?E4, ?E5, ?E6, ?E7, ?E3; try done. destruct L3 as [L3|L3]; [left|by right]. apply Forall_lookup. intros i ch' Hi'. destruct (Forall2_lookup_r _ _ _ _ _ E9 Hi') as (ch & Hi & _ & _ & Es & Eq).
    unfold idle. rewrite Es, Eq. by eapply (Forall_lookup_1 idle).
  - split; [done|done|]. intros Hr. exists []. rewrite app_nil_r, E3. split; [done|]. split; [done|]. eapply Forall2_impl; [exact E9|]. intros ch ch' (_ & _ & ? & ?). by apply moved_quiet.
Qed.

Lemma Send_ok c id b c' : static c -> (running c = true -> live c) -> b <> [] -> Send c id b = Some c' -> stepOK (EvSend id b) c c' [].
Proof.
  intros Hs Hl Hb E. unfold Send in E. destruct (running c) eqn:Er; [|done]. cbn [negb] in E. destruct (channelsIdx c !! id) as [i|] eqn:Ei; [|done]. cbn [mbind option_bind] in E. destruct (channels c !! i) as [ch|] eqn:Ech; [|done]. cbn [mbind option_bind] in E.
  unfold trySendBytes in E. destruct (_ <? _); [|done]. cbn [mbind option_bind] in E. injection E as <-. set (ch' := mkChannel _ _ _ _ _ _ _). rewrite (st_index _ Hs) in Ei. destruct (st_chan _ Hs _ _ Ei) as (ch0 & Ech0 & Hid). assert (ch0 = ch) as -> by congruence.
  assert (Hc : chanOK P ch) by (eapply Forall_lookup_1; [apply Hs|done]). assert (Hc' : chanOK P ch') by (destruct Hc as (? & ? & ? & ? & ?); unfold chanOK, ch'; cbn [desc recentlySent maxPacketMsgPayloadSize sendQueue]; split; [done|]; split; [done|]; split; [done|]; split; [done|]; apply Forall_app; split; [done|by apply Forall_singleton]).
  split.
  - apply (static_kept c); [done| |done|done]. by eapply kept_insert; [apply Hs|..].
  - intros _. destruct (Hl eq_refl) as [L1 L2 L3 L4]. split; cbn; try done. by right; right; left.
  - split; [done|cbn; congruence|]. intros _. exists []. cbn [bufConnWriter setWaking setChannels channels mbind list_bind]. rewrite app_nil_r. split; [done|]. split; [done|]. rewrite <- (list_insert_id (channels c) i ch) at 1 by done. apply Forall2_same_length_lookup. split; [by rewrite !length_insert|].
    intros j x y Hx Hy. rewrite (list_insert_id _ _ _ Ech) in Hx. destruct (decide (j = i)) as [-> |Hji].
    + rewrite list_lookup_insert_eq in Hy by (by eapply lookup_lt_Some). injection Hy as <-. assert (x = ch) as -> by congruence. intros r Hr. cbn. rewrite Hid, Z.eqb_refl. unfold toSend, ch'. cbn. destruct (sending ch); [split; [done|]; by intros _; apply Hr|done].
    + rewrite list_lookup_insert_ne, Hx in Hy by done. injection Hy as <-. apply moved_quiet; try done. cbn. rewrite (proj2 (Z.eqb_neq _ _)); [done|]. intros E. apply Hji. pose proof (st_id _ Hs _ _ Hx) as Hi. rewrite <- E, Ei in Hi. by injection Hi.
  - right. split; [done|]. cbn [channels setWaking setChannels]. rewrite <- (list_insert_id (channels c) i ch) at 1 by done. apply Forall2_insert; [apply Forall_Forall2_diag; by apply Forall_forall|done].
Qed.

Definition sendable (ev : event) : Prop := match ev with EvSend _ b => b <> [] | _ => True end.

Lemma step_ok ev c input c' input' out : static c -> (running c = true -> live c) -> sendable ev -> step ev c input = Some (c', input', out) -> stepOK ev c c' out /\ (ev = EvRecv \/ input' = input).
Proof.
  intros Hs Hl Hev E. assert (Hsend : forall o, sendStep ev c = Some (c', o) -> stepOK ev c c' (if running c then o else [])) by (intros o Eo; by apply sendStep_ok).
  assert (Hss : (forall id b, ev <> EvSend id b) -> ev <> EvWake -> ev <> EvPongTimer -> ev <> EvRecv -> ev <> EvReadError -> step ev c input = ('(c', out) ← sendStep ev c; Some (c', input, if running c then out else []))) by (destruct ev; naive_solver).
  destruct ev; try (rewrite Hss in E by done; destruct (sendStep _ c) as [[c1 o]|] eqn:Es; [|done]; injection E as <- <- <-; split; [by apply Hsend|by right]); cbn [step] in E.
  - destruct (Send c chID b) as [c1|] eqn:E1; [|done]. injection E as <- <- <-. split; [by apply Send_ok|by right].
  - destruct (wake c) as [c1|] eqn:E1; [|done]. injection E as <- <- <-. split; [|by right]. unfold wake in E1. destruct (waking c) as [|n]; [done|]. injection E1 as <-. split; [by apply (static_self c)| | |right; by apply recvSame_self].
    + cbn. intros Hr. destruct (Hl Hr) as [L1 L2 L3 L4]. split; cbn; try done. by right; left.
    + apply sends_none; [done|done|apply same_chans].
  - destruct (pongTimer c); [|done]. destruct (running c) eqn:Er.
    + destruct (pongTimeoutCh c); injection E as <- <- <-; (split; [|by right]); plain Er Hl.
    + destruct (pongTimeoutCh c); injection E as <- <- <-; (split; [|by right]); apply step_stop; by cbn.
  - destruct (recvStep c input) as [[c1 r]|] eqn:E1; [|done]. injection E as <- <- <-. split; [by eapply recvStep_ok|by left].
  - destruct (recvOver c); [done|]. injection E as <- <- <-. split; [|by right]. destruct (running c) eqn:Er; apply step_stop; by cbn.
Qed.

(** ** The messages on their way *)

Context (Hcaps : forall id, 0 <= caps id).

(** The bytes between the ends are packets; on every channel what was
    delivered, what the packets complete and what is still to be sent are
    together what was accepted. *)
Definition flow (c1 c2 : MConnection) (w : bytes) (acc : Z -> list bytes) : Prop :=
  exists (pkts : list Packet) (buf : bytes) (rest : Z -> list bytes),
    w ++ buf = pkts ≫= MarshalPacket /\ Forall packetOK pkts /\
    (forall id ch2, chan c2 id = Some ch2 -> let '(ms, r) := assemble (recving ch2) (msgsOn id pkts) in
      deliveredOn id c2 ++ ms ++ rest id = acc id /\ Forall (fun m => zlen m <= caps id) ms /\ zlen r <= caps id) /\
    (running c1 = true -> buf = bufConnWriter c1 /\ forall id ch1 ch2, chan c1 id = Some ch1 -> chan c2 id = Some ch2 ->
      let '(_, r) := assemble (recving ch2) (msgsOn id pkts) in rest id = toSend r ch1 /\ (sending ch1 = [] -> r = [])).

Lemma assemble_app l1 : forall r l2, assemble r (l1 ++ l2) = let '(ms1, r1) := assemble r l1 in let '(ms2, r2) := assemble r1 l2 in (ms1 ++ ms2, r2).
Proof.
  induction l1 as [|p l1 IH]; intros r l2; cbn [app assemble]; [by destruct (assemble r l2)|]. destruct (EOF p =? 1); [|apply IH]. rewrite IH. destruct (assemble [] l1) as [ms1 r1]. by destruct (assemble r1 l2).
Qed.

Lemma chan_step c c' (R : Channel -> Channel -> Prop) id ch : static c -> static c' -> Forall2 R (channels c) (channels c') -> chan c id = Some ch -> exists ch', chan c' id = Some ch' /\ R ch ch'.
Proof.
  intros Hs Hs' HR (i & Hi & Hl)%chan_lookup; [|done]. destruct (Forall2_lookup_l _ _ _ _ _ HR Hl) as (ch' & Hl' & Hr). exists ch'. split; [|done]. apply chan_lookup; [done|]. by exists i.
Qed.
Lemma chan_both c c' id ch : static c -> static c' -> chan c id = Some ch -> exists ch', chan c' id = Some ch'.
Proof. intros Hs Hs' (i & Hi & _)%chan_lookup; [|done]. destruct (st_chan _ Hs' _ _ Hi) as (ch' & Hl & _). exists ch'. apply chan_lookup; [done|]. by exists i. Qed.

Lemma flow_send ev c1 c1' c2 w out acc : static c1 -> static c2 -> stepOK ev c1 c1' out -> (forall id, Forall (fun m => zlen m <= caps id) (acc id ++ newOn ev id)) ->
  flow c1 c2 w acc -> flow c1' c2 (w ++ out) (fun id => acc id ++ newOn ev id).
Proof.
  intros Hs1 Hs2 [Hs1' _ [S1 S2 S3] _] Hacc (pkts & buf & rest & Ew & Hp & Hd & Hr). destruct (running c1') eqn:Er.
  - destruct (S3 eq_refl) as (new & Eb & Hn & Hm). destruct (Hr (S1 eq_refl)) as [-> Hq].
    assert (Hid : forall id ch2, chan c2 id = Some ch2 -> exists ch1 ch1', chan c1 id = Some ch1 /\ chan c1' id = Some ch1' /\ ID (desc ch1) = id /\ moved (newOn ev) new ch1 ch1').
    { intros id ch2 Hc2. destruct (chan_both _ _ _ _ Hs2 Hs1 Hc2) as (ch1 & Hc1). destruct (chan_step _ _ _ _ _ Hs1 Hs1' Hm Hc1) as (ch1' & Hc1' & Hmv). exists ch1, ch1'. split_and!; try done. by destruct (chan_ID _ _ _ Hs1 Hc1). }
    exists (pkts ++ new), (bufConnWriter c1'), (fun id => match chan c2 id with Some ch2 => let '(_, r) := assemble (recving ch2) (msgsOn id (pkts ++ new)) in match chan c1' id with Some ch1' => toSend r ch1' | None => [] end | None => [] end). split_and!.
    + rewrite bind_app, <- Ew, <- !app_assoc. f_equal. by rewrite Eb.
    + by apply Forall_app.
    + intros id ch2 Hc2. rewrite Hc2. destruct (Hid id ch2 Hc2) as (ch1 & ch1' & Hc1 & Hc1' & Ei & Hmv). specialize (Hd id ch2 Hc2). specialize (Hq id ch1 ch2 Hc1 Hc2). rewrite msgsOn_app, assemble_app. destruct (assemble (recving ch2) (msgsOn id pkts)) as [ms r].
      destruct Hd as (E1 & Hms & _). destruct Hq as [Eq Hrr]. specialize (Hmv r Hrr). rewrite Ei in Hmv. destruct (assemble r (msgsOn id new)) as [ms2 r2]. destruct Hmv as [Em Hr2]. rewrite Hc1'.
      assert (Eacc : deliveredOn id c2 ++ (ms ++ ms2) ++ toSend r2 ch1' = acc id ++ newOn ev id) by (by rewrite <- !app_assoc, <- Em, <- Eq, <- E1, <- !app_assoc).
      split; [done|]. specialize (Hacc id). rewrite <- Eacc in Hacc. apply Forall_app in Hacc as [_ [Hms2 Hts]%Forall_app]. split; [done|].
      unfold toSend in Hts. destruct (sending ch1') as [|x s]; [rewrite Hr2 by done; cbn; apply Hcaps|]. apply Forall_cons in Hts as [Hts _]. unfold zlen in *. rewrite length_app in Hts. lia.
    + intros _. split; [done|]. intros id ch1x ch2 Hc1x Hc2. rewrite Hc2. destruct (Hid id ch2 Hc2) as (ch1 & ch1' & Hc1 & Hc1' & Ei & Hmv). assert (ch1x = ch1') as -> by congruence. specialize (Hq id ch1 ch2 Hc1 Hc2). rewrite msgsOn_app, assemble_app. destruct (assemble (recving ch2) (msgsOn id pkts)) as [ms r].
      destruct Hq as [Eq Hrr]. specialize (Hmv r Hrr). rewrite Ei in Hmv. destruct (assemble r (msgsOn id new)) as [ms2 r2]. rewrite Hc1'. split; [done|]. apply Hmv.
  - destruct (S2 eq_refl) as [-> Hn]. exists pkts, buf, rest. rewrite app_nil_r. split_and!; [done|done| |congruence]. intros id ch2 Hc2. specialize (Hd id ch2 Hc2). destruct (assemble _ _). by rewrite Hn, app_nil_r.
Qed.

Lemma flow_recvSame c1 c2 c2' w acc : static c2 -> static c2' -> recvSame c2 c2' -> flow c1 c2 w acc -> flow c1 c2' w acc.
Proof.
  intros Hs Hs' [Ed HR] (pkts & buf & rest & Ew & Hp & Hd & Hr). assert (Hc : forall id ch', chan c2' id = Some ch' -> exists ch, chan c2 id = Some ch /\ recving ch' = recving ch).
  { intros id ch' Hc'. destruct (chan_both _ _ _ _ Hs' Hs Hc') as (ch & Hc). destruct (chan_step _ _ _ _ _ Hs Hs' HR Hc) as (ch'' & Hc'' & E & _). exists ch. split; [done|congruence]. }
  exists pkts, buf, rest. split_and!; [done|done| |].
  - intros id ch' Hc'. destruct (Hc id ch' Hc') as (ch & Hch & ->). specialize (Hd id ch Hch). destruct (assemble _ _). unfold deliveredOn in *. by rewrite Ed.
  - intros E. destruct (Hr E) as [-> Hq]. split; [done|]. intros id ch1 ch' Hc1 Hc'. destruct (Hc id ch' Hc') as (ch & Hch & ->). by apply Hq.
Qed.

(** The first packet on the wire is there in full, or nothing happens. *)
Lemma wire_head c2 w buf pkts r : static c2 -> recvOver c2 = false -> w ++ buf = pkts ≫= MarshalPacket -> Forall packetOK pkts -> ReadPacket (maxPacketMsgSize c2) w = r ->
  r = Incomplete \/ exists p pkts' w', pkts = p :: pkts' /\ w = MarshalPacket p ++ w' /\ r = Got p w' /\ w' ++ buf = pkts' ≫= MarshalPacket.
Proof.
  intros Hs Ho Ew Hp Er. rewrite (st_max _ Hs) in Er. destruct pkts as [|p pkts].
  - left. apply app_eq_nil in Ew as [-> _]. rewrite <- Er. eapply (read_partial _ PacketPing [] (MarshalPacket PacketPing)); [done|apply ping_size|done|apply packet_nonempty].
  - apply Forall_cons in Hp as [[Hp [Hwire _]] _]. cbn [mbind list_bind] in Ew. apply app_eq_inv in Ew as [(k & Ek & Ew)|(k & Ek & Ew)].
    + right. exists p, pkts, k. split_and!; try done. rewrite <- Er, Ek. by apply read_packet.
    + destruct k as [|x k]; [|left; rewrite <- Er; by eapply read_partial].
      right. exists p, pkts, []. rewrite app_nil_r in *. cbn in Ew. split_and!; try done. rewrite <- Er, <- Ek, <- (app_nil_r (MarshalPacket p)). by apply read_packet.
Qed.

Lemma chan_insert c c' i ch ch' id : static c -> channels c !! i = Some ch -> channelsIdx c' = channelsIdx c -> channels c' = <[i := ch']> (channels c) -> chan c' id = if decide (id = ID (desc ch)) then Some ch' else chan c id.
Proof.
  intros Hs Hi Ei Ec. unfold chan. rewrite Ei, Ec, (st_index _ Hs). pose proof (st_id _ Hs _ _ Hi) as Hid. destruct (decide (id = ID (desc ch))) as [-> |Hne].
  - rewrite Hid. cbn. apply list_lookup_insert_eq. by eapply lookup_lt_Some.
  - destruct (IDs !! id) as [j|] eqn:Ej; [|done]. cbn. apply list_lookup_insert_ne. intros ->. destruct (st_chan _ Hs _ _ Ej) as (ch0 & Hj & E0). congruence.
Qed.

(** The packet at the head of what is to come fits into what the channel has. *)
Lemma assemble_fits id r m l : (let '(ms, r') := assemble r (m :: l) in Forall (fun m => zlen m <= caps id) ms /\ zlen r' <= caps id) -> zlen r + zlen (Bytes m) <= caps id.
Proof.
  cbn [assemble]. assert (Hz : zlen r + zlen (Bytes m) = zlen (r ++ Bytes m)) by (unfold zlen; rewrite length_app; lia). rewrite Hz. destruct (EOF m =? 1).
  - destruct (assemble [] l). by intros [[? _]%Forall_cons _].
  - pose proof (assemble_prefix l (r ++ Bytes m)) as Hp. destruct (assemble (r ++ Bytes m) l) as [[|x ms] r']; intros [Hms Hr]; apply prefix_length in Hp; [|apply Forall_cons in Hms as [Hms _]]; unfold zlen in *; lia.
Qed.

Lemma flow_recv c1 c2 c2' w w' acc : static c2 -> flow c1 c2 w acc -> recvStep c2 w = Some (c2', w') ->
  flow c1 c2' w' acc /\ recvOver c2' = false /\ running c2' = running c2 /\ (length w' < length w)%nat.
Proof.
  intros Hs (pkts & buf & rest & Ew & Hp & Hd & Hr) E. unfold recvStep in E. destruct (recvOver c2) eqn:Eo; [done|].
  destruct (wire_head c2 w buf pkts _ Hs Eo Ew Hp eq_refl) as [En|(p & pkts' & w1 & -> & -> & En & Ew')]; rewrite En in E; [done|]. apply Forall_cons in Hp as [Hpk Hp].
  assert (Hlen : (length w1 < length (MarshalPacket p ++ w1))%nat) by (rewrite length_app; pose proof (packet_nonempty p); destruct (MarshalPacket p); [done|cbn; lia]).
  assert (Hctl : forall id, (forall m, p <> PacketOf m) -> msgsOn id (p :: pkts') = msgsOn id pkts') by (intros id Hn; destruct p; [done..|by destruct (Hn p)]).
  assert (Hsame : (forall m, p <> PacketOf m) -> channels c2' = channels c2 -> channelsIdx c2' = channelsIdx c2 -> delivered c2' = delivered c2 -> flow c1 c2' w1 acc).
  { intros Hn E1 E2 E3. exists pkts', buf, rest. unfold chan, deliveredOn in *. rewrite E1, E2, E3. setoid_rewrite Hctl in Hd; [|done]. setoid_rewrite Hctl in Hr; [|done]. done. }
  destruct p as [| |m].
  - injection E as <- <-. split_and!; [by apply Hsame|done..].
  - destruct (pongTimeoutCh c2); injection E as <- <-; (split_and!; [by apply Hsame|done..]).
  - destruct Hpk as (_ & _ & [i Hi]). destruct (st_chan _ Hs _ _ Hi) as (ch & Hch & Hid). rewrite (st_index _ Hs), Hi in E. cbn [mbind option_bind] in E. rewrite Hch in E. cbn [mbind option_bind] in E. assert (Hc : chan c2 (ChannelID m) = Some ch) by (apply chan_lookup; [done|]; by exists i).
    assert (Hfit : zlen (recving ch) + zlen (Bytes m) <= RecvMessageCapacity (desc ch)).
    { destruct (chan_ID _ _ _ Hs Hc) as (_ & _ & ->). apply (assemble_fits _ _ _ (msgsOn (ChannelID m) pkts')). specialize (Hd _ _ Hc). cbn [msgsOn omap list_omap] in Hd. rewrite Z.eqb_refl in Hd. fold (msgsOn (ChannelID m) pkts') in Hd. destruct (assemble _ _) as [ms r]. apply Hd. }
    unfold recvPacketMsg in E. rewrite (proj2 (Z.ltb_ge _ _)) in E by done.
    assert (Hon : forall id, msgsOn id (PacketOf m :: pkts') = if decide (id = ChannelID m) then m :: msgsOn id pkts' else msgsOn id pkts').
    { intros id. cbn [msgsOn omap list_omap]. fold (msgsOn id pkts'). destruct (decide (id = ChannelID m)) as [-> |Hne]; [by rewrite Z.eqb_refl|by rewrite (proj2 (Z.eqb_neq _ _)) by congruence]. }
    destruct (EOF m =? 1) eqn:Eeof; injection E as <- <-; (split_and!; [|done..]); exists pkts', buf, rest; (split; [done|]; split; [done|]).
    + assert (Hdl : forall id, deliveredOn id (deliver (setChannels c2 (<[i := setRecving ch []]> (channels c2))) (ChannelID m) (recving ch ++ Bytes m)) = if decide (id = ChannelID m) then deliveredOn id c2 ++ [recving ch ++ Bytes m] else deliveredOn id c2).
      { intros id. unfold deliveredOn. cbn [delivered deliver setChannels]. rewrite omap_app. cbn [omap list_omap fst snd]. destruct (decide (id = ChannelID m)) as [-> |Hne]; [by rewrite Z.eqb_refl|rewrite (proj2 (Z.eqb_neq _ _)) by congruence; apply app_nil_r]. }
      split.
      * intros id ch' Hc'. rewrite (chan_insert c2 _ i ch (setRecving ch [])) in Hc' by done. rewrite Hid in Hc'. rewrite Hdl. destruct (decide (id = ChannelID m)) as [-> |Hne].
        -- injection Hc' as <-. specialize (Hd _ _ Hc). rewrite Hon, decide_True in Hd by done. cbn [assemble recving setRecving] in Hd |- *. rewrite Eeof in Hd. destruct (assemble [] (msgsOn (ChannelID m) pkts')) as [ms r]. destruct Hd as (Ed & Hms & Hrr). apply Forall_cons in Hms as [_ Hms]. split; [|done]. by rewrite <- app_assoc.
        -- specialize (Hd _ _ Hc'). by rewrite Hon, decide_False in Hd by done.
      * intros Er. destruct (Hr Er) as [-> Hq]. split; [done|]. intros id ch1 ch' Hc1 Hc'. rewrite (chan_insert c2 _ i ch (setRecving ch [])) in Hc' by done. rewrite Hid in Hc'. destruct (decide (id = ChannelID m)) as [-> |Hne].
        -- injection Hc' as <-. specialize (Hq _ _ _ Hc1 Hc). rewrite Hon, decide_True in Hq by done. cbn [assemble recving setRecving] in Hq |- *. rewrite Eeof in Hq. by destruct (assemble [] (msgsOn (ChannelID m) pkts')) as [ms r].
        -- specialize (Hq _ _ _ Hc1 Hc'). by rewrite Hon, decide_False in Hq by done.
    + split.
      * intros id ch' Hc'. rewrite (chan_insert c2 _ i ch (setRecving ch (recving ch ++ Bytes m))) in Hc' by done. rewrite Hid in Hc'. change (deliveredOn id (setChannels _ _)) with (deliveredOn id c2). destruct (decide (id = ChannelID m)) as [-> |Hne].
        -- injection Hc' as <-. specialize (Hd _ _ Hc). rewrite Hon, decide_True in Hd by done. cbn [assemble recving setRecving] in Hd |- *. by rewrite Eeof in Hd.
        -- specialize (Hd _ _ Hc'). by rewrite Hon, decide_False in Hd by done.
      * intros Er. destruct (Hr Er) as [-> Hq]. split; [done|]. intros id ch1 ch' Hc1 Hc'. rewrite (chan_insert c2 _ i ch (setRecving ch (recving ch ++ Bytes m))) in Hc' by done. rewrite Hid in Hc'. destruct (decide (id = ChannelID m)) as [-> |Hne].
        -- injection Hc' as <-. specialize (Hq _ _ _ Hc1 Hc). rewrite Hon, decide_True in Hq by done. cbn [assemble recving setRecving] in Hq |- *. by rewrite Eeof in Hq.
        -- specialize (Hq _ _ _ Hc1 Hc'). by rewrite Hon, decide_False in Hq by done.
Qed.

(** ** Both ends *)

Record netOK (net : Net) (acc : Z -> list bytes) : Prop := {
  no_A : static (endA net); no_B : static (endB net);
  no_liveA : running (endA net) = true -> live (endA net); no_liveB : running (endB net) = true -> live (endB net);
  no_flow : flow (endA net) (endB net) (toB net) acc }.

Definition acceptedOn (id : Z) (evs : list (side * event)) : list bytes := evs ≫= (fun ev => match ev.1 with A => newOn ev.2 id | B => [] end).
(** Messages are not empty and not longer than the other end takes. *)
Definition fitting (ev : side * event) : Prop := match ev.2 with EvSend id b => b <> [] /\ zlen b <= caps id | _ => True end.

Lemma netStep_ok net ev net' acc : netOK net acc -> fitting ev -> (forall id, Forall (fun m => zlen m <= caps id) (acc id)) -> netStep net ev = Some net' -> netOK net' (fun id => acc id ++ acceptedOn id [ev]).
Proof.
  intros [HA HB LA LB Hf] Hev Hacc E. destruct ev as [s ev]. unfold netStep in E. cbn [fst snd] in E. assert (Hsd : sendable ev) by (unfold fitting, sendable in *; cbn in Hev; by destruct ev; try tauto).
  assert (Hon : forall id, acceptedOn id [(s, ev)] = match s with A => newOn ev id | B => [] end) by (intros id; unfold acceptedOn; cbn; by rewrite app_nil_r).
  destruct s.
  - destruct (step ev (endA net) (toA net)) as [[[c input] out]|] eqn:Es; [|done]. injection E as <-. destruct (step_ok _ _ _ _ _ _ HA LA Hsd Es) as [Hok _]. split; cbn [endA endB toB]; try done; try apply Hok.
    assert (Hfl : flow c (endB net) (toB net ++ out) (fun id => acc id ++ newOn ev id)).
    { apply (flow_send ev (endA net)); try done. intros id. apply Forall_app. split; [done|]. unfold fitting in Hev. cbn in Hev. destruct ev; try done. cbn. destruct (Z.eqb_spec chID id) as [-> |]; [|done]. apply Forall_singleton. tauto. }
    destruct Hfl as (pkts & buf & rest & ? & ? & Hd & ?). exists pkts, buf, rest. split_and!; try done. intros id ch2 Hc. rewrite Hon. by apply Hd.
  - destruct (step ev (endB net) (toB net)) as [[[c input] out]|] eqn:Es; [|done]. injection E as <-. destruct (step_ok _ _ _ _ _ _ HB LB Hsd Es) as [Hok Hin]. split; cbn [endA endB toB]; try done; try apply Hok.
    assert (Hfl : flow (endA net) c input acc).
    { destruct (so_recv _ _ _ _ Hok) as [-> |Hsame].
      - cbn [step] in Es. destruct (recvStep (endB net) (toB net)) as [[c1 r]|] eqn:Er; [|done]. injection Es as <- <- <-. by destruct (flow_recv _ _ _ _ _ _ HB Hf Er) as [? _].
      - destruct Hin as [-> | ->]; [|by eapply flow_recvSame; [exact HB|apply Hok|..]].
        cbn [step] in Es. destruct (recvStep (endB net) (toB net)) as [[c1 r]|] eqn:Er; [|done]. injection Es as <- <- <-. by destruct (flow_recv _ _ _ _ _ _ HB Hf Er) as [? _]. }
    destruct Hfl as (pkts & buf & rest & ? & ? & Hd & ?). exists pkts, buf, rest. split_and!; try done. intros id ch2 Hc. rewrite Hon, app_nil_r. by apply Hd.
Qed.

Lemma runNet_ok evs : forall net net' acc, netOK net acc -> Forall fitting evs -> (forall id, Forall (fun m => zlen m <= caps id) (acc id)) -> runNet evs net = Some net' ->
  netOK net' (fun id => acc id ++ acceptedOn id evs) /\ forall id, Forall (fun m => zlen m <= caps id) (acc id ++ acceptedOn id evs).
Proof.
  induction evs as [|ev evs IH]; intros net net' acc Hn Hev Hacc E; cbn [runNet] in E.
  - injection E as <-. unfold acceptedOn. cbn. split; [|intros id; by rewrite app_nil_r]. destruct Hn as [? ? ? ? (pkts & buf & rest & ? & ? & Hd & ?)]. split; try done. exists pkts, buf, rest. split_and!; try done. intros id ch2 Hc. rewrite app_nil_r. by apply Hd.
  - apply Forall_cons in Hev as [Hev Hevs]. destruct (netStep net ev) as [net1|] eqn:E1; [|done]. cbn [mbind option_bind] in E. pose proof (netStep_ok _ _ _ _ Hn Hev Hacc E1) as Hn1.
    assert (Hacc1 : forall id, Forall (fun m => zlen m <= caps id) (acc id ++ acceptedOn id [ev])).
    { intros id. apply Forall_app. split; [done|]. unfold acceptedOn. cbn. rewrite app_nil_r. destruct ev as [[] ev]; [|done]. unfold fitting in Hev. cbn in Hev. destruct ev; try done. cbn. destruct (Z.eqb_spec chID id) as [-> |]; [|done]. apply Forall_singleton. tauto. }
    destruct (IH _ _ _ Hn1 Hevs Hacc1 E) as [Hn2 Hacc2]. assert (Ea : forall id, (acc id ++ acceptedOn id [ev]) ++ acceptedOn id evs = acc id ++ acceptedOn id (ev :: evs)).
    { intros id. rewrite <- app_assoc. f_equal. unfold acceptedOn. cbn. by rewrite app_nil_r. }
    split; [|intros id; by rewrite <- Ea]. destruct Hn2 as [? ? ? ? (pkts & buf & rest & ? & ? & Hd & ?)]. split; try done. exists pkts, buf, rest. split_and!; try done. intros id ch2 Hc. rewrite <- Ea. by apply Hd.
Qed.

(** ** Progress *)

(** The steps by which messages of A come to B. *)
Definition internal (ev : side * event) : bool :=
  match ev with
  | (A, EvWake) | (A, EvSendToken) | (A, EvPacket) | (A, EvBatchEnd) | (A, EvFlushTimer) | (B, EvRecv) => true
  | _ => false
  end.

Definition posWork (pos : position) : nat := match pos with InBatch k => 20 + 2 * (10 - k) | _ => 0 end.
Definition work (net : Net) : nat :=
  (20 * Z.to_nat (maxPacketMsgSizeOf P) + 100) * pending (endA net) + 20 * (length (toB net) + length (bufConnWriter (endA net))) + 31 * waking (endA net) + 30 * Nat.b2n (send (endA net)) +
  posWork (sendPos (endA net)) + Nat.b2n (flushSet (endA net)).

Lemma idle_pend l : Forall idle l -> sum_list (pend <$> l) = 0%nat.
Proof. induction 1 as [|ch l [I1 I2] Hl IH]; [done|]. change (pend ch + sum_list (pend <$> l) = 0)%nat. unfold pend at 1. rewrite I1, I2, IH. done. Qed.

Lemma internal_step net ev net' acc : netOK net acc -> running (endA net) = true -> recvOver (endB net) = false -> internal ev = true -> netStep net ev = Some net' ->
  running (endA net') = true /\ recvOver (endB net') = false /\ (work net' < work net)%nat.
Proof.
  intros [HA HB LA LB Hf] Hr Ho Hi E. destruct (LA Hr) as [L1 L2 L3 L4]. destruct ev as [[] ev]; destruct ev; try done; unfold netStep in E; cbn [fst snd step] in E.
  - unfold wake in E. destruct (waking (endA net)) as [|n] eqn:Ew; [done|]. cbn in E. injection E as <-. split; [done|]. split; [done|]. unfold work, pending. cbn [endA endB toB channels setPos setWriter setSend setWaking setPongTimeout bufConnWriter waking send sendPos flushSet]. rewrite app_nil_r, Ew. destruct (send (endA net)); cbn [posWork Nat.b2n length]; lia.
  - cbn [sendStep] in E. destruct (sendPos (endA net)) eqn:Ep; try done. destruct (flushSet (endA net)) eqn:Ef; [|done]. unfold flush, endTurn in E. cbn in E. rewrite Hr in E. injection E as <-. split; [done|]. split; [done|]. unfold work, pending. cbn [endA endB toB channels setPos setWriter setSend setWaking setPongTimeout bufConnWriter waking send sendPos flushSet]. rewrite length_app, Ep, Ef. cbn [posWork Nat.b2n length]. lia.
  - cbn [sendStep] in E. destruct (sendPos (endA net)) eqn:Ep; try done. destruct (send (endA net)) eqn:Es; [|done]. cbn in E. rewrite Hr in E. injection E as <-. split; [done|]. split; [done|]. unfold work, pending. cbn [endA endB toB channels setPos setWriter setSend setWaking setPongTimeout bufConnWriter waking send sendPos flushSet]. rewrite app_nil_r, Ep, Es. unfold numBatchPacketMsgs. cbn [posWork Nat.b2n length]. lia.
  - cbn [sendStep] in E. destruct (sendPos (endA net)) as [|[|n]|] eqn:Ep; try done. destruct (sendPacketMsg_spec _ HA) as (c1 & o & eof & Es & Hk & [S1 S2 S3 S4 S5 S6 S7 S8 S9] & Hc). rewrite Es in E. destruct eof; cbn in E; rewrite Hr in E; injection E as <-.
    + destruct Hc as (-> & Hb & Hfl & Hidle & Hm). unfold endTurn. rewrite S3, Hr. split; [by cbn; rewrite S3|]. split; [done|]. unfold work, pending. cbn [endA endB toB channels setPos setWriter setSend setWaking setPongTimeout bufConnWriter waking send sendPos flushSet]. rewrite app_nil_r, Hb, Hfl, S5, S6, Ep. cbn [posWork Nat.b2n length].
      rewrite (idle_pend _ Hidle). lia.
    + destruct Hc as (Hfl & Hpd & pkt & [Hsz _] & Hb & Hm). split; [by cbn; rewrite S3|]. split; [done|]. unfold work. cbn [endA toB setPos bufConnWriter waking send sendPos flushSet]. change (pending (setPos c1 (InBatch n))) with (pending c1). rewrite S5, S6, Hfl, Ep, length_app.
      apply (f_equal length) in Hb. rewrite !length_app in Hb. specialize (L2 _ eq_refl). unfold zlen in Hsz. cbn [posWork Nat.b2n]. assert (Hp1 : (S (pending c1) <= pending (endA net))%nat) by lia.
      set (K := (20 * Z.to_nat (maxPacketMsgSizeOf P) + 100)%nat). assert (HK : (20 * length (MarshalPacket (PacketOf pkt)) + 100 <= K)%nat) by (unfold K; lia). clearbody K. assert (Hmul := Nat.mul_le_mono_l _ _ K Hp1). rewrite Nat.mul_succ_r in Hmul. destruct (flushSet (endA net)); cbn [Nat.b2n]; lia.
  - cbn [sendStep] in E. destruct (sendPos (endA net)) as [|[|n]|] eqn:Ep; try done. unfold endTurn in E. cbn in E. rewrite Hr in E. injection E as <-. split; [done|]. split; [done|]. unfold work, pending. cbn [endA endB toB channels setPos setWriter setSend setWaking setPongTimeout bufConnWriter waking send sendPos flushSet]. rewrite app_nil_r, Ep. destruct (send (endA net)); cbn [posWork Nat.b2n length]; lia.
  - destruct (recvStep (endB net) (toB net)) as [[c r]|] eqn:Er; [|done]. cbn in E. injection E as <-. destruct (flow_recv _ _ _ _ _ _ HB Hf Er) as (_ & H1 & _ & H2). split; [done|]. split; [done|]. unfold work, pending. cbn [endA endB toB channels setPos setWriter setSend setWaking setPongTimeout bufConnWriter waking send sendPos flushSet]. lia.
Qed.

(** When no such step is left, everything accepted has been delivered. *)
Lemma quiet_delivered net acc : netOK net acc -> running (endA net) = true -> recvOver (endB net) = false -> (forall ev, internal ev = true -> netStep net ev = None) -> forall id i, IDs !! id = Some i -> deliveredOn id (endB net) = acc id.
Proof.
  intros [HA HB LA LB Hf] Hr Ho Hq id i Hid. destruct (LA Hr) as [L1 L2 L3 L4].
  assert (Hw : waking (endA net) = 0%nat). { specialize (Hq (A, EvWake) eq_refl). unfold netStep in Hq. cbn in Hq. unfold wake in Hq. by destruct (waking (endA net)). }
  assert (Hpos : sendPos (endA net) = AtSelect).
  { destruct (sendPos (endA net)) as [|[|n]|] eqn:Ep; [done| | |done].
    - specialize (Hq (A, EvBatchEnd) eq_refl). unfold netStep in Hq. cbn in Hq. by rewrite Ep in Hq.
    - specialize (Hq (A, EvPacket) eq_refl). unfold netStep in Hq. cbn in Hq. rewrite Ep in Hq. destruct (sendPacketMsg_spec _ HA) as (c1 & o & eof & Es & _). rewrite Es in Hq. by destruct eof. }
  assert (Hs : send (endA net) = false). { specialize (Hq (A, EvSendToken) eq_refl). unfold netStep in Hq. cbn in Hq. rewrite Hpos in Hq. by destruct (send (endA net)). }
  assert (Hfl : flushSet (endA net) = false). { specialize (Hq (A, EvFlushTimer) eq_refl). unfold netStep in Hq. cbn in Hq. rewrite Hpos in Hq. by destruct (flushSet (endA net)). }
  assert (Hidle : Forall idle (channels (endA net))) by (destruct L3 as [?|[?|[?|[n ?]]]]; [done|congruence|congruence|congruence]).
  assert (Hbuf : bufConnWriter (endA net) = []) by (destruct L4; [done|congruence]).
  destruct Hf as (pkts & buf & rest & Ew & Hp & Hd & Hrun). destruct (Hrun Hr) as [-> Hc]. rewrite Hbuf in Ew. assert (pkts = []) as ->.
  { destruct pkts as [|p pkts]; [done|]. exfalso. apply Forall_cons in Hp as [(Hsz & Hwire & Hpid) _]. cbn [mbind list_bind] in Ew. rewrite app_nil_r in Ew. specialize (Hq (B, EvRecv) eq_refl). unfold netStep in Hq. cbn [fst snd step] in Hq. unfold recvStep in Hq.
    rewrite Ho, (st_max _ HB), Ew, read_packet in Hq by done. destruct p as [| |m]; [done|done|]. destruct (channelsIdx (endB net) !! ChannelID m) as [j|]; cbn [mbind option_bind] in Hq; [|done]. destruct (channels (endB net) !! j); cbn [mbind option_bind] in Hq; [|done].
    destruct (recvPacketMsg _ m) as [ch' [e|[b|]]]; done. }
  destruct (st_chan _ HA _ _ Hid) as (ch1 & H1 & Hi1). destruct (st_chan _ HB _ _ Hid) as (ch2 & H2 & Hi2). assert (C1 : chan (endA net) id = Some ch1) by (apply chan_lookup; [done|by exists i]). assert (C2 : chan (endB net) id = Some ch2) by (apply chan_lookup; [done|by exists i]).
  specialize (Hd id ch2 C2). specialize (Hc id ch1 ch2 C1 C2). cbn in Hd, Hc. destruct Hd as (Hd & _). destruct Hc as [Hc _]. destruct (Forall_lookup_1 idle _ _ _ Hidle H1) as [I1 I2]. unfold toSend in Hc. rewrite I1, I2 in Hc. by rewrite Hc, app_nil_r in Hd.
Qed.
End Flow.

(** ** New connections *)

Definition validDesc (d : ChannelDescriptor) : Prop := 0 <= ID d < 256 /\ 0 < Priority d /\ 0 <= SendQueueCapacity d /\ 0 <= RecvBufferCapacity d /\ 0 <= RecvMessageCapacity d.
Record validConfig (config : MConnConfig) (descs : list ChannelDescriptor) : Prop := {
  vc_payload : 0 < MaxPacketMsgPayloadSize config;
  vc_timers : PongTimeout config < PingInterval config;
  vc_descs : Forall validDesc descs;
  vc_ids : NoDup (ID <$> descs) }.

(** How long a message on the channel may be. *)
Fixpoint capOf (descs : list ChannelDescriptor) (id : Z) : Z :=
  match descs with [] => 0 | d :: descs => if ID d =? id then RecvMessageCapacity (FillDefaults d) else capOf descs id end.

Definition freshChannel (P : Z) (d : ChannelDescriptor) : Channel := mkChannel (FillDefaults d) [] 0 [] [] 0 P.

Lemma filled_valid d : validDesc d -> validDesc (FillDefaults d).
Proof. intros (? & ? & ? & ? & ?). unfold validDesc, FillDefaults, defaultSendQueueCapacity, defaultRecvBufferCapacity, defaultRecvMessageCapacity. cbn [ID Priority SendQueueCapacity RecvBufferCapacity RecvMessageCapacity]. repeat case_match; lia. Qed.
Lemma newChannels_ok P descs : Forall validDesc descs -> newChannels P descs = Ret (freshChannel P <$> descs).
Proof.
  induction 1 as [|d descs Hd Hl IH]; [done|]. cbn [newChannels]. apply filled_valid in Hd as (_ & H1 & H2 & H3 & _). unfold newChannel.
  rewrite (proj2 (Z.leb_gt _ _)) by done. rewrite !(proj2 (Z.ltb_ge _ _)) by done. cbn [orb mbind go_mbind]. rewrite IH. done.
Qed.

Lemma index_snoc l ch : indexChannels (l ++ [ch]) = <[ID (desc ch) := length l]> (indexChannels l).
Proof.
  unfold indexChannels. rewrite length_app, seq_app, zip_with_app by (by rewrite length_seq). rewrite foldl_app. done.
Qed.
Lemma index_spec l : NoDup (ID ∘ desc <$> l) -> forall id i, indexChannels l !! id = Some i <-> exists ch, l !! i = Some ch /\ ID (desc ch) = id.
Proof.
  induction l as [|ch l IH] using rev_ind; intros Hn id i; [split; [done|by intros (? & ? & _)]|]. rewrite fmap_app in Hn. apply NoDup_app in Hn as (Hn & Hd & _). rewrite index_snoc. destruct (decide (id = ID (desc ch))) as [-> |Hne].
  - rewrite lookup_insert_eq. split.
    + intros [= <-]. exists ch. split; [|done]. by rewrite lookup_app_r, Nat.sub_diag by lia.
    + intros (ch' & Hl & E). destruct (decide (i < length l)%nat) as [Hlt|Hge].
      * rewrite lookup_app_l in Hl by done. exfalso. apply (Hd (ID (desc ch))); [|by left]. rewrite <- E. apply list_elem_of_fmap. exists ch'. split; [done|]. by eapply list_elem_of_lookup_2.
      * apply lookup_lt_Some in Hl as Hlt. rewrite length_app in Hlt. cbn in Hlt. f_equal. lia.
  - rewrite lookup_insert_ne by done. rewrite (IH Hn). split; intros (ch' & Hl & E); exists ch'; (split; [|done]).
    + by apply lookup_app_l_Some.
    + destruct (decide (i < length l)%nat) as [Hlt|Hge]; [by rewrite lookup_app_l in Hl|]. rewrite lookup_app_r in Hl by lia. destruct (i - length l)%nat as [|k]; cbn in Hl; [injection Hl as ->; congruence|done].
Qed.

Lemma capOf_lookup descs : NoDup (ID <$> descs) -> forall i d, descs !! i = Some d -> capOf descs (ID d) = RecvMessageCapacity (FillDefaults d).
Proof.
  induction descs as [|x descs IH]; [done|]. cbn [fmap list_fmap]. intros [Hx Hn]%NoDup_cons [|i] d Hi; cbn [capOf].
  - injection Hi as ->. by rewrite Z.eqb_refl.
  - cbn in Hi. rewrite (proj2 (Z.eqb_neq _ _)); [by eapply IH|]. intros E. apply Hx. rewrite E. apply list_elem_of_fmap. exists d. split; [done|]. by eapply list_elem_of_lookup_2.
Qed.
Lemma capOf_nonneg descs : Forall validDesc descs -> forall id, 0 <= capOf descs id.
Proof. induction 1 as [|d descs Hd Hl IH]; intros id; cbn [capOf]; [lia|]. destruct (_ =? _); [|done]. by apply filled_valid in Hd as (_ & _ & _ & _ & ?). Qed.

Section New.
Context `{PacketLaws}.

Definition newConn (config : MConnConfig) (descs : list ChannelDescriptor) : MConnection :=
  let l := freshChannel (MaxPacketMsgPayloadSize config) <$> descs in
  mkConn l (indexChannels l) (maxPacketMsgSizeOf (MaxPacketMsgPayloadSize config)) true false false false None false false [] AtSelect false 0 [] [].

Lemma New_ok config descs : validConfig config descs -> NewMConnection config descs = Ret (newConn config descs).
Proof.
  intros [H1 H2 H3 H4]. unfold NewMConnection. rewrite (proj2 (Z.leb_gt _ _)) by done. rewrite newChannels_ok by done. cbn [mbind go_mbind]. by rewrite (proj2 (Z.ltb_ge _ _)) by lia.
Qed.

Lemma fresh_ids P (descs : list ChannelDescriptor) : ID ∘ desc <$> (freshChannel P <$> descs) = ID <$> descs.
Proof. rewrite <- list_fmap_compose. by apply list_fmap_ext. Qed.

Lemma new_static config descs : validConfig config descs -> static (MaxPacketMsgPayloadSize config) (channelsIdx (newConn config descs)) (capOf descs) (newConn config descs).
Proof.
  intros [H1 H2 H3 H4]. assert (Hix := index_spec (freshChannel (MaxPacketMsgPayloadSize config) <$> descs)). rewrite fresh_ids in Hix. specialize (Hix H4). split; cbn.
  - done.
  - intros id i Hi. by apply Hix.
  - intros i ch Hl. apply Hix. by exists ch.
  - apply Forall_fmap. eapply Forall_impl; [exact H3|]. intros d Hd. apply filled_valid in Hd as (? & ? & _). unfold chanOK. cbn. split; [done|]. split; [done|]. split; [unfold_int64; lia|done].
  - intros i ch Hl. rewrite list_lookup_fmap in Hl. destruct (descs !! i) as [d|] eqn:Ed; [|done]. injection Hl as <-. cbn. symmetry. by eapply capOf_lookup.
  - done.
Qed.

Lemma new_index config descs id : validConfig config descs -> id ∈ ID <$> descs -> exists i, channelsIdx (newConn config descs) !! id = Some i.
Proof.
  intros Hv (d & -> & Hd)%list_elem_of_fmap. apply list_elem_of_lookup in Hd as [i Hi]. exists i. cbn. apply index_spec; [rewrite fresh_ids; apply Hv|]. exists (freshChannel (MaxPacketMsgPayloadSize config) d). by rewrite list_lookup_fmap, Hi.
Qed.

Lemma new_net config descs : validConfig config descs -> netOK (MaxPacketMsgPayloadSize config) (channelsIdx (newConn config descs)) (capOf descs) (mkNet (newConn config descs) (newConn config descs) [] []) (fun _ => []).
Proof.
  intros Hv. pose proof (new_static _ _ Hv) as Hs. assert (Hl : live (newConn config descs)) by (split; cbn; [done|done| |by left]; left; apply Forall_fmap, Forall_forall; done). split; cbn [endA endB toB]; try done.
  exists [], [], (fun _ => []). split; [done|]. split; [done|]. assert (Hc : forall id ch, chan (newConn config descs) id = Some ch -> sending ch = [] /\ sendQueue ch = [] /\ recving ch = []).
  { intros id ch Hc. unfold chan in Hc. destruct (_ !! id) as [i|]; [|done]. cbn in Hc. rewrite list_lookup_fmap in Hc. by destruct (descs !! i); [injection Hc as <-|]. }
  split.
  - intros id ch Hch. destruct (Hc _ _ Hch) as (_ & _ & ->). cbn. split; [done|]. split; [done|]. apply capOf_nonneg, Hv.
  - intros _. split; [done|]. intros id ch1 ch2 Hc1 Hc2. destruct (Hc _ _ Hc1) as (E1 & E2 & _). destruct (Hc _ _ Hc2) as (_ & _ & ->). cbn. unfold toSend. by rewrite E1, E2.
Qed.
End New.

(** ** Properties *)

(** Any events at one end, each with whatever bytes the peer has sent by then. *)
Fixpoint runEnd `{PacketCodec} (evs : list (event * bytes)) (c : MConnection) : option MConnection :=
  match evs with [] => Some c | (ev, input) :: evs => '(c, _, _) ← step ev c input; runEnd evs c end.

Definition recvBounded (c : MConnection) : Prop := forall i ch, channels c !! i = Some ch -> zlen (recving ch) <= RecvMessageCapacity (desc ch).
Lemma bounded_kept c c' : recvBounded c -> Forall2 (fun ch ch' => recving ch' = recving ch /\ desc ch' = desc ch) (channels c) (channels c') -> recvBounded c'.
Proof. intros Hb HR i ch' Hl. destruct (Forall2_lookup_r _ _ _ _ _ HR Hl) as (ch & Hl0 & -> & ->). by apply Hb in Hl0. Qed.
Lemma recv_bounded_step `{PacketCodec} c s c' rest : recvBounded c -> (forall i ch, channels c !! i = Some ch -> 0 <= RecvMessageCapacity (desc ch)) -> recvStep c s = Some (c', rest) -> recvBounded c'.
Proof.
  intros Hb H0 E. assert (Hins : forall i ch b, channels c !! i = Some ch -> zlen b <= RecvMessageCapacity (desc ch) -> forall j x, <[i := setRecving ch b]> (channels c) !! j = Some x -> zlen (recving x) <= RecvMessageCapacity (desc x)).
  { intros i ch b Hi Hz j x Hx. destruct (decide (j = i)) as [-> |Hne]; [rewrite list_lookup_insert_eq in Hx by (by eapply lookup_lt_Some); by injection Hx as <-|]. rewrite list_lookup_insert_ne in Hx by done. by apply Hb in Hx. }
  unfold recvStep in E. destruct (recvOver c); [done|]. destruct (ReadPacket _ s) as [| |[| |pkt] r]; [done|destruct (running c); injection E as <- <-; exact Hb|injection E as <- <-; exact Hb|destruct (pongTimeoutCh c); injection E as <- <-; exact Hb|].
  destruct (channelsIdx c !! ChannelID pkt) as [i|]; cbn [mbind option_bind] in E; [|injection E as <- <-; exact Hb]. destruct (channels c !! i) as [ch|] eqn:Ech; cbn [mbind option_bind] in E; [|injection E as <- <-; exact Hb].
  unfold recvPacketMsg in E. destruct (Z.ltb_spec (RecvMessageCapacity (desc ch)) (zlen (recving ch) + zlen (Bytes pkt))) as [Hlt|Hle].
  - cbn [running setChannels] in E. rewrite (list_insert_id _ _ _ Ech) in E. destruct (running c); injection E as <- <-; exact Hb.
  - destruct (EOF pkt =? 1); injection E as <- <-; intros j x Hx.
    + apply (Hins i ch [] Ech (H0 _ _ Ech) j x Hx).
    + apply (Hins i ch (recving ch ++ Bytes pkt) Ech) with (j := j); [|exact Hx]. unfold zlen in *. rewrite length_app. lia.
Qed.

(** Memory of a connection is bounded by its configuration.  Whatever bytes
    the peer sends and however the steps of the routines are ordered, no channel
    ever assembles more than its [RecvMessageCapacity]. *)
Theorem recv_bounded `{PacketLaws} (config : MConnConfig) (descs : list ChannelDescriptor) (evs : list (event * bytes)) (c : MConnection)
  (Hvalid : validConfig config descs) (Hev : Forall (fun ev => sendable ev.1) evs) (Hrun : runEnd evs (newConn config descs) = Some c) : recvBounded c.
Proof.
  set (P := MaxPacketMsgPayloadSize config). set (IDs := channelsIdx (newConn config descs)).
  assert (Hgen : forall evs c0, Forall (fun ev => sendable ev.1) evs -> static P IDs (capOf descs) c0 -> (running c0 = true -> live c0) -> recvBounded c0 -> runEnd evs c0 = Some c -> recvBounded c).
  { clear evs Hev Hrun. induction evs as [|[ev input] evs IH]; intros c0 Hev Hs Hl Hb E; cbn [runEnd] in E; [by injection E as <-|]. apply Forall_cons in Hev as [Hev Hevs]. cbn [fst] in Hev. destruct (step ev c0 input) as [[[c1 i1] o1]|] eqn:Es; [|done]. cbn [mbind option_bind] in E.
    destruct (step_ok P (vc_payload _ _ Hvalid) IDs (capOf descs) _ _ _ _ _ _ Hs Hl Hev Es) as [[S1 S2 _ S4] _]. apply (IH c1); try done. destruct S4 as [-> |[_ S4]]; [|by eapply bounded_kept].
    cbn [step] in Es. destruct (recvStep c0 input) as [[c2 r]|] eqn:Er; [|done]. injection Es as <- _ _. eapply recv_bounded_step; [exact Hb| |exact Er]. intros i ch Hi. rewrite (st_cap _ _ _ _ Hs _ _ Hi). apply capOf_nonneg, Hvalid. }
  destruct (new_net _ _ Hvalid) as [HA _ LA _ _]. apply (Hgen evs (newConn config descs)); try done.
  intros i ch Hi. cbn in Hi. rewrite list_lookup_fmap in Hi. destruct (descs !! i) as [d|] eqn:Ed; [|done]. injection Hi as <-. cbn. assert (Hd : validDesc d) by (eapply Forall_lookup_1; [apply Hvalid|done]). apply filled_valid in Hd. unfold zlen. cbn. apply Hd.
Qed.

(** C26: The multiplexer keeps every channel in order.  Both ends are new and of
    the same configuration; callers queue messages, packets of all channels,
    pings and pongs share the stream, buffers are flushed, pongs come late and
    connections break, in any interleaving.  As long as no caller sends an empty
    message or one longer than its channel receives, what [onReceive] of one end
    was called with on a channel is always a prefix of what the other end
    accepted for that channel: nothing is lost in between, repeated, reordered or
    mixed between channels. *)
Theorem mconn_in_order `{PacketLaws} (config : MConnConfig) (descs : list ChannelDescriptor) (Hvalid : validConfig config descs) :
  exists c, NewMConnection config descs = Ret c /\
    forall evs net id, Forall (fitting (capOf descs)) evs -> id ∈ ID <$> descs -> runNet evs (mkNet c c [] []) = Some net -> deliveredOn id (endB net) `prefix_of` acceptedOn id evs.
Proof.
  exists (newConn config descs). split; [by apply New_ok|]. intros evs net id Hev Hid E.
  destruct (runNet_ok _ (vc_payload _ _ Hvalid) _ _ (capOf_nonneg _ (vc_descs _ _ Hvalid)) evs _ _ _ (new_net _ _ Hvalid) Hev (fun id => Forall_nil_2 _) E) as [[HA HB _ _ (pkts & buf & rest & _ & _ & Hd & _)] _].
  destruct (new_index config descs id Hvalid Hid) as (i & Hi). destruct (st_chan _ _ _ _ HB _ _ Hi) as (ch & Hl & _). assert (Hc : chan (endB net) id = Some ch) by (eapply chan_lookup; [exact HB|by exists i]).
  specialize (Hd id ch Hc). destruct (assemble _ _) as [ms r]. destruct Hd as [Hd _]. cbn [app] in Hd. rewrite <- Hd. by eexists.
Qed.

(** C27: Everything is delivered.  From any state that the two ends can come to
    without an empty message or one longer than its channel receives, and in
    which the sender still runs and the receiver still reads, only finitely many steps
    of waking, sending, flushing and receiving can follow one another; and when
    none is left the receiver has been given everything the sender accepted, on
    every channel.  No wake-up of the send routine is lost, and no bytes stay in
    a buffer. *)
Theorem mconn_delivers `{PacketLaws} (config : MConnConfig) (descs : list ChannelDescriptor) (evs : list (side * event)) (net : Net)
  (Hvalid : validConfig config descs) (Hev : Forall (fitting (capOf descs)) evs) (Hrun : runNet evs (mkNet (newConn config descs) (newConn config descs) [] []) = Some net)
  (HA : running (endA net) = true) (HB : recvOver (endB net) = false) :
  exists bound, forall more net', Forall (fun ev => internal ev = true) more -> runNet more net = Some net' ->
    (length more <= bound)%nat /\
    ((forall ev, internal ev = true -> netStep net' ev = None) -> forall id, id ∈ ID <$> descs -> deliveredOn id (endB net') = acceptedOn id evs).
Proof.
  set (P := MaxPacketMsgPayloadSize config). set (IDs := channelsIdx (newConn config descs)).
  assert (Hgen : forall more net0 acc, netOK P IDs (capOf descs) net0 acc -> (forall id, Forall (fun m => zlen m <= capOf descs id) (acc id)) -> running (endA net0) = true -> recvOver (endB net0) = false -> Forall (fun ev => internal ev = true) more ->
    forall net', runNet more net0 = Some net' -> (length more <= work P net0)%nat /\ netOK P IDs (capOf descs) net' (fun id => acc id ++ acceptedOn id more) /\ running (endA net') = true /\ recvOver (endB net') = false).
  { induction more as [|ev more IH]; intros net0 acc Hn Hacc Hr Ho Hi net' E.
    - destruct (runNet_ok _ (vc_payload _ _ Hvalid) _ _ (capOf_nonneg _ (vc_descs _ _ Hvalid)) [] _ _ _ Hn (Forall_nil_2 _) Hacc E) as [Hn' _]. injection E as <-. split; [cbn; lia|done].
    - assert (Hfit : Forall (fitting (capOf descs)) (ev :: more)) by (eapply Forall_impl; [exact Hi|]; intros [[] []]; done). destruct (runNet_ok _ (vc_payload _ _ Hvalid) _ _ (capOf_nonneg _ (vc_descs _ _ Hvalid)) _ _ _ _ Hn Hfit Hacc E) as [Hn' _].
      cbn [runNet] in E. destruct (netStep net0 ev) as [net1|] eqn:E1; [|done]. apply Forall_cons in Hi as [Hi His], Hfit as [Hf1 _]. cbn [mbind option_bind] in E.
      destruct (internal_step _ (vc_payload _ _ Hvalid) _ _ _ _ _ _ Hn Hr Ho Hi E1) as (Hr1 & Ho1 & Hw). fold P in Hw. pose proof (netStep_ok _ (vc_payload _ _ Hvalid) _ _ (capOf_nonneg _ (vc_descs _ _ Hvalid)) _ _ _ _ Hn Hf1 Hacc E1) as Hn1.
      destruct (IH net1 _ Hn1) with (net' := net') as (Hlen & _ & ? & ?); try done; [|split; [cbn [length]; lia|done]]. intros id. replace (acceptedOn id [ev]) with (@nil bytes) by (destruct ev as [[] []]; done). by rewrite app_nil_r. }
  destruct (runNet_ok _ (vc_payload _ _ Hvalid) _ _ (capOf_nonneg _ (vc_descs _ _ Hvalid)) evs _ _ _ (new_net _ _ Hvalid) Hev (fun id => Forall_nil_2 _) Hrun) as [Hn Hacc]. exists (work P net). intros more net' Hi E.
  destruct (Hgen more net _ Hn Hacc HA HB Hi net' E) as (Hlen & Hn' & Hr' & Ho'). split; [done|]. intros Hq id Hid. destruct (new_index config descs id Hvalid Hid) as (i & Hix).
  rewrite (quiet_delivered _ (vc_payload _ _ Hvalid) _ _ _ _ Hn' Hr' Ho' Hq id i Hix). cbn [app]. replace (acceptedOn id more) with (@nil bytes); [by rewrite app_nil_r|]. clear -Hi. induction Hi as [|ev l He Hl IH]; [done|]. unfold acceptedOn in *. cbn. rewrite <- IH. by destruct ev as [[] []].
Qed.

(** ** Witnesses *)

(** Every byte of a payload is announced, and so is its end. *)
Fixpoint cont (b : bytes) : bytes := match b with [] => [Byte.x00] | x :: b => Byte.x01 :: x :: cont b end.
Fixpoint readCont (s : bytes) : reading + bytes * bytes :=
  match s with
  | [] => inl Incomplete
  | Byte.x00 :: r => inr ([], r)
  | Byte.x01 :: r => match r with [] => inl Incomplete | x :: r => match readCont r with inr (b, rest) => inr (x :: b, rest) | inl e => inl e end end
  | _ => inl Malformed
  end.
Definition toyMarshal (p : Packet) : bytes :=
  match p with PacketPing => [Byte.x01] | PacketPong => [Byte.x02] | PacketOf m => Byte.x03 :: Z_byte (ChannelID m) :: Z_byte (EOF m) :: cont (Bytes m) end.
Definition toyRead (s : bytes) : reading :=
  match s with
  | [] => Incomplete
  | Byte.x01 :: r => Got PacketPing r
  | Byte.x02 :: r => Got PacketPong r
  | Byte.x03 :: i :: e :: r => match readCont r with inr (b, rest) => Got (PacketOf (mkPacketMsg (byte_Z i) (byte_Z e) b)) rest | inl e => e end
  | Byte.x03 :: _ => Incomplete
  | _ => Malformed
  end.
Definition toyPackets : PacketCodec := {| MarshalPacket := toyMarshal; ReadPacket := fun _ s => toyRead s |}.
#[local] Existing Instance toyPackets.

Lemma readCont_cont b s : readCont (cont b ++ s) = inr (b, s).
Proof. induction b as [|x b IH]; [done|]. cbn [cont app readCont]. by rewrite IH. Qed.
Lemma readCont_part b : forall s r, cont b = s ++ r -> r <> [] -> readCont s = inl Incomplete.
Proof.
  induction b as [|x b IH]; intros s r E Hr; cbn [cont] in E.
  - destruct s as [|y s]; [done|]. injection E as <- E. symmetry in E. apply app_eq_nil in E as [_ ->]. done.
  - destruct s as [|y [|z s]]; [done|by injection E as <- _|]. injection E as <- <- E. cbn [readCont]. by rewrite (IH s r).
Qed.
Lemma cont_length b : length (cont b) = (2 * length b + 1)%nat.
Proof. induction b as [|x b IH]; cbn [cont length]; lia. Qed.

#[local] Instance toyPacketLaws : PacketLaws.
Proof.
  split; cbn [MarshalPacket ReadPacket toyPackets].
  - intros max [| |[id eof b]] s Hw _; [done..|]. cbn [wire ChannelID EOF] in Hw. cbn [toyMarshal app toyRead ChannelID EOF Bytes]. rewrite readCont_cont, !byte_Z_of_byte, !Z.mod_small by lia. done.
  - intros max [| |[id eof b]] s r _ _ E Hr; cbn [toyMarshal ChannelID EOF Bytes] in E.
    + destruct s as [|y s]; [done|]. injection E as _ E. symmetry in E. by apply app_eq_nil in E as [_ ->].
    + destruct s as [|y s]; [done|]. injection E as _ E. symmetry in E. by apply app_eq_nil in E as [_ ->].
    + destruct s as [|x [|y [|z s]]]; [done|by injection E as <- _..|]. injection E as <- <- <- E. cbn [toyRead]. by rewrite (readCont_part b s r).
  - by intros [].
  - intros id eof b b' _ _ Hl. unfold zlen. cbn [toyMarshal length Bytes]. rewrite !cont_length. lia.
  - intros b. unfold zlen. cbn [toyMarshal length Bytes]. lia.
  - intros b. unfold zlen. cbn [toyMarshal length Bytes]. lia.
Qed.

(** Two channels, packets of four bytes. *)
Definition exConfig : MConnConfig := mkConfig 512000 512000 4 100 60 45.
Definition exDescs : list ChannelDescriptor := [mkDesc 32 1 2 0 0; mkDesc 48 5 2 0 100].
Lemma exValid : validConfig exConfig exDescs.
Proof. split; [cbn; lia|cbn; lia|repeat constructor; cbn; lia|]. apply (bool_decide_unpack _). vm_compute. exact I. Qed.

(** A message of two packets on one channel, one of a single packet on the other. *)
Definition exEvents : list (side * event) :=
  [(A, EvSend 32 (str "hello")); (A, EvWake); (A, EvSend 48 (str "abc")); (A, EvWake); (A, EvSendToken); (A, EvPacket); (B, EvPing); (A, EvPacket); (A, EvPacket); (A, EvPacket); (A, EvFlushTimer)].
Lemma exEvents_fit : Forall (fitting (capOf exDescs)) exEvents.
Proof. repeat constructor; vm_compute; congruence. Qed.
Definition exStart : Net := mkNet (newConn exConfig exDescs) (newConn exConfig exDescs) [] [].

Lemma mconn_in_order_witness : exists c net, NewMConnection exConfig exDescs = Ret c /\ runNet (exEvents ++ [(B, EvRecv)]) (mkNet c c [] []) = Some net /\
  deliveredOn 32 (endB net) `prefix_of` acceptedOn 32 (exEvents ++ [(B, EvRecv)]) /\ acceptedOn 32 (exEvents ++ [(B, EvRecv)]) = [str "hello"].
Proof.
  destruct (mconn_in_order exConfig exDescs exValid) as (c & Ec & Hc). exists c. assert (Hr : exists net, runNet (exEvents ++ [(B, EvRecv)]) (mkNet c c [] []) = Some net).
  { assert (E : NewMConnection exConfig exDescs = Ret (newConn exConfig exDescs)) by (vm_compute; reflexivity). rewrite E in Ec. injection Ec as <-. eexists. vm_compute. reflexivity. }
  destruct Hr as (net & Hr). exists net. split; [exact Ec|]. split; [exact Hr|]. split; [|vm_compute; reflexivity]. apply (Hc _ _ 32); [apply Forall_app; split; [exact exEvents_fit|repeat constructor]|left|exact Hr].
Defined.

Lemma mconn_delivers_witness : exists net bound, runNet exEvents exStart = Some net /\
  (length [(B, EvRecv); (B, EvRecv); (B, EvRecv)] <= bound)%nat /\ exists net', runNet [(B, EvRecv); (B, EvRecv); (B, EvRecv)] net = Some net' /\ deliveredOn 32 (endB net') = [str "hello"].
Proof.
  destruct (runNet exEvents exStart) as [net|] eqn:E; [|vm_compute in E; discriminate E]. assert (HA : running (endA net) = true) by (vm_compute in E; injection E as <-; reflexivity). assert (HB : recvOver (endB net) = false) by (vm_compute in E; injection E as <-; reflexivity).
  destruct (mconn_delivers exConfig exDescs exEvents net exValid exEvents_fit E HA HB) as (bound & Hb). exists net, bound. split; [reflexivity|].
  assert (Hr : exists net', runNet [(B, EvRecv); (B, EvRecv); (B, EvRecv)] net = Some net' /\ deliveredOn 32 (endB net') = [str "hello"]) by (vm_compute in E; injection E as <-; eexists; split; vm_compute; reflexivity).
  destruct Hr as (net' & Hr & Hd). split; [|exists net'; split; [exact Hr|exact Hd]]. apply (Hb _ net'); [repeat constructor|exact Hr].
Defined.

Definition exInput : list (event * bytes) := [(EvRecv, toyMarshal (PacketOf (mkPacketMsg 48 0 (str "abcd"))))].
Lemma recv_bounded_witness : exists c, runEnd exInput (newConn exConfig exDescs) = Some c /\ recvBounded c.
Proof.
  destruct (runEnd exInput (newConn exConfig exDescs)) as [c|] eqn:E; [|vm_compute in E; discriminate E].
  exists c. split; [reflexivity|]. apply (recv_bounded exConfig exDescs exInput c exValid); [repeat constructor|exact E].
Defined.

(** An empty message is taken from its queue when the channels are looked at,
    and is gone when another channel is served first: of the two messages
    accepted only one is delivered, with nothing left to send. *)
Example empty_message_lost : exists net, runNet [(A, EvSend 32 []); (A, EvWake); (A, EvSend 48 (str "abc")); (A, EvStats); (A, EvSendToken); (A, EvPacket); (A, EvPacket)]
    (mkNet (setChannels (newConn exConfig exDescs) ((fun ch => if ID (desc ch) =? 32 then mkChannel (desc ch) [] 0 [] [] 100 4 else ch) <$> channels (newConn exConfig exDescs))) (newConn exConfig exDescs) [] []) = Some net /\
  Forall idle (channels (endA net)) /\ length (bufConnWriter (endA net)) = length (toyMarshal (PacketOf (mkPacketMsg 48 1 (str "abc")))).
Proof. eexists. split; [vm_compute; reflexivity|]. split; [repeat constructor|reflexivity]. Qed.
End Conn.
