(* ===== verification/Reactor.v ===== *)
(** * The consensus reactor: consensus/reactor.go

    What a node knows of each peer, the messages by which it learns it, and the
    routines that send proposals, block parts and votes to the peer.  A peer
    state holds pointers to bit arrays, some of which are one array under two
    names; they are indices into [ps_heap].  A turn of a routine is given the
    snapshots [rs] and [prs] that it works on, the peer state of the moment and
    whether [peer.Send] succeeds; it returns what was sent. *)

From S2P Require Import Prelude BitArray Sha256 Crypto Merkle Types ValidatorSet VoteSet HeightVoteSet PartSet Block State Consensus.
Import Crypto Types ValidatorSet Consensus.

Module Reactor.

(** ** consensus/types/peer_round_state.go *)

Definition ptr : Type := option nat.
Record PeerRoundState := mkPRS {
  pr_Height : Z; pr_Round : Z; pr_Step : Z; pr_StartTime : Time;
  pr_Proposal : bool; pr_PartsHeader : PartSetHeader; pr_Parts : ptr;
  pr_POLRound : Z; pr_POL : ptr;
  pr_Prevotes : ptr; pr_Precommits : ptr;
  pr_LastCommitRound : Z; pr_LastCommit : ptr;
  pr_CatchupCommitRound : Z; pr_CatchupCommit : ptr }.

Definition prsStep (h r s : Z) (t : Time) (p : PeerRoundState) : PeerRoundState :=
  mkPRS h r s t (pr_Proposal p) (pr_PartsHeader p) (pr_Parts p) (pr_POLRound p) (pr_POL p) (pr_Prevotes p) (pr_Precommits p) (pr_LastCommitRound p) (pr_LastCommit p) (pr_CatchupCommitRound p) (pr_CatchupCommit p).
Definition prsProposal (b : bool) (hdr : PartSetHeader) (parts : ptr) (polRound : Z) (pol : ptr) (p : PeerRoundState) : PeerRoundState :=
  mkPRS (pr_Height p) (pr_Round p) (pr_Step p) (pr_StartTime p) b hdr parts polRound pol (pr_Prevotes p) (pr_Precommits p) (pr_LastCommitRound p) (pr_LastCommit p) (pr_CatchupCommitRound p) (pr_CatchupCommit p).
Definition prsVotes (prevotes precommits : ptr) (p : PeerRoundState) : PeerRoundState :=
  mkPRS (pr_Height p) (pr_Round p) (pr_Step p) (pr_StartTime p) (pr_Proposal p) (pr_PartsHeader p) (pr_Parts p) (pr_POLRound p) (pr_POL p) prevotes precommits (pr_LastCommitRound p) (pr_LastCommit p) (pr_CatchupCommitRound p) (pr_CatchupCommit p).
Definition prsLastCommit (r : Z) (lc : ptr) (p : PeerRoundState) : PeerRoundState :=
  mkPRS (pr_Height p) (pr_Round p) (pr_Step p) (pr_StartTime p) (pr_Proposal p) (pr_PartsHeader p) (pr_Parts p) (pr_POLRound p) (pr_POL p) (pr_Prevotes p) (pr_Precommits p) r lc (pr_CatchupCommitRound p) (pr_CatchupCommit p).
Definition prsCatchup (r : Z) (cc : ptr) (p : PeerRoundState) : PeerRoundState :=
  mkPRS (pr_Height p) (pr_Round p) (pr_Step p) (pr_StartTime p) (pr_Proposal p) (pr_PartsHeader p) (pr_Parts p) (pr_POLRound p) (pr_POL p) (pr_Prevotes p) (pr_Precommits p) (pr_LastCommitRound p) (pr_LastCommit p) r cc.

(** ** PeerState *)

Record peerStateStats := mkStats { LastVoteHeight : Z; StatVotes : Z; LastBlockPartHeight : Z; BlockParts : Z }.
Record PeerState := mkPeerState { ps_heap : list BitArray.BitArray; PRS : PeerRoundState; Stats : peerStateStats }.
Definition NewPeerState : PeerState :=
  mkPeerState [] (mkPRS 0 (-1) 0 State.zeroTime false (mkPartSetHeader 0 []) None (-1) None None None (-1) None (-1) None) (mkStats 0 0 0 0).

Definition setPRS (ps : PeerState) (p : PeerRoundState) : PeerState := mkPeerState (ps_heap ps) p (Stats ps).
Definition setStats (ps : PeerState) (s : peerStateStats) : PeerState := mkPeerState (ps_heap ps) (PRS ps) s.

(** Pointers: [nil] is [None]. *)
Definition load (ps : PeerState) (p : ptr) : option BitArray.BitArray := i ← p; ps_heap ps !! i.
Definition alloc (ps : PeerState) (b : option BitArray.BitArray) : PeerState * ptr :=
  match b with
  | None => (ps, None)
  | Some b => (mkPeerState (ps_heap ps ++ [b]) (PRS ps) (Stats ps), Some (length (ps_heap ps)))
  end.
Definition write (ps : PeerState) (p : ptr) (b : option BitArray.BitArray) : PeerState :=
  match p, b with Some i, Some b => mkPeerState (<[i := b]> (ps_heap ps)) (PRS ps) (Stats ps) | _, _ => ps end.
Definition newArray (ps : PeerState) (n : Z) : go (PeerState * ptr) := b ← BitArray.NewBitArray n; Ret (alloc ps b).
Definition setBit (ps : PeerState) (p : ptr) (index : Z) : go PeerState := r ← BitArray.SetIndex (load ps p) index true; Ret (write ps p r.1).

Definition SetHasProposal (ps : PeerState) (proposal : option Proposal) : go PeerState :=
  proposal ← deref proposal;
  let p := PRS ps in
  if negb (pr_Height p =? p_Height proposal) || negb (pr_Round p =? p_Round proposal) then Ret ps
  else if pr_Proposal p then Ret ps
  else
    '(ps, parts) ← newArray ps (psh_Total (p_BlockPartsHeader proposal));
    Ret (setPRS ps (prsProposal true (p_BlockPartsHeader proposal) parts (p_POLRound proposal) None p)).

Definition InitProposalBlockParts (ps : PeerState) (hdr : PartSetHeader) : go PeerState :=
  let p := PRS ps in
  match pr_Parts p with
  | Some _ => Ret ps
  | None => '(ps, parts) ← newArray ps (psh_Total hdr); Ret (setPRS ps (prsProposal (pr_Proposal p) hdr parts (pr_POLRound p) (pr_POL p) p))
  end.

Definition SetHasProposalBlockPart (ps : PeerState) (height round index : Z) : go PeerState :=
  let p := PRS ps in
  if negb (pr_Height p =? height) || negb (pr_Round p =? round) then Ret ps else setBit ps (pr_Parts p) index.

Definition getVoteBitArray (p : PeerRoundState) (height round type_ : Z) : ptr :=
  if negb (IsVoteTypeValid type_) then None
  else if pr_Height p =? height then
    if pr_Round p =? round then (if type_ =? VoteTypePrevote then pr_Prevotes p else pr_Precommits p)
    else if pr_CatchupCommitRound p =? round then (if type_ =? VoteTypePrevote then None else pr_CatchupCommit p)
    else if pr_POLRound p =? round then (if type_ =? VoteTypePrevote then pr_POL p else None)
    else None
  else if pr_Height p =? add64 height 1 then
    if pr_LastCommitRound p =? round then (if type_ =? VoteTypePrevote then None else pr_LastCommit p) else None
  else None.

Definition ensureCatchupCommitRound (ps : PeerState) (height round numValidators : Z) : go PeerState :=
  let p := PRS ps in
  if negb (pr_Height p =? height) then Ret ps
  else if pr_CatchupCommitRound p =? round then Ret ps
  else if round =? pr_Round p then Ret (setPRS ps (prsCatchup round (pr_Precommits p) p))
  else '(ps, a) ← newArray ps numValidators; Ret (setPRS ps (prsCatchup round a p)).

(** An array that is allocated where there is none. *)
Definition ensureArray (ps : PeerState) (get : PeerRoundState -> ptr) (put : ptr -> PeerRoundState -> PeerRoundState) (n : Z) : go PeerState :=
  match get (PRS ps) with
  | Some _ => Ret ps
  | None => '(ps, a) ← newArray ps n; Ret (setPRS ps (put a (PRS ps)))
  end.
Definition ensureVoteBitArrays (ps : PeerState) (height numValidators : Z) : go PeerState :=
  if pr_Height (PRS ps) =? height then
    ps ← ensureArray ps pr_Prevotes (fun a p => prsVotes a (pr_Precommits p) p) numValidators;
    ps ← ensureArray ps pr_Precommits (fun a p => prsVotes (pr_Prevotes p) a p) numValidators;
    ps ← ensureArray ps pr_CatchupCommit (fun a p => prsCatchup (pr_CatchupCommitRound p) a p) numValidators;
    ensureArray ps pr_POL (fun a p => prsProposal (pr_Proposal p) (pr_PartsHeader p) (pr_Parts p) (pr_POLRound p) a p) numValidators
  else if pr_Height (PRS ps) =? add64 height 1 then
    ensureArray ps pr_LastCommit (fun a p => prsLastCommit (pr_LastCommitRound p) a p) numValidators
  else Ret ps.

Definition setHasVote (ps : PeerState) (height round type_ index : Z) : go PeerState :=
  match getVoteBitArray (PRS ps) height round type_ with
  | None => Ret ps
  | Some a => setBit ps (Some a) index
  end.
Definition SetHasVote (ps : PeerState) (vote : option Vote) : go PeerState :=
  vote ← deref vote; setHasVote ps (v_Height vote) (v_Round vote) (v_Type vote) (v_ValidatorIndex vote).

Definition RecordVote (ps : PeerState) (vote : option Vote) : go (PeerState * Z) :=
  vote ← deref vote;
  let s := Stats ps in
  if v_Height vote <=? LastVoteHeight s then Ret (ps, StatVotes s)
  else Ret (setStats ps (mkStats (v_Height vote) (add64 (StatVotes s) 1) (LastBlockPartHeight s) (BlockParts s)), add64 (StatVotes s) 1).
Definition RecordBlockPart (ps : PeerState) (height : Z) : PeerState * Z :=
  let s := Stats ps in
  if height <=? LastBlockPartHeight s then (ps, BlockParts s)
  else (setStats ps (mkStats (LastVoteHeight s) (StatVotes s) height (add64 (BlockParts s) 1)), add64 (BlockParts s) 1).

Definition ApplyNewRoundStepMessage (ps : PeerState) (now : Time) (height round step seconds lastCommitRound : Z) : PeerState :=
  let p := PRS ps in
  if CompareHRS height round step (pr_Height p) (pr_Round p) (pr_Step p) <=? 0 then ps else
  let psHeight := pr_Height p in
  let psRound := pr_Round p in
  let psCatchupCommitRound := pr_CatchupCommitRound p in
  let psCatchupCommit := pr_CatchupCommit p in
  let p := prsStep height round step (now + mul64 (mul64 (-1) seconds) second) p in
  let p := if negb (psHeight =? height) || negb (psRound =? round)
           then prsVotes None None (prsProposal false (mkPartSetHeader 0 []) None (-1) None p) else p in
  let p := if (psHeight =? height) && negb (psRound =? round) && (round =? psCatchupCommitRound)
           then prsVotes (pr_Prevotes p) psCatchupCommit p else p in
  let p := if negb (psHeight =? height) then
             prsCatchup (-1) None
               (if (add64 psHeight 1 =? height) && (psRound =? lastCommitRound)
                then prsLastCommit lastCommitRound (pr_Precommits p) p
                else prsLastCommit lastCommitRound None p)
           else p in
  setPRS ps p.

Definition ApplyCommitStepMessage (ps : PeerState) (height : Z) (hdr : PartSetHeader) (parts : option BitArray.BitArray) : PeerState :=
  let p := PRS ps in
  if negb (pr_Height p =? height) then ps else
  let '(ps, a) := alloc ps parts in
  setPRS ps (prsProposal (pr_Proposal p) hdr a (pr_POLRound p) (pr_POL p) p).

Definition ApplyProposalPOLMessage (ps : PeerState) (height polRound : Z) (pol : option BitArray.BitArray) : PeerState :=
  let p := PRS ps in
  if negb (pr_Height p =? height) then ps
  else if negb (pr_POLRound p =? polRound) then ps
  else
    let '(ps, a) := alloc ps pol in
    setPRS ps (prsProposal (pr_Proposal p) (pr_PartsHeader p) (pr_Parts p) (pr_POLRound p) a p).

Definition ApplyHasVoteMessage (ps : PeerState) (height round type_ index : Z) : go PeerState :=
  if negb (pr_Height (PRS ps) =? height) then Ret ps else setHasVote ps height round type_ index.

Definition ApplyVoteSetBitsMessage (ps : PeerState) (height round type_ : Z) (msgVotes ourVotes : option BitArray.BitArray) : go PeerState :=
  match getVoteBitArray (PRS ps) height round type_ with
  | None => Ret ps
  | Some a =>
      match ourVotes with
      | None => Ret (write ps (Some a) (BitArray.Update (load ps (Some a)) msgVotes))
      | Some _ =>
          otherVotes ← BitArray.Sub (load ps (Some a)) ourVotes;
          hasVotes ← BitArray.Or otherVotes msgVotes;
          Ret (write ps (Some a) (BitArray.Update (load ps (Some a)) hasVotes))
      end
  end.

(** ** Picking votes *)

(** types.VoteSetReader, of a vote set and of a commit. *)
Record VoteSetReader := mkVotes {
  vr_Height : Z; vr_Round : Z; vr_Type : Z; vr_Size : Z; vr_BitArray : go (option BitArray.BitArray); vr_GetByIndex : Z -> go (option Vote); vr_IsCommit : bool }.
Definition ofVoteSet (vs : option VoteSet.VoteSet) : VoteSetReader :=
  mkVotes (VoteSet.vsHeight vs) (VoteSet.vsRound vs) (VoteSet.vsType vs) (VoteSet.vsSize vs) (Ret (VoteSet.vsBitArray vs)) (VoteSet.vsGetByIndex vs) (VoteSet.IsCommit vs).
Definition ofCommit (c : option Commit) : VoteSetReader :=
  match c with
  | None => mkVotes 0 0 VoteTypePrecommit 0 (Panic NilDeref) (fun _ => Panic NilDeref) false
  | Some c => mkVotes (Commit_Height c) (Commit_Round c) VoteTypePrecommit (Commit_Size (Some c)) (Commit_BitArray c) (Commit_GetByIndex c) (Commit_IsCommit c)
  end.

Section Picking.
Context (RandIntn : nat -> Z -> Z).

(** "Lazily set data using 'votes'." *)
Definition prepare (ps : PeerState) (votes : VoteSetReader) : go PeerState :=
  ps ← (if vr_IsCommit votes then ensureCatchupCommitRound ps (vr_Height votes) (vr_Round votes) (vr_Size votes) else Ret ps);
  ensureVoteBitArrays ps (vr_Height votes) (vr_Size votes).
Definition PickVoteToSend (ps : PeerState) (votes : VoteSetReader) : go (PeerState * option (option Vote)) :=
  if vr_Size votes =? 0 then Ret (ps, None) else
  ps ← prepare ps votes;
  match getVoteBitArray (PRS ps) (vr_Height votes) (vr_Round votes) (vr_Type votes) with
  | None => Ret (ps, None)
  | Some a =>
      ours ← vr_BitArray votes;
      missing ← BitArray.Sub ours (load ps (Some a));
      '(index, ok) ← BitArray.PickRandom RandIntn missing;
      if ok : bool then
        ps ← setHasVote ps (vr_Height votes) (vr_Round votes) (vr_Type votes) index;
        vote ← vr_GetByIndex votes index;
        Ret (ps, Some vote)
      else Ret (ps, None)
  end.

(** ** Messages *)

Inductive ConsensusMessage :=
| NewRoundStepMessage (height round step secondsSinceStartTime lastCommitRound : Z)
| CommitStepMessage (height : Z) (hdr : PartSetHeader) (parts : option BitArray.BitArray)
| ProposalPOLMessage (height polRound : Z) (pol : option BitArray.BitArray)
| HasVoteMessage (height round type_ index : Z)
| VoteSetMaj23Message (height round type_ : Z) (blockID : BlockID)
| VoteSetBitsMessage (height round type_ : Z) (blockID : BlockID) (votes : option BitArray.BitArray)
| ProposalHeartbeatMessage (heartbeat : option Heartbeat)
| StateMessage (m : Msg).  (* a proposal, a block part or a vote *)

Definition StateChannel : Z := 0x20.
Definition DataChannel : Z := 0x21.
Definition VoteChannel : Z := 0x22.
Definition VoteSetBitsChannel : Z := 0x23.
Definition maxMsgSize : Z := 1048576.
Definition blocksToContributeToBecomeGoodPeer : Z := 10000.

(** The messages handed to [peer.Send] or [peer.TrySend]; a send can fail. *)
Definition sent : Type := list (Z * ConsensusMessage).

Definition PickSendVote (ps : PeerState) (votes : VoteSetReader) (sendOK : bool) : go (PeerState * sent * bool) :=
  '(ps, r) ← PickVoteToSend ps votes;
  match r with
  | Some vote => Ret (ps, [(VoteChannel, StateMessage (VoteMessage vote))], sendOK)
  | None => Ret (ps, [], false)
  end.

(** [seconds] is what the clock gives for [int(time.Since(rs.StartTime).Seconds())]. *)
Definition makeRoundStepMessages (rs : RoundState) (parts : list PartSet.PartSet) (seconds : Z) : go (ConsensusMessage * option ConsensusMessage) :=
  let nrsMsg := NewRoundStepMessage (Height rs) (Round rs) (Step rs) seconds (VoteSet.vsRound (LastCommit rs)) in
  if Step rs =? RoundStepCommit then
    let set := i ← ProposalBlockParts rs; parts !! i in
    s ← deref set;
    Ret (nrsMsg, Some (CommitStepMessage (Height rs) (PartSet.Header set) (PartSet.psBitArray s)))
  else Ret (nrsMsg, None).
Definition broadcastHasVoteMessage (vote : Vote) : ConsensusMessage := HasVoteMessage (v_Height vote) (v_Round vote) (v_Type vote) (v_ValidatorIndex vote).

(** ** Receiving *)

Inductive effect := PeerMsg (m : Msg) | StopPeerForError | MarkPeerAsGood | TrySend (chID : Z) (m : ConsensusMessage).

Section Receive.
Context `{Codec} `{Curves}.

(** Our votes for a block, by the type of the message. *)
Definition ourVotes (votes : HeightVoteSet.HeightVoteSet) (round type_ : Z) (blockID : BlockID) : go (option (option BitArray.BitArray)) :=
  if type_ =? VoteTypePrevote then vs ← HeightVoteSet.Prevotes votes round; Ret (Some (VoteSet.BitArrayByBlockID vs blockID))
  else if type_ =? VoteTypePrecommit then vs ← HeightVoteSet.Precommits votes round; Ret (Some (VoteSet.BitArrayByBlockID vs blockID))
  else Ret None.

Definition receiveState (ps : PeerState) (rs : RoundState) (peer : bytes) (now : Time) (msg : ConsensusMessage) : go (PeerState * RoundState * list effect) :=
  match msg with
  | NewRoundStepMessage h r s sec lcr => Ret (ApplyNewRoundStepMessage ps now h r s sec lcr, rs, [])
  | CommitStepMessage h hdr parts => Ret (ApplyCommitStepMessage ps h hdr parts, rs, [])
  | HasVoteMessage h r t i => ps ← ApplyHasVoteMessage ps h r t i; Ret (ps, rs, [])
  | VoteSetMaj23Message h r t blockID =>
      if negb (Height rs =? h) then Ret (ps, rs, []) else
      votes ← deref (Votes rs);
      '(votes, ok) ← HeightVoteSet.SetPeerMaj23 votes r t peer blockID;
      let rs := setVotes (Some votes) rs in
      if negb ok then Ret (ps, rs, [StopPeerForError]) else
      ours ← ourVotes votes r t blockID;
      match ours with
      | None => Ret (ps, rs, [])
      | Some ours => Ret (ps, rs, [TrySend VoteSetBitsChannel (VoteSetBitsMessage h r t blockID ours)])
      end
  | ProposalHeartbeatMessage hb => _ ← deref hb; Ret (ps, rs, [])
  | _ => Ret (ps, rs, [])
  end.

Definition receiveData (ps : PeerState) (msg : ConsensusMessage) : go (PeerState * list effect) :=
  match msg with
  | StateMessage (ProposalMessage p) => ps ← SetHasProposal ps p; Ret (ps, [PeerMsg (ProposalMessage p)])
  | ProposalPOLMessage h r pol => Ret (ApplyProposalPOLMessage ps h r pol, [])
  | StateMessage (BlockPartMessage h r part) =>
      pt ← deref part;
      ps ← SetHasProposalBlockPart ps h r (PartSet.Index pt);
      let '(ps, numBlocks) := RecordBlockPart ps h in
      Ret (ps, (if Z.rem numBlocks blocksToContributeToBecomeGoodPeer =? 0 then [MarkPeerAsGood] else []) ++ [PeerMsg (BlockPartMessage h r part)])
  | _ => Ret (ps, [])
  end.

Definition receiveVote (ps : PeerState) (rs : RoundState) (msg : ConsensusMessage) : go (PeerState * list effect) :=
  match msg with
  | StateMessage (VoteMessage v) =>
      vals ← deref (Validators rs);
      ps ← ensureVoteBitArrays ps (Height rs) (Size vals);
      ps ← ensureVoteBitArrays ps (sub64 (Height rs) 1) (VoteSet.vsSize (LastCommit rs));
      ps ← SetHasVote ps v;
      '(ps, blocks) ← RecordVote ps v;
      Ret (ps, (if Z.rem blocks blocksToContributeToBecomeGoodPeer =? 0 then [MarkPeerAsGood] else []) ++ [PeerMsg (VoteMessage v)])
  | _ => Ret (ps, [])
  end.

Definition receiveBits (ps : PeerState) (rs : RoundState) (msg : ConsensusMessage) : go (PeerState * list effect) :=
  match msg with
  | VoteSetBitsMessage h r t blockID bits =>
      if Height rs =? h then
        votes ← deref (Votes rs);
        ours ← ourVotes votes r t blockID;
        match ours with
        | None => Ret (ps, [])
        | Some ours => ps ← ApplyVoteSetBitsMessage ps h r t bits ours; Ret (ps, [])
        end
      else ps ← ApplyVoteSetBitsMessage ps h r t bits None; Ret (ps, [])
  | _ => Ret (ps, [])
  end.

(** The switch of [Receive] on the channel. *)
Definition dispatch (fastSync : bool) (ps : PeerState) (rs : RoundState) (peer : bytes) (now : Time) (chID : Z) (msg : ConsensusMessage) : go (PeerState * RoundState * list effect) :=
  if chID =? StateChannel then receiveState ps rs peer now msg
  else if chID =? DataChannel then
    if fastSync then Ret (ps, rs, []) else '(ps, e) ← receiveData ps msg; Ret (ps, rs, e)
  else if chID =? VoteChannel then
    if fastSync then Ret (ps, rs, []) else '(ps, e) ← receiveVote ps rs msg; Ret (ps, rs, e)
  else if chID =? VoteSetBitsChannel then
    if fastSync then Ret (ps, rs, []) else '(ps, e) ← receiveBits ps rs msg; Ret (ps, rs, e)
  else Ret (ps, rs, []).

(** [Receive] of a running reactor; [decode] is go-amino's [UnmarshalBinaryBare]. *)
Definition DecodeMessage (decode : bytes -> option ConsensusMessage) (bz : bytes) : option ConsensusMessage :=
  if maxMsgSize <? zlen bz then None else decode bz.
Definition Receive (decode : bytes -> option ConsensusMessage) (fastSync : bool) (ps : PeerState) (rs : RoundState) (peer : bytes) (now : Time) (chID : Z) (msgBytes : bytes) : go (PeerState * RoundState * list effect) :=
  match DecodeMessage decode msgBytes with
  | None => Ret (ps, rs, [StopPeerForError])
  | Some msg => dispatch fastSync ps rs peer now chID msg
  end.
End Receive.

(** ** Gossip *)

(** What the routines read of the block store. *)
Class BlockStoreRPC := {
  storeHeight_ : Z; LoadBlockMeta : Z -> go (option Block.BlockMeta); LoadBlockPart : Z -> Z -> go (option PartSet.Part);
  LoadBlockCommit : Z -> go (option Commit); LoadSeenCommit : Z -> go (option Commit) }.

Section Gossip.
Context {store : BlockStoreRPC}.

(** The turn ends with a sleep, or at once. *)
Definition turn : Type := PeerState * sent * bool.

Definition gossipDataForCatchup (prs : PeerRoundState) (ps : PeerState) (sendOK : bool) : go turn :=
  '(index, ok) ← BitArray.PickRandom RandIntn (BitArray.Not (load ps (pr_Parts prs)));
  if ok : bool then
    blockMeta ← LoadBlockMeta (pr_Height prs);
    match blockMeta with
    | None => Ret (ps, [], true)
    | Some blockMeta =>
        if negb (PartSetHeader_Equals (bid_PartsHeader (Block.bm_BlockID blockMeta)) (pr_PartsHeader prs)) then Ret (ps, [], true) else
        part ← LoadBlockPart (pr_Height prs) index;
        match part with
        | None => Ret (ps, [], true)
        | Some part =>
            ps ← (if sendOK then SetHasProposalBlockPart ps (pr_Height prs) (pr_Round prs) index else Ret ps);
            Ret (ps, [(DataChannel, StateMessage (BlockPartMessage (pr_Height prs) (pr_Round prs) (Some part)))], false)
        end
    end
  else Ret (ps, [], true).

(** The part of the proposal to send: its index, and whether there is one. *)
Definition pickPart (rs : RoundState) (parts : list PartSet.PartSet) (prs : PeerRoundState) (ps : PeerState) : go (Z * option PartSet.PartSet) :=
  let set := i ← ProposalBlockParts rs; parts !! i in
  if PartSet.HasHeader set (pr_PartsHeader prs) then
    s ← deref set;
    missing ← BitArray.Sub (PartSet.psBitArray s) (BitArray.Copy (load ps (pr_Parts prs)));
    '(index, ok) ← BitArray.PickRandom RandIntn missing;
    Ret (index, if ok : bool then Some s else None)
  else Ret (0, None).

Definition gossipData (rs : RoundState) (parts : list PartSet.PartSet) (prs : PeerRoundState) (ps : PeerState) (sendOK : bool) : go turn :=
  '(index, found) ← pickPart rs parts prs ps;
  match found with
  | Some s =>
      part ← PartSet.GetPart s index;
      ps ← (if sendOK then SetHasProposalBlockPart ps (pr_Height prs) (pr_Round prs) index else Ret ps);
      Ret (ps, [(DataChannel, StateMessage (BlockPartMessage (Height rs) (Round rs) part))], false)
  | None =>
      if (0 <? pr_Height prs) && (pr_Height prs <? Height rs) then
        match pr_Parts prs with
        | None =>
            blockMeta ← LoadBlockMeta (pr_Height prs);
            match blockMeta with
            | None => Panic (PanicCrisis "Failed to load block")
            | Some blockMeta => ps ← InitProposalBlockParts ps (bid_PartsHeader (Block.bm_BlockID blockMeta)); Ret (ps, [], false)
            end
        | Some _ => gossipDataForCatchup prs ps sendOK
        end
      else if negb (Height rs =? pr_Height prs) || negb (Round rs =? pr_Round prs) then Ret (ps, [], true)
      else
        match Proposal_ rs with
        | Some proposal =>
            if pr_Proposal prs then Ret (ps, [], true) else
            ps ← (if sendOK then SetHasProposal ps (Some proposal) else Ret ps);
            pol ← (if 0 <=? p_POLRound proposal then
                     votes ← deref (Votes rs);
                     vs ← HeightVoteSet.Prevotes votes (p_POLRound proposal);
                     Ret [(DataChannel, ProposalPOLMessage (Height rs) (p_POLRound proposal) (VoteSet.vsBitArray vs))]
                   else Ret []);
            Ret (ps, (DataChannel, StateMessage (ProposalMessage (Some proposal))) :: pol, false)
        | None => Ret (ps, [], true)
        end
  end.

(** The vote sets that [gossipVotesForHeight] offers in turn, each with its
    guard.  A proof-of-lock set that is nil has size 0: nothing is picked. *)
Definition heightCandidates (rs : RoundState) (prs : PeerRoundState) : list (bool * go (option VoteSet.VoteSet)) :=
  let known := negb (pr_Round prs =? -1) && (pr_Round prs <=? Round rs) in
  let hasPOL := negb (pr_POLRound prs =? -1) in
  let prevotes r := votes ← deref (Votes rs); HeightVoteSet.Prevotes votes r in
  let precommits r := votes ← deref (Votes rs); HeightVoteSet.Precommits votes r in
  [ (pr_Step prs =? RoundStepNewHeight, Ret (LastCommit rs));
    ((pr_Step prs <=? RoundStepPropose) && known && hasPOL, prevotes (pr_POLRound prs));
    ((pr_Step prs <=? RoundStepPrevoteWait) && known, prevotes (pr_Round prs));
    ((pr_Step prs <=? RoundStepPrecommitWait) && known, precommits (pr_Round prs));
    (known, prevotes (pr_Round prs));
    (hasPOL, prevotes (pr_POLRound prs)) ].
Fixpoint trySets (l : list (bool * go (option VoteSet.VoteSet))) (ps : PeerState) (sendOK : bool) : go (PeerState * sent * bool) :=
  match l with
  | [] => Ret (ps, [], false)
  | (false, _) :: l => trySets l ps sendOK
  | (true, set) :: l =>
      vs ← set;
      '(ps, out, picked) ← PickSendVote ps (ofVoteSet vs) sendOK;
      if picked : bool then Ret (ps, out, true)
      else '(ps, out', picked) ← trySets l ps sendOK; Ret (ps, out ++ out', picked)
  end.
Definition gossipVotesForHeight (rs : RoundState) (prs : PeerRoundState) (ps : PeerState) (sendOK : bool) : go (PeerState * sent * bool) :=
  trySets (heightCandidates rs prs) ps sendOK.

(** A turn of [gossipVotesRoutine] that finds [sleeping] at 0, 1 or 2 and
    leaves it so; the turn sleeps when it leaves it at 1. *)
Definition gossipVotes (sleeping : Z) (rs : RoundState) (prs : PeerRoundState) (ps : PeerState) (sendOK : bool) : go (PeerState * sent * Z) :=
  let sleeping := if sleeping =? 1 then 2 else if sleeping =? 2 then 0 else sleeping in
  '(ps, out, picked) ← (if Height rs =? pr_Height prs then gossipVotesForHeight rs prs ps sendOK else Ret (ps, [], false));
  if picked : bool then Ret (ps, out, sleeping) else
  '(ps, out1, picked) ← (if negb (pr_Height prs =? 0) && (Height rs =? add64 (pr_Height prs) 1)
                         then PickSendVote ps (ofVoteSet (LastCommit rs)) sendOK else Ret (ps, [], false));
  if picked : bool then Ret (ps, out ++ out1, sleeping) else
  '(ps, out2, picked) ← (if negb (pr_Height prs =? 0) && (add64 (pr_Height prs) 2 <=? Height rs)
                         then commit ← LoadBlockCommit (pr_Height prs); PickSendVote ps (ofCommit commit) sendOK
                         else Ret (ps, [], false));
  if picked : bool then Ret (ps, out ++ out1 ++ out2, sleeping) else
  _ ← (if sleeping =? 0 then (* the arguments of the log line *)
         votes ← deref (Votes rs);
         _ ← HeightVoteSet.Prevotes votes (Round rs);
         HeightVoteSet.Precommits votes (Round rs)
       else Ret None);
  Ret (ps, out ++ out1 ++ out2, if (sleeping =? 0) || (sleeping =? 2) then 1 else sleeping).

(** The four queries of a turn of [queryMaj23Routine], each with its own
    snapshots. *)
Definition maj23Query (rs : RoundState) (prs : PeerRoundState) (cond : bool) (round type_ : Z) : go sent :=
  if (Height rs =? pr_Height prs) && cond then
    votes ← deref (Votes rs);
    vs ← (if type_ =? VoteTypePrevote then HeightVoteSet.Prevotes votes round else HeightVoteSet.Precommits votes round);
    match VoteSet.TwoThirdsMajority vs with
    | (maj23, true) => Ret [(StateChannel, VoteSetMaj23Message (pr_Height prs) round type_ maj23)]
    | _ => Ret []
    end
  else Ret [].
Definition LoadCommit (height : Z) : go (option Commit) := if height =? storeHeight_ then LoadSeenCommit height else LoadBlockCommit height.
Definition queryMaj23 (s1 s2 s3 : RoundState * PeerRoundState) (prs : PeerRoundState) : go sent :=
  q1 ← maj23Query s1.1 s1.2 true (pr_Round s1.2) VoteTypePrevote;
  q2 ← maj23Query s2.1 s2.2 true (pr_Round s2.2) VoteTypePrecommit;
  q3 ← maj23Query s3.1 s3.2 (0 <=? pr_POLRound s3.2) (pr_POLRound s3.2) VoteTypePrevote;
  q4 ← (if negb (pr_CatchupCommitRound prs =? -1) && (0 <? pr_Height prs) && (pr_Height prs <=? storeHeight_) then
          commit ← LoadCommit (pr_Height prs);
          commit ← deref commit;
          Ret [(StateChannel, VoteSetMaj23Message (pr_Height prs) (Commit_Round commit) VoteTypePrecommit (c_BlockID commit))]
        else Ret []);
  Ret (q1 ++ q2 ++ q3 ++ q4).
End Gossip.
End Picking.

(** ** The bits of an array lie in a set *)

(** Whatever an array of a peer looks like, every bit set in it is in [P]. *)
Definition wordsIn (P : Z -> Prop) (l : list Z) : Prop :=
  forall k e n, l !! k = Some e -> 0 <= n < 64 -> Z.testbit e n = true -> P (64 * Z.of_nat k + n).

Lemma wordsIn_bit P b i : wordsIn P (BitArray.Elems b) -> 0 <= i -> BitArray.bit b i = true -> P i.
Proof.
  intros H Hi. unfold BitArray.bit. destruct (_ !! _) eqn:E; [|done]. intros Hb.
  pose proof (Z.mod_pos_bound i 64 ltac:(lia)). pose proof (Z.div_mod i 64 ltac:(lia)). pose proof (Z.div_pos i 64 Hi ltac:(lia)).
  specialize (H _ _ _ E ltac:(done) Hb). by replace (64 * _ + _) with i in H by lia.
Qed.
Lemma bit_wordsIn b : wordsIn (fun j => 0 <= j /\ BitArray.bit b j = true) (BitArray.Elems b).
Proof.
  intros k e n Hk Hn Hb. split; [lia|]. unfold BitArray.bit.
  replace ((64 * Z.of_nat k + n) / 64) with (Z.of_nat k) by (rewrite Z.mul_comm, Z.div_add_l, (Z.div_small n) by lia; lia).
  rewrite Nat2Z.id, Hk. by rewrite (Z.mul_comm 64), Z.add_comm, Z.mod_add, Z.mod_small by lia.
Qed.
Lemma wordsIn_mono (P Q : Z -> Prop) l : (forall j, P j -> Q j) -> wordsIn P l -> wordsIn Q l.
Proof. intros HPQ H k e n. intros. eapply HPQ, H; eauto. Qed.
Lemma wordsIn_replicate P n : wordsIn P (replicate n 0).
Proof. intros k e j [-> _]%lookup_replicate _. by rewrite Z.bits_0. Qed.
Lemma wordsIn_gocopy P l l' : wordsIn P l -> wordsIn P l' -> wordsIn P (gocopy l l').
Proof.
  intros H H' k e n Hk. pose proof (lookup_lt_Some _ _ _ Hk) as Hl. rewrite length_gocopy in Hl.
  rewrite lookup_gocopy in Hk by done. destruct (l' !! k) eqn:E; [simplify_eq; eauto|eauto].
Qed.
Lemma wordsIn_upd P l i e l' : wordsIn P l -> (forall n, 0 <= n < 64 -> Z.testbit e n = true -> 0 <= i -> P (64 * i + n)) ->
  upd l i e = Ret l' -> wordsIn P l'.
Proof.
  intros H He. unfold upd. destruct (Z.ltb_spec i 0); [done|]. destruct (Z.leb_spec (zlen l) i); [done|].
  intros [= <-] k x n.
  destruct (decide (k = Z.to_nat i)) as [->|Hne].
  - rewrite list_lookup_insert_eq by (unfold zlen in *; lia). intros [= <-]. rewrite Z2Nat.id by lia. eauto.
  - rewrite list_lookup_insert_ne by done. apply H.
Qed.
Lemma go_fold_ret_inv {A S} (I : S -> Prop) (f : A -> S -> go S) l s s' :
  (forall x s s', I s -> f x s = Ret s' -> I s') -> I s -> go_fold f l s = Ret s' -> I s'.
Proof.
  intros Hf. revert s. induction l as [|x l IH]; intros s Hs; cbn; [by intros [= <-]|].
  intros (s1 & E & H)%bind_ret_inv. exact (IH _ (Hf _ _ _ Hs E) H).
Qed.

Lemma wordLoop_in P op c o c' :
  (forall x y n k, 0 <= n < 64 -> o !! k = Some y -> Z.testbit (op x y) n = true -> Z.testbit x n = true \/ P (64 * Z.of_nat k + n)) ->
  wordsIn P c -> BitArray.wordLoop op c o = Ret c' -> wordsIn P c'.
Proof.
  intros Hop Hc. unfold BitArray.wordLoop, go_for. apply (go_fold_ret_inv (wordsIn P)); [|done].
  intros i s s' Hs H. apply bind_ret_inv in H as (x & [Hi Hx]%idx_ret & H). apply bind_ret_inv in H as (y & [_ Hy]%idx_ret & H).
  eapply wordsIn_upd; [exact Hs| |exact H]. intros n Hn Hb _. rewrite <- (Z2Nat.id i) by lia.
  destruct (Hop x y n _ Hn Hy Hb) as [|]; [|done]. eapply Hs; eauto.
Qed.

Lemma copyBits_in P b bits c : wordsIn P (BitArray.Elems b) -> BitArray.copyBits b bits = Ret c -> wordsIn P (BitArray.Elems c).
Proof.
  intros Hb H. apply bind_ret_inv in H as (z & Hz & [= <-]). cbn [BitArray.Elems]. apply wordsIn_gocopy; [|done].
  unfold mkslice in Hz. destruct (_ <? 0); [done|]. injection Hz as <-. apply wordsIn_replicate.
Qed.

Lemma NewBitArray_in P n b : BitArray.NewBitArray n = Ret (Some b) -> wordsIn P (BitArray.Elems b).
Proof.
  unfold BitArray.NewBitArray. destruct (n <=? 0); [done|]. intros (z & Hz & [= <-])%bind_ret_inv.
  unfold mkslice in Hz. destruct (_ <? 0); [done|]. injection Hz as <-. apply wordsIn_replicate.
Qed.

Lemma Or_in P a o c : wordsIn P (BitArray.Elems a) -> match o with Some o => wordsIn P (BitArray.Elems o) | None => True end ->
  BitArray.Or (Some a) o = Ret (Some c) -> wordsIn P (BitArray.Elems c).
Proof.
  intros Ha Ho. destruct o as [o|]; cbn [BitArray.Or].
  - intros H. apply bind_ret_inv in H as (d & Hd & H). apply bind_ret_inv in H as (es & Hes & [= <-]). cbn [BitArray.Elems].
    refine (wordLoop_in _ _ _ _ _ _ (copyBits_in _ _ _ _ Ha Hd) Hes).
    intros x y n k Hn Hy. rewrite Z.lor_spec. intros [|]%orb_true_iff; [by left|right; eapply Ho; eauto].
  - cbn. rewrite BitArray.copy_eq. by intros [= <-].
Qed.

Lemma Update_in P a o c : wordsIn P (BitArray.Elems a) -> match o with Some o => wordsIn P (BitArray.Elems o) | None => True end ->
  BitArray.Update (Some a) o = Some c -> wordsIn P (BitArray.Elems c).
Proof. intros Ha Ho. destruct o; cbn; intros [= <-]; [by apply wordsIn_gocopy|done]. Qed.

(** Setting a bit: an index below 0 either panics or sets nothing. *)
Lemma setIndex_in P b i v b' r : wordsIn P (BitArray.Elems b) -> (0 <= i -> v = true -> P i) ->
  BitArray.setIndex b i v = Ret (b', r) -> wordsIn P (BitArray.Elems b').
Proof.
  intros Hb Hi. unfold BitArray.setIndex. destruct (_ <=? i); [by intros [= <- _]|]. intros H.
  apply bind_ret_inv in H as (e & [H0 He]%idx_ret & H). apply bind_ret_inv in H as (es & Hes & [= <- _]). cbn [BitArray.Elems].
  eapply wordsIn_upd; [exact Hb| |exact Hes]. intros n Hn Hbit _.
  assert (Hold : Z.testbit e n = true -> P (64 * (i ÷ 64) + n)) by (intros; rewrite <- (Z2Nat.id (i ÷ 64)) by lia; eapply Hb; eauto).
  destruct v; [|rewrite Z.land_spec in Hbit; apply andb_true_iff in Hbit as [? _]; auto].
  rewrite Z.lor_spec in Hbit. apply orb_true_iff in Hbit as [|Hbit]; [auto|].
  destruct (Z.ltb_spec i 0) as [Hneg|Hpos].
  - exfalso. unfold BitArray.bitmask in Hbit. pose proof (Z.rem_bound_pos_neg i 64 ltac:(lia) ltac:(lia)). pose proof (Z.quot_rem' i 64).
    assert (64 <= uwrap64 (Z.rem i 64)) by (unfold uwrap64, two64; Z.div_mod_to_equations; lia).
    destruct (Z.ltb_spec (uwrap64 (Z.rem i 64)) 64); [lia|]. by rewrite Z.bits_0 in Hbit.
  - rewrite BitArray.bitmask_pow, Z.pow2_bits_eqb in Hbit by (try lia; apply Z.mod_pos_bound; lia). apply Z.eqb_eq in Hbit as <-.
    rewrite Z.quot_div_nonneg, <- Z.div_mod by lia. auto.
Qed.

Lemma getIndex_in P b i : wordsIn P (BitArray.Elems b) -> 0 <= i -> BitArray.getIndex b i = Ret true -> P i.
Proof.
  intros Hb Hi. unfold BitArray.getIndex. destruct (_ <=? i); [done|]. intros H. apply bind_ret_inv in H as (e & [H0 He]%idx_ret & H).
  injection H as H%Z.ltb_lt. rewrite BitArray.bitmask_pow in H by done. pose proof (Z.mod_pos_bound i 64 ltac:(lia)).
  apply (wordsIn_bit P b i Hb Hi). unfold BitArray.bit. rewrite Z.quot_div_nonneg in He by lia. rewrite He.
  destruct (Z.testbit e (i mod 64)) eqn:E; [done|]. exfalso.
  assert (Z.land e (2 ^ (i mod 64)) = 0); [|lia]. apply Z.bits_inj_0. intros n. rewrite Z.land_spec.
  destruct (Z.leb_spec 0 n); [|by rewrite Z.testbit_neg_r, andb_false_l by lia]. rewrite Z.pow2_bits_eqb by lia.
  destruct (Z.eqb_spec (i mod 64) n) as [<-|]; [by rewrite E|apply andb_false_r].
Qed.

Lemma Sub_in P a o c : wordsIn P (BitArray.Elems a) -> BitArray.Sub (Some a) (Some o) = Ret (Some c) -> wordsIn P (BitArray.Elems c).
Proof.
  intros Ha. unfold BitArray.Sub. destruct (_ <? _); intros H.
  - rewrite BitArray.copy_eq in H. apply bind_ret_inv in H as (es & Hes & H). apply bind_ret_inv in H as (d & Hd & [= <-]).
    assert (He : wordsIn P es).
    { revert Hes. apply (go_fold_ret_inv (wordsIn P)); [|done]. intros i s s' Hs H.
      apply bind_ret_inv in H as (x & [Hi Hx]%idx_ret & H). eapply wordsIn_upd; [exact Hs| |exact H].
      intros n Hn. rewrite Z.land_spec. intros [Hb _]%andb_true_iff _. rewrite <- (Z2Nat.id i) by lia. eapply Hs; eauto. }
    destruct (0 <=? _) in Hd; [|by injection Hd as <-]. revert Hd. apply (go_fold_ret_inv (fun d => wordsIn P (BitArray.Elems d))); [|done].
    intros i s s' Hs H. apply bind_ret_inv in H as (x & Hx & H). apply bind_ret_inv in H as (y & Hy & H). apply bind_ret_inv in H as ([s1 r] & Hr & [= <-]).
    eapply setIndex_in; [exact Hs| |exact Hr]. intros Hi [-> _]%andb_true_iff.
    by apply (getIndex_in P s).
  - apply bind_ret_inv in H as (d & Hd & [= <-]). apply bind_ret_inv in Hd as (z & Hz & Hd). apply bind_ret_inv in Hd as (es & Hes & [= <-]). cbn [BitArray.Elems].
    refine (wordLoop_in _ _ _ _ _ _ (copyBits_in _ _ _ _ Ha Hz) Hes).
    intros x y n k Hn Hy. rewrite Z.land_spec. intros [? _]%andb_true_iff. by left.
Qed.

(** ** Which votes the arrays of a peer state speak of *)

(** The votes at a height and round, of a type. *)
Definition role : Type := Z * Z * Z.
(** [J (h, r, t) i]: there is a reason to think that the peer has the vote. *)
Implicit Types (J : role -> Z -> Prop) (own : list (option role)).

Definition holds own (p : ptr) (o : option role) : Prop := forall k, p = Some k -> own !! k = Some o.
Record slotsOK own (p : PeerRoundState) : Prop := mkSlots {
  s_parts : holds own (pr_Parts p) None;
  s_prevotes : holds own (pr_Prevotes p) (Some (pr_Height p, pr_Round p, VoteTypePrevote));
  s_precommits : holds own (pr_Precommits p) (Some (pr_Height p, pr_Round p, VoteTypePrecommit));
  s_catchup : holds own (pr_CatchupCommit p) (Some (pr_Height p, pr_CatchupCommitRound p, VoteTypePrecommit));
  s_pol : holds own (pr_POL p) (Some (pr_Height p, pr_POLRound p, VoteTypePrevote));
  s_last : holds own (pr_LastCommit p) (Some (sub64 (pr_Height p) 1, pr_LastCommitRound p, VoteTypePrecommit)) }.

(** [own] gives each array of the heap the votes it speaks of (none, for the
    parts of a block).  Two names of an array agree on them. *)
Record Own J own (ps : PeerState) : Prop := mkOwn {
  o_len : length own = length (ps_heap ps);
  o_bits : forall k b o, ps_heap ps !! k = Some b -> own !! k = Some (Some o) -> wordsIn (J o) (BitArray.Elems b);
  o_slots : slotsOK own (PRS ps) }.
Definition justified J (ps : PeerState) : Prop := exists own, Own J own ps.

Lemma holds_nil own o : holds own None o.
Proof. done. Qed.
Lemma holds_app own own' p o : holds own p o -> holds (own ++ own') p o.
Proof. intros H k Hk. by apply lookup_app_l_Some, H. Qed.
Lemma slotsOK_app own own' p : slotsOK own p -> slotsOK (own ++ own') p.
Proof. intros []. split; by apply holds_app. Qed.
Lemma justified_mono J J' ps : (forall o i, J o i -> J' o i) -> justified J ps -> justified J' ps.
Proof. intros HJ (own & [? Hb ?]). exists own. split; [done| |done]. intros k b o Hk Ho. eapply wordsIn_mono; [apply HJ|eauto]. Qed.
Lemma NewPeerState_justified J : justified J NewPeerState.
Proof. by exists []. Qed.
#[local] Hint Resolve holds_nil holds_app slotsOK_app : core.

Lemma Own_setPRS J own ps p : Own J own ps -> slotsOK own p -> Own J own (setPRS ps p).
Proof. intros []. by split. Qed.

Lemma alloc_own J own ps b o ps' a : Own J own ps -> alloc ps b = (ps', a) ->
  (forall c o', b = Some c -> o = Some o' -> wordsIn (J o') (BitArray.Elems c)) ->
  exists own', Own J (own ++ own') ps' /\ holds (own ++ own') a o /\ PRS ps' = PRS ps.
Proof.
  intros [Hl Hb Hs] Ha Hc. destruct b as [c|]; cbn in Ha; injection Ha as <- <-.
  - exists [o]. split_and!; [|intros k [= <-]; rewrite <- Hl; by apply list_lookup_middle|done].
    split; cbn; [rewrite !length_app; cbn; lia| |auto]. intros k b o' [Hk|[Hk1 Hk2]]%lookup_app_Some Ho.
    + rewrite lookup_app_l in Ho by (apply lookup_lt_Some in Hk; lia). eauto.
    + apply list_lookup_singleton_Some in Hk2 as [Hk ->]. rewrite lookup_app_r in Ho by lia.
      apply list_lookup_singleton_Some in Ho as [_ [= ->]]. eauto.
  - exists []. rewrite app_nil_r. split_and!; [by split|auto|done].
Qed.
Lemma newArray_own J own ps n o ps' a : Own J own ps -> newArray ps n = Ret (ps', a) ->
  exists own', Own J (own ++ own') ps' /\ holds (own ++ own') a o /\ PRS ps' = PRS ps.
Proof.
  intros Ho H. apply bind_ret_inv in H as (b & Hb & [= H]). eapply alloc_own; [done|exact H|].
  intros c o' -> _. by eapply NewBitArray_in.
Qed.

Lemma write_own J own ps p b : Own J own ps ->
  (forall k c o, p = Some k -> b = Some c -> own !! k = Some (Some o) -> wordsIn (J o) (BitArray.Elems c)) ->
  Own J own (write ps p b) /\ PRS (write ps p b) = PRS ps.
Proof.
  intros [Hl Hb Hs] Hc. destruct p as [k|]; [|by split]. destruct b as [c|]; [|by split]. split; [|done].
  split; cbn; [by rewrite length_insert| |done]. intros j d o Hj Ho.
  destruct (decide (j = k)) as [->|Hne]; [|rewrite list_lookup_insert_ne in Hj by done; eauto].
  rewrite list_lookup_insert_eq in Hj by (rewrite <- Hl; by eapply lookup_lt_Some). simplify_eq. eauto.
Qed.

Lemma setBit_own J own ps p o i ps' : Own J own ps -> holds own p o ->
  (forall o', o = Some o' -> 0 <= i -> J o' i) -> setBit ps p i = Ret ps' -> Own J own ps' /\ PRS ps' = PRS ps.
Proof.
  intros Ho Hp Hi H. apply bind_ret_inv in H as ([b r] & Hb & [= <-]). apply write_own; [done|].
  intros k c o' -> [= ->] Hk. pose proof (Hp k eq_refl). simplify_eq.
  destruct (load ps (Some k)) as [b|] eqn:E; [|done]. cbn in Hb. apply bind_ret_inv in Hb as ([b' r'] & Hb & [= -> _]).
  eapply setIndex_in; [eapply (o_bits _ _ _ Ho); [exact E|done]| |exact Hb]. auto.
Qed.

(** The array that [getVoteBitArray] chooses speaks of the votes asked for. *)
Lemma getVote_holds own p h r t : slotsOK own p -> int64 h -> holds own (getVoteBitArray p h r t) (Some (h, r, t)).
Proof.
  intros [] Hh. unfold getVoteBitArray. destruct (IsVoteTypeValid t) eqn:Ht; [|done]. cbn [negb].
  assert (Ht' : t = VoteTypePrevote \/ t = VoteTypePrecommit).
  { unfold IsVoteTypeValid in Ht. destruct (Z.eqb_spec t VoteTypePrevote); [auto|]. destruct (Z.eqb_spec t VoteTypePrecommit); [auto|done]. }
  destruct (Z.eqb_spec (pr_Height p) h) as [<-|_].
  - destruct (Z.eqb_spec (pr_Round p) r) as [<-|_]; [|destruct (Z.eqb_spec (pr_CatchupCommitRound p) r) as [<-|_]; [|destruct (Z.eqb_spec (pr_POLRound p) r) as [<-|_]]];
      destruct Ht' as [-> | ->]; cbn; auto.
  - destruct (Z.eqb_spec (pr_Height p) (add64 h 1)) as [E|_]; [|done]. destruct (Z.eqb_spec (pr_LastCommitRound p) r) as [<-|_]; [|done].
    replace h with (sub64 (pr_Height p) 1) by (rewrite E; unfold add64, sub64; unfold_int64; Z.div_mod_to_equations; lia).
    destruct Ht' as [-> | ->]; cbn; auto.
Qed.

(** ** Every operation keeps the arrays justified *)

Lemma SetHasProposal_just J ps p ps' : justified J ps -> SetHasProposal ps p = Ret ps' -> justified J ps'.
Proof.
  intros (own & Ho) H. apply bind_ret_inv in H as (pr & _ & H). cbv zeta in H. destruct (_ || _) in H; [go_inv; by exists own|].
  destruct (pr_Proposal _) in H; [go_inv; by exists own|]. apply bind_ret_inv in H as ([ps1 a] & H1 & [= <-]).
  destruct (newArray_own _ _ _ _ None _ _ Ho H1) as (own' & Ho' & Ha & _). exists (own ++ own'). apply Own_setPRS; [done|].
  destruct (o_slots _ _ _ Ho). split; cbn; auto.
Qed.
Lemma InitProposalBlockParts_just J ps h ps' : justified J ps -> InitProposalBlockParts ps h = Ret ps' -> justified J ps'.
Proof.
  intros (own & Ho). unfold InitProposalBlockParts. destruct (pr_Parts _); intros H; [go_inv; by exists own|].
  apply bind_ret_inv in H as ([ps1 a] & H1 & [= <-]).
  destruct (newArray_own _ _ _ _ None _ _ Ho H1) as (own' & Ho' & Ha & _). exists (own ++ own'). apply Own_setPRS; [done|].
  destruct (o_slots _ _ _ Ho). split; cbn; auto.
Qed.
Lemma SetHasProposalBlockPart_just J ps h r i ps' : justified J ps -> SetHasProposalBlockPart ps h r i = Ret ps' -> justified J ps'.
Proof.
  intros (own & Ho). unfold SetHasProposalBlockPart. destruct (_ || _); intros H; [go_inv; by exists own|].
  exists own. by eapply (setBit_own _ _ _ _ None _ _ Ho); [apply (o_slots _ _ _ Ho)| |exact H].
Qed.
Lemma ensureCatchup_just J ps h r n ps' : justified J ps -> ensureCatchupCommitRound ps h r n = Ret ps' -> justified J ps'.
Proof.
  intros (own & Ho). unfold ensureCatchupCommitRound. destruct (negb _); intros H; [go_inv; by exists own|].
  destruct (_ =? r); [go_inv; by exists own|]. destruct (Z.eqb_spec r (pr_Round (PRS ps))) as [-> |_].
  - go_inv. exists own. apply Own_setPRS; [done|]. destruct (o_slots _ _ _ Ho). by split.
  - apply bind_ret_inv in H as ([ps1 a] & H1 & [= <-]).
    destruct (newArray_own _ _ _ _ (Some (pr_Height (PRS ps), r, VoteTypePrecommit)) _ _ Ho H1) as (own' & Ho' & Ha & _).
    exists (own ++ own'). apply Own_setPRS; [done|]. destruct (o_slots _ _ _ Ho). split; cbn; auto.
Qed.
Lemma ensureArray_just J ps get put n ps' : justified J ps -> ensureArray ps get put n = Ret ps' ->
  (exists o, forall own a, slotsOK own (PRS ps) -> holds own a o -> slotsOK own (put a (PRS ps))) -> justified J ps'.
Proof.
  intros (own & Ho) H (o & Hput). unfold ensureArray in H. destruct (get _); [go_inv; by exists own|].
  apply bind_ret_inv in H as ([ps1 a] & H1 & [= <-]). destruct (newArray_own _ _ _ _ o _ _ Ho H1) as (own' & Ho' & Ha & HP).
  exists (own ++ own'). apply Own_setPRS; [done|]. rewrite HP. apply Hput; [|done]. apply slotsOK_app, (o_slots _ _ _ Ho).
Qed.
Lemma ensureVote_just J ps h n ps' : justified J ps -> ensureVoteBitArrays ps h n = Ret ps' -> justified J ps'.
Proof.
  intros Hj. unfold ensureVoteBitArrays. destruct (_ =? h).
  - intros H. apply bind_ret_inv in H as (p1 & H1 & H). apply bind_ret_inv in H as (p2 & H2 & H). apply bind_ret_inv in H as (p3 & H3 & H).
    eapply (ensureArray_just J p3); [eapply (ensureArray_just J p2); [eapply (ensureArray_just J p1); [eapply (ensureArray_just J ps); [exact Hj|exact H1|]|exact H2|]|exact H3|]|exact H|];
      eexists; intros own a [] Ha; split; cbn; eauto.
  - destruct (_ =? add64 h 1); intros H; [|by go_inv]. eapply ensureArray_just; [exact Hj|exact H|].
    eexists; intros own a [] Ha; split; cbn; eauto.
Qed.
Lemma setHasVote_just J ps h r t i ps' : justified J ps -> int64 h -> (0 <= i -> J (h, r, t) i) -> setHasVote ps h r t i = Ret ps' -> justified J ps'.
Proof.
  intros (own & Ho) Hh Hi. unfold setHasVote. pose proof (getVote_holds own (PRS ps) h r t (o_slots _ _ _ Ho) Hh) as Hg.
  destruct (getVoteBitArray _ _ _ _); intros H; [|go_inv; by exists own].
  exists own. eapply setBit_own; [done|exact Hg| |exact H]. intros o' [= <-]. auto.
Qed.
Lemma ApplyNewRoundStep_just J ps now h r s sec lcr : justified J ps -> justified J (ApplyNewRoundStepMessage ps now h r s sec lcr).
Proof.
  intros (own & Ho). exists own. unfold ApplyNewRoundStepMessage. destruct (_ <=? 0); [done|]. apply Own_setPRS; [done|].
  destruct (o_slots _ _ _ Ho).
  destruct (Z.eqb_spec (pr_Height (PRS ps)) h) as [<-|]; destruct (Z.eqb_spec (pr_Round (PRS ps)) r) as [<-|]; cbn [negb orb andb].
  - by split.
  - destruct (Z.eqb_spec r (pr_CatchupCommitRound (PRS ps))) as [->|]; split; cbn; auto.
  - destruct (_ && _); split; cbn; auto.
  - destruct (_ && _); split; cbn; auto.
Qed.
Lemma ApplyCommitStep_just J ps h hdr parts : justified J ps -> justified J (ApplyCommitStepMessage ps h hdr parts).
Proof.
  intros (own & Ho). unfold ApplyCommitStepMessage. destruct (negb _); [by exists own|].
  destruct (alloc ps parts) as [ps1 a] eqn:E. destruct (alloc_own J _ _ _ None _ _ Ho E) as (own' & Ho' & Ha & _); [done|].
  exists (own ++ own'). apply Own_setPRS; [done|]. destruct (o_slots _ _ _ Ho). split; cbn; auto.
Qed.
Lemma ApplyProposalPOL_just J ps h r pol : justified J ps ->
  (forall b, pol = Some b -> wordsIn (J (h, r, VoteTypePrevote)) (BitArray.Elems b)) -> justified J (ApplyProposalPOLMessage ps h r pol).
Proof.
  intros (own & Ho) Hb. unfold ApplyProposalPOLMessage. destruct (Z.eqb_spec (pr_Height (PRS ps)) h) as [<-|]; cbn [negb]; [|by exists own].
  destruct (Z.eqb_spec (pr_POLRound (PRS ps)) r) as [<-|]; cbn [negb]; [|by exists own].
  destruct (alloc ps pol) as [ps1 a] eqn:E. destruct (alloc_own J _ _ _ (Some (pr_Height (PRS ps), pr_POLRound (PRS ps), VoteTypePrevote)) _ _ Ho E) as (own' & Ho' & Ha & _);
    [intros c o' -> [= <-]; auto|].
  exists (own ++ own'). apply Own_setPRS; [done|]. destruct (o_slots _ _ _ Ho). split; cbn; auto.
Qed.
Lemma ApplyVoteSetBits_just J ps h r t bits ours ps' : justified J ps -> int64 h ->
  (forall b, bits = Some b -> wordsIn (J (h, r, t)) (BitArray.Elems b)) -> ApplyVoteSetBitsMessage ps h r t bits ours = Ret ps' -> justified J ps'.
Proof.
  intros (own & Ho) Hh Hb. unfold ApplyVoteSetBitsMessage. pose proof (getVote_holds own (PRS ps) h r t (o_slots _ _ _ Ho) Hh) as Hg.
  destruct (getVoteBitArray _ _ _ _) as [a|]; [|intros; go_inv; by exists own]. specialize (Hg a eq_refl).
  assert (Hm : match bits with Some o => wordsIn (J (h, r, t)) (BitArray.Elems o) | None => True end) by (destruct bits; auto).
  destruct ours as [ours|]; intros H.
  - apply bind_ret_inv in H as (b1 & H1 & H). apply bind_ret_inv in H as (b2 & H2 & [= <-]). exists own.
    refine (proj1 (write_own J own ps (Some a) (BitArray.Update (load ps (Some a)) b2) Ho _)). intros k c o [= <-] Hc Hk. simplify_eq. destruct (load ps (Some a)) as [b|] eqn:E; [|done].
    pose proof (o_bits _ _ _ Ho _ _ _ E Hg) as Hold. eapply Update_in; [exact Hold| |exact Hc].
    destruct b2 as [b2|]; [|done]. destruct b1 as [b1|]; [|by cbn in H1; destruct (_ <? _); go_inv].
    eapply Or_in; [|exact Hm|exact H2]. by eapply Sub_in.
  - injection H as <-. exists own. refine (proj1 (write_own J own ps (Some a) (BitArray.Update (load ps (Some a)) bits) Ho _)). intros k c o [= <-] Hc Hk. simplify_eq.
    destruct (load ps (Some a)) as [b|] eqn:E; [|done]. eapply Update_in; [exact (o_bits _ _ _ Ho _ _ _ E Hg)|exact Hm|exact Hc].
Qed.

(** ** Readers of votes *)

(** What the reactor relies on in a vote set or a commit: its bit array shows
    the votes it has, and each of them carries its height, round, type and
    index. *)
Definition voteRole (v : Vote) : role := (v_Height v, v_Round v, v_Type v).
Class ReaderOK (votes : VoteSetReader) : Prop := {
  ro_height : int64 (vr_Height votes);
  ro_votes : vr_Size votes = 0 \/ exists ours, vr_BitArray votes = Ret (Some ours) /\ BitArray.wf ours /\ BitArray.Bits ours = vr_Size votes /\
    forall i, 0 <= i < vr_Size votes -> BitArray.bit ours i = true ->
      exists v, vr_GetByIndex votes i = Ret (Some v) /\ voteRole v = (vr_Height votes, vr_Round votes, vr_Type votes) /\ v_ValidatorIndex v = i }.

#[export] Instance nil_set_ok : ReaderOK (ofVoteSet None).
Proof. split; [done|by left]. Qed.
#[export] Instance nil_commit_ok : ReaderOK (ofCommit None).
Proof. split; [done|by left]. Qed.

(** A vote set that keeps its invariant. *)
Lemma voteset_ok `{Codec} `{Curves} vs : VoteSet.Inv vs -> int64 (VoteSet.vs_height vs) -> ReaderOK (ofVoteSet (Some vs)).
Proof.
  intros Hinv Hh. pose proof (VoteSet.inv_core _ _ Hinv) as Hi. split; [done|]. cbn. pose proof (VoteSet.inv_bits _ _ Hi) as Hb. pose proof (VoteSet.inv_len _ _ Hi) as Hl.
  destruct (VoteSet.vs_votesBitArray vs) as [b|]; cbn in Hb.
  - right. exists b. destruct Hb as (Hw & Hn & Hbit). unfold BitArray.Copy. rewrite BitArray.copy_eq.
    assert (Hsz : zlen (VoteSet.vs_votes vs) = Size (VoteSet.vs_valSet vs)).
    { unfold zlen, Size. by rewrite Hl. }
    split_and!; [done|done|congruence|]. intros i Hir Hbi. rewrite Hbit in Hbi by lia. unfold BitArray.present in Hbi.
    destruct (idx_total (VoteSet.vs_votes vs) i) as (o & E & Hlk); [lia|]. rewrite Hlk in Hbi. destruct o as [v|]; [|done].
    exists v. split; [done|]. pose proof (VoteSet.inv_votes _ _ Hi _ _ Hlk) as (Hv1 & Hv2 & Hv3 & Hv4 & _).
    unfold voteRole. rewrite Hv2, Hv3, Hv4. split; [done|]. lia.
  - left. unfold Size, zlen. unfold VoteSet.vals in Hl. rewrite <- Hl, Hb. done.
Qed.

(** The difference of an array with whatever a peer sent. *)
Lemma upd_words l i e l' : upd l i e = Ret l' -> (0 <= e < two64) -> Forall (fun e => 0 <= e < two64) l ->
  zlen l' = zlen l /\ Forall (fun e => 0 <= e < two64) l'.
Proof.
  unfold upd. destruct (_ || _); [done|]. intros [= <-] He Hl. split; [by rewrite zlen_insert|by apply Forall_insert].
Qed.
Lemma land_word e f : 0 <= e < two64 -> 0 <= Z.land e f < two64.
Proof.
  intros He. apply BitArray.bits_lt_two64; [apply Z.land_nonneg; lia|]. intros n Hn. by rewrite Z.land_spec, BitArray.testbit_high.
Qed.
Lemma bitmask_word i : 0 <= BitArray.bitmask i < two64.
Proof.
  unfold BitArray.bitmask. destruct (Z.ltb_spec (uwrap64 (Z.rem i 64)) 64); [|unfold two64; lia].
  pose proof (Z.mod_pos_bound (Z.rem i 64) two64 ltac:(unfold two64; lia)). unfold uwrap64 in *. rewrite Z.shiftl_1_l. split; [lia|].
  change two64 with (2 ^ 64) at 2. apply Z.pow_lt_mono_r; lia.
Qed.
Lemma setIndex_wf b i v b' r : BitArray.wf b -> BitArray.setIndex b i v = Ret (b', r) -> BitArray.wf b' /\ BitArray.Bits b' = BitArray.Bits b.
Proof.
  intros Hb Hr. unfold BitArray.setIndex in Hr. destruct (_ <=? i) in Hr; [by injection Hr as <- _|].
  apply bind_ret_inv in Hr as (e & [Hi He]%idx_ret & Hr). apply bind_ret_inv in Hr as (l & Hl & [= <- _]). split; [|done].
  pose proof (BitArray.wf_words _ _ _ Hb He) as Hw. destruct Hb as (H0 & H1 & H2).
  destruct (upd_words _ _ _ _ Hl) as [E F]; [|done|split_and!; cbn; [done|congruence|done]].
  destruct v; [apply BitArray.lor_range; [done|apply bitmask_word]|by apply land_word].
Qed.
Lemma Sub_wf a o c : BitArray.wf a -> BitArray.Sub (Some a) (Some o) = Ret (Some c) -> BitArray.wf c /\ BitArray.Bits c = BitArray.Bits a.
Proof.
  intros Ha. pose proof Ha as (H0 & Hl & Hf). unfold BitArray.Sub. destruct (Z.ltb_spec (BitArray.Bits o) (BitArray.Bits a)) as [Hlt|Hge]; intros H.
  - rewrite BitArray.copy_eq in H. apply bind_ret_inv in H as (es & Hes & H). apply bind_ret_inv in H as (d & Hd & [= <-]).
    assert (He : BitArray.wf (BitArray.mkBitArray (BitArray.Bits a) es)).
    { revert Hes. apply (go_fold_ret_inv (fun es => BitArray.wf (BitArray.mkBitArray (BitArray.Bits a) es))); [|done].
      intros i s s' (Hs0 & Hs1 & Hs2) H. apply bind_ret_inv in H as (x & [Hi Hx]%idx_ret & H). cbn in Hs1, Hs2.
      destruct (upd_words _ _ _ _ H) as [E F]; [|done|split_and!; cbn; [done|congruence|done]].
      apply land_word. exact (BitArray.word_range _ _ _ _ Hs2 Hx). }
    destruct (0 <=? _) in Hd; [|by injection Hd as <-].
    revert Hd. apply (go_fold_ret_inv (fun d => BitArray.wf d /\ BitArray.Bits d = BitArray.Bits a)); [|done].
    intros i s s' (Hs & Hsb) H. apply bind_ret_inv in H as (x & Hx & H). apply bind_ret_inv in H as (y & Hy & H). apply bind_ret_inv in H as ([s1 r] & Hr & [= <-]).
    apply setIndex_wf in Hr as [? ?]; [|done]. split; [done|]. cbn [fst]. congruence.
  - apply bind_ret_inv in H as (d & Hd & [= <-]). apply bind_ret_inv in Hd as (z & Hz & Hd). apply bind_ret_inv in Hd as (es & Hes & [= <-]).
    cbn [BitArray.not BitArray.Bits BitArray.copy] in Hz. rewrite Z.min_l in Hz by lia.
    destruct (BitArray.copyBits_spec a (BitArray.Bits a) Ha H0) as (z' & Ez & Hz1 & Hz2). rewrite Ez in Hz. injection Hz as <-. cbn [BitArray.Bits BitArray.Elems] in *.
    split; [|done]. revert Hes. apply (go_fold_ret_inv (fun es => BitArray.wf (BitArray.mkBitArray (BitArray.Bits a) es))).
    + intros i s s' (Hs0 & Hs1 & Hs2) H. apply bind_ret_inv in H as (x & [Hi Hx]%idx_ret & H). apply bind_ret_inv in H as (y & _ & H). cbn in Hs1, Hs2.
      destruct (upd_words _ _ _ _ H) as [E F]; [|done|split_and!; cbn; [done|congruence|done]].
      apply land_word. exact (BitArray.word_range _ _ _ _ Hs2 Hx).
    + split_and!; [done|done|]. cbn. apply Forall_lookup. intros k e Hk. rewrite (Hz2 k) in Hk by (by eapply lookup_lt_Some). injection Hk as <-. by apply BitArray.word_wf.
Qed.

Section Justified.
Context (RandIntn : nat -> Z -> Z).
Context (RandIntn_range : forall k n, 0 < n -> 0 <= RandIntn k n < n).

Lemma prepare_just J ps votes ps' : justified J ps -> prepare ps votes = Ret ps' -> justified J ps'.
Proof.
  intros Hj H. apply bind_ret_inv in H as (p1 & H1 & H2). eapply ensureVote_just; [|exact H2].
  destruct (vr_IsCommit votes); [by eapply ensureCatchup_just|by go_inv].
Qed.

(** A picked vote is one of ours, whatever the peer's array looks like. *)
Lemma pick_ours ours theirs missing i : BitArray.wf ours -> BitArray.Sub (Some ours) theirs = Ret missing ->
  BitArray.PickRandom RandIntn missing = Ret (i, true) -> 0 <= i < BitArray.Bits ours /\ BitArray.bit ours i = true.
Proof.
  intros Hw Hs Hp. destruct missing as [m|]; [|done]. destruct theirs as [o|]; [|done].
  destruct (Sub_wf _ _ _ Hw Hs) as [Hm Hb].
  destruct (BitArray.PickRandom_spec RandIntn RandIntn_range m Hm) as [(j & E & Hj & Hbit)|[E _]]; rewrite E in Hp; [|done].
  injection Hp as ->. split; [lia|]. eapply (wordsIn_bit (fun j => 0 <= j /\ BitArray.bit ours j = true)); [|apply Hj|exact Hbit].
  eapply Sub_in; [apply bit_wordsIn|exact Hs].
Qed.

Lemma PickVoteToSend_just J ps votes ps' res : ReaderOK votes -> justified J ps -> PickVoteToSend RandIntn ps votes = Ret (ps', res) ->
  (forall v, res = Some (Some v) -> J (voteRole v) (v_ValidatorIndex v)) -> justified J ps'.
Proof.
  intros Hro Hj. unfold PickVoteToSend. destruct (Z.eqb_spec (vr_Size votes) 0) as [|Hne]; [intros; by go_inv|]. intros H HJ.
  apply bind_ret_inv in H as (p1 & H1 & H). pose proof (prepare_just _ _ _ _ Hj H1) as Hj1.
  destruct (getVoteBitArray _ _ _ _) as [a|]; [|by go_inv].
  destruct (ro_votes (votes := votes)) as [|(ours & Eo & Hw & Hb & Hv)]; [done|]. rewrite Eo in H. cbn [mbind go_mbind] in H.
  apply bind_ret_inv in H as (m & Hm & H). apply bind_ret_inv in H as ([i ok] & Hp & H). destruct ok; [|by go_inv].
  destruct (pick_ours _ _ _ _ Hw Hm Hp) as [Hir Hbit]. destruct (Hv i ltac:(lia) Hbit) as (v & Hg & Hr & Hi).
  apply bind_ret_inv in H as (p2 & H2 & H). rewrite Hg in H. injection H as <- <-.
  eapply setHasVote_just; [exact Hj1|apply ro_height| |exact H2]. intros _. rewrite <- Hr, <- Hi. by apply HJ.
Qed.

(** The votes among the messages handed to [peer.Send]. *)
Definition sentVote (out : sent) (o : role) (i : Z) : Prop :=
  exists v, (VoteChannel, StateMessage (VoteMessage (Some v))) ∈ out /\ voteRole v = o /\ v_ValidatorIndex v = i.

Lemma PickSendVote_just J ps votes sendOK ps' out picked : ReaderOK votes -> justified J ps ->
  PickSendVote RandIntn ps votes sendOK = Ret (ps', out, picked) -> (forall o i, sentVote out o i -> J o i) -> justified J ps'.
Proof.
  intros Hro Hj H HJ. apply bind_ret_inv in H as ([p r] & H1 & H). destruct r as [v|]; injection H as <- <- <-.
  - eapply PickVoteToSend_just; [exact Hro|exact Hj|exact H1|]. intros v' [= ->]. apply HJ. exists v'. split; [apply list_elem_of_here|done].
  - eapply PickVoteToSend_just; [exact Hro|exact Hj|exact H1|]. done.
Qed.
End Justified.

(** ** Runs of a peer state *)

Section Runs.
Context `{Codec} `{Curves} {store : BlockStoreRPC}.

(** What changes a peer state: a message of the peer, a turn of
    [gossipDataRoutine] or of [gossipVotesRoutine].  The snapshots may be of
    any earlier moment. *)
Inductive event :=
| Recv (fastSync : bool) (rs : RoundState) (peer : bytes) (now : Time) (chID : Z) (msg : ConsensusMessage)
| DataTurn (RandIntn : nat -> Z -> Z) (rs : RoundState) (parts : list PartSet.PartSet) (prs : PeerRoundState) (sendOK : bool)
| VotesTurn (RandIntn : nat -> Z -> Z) (sleeping : Z) (rs : RoundState) (prs : PeerRoundState) (sendOK : bool).
Definition runEvent (e : event) (ps : PeerState) : go (PeerState * sent) :=
  match e with
  | Recv fastSync rs peer now chID msg => r ← dispatch fastSync ps rs peer now chID msg; Ret (r.1.1, [])
  | DataTurn rand rs parts prs sendOK => r ← gossipData rand rs parts prs ps sendOK; Ret r.1
  | VotesTurn rand sleeping rs prs sendOK => r ← gossipVotes rand sleeping rs prs ps sendOK; Ret r.1
  end.
Inductive runs : list (event * sent) -> PeerState -> Prop :=
| runs_new : runs [] NewPeerState
| runs_step l e out ps ps' : runs l ps -> runEvent e ps = Ret (ps', out) -> runs (l ++ [(e, out)]) ps'.

(** The votes that a message of the peer says it has. *)
Definition claims (msg : ConsensusMessage) (o : role) (i : Z) : Prop :=
  match msg with
  | HasVoteMessage h r t j => o = (h, r, t) /\ i = j
  | VoteSetBitsMessage h r t _ (Some b) => o = (h, r, t) /\ BitArray.bit b i = true
  | ProposalPOLMessage h r (Some b) => o = (h, r, VoteTypePrevote) /\ BitArray.bit b i = true
  | StateMessage (VoteMessage (Some v)) => o = voteRole v /\ i = v_ValidatorIndex v
  | _ => False
  end.
Definition evidence (x : event * sent) (o : role) (i : Z) : Prop :=
  match x.1 with Recv _ _ _ _ _ msg => claims msg o i | _ => False end \/ sentVote x.2 o i.

(** Heights are [int64]. *)
Definition heightOK (msg : ConsensusMessage) : Prop :=
  match msg with
  | HasVoteMessage h _ _ _ | VoteSetBitsMessage h _ _ _ _ => int64 h
  | StateMessage (VoteMessage (Some v)) => int64 (v_Height v)
  | _ => True
  end.
(** The vote sets of the round state and the commits of the store are in order. *)
Definition votesOK (rs : RoundState) : Prop :=
  ReaderOK (ofVoteSet (LastCommit rs)) /\
  forall hvs r vs, Votes rs = Some hvs -> HeightVoteSet.Prevotes hvs r = Ret vs \/ HeightVoteSet.Precommits hvs r = Ret vs -> ReaderOK (ofVoteSet vs).
Definition eventOK (e : event) : Prop :=
  match e with
  | Recv _ _ _ _ _ msg => heightOK msg
  | DataTurn _ _ _ _ _ => True
  | VotesTurn rand _ rs _ _ =>
      (forall k n, 0 < n -> 0 <= rand k n < n) /\ votesOK rs /\ forall h c, LoadBlockCommit h = Ret c -> ReaderOK (ofCommit c)
  end.

Lemma bits_claimed J b (o : role) : (forall i, 0 <= i -> BitArray.bit b i = true -> J o i) -> wordsIn (J o) (BitArray.Elems b).
Proof. intros HJ. eapply wordsIn_mono; [|apply bit_wordsIn]. cbn. intros j [? ?]. auto. Qed.

Lemma receiveState_just J ps rs peer now msg r : justified J ps -> heightOK msg -> (forall o i, claims msg o i -> J o i) ->
  receiveState ps rs peer now msg = Ret r -> justified J r.1.1.
Proof.
  intros Hj Hh HJ Hr. destruct msg; cbn in Hr; try (go_inv; done).
  - go_inv. by apply ApplyNewRoundStep_just.
  - go_inv. by apply ApplyCommitStep_just.
  - apply bind_ret_inv in Hr as (p & Hp & [= <-]). unfold ApplyHasVoteMessage in Hp. destruct (negb _) in Hp; [by go_inv|].
    eapply setHasVote_just; [exact Hj|exact Hh| |exact Hp]. intros _. by apply HJ.
  - destruct (negb _) in Hr; [by go_inv|]. apply bind_ret_inv in Hr as (v & _ & Hr). apply bind_ret_inv in Hr as ([v' ok] & _ & Hr).
    destruct ok; cbn [negb] in Hr; [|by go_inv]. apply bind_ret_inv in Hr as ([?|] & _ & Hr); by go_inv.
Qed.

Lemma receiveData_just J ps msg r : justified J ps -> (forall o i, claims msg o i -> J o i) -> receiveData ps msg = Ret r -> justified J r.1.
Proof.
  intros Hj HJ Hr. destruct msg as [| |h r' pol| | | | |m]; cbn in Hr; try (go_inv; done).
  - go_inv. apply ApplyProposalPOL_just; [done|]. intros b ->. apply bits_claimed. intros i _ Hb. by apply HJ.
  - destruct m as [p|h r' part|v]; [| |by go_inv].
    + apply bind_ret_inv in Hr as (p1 & Hp & [= <-]). by eapply SetHasProposal_just.
    + apply bind_ret_inv in Hr as (pt & _ & Hr). apply bind_ret_inv in Hr as (p1 & Hp & Hr).
      eapply SetHasProposalBlockPart_just in Hp; [|done]. unfold RecordBlockPart in Hr. destruct (_ <=? _) in Hr; injection Hr as <-; [done|].
      by destruct Hp as (own & []); exists own.
Qed.

Lemma receiveVote_just J ps rs msg r : justified J ps -> heightOK msg -> (forall o i, claims msg o i -> J o i) ->
  receiveVote ps rs msg = Ret r -> justified J r.1.
Proof.
  intros Hj Hh HJ Hr. destruct msg as [| | | | | | |m]; cbn in Hr; try (go_inv; done). destruct m as [p|h r' part|v]; [by go_inv|by go_inv|].
  apply bind_ret_inv in Hr as (vals & _ & Hr). apply bind_ret_inv in Hr as (p1 & H1 & Hr). apply bind_ret_inv in Hr as (p2 & H2 & Hr).
  apply bind_ret_inv in Hr as (p3 & H3 & Hr). apply bind_ret_inv in Hr as ([p4 n] & H4 & [= <-]). cbn [fst].
  assert (H5 : justified J p3).
  { apply bind_ret_inv in H3 as (w & Hw & H3). destruct v as [v|]; [|done]. injection Hw as <-.
    eapply setHasVote_just; [|exact Hh| |exact H3]; [|intros _; by apply HJ]. eapply ensureVote_just; [|exact H2]. by eapply ensureVote_just. }
  apply bind_ret_inv in H4 as (w & _ & H4). cbv zeta in H4. destruct (_ <=? _) in H4; injection H4 as <- _; [done|]. by destruct H5 as (own & []); exists own.
Qed.

Lemma receiveBits_just J ps rs msg r : justified J ps -> heightOK msg -> (forall o i, claims msg o i -> J o i) ->
  receiveBits ps rs msg = Ret r -> justified J r.1.
Proof.
  intros Hj Hh HJ Hr. destruct msg as [| | | | |h r' t bid bits| |m]; cbn in Hr; try (go_inv; done).
  assert (Hb : forall b, bits = Some b -> wordsIn (J (h, r', t)) (BitArray.Elems b)) by (intros b ->; apply bits_claimed; intros i _ ?; by apply HJ).
  destruct (_ =? h) in Hr.
  - apply bind_ret_inv in Hr as (v & _ & Hr). apply bind_ret_inv in Hr as ([o|] & _ & Hr); [|by go_inv].
    apply bind_ret_inv in Hr as (p & Hp & [= <-]). by eapply ApplyVoteSetBits_just.
  - apply bind_ret_inv in Hr as (p & Hp & [= <-]). by eapply ApplyVoteSetBits_just.
Qed.

Lemma dispatch_just J fs ps rs peer now chID msg r : justified J ps -> heightOK msg -> (forall o i, claims msg o i -> J o i) ->
  dispatch fs ps rs peer now chID msg = Ret r -> justified J r.1.1.
Proof.
  intros Hj Hh HJ. unfold dispatch. destruct (_ =? StateChannel); [by apply receiveState_just|].
  destruct (_ =? DataChannel); [|destruct (_ =? VoteChannel); [|destruct (_ =? VoteSetBitsChannel); [|intros; by go_inv]]];
    (destruct fs; [intros; by go_inv|]); intros Hr; apply bind_ret_inv in Hr as ([p e] & Hp & [= <-]); cbn [fst].
  - by eapply (receiveData_just J ps msg (p, e)).
  - by eapply (receiveVote_just J ps rs msg (p, e)).
  - by eapply (receiveBits_just J ps rs msg (p, e)).
Qed.

Lemma gossipDataForCatchup_just J rand prs ps ok r : justified J ps -> gossipDataForCatchup rand prs ps ok = Ret r -> justified J r.1.1.
Proof.
  intros Hj Hr. apply bind_ret_inv in Hr as ([i b] & _ & Hr). destruct b; [|by go_inv]. apply bind_ret_inv in Hr as ([meta|] & _ & Hr); [|by go_inv].
  destruct (negb _) in Hr; [by go_inv|]. apply bind_ret_inv in Hr as ([part|] & _ & Hr); [|by go_inv]. apply bind_ret_inv in Hr as (p & Hp & [= <-]).
  destruct ok; [by eapply SetHasProposalBlockPart_just|by go_inv].
Qed.
Lemma gossipData_just J rand rs parts prs ps ok r : justified J ps -> gossipData rand rs parts prs ps ok = Ret r -> justified J r.1.1.
Proof.
  intros Hj Hr. apply bind_ret_inv in Hr as ([i s] & _ & Hr). destruct s as [s|].
  - apply bind_ret_inv in Hr as (part & _ & Hr). apply bind_ret_inv in Hr as (p & Hp & [= <-]).
    destruct ok; [by eapply SetHasProposalBlockPart_just|by go_inv].
  - destruct (_ && _) in Hr.
    + destruct (pr_Parts prs); [by eapply gossipDataForCatchup_just|]. apply bind_ret_inv in Hr as ([meta|] & _ & Hr); [|done].
      apply bind_ret_inv in Hr as (p & Hp & [= <-]). by eapply InitProposalBlockParts_just.
    + destruct (_ || _) in Hr; [by go_inv|]. destruct (Proposal_ rs) as [pr|]; [|by go_inv]. destruct (pr_Proposal prs); [by go_inv|].
      apply bind_ret_inv in Hr as (p & Hp & Hr). apply bind_ret_inv in Hr as (pol & _ & [= <-]).
      destruct ok; [by eapply SetHasProposal_just|by go_inv].
Qed.

Lemma sentVote_app_l out out' o i : sentVote out o i -> sentVote (out ++ out') o i.
Proof. intros (v & Hv & ?). exists v. split; [set_solver|done]. Qed.
Lemma sentVote_app_r out out' o i : sentVote out' o i -> sentVote (out ++ out') o i.
Proof. intros (v & Hv & ?). exists v. split; [set_solver|done]. Qed.

Lemma trySets_just J rand l ps ok ps' out picked : (forall k n, 0 < n -> 0 <= rand k n < n) ->
  Forall (fun c => forall vs, c.2 = Ret vs -> ReaderOK (ofVoteSet vs)) l -> justified J ps ->
  trySets rand l ps ok = Ret (ps', out, picked) -> (forall o i, sentVote out o i -> J o i) -> justified J ps'.
Proof.
  intros Hrand. revert ps out. induction l as [|[g c] l IH]; intros ps out Hl Hj Hr HJ; cbn in Hr; [by go_inv|].
  apply Forall_cons in Hl as [Hc Hl]. destruct g; [|by eapply IH].
  apply bind_ret_inv in Hr as (vs & Hvs & Hr). apply bind_ret_inv in Hr as ([[p1 o1] pk] & H1 & Hr). cbn [snd] in Hc.
  destruct pk; [go_inv; eapply PickSendVote_just; [done|by apply Hc|exact Hj|exact H1|done]|].
  apply bind_ret_inv in Hr as ([[p2 o2] pk2] & H2 & [= <- <- <-]).
  eapply (IH p1 o2); [done| |exact H2|].
  - eapply PickSendVote_just; [done|by apply Hc|exact Hj|exact H1|]. intros o i Hs. by apply HJ, sentVote_app_l.
  - intros o i Hs. by apply HJ, sentVote_app_r.
Qed.

Lemma candidates_ok rs prs : votesOK rs -> Forall (fun c => forall vs, c.2 = Ret vs -> ReaderOK (ofVoteSet vs)) (heightCandidates rs prs).
Proof.
  intros [Hl Hv]. unfold heightCandidates.
  repeat (apply Forall_cons; split; [cbn [snd]; intros vs E|]); [by go_inv|..|by apply Forall_nil];
    apply bind_ret_inv in E as (hvs & Hh & E); (destruct (Votes rs) as [hvs'|]; [|done]); injection Hh as ->; eauto.
Qed.

Lemma gossipVotes_just J rand sl rs prs ps ok ps' out sl' : eventOK (VotesTurn rand sl rs prs ok) -> justified J ps ->
  gossipVotes rand sl rs prs ps ok = Ret (ps', out, sl') -> (forall o i, sentVote out o i -> J o i) -> justified J ps'.
Proof.
  intros (Hrand & Hv & Hc) Hj Hr HJ. unfold gossipVotes in Hr. cbv zeta in Hr.
  apply bind_ret_inv in Hr as ([[p1 o1] pk1] & H1 & Hr).
  assert (Hj1 : (forall o i, sentVote o1 o i -> J o i) -> justified J p1).
  { intros. destruct (_ =? _) in H1; [|by go_inv]. eapply trySets_just; [done|by apply candidates_ok|exact Hj|exact H1|done]. }
  destruct pk1; [go_inv; auto|].
  apply bind_ret_inv in Hr as ([[p2 o2] pk2] & H2 & Hr).
  assert (Hj2 : (forall o i, sentVote (o1 ++ o2) o i -> J o i) -> justified J p2).
  { intros HJ'. assert (justified J p1) by (apply Hj1; intros; by apply HJ', sentVote_app_l). destruct (_ && _) in H2; [|by go_inv].
    eapply PickSendVote_just; [done|apply Hv|done|exact H2|]. intros. by apply HJ', sentVote_app_r. }
  destruct pk2; [go_inv; auto|].
  apply bind_ret_inv in Hr as ([[p3 o3] pk3] & H3 & Hr).
  assert (Hj3 : (forall o i, sentVote (o1 ++ o2 ++ o3) o i -> J o i) -> justified J p3).
  { intros HJ'. assert (justified J p2) by (apply Hj2; intros; apply HJ'; rewrite app_assoc; by apply sentVote_app_l).
    destruct (_ && _) in H3; [|by go_inv]. apply bind_ret_inv in H3 as (c & Hlc & H3).
    eapply PickSendVote_just; [done|by eapply Hc|done|exact H3|]. intros. by apply HJ', sentVote_app_r, sentVote_app_r. }
  destruct pk3; [go_inv; auto|]. apply bind_ret_inv in Hr as (x & _ & [= <- <- _]). auto.
Qed.

Lemma runEvent_just J e ps ps' out : eventOK e -> justified J ps -> runEvent e ps = Ret (ps', out) ->
  (forall o i, evidence (e, out) o i -> J o i) -> justified J ps'.
Proof.
  intros He Hj Hr HJ. destruct e as [fs rs peer now ch msg|rand rs parts prs ok|rand sl rs prs ok]; apply bind_ret_inv in Hr as (r & Hr & E).
  - injection E as <- <-. eapply dispatch_just; [exact Hj|exact He| |exact Hr]. intros o i Hc. apply HJ. by left.
  - destruct r as [[p o] s]. injection E as <- <-. by eapply (gossipData_just J rand rs parts prs ps ok (p, o, s)).
  - destruct r as [[p o] s]. injection E as <- <-. eapply gossipVotes_just; [exact He|exact Hj|exact Hr|]. intros o' i Hs. apply HJ. by right.
Qed.

(** The peer state says that the peer has the vote. *)
Definition peerHas (ps : PeerState) (h r t i : Z) : bool :=
  match load ps (getVoteBitArray (PRS ps) h r t) with Some b => BitArray.bit b i | None => false end.

Lemma runs_justified l ps : runs l ps -> Forall (fun x => eventOK x.1) l -> justified (fun o i => Exists (fun x => evidence x o i) l) ps.
Proof.
  induction 1 as [|l e out ps ps' _ IH Hr]; intros Hl; [apply NewPeerState_justified|].
  apply Forall_app in Hl as [Hl He]. apply Forall_cons in He as [He _]. cbn [fst] in He. eapply runEvent_just; [exact He| |exact Hr|].
  - eapply justified_mono; [|by apply IH]. cbn beta. intros o i Hx. apply Exists_app. by left.
  - intros o i Hx. apply Exists_app. right. by apply Exists_cons_hd.
Qed.

(** C28: a vote is withheld from a peer only with a reason: whatever messages the peer sent, and although the arrays of a
    peer state are shared between its fields, moved from round to round and replaced by what the peer sends, every vote
    that the state marks as known to the peer either was claimed by the peer in one of its messages or was handed to
    [peer.Send] by one of our turns. *)
Theorem marks_justified l ps h r t i : runs l ps -> Forall (fun x => eventOK x.1) l -> int64 h -> 0 <= i ->
  peerHas ps h r t i = true -> exists x, x ∈ l /\ evidence x (h, r, t) i.
Proof.
  intros Hr Hl Hh Hi Hp. destruct (runs_justified l ps Hr Hl) as (own & Ho).
  pose proof (getVote_holds own (PRS ps) h r t (o_slots _ _ _ Ho) Hh) as Hg. unfold peerHas in Hp.
  destruct (getVoteBitArray _ _ _ _) as [a|]; [|done]. destruct (load ps (Some a)) as [b|] eqn:E; [|done].
  pose proof (wordsIn_bit _ b i (o_bits _ _ _ Ho _ _ _ E (Hg a eq_refl)) Hi Hp) as Hx. cbn beta in Hx. by apply Exists_exists in Hx.
Qed.
End Runs.

(** ** What is sent to a peer *)

(** The indices that we have and the peer, as far as known, has not. *)
Definition missing (n : Z) (ours theirs : BitArray.BitArray) : list Z :=
  filter (fun i => BitArray.bit ours i && negb (BitArray.bit theirs i)) (seqZ 0 n).

Lemma elem_missing n ours theirs i :
  i ∈ missing n ours theirs <-> 0 <= i < n /\ BitArray.bit ours i = true /\ BitArray.bit theirs i = false.
Proof.
  unfold missing. rewrite list_elem_of_filter, elem_of_seqZ. unfold Is_true.
  destruct (BitArray.bit ours i), (BitArray.bit theirs i); cbn; intuition (lia || done).
Qed.
Lemma NoDup_missing n ours theirs : NoDup (missing n ours theirs).
Proof. apply NoDup_filter, NoDup_seqZ. Qed.
Lemma missing_set n ours b b' i : i ∈ missing n ours b -> (forall j, 0 <= j -> BitArray.bit b' j = if j =? i then true else BitArray.bit b j) ->
  i :: missing n ours b' ≡ₚ missing n ours b.
Proof.
  intros Hi Hb. pose proof Hi as (Hr & Ho & Ht)%elem_missing.
  apply NoDup_Permutation; [|apply NoDup_missing|].
  - apply NoDup_cons. split; [|apply NoDup_missing]. rewrite elem_missing, Hb, Z.eqb_refl by lia. by intros (_ & _ & ?).
  - intros j. rewrite elem_of_cons, !elem_missing. destruct (Z.leb_spec 0 j); [|lia]. rewrite Hb by done.
    destruct (Z.eqb_spec j i) as [->|]; intuition (lia || done).
Qed.

(** A pick from the difference of two arrays of one size. *)
Lemma pick_missing rand n ours b : (forall k n, 0 < n -> 0 <= rand k n < n) -> BitArray.wf ours -> BitArray.wf b ->
  BitArray.Bits ours = n -> BitArray.Bits b = n ->
  exists m, BitArray.Sub (Some ours) (Some b) = Ret m /\
    ((exists i, BitArray.PickRandom rand m = Ret (i, true) /\ i ∈ missing n ours b) \/
     (BitArray.PickRandom rand m = Ret (0, false) /\ missing n ours b = [])).
Proof.
  intros Hrand Ho Hb <- Hn. destruct (BitArray.Sub_spec ours b Ho Hb) as (m & E & Hm & Hmb & Hbit). exists (Some m). split; [done|].
  assert (Hs : forall i, 0 <= i < BitArray.Bits ours -> BitArray.bit m i = BitArray.bit ours i && negb (BitArray.bit b i)).
  { intros i Hi. rewrite Hbit by done. unfold BitArray.subBit. by rewrite Hn, Z.ltb_irrefl. }
  destruct (BitArray.PickRandom_spec rand Hrand m Hm) as [(i & Ep & Hi & Hbi)|[Ep Hno]].
  - left. exists i. split; [done|]. rewrite Hs in Hbi by lia. apply andb_true_iff in Hbi as [? ?%negb_true_iff]. apply elem_missing. split; [lia|done].
  - right. split; [done|]. apply elem_of_nil_inv. intros i (Hi & Hoi & Hbi)%elem_missing. specialize (Hno i ltac:(lia)).
    rewrite Hs, Hoi, Hbi in Hno by lia. done.
Qed.

Lemma setBit_ready ps a b i : load ps (Some a) = Some b -> BitArray.wf b -> 0 <= i < BitArray.Bits b ->
  exists ps' b', setBit ps (Some a) i = Ret ps' /\ PRS ps' = PRS ps /\ load ps' (Some a) = Some b' /\ BitArray.wf b' /\ BitArray.Bits b' = BitArray.Bits b /\
    forall j, 0 <= j -> BitArray.bit b' j = if j =? i then true else BitArray.bit b j.
Proof.
  intros Hl Hw Hi. destruct (BitArray.setIndex_spec b i true Hw Hi) as (b' & E & Hw' & Hb' & Hbit).
  eexists _, b'. split_and!; [|..|exact Hbit]; [unfold setBit; rewrite Hl; cbn [BitArray.SetIndex]; rewrite E; reflexivity|done| |done|done].
  cbn. apply list_lookup_insert_eq. by eapply lookup_lt_Some.
Qed.

(** *** Votes *)

(** The arrays that [prepare] makes are there. *)
Definition prepared (p : PeerRoundState) (votes : VoteSetReader) : Prop :=
  (vr_IsCommit votes = true -> pr_Height p = vr_Height votes -> pr_CatchupCommitRound p = vr_Round votes) /\
  (pr_Height p = vr_Height votes -> is_Some (pr_Prevotes p) /\ is_Some (pr_Precommits p) /\ is_Some (pr_CatchupCommit p) /\ is_Some (pr_POL p)) /\
  (pr_Height p <> vr_Height votes -> pr_Height p = add64 (vr_Height votes) 1 -> is_Some (pr_LastCommit p)).

Lemma ensureArray_done ps get put n k : get (PRS ps) = Some k -> ensureArray ps get put n = Ret ps.
Proof. intros H. unfold ensureArray. by rewrite H. Qed.
Lemma ensureArray_some ps get put n ps' : 0 < n -> ensureArray ps get put n = Ret ps' ->
  is_Some (get (PRS ps)) /\ ps' = ps \/ exists k, PRS ps' = put (Some k) (PRS ps).
Proof.
  intros Hn. unfold ensureArray. destruct (get _) eqn:E; intros H; [left; go_inv; eauto|]. right.
  apply bind_ret_inv in H as ([p1 a] & H1 & [= <-]). apply bind_ret_inv in H1 as (b & Hb & [= H1]).
  destruct (BitArray.NewBitArray_spec n Hn) as (b' & E' & _). rewrite E' in Hb. injection Hb as <-. cbn in H1. injection H1 as <- <-. cbn. eauto.
Qed.

Lemma prepared_prepare ps votes : prepared (PRS ps) votes -> prepare ps votes = Ret ps.
Proof.
  intros (Hc & Hh & Hl). unfold prepare.
  assert (E : (if vr_IsCommit votes then ensureCatchupCommitRound ps (vr_Height votes) (vr_Round votes) (vr_Size votes) else Ret ps) = Ret ps).
  { destruct (vr_IsCommit votes); [|done]. unfold ensureCatchupCommitRound. destruct (Z.eqb_spec (pr_Height (PRS ps)) (vr_Height votes)); [|done].
    cbn [negb]. by rewrite Hc, Z.eqb_refl. }
  rewrite E. cbn [mbind go_mbind]. unfold ensureVoteBitArrays. destruct (Z.eqb_spec (pr_Height (PRS ps)) (vr_Height votes)) as [Heq|Hne].
  - destruct (Hh Heq) as ([k1 H1] & [k2 H2] & [k3 H3] & [k4 H4]).
    rewrite (ensureArray_done _ _ _ _ _ H1). cbn [mbind go_mbind]. rewrite (ensureArray_done _ _ _ _ _ H2). cbn [mbind go_mbind].
    rewrite (ensureArray_done _ _ _ _ _ H3). cbn [mbind go_mbind]. by rewrite (ensureArray_done _ _ _ _ _ H4).
  - destruct (Z.eqb_spec (pr_Height (PRS ps)) (add64 (vr_Height votes) 1)); [|done]. destruct (Hl Hne ltac:(done)) as [k Hk].
    by rewrite (ensureArray_done _ _ _ _ _ Hk).
Qed.

Lemma prepare_prepared ps votes ps' : 0 < vr_Size votes -> prepare ps votes = Ret ps' -> prepared (PRS ps') votes.
Proof.
  intros Hn H. apply bind_ret_inv in H as (p1 & H1 & H).
  assert (Hc : vr_IsCommit votes = true -> pr_Height (PRS p1) = vr_Height votes -> pr_CatchupCommitRound (PRS p1) = vr_Round votes).
  { intros E. rewrite E in H1. unfold ensureCatchupCommitRound in H1. destruct (Z.eqb_spec (pr_Height (PRS ps)) (vr_Height votes)) as [Heq|Hne]; cbn [negb] in H1;
      [|go_inv; done]. destruct (Z.eqb_spec (pr_CatchupCommitRound (PRS ps)) (vr_Round votes)); [by go_inv|].
    destruct (_ =? _) in H1; [by go_inv|]. by apply bind_ret_inv in H1 as ([q a] & _ & [= <-]). }
  unfold ensureVoteBitArrays in H. destruct (Z.eqb_spec (pr_Height (PRS p1)) (vr_Height votes)) as [Heq|Hne].
  - apply bind_ret_inv in H as (q1 & E1 & H). apply bind_ret_inv in H as (q2 & E2 & H). apply bind_ret_inv in H as (q3 & E3 & E4).
    unfold prepared.
    apply ensureArray_some in E1 as [[? ->]|[k1 E1]], E2 as [[? ->]|[k2 E2]], E3 as [[? ->]|[k3 E3]], E4 as [[? ->]|[k4 E4]]; try done;
      rewrite ?E4, ?E3, ?E2, ?E1 in *; cbn in *; split_and!; eauto; done.
  - destruct (Z.eqb_spec (pr_Height (PRS p1)) (add64 (vr_Height votes) 1)) as [Heq|Hne'].
    + unfold prepared. apply ensureArray_some in H as [[? ->]|[k E]]; [split_and!; done| |done]. rewrite E; cbn; split_and!; eauto; done.
    + go_inv. split_and!; done.
Qed.

(** The state is prepared for the votes, and [b] is what it knows of them. *)
Definition ready (votes : VoteSetReader) (ps : PeerState) (b : BitArray.BitArray) : Prop :=
  prepared (PRS ps) votes /\
  exists a, getVoteBitArray (PRS ps) (vr_Height votes) (vr_Round votes) (vr_Type votes) = Some a /\ load ps (Some a) = Some b /\
    BitArray.wf b /\ BitArray.Bits b = vr_Size votes.

Section Send.
Context (votes : VoteSetReader) `{!ReaderOK votes} (ours : BitArray.BitArray).
Context (Hours : vr_BitArray votes = Ret (Some ours)) (Hsize : 0 < vr_Size votes).

Lemma ours_ok : BitArray.wf ours /\ BitArray.Bits ours = vr_Size votes /\
  forall i, 0 <= i < vr_Size votes -> BitArray.bit ours i = true ->
    exists v, vr_GetByIndex votes i = Ret (Some v) /\ v_ValidatorIndex v = i.
Proof.
  destruct (ro_votes (votes := votes)) as [|(o & E & Hw & Hb & Hv)]; [lia|]. rewrite Hours in E. injection E as <-.
  split_and!; [done|done|]. intros i Hi Hbit. destruct (Hv i Hi Hbit) as (v & ? & _ & ?). eauto.
Qed.

Lemma PickVoteToSend_ready rand ps b : (forall k n, 0 < n -> 0 <= rand k n < n) -> ready votes ps b ->
  (missing (vr_Size votes) ours b = [] /\ PickVoteToSend rand ps votes = Ret (ps, None)) \/
  exists ps' b' v, PickVoteToSend rand ps votes = Ret (ps', Some (Some v)) /\ ready votes ps' b' /\
    vr_GetByIndex votes (v_ValidatorIndex v) = Ret (Some v) /\
    v_ValidatorIndex v :: missing (vr_Size votes) ours b' ≡ₚ missing (vr_Size votes) ours b.
Proof.
  intros Hrand (Hp & a & Ha & Hl & Hw & Hb). destruct ours_ok as (Hwo & Hbo & Hv).
  unfold PickVoteToSend. rewrite (proj2 (Z.eqb_neq _ _)) by lia. rewrite prepared_prepare by done. cbn [mbind go_mbind]. rewrite Ha, Hours. cbn [mbind go_mbind].
  rewrite Hl. destruct (pick_missing rand (vr_Size votes) ours b Hrand Hwo Hw Hbo Hb) as (m & -> & [(i & E & Hi)|[E Hno]]); cbn [mbind go_mbind]; rewrite E; cbn [mbind go_mbind].
  - right. pose proof Hi as (Hir & Hio & _)%elem_missing. destruct (Hv i Hir Hio) as (v & Hg & Hvi).
    destruct (setBit_ready ps a b i Hl Hw ltac:(lia)) as (ps' & b' & Es & HP & Hl' & Hw' & Hb' & Hbit).
    unfold setHasVote. rewrite Ha, Es. cbn [mbind go_mbind]. rewrite Hg. exists ps', b', v. split_and!; [done| |by rewrite Hvi|rewrite Hvi; by apply missing_set].
    split; [by rewrite HP|]. exists a. rewrite HP. split_and!; [done|done|done|congruence].
  - left. done.
Qed.

(** The turns that offer these votes to the peer; [oks] are the results of [peer.Send]. *)
Fixpoint offerVotes (rand : nat -> nat -> Z -> Z) (oks : list bool) (ps : PeerState) : go (PeerState * list (sent * bool)) :=
  match oks with
  | [] => Ret (ps, [])
  | ok :: oks =>
      '(ps, out, picked) ← PickSendVote (rand (length oks)) ps votes ok;
      '(ps, outs) ← offerVotes rand oks ps;
      Ret (ps, (out, picked) :: outs)
  end.

Lemma offerVotes_ready rand oks ps b : (forall j k n, 0 < n -> 0 <= rand j k n < n) -> ready votes ps b ->
  length oks = length (missing (vr_Size votes) ours b) ->
  exists ps' b' vs, offerVotes rand oks ps = Ret (ps', zip_with (fun v ok => ([(VoteChannel, StateMessage (VoteMessage (Some v)))], ok)) vs oks) /\
    ready votes ps' b' /\ missing (vr_Size votes) ours b' = [] /\
    v_ValidatorIndex <$> vs ≡ₚ missing (vr_Size votes) ours b /\ Forall (fun v => vr_GetByIndex votes (v_ValidatorIndex v) = Ret (Some v)) vs.
Proof.
  intros Hrand. revert ps b. induction oks as [|ok oks IH]; intros ps b Hr Hlen.
  - exists ps, b, []. destruct (missing _ ours b); [|done]. split_and!; [done|done|done|done|by apply Forall_nil].
  - destruct (PickVoteToSend_ready (rand (length oks)) ps b (Hrand _) Hr) as [[E _]|(ps1 & b1 & v & E & Hr1 & Hg & Hperm)]; [by rewrite E in Hlen|].
    cbn [offerVotes]. unfold PickSendVote at 1. rewrite E. cbn [mbind go_mbind].
    destruct (IH ps1 b1 Hr1) as (ps' & b' & vs & -> & Hr' & Hno & Hp & Hf); [apply Permutation_length in Hperm; cbn in *; lia|]. cbn [mbind go_mbind].
    exists ps', b', (v :: vs). split_and!; [done|done|done|cbn; by rewrite Hp|by apply Forall_cons].
Qed.
End Send.

Lemma offerVotes_prepare rand oks ps votes ps0 : 0 < vr_Size votes -> prepare ps votes = Ret ps0 ->
  (forall k ok, PickSendVote (rand k) ps votes ok = PickSendVote (rand k) ps0 votes ok) /\
  (oks = [] \/ offerVotes votes rand oks ps = offerVotes votes rand oks ps0).
Proof.
  intros Hs Hp. assert (E : forall k ok, PickSendVote (rand k) ps votes ok = PickSendVote (rand k) ps0 votes ok).
  { intros k ok. unfold PickSendVote, PickVoteToSend. rewrite (proj2 (Z.eqb_neq _ _)) by lia.
    by rewrite Hp, (prepared_prepare ps0) by (by eapply prepare_prepared). }
  split; [done|]. destruct oks as [|ok oks]; [by left|right]. cbn [offerVotes]. by rewrite E.
Qed.

(** C29: the peer is offered every vote it is not known to have, each exactly once.  From a state whose array for the votes
    is well-formed, in as many turns as there are missing votes, one vote is handed to [peer.Send] in each turn, the
    indices of the votes are exactly the missing ones, whatever the random choices are, and after that nothing is
    picked.  The results [oks] of the sends play no part: a vote whose send failed is not offered again. *)
Theorem votes_offered_once votes ours rand oks ps ps0 a b : ReaderOK votes -> vr_BitArray votes = Ret (Some ours) -> 0 < vr_Size votes ->
  (forall j k n, 0 < n -> 0 <= rand j k n < n) -> prepare ps votes = Ret ps0 ->
  getVoteBitArray (PRS ps0) (vr_Height votes) (vr_Round votes) (vr_Type votes) = Some a -> load ps0 (Some a) = Some b ->
  BitArray.wf b -> BitArray.Bits b = vr_Size votes -> length oks = length (missing (vr_Size votes) ours b) ->
  exists ps' ps'' vs, offerVotes votes rand oks ps = Ret (ps', zip_with (fun v ok => ([(VoteChannel, StateMessage (VoteMessage (Some v)))], ok)) vs oks) /\
    v_ValidatorIndex <$> vs ≡ₚ missing (vr_Size votes) ours b /\ Forall (fun v => vr_GetByIndex votes (v_ValidatorIndex v) = Ret (Some v)) vs /\
    forall p k ok, p = ps' \/ p = ps'' -> PickSendVote (rand k) p votes ok = Ret (ps'', [], false).
Proof.
  intros Hro Ho Hs Hrand Hp Ha Hl Hw Hb Hlen.
  assert (Hr : ready votes ps0 b) by (split; [by eapply prepare_prepared|by exists a]).
  destruct (offerVotes_ready votes ours Ho Hs rand oks ps0 b Hrand Hr Hlen) as (ps' & b' & vs & E & Hr' & Hno & Hperm & Hf).
  assert (Hend : forall k ok, PickSendVote (rand k) ps' votes ok = Ret (ps', [], false)).
  { intros k ok. unfold PickSendVote.
    destruct (PickVoteToSend_ready votes ours Ho Hs (rand k) ps' b' (Hrand k) Hr') as [[_ ->]|(? & ? & ? & _ & _ & _ & Hp')]; [done|].
    rewrite Hno in Hp'. by apply Permutation_nil_r in Hp'. }
  destruct (offerVotes_prepare rand oks ps votes ps0 Hs Hp) as [Hpick [->|Heq]].
  - injection E as <- _. exists ps, ps0, []. destruct (missing _ ours b); [|done]. split_and!; [done|done|by apply Forall_nil|].
    intros p k ok [-> | ->]; [by rewrite Hpick|done].
  - exists ps', ps', vs. rewrite Heq. split_and!; [done|done|done|]. intros p k ok [-> | ->]; done.
Qed.

(** *** Block parts *)

Section Parts.
Context `{Amino} {store : BlockStoreRPC}.

(** The turns of [gossipDataRoutine], each on a snapshot of its moment. *)
Fixpoint offerParts (rand : nat -> nat -> Z -> Z) (rs : RoundState) (parts : list PartSet.PartSet) (oks : list bool) (ps : PeerState) : go (PeerState * list (sent * bool)) :=
  match oks with
  | [] => Ret (ps, [])
  | ok :: oks =>
      '(ps, out, _) ← gossipData (rand (length oks)) rs parts (PRS ps) ps ok;
      '(ps, outs) ← offerParts rand rs parts oks ps;
      Ret (ps, (out, ok) :: outs)
  end.

(** The peer wants the block of part set [s], and [b] is what it is known to have of it. *)
Definition wants (s : PartSet.PartSet) (ps : PeerState) (b : BitArray.BitArray) : Prop :=
  PartSet.HasHeader (Some s) (pr_PartsHeader (PRS ps)) = true /\
  exists a, pr_Parts (PRS ps) = Some a /\ load ps (Some a) = Some b /\ BitArray.wf b /\ BitArray.Bits b = zlen (PartSet.ps_parts s).

(** What was sent with success. *)
Definition delivered {A} (l : list A) (oks : list bool) : list A := fst <$> filter (fun x => Is_true x.2) (zip l oks).
Lemma delivered_cons {A} (x : A) l ok oks : delivered (x :: l) (ok :: oks) = if ok then x :: delivered l oks else delivered l oks.
Proof. unfold delivered. cbn [zip_with]. destruct ok; [by rewrite filter_cons_True|by rewrite filter_cons_False by (intros [])]. Qed.

Section Set_.
Context (rs : RoundState) (parts : list PartSet.PartSet) (si : nat) (s : PartSet.PartSet) (ours : BitArray.BitArray).
Context (Hsi : ProposalBlockParts rs = Some si) (Hs : parts !! si = Some s).
Context (Hinv : PartSet.psInv s) (Hours : PartSet.ps_partsBitArray s = Some ours).

Definition n_ : Z := zlen (PartSet.ps_parts s).

Lemma gossipData_part rand ps b ok : (forall k n, 0 < n -> 0 <= rand k n < n) -> wants s ps b -> missing n_ ours b <> [] ->
  exists ps' b' part, gossipData rand rs parts (PRS ps) ps ok = Ret (ps', [(DataChannel, StateMessage (BlockPartMessage (Height rs) (Round rs) (Some part)))], false) /\
    wants s ps' b' /\ PartSet.GetPart s (PartSet.Index part) = Ret (Some part) /\
    if ok then PartSet.Index part :: missing n_ ours b' ≡ₚ missing n_ ours b else b' = b.
Proof.
  intros Hrand (Hh & a & Ha & Hl & Hw & Hb) Hne. pose proof (PartSet.psi_bits _ Hinv) as Hbits. rewrite Hours in Hbits. destruct Hbits as (Hwo & Hbo & Hpres).
  unfold gossipData, pickPart. rewrite Hsi. cbn [mbind option_bind]. rewrite Hs, Hh, Ha, Hl. cbn [deref mbind go_mbind].
  unfold PartSet.psBitArray. rewrite Hours. cbn [BitArray.Copy]. rewrite !BitArray.copy_eq.
  destruct (pick_missing rand n_ ours b Hrand Hwo Hw Hbo Hb) as (m & -> & [(i & E & Hi)|[E Hno]]); [|done]. cbn [mbind go_mbind]. rewrite E. cbn [mbind go_mbind].
  pose proof Hi as (Hir & Hio & _)%elem_missing. unfold n_ in Hir. rewrite Hpres in Hio by done. unfold BitArray.present in Hio.
  destruct (idx_total (PartSet.ps_parts s) i Hir) as (part & Eg & Hlk). rewrite Hlk in Hio. destruct part as [part|]; [|done].
  destruct (PartSet.psi_parts _ Hinv _ _ Hlk) as [Hidx _]. rewrite Z2Nat.id in Hidx by lia.
  unfold PartSet.GetPart. rewrite Eg. cbn [mbind go_mbind]. destruct ok.
  - destruct (setBit_ready ps a b i Hl Hw ltac:(unfold n_ in *; lia)) as (ps' & b' & Es & HP & Hl' & Hw' & Hb' & Hbit).
    unfold SetHasProposalBlockPart. rewrite !Z.eqb_refl, Ha. cbn [negb orb]. rewrite Es. cbn [mbind go_mbind].
    exists ps', b', part. rewrite Hidx. split_and!; [done| |done|by apply missing_set]. split; [by rewrite HP|]. exists a. rewrite HP. split_and!; [done|done|done|congruence].
  - exists ps, b, part. rewrite Hidx. split_and!; [done| |done|done]. split; [done|]. by exists a.
Qed.

Lemma offerParts_run rand oks ps b : (forall j k n, 0 < n -> 0 <= rand j k n < n) -> wants s ps b ->
  (forall oks1 oks2, oks = oks1 ++ oks2 -> oks2 <> [] -> (length (filter Is_true oks1) < length (missing n_ ours b))%nat) ->
  exists ps' b' sp, offerParts rand rs parts oks ps = Ret (ps', zip_with (fun part ok => ([(DataChannel, StateMessage (BlockPartMessage (Height rs) (Round rs) (Some part)))], ok)) sp oks) /\
    wants s ps' b' /\ length sp = length oks /\ Forall (fun part => PartSet.GetPart s (PartSet.Index part) = Ret (Some part)) sp /\
    (PartSet.Index <$> delivered sp oks) ++ missing n_ ours b' ≡ₚ missing n_ ours b.
Proof.
  intros Hrand. revert ps b. induction oks as [|ok oks IH]; intros ps b Hwt Hlt.
  - exists ps, b, []. split_and!; [done|done|done|by apply Forall_nil|done].
  - assert (Hne : missing n_ ours b <> []) by (intros E; specialize (Hlt [] (ok :: oks) eq_refl ltac:(done)); rewrite E in Hlt; cbn in Hlt; lia).
    destruct (gossipData_part (rand (length oks)) ps b ok (Hrand _) Hwt Hne) as (ps1 & b1 & part & E & Hw1 & Hg & Hok).
    cbn [offerParts]. rewrite E. cbn [mbind go_mbind].
    destruct (IH ps1 b1 Hw1) as (ps' & b' & sp & -> & Hw' & Hlen & Hf & Hperm).
    { intros oks1 oks2 -> Hne2. specialize (Hlt (ok :: oks1) oks2 eq_refl Hne2). destruct ok.
      - apply Permutation_length in Hok. rewrite filter_cons_True in Hlt by done. cbn [length] in *. lia.
      - subst b1. by rewrite filter_cons_False in Hlt by (intros []). }
    exists ps', b', (part :: sp). cbn [mbind go_mbind zip_with length]. split_and!; [done|done|by rewrite Hlen|by apply Forall_cons|].
    rewrite delivered_cons. destruct ok; [cbn [fmap list_fmap app]; by rewrite Hperm|by subst b1].
Qed.
End Set_.

Lemma delivered_length {A} (l : list A) oks : length l = length oks -> length (delivered l oks) = length (filter Is_true oks).
Proof.
  revert oks. induction l as [|x l IH]; intros [|ok oks] Hl; try done. rewrite delivered_cons. injection Hl as Hl.
  destruct ok; [rewrite filter_cons_True by done; cbn; by rewrite IH|rewrite filter_cons_False by (intros []); by apply IH].
Qed.

(** A peer that wants the block we have parts of gets them all, each exactly once.  While [gossipDataRoutine] sends
    parts to it, a part whose send failed is offered again; when as many sends have succeeded as parts were missing at the
    peer, the parts that went through are exactly the missing ones and the peer is known to have every part we have. *)
Theorem parts_delivered rand rs parts si s ours oks ps b : ProposalBlockParts rs = Some si -> parts !! si = Some s ->
  PartSet.psInv s -> PartSet.ps_partsBitArray s = Some ours -> (forall j k n, 0 < n -> 0 <= rand j k n < n) -> wants s ps b ->
  length (filter Is_true (oks ++ [true])) = length (missing (PartSet.ps_total s) ours b) ->
  exists ps' b' sp, offerParts rand rs parts (oks ++ [true]) ps =
      Ret (ps', zip_with (fun part ok => ([(DataChannel, StateMessage (BlockPartMessage (Height rs) (Round rs) (Some part)))], ok)) sp (oks ++ [true])) /\
    PartSet.Index <$> delivered sp (oks ++ [true]) ≡ₚ missing (PartSet.ps_total s) ours b /\
    Forall (fun part => PartSet.GetPart s (PartSet.Index part) = Ret (Some part)) sp /\
    wants s ps' b' /\ forall i, 0 <= i < PartSet.ps_total s -> BitArray.bit ours i = true -> BitArray.bit b' i = true.
Proof.
  intros Hsi Hs Hinv Hours Hrand Hw Hlen. rewrite (PartSet.psi_total _ Hinv) in *.
  destruct (offerParts_run rs parts si s ours Hsi Hs Hinv Hours rand (oks ++ [true]) ps b Hrand Hw) as (ps' & b' & sp & E & Hw' & Hl & Hf & Hperm).
  { intros oks1 oks2 Heq Hne. unfold n_. rewrite <- Hlen, Heq. destruct (exists_last Hne) as (oks3 & x & ->). rewrite app_assoc in Heq.
    apply app_inj_tail in Heq as [_ <-]. rewrite !filter_app, !length_app, filter_cons_True by done. cbn [length]. lia. }
  unfold n_ in *. assert (Hno : missing (zlen (PartSet.ps_parts s)) ours b' = []).
  { apply Permutation_length in Hperm. rewrite length_app, length_fmap, delivered_length in Hperm by done. destruct (missing _ ours b'); [done|cbn in Hperm; lia]. }
  rewrite Hno, app_nil_r in Hperm. exists ps', b', sp. split_and!; [done|done|done|done|]. intros i Hi Ho.
  destruct (BitArray.bit b' i) eqn:Eb; [done|]. exfalso. assert (Hin : i ∈ missing (zlen (PartSet.ps_parts s)) ours b') by (by apply elem_missing).
  rewrite Hno in Hin. by apply elem_of_nil in Hin.
Qed.
End Parts.

(** ** What a peer can do with its messages *)

(** An array with a length and no words. *)
Definition hollow (n : Z) : BitArray.BitArray := BitArray.mkBitArray n [].

Lemma Sub_hollow a : BitArray.wf a -> BitArray.Sub (Some a) (Some (hollow (BitArray.Bits a))) = Panic IndexOutOfRange.
Proof.
  intros Ha. pose proof Ha as (H0 & _ & _). unfold BitArray.Sub. cbn [hollow BitArray.Bits]. rewrite Z.ltb_irrefl. unfold BitArray.and.
  cbn [BitArray.not BitArray.copy BitArray.Bits hollow]. rewrite Z.min_id.
  destruct (BitArray.copyBits_spec a (BitArray.Bits a) Ha H0) as (es & -> & Hl & _). cbn [mbind go_mbind BitArray.Elems BitArray.Bits].
  pose proof (BitArray.nwords_pos _ H0). destruct es as [|e es]; [unfold zlen in Hl; cbn in Hl; lia|].
  unfold BitArray.wordLoop, go_for. unfold zlen. cbn [length]. rewrite seqZ_cons by lia. cbn [go_fold]. done.
Qed.

Section Attack.
Context `{Codec} `{Curves} `{Amino} {store : BlockStoreRPC}.

(** C30: a peer can stop our node.  Our part set for the block is in order; the peer, at any height, sends a
    [CommitStepMessage] for its height with the header of that part set and a bit array that has a length and no words.
    The message is accepted, and the next turn of [gossipDataRoutine] for that peer, on which no recover waits, panics. *)
Theorem commit_step_crashes rand rs parts si s ps fs peer now ok : ProposalBlockParts rs = Some si -> parts !! si = Some s ->
  PartSet.psInv s -> 0 < PartSet.ps_total s ->
  exists ps', dispatch fs ps rs peer now StateChannel
                (CommitStepMessage (pr_Height (PRS ps)) (PartSet.Header (Some s)) (Some (hollow (PartSet.ps_total s)))) = Ret (ps', rs, []) /\
    gossipData rand rs parts (PRS ps') ps' ok = Panic IndexOutOfRange.
Proof.
  intros Hsi Hs Hinv Hpos. eexists. split; [reflexivity|].
  pose proof (PartSet.psi_bits _ Hinv) as Hb. rewrite (PartSet.psi_total _ Hinv) in *.
  destruct (PartSet.ps_partsBitArray s) as [b|] eqn:E; [|cbn in Hb; rewrite Hb in Hpos; done]. destruct Hb as (Hw & Hn & _).
  unfold ApplyCommitStepMessage. rewrite Z.eqb_refl. cbn [negb alloc].
  unfold gossipData, pickPart. rewrite Hsi. cbn [mbind option_bind]. rewrite Hs. cbn [PRS setPRS prsProposal pr_PartsHeader pr_Parts].
  assert (Hh : PartSet.HasHeader (Some s) (PartSet.Header (Some s)) = true) by (by apply PartSetHeader_Equals_eq).
  rewrite Hh. cbn [deref mbind go_mbind load option_bind ps_heap setPRS]. rewrite list_lookup_middle by done.
  unfold PartSet.psBitArray. rewrite E. cbn [BitArray.Copy]. rewrite !BitArray.copy_eq, <- Hn, Sub_hollow by done. done.
Qed.
End Attack.

(** When the peer goes to the next height its precommits are not kept: they were
    reset before they are moved to [LastCommit]. *)
Lemma last_commit_forgotten ps now h r s sec lcr :
  0 < CompareHRS h r s (pr_Height (PRS ps)) (pr_Round (PRS ps)) (pr_Step (PRS ps)) -> h <> pr_Height (PRS ps) ->
  pr_LastCommit (PRS (ApplyNewRoundStepMessage ps now h r s sec lcr)) = None.
Proof.
  intros Hc Hh. unfold ApplyNewRoundStepMessage. rewrite (proj2 (Z.leb_gt _ _)) by lia.
  rewrite (proj2 (Z.eqb_neq (pr_Height (PRS ps)) h)) by congruence. cbn [negb orb andb]. by destruct (_ && _).
Qed.

(** A peer that has contributed nothing is marked as good for a block part of
    height 0: the count is 0, a multiple of [blocksToContributeToBecomeGoodPeer]. *)
Lemma good_at_once part : receiveData NewPeerState (StateMessage (BlockPartMessage 0 0 (Some part))) =
  Ret (NewPeerState, [MarkPeerAsGood; PeerMsg (BlockPartMessage 0 0 (Some part))]).
Proof. reflexivity. Qed.

(** ** Witnesses *)

Section Examples.
#[local] Existing Instance toyCodec.
#[local] Existing Instance toyCurves.
#[local] Existing Instance uvarintAmino.

Definition exStore : BlockStoreRPC := {|
  storeHeight_ := 0; LoadBlockMeta := fun _ => Ret None; LoadBlockPart := fun _ _ => Ret None;
  LoadBlockCommit := fun _ => Ret None; LoadSeenCommit := fun _ => Ret None |}.
#[local] Existing Instance exStore.
Definition rand0 : nat -> Z -> Z := fun _ _ => 0.
Lemma rand0_range k n : 0 < n -> 0 <= rand0 k n < n.
Proof. unfold rand0. lia. Qed.

(** We are at height 7 with the block of the part set example, the peer is at
    height 7, round 0. *)
Definition exRS : RoundState :=
  mkRoundState 7 0 RoundStepPrevote State.zeroTime State.zeroTime (Some VoteSet.exVals) None None (Some 0%nat) 0 None None 0 None None None 0 None None.
Definition exSets : list PartSet.PartSet := [PartSet.exReceived].
Definition exStep : ConsensusMessage := NewRoundStepMessage 7 0 RoundStepPrevote 0 (-1).
Definition exPeer : PeerState := ApplyNewRoundStepMessage NewPeerState State.zeroTime 7 0 RoundStepPrevote 0 (-1).
Definition exWants : PeerState := ApplyCommitStepMessage exPeer 7 (PartSet.Header (Some PartSet.exReceived)) (Some (BitArray.mkBitArray 3 [2])).

Definition exVotes : VoteSetReader := ofVoteSet (Some VoteSet.vsMaj).
Lemma exVotes_ok : ReaderOK exVotes.
Proof.
  apply voteset_ok; [|vm_compute; split; discriminate].
  exact (proj1 (VoteSet.reachable_Inv _ _ _ _ VoteSet.exVals VoteSet.vsMaj VoteSet.exVals_powers (or_introl eq_refl) VoteSet.vsMaj_reachable)).
Qed.

Lemma exSet_inv : PartSet.psInv PartSet.exReceived.
Proof. refine (proj1 (PartSet.collected_inv _ _ _ PartSet.exReceived_collected)). vm_compute. split; discriminate. Qed.

Definition exTrace : list (event * sent) :=
  [(Recv false exRS [] State.zeroTime StateChannel exStep, []);
   (Recv false exRS [] State.zeroTime VoteChannel (StateMessage (VoteMessage (Some (VoteSet.exVote "A" 0 2 VoteSet.blockA)))), [])].
Definition exMarked : PeerState :=
  match receiveVote exPeer exRS (StateMessage (VoteMessage (Some (VoteSet.exVote "A" 0 2 VoteSet.blockA)))) with Ret r => r.1 | Panic _ => exPeer end.
Lemma exTrace_runs : runs exTrace exMarked.
Proof.
  apply (runs_step [_] (Recv false exRS [] State.zeroTime VoteChannel _) [] exPeer); [|vm_compute; reflexivity].
  apply (runs_step [] (Recv false exRS [] State.zeroTime StateChannel exStep) [] NewPeerState); [apply runs_new|vm_compute; reflexivity].
Qed.

Lemma marks_justified_witness : exists x, x ∈ exTrace /\ evidence x (7, 0, 2) 0.
Proof.
  apply (marks_justified exTrace exMarked 7 0 2 0 exTrace_runs).
  - repeat (apply Forall_cons; split; [vm_compute; try split; try discriminate; exact I|]). apply Forall_nil. exact I.
  - vm_compute. split; discriminate.
  - lia.
  - vm_compute. reflexivity.
Defined.

Lemma votes_offered_once_witness : exists ps' out, offerVotes exVotes (fun _ => rand0) [true; false] exPeer = Ret (ps', out).
Proof.
  destruct (votes_offered_once exVotes (BitArray.mkBitArray 3 [5]) (fun _ => rand0) [true; false] exPeer
    (match prepare exPeer exVotes with Ret p => p | Panic _ => exPeer end) 1%nat (BitArray.mkBitArray 3 [0]) exVotes_ok)
    as (ps' & ps'' & vs & E & _).
  - vm_compute. reflexivity.
  - vm_compute. reflexivity.
  - intros j k n. exact (rand0_range k n).
  - vm_compute. reflexivity.
  - vm_compute. reflexivity.
  - vm_compute. reflexivity.
  - apply (bool_decide_unpack (BitArray.wf (BitArray.mkBitArray 3 [0]))). vm_compute. exact I.
  - vm_compute. reflexivity.
  - vm_compute. reflexivity.
  - eexists ps', _. exact E.
Defined.

Lemma parts_delivered_witness : exists ps' b', wants PartSet.exReceived ps' b'.
Proof.
  destruct (parts_delivered (fun _ => rand0) exRS exSets 0 PartSet.exReceived (BitArray.mkBitArray 3 [7]) [true; false] exWants (BitArray.mkBitArray 3 [2]))
    as (ps' & b' & sp & _ & _ & _ & Hw & _).
  - reflexivity.
  - reflexivity.
  - exact exSet_inv.
  - vm_compute. reflexivity.
  - intros j k n. exact (rand0_range k n).
  - split; [vm_compute; reflexivity|]. exists 0%nat. split; [vm_compute; reflexivity|]. split; [vm_compute; reflexivity|].
    split; [|vm_compute; reflexivity]. apply (bool_decide_unpack (BitArray.wf (BitArray.mkBitArray 3 [2]))). vm_compute. exact I.
  - vm_compute. reflexivity.
  - exists ps', b'. exact Hw.
Defined.

Lemma commit_step_crashes_witness : exists ps', gossipData rand0 exRS exSets (PRS ps') ps' true = Panic IndexOutOfRange.
Proof.
  destruct (commit_step_crashes rand0 exRS exSets 0 PartSet.exReceived exPeer false [] State.zeroTime true) as (ps' & _ & E).
  - reflexivity.
  - reflexivity.
  - exact exSet_inv.
  - vm_compute. reflexivity.
  - exists ps'. exact E.
Defined.
End Examples.
End Reactor.
