(* ===== verification/Pool.v ===== *)
(** * The block pool of fast sync: blockchain/pool.go

    Requesters, each a goroutine that asks one peer after another for the block
    of its height, and the pool that makes them and takes the blocks.  Requesters
    and peers are pointers, indices into [p_objs] and [p_peerObjs]: a requester
    that the map no longer holds still runs.  Every section of code under the
    mutex of the pool is one step, and the steps of all goroutines interleave in
    any order.  The order in which Go walks a map is an argument. *)

From S2P Require Import Prelude BitArray Sha256 Crypto Merkle Types ValidatorSet PartSet Block.
Import Types.

Module Pool.

(** ** Nodes, peers and requesters *)

(** p2p.NodeID: an array of bytes. *)
Definition NodeIDBits : Z := 512.
Definition NodeID : Type := bytes.
Definition zeroID : NodeID := replicate (Z.to_nat (NodeIDBits / 8)) Byte.x00.
Definition SegmentID (n : NodeID) : bytes := take 2 (hexEncode n).

Definition maxTotalRequesters : Z := 1000.
Definition maxPendingRequests : Z := maxTotalRequesters.
Definition maxPendingRequestsPerPeer : Z := 50.
Definition minRecvRate : Z := 7680.
Definition maxDiffBetweenCurrentAndReceivedBlockHeight : Z := 1000.

(** [recvMonitor] and [timeout] are nil until the first request. *)
Record bpPeer := mkPeer { pe_id : NodeID; pe_monitor : bool; pe_height : Z; pe_numPending : Z; pe_timeout : bool; pe_didTimeout : bool }.
Definition newBPPeer (id : NodeID) (height : Z) : bpPeer := mkPeer id false height 0 false false.

(** Where the goroutine of a requester is: picking a peer, about to note the
    peer it picked, about to send the request, in the [select], or gone. *)
Inductive routine := Picking | Picked (id : NodeID) | Sending (id : NodeID) | Waiting | Returned.
(** [gotBlockCh] and [redoCh] have room for one element. *)
Record bpRequester := mkRequester {
  r_height : Z; r_gotBlockCh : bool; r_redoCh : bool; r_peerID : NodeID; r_block : option Block.Block; r_stopped : bool; r_routine : routine }.
(** Made and started. *)
Definition newBPRequester (height : Z) : bpRequester := mkRequester height false false zeroID None false Picking.

Record BlockRequest := mkRequest { br_Height : Z; br_PeerID : NodeID; br_BucketID : option bytes }.
Inductive peerError := ErrTooSlow | ErrNothingSent | ErrUnexpectedBlock.

Record BlockPool := mkPool {
  p_running : bool; p_startTime : Time;
  p_requesters : gmap Z nat; p_objs : list bpRequester;
  p_height : Z; p_peers : gmap NodeID nat; p_peerObjs : list bpPeer;
  p_maxPeerHeight : Z; p_numPending : Z; p_maxRequesterHeight : Z;
  p_requestsCh : list BlockRequest; p_errorsCh : list (peerError * NodeID);
  p_next : option bool }.  (* what [makeRequestersRoutine] has decided to do *)
Definition NewBlockPool (start : Z) (now : Time) : BlockPool := mkPool true now ∅ [] start ∅ [] 0 0 0 [] [] None.

Definition setRequesters (m : gmap Z nat) (objs : list bpRequester) (s : BlockPool) : BlockPool :=
  mkPool (p_running s) (p_startTime s) m objs (p_height s) (p_peers s) (p_peerObjs s) (p_maxPeerHeight s) (p_numPending s) (p_maxRequesterHeight s) (p_requestsCh s) (p_errorsCh s) (p_next s).
Definition setObjs (objs : list bpRequester) (s : BlockPool) : BlockPool := setRequesters (p_requesters s) objs s.
Definition setPeers (m : gmap NodeID nat) (objs : list bpPeer) (s : BlockPool) : BlockPool :=
  mkPool (p_running s) (p_startTime s) (p_requesters s) (p_objs s) (p_height s) m objs (p_maxPeerHeight s) (p_numPending s) (p_maxRequesterHeight s) (p_requestsCh s) (p_errorsCh s) (p_next s).
Definition setHeights (h maxPeer : Z) (s : BlockPool) : BlockPool :=
  mkPool (p_running s) (p_startTime s) (p_requesters s) (p_objs s) h (p_peers s) (p_peerObjs s) maxPeer (p_numPending s) (p_maxRequesterHeight s) (p_requestsCh s) (p_errorsCh s) (p_next s).
Definition addPending (d : Z) (s : BlockPool) : BlockPool :=
  mkPool (p_running s) (p_startTime s) (p_requesters s) (p_objs s) (p_height s) (p_peers s) (p_peerObjs s) (p_maxPeerHeight s) (wrap32 (p_numPending s + d)) (p_maxRequesterHeight s) (p_requestsCh s) (p_errorsCh s) (p_next s).
Definition setChannels (reqs : list BlockRequest) (errs : list (peerError * NodeID)) (s : BlockPool) : BlockPool :=
  mkPool (p_running s) (p_startTime s) (p_requesters s) (p_objs s) (p_height s) (p_peers s) (p_peerObjs s) (p_maxPeerHeight s) (p_numPending s) (p_maxRequesterHeight s) reqs errs (p_next s).
Definition stopPool (s : BlockPool) : BlockPool :=
  mkPool false (p_startTime s) (p_requesters s) (p_objs s) (p_height s) (p_peers s) (p_peerObjs s) (p_maxPeerHeight s) (p_numPending s) (p_maxRequesterHeight s) (p_requestsCh s) (p_errorsCh s) (p_next s).

Definition setNext (n : option bool) (s : BlockPool) : BlockPool :=
  mkPool (p_running s) (p_startTime s) (p_requesters s) (p_objs s) (p_height s) (p_peers s) (p_peerObjs s) (p_maxPeerHeight s) (p_numPending s) (p_maxRequesterHeight s) (p_requestsCh s) (p_errorsCh s) n.

Definition sendError (err : peerError) (id : NodeID) (s : BlockPool) : BlockPool :=
  if p_running s then setChannels (p_requestsCh s) (p_errorsCh s ++ [(err, id)]) s else s.
Definition sendRequest (height : Z) (id : NodeID) (s : BlockPool) : BlockPool :=
  if p_running s then setChannels (p_requestsCh s ++ [mkRequest height id None]) (p_errorsCh s) s else s.
Definition sendRequestBucket (height : Z) (id : NodeID) (bucketID : bytes) (s : BlockPool) : BlockPool :=
  if p_running s then setChannels (p_requestsCh s ++ [mkRequest height id (Some bucketID)]) (p_errorsCh s) s else s.

(** ** Requesters *)

Definition setBlock (r : bpRequester) (block : Block.Block) (id : NodeID) : bpRequester * bool :=
  match r_block r with
  | Some _ => (r, false)
  | None => if bool_decide (r_peerID r = id)
            then (mkRequester (r_height r) true (r_redoCh r) (r_peerID r) (Some block) (r_stopped r) (r_routine r), true)
            else (r, false)
  end.
Definition redo (r : bpRequester) : bpRequester := mkRequester (r_height r) (r_gotBlockCh r) true (r_peerID r) (r_block r) (r_stopped r) (r_routine r).
Definition Stop (r : bpRequester) : bpRequester := mkRequester (r_height r) (r_gotBlockCh r) (r_redoCh r) (r_peerID r) (r_block r) true (r_routine r).
Definition goto (pc : routine) (r : bpRequester) : bpRequester := mkRequester (r_height r) (r_gotBlockCh r) (r_redoCh r) (r_peerID r) (r_block r) (r_stopped r) pc.
Definition assign (id : NodeID) (r : bpRequester) : bpRequester := mkRequester (r_height r) (r_gotBlockCh r) (r_redoCh r) id (r_block r) (r_stopped r) (Sending id).
(** [redoCh] is read and [reset] called, which adds to [numPending] if there was a block. *)
Definition reset (r : bpRequester) : bpRequester := mkRequester (r_height r) (r_gotBlockCh r) false zeroID None (r_stopped r) Picking.
Definition resetPending (r : bpRequester) : Z := match r_block r with Some _ => 1 | None => 0 end.
(** [gotBlockCh] is read and the routine returns. *)
Definition gotBlock (r : bpRequester) : bpRequester := mkRequester (r_height r) false (r_redoCh r) (r_peerID r) (r_block r) (r_stopped r) Returned.

(** ** Peers *)

Definition incrPending (p : bpPeer) : bpPeer :=
  let first := pe_numPending p =? 0 in
  mkPeer (pe_id p) (first || pe_monitor p) (pe_height p) (wrap32 (pe_numPending p + 1)) (first || pe_timeout p) (pe_didTimeout p).
Definition decrPending (p : bpPeer) : go bpPeer :=
  let n := wrap32 (pe_numPending p - 1) in
  if n =? 0 then (if pe_timeout p then Ret (mkPeer (pe_id p) (pe_monitor p) (pe_height p) n true (pe_didTimeout p)) else Panic NilDeref)
  else if pe_monitor p then Ret (mkPeer (pe_id p) true (pe_height p) n true (pe_didTimeout p)) else Panic NilDeref.
Definition timedOut (p : bpPeer) : bpPeer := mkPeer (pe_id p) (pe_monitor p) (pe_height p) (pe_numPending p) (pe_timeout p) true.

Definition onTimeout (k : nat) (s : BlockPool) : go BlockPool :=
  p ← deref (p_peerObjs s !! k);
  Ret (setPeers (p_peers s) (<[k := timedOut p]> (p_peerObjs s)) (sendError ErrNothingSent (pe_id p) s)).

(** Every requester of the map that asked the peer is told to ask another. *)
Definition redoAll (id : NodeID) (m : gmap Z nat) (objs : list bpRequester) : list bpRequester :=
  foldr (fun x objs => alter (fun r => if bool_decide (r_peerID r = id) then redo r else r) x.2 objs) objs (map_to_list m).
Definition removePeer (id : NodeID) (s : BlockPool) : BlockPool :=
  setPeers (delete id (p_peers s)) (p_peerObjs s) (setObjs (redoAll id (p_requesters s) (p_objs s)) s).
Definition RemovePeer := removePeer.

(** [for _, peer := range pool.peers]: the keys in the order of the walk; a key
    that was deleted on the way is left out. *)
Fixpoint removeTimedoutPeers (rate : NodeID -> Z) (order : list NodeID) (s : BlockPool) : go BlockPool :=
  match order with
  | [] => Ret s
  | id :: order =>
      match p_peers s !! id with
      | None => removeTimedoutPeers rate order s
      | Some k =>
          p ← deref (p_peerObjs s !! k);
          '(p, s) ← (if negb (pe_didTimeout p) && (0 <? pe_numPending p) then
                       if pe_monitor p then
                         let curRate := rate id in
                         if negb (curRate =? 0) && (curRate <? minRecvRate)
                         then Ret (timedOut p, setPeers (p_peers s) (<[k := timedOut p]> (p_peerObjs s)) (sendError ErrTooSlow (pe_id p) s))
                         else Ret (p, s)
                       else Panic NilDeref
                     else Ret (p, s));
          removeTimedoutPeers rate order (if pe_didTimeout p then removePeer (pe_id p) s else s)
      end
  end.

(** [pickIncrAvailablePeer], and with a segment [PickIncrAvailablePeerInSegment]. *)
Fixpoint pickPeer (segment : option bytes) (minHeight : Z) (order : list NodeID) (s : BlockPool) : go (BlockPool * option NodeID) :=
  match order with
  | [] => Ret (s, None)
  | id :: order =>
      match p_peers s !! id with
      | None => pickPeer segment minHeight order s
      | Some k =>
          p ← deref (p_peerObjs s !! k);
          if pe_didTimeout p then pickPeer segment minHeight order (removePeer (pe_id p) s)
          else if maxPendingRequestsPerPeer <=? pe_numPending p then pickPeer segment minHeight order s
          else if pe_height p <? minHeight then pickPeer segment minHeight order s
          else if match segment with Some seg => negb (bytes_eqb (SegmentID (pe_id p)) seg) | None => false end then pickPeer segment minHeight order s
          else Ret (setPeers (p_peers s) (<[k := incrPending p]> (p_peerObjs s)) s, Some (pe_id p))
      end
  end.
Definition pickIncrAvailablePeer := pickPeer None.
Definition PickIncrAvailablePeerInSegment (minHeight : Z) (targetSegment : bytes) := pickPeer (Some targetSegment) minHeight.

Definition SetPeerHeight (id : NodeID) (height : Z) (s : BlockPool) : go BlockPool :=
  s ← (match p_peers s !! id with
       | Some k =>
           p ← deref (p_peerObjs s !! k);
           Ret (setPeers (p_peers s) (<[k := mkPeer (pe_id p) (pe_monitor p) height (pe_numPending p) (pe_timeout p) (pe_didTimeout p)]> (p_peerObjs s)) s)
       | None => Ret (setPeers (<[id := length (p_peerObjs s)]> (p_peers s)) (p_peerObjs s ++ [newBPPeer id height]) s)
       end);
  Ret (if p_maxPeerHeight s <? height then setHeights (p_height s) height s else s).

(** ** The pool *)

Definition GetStatus (s : BlockPool) : Z * Z * Z := (p_height s, p_numPending s, Z.of_nat (size (p_requesters s))).
Definition IsCaughtUp (now : Time) (s : BlockPool) : bool :=
  if Z.of_nat (size (p_peers s)) =? 0 then false else
  let receivedBlockOrTimedOut := (0 <? p_height s) || (5 * 1000000000 <? now - p_startTime s) in
  let ourChainIsLongestAmongPeers := (p_maxPeerHeight s =? 0) || (Z.quot (p_maxPeerHeight s) 100 <=? Z.quot (p_height s) 100) in
  receivedBlockOrTimedOut && ourChainIsLongestAmongPeers.
Definition requesterAt (h : Z) (s : BlockPool) : option (nat * bpRequester) := i ← p_requesters s !! h; r ← p_objs s !! i; Some (i, r).
Definition PeekBlock (s : BlockPool) : option Block.Block := x ← requesterAt (p_height s) s; r_block x.2.
Definition PopRequest (s : BlockPool) : go BlockPool :=
  match requesterAt (p_height s) s with
  | Some (i, r) =>
      Ret (setHeights (add64 (p_height s) 1) (p_maxPeerHeight s)
             (setRequesters (delete (p_height s) (p_requesters s)) (<[i := Stop r]> (p_objs s)) s))
  | None => Panic (PanicMsg "Expected requester to pop, got nothing")
  end.
Definition RedoRequest (height : Z) (s : BlockPool) : go (BlockPool * NodeID) :=
  x ← deref (requesterAt height s);
  match r_block x.2 with
  | None => Panic (PanicMsg "Expected block to be non-nil")
  | Some _ => Ret (removePeer (r_peerID x.2) s, r_peerID x.2)
  end.

(** The result tells that we are in the region of the proposers. *)
Definition AddBlock (id : NodeID) (block : option Block.Block) (segmentID : Z) (s : BlockPool) : go (BlockPool * bool) :=
  b ← deref block;
  h ← deref (Block.b_Header b);
  let height := Block.Height h in
  match requesterAt height s with
  | None =>
      if (p_height s <? height) && (Z.rem segmentID 100 =? Z.rem height 100 + 1) then Ret (s, true) else
      let diff := sub64 (p_height s) height in
      let diff := if diff <? 0 then mul64 diff (-1) else diff in
      Ret (if maxDiffBetweenCurrentAndReceivedBlockHeight <? diff then sendError ErrUnexpectedBlock id s else s, false)
  | Some (i, r) =>
      match setBlock r b id with
      | (r, true) =>
          let s := addPending (-1) (setObjs (<[i := r]> (p_objs s)) s) in
          match p_peers s !! id with
          | Some k => p ← deref (p_peerObjs s !! k); p ← decrPending p; Ret (setPeers (p_peers s) (<[k := p]> (p_peerObjs s)) s, false)
          | None => Ret (s, false)
          end
      | (_, false) => Ret (s, false)
      end
  end.

(** The height of the next requester. *)
Definition nextHeight (s : BlockPool) : Z :=
  let goalHeight := p_maxPeerHeight s in
  let currentHeight := p_maxRequesterHeight s in
  if Z.rem currentHeight 1000 <? Z.rem goalHeight 1000 then (Z.rem currentHeight 1000 + 1) * 1000
  else if Z.rem currentHeight 100 <? Z.rem goalHeight 100 then (Z.rem currentHeight 100 + 1) * 100
  else add64 currentHeight 1.
Definition makeNextRequester (s : BlockPool) : BlockPool :=
  addPending 1 (setRequesters (<[nextHeight s := length (p_objs s)]> (p_requesters s)) (p_objs s ++ [newBPRequester (nextHeight s)]) s).

(** What [makeRequestersRoutine] does after it read the status: it makes a
    requester, or it waits and removes the slow peers. *)
Definition makesRequester (s : BlockPool) : bool :=
  let '(_, numPending, lenRequesters) := GetStatus s in
  if maxPendingRequests <=? numPending then false else negb (maxTotalRequesters <=? lenRequesters).

(** The bucket requester that is made is neither kept nor started. *)
Definition requestUTXOBucket (height : Z) (bucketID : bytes) (s : BlockPool) : BlockPool := s.

(** ** The goroutine of a requester *)

(** A turn: it picks a peer (with the order of the walk), notes it, sends the
    request, or takes one of the ready cases of the [select]. *)
Inductive turn := TPick (order : list NodeID) | TAssign | TSend | TPoolQuit | TQuit | TRedo | TGotBlock.

(** [None]: the turn is not possible. *)
Definition requestRoutine (i : nat) (t : turn) (s : BlockPool) : go (option BlockPool) :=
  match p_objs s !! i with
  | None => Ret None
  | Some r =>
      let put r s := Some (setObjs (<[i := r]> (p_objs s)) s) in
      match t, r_routine r with
      | TPick order, Picking =>
          if r_stopped r || negb (p_running s) then Ret (put (goto Returned r) s) else
          '(s, peer) ← pickIncrAvailablePeer (r_height r) order s;
          match peer with
          | None => Ret (Some s)
          | Some id => Ret (Some (setObjs (alter (goto (Picked id)) i (p_objs s)) s))
          end
      | TAssign, Picked id => Ret (put (assign id r) s)
      | TSend, Sending id => Ret (put (goto Waiting r) (sendRequest (r_height r) id s))
      | TPoolQuit, Waiting => Ret (if p_running s then None else put (goto Returned (Stop r)) s)
      | TQuit, Waiting => Ret (if r_stopped r then put (goto Returned r) s else None)
      | TRedo, Waiting => Ret (if r_redoCh r then put (reset r) (addPending (resetPending r) s) else None)
      | TGotBlock, Waiting => Ret (if r_gotBlockCh r then put (gotBlock r) s else None)
      | _, _ => Ret None
      end
  end.

(** ** The steps of the program *)

Inductive event :=
| ECheck | EMake | EClean (rate : NodeID -> Z) (order : list NodeID) | ERequester (i : nat) (t : turn)
| EAddBlock (id : NodeID) (block : option Block.Block) (segmentID : Z)
| ESetPeerHeight (id : NodeID) (height : Z) | ERemovePeer (id : NodeID) | ETimeout (k : nat)
| EPickInSegment (minHeight : Z) (segment : bytes) (order : list NodeID)
| EPop | ERedo (height : Z) | EStop | ERequest | EError.
(** [ERequest] and [EError]: the reactor takes an element from a channel. *)
Definition run (e : event) (s : BlockPool) : go (option BlockPool) :=
  match e with
  | ECheck => Ret (match p_next s with None => if p_running s then Some (setNext (Some (makesRequester s)) s) else None | Some _ => None end)
  | EMake => Ret (match p_next s with Some true => Some (setNext None (makeNextRequester s)) | _ => None end)
  | EClean rate order => match p_next s with Some false => s ← removeTimedoutPeers rate order s; Ret (Some (setNext None s)) | _ => Ret None end
  | ERequester i t => requestRoutine i t s
  | EAddBlock id block seg => r ← AddBlock id block seg s; Ret (Some r.1)
  | ESetPeerHeight id h => s ← SetPeerHeight id h s; Ret (Some s)
  | ERemovePeer id => Ret (Some (RemovePeer id s))
  | ETimeout k => s ← onTimeout k s; Ret (Some s)
  | EPickInSegment h seg order => r ← PickIncrAvailablePeerInSegment h seg order s; Ret (Some r.1)
  | EPop => s ← PopRequest s; Ret (Some s)
  | ERedo h => r ← RedoRequest h s; Ret (Some r.1)
  | EStop => Ret (Some (stopPool s))
  | ERequest => Ret (match p_requestsCh s with _ :: l => Some (setChannels l (p_errorsCh s) s) | [] => None end)
  | EError => Ret (match p_errorsCh s with _ :: l => Some (setChannels (p_requestsCh s) l s) | [] => None end)
  end.
(** The channels have room for [capacity] elements: a step that would need more waits. *)
Definition capacity : nat := 1000.
Definition fits (s : BlockPool) : Prop := (length (p_requestsCh s) <= capacity)%nat /\ (length (p_errorsCh s) <= capacity)%nat.
(** A walk meets every key once. *)
Definition walks (s : BlockPool) (order : list NodeID) : Prop := order ≡ₚ (map_to_list (p_peers s)).*1.
Definition possible (e : event) (s : BlockPool) : Prop :=
  match e with
  | EClean _ order | ERequester _ (TPick order) | EPickInSegment _ _ order => walks s order
  | _ => True
  end.
Inductive runs (s0 : BlockPool) : list event -> BlockPool -> Prop :=
| runs_start : runs s0 [] s0
| runs_step l e s s' : runs s0 l s -> possible e s -> run e s = Ret (Some s') -> fits s' -> runs s0 (l ++ [e]) s'.

(** ** Steps that leave the requests as they are *)

(** The same requester, perhaps told to ask another peer. *)
Definition redone (r r' : bpRequester) : Prop := r' = r \/ r' = redo r.
Record frame (s s' : BlockPool) : Prop := mkFrame {
  f_requesters : p_requesters s' = p_requesters s;
  f_height : p_height s' = p_height s;
  f_max : p_maxPeerHeight s' = p_maxPeerHeight s;
  f_pending : p_numPending s' = p_numPending s;
  f_maxReq : p_maxRequesterHeight s' = p_maxRequesterHeight s;
  f_objs : Forall2 redone (p_objs s) (p_objs s') }.

#[export] Instance redone_refl : Reflexive redone.
Proof. by left. Qed.
#[export] Instance redone_trans : Transitive redone.
Proof. intros x y z [->| ->] [->| ->]; by (left + right). Qed.
#[export] Instance frame_refl : Reflexive frame.
Proof. intros s. by split. Qed.
#[export] Instance frame_trans : Transitive frame.
Proof. intros s1 s2 s3 [] []. split; [congruence..|]. by etrans. Qed.

Lemma frame_setPeers m objs s : frame s (setPeers m objs s).
Proof. by split. Qed.
Lemma frame_setChannels reqs errs s : frame s (setChannels reqs errs s).
Proof. by split. Qed.
Lemma frame_sendError err id s : frame s (sendError err id s).
Proof. unfold sendError. destruct (p_running s); [apply frame_setChannels|done]. Qed.
Lemma frame_sendRequest h id s : frame s (sendRequest h id s).
Proof. unfold sendRequest. destruct (p_running s); [apply frame_setChannels|done]. Qed.
#[local] Hint Resolve frame_setPeers frame_setChannels frame_sendError frame_sendRequest : core.

Lemma redoAll_redone id m objs : Forall2 redone objs (redoAll id m objs).
Proof.
  unfold redoAll. induction (map_to_list m) as [|x l IH]; cbn; [done|]. etrans; [exact IH|].
  set (o := foldr _ objs l). apply Forall2_same_length_lookup. split; [by rewrite length_alter|].
  intros i r r' Hr Hr'. destruct (decide (x.2 = i)) as [<-|Hne].
  - rewrite list_lookup_alter_eq, Hr in Hr'. injection Hr' as <-. destruct (bool_decide _); [by right|by left].
  - rewrite list_lookup_alter_ne, Hr in Hr' by done. injection Hr' as <-. by left.
Qed.
Lemma frame_removePeer id s : frame s (removePeer id s).
Proof. split; try done. apply redoAll_redone. Qed.
#[local] Hint Resolve frame_removePeer : core.

Lemma removeTimedoutPeers_frame rate order s s' : removeTimedoutPeers rate order s = Ret s' -> frame s s'.
Proof.
  revert s. induction order as [|id order IH]; intros s H; cbn in H; [by injection H as <-|].
  destruct (p_peers s !! id) as [k|]; [|auto]. apply bind_ret_inv in H as (p & _ & H). apply bind_ret_inv in H as ([p' s1] & H1 & H).
  apply IH in H. assert (F1 : frame s s1).
  { destruct (_ && _) in H1; [|by injection H1 as _ <-]. destruct (pe_monitor p); [|done].
    destruct (_ && _) in H1; injection H1 as _ <-; [|done]. etrans; [apply frame_sendError|apply frame_setPeers]. }
  etrans; [exact F1|]. etrans; [|exact H]. destruct (pe_didTimeout p'); [apply frame_removePeer|done].
Qed.
Lemma pickPeer_frame seg h order s s' id : pickPeer seg h order s = Ret (s', id) -> frame s s'.
Proof.
  revert s. induction order as [|x order IH]; intros s H; cbn in H; [by injection H as <- _|].
  destruct (p_peers s !! x) as [k|]; [|auto]. apply bind_ret_inv in H as (p & _ & H).
  destruct (pe_didTimeout p); [etrans; [apply frame_removePeer|by eapply IH]|].
  destruct (_ <=? _) in H; [auto|]. destruct (_ <? _) in H; [auto|]. destruct seg as [seg|]; [destruct (negb _) in H; [auto|]|];
    by injection H as <- _.
Qed.
Lemma RedoRequest_frame h s s' id : RedoRequest h s = Ret (s', id) -> frame s s'.
Proof.
  intros H. apply bind_ret_inv in H as (x & _ & H). destruct (r_block x.2); [|done]. injection H as <- _. apply frame_removePeer.
Qed.

(** ** The invariant *)

(** The requesters that were made and have no block. *)
Definition unanswered (objs : list bpRequester) : Z := sumZ (fun r => match r_block r with None => 1 | Some _ => 0 end) objs.

Lemma unanswered_cons r objs : unanswered (r :: objs) = (match r_block r with None => 1 | Some _ => 0 end) + unanswered objs.
Proof. reflexivity. Qed.

(** A requester's block is of its height and was sent by the peer it asked. *)
Record requesterOK (tr : list event) (r : bpRequester) : Prop := mkReqOK {
  q_block : forall b, r_block r = Some b -> exists id seg h,
    EAddBlock id (Some b) seg ∈ tr /\ Block.b_Header b = Some h /\ Block.Height h = r_height r /\ (id = r_peerID r \/ id = zeroID);
  q_idle : match r_routine r with Picking | Picked _ => r_peerID r = zeroID | _ => True end }.
Record Inv (start : Z) (tr : list event) (s : BlockPool) : Prop := mkInv {
  i_pending : p_numPending s = wrap32 (unanswered (p_objs s));
  i_objs : Forall (requesterOK tr) (p_objs s);
  i_map : forall h i, p_requesters s !! h = Some i -> exists r, p_objs s !! i = Some r /\ r_height r = h;
  i_keys : forall h i, p_requesters s !! h = Some i -> h = 1 \/ h = 1000;
  i_maxReq : p_maxRequesterHeight s = 0;
  i_max : 0 <= p_maxPeerHeight s;
  i_height : p_height s = start \/ (start = 1 \/ start = 1000) /\ p_height s = start + 1 }.

Lemma requesterOK_mono tr e r : requesterOK tr r -> requesterOK (tr ++ [e]) r.
Proof. intros [Hb Hi]. split; [|done]. intros b Hr. destruct (Hb b Hr) as (id & seg & h & Hin & ?). exists id, seg, h. split; [set_solver|done]. Qed.
Lemma redone_ok tr r r' : requesterOK tr r -> redone r r' -> requesterOK tr r'.
Proof. intros Hr [->| ->]; [done|]. destruct Hr. by split. Qed.
Lemma redone_fields r r' : redone r r' -> r_height r' = r_height r /\ r_block r' = r_block r /\ r_peerID r' = r_peerID r /\ r_routine r' = r_routine r /\ r_gotBlockCh r' = r_gotBlockCh r.
Proof. by intros [->| ->]. Qed.
Lemma unanswered_redone objs objs' : Forall2 redone objs objs' -> unanswered objs' = unanswered objs.
Proof.
  induction 1 as [|r r' objs objs' Hr Hf IH]; [done|]. rewrite !unanswered_cons, IH. destruct (redone_fields _ _ Hr) as (_ & -> & _). done.
Qed.

Lemma Inv_frame start tr s s' : frame s s' -> Inv start tr s -> Inv start tr s'.
Proof.
  intros [Er Eh Em Ep Eq Ho] [Hp Hob Hm Hk Hq Hx Hht]. split.
  - by rewrite Ep, Hp, (unanswered_redone _ _ Ho).
  - apply Forall_lookup. intros i r' Hr'. destruct (Forall2_lookup_r _ _ _ _ _ Ho Hr') as (r & Hr & Hrr).
    eapply redone_ok; [|exact Hrr]. by eapply Forall_lookup in Hob.
  - rewrite Er. intros h i Hi. destruct (Hm h i Hi) as (r & Hr & <-). destruct (Forall2_lookup_l _ _ _ _ _ Ho Hr) as (r' & Hr' & Hrr).
    exists r'. split; [done|]. apply (redone_fields _ _ Hrr).
  - rewrite Er. exact Hk.
  - congruence.
  - congruence.
  - by rewrite Eh.
Qed.
Lemma Inv_mono start tr e s : Inv start tr s -> Inv start (tr ++ [e]) s.
Proof. intros []. split; try done. eapply Forall_impl; [done|]. intros r. apply requesterOK_mono. Qed.

Lemma unanswered_insert objs i r r' : objs !! i = Some r ->
  unanswered (<[i := r']> objs) = unanswered objs + (match r_block r' with None => 1 | Some _ => 0 end) - (match r_block r with None => 1 | Some _ => 0 end).
Proof.
  revert i. induction objs as [|x objs IH]; intros [|i] H; cbn in H; [done|done| |].
  - injection H as ->. cbn [insert list_insert]. rewrite !unanswered_cons. lia.
  - change (<[S i:=r']> (x :: objs)) with (x :: <[i:=r']> objs). rewrite !unanswered_cons, (IH i H). lia.
Qed.
Lemma wrap32_add a d : wrap32 (wrap32 a + d) = wrap32 (a + d).
Proof. unfold wrap32. f_equal. Z.div_mod_to_equations. lia. Qed.

(** A requester is replaced by one of its height. *)
Lemma Inv_put start tr s i r r' d : Inv start tr s -> p_objs s !! i = Some r -> r_height r' = r_height r -> requesterOK tr r' ->
  d = (match r_block r' with None => 1 | Some _ => 0 end) - (match r_block r with None => 1 | Some _ => 0 end) ->
  Inv start tr (addPending d (setObjs (<[i := r']> (p_objs s)) s)).
Proof.
  intros [Hp Hob Hm Hk Hq Hx Hht] Hi Hh Hr' ->. split; cbn; try done.
  - rewrite Hp, wrap32_add, (unanswered_insert _ _ _ _ Hi). f_equal. lia.
  - by apply Forall_insert.
  - intros h j Hj. destruct (Hm h j Hj) as (x & Hx' & <-). destruct (decide (i = j)) as [<-|Hne].
    + exists r'. rewrite list_lookup_insert_eq by (by eapply lookup_lt_Some). by simplify_eq.
    + exists x. by rewrite list_lookup_insert_ne.
Qed.
Lemma addPending_0 start tr s : Inv start tr (addPending 0 s) -> p_numPending s = wrap32 (p_numPending s) -> Inv start tr s.
Proof. intros [Hp Hob Hm Hk Hq Hx Hht] Hn. split; try done. cbn in Hp. rewrite Z.add_0_r in Hp. congruence. Qed.
Lemma wrap32_idem a : wrap32 (wrap32 a) = wrap32 a.
Proof. pose proof (wrap32_add a 0) as H. by rewrite !Z.add_0_r in H. Qed.
Lemma Inv_put0 start tr s i r r' : Inv start tr s -> p_objs s !! i = Some r -> r_height r' = r_height r -> requesterOK tr r' -> r_block r' = r_block r ->
  Inv start tr (setObjs (<[i := r']> (p_objs s)) s).
Proof.
  intros Hinv Hi Hh Hr' Hb. apply addPending_0; [eapply (Inv_put _ _ _ _ r r' 0); [done..|rewrite Hb; lia]|].
  cbn. destruct Hinv as [-> _ _ _ _ _ _]. by rewrite wrap32_idem.
Qed.

Lemma Inv_new start now : Inv start [] (NewBlockPool start now).
Proof. split; cbn; try done; by left. Qed.

Lemma nextHeight_cases s : p_maxRequesterHeight s = 0 -> 0 <= p_maxPeerHeight s -> nextHeight s = 1 \/ nextHeight s = 1000.
Proof.
  intros Hq Hx. unfold nextHeight. rewrite Hq. change (Z.rem 0 1000) with 0. change (Z.rem 0 100) with 0. rewrite !Z.rem_mod_nonneg by lia.
  destruct (Z.ltb_spec 0 (p_maxPeerHeight s mod 1000)); [by right|]. destruct (Z.ltb_spec 0 (p_maxPeerHeight s mod 100)); [|by left].
  exfalso. Z.div_mod_to_equations. lia.
Qed.

Lemma Inv_make start tr s : Inv start tr s -> Inv start tr (makeNextRequester s).
Proof.
  intros [Hp Hob Hm Hk Hq Hx Hht]. split; cbn; try done.
  - rewrite Hp, wrap32_add. unfold unanswered. rewrite sumZ_app. done.
  - apply Forall_app. split; [done|]. apply Forall_cons. split; [|by apply Forall_nil]. by split.
  - intros h i [[<- <-]|[Hne Hi]]%lookup_insert_Some.
    + exists (newBPRequester (nextHeight s)). split; [by apply list_lookup_middle|done].
    + destruct (Hm h i Hi) as (r & Hr & ?). exists r. split; [by apply lookup_app_l_Some|done].
  - intros h i [[<- _]|[_ Hi]]%lookup_insert_Some; [by apply nextHeight_cases|eauto].
Qed.

Lemma requesterAt_some h s i r : requesterAt h s = Some (i, r) -> p_requesters s !! h = Some i /\ p_objs s !! i = Some r.
Proof. unfold requesterAt. destruct (_ !! h) as [j|]; [|done]. cbn. destruct (p_objs s !! j) eqn:E; [|done]. cbn. by intros [= <- <-]. Qed.

Lemma Inv_Pop start tr s s' : Inv start tr s -> PopRequest s = Ret s' -> Inv start tr s'.
Proof.
  intros Hinv H. unfold PopRequest in H. destruct (requesterAt _ s) as [[i r]|] eqn:E; [|done]. injection H as <-.
  apply requesterAt_some in E as [Hi Hr]. pose proof (i_keys _ _ _ Hinv _ _ Hi) as Hkey. pose proof (i_height _ _ _ Hinv) as Hht.
  pose proof (Forall_lookup_1 _ _ _ _ (i_objs _ _ _ Hinv) Hr) as Hok.
  destruct (Inv_put0 start tr s i r (Stop r) Hinv Hr eq_refl) as [Hp Hob Hm Hk Hq Hx _]; [by destruct Hok; split|done|].
  split; cbn in *; try done.
  - intros h j [_ Hj]%lookup_delete_Some. eauto.
  - intros h j [_ Hj]%lookup_delete_Some. eauto.
  - right. destruct Hht as [Hht|[? E]]; [|lia]. rewrite Hht in *. split; [done|]. destruct Hkey as [-> | ->]; reflexivity.
Qed.

Lemma Inv_SetPeerHeight start tr s id h s' : Inv start tr s -> SetPeerHeight id h s = Ret s' -> Inv start tr s'.
Proof.
  intros Hinv H. apply bind_ret_inv in H as (s1 & H1 & [= <-]).
  assert (Hi1 : Inv start tr s1).
  { destruct (p_peers s !! id) as [k|]; [apply bind_ret_inv in H1 as (p & _ & H1)|]; injection H1 as <-; eapply Inv_frame, Hinv; auto. }
  destruct (Z.ltb_spec (p_maxPeerHeight s1) h); [|done]. destruct Hi1. split; try done. cbn. lia.
Qed.

Lemma Inv_AddBlock start tr s id block seg s' res : Inv start tr s -> AddBlock id block seg s = Ret (s', res) -> Inv start (tr ++ [EAddBlock id block seg]) s'.
Proof.
  intros Hinv H. apply bind_ret_inv in H as (b & Hb & H). destruct block as [b'|]; [|done]. injection Hb as ->.
  apply bind_ret_inv in H as (h & Hh & H). cbv zeta in H.
  apply (Inv_mono _ _ (EAddBlock id (Some b) seg)) in Hinv. destruct (requesterAt _ s) as [[i r]|] eqn:E.
  - apply requesterAt_some in E as [Hi Hr]. destruct (i_map _ _ _ Hinv _ _ Hi) as (r' & Hr' & Hht). simplify_eq.
    pose proof (Forall_lookup_1 _ _ _ _ (i_objs _ _ _ Hinv) Hr) as [Hqb Hqi]. unfold setBlock in H.
    destruct (r_block r) as [b0|] eqn:Eb; [by injection H as <- _|]. destruct (bool_decide_reflect (r_peerID r = id)) as [Hid|]; [|by injection H as <- _].
    assert (Hi' : Inv start (tr ++ [EAddBlock id (Some b) seg]) (addPending (-1) (setObjs (<[i := mkRequester (r_height r) true (r_redoCh r) (r_peerID r) (Some b) (r_stopped r) (r_routine r)]> (p_objs s)) s))).
    { eapply Inv_put; [done|done|done| |by rewrite Eb]. split; [|done]. cbn. intros b0 [= <-]. destruct (Block.b_Header b) as [h'|] eqn:Ehd; [|done]. injection Hh as ->.
      exists id, seg, h. split_and!; [set_solver|done|done|by left]. }
    destruct (p_peers _ !! id) as [k|] in H; [|by injection H as <- _].
    apply bind_ret_inv in H as (p & _ & H). apply bind_ret_inv in H as (p' & _ & [= <- _]). eapply Inv_frame, Hi'. apply frame_setPeers.
  - destruct (_ && _) in H; [by injection H as <- _|]. injection H as <- _. destruct (_ <? _); [|done]. eapply Inv_frame, Hinv. apply frame_sendError.
Qed.

Lemma alter_as_insert {A} (f : A -> A) (l : list A) i x : l !! i = Some x -> alter f i l = <[i := f x]> l.
Proof. revert i. induction l as [|y l IH]; intros [|i] H; cbn in *; simplify_eq; [done|]. f_equal. by apply IH. Qed.

Lemma Inv_requester start tr s i t s' : Inv start tr s -> requestRoutine i t s = Ret (Some s') -> Inv start tr s'.
Proof.
  intros Hinv H. unfold requestRoutine in H. destruct (p_objs s !! i) as [r|] eqn:Hr; [|done].
  pose proof (Forall_lookup_1 _ _ _ _ (i_objs _ _ _ Hinv) Hr) as Hok. pose proof Hok as [Hqb Hqi]. cbv zeta in H.
  destruct t, (r_routine r) eqn:Epc; try done.
  - destruct (_ || _) in H; [injection H as <-; by eapply Inv_put0; [done|done|done|split; [done|cbn; done]|]|].
    apply bind_ret_inv in H as ([s1 peer] & H1 & H). pose proof (pickPeer_frame _ _ _ _ _ _ H1) as F. pose proof (Inv_frame _ _ _ _ F Hinv) as Hi1.
    destruct peer as [id|]; injection H as <-; [|done].
    destruct (Forall2_lookup_l _ _ _ _ _ (f_objs _ _ F) Hr) as (r1 & Hr1 & Hrr). destruct (redone_fields _ _ Hrr) as (Eh & Eb & Eid & Ert & _).
    pose proof (Forall_lookup_1 _ _ _ _ (i_objs _ _ _ Hi1) Hr1) as [Hqb1 Hqi1].
    rewrite (alter_as_insert _ (p_objs s1) i r1) by done.
    eapply Inv_put0; [done|done|done|split; [done|cbn]|done]. by rewrite Ert, Epc in Hqi1.
  - injection H as <-. eapply Inv_put0; [done|done|done|split; [cbn|done]|done]. intros b Hb. destruct (Hqb b Hb) as (id' & seg & h & Hin & Hh1 & Hh2 & Hid).
    exists id', seg, h. split_and!; [done|done|done|]. right. rewrite Hqi in Hid. by destruct Hid.
  - injection H as <-. set (s1 := sendRequest _ _ s). assert (Ho : p_objs s1 = p_objs s) by (unfold s1, sendRequest; by destruct (p_running s)).
    eapply Inv_put0; [eapply Inv_frame, Hinv; apply frame_sendRequest|by rewrite Ho|done|split; [done|cbn; done]|done].
  - destruct (p_running s); [done|]. injection H as <-. by eapply Inv_put0; [done|done|done|split; [done|cbn; done]|].
  - destruct (r_stopped r); [|done]. injection H as <-. by eapply Inv_put0; [done|done|done|split; [done|cbn; done]|].
  - destruct (r_redoCh r); [|done]. injection H as <-.
    change (Inv start tr (addPending (resetPending r) (setObjs (<[i:=reset r]> (p_objs s)) s))).
    eapply Inv_put; [done|done|done|by split|]. unfold resetPending. cbn. by destruct (r_block r).
  - destruct (r_gotBlockCh r); [|done]. injection H as <-. by eapply Inv_put0; [done|done|done|split; [done|cbn; done]|].
Qed.

Lemma Inv_run start tr s e s' : Inv start tr s -> run e s = Ret (Some s') -> Inv start (tr ++ [e]) s'.
Proof.
  intros Hinv H. destruct e; cbn in H.
  - apply Inv_mono. destruct (p_next s); [done|]. destruct (p_running s); [|done]. injection H as <-. by destruct Hinv; split.
  - apply Inv_mono. destruct (p_next s) as [[]|]; try done. injection H as <-. apply (Inv_make _ _ _) in Hinv. by destruct Hinv; split.
  - apply Inv_mono. destruct (p_next s) as [[]|]; try done. apply bind_ret_inv in H as (s1 & H1 & [= <-]). apply removeTimedoutPeers_frame in H1.
    eapply Inv_frame in H1; [|exact Hinv]. by destruct H1; split.
  - apply Inv_mono. by eapply Inv_requester.
  - apply bind_ret_inv in H as ([s1 res] & H1 & [= <-]). by eapply Inv_AddBlock.
  - apply Inv_mono. apply bind_ret_inv in H as (s1 & H1 & [= <-]). by eapply Inv_SetPeerHeight.
  - apply Inv_mono. injection H as <-. eapply Inv_frame, Hinv. apply frame_removePeer.
  - apply Inv_mono. apply bind_ret_inv in H as (s1 & H1 & [= <-]). apply bind_ret_inv in H1 as (p & _ & [= <-]). eapply Inv_frame, Hinv.
    etrans; [apply frame_sendError|apply frame_setPeers].
  - apply Inv_mono. apply bind_ret_inv in H as ([s1 id] & H1 & [= <-]). eapply Inv_frame, Hinv. by eapply pickPeer_frame.
  - apply Inv_mono. apply bind_ret_inv in H as (s1 & H1 & [= <-]). by eapply Inv_Pop.
  - apply Inv_mono. apply bind_ret_inv in H as ([s1 id] & H1 & [= <-]). eapply Inv_frame, Hinv. by eapply RedoRequest_frame.
  - apply Inv_mono. injection H as <-. by destruct Hinv; split.
  - apply Inv_mono. destruct (p_requestsCh s); [done|]. injection H as <-. eapply Inv_frame, Hinv. apply frame_setChannels.
  - apply Inv_mono. destruct (p_errorsCh s); [done|]. injection H as <-. eapply Inv_frame, Hinv. apply frame_setChannels.
Qed.

Lemma runs_Inv start now tr s : runs (NewBlockPool start now) tr s -> Inv start tr s.
Proof. induction 1 as [|l e s s' _ IH _ Hr _]; [apply Inv_new|by eapply Inv_run]. Qed.

(** ** Properties *)

(** The count of pending requests is exact: in every run, [numPending] is the number of requesters that were ever made
    and have no block, those included that another requester has displaced in the map. *)
Theorem pending_exact start now tr s : runs (NewBlockPool start now) tr s -> p_numPending s = wrap32 (unanswered (p_objs s)).
Proof. intros Hr. apply (i_pending _ _ _ (runs_Inv _ _ _ _ Hr)). Qed.

(** The block that fast sync looks at next is of the height of the pool and was received from a peer, and if it turns
    out to be bad it is the peer that sent it that [RedoRequest] removes: unless the zero identifier sent blocks, the
    identifier it returns is that of the peer that sent the block. *)
Theorem redo_blames_sender start now tr s b : runs (NewBlockPool start now) tr s -> PeekBlock s = Some b ->
  (forall b seg, EAddBlock zeroID b seg ∉ tr) ->
  exists s' id seg h, RedoRequest (p_height s) s = Ret (s', id) /\ p_peers s' !! id = None /\
    EAddBlock id (Some b) seg ∈ tr /\ Block.b_Header b = Some h /\ Block.Height h = p_height s.
Proof.
  intros Hr Hp Hz. pose proof (runs_Inv _ _ _ _ Hr) as Hinv. unfold PeekBlock in Hp.
  destruct (requesterAt (p_height s) s) as [[i r]|] eqn:E; [|done]. cbn in Hp. pose proof E as [Hi Hr']%requesterAt_some.
  destruct (q_block _ _ (Forall_lookup_1 _ _ _ _ (i_objs _ _ _ Hinv) Hr') b Hp) as (id & seg & h & Hin & Hh & Hht & [-> | ->]); [|by destruct (Hz (Some b) seg)].
  destruct (i_map _ _ _ Hinv _ _ Hi) as (r0 & Hr0 & Eh). simplify_eq.
  exists (removePeer (r_peerID r) s), (r_peerID r), seg, h. split_and!; [|cbn; apply lookup_delete_eq|done|done|congruence].
  unfold RedoRequest. rewrite E. cbn. by rewrite Hp.
Qed.

(** C31: fast sync gets stuck.  [maxRequesterHeight] is never written, so that every requester that is ever in the map is
    for height 1 or for height 1000; the pool leaves its first height at most once, and only from 1 or 1000; at any other
    height there is never a block to look at, and popping one panics. *)
Theorem sync_gets_stuck start now tr s : runs (NewBlockPool start now) tr s ->
  (forall h i, p_requesters s !! h = Some i -> h = 1 \/ h = 1000) /\
  (p_height s = start \/ (start = 1 \/ start = 1000) /\ p_height s = start + 1) /\
  (p_height s <> 1 -> p_height s <> 1000 -> PeekBlock s = None /\ PopRequest s = Panic (PanicMsg "Expected requester to pop, got nothing")).
Proof.
  intros Hr. pose proof (runs_Inv _ _ _ _ Hr) as Hinv. split; [apply (i_keys _ _ _ Hinv)|]. split; [apply (i_height _ _ _ Hinv)|].
  intros H1 H2. assert (E : requesterAt (p_height s) s = None).
  { unfold requesterAt. destruct (p_requesters s !! p_height s) as [i|] eqn:E; [|done]. destruct (i_keys _ _ _ Hinv _ _ E); done. }
  unfold PeekBlock, PopRequest. by rewrite E.
Qed.

(** ** Requesters that are gone *)

(** A requester whose goroutine has returned with a block keeps it. *)
Definition finished (b : Block.Block) (r : bpRequester) : Prop := r_routine r = Returned /\ r_block r = Some b.
Definition keeps (objs objs' : list bpRequester) : Prop :=
  forall i r b, objs !! i = Some r -> finished b r -> exists r', objs' !! i = Some r' /\ finished b r'.

Lemma keeps_refl objs : keeps objs objs.
Proof. intros i r b. eauto. Qed.
Lemma finished_trans o1 o2 o3 : keeps o1 o2 -> keeps o2 o3 -> keeps o1 o3.
Proof. intros H1 H2 i r b Hi Hf. destruct (H1 i r b Hi Hf) as (r' & Hi' & Hf'). by eapply H2. Qed.
Lemma keeps_redone objs objs' : Forall2 redone objs objs' -> keeps objs objs'.
Proof.
  intros Ho i r b Hi [Hr Hb]. destruct (Forall2_lookup_l _ _ _ _ _ Ho Hi) as (r' & Hi' & Hrr). destruct (redone_fields _ _ Hrr) as (_ & E1 & _ & E2 & _).
  exists r'. split; [done|]. split; congruence.
Qed.
Lemma keeps_frame s s' : frame s s' -> keeps (p_objs s) (p_objs s').
Proof. intros F. apply keeps_redone, (f_objs _ _ F). Qed.
Lemma keeps_insert objs j x x' : objs !! j = Some x -> (forall b, finished b x -> finished b x') -> keeps objs (<[j := x']> objs).
Proof.
  intros Hj Hx i r b Hi Hf. destruct (decide (j = i)) as [<-|Hne].
  - exists x'. rewrite list_lookup_insert_eq by (by eapply lookup_lt_Some). simplify_eq. auto.
  - exists r. by rewrite list_lookup_insert_ne.
Qed.

Lemma keeps_requester i t s s' : requestRoutine i t s = Ret (Some s') -> keeps (p_objs s) (p_objs s').
Proof.
  intros H. unfold requestRoutine in H. destruct (p_objs s !! i) as [r|] eqn:Hr; [|done]. cbv zeta in H.
  assert (Hput : forall r', r_routine r <> Returned -> keeps (p_objs s) (<[i := r']> (p_objs s))) by (intros r' Hn; eapply keeps_insert; [exact Hr|intros b [Hb _]; by destruct (Hn Hb)]).
  destruct t, (r_routine r) eqn:Epc; try done.
  - destruct (_ || _) in H; [injection H as <-; by apply Hput|]. apply bind_ret_inv in H as ([s1 peer] & H1 & H). apply pickPeer_frame in H1.
    eapply finished_trans; [by apply keeps_frame|]. destruct peer as [id|]; injection H as <-; [|apply keeps_refl].
    destruct (Forall2_lookup_l _ _ _ _ _ (f_objs _ _ H1) Hr) as (r1 & Hr1 & Hrr). destruct (redone_fields _ _ Hrr) as (_ & _ & _ & E & _).
    cbn [setObjs p_objs setRequesters]. rewrite (alter_as_insert _ (p_objs s1) i r1) by done. eapply keeps_insert; [done|]. intros b [Hb _]. congruence.
  - injection H as <-. by apply Hput.
  - injection H as <-. unfold sendRequest. destruct (p_running s); by apply Hput.
  - destruct (p_running s); [done|]. injection H as <-. by apply Hput.
  - destruct (r_stopped r); [|done]. injection H as <-. by apply Hput.
  - destruct (r_redoCh r); [|done]. injection H as <-. by apply Hput.
  - destruct (r_gotBlockCh r); [|done]. injection H as <-. by apply Hput.
Qed.

Lemma keeps_AddBlock id block seg s s' res : AddBlock id block seg s = Ret (s', res) -> keeps (p_objs s) (p_objs s').
Proof.
  intros H. apply bind_ret_inv in H as (b & _ & H). apply bind_ret_inv in H as (h & _ & H). cbv zeta in H.
  destruct (requesterAt _ s) as [[i r]|] eqn:E.
  - apply requesterAt_some in E as [_ Hr]. unfold setBlock in H. destruct (r_block r) eqn:Eb; [injection H as <- _; apply keeps_refl|].
    destruct (bool_decide _) in H; [|injection H as <- _; apply keeps_refl].
    assert (Hk : forall r', keeps (p_objs s) (<[i := r']> (p_objs s))) by (intros r'; eapply keeps_insert; [exact Hr|]; intros b' [_ ?]; congruence).
    destruct (p_peers _ !! id) as [k|] in H; [|injection H as <- _; apply Hk].
    apply bind_ret_inv in H as (p & _ & H). apply bind_ret_inv in H as (p' & _ & [= <- _]). apply Hk.
  - destruct (_ && _) in H; injection H as <- _; [apply keeps_refl|]. destruct (_ <? _); [apply keeps_frame, frame_sendError|apply keeps_refl].
Qed.

Lemma keeps_run e s s' : run e s = Ret (Some s') -> keeps (p_objs s) (p_objs s').
Proof.
  intros H. destruct e; cbn in H.
  - destruct (p_next s); [done|]. destruct (p_running s); [|done]. injection H as <-. apply keeps_refl.
  - destruct (p_next s) as [[]|]; try done. injection H as <-. intros i r b Hi Hf. exists r. split; [|done]. by apply lookup_app_l_Some.
  - destruct (p_next s) as [[]|]; try done. apply bind_ret_inv in H as (s1 & H1 & [= <-]). by apply removeTimedoutPeers_frame, keeps_frame in H1.
  - by eapply keeps_requester.
  - apply bind_ret_inv in H as ([s1 res] & H1 & [= <-]). by eapply keeps_AddBlock.
  - apply bind_ret_inv in H as (s1 & H1 & [= <-]). apply bind_ret_inv in H1 as (s2 & H2 & [= <-]).
    destruct (p_peers s !! id) as [k|]; [apply bind_ret_inv in H2 as (p & _ & H2)|]; injection H2 as <-; destruct (_ <? _); apply keeps_refl.
  - injection H as <-. apply keeps_frame, frame_removePeer.
  - apply bind_ret_inv in H as (s1 & H1 & [= <-]). apply bind_ret_inv in H1 as (p & _ & [= <-]). apply keeps_frame.
    etrans; [apply frame_sendError|apply frame_setPeers].
  - apply bind_ret_inv in H as ([s1 id] & H1 & [= <-]). apply keeps_frame. by eapply pickPeer_frame.
  - apply bind_ret_inv in H as (s1 & H1 & [= <-]). unfold PopRequest in H1. destruct (requesterAt _ s) as [[i r]|] eqn:E; [|done]. injection H1 as <-.
    apply requesterAt_some in E as [_ Hr]. eapply keeps_insert; [exact Hr|]. by intros b [].
  - apply bind_ret_inv in H as ([s1 id] & H1 & [= <-]). apply keeps_frame. by eapply RedoRequest_frame.
  - injection H as <-. apply keeps_refl.
  - destruct (p_requestsCh s); [done|]. injection H as <-. apply keeps_refl.
  - destruct (p_errorsCh s); [done|]. injection H as <-. apply keeps_refl.
Qed.
Lemma keeps_runs s tr s' : runs s tr s' -> keeps (p_objs s) (p_objs s').
Proof. induction 1 as [|l e s1 s2 _ IH _ Hr _]; [apply keeps_refl|]. eapply finished_trans; [exact IH|by eapply keeps_run]. Qed.

(** A bad block is not replaced.  The goroutine of a requester returns when the block comes, so that nothing reads
    [redoCh] afterwards: [RedoRequest] on such a requester leaves the block where it is, fast sync looks at the same block
    again, and the requester keeps it in every run from there. *)
Theorem redo_is_lost s i r b : requesterAt (p_height s) s = Some (i, r) -> finished b r ->
  exists s', RedoRequest (p_height s) s = Ret (s', r_peerID r) /\ PeekBlock s' = Some b /\
    forall tr s'', runs s' tr s'' -> exists r'', p_objs s'' !! i = Some r'' /\ finished b r''.
Proof.
  intros E [Hpc Hb]. exists (removePeer (r_peerID r) s). pose proof E as [Hi Hr]%requesterAt_some.
  destruct (keeps_frame _ _ (frame_removePeer (r_peerID r) s) i r b Hr) as (r' & Hr' & Hf'); [by split|].
  split_and!.
  - unfold RedoRequest. rewrite E. cbn. by rewrite Hb.
  - unfold PeekBlock, requesterAt. cbn [removePeer setPeers setObjs setRequesters p_requesters p_height p_objs] in *.
    rewrite Hi. cbn [mbind option_bind]. rewrite Hr'. cbn. apply Hf'.
  - intros tr s'' Hruns. eapply keeps_runs; [exact Hruns|exact Hr'|exact Hf'].
Qed.

(** ** Examples *)

#[export] Instance possible_dec e s : Decision (possible e s).
Proof. unfold possible, walks. destruct e as [| | |i t| | | | | | | | | |]; [apply _|apply _|apply _| |apply _..]. destruct t; apply _. Defined.
#[export] Instance fits_dec s : Decision (fits s).
Proof. unfold fits. apply _. Defined.

Fixpoint exec (l : list event) (s : BlockPool) : option BlockPool :=
  match l with
  | [] => Some s
  | e :: l => if bool_decide (possible e s) then
                match run e s with
                | Ret (Some s') => if bool_decide (fits s') then exec l s' else None
                | _ => None
                end
              else None
  end.
Lemma exec_runs s0 l0 l s s' : runs s0 l0 s -> exec l s = Some s' -> runs s0 (l0 ++ l) s'.
Proof.
  revert l0 s. induction l as [|e l IH]; intros l0 s Hr H; cbn in H; [injection H as <-; by rewrite app_nil_r|].
  destruct (bool_decide_reflect (possible e s)); [|done]. destruct (run e s) as [[s1|]|] eqn:E; [|done..].
  destruct (bool_decide_reflect (fits s1)); [|done]. change (e :: l) with ([e] ++ l). rewrite app_assoc. eapply IH; [|exact H]. by eapply runs_step.
Qed.

Definition peerA : NodeID := replicate 64 Byte.x01.
Definition peerB : NodeID := replicate 64 Byte.x02.
Definition block1 : Block.Block := Block.mkBlock (Some (Block.mkHeader (str "chain") 1 0 0 zeroBlockID 0 None None [] [] [] [])) None None.
Definition new : BlockPool := NewBlockPool 1 0.
Definition after (l : list event) : BlockPool := default new (exec l new).

(** The requester for block 1 asks A, which answers. *)
Definition asks (order : list NodeID) : list event := [ERequester 0 (TPick order); ERequester 0 TAssign; ERequester 0 TSend].
Definition start1 : list event := [ECheck; EMake; ESetPeerHeight peerA 5].
Definition answered : list event := start1 ++ asks [peerA] ++ [EAddBlock peerA (Some block1) 0; ERequester 0 TGotBlock].
Lemma answered_runs : runs new answered (after answered).
Proof. apply (exec_runs new [] answered new); [apply runs_start|vm_compute; reflexivity]. Qed.

(** A requester can give up without a block.  A is removed just after its block
    came; the requester is told to ask again and asks B, but finds [gotBlockCh]
    still filled and returns: when B does not answer nobody is asked any more. *)
Definition gaveUp : list event :=
  start1 ++ [ESetPeerHeight peerB 5] ++ asks [peerB; peerA] ++ [EAddBlock peerB (Some block1) 0; ERemovePeer peerB; ERequester 0 TRedo] ++ asks [peerA] ++ [ERequester 0 TGotBlock; ERemovePeer peerA].
Lemma requester_gives_up : runs new gaveUp (after gaveUp) /\ p_numPending (after gaveUp) = 1 /\
  exists r, p_objs (after gaveUp) = [r] /\ r_routine r = Returned /\ r_block r = None /\ r_redoCh r = true.
Proof.
  split; [apply (exec_runs new [] gaveUp new); [apply runs_start|vm_compute; reflexivity]|]. split; [vm_compute; reflexivity|].
  eexists. split; [vm_compute; reflexivity|]. done.
Qed.

(** A peer that left and came back has a new record without a monitor; the block
    it still owed from before makes [decrPending] dereference nil. *)
Definition cameBack : list event := start1 ++ asks [peerA] ++ [ERemovePeer peerA; ESetPeerHeight peerA 5].
Lemma late_block_panics : runs new cameBack (after cameBack) /\ AddBlock peerA (Some block1) 0 (after cameBack) = Panic NilDeref.
Proof. split; [apply (exec_runs new [] cameBack new); [apply runs_start|vm_compute; reflexivity]|vm_compute; reflexivity]. Qed.

Lemma pending_exact_witness : p_numPending (after answered) = wrap32 (unanswered (p_objs (after answered))).
Proof. apply (pending_exact 1 0 answered). exact answered_runs. Defined.

Lemma redo_blames_sender_witness : exists s' id, RedoRequest 1 (after answered) = Ret (s', id).
Proof.
  destruct (redo_blames_sender 1 0 answered (after answered) block1 answered_runs) as (s' & id & seg & h & E & _).
  - vm_compute. reflexivity.
  - intros b seg Hin. apply list_elem_of_lookup in Hin as (i & Hi). do 8 (destruct i as [|i]; [vm_compute in Hi; discriminate Hi|]). discriminate Hi.
  - exists s', id. exact E.
Defined.

Lemma sync_gets_stuck_witness : p_height (after answered) = 1 \/ (1 = 1 \/ 1 = 1000) /\ p_height (after answered) = 1 + 1.
Proof. exact (proj1 (proj2 (sync_gets_stuck 1 0 answered (after answered) answered_runs))). Defined.

Lemma redo_is_lost_witness : exists s' id, RedoRequest 1 (after answered) = Ret (s', id) /\ PeekBlock s' = Some block1.
Proof.
  destruct (redo_is_lost (after answered) 0 (mkRequester 1 false false peerA (Some block1) false Returned) block1) as (s' & E & Hp & _).
  - vm_compute. reflexivity.
  - split; vm_compute; reflexivity.
  - exists s', peerA. split; [exact E|exact Hp].
Defined.
End Pool.
