(* ===== verification/FastSync.v ===== *)
(** * The reactor of fast sync: blockchain/reactor.go

    The messages of the reactor and the cases of [poolRoutine], over [Pool], the
    block store and the block executor. *)

From S2P Require Import Prelude BitArray Sha256 Crypto Merkle Types ValidatorSet PartSet Block State DB Store Execution Pool.
Import Crypto Types ValidatorSet Execution.

Module FastSync.

(** ** Messages *)

Inductive BlockchainMessage :=
| bcBlockRequestMessage (height : Z) (bucket : bytes)
| bcNoBlockResponseMessage (height : Z)
| bcBlockResponseMessage (block : option Block.Block) (bucket : option Block.TxBucket)
| bcStatusRequestMessage (height : Z)
| bcStatusResponseMessage (height : Z).

(** [fmt.Sprintf("%x", i)] *)
Fixpoint hexDigits (fuel : nat) (z : Z) : bytes :=
  match fuel with
  | O => []
  | S fuel => if z <? 16 then [hexDigit z] else hexDigits fuel (z / 16) ++ [hexDigit (z mod 16)]
  end.
Definition Sprintf_x (z : Z) : bytes := if z <? 0 then str "-" ++ hexDigits 16 (- z) else hexDigits 16 z.

Section Reactor.
Context {A : Type} `{AppConn A} {P : Type} `{MempoolService P}.
Context {D I : Type} `{DB.DB D I}.
Context `{Serial State.State} `{Serial Store.ValidatorsInfo} `{Serial Store.ConsensusParamsInfo} `{Serial State.ABCIResponses}.
Context {D' I' : Type} `{DB.DB D' I'} `{Store.StoreCodec} `{Serial Block.BlockMeta} `{Serial PartSet.Part} `{Serial Commit}.
Context `{Codec} `{Curves} `{Amino} `{ValidatorCodec} `{Block.BlockCodec} `{Block.TxDecoder} `{State.ResultCodec}.

(** [blocksSynced] and [state] are locals of [poolRoutine]. *)
Record BlockchainReactor := mkReactor {
  y_exec : BlockExecutor A P D; y_store : Store.BlockStore D'; y_pool : Pool.BlockPool;
  y_fastSync : bool; y_claim : bool; y_claimBlock : option Block.Block;
  y_state : State.State; y_blocksSynced : Z }.
Definition setPool (p : Pool.BlockPool) (y : BlockchainReactor) : BlockchainReactor :=
  mkReactor (y_exec y) (y_store y) p (y_fastSync y) (y_claim y) (y_claimBlock y) (y_state y) (y_blocksSynced y).
Definition setClaim (fastSync claim : bool) (b : option Block.Block) (y : BlockchainReactor) : BlockchainReactor :=
  mkReactor (y_exec y) (y_store y) (y_pool y) fastSync claim b (y_state y) (y_blocksSynced y).
Definition setExec (be : BlockExecutor A P D) (y : BlockchainReactor) : BlockchainReactor :=
  mkReactor be (y_store y) (y_pool y) (y_fastSync y) (y_claim y) (y_claimBlock y) (y_state y) (y_blocksSynced y).

Definition NewBlockchainReactor (st : State.State) (be : BlockExecutor A P D) (store : Store.BlockStore D') (fastSync : bool) (now : Time) : go BlockchainReactor :=
  if negb (State.LastBlockHeight st =? Store.bs_height store) then Panic (PanicMsg "state and store height mismatch")
  else Ret (mkReactor be store (Pool.NewBlockPool (add64 (Store.bs_height store) 1) now) fastSync false None st 0).

Definition AddPeer (y : BlockchainReactor) : BlockchainMessage := bcStatusResponseMessage (Store.bs_height (y_store y)).

(** The bucket that was asked for is put into a message that nobody sends: the
    loop only evaluates its parts. *)
Definition respondToPeer (height : Z) (bucket : bytes) (y : BlockchainReactor) : go BlockchainMessage :=
  block ← Store.LoadBlock (y_store y) height;
  match block with
  | None => Ret (bcNoBlockResponseMessage height)
  | Some b =>
      if bytes_eqb bucket [] then Ret (bcBlockResponseMessage (Some b) None) else
      d ← deref (Block.b_Data b);
      _ ← go_fold (fun tb (_ : unit) => if bytes_eqb (Block.BucketId tb) bucket
                                        then h ← deref (Block.b_Header b); _ ← deref (Block.LastBucketHashes h); Ret tt
                                        else Ret tt) (Block.TxBuckets d) tt;
      Ret (bcNoBlockResponseMessage height)
  end.

(** What [Receive] does beside changing the reactor: a message to the sender.
    The answer with a bucket is discarded: the pool has no requester for it, as
    nothing calls [SubmitBucketChainRequest]. *)
Definition Receive (src : Pool.NodeID) (segmentID : Z) (msg : BlockchainMessage) (y : BlockchainReactor) : go (BlockchainReactor * option BlockchainMessage) :=
  match msg with
  | bcBlockRequestMessage height bucket => r ← respondToPeer height bucket y; Ret (y, Some r)
  | bcBlockResponseMessage block bucket =>
      match bucket with
      | Some tb =>
          if negb (bytes_eqb (Block.BucketId tb) []) then b ← deref block; _ ← deref (Block.b_Header b); Ret (y, None)
          else '(pool, claim) ← Pool.AddBlock src block segmentID (y_pool y);
               Ret (setClaim (claim || y_fastSync y) claim (if claim : bool then block else y_claimBlock y) (setPool pool y), None)
      | None =>
          '(pool, claim) ← Pool.AddBlock src block segmentID (y_pool y);
          Ret (setClaim (claim || y_fastSync y) claim (if claim : bool then block else y_claimBlock y) (setPool pool y), None)
      end
  | bcStatusRequestMessage _ => Ret (y, Some (bcStatusResponseMessage (Store.bs_height (y_store y))))
  | bcStatusResponseMessage height => pool ← Pool.SetPeerHeight src height (y_pool y); Ret (setPool pool y, None)
  | bcNoBlockResponseMessage _ => Ret (y, None)
  end.

(** ** The cases of [poolRoutine] *)

(** The first request of the channel, as a message for its peer. *)
Definition forwardRequest (r : Pool.BlockRequest) : Pool.NodeID * BlockchainMessage :=
  (Pool.br_PeerID r, bcBlockRequestMessage (Pool.br_Height r) (default [] (Pool.br_BucketID r))).

(** A turn of [SYNC_LOOP]: the peer to be stopped, or whether the loop goes on. *)
Inductive outcome := NoBlock | BadBlock (id : Pool.NodeID) | Applied.
Definition syncBlock (y : BlockchainReactor) : go (BlockchainReactor * outcome) :=
  match Pool.PeekBlock (y_pool y) with
  | None => Ret (y, NoBlock)
  | Some b =>
      let st := y_state y in
      parts ← Block.MakePartSet (Some b) (Block.BlockPartSizeBytes (State.Params st));
      parts ← deref parts;
      let blockID := mkBlockID (Block.Hash (Some b)) (PartSet.Header (Some parts)) in
      h ← deref (Block.b_Header b);
      commit ← deref (Block.b_Commit b);
      err ← VerifyCommit (State.Validators st) (State.ChainID st) blockID (Block.Height h) commit;
      match err with
      | Some _ =>
          '(pool, id) ← Pool.RedoRequest (Block.Height h) (y_pool y);
          Ret (setPool pool y, BadBlock id)
      | None =>
          pool ← Pool.PopRequest (y_pool y);
          store ← Store.SaveBlock (y_store y) (Some b) parts commit;
          '(_, be, r) ← ApplyBlock (y_exec y) st blockID (Some b);
          match r with
          | inl _ => Panic (PanicMsg "Failed to process committed block")
          | inr st => Ret (mkReactor be store pool (y_fastSync y) (y_claim y) (y_claimBlock y) st (add64 (y_blocksSynced y) 1), Applied)
          end
      end
  end.
Fixpoint syncLoop (n : nat) (y : BlockchainReactor) : go (BlockchainReactor * option Pool.NodeID) :=
  match n with
  | O => Ret (y, None)
  | S n =>
      '(y, o) ← syncBlock y;
      match o with NoBlock => Ret (y, None) | BadBlock id => Ret (y, Some id) | Applied => syncLoop n y end
  end.
Definition trySync (y : BlockchainReactor) : go (BlockchainReactor * option Pool.NodeID) :=
  if negb (y_fastSync y) then Ret (y, None) else syncLoop 10 y.

(** The requests of a proposer that lacks the block of the last UTXO; [order] is the walk over the peers. *)
Definition requestBlocks (order : Z -> list Pool.NodeID) (first last : Z) (y : BlockchainReactor) : go (BlockchainReactor * bool) :=
  go_for first (last + 1) (fun i '(y, needMoreBlocks) =>
    block ← Store.LoadBlock (y_store y) first;
    match block with
    | Some _ => Ret (y, needMoreBlocks)
    | None =>
        '(pool, peer) ← Pool.PickIncrAvailablePeerInSegment i (Sprintf_x i) (order i) (y_pool y);
        id ← deref peer;
        Ret (setPool (Pool.sendRequest i id pool) y, true)
    end) (y, false).

(** The case of [doneSyncingTicker]; the result says that [SwitchToConsensus] is
    called.  [updates] are the validators that the application answers; an error
    of [UpdateValidatorsSet] is ignored. *)
Definition doneSyncing (now : Time) (isProposer : bool) (order : Z -> list Pool.NodeID) (updates : list State.abciValidator) (y : BlockchainReactor) : go (BlockchainReactor * bool) :=
  if negb (Pool.IsCaughtUp now (y_pool y)) then Ret (y, false) else
  let y := setClaim false (y_claim y) (y_claimBlock y) y in
  if negb (y_claim y) then Ret (y, false) else
  b ← deref (y_claimBlock y);
  h ← deref (Block.b_Header b);
  let LatestUTXOBlock := Z.quot (Block.Height h) 100 * 100 + 1 in
  let previousBlockSegmentHex := Sprintf_x (Z.rem (Block.Height h) 100) in
  block ← Store.LoadBlock (y_store y) LatestUTXOBlock;
  _ ← (match block with
       | Some _ => Ret tt
       | None => _ ← Store.LoadBucket (y_store y) LatestUTXOBlock previousBlockSegmentHex; Ret tt  (* never nil *)
       end);
  '(y, needMoreBlocks) ← (if isProposer && (Z.rem (Block.Height h) 100 =? 0)
                          then requestBlocks order LatestUTXOBlock (Block.Height h) y else Ret (y, false));
  if needMoreBlocks : bool then Ret (y, false)
  else
    '(be, _) ← UpdateValidatorsSet (y_exec y) (y_state y) updates;
    Ret (setClaim (y_fastSync y) false (y_claimBlock y) (setExec be y), true).

(** ** Properties *)

(** What passes the check of fast sync does not pass the one of the executor:
    the one wants the commit in the block to be of the block's own height, the
    other of the height before. *)
Lemma checks_contradict st id b h c : Block.b_Header b = Some h -> Block.b_Commit b = Some c ->
  VerifyCommit (State.Validators st) (State.ChainID st) id (Block.Height h) c = Ret None -> State.validateBlock st (Some b) <> Ret None.
Proof.
  intros Hh Hc Hv Hval.
  assert (Hheight : Block.Height h = Commit_Height c).
  { unfold VerifyCommit in Hv. destruct (negb _) in Hv; [done|]. destruct (Z.eqb_spec (Block.Height h) (Commit_Height c)); [done|]. cbn in Hv. done. }
  unfold State.validateBlock in Hval. apply bind_ret_inv in Hval as (e & _ & Hval). destruct e; [done|]. cbn [deref mbind go_mbind] in Hval.
  unfold Block.hdr in Hval. rewrite Hh in Hval. cbn [deref mbind go_mbind] in Hval.
  repeat (destruct (negb _) in Hval; [done|]). unfold State.validateCommit in Hval. rewrite Hc in Hval. cbn [deref mbind go_mbind] in Hval.
  destruct (Z.eqb_spec (Block.Height h) 1) as [E1|_].
  - destruct (Z.eqb_spec (zlen (c_Precommits c)) 0) as [E0|]; [|done]. rewrite E1 in Hheight. unfold Commit_Height, FirstPrecommit in Hheight.
    by rewrite E0 in Hheight.
  - destruct (negb _) in Hval; [done|]. apply bind_ret_inv in Hval as (e & He & Hval). destruct e; [done|].
    unfold VerifyCommit in He. destruct (negb _) in He; [done|]. destruct (Z.eqb_spec (sub64 (Block.Height h) 1) (Commit_Height c)) as [E2|]; [|done].
    rewrite <- Hheight in E2. unfold sub64 in E2. unfold_int64. Z.div_mod_to_equations. lia.
Qed.

Lemma ApplyBlock_valid (be : BlockExecutor A P D) st id b r : ApplyBlock be st id b = Ret r -> (exists st', r.2 = inr st') -> State.validateBlock st b = Ret None.
Proof.
  intros Ha (st' & Hr). unfold ApplyBlock in Ha. apply bind_ret_inv in Ha as (e & He & Ha). destruct e as [e|]; [|done].
  injection Ha as <-. done.
Qed.

Lemma syncBlock_applies_nothing y y' o : syncBlock y = Ret (y', o) ->
  o <> Applied /\ y_state y' = y_state y /\ y_exec y' = y_exec y /\ y_store y' = y_store y /\ y_blocksSynced y' = y_blocksSynced y.
Proof.
  intros Hs. unfold syncBlock in Hs. destruct (Pool.PeekBlock _) as [b|]; [|by injection Hs as <- <-].
  apply bind_ret_inv in Hs as (parts & _ & Hs). apply bind_ret_inv in Hs as (ps & _ & Hs). cbv zeta in Hs.
  apply bind_ret_inv in Hs as (h & Hh & Hs). apply bind_ret_inv in Hs as (c & Hc & Hs). apply bind_ret_inv in Hs as (err & He & Hs).
  destruct (Block.b_Header b) as [h'|] eqn:Eh; [|done]. injection Hh as ->. destruct (Block.b_Commit b) as [c'|] eqn:Ec; [|done]. injection Hc as ->.
  destruct err as [e|]; [apply bind_ret_inv in Hs as ([p id] & _ & [= <- <-]); by split_and!|]. exfalso.
  apply bind_ret_inv in Hs as (pool & _ & Hs). apply bind_ret_inv in Hs as (store & _ & Hs). apply bind_ret_inv in Hs as ([[pts be] r] & Ha & Hs).
  destruct r as [e|st']; [done|]. apply (checks_contradict _ _ _ _ _ Eh Ec He). eapply ApplyBlock_valid; [exact Ha|by eexists].
Qed.

(** C32: fast sync applies no block.  The loop verifies the commit in the block as a commit of the block itself, and
    [ApplyBlock] wants it to be the commit of the block before; no commit is both.  So a run of the loop either panics or
    leaves the state, the application, the block store and the count of synced blocks as they are, at any height and
    whatever the pool holds. *)
Theorem fast_sync_applies_nothing y y' stopped : trySync y = Ret (y', stopped) ->
  y_state y' = y_state y /\ y_exec y' = y_exec y /\ y_store y' = y_store y /\ y_blocksSynced y' = y_blocksSynced y.
Proof.
  unfold trySync. destruct (negb _); [by intros [= <- _]|]. cbn [syncLoop]. intros Hs. apply bind_ret_inv in Hs as ([y1 o] & Hb & Hs).
  apply syncBlock_applies_nothing in Hb as (Ho & Hb). destruct o; [by injection Hs as <- _|by injection Hs as <- _|done].
Qed.

(** A request for a bucket is never answered with the bucket. *)
Lemma bucket_never_served y height bucket r : bucket <> [] -> respondToPeer height bucket y = Ret r -> r = bcNoBlockResponseMessage height.
Proof.
  intros Hb Hr. unfold respondToPeer in Hr. apply bind_ret_inv in Hr as (block & _ & Hr). destruct block as [b|]; [|by injection Hr as <-].
  destruct (bytes_eqb bucket []) eqn:E; [by apply bytes_eqb_true in E|]. apply bind_ret_inv in Hr as (d & _ & Hr). by apply bind_ret_inv in Hr as (u & _ & [= <-]).
Qed.

(** A node that takes itself for a proposer and has neither the block nor the
    bucket of the last UTXO does not ask for them: loading the bucket panics. *)
Lemma missing_bucket_panics now isProposer order updates y b h :
  let first := Z.quot (Block.Height h) 100 * 100 + 1 in
  Pool.IsCaughtUp now (y_pool y) = true -> y_claim y = true -> y_claimBlock y = Some b -> Block.b_Header b = Some h ->
  Store.LoadBlock (y_store y) first = Ret None ->
  DB.Get (Store.bs_db (y_store y)) (Store.bucketKey first (Sprintf_x (Z.rem (Block.Height h) 100))) = None -> Store.UnmarshalBinaryBucket [] = None ->
  doneSyncing now isProposer order updates y = Panic (PanicMsg "Error reading bucket").
Proof.
  cbv zeta. intros Hc Hcl Hb Hh Hl Hg Hu. unfold doneSyncing. rewrite Hc. cbn [negb setClaim y_claim y_claimBlock y_store]. rewrite Hcl. cbn [negb].
  rewrite Hb. cbn [deref mbind go_mbind]. rewrite Hh. cbn [deref mbind go_mbind]. rewrite Hl. cbn [mbind go_mbind].
  unfold Store.LoadBucket. rewrite Hg. cbn [default from_option]. rewrite Hu. done.
Qed.
End Reactor.
Arguments BlockchainReactor : clear implicits.

(** ** A witness *)

Section Examples.
#[local] Existing Instance toyCodec.
#[local] Existing Instance toyCurves.
#[local] Existing Instance uvarintAmino.
#[local] Existing Instance Block.toyBlockCodec.
#[local] Existing Instance Block.toyDecoder.
#[local] Existing Instance State.toyValidatorCodec.
#[local] Existing Instance State.toyResultCodec.
#[local] Existing Instances DB.memDB DB.memDB_laws.
#[local] Existing Instances Store.State_countable Store.ValInfo_countable Store.ParamsInfo_countable Store.Responses_countable Store.Meta_countable Store.Part_countable.
#[local] Existing Instances Store.encSerial Store.encLaws Store.encInfo Store.commitSerial.
#[local] Instance exConn0 : AppConn Z := @localClient Z (exApp []).
#[local] Instance exCodec0 : Store.StoreCodec := {|
  Store.UnmarshalBinaryBlock := fun _ => None;
  Store.UnmarshalBinaryBucket := fun _ => None;
  Store.MarshalBinaryBareBucket := fun _ => [];
  Store.MarshalStoreState := fun s => enc (Store.bsj_Height s);
  Store.UnmarshalStoreState := fun _ => None |}.

(** The pool has the first block of a peer; its commit is empty. *)
Definition exPeer : Pool.NodeID := replicate 64 Byte.x01.
Definition exFirst : Block.Block := Block.mkBlock (Some exHeader1) (Some (Block.mkData [])) (Some (mkCommit zeroBlockID [])).
Definition exPool : Pool.BlockPool :=
  Pool.mkPool true 0 {[1 := 0%nat]} [Pool.mkRequester 1 false false exPeer (Some exFirst) false Pool.Returned] 1 ∅ [] 0 0 0 [] [] None.
Definition exSync : BlockchainReactor Z unit DB.MemDB DB.MemDB := mkReactor (mkExec ∅ 0 tt) (Store.mkBlockStore ∅ 0) exPool true false None Store.exStart 0.

Lemma fast_sync_applies_nothing_witness : exists y' stopped, trySync exSync = Ret (y', stopped) /\ y_blocksSynced y' = 0.
Proof.
  destruct (trySync exSync) as [[y' stopped]|p] eqn:E; [|exfalso; vm_compute in E; discriminate E].
  exists y', stopped. split; [reflexivity|]. exact (proj2 (proj2 (proj2 (fast_sync_applies_nothing exSync y' stopped E)))).
Defined.
End Examples.
End FastSync.
