(* ===== verification/Kademlia.v ===== *)
(** * The Kademlia table: p2p/kademlia/table.go and node.go

    Distances between identifiers, the buckets of known nodes, the nodes closest
    to a target, and the search over the network.  Every operation under the
    mutex of the table is a function; what the network, the random source and
    the database give is an argument.  [netutil.DistinctNetSet] of go-ethereum is
    a class. *)

From S2P Require Import Prelude.

Module Kademlia.

(** ** Nodes and distances *)

Definition NodeIDBits : Z := 512.
Definition NodeID : Type := bytes.
#[global] Instance NodeID_eq_dec : EqDecision NodeID := ltac:(unfold NodeID; apply _).
#[global] Instance NodeID_countable : Countable NodeID := ltac:(unfold NodeID; apply _).
Record Node := mkNode { n_IP : bytes; n_UDP : Z; n_TCP : Z; n_ID : NodeID; n_addedAt : Z }.

(** [net.IP.To4]: an address of 4 bytes, or of 16 bytes of which the first ten
    are 0 and the next two 255. *)
Definition To4 (ip : bytes) : option bytes :=
  if zlen ip =? 4 then Some ip
  else if (zlen ip =? 16) && bytes_eqb (take 12 ip) (replicate 10 Byte.x00 ++ [Byte.xff; Byte.xff]) then Some (drop 12 ip)
  else None.
Definition NewNode (id : NodeID) (ip : bytes) : Node := mkNode (default ip (To4 ip)) 0 0 id 0.

Fixpoint distcmp (target a b : bytes) : Z :=
  match target, a, b with
  | t :: target, x :: a, y :: b =>
      let da := Z.lxor (byte_Z x) (byte_Z t) in
      let db := Z.lxor (byte_Z y) (byte_Z t) in
      if db <? da then 1 else if da <? db then -1 else distcmp target a b
  | _, _, _ => 0
  end.

Definition lzcount : list Z :=
  [8; 7; 6; 6] ++ replicate 4 5 ++ replicate 8 4 ++ replicate 16 3 ++ replicate 32 2 ++ replicate 64 1 ++ replicate 128 0.
Fixpoint leadingZeros (a b : bytes) : go Z :=
  match a, b with
  | x :: a, y :: b =>
      let d := Z.lxor (byte_Z x) (byte_Z y) in
      if d =? 0 then lz ← leadingZeros a b; Ret (8 + lz) else idx lzcount d
  | _, _ => Ret 0
  end.
Definition logdist (a b : bytes) : go Z := lz ← leadingZeros a b; Ret (zlen a * 8 - lz).

(** ** Lists of nodes *)

Definition alpha : Z := 3.
Definition bucketSize : Z := 16.
Definition maxReplacements : Z := 10.
Definition hashBits : Z := 32 * 8.
Definition nBuckets : Z := Z.quot hashBits 15.
Definition bucketMinDistance : Z := hashBits - nBuckets.
Definition maxFindnodeFailures : Z := 5.
Definition seedMinTableTime : Z := 5 * 60 * 1000000000.

(** The index of the first node of the list with the identifier. *)
Fixpoint indexOf (id : NodeID) (l : list Node) : option nat :=
  match l with
  | [] => None
  | e :: l => if bytes_eqb (n_ID e) id then Some O else S <$> indexOf id l
  end.

(** [pushNode] for [max > 0]: a new first element, and what falls off the end. *)
Definition pushNode (l : list Node) (n : Node) (max : Z) : list Node * option Node :=
  if zlen l <? max then (n :: l, None) else (n :: take (length l - 1) l, last l).
Definition deleteNode (l : list Node) (n : Node) : list Node :=
  match indexOf (n_ID n) l with Some i => take i l ++ drop (S i) l | None => l end.

(** ** Buckets *)

Class NetSet := {
  netset : Type;
  emptySet : Z -> Z -> netset;
  Add : netset -> bytes -> netset * bool;
  Remove : netset -> bytes -> netset;
  IsLAN : bytes -> bool }.

Section Table.
Context `{NetSet}.

Record bucket := mkBucket { entries : list Node; replacements : list Node; b_ips : netset }.
Record Table := mkTable { buckets : list bucket; nursery : list Node; t_ips : netset; self : Node }.
Definition newBucket : bucket := mkBucket [] [] (emptySet 24 2).
Definition newTable (ourID : NodeID) (ip : bytes) (bootnodes : list Node) : Table :=
  mkTable (replicate (Z.to_nat nBuckets) newBucket) bootnodes (emptySet 24 10) (NewNode ourID ip).

(** The table with bucket [i] and its addresses changed. *)
Definition setBucket (i : Z) (b : bucket) (ips : netset) (t : Table) : Table :=
  mkTable (<[Z.to_nat i := b]> (buckets t)) (nursery t) ips (self t).

(** [tab.bucket(id)]: the index of the bucket. *)
Definition bucketOf (t : Table) (id : NodeID) : go Z :=
  d ← logdist (n_ID (self t)) id;
  if d <=? bucketMinDistance then Ret 0
  else if zlen (buckets t) - 1 <? d - bucketMinDistance - 1 then Ret (zlen (buckets t) - 1)
  else Ret (d - bucketMinDistance - 1).

Definition addIP (t : netset) (b : netset) (ip : bytes) : netset * netset * bool :=
  if IsLAN ip then (t, b, true) else
  match Add t ip with
  | (t, false) => (t, b, false)
  | (t, true) => match Add b ip with
                 | (b, false) => (Remove t ip, b, false)
                 | (b, true) => (t, b, true)
                 end
  end.
Definition removeIP (t : netset) (b : netset) (ip : bytes) : netset * netset := if IsLAN ip then (t, b) else (Remove t ip, Remove b ip).

(** [copy(b.entries[1:], b.entries[:i]); b.entries[0] = n] *)
Definition bump (l : list Node) (n : Node) : option (list Node) :=
  match indexOf (n_ID n) l with
  | Some i => Some (<[0%nat := n]> (take 1 l ++ gocopy (drop 1 l) (take i l)))
  | None => None
  end.
(** The node gets the time at which it enters. *)
Definition entered (now : Z) (n : Node) : Node := mkNode (n_IP n) (n_UDP n) (n_TCP n) (n_ID n) now.
Definition bumpOrAdd (now : Z) (ips : netset) (b : bucket) (n : Node) : netset * bucket * bool :=
  match bump (entries b) n with
  | Some l => (ips, mkBucket l (replacements b) (b_ips b), true)
  | None =>
      if bucketSize <=? zlen (entries b) then (ips, b, false) else
      match addIP ips (b_ips b) (n_IP n) with
      | (ips, bips, false) => (ips, mkBucket (entries b) (replacements b) bips, false)
      | (ips, bips, true) => (ips, mkBucket (pushNode (entries b) (entered now n) bucketSize).1 (deleteNode (replacements b) n) bips, true)
      end
  end.
Definition addReplacement (ips : netset) (b : bucket) (n : Node) : netset * bucket :=
  match indexOf (n_ID n) (replacements b) with
  | Some _ => (ips, b)
  | None =>
      match addIP ips (b_ips b) (n_IP n) with
      | (ips, bips, false) => (ips, mkBucket (entries b) (replacements b) bips)
      | (ips, bips, true) =>
          let '(l, removed) := pushNode (replacements b) n maxReplacements in
          let '(ips, bips) := match removed with Some r => removeIP ips bips (n_IP r) | None => (ips, bips) end in
          (ips, mkBucket (entries b) l bips)
      end
  end.
Definition deleteInBucket (ips : netset) (b : bucket) (n : Node) : netset * bucket :=
  let '(ips, bips) := removeIP ips (b_ips b) (n_IP n) in
  (ips, mkBucket (deleteNode (entries b) n) (replacements b) bips).
(** [draw] is [tab.rand.Intn]. *)
Definition replace (draw : Z -> Z) (ips : netset) (b : bucket) (lst : Node) : go (netset * bucket * option Node) :=
  match last (entries b) with
  | None => Ret (ips, b, None)
  | Some e =>
      if negb (bytes_eqb (n_ID e) (n_ID lst)) then Ret (ips, b, None)
      else if zlen (replacements b) =? 0 then let '(ips, b) := deleteInBucket ips b lst in Ret (ips, b, None)
      else
        r ← idx (replacements b) (draw (zlen (replacements b)));
        let '(ips', bips) := removeIP ips (b_ips b) (n_IP lst) in
        Ret (ips', mkBucket (<[(length (entries b) - 1)%nat := r]> (entries b)) (deleteNode (replacements b) r) bips, Some r)
  end.

(** ** The table *)

Definition add (now : Z) (n : Node) (t : Table) : go Table :=
  i ← bucketOf t (n_ID n);
  b ← idx (buckets t) i;
  let '(ips, b, ok) := bumpOrAdd now (t_ips t) b n in
  let '(ips, b) := if ok : bool then (ips, b) else addReplacement ips b n in
  Ret (setBucket i b ips t).
Definition addThroughPing (initDone : bool) (now : Z) (n : Node) (t : Table) : go Table := if initDone then add now n t else Ret t.
Definition stuff (now : Z) (nodes : list Node) (t : Table) : go Table :=
  go_fold (fun n t =>
    if bytes_eqb (n_ID n) (n_ID (self t)) then Ret t else
    i ← bucketOf t (n_ID n);
    b ← idx (buckets t) i;
    if zlen (entries b) <? bucketSize then
      let '(ips, b, _) := bumpOrAdd now (t_ips t) b n in Ret (setBucket i b ips t)
    else Ret t) nodes t.
Definition delete (n : Node) (t : Table) : go Table :=
  i ← bucketOf t (n_ID n);
  b ← idx (buckets t) i;
  let '(ips, b) := deleteInBucket (t_ips t) b n in
  Ret (setBucket i b ips t).

(** The last node of the first bucket of [perm] that is not empty. *)
Fixpoint nodeToRevalidate (perm : list Z) (t : Table) : go (option Node * Z) :=
  match perm with
  | [] => Ret (None, 0)
  | bi :: perm =>
      b ← idx (buckets t) bi;
      match last (entries b) with Some n => Ret (Some n, bi) | None => nodeToRevalidate perm t end
  end.
(** What [doRevalidate] does with the answer to its ping. *)
Definition doRevalidate (pong : bool) (draw : Z -> Z) (lst : Node) (bi : Z) (t : Table) : go Table :=
  b ← idx (buckets t) bi;
  if pong then
    Ret (match bump (entries b) lst with Some l => setBucket bi (mkBucket l (replacements b) (b_ips b)) (t_ips t) t | None => t end)
  else
    '(ips, b, _) ← replace draw (t_ips t) b lst;
    Ret (setBucket bi b ips t).

(** The nodes that [copyLiveNodes] writes to the database. *)
Definition liveNodes (now : Z) (t : Table) : list Node :=
  filter (fun n => seedMinTableTime <=? now - n_addedAt n) (buckets t ≫= entries).
Definition len (t : Table) : Z := sumZ (fun b => zlen (entries b)) (buckets t).

(** [findnode]: [fails] is what the database counts, [r] and [err] are what the transport returns for the node;
    the result is the table and the count that is written, if any.  The transport makes every node of its answer, so none
    of the pointers is nil. *)
Definition findnode (now : Z) (fails : Z) (n : Node) (r : list Node) (err : bool) (t : Table) : go (Table * option Z) :=
  '(t, upd) ← (if err || (zlen r =? 0)
               then t ← (if maxFindnodeFailures <=? fails + 1 then delete n t else Ret t); Ret (t, Some (fails + 1))
               else Ret (t, if 0 <? fails then Some (fails - 1) else None));
  t ← go_fold (fun n t => add now n t) r t;
  Ret (t, upd).

(** ** The closest nodes *)

(** nodesByDistance.push *)
Definition push (target : bytes) (maxElems : Z) (n : Node) (l : list Node) : go (list Node) :=
  ix ← sort_Search (zlen l) (fun i => e ← idx l i; Ret (0 <? distcmp target (n_ID e) (n_ID n)));
  let l := if zlen l <? maxElems then l ++ [n] else l in
  if ix =? zlen l then Ret l
  else
    let i := Z.to_nat ix in
    upd (take (S i) l ++ gocopy (drop (S i) l) (drop i l)) ix n.
Definition closest (target : bytes) (nresults : Z) (t : Table) : go (list Node) :=
  go_fold (push target nresults) (buckets t ≫= entries) [].

(** ** The search *)

Record search := mkSearch { asked : gset NodeID; seen : gset NodeID; result : list Node; pendingQueries : Z }.

(** The closest nodes that were not asked yet are asked, at most [alpha] at a time; the nodes asked are returned. *)
Fixpoint askLoop (l : list Node) (asked : gset NodeID) (pending : Z) : gset NodeID * Z * list Node :=
  match l with
  | [] => (asked, pending, [])
  | n :: l =>
      if pending <? alpha then
        if bool_decide (n_ID n ∈ asked) then askLoop l asked pending
        else let '(a, p, q) := askLoop l ({[n_ID n]} ∪ asked) (pending + 1) in (a, p, n :: q)
      else (asked, pending, [])
  end.
Definition askNodes (s : search) : search * list Node :=
  let '(a, p, q) := askLoop (result s) (asked s) (pendingQueries s) in (mkSearch a (seen s) (result s) p, q).
(** An answer: the nodes that were not seen are pushed. *)
Definition receiveReply (target : bytes) (reply : list (option Node)) (s : search) : go search :=
  s ← go_fold (fun o s =>
        match o with
        | None => Ret s
        | Some n => if bool_decide (n_ID n ∈ seen s) then Ret s
                    else l ← push target bucketSize n (result s); Ret (mkSearch (asked s) ({[n_ID n]} ∪ seen s) l (pendingQueries s))
        end) reply s;
  Ret (mkSearch (asked s) (seen s) (result s) (pendingQueries s - 1)).
(** The loop of [lookup] on the answers in the order in which they come: the
    search at the end, or as it waits for another answer, and the nodes that
    [findnode] was called with. *)
Fixpoint lookupLoop (target : bytes) (replies : list (list (option Node))) (s : search) : go (search * list Node * bool) :=
  let '(s, queried) := askNodes s in
  if pendingQueries s =? 0 then Ret (s, queried, true) else
  match replies with
  | [] => Ret (s, queried, false)
  | r :: replies =>
      s ← receiveReply target r s;
      '(s, more, over) ← lookupLoop target replies s;
      Ret (s, queried ++ more, over)
  end.
(** [refreshed] is the table when the refresh that an empty one asks for is
    over; it is asked for once. *)
Definition lookup (target : bytes) (refreshIfEmpty : bool) (refreshed : Table) (replies : list (list (option Node))) (t : Table) : go (search * list Node * bool) :=
  l ← closest target bucketSize t;
  l ← (if (0 <? zlen l) || negb refreshIfEmpty then Ret l else closest target bucketSize refreshed);
  lookupLoop target replies (mkSearch {[n_ID (self t)]} ∅ l 0).

(** ** Random nodes *)

(** The swaps of the shuffle; [draw i] is what [tab.rand.Intn(len(buckets))] gives for the [i]-th. *)
Definition shuffle (draw : Z -> Z) (l : list (list Node)) : go (list (list Node)) :=
  go_fold (fun i l => let j := draw i in x ← idx l i; y ← idx l j; l ← upd l i y; upd l j x) (reverse (seqZ 1 (zlen l - 1))) l.
(** The loop: what is written to the buffer, and the value of [i] at the end. *)
Fixpoint readLoop (room : nat) (l : list (list Node)) (i j : Z) : go (list Node * Z) :=
  match room with
  | O => Ret ([], i)
  | S room =>
      b ← idx l j;
      n ← idx b 0;
      l ← upd l j (drop 1 b);
      let l := if zlen b =? 1 then take (Z.to_nat j) l ++ drop (S (Z.to_nat j)) l else l in
      if zlen l =? 0 then Ret ([n], i)
      else '(ns, i) ← readLoop room l (i + 1) (Z.rem (j + 1) (zlen l)); Ret (n :: ns, i)
  end.
Definition ReadRandomNodes (initDone : bool) (draw : Z -> Z) (bufLen : Z) (t : Table) : go (list Node * Z) :=
  if negb initDone then Ret ([], 0) else
  let l := filter (fun l => 0 <? zlen l) (entries <$> buckets t) in
  if zlen l =? 0 then Ret ([], 0) else
  l ← shuffle draw l;
  '(ns, i) ← readLoop (Z.to_nat bufLen) l 0 0;
  Ret (ns, i + 1).
End Table.

(** ** The XOR metric *)

(** The bytes of [a] and [b] xored, as a number. *)
Fixpoint dist (a b : bytes) : Z :=
  match a, b with
  | x :: a, y :: b => Z.lxor (byte_Z y) (byte_Z x) * 256 ^ zlen a + dist a b
  | _, _ => 0
  end.
Definition bitLength (d : Z) : Z := if d =? 0 then 0 else Z.log2 d + 1.

Lemma lxor_byte x y : 0 <= Z.lxor (byte_Z x) (byte_Z y) < 256.
Proof.
  pose proof (byte_Z_range x). pose proof (byte_Z_range y). assert (Hn : 0 <= Z.lxor (byte_Z x) (byte_Z y)) by (apply Z.lxor_nonneg; lia). split; [done|].
  destruct (Z.eq_dec (Z.lxor (byte_Z x) (byte_Z y)) 0); [lia|]. apply Z.log2_lt_pow2 with (b := 8); [lia|].
  pose proof (Z.log2_lxor (byte_Z x) (byte_Z y) ltac:(lia) ltac:(lia)).
  assert (forall z, 0 <= z < 256 -> Z.log2 z < 8).
  { intros z Hz. destruct (Z.eq_dec z 0) as [->|]; [done|]. apply Z.log2_lt_pow2; [lia|]. change (2 ^ 8) with 256. lia. }
  pose proof (H2 _ H). pose proof (H2 _ H0). lia.
Qed.
Lemma lxor_comm_byte x y : Z.lxor (byte_Z x) (byte_Z y) = Z.lxor (byte_Z y) (byte_Z x).
Proof. apply Z.lxor_comm. Qed.

Lemma pow256_pos n : 0 <= n -> 0 < 256 ^ n.
Proof. intros. apply Z.pow_pos_nonneg; lia. Qed.
Lemma zlen_tail {A} (x : A) l : zlen (x :: l) = zlen l + 1.
Proof. unfold zlen. cbn [length]. lia. Qed.
Lemma zlen_pos {A} (l : list A) : 0 <= zlen l.
Proof. unfold zlen. lia. Qed.

Lemma dist_range a b : 0 <= dist a b < 256 ^ zlen a.
Proof.
  revert b. induction a as [|x a IH]; intros b; [done|]. pose proof (pow256_pos (zlen a) (zlen_pos a)).
  rewrite zlen_tail, Z.pow_add_r by (pose proof (zlen_pos a); lia). destruct b as [|y b]; cbn [dist]; [nia|].
  pose proof (IH b). pose proof (lxor_byte y x). nia.
Qed.

Lemma dist_zero a b : length a = length b -> dist a b = 0 <-> a = b.
Proof.
  revert b. induction a as [|x a IH]; intros [|y b] Hl; try done. injection Hl as Hl. cbn [dist].
  pose proof (dist_range a b). pose proof (pow256_pos (zlen a) (zlen_pos a)). pose proof (lxor_byte y x). split.
  - intros E. assert (Z.lxor (byte_Z y) (byte_Z x) = 0) as E1%Z.lxor_eq by nia. apply byte_Z_inj in E1 as ->. f_equal. apply IH; [done|nia].
  - intros [= -> ->]. rewrite Z.lxor_nilpotent, (proj2 (IH b Hl) eq_refl). lia.
Qed.

Lemma distcmp_dist target a b : length a = length target -> length b = length target ->
  distcmp target a b = match Z.compare (dist target a) (dist target b) with Lt => -1 | Eq => 0 | Gt => 1 end.
Proof.
  revert a b. induction target as [|t target IH]; intros [|x a] [|y b] Ha Hb; try done. injection Ha as Ha. injection Hb as Hb. cbn [distcmp dist].
  pose proof (dist_range target a). pose proof (dist_range target b). pose proof (lxor_byte x t). pose proof (lxor_byte y t).
  destruct (Z.ltb_spec (Z.lxor (byte_Z y) (byte_Z t)) (Z.lxor (byte_Z x) (byte_Z t))).
  { rewrite (proj2 (Z.compare_gt_iff _ _)) by nia. done. }
  destruct (Z.ltb_spec (Z.lxor (byte_Z x) (byte_Z t)) (Z.lxor (byte_Z y) (byte_Z t))).
  { rewrite (proj2 (Z.compare_lt_iff _ _)) by nia. done. }
  rewrite IH by done. replace (Z.lxor (byte_Z x) (byte_Z t)) with (Z.lxor (byte_Z y) (byte_Z t)) by lia. by rewrite Z.add_compare_mono_l.
Qed.

Lemma lzcount_ok : forallb (fun d => bool_decide (lzcount !! Z.to_nat d = Some (8 - bitLength d))) (seqZ 0 256) = true.
Proof. vm_compute. reflexivity. Qed.
Lemma lzcount_spec d : 0 <= d < 256 -> idx lzcount d = Ret (8 - bitLength d).
Proof.
  intros Hd. pose proof lzcount_ok as Hok. rewrite forallb_forall in Hok. specialize (Hok d).
  apply idx_lookup; [lia|]. eapply bool_decide_eq_true_1, Hok. apply list_elem_of_In, elem_of_seqZ. lia.
Qed.

Lemma leadingZeros_spec a b : length a = length b -> leadingZeros a b = Ret (8 * zlen a - bitLength (dist a b)).
Proof.
  revert b. induction a as [|x a IH]; intros [|y b] Hl; try done. injection Hl as Hl. cbn [leadingZeros dist]. rewrite (Z.lxor_comm (byte_Z x)).
  pose proof (lxor_byte y x). pose proof (dist_range a b). rewrite zlen_tail. set (d := Z.lxor (byte_Z y) (byte_Z x)) in *.
  destruct (Z.eqb_spec d 0) as [->|Hd].
  - rewrite IH by done. cbn [mbind go_mbind]. rewrite Z.mul_0_l, Z.add_0_l. f_equal. lia.
  - rewrite lzcount_spec by done. f_equal. unfold bitLength. rewrite (proj2 (Z.eqb_neq _ _)) by done.
    pose proof (pow256_pos (zlen a) (zlen_pos a)). rewrite (proj2 (Z.eqb_neq _ _)) by nia.
    assert (Z.log2 (d * 256 ^ zlen a + dist a b) = Z.log2 d + 8 * zlen a); [|lia].
    change 256 with (2 ^ 8) in *. rewrite <- Z.pow_mul_r in * by (pose proof (zlen_pos a); lia). set (m := 8 * zlen a) in *.
    pose proof (Z.log2_spec d ltac:(lia)) as [Hlo Hhi]. apply Z.log2_unique; [pose proof (Z.log2_nonneg d); pose proof (zlen_pos a); lia|].
    pose proof (Z.log2_nonneg d). pose proof (zlen_pos a). rewrite Z.pow_succ_r in Hhi by done. rewrite (Z.pow_succ_r 2 (Z.log2 d + m)), Z.pow_add_r by lia.
    split; [nia|]. assert ((d + 1) * 2 ^ m <= 2 * 2 ^ Z.log2 d * 2 ^ m) by nia. nia.
Qed.

(** The distances are those of the XOR metric: for identifiers of the same length, [distcmp] compares the numbers
    whose bits are those in which the identifiers differ from the target, [logdist] is the length of that number in bits,
    and only the identifier itself is at distance 0. *)
Theorem xor_metric target a b : length a = length target -> length b = length target ->
  distcmp target a b = match Z.compare (dist target a) (dist target b) with Lt => -1 | Eq => 0 | Gt => 1 end /\
  logdist target a = Ret (bitLength (dist target a)) /\ (dist target a = 0 <-> target = a).
Proof.
  intros Ha Hb. split; [by apply distcmp_dist|]. split; [|by apply dist_zero].
  unfold logdist. rewrite leadingZeros_spec by done. cbn [mbind go_mbind]. f_equal. lia.
Qed.

(** ** Closest nodes *)

Section Closest.
Context (target : bytes).
Let d (n : Node) : Z := dist target (n_ID n).
Definition idOK (n : Node) : Prop := length (n_ID n) = length target.
Definition nearer (a b : Node) : Prop := dist target (n_ID a) <= dist target (n_ID b).

(** Insertion after the nodes that are not farther away. *)
Fixpoint ins (n : Node) (l : list Node) : list Node :=
  match l with
  | [] => [n]
  | e :: l => if dist target (n_ID n) <? dist target (n_ID e) then n :: e :: l else e :: ins n l
  end.

Lemma ins_perm n l : ins n l ≡ₚ n :: l.
Proof. induction l as [|e l IH]; cbn; [done|]. destruct (_ <? _); [done|]. rewrite IH. apply Permutation_swap. Qed.
Lemma ins_sorted n l : StronglySorted nearer l -> StronglySorted nearer (ins n l).
Proof.
  induction 1 as [|e l Hs IH Hf]; cbn; [by repeat constructor|]. destruct (Z.ltb_spec (dist target (n_ID n)) (dist target (n_ID e))) as [Hlt|Hge].
  - constructor; [by constructor|]. constructor; [unfold nearer; lia|]. eapply Forall_impl; [exact Hf|]. unfold nearer. intros x. lia.
  - constructor; [done|]. rewrite ins_perm. by constructor.
Qed.
Lemma length_ins n l : length (ins n l) = S (length l).
Proof. by rewrite ins_perm. Qed.
Lemma ins_at n l r : (r <= length l)%nat -> (forall k e, (k < r)%nat -> l !! k = Some e -> d e <= d n) -> (forall e, l !! r = Some e -> d n < d e) ->
  ins n l = take r l ++ n :: drop r l.
Proof.
  revert r. induction l as [|e l IH]; intros r Hr Hlo Hhi; [destruct r; [done|cbn in Hr; lia]|]. cbn [ins]. destruct r as [|r].
  - specialize (Hhi e eq_refl). unfold d in Hhi. rewrite (proj2 (Z.ltb_lt _ _)) by done. done.
  - specialize (Hlo O e ltac:(lia) eq_refl) as H0. unfold d in H0. rewrite (proj2 (Z.ltb_ge _ _)) by done. cbn. f_equal. apply IH; [cbn in Hr; lia| |exact Hhi].
    intros k x Hk Hx. apply (Hlo (S k)); [lia|done].
Qed.
Lemma take_ins m n l : take m (ins n (take m l)) = take m (ins n l).
Proof.
  revert m. induction l as [|e l IH]; intros [|m]; cbn [take ins]; [done..|]. destruct (_ <? _).
  - cbn [take]. f_equal. destruct m as [|m]; [done|]. cbn [take]. f_equal. rewrite take_take. f_equal. lia.
  - cbn [take]. f_equal. apply IH.
Qed.

Lemma sorted_lookup l i j a b : StronglySorted nearer l -> (i <= j)%nat -> l !! i = Some a -> l !! j = Some b -> d a <= d b.
Proof.
  intros Hs. revert i j. induction Hs as [|e l Hs IH Hf]; intros i j Hij Ha Hb; [done|]. destruct i as [|i], j as [|j]; cbn in *; [by simplify_eq| |lia|eapply (IH i j); eauto; lia].
  simplify_eq. by eapply Forall_lookup in Hf.
Qed.

Lemma push_spec max n l : StronglySorted nearer l -> Forall idOK (n :: l) -> 0 < max -> zlen l <= max ->
  push target max n l = Ret (take (Z.to_nat max) (ins n l)).
Proof.
  intros Hs Hid Hmax Hlen. apply Forall_cons in Hid as [Hn Hid]. unfold push.
  set (p := fun i => match l !! Z.to_nat i with Some e => d n <? d e | None => true end).
  destruct (sort_Search_spec (zlen l) (fun i => e ← idx l i; Ret (0 <? distcmp target (n_ID e) (n_ID n))) p) as (r & -> & Hr & Hlo & Hhi).
  { apply zlen_pos. }
  { intros k Hk. destruct (idx_total l k Hk) as (e & E & He). rewrite E. cbn [mbind go_mbind]. unfold p. rewrite He. f_equal.
    rewrite distcmp_dist by (try done; eapply Forall_lookup in Hid; eauto; done). fold (d e) (d n). destruct (Z.compare_spec (d e) (d n)), (Z.ltb_spec (d n) (d e)); try done; lia. }
  { intros a b Hab Hb. unfold p. destruct (idx_total l a ltac:(lia)) as (x & _ & Hx). destruct (idx_total l b ltac:(lia)) as (y & _ & Hy). rewrite Hx, Hy.
    intros ?%Z.ltb_lt. apply Z.ltb_lt. pose proof (sorted_lookup l (Z.to_nat a) (Z.to_nat b) x y Hs ltac:(lia) Hx Hy). lia. }
  cbn [mbind go_mbind]. set (i := Z.to_nat r). assert (Hri : r = Z.of_nat i) by (unfold i; lia). assert (Hi : (i <= length l)%nat) by (unfold i, zlen in *; lia).
  rewrite (ins_at n l i Hi).
  2: { intros k e Hk He. specialize (Hlo (Z.of_nat k) ltac:(unfold i in *; lia)). unfold p in Hlo. rewrite Nat2Z.id, He in Hlo. by apply Z.ltb_ge in Hlo. }
  2: { intros e He. pose proof (lookup_lt_Some _ _ _ He). specialize (Hhi ltac:(unfold i, zlen in *; lia)). unfold p in Hhi. fold i in Hhi. rewrite He in Hhi. by apply Z.ltb_lt in Hhi. }
  destruct (Z.ltb_spec (zlen l) max) as [Hroom|Hfull].
  - rewrite (proj2 (Z.eqb_neq _ _)) by (unfold zlen in *; rewrite length_app; cbn [length]; lia).
    assert (E : take (S i) (l ++ [n]) ++ gocopy (drop (S i) (l ++ [n])) (drop i (l ++ [n])) = take (S i) (l ++ [n]) ++ drop i l).
    { f_equal. unfold gocopy. rewrite !length_drop, length_app. cbn [length]. rewrite drop_app_le by lia. rewrite take_app_le, take_ge by (rewrite length_drop; lia).
      rewrite (drop_ge (drop _ _)) by (rewrite length_drop, length_app; cbn [length]; lia). apply app_nil_r. }
    rewrite E. rewrite upd_ret by (unfold zlen in *; rewrite length_app, length_take, length_app, length_drop; cbn [length]; lia). f_equal. fold i.
    rewrite insert_app_l by (rewrite length_take, length_app; cbn [length]; lia). rewrite insert_take_drop by (rewrite length_take, length_app; cbn [length]; lia).
    rewrite take_take, Nat.min_l, take_app_le by lia. rewrite (drop_ge (take _ _)) by (rewrite length_take; lia).
    rewrite <- app_assoc. cbn [app]. symmetry. apply take_ge. rewrite length_app, length_take. cbn [length]. rewrite length_drop. unfold zlen in *. lia.
  - assert (El : Z.to_nat max = length l) by (unfold zlen in *; lia). rewrite El. destruct (Z.eqb_spec r (zlen l)) as [->|Hne].
    + unfold i, zlen. rewrite Nat2Z.id, firstn_all, drop_all. by rewrite take_app_le, firstn_all by lia.
    + assert (Hlt : (i < length l)%nat) by (unfold i, zlen in *; lia).
      assert (E : take (S i) l ++ gocopy (drop (S i) l) (drop i l) = take (S i) l ++ take (length l - S i) (drop i l)).
      { f_equal. unfold gocopy. rewrite !length_drop. rewrite (drop_ge (drop _ _)) by (rewrite length_drop; lia). apply app_nil_r. }
      rewrite E. rewrite upd_ret by (unfold zlen in *; rewrite length_app, !length_take, length_drop; lia). f_equal. fold i.
      rewrite insert_app_l by (rewrite length_take; lia). rewrite insert_take_drop by (rewrite length_take; lia).
      rewrite take_take, Nat.min_l by lia. rewrite (drop_ge (take _ _)) by (rewrite length_take; lia). rewrite <- app_assoc. cbn [app].
      rewrite take_app_ge by (rewrite length_take; lia). f_equal. rewrite length_take, Nat.min_l by lia.
      replace (length l - i)%nat with (S (length l - S i)) by lia. done.
Qed.

(** The nodes pushed one after another. *)
Definition nsort (l0 l : list Node) : list Node := foldl (fun l n => ins n l) l0 l.
Lemma nsort_perm l0 l : nsort l0 l ≡ₚ l0 ++ l.
Proof.
  revert l0. induction l as [|n l IH]; intros l0; cbn; [by rewrite app_nil_r|]. unfold nsort in IH. rewrite IH, ins_perm. cbn. by rewrite Permutation_middle.
Qed.
Lemma nsort_sorted l0 l : StronglySorted nearer l0 -> StronglySorted nearer (nsort l0 l).
Proof. revert l0. induction l as [|n l IH]; intros l0 Hs; [done|]. by apply IH, ins_sorted. Qed.
Lemma sorted_take m l : StronglySorted nearer l -> StronglySorted nearer (take m l).
Proof.
  intros Hs. revert m. induction Hs as [|e l Hs IH Hf]; intros [|m]; cbn; [constructor..|]. constructor; [done|]. by apply Forall_take.
Qed.

Lemma push_fold max l0 l : StronglySorted nearer l0 -> Forall idOK l0 -> Forall idOK l -> 0 < max ->
  go_fold (push target max) l (take (Z.to_nat max) l0) = Ret (take (Z.to_nat max) (nsort l0 l)).
Proof.
  revert l0. induction l as [|n l IH]; intros l0 Hs H0 Hid Hmax; [done|]. apply Forall_cons in Hid as [Hn Hid]. cbn [go_fold].
  rewrite push_spec; [|by apply sorted_take|by apply Forall_cons; split; [|apply Forall_take]|done|unfold zlen; rewrite length_take; lia].
  cbn [mbind go_mbind]. rewrite take_ins. rewrite IH; [done|by apply ins_sorted|rewrite ins_perm; by constructor|done|done].
Qed.
End Closest.

Section Lookup.
Context `{NetSet}.

(** [closest] is right: it returns the first [nresults] of all nodes of the table in the order of their distance to
    the target. *)
Theorem closest_correct target nresults t : Forall (idOK target) (buckets t ≫= entries) -> 0 < nresults ->
  exists l, closest target nresults t = Ret (take (Z.to_nat nresults) l) /\ l ≡ₚ (buckets t ≫= entries) /\ StronglySorted (nearer target) l.
Proof.
  intros Hid Hn. exists (nsort target [] (buckets t ≫= entries)). split_and!; [|apply nsort_perm|apply nsort_sorted; constructor].
  unfold closest. rewrite <- (take_nil (Z.to_nat nresults)) at 1. apply push_fold; [constructor|done|done|done].
Qed.

(** *** The search *)

Definition ids (l : list Node) : list NodeID := n_ID <$> l.
(** What an answer holds. *)
Definition told (r : list (option Node)) : list Node := omap id r.

Lemma askLoop_spec (U : gset NodeID) l a0 p0 a p q : askLoop l a0 p0 = (a, p, q) -> 0 <= p0 <= alpha -> (forall n, n ∈ l -> n_ID n ∈ U) ->
  a0 ⊆ a /\ p = p0 + zlen q /\ p <= alpha /\ Z.of_nat (size (U ∖ a)) + zlen q = Z.of_nat (size (U ∖ a0)) /\ (p < alpha -> forall n, n ∈ l -> n_ID n ∈ a) /\
  a = a0 ∪ list_to_set (ids q) /\ NoDup (ids q) /\ (forall n, n ∈ q -> n_ID n ∉ a0).
Proof.
  revert a0 p0 a p q. induction l as [|n l IH]; intros a0 p0 a p q H1 Hp HU; cbn [askLoop] in H1.
  { injection H1 as <- <- <-. unfold zlen. cbn. split_and!; [done|lia|lia|lia|set_solver|by rewrite union_empty_r_L|apply NoDup_nil_2|by intros n Hn%elem_of_nil]. }
  destruct (Z.ltb_spec p0 alpha) as [Hlt|]; [|injection H1 as <- <- <-; unfold zlen; cbn; split_and!; [done|lia|lia|lia|lia|by rewrite union_empty_r_L|apply NoDup_nil_2|by intros ? Hn%elem_of_nil]].
  destruct (bool_decide_reflect (n_ID n ∈ a0)) as [Hin|Hin].
  - destruct (IH _ _ _ _ _ H1) as (Ha & Hp' & Hle & Hsz & Hall & Hq); [lia|set_solver|]. split_and!; [done|done|done|done| |apply Hq..].
    intros Hlt' x [->|Hx]%elem_of_cons; [set_solver|auto].
  - destruct (askLoop l _ _) as [[a' p'] q'] eqn:E. injection H1 as <- <- <-.
    destruct (IH _ _ _ _ _ E) as (Ha & Hp' & Hle & Hsz & Hall & Hq & Hnd & Hnew); [lia|set_solver|]. rewrite zlen_tail. split_and!; [set_solver|lia|lia| | |rewrite Hq; unfold ids; cbn; by rewrite (union_comm_L {[n_ID n]} a0), union_assoc_L| |].
    + assert (Hs : U ∖ a0 = {[n_ID n]} ∪ (U ∖ ({[n_ID n]} ∪ a0))).
      { apply set_eq. intros x. pose proof (HU n ltac:(left)) as HnU. clear -HnU Hin. destruct (decide (x = n_ID n)); set_solver. }
      pose proof (size_union {[n_ID n]} (U ∖ ({[n_ID n]} ∪ a0)) ltac:(set_solver)) as Hu. rewrite size_singleton in Hu. rewrite Hs, Hu. lia.
    + intros Hlt' x [->|Hx]%elem_of_cons; [set_solver|auto].
    + unfold ids. cbn. apply NoDup_cons. split; [|exact Hnd]. intros (x & Ex & Hx)%list_elem_of_fmap. apply (Hnew x Hx). rewrite <- Ex. by apply elem_of_union_l, elem_of_singleton.
    + intros x [->|Hx]%elem_of_cons; [done|]. intros Hx0. apply (Hnew x Hx). by apply elem_of_union_r.
Qed.

Section Run.
Context (target : bytes) (L0 : list Node) (U : gset NodeID).
Context (HL0 : StronglySorted (nearer target) L0) (Hid0 : Forall (idOK target) L0) (HU0 : forall n, n ∈ L0 -> n_ID n ∈ U).

(** The search after the nodes [news] were told. *)
Record searching (news : list Node) (s : search) : Prop := mkSearching {
  g_result : result s = take (Z.to_nat bucketSize) (nsort target L0 news);
  g_seen : seen s = list_to_set (ids news);
  g_nodup : NoDup (ids news);
  g_id : Forall (idOK target) news;
  g_U : forall n, n ∈ news -> n_ID n ∈ U;
  g_pending : 0 <= pendingQueries s <= alpha }.

Lemma searching_result news s n : searching news s -> n ∈ result s -> n_ID n ∈ U.
Proof.
  intros [E _ _ _ HU _] Hn. rewrite E in Hn. apply list_elem_of_lookup in Hn as (i & Hi). apply lookup_take_Some in Hi as [Hi _].
  apply list_elem_of_lookup_2 in Hi. rewrite nsort_perm in Hi. apply elem_of_app in Hi as [|]; auto.
Qed.

Lemma receive_one news s n : searching news s -> idOK target n -> n_ID n ∈ U -> n_ID n ∉ seen s ->
  exists l, push target bucketSize n (result s) = Ret l /\ searching (news ++ [n]) (mkSearch (asked s) ({[n_ID n]} ∪ seen s) l (pendingQueries s)).
Proof.
  intros [Er Es Hnd Hid HU Hp] Hn HnU Hseen. eexists. rewrite Er.
  assert (Hs : StronglySorted (nearer target) (nsort target L0 news)) by (by apply nsort_sorted).
  assert (Hi : Forall (idOK target) (nsort target L0 news)) by (rewrite nsort_perm; by apply Forall_app).
  split; [apply push_spec; [by apply sorted_take|by apply Forall_cons; split; [|apply Forall_take]|done|unfold zlen, bucketSize; rewrite length_take; lia]|].
  split; cbn [result seen pendingQueries]; [|..|done].
  - rewrite take_ins. unfold nsort. by rewrite foldl_app.
  - rewrite Es. unfold ids. rewrite fmap_app, list_to_set_app_L. cbn. set_solver.
  - unfold ids. rewrite fmap_app. apply NoDup_app. split_and!; [done|set_solver|apply NoDup_singleton].
  - apply Forall_app. split; [done|]. by apply Forall_singleton.
  - set_solver.
Qed.

Lemma receiveReply_spec news s r : searching news s -> 0 < pendingQueries s -> Forall (idOK target) (told r) -> (forall n, n ∈ told r -> n_ID n ∈ U) ->
  exists s' more, receiveReply target r s = Ret s' /\ searching (news ++ more) s' /\ asked s' = asked s /\ pendingQueries s' = pendingQueries s - 1 /\
    (forall n, n ∈ told r -> n_ID n ∈ ids (news ++ more)) /\ (forall n, n ∈ more -> n ∈ told r).
Proof.
  intros Hs Hp Hid HU. unfold receiveReply.
  set (f := fun (o : option Node) s => match o with None => Ret s | Some n => if bool_decide (n_ID n ∈ seen s) then Ret s else _ end).
  assert (Hfn : forall n s, f (Some n) s = if bool_decide (n_ID n ∈ seen s) then Ret s else
    l ← push target bucketSize n (result s); Ret (mkSearch (asked s) ({[n_ID n]} ∪ seen s) l (pendingQueries s))) by done.
  assert (Hf : exists s1 more, go_fold f r s = Ret s1 /\ searching (news ++ more) s1 /\ asked s1 = asked s /\ pendingQueries s1 = pendingQueries s /\
    (forall n, n ∈ told r -> n_ID n ∈ ids (news ++ more)) /\ (forall n, n ∈ more -> n ∈ told r)).
  { clear Hp. revert news s Hs. induction r as [|o r IH]; intros news s Hs; cbn [go_fold].
    { exists s, []. rewrite app_nil_r. split_and!; [done|done|done|done|set_solver|set_solver]. }
    destruct o as [n|]; cbn in Hid, HU; [|cbn; apply IH; done]. apply Forall_cons in Hid as [Hn Hid]. rewrite Hfn.
    destruct (bool_decide_reflect (n_ID n ∈ seen s)) as [Hin|Hin].
    - destruct (IH Hid ltac:(set_solver) news s Hs) as (s1 & more & E & Hs1 & Ha & Hpp & Ht & Hm). exists s1, more. cbn [mbind go_mbind].
      split_and!; [done|done|done|done| |set_solver]. intros x [->|Hx]%elem_of_cons; [|auto].
      rewrite (g_seen _ _ Hs), elem_of_list_to_set in Hin. unfold ids in *. rewrite fmap_app. set_solver.
    - destruct (receive_one news s n Hs Hn ltac:(set_solver) Hin) as (l & El & Hs'). rewrite El. cbn [mbind go_mbind].
      destruct (IH Hid ltac:(set_solver) _ _ Hs') as (s1 & more & E & Hs1 & Ha & Hpp & Ht & Hm). exists s1, (n :: more).
      rewrite <- app_assoc in Hs1, Ht. split_and!; [done|done|done|done| |set_solver].
      intros x [->|Hx]%elem_of_cons; [|auto]. unfold ids. rewrite fmap_app. cbn. set_solver. }
  destruct Hf as (s1 & more & E & [] & Ha & Hpp & Ht & Hm). rewrite E. cbn [mbind go_mbind]. eexists _, more.
  split; [reflexivity|]. split; [split; cbn; try done; lia|]. split_and!; [exact Ha|cbn; lia|exact Ht|exact Hm].
Qed.

Lemma lookupLoop_ends replies news s : searching news s -> Forall (fun r => Forall (idOK target) (told r) /\ forall n, n ∈ told r -> n_ID n ∈ U) replies ->
  pendingQueries s + Z.of_nat (size (U ∖ asked s)) <= zlen replies ->
  exists s' queried more consumed rest, lookupLoop target replies s = Ret (s', queried, true) /\ replies = consumed ++ rest /\ searching (news ++ more) s' /\
    (forall n, n ∈ result s' -> n_ID n ∈ asked s') /\ (forall n, n ∈ (consumed ≫= told) -> n_ID n ∈ ids (news ++ more)) /\ (forall n, n ∈ more -> n ∈ (consumed ≫= told)) /\
    asked s' = asked s ∪ list_to_set (ids queried) /\ NoDup (ids queried) /\ (forall n, n ∈ queried -> n_ID n ∉ asked s) /\ zlen consumed = pendingQueries s + zlen queried.
Proof.
  revert news s. induction replies as [|r replies IH]; intros news s Hs Hr Hlen; cbn [lookupLoop]; unfold askNodes;
    destruct (askLoop (result s) (asked s) (pendingQueries s)) as [[a p] q] eqn:E;
    destruct (askLoop_spec U _ _ _ _ _ _ E (g_pending _ _ Hs) (fun n => searching_result _ _ n Hs)) as (Ha & Hp & Hle & Hsz & Hall & Hq & Hnd & Hnew); cbn [pendingQueries].
  all: assert (Hs' : searching news (mkSearch a (seen s) (result s) p)) by (destruct Hs; split; cbn; try done; unfold zlen in *; lia).
  all: destruct (Z.eqb_spec p 0) as [Hp0|Hp0].
  1, 3: eexists _, _, [], [], _; rewrite (app_nil_r news); split_and!; [reflexivity|reflexivity|done|cbn; apply Hall; rewrite Hp0; done|set_solver|set_solver|exact Hq|exact Hnd|exact Hnew|change (zlen []) with 0; lia].
  - exfalso. pose proof (g_pending _ _ Hs). unfold zlen in *. cbn in Hlen. lia.
  - apply Forall_cons in Hr as [[Hid HU] Hr]. pose proof (g_pending _ _ Hs') as Hpp. cbn [pendingQueries] in Hpp.
    destruct (receiveReply_spec news _ r Hs' ltac:(cbn; lia) Hid HU) as (s1 & more & E1 & Hs1 & Ha1 & Hp1 & Ht & Hm). rewrite E1. cbn [mbind go_mbind].
    destruct (IH _ _ Hs1 Hr) as (s2 & queried & more2 & consumed & rest & E2 & -> & Hs2 & Hres & Ht2 & Hm2 & Hq2 & Hnd2 & Hnew2 & Hlen2).
    { rewrite Ha1, Hp1. cbn [asked pendingQueries]. rewrite zlen_tail in Hlen. lia. }
    rewrite Ha1 in Hq2, Hnew2. cbn [asked] in Hq2, Hnew2. rewrite Hp1 in Hlen2. cbn [pendingQueries] in Hlen2. rewrite E2. cbn [mbind go_mbind].
    exists s2, (q ++ queried), (more ++ more2), (r :: consumed), rest. rewrite app_assoc. unfold ids. rewrite !fmap_app, list_to_set_app_L.
    split_and!; [done|done|done|done| | |by rewrite Hq2, Hq, union_assoc_L| | |rewrite zlen_tail; unfold zlen in *; rewrite length_app; lia].
    + intros n. cbn. rewrite elem_of_app. intros [Hn|Hn]; [apply elem_of_app; left; rewrite <- fmap_app; by apply Ht|]. rewrite <- !fmap_app. by apply Ht2.
    + intros n. cbn. rewrite !elem_of_app. intros [Hn|Hn]; [left|right]; auto.
    + apply NoDup_app. split_and!; [done| |done]. intros x Hx (n & -> & Hn)%list_elem_of_fmap. apply (Hnew2 n Hn). rewrite Hq. apply elem_of_union_r, elem_of_list_to_set, Hx.
    + intros n [Hn|Hn]%elem_of_app; [by apply Hnew|]. intros Hx. apply (Hnew2 n Hn). rewrite Hq. by apply elem_of_union_l.
Qed.
End Run.

(** The table a search starts from. *)
Definition startTable (refreshIfEmpty : bool) (refreshed t : Table) : Table := if refreshIfEmpty && bool_decide ((buckets t ≫= entries) = []) then refreshed else t.
Lemma start_closest target refreshIfEmpty refreshed t : let start := startTable refreshIfEmpty refreshed t in
  Forall (idOK target) (buckets t ≫= entries) -> Forall (idOK target) (buckets start ≫= entries) ->
  (l ← closest target bucketSize t; (if (0 <? zlen l) || negb refreshIfEmpty then Ret l else closest target bucketSize refreshed)) = Ret (take 16 (nsort target [] (buckets start ≫= entries))).
Proof.
  intros start Hid Hid'.
  assert (Hc : forall x, Forall (idOK target) (buckets x ≫= entries) -> closest target bucketSize x = Ret (take 16 (nsort target [] (buckets x ≫= entries)))).
  { intros x Hx. pose proof (push_fold target bucketSize [] _ ltac:(constructor) ltac:(done) Hx ltac:(done)) as E. by rewrite take_nil in E. }
  rewrite (Hc t Hid). cbn [mbind go_mbind]. unfold start, startTable in *. destruct refreshIfEmpty; cbn [andb negb orb] in *; [|by rewrite orb_true_r]. rewrite orb_false_r.
  assert (Hlen : length (nsort target [] (buckets t ≫= entries)) = length (buckets t ≫= entries)) by (by rewrite nsort_perm).
  case_bool_decide as Ht.
  - rewrite Ht in Hlen. apply nil_length_inv in Hlen. rewrite Ht, Hlen. by apply Hc.
  - rewrite (proj2 (Z.ltb_lt _ _)); [done|]. unfold zlen. rewrite length_take, Hlen. destruct (buckets t ≫= entries); [done|]. cbn. lia.
Qed.

(** C35: a search ends with the closest nodes it heard of.  A search whose table
    is empty starts from the table after one refresh.  If the identifiers that
    the table and the answers hold are in a finite set, the search ends within
    as many answers as the set has elements; it has then queried every node of
    its result except ourselves, each once, and waited for every answer; and the
    result is the first 16, in the order of distance, of the list of the nodes of
    the table and the nodes it was told of.  A node that was told of several
    times is in that list once, one of the table that was told of once more is in
    it twice. *)
Theorem lookup_ends target refreshIfEmpty refreshed replies t (U : gset NodeID) : let start := startTable refreshIfEmpty refreshed t in
  Forall (idOK target) (buckets t ≫= entries) -> Forall (idOK target) (buckets start ≫= entries) -> (forall n, n ∈ (buckets start ≫= entries) -> n_ID n ∈ U) ->
  Forall (fun r => Forall (idOK target) (told r) /\ forall n, n ∈ told r -> n_ID n ∈ U) replies -> (size U <= length replies)%nat ->
  exists s queried consumed rest news l, lookup target refreshIfEmpty refreshed replies t = Ret (s, queried, true) /\ replies = consumed ++ rest /\
    (forall n, n ∈ result s -> n_ID n = n_ID (self t) \/ n_ID n ∈ ids queried) /\ NoDup (ids queried) /\ n_ID (self t) ∉ ids queried /\ length consumed = length queried /\
    result s = take 16 l /\ StronglySorted (nearer target) l /\ l ≡ₚ (buckets start ≫= entries) ++ news /\
    NoDup (ids news) /\ (forall n, n ∈ news -> n ∈ (consumed ≫= told)) /\ (forall n, n ∈ (consumed ≫= told) -> n_ID n ∈ ids news).
Proof.
  intros start Hid0 Hid HU Hr Hlen. pose proof (start_closest target refreshIfEmpty refreshed t Hid0 Hid) as E. fold start in E. set (all := buckets start ≫= entries) in *.
  assert (El0 : lookup target refreshIfEmpty refreshed replies t = lookupLoop target replies (mkSearch {[n_ID (self t)]} ∅ (take 16 (nsort target [] all)) 0)).
  { unfold lookup. destruct (closest target bucketSize t) as [l|]; [|done]. cbn [mbind go_mbind] in E |- *. by rewrite E. }
  destruct (lookupLoop_ends target (nsort target [] all) U ltac:(apply nsort_sorted; constructor)) with (replies := replies) (news := @nil Node)
    (s := mkSearch {[n_ID (self t)]} ∅ (take 16 (nsort target [] all)) 0) as (s & queried & more & consumed & rest & El & Hc & Hs & Hres & Ht & Hm & Hq & Hnd & Hnew & Hl).
  - rewrite nsort_perm. done.
  - intros n. rewrite nsort_perm. apply HU.
  - split; cbn [result seen pendingQueries]; [reflexivity|reflexivity|apply NoDup_nil_2|done|set_solver|unfold alpha; lia].
  - done.
  - cbn [pendingQueries asked]. unfold zlen. pose proof (subseteq_size (U ∖ {[n_ID (self t)]}) U ltac:(set_solver)). lia.
  - exists s, queried, consumed, rest, more, (nsort target (nsort target [] all) more). cbn [app asked pendingQueries] in *. destruct Hs as [Er _ Hndm _ _ _].
    split_and!; [by rewrite El0|done| |done| |unfold zlen in Hl; lia|done|apply nsort_sorted, nsort_sorted; constructor| |done|done|done].
    + intros n Hn%Hres. rewrite Hq in Hn. apply elem_of_union in Hn as [Hn%elem_of_singleton|Hn%elem_of_list_to_set]; [by left|by right].
    + intros (n & Ex & Hn)%list_elem_of_fmap. apply (Hnew n Hn). by apply elem_of_singleton.
    + rewrite nsort_perm, nsort_perm. done.
Qed.
End Lookup.

(** ** The buckets *)

Lemma indexOf_Some id l i : indexOf id l = Some i -> exists l1 e l2, l = l1 ++ e :: l2 /\ length l1 = i /\ n_ID e = id.
Proof.
  revert i. induction l as [|e l IH]; intros i Hi; cbn [indexOf] in Hi; [done|]. destruct (bytes_eqb (n_ID e) id) eqn:E.
  - injection Hi as <-. exists [], e, l. apply bytes_eqb_true in E. done.
  - destruct (indexOf id l) as [j|] eqn:Ej; [|done]. injection Hi as <-. destruct (IH _ eq_refl) as (l1 & e' & l2 & -> & <- & He).
    exists (e :: l1), e', l2. done.
Qed.
Lemma indexOf_None id l : indexOf id l = None -> id ∉ ids l.
Proof.
  induction l as [|e l IH]; cbn [indexOf]; intros Hn; [set_solver|]. destruct (bytes_eqb (n_ID e) id) eqn:E; [done|].
  destruct (indexOf id l); [done|]. cbn. intros [->|Hin]%elem_of_cons; [|by apply IH].
  by rewrite (proj2 (bytes_eqb_true _ _) eq_refl) in E.
Qed.
Lemma NoDup_sub {A} (l k : list A) : l ⊆+ k -> NoDup k -> NoDup l.
Proof. intros (k' & Hk)%submseteq_Permutation Hnd. rewrite Hk in Hnd. by apply NoDup_app in Hnd as [? _]. Qed.
Lemma ids_app l1 l2 : ids (l1 ++ l2) = ids l1 ++ ids l2.
Proof. apply fmap_app. Qed.

Lemma bump_perm l n l' : bump l n = Some l' -> length l' = length l /\ ids l' ≡ₚ ids l.
Proof.
  unfold bump. destruct (indexOf (n_ID n) l) as [i|] eqn:E; [|done]. intros [= <-]. destruct (indexOf_Some _ _ _ E) as (l1 & e & l2 & -> & <- & He).
  rewrite take_app_length.
  assert (Hb : <[0%nat:=n]> (take 1 (l1 ++ e :: l2) ++ gocopy (drop 1 (l1 ++ e :: l2)) l1) = n :: l1 ++ l2).
  { unfold gocopy. destruct l1 as [|x l1]; cbn; [by rewrite !drop_0, take_nil|]. rewrite !drop_0, length_app. cbn [length]. f_equal.
    rewrite (take_ge (x :: l1)) by (cbn [length]; lia). cbn [app]. do 2 f_equal.
    replace (S (length l1)) with (length l1 + 1)%nat by lia. rewrite <- drop_drop, drop_app_length. done. }
  rewrite Hb. rewrite !length_app. cbn [length]. rewrite length_app. split; [lia|]. cbn. rewrite !ids_app. cbn. rewrite He. solve_Permutation.
Qed.
Lemma bump_None l n : bump l n = None -> n_ID n ∉ ids l.
Proof. unfold bump. destruct (indexOf _ _) eqn:E; [done|]. intros _. by apply indexOf_None. Qed.

Lemma deleteNode_ids l n : n_ID n ∉ ids l /\ deleteNode l n = l \/ exists l1 e l2, l = l1 ++ e :: l2 /\ n_ID e = n_ID n /\ deleteNode l n = l1 ++ l2.
Proof.
  unfold deleteNode. destruct (indexOf _ _) as [i|] eqn:E; [right|left; split; [by apply indexOf_None|done]].
  destruct (indexOf_Some _ _ _ E) as (l1 & e & l2 & -> & <- & He). exists l1, e, l2. split_and!; [done|done|].
  rewrite take_app_length. f_equal. replace (S (length l1)) with (length l1 + 1)%nat by lia. rewrite <- drop_drop, drop_app_length. done.
Qed.
Lemma deleteNode_length l n : (length (deleteNode l n) <= length l)%nat.
Proof. destruct (deleteNode_ids l n) as [[_ ->]|(l1 & e & l2 & -> & _ & ->)]; rewrite ?length_app; cbn; lia. Qed.
Lemma deleteNode_sub l n : ids (deleteNode l n) ⊆+ ids l.
Proof.
  destruct (deleteNode_ids l n) as [[_ ->]|(l1 & e & l2 & -> & _ & ->)]; [done|]. rewrite !ids_app. apply submseteq_app; [done|]. cbn. by apply submseteq_cons.
Qed.
Lemma deleteNode_not l n : NoDup (ids l) -> n_ID n ∉ ids (deleteNode l n).
Proof.
  destruct (deleteNode_ids l n) as [[H1 ->]|(l1 & e & l2 & -> & He & ->)]; [done|]. rewrite !ids_app. cbn. rewrite He.
  intros Hnd. apply NoDup_app in Hnd as (_ & Hd & [Hc _]%NoDup_cons). set_solver.
Qed.

(** The bucket of an identifier in a table with 17 buckets. *)
Definition place (sid id : NodeID) : go Z :=
  d ← logdist sid id;
  if d <=? bucketMinDistance then Ret 0 else if nBuckets - 1 <? d - bucketMinDistance - 1 then Ret (nBuckets - 1) else Ret (d - bucketMinDistance - 1).
Lemma place_ok sid id : length id = length sid -> exists i, place sid id = Ret i /\ 0 <= i < nBuckets.
Proof.
  intros Hl. unfold place, logdist. rewrite leadingZeros_spec by done. cbn [mbind go_mbind]. unfold bucketMinDistance.
  assert (Hn : nBuckets = 17) by done. rewrite Hn. unfold hashBits.
  destruct (Z.leb_spec (zlen sid * 8 - (8 * zlen sid - bitLength (dist sid id))) (32 * 8 - 17)); [eexists; split; [done|lia]|].
  destruct (Z.ltb_spec (17 - 1) (zlen sid * 8 - (8 * zlen sid - bitLength (dist sid id)) - (32 * 8 - 17) - 1)); eexists; (split; [done|lia]).
Qed.

Section Buckets.
Context `{NetSet}.

Section Own.
Context (sid : NodeID).

(** The nodes of a bucket: at most 16 entries and 10 replacements, no
    identifier twice, and each where it belongs. *)
Record wfBucket (i : Z) (b : bucket) : Prop := mkWfBucket {
  w_entries : (length (entries b) <= 16)%nat;
  w_replacements : (length (replacements b) <= 10)%nat;
  w_nodup : NoDup (ids (entries b) ++ ids (replacements b));
  w_place : forall id, id ∈ ids (entries b) ++ ids (replacements b) -> length id = length sid /\ place sid id = Ret i }.

Lemma wf_sub i b b' id : wfBucket i b -> (length (entries b') <= 16)%nat -> (length (replacements b') <= 10)%nat ->
  NoDup (ids (entries b') ++ ids (replacements b')) -> ids (entries b') ++ ids (replacements b') ⊆ id :: ids (entries b) ++ ids (replacements b) ->
  length id = length sid -> place sid id = Ret i -> wfBucket i b'.
Proof. intros Hw He Hr Hnd Hsub Hl Hp. split; [done|done|done|]. intros x Hx%Hsub. apply elem_of_cons in Hx as [->|Hx]; [done|]. by apply Hw. Qed.
Lemma wf_less i b b' : wfBucket i b -> (length (entries b') <= length (entries b))%nat -> (length (replacements b') <= length (replacements b))%nat ->
  ids (entries b') ++ ids (replacements b') ⊆+ ids (entries b) ++ ids (replacements b) -> wfBucket i b'.
Proof.
  intros Hw He Hr Hsub. split; [destruct Hw; lia|destruct Hw; lia|by eapply NoDup_sub; [|apply Hw]|].
  intros x Hx. apply Hw. by eapply elem_of_submseteq.
Qed.

Lemma pushNode_spec l n max : (0 < max)%Z -> (length l <= Z.to_nat max)%nat ->
  exists k, (pushNode l n max).1 = n :: take k l /\ (length (pushNode l n max).1 <= Z.to_nat max)%nat.
Proof.
  intros Hm Hl. unfold pushNode. destruct (Z.ltb_spec (zlen l) max) as [Hlt|Hge]; cbn [fst].
  - exists (length l). rewrite take_ge by lia. split; [done|]. unfold zlen in Hlt. cbn [length]. lia.
  - exists (length l - 1)%nat. split; [done|]. unfold zlen in Hge. cbn [length]. rewrite length_take. lia.
Qed.
Lemma ids_take k l : ids (take k l) ⊆+ ids l.
Proof. unfold ids. rewrite fmap_take. apply sublist_submseteq, sublist_take. Qed.

Lemma bumpOrAdd_wf now ips i b n : wfBucket i b -> length (n_ID n) = length sid -> place sid (n_ID n) = Ret i ->
  let '(_, b', ok) := bumpOrAdd now ips b n in wfBucket i b' /\ (ok = false -> n_ID n ∉ ids (entries b')).
Proof.
  intros Hw Hl Hp. unfold bumpOrAdd. destruct (bump (entries b) n) as [l|] eqn:E.
  - apply bump_perm in E as [El Ep]. split; [|done]. apply (wf_less i b); cbn; [done|lia|lia|]. by rewrite Ep.
  - apply bump_None in E. destruct (Z.leb_spec bucketSize (zlen (entries b))) as [Hf|Hf]; [done|].
    destruct (addIP _ _ _) as [[ips' bips] [|]]; [|split; [by apply (wf_less i b)|done]]. split; [|done].
    unfold pushNode. rewrite (proj2 (Z.ltb_lt _ _) Hf). cbn [fst].
    pose proof (deleteNode_length (replacements b) n). pose proof (w_replacements _ _ Hw). pose proof (w_nodup _ _ Hw) as Hnd. apply NoDup_app in Hnd as (Hne & Hdis & Hnr).
    pose proof (deleteNode_sub (replacements b) n) as Hsub.
    apply (wf_sub i b _ (n_ID n)); cbn; [done| |lia| | |done|done].
    + unfold zlen, bucketSize in Hf. lia.
    + apply NoDup_cons. split.
      * rewrite elem_of_app. intros [?|?]; [done|]. by apply (deleteNode_not (replacements b) n).
      * apply NoDup_app. split_and!; [done| |by eapply NoDup_sub]. intros x Hx Hx'. eapply Hdis; [exact Hx|]. by eapply elem_of_submseteq.
    + intros x. rewrite !elem_of_cons, !elem_of_app. intros [?|[?|Hx]]; [by left|by right; left|]. right; right. by eapply elem_of_submseteq.
Qed.

Lemma addReplacement_wf ips i b n : wfBucket i b -> length (n_ID n) = length sid -> place sid (n_ID n) = Ret i -> n_ID n ∉ ids (entries b) ->
  wfBucket i (addReplacement ips b n).2.
Proof.
  intros Hw Hl Hp Hn. unfold addReplacement. destruct (indexOf _ _) eqn:E; [done|]. apply indexOf_None in E.
  destruct (addIP _ _ _) as [[ips' bips] [|]]; [|by apply (wf_less i b)].
  pose proof (pushNode_spec (replacements b) n maxReplacements ltac:(done) (w_replacements _ _ Hw)) as (k & Hk & Hlen).
  destruct (pushNode _ _ _) as [l removed]. cbn [fst] in Hk, Hlen. destruct (match removed with Some r => _ | None => _ end). cbn [snd].
  pose proof (w_nodup _ _ Hw) as Hnd. apply NoDup_app in Hnd as (Hne & Hdis & Hnr). pose proof (ids_take k (replacements b)) as Hsub.
  apply (wf_sub i b _ (n_ID n)); cbn [entries replacements]; [done|apply Hw|exact Hlen| | |done|done]; rewrite Hk.
  - apply NoDup_app. split_and!; [done| |].
    + intros x Hx. cbn. intros [->|Hx']%elem_of_cons; [done|]. eapply Hdis; [exact Hx|]. by eapply elem_of_submseteq.
    + cbn. apply NoDup_cons. split; [|by eapply NoDup_sub]. intros Hx. apply E. by eapply elem_of_submseteq.
  - intros x. cbn. rewrite !elem_of_cons, !elem_of_app, elem_of_cons. intros [Hx|[->|Hx]]; [by right; left|by left|]. right; right. by eapply elem_of_submseteq.
Qed.

Lemma deleteInBucket_wf ips i b n : wfBucket i b -> wfBucket i (deleteInBucket ips b n).2.
Proof.
  intros Hw. unfold deleteInBucket. destruct (removeIP _ _ _). cbn [snd]. apply (wf_less i b); cbn [entries replacements]; [done|apply deleteNode_length|lia|].
  apply submseteq_app; [apply deleteNode_sub|done].
Qed.

Lemma replace_wf draw ips i b lst : wfBucket i b -> (forall k, 0 < k -> 0 <= draw k < k) ->
  exists ips' b' r, replace draw ips b lst = Ret (ips', b', r) /\ wfBucket i b'.
Proof.
  intros Hw Hdraw. unfold replace. destruct (last (entries b)) as [e|] eqn:El; [|by eexists _, _, _].
  destruct (bytes_eqb _ _); cbn [negb]; [|by eexists _, _, _]. destruct (Z.eqb_spec (zlen (replacements b)) 0) as [Hz|Hz].
  { pose proof (deleteInBucket_wf ips i b lst Hw) as Hd. destruct (deleteInBucket _ _ _). by eexists _, _, _. }
  destruct (idx_total (replacements b) (draw (zlen (replacements b)))) as (r & Hr & Er).
  { pose proof (zlen_pos (replacements b)). pose proof (Hdraw (zlen (replacements b)) ltac:(lia)). lia. }
  rewrite Hr. cbn [mbind go_mbind]. destruct (removeIP _ _ _) as [ips' bips]. eexists _, _, _. split; [reflexivity|].
  apply list_elem_of_lookup_2 in Er. apply last_Some in El as (l0 & El).
  pose proof (w_nodup _ _ Hw) as Hnd. apply NoDup_app in Hnd as (Hne & Hdis & Hnr).
  assert (Hins : <[(length (entries b) - 1)%nat := r]> (entries b) = l0 ++ [r]).
  { rewrite El, length_app. cbn [length]. replace (length l0 + 1 - 1)%nat with (length l0 + 0)%nat by lia. by rewrite insert_app_r. }
  assert (Hin : n_ID r ∈ ids (replacements b)) by (by apply list_elem_of_fmap_2).
  pose proof (deleteNode_sub (replacements b) r) as Hsub. pose proof (deleteNode_length (replacements b) r).
  destruct (w_place _ _ Hw (n_ID r)) as [Hrl Hrp]; [apply elem_of_app; by right|].
  apply (wf_sub i b _ (n_ID r)); cbn [entries replacements]; [done|rewrite length_insert; apply Hw|pose proof (w_replacements _ _ Hw); lia| | |done|done]; rewrite Hins, ids_app; rewrite El, ids_app in *.
  - rewrite <- app_assoc. apply NoDup_app in Hne as (Hn0 & _ & _). apply NoDup_app. split_and!; [done| |].
    + intros x Hx. cbn. intros [->|Hx']%elem_of_cons; [by apply (Hdis (n_ID r)); [apply elem_of_app; left|]|]. apply (Hdis x); [apply elem_of_app; by left|]. by eapply elem_of_submseteq.
    + cbn. apply NoDup_cons. split; [by apply deleteNode_not|by eapply NoDup_sub].
  - intros x. cbn. rewrite !elem_of_cons, !elem_of_app, !elem_of_cons. intros [[?|[?|?%elem_of_nil]]|Hx]; [tauto|tauto|done|]. right; right. by eapply elem_of_submseteq.
Qed.
End Own.

(** ** The table under its operations *)

(** What happens to a table. *)
Inductive tableOp :=
  | OpAdd (now : Z) (n : Node)
  | OpStuff (now : Z) (nodes : list Node)
  | OpDelete (n : Node)
  | OpFindnode (now fails : Z) (n : Node) (r : list Node) (err : bool)
  | OpRevalidate (pong : bool) (draw : Z -> Z) (lst : Node) (bi : Z).
Definition applyOp (o : tableOp) (t : Table) : go Table :=
  match o with
  | OpAdd now n => add now n t
  | OpStuff now nodes => stuff now nodes t
  | OpDelete n => delete n t
  | OpFindnode now fails n r err => '(t, _) ← findnode now fails n r err t; Ret t
  | OpRevalidate pong draw lst bi => doRevalidate pong draw lst bi t
  end.
(** The identifiers have the length of our own, the index of the bucket is one that [nodeToRevalidate]
    returns, and the random numbers are in range. *)
Definition validOp (sid : NodeID) (o : tableOp) : Prop :=
  let ok n := length (n_ID n) = length sid in
  match o with
  | OpAdd _ n | OpDelete n => ok n
  | OpStuff _ nodes => Forall ok nodes
  | OpFindnode _ _ n r _ => ok n /\ Forall ok r
  | OpRevalidate _ draw _ bi => 0 <= bi < nBuckets /\ forall k, 0 < k -> 0 <= draw k < k
  end.

Record wfTable (s : Node) (t : Table) : Prop := mkWfTable {
  w_self : self t = s;
  w_length : zlen (buckets t) = nBuckets;
  w_buckets : forall i b, buckets t !! i = Some b -> wfBucket (n_ID s) (Z.of_nat i) b }.

Lemma wf_set s t i b ips : wfTable s t -> 0 <= i < nBuckets -> wfBucket (n_ID s) i b -> wfTable s (setBucket i b ips t).
Proof.
  intros [Hs Hl Hb] Hi Hw. split; cbn; [done|by unfold zlen; rewrite length_insert|]. intros j b' Hj.
  apply list_lookup_insert_Some in Hj as [(<- & <- & _)|[_ Hj]]; [|by apply Hb]. by rewrite Z2Nat.id by lia.
Qed.
Lemma wf_idx s t i : wfTable s t -> 0 <= i < nBuckets -> exists b, idx (buckets t) i = Ret b /\ wfBucket (n_ID s) i b.
Proof.
  intros [Hs Hl Hb] Hi. destruct (idx_total (buckets t) i) as (b & E & Hlk); [lia|]. exists b. split; [done|].
  rewrite <- (Z2Nat.id i) by lia. by apply Hb.
Qed.
Lemma wf_get s t id : wfTable s t -> length id = length (n_ID s) ->
  exists i b, bucketOf t id = Ret i /\ idx (buckets t) i = Ret b /\ 0 <= i < nBuckets /\ place (n_ID s) id = Ret i /\ wfBucket (n_ID s) i b.
Proof.
  intros Hw Hl. destruct (place_ok (n_ID s) id Hl) as (i & Hp & Hi). destruct (wf_idx s t i Hw Hi) as (b & Eb & Hb). exists i, b.
  split_and!; try done; try lia. rewrite <- Hp. unfold bucketOf, place. by rewrite (w_self _ _ Hw), (w_length _ _ Hw).
Qed.

(** The function returns, and gives a good table for a good table. *)
Definition keepsTable (s : Node) (f : Table -> go Table) : Prop := forall t, wfTable s t -> exists t', f t = Ret t' /\ wfTable s t'.

Lemma keeps_fold {A} s (f : A -> Table -> go Table) (P : A -> Prop) l : (forall a, P a -> keepsTable s (f a)) -> Forall P l -> keepsTable s (go_fold f l).
Proof.
  intros Hf Hl. induction Hl as [|a l Ha Hl IH]; intros t Ht; cbn [go_fold]; [by exists t|].
  destruct (Hf a Ha t Ht) as (t1 & E & Ht1). rewrite E. cbn [mbind go_mbind]. by apply IH.
Qed.
Lemma add_keeps s now n : length (n_ID n) = length (n_ID s) -> keepsTable s (add now n).
Proof.
  intros Hl t Ht. destruct (wf_get s t (n_ID n) Ht Hl) as (i & b & Ei & Eb & Hi & Hp & Hb). unfold add. rewrite Ei. cbn [mbind go_mbind]. rewrite Eb. cbn [mbind go_mbind].
  pose proof (bumpOrAdd_wf (n_ID s) now (t_ips t) i b n Hb Hl Hp) as Hw. destruct (bumpOrAdd _ _ _ _) as [[ips b'] [|]]; destruct Hw as [Hw Hn].
  - eexists. split; [reflexivity|]. by apply wf_set.
  - pose proof (addReplacement_wf (n_ID s) ips i b' n Hw Hl Hp (Hn eq_refl)) as Hr. destruct (addReplacement _ _ _). eexists. split; [reflexivity|]. by apply wf_set.
Qed.
Lemma delete_keeps s n : length (n_ID n) = length (n_ID s) -> keepsTable s (delete n).
Proof.
  intros Hl t Ht. destruct (wf_get s t (n_ID n) Ht Hl) as (i & b & Ei & Eb & Hi & Hp & Hb). unfold delete. rewrite Ei. cbn [mbind go_mbind]. rewrite Eb. cbn [mbind go_mbind].
  pose proof (deleteInBucket_wf (n_ID s) (t_ips t) i b n Hb) as Hd. destruct (deleteInBucket _ _ _). eexists. split; [reflexivity|]. by apply wf_set.
Qed.
Lemma stuff_keeps s now nodes : Forall (fun n => length (n_ID n) = length (n_ID s)) nodes -> keepsTable s (stuff now nodes).
Proof.
  apply keeps_fold. intros n Hl t Ht. destruct (bytes_eqb _ _); [by exists t|].
  destruct (wf_get s t (n_ID n) Ht Hl) as (i & b & Ei & Eb & Hi & Hp & Hb). rewrite Ei. cbn [mbind go_mbind]. rewrite Eb. cbn [mbind go_mbind].
  destruct (_ <? _); [|by exists t]. pose proof (bumpOrAdd_wf (n_ID s) now (t_ips t) i b n Hb Hl Hp) as Hw. destruct (bumpOrAdd _ _ _ _) as [[ips b'] ?].
  eexists. split; [reflexivity|]. apply wf_set; tauto.
Qed.
Lemma findnode_keeps s now fails n r err : length (n_ID n) = length (n_ID s) -> Forall (fun n => length (n_ID n) = length (n_ID s)) r ->
  keepsTable s (fun t => '(t, _) ← findnode now fails n r err t; Ret t).
Proof.
  intros Hl Hr t Ht. unfold findnode.
  assert (Hd : exists t', (if maxFindnodeFailures <=? fails + 1 then delete n t else Ret t) = Ret t' /\ wfTable s t')
    by (destruct (_ <=? _); [by apply delete_keeps|by exists t]). destruct Hd as (t1 & E1 & Ht1).
  destruct (_ || _).
  - rewrite E1. cbn [mbind go_mbind]. destruct (keeps_fold s (fun n t => add now n t) _ _ (fun n => add_keeps s now n) Hr t1 Ht1) as (t' & -> & Ht'). by exists t'.
  - cbn [mbind go_mbind]. destruct (keeps_fold s (fun n t => add now n t) _ _ (fun n => add_keeps s now n) Hr t Ht) as (t' & -> & Ht'). by exists t'.
Qed.
Lemma doRevalidate_keeps s pong draw lst bi : 0 <= bi < nBuckets -> (forall k, 0 < k -> 0 <= draw k < k) -> keepsTable s (doRevalidate pong draw lst bi).
Proof.
  intros Hi Hd t Ht. destruct (wf_idx s t bi Ht Hi) as (b & Eb & Hb). unfold doRevalidate. rewrite Eb. cbn [mbind go_mbind]. destruct pong.
  - destruct (bump _ _) as [l|] eqn:E; [|by exists t]. apply bump_perm in E as [El Ep]. eexists. split; [reflexivity|]. apply wf_set; [done|done|].
    apply (wf_less (n_ID s) bi b); cbn; [done|lia|lia|by rewrite Ep].
  - destruct (replace_wf (n_ID s) draw (t_ips t) bi b lst Hb Hd) as (ips & b' & r & -> & Hb'). eexists. split; [reflexivity|]. by apply wf_set.
Qed.
Lemma applyOp_keeps s o : validOp (n_ID s) o -> keepsTable s (applyOp o).
Proof.
  destruct o; cbn [validOp applyOp]; [apply add_keeps|apply stuff_keeps|apply delete_keeps|intros []; by apply findnode_keeps|intros []; by apply doRevalidate_keeps].
Qed.
Lemma newTable_wf id ip boot : wfTable (NewNode id ip) (newTable id ip boot).
Proof.
  split; [done|done|]. intros i b Hb. apply lookup_replicate in Hb as [-> _]. split; cbn; [lia|lia|apply NoDup_nil_2|set_solver].
Qed.

(** C33: the table is well formed, whatever is done to it.  Adding, stuffing, deleting, the answers of other nodes and the
    revalidation of a bucket never panic, and keep 17 buckets, each with at most 16 entries and 10 replacements, no
    identifier twice in a bucket, and each node in the bucket of its distance, so that no identifier is twice in the table. *)
Theorem table_wf id ip boot ops : Forall (validOp id) ops ->
  exists t, go_fold applyOp ops (newTable id ip boot) = Ret t /\ wfTable (NewNode id ip) t /\ NoDup (ids (buckets t ≫= fun b => entries b ++ replacements b)).
Proof.
  intros Hops. destruct (keeps_fold (NewNode id ip) applyOp (validOp id) ops (fun o => applyOp_keeps (NewNode id ip) o) Hops _ (newTable_wf id ip boot)) as (t & E & Ht).
  exists t. split_and!; [done|done|]. destruct Ht as [_ _ Hb]. revert Hb. generalize (buckets t). clear. intros l Hb.
  assert (Hg : forall k, (forall i b, l !! i = Some b -> wfBucket id (k + Z.of_nat i) b) ->
    NoDup (ids (l ≫= fun b => entries b ++ replacements b)) /\ (forall x, x ∈ ids (l ≫= fun b => entries b ++ replacements b) -> exists i, k <= i /\ place id x = Ret i)).
  { clear Hb. induction l as [|b l IH]; intros k Hw; [split; [apply NoDup_nil_2|set_solver]|].
    destruct (IH (k + 1)) as [Hnd Hpl]. { intros i b' Hi. replace (k + 1 + Z.of_nat i) with (k + Z.of_nat (S i)) by lia. by apply Hw. }
    pose proof (Hw O b eq_refl) as Hb. rewrite Z.add_0_r in Hb. cbn [mbind list_bind]. rewrite !ids_app. split.
    - apply NoDup_app. split_and!; [apply Hb| |exact Hnd]. intros x Hx Hx'. apply Hb in Hx as [_ Hx]. destruct (Hpl x Hx') as (i & Hi & Hx2). rewrite Hx in Hx2. injection Hx2 as <-. lia.
    - intros x [Hx|Hx]%elem_of_app; [exists k; split; [lia|by apply Hb]|]. destruct (Hpl x Hx) as (i & Hi & Hx2). exists i. split; [lia|done]. }
  apply (Hg 0). intros i b Hi. by apply Hb.
Qed.

(** ** The number of buckets in use *)

Lemma dist_app a1 a2 b1 b2 : length a1 = length b1 -> length a2 = length b2 -> dist (a1 ++ a2) (b1 ++ b2) = dist a1 b1 * 256 ^ zlen a2 + dist a2 b2.
Proof.
  revert b1. induction a1 as [|x a1 IH]; intros [|y b1] Hl1 Hl2; try done. injection Hl1 as Hl1. cbn [app dist]. rewrite IH by done.
  unfold zlen. rewrite length_app, Nat2Z.inj_add, Z.pow_add_r by lia. ring.
Qed.
(** An identifier whose first 32 bytes are not our own is in the last bucket. *)
Lemma place_last sid id : length sid = 64%nat -> length id = 64%nat -> take 32 id <> take 32 sid -> place sid id = Ret (nBuckets - 1).
Proof.
  intros Hs Hi Hne. unfold place, logdist. rewrite leadingZeros_spec by lia. cbn [mbind go_mbind].
  assert (Hd : 2 ^ 256 <= dist sid id).
  { rewrite <- (take_drop 32 sid), <- (take_drop 32 id), dist_app by (rewrite ?length_take, ?length_drop; lia).
    assert (Hz : dist (take 32 sid) (take 32 id) <> 0) by (intros E%dist_zero; [by apply Hne|rewrite !length_take; lia]).
    pose proof (dist_range (take 32 sid) (take 32 id)). pose proof (dist_range (drop 32 sid) (drop 32 id)).
    assert (Hp : 256 ^ zlen (drop 32 sid) = 2 ^ 256) by (unfold zlen; rewrite length_drop, Hs; reflexivity). rewrite Hp in *. nia. }
  assert (Hb : 257 <= bitLength (dist sid id)).
  { unfold bitLength. destruct (Z.eqb_spec (dist sid id) 0); [lia|]. pose proof (Z.log2_le_mono _ _ Hd) as Hlog. rewrite Z.log2_pow2 in Hlog by lia. lia. }
  assert (Hbm : bucketMinDistance = 239) by done. assert (Hnb : nBuckets = 17) by done. rewrite Hbm, Hnb.
  destruct (Z.leb_spec (zlen sid * 8 - (8 * zlen sid - bitLength (dist sid id))) 239); [lia|].
  destruct (Z.ltb_spec (17 - 1) (zlen sid * 8 - (8 * zlen sid - bitLength (dist sid id)) - 239 - 1)); [done|lia].
Qed.

Lemma sumZ_const {A} c (l : list A) : sumZ (fun _ => c) l = c * zlen l.
Proof. induction l as [|x l IH]; [by rewrite Z.mul_0_r|]. rewrite sumZ_cons, IH, zlen_tail. ring. Qed.
Lemma wf_last_only s t : wfTable s t -> length (n_ID s) = 64%nat -> (forall n, n ∈ (buckets t ≫= entries) -> take 32 (n_ID n) <> take 32 (n_ID s)) -> len t <= 16.
Proof.
  intros Hw Hs Hfar. unfold len. destruct Hw as [_ Hlen Hb]. assert (Hl : length (buckets t) = 17%nat) by (unfold zlen in Hlen; change nBuckets with 17 in Hlen; lia).
  assert (He : forall i b, buckets t !! i = Some b -> (i < 16)%nat -> entries b = []).
  { intros i b Hi Hlt. destruct (entries b) as [|n l] eqn:E; [done|exfalso]. destruct (w_place _ _ _ (Hb i b Hi) (n_ID n)) as [Hnl Hp]; [rewrite E; cbn; left|].
    rewrite place_last in Hp; [injection Hp; change nBuckets with 17; lia|done|lia|]. apply Hfar, list_elem_of_bind. exists b. rewrite E. split; [left|by eapply list_elem_of_lookup_2]. }
  rewrite <- (take_drop 16 (buckets t)), sumZ_app.
  assert (H0 : sumZ (fun b => zlen (entries b)) (take 16 (buckets t)) <= 0).
  { etransitivity; [apply (sumZ_le _ (fun _ => 0))|by rewrite sumZ_const].
    intros b (i & Hi)%list_elem_of_lookup. apply lookup_take_Some in Hi as [Hi Hlt]. by rewrite (He i b Hi Hlt). }
  destruct (drop 16 (buckets t)) as [|b [|b' l]] eqn:Ed; [apply (f_equal length) in Ed; rewrite length_drop, Hl in Ed; done| |apply (f_equal length) in Ed; rewrite length_drop, Hl in Ed; done].
  rewrite sumZ_cons. assert (Hi : buckets t !! 16%nat = Some b). { pose proof (lookup_drop (buckets t) 16 0) as Hd. rewrite Ed in Hd. symmetry. exact Hd. }
  pose proof (w_entries _ _ _ (Hb _ _ Hi)). change (sumZ (fun b => zlen (entries b)) []) with 0. unfold zlen at 2. lia.
Qed.

(** C34: the table has room for 16 nodes.  The bucket of a node is chosen for distances of 256 bits, but identifiers have
    512 bits: a node of which the first 32 bytes of the identifier differ from ours is in the last of the 17 buckets. Unless it
    holds a node that shares our first 32 bytes, a table has at most 16 entries, whatever was done to it, and not the 272 of its buckets. *)
Theorem one_bucket_used id ip boot ops t : length id = 64%nat -> Forall (validOp id) ops -> go_fold applyOp ops (newTable id ip boot) = Ret t ->
  (forall n, n ∈ (buckets t ≫= entries) -> take 32 (n_ID n) <> take 32 id) ->
  len t <= 16 /\ sumZ (fun _ => bucketSize) (buckets t) = 272 /\ (forall n, length (n_ID n) = 64%nat -> take 32 (n_ID n) <> take 32 id -> bucketOf t (n_ID n) = Ret 16).
Proof.
  intros Hid Hops E Hfar.
  destruct (keeps_fold (NewNode id ip) applyOp (validOp id) ops (fun o => applyOp_keeps (NewNode id ip) o) Hops _ (newTable_wf id ip boot)) as (t' & E' & Ht).
  rewrite E in E'. injection E' as <-. split_and!; [by apply (wf_last_only (NewNode id ip))| |].
  - destruct Ht as [_ Hl _]. by rewrite sumZ_const, Hl.
  - intros n Hn Hne. pose proof (place_last id (n_ID n) Hid Hn Hne) as Hp. change (Ret 16) with (Ret (nBuckets - 1)). rewrite <- Hp.
    unfold bucketOf, place. by rewrite (w_self _ _ Ht), (w_length _ _ Ht).
Qed.

(** ** Random nodes *)

Lemma insert_cons_perm {A} (l : list A) i x y : l !! i = Some x -> x :: <[i := y]> l ≡ₚ y :: l.
Proof.
  intros Hi. pose proof (lookup_lt_Some _ _ _ Hi). rewrite insert_take_drop by done. rewrite <- (take_drop_middle l i x Hi) at 3. solve_Permutation.
Qed.
Lemma swap_perm {A} (l : list A) i j x y : l !! i = Some x -> l !! j = Some y -> <[j := x]> (<[i := y]> l) ≡ₚ l.
Proof.
  intros Hi Hj. assert (Hj' : <[i := y]> l !! j = Some y).
  { destruct (decide (i = j)) as [->|Hne]; [apply list_lookup_insert_eq; by eapply lookup_lt_Some|by rewrite list_lookup_insert_ne]. }
  apply (Permutation_cons_inv (a := y)). rewrite (insert_cons_perm _ _ _ x Hj'). by apply insert_cons_perm.
Qed.

Lemma shuffle_perm draw l : (forall i, 0 <= draw i < zlen l) -> exists l', shuffle draw l = Ret l' /\ l' ≡ₚ l.
Proof.
  intros Hd. unfold shuffle.
  assert (Hg : forall k l', l' ≡ₚ l -> Forall (fun i => 0 <= i < zlen l) k ->
    exists l2, go_fold (fun i l => let j := draw i in x ← idx l i; y ← idx l j; l ← upd l i y; upd l j x) k l' = Ret l2 /\ l2 ≡ₚ l).
  { induction k as [|i k IH]; intros l' Hp Hk; [by exists l'|]. apply Forall_cons in Hk as [Hi Hk]. cbn [go_fold].
    assert (Hz : zlen l' = zlen l) by (unfold zlen; by rewrite Hp). pose proof (Hd i) as Hj.
    destruct (idx_total l' i) as (x & -> & Hx); [lia|]. destruct (idx_total l' (draw i)) as (y & Ey & Hy); [lia|]. cbn [mbind go_mbind]. rewrite Ey. cbn [mbind go_mbind].
    rewrite upd_ret by lia. cbn [mbind go_mbind]. rewrite upd_ret by (unfold zlen; rewrite length_insert; unfold zlen in *; lia). cbn [mbind go_mbind].
    apply IH; [|done]. by rewrite swap_perm. }
  apply Hg; [done|]. apply Forall_forall. intros i. rewrite elem_of_reverse, elem_of_seqZ. lia.
Qed.

Lemma mjoin_cons {A} (b : list A) l : mjoin (b :: l) = b ++ mjoin l.
Proof. done. Qed.
Lemma readLoop_fills room l i j : 0 <= j < zlen l -> Forall (fun b => b <> []) l ->
  exists ns, readLoop room l i j = Ret (ns, if decide (length (mjoin l) <= room)%nat then i + Z.of_nat (length (mjoin l)) - 1 else i + Z.of_nat room) /\
    length ns = Nat.min room (length (mjoin l)) /\ ns ⊆+ mjoin l.
Proof.
  revert l i j. induction room as [|room IH]; intros l i j Hj Hne.
  { exists []. cbn [readLoop]. split_and!; [|done|apply submseteq_nil_l]. destruct (decide _) as [Hz|]; [|by rewrite Z.add_0_r]. exfalso.
    destruct l as [|[|] l]; [unfold zlen in Hj; cbn in Hj; lia|by apply Forall_cons in Hne as []|cbn in Hz; lia]. }
  cbn [readLoop]. destruct (idx_total l j Hj) as (b & -> & Hb). cbn [mbind go_mbind].
  destruct b as [|n b]; [by apply (proj1 (Forall_lookup _ _) Hne) in Hb|]. cbn [idx]. change (idx (n :: b) 0) with (Ret (A := Node) n). cbn [mbind go_mbind].
  rewrite upd_ret by done. cbn [mbind go_mbind]. change (drop 1 (n :: b)) with (drop 0 b). rewrite drop_0.
  set (l2 := if zlen (n :: b) =? 1 then _ else _).
  assert (Hl2 : mjoin l ≡ₚ n :: mjoin l2 /\ Forall (fun b => b <> []) l2).
  { pose proof (lookup_lt_Some _ _ _ Hb) as Hlt. pose proof (take_drop_middle l _ _ Hb) as Hm. subst l2. rewrite insert_take_drop by done.
    rewrite <- Hm in Hne. apply Forall_app in Hne as [Hn1 [_ Hn2]%Forall_cons]. rewrite <- Hm at 1. destruct b as [|n' b].
    - change (zlen [n] =? 1) with true. cbn iota. rewrite take_app_le by (rewrite length_take; lia). rewrite take_take, Nat.min_id. rewrite drop_app_ge by (rewrite length_take; lia).
      replace (S (Z.to_nat j) - length (take (Z.to_nat j) l))%nat with 1%nat by (rewrite length_take; lia). cbn [drop]. rewrite drop_0.
      split; [rewrite !join_app, ?mjoin_cons, <- ?Permutation_middle; cbn [app]; solve_Permutation|apply Forall_app; split; done].
    - rewrite zlen_tail, (proj2 (Z.eqb_neq _ _)) by (rewrite zlen_tail; pose proof (zlen_pos b); lia). split; [rewrite !join_app, ?mjoin_cons, <- ?Permutation_middle; cbn [app]; solve_Permutation|].
      apply Forall_app. split; [done|]. apply Forall_cons. split; [done|]. done. }
  clearbody l2. destruct Hl2 as [Hp Hne2]. assert (Hll : length (mjoin l) = S (length (mjoin l2))) by (by rewrite Hp). rewrite Hll. destruct (Z.eqb_spec (zlen l2) 0) as [Hz|Hz].
  - assert (l2 = []) as -> by (destruct l2; [done|unfold zlen in Hz; cbn in Hz; lia]). exists [n]. assert (E0 : length (mjoin (@nil (list Node))) = O) by reflexivity. rewrite E0 in *.
    rewrite decide_True by lia. cbn [length]. split_and!; [repeat f_equal; cbn; lia|lia|rewrite Hp; done].
  - pose proof (zlen_pos l2). destruct (IH l2 (i + 1) (Z.rem (j + 1) (zlen l2))) as (ns & -> & Hlen & Hsub); [apply Z.rem_bound_pos; lia|done|]. cbn [mbind go_mbind].
    exists (n :: ns). cbn [length]. split_and!; [|lia|rewrite Hp; by apply submseteq_skip].
    do 2 f_equal. destruct (decide (length (mjoin l2) <= room)%nat), (decide (S (length (mjoin l2)) <= S room)%nat); lia.
Qed.

(** Random nodes are counted wrongly when there are more than fit.  The buffer gets as many entries of the table as fit,
    none twice, but when the table has more entries than the buffer, the number returned is one more than what was written. *)
Theorem random_nodes_overcounted draw bufLen t : 0 <= bufLen -> (forall k i, 0 < k -> 0 <= draw k i < k) ->
  exists ns, ReadRandomNodes true (draw (zlen (filter (fun l => 0 <? zlen l) (entries <$> buckets t)))) bufLen t =
               Ret (ns, if len t <=? bufLen then len t else bufLen + 1) /\
    zlen ns = Z.min bufLen (len t) /\ ns ⊆+ (buckets t ≫= entries).
Proof.
  intros Hbuf Hd. unfold ReadRandomNodes. cbn [negb]. set (l := filter _ _).
  assert (Hj : mjoin l = (buckets t ≫= entries) /\ Forall (fun b => b <> []) l).
  { subst l. induction (buckets t) as [|b bs [IH1 IH2]]; [done|]. rewrite fmap_cons, filter_cons. cbn [mbind list_bind]. destruct (entries b) as [|n e]; cbn; [done|].
    rewrite <- IH1. split; [done|]. apply Forall_cons. split; [done|]. done. }
  destruct Hj as [Hj Hne].
  assert (Ht : len t = zlen (mjoin l)). { rewrite Hj. unfold len. clear. induction (buckets t) as [|b bs IH]; [done|]. rewrite sumZ_cons, IH. cbn [mbind list_bind]. unfold zlen. rewrite length_app. lia. }
  rewrite Ht, <- Hj. clearbody l. clear Ht Hj. pose proof (zlen_pos (mjoin l)). destruct (Z.eqb_spec (zlen l) 0) as [Hz|Hz].
  { assert (l = []) as -> by (destruct l; [done|unfold zlen in Hz; cbn in Hz; lia]). exists []. change (zlen (mjoin [])) with 0. rewrite (proj2 (Z.leb_le _ _) Hbuf).
    split_and!; [done|by rewrite Z.min_r|done]. }
  pose proof (zlen_pos l). destruct (shuffle_perm (draw (zlen l)) l) as (l' & -> & Hp); [intros; apply Hd; lia|]. cbn [mbind go_mbind].
  destruct (readLoop_fills (Z.to_nat bufLen) l' 0 0) as (ns & -> & Hlen & Hsub); [unfold zlen in *; rewrite Hp; lia|by rewrite Hp|]. cbn [mbind go_mbind].
  exists ns. assert (Hpl : length (mjoin l') = length (mjoin l)) by (by rewrite Hp). rewrite Hp in Hsub. rewrite Hpl in *.
  split_and!; [|unfold zlen; lia|done]. do 2 f_equal. unfold zlen.
  destruct (decide _), (Z.leb_spec (Z.of_nat (length (mjoin l))) bufLen); lia.
Qed.
End Buckets.

(** ** An example *)

Module Example.
(** At most [limit] addresses of each network of [bits] bits. *)
Definition net : Type := Z * Z * list bytes.
Definition keyOf (s : net) (ip : bytes) : bytes := take (Z.to_nat (s.1.1 / 8)) ip.
Definition addNet (s : net) (ip : bytes) : net * bool :=
  if zlen (filter (fun k => bytes_eqb k (keyOf s ip)) s.2) <? s.1.2 then ((s.1, keyOf s ip :: s.2), true) else (s, false).
Fixpoint removeOne (k : bytes) (l : list bytes) : list bytes :=
  match l with [] => [] | x :: l => if bytes_eqb x k then l else x :: removeOne k l end.
#[local] Instance nets : NetSet :=
  {| netset := net; emptySet := fun bits limit => (bits, limit, []); Add := addNet;
     Remove := fun s ip => (s.1, removeOne (keyOf s ip) s.2); IsLAN := fun ip => bytes_eqb (take 1 ip) [Byte.x0a] |}.

Definition idA (b : byte) : NodeID := b :: replicate 63 Byte.x00.
Definition nodeA (b : byte) : Node := mkNode [Byte.x0a; Byte.x00; Byte.x00; b] 30303 30303 (idA b) 0.
Definition ops : list tableOp :=
  [OpAdd 1 (nodeA Byte.x01); OpStuff 2 [nodeA Byte.x02; nodeA Byte.x01]; OpFindnode 3 0 (nodeA Byte.x01) [nodeA Byte.x03] false;
   OpFindnode 4 4 (nodeA Byte.x02) [] true; OpRevalidate false (fun _ => 0) (nodeA Byte.x01) 16; OpDelete (nodeA Byte.x04)].
Definition tab : Table := newTable (idA Byte.x00) [Byte.x7f; Byte.x00; Byte.x00; Byte.x01] [].
Definition tabEnd : Table := match go_fold applyOp ops tab with Ret t => t | Panic _ => tab end.

Lemma ops_valid : Forall (validOp (idA Byte.x00)) ops.
Proof. repeat constructor; try (cbn; lia). Qed.
Lemma ops_run : go_fold applyOp ops tab = Ret tabEnd /\ (buckets tabEnd ≫= entries) = [entered 3 (nodeA Byte.x03)].
Proof. split; vm_compute; reflexivity. Qed.

Lemma table_wf_witness : exists t, go_fold applyOp ops tab = Ret t /\ wfTable (NewNode (idA Byte.x00) [Byte.x7f; Byte.x00; Byte.x00; Byte.x01]) t /\
  NoDup (ids (buckets t ≫= fun b => entries b ++ replacements b)).
Proof. apply (table_wf (idA Byte.x00) [Byte.x7f; Byte.x00; Byte.x00; Byte.x01] [] ops). exact ops_valid. Defined.

Lemma one_bucket_used_witness : len tabEnd <= 16 /\ bucketOf tabEnd (idA Byte.x05) = Ret 16.
Proof.
  destruct (one_bucket_used (idA Byte.x00) [Byte.x7f; Byte.x00; Byte.x00; Byte.x01] [] ops tabEnd) as (Hlen & _ & Hb).
  - reflexivity.
  - exact ops_valid.
  - apply ops_run.
  - rewrite (proj2 ops_run). intros n Hn. apply list_elem_of_singleton in Hn as ->. vm_compute. discriminate.
  - split; [exact Hlen|]. apply (Hb (nodeA Byte.x05)); [reflexivity|vm_compute; discriminate].
Defined.

(** A search for a node: the table knows node 3, which tells of node 5, which tells of nodes 3 and 7. *)
Definition U : gset NodeID := {[idA Byte.x03; idA Byte.x05; idA Byte.x07]}.
Definition replies : list (list (option Node)) := [[Some (nodeA Byte.x05); None]; [Some (nodeA Byte.x03); Some (nodeA Byte.x07)]; []].
Lemma lookup_ends_witness : exists s queried consumed rest, lookup (idA Byte.x07) true tabEnd replies tab = Ret (s, queried, true) /\ replies = consumed ++ rest /\
    (forall n, n ∈ result s -> n_ID n = n_ID (self tab) \/ n_ID n ∈ ids queried) /\ length consumed = length queried.
Proof.
  destruct (lookup_ends (idA Byte.x07) true tabEnd replies tab U) as (s & queried & consumed & rest & news & l & E & Hc & Hres & _ & _ & Hl & _).
  - vm_compute. constructor.
  - change (startTable true tabEnd tab) with tabEnd. rewrite (proj2 ops_run). repeat constructor.
  - change (startTable true tabEnd tab) with tabEnd. rewrite (proj2 ops_run). intros n Hn. apply list_elem_of_singleton in Hn as ->. unfold U. cbn. set_solver.
  - repeat constructor; cbn; unfold U; intros n Hn; repeat (apply elem_of_cons in Hn as [->|Hn]; [cbn; set_solver|]); by apply elem_of_nil in Hn.
  - vm_compute. lia.
  - exists s, queried, consumed, rest. split; [exact E|]. split; [exact Hc|]. split; [exact Hres|exact Hl].
Defined.
(** The result holds node 3 twice: the nodes of the table are not in [seen]. *)
Example lookup_duplicate : exists s queried, lookup (idA Byte.x07) true tab (replies ++ [[]; []]) tabEnd = Ret (s, queried, true) /\
  (n_ID <$> result s) = [idA Byte.x07; idA Byte.x05; idA Byte.x03; idA Byte.x03].
Proof. eexists _, _. split; vm_compute; reflexivity. Qed.
End Example.
End Kademlia.
