(* ===== verification/Lite.v ===== *)
(** * The light client: lite/

    Commits and full commits (commit.go), the certifiers with a fixed set of
    validators (static_certifier.go), with a set that can be updated
    (dynamic_certifier.go) and with a search for the updates
    (inquiring_certifier.go), and the providers of full commits: the interface
    with the store in memory (memprovider.go) and the chain of caches
    (provider.go).  Every method is a function from the state of its object. *)

From S2P Require Import Prelude Sha256 Crypto Merkle Types ValidatorSet Block.
Import Crypto Types ValidatorSet.

Module Lite.

(** lite/errors/errors.go, and the other errors of the package. *)
Inductive LiteError :=
  | ErrValidatorsChanged
  | ErrCommitNotFound
  | ErrTooMuchChange
  | ErrPastTime
  | ErrNoPathFound
  | ErrHeightMismatch (h1 h2 : Z)
  | ErrMissingHeader
  | ErrOtherChain
  | ErrMissingSignatures
  | ErrOtherBlock
  | ErrCommit (e : CommitError)
  | ErrVerify (e : VerifyError).
Definition IsValidatorsChangedErr (e : option LiteError) : bool := match e with Some ErrValidatorsChanged => true | _ => false end.
Definition IsTooMuchChangeErr (e : option LiteError) : bool := match e with Some ErrTooMuchChange => true | _ => false end.

(** [lite.Commit], a signed header; both pointers may be nil. *)
Record SignedHeader := mkSignedHeader { Header : option Block.Header; sh_Commit : option Commit }.
Record FullCommit := mkFullCommit { fc_Commit : SignedHeader; fc_Validators : option ValidatorSet }.

(** [Commit.Height] and, of a full commit, the embedded method. *)
Definition Height (c : SignedHeader) : Z := match Header c with None => 0 | Some h => Block.Height h end.
Definition fcHeight (fc : FullCommit) : Z := Height (fc_Commit fc).
Definition ValidatorsHash (c : SignedHeader) : bytes := match Header c with None => [] | Some h => Block.ValidatorsHash h end.

Section Lite.
Context `{Codec} `{Curves} `{Amino} `{ValidatorCodec} `{Block.BlockCodec}.

Definition ValidateBasic (c : SignedHeader) (chainID : bytes) : option LiteError :=
  match Header c with
  | None => Some ErrMissingHeader
  | Some h =>
      if negb (bytes_eqb (Block.ChainID h) chainID) then Some ErrOtherChain else
      match sh_Commit c with
      | None => Some ErrMissingSignatures
      | Some commit =>
          if negb (Commit_Height commit =? Block.Height h) then Some (ErrHeightMismatch (Commit_Height commit) (Block.Height h))
          else if negb (bytes_eqb (Block.Header_Hash (Some h)) (bid_Hash (c_BlockID commit))) then Some ErrOtherBlock
          else option_map ErrCommit (Commit_ValidateBasic commit)
      end
  end.

(** ** The static certifier *)

Record StaticCertifier := mkStatic { chainID : bytes; vSet : option ValidatorSet; vhash : bytes }.
Definition NewStaticCertifier (chainID : bytes) (vals : option ValidatorSet) : StaticCertifier := mkStatic chainID vals [].
(** [sc.Hash()], which keeps the hash. *)
Definition Hash (sc : StaticCertifier) : go (StaticCertifier * bytes) :=
  if zlen (vhash sc) =? 0 then vs ← deref (vSet sc); let h := ValidatorSet_Hash vs in Ret (mkStatic (chainID sc) (vSet sc) h, h)
  else Ret (sc, vhash sc).
Definition StaticCertify (commit : SignedHeader) (sc : StaticCertifier) : go (StaticCertifier * option LiteError) :=
  match ValidateBasic commit (chainID sc) with
  | Some e => Ret (sc, Some e)
  | None =>
      '(sc, hash) ← Hash sc;
      h ← deref (Header commit);
      if negb (bytes_eqb hash (Block.ValidatorsHash h)) then Ret (sc, Some ErrValidatorsChanged) else
      c ← deref (sh_Commit commit);
      vs ← deref (vSet sc);
      err ← VerifyCommit vs (chainID sc) (c_BlockID c) (Block.Height h) c;
      Ret (sc, option_map ErrVerify err)
  end.

(** ** The dynamic certifier *)

Record DynamicCertifier := mkDynamic { cert : StaticCertifier; lastHeight : Z }.
Definition NewDynamicCertifier (chainID : bytes) (vals : option ValidatorSet) (height : Z) : DynamicCertifier :=
  mkDynamic (NewStaticCertifier chainID vals) height.
Definition DynamicCertify (check : SignedHeader) (dc : DynamicCertifier) : go (DynamicCertifier * option LiteError) :=
  '(sc, err) ← StaticCertify check (cert dc);
  Ret (mkDynamic sc (match err with None => Height check | Some _ => lastHeight dc end), err).
Definition DynamicUpdate (fc : FullCommit) (dc : DynamicCertifier) : go (DynamicCertifier * option LiteError) :=
  let h := fcHeight fc in
  if h <=? lastHeight dc then Ret (dc, Some ErrPastTime) else
  match ValidateBasic (fc_Commit fc) (chainID (cert dc)) with
  | Some e => Ret (dc, Some e)
  | None =>
      vs ← deref (vSet (cert dc));
      commit ← deref (sh_Commit (fc_Commit fc));
      newSet ← deref (fc_Validators fc);
      err ← VerifyCommitAny vs newSet (chainID (cert dc)) (c_BlockID commit) h commit;
      match err with
      | Some _ => Ret (dc, Some ErrTooMuchChange)
      | None => Ret (mkDynamic (NewStaticCertifier (chainID (cert dc)) (fc_Validators fc)) h, None)
      end
  end.
End Lite.

(** ** Providers *)

(** The interface: every method may change the provider. *)
Class Provider (P : Type) := {
  StoreCommit : FullCommit -> P -> go (P * option LiteError);
  GetByHeight : Z -> P -> go (P * (LiteError + FullCommit));
  GetByHash : bytes -> P -> go (P * (LiteError + FullCommit));
  LatestCommit : P -> go (P * (LiteError + FullCommit)) }.

(** *** The store in memory *)

Record memStoreProvider := mkMem { byHeight : list FullCommit; byHash : gmap bytes FullCommit; sorted : bool }.
Definition NewMemStoreProvider : memStoreProvider := mkMem [] ∅ false.

Section Mem.
Context `{Amino} `{Block.BlockCodec}.
(** [sort.Sort] on the heights. *)
Context (sortByHeight : list FullCommit -> list FullCommit).

Definition memStore (fc : FullCommit) (m : memStoreProvider) : go (memStoreProvider * option LiteError) :=
  h ← deref (Header (fc_Commit fc));
  match ValidateBasic (fc_Commit fc) (Block.ChainID h) with
  | Some e => Ret (m, Some e)
  | None => Ret (mkMem (byHeight m ++ [fc]) (<[hexEncode (ValidatorsHash (fc_Commit fc)) := fc]> (byHash m)) false, None)
  end.
Definition sortIfNecessary (m : memStoreProvider) : memStoreProvider :=
  if sorted m then m else mkMem (sortByHeight (byHeight m)) (byHash m) true.

(** [getByHeightLinearSearch] from the last of the first [n] elements down. *)
Fixpoint linearSearch (l : list FullCommit) (h : Z) (n : nat) : go (LiteError + FullCommit) :=
  match n with
  | O => Ret (inl ErrCommitNotFound)
  | S n => fc ← idx l (Z.of_nat n); if fcHeight fc <=? h then Ret (inr fc) else linearSearch l h n
  end.
(** [getByHeightBinarySearch]: the loop, for at most [fuel] rounds, and what follows it. *)
Fixpoint binarySearch (fuel : nat) (l : list FullCommit) (h low high : Z) : go (LiteError + FullCommit) :=
  match fuel with
  | O => Panic (PanicMsg "out of fuel")
  | S fuel =>
      if low <=? high then
        let mid := Z.shiftr (low + high) 1 in
        fc ← idx l mid;
        if fcHeight fc =? h then Ret (inr fc)
        else if fcHeight fc <? h then binarySearch fuel l h (mid + 1) high
        else binarySearch fuel l h low (mid - 1)
      else if 0 <=? high then
        fc ← idx l high;
        if fcHeight fc <? h then Ret (inr fc) else Ret (inl ErrCommitNotFound)
      else Ret (inl ErrCommitNotFound)
  end.
Definition memGetByHeight (h : Z) (m : memStoreProvider) : go (memStoreProvider * (LiteError + FullCommit)) :=
  let n := zlen (byHeight m) in
  let m := sortIfNecessary m in
  r ← (if n <=? 50 then linearSearch (byHeight m) h (length (byHeight m))
       else binarySearch (S (length (byHeight m))) (byHeight m) h 0 (zlen (byHeight m) - 1));
  Ret (m, r).
Definition memGetByHash (hash : bytes) (m : memStoreProvider) : go (memStoreProvider * (LiteError + FullCommit)) :=
  Ret (m, match byHash m !! hexEncode hash with None => inl ErrCommitNotFound | Some fc => inr fc end).
Definition memLatestCommit (m : memStoreProvider) : go (memStoreProvider * (LiteError + FullCommit)) :=
  if zlen (byHeight m) =? 0 then Ret (m, inl ErrCommitNotFound)
  else let m := sortIfNecessary m in fc ← idx (byHeight m) (zlen (byHeight m) - 1); Ret (m, inr fc).
Definition memProvider : Provider memStoreProvider :=
  {| StoreCommit := memStore; GetByHeight := memGetByHeight; GetByHash := memGetByHash; LatestCommit := memLatestCommit |}.
End Mem.

(** *** Caches in front of a source *)

Section Cache.
Context {P : Type} `{Provider P}.
Definition zeroCommit : FullCommit := mkFullCommit (mkSignedHeader None None) None.

Fixpoint cacheStore (fc : FullCommit) (ps : list P) : go (list P * option LiteError) :=
  match ps with
  | [] => Ret ([], None)
  | p :: ps =>
      '(p, err) ← StoreCommit fc p;
      match err with
      | Some e => Ret (p :: ps, Some e)
      | None => '(ps, err) ← cacheStore fc ps; Ret (p :: ps, err)
      end
  end.
(** The loops carry the best commit and the last error. *)
Fixpoint cacheHeightLoop (h : Z) (ps : list P) (fc : FullCommit) (err : option LiteError) : go (list P * FullCommit * option LiteError) :=
  match ps with
  | [] => Ret ([], fc, err)
  | p :: ps =>
      '(p, r) ← GetByHeight h p;
      match r with
      | inl e => '(ps, fc, err) ← cacheHeightLoop h ps fc (Some e); Ret (p :: ps, fc, err)
      | inr tfc =>
          let fc := if fcHeight fc <? fcHeight tfc then tfc else fc in
          if fcHeight tfc =? h then Ret (p :: ps, fc, None)
          else '(ps, fc, err) ← cacheHeightLoop h ps fc None; Ret (p :: ps, fc, err)
      end
  end.
Definition found (fc : FullCommit) (err : option LiteError) : LiteError + FullCommit :=
  if 0 <? fcHeight fc then inr fc else match err with None => inr fc | Some e => inl e end.
Definition cacheGetByHeight (h : Z) (ps : list P) : go (list P * (LiteError + FullCommit)) :=
  '(ps, fc, err) ← cacheHeightLoop h ps zeroCommit None; Ret (ps, found fc err).
Fixpoint cacheHashLoop (hash : bytes) (ps : list P) (r : LiteError + FullCommit) : go (list P * (LiteError + FullCommit)) :=
  match ps with
  | [] => Ret ([], r)
  | p :: ps =>
      '(p, r) ← GetByHash hash p;
      match r with
      | inr fc => Ret (p :: ps, inr fc)
      | inl e => '(ps, r) ← cacheHashLoop hash ps (inl e); Ret (p :: ps, r)
      end
  end.
Definition cacheGetByHash (hash : bytes) (ps : list P) : go (list P * (LiteError + FullCommit)) := cacheHashLoop hash ps (inr zeroCommit).
Fixpoint cacheLatestLoop (ps : list P) (fc : FullCommit) (err : option LiteError) : go (list P * FullCommit * option LiteError) :=
  match ps with
  | [] => Ret ([], fc, err)
  | p :: ps =>
      '(p, r) ← LatestCommit p;
      let '(fc, err) := match r with inl e => (fc, Some e) | inr tfc => (if fcHeight fc <? fcHeight tfc then tfc else fc, None) end in
      '(ps, fc, err) ← cacheLatestLoop ps fc err; Ret (p :: ps, fc, err)
  end.
Definition cacheLatestCommit (ps : list P) : go (list P * (LiteError + FullCommit)) :=
  '(ps, fc, err) ← cacheLatestLoop ps zeroCommit None; Ret (ps, found fc err).
#[export] Instance cacheProvider : Provider (list P) :=
  {| StoreCommit := cacheStore; GetByHeight := cacheGetByHeight; GetByHash := cacheGetByHash; LatestCommit := cacheLatestCommit |}.
End Cache.

(** ** The inquiring certifier *)

Section Inquiring.
Context `{Codec} `{Curves} `{Amino} `{ValidatorCodec} `{Block.BlockCodec}.
Context {T S : Type} `{Provider T} `{Provider S}.

Record InquiringCertifier := mkInquiring { dyn : DynamicCertifier; trusted : T; Source : S }.
Definition LastHeight (ic : InquiringCertifier) : Z := lastHeight (dyn ic).
Definition NewInquiringCertifier (chainID : bytes) (fc : FullCommit) (trusted : T) (source : S) : go (LiteError + InquiringCertifier) :=
  '(trusted, err) ← StoreCommit fc trusted;
  match err with
  | Some e => Ret (inl e)
  | None => Ret (inr (mkInquiring (NewDynamicCertifier chainID (fc_Validators fc) (fcHeight fc)) trusted source))
  end.

Definition useClosestTrust (h : Z) (ic : InquiringCertifier) : go (InquiringCertifier * option LiteError) :=
  '(t, r) ← GetByHeight h (trusted ic);
  match r with
  | inl e => Ret (mkInquiring (dyn ic) t (Source ic), Some e)
  | inr closest =>
      let dc := if fcHeight closest =? LastHeight ic then dyn ic
                else NewDynamicCertifier (chainID (cert (dyn ic))) (fc_Validators closest) (fcHeight closest) in
      Ret (mkInquiring dc t (Source ic), None)
  end.
Definition Update (fc : FullCommit) (ic : InquiringCertifier) : go (InquiringCertifier * option LiteError) :=
  '(ic, err) ← useClosestTrust (fcHeight fc) ic;
  match err with
  | Some e => Ret (ic, Some e)
  | None =>
      '(dc, err) ← DynamicUpdate fc (dyn ic);
      match err with
      | Some e => Ret (mkInquiring dc (trusted ic) (Source ic), Some e)
      | None => '(t, err) ← StoreCommit fc (trusted ic); Ret (mkInquiring dc t (Source ic), err)
      end
  end.

(** [stack] is the number of calls for which there is room on the stack. *)
Fixpoint updateToHeight (stack : nat) (h : Z) (ic : InquiringCertifier) : go (InquiringCertifier * option LiteError) :=
  match stack with
  | O => Panic (PanicMsg "stack overflow")
  | Datatypes.S stack =>
      '(s, r) ← GetByHeight h (Source ic);
      let ic := mkInquiring (dyn ic) (trusted ic) s in
      match r with
      | inl e => Ret (ic, Some e)
      | inr fc =>
          let start := LastHeight ic in
          let end_ := fcHeight fc in
          if end_ <=? start then Ret (ic, Some ErrNoPathFound) else
          '(ic, err) ← Update fc ic;
          if negb (IsTooMuchChangeErr err) then Ret (ic, err) else
          let mid := Z.quot (add64 start end_) 2 in
          '(ic, err) ← updateToHeight stack mid ic;
          match err with
          | Some e => Ret (ic, Some e)
          | None => updateToHeight stack h ic
          end
      end
  end.
Definition updateToHash (stack : nat) (vhash : bytes) (ic : InquiringCertifier) : go (InquiringCertifier * option LiteError) :=
  '(s, r) ← GetByHash vhash (Source ic);
  match r with
  | inl e => Ret (mkInquiring (dyn ic) (trusted ic) s, Some e)
  | inr fc =>
      '(dc, err) ← DynamicUpdate fc (dyn ic);
      let ic := mkInquiring dc (trusted ic) s in
      if IsTooMuchChangeErr err then updateToHeight stack (fcHeight fc) ic else Ret (ic, err)
  end.
Definition Certify (stack : nat) (commit : SignedHeader) (ic : InquiringCertifier) : go (InquiringCertifier * option LiteError) :=
  '(ic, err) ← useClosestTrust (Height commit) ic;
  match err with
  | Some e => Ret (ic, Some e)
  | None =>
      '(dc, err) ← DynamicCertify commit (dyn ic);
      let ic := mkInquiring dc (trusted ic) (Source ic) in
      if negb (IsValidatorsChangedErr err) then Ret (ic, err) else
      h ← deref (Header commit);
      '(ic, err) ← updateToHash stack (Block.ValidatorsHash h) ic;
      match err with
      | Some e => Ret (ic, Some e)
      | None =>
          '(dc, err) ← DynamicCertify commit (dyn ic);
          let ic := mkInquiring dc (trusted ic) (Source ic) in
          match err with
          | Some e => Ret (ic, Some e)
          | None =>
              '(t, err) ← StoreCommit (mkFullCommit commit (vSet (cert dc))) (trusted ic);
              Ret (mkInquiring dc t (Source ic), err)
          end
      end
  end.
End Inquiring.

(** ** Majorities *)

Section Majority.
Context `{Codec} `{Curves}.

(** The validator signed a precommit of the list for the block. *)
Definition signed (chain : bytes) (blockID : BlockID) (height : Z) (ps : list (option Vote)) (v : Validator) : Prop :=
  exists pk p, val_PubKey v = Some pk /\ Some p ∈ ps /\ VerifyBytes pk (Vote_SignBytes chain p) (v_Signature p) = true /\
    v_BlockID p = blockID /\ v_Height p = height /\ v_Type p = VoteTypePrecommit.
(** Validators of the set with more than two thirds of its power did. *)
Definition majority (vs : ValidatorSet) (chain : bytes) (blockID : BlockID) (height : Z) (ps : list (option Vote)) : Prop :=
  exists l, l ⊆+ Validators vs /\ Forall (signed chain blockID height ps) l /\ 2 * sumZ val_VotingPower (Validators vs) < 3 * sumZ val_VotingPower l.

Lemma VerifyCommit_majority vs chain blockID height c : valsOK vs -> cacheOK vs ->
  VerifyCommit vs chain blockID height c = Ret None -> majority vs chain blockID height (c_Precommits c).
Proof.
  intros Hok Hc Hv. destruct (VerifyCommit_spec vs chain blockID height c Hok Hc) as (r & Er & Hr). rewrite Hv in Er. injection Er as <-.
  destruct (proj1 Hr eq_refl) as (Hl & _ & Hp & Hpow). unfold committedPower in Hpow.
  assert (Hg : forall vals ps, length ps = length vals -> (forall p, p ∈ ps -> p ∈ c_Precommits c) ->
    Forall (precommitOK chain height (Commit_Round c)) (zip vals ps) ->
    exists l, l ⊆+ vals /\ Forall (signed chain blockID height (c_Precommits c)) l /\ sumZ (powerFor blockID) (zip vals ps) = sumZ val_VotingPower l).
  { induction vals as [|v vals IH]; intros [|p ps] Hlen Hin Hok'; try done; [by exists []|]. cbn [zip_with] in Hok' |- *. apply Forall_cons in Hok' as [Hvp Hok'].
    destruct (IH ps ltac:(cbn in Hlen; lia) ltac:(intros; apply Hin; by right) Hok') as (l & Hsub & Hs & Hsum). rewrite sumZ_cons, Hsum.
    unfold powerFor. cbn [fst snd]. unfold precommitOK in Hvp. cbn [fst snd] in Hvp. destruct p as [p|]; [|exists l; split_and!; [by apply submseteq_cons|done|lia]].
    destruct (BlockID_Equals blockID (v_BlockID p)) eqn:E; [|exists l; split_and!; [by apply submseteq_cons|done|lia]].
    apply BlockID_Equals_eq in E. destruct Hvp as (Hh & _ & Ht & pk & Hpk & Hsig). exists (v :: l). rewrite sumZ_cons. split_and!; [by apply submseteq_skip| |done].
    apply Forall_cons. split; [|done]. exists pk, p. split_and!; try done. apply Hin. by left. }
  destruct (Hg (Validators vs) (c_Precommits c) Hl ltac:(done) Hp) as (l & Hsub & Hs & Hsum). exists l. rewrite <- Hsum. split_and!; [done|done|lia].
Qed.

(** The validators with these indices. *)
Definition pick (vs : ValidatorSet) (js : list Z) : list Validator := omap (fun i => Validators vs !! Z.to_nat i) js.
Lemma omap_map {A B C} (f : B -> option C) (g : A -> B) (l : list A) : omap f (g <$> l) = omap (fun x => f (g x)) l.
Proof. induction l as [|x l IH]; [done|]. cbn. by rewrite IH. Qed.
Lemma omap_seq {A} (l : list A) : omap (fun i => l !! i) (seq 0 (length l)) = l.
Proof. induction l as [|x l IH]; [done|]. cbn [length seq]. rewrite <- fmap_S_seq. cbn. f_equal. rewrite omap_map. exact IH. Qed.
Lemma pick_sub vs js : NoDup js -> Forall (fun i => 0 <= i < Size vs) js -> pick vs js ⊆+ Validators vs.
Proof.
  intros Hnd Hin. assert (Hnd' : NoDup (Z.to_nat <$> js)).
  { induction Hnd as [|i js Hi Hnd IH]; [apply NoDup_nil_2|]. apply Forall_cons in Hin as [Hp Hin]. cbn. apply NoDup_cons. split; [|auto].
    intros (j & E & Hj)%list_elem_of_fmap. rewrite Forall_forall in Hin. assert (i = j) by (specialize (Hin j Hj); lia). by subst. }
  assert (Hsub : Z.to_nat <$> js ⊆+ seq 0 (length (Validators vs))).
  { apply NoDup_submseteq; [done|]. intros i (j & -> & Hj)%list_elem_of_fmap. rewrite Forall_forall in Hin. specialize (Hin j Hj). unfold Size, zlen in Hin.
    apply elem_of_seq. lia. }
  apply submseteq_Permutation in Hsub as (k & Hk). rewrite <- (omap_seq (Validators vs)), Hk, omap_app, omap_map. apply submseteq_inserts_r. done.
Qed.

(** A set as [NewValidatorSet] builds it. *)
Definition setOK (vs : ValidatorSet) : Prop := valsOK vs /\ cacheOK vs /\ addrSorted (Validators vs).

(** The state of the loop of [VerifyCommitAny]: the old power is that of the validators seen. *)
Record tally (vs : ValidatorSet) (chain : bytes) (blockID : BlockID) (height : Z) (ps : list (option Vote)) (st : Z * Z * gset Z) (js : list Z) : Prop := mkTally {
  y_nodup : NoDup js;
  y_range : Forall (fun i => 0 <= i < Size vs) js;
  y_seen : forall i, i ∈ st.2 <-> i ∈ js;
  y_power : st.1.1 = sumZ val_VotingPower (pick vs js);
  y_signed : Forall (signed chain blockID height ps) (pick vs js) }.

Lemma sub_power vs l : valsOK vs -> l ⊆+ Validators vs -> 0 <= sumZ val_VotingPower l <= sumZ val_VotingPower (Validators vs).
Proof.
  intros (Hf & _ & _) (k & Hk)%submseteq_Permutation. rewrite (sumZ_perm _ _ _ Hk), sumZ_app. rewrite Hk in Hf. apply Forall_app in Hf as [Hl Hk'].
  rewrite Forall_forall in Hl, Hk'. pose proof (sumZ_nonneg val_VotingPower l Hl). pose proof (sumZ_nonneg val_VotingPower k Hk'). lia.
Qed.
Lemma pick_cons vs i v js : Validators vs !! Z.to_nat i = Some v -> pick vs (i :: js) = v :: pick vs js.
Proof. intros Hv. unfold pick. cbn. by rewrite Hv. Qed.

Lemma verifyAnyLoop_spec vs newSet chain blockID height round all k ps st js : setOK vs -> Forall (fun v => val_PubKey v <> None) (Validators newSet) ->
  (k + length ps = length (Validators newSet))%nat -> (forall p, p ∈ ps -> p ∈ all) -> tally vs chain blockID height all st js ->
  exists r, verifyAnyLoop vs newSet chain blockID height round (Z.of_nat k) ps st = Ret r /\
    match r with inl _ => True | inr st' => exists js', tally vs chain blockID height all st' js' end.
Proof.
  intros (Hok & Hc & Hsort) Hkeys. revert k st js. induction ps as [|p ps IH]; intros k st js Hl Hin Ht; cbn [verifyAnyLoop]; [by eexists; split; [done|exists js]|].
  replace (Z.of_nat k + 1) with (Z.of_nat (S k)) by lia. cbn in Hl.
  assert (Hnext : forall st' js', tally vs chain blockID height all st' js' -> exists r, verifyAnyLoop vs newSet chain blockID height round (Z.of_nat (S k)) ps st' = Ret r /\
    match r with inl _ => True | inr st' => exists js', tally vs chain blockID height all st' js' end).
  { intros st' js' Ht'. eapply IH; [lia|intros; apply Hin; by right|done]. }
  unfold verifyAnyPrecommit. destruct p as [p|]; cbn [mbind go_mbind]; [|by eapply Hnext].
  destruct (Z.eqb_spec (v_Height p) height) as [Eh|]; cbn [negb mbind go_mbind]; [|by eexists]. destruct (negb (v_Round p =? round)); cbn [mbind go_mbind]; [by eexists|].
  destruct (Z.eqb_spec (v_Type p) VoteTypePrecommit) as [Et|]; cbn [negb mbind go_mbind]; [|by eexists].
  destruct (BlockID_Equals blockID (v_BlockID p)) eqn:Eb; cbn [negb mbind go_mbind]; [|by eapply Hnext]. apply BlockID_Equals_eq in Eb.
  destruct (GetByAddress_spec vs (v_ValidatorAddress p) Hsort) as [(i & v & -> & Hv & Ha)|[-> _]]; cbn [mbind go_mbind]; [|by eapply Hnext].
  destruct st as [[o n] seen]. destruct (decide (Z.of_nat i ∈ seen)) as [|Hns]; cbn [mbind go_mbind]; [by eapply Hnext|].
  destruct Hok as (Hf & Hs & Hpk). pose proof (proj1 (Forall_lookup _ _) Hpk _ _ Hv) as Hvk. cbv beta in Hvk. destruct (val_PubKey v) as [pk|] eqn:Epk; [|done]. cbn [deref mbind go_mbind].
  destruct (VerifyBytes _ _ _) eqn:Esig; cbn [negb mbind go_mbind]; [|by eexists].
  destruct (lookup_lt_is_Some_2 (Validators newSet) k) as [cv Hcv]; [lia|]. rewrite (GetByIndex_at newSet k cv Hcv).
  pose proof (proj1 (Forall_lookup _ _) Hkeys _ _ Hcv) as Hck. cbv beta in Hck. destruct (val_PubKey cv) as [ck|]; [|done]. cbn [deref mbind go_mbind].
  assert (Hnew : forall n', tally vs chain blockID height all (add64 o (val_VotingPower v), n', {[Z.of_nat i]} ∪ seen) (Z.of_nat i :: js)).
  { intros n'. pose proof (lookup_lt_Some _ _ _ Hv) as Hlt. destruct Ht as [Hnd Hr Hse Hpow Hsig]. cbn [fst snd] in *.
    assert (Hv' : Validators vs !! Z.to_nat (Z.of_nat i) = Some v) by (by rewrite Nat2Z.id).
    assert (Hnd' : NoDup (Z.of_nat i :: js)) by (apply NoDup_cons; split; [by rewrite <- Hse|done]).
    assert (Hr' : Forall (fun i => 0 <= i < Size vs) (Z.of_nat i :: js)) by (apply Forall_cons; split; [unfold Size, zlen; lia|done]).
    pose proof (sub_power vs _ (conj Hf (conj Hs Hpk)) (pick_sub vs _ Hnd' Hr')) as Hle. rewrite (pick_cons vs _ v js Hv'), sumZ_cons in Hle.
    pose proof (sub_power vs _ (conj Hf (conj Hs Hpk)) (pick_sub vs _ Hnd Hr)) as Hle2.
    split; cbn [fst snd]; [done|done| | |].
    - intros j. rewrite elem_of_union, elem_of_singleton, elem_of_cons, Hse. done.
    - rewrite (pick_cons vs _ v js Hv'), sumZ_cons, Hpow. unfold add64. rewrite wrap64_small; [lia|]. unfold_int64; lia.
    - rewrite (pick_cons vs _ v js Hv'). apply Forall_cons. split; [|done]. exists pk, p. split_and!; try done. apply Hin. by left. }
  destruct (PubKey_Equals ck pk); cbn [mbind go_mbind]; eapply Hnext, Hnew.
Qed.

(** [VerifyCommitAny] returns, and accepts only blocks that more than two thirds of the old set signed. *)
Lemma VerifyCommitAny_spec vs newSet chain blockID height c : setOK vs -> Forall (fun v => val_PubKey v <> None) (Validators newSet) ->
  exists r, VerifyCommitAny vs newSet chain blockID height c = Ret r /\ (r = None -> majority vs chain blockID height (c_Precommits c)).
Proof.
  intros Hok Hkeys. unfold VerifyCommitAny, Size. destruct (Z.eqb_spec (zlen (Validators newSet)) (zlen (c_Precommits c))) as [El|]; cbn [negb]; [|by eexists].
  destruct (negb (height =? Commit_Height c)); [by eexists|].
  destruct (verifyAnyLoop_spec vs newSet chain blockID height (Commit_Round c) (c_Precommits c) 0 (c_Precommits c) (0, 0, ∅) [] Hok Hkeys) as (r & Er & Hr).
  { unfold zlen in El. lia. }
  { done. }
  { split; cbn; [apply NoDup_nil_2|constructor|set_solver|done|constructor]. }
  change (Z.of_nat 0) with 0 in Er. rewrite Er. cbn [mbind go_mbind]. destruct r as [e|[[o n] seen]]; [by eexists|]. destruct Hr as (js & [Hnd Hrg _ Hpow Hsig]). cbn [fst snd] in Hpow.
  destruct (Z.leb_spec o (twoThirds (totalPower vs))) as [|Hlt]; [by eexists|]. destruct (_ <=? _); [by eexists|]. eexists. split; [done|]. intros _.
  exists (pick vs js). destruct Hok as (Hv & Hc & _). rewrite (totalPower_sum vs Hv Hc) in Hlt. pose proof (pick_sub vs js Hnd Hrg) as Hsub.
  pose proof (sub_power vs (Validators vs) Hv ltac:(done)) as H2. split_and!; [done|done|]. rewrite <- Hpow.
  apply (twoThirds_spec (sumZ val_VotingPower (Validators vs)) o); [lia|by destruct Hv as (_ & ? & _)|lia].
Qed.
End Majority.

(** ** One validator is enough *)

(** The set with the keys of [vs] in which only validator [k] has power. *)
Definition onlyPower (k : nat) (vs : ValidatorSet) : ValidatorSet :=
  mkValidatorSet (imap (fun i v => mkValidator (val_Address v) (val_PubKey v) (if decide (i = k) then 1 else 0) 0) (Validators vs)) None 0.

Section Takeover.
Context `{Codec} `{Curves} `{Amino} `{ValidatorCodec} `{Block.BlockCodec}.

Lemma onlyPower_sum k l n : sumZ val_VotingPower (imap (fun i v => mkValidator (val_Address v) (val_PubKey v) (if decide (n + i = k)%nat then 1 else 0) 0) l) =
  if decide (n <= k < n + length l)%nat then 1 else 0.
Proof.
  revert n. induction l as [|v l IH]; intros n; cbn [imap length]; [rewrite decide_False by lia; done|]. rewrite sumZ_cons. cbn [val_VotingPower].
  rewrite (imap_ext _ (fun i v => mkValidator (val_Address v) (val_PubKey v) (if decide (S n + i = k)%nat then 1 else 0) 0) l).
  - rewrite IH. repeat destruct (decide _); lia.
  - intros i x _. cbn. f_equal. repeat destruct (decide _); lia.
Qed.
Lemma onlyPower_total k vs : (k < length (Validators vs))%nat -> sumZ val_VotingPower (Validators (onlyPower k vs)) = 1.
Proof. intros Hk. etransitivity; [exact (onlyPower_sum k (Validators vs) 0)|]. by rewrite decide_True by lia. Qed.
Lemma onlyPower_ok k vs : (k < length (Validators vs))%nat -> valsOK vs -> valsOK (onlyPower k vs) /\ cacheOK (onlyPower k vs).
Proof.
  intros Hk (_ & _ & Hpk). split; [|by left]. split_and!; [|rewrite onlyPower_total by done; unfold_int64; lia|]; cbn [onlyPower Validators]; apply Forall_lookup; intros i v Hv;
    rewrite list_lookup_imap in Hv; destruct (Validators vs !! i) as [w|] eqn:E; [|done| |done]; injection Hv as <-; cbn.
  - destruct (decide _); lia.
  - exact (proj1 (Forall_lookup _ _) Hpk _ _ E).
Qed.
Lemma onlyPower_lookup k vs v : Validators vs !! k = Some v -> Validators (onlyPower k vs) !! k = Some (mkValidator (val_Address v) (val_PubKey v) 1 0).
Proof. intros Hv. cbn. rewrite list_lookup_imap, Hv. cbn. by rewrite decide_True. Qed.

(** The votes of the commit name the validators they are of. *)
Definition addressed (vs : ValidatorSet) (ps : list (option Vote)) : Prop :=
  forall i p v, ps !! i = Some (Some p) -> Validators vs !! i = Some v -> v_ValidatorAddress p = val_Address v.

Lemma verifyAnyLoop_same vs newSet chain blockID height round all k ps o n seen : setOK vs -> valsOK newSet ->
  val_PubKey <$> Validators newSet = val_PubKey <$> Validators vs -> addressed vs all -> ps = drop k all -> (length all = length (Validators vs))%nat ->
  Forall (precommitOK chain height round) (zip (drop k (Validators vs)) ps) -> (forall i, i ∈ seen -> i < Z.of_nat k) ->
  0 <= o -> o + sumZ val_VotingPower (drop k (Validators vs)) <= MaxInt64 -> 0 <= n -> n + sumZ val_VotingPower (drop k (Validators newSet)) <= MaxInt64 ->
  exists seen', verifyAnyLoop vs newSet chain blockID height round (Z.of_nat k) ps (o, n, seen) =
    Ret (inr (o + sumZ (powerFor blockID) (zip (drop k (Validators vs)) ps), n + sumZ (powerFor blockID) (zip (drop k (Validators newSet)) ps), seen')).
Proof.
  intros (Hok & Hc & Hsort) Hnok Hkeys Haddr. revert k o n seen. induction ps as [|p ps IH]; intros k o n seen Eps Hl Hp Hseen Ho Hos Hn Hns.
  { exists seen. cbn [verifyAnyLoop]. rewrite !zip_with_nil_r. change (sumZ (powerFor blockID) []) with 0. by rewrite !Z.add_0_r. }
  assert (Hlk : all !! k = Some p) by (pose proof (lookup_drop all k 0) as Hd; rewrite <- Eps in Hd; by rewrite Nat.add_0_r in Hd).
  assert (Eps' : ps = drop (S k) all) by (rewrite (drop_S _ _ _ Hlk) in Eps; by injection Eps).
  pose proof (lookup_lt_Some _ _ _ Hlk) as Hlt. destruct (lookup_lt_is_Some_2 (Validators vs) k) as [v Hv]; [lia|].
  assert (Hcv : exists cv, Validators newSet !! k = Some cv /\ val_PubKey cv = val_PubKey v).
  { apply (f_equal (fun l => l !! k)) in Hkeys. rewrite !list_lookup_fmap, Hv in Hkeys. destruct (Validators newSet !! k) as [cv|]; [|done]. exists cv. by injection Hkeys. }
  destruct Hcv as (cv & Hcv & Ecv). rewrite (drop_S _ _ _ Hv) in Hp, Hos |- *. rewrite (drop_S _ _ _ Hcv) in Hns |- *. cbn [zip_with] in Hp |- *. apply Forall_cons in Hp as [Hpo Hp].
  rewrite !sumZ_cons in *. destruct Hok as (Hf & Hs & Hpk), Hnok as (Hnf & Hnsum & Hnpk).
  pose proof (proj1 (Forall_lookup _ _) Hf _ _ Hv) as Hv0. pose proof (proj1 (Forall_lookup _ _) Hnf _ _ Hcv) as Hcv0. cbv beta in Hv0, Hcv0.
  assert (Hr0 : 0 <= sumZ val_VotingPower (drop (S k) (Validators vs))) by (apply sumZ_nonneg; by apply Forall_forall, Forall_drop).
  assert (Hr1 : 0 <= sumZ val_VotingPower (drop (S k) (Validators newSet))) by (apply sumZ_nonneg; by apply Forall_forall, Forall_drop).
  cbn [verifyAnyLoop]. replace (Z.of_nat k + 1) with (Z.of_nat (S k)) by lia.
  unfold verifyAnyPrecommit, powerFor at 1 3. cbn [fst snd]. destruct p as [p|]; cbn [mbind go_mbind]; [|apply IH; try done; try lia; intros i Hi; specialize (Hseen i Hi); lia].
  unfold precommitOK in Hpo. cbn [fst snd] in Hpo. destruct Hpo as (-> & -> & -> & pk & Epk & Hsig). rewrite !Z.eqb_refl. cbn [negb mbind go_mbind].
  destruct (BlockID_Equals blockID (v_BlockID p)) eqn:Eb; cbn [negb mbind go_mbind]; [|apply IH; try done; try lia; intros i Hi; specialize (Hseen i Hi); lia].
  destruct (GetByAddress_spec vs (v_ValidatorAddress p) Hsort) as [(i & w & -> & Hw & Ha)|[-> Hno]]; cbn [mbind go_mbind].
  2:{ exfalso. apply (Hno v); [by eapply list_elem_of_lookup_2|]. symmetry. by apply (Haddr k). }
  assert (i = k) as -> by (eapply addrSorted_inj; [exact Hsort|exact Hw|exact Hv|rewrite Ha; by apply (Haddr k)]). rewrite Hv in Hw. injection Hw as <-.
  rewrite decide_False by (intros Hin; specialize (Hseen _ Hin); lia). rewrite Epk. cbn [deref mbind go_mbind]. rewrite Hsig. cbn [negb].
  rewrite (GetByIndex_at newSet k cv Hcv), Ecv, Epk. cbn [deref mbind go_mbind]. rewrite (proj2 (PubKey_Equals_eq pk pk) eq_refl). cbn [mbind go_mbind].
  unfold add64. rewrite !wrap64_small by (unfold_int64; lia). rewrite !Z.add_assoc. apply IH; try done; try lia.
  intros j. rewrite elem_of_union, elem_of_singleton. intros [->|Hj]; [lia|]. specialize (Hseen j Hj). lia.
Qed.

Lemma VerifyCommitAny_same vs newSet chain blockID height c : setOK vs -> valsOK newSet -> cacheOK newSet ->
  val_PubKey <$> Validators newSet = val_PubKey <$> Validators vs -> addressed vs (c_Precommits c) -> VerifyCommit vs chain blockID height c = Ret None ->
  2 * sumZ val_VotingPower (Validators newSet) < 3 * committedPower newSet blockID c -> VerifyCommitAny vs newSet chain blockID height c = Ret None.
Proof.
  intros Hok Hnok Hnc Hkeys Haddr Hv Hpow. pose proof Hok as (Hvok & Hvc & _). destruct (VerifyCommit_spec vs chain blockID height c Hvok Hvc) as (r & Er & Hr).
  rewrite Hv in Er. injection Er as <-. destruct (proj1 Hr eq_refl) as (Hl & Hh & Hp & Hvpow). assert (Hlen : length (Validators newSet) = length (Validators vs)).
  { apply (f_equal length) in Hkeys. by rewrite !length_fmap in Hkeys. }
  unfold VerifyCommitAny, Size, zlen. rewrite Hlen, Hl, Hh, !Z.eqb_refl. cbn [negb].
  destruct (verifyAnyLoop_same vs newSet chain blockID height (Commit_Round c) (c_Precommits c) 0 (c_Precommits c) 0 0 ∅ Hok Hnok Hkeys Haddr) as (seen & E); rewrite ?drop_0; try done; try lia.
  { pose proof (sub_power vs (Validators vs) Hvok ltac:(done)). destruct Hvok as (_ & ? & _). lia. }
  { pose proof (sub_power newSet (Validators newSet) Hnok ltac:(done)). destruct Hnok as (_ & ? & _). lia. }
  change (Z.of_nat 0) with 0 in E. rewrite E, !drop_0. cbn [mbind go_mbind]. rewrite !Z.add_0_l, (totalPower_sum vs Hvok Hvc), (totalPower_sum newSet Hnok Hnc).
  fold (committedPower vs blockID c). fold (committedPower newSet blockID c).
  pose proof (sub_power vs (Validators vs) Hvok ltac:(done)). pose proof (sub_power newSet (Validators newSet) Hnok ltac:(done)).
  pose proof (proj2 (twoThirds_spec (sumZ val_VotingPower (Validators vs)) (committedPower vs blockID c) ltac:(lia) ltac:(by destruct Hvok as (_ & ? & _))) Hvpow).
  pose proof (proj2 (twoThirds_spec (sumZ val_VotingPower (Validators newSet)) (committedPower newSet blockID c) ltac:(lia) ltac:(by destruct Hnok as (_ & ? & _))) Hpow).
  by rewrite !(proj2 (Z.leb_gt _ _)).
Qed.

(** The power that validator [k] alone brings. *)
Lemma onlyPower_committed k vs v blockID c p : valsOK vs -> Validators vs !! k = Some v -> c_Precommits c !! k = Some (Some p) -> v_BlockID p = blockID ->
  2 * sumZ val_VotingPower (Validators (onlyPower k vs)) < 3 * committedPower (onlyPower k vs) blockID c.
Proof.
  intros Hok Hv Hp Eb. pose proof (lookup_lt_Some _ _ _ Hv) as Hlt. rewrite onlyPower_total by done. unfold committedPower.
  destruct (onlyPower_ok k vs Hlt Hok) as [(Hf & _) _].
  assert (Hz : zip (Validators (onlyPower k vs)) (c_Precommits c) !! k = Some (mkValidator (val_Address v) (val_PubKey v) 1 0, Some p))
    by (apply lookup_zip_with_Some; eexists _, _; split_and!; [done|by apply onlyPower_lookup|done]).
  rewrite <- (take_drop_middle _ _ _ Hz), sumZ_app, sumZ_cons. unfold powerFor at 2. cbn [fst snd val_VotingPower].
  rewrite (proj2 (BlockID_Equals_eq blockID (v_BlockID p))) by done.
  assert (Hnn : forall l, (forall x, x ∈ l -> x ∈ zip (Validators (onlyPower k vs)) (c_Precommits c)) -> 0 <= sumZ (powerFor blockID) l).
  { intros l Hl. apply sumZ_nonneg. intros [w o] Hw%Hl. apply elem_of_zip_l in Hw. rewrite Forall_forall in Hf. specialize (Hf w Hw). unfold powerFor. cbn. destruct o; [destruct (BlockID_Equals _ _)|]; lia. }
  pose proof (Hnn (take k (zip (Validators (onlyPower k vs)) (c_Precommits c)))) as Ht. pose proof (Hnn (drop (S k) (zip (Validators (onlyPower k vs)) (c_Precommits c)))) as Hd.
  specialize (Ht (fun x => @subseteq_take _ k _ x)). specialize (Hd (fun x => @subseteq_drop _ (S k) _ x)). lia.
Qed.
End Takeover.

Section TakeoverTheorem.
Context `{Codec} `{Curves} `{Amino} `{ValidatorCodec} `{Block.BlockCodec}.

(** A commit with one vote. *)
Definition loneCommit (n k : nat) (p : Vote) : Commit := mkCommit (v_BlockID p) (<[k := Some p]> (replicate n None)).

Lemma lone_lookup n k (p : Vote) i q : (k < n)%nat -> <[k := Some p]> (replicate n None) !! i = Some (Some q) -> i = k /\ q = p.
Proof.
  intros Hk Hi. apply list_lookup_insert_Some in Hi as [(-> & E & _)|[_ Hi]]; [by injection E as ->|]. by apply lookup_replicate in Hi as [E _].
Qed.
Lemma lone_first n k p : (k < n)%nat -> FirstPrecommit (loneCommit n k p) = Some p.
Proof.
  intros Hk. unfold FirstPrecommit, loneCommit. cbn [c_Precommits]. unfold zlen. rewrite length_insert, length_replicate, (proj2 (Z.eqb_neq _ _)) by lia.
  rewrite insert_take_drop by (by rewrite length_replicate). rewrite take_replicate. clear. induction (Nat.min k n) as [|m IH]; [done|]. exact IH.
Qed.
Lemma lone_validate n k p : (k < n)%nat -> v_Type p = VoteTypePrecommit -> BlockID_IsZero (v_BlockID p) = false -> Commit_ValidateBasic (loneCommit n k p) = None.
Proof.
  intros Hk Ht Hz. unfold Commit_ValidateBasic. unfold Commit_Height, Commit_Round. rewrite (lone_first n k p Hk). cbn [loneCommit c_BlockID c_Precommits]. rewrite Hz.
  unfold zlen. rewrite length_insert, length_replicate, (proj2 (Z.eqb_neq _ _)) by lia. apply validatePrecommits_spec.
  intros q (i & Hi)%list_elem_of_lookup. by apply lone_lookup in Hi as [_ ->].
Qed.
Lemma lone_verify vs chain k v pk p : valsOK vs -> Validators vs !! k = Some v -> val_PubKey v = Some pk -> v_Type p = VoteTypePrecommit ->
  VerifyBytes pk (Vote_SignBytes chain p) (v_Signature p) = true ->
  VerifyCommit (onlyPower k vs) chain (v_BlockID p) (v_Height p) (loneCommit (length (Validators vs)) k p) = Ret None.
Proof.
  intros Hok Hv Hpk Ht Hsig. pose proof (lookup_lt_Some _ _ _ Hv) as Hlt. destruct (onlyPower_ok k vs Hlt Hok) as [Hok' Hc'].
  set (c := loneCommit (length (Validators vs)) k p).
  assert (Hck : c_Precommits c !! k = Some (Some p)) by (apply list_lookup_insert_eq; by rewrite length_replicate).
  destruct (VerifyCommit_spec (onlyPower k vs) chain (v_BlockID p) (v_Height p) c Hok' Hc') as (r & -> & Hr). f_equal. apply Hr. unfold Commit_Height, Commit_Round.
  unfold c at 1 2 3. rewrite (lone_first _ k p Hlt). split_and!; [|done| |by eapply onlyPower_committed].
  - cbn. by rewrite length_insert, length_replicate, length_imap.
  - apply Forall_lookup. intros i [w o] Hi. apply lookup_zip_with_Some in Hi as (w' & o' & [= <- <-] & Hw & Ho). destruct o as [q|]; [|done].
    apply lone_lookup in Ho as [-> ->]; [|done]. rewrite (onlyPower_lookup k vs v Hv) in Hw. injection Hw as <-. unfold precommitOK. cbn. split_and!; [done|done|done|by exists pk].
Qed.

(** C37: one validator takes over.  [DynamicUpdate] does not compare the validators of a full commit with the hash in its
    header.  From any commit [c] that the trusted set signed, a source can make it trust a set in which a single signer of [c]
    has all the power; after that any header that names this set, signed by that validator alone, is certified. *)
Theorem one_validator_takes_over vs chain h0 hd c k v pk p : setOK vs -> ValidateBasic (mkSignedHeader (Some hd) (Some c)) chain = None -> h0 < Block.Height hd ->
  VerifyCommit vs chain (c_BlockID c) (Block.Height hd) c = Ret None -> addressed vs (c_Precommits c) ->
  Validators vs !! k = Some v -> val_PubKey v = Some pk -> c_Precommits c !! k = Some (Some p) -> v_BlockID p = c_BlockID c ->
  exists dc, DynamicUpdate (mkFullCommit (mkSignedHeader (Some hd) (Some c)) (Some (onlyPower k vs))) (NewDynamicCertifier chain (Some vs) h0) = Ret (dc, None) /\
    forall hd' p', Block.ChainID hd' = chain -> Block.ValidatorsHash hd' = ValidatorSet_Hash (onlyPower k vs) ->
      v_Height p' = Block.Height hd' -> v_Type p' = VoteTypePrecommit -> bid_Hash (v_BlockID p') = Block.Header_Hash (Some hd') ->
      BlockID_IsZero (v_BlockID p') = false -> VerifyBytes pk (Vote_SignBytes chain p') (v_Signature p') = true ->
      exists dc', DynamicCertify (mkSignedHeader (Some hd') (Some (loneCommit (length (Validators vs)) k p'))) dc = Ret (dc', None).
Proof.
  intros Hok Hvb Hh Hv Haddr Hk Hpk Hck Eb. pose proof (lookup_lt_Some _ _ _ Hk) as Hlt. pose proof Hok as (Hvok & _ & _). destruct (onlyPower_ok k vs Hlt Hvok) as [Hok' Hc'].
  eexists. split.
  - unfold DynamicUpdate, fcHeight, Height. cbn [fc_Commit Header fc_Validators sh_Commit NewDynamicCertifier lastHeight cert chainID NewStaticCertifier vSet].
    rewrite (proj2 (Z.leb_gt _ _) Hh), Hvb. cbn [deref mbind go_mbind].
    rewrite VerifyCommitAny_same; [reflexivity|done|done|done| |done|done|by eapply onlyPower_committed].
    cbn [onlyPower Validators]. apply list_eq. intros i. rewrite !list_lookup_fmap, list_lookup_imap. by destruct (Validators vs !! i).
  - intros hd' p' Hch Hvh Hph Hpt Hbh Hbz Hsig. unfold DynamicCertify, StaticCertify, ValidateBasic.
    cbn [Header sh_Commit cert chainID NewStaticCertifier]. rewrite Hch, (proj2 (bytes_eqb_true chain chain) eq_refl). cbn [negb].
    unfold Commit_Height at 1. rewrite (lone_first _ k p' Hlt), Hph, Z.eqb_refl. cbn [negb loneCommit c_BlockID]. rewrite Hbh, (proj2 (bytes_eqb_true _ _) eq_refl). cbn [negb].
    fold (loneCommit (length (Validators vs)) k p'). rewrite lone_validate by done. cbn [option_map].
    unfold Hash. cbn [vhash vSet deref mbind go_mbind NewStaticCertifier chainID]. change (zlen (@nil Byte.byte) =? 0) with true. cbn [mbind go_mbind].
    rewrite Hvh, (proj2 (bytes_eqb_true _ _) eq_refl). cbn [negb deref mbind go_mbind loneCommit c_BlockID chainID vSet].
    fold (loneCommit (length (Validators vs)) k p'). rewrite <- Hph, (lone_verify vs chain k v pk p') by done. by eexists.
Qed.
End TakeoverTheorem.

(** ** What a provider promises *)

(** The comments of the interface [Provider]: [holds p fc] if the commit is in the provider. *)
Class ProviderLaws (P : Type) `{Provider P} (ok : P -> Prop) (holds : P -> FullCommit -> Prop) : Prop := {
  law_store fc p : ok p -> Header (fc_Commit fc) <> None -> 0 < fcHeight fc -> exists p' e, StoreCommit fc p = Ret (p', e) /\ ok p' /\
    (forall x, holds p x -> holds p' x) /\ (forall x, holds p' x -> holds p x \/ x = fc) /\ (e = None -> holds p' fc) /\ IsTooMuchChangeErr e = false;
  law_height h p : ok p -> exists p' r, GetByHeight h p = Ret (p', r) /\ ok p' /\ (forall x, holds p' x <-> holds p x) /\
    match r with
    | inr fc => holds p fc /\ fcHeight fc <= h /\ forall x, holds p x -> fcHeight x <= h -> fcHeight x <= fcHeight fc
    | inl _ => forall x, holds p x -> h < fcHeight x
    end;
  law_hash hash p : ok p -> exists p' r, GetByHash hash p = Ret (p', r) /\ ok p' /\ (forall x, holds p' x <-> holds p x) /\
    match r with
    | inr fc => holds p fc /\ ValidatorsHash (fc_Commit fc) = hash
    | inl _ => forall x, holds p x -> ValidatorsHash (fc_Commit x) <> hash
    end;
  law_latest p : ok p -> exists p' r, LatestCommit p = Ret (p', r) /\ ok p' /\ (forall x, holds p' x <-> holds p x) /\
    match r with
    | inr fc => holds p fc /\ forall x, holds p x -> fcHeight x <= fcHeight fc
    | inl _ => forall x, ~ holds p x
    end }.

(** *** The store in memory keeps its promise *)

Definition lower (a b : FullCommit) : Prop := fcHeight a <= fcHeight b.

Section MemLaws.
Context `{Amino} `{Block.BlockCodec}.
Context (sortByHeight : list FullCommit -> list FullCommit).
(** What [sort.Sort] guarantees. *)
Context (sort_perm : forall l, sortByHeight l ≡ₚ l) (sort_sorted : forall l, StronglySorted lower (sortByHeight l)).

Definition memHolds (m : memStoreProvider) (fc : FullCommit) : Prop := fc ∈ byHeight m.
Record memOK (m : memStoreProvider) : Prop := mkMemOK {
  k_sorted : sorted m = true -> StronglySorted lower (byHeight m);
  k_hash : forall k fc, byHash m !! k = Some fc -> fc ∈ byHeight m /\ k = hexEncode (ValidatorsHash (fc_Commit fc));
  k_all : forall fc, fc ∈ byHeight m -> is_Some (byHash m !! hexEncode (ValidatorsHash (fc_Commit fc))) }.

Lemma sortIfNecessary_ok m : memOK m -> memOK (sortIfNecessary sortByHeight m) /\ StronglySorted lower (byHeight (sortIfNecessary sortByHeight m)) /\
  byHeight (sortIfNecessary sortByHeight m) ≡ₚ byHeight m.
Proof.
  intros Hm. unfold sortIfNecessary. destruct (sorted m) eqn:E; [split_and!; [done|by apply Hm|done]|]. destruct Hm as [_ Hh Ha]. cbn [byHeight].
  split_and!; [|apply sort_sorted|apply sort_perm]. split; cbn [sorted byHeight byHash]; [intros; apply sort_sorted| |].
  - intros k fc Hk. rewrite sort_perm. by apply Hh.
  - intros fc Hfc. rewrite sort_perm in Hfc. by apply Ha.
Qed.

Lemma lower_lookup l i j a b : StronglySorted lower l -> (i <= j)%nat -> l !! i = Some a -> l !! j = Some b -> fcHeight a <= fcHeight b.
Proof.
  intros Hs. revert i j. induction Hs as [|x l Hs IH Hx]; intros i j Hij Hi Hj; [done|]. destruct i as [|i], j as [|j]; cbn in Hi, Hj; [| |lia|].
  - rewrite Hi in Hj. injection Hj as ->. lia.
  - injection Hi as ->. rewrite Forall_forall in Hx. apply Hx. by eapply list_elem_of_lookup_2.
  - apply (IH i j); [lia|done|done].
Qed.

(** What a search among the sorted commits has to find. *)
Definition closestIn (l : list FullCommit) (h : Z) (r : LiteError + FullCommit) : Prop :=
  match r with
  | inr fc => fc ∈ l /\ fcHeight fc <= h /\ forall x, x ∈ l -> fcHeight x <= h -> fcHeight x <= fcHeight fc
  | inl _ => forall x, x ∈ l -> h < fcHeight x
  end.

Lemma linearSearch_spec l h n : StronglySorted lower l -> (n <= length l)%nat -> (forall i x, l !! i = Some x -> (n <= i)%nat -> h < fcHeight x) ->
  exists r, linearSearch l h n = Ret r /\ closestIn l h r.
Proof.
  intros Hs. induction n as [|n IH]; intros Hn Habove; cbn [linearSearch].
  { eexists. split; [done|]. intros x (i & Hi)%list_elem_of_lookup. apply (Habove i); [done|lia]. }
  destruct (idx_total l (Z.of_nat n)) as (fc & -> & Hfc); [unfold zlen; lia|]. rewrite Nat2Z.id in Hfc. cbn [mbind go_mbind]. destruct (Z.leb_spec (fcHeight fc) h) as [Hle|Hgt].
  - eexists. split; [done|]. split_and!; [by eapply list_elem_of_lookup_2|done|]. intros x (i & Hi)%list_elem_of_lookup Hx.
    destruct (decide (S n <= i)%nat) as [Hge|Hlt]; [specialize (Habove i x Hi Hge); lia|]. apply (lower_lookup l i n); [done|lia|done|done].
  - apply IH; [lia|]. intros i x Hi Hge. destruct (decide (i = n)) as [->|]; [rewrite Hfc in Hi; injection Hi as <-; lia|]. apply (Habove i); [done|lia].
Qed.

Lemma binarySearch_spec l h fuel low high : StronglySorted lower l -> 0 <= low -> low <= high + 1 -> high < zlen l -> high + 1 - low < Z.of_nat fuel ->
  (forall i x, l !! i = Some x -> Z.of_nat i < low -> fcHeight x < h) -> (forall i x, l !! i = Some x -> high < Z.of_nat i -> h < fcHeight x) ->
  exists r, binarySearch fuel l h low high = Ret r /\ closestIn l h r.
Proof.
  intros Hs. revert low high. induction fuel as [|fuel IH]; intros low high Hl0 Hlh Hhl Hf Hlo Hhi; [lia|]. cbn [binarySearch]. destruct (Z.leb_spec low high) as [Hle|Hgt].
  - rewrite Z.shiftr_div_pow2 by lia. change (2 ^ 1) with 2. set (mid := (low + high) / 2). assert (Hmid : low <= mid <= high) by (subst mid; split; [apply Z.div_le_lower_bound|apply Z.div_le_upper_bound]; lia).
    destruct (idx_total l mid) as (fc & -> & Hfc); [lia|]. cbn [mbind go_mbind].
    assert (Hm : forall i x, l !! i = Some x -> (Z.of_nat i <= mid -> fcHeight x <= fcHeight fc) /\ (mid <= Z.of_nat i -> fcHeight fc <= fcHeight x)).
    { intros i x Hi. split; intros Hc; [apply (lower_lookup l i (Z.to_nat mid))|apply (lower_lookup l (Z.to_nat mid) i)]; try done; lia. }
    destruct (Z.eqb_spec (fcHeight fc) h) as [Eh|Hne].
    { eexists. split; [done|]. split_and!; [by eapply list_elem_of_lookup_2|lia|intros; lia]. }
    destruct (Z.ltb_spec (fcHeight fc) h) as [Hlt|Hge]; apply IH; try lia; try done.
    + intros i x Hi Hc. destruct (Hm i x Hi) as [Hm1 _]. specialize (Hm1 ltac:(lia)). lia.
    + intros i x Hi Hc. destruct (Hm i x Hi) as [_ Hm1]. specialize (Hm1 ltac:(lia)). lia.
  - assert (Hno : forall i x, l !! i = Some x -> Z.of_nat i = high -> high >= 0) by (intros; lia).
    destruct (Z.leb_spec 0 high) as [Hh|Hh].
    + destruct (idx_total l high) as (fc & -> & Hfc); [lia|]. cbn [mbind go_mbind]. pose proof (Hlo _ _ Hfc ltac:(lia)) as Hlt. rewrite (proj2 (Z.ltb_lt _ _) Hlt).
      eexists. split; [done|]. split_and!; [by eapply list_elem_of_lookup_2|lia|]. intros x (i & Hi)%list_elem_of_lookup Hx.
      destruct (decide (high < Z.of_nat i)) as [Hc|Hc]; [specialize (Hhi i x Hi Hc); lia|]. apply (lower_lookup l i (Z.to_nat high)); try done; lia.
    + eexists. split; [done|]. intros x (i & Hi)%list_elem_of_lookup. apply (Hhi i); [done|lia].
Qed.

Lemma ValidateBasic_err c id e : ValidateBasic c id = Some e -> IsTooMuchChangeErr (Some e) = false /\ IsValidatorsChangedErr (Some e) = false.
Proof.
  unfold ValidateBasic. destruct (Header c); [|by intros [= <-]]. destruct (negb _); [by intros [= <-]|]. destruct (sh_Commit c); [|by intros [= <-]].
  destruct (negb _); [by intros [= <-]|]. destruct (negb _); [by intros [= <-]|]. destruct (Commit_ValidateBasic _); by intros [= <-].
Qed.
Theorem memProvider_laws : @ProviderLaws memStoreProvider (memProvider sortByHeight) memOK memHolds.
Proof.
  split; cbn [StoreCommit GetByHeight GetByHash LatestCommit memProvider]; unfold memHolds.
  - intros fc m [Hs Hh Ha] Hhd _. unfold memStore. destruct (Header (fc_Commit fc)) as [h|]; [|done]. cbn [deref mbind go_mbind].
    destruct (ValidateBasic _ _) as [e|] eqn:Evb; eexists _, _; (split; [reflexivity|]); [split_and!; [exact (mkMemOK m Hs Hh Ha)|done|by left|done|by apply ValidateBasic_err in Evb as [? _]]|].
    cbn [byHeight]. split_and!; [|set_solver|set_solver|set_solver|done].
    split; cbn [sorted byHeight byHash]; [done| |].
    + intros k x [[<- <-]|[Hne Hk]]%lookup_insert_Some; [set_solver|]. destruct (Hh k x Hk) as [Hx ->]. split; [set_solver|done].
    + intros x [Hx|Hx]%elem_of_app.
      * destruct (decide (hexEncode (ValidatorsHash (fc_Commit fc)) = hexEncode (ValidatorsHash (fc_Commit x)))) as [->|Hne]; [rewrite lookup_insert_eq; by eexists|rewrite lookup_insert_ne by done; by apply Ha].
      * apply list_elem_of_singleton in Hx as ->. rewrite lookup_insert_eq. by eexists.
  - intros h m Hok. unfold memGetByHeight. destruct (sortIfNecessary_ok m Hok) as (Hok' & Hs & Hp). set (m' := sortIfNecessary sortByHeight m) in *.
    assert (Hr : exists r, (if zlen (byHeight m) <=? 50 then linearSearch (byHeight m') h (length (byHeight m'))
       else binarySearch (S (length (byHeight m'))) (byHeight m') h 0 (zlen (byHeight m') - 1)) = Ret r /\ closestIn (byHeight m') h r).
    { destruct (_ <=? _); [apply linearSearch_spec; [done|done|]|apply binarySearch_spec; [done|lia|unfold zlen; lia|lia|unfold zlen; lia| |]].
      - intros i x Hi Hge. apply lookup_lt_Some in Hi. lia.
      - intros; lia.
      - intros i x Hi Hge. apply lookup_lt_Some in Hi. unfold zlen in Hge. lia. }
    destruct Hr as (r & -> & Hr). cbn [mbind go_mbind]. eexists _, _. split; [reflexivity|]. split_and!; [done|intros x; by rewrite Hp|].
    unfold closestIn in Hr. destruct r as [e|fc]; [intros x Hx; apply Hr; by rewrite Hp|]. rewrite Hp in Hr. destruct Hr as (? & ? & Hr). split_and!; try done. intros x Hx. apply Hr. by rewrite Hp.
  - intros hash m Hok. unfold memGetByHash. eexists _, _. split; [reflexivity|]. split_and!; [done|done|]. destruct (byHash m !! hexEncode hash) as [fc|] eqn:E.
    + destruct (k_hash _ Hok _ _ E) as [Hin Ek]. split; [done|]. by apply hexEncode_inj in Ek.
    + intros x Hx <-. destruct (k_all _ Hok x Hx) as [y Hy]. congruence.
  - intros m Hok. unfold memLatestCommit. destruct (sortIfNecessary_ok m Hok) as (Hok' & Hs & Hp). destruct (Z.eqb_spec (zlen (byHeight m)) 0) as [Hz|Hz].
    + eexists _, _. split; [reflexivity|]. split_and!; [done|done|]. intros x Hx. destruct (byHeight m); [by apply elem_of_nil in Hx|unfold zlen in Hz; cbn in Hz; lia].
    + set (m' := sortIfNecessary sortByHeight m) in *. assert (Hlen : zlen (byHeight m') = zlen (byHeight m)) by (unfold zlen; by rewrite Hp). pose proof (Nat2Z.is_nonneg (length (byHeight m))).
      destruct (idx_total (byHeight m') (zlen (byHeight m') - 1)) as (fc & -> & Hfc); [unfold zlen in *; lia|]. cbn [mbind go_mbind]. eexists _, _. split; [reflexivity|].
      split_and!; [done|intros x; by rewrite Hp|rewrite <- Hp; by eapply list_elem_of_lookup_2|]. intros x Hx. rewrite <- Hp in Hx. apply list_elem_of_lookup in Hx as (i & Hi).
      apply (lower_lookup (byHeight m') i (Z.to_nat (zlen (byHeight m') - 1))); [done| |done|done]. apply lookup_lt_Some in Hi. unfold zlen. lia.
Qed.
End MemLaws.

(** *** A chain of caches keeps the promise of its members *)

Section CacheLaws.
Context {P : Type} (ok1 : P -> Prop) (holds1 : P -> FullCommit -> Prop) `{L : ProviderLaws P ok1 holds1}.

(** The commits are those of the members; heights are those of blocks. *)
Definition cacheHolds (ps : list P) (fc : FullCommit) : Prop := exists p, p ∈ ps /\ holds1 p fc.
Definition heightsOK (ps : list P) : Prop := forall fc, cacheHolds ps fc -> 0 < fcHeight fc.
Definition cacheOKs (ps : list P) : Prop := ps <> [] /\ Forall ok1 ps /\ heightsOK ps.

Lemma holds_cons p ps fc : cacheHolds (p :: ps) fc <-> holds1 p fc \/ cacheHolds ps fc.
Proof.
  unfold cacheHolds. split.
  - intros (q & [->|Hq]%elem_of_cons & Hh); [by left|right; by exists q].
  - intros [Hh|(q & Hq & Hh)]; [exists p|exists q]; (split; [set_solver|done]).
Qed.

Lemma cacheStore_spec fc ps : Forall ok1 ps -> Header (fc_Commit fc) <> None -> 0 < fcHeight fc ->
  exists ps' e, cacheStore fc ps = Ret (ps', e) /\ length ps' = length ps /\ Forall ok1 ps' /\ (forall x, cacheHolds ps x -> cacheHolds ps' x) /\
    (forall x, cacheHolds ps' x -> cacheHolds ps x \/ x = fc) /\ (e = None -> ps <> [] -> cacheHolds ps' fc) /\ IsTooMuchChangeErr e = false.
Proof.
  intros Hok Hh Hpos. induction Hok as [|p ps Hp Hok IH]; cbn [cacheStore]; [eexists _, _; split; [reflexivity|]; split_and!; try done; by left|].
  destruct (law_store fc p Hp Hh Hpos) as (p' & e & -> & Hp' & Hk & Hn & He & Hne). cbn [mbind go_mbind]. destruct e as [e|].
  - eexists _, _. split; [reflexivity|]. split_and!; [done|by constructor| | |done|done]; intros x; rewrite !holds_cons.
    + intros [?|?]; [left; auto|by right].
    + intros [[?|?]%Hn|?]; auto.
  - destruct IH as (ps' & e & -> & Hl & Hok' & Hk2 & Hn2 & _ & Hne2). cbn [mbind go_mbind]. eexists _, _. split; [reflexivity|].
    split_and!; [cbn; lia|by constructor| | | |done]; [intros x; rewrite !holds_cons..|intros _ _; rewrite holds_cons; left; auto].
    + intros [?|?]; [left; auto|right; auto].
    + intros [[?|?]%Hn|[?|?]%Hn2]; auto.
Qed.

(** The best so far: nothing, or a commit that is held. *)
Definition best (h : Z) (seen : FullCommit -> Prop) (fc : FullCommit) : Prop := fc = zeroCommit \/ seen fc /\ 0 < fcHeight fc <= h.

Lemma cacheHeight_spec h ps : Forall ok1 ps -> heightsOK ps -> forall fc err, best h (fun _ => True) fc ->
  exists ps' fc' err', cacheHeightLoop h ps fc err = Ret (ps', fc', err') /\ length ps' = length ps /\ Forall ok1 ps' /\ (forall x, cacheHolds ps' x <-> cacheHolds ps x) /\
    (fc' = fc \/ cacheHolds ps fc' /\ fcHeight fc' <= h) /\ fcHeight fc <= fcHeight fc' /\ (forall x, cacheHolds ps x -> fcHeight x <= h -> fcHeight x <= fcHeight fc') /\
    (fcHeight fc' <= 0 -> (err <> None \/ ps <> []) -> err' <> None).
Proof.
  intros Hok. induction Hok as [|p ps Hp Hok IH]; intros Hpos fc err Hfc; cbn [cacheHeightLoop].
  { eexists _, _, _. split; [reflexivity|]. split_and!; [done|done|done|by left|lia|intros x (q & Hq & _); by apply elem_of_nil in Hq|intros _ [?|?]; done]. }
  assert (Hpos' : heightsOK ps) by (intros x Hx; apply Hpos; rewrite holds_cons; by right).
  assert (Hb0 : 0 <= fcHeight fc) by (destruct Hfc as [->|[_ ?]]; [done|lia]).
  destruct (law_height h p Hp) as (p' & r & -> & Hp' & Hk & Hr). cbn [mbind go_mbind]. destruct r as [e|tfc].
  - destruct (IH Hpos' fc (Some e) Hfc) as (ps' & fc' & err' & -> & Hl & Hok' & Hk' & Hf & Hge & Hbest & Herr). cbn [mbind go_mbind]. eexists _, _, _. split; [reflexivity|].
    split_and!; [cbn; lia|by constructor|intros x; by rewrite !holds_cons, Hk, Hk'|destruct Hf as [?|[? ?]]; [by left|right; rewrite holds_cons; by split; [right|]]|done| |].
    + intros x. rewrite holds_cons. intros [Hx|Hx] Hle; [specialize (Hr x Hx); lia|auto].
    + intros Hz _. apply Herr; [done|by left].
  - destruct Hr as (Ht & Hth & Htb). pose proof (Hpos tfc (proj2 (holds_cons _ _ _) (or_introl Ht))) as Htp. set (fc2 := if fcHeight fc <? fcHeight tfc then tfc else fc).
    assert (H2 : (fc2 = fc \/ fc2 = tfc) /\ fcHeight fc <= fcHeight fc2 /\ fcHeight tfc <= fcHeight fc2 /\ best h (fun _ => True) fc2).
    { subst fc2. destruct (Z.ltb_spec (fcHeight fc) (fcHeight tfc)); split_and!; try done; try lia; [by right|right; by split|by left]. }
    clearbody fc2. destruct H2 as (H2 & H2a & H2b & H2c). destruct (Z.eqb_spec (fcHeight tfc) h) as [Eh|Hne].
    + eexists _, _, _. split; [reflexivity|]. split_and!; [done|by constructor|intros x; by rewrite !holds_cons, Hk| |done|intros; lia|intros; lia].
      destruct H2 as [->| ->]; [by left|right; rewrite holds_cons; split; [by left|lia]].
    + destruct (IH Hpos' fc2 None H2c) as (ps' & fc' & err' & -> & Hl & Hok' & Hk' & Hf & Hge & Hbest & Herr). cbn [mbind go_mbind]. eexists _, _, _. split; [reflexivity|].
      split_and!; [cbn; lia|by constructor|intros x; by rewrite !holds_cons, Hk, Hk'| |lia| |intros; lia].
      * destruct Hf as [->|[? ?]]; [destruct H2 as [->| ->]; [by left|right; rewrite holds_cons; split; [by left|lia]]|right; rewrite holds_cons; by split; [right|]].
      * intros x. rewrite holds_cons. intros [Hx|Hx] Hle; [specialize (Htb x Hx Hle); lia|auto].
Qed.

Lemma cacheHash_spec hash ps r0 : Forall ok1 ps -> exists ps' r, cacheHashLoop hash ps r0 = Ret (ps', r) /\ length ps' = length ps /\ Forall ok1 ps' /\ (forall x, cacheHolds ps' x <-> cacheHolds ps x) /\
    (ps = [] \/ match r with inr fc => cacheHolds ps fc /\ ValidatorsHash (fc_Commit fc) = hash | inl _ => forall x, cacheHolds ps x -> ValidatorsHash (fc_Commit x) <> hash end).
Proof.
  intros Hok. revert r0. induction Hok as [|p ps Hp Hok IH]; intros r0; cbn [cacheHashLoop]; [eexists _, _; split; [reflexivity|]; split_and!; try done; by left|].
  destruct (law_hash hash p Hp) as (p' & r & -> & Hp' & Hk & Hr). cbn [mbind go_mbind]. destruct r as [e|fc].
  - destruct (IH (inl e)) as (ps' & r & Er & Hl & Hok' & Hk' & Hr'). rewrite Er. cbn [mbind go_mbind]. eexists _, _. split; [reflexivity|].
    split_and!; [cbn; lia|by constructor|intros x; by rewrite !holds_cons, Hk, Hk'|right]. destruct Hr' as [->|Hr'].
    + cbn in Er. injection Er as <- <-. intros x. rewrite holds_cons. intros [Hx|(q & Hq & _)]; [auto|by apply elem_of_nil in Hq].
    + destruct r as [e'|fc]; [intros x; rewrite holds_cons; intros [Hx|Hx]; auto|destruct Hr'; rewrite holds_cons; by split; [right|]].
  - eexists _, _. split; [reflexivity|]. split_and!; [done|by constructor|intros x; by rewrite !holds_cons, Hk|right; rewrite holds_cons; destruct Hr; by split; [left|]].
Qed.

Lemma cacheLatest_spec ps : Forall ok1 ps -> heightsOK ps -> forall fc err, 0 <= fcHeight fc ->
  exists ps' fc' err', cacheLatestLoop ps fc err = Ret (ps', fc', err') /\ length ps' = length ps /\ Forall ok1 ps' /\ (forall x, cacheHolds ps' x <-> cacheHolds ps x) /\
    (fc' = fc \/ cacheHolds ps fc') /\ fcHeight fc <= fcHeight fc' /\ (forall x, cacheHolds ps x -> fcHeight x <= fcHeight fc') /\
    (fcHeight fc' <= 0 -> (err <> None \/ ps <> []) -> err' <> None).
Proof.
  intros Hok. induction Hok as [|p ps Hp Hok IH]; intros Hpos fc err Hfc; cbn [cacheLatestLoop].
  { eexists _, _, _. split; [reflexivity|]. split_and!; [done|done|done|by left|lia|intros x (q & Hq & _); by apply elem_of_nil in Hq|intros _ [?|?]; done]. }
  assert (Hpos' : heightsOK ps) by (intros x Hx; apply Hpos; rewrite holds_cons; by right).
  destruct (law_latest p Hp) as (p' & r & -> & Hp' & Hk & Hr). cbn [mbind go_mbind].
  destruct r as [e|tfc].
  - destruct (IH Hpos' fc (Some e) Hfc) as (ps' & fc' & err' & -> & Hl & Hok' & Hk' & Hf & Hge & Hbest & Herr). cbn [mbind go_mbind]. eexists _, _, _. split; [reflexivity|].
    split_and!; [cbn; lia|by constructor|intros x; by rewrite !holds_cons, Hk, Hk'|destruct Hf as [?|?]; [by left|right; rewrite holds_cons; by right]|done| |].
    + intros x. rewrite holds_cons. intros [Hx|Hx]; [by apply Hr in Hx|auto].
    + intros Hz _. apply Herr; [done|by left].
  - destruct Hr as (Ht & Htb). pose proof (Hpos tfc (proj2 (holds_cons _ _ _) (or_introl Ht))) as Htp. set (fc2 := if fcHeight fc <? fcHeight tfc then tfc else fc).
    assert (H2 : (fc2 = fc \/ fc2 = tfc) /\ fcHeight fc <= fcHeight fc2 /\ fcHeight tfc <= fcHeight fc2).
    { subst fc2. destruct (Z.ltb_spec (fcHeight fc) (fcHeight tfc)); split_and!; try lia; auto. }
    clearbody fc2. destruct H2 as (H2 & H2a & H2b).
    destruct (IH Hpos' fc2 None ltac:(lia)) as (ps' & fc' & err' & -> & Hl & Hok' & Hk' & Hf & Hge & Hbest & Herr). cbn [mbind go_mbind]. eexists _, _, _. split; [reflexivity|].
    split_and!; [cbn; lia|by constructor|intros x; by rewrite !holds_cons, Hk, Hk'| |lia| |intros; lia].
    + destruct Hf as [->|?]; [destruct H2 as [->| ->]; [by left|right; rewrite holds_cons; by left]|right; rewrite holds_cons; by right].
    + intros x. rewrite holds_cons. intros [Hx|Hx]; [specialize (Htb x Hx); lia|auto].
Qed.

Lemma same_ok ps ps' : cacheOKs ps -> length ps' = length ps -> Forall ok1 ps' -> (forall x, cacheHolds ps' x <-> cacheHolds ps x) -> cacheOKs ps'.
Proof. intros (Hne & _ & Hpos) Hl Hok Hk. split_and!; [by destruct ps, ps'|done|]. intros x Hx%Hk. by apply Hpos. Qed.

Theorem cacheProvider_laws : ProviderLaws (list P) cacheOKs cacheHolds.
Proof.
  split; cbn [StoreCommit GetByHeight GetByHash LatestCommit cacheProvider].
  - intros fc ps (Hne & Hok & Hpos) Hh H0. destruct (cacheStore_spec fc ps Hok Hh H0) as (ps' & e & -> & Hl & Hok' & Hk & Hn & He & Hn3). eexists _, _. split; [reflexivity|].
    split_and!; [|done|done|auto|done]. split_and!; [by destruct ps, ps'|done|]. intros x [Hx| ->]%Hn; [by apply Hpos|done].
  - intros h ps Hps. pose proof Hps as (Hne & Hok & Hpos). unfold cacheGetByHeight.
    destruct (cacheHeight_spec h ps Hok Hpos zeroCommit None (or_introl eq_refl)) as (ps' & fc & err & -> & Hl & Hok' & Hk & Hf & _ & Hbest & Herr). cbn [mbind go_mbind].
    eexists _, _. split; [reflexivity|]. split_and!; [by eapply same_ok|done|]. unfold found. destruct (Z.ltb_spec 0 (fcHeight fc)) as [Hp|Hp].
    + destruct Hf as [->|[Hf Hle]]; [cbn in Hp; lia|]. done.
    + destruct err as [e|]; [|by destruct (Herr Hp (or_intror Hne))]. intros x Hx. destruct (Z.le_gt_cases (fcHeight x) h) as [Hle|]; [|lia]. specialize (Hbest x Hx Hle). specialize (Hpos x Hx). lia.
  - intros hash ps Hps. pose proof Hps as (Hne & Hok & Hpos). unfold cacheGetByHash. destruct (cacheHash_spec hash ps (inr zeroCommit) Hok) as (ps' & r & -> & Hl & Hok' & Hk & Hr).
    eexists _, _. split; [reflexivity|]. split_and!; [by eapply same_ok|done|]. by destruct Hr.
  - intros ps Hps. pose proof Hps as (Hne & Hok & Hpos). unfold cacheLatestCommit.
    destruct (cacheLatest_spec ps Hok Hpos zeroCommit None ltac:(done)) as (ps' & fc & err & -> & Hl & Hok' & Hk & Hf & _ & Hbest & Herr). cbn [mbind go_mbind].
    eexists _, _. split; [reflexivity|]. split_and!; [by eapply same_ok|done|]. unfold found. destruct (Z.ltb_spec 0 (fcHeight fc)) as [Hp|Hp].
    + destruct Hf as [->|Hf]; [cbn in Hp; lia|]. done.
    + destruct err as [e|]; [|by destruct (Herr Hp (or_intror Hne))]. intros x Hx. specialize (Hbest x Hx). specialize (Hpos x Hx). lia.
Qed.
End CacheLaws.

(** ** What is certified was decided *)

Section Sound.
Context `{Codec} `{Curves} `{Amino} `{ValidatorCodec} `{Block.BlockCodec}.
(** The headers of the chain, the sets of validators that may be trusted, and the commits that turn up. *)
Context (chain : bytes) (canon : Block.Header -> Prop) (good : ValidatorSet -> Prop) (seen : Commit -> Prop).
Context (good_ok : forall vs, good vs -> setOK vs).
(** If more than two thirds of a trusted set signed in a commit, they did so for a header of the chain. *)
Context (honest : forall vs blockID height cm, good vs -> seen cm -> majority vs chain blockID height (c_Precommits cm) ->
  exists hd, canon hd /\ Block.Height hd = height /\ Block.Header_Hash (Some hd) = bid_Hash blockID).

Definition seenIn (c : SignedHeader) : Prop := forall cm, sh_Commit c = Some cm -> seen cm.
Definition certified (c : SignedHeader) : Prop :=
  exists hd hd', Header c = Some hd /\ canon hd' /\ Block.Height hd' = Block.Height hd /\ Block.Header_Hash (Some hd') = Block.Header_Hash (Some hd).
(** A full commit with the validators that its header names, at a height up to [top]; with a header that hashes as one
    of the chain they are validators of the chain: there is no collision of hashes. *)
Definition fits (top : Z) (fc : FullCommit) : Prop :=
  fcHeight fc <= top /\ seenIn (fc_Commit fc) /\ exists vs, fc_Validators fc = Some vs /\ setOK vs /\
    forall hd, Header (fc_Commit fc) = Some hd -> ValidatorSet_Hash vs = Block.ValidatorsHash hd /\
      forall hd', canon hd' -> Block.Header_Hash (Some hd') = Block.Header_Hash (Some hd) -> ValidatorSet_Hash vs = Block.ValidatorsHash hd -> good vs.

Record trusts (dc : DynamicCertifier) : Prop := mkTrusts {
  t_chain : chainID (cert dc) = chain;
  t_set : exists vs, vSet (cert dc) = Some vs /\ good vs /\ (vhash (cert dc) = [] \/ vhash (cert dc) = ValidatorSet_Hash vs) }.

Lemma ValidateBasic_inv c id : ValidateBasic c id = None -> exists hd cm, Header c = Some hd /\ sh_Commit c = Some cm /\ Block.Header_Hash (Some hd) = bid_Hash (c_BlockID cm).
Proof.
  unfold ValidateBasic. destruct (Header c) as [hd|]; [|done]. destruct (negb _); [done|]. destruct (sh_Commit c) as [cm|]; [|done]. destruct (negb (_ =? _)); [done|].
  destruct (bytes_eqb (Block.Header_Hash _) _) eqn:E; [|done]. intros _. exists hd, cm. split_and!; try done. by apply bytes_eqb_true.
Qed.

Lemma DynamicCertify_sound c dc : trusts dc -> seenIn c -> exists dc' e, DynamicCertify c dc = Ret (dc', e) /\ trusts dc' /\ (e = None -> certified c) /\
  (e <> None -> lastHeight dc' = lastHeight dc) /\ (IsValidatorsChangedErr e = true -> Header c <> None).
Proof.
  intros [Hch (vs & Hvs & Hg & Hh)] Hseen. unfold DynamicCertify, StaticCertify.
  destruct (ValidateBasic c (chainID (cert dc))) as [e|] eqn:Evb; cbn [mbind go_mbind].
  { eexists _, _. split; [reflexivity|]. split_and!; [split; cbn; [done|by exists vs]|done|done|]. apply ValidateBasic_err in Evb as [_ Hb]. by rewrite Hb. }
  destruct (ValidateBasic_inv _ _ Evb) as (hd & cm & Ehd & Ecm & Ehash).
  assert (Hhash : exists sc, Hash (cert dc) = Ret (sc, ValidatorSet_Hash vs) /\ chainID sc = chain /\ vSet sc = Some vs /\ (vhash sc = [] \/ vhash sc = ValidatorSet_Hash vs)).
  { unfold Hash. rewrite Hvs. destruct (Z.eqb_spec (zlen (vhash (cert dc))) 0) as [Hz|Hz]; cbn [deref mbind go_mbind].
    - eexists. split; [reflexivity|]. cbn. split_and!; [done|done|by right].
    - destruct Hh as [Hh|Hh]; [rewrite Hh in Hz; done|]. rewrite Hh. eexists. split; [reflexivity|]. split_and!; [done|done|by right]. }
  destruct Hhash as (sc & -> & Hsc & Hsv & Hsh). cbn [mbind go_mbind]. rewrite Ehd, Ecm, Hsv. cbn [deref mbind go_mbind].
  assert (Ht : forall l, trusts (mkDynamic sc l)) by (intros l; split; cbn; [done|by exists vs]).
  destruct (negb _); cbn [mbind go_mbind].
  { eexists _, _. split; [reflexivity|]. split_and!; [apply Ht|done|done|done]. }
  destruct (good_ok vs Hg) as (Hvok & Hvc & _).
  destruct (VerifyCommit_spec vs (chainID sc) (c_BlockID cm) (Block.Height hd) cm Hvok Hvc) as (r & Er & _). rewrite Er. cbn [mbind go_mbind]. eexists _, _. split; [reflexivity|].
  split_and!; [apply Ht| |by destruct r|done]. destruct r as [e|]; [done|]. intros _. rewrite Hsc in Er.
  destruct (honest vs _ _ _ Hg (Hseen cm Ecm) (VerifyCommit_majority vs chain _ _ cm Hvok Hvc Er)) as (hd' & Hc' & Hh' & Hhash'). exists hd, hd'. split_and!; [done|done|done|congruence].
Qed.

Lemma DynamicUpdate_sound top fc dc : trusts dc -> fits top fc -> exists dc' e, DynamicUpdate fc dc = Ret (dc', e) /\ trusts dc' /\ (e <> None -> dc' = dc) /\
  (e = None -> lastHeight dc < fcHeight fc /\ lastHeight dc' = fcHeight fc /\ Header (fc_Commit fc) <> None /\ exists vs, fc_Validators fc = Some vs /\ good vs).
Proof.
  intros Ht (_ & Hseen & newSet & Hnew & Hnok & Hname). pose proof Ht as [Hch (vs & Hvs & Hg & Hh)]. unfold DynamicUpdate. destruct (Z.leb_spec (fcHeight fc) (lastHeight dc)) as [|Hlt]; [by eexists _, _|].
  destruct (ValidateBasic _ _) as [e|] eqn:Evb; [by eexists _, _|]. destruct (ValidateBasic_inv _ _ Evb) as (hd & cm & Ehd & Ecm & Ehash).
  rewrite Hvs, Ecm, Hnew, Hch. cbn [deref mbind go_mbind]. destruct Hnok as ((Hf & Hs & Hk) & Hnc & Hnso).
  destruct (VerifyCommitAny_spec vs newSet chain (c_BlockID cm) (fcHeight fc) cm (good_ok vs Hg) Hk) as (r & -> & Hmaj). cbn [mbind go_mbind]. destruct r as [e|]; [by eexists _, _|].
  destruct (honest vs _ _ _ Hg (Hseen cm Ecm) (Hmaj eq_refl)) as (hd0 & Hc0 & Hh0 & Hhash0). rewrite <- Ehash in Hhash0.
  assert (Hgn : good newSet) by (destruct (Hname hd Ehd) as [? Hn]; by apply (Hn hd0)). eexists _, _. split; [reflexivity|].
  split_and!; [|done|]. { split; cbn; [done|]. exists newSet. split_and!; [done|done|by left]. } intros _. split_and!; [done|done|by rewrite Ehd|by exists newSet].
Qed.

Context {T S : Type} `{Provider T} `{Provider S} (okT : T -> Prop) (holdsT : T -> FullCommit -> Prop) `{LT : !ProviderLaws T okT holdsT}.
(** The source answers with full commits that fit, by height with none above the height asked for. *)
Context (top : Z) (okS : S -> Prop) (Htop : top <= MaxInt64).
Context (src_height : forall h s, okS s -> exists s' r, GetByHeight h s = Ret (s', r) /\ okS s' /\ match r with inr fc => fits top fc /\ fcHeight fc <= h | inl _ => True end).
Context (src_hash : forall hash s, okS s -> exists s' r, GetByHash hash s = Ret (s', r) /\ okS s' /\ match r with inr fc => fits top fc | inl _ => True end).

Record sound (ic : InquiringCertifier (T := T) (S := S)) : Prop := mkSound {
  s_trusts : trusts (dyn ic);
  s_ok : okT (trusted ic);
  s_held : forall fc, holdsT (trusted ic) fc -> 0 < fcHeight fc /\ exists vs, fc_Validators fc = Some vs /\ good vs;
  s_source : okS (Source ic) }.
Definition held (ic : InquiringCertifier (T := T) (S := S)) (h : Z) : Prop := exists fc, holdsT (trusted ic) fc /\ fcHeight fc = h.

Lemma useClosestTrust_sound h ic : sound ic -> exists ic' e, useClosestTrust h ic = Ret (ic', e) /\ sound ic' /\ (forall x, held ic' x <-> held ic x) /\
  (e <> None -> dyn ic' = dyn ic) /\ (e = None -> held ic' (LastHeight ic') /\ LastHeight ic' <= h /\ forall x, held ic x -> x <= h -> x <= LastHeight ic').
Proof.
  intros [Ht Hok Hh Hs]. unfold useClosestTrust. destruct (law_height h (trusted ic) Hok) as (t' & r & -> & Hok' & Hsame & Hr). cbn [mbind go_mbind].
  assert (Hheld : forall dc x, held (mkInquiring dc t' (Source ic)) x <-> held ic x) by (intros dc x; unfold held; cbn; by setoid_rewrite Hsame).
  destruct r as [e|fc]; (eexists _, _; split; [reflexivity|]).
  - split_and!; [split; cbn; try done; intros fc Hfc%Hsame; by apply Hh|apply Hheld|done|done].
  - destruct Hr as (Hfc & Hle & Hbest). destruct (Hh fc Hfc) as (Hpos & vs & Hvs & Hg).
    set (dc := if fcHeight fc =? LastHeight ic then _ else _). assert (Hdc : trusts dc /\ lastHeight dc = fcHeight fc).
    { subst dc. unfold LastHeight. destruct (Z.eqb_spec (fcHeight fc) (lastHeight (dyn ic))) as [E|_]; [by split|]. split; [|done]. split; cbn; [apply Ht|]. exists vs. split_and!; [done|done|by left]. }
    destruct Hdc as [Hdc Hl]. split_and!; [split; cbn; try done; intros x Hx%Hsame; by apply Hh|apply Hheld|done|]. intros _. unfold LastHeight. cbn [dyn]. rewrite Hl.
    split_and!; [apply Hheld; by exists fc|done|]. intros x (y & Hy & <-) Hx. by apply Hbest.
Qed.

Lemma Update_sound fc ic : sound ic -> fits top fc -> held ic (LastHeight ic) -> LastHeight ic <= fcHeight fc ->
  exists ic' e, Update fc ic = Ret (ic', e) /\ sound ic' /\ LastHeight ic <= LastHeight ic' /\ (e = None -> held ic' (LastHeight ic') /\ LastHeight ic' = fcHeight fc) /\
    (IsTooMuchChangeErr e = true -> held ic' (LastHeight ic')).
Proof.
  intros Hs Hfc Hl Hle. unfold Update. destruct (useClosestTrust_sound (fcHeight fc) ic Hs) as (ic1 & e & -> & Hs1 & Hheld & He & Hn). cbn [mbind go_mbind]. destruct e as [e|].
  { specialize (He ltac:(done)). eexists _, _. split; [reflexivity|]. unfold LastHeight in *. rewrite He. split_and!; [done|lia|done|]. intros _. by apply Hheld. }
  destruct (Hn eq_refl) as (Hl1 & Hl2 & Hl3). specialize (Hl3 _ Hl Hle). pose proof Hs1 as [Ht1 Hok1 Hh1 Hsrc1].
  destruct (DynamicUpdate_sound top fc (dyn ic1) Ht1 Hfc) as (dc & e & -> & Ht & Hsame & Hnew). cbn [mbind go_mbind]. destruct e as [e|].
  { specialize (Hsame ltac:(done)). subst dc. eexists _, _. split; [reflexivity|]. split_and!; [by split|done|done|done]. }
  destruct (Hnew eq_refl) as (Hlt & Hdl & Hhd & Hvs). assert (Hpos : 0 < fcHeight fc) by (destruct Hl as (x & Hx & Ex); destruct (s_held _ Hs x Hx); lia).
  destruct (law_store fc (trusted ic1) Hok1 Hhd Hpos) as (t & e & -> & Hok' & Hk & Hn2 & Hin & Htm). cbn [mbind go_mbind]. eexists _, _. split; [reflexivity|].
  split_and!; [|unfold LastHeight in *; cbn; lia| |by rewrite Htm].
  - split; cbn; try done. intros x [Hx| ->]%Hn2; [by apply Hh1|done].
  - intros He0. unfold LastHeight. cbn. rewrite Hdl. split; [|done]. exists fc. split; [by apply Hin|done].
Qed.

Lemma mid_small s e : 0 <= s < e -> e <= MaxInt64 -> Z.quot (add64 s e) 2 < e.
Proof.
  intros Hs He. unfold add64. destruct (Z.le_gt_cases (s + e) MaxInt64) as [Hle|Hgt].
  - rewrite wrap64_small by (unfold_int64; lia). rewrite Z.quot_div_nonneg by lia. apply Z.div_lt_upper_bound; lia.
  - unfold wrap64. unfold_int64. assert (Hw : (s + e + 9223372036854775808) mod 18446744073709551616 = s + e + 9223372036854775808 - 18446744073709551616).
    { symmetry. apply (Z.mod_unique _ _ 1); lia. }
    rewrite Hw. Z.to_euclidean_division_equations. lia.
Qed.

(** The search for a path returns if there is room for as many calls as heights remain. *)
Lemma updateToHeight_sound stack h ic : sound ic -> held ic (LastHeight ic) -> 0 <= LastHeight ic -> h - LastHeight ic < Z.of_nat stack -> (0 < stack)%nat ->
  exists ic' e, updateToHeight stack h ic = Ret (ic', e) /\ sound ic' /\ LastHeight ic <= LastHeight ic' /\ (e = None -> held ic' (LastHeight ic') /\ LastHeight ic < LastHeight ic').
Proof.
  revert h ic. induction stack as [|stack IH]; intros h ic Hs Hl Hl0 Hst Hpos; [lia|]. cbn [updateToHeight]. pose proof Hs as [Ht Hok Hh Hsrc].
  destruct (src_height h (Source ic) Hsrc) as (s' & r & -> & Hsrc' & Hr). cbn [mbind go_mbind]. set (ic1 := mkInquiring (dyn ic) (trusted ic) s').
  assert (Hs1 : sound ic1) by (by split). assert (Hl1 : held ic1 (LastHeight ic1)) by done. destruct r as [e|fc].
  { eexists _, _. split; [reflexivity|]. split_and!; [done|done|done]. }
  destruct Hr as [Hfit Hfh]. change (LastHeight ic1) with (LastHeight ic) in *. destruct (Z.leb_spec (fcHeight fc) (LastHeight ic)) as [|Hlt].
  { eexists _, _. split; [reflexivity|]. split_and!; [done|done|done]. }
  destruct (Update_sound fc ic1 Hs1 Hfit Hl1 ltac:(unfold LastHeight in *; cbn in *; lia)) as (ic2 & e & -> & Hs2 & Hge & Hnone & Hmuch). cbn [mbind go_mbind].
  change (LastHeight ic1) with (LastHeight ic) in *. destruct (IsTooMuchChangeErr e) eqn:Em; cbn [negb].
  2:{ eexists _, _. split; [reflexivity|]. split_and!; [done|done|]. intros He. destruct (Hnone He) as [Hl2 Eh]. split; [done|lia]. }
  specialize (Hmuch eq_refl). set (mid := Z.quot (add64 (LastHeight ic) (fcHeight fc)) 2). pose proof (mid_small (LastHeight ic) (fcHeight fc) ltac:(lia) ltac:(destruct Hfit; lia)) as Hmid. fold mid in Hmid.
  destruct (IH mid ic2 Hs2 Hmuch ltac:(lia) ltac:(lia) ltac:(lia)) as (ic3 & e3 & -> & Hs3 & Hge3 & Hn3). cbn [mbind go_mbind]. destruct e3 as [e3|].
  { eexists _, _. split; [reflexivity|]. split_and!; [done|lia|done]. }
  destruct (Hn3 eq_refl) as [Hl3 Hlt3]. destruct (IH h ic3 Hs3 Hl3 ltac:(lia) ltac:(lia) ltac:(lia)) as (ic4 & e4 & -> & Hs4 & Hge4 & Hn4).
  eexists _, _. split; [reflexivity|]. split_and!; [done|lia|]. intros He. destruct (Hn4 He). split; [done|lia].
Qed.

Lemma updateToHash_sound stack hash ic : sound ic -> held ic (LastHeight ic) -> 0 <= LastHeight ic -> 0 <= top < Z.of_nat stack ->
  exists ic' e, updateToHash stack hash ic = Ret (ic', e) /\ sound ic'.
Proof.
  intros Hs Hl Hl0 Hst. unfold updateToHash. pose proof Hs as [Ht Hok Hh Hsrc]. destruct (src_hash hash (Source ic) Hsrc) as (s' & r & -> & Hsrc' & Hr). cbn [mbind go_mbind].
  destruct r as [e|fc]; [eexists _, _; split; [reflexivity|]; by split|].
  destruct (DynamicUpdate_sound top fc (dyn ic) Ht Hr) as (dc & e & -> & Htd & Hsame & _). cbn [mbind go_mbind].
  destruct (IsTooMuchChangeErr e) eqn:Em; [|eexists _, _; split; [reflexivity|]; by split].
  rewrite (Hsame ltac:(by destruct e)) in *. set (ic1 := mkInquiring (dyn ic) (trusted ic) s').
  destruct (updateToHeight_sound stack (fcHeight fc) ic1) as (ic' & e' & E & Hs' & _); [by split|done|done|change (LastHeight ic1) with (LastHeight ic); destruct Hr; lia|lia|]. by exists ic', e'.
Qed.

Lemma Certify_sound stack c ic : sound ic -> seenIn c -> 0 <= top < Z.of_nat stack -> exists ic' e, Certify stack c ic = Ret (ic', e) /\ sound ic' /\ (e = None -> certified c).
Proof.
  intros Hs Hseen Hst. unfold Certify. destruct (useClosestTrust_sound (Height c) ic Hs) as (ic1 & e1 & -> & Hs1 & Hheld & _ & Hn). cbn [mbind go_mbind].
  destruct e1 as [e1|]; [by eexists _, _|]. destruct (Hn eq_refl) as (Hl1 & Hl2 & _). pose proof Hs1 as [Ht1 Hok1 Hh1 Hsrc1].
  destruct (DynamicCertify_sound c (dyn ic1) Ht1 Hseen) as (dc & e2 & -> & Ht2 & Hc2 & Hsame2 & Hv2). cbn [mbind go_mbind].
  destruct (IsValidatorsChangedErr e2) eqn:Ev; cbn [negb]; [|eexists _, _; split; [reflexivity|]; split; [by split|done]].
  destruct (Header c) as [hd|] eqn:Ehd; [|by destruct (Hv2 eq_refl)].
  cbn [deref mbind go_mbind]. set (ic2 := mkInquiring dc (trusted ic1) (Source ic1)). assert (Hs2 : sound ic2) by (by split).
  assert (Hlast : LastHeight ic2 = LastHeight ic1) by (unfold LastHeight; cbn; apply Hsame2; by destruct e2).
  assert (Hpos : 0 < LastHeight ic1) by (destruct Hl1 as (x & Hx & <-); by destruct (Hh1 x Hx)).
  destruct (updateToHash_sound stack (Block.ValidatorsHash hd) ic2 Hs2) as (ic3 & e3 & -> & Hs3); [by rewrite Hlast|lia|done|]. cbn [mbind go_mbind].
  destruct e3 as [e3|]; [by eexists _, _|]. pose proof Hs3 as [Ht3 Hok3 Hh3 Hsrc3].
  destruct (DynamicCertify_sound c (dyn ic3) Ht3 Hseen) as (dc4 & e4 & -> & Ht4 & Hc4 & _ & Hv4). cbn [mbind go_mbind]. destruct e4 as [e4|]; [eexists _, _; split; [reflexivity|]; split; [by split|done]|].
  cbn [trusted Source dyn].
  destruct (law_store (mkFullCommit c (vSet (cert dc4))) (trusted ic3) Hok3) as (t & e5 & -> & Hok5 & _ & Hn5 & _ & _); [by cbn; rewrite Ehd|unfold fcHeight; cbn [fc_Commit]; lia|].
  cbn [mbind go_mbind]. eexists _, _. split; [reflexivity|]. split; [|intros _; by apply Hc4]. split; cbn; try done. destruct Ht4 as [_ (vs & Hvs & Hg & _)].
  intros x [Hx| ->]%Hn5; [by apply Hh3|]. split; [unfold fcHeight; cbn [fc_Commit]; lia|]. exists vs. done.
Qed.

(** The commits of a list are certified one after the other. *)
Fixpoint certifyAll (stack : nat) (cs : list SignedHeader) (ic : InquiringCertifier (T := T) (S := S)) : go (list (option LiteError)) :=
  match cs with
  | [] => Ret []
  | c :: cs => '(ic, e) ← Certify stack c ic; es ← certifyAll stack cs ic; Ret (e :: es)
  end.
Lemma certifyAll_sound stack cs ic : sound ic -> Forall seenIn cs -> 0 <= top < Z.of_nat stack ->
  exists es, certifyAll stack cs ic = Ret es /\ Forall2 (fun c e => e = None -> certified c) cs es.
Proof.
  intros Hs Hcs Hst. revert ic Hs. induction Hcs as [|c cs Hc0 Hcs IH]; intros ic Hs; cbn [certifyAll]; [by exists []; split; [|constructor]|].
  destruct (Certify_sound stack c ic Hs Hc0 Hst) as (ic' & e & -> & Hs' & Hc). cbn [mbind go_mbind]. destruct (IH ic' Hs') as (es & -> & Hes). cbn [mbind go_mbind].
  exists (e :: es). split; [done|by constructor].
Qed.

(** C36: what the light client certifies was decided.  Suppose that more than two thirds of a set that may be trusted sign, in
    the commits that turn up, headers of the chain only; that the source answers with commits up to a height [top], with the
    validators that their headers name and never above the height asked for; that a set named by a header that hashes as one
    of the chain may be trusted; that the trusted store keeps the laws of a provider and is empty at first; that the first
    full commit is of a positive height with a set that may be trusted; and that the stack is deeper than [top].  Then the client
    answers every request, and certifies only headers with the hash of a header of the chain at their height: it follows
    changes of the validators only along a path that the sets themselves signed. *)
Theorem light_client_sound stack fc t0 s0 vs cs : okT t0 -> (forall x, ~ holdsT t0 x) -> okS s0 -> fc_Validators fc = Some vs -> good vs -> 0 < fcHeight fc ->
  Forall seenIn cs -> 0 <= top < Z.of_nat stack ->
  exists r, NewInquiringCertifier chain fc t0 s0 = Ret r /\
    forall ic, r = inr ic -> exists es, certifyAll stack cs ic = Ret es /\ Forall2 (fun c e => e = None -> certified c) cs es.
Proof.
  intros Hok Hempty Hsrc Hvs Hg Hpos Hcs Hst. unfold NewInquiringCertifier.
  destruct (law_store fc t0 Hok) as (t & e & -> & Hok' & _ & Hn & _); [unfold fcHeight, Height in Hpos; by destruct (Header (fc_Commit fc))|done|]. cbn [mbind go_mbind].
  destruct e as [e|]; (eexists; split; [reflexivity|]); [done|]. intros ic [= <-]. apply certifyAll_sound; [|done|done]. split; cbn; [|done| |done].
  - split; cbn; [done|]. exists vs. split_and!; [done|done|by left].
  - intros x [Hx| ->]%Hn; [by destruct (Hempty x)|]. split; [done|by exists vs].
Qed.
End Sound.

(** ** A node as the source: lite/client/provider.go *)

(** The answers of the RPC of a node, [None] for an error: [Commit], [Validators] with the height they
    are of, and the latest height of [Status]. *)
Class Node (N : Type) := {
  n_Commit : Z -> N -> N * option SignedHeader;
  n_Validators : option Z -> N -> N * option (Z * option (list Validator));
  n_Status : N -> N * option Z }.

Section Client.
Context `{Amino} `{ValidatorCodec} {N : Type} `{Node N} (ErrRPC : LiteError).

Record provider := mkProvider { node : N; p_lastHeight : Z }.
Definition updateHeight (h : Z) (p : provider) : provider := if p_lastHeight p <? h then mkProvider (node p) h else p.
Definition seedFromVals (height : Z) (vals : option (list Validator)) (p : provider) : go (provider * (LiteError + FullCommit)) :=
  let '(n, r) := n_Commit height (node p) in
  let p := mkProvider n (p_lastHeight p) in
  match r with
  | None => Ret (p, inl ErrRPC)
  | Some c => vset ← NewValidatorSet vals; Ret (p, inr (mkFullCommit c (Some vset)))
  end.
Definition seedFromCommit (c : SignedHeader) (p : provider) : go (provider * (LiteError + FullCommit)) :=
  h ← deref (Header c);
  let '(n, r) := n_Validators (Some (Block.Height h)) (node p) in
  let p := mkProvider n (p_lastHeight p) in
  match r with
  | None => Ret (p, inl ErrRPC)
  | Some (_, vals) =>
      vset ← NewValidatorSet vals;
      if negb (bytes_eqb (ValidatorSet_Hash vset) (Block.ValidatorsHash h)) then Ret (p, inl ErrValidatorsChanged)
      else Ret (updateHeight (Block.Height h) p, inr (mkFullCommit c (Some vset)))
  end.
Definition clientGetByHash (hash : bytes) (p : provider) : go (provider * (LiteError + FullCommit)) :=
  let '(n, r) := n_Validators None (node p) in
  let p := mkProvider n (p_lastHeight p) in
  match r with
  | None => Ret (p, inl ErrRPC)
  | Some (height, vals) =>
      let p := updateHeight height p in
      vset ← NewValidatorSet vals;
      if negb (bytes_eqb hash (ValidatorSet_Hash vset)) then Ret (p, inl ErrCommitNotFound) else seedFromVals height vals p
  end.
Definition clientGetByHeight (h : Z) (p : provider) : go (provider * (LiteError + FullCommit)) :=
  let '(n, r) := n_Commit h (node p) in
  let p := mkProvider n (p_lastHeight p) in
  match r with None => Ret (p, inl ErrRPC) | Some c => seedFromCommit c p end.
Definition clientLatestCommit (p : provider) : go (provider * (LiteError + FullCommit)) :=
  let '(n, r) := n_Status (node p) in
  match r with
  | None => Ret (mkProvider n (p_lastHeight p), inl ErrRPC)
  | Some h => clientGetByHeight h (mkProvider n (p_lastHeight p))
  end.
Definition clientProvider : Provider provider :=
  {| StoreCommit := fun _ p => Ret (p, None); GetByHeight := clientGetByHeight; GetByHash := clientGetByHash; LatestCommit := clientLatestCommit |}.

(** By height the validators are checked against the header; by hash they are not. *)
Lemma clientGetByHeight_checked h p p' fc : clientGetByHeight h p = Ret (p', inr fc) ->
  exists hd vs, Header (fc_Commit fc) = Some hd /\ fc_Validators fc = Some vs /\ ValidatorSet_Hash vs = Block.ValidatorsHash hd.
Proof.
  unfold clientGetByHeight, seedFromCommit. destruct (n_Commit h (node p)) as [n [c|]]; [|done]. destruct (Header c) as [hd|] eqn:Ehd; [|done]. cbn [deref mbind go_mbind node].
  destruct (n_Validators _ _) as [n' [[h' vals]|]]; [|done]. destruct (NewValidatorSet vals) as [vset|]; [|done]. cbn [mbind go_mbind].
  destruct (bytes_eqb _ _) eqn:E; [|done]. intros [= <- <-]. cbn. exists hd, vset. split_and!; [done|done|by apply bytes_eqb_true].
Qed.
End Client.

(** ** A search without end *)

Section NeverEnds.
Context `{Codec} `{Curves} `{Amino} `{ValidatorCodec} `{Block.BlockCodec} {T S : Type} `{Provider T} `{Provider S}.

(** C38: a source can make the search endless.  Nothing checks that the commit a source returns is of the height asked for: if it
    always answers with the same commit, with validators that changed too much, [updateToHeight] asks again and again for the height
    halfway until the stack is exhausted. *)
Theorem search_never_ends fc (ic : InquiringCertifier (T := T) (S := S)) : (forall h, GetByHeight h (Source ic) = Ret (Source ic, inr fc)) ->
  useClosestTrust (fcHeight fc) ic = Ret (ic, None) -> DynamicUpdate fc (dyn ic) = Ret (dyn ic, Some ErrTooMuchChange) -> LastHeight ic < fcHeight fc ->
  forall stack h, updateToHeight stack h ic = Panic (PanicMsg "stack overflow").
Proof.
  intros Hsrc Hclose Hupd Hlt. induction stack as [|stack IH]; intros h; [done|]. cbn [updateToHeight]. rewrite Hsrc. cbn [mbind go_mbind].
  assert (Eic : mkInquiring (dyn ic) (trusted ic) (Source ic) = ic) by (by destruct ic). rewrite Eic, (proj2 (Z.leb_gt _ _) Hlt).
  unfold Update. rewrite Hclose. cbn [mbind go_mbind]. rewrite Hupd. cbn [mbind go_mbind]. rewrite Eic. cbn [IsTooMuchChangeErr negb]. by rewrite IH.
Qed.
End NeverEnds.

(** ** Examples *)

Section Examples.
#[local] Existing Instance toyCodec.
#[local] Existing Instance toyCurves.
#[local] Existing Instance uvarintAmino.
#[local] Existing Instance Block.toyBlockCodec.
Definition toyValidatorCodec : ValidatorCodec := {| MarshalValidator := fun addr _ power => addr ++ uvarint 10 (uwrap64 power) |}.
#[local] Existing Instance toyValidatorCodec.

Definition headerAt (height : Z) (vs : ValidatorSet) : Block.Header :=
  Block.mkHeader (str "chain") height 0 0 zeroBlockID 0 None None (ValidatorSet_Hash vs) [] [] [].
Definition idOf (hd : Block.Header) : BlockID := mkBlockID (Block.Header_Hash (Some hd)) (mkPartSetHeader 1 (str "parts")).
Definition vote (name : String.string) (i : Z) (hd : Block.Header) : option Vote := Some (signedVote name i (Block.Height hd) 0 2 (idOf hd)).
Definition signedBy (hd : Block.Header) (ps : list (option Vote)) : SignedHeader := mkSignedHeader (Some hd) (Some (mkCommit (idOf hd) ps)).

(** The set changes from A, B, C to A, B, D between heights 3 and 7. *)
Definition setD : ValidatorSet := mkValidatorSet [exampleVal "A" 5; exampleVal "B" 3; exampleVal "D" 1] None 0.
Definition hd3 : Block.Header := Eval vm_compute in headerAt 3 exampleSet.
Definition hd7 : Block.Header := Eval vm_compute in headerAt 7 setD.
Definition sh3 : SignedHeader := Eval vm_compute in signedBy hd3 [vote "A" 0 hd3; vote "B" 1 hd3; vote "C" 2 hd3].
Definition sh7 : SignedHeader := Eval vm_compute in signedBy hd7 [vote "A" 0 hd7; vote "B" 1 hd7; None].
Definition fc3 : FullCommit := mkFullCommit sh3 (Some exampleSet).
Definition fc7 : FullCommit := mkFullCommit sh7 (Some setD).

Definition bySort : list FullCommit -> list FullCommit := isort (fun a b => fcHeight a <? fcHeight b).
Lemma bySort_perm l : bySort l ≡ₚ l.
Proof. apply isort_perm. Qed.
Lemma bySort_sorted l : StronglySorted lower (bySort l).
Proof.
  assert (Hs : sortedBy (fun a b => fcHeight a <? fcHeight b) (bySort l)).
  { apply isort_sorted; [intros x y; rewrite Z.ltb_lt, Z.ltb_ge; lia|intros x y z; rewrite !Z.ltb_ge; lia]. }
  unfold sortedBy in Hs. induction Hs as [|x k Hs IH Hx]; constructor; [done|]. eapply Forall_impl; [exact Hx|]. intros y Hy. by apply Z.ltb_ge in Hy.
Qed.
#[local] Instance mems : Provider memStoreProvider := memProvider bySort.
#[local] Instance mems_laws : ProviderLaws memStoreProvider memOK memHolds := memProvider_laws bySort bySort_perm bySort_sorted.
Lemma emptyMem_ok : memOK NewMemStoreProvider.
Proof. split; cbn; [done|intros k fc Hk; by rewrite lookup_empty in Hk|set_solver]. Qed.

(** A source that holds the commit at height 7. *)
Definition source7 : memStoreProvider := match StoreCommit fc7 NewMemStoreProvider with Ret (m, _) => m | Panic _ => NewMemStoreProvider end.
Definition exCanon (hd : Block.Header) : Prop := hd = hd3 \/ hd = hd7.
Definition exGood (vs : ValidatorSet) : Prop := vs = exampleSet \/ vs = setD.
Definition exSeen (cm : Commit) : Prop := Some cm = sh_Commit sh3 \/ Some cm = sh_Commit sh7.
Definition exFits (fc : FullCommit) : Prop := fits exCanon exGood exSeen 7 fc.

Lemma exGood_ok vs : exGood vs -> setOK vs.
Proof.
  intros [-> | ->]; (split_and!; [|by left|repeat constructor]); [exact exampleSet_powers|]. apply (bool_decide_unpack (valsOK setD)). vm_compute. exact I.
Qed.
Lemma exHonest vs blockID height cm : exGood vs -> exSeen cm -> majority vs (str "chain") blockID height (c_Precommits cm) ->
  exists hd, exCanon hd /\ Block.Height hd = height /\ Block.Header_Hash (Some hd) = bid_Hash blockID.
Proof.
  intros Hg Hs (l & _ & Hsig & Hpow). destruct l as [|v l].
  { destruct Hg as [-> | ->]; vm_compute in Hpow; discriminate. }
  apply Forall_cons in Hsig as [(pk & p & _ & Hp & _ & <- & <- & _) _]. destruct Hs as [E|E]; injection E as ->; cbn [c_Precommits] in Hp; repeat (apply elem_of_cons in Hp as [Hp|Hp]);
    try (by apply elem_of_nil in Hp); try discriminate; injection Hp as ->; [exists hd3|exists hd3|exists hd3|exists hd7|exists hd7]; (split; [by (left + right)|]; split; vm_compute; reflexivity).
Qed.
Lemma exFits7 : exFits fc7.
Proof.
  split; [vm_compute; discriminate|]. split; [intros cm E; by right|]. exists setD. split_and!; [done|apply exGood_ok; by right|]. intros hd E. injection E as <-.
  split; [vm_compute; reflexivity|]. intros hd' _ _ _. by right.
Qed.
Definition okSource (m : memStoreProvider) : Prop := memOK m /\ forall fc, memHolds m fc -> exFits fc.
Lemma source7_ok : okSource source7.
Proof.
  destruct (law_store fc7 NewMemStoreProvider emptyMem_ok) as (m & e & E & Hok & _ & Hn & _); [done|vm_compute; reflexivity|].
  assert (source7 = m) as -> by (unfold source7; rewrite E; reflexivity).
  split; [done|]. intros fc Hfc. destruct (Hn fc Hfc) as [Hold|Heq]; [exfalso; exact (not_elem_of_nil fc Hold)|rewrite Heq; exact exFits7].
Qed.
Lemma source_height h m : okSource m -> exists m' r, GetByHeight h m = Ret (m', r) /\ okSource m' /\ match r with inr fc => exFits fc /\ fcHeight fc <= h | inl _ => True end.
Proof.
  intros [Hok Hf]. destruct (law_height h m Hok) as (m' & r & E & Hok' & Hs & Hr). exists m', r. split_and!; [done|split; [done|intros fc Hfc%Hs; auto]|].
  destruct r; [done|]. destruct Hr as (? & ? & _). auto.
Qed.
Lemma source_hash hash m : okSource m -> exists m' r, GetByHash hash m = Ret (m', r) /\ okSource m' /\ match r with inr fc => exFits fc | inl _ => True end.
Proof.
  intros [Hok Hf]. destruct (law_hash hash m Hok) as (m' & r & E & Hok' & Hs & Hr). exists m', r. split_and!; [done|split; [done|intros fc Hfc%Hs; auto]|].
  destruct r; [done|]. destruct Hr. auto.
Qed.

Definition run (stack : nat) (cs : list SignedHeader) (r : LiteError + InquiringCertifier (T := memStoreProvider) (S := memStoreProvider)) : go (list (option LiteError)) :=
  match r with inr ic => certifyAll stack cs ic | inl _ => Ret [] end.
Example both_certified : (r ← NewInquiringCertifier (str "chain") fc3 NewMemStoreProvider source7; run 10 [sh7; sh3] r) = Ret [None; None].
Proof. vm_compute. reflexivity. Qed.
Lemma light_client_sound_witness : exists r, NewInquiringCertifier (str "chain") fc3 NewMemStoreProvider source7 = Ret r /\
  forall ic, r = inr ic -> exists es, certifyAll 10 [sh7; sh3] ic = Ret es /\ Forall2 (fun c e => e = None -> certified exCanon c) [sh7; sh3] es.
Proof.
  apply (light_client_sound (str "chain") exCanon exGood exSeen exGood_ok exHonest memOK memHolds 7 okSource ltac:(vm_compute; discriminate) source_height source_hash
    10 fc3 NewMemStoreProvider source7 exampleSet [sh7; sh3]).
  - exact emptyMem_ok.
  - exact (fun x => not_elem_of_nil x).
  - exact source7_ok.
  - reflexivity.
  - left; reflexivity.
  - reflexivity.
  - constructor; [intros cm Ec; right; symmetry; exact Ec|]. constructor; [intros cm Ec; left; symmetry; exact Ec|constructor].
  - split; [discriminate|reflexivity].
Defined.

(** *** The attack *)

(** A node that answers with a real commit at height 7 and the set in which only A has power, for a header at height 9 that A alone signed. *)
Definition real7 : Block.Header := Eval vm_compute in headerAt 7 exampleSet.
Definition realCommit : Commit := Eval vm_compute in mkCommit (idOf real7) [vote "A" 0 real7; vote "B" 1 real7; vote "C" 2 real7].
Definition onlyA : ValidatorSet := onlyPower 0 exampleSet.
Definition forged9 : Block.Header := Eval vm_compute in headerAt 9 onlyA.
Definition aVote : Vote := Eval vm_compute in signedVote "A" 0 9 0 2 (idOf forged9).
#[local] Instance forger : Node unit := {|
  n_Commit := fun _ n => (n, Some (mkSignedHeader (Some real7) (Some realCommit)));
  n_Validators := fun _ n => (n, Some (7, Some (Validators onlyA)));
  n_Status := fun n => (n, Some 7) |}.
#[local] Instance forgery : Provider (provider (N := unit)) := clientProvider ErrCommitNotFound.
Definition forgedSigned : SignedHeader := mkSignedHeader (Some forged9) (Some (loneCommit 3 0 aVote)).
Example forged_header_certified :
  (r ← NewInquiringCertifier (S := provider (N := unit)) (str "chain") fc3 NewMemStoreProvider (mkProvider tt 0);
   match r with inl e => Ret (Some e) | inr ic => '(_, e) ← Certify 10 forgedSigned ic; Ret e end) = Ret None.
Proof. vm_compute. reflexivity. Qed.

(** A node that lists a validator twice stops the client. *)
Definition twins : Node unit := {|
  n_Commit := fun _ n => (n, None); n_Validators := fun _ n => (n, Some (7, Some [exampleVal "A" 1; exampleVal "A" 1])); n_Status := fun n => (n, None) |}.
Example twins_panic : @clientGetByHash _ _ unit twins ErrCommitNotFound (str "hash") (mkProvider tt 0) = Panic (PanicSanity "Cannot compare identical validators").
Proof. vm_compute. reflexivity. Qed.

Lemma exampleSet_ok : setOK exampleSet.
Proof. apply exGood_ok. left. reflexivity. Qed.
Lemma realCommit_addressed : addressed exampleSet (c_Precommits realCommit).
Proof.
  intros i p v Hp Hv. do 3 (destruct i as [|i]; [injection Hp as <-; injection Hv as <-; reflexivity|]). discriminate.
Qed.
Lemma one_validator_takes_over_witness : exists dc dc', DynamicUpdate (mkFullCommit (mkSignedHeader (Some real7) (Some realCommit)) (Some onlyA)) (NewDynamicCertifier (str "chain") (Some exampleSet) 3) = Ret (dc, None) /\
  DynamicCertify forgedSigned dc = Ret (dc', None).
Proof.
  destruct (one_validator_takes_over exampleSet (str "chain") 3 real7 realCommit 0 (exampleVal "A" 5) (PubKeyEd25519 (str "A")) (signedVote "A" 0 7 0 2 (idOf real7))) as (dc & E & Hf).
  - exact exampleSet_ok.
  - vm_compute. reflexivity.
  - reflexivity.
  - vm_compute. reflexivity.
  - exact realCommit_addressed.
  - reflexivity.
  - reflexivity.
  - vm_compute. reflexivity.
  - vm_compute. reflexivity.
  - destruct (Hf forged9 aVote) as (dc' & E'); [reflexivity|vm_compute; reflexivity|reflexivity|reflexivity|vm_compute; reflexivity|vm_compute; reflexivity|vm_compute; reflexivity|].
    exists dc, dc'. split; [exact E|exact E'].
Defined.

(** *** The endless search *)

(** A source that always answers with a commit at height 7 of validators nobody knows. *)
Definition setX : ValidatorSet := mkValidatorSet [exampleVal "X" 1] None 0.
Definition hdX : Block.Header := Eval vm_compute in headerAt 7 setX.
Definition fcX : FullCommit := Eval vm_compute in mkFullCommit (signedBy hdX [vote "X" 0 hdX]) (Some setX).
Definition stubborn : Provider unit := {|
  StoreCommit := fun _ s => Ret (s, None); GetByHeight := fun _ s => Ret (s, inr fcX); GetByHash := fun _ s => Ret (s, inr fcX); LatestCommit := fun s => Ret (s, inr fcX) |}.
#[local] Existing Instance stubborn.
Definition trust3 : memStoreProvider := mkMem [fc3] {[hexEncode (ValidatorsHash sh3) := fc3]} true.
Definition icX : InquiringCertifier (T := memStoreProvider) (S := unit) := mkInquiring (NewDynamicCertifier (str "chain") (Some exampleSet) 3) trust3 tt.
Lemma search_never_ends_witness : updateToHeight 1000 5 icX = Panic (PanicMsg "stack overflow").
Proof.
  apply (search_never_ends fcX icX).
  - reflexivity.
  - vm_compute. reflexivity.
  - vm_compute. reflexivity.
  - reflexivity.
Defined.
End Examples.
End Lite.
