(* ===== verification/Query.v ===== *)
(** * Queries: libs/pubsub/query

    The parser that is generated from the grammar query.peg (query.peg.go) rule
    by rule, with its tokens, and the conditions over them (query.go).  The
    functions of strconv and time that the conditions use are those of Go 1.10. *)

From Stdlib Require Import SpecFloat.
From S2P Require Import Prelude Types GoTime.

Module Query.

(** ** Runes *)

Definition endSymbol : Z := 1114112.

Definition contByte (lo hi : Z) (b : byte) : bool := (lo <=? byte_Z b) && (byte_Z b <=? hi).
Definition low6 (b : byte) : Z := Z.land (byte_Z b) 63.
(** [utf8.DecodeRune]: the rune and its length; an invalid encoding is the rune 65533 of one byte. *)
Definition decodeRune (b0 : byte) (s : bytes) : Z * nat :=
  let x := byte_Z b0 in
  let bad := (65533, 1%nat) in
  if x <? 128 then (x, 1%nat)
  else if (x <? 194) || (244 <? x) then bad
  else if x <? 224 then
    match s with b1 :: _ => if contByte 128 191 b1 then ((x - 192) * 64 + low6 b1, 2%nat) else bad | _ => bad end
  else if x <? 240 then
    let lo := if x =? 224 then 160 else 128 in
    let hi := if x =? 237 then 159 else 191 in
    match s with
    | b1 :: b2 :: _ => if contByte lo hi b1 && contByte 128 191 b2 then (((x - 224) * 64 + low6 b1) * 64 + low6 b2, 3%nat) else bad
    | _ => bad
    end
  else
    let lo := if x =? 240 then 144 else 128 in
    let hi := if x =? 244 then 143 else 191 in
    match s with
    | b1 :: b2 :: b3 :: _ =>
        if contByte lo hi b1 && contByte 128 191 b2 && contByte 128 191 b3
        then ((((x - 240) * 64 + low6 b1) * 64 + low6 b2) * 64 + low6 b3, 4%nat) else bad
    | _ => bad
    end.
(** [[]rune(s)]; [skipped] bytes belong to the rune before. *)
Fixpoint runesFrom (skipped : nat) (s : bytes) : list Z :=
  match s with
  | [] => []
  | b :: s => match skipped with
              | S k => runesFrom k s
              | O => let '(r, n) := decodeRune b s in r :: runesFrom (n - 1) s
              end
  end.
Definition runes (s : bytes) : list Z := runesFrom 0 s.

(** ** The parser *)

Inductive pegRule :=
  | rulee | rulecondition | ruletag | rulevalue | rulenumber | ruledigit | ruletime | ruledate | ruleyear | rulemonth | ruleday
  | ruleand | ruleequal | rulecontains | rulele | rulege | rulel | ruleg | rulePegText.
Record token32 := mkToken { pegrule : pegRule; t_begin : Z; t_end : Z }.

(** The position with the runes from there on, and the tokens up to
    [tokenIndex].  A rule that fails leaves no trace: its caller continues
    with the position and the tokens from before. *)
Record pstate := mkP { position : Z; rest : list Z; tree : list token32 }.
Definition cur (s : pstate) : Z := match rest s with [] => endSymbol | c :: _ => c end.
Definition advance (s : pstate) : pstate := mkP (position s + 1) (tail (rest s)) (tree s).
Definition addTok (r : pegRule) (begin : Z) (s : pstate) : pstate := mkP (position s) (rest s) (tree s ++ [mkToken r begin (position s)]).

Definition rule : Type := pstate -> option pstate.
Definition char (c : Z) : rule := fun s => if cur s =? c then Some (advance s) else None.
Definition range (lo hi : Z) : rule := fun s => if (cur s <? lo) || (hi <? cur s) then None else Some (advance s).
Definition matchDot : rule := fun s => if cur s =? endSymbol then None else Some (advance s).
Definition orElse (p q : rule) : rule := fun s => match p s with Some s' => Some s' | None => q s end.
Definition andThen (p q : rule) : rule := fun s => s ← p s; q s.
(** The rule as often as it succeeds; it can at most succeed for every rune. *)
Fixpoint starLoop (fuel : nat) (p : rule) (s : pstate) : pstate :=
  match fuel with
  | O => s
  | S fuel => match p s with Some s' => starLoop fuel p s' | None => s end
  end.
Definition star (p : rule) : rule := fun s => Some (starLoop (length (rest s)) p s).
Definition plus (p : rule) : rule := andThen p (star p).
Definition optional (p : rule) : rule := fun s => Some (default s (p s)).
(** The rule, and a token for what it matched. *)
Definition named (r : pegRule) (p : rule) : rule := fun s => s' ← p s; Some (addTok r (position s) s').
(** A letter in both cases, and words of them. *)
Definition letter (lower upper : Z) : rule := orElse (char lower) (char upper).
Fixpoint word (l : list (Z * Z)) : rule := match l with [] => fun s => Some s | (a, b) :: l => andThen (letter a b) (word l) end.
Definition oneOf (l : list Z) (c : Z) : bool := existsb (Z.eqb c) l.
(** A rune that is not in the list. *)
Definition noneOf (l : list Z) : rule := fun s => if oneOf l (cur s) then None else matchDot s.

Infix ">>>" := andThen (at level 52, right associativity) : peg_scope.
Infix "<|>" := orElse (at level 53, right associativity) : peg_scope.
#[local] Open Scope peg_scope.

Definition spaces : rule := star (char 32).
Definition digit : rule := named ruledigit (range 48 57).
Definition year : rule := named ruleyear ((char 49 <|> char 50) >>> digit >>> digit >>> digit).
Definition month : rule := named rulemonth ((char 48 <|> char 49) >>> digit).
Definition day : rule := named ruleday ((char 51 <|> char 50 <|> char 49 <|> char 48) >>> digit).
Definition ymd : rule := year >>> char 45 >>> month >>> char 45 >>> day.
Definition keyword (l : list (Z * Z)) : rule := word l >>> char 32.
Definition date : rule := named ruledate (keyword [(100, 68); (97, 65); (116, 84); (101, 69)] >>> named rulePegText ymd).
Definition twoDigits : rule := digit >>> digit.
Definition clock : rule := char 84 >>> twoDigits >>> char 58 >>> twoDigits >>> char 58 >>> twoDigits.
Definition offset : rule := ((char 45 <|> char 43) >>> twoDigits >>> char 58 >>> twoDigits) <|> char 90.
Definition time : rule := named ruletime (keyword [(116, 84); (105, 73); (109, 77); (101, 69)] >>> named rulePegText (ymd >>> clock >>> offset)).
Definition number : rule := named rulenumber (named rulePegText (char 48 <|> (range 49 57 >>> star digit >>> optional (char 46 >>> star digit)))).
Definition value : rule := named rulevalue (named rulePegText (char 39 >>> star (noneOf [34; 39]) >>> char 39)).
Definition tag : rule := named ruletag (named rulePegText (plus (noneOf [60; 62; 61; 39; 34; 41; 40; 92; 13; 10; 9; 32]))).
(** The switches on the next rune. *)
Definition operand : rule := fun s => if oneOf [68; 100] (cur s) then date s else if oneOf [84; 116] (cur s) then time s else number s.
Definition operandOrValue : rule := fun s => if cur s =? 39 then value s else operand s.
Definition containsWord : rule := word [(99, 67); (111, 79); (110, 78); (116, 84); (97, 65); (105, 73); (110, 78); (115, 83)].
Definition simpleOp : rule := fun s =>
  if cur s =? 61 then (named ruleequal (char 61) >>> spaces >>> operandOrValue) s
  else if cur s =? 62 then (named ruleg (char 62) >>> spaces >>> operand) s
  else if cur s =? 60 then (named rulel (char 60) >>> spaces >>> operand) s
  else (named rulecontains containsWord >>> spaces >>> value) s.
Definition condition : rule :=
  named rulecondition (tag >>> spaces >>>
    ((named rulele (char 60 >>> char 61) >>> spaces >>> operand) <|> (named rulege (char 62 >>> char 61) >>> spaces >>> operand) <|> simpleOp)).
Definition andCondition : rule := plus (char 32) >>> named ruleand (word [(97, 65); (110, 78); (100, 68)]) >>> plus (char 32) >>> condition.
(** [!.] *)
Definition atEnd : rule := fun s => match matchDot s with Some _ => None | None => Some s end.
Definition e : rule := named rulee (char 34 >>> condition >>> star andCondition >>> char 34 >>> atEnd).

(** [p.Init(); p.Parse()]: the tokens, or an error. *)
Definition Parse (Buffer : bytes) : option (list token32) := tree <$> e (mkP 0 (runes Buffer ++ [endSymbol]) []).

(** ** strconv *)

(** [ParseInt(s, 10, 64)] *)
Definition ParseInt (s : bytes) : option Z :=
  n ← GoTime.atoi s;
  if (n <? MinInt64) || (MaxInt64 <? n) then None else Some n.

Definition isE (b : byte) : bool := (byte_Z b =? 101) || (byte_Z b =? 69).
Definition lowerByte (b : byte) : Z := if (65 <=? byte_Z b) && (byte_Z b <=? 90) then byte_Z b + 32 else byte_Z b.
Definition foldsTo (s : bytes) (w : bytes) : bool := bool_decide ((lowerByte <$> s) = (byte_Z <$> w)).
(** Leading digits: their value, their number, and what follows. *)
Fixpoint scanDigits (acc : Z) (n : Z) (s : bytes) : Z * Z * bytes :=
  match s with
  | b :: s' => if GoTime.isDigit b then scanDigits (acc * 10 + GoTime.digitVal b) (n + 1) s' else (acc, n, s)
  | [] => (acc, n, s)
  end.
(** The digits of an exponent, which stops growing at 10000. *)
Fixpoint scanExp (acc : Z) (s : bytes) : option Z :=
  match s with
  | [] => Some acc
  | b :: s => if GoTime.isDigit b then scanExp (if acc <? 10000 then acc * 10 + GoTime.digitVal b else acc) s else None
  end.
Definition sign (s : bytes) : bool * bytes :=
  match s with b :: s' => if byte_Z b =? 45 then (true, s') else if byte_Z b =? 43 then (false, s') else (false, s) | [] => (false, s) end.
(** [± m * 10 ^ k] rounded to 53 bits. *)
Definition roundDecimal (neg : bool) (m k : Z) : spec_float :=
  match m with
  | Zpos p =>
      if 0 <=? k then binary_normalize 53 1024 ((if neg then -1 else 1) * m * 10 ^ k) 0 neg
      else SFdiv 53 1024 (S754_finite neg p 0) (S754_finite false (Z.to_pos (10 ^ - k)) 0)
  | _ => S754_zero neg
  end.
(** [ParseFloat(s, 64)]; a value out of range is an error. *)
Definition ParseFloat (s : bytes) : option spec_float :=
  let '(neg, r) := sign s in
  if foldsTo r (str "inf") || foldsTo r (str "infinity") then Some (S754_infinity neg)
  else if foldsTo s (str "nan") then Some S754_nan
  else
    let '(m, n, r) := scanDigits 0 0 r in
    let '(m, n2, r) := match r with b :: r' => if byte_Z b =? 46 then scanDigits m 0 r' else (m, 0, r) | [] => (m, 0, r) end in
    if n + n2 =? 0 then None else
    x ← match r with
        | [] => Some 0
        | b :: r => if isE b then
                      let '(eneg, r) := sign r in
                      match r with [] => None | _ => x ← scanExp 0 r; Some (if eneg then - x else x) end
                    else None
        end;
    match roundDecimal neg m (x - n2) with S754_infinity _ => None | f => Some f end.

(** ** time *)

(** The fraction of a second, which may follow the seconds. *)
Fixpoint digitsLen (s : bytes) : nat := match s with b :: s => if GoTime.isDigit b then S (digitsLen s) else O | [] => O end.
Definition fraction (s : bytes) : option (Z * bytes) :=
  match s with
  | b :: d :: s' =>
      if (byte_Z b =? 46) && GoTime.isDigit d then
        let n := digitsLen (d :: s') in
        ns ← GoTime.atoi (take n (d :: s'));
        if (ns <? 0) || (1000000000 <=? ns) then None else Some (ns * 10 ^ Z.max 0 (9 - Z.of_nat n), drop n (d :: s'))
      else Some (0, s)
  | _ => Some (0, s)
  end.
(** [Z07:00]: the offset in seconds. *)
Definition zone (s : bytes) : option (Z * bytes) :=
  match s with
  | b :: s' =>
      if byte_Z b =? 90 then Some (0, s')
      else match s with
           | sg :: h1 :: h2 :: c :: m1 :: m2 :: s' =>
               if negb (byte_Z c =? 58) then None else
               hr ← GoTime.atoi [h1; h2];
               mm ← GoTime.atoi [m1; m2];
               let off := (hr * 60 + mm) * 60 in
               if byte_Z sg =? 43 then Some (off, s') else if byte_Z sg =? 45 then Some (- off, s') else None
           | _ => None
           end
  | [] => None
  end.
Definition dateOf (s : bytes) : option (Z * Z * Z * bytes) :=
  '(y, s) ← GoTime.getYear s; s ← GoTime.skip s Byte.x2d;
  '(m, s) ← GoTime.inRange 1 12 (GoTime.getnum s true); s ← GoTime.skip s Byte.x2d;
  '(d, s) ← GoTime.getnum s true;
  Some (y, m, d, s).
Definition dayOK (y m d : Z) : bool := negb ((d <? 1) || (GoTime.daysIn m y <? d)).
(** [time.Parse] for the layouts [DateLayout] and [TimeLayout]; a time is its instant in nanoseconds. *)
Definition parseDate (s : bytes) : option Z :=
  '(y, m, d, s) ← dateOf s;
  match s with [] => if dayOK y m d then Some (GoTime.daysFrom y m d * 86400 * 1000000000) else None | _ => None end.
Definition parseTime (s : bytes) : option Z :=
  '(y, m, d, s) ← dateOf s; s ← GoTime.skip s Byte.x54;
  '(hour, s) ← GoTime.inRange 0 23 (GoTime.getnum s false); s ← GoTime.skip s Byte.x3a;
  '(min, s) ← GoTime.inRange 0 59 (GoTime.getnum s true); s ← GoTime.skip s Byte.x3a;
  '(sec, s) ← GoTime.inRange 0 59 (GoTime.getnum s true);
  '(nsec, s) ← fraction s;
  '(off, s) ← zone s;
  match s with
  | [] => if dayOK y m d then Some ((GoTime.daysFrom y m d * 86400 + hour * 3600 + min * 60 + sec - off) * 1000000000 + nsec) else None
  | _ => None
  end.

(** ** query.go *)

Record Query := mkQuery { q_str : bytes; q_Buffer : bytes; q_tokens : list token32 }.
Definition New (s : bytes) : option Query :=
  let buffer := [Byte.x22] ++ s ++ [Byte.x22] in
  toks ← Parse buffer;
  Some (mkQuery s buffer toks).

(** [MustParse] *)
Definition MustParse (s : bytes) : go Query := match New s with Some q => Ret q | None => Panic (PanicMsg "failed to parse") end.
(** The query of empty.go. *)
Definition EmptyMatches (tags : gmap bytes bytes) : bool := true.

Inductive Operator := OpLessEqual | OpGreaterEqual | OpLess | OpGreater | OpEqual | OpContains.
Inductive Operand := OString (s : bytes) | OInt64 (n : Z) | OFloat64 (f : spec_float) | OTime (t : Z).
Record Condition := mkCondition { Tag : bytes; Op : Operator; Operand_ : Operand }.

(** The variables of the loops over the tokens. *)
Record scan := mkScan { s_begin : Z; s_end : Z; s_tag : bytes; s_op : Operator }.
Definition setOp (o : Operator) (s : scan) : scan := mkScan (s_begin s) (s_end s) (s_tag s) o.
Definition orPanic {A} (why : String.string) (o : option A) : go A := match o with Some x => Ret x | None => Panic (PanicMsg why) end.
Definition hasByte (c : Z) (s : bytes) : bool := existsb (fun b => byte_Z b =? c) s.
(** One token, for [Conditions] and [Matches]: the variables, and the operand if the token is one. *)
Definition scanToken (buffer : bytes) (t : token32) (s : scan) : go (scan * option Operand) :=
  match pegrule t with
  | rulePegText => Ret (mkScan (t_begin t) (t_end t) (s_tag s) (s_op s), None)
  | ruletag => g ← slice buffer (s_begin s) (s_end s); Ret (mkScan (s_begin s) (s_end s) g (s_op s), None)
  | rulele => Ret (setOp OpLessEqual s, None)
  | rulege => Ret (setOp OpGreaterEqual s, None)
  | rulel => Ret (setOp OpLess s, None)
  | ruleg => Ret (setOp OpGreater s, None)
  | ruleequal => Ret (setOp OpEqual s, None)
  | rulecontains => Ret (setOp OpContains s, None)
  | rulevalue => v ← slice buffer (s_begin s + 1) (s_end s - 1); Ret (s, Some (OString v))
  | rulenumber =>
      n ← slice buffer (s_begin s) (s_end s);
      if hasByte 46 n then f ← orPanic "got error while trying to parse as float64" (ParseFloat n); Ret (s, Some (OFloat64 f))
      else i ← orPanic "got error while trying to parse as int64" (ParseInt n); Ret (s, Some (OInt64 i))
  | ruletime =>
      v ← slice buffer (s_begin s) (s_end s); t ← orPanic "got error while trying to parse as time.Time / RFC3339" (parseTime v); Ret (s, Some (OTime t))
  | ruledate =>
      v ← slice buffer (s_begin s) (s_end s); t ← orPanic "got error while trying to parse as time.Time / '2006-01-02'" (parseDate v); Ret (s, Some (OTime t))
  | _ => Ret (s, None)
  end.
Definition scan0 : scan := mkScan 0 0 [] OpLessEqual.
(** The body of the loop of [Conditions]. *)
Definition collect (buffer : bytes) (t : token32) (st : scan * list Condition) : go (scan * list Condition) :=
  '(s, o) ← scanToken buffer t st.1;
  Ret (s, match o with Some v => st.2 ++ [mkCondition (s_tag s) (s_op s) v] | None => st.2 end).
Definition Conditions (q : Query) : go (list Condition) :=
  st ← go_fold (collect (q_Buffer q)) (q_tokens q) (scan0, []); Ret st.2.

(** [strings.Contains] *)
Fixpoint isPrefix (p s : bytes) : bool := match p, s with [], _ => true | a :: p, b :: s => bool_decide (a = b) && isPrefix p s | _, _ => false end.
Fixpoint Contains (s sub : bytes) : bool := isPrefix sub s || match s with [] => false | _ :: s => Contains s sub end.

Section Match.
(** [int64(f)] of a float out of range depends on the machine. *)
Context (int64OutOfRange : spec_float -> Z).

Definition truncFloat (f : spec_float) : Z :=
  match f with
  | S754_zero _ => 0
  | S754_finite neg m ex =>
      let n := (if 0 <=? ex then Zpos m * 2 ^ ex else Zpos m / 2 ^ - ex) in
      let z := if neg then - n else n in
      if (z <? MinInt64) || (MaxInt64 <? z) then int64OutOfRange f else z
  | _ => int64OutOfRange f
  end.
Definition compareInt (o : Operator) (a b : Z) : bool :=
  match o with OpLessEqual => a <=? b | OpGreaterEqual => b <=? a | OpLess => a <? b | OpGreater => b <? a | OpEqual => a =? b | OpContains => false end.
Definition compareFloat (o : Operator) (a b : spec_float) : bool :=
  match o with OpLessEqual => SFleb a b | OpGreaterEqual => SFleb b a | OpLess => SFltb a b | OpGreater => SFltb b a | OpEqual => SFeqb a b | OpContains => false end.
(** [match]: the condition on the tags. *)
Definition match_ (tag : bytes) (o : Operator) (operand : Operand) (tags : gmap bytes bytes) : go bool :=
  match tags !! tag with
  | None => Ret false
  | Some v =>
      match operand with
      | OTime t => x ← orPanic "Failed to convert value from tag to time.Time" (if hasByte 84 v then parseTime v else parseDate v); Ret (compareInt o x t)
      | OFloat64 f => x ← orPanic "Failed to convert value from tag to float64" (ParseFloat v); Ret (compareFloat o x f)
      | OInt64 n =>
          x ← (if hasByte 46 v then f ← orPanic "Failed to convert value from tag to float64" (ParseFloat v); Ret (truncFloat f)
               else orPanic "Failed to convert value from tag to int64" (ParseInt v));
          Ret (compareInt o x n)
      | OString s => Ret (match o with OpEqual => bytes_eqb v s | OpContains => Contains v s | _ => false end)
      end
  end.
Fixpoint matchTokens (buffer : bytes) (tags : gmap bytes bytes) (l : list token32) (s : scan) : go bool :=
  match l with
  | [] => Ret true
  | t :: l =>
      '(s, o) ← scanToken buffer t s;
      match o with
      | Some v => b ← match_ (s_tag s) (s_op s) v tags; if b : bool then matchTokens buffer tags l s else Ret false
      | None => matchTokens buffer tags l s
      end
  end.
Definition Matches (q : Query) (tags : gmap bytes bytes) : go bool :=
  if bool_decide (tags = ∅) then Ret false else matchTokens (q_Buffer q) tags (q_tokens q) scan0.
End Match.

(** ** How rules read text *)

(** The rule reads [txt] before any [r] with [F r], and adds the tokens [k] of the position. *)
Definition eats (p : rule) (txt : list Z) (F : list Z -> Prop) (k : Z -> list token32) : Prop :=
  forall pos r ts, F r -> p (mkP pos (txt ++ r) ts) = Some (mkP (pos + zlen txt) r (ts ++ k pos)).
Definition fails (p : rule) (txt : list Z) (F : list Z -> Prop) : Prop := forall pos r ts, F r -> p (mkP pos (txt ++ r) ts) = None.
Definition quiet (_ : Z) : list token32 := [].
Definition anything (_ : list Z) : Prop := True.
(** The next rune is not in the class. *)
Definition stops (c : Z -> bool) (r : list Z) : Prop := c (match r with [] => endSymbol | x :: _ => x end) = false.

Lemma eats_ext p txt F k k' : eats p txt F k -> (forall pos, k pos = k' pos) -> eats p txt F k'.
Proof. intros He Hk pos r ts Hr. by rewrite He, Hk. Qed.
Lemma eats_mono p txt (F G : list Z -> Prop) k : (forall r, G r -> F r) -> eats p txt F k -> eats p txt G k.
Proof. intros HF He pos r ts Hr. apply He. auto. Qed.
Lemma eats_seq p q t1 t2 F1 F2 k1 k2 : eats p t1 F1 k1 -> eats q t2 F2 k2 -> (forall r, F2 r -> F1 (t2 ++ r)) ->
  eats (p >>> q) (t1 ++ t2) F2 (fun pos => k1 pos ++ k2 (pos + zlen t1)).
Proof.
  intros Hp Hq HF pos r ts Hr. unfold andThen. rewrite <- app_assoc, Hp by auto. cbn. rewrite Hq by done. unfold zlen. rewrite length_app, app_assoc. do 2 f_equal. lia.
Qed.
Lemma eats_named r p txt F k : eats p txt F k -> eats (named r p) txt F (fun pos => k pos ++ [mkToken r pos (pos + zlen txt)]).
Proof. intros Hp pos r' ts Hr. unfold named. rewrite Hp by done. cbn. unfold addTok. cbn. by rewrite <- app_assoc. Qed.
Lemma eats_left p q txt F k : eats p txt F k -> eats (p <|> q) txt F k.
Proof. intros Hp pos r ts Hr. unfold orElse. by rewrite Hp. Qed.
Lemma eats_right p q txt F k : fails p txt F -> eats q txt F k -> eats (p <|> q) txt F k.
Proof. intros Hf Hq pos r ts Hr. unfold orElse. rewrite Hf by done. by apply Hq. Qed.
Lemma eats_char c : eats (char c) [c] anything quiet.
Proof. intros pos r ts _. unfold char, cur, advance. cbn. by rewrite Z.eqb_refl, app_nil_r. Qed.
Lemma eats_range lo hi c : lo <= c <= hi -> eats (range lo hi) [c] anything quiet.
Proof.
  intros Hc pos r ts _. unfold range, cur, advance. cbn. rewrite (proj2 (Z.ltb_ge _ _)), (proj2 (Z.ltb_ge _ _)) by lia. cbn. by rewrite app_nil_r.
Qed.
Lemma fails_char c x txt F : x <> c -> fails (char c) (x :: txt) F.
Proof. intros Hx pos r ts _. unfold char, cur. cbn. by rewrite (proj2 (Z.eqb_neq _ _)). Qed.
Lemma fails_seq p q txt F : fails p txt F -> fails (p >>> q) txt F.
Proof. intros Hf pos r ts Hr. unfold andThen. by rewrite Hf. Qed.
Lemma fails_named r p txt F : fails p txt F -> fails (named r p) txt F.
Proof. intros Hf pos r' ts Hr. unfold named. by rewrite Hf. Qed.
Lemma fails_or p q txt F : fails p txt F -> fails q txt F -> fails (p <|> q) txt F.
Proof. intros Hp Hq pos r ts Hr. unfold orElse. rewrite Hp by done. by apply Hq. Qed.

(** A rule for one rune of a class, with the tokens it adds. *)
Record single (p : rule) (c : Z -> bool) (k : Z -> list token32) : Prop := mkSingle {
  single_eats : forall x, c x = true -> eats p [x] anything k;
  single_fails : forall s, c (cur s) = false -> p s = None }.
(** The tokens of [n] runes in a row. *)
Fixpoint tokens (k : Z -> list token32) (n : nat) (pos : Z) : list token32 := match n with O => [] | S n => k pos ++ tokens k n (pos + 1) end.

Lemma star_eats p c k txt : single p c k -> Forall (fun x => c x = true) txt -> eats (star p) txt (stops c) (tokens k (length txt)).
Proof.
  intros [He Hf] Htxt pos r ts Hr. unfold star. f_equal. cbn [rest].
  assert (Hg : forall fuel, (length txt <= fuel)%nat -> starLoop fuel p (mkP pos (txt ++ r) ts) = mkP (pos + zlen txt) r (ts ++ tokens k (length txt) pos)).
  { revert pos ts. induction Htxt as [|x txt Hx Htxt IH]; intros pos ts fuel Hfuel; cbn [app length tokens].
    - unfold zlen. cbn [length]. rewrite Z.add_0_r, app_nil_r. destruct fuel; cbn [starLoop]; [done|]. by rewrite (Hf (mkP pos r ts)).
    - destruct fuel as [|fuel]; [cbn in Hfuel; lia|]. cbn [starLoop]. change (x :: txt ++ r) with ([x] ++ txt ++ r). rewrite (He x Hx) by done.
      rewrite IH by (cbn in Hfuel; lia). unfold zlen. cbn [length]. rewrite app_assoc. f_equal. lia. }
  apply Hg. rewrite length_app. lia.
Qed.
Lemma plus_eats p c k x txt : single p c k -> c x = true -> Forall (fun x => c x = true) txt -> eats (plus p) (x :: txt) (stops c) (tokens k (S (length txt))).
Proof.
  intros Hs Hx Htxt. eapply eats_ext; [apply (eats_seq p (star p) [x] txt anything (stops c)); [by apply Hs|by apply star_eats|done]|]. done.
Qed.
Lemma single_char c : c <> endSymbol -> single (char c) (Z.eqb c) quiet.
Proof.
  intros Hc. split; [intros x E; apply Z.eqb_eq in E as <-; apply eats_char|]. intros s E. unfold char. by rewrite Z.eqb_sym, E.
Qed.
Lemma single_noneOf l : single (noneOf l) (fun x => negb (oneOf l x) && negb (x =? endSymbol)) quiet.
Proof.
  split.
  - intros x E pos r ts _. apply andb_true_iff in E as [E1 E2]. apply negb_true_iff in E1, E2. unfold noneOf, matchDot, cur, advance. cbn. rewrite E1, E2. by rewrite app_nil_r.
  - intros s E. unfold noneOf, matchDot. destruct (oneOf l (cur s)); [done|]. cbn in E. apply negb_false_iff in E. by rewrite E.
Qed.
Definition isDigitRune (x : Z) : bool := (48 <=? x) && (x <=? 57).
Lemma single_digit : single digit isDigitRune (fun pos => [mkToken ruledigit pos (pos + 1)]).
Proof.
  unfold isDigitRune. split.
  - intros x E. apply andb_true_iff in E as [E1%Z.leb_le E2%Z.leb_le]. eapply eats_ext; [apply eats_named, eats_range; lia|done].
  - intros s E. unfold digit, named, range. destruct (Z.ltb_spec (cur s) 48), (Z.ltb_spec 57 (cur s)); cbn; try done. rewrite (proj2 (Z.leb_le _ _)), (proj2 (Z.leb_le _ _)) in E by lia. done.
Qed.

(** ** Texts of the grammar *)

(** The tokens that [Conditions] and [Matches] pass over. *)
Definition noise (t : token32) : Prop :=
  match pegrule t with rulee | rulecondition | ruledigit | ruleyear | rulemonth | ruleday | ruleand => True | _ => False end.
Definition eatsNoise (p : rule) (txt : list Z) (F : list Z -> Prop) : Prop := exists k, eats p txt F k /\ forall pos, Forall noise (k pos).

Lemma noise_quiet p txt F : eats p txt F quiet -> eatsNoise p txt F.
Proof. intros He. exists quiet. split; [done|constructor]. Qed.
Lemma noise_seq p q t1 t2 F2 : eatsNoise p t1 anything -> eatsNoise q t2 F2 -> eatsNoise (p >>> q) (t1 ++ t2) F2.
Proof.
  intros (k1 & H1 & N1) (k2 & H2 & N2). eexists. split; [by apply (eats_seq p q t1 t2 anything F2)|]. intros pos. by apply Forall_app.
Qed.
Lemma noise_named r p txt F : noise (mkToken r 0 0) -> eatsNoise p txt F -> eatsNoise (named r p) txt F.
Proof. intros Hr (k & Hk & Nk). eexists. split; [by apply eats_named|]. intros pos. apply Forall_app. split; [done|]. by apply Forall_singleton. Qed.
Lemma noise_digit x : isDigitRune x = true -> eatsNoise digit [x] anything.
Proof. intros Hx. eexists. split; [by apply single_digit|]. intros pos. by apply Forall_singleton. Qed.
Lemma noise_or p q txt F : eatsNoise p txt F \/ fails p txt F /\ eatsNoise q txt F -> eatsNoise (p <|> q) txt F.
Proof. intros [(k & Hk & N)|[Hf (k & Hk & N)]]; exists k; (split; [|done]); [by apply eats_left|by apply eats_right]. Qed.

(** A date of the grammar, as runes. *)
Record ymdText := mkYmd { yt1 : Z; yt2 : Z; yt3 : Z; yt4 : Z; mt1 : Z; mt2 : Z; dt1 : Z; dt2 : Z }.
Definition ymdRunes (t : ymdText) : list Z := [yt1 t; yt2 t; yt3 t; yt4 t; 45; mt1 t; mt2 t; 45; dt1 t; dt2 t].
Definition ymdOK (t : ymdText) : Prop :=
  49 <= yt1 t <= 50 /\ isDigitRune (yt2 t) = true /\ isDigitRune (yt3 t) = true /\ isDigitRune (yt4 t) = true /\
  48 <= mt1 t <= 49 /\ isDigitRune (mt2 t) = true /\ 48 <= dt1 t <= 51 /\ isDigitRune (dt2 t) = true.
(** A time of the grammar: hour, minute and second, and the offset. *)
Record hmsText := mkHms { ht1 : Z; ht2 : Z; nt1 : Z; nt2 : Z; st1 : Z; st2 : Z }.
Definition hmsRunes (t : hmsText) : list Z := [84; ht1 t; ht2 t; 58; nt1 t; nt2 t; 58; st1 t; st2 t].
Definition hmsOK (t : hmsText) : Prop :=
  Forall (fun x => isDigitRune x = true) [ht1 t; ht2 t; nt1 t; nt2 t; st1 t; st2 t].
Inductive zoneText := ZUTC | ZOff (minus : bool) (a b c d : Z).
Definition zoneRunes (z : zoneText) : list Z := match z with ZUTC => [90] | ZOff m a b c d => [if m then 45 else 43; a; b; 58; c; d] end.
Definition zoneOK (z : zoneText) : Prop := match z with ZUTC => True | ZOff _ a b c d => Forall (fun x => isDigitRune x = true) [a; b; c; d] end.

Lemma noise_char c : eatsNoise (char c) [c] anything.
Proof. apply noise_quiet, eats_char. Qed.
Lemma noise_charOf c d x : x = c \/ x = d -> eatsNoise (char c <|> char d) [x] anything.
Proof.
  intros Hx. apply noise_or. destruct (decide (x = c)) as [->|Hne]; [left; apply noise_char|right]. split; [by apply fails_char|]. destruct Hx as [->| ->]; [done|apply noise_char].
Qed.
Lemma noise_year a b c d : 49 <= a <= 50 -> isDigitRune b = true -> isDigitRune c = true -> isDigitRune d = true -> eatsNoise year [a; b; c; d] anything.
Proof.
  intros Ha Hb Hc Hd. apply noise_named; [done|]. change [a; b; c; d] with ([a] ++ [b] ++ [c] ++ [d]).
  apply noise_seq; [apply noise_charOf; lia|]. apply noise_seq; [by apply noise_digit|]. apply noise_seq; by apply noise_digit.
Qed.
Lemma noise_month a b : 48 <= a <= 49 -> isDigitRune b = true -> eatsNoise month [a; b] anything.
Proof.
  intros Ha Hb. apply noise_named; [done|]. change [a; b] with ([a] ++ [b]). apply noise_seq; [apply noise_charOf; lia|by apply noise_digit].
Qed.
Lemma noise_day a b : 48 <= a <= 51 -> isDigitRune b = true -> eatsNoise day [a; b] anything.
Proof.
  intros Ha Hb. apply noise_named; [done|]. change [a; b] with ([a] ++ [b]). apply noise_seq; [|by apply noise_digit].
  apply noise_or. destruct (decide (a = 51)) as [->|]; [left; apply noise_char|right; split; [by apply fails_char|]].
  apply noise_or. destruct (decide (a = 50)) as [->|]; [left; apply noise_char|right; split; [by apply fails_char|]]. apply noise_charOf. lia.
Qed.
Lemma noise_ymd t : ymdOK t -> eatsNoise ymd (ymdRunes t) anything.
Proof.
  intros (? & ? & ? & ? & ? & ? & ? & ?). change (ymdRunes t) with ([yt1 t; yt2 t; yt3 t; yt4 t] ++ [45] ++ [mt1 t; mt2 t] ++ [45] ++ [dt1 t; dt2 t]).
  apply noise_seq; [by apply noise_year|]. apply noise_seq; [apply noise_char|]. apply noise_seq; [by apply noise_month|]. apply noise_seq; [apply noise_char|by apply noise_day].
Qed.
Lemma noise_two a b : isDigitRune a = true -> isDigitRune b = true -> eatsNoise twoDigits [a; b] anything.
Proof. intros Ha Hb. change [a; b] with ([a] ++ [b]). apply noise_seq; by apply noise_digit. Qed.
Lemma noise_zone z : zoneOK z -> eatsNoise offset (zoneRunes z) anything.
Proof.
  intros Hz. apply noise_or. destruct z as [|m a b c d]; cbn [zoneRunes].
  - right. split; [|apply noise_char]. by apply fails_seq, fails_or; apply fails_char.
  - left. unfold zoneOK in Hz. rewrite !Forall_cons in Hz. change [if m then 45 else 43; a; b; 58; c; d] with ([if m then 45 else 43] ++ [a; b] ++ [58] ++ [c; d]).
    apply noise_seq; [apply noise_charOf; destruct m; auto|]. apply noise_seq; [apply noise_two; tauto|]. apply noise_seq; [apply noise_char|apply noise_two; tauto].
Qed.
Lemma noise_clock t : hmsOK t -> eatsNoise clock (hmsRunes t) anything.
Proof.
  intros Ht. unfold hmsOK in Ht. rewrite !Forall_cons in Ht.
  change (hmsRunes t) with ([84] ++ [ht1 t; ht2 t] ++ [58] ++ [nt1 t; nt2 t] ++ [58] ++ [st1 t; st2 t]).
  apply noise_seq; [apply noise_char|]. apply noise_seq; [apply noise_two; tauto|]. apply noise_seq; [apply noise_char|]. apply noise_seq; [apply noise_two; tauto|].
  apply noise_seq; [apply noise_char|]. apply noise_two; tauto.
Qed.

(** *** Operands *)

(** The follower of an operand: a space or the closing quote. *)
Definition follow (r : list Z) : Prop := exists c r', r = c :: r' /\ (c = 32 \/ c = 34).
(** The rule reads [pre] and [txt] and leaves the text [txt] and the rule as its last tokens. *)
Definition eatsText (p : rule) (r : pegRule) (pre txt : list Z) : Prop := exists k, (forall pos, Forall noise (k pos)) /\
  eats p (pre ++ txt) follow (fun pos => k pos ++ [mkToken rulePegText (pos + zlen pre) (pos + zlen pre + zlen txt); mkToken r pos (pos + zlen (pre ++ txt))]).

Lemma text_named r p pre q txt F : eats p pre anything quiet -> (exists k, eats q txt F k /\ forall pos, Forall noise (k pos)) -> (forall x, follow x -> F x) ->
  eatsText (named r (p >>> named rulePegText q)) r pre txt.
Proof.
  intros Hp (k & Hq & Hk) HF. exists (fun pos => k (pos + zlen pre)). split; [done|].
  eapply eats_ext; [eapply eats_named, (eats_seq p _ pre txt anything follow); [exact Hp|eapply eats_named, eats_mono; [exact HF|exact Hq]|done]|].
  intros pos. cbn. by rewrite <- app_assoc.
Qed.
Lemma eats_nil : eats (fun s => Some s) [] anything quiet.
Proof. intros pos r ts _. unfold zlen. cbn. by rewrite Z.add_0_r, app_nil_r. Qed.
Lemma text_plain r q txt F : (exists k, eats q txt F k /\ forall pos, Forall noise (k pos)) -> (forall x, follow x -> F x) -> eatsText (named r (named rulePegText q)) r [] txt.
Proof.
  intros (k & Hq & Hk) HF. exists k. split; [done|]. eapply eats_ext; [eapply eats_named, eats_named, eats_mono; [exact HF|exact Hq]|].
  intros pos. unfold zlen at 2. cbn [length]. rewrite <- app_assoc, Z.add_0_r. done.
Qed.
Lemma eats_word l : eats (word l) (l.*2) anything quiet.
Proof.
  induction l as [|[a b] l IH]; [apply eats_nil|]. cbn [word fmap list_fmap snd]. change (b :: (l.*2)) with ([b] ++ l.*2).
  assert (Hl : eats (letter a b) [b] anything quiet).
  { destruct (decide (a = b)) as [->|Hne]; [apply eats_left, eats_char|]. apply eats_right; [by apply fails_char|apply eats_char]. }
  eapply eats_ext; [apply (eats_seq (letter a b) _ [b] _ anything anything); [exact Hl|exact IH|done]|done].
Qed.

(** The operands of the grammar, as runes. *)
Inductive lit :=
  | LInt (ds : list Z)
  | LFrac (d : Z) (ds fs : list Z)
  | LValue (v : list Z)
  | LDate (t : ymdText)
  | LTime (t : ymdText) (h : hmsText) (z : zoneText).
Definition digits (l : list Z) : Prop := Forall (fun x => isDigitRune x = true) l.
Definition valueRune (x : Z) : bool := negb (oneOf [34; 39] x) && negb (x =? endSymbol).
Definition litOK (l : lit) : Prop :=
  match l with
  | LInt ds => ds = [48] \/ exists d ds', ds = d :: ds' /\ 49 <= d <= 57 /\ digits ds'
  | LFrac d ds fs => 49 <= d <= 57 /\ digits ds /\ digits fs
  | LValue v => Forall (fun x => valueRune x = true) v
  | LDate t => ymdOK t
  | LTime t h z => ymdOK t /\ hmsOK h /\ zoneOK z
  end.
Definition litRule (l : lit) : pegRule := match l with LInt _ | LFrac _ _ _ => rulenumber | LValue _ => rulevalue | LDate _ => ruledate | LTime _ _ _ => ruletime end.
Definition litPre (l : lit) : list Z := match l with LDate _ => [68; 65; 84; 69; 32] | LTime _ _ _ => [84; 73; 77; 69; 32] | _ => [] end.
Definition litTxt (l : lit) : list Z :=
  match l with
  | LInt ds => ds
  | LFrac d ds fs => (d :: ds) ++ 46 :: fs
  | LValue v => [39] ++ v ++ [39]
  | LDate t => ymdRunes t
  | LTime t h z => ymdRunes t ++ hmsRunes h ++ zoneRunes z
  end.

Lemma tokens_noise k n pos : (forall p, Forall noise (k p)) -> Forall noise (tokens k n pos).
Proof. intros Hk. revert pos. induction n as [|n IH]; intros pos; cbn [tokens]; [constructor|]. apply Forall_app. auto. Qed.
Lemma tokens_quiet n pos : tokens quiet n pos = [].
Proof. revert pos. induction n as [|n IH]; intros pos; [done|]. apply IH. Qed.
Lemma noise_digits ds : digits ds -> exists k, eats (star digit) ds (stops isDigitRune) k /\ forall pos, Forall noise (k pos).
Proof.
  intros Hd. eexists. split; [apply star_eats; [apply single_digit|exact Hd]|]. intros pos. apply tokens_noise. intros p. by apply Forall_singleton.
Qed.
Lemma optional_some p txt F k : eats p txt F k -> eats (optional p) txt F k.
Proof. intros Hp pos r ts Hr. unfold optional. by rewrite Hp. Qed.
Lemma optional_none p F : fails p [] F -> eats (optional p) [] F quiet.
Proof. intros Hp pos r ts Hr. unfold optional. rewrite (Hp pos r ts Hr). cbn. unfold zlen. cbn. by rewrite Z.add_0_r, app_nil_r. Qed.
Lemma follow_stops c r : follow r -> c 32 = false -> c 34 = false -> stops c r.
Proof. intros (x & r' & -> & [->| ->]) H1 H2; done. Qed.

Lemma number_int ds : litOK (LInt ds) -> eatsText number rulenumber [] ds.
Proof.
  intros [->|(d & ds' & -> & Hd & Hds)]; apply (text_plain _ _ _ follow); try done.
  - exists quiet. split; [|constructor]. apply eats_left. eapply eats_mono; [|apply eats_char]. done.
  - destruct (noise_digits ds' Hds) as (k & Hk & Nk).
    assert (Ho : eats (optional (char 46 >>> star digit)) [] follow quiet).
    { apply optional_none. intros pos r ts (c & r' & -> & Hc). unfold andThen, char, cur. cbn. by rewrite (proj2 (Z.eqb_neq _ _)) by lia. }
    pose proof (eats_seq _ _ ds' [] (stops isDigitRune) follow k quiet Hk Ho (fun r Hr => follow_stops isDigitRune r Hr eq_refl eq_refl)) as Hs. rewrite app_nil_r in Hs.
    eexists. split.
    + apply eats_right; [apply fails_char; lia|]. change (d :: ds') with ([d] ++ ds'). eapply (eats_seq _ _ [d] ds' anything follow); [apply eats_range; lia|exact Hs|done].
    + intros pos. cbn. rewrite app_nil_r. done.
Qed.
Lemma number_frac d ds fs : litOK (LFrac d ds fs) -> eatsText number rulenumber [] ((d :: ds) ++ 46 :: fs).
Proof.
  intros (Hd & Hds & Hfs). apply (text_plain _ _ _ follow); [|done]. destruct (noise_digits ds Hds) as (k1 & Hk1 & Nk1). destruct (noise_digits fs Hfs) as (k2 & Hk2 & Nk2). eexists. split.
  - apply eats_right; [apply fails_char; lia|]. change ((d :: ds) ++ 46 :: fs) with ([d] ++ ds ++ [46] ++ fs).
    eapply (eats_seq _ _ [d] _ anything follow); [apply eats_range; lia| |done]. eapply (eats_seq _ _ ds _ (stops isDigitRune) follow); [exact Hk1| |done].
    apply optional_some. eapply (eats_seq _ _ [46] fs anything follow); [apply eats_char| |done]. eapply eats_mono; [|exact Hk2]. intros r Hr. by apply follow_stops.
  - intros pos. cbn. apply Forall_app. auto.
Qed.
Lemma value_text v : litOK (LValue v) -> eatsText value rulevalue [] ([39] ++ v ++ [39]).
Proof.
  intros Hv. apply (text_plain _ _ _ anything); [|done]. eexists. split.
  - eapply (eats_seq _ _ [39] (v ++ [39]) anything anything); [apply eats_char| |done].
    eapply (eats_seq _ _ v [39] (stops valueRune) anything); [apply star_eats; [apply single_noneOf|exact Hv]|apply eats_char|]. done.
  - intros pos. cbn. rewrite tokens_quiet. constructor.
Qed.
Lemma keyword_eats l : eats (keyword l) (l.*2 ++ [32]) anything quiet.
Proof. eapply eats_ext; [apply (eats_seq _ _ _ _ anything anything); [apply eats_word|apply eats_char|done]|done]. Qed.
Lemma date_text t : litOK (LDate t) -> eatsText date ruledate [68; 65; 84; 69; 32] (ymdRunes t).
Proof. intros Ht. apply (text_named _ _ _ _ _ anything); [apply keyword_eats|by apply noise_ymd|done]. Qed.
Lemma time_text t h z : litOK (LTime t h z) -> eatsText time ruletime [84; 73; 77; 69; 32] (ymdRunes t ++ hmsRunes h ++ zoneRunes z).
Proof.
  intros (Ht & Hh & Hz). apply (text_named _ _ _ _ _ anything); [apply keyword_eats| |done].
  apply noise_seq; [by apply noise_ymd|]. apply noise_seq; [by apply noise_clock|by apply noise_zone].
Qed.

Definition isValue (l : lit) : bool := match l with LValue _ => true | _ => false end.
Definition litRunes (l : lit) : list Z := litPre l ++ litTxt l.
(** The first rune decides the rule. *)
Lemma operand_text l : litOK l -> isValue l = false -> eatsText operand (litRule l) (litPre l) (litTxt l).
Proof.
  intros Hl Hv.
  assert (Hd : forall p r pre txt c t, pre ++ txt = c :: t -> (forall s, cur s = c -> operand s = p s) -> eatsText p r pre txt -> eatsText operand r pre txt).
  { intros p r pre txt c t E Hp (k & Nk & Hk). exists k. split; [done|]. intros pos r' ts Hr. rewrite Hp by (unfold cur; cbn; by rewrite E). by apply Hk. }
  assert (Hnum : forall c s, cur s = c -> 48 <= c <= 57 -> operand s = number s).
  { intros c s <- Hc. unfold operand, oneOf. cbn. rewrite !(proj2 (Z.eqb_neq _ _)) by lia. done. }
  destruct l as [ds|d ds fs|v|t|t h z]; cbn [litRule litPre litTxt]; [| |done| |].
  - assert (Hc : exists c t, ds = c :: t /\ 48 <= c <= 57) by (destruct Hl as [->|(d & ds' & -> & Hd' & _)]; eexists _, _; (split; [done|lia])).
    destruct Hc as (c & t & E & Hc). eapply (Hd number); [exact E|intros s Es; by eapply Hnum|by apply number_int].
  - destruct Hl as (Hd' & Hl). eapply (Hd number _ [] _ d); [done|intros s Es; eapply Hnum; [done|lia]|by apply number_frac].
  - eapply (Hd date _ _ _ 68); [done|intros s Es; unfold operand; by rewrite Es|by apply date_text].
  - eapply (Hd time _ _ _ 84); [done|intros s Es; unfold operand; by rewrite Es|by apply time_text].
Qed.
Lemma litRunes_first l : litOK l -> exists c t, litRunes l = c :: t /\ (c = 39 <-> isValue l = true) /\ c <> 61 /\ c <> 32.
Proof.
  intros Hl. unfold litRunes. destruct l as [ds|d ds fs|v|t|t h z]; cbn [litPre litTxt app isValue].
  - destruct Hl as [->|(d & ds' & -> & Hd & _)]; eexists _, _; (split; [done|]); (split; [|lia]); (split; [lia|done]).
  - destruct Hl as (Hd & _). eexists _, _. split; [done|]. split; [|lia]. split; [lia|done].
  - eexists _, _. split; [done|]. done.
  - eexists _, _. split; [done|]. done.
  - eexists _, _. split; [done|]. done.
Qed.
Lemma operandOrValue_text l : litOK l -> eatsText operandOrValue (litRule l) (litPre l) (litTxt l).
Proof.
  intros Hl. destruct (litRunes_first l Hl) as (c & t & E & Hc & _ & _).
  assert (Ht : exists p, eatsText p (litRule l) (litPre l) (litTxt l) /\ forall s, cur s = c -> operandOrValue s = p s).
  { unfold operandOrValue. destruct (isValue l) eqn:Ev.
    - exists value. split; [|intros s ->; by rewrite (proj2 Hc eq_refl)]. destruct l; try done. by apply value_text.
    - exists operand. split; [by apply operand_text|]. intros s ->. rewrite (proj2 (Z.eqb_neq _ _)); [done|]. intros E39. discriminate (proj1 Hc E39). }
  destruct Ht as (p & (k & Nk & Hk) & Hp). exists k. split; [done|]. intros pos r' ts Hr. fold (litRunes l). rewrite Hp by (unfold cur; cbn; by rewrite E). by apply Hk.
Qed.

(** *** Conditions *)

Definition opRunes (o : Operator) : list Z :=
  match o with
  | OpLessEqual => [60; 61] | OpGreaterEqual => [62; 61] | OpLess => [60] | OpGreater => [62] | OpEqual => [61]
  | OpContains => [67; 79; 78; 84; 65; 73; 78; 83]
  end.
Definition opRule (o : Operator) : pegRule :=
  match o with OpLessEqual => rulele | OpGreaterEqual => rulege | OpLess => rulel | OpGreater => ruleg | OpEqual => ruleequal | OpContains => rulecontains end.
(** A condition as text: spaces may stand around the operator. *)
Record cond := mkCond { c_tag : list Z; c_n1 : nat; c_op : Operator; c_n2 : nat; c_lit : lit }.
Definition tagRune (x : Z) : bool := negb (oneOf [60; 62; 61; 39; 34; 41; 40; 92; 13; 10; 9; 32] x) && negb (x =? endSymbol).
Definition condOK (c : cond) : Prop :=
  c_tag c <> [] /\ Forall (fun x => tagRune x = true) (c_tag c) /\ litOK (c_lit c) /\
  match c_op c with OpContains => isValue (c_lit c) = true /\ (0 < c_n1 c)%nat | OpEqual => True | _ => isValue (c_lit c) = false end.
Definition spaceRunes (n : nat) : list Z := replicate n 32.
Definition afterTag (c : cond) : list Z := opRunes (c_op c) ++ spaceRunes (c_n2 c) ++ litRunes (c_lit c).
Definition condRunes (c : cond) : list Z := c_tag c ++ spaceRunes (c_n1 c) ++ afterTag c.

Lemma spaces_eats n : eats spaces (spaceRunes n) (stops (Z.eqb 32)) quiet.
Proof.
  eapply eats_ext; [apply (star_eats _ (Z.eqb 32) quiet); [by apply single_char|]|intros; apply tokens_quiet]. apply Forall_replicate. done.
Qed.
(** The tokens of an operator and its operand. *)
Definition opTokens (c : cond) (k : Z -> list token32) (pos : Z) : list token32 :=
  let b := pos + zlen (opRunes (c_op c)) + Z.of_nat (c_n2 c) in
  [mkToken (opRule (c_op c)) pos (pos + zlen (opRunes (c_op c)))] ++ k b ++
  [mkToken rulePegText (b + zlen (litPre (c_lit c))) (b + zlen (litPre (c_lit c)) + zlen (litTxt (c_lit c))); mkToken (litRule (c_lit c)) b (b + zlen (litRunes (c_lit c)))].

Lemma op_eats c p q : condOK c -> eats p (opRunes (c_op c)) anything quiet -> eatsText q (litRule (c_lit c)) (litPre (c_lit c)) (litTxt (c_lit c)) ->
  exists k, (forall pos, Forall noise (k pos)) /\ eats (named (opRule (c_op c)) p >>> spaces >>> q) (afterTag c) follow (opTokens c k).
Proof.
  intros (_ & _ & Hl & _) Hp (k & Nk & Hk). exists k. split; [done|]. destruct (litRunes_first _ Hl) as (x & t & E & _ & _ & Hx).
  eapply eats_ext; [eapply (eats_seq _ _ (opRunes (c_op c)) _ anything follow); [by apply eats_named|eapply (eats_seq _ _ (spaceRunes (c_n2 c)) _ (stops (Z.eqb 32)) follow); [apply spaces_eats|exact Hk|]|done]|].
  - intros r _. fold (litRunes (c_lit c)). rewrite E. refine (proj2 (Z.eqb_neq 32 x) _). congruence.
  - intros pos. unfold opTokens, quiet. cbn [app]. assert (Hz : zlen (spaceRunes (c_n2 c)) = Z.of_nat (c_n2 c)) by (unfold zlen, spaceRunes; by rewrite length_replicate).
    rewrite Hz. done.
Qed.

Definition opTail : rule := (named rulele (char 60 >>> char 61) >>> spaces >>> operand) <|> (named rulege (char 62 >>> char 61) >>> spaces >>> operand) <|> simpleOp.
(** What follows an operator of one rune does not start with [=]. *)
Lemma fails_two a b x t F : x <> a \/ (exists y t', t = y :: t' /\ y <> b) -> fails (char a >>> char b) (x :: t) F.
Proof.
  intros Hx pos r ts _. unfold andThen, char, cur. cbn. destruct (Z.eqb_spec x a) as [->|]; [|done]. destruct Hx as [?|(y & t' & -> & Hy)]; [done|].
  unfold advance. cbn. by rewrite (proj2 (Z.eqb_neq _ _) Hy).
Qed.
Lemma simple_eats c p : (forall x t, afterTag c = x :: t -> forall s, cur s = x -> simpleOp s = p s) -> afterTag c <> [] ->
  forall k, eats p (afterTag c) follow k -> eats simpleOp (afterTag c) follow k.
Proof.
  intros Hp Hne k Hk pos r ts Hr. destruct (afterTag c) as [|x t] eqn:E; [done|]. rewrite (Hp x t eq_refl) by done. by apply Hk.
Qed.
Lemma opTail_eats c : condOK c -> exists k, (forall pos, Forall noise (k pos)) /\ eats opTail (afterTag c) follow (opTokens c k).
Proof.
  intros Hc. pose proof Hc as (_ & _ & Hl & Ho). destruct (litRunes_first _ Hl) as (x & t & E & _ & Hx & _).
  assert (Hnext : exists y t', spaceRunes (c_n2 c) ++ litRunes (c_lit c) = y :: t' /\ y <> 61) by (rewrite E; destruct (c_n2 c); by eexists _, _).
  assert (H1 : forall o a b x t, named o (char a >>> char b) = named o (char a >>> char b) -> afterTag c = x :: t -> x <> a \/ (exists y t', t = y :: t' /\ y <> b) ->
    fails (named o (char a >>> char b) >>> spaces >>> operand) (afterTag c) follow) by (intros o a b x' t' _ -> Hf; by apply fails_seq, fails_named, fails_two).
  assert (Hone : forall o, opRunes (c_op c) = [o] -> exists t', afterTag c = o :: t' /\ exists y t'', t' = y :: t'' /\ y <> 61).
  { intros o Eo. unfold afterTag. rewrite Eo. by eexists. }
  assert (Hne : afterTag c <> []) by (unfold afterTag; destruct (c_op c); done).
  destruct (c_op c) eqn:Eop.
  - destruct (op_eats c (char 60 >>> char 61) operand Hc) as (k & Nk & Hk); [rewrite Eop; eapply eats_ext; [apply (eats_seq _ _ [60] [61] anything anything); [apply eats_char|apply eats_char|done]|done]|by apply operand_text|].
    rewrite Eop in Hk. exists k. split; [done|]. by apply eats_left.
  - destruct (op_eats c (char 62 >>> char 61) operand Hc) as (k & Nk & Hk); [rewrite Eop; eapply eats_ext; [apply (eats_seq _ _ [62] [61] anything anything); [apply eats_char|apply eats_char|done]|done]|by apply operand_text|].
    rewrite Eop in Hk. exists k. split; [done|]. apply eats_right; [|by apply eats_left]. eapply H1; [done|by unfold afterTag; rewrite Eop|by left].
  - destruct (Hone 60 eq_refl) as (t' & Et & Ht'). destruct (op_eats c (char 60) operand Hc) as (k & Nk & Hk); [rewrite Eop; apply eats_char|by apply operand_text|]. rewrite Eop in Hk.
    exists k. split; [done|]. apply eats_right; [eapply H1; [done|exact Et|by right]|]. apply eats_right; [eapply H1; [done|exact Et|by left]|].
    eapply simple_eats; [|done|exact Hk]. rewrite Et. intros ? ? [= <- <-] s Es. unfold simpleOp. by rewrite Es.
  - destruct (Hone 62 eq_refl) as (t' & Et & Ht'). destruct (op_eats c (char 62) operand Hc) as (k & Nk & Hk); [rewrite Eop; apply eats_char|by apply operand_text|]. rewrite Eop in Hk.
    exists k. split; [done|]. apply eats_right; [eapply H1; [done|exact Et|by left]|]. apply eats_right; [eapply H1; [done|exact Et|by right]|].
    eapply simple_eats; [|done|exact Hk]. rewrite Et. intros ? ? [= <- <-] s Es. unfold simpleOp. by rewrite Es.
  - destruct (Hone 61 eq_refl) as (t' & Et & Ht'). destruct (op_eats c (char 61) operandOrValue Hc) as (k & Nk & Hk); [rewrite Eop; apply eats_char|by apply operandOrValue_text|]. rewrite Eop in Hk.
    exists k. split; [done|]. apply eats_right; [eapply H1; [done|exact Et|by left]|]. apply eats_right; [eapply H1; [done|exact Et|by left]|].
    eapply simple_eats; [|done|exact Hk]. rewrite Et. intros ? ? [= <- <-] s Es. unfold simpleOp. by rewrite Es.
  - destruct (op_eats c containsWord value Hc) as (k & Nk & Hk); [rewrite Eop; apply (eats_word [(99, 67); (111, 79); (110, 78); (116, 84); (97, 65); (105, 73); (110, 78); (115, 83)])| |].
    { destruct Ho as [Ho _]. destruct (c_lit c); try done. by apply value_text. }
    rewrite Eop in Hk. assert (Et : exists t', afterTag c = 67 :: t') by (unfold afterTag; rewrite Eop; by eexists). destruct Et as (t' & Et).
    exists k. split; [done|]. apply eats_right; [eapply H1; [done|exact Et|by left]|]. apply eats_right; [eapply H1; [done|exact Et|by left]|].
    eapply simple_eats; [|done|exact Hk]. rewrite Et. intros ? ? [= <- <-] s Es. unfold simpleOp. by rewrite Es.
Qed.

(** The tokens of a condition. *)
Definition condTokens (c : cond) (k : Z -> list token32) (pos : Z) : list token32 :=
  let n := zlen (c_tag c) in
  [mkToken rulePegText pos (pos + n); mkToken ruletag pos (pos + n)] ++ opTokens c k (pos + n + Z.of_nat (c_n1 c)) ++ [mkToken rulecondition pos (pos + zlen (condRunes c))].
Lemma tag_eats t : t <> [] -> Forall (fun x => tagRune x = true) t ->
  eats tag t (stops tagRune) (fun pos => [mkToken rulePegText pos (pos + zlen t); mkToken ruletag pos (pos + zlen t)]).
Proof.
  intros Hne Ht. destruct t as [|x t]; [done|]. apply Forall_cons in Ht as [Hx Ht].
  eapply eats_ext; [apply eats_named, eats_named, plus_eats; [apply single_noneOf|done|done]|]. intros pos. cbv beta. rewrite tokens_quiet. done.
Qed.
Lemma condition_eats c : condOK c -> exists k, (forall pos, Forall noise (k pos)) /\ eats condition (condRunes c) follow (condTokens c k).
Proof.
  intros Hc. destruct (opTail_eats c Hc) as (k & Nk & Hk). pose proof Hc as (Hne & Ht & _ & Ho). exists k. split; [done|].
  assert (Hf : exists x t, afterTag c = x :: t /\ x <> 32 /\ (tagRune x = true -> (0 < c_n1 c)%nat)).
  { unfold afterTag. destruct (c_op c); cbn; eexists _, _; (split; [done|]); (split; [done|]); try done. intros _. tauto. }
  destruct Hf as (x & t & Ef & Hx & Hxt).
  eapply eats_ext; [eapply eats_named, (eats_seq _ _ (c_tag c) _ (stops tagRune) follow); [by apply tag_eats|eapply (eats_seq spaces opTail (spaceRunes (c_n1 c)) _ (stops (Z.eqb 32)) follow); [apply spaces_eats|exact Hk|]|]|].
  - intros r _. rewrite Ef. refine (proj2 (Z.eqb_neq 32 x) _). congruence.
  - intros r _. unfold stops. destruct (c_n1 c) as [|n1]; [|done]. cbn. rewrite Ef. cbn. destruct (tagRune x) eqn:Ex; [|done]. specialize (Hxt eq_refl). lia.
  - intros pos. unfold condTokens, quiet. cbn [app]. assert (Hz : zlen (spaceRunes (c_n1 c)) = Z.of_nat (c_n1 c)) by (unfold zlen, spaceRunes; by rewrite length_replicate).
    rewrite Hz. by unfold condRunes.
Qed.

(** *** Texts as bytes, and what they stand for *)

Definition ascii (l : list Z) : bytes := Z_byte <$> l.
Definition isAscii (l : list Z) : Prop := Forall (fun x => 0 <= x < 128) l.
Lemma byte_ascii x : 0 <= x < 128 -> byte_Z (Z_byte x) = x.
Proof. intros Hx. rewrite byte_Z_of_byte. apply Z.mod_small. lia. Qed.
Lemma runes_ascii l : isAscii l -> runes (ascii l) = l.
Proof.
  unfold runes. induction 1 as [|x l Hx Hl IH]; [done|]. cbn [ascii fmap list_fmap runesFrom]. unfold decodeRune. rewrite byte_ascii, (proj2 (Z.ltb_lt _ _)) by lia.
  cbn [Nat.sub]. by f_equal.
Qed.
Lemma ascii_app l1 l2 : ascii (l1 ++ l2) = ascii l1 ++ ascii l2.
Proof. apply fmap_app. Qed.
Lemma slice_ascii pre txt post b : b = zlen pre -> slice (ascii (pre ++ txt ++ post)) b (b + zlen txt) = Ret (ascii txt).
Proof.
  intros ->. rewrite slice_ret by (unfold zlen, ascii; rewrite ?length_fmap, ?length_app; lia). rewrite !ascii_app. unfold zlen. rewrite Nat2Z.id.
  rewrite drop_app_length' by (unfold ascii; by rewrite length_fmap). rewrite take_app_length'; [done|]. unfold ascii. rewrite length_fmap. lia.
Qed.

Definition decimal (acc : Z) (ds : list Z) : Z := fold_left (fun acc x => acc * 10 + (x - 48)) ds acc.
Definition num2 (a b : Z) : Z := (a - 48) * 10 + (b - 48).
Definition yearOf (t : ymdText) : Z := decimal 0 [yt1 t; yt2 t; yt3 t; yt4 t].
Definition monthOf (t : ymdText) : Z := num2 (mt1 t) (mt2 t).
Definition dayOf (t : ymdText) : Z := num2 (dt1 t) (dt2 t).
(** The date is one of the calendar, and the time of day is one of a clock. *)
Definition inCalendar (t : ymdText) : bool := (1 <=? monthOf t) && (monthOf t <=? 12) && dayOK (yearOf t) (monthOf t) (dayOf t).
Definition onClock (h : hmsText) : bool := (num2 (ht1 h) (ht2 h) <=? 23) && (num2 (nt1 h) (nt2 h) <=? 59) && (num2 (st1 h) (st2 h) <=? 59).
Definition zoneSeconds (z : zoneText) : Z :=
  match z with ZUTC => 0 | ZOff m a b c d => let off := (num2 a b * 60 + num2 c d) * 60 in if m then - off else off end.
Definition daySeconds (t : ymdText) : Z := GoTime.daysFrom (yearOf t) (monthOf t) (dayOf t) * 86400.
(** The operand that a literal stands for; one that no operand stands for is a panic. *)
Definition litValue (l : lit) : go Operand :=
  match l with
  | LInt ds => if decimal 0 ds <=? MaxInt64 then Ret (OInt64 (decimal 0 ds)) else Panic (PanicMsg "got error while trying to parse as int64")
  | LFrac d ds fs => f ← orPanic "got error while trying to parse as float64" (ParseFloat (ascii (litTxt l))); Ret (OFloat64 f)
  | LValue v => Ret (OString (ascii v))
  | LDate t => if inCalendar t then Ret (OTime (daySeconds t * 1000000000)) else Panic (PanicMsg "got error while trying to parse as time.Time / '2006-01-02'")
  | LTime t h z =>
      if inCalendar t && onClock h
      then Ret (OTime ((daySeconds t + num2 (ht1 h) (ht2 h) * 3600 + num2 (nt1 h) (nt2 h) * 60 + num2 (st1 h) (st2 h) - zoneSeconds z) * 1000000000))
      else Panic (PanicMsg "got error while trying to parse as time.Time / RFC3339")
  end.

Lemma digit_rune x : isDigitRune x = true -> 48 <= x <= 57.
Proof. unfold isDigitRune. intros [E1%Z.leb_le E2%Z.leb_le]%andb_true_iff. lia. Qed.
Lemma digit_byte x : isDigitRune x = true -> GoTime.isDigit (Z_byte x) = true /\ GoTime.digitVal (Z_byte x) = x - 48.
Proof.
  intros Hx%digit_rune. unfold GoTime.isDigit, GoTime.digitVal. rewrite byte_ascii by lia. split; [|done]. apply andb_true_iff. split; apply Z.leb_le; lia.
Qed.
Lemma digitsVal_ascii ds acc : digits ds -> GoTime.digitsVal acc (ascii ds) = Some (decimal acc ds).
Proof.
  intros Hd. revert acc. induction Hd as [|x ds Hx Hd IH]; intros acc; [done|]. cbn [ascii fmap list_fmap GoTime.digitsVal]. destruct (digit_byte x Hx) as [-> ->]. apply IH.
Qed.
Lemma atoi_ascii d ds : digits (d :: ds) -> GoTime.atoi (ascii (d :: ds)) = Some (decimal 0 (d :: ds)).
Proof.
  intros Hd. pose proof (Forall_inv Hd) as Hx%digit_rune. rewrite <- digitsVal_ascii by done. cbn [ascii fmap list_fmap]. unfold GoTime.atoi.
  rewrite byte_ascii, (proj2 (Z.eqb_neq _ _)), (proj2 (Z.eqb_neq _ _)) by lia. done.
Qed.
Lemma decimal_nonneg ds acc : digits ds -> 0 <= acc -> 0 <= decimal acc ds.
Proof. intros Hd. revert acc. induction Hd as [|x ds Hx%digit_rune Hd IH]; intros acc Ha; [done|]. apply IH. lia. Qed.
Lemma hasByte_digits ds : digits ds -> hasByte 46 (ascii ds) = false.
Proof.
  induction 1 as [|x ds Hx%digit_rune Hd IH]; [done|]. cbn [ascii fmap list_fmap hasByte existsb]. rewrite byte_ascii, (proj2 (Z.eqb_neq _ _)) by lia. exact IH.
Qed.
Lemma hasByte_point l1 l2 : hasByte 46 (ascii (l1 ++ 46 :: l2)) = true.
Proof. unfold hasByte. rewrite ascii_app, existsb_app. cbn [ascii fmap list_fmap existsb]. rewrite byte_ascii by lia. cbn. apply orb_true_r. Qed.
Lemma getnum_two a b s fixed : isDigitRune a = true -> isDigitRune b = true -> GoTime.getnum (Z_byte a :: Z_byte b :: s) fixed = Some (num2 a b, s).
Proof.
  intros Ha Hb. unfold GoTime.getnum. destruct (digit_byte a Ha) as [-> ->], (digit_byte b Hb) as [-> ->]. done.
Qed.
Lemma num2_nonneg a b : isDigitRune a = true -> isDigitRune b = true -> 0 <= num2 a b.
Proof. intros Ha%digit_rune Hb%digit_rune. unfold num2. lia. Qed.
Lemma between_runes lo hi x : 48 <= lo -> hi <= 57 -> lo <= x <= hi -> isDigitRune x = true.
Proof. intros. unfold isDigitRune. apply andb_true_iff. split; apply Z.leb_le; lia. Qed.

Lemma dateOf_ascii t s : ymdOK t -> dateOf (ascii (ymdRunes t) ++ s) =
  if (1 <=? monthOf t) && (monthOf t <=? 12) then Some (yearOf t, monthOf t, dayOf t, s) else None.
Proof.
  intros (H1 & H2 & H3 & H4 & H5 & H6 & H7 & H8). pose proof (between_runes 49 50 _ ltac:(lia) ltac:(lia) H1) as H1'.
  pose proof (between_runes 48 49 _ ltac:(lia) ltac:(lia) H5) as H5'. pose proof (between_runes 48 51 _ ltac:(lia) ltac:(lia) H7) as H7'.
  assert (Ey : GoTime.getYear (ascii (ymdRunes t) ++ s) = Some (yearOf t, ascii (drop 4 (ymdRunes t)) ++ s)).
  { unfold GoTime.getYear. cbn [ymdRunes ascii fmap list_fmap app length Nat.ltb Nat.leb drop]. rewrite (proj1 (digit_byte _ H1')).
    change (take 4 _) with (ascii [yt1 t; yt2 t; yt3 t; yt4 t]). rewrite atoi_ascii by (repeat constructor; assumption). done. }
  unfold dateOf. rewrite Ey. cbn [mbind option_bind ymdRunes drop ascii fmap list_fmap app]. change (Z_byte 45) with Byte.x2d.
  unfold GoTime.skip. rewrite decide_True by done. cbn [mbind option_bind]. rewrite getnum_two by done. unfold GoTime.inRange. fold (monthOf t).
  destruct (_ && _); [|done]. cbn [mbind option_bind]. rewrite decide_True by done. cbn [mbind option_bind]. by rewrite getnum_two.
Qed.
Lemma parseDate_ascii t : ymdOK t -> parseDate (ascii (ymdRunes t)) = if inCalendar t then Some (daySeconds t * 1000000000) else None.
Proof.
  intros Ht. unfold parseDate, inCalendar. rewrite <- (app_nil_r (ascii _)), dateOf_ascii by done. destruct ((_ <=? _) && (_ <=? _)); [|done]. cbn [mbind option_bind andb]. done.
Qed.
Lemma zone_ascii z : zoneOK z -> fraction (ascii (zoneRunes z)) = Some (0, ascii (zoneRunes z)) /\ zone (ascii (zoneRunes z)) = Some (zoneSeconds z, []).
Proof.
  destruct z as [|m a b c d]; [done|]. intros Hz. unfold zoneOK in Hz. rewrite !Forall_cons in Hz. destruct Hz as (Ha & Hb & Hc & Hd & _).
  assert (Ha2 : GoTime.atoi [Z_byte a; Z_byte b] = Some (num2 a b)) by (apply (atoi_ascii a [b]); repeat constructor; assumption).
  assert (Hc2 : GoTime.atoi [Z_byte c; Z_byte d] = Some (num2 c d)) by (apply (atoi_ascii c [d]); repeat constructor; assumption).
  cbn [zoneRunes ascii fmap list_fmap]. unfold fraction, zone. change (Z_byte 58) with Byte.x3a. rewrite Ha2, Hc2. by destruct m.
Qed.
Lemma inRange_two lo hi a b s fixed : isDigitRune a = true -> isDigitRune b = true -> lo = 0 ->
  GoTime.inRange lo hi (GoTime.getnum (Z_byte a :: Z_byte b :: s) fixed) = if num2 a b <=? hi then Some (num2 a b, s) else None.
Proof. intros Ha Hb ->. rewrite getnum_two by done. unfold GoTime.inRange. by rewrite (proj2 (Z.leb_le 0 (num2 a b)) (num2_nonneg a b Ha Hb)). Qed.
Lemma parseTime_ascii t h z : ymdOK t -> hmsOK h -> zoneOK z -> parseTime (ascii (ymdRunes t ++ hmsRunes h ++ zoneRunes z)) =
  if inCalendar t && onClock h then Some ((daySeconds t + num2 (ht1 h) (ht2 h) * 3600 + num2 (nt1 h) (nt2 h) * 60 + num2 (st1 h) (st2 h) - zoneSeconds z) * 1000000000) else None.
Proof.
  intros Ht Hh Hz. destruct (zone_ascii z Hz) as [Ef Ez]. unfold hmsOK in Hh. rewrite !Forall_cons in Hh. destruct Hh as (? & ? & ? & ? & ? & ? & _).
  unfold parseTime, inCalendar, onClock. rewrite ascii_app, dateOf_ascii by done. destruct ((_ <=? _) && (_ <=? _)); [|done].
  cbn [mbind option_bind andb]. rewrite ascii_app. cbn [hmsRunes ascii fmap list_fmap app]. change (Z_byte 84) with Byte.x54. change (Z_byte 58) with Byte.x3a. fold (ascii (zoneRunes z)).
  unfold GoTime.skip. rewrite decide_True by done. cbn [mbind option_bind]. rewrite inRange_two by done.
  destruct (_ <=? 23); cbn [mbind option_bind andb]; [|by rewrite andb_false_r]. rewrite decide_True by done. cbn [mbind option_bind]. rewrite inRange_two by done.
  destruct (_ <=? 59); cbn [mbind option_bind andb]; [|by rewrite andb_false_r]. rewrite decide_True by done. cbn [mbind option_bind]. rewrite inRange_two by done.
  destruct (_ <=? 59); cbn [mbind option_bind andb]; [|by rewrite andb_false_r]. rewrite Ef. cbn [mbind option_bind]. rewrite Ez. cbn [mbind option_bind]. rewrite andb_true_r.
  destruct (dayOK _ _ _); [|done]. f_equal. unfold daySeconds. lia.
Qed.

(** *** Reading the tokens *)

Lemma collect_quiet buffer t st : noise t -> collect buffer t st = Ret st.
Proof. destruct st as [s cs]. unfold noise, collect, scanToken. by destruct (pegrule t). Qed.
Lemma collect_noise buffer l st : Forall noise l -> go_fold (collect buffer) l st = Ret st.
Proof. induction 1 as [|t l Ht Hl IH]; [done|]. cbn [go_fold]. by rewrite collect_quiet. Qed.
Lemma collect_text buffer x y s cs : collect buffer (mkToken rulePegText x y) (s, cs) = Ret (mkScan x y (s_tag s) (s_op s), cs).
Proof. done. Qed.
Lemma collect_tag buffer x y s cs g : slice buffer (s_begin s) (s_end s) = Ret g -> collect buffer (mkToken ruletag x y) (s, cs) = Ret (mkScan (s_begin s) (s_end s) g (s_op s), cs).
Proof. intros E. unfold collect, scanToken. cbn [pegrule fst]. by rewrite E. Qed.
Lemma collect_op buffer o x y s cs : collect buffer (mkToken (opRule o) x y) (s, cs) = Ret (setOp o s, cs).
Proof. by destruct o. Qed.
Lemma collect_operand buffer t s cs v : scanToken buffer t s = (v ← v; Ret (s, Some v)) -> collect buffer t (s, cs) = (v ← v; Ret (s, cs ++ [mkCondition (s_tag s) (s_op s) v])).
Proof. intros E. unfold collect. cbn [fst]. rewrite E. by destruct v. Qed.

Lemma slice_at (buf pre txt post : list Z) a b : buf = pre ++ txt ++ post -> a = zlen pre -> b = a + zlen txt -> slice (ascii buf) a b = Ret (ascii txt).
Proof. intros -> Ha ->. by apply slice_ascii. Qed.
Lemma lit_scan l buf pre post s x y : litOK l -> buf = pre ++ litTxt l ++ post -> s_begin s = zlen pre -> s_end s = zlen pre + zlen (litTxt l) ->
  scanToken (ascii buf) (mkToken (litRule l) x y) s = (v ← litValue l; Ret (s, Some v)).
Proof.
  intros Hl Hbuf Hb He. unfold scanToken. cbn [pegrule].
  assert (Hs : slice (ascii buf) (s_begin s) (s_end s) = Ret (ascii (litTxt l))) by (eapply slice_at; [exact Hbuf|done|lia]).
  destruct l as [ds|d ds fs|v|t|t h z]; cbn [litRule litValue].
  - rewrite Hs. cbn [mbind go_mbind litTxt]. assert (Hd : digits ds /\ ds <> []).
    { destruct Hl as [->|(d & ds' & -> & Hd & Hds)]; (split; [|done]); [by repeat constructor|]. constructor; [|done]. apply (between_runes 49 57); lia. }
    destruct Hd as [Hd Hne]. rewrite hasByte_digits by done. destruct ds as [|d ds]; [done|]. unfold ParseInt. rewrite atoi_ascii by done. cbn [mbind option_bind].
    pose proof (decimal_nonneg _ 0 Hd ltac:(lia)). rewrite (proj2 (Z.ltb_ge _ _)) by (unfold MinInt64; lia). cbn [orb]. rewrite Z.ltb_antisym. by destruct (_ <=? MaxInt64).
  - rewrite Hs. cbn [mbind go_mbind]. change (litTxt (LFrac d ds fs)) with ((d :: ds) ++ 46 :: fs) at 1. rewrite hasByte_point. by destruct (ParseFloat _).
  - rewrite (slice_at buf (pre ++ [39]) v ([39] ++ post)); [done| | |].
    + rewrite Hbuf. cbn [litTxt]. by rewrite <- !app_assoc.
    + rewrite Hb. unfold zlen. rewrite length_app. cbn. lia.
    + rewrite He, Hb. unfold zlen. cbn [litTxt]. rewrite !length_app. cbn. lia.
  - rewrite Hs. cbn [mbind go_mbind litTxt]. rewrite parseDate_ascii by done. by destruct (inCalendar t).
  - rewrite Hs. cbn [mbind go_mbind litTxt]. destruct Hl as (? & ? & ?). rewrite parseTime_ascii by done. by destruct (inCalendar t && onClock h).
Qed.

(** The condition that a text stands for. *)
Definition condValue (c : cond) : go Condition := v ← litValue (c_lit c); Ret (mkCondition (ascii (c_tag c)) (c_op c) v).
Definition reads (buffer : bytes) (toks : list token32) (vs : go (list Condition)) : Prop := forall st,
  match vs with
  | Ret cs => exists s, go_fold (collect buffer) toks st = Ret (s, st.2 ++ cs)
  | Panic p => go_fold (collect buffer) toks st = Panic p
  end.
Lemma reads_noise buffer l : Forall noise l -> reads buffer l (Ret []).
Proof. intros Hl [s cs]. exists s. rewrite collect_noise by done. by rewrite app_nil_r. Qed.
Lemma reads_app buffer l1 l2 v1 v2 : reads buffer l1 v1 -> reads buffer l2 v2 -> reads buffer (l1 ++ l2) (a ← v1; b ← v2; Ret (a ++ b)).
Proof.
  intros H1 H2 st. specialize (H1 st). rewrite go_fold_app. destruct v1 as [a|p]; cbn [mbind go_mbind]; [|by rewrite H1]. destruct H1 as (s & E). rewrite E. cbn [mbind go_mbind].
  specialize (H2 (s, st.2 ++ a)). destruct v2 as [b|p]; cbn [mbind go_mbind snd] in *; [|done]. destruct H2 as (s' & ->). exists s'. by rewrite app_assoc.
Qed.
Lemma condition_reads c k buf pre post : condOK c -> (forall pos, Forall noise (k pos)) -> buf = pre ++ condRunes c ++ post ->
  reads (ascii buf) (condTokens c k (zlen pre)) (v ← condValue c; Ret [v]).
Proof.
  intros (_ & _ & Hl & _) Hk Hbuf [s cs]. unfold condTokens, opTokens. cbn zeta.
  set (b := zlen pre + zlen (c_tag c) + Z.of_nat (c_n1 c) + zlen (opRunes (c_op c)) + Z.of_nat (c_n2 c)).
  assert (Ht : slice (ascii buf) (zlen pre) (zlen pre + zlen (c_tag c)) = Ret (ascii (c_tag c))).
  { eapply (slice_at buf pre); [|done|done]. rewrite Hbuf. unfold condRunes. by rewrite <- app_assoc. }
  rewrite <- !app_assoc. cbn [app go_fold]. rewrite collect_text. cbn [mbind go_mbind]. erewrite collect_tag by exact Ht. cbn [mbind go_mbind]. rewrite collect_op. cbn [mbind go_mbind].
  rewrite go_fold_app, collect_noise by done. cbn [mbind go_mbind go_fold]. rewrite collect_text. cbn [mbind go_mbind s_tag s_op setOp].
  erewrite collect_operand; [|apply (lit_scan (c_lit c) buf (pre ++ c_tag c ++ spaceRunes (c_n1 c) ++ opRunes (c_op c) ++ spaceRunes (c_n2 c) ++ litPre (c_lit c)) post);
    [ done | rewrite Hbuf; unfold condRunes, afterTag, litRunes; by rewrite <- !app_assoc | | ]].
  - unfold condValue. destruct (litValue (c_lit c)) as [v|p]; cbn [mbind go_mbind]; [|done]. rewrite collect_quiet by done. cbn [mbind go_mbind snd]. by eexists.
  - cbn [s_begin]. unfold b, zlen, spaceRunes. rewrite !length_app, !length_replicate. lia.
  - cbn [s_end]. unfold b, zlen, spaceRunes. rewrite !length_app, !length_replicate. lia.
Qed.

(** *** Queries *)

(** A further condition: one space and more around the [AND]. *)
Record more := mkMore { m_n1 : nat; m_n2 : nat; m_cond : cond }.
Definition moreRunes (m : more) : list Z := spaceRunes (S (m_n1 m)) ++ [65; 78; 68] ++ spaceRunes (S (m_n2 m)) ++ condRunes (m_cond m).
Definition moreTokens (m : more) (k : Z -> list token32) (pos : Z) : list token32 :=
  let b := pos + Z.of_nat (S (m_n1 m)) in
  [mkToken ruleand b (b + 3)] ++ condTokens (m_cond m) k (b + 3 + Z.of_nat (S (m_n2 m))).
Definition queryRunes (c : cond) (ms : list more) : list Z := condRunes c ++ mjoin (moreRunes <$> ms).

Lemma plus_spaces n : eats (plus (char 32)) (spaceRunes (S n)) (stops (Z.eqb 32)) quiet.
Proof.
  eapply eats_ext; [apply (plus_eats _ (Z.eqb 32) quiet 32 (spaceRunes n)); [by apply single_char|done|]|intros; apply (tokens_quiet (S _))]. by apply Forall_replicate.
Qed.
Lemma condRunes_first c : condOK c -> exists x t, condRunes c = x :: t /\ x <> 32.
Proof.
  intros (Hne & Ht & _). unfold condRunes. destruct (c_tag c) as [|x t]; [done|]. exists x. eexists. split; [done|]. apply Forall_cons in Ht as [Hx _]. by intros ->.
Qed.
Lemma more_eats m : condOK (m_cond m) -> exists k, (forall pos, Forall noise (k pos)) /\ eats andCondition (moreRunes m) follow (moreTokens m k).
Proof.
  intros Hc. destruct (condition_eats _ Hc) as (k & Nk & Hk). exists k. split; [done|]. destruct (condRunes_first _ Hc) as (x & t & E & Hx).
  eapply eats_ext; [eapply (eats_seq _ _ (spaceRunes (S (m_n1 m))) _ (stops (Z.eqb 32)) follow); [apply plus_spaces|
    eapply (eats_seq _ _ [65; 78; 68] _ anything follow); [apply eats_named, (eats_word [(97, 65); (110, 78); (100, 68)])|
      eapply (eats_seq _ _ (spaceRunes (S (m_n2 m))) _ (stops (Z.eqb 32)) follow); [apply plus_spaces|exact Hk|]|done]|done]|].
  - intros r _. rewrite E. refine (proj2 (Z.eqb_neq 32 x) _). congruence.
  - intros pos. unfold moreTokens, quiet, zlen, spaceRunes. rewrite !length_replicate. cbn [app length]. reflexivity.
Qed.

Fixpoint condValues (cs : list cond) : go (list Condition) :=
  match cs with [] => Ret [] | c :: cs => a ← (v ← condValue c; Ret [v]); b ← condValues cs; Ret (a ++ b) end.
Lemma follow_more ms r : follow (mjoin (moreRunes <$> ms) ++ 34 :: r).
Proof. destruct ms as [|m ms]; cbn; [eexists _, _; by split; [|right]|eexists _, _; by split; [|left]]. Qed.
Lemma more_loop ms : Forall (fun m => condOK (m_cond m)) ms -> forall fuel pos ts r, (length ms <= fuel)%nat -> exists toks,
  starLoop fuel andCondition (mkP pos (mjoin (moreRunes <$> ms) ++ 34 :: r) ts) = mkP (pos + zlen (mjoin (moreRunes <$> ms))) (34 :: r) (ts ++ toks) /\
  forall buf pre post, buf = pre ++ mjoin (moreRunes <$> ms) ++ post -> pos = zlen pre -> reads (ascii buf) toks (condValues (m_cond <$> ms)).
Proof.
  induction 1 as [|m ms Hm Hms IH]; intros fuel pos ts r Hfuel.
  - exists []. split; [|intros; apply reads_noise; constructor]. unfold zlen. cbn. rewrite Z.add_0_r, app_nil_r. by destruct fuel.
  - change (mjoin (moreRunes <$> m :: ms)) with (moreRunes m ++ mjoin (moreRunes <$> ms)). destruct fuel as [|fuel]; [cbn in Hfuel; lia|]. destruct (more_eats m Hm) as (k & Nk & Hk).
    destruct (IH fuel (pos + zlen (moreRunes m)) (ts ++ moreTokens m k pos) r ltac:(cbn in Hfuel; lia)) as (toks & E & Hr). exists (moreTokens m k pos ++ toks). split.
    + cbn [starLoop]. rewrite <- app_assoc, Hk by apply follow_more. rewrite E. rewrite zlen_app, app_assoc. f_equal. lia.
    + intros buf pre post Hbuf Hpos. cbn [condValues fmap list_fmap]. rewrite Hpos. apply reads_app; cycle 1.
      * apply (Hr buf (pre ++ moreRunes m) post); [by rewrite Hbuf, <- !app_assoc|by rewrite zlen_app, Hpos].
      * unfold moreTokens. cbn zeta. cbn [app]. intros st. cbn [go_fold]. rewrite collect_quiet by done. cbn [mbind go_mbind].
        set (pre' := pre ++ spaceRunes (S (m_n1 m)) ++ [65; 78; 68] ++ spaceRunes (S (m_n2 m))).
        assert (Ep : zlen pre + Z.of_nat (S (m_n1 m)) + 3 + Z.of_nat (S (m_n2 m)) = zlen pre') by (unfold pre', zlen, spaceRunes; rewrite !length_app, !length_replicate; cbn [length]; lia).
        rewrite Ep. apply (condition_reads _ _ _ _ (mjoin (moreRunes <$> ms) ++ post)); [done|done|]. rewrite Hbuf. unfold pre', moreRunes. by rewrite <- !app_assoc.
Qed.

Definition queryOK (c : cond) (ms : list more) : Prop := condOK c /\ Forall (fun m => condOK (m_cond m)) ms /\ isAscii (queryRunes c ms).
(** The query of a text, up to what its tokens are. *)
Lemma New_query c ms : queryOK c ms -> exists k toks, let buf := [34] ++ queryRunes c ms ++ [34] in
  New (ascii (queryRunes c ms)) = Some (mkQuery (ascii (queryRunes c ms)) (ascii buf) (condTokens c k 1 ++ toks)) /\ (forall pos, Forall noise (k pos)) /\
  reads (ascii buf) toks (condValues (m_cond <$> ms)).
Proof.
  intros (Hc & Hms & Ha). destruct (condition_eats c Hc) as (k & Nk & Hk). unfold queryRunes in *.
  set (more := mjoin (moreRunes <$> ms)) in *. set (text := condRunes c ++ more) in *.
  destruct (more_loop ms Hms (length (more ++ 34 :: [endSymbol])) (1 + zlen (condRunes c)) (condTokens c k 1) [endSymbol]) as (toks & E & Hr).
  { unfold more. rewrite length_app. transitivity (length (mjoin (moreRunes <$> ms))); [|lia]. clear. induction ms as [|m ms IH]; [done|]. change (mjoin (moreRunes <$> m :: ms)) with (moreRunes m ++ mjoin (moreRunes <$> ms)). rewrite length_app. cbn [moreRunes spaceRunes replicate app length]. lia. }
  exists k, (toks ++ [mkToken rulee 0 (1 + zlen (condRunes c) + zlen more + 1)]). cbn zeta. split; [|split; [done|]].
  - unfold New, Parse. change ([Byte.x22] ++ ascii text ++ [Byte.x22]) with (ascii [34] ++ ascii text ++ ascii [34]). rewrite <- !ascii_app.
    rewrite runes_ascii by (apply Forall_app; split; [by repeat constructor|]; apply Forall_app; split; [done|by repeat constructor]).
    unfold text. rewrite <- !app_assoc. unfold e, named, andThen at 1. cbn [app]. change (char 34 (mkP 0 (34 :: ?l) [])) with (Some (mkP 1 l [])).
    cbn [mbind option_bind]. unfold andThen. rewrite Hk by apply follow_more. cbn [mbind option_bind app]. unfold star. cbn [rest]. fold more in E. rewrite E.
    cbn [mbind option_bind]. unfold char, cur, advance, atEnd, matchDot. cbn. rewrite <- app_assoc. done.
  - intros st. specialize (Hr ([34] ++ text ++ [34]) ([34] ++ condRunes c) [34]). pose proof (Hr ltac:(unfold text; by rewrite <- !app_assoc) ltac:(rewrite zlen_app; done) st) as Hst.
    rewrite go_fold_app. destruct (condValues _) as [cs|p]; [|by rewrite Hst]. destruct Hst as (s & ->). exists s. cbn [mbind go_mbind]. by apply collect_noise, Forall_singleton.
Qed.

(** C39: a query text made of conditions joined by AND, in ASCII, is accepted,
    and its conditions are those of the text: tag, operator and operand each. *)
Theorem query_roundtrip c ms : queryOK c ms -> exists q, New (ascii (queryRunes c ms)) = Some q /\ q_str q = ascii (queryRunes c ms) /\
  Conditions q = condValues (c :: (m_cond <$> ms)).
Proof.
  intros Hq. destruct (New_query c ms Hq) as (k & toks & E & Nk & Hr). eexists. split; [exact E|]. split; [done|]. unfold Conditions. cbn [q_Buffer q_tokens condValues].
  assert (Hall : reads (ascii ([34] ++ queryRunes c ms ++ [34])) (condTokens c k 1 ++ toks) (condValues (c :: (m_cond <$> ms)))).
  { apply reads_app; [|done]. apply (condition_reads c k _ [34] (mjoin (moreRunes <$> ms) ++ [34])); [apply Hq|done|]. unfold queryRunes. by rewrite <- !app_assoc. }
  specialize (Hall (scan0, [])). cbn [condValues] in Hall. destruct (a ← _; _) as [cs|p]; [|by rewrite Hall]. destruct Hall as (s & ->). done.
Qed.

(** The conditions one after the other, up to the first that does not hold. *)
Fixpoint matchAll (oor : spec_float -> Z) (tags : gmap bytes bytes) (cs : list Condition) : go bool :=
  match cs with [] => Ret true | c :: cs => b ← match_ oor (Tag c) (Op c) (Operand_ c) tags; if b : bool then matchAll oor tags cs else Ret false end.
Lemma collect_grows buffer l s cs s' cs' : go_fold (collect buffer) l (s, cs) = Ret (s', cs') -> exists new, cs' = cs ++ new.
Proof.
  revert s cs. induction l as [|t l IH]; intros s cs E; [injection E as <- <-; exists []; by rewrite app_nil_r|]. cbn [go_fold] in E. apply bind_ret_inv in E as ([s1 cs1] & E1 & E2).
  destruct (IH _ _ E2) as (new & ->). unfold collect in E1. cbn [fst snd] in E1. apply bind_ret_inv in E1 as ([s2 o] & _ & [= <- <-]).
  destruct o as [v|]; eexists; [by rewrite <- app_assoc|reflexivity].
Qed.
Lemma matchTokens_collect oor buffer tags l s cs s' new : go_fold (collect buffer) l (s, cs) = Ret (s', cs ++ new) -> matchTokens oor buffer tags l s = matchAll oor tags new.
Proof.
  revert s cs new. induction l as [|t l IH]; intros s cs new E.
  - injection E as _ E. rewrite <- (app_nil_r cs) in E at 1. apply app_inv_head in E as <-. done.
  - cbn [go_fold] in E. apply bind_ret_inv in E as ([s1 cs1] & E1 & E2). unfold collect in E1. cbn [fst snd] in E1. apply bind_ret_inv in E1 as ([s2 o] & E1 & [= <- <-]).
    cbn [matchTokens]. rewrite E1. cbn [mbind go_mbind]. destruct o as [v|]; [|by apply (IH _ cs)].
    destruct (collect_grows _ _ _ _ _ _ E2) as (n2 & En). rewrite <- app_assoc in En. apply app_inv_head in En as ->. cbn [app matchAll Tag Op Operand_].
    destruct (match_ _ _ _ _ _) as [[|]|]; [|done|done]. cbn [mbind go_mbind]. apply (IH _ (cs ++ [mkCondition (s_tag s2) (s_op s2) v])). by rewrite <- app_assoc.
Qed.
(** [Matches] reads the tokens by itself; where [Conditions] returns, it is
    the conjunction of those conditions, evaluated from the left up to the
    first that fails, and no query matches the empty set of tags. *)
Theorem Matches_Conditions oor q cs tags : Conditions q = Ret cs -> Matches oor q tags = if bool_decide (tags = ∅) then Ret false else matchAll oor tags cs.
Proof.
  unfold Conditions, Matches. intros E. apply bind_ret_inv in E as ([s cs'] & E & [= <-]). case_bool_decide; [done|]. by apply (matchTokens_collect _ _ _ _ _ [] s).
Qed.

(** ** Panics *)

Definition plain (t : token32) : Prop := match pegrule t with rulevalue | rulenumber | ruletime | ruledate => False | _ => True end.
Lemma scan_plain buffer t s : plain t -> match scanToken buffer t s with Ret (_, o) => o = None | Panic _ => True end.
Proof. unfold plain, scanToken. destruct (pegrule t); try done. by destruct (slice _ _ _). Qed.
Lemma match_first oor buffer tags A t l s cs p : Forall plain A -> go_fold (collect buffer) (A ++ [t]) (s, cs) = Panic p ->
  matchTokens oor buffer tags (A ++ t :: l) s = Panic p.
Proof.
  assert (Hc : forall t s, collect buffer t (s, cs) = '(s, o) ← scanToken buffer t s; Ret (s, match o with Some v => cs ++ [mkCondition (s_tag s) (s_op s) v] | None => cs end)) by done.
  intros HA. revert s. induction HA as [|a A Ha HA IH]; intros s E; cbn [app go_fold matchTokens] in *; rewrite Hc in E.
  - destruct (scanToken buffer t s) as [[s' o]|p']; [done|]. by injection E as ->.
  - pose proof (scan_plain buffer a s Ha) as Hs. destruct (scanToken buffer a s) as [[s' o]|p']; [|by injection E as ->]. subst o. by apply IH.
Qed.
Lemma noise_plain l : Forall noise l -> Forall plain l.
Proof. intros Hl. eapply Forall_impl; [exact Hl|]. intros t. unfold noise, plain. by destruct (pegrule t). Qed.
Lemma condTokens_split c k pos : (forall pos, Forall noise (k pos)) -> exists A t u, Forall plain A /\ noise u /\ condTokens c k pos = A ++ [t; u].
Proof.
  intros Hk. unfold condTokens, opTokens. cbn zeta. eexists ([_; _] ++ [_] ++ k _ ++ [_]), _, _. rewrite <- !app_assoc. cbn [app]. split; [|split; [|reflexivity]]; [|done].
  repeat constructor; [by destruct (c_op c)|]. apply Forall_app. split; [by apply noise_plain|by repeat constructor].
Qed.
(** C40: the grammar accepts operands that no value stands for (a number of
    2^63 and more, the 45th day of a month).  A query that starts with such a
    condition is accepted, and then [Conditions], and [Matches] on any event
    with a tag, panic. *)
Theorem accepted_query_panics oor c ms p tags : queryOK c ms -> litValue (c_lit c) = Panic p -> tags <> ∅ -> exists q, New (ascii (queryRunes c ms)) = Some q /\
  Conditions q = Panic p /\ Matches oor q tags = Panic p.
Proof.
  intros Hq Hp Ht. destruct (New_query c ms Hq) as (k & toks & E & Nk & _). eexists. split; [exact E|].
  assert (Hv : (v ← condValue c; Ret [v]) = Panic p) by (unfold condValue; by rewrite Hp).
  pose proof (condition_reads c k ([34] ++ queryRunes c ms ++ [34]) [34] (mjoin (moreRunes <$> ms) ++ [34]) (proj1 Hq) Nk) as Hr.
  specialize (Hr ltac:(unfold queryRunes; by rewrite <- !app_assoc) (scan0, [])). rewrite Hv in Hr. change (zlen [34]) with 1 in Hr.
  split; [unfold Conditions; cbn [q_Buffer q_tokens]; rewrite go_fold_app; by rewrite Hr|].
  unfold Matches. rewrite bool_decide_false by done. cbn [q_Buffer q_tokens]. destruct (condTokens_split c k 1 Nk) as (A & t & u & HA & Hu & Es). rewrite Es in *.
  rewrite <- app_assoc. cbn [app]. apply (match_first _ _ _ _ _ _ _ []); [done|]. change [t; u] with ([t] ++ [u]) in Hr. rewrite (app_assoc A [t] [u]), go_fold_app in Hr.
  destruct (go_fold _ (A ++ [t]) _) as [st|]; [|exact Hr]. cbn [mbind go_mbind go_fold] in Hr. by rewrite collect_quiet in Hr.
Qed.

(** ** Loops *)

(** A rule that reads at least one rune. *)
Definition advancing (p : rule) : Prop := forall s s', p s = Some s' -> (length (rest s') < length (rest s))%nat.
Definition shrinking (p : rule) : Prop := forall s s', p s = Some s' -> (length (rest s') <= length (rest s))%nat.
Lemma advancing_shrinking p : advancing p -> shrinking p.
Proof. intros Hp s s' E. specialize (Hp s s' E). lia. Qed.
Lemma star_loop_stops p fuel s : advancing p -> (length (rest s) <= fuel)%nat -> p (starLoop fuel p s) = None /\ (length (rest (starLoop fuel p s)) <= length (rest s))%nat.
Proof.
  intros Hp. revert s. induction fuel as [|fuel IH]; intros s Hf; cbn [starLoop].
  - split; [|done]. destruct (p s) as [s'|] eqn:E; [|done]. specialize (Hp _ _ E). lia.
  - destruct (p s) as [s'|] eqn:E; [|by split]. specialize (Hp _ _ E). destruct (IH s') as [H1 H2]; [lia|]. split; [done|lia].
Qed.
Lemma star_shrinking p : advancing p -> shrinking (star p).
Proof. intros Hp s s' [= <-]. by apply star_loop_stops. Qed.
Lemma char_advancing c : c <> endSymbol -> advancing (char c).
Proof. intros Hc s s'. unfold char, cur, advance. destruct (rest s) as [|x t]; [destruct (Z.eqb_spec endSymbol c); [by subst|done]|]. destruct (x =? c); [|done]. intros [= <-]. cbn. lia. Qed.
Lemma range_advancing lo hi : hi < endSymbol -> advancing (range lo hi).
Proof.
  intros Hc s s'. unfold range, cur, advance. destruct (rest s) as [|x t]; [rewrite (proj2 (Z.ltb_lt hi endSymbol) Hc), orb_true_r; done|]. destruct (_ || _); [done|]. intros [= <-]. cbn. lia.
Qed.
Lemma noneOf_advancing l : advancing (noneOf l).
Proof.
  intros s s'. unfold noneOf, matchDot, cur, advance. destruct (oneOf _ _); [done|]. destruct (rest s) as [|x t]; [done|]. destruct (_ =? _); [done|]. intros [= <-]. cbn. lia.
Qed.
Lemma seq_advancing p q : advancing p -> shrinking q -> advancing (p >>> q).
Proof. intros Hp Hq s s'. unfold andThen. destruct (p s) as [s1|] eqn:E; [|done]. cbn. intros E2. specialize (Hp _ _ E). specialize (Hq _ _ E2). lia. Qed.
Lemma seq_shrinking p q : shrinking p -> shrinking q -> shrinking (p >>> q).
Proof. intros Hp Hq s s'. unfold andThen. destruct (p s) as [s1|] eqn:E; [|done]. cbn. intros E2. specialize (Hp _ _ E). specialize (Hq _ _ E2). lia. Qed.
Lemma or_shrinking p q : shrinking p -> shrinking q -> shrinking (p <|> q).
Proof. intros Hp Hq s s'. unfold orElse. destruct (p s) as [s1|] eqn:E; [intros [= <-]; by apply Hp|apply Hq]. Qed.
Lemma named_shrinking r p : shrinking p -> shrinking (named r p).
Proof. intros Hp s s'. unfold named. destruct (p s) as [s1|] eqn:E; [|done]. intros [= <-]. exact (Hp _ _ E). Qed.
Lemma named_advancing r p : advancing p -> advancing (named r p).
Proof. intros Hp s s'. unfold named. destruct (p s) as [s1|] eqn:E; [|done]. intros [= <-]. exact (Hp _ _ E). Qed.
Lemma optional_shrinking p : shrinking p -> shrinking (optional p).
Proof. intros Hp s s' [= <-]. destruct (p s) as [s1|] eqn:E; [exact (Hp _ _ E)|done]. Qed.
Lemma word_shrinking l : Forall (fun ab : Z * Z => ab.1 <> endSymbol /\ ab.2 <> endSymbol) l -> shrinking (word l).
Proof.
  induction 1 as [|[a b] l [Ha Hb] Hl IH]; cbn [word]; [by intros s s' [= <-]|].
  apply seq_shrinking; [|done]. by apply or_shrinking; apply advancing_shrinking, char_advancing.
Qed.
Lemma if_shrinking (b : pstate -> bool) p q : shrinking p -> shrinking q -> shrinking (fun s => if b s then p s else q s).
Proof. intros Hp Hq s s'. destruct (b s); [apply Hp|apply Hq]. Qed.
#[local] Hint Resolve star_shrinking char_advancing range_advancing noneOf_advancing seq_advancing seq_shrinking or_shrinking named_shrinking named_advancing
  optional_shrinking word_shrinking if_shrinking : peg.
#[local] Hint Extern 5 (shrinking (char _)) => apply advancing_shrinking, char_advancing; discriminate : peg.
#[local] Hint Extern 5 (shrinking (range _ _)) => apply advancing_shrinking, range_advancing; reflexivity : peg.
#[local] Hint Extern 5 (shrinking (noneOf _)) => apply advancing_shrinking, noneOf_advancing : peg.
#[local] Hint Extern 5 (_ <> endSymbol) => discriminate : peg.
#[local] Hint Extern 5 (_ < endSymbol) => reflexivity : peg.
#[local] Hint Extern 5 (Forall _ _) => (repeat constructor; discriminate) : peg.

Lemma andCondition_advancing : advancing andCondition.
Proof.
  assert (H32 : advancing (plus (char 32))) by (unfold plus; auto 10 with peg).
  unfold andCondition. apply seq_advancing; [done|]. apply seq_shrinking; [auto with peg|]. apply seq_shrinking; [by apply advancing_shrinking|].
  unfold condition, simpleOp, operandOrValue, operand, containsWord, date, time, number, value, ymd, year, month, day, clock, offset, twoDigits, digit, keyword, tag, spaces, plus.
  auto 60 with peg.
Qed.
(** The loops of the parser run until their rule fails: every rule that is
    repeated reads at least one rune each time, and the bound is the number of
    the runes left. *)
Theorem parser_loops_end s : exists s1 s2 s3 s4 s5, star (char 32) s = Some s1 /\ char 32 s1 = None /\ star digit s = Some s2 /\ digit s2 = None /\
  star (noneOf [34; 39]) s = Some s3 /\ noneOf [34; 39] s3 = None /\
  star (noneOf [60; 62; 61; 39; 34; 41; 40; 92; 13; 10; 9; 32]) s = Some s4 /\ noneOf [60; 62; 61; 39; 34; 41; 40; 92; 13; 10; 9; 32] s4 = None /\
  star andCondition s = Some s5 /\ andCondition s5 = None.
Proof.
  assert (Hs : forall p, advancing p -> exists s', star p s = Some s' /\ p s' = None) by (intros p Hp; eexists; split; [done|by apply star_loop_stops]).
  destruct (Hs (char 32)) as (s1 & ? & ?); [auto with peg|]. destruct (Hs digit) as (s2 & ? & ?); [unfold digit; auto with peg|].
  destruct (Hs (noneOf [34; 39])) as (s3 & ? & ?); [auto with peg|]. destruct (Hs (noneOf [60; 62; 61; 39; 34; 41; 40; 92; 13; 10; 9; 32])) as (s4 & ? & ?); [auto with peg|].
  destruct (Hs andCondition andCondition_advancing) as (s5 & ? & ?). exists s1, s2, s3, s4, s5. tauto.
Qed.

(** ** Examples *)

Definition runesOf (s : String.string) : list Z := byte_Z <$> str s.
(** [tx.height > 5] and [tm.event = 'Tx'] *)
Definition heightCond : cond := mkCond (runesOf "tx.height") 1 OpGreater 1 (LInt (runesOf "5")).
Definition eventCond : cond := mkCond (runesOf "tm.event") 0 OpEqual 0 (LValue (runesOf "Tx")).
Lemma example_query_ok : queryOK heightCond [mkMore 0 0 eventCond].
Proof.
  split; [|split].
  - split; [done|]. split; [by repeat constructor|]. split; [right; exists 53, []; split; [done|]; split; [lia|constructor]|done].
  - apply Forall_singleton. split; [done|]. split; [by repeat constructor|]. split; [by repeat constructor|done].
  - vm_compute. by repeat constructor.
Qed.
Example example_query_text : ascii (queryRunes heightCond [mkMore 0 0 eventCond]) = str "tx.height > 5 AND tm.event='Tx'".
Proof. by vm_compute. Qed.
Lemma query_roundtrip_witness : exists q, New (str "tx.height > 5 AND tm.event='Tx'") = Some q /\ q_str q = str "tx.height > 5 AND tm.event='Tx'" /\
  Conditions q = Ret [mkCondition (str "tx.height") OpGreater (OInt64 5); mkCondition (str "tm.event") OpEqual (OString (str "Tx"))].
Proof.
  destruct (query_roundtrip heightCond [mkMore 0 0 eventCond] example_query_ok) as (q & E1 & E2 & E3). rewrite example_query_text in E1, E2. exists q. split; [exact E1|]. split; [exact E2|].
  rewrite E3. by vm_compute.
Defined.

Definition exampleTags (h : String.string) : gmap bytes bytes := <[str "tx.height" := str h]> {[str "tm.event" := str "Tx"]}.
Lemma Matches_Conditions_witness : exists q cs, New (str "tx.height > 5 AND tm.event='Tx'") = Some q /\ Conditions q = Ret cs /\
  Matches (fun _ => 0) q (exampleTags "7") = matchAll (fun _ => 0) (exampleTags "7") cs /\ matchAll (fun _ => 0) (exampleTags "7") cs = Ret true.
Proof.
  eexists _, [mkCondition (str "tx.height") OpGreater (OInt64 5); mkCondition (str "tm.event") OpEqual (OString (str "Tx"))]. split; [by vm_compute|].
  split; [by vm_compute|]. split; [|by vm_compute]. etransitivity; [apply Matches_Conditions; by vm_compute|]. by rewrite bool_decide_false by apply insert_non_empty.
Defined.

(** [height > 9223372036854775808]: 2^63. *)
Definition largeCond : cond := mkCond (runesOf "height") 1 OpGreater 1 (LInt (runesOf "9223372036854775808")).
Lemma large_query_ok : queryOK largeCond [].
Proof.
  split; [|split; [constructor|vm_compute; by repeat constructor]]. split; [done|]. split; [by repeat constructor|]. split; [|done].
  right. exists 57, (runesOf "223372036854775808"). split; [done|]. split; [lia|]. by repeat constructor.
Qed.
Lemma large_query_text : ascii (queryRunes largeCond []) = str "height > 9223372036854775808".
Proof. by vm_compute. Qed.
Lemma accepted_query_panics_witness : exists q, New (str "height > 9223372036854775808") = Some q /\
  Conditions q = Panic (PanicMsg "got error while trying to parse as int64") /\ Matches (fun _ => 0) q {[str "a" := []]} = Panic (PanicMsg "got error while trying to parse as int64").
Proof.
  rewrite <- large_query_text. apply (accepted_query_panics (fun _ => 0) largeCond [] (PanicMsg "got error while trying to parse as int64") {[str "a" := []]}); [exact large_query_ok|by vm_compute|apply map_non_empty_singleton].
Defined.

(** A day that no month has. *)
Example impossible_date : exists q, New (str "d = DATE 2018-19-39") = Some q /\ Conditions q = Panic (PanicMsg "got error while trying to parse as time.Time / '2006-01-02'").
Proof. eexists. split; [vm_compute; reflexivity|by vm_compute]. Qed.
(** A tag whose value is not a number, under a query for a number. *)
Example not_a_number : exists q, New (str "a > 5") = Some q /\ Matches (fun _ => 0) q {[str "a" := str "x"]} = Panic (PanicMsg "Failed to convert value from tag to int64").
Proof. eexists. split; [vm_compute; reflexivity|by vm_compute]. Qed.
(** The positions of the tokens count runes, and the buffer is cut by bytes:
    [é=5] is accepted, and its operand is read as the operator. *)
Example rune_positions : exists q, New ([Z_byte 195; Z_byte 169] ++ str "=5") = Some q /\
  Conditions q = Panic (PanicMsg "got error while trying to parse as int64").
Proof. eexists. split; [vm_compute; reflexivity|by vm_compute]. Qed.
(** [é='abc']: the tag is half of a rune and the value is another one. *)
Example rune_misread : exists q, New ([Z_byte 195; Z_byte 169] ++ str "='abc'") = Some q /\
  Conditions q = Ret [mkCondition [Z_byte 195] OpEqual (OString (str "'ab"))].
Proof. eexists. split; [vm_compute; reflexivity|by vm_compute]. Qed.
End Query.
