(* ===== verification/Safety.v ===== *)
(** * Safety of the consensus state machine

    Invariants of every state that [Consensus.receive] can reach: the lock is
    backed by a polka, precommits for a block are only signed on a polka of
    their round, blocks are only applied with two thirds of the precommits,
    and height, round and step never go back. *)

From S2P Require Import Prelude Sha256 Crypto Merkle Types ValidatorSet VoteSet HeightVoteSet PartSet Block State Consensus.
Import Crypto Types ValidatorSet Consensus.

(** Hashes and the validation of blocks stay folded. *)
#[local] Opaque Block.Hash State.validateBlock.
#[local] Arguments Block.HashesTo : simpl never.

Module Safety.

(** What the machine relies on: a signer returns the vote it was asked to
    sign, up to its timestamp and signature; the heights of the states that
    applying blocks leads to do not overflow, and their validators have
    public keys and powers that can be added up. *)
Definition stateOK (st : State.State) : Prop :=
  State.heightOK st /\ valsOK (State.Validators st) /\ cacheOK (State.Validators st).
Class ServiceLaws `{Services} : Prop := {
  sign_same : forall w chainID v v' w', privSignVote w chainID v = (Some v', w') ->
    v_Height v' = v_Height v /\ v_Round v' = v_Round v /\ v_Type v' = v_Type v /\ v_BlockID v' = v_BlockID v;
  apply_ok : forall w st id b st' w', applyBlock w st id b = Ret (Some st', w') -> stateOK st' }.

Create HintDb quiet.

Section Spec.
Context `{Codec} `{Curves} `{Amino} `{ValidatorCodec} `{Block.BlockCodec} `{Block.TxDecoder}.
Context {Svc : Services} {Laws : ServiceLaws}.

(** ** Reasoning about computations *)

Lemma M_bind_inv {A B} (m : M A) (k : A -> M B) cs b cs' : (m ≫= k) cs = Ret (b, cs') ->
  exists a cs1, m cs = Ret (a, cs1) /\ k a cs1 = Ret (b, cs').
Proof. unfold mbind, M_bind. destruct (m cs) as [[a cs1]|]; [|done]. eauto. Qed.

(** The part of the round state that the invariants are about. *)
Definition core (rs : RoundState) := (Height rs, Round rs, Step rs, (LockedRound rs, LockedBlock rs), Votes rs).

(** [cs'] differs from [cs] outside the core, and in effects that satisfy [P]. *)
Definition quiet (P : Effect -> Prop) (cs cs' : CS) : Prop :=
  core (cs_rs cs') = core (cs_rs cs) /\ cs_state cs' = cs_state cs /\
  exists l, cs_effects cs' = cs_effects cs ++ l /\ Forall P l.
Definition Quiet {A} (P : Effect -> Prop) (m : M A) : Prop := forall cs a cs', m cs = Ret (a, cs') -> quiet P cs cs'.

Lemma quiet_same P cs cs' : core (cs_rs cs') = core (cs_rs cs) -> cs_state cs' = cs_state cs ->
  cs_effects cs' = cs_effects cs -> quiet P cs cs'.
Proof. intros E1 E2 E3. split; [done|]. split; [done|]. exists []. split; [by rewrite app_nil_r|constructor]. Qed.

Lemma quiet_refl P cs : quiet P cs cs.
Proof. by apply quiet_same. Qed.

Lemma quiet_trans P cs1 cs2 cs3 : quiet P cs1 cs2 -> quiet P cs2 cs3 -> quiet P cs1 cs3.
Proof.
  intros (A1 & A2 & l & A3 & A4) (B1 & B2 & k & B3 & B4). split; [congruence|]. split; [congruence|].
  exists (l ++ k). rewrite B3, A3, app_assoc. split; [done|]. by apply Forall_app.
Qed.

Lemma quiet_weaken (P Q : Effect -> Prop) cs cs' : (forall e, P e -> Q e) -> quiet P cs cs' -> quiet Q cs cs'.
Proof. intros HPQ (A1 & A2 & l & A3 & A4). split; [done|]. split; [done|]. exists l. split; [done|]. by eapply Forall_impl. Qed.

Lemma Quiet_ret {A} P (a : A) : Quiet P (mret a).
Proof. intros cs b cs' [= <- <-]. by apply quiet_same. Qed.
Lemma Quiet_bind {A B} P (m : M A) (k : A -> M B) : Quiet P m -> (forall a, Quiet P (k a)) -> Quiet P (m ≫= k).
Proof. intros Hm Hk cs b cs' (a & cs1 & E1 & E2)%M_bind_inv. eapply quiet_trans; [by eapply Hm|by eapply Hk]. Qed.
Lemma Quiet_lift {A} P (m : go A) : Quiet P (lift m).
Proof. intros cs a cs'. unfold lift. destruct m; [|done]. intros [= <- <-]. by apply quiet_same. Qed.
Lemma Quiet_panic {A} P p : Quiet P (panic_ p : M A).
Proof. intros cs a cs' [=]. Qed.
Lemma Quiet_getRS P : Quiet P getRS.
Proof. intros cs a cs' [= <- <-]. by apply quiet_same. Qed.
Lemma Quiet_getState P : Quiet P getState.
Proof. intros cs a cs'. unfold getState. destruct (cs_state cs); [|done]. intros [= <- <-]. by apply quiet_same. Qed.
Lemma Quiet_ask {A} P (f : World -> A) : Quiet P (ask f).
Proof. intros cs a cs' [= <- <-]. by apply quiet_same. Qed.
Lemma Quiet_call {A} P (f : World -> A * World) : Quiet P (call f).
Proof. intros cs a cs'. unfold call. destruct (f (cs_world cs)). intros [= <- <-]. by apply quiet_same. Qed.
Lemma Quiet_callGo {A} P (f : World -> go (A * World)) : Quiet P (callGo f).
Proof. intros cs a cs'. unfold callGo. destruct (f (cs_world cs)) as [[x w]|]; [|done]. intros [= <- <-]. by apply quiet_same. Qed.
Lemma Quiet_loadParts P p : Quiet P (loadParts p).
Proof. intros cs a cs'. destruct p; intros [= <- <-]; by apply quiet_same. Qed.
Lemma Quiet_newParts P ps : Quiet P (newParts ps).
Proof. intros cs a cs' [= <- <-]. by apply quiet_same. Qed.
Lemma Quiet_storeParts P p ps : Quiet P (storeParts p ps).
Proof. intros cs a cs'. destruct p; [|done]. intros [= <- <-]. by apply quiet_same. Qed.
Lemma Quiet_emit (P : Effect -> Prop) e : P e -> Quiet P (emit e).
Proof. intros He cs a cs' [= <- <-]. split; [done|]. split; [done|]. exists [e]. by repeat constructor. Qed.
Lemma Quiet_modRS P f : (forall rs, core (f rs) = core rs) -> Quiet P (modRS f).
Proof. intros Hf cs a cs' [= <- <-]. apply quiet_same; [apply Hf|done|done]. Qed.
Lemma Quiet_when P b m : Quiet P m -> Quiet P (whenM b m).
Proof. intros Hm. destruct b; [done|apply Quiet_ret]. Qed.

(** ** Effects that keep the invariants whatever the state *)

Definition harmless (e : Effect) : Prop :=
  match e with
  | EffTimeout _ | EffApplied _ _ _ | EffVotes _ _ => False
  | EffInternal (VoteMessage _) => False
  | EffWal (WalEndHeight _) | EffSaved _ _ _ | EffAlreadyStored _ => False
  | _ => True
  end.
End Spec.

#[export] Hint Resolve Quiet_ret Quiet_lift Quiet_panic Quiet_getRS Quiet_getState Quiet_ask Quiet_call Quiet_callGo
  Quiet_loadParts Quiet_newParts Quiet_storeParts : quiet.

(** Quiet computations, by their structure. *)
Ltac quiet_step :=
  match goal with
  | |- Quiet _ (_ ≫= _) => apply Quiet_bind; [|intros ?]
  | |- Quiet _ (whenM _ _) => apply Quiet_when
  | |- Quiet _ (emit _) => apply Quiet_emit
  | |- Quiet _ (modRS _) => apply Quiet_modRS; reflexivity
  | |- Quiet _ (let '(_, _) := ?x in _) => destruct x
  | |- Quiet _ (if ?b then _ else _) => destruct b
  | |- Quiet _ (match ?x with _ => _ end) => destruct x
  | |- Quiet _ _ => solve [eauto 3 with quiet nocore]
  end.
Ltac quiet_solve := repeat quiet_step; try exact I.

Section Quiet.
Context `{Codec} `{Curves} `{Amino} `{ValidatorCodec} `{Block.BlockCodec} `{Block.TxDecoder}.
Context {Svc : Services} {Laws : ServiceLaws}.

Lemma Quiet_newStep : Quiet harmless newStep.
Proof. unfold newStep. quiet_solve. Qed.
Lemma Quiet_fillProposal P : Quiet P fillProposal.
Proof. unfold fillProposal. quiet_solve. Qed.
Lemma Quiet_proposalHashesTo P h : Quiet P (proposalHashesTo h).
Proof. unfold proposalHashesTo. destruct (_ =? 0); [apply Quiet_ret|]. apply Quiet_bind; [apply Quiet_fillProposal|]. intros. quiet_solve. Qed.
Lemma Quiet_getVotes P : Quiet P getVotes.
Proof. unfold getVotes. quiet_solve. Qed.
Lemma Quiet_prevotesAt P r : Quiet P (prevotesAt r).
Proof. unfold prevotesAt. apply Quiet_bind; [apply Quiet_getVotes|]. intros. quiet_solve. Qed.
Lemma Quiet_precommitsAt P r : Quiet P (precommitsAt r).
Proof. unfold precommitsAt. apply Quiet_bind; [apply Quiet_getVotes|]. intros. quiet_solve. Qed.
Lemma Quiet_getValidators P : Quiet P getValidators.
Proof. unfold getValidators. quiet_solve. Qed.
#[local] Hint Resolve Quiet_newStep Quiet_fillProposal Quiet_proposalHashesTo Quiet_getVotes Quiet_prevotesAt
  Quiet_precommitsAt Quiet_getValidators : quiet.

Lemma Quiet_validateProposal P : Quiet P validateProposal.
Proof. unfold validateProposal. quiet_solve. Qed.
Lemma Quiet_isProposalComplete P : Quiet P isProposalComplete.
Proof. unfold isProposalComplete. quiet_solve. Qed.
Lemma Quiet_isProposer P : Quiet P isProposer.
Proof. unfold isProposer. quiet_solve. Qed.
Lemma Quiet_needProofBlock P h : Quiet P (needProofBlock h).
Proof. unfold needProofBlock. quiet_solve. Qed.
Lemma Quiet_lastCommitForProposal P : Quiet P lastCommitForProposal.
Proof. unfold lastCommitForProposal. quiet_solve. Qed.
#[local] Hint Resolve Quiet_validateProposal Quiet_isProposalComplete Quiet_isProposer Quiet_needProofBlock
  Quiet_lastCommitForProposal : quiet.
Lemma Quiet_createProposalBlock P : Quiet P createProposalBlock.
Proof. unfold createProposalBlock. quiet_solve. Qed.
Lemma Quiet_sendParts ps i n : Quiet harmless (sendParts ps i n).
Proof. revert i. induction n as [|n IH]; intros i; cbn [sendParts]; unfold sendInternalMessage; quiet_solve. Qed.
#[local] Hint Resolve Quiet_createProposalBlock Quiet_sendParts : quiet.
Lemma Quiet_proposeBlock h r ps : Quiet harmless (proposeBlock h r ps).
Proof. unfold proposeBlock, sendInternalMessage. quiet_solve. Qed.
#[local] Hint Resolve Quiet_proposeBlock : quiet.
Lemma Quiet_defaultDecideProposal h r : Quiet harmless (defaultDecideProposal h r).
Proof. unfold defaultDecideProposal. quiet_solve. Qed.
Lemma Quiet_updateValid P b r : Quiet P (updateValid b r).
Proof. unfold updateValid. quiet_solve. Qed.
Lemma Quiet_defaultSetProposal P p : Quiet P (defaultSetProposal p).
Proof. unfold defaultSetProposal. quiet_solve. Qed.
Lemma Quiet_lastPrecommits P : Quiet P lastPrecommits.
Proof. unfold lastPrecommits. quiet_solve. Qed.
Lemma Quiet_recordMetrics P h b : Quiet P (recordMetrics h b).
Proof. unfold recordMetrics. quiet_solve. Qed.

(** ** Signed votes *)

(** The effect of signing a vote of this type and block in [rs]. *)
Definition signed (rs : RoundState) (t : Z) (id : BlockID) (e : Effect) : Prop :=
  exists v, e = EffInternal (VoteMessage (Some v)) /\ v_Height v = Height rs /\ v_Round v = Round rs /\
    v_Type v = t /\ v_BlockID v = id.

Lemma signVote_quiet t hash header cs o cs' : signVote t hash header cs = Ret (o, cs') ->
  quiet (fun _ => False) cs cs' /\
  forall v, o = Some v -> v_Height v = Height (cs_rs cs) /\ v_Round v = Round (cs_rs cs) /\ v_Type v = t /\
    v_BlockID v = mkBlockID hash header.
Proof.
  intros E. split; [revert E; generalize cs o cs'; change (Quiet (fun _ => False) (signVote t hash header)); unfold signVote; quiet_solve|].
  unfold signVote in E. apply M_bind_inv in E as (addr & c1 & E1 & E). unfold lift in E1. destruct (deref privAddress); [injection E1 as <- <-|done].
  apply M_bind_inv in E as (vals & c2 & E2 & E). pose proof (Quiet_getValidators (fun _ => False) _ _ _ E2) as (Q2 & _).
  apply M_bind_inv in E as (r & c3 & E3 & E). pose proof (Quiet_lift (fun _ => False) _ _ _ _ E3) as (Q3 & _).
  apply M_bind_inv in E as (now & c4 & E4 & E). pose proof (Quiet_call (fun _ => False) _ _ _ _ E4) as (Q4 & _).
  apply M_bind_inv in E as (rs & c5 & E5 & E). injection E5 as <- <-.
  apply M_bind_inv in E as (st & c6 & E6 & E). unfold call in E. destruct (privSignVote _ _ _) as [o' w] eqn:Es.
  injection E as <- <-. intros v ->. destruct (sign_same _ _ _ _ _ Es) as (S1 & S2 & S3 & S4). cbn in S1, S2, S3, S4.
  rewrite S1, S2, S3, S4. unfold core in *. split_and!; congruence.
Qed.

Lemma signAddVote_spec t hash header cs u cs' : signAddVote t hash header cs = Ret (u, cs') ->
  quiet (signed (cs_rs cs) t (mkBlockID hash header)) cs cs'.
Proof.
  unfold signAddVote. destruct privAddress as [addr|]; [|intros [= <- <-]; apply quiet_refl]. intros E.
  apply M_bind_inv in E as (vals & c1 & E1 & E). pose proof (Quiet_getValidators (fun _ => False) _ _ _ E1) as Q1.
  apply M_bind_inv in E as (has & c2 & E2 & E). pose proof (Quiet_lift (fun _ => False) _ _ _ _ E2) as Q2.
  pose proof (quiet_trans _ _ _ _ Q1 Q2) as Q. destruct (negb has).
  { injection E as <- <-. eapply quiet_weaken; [|done]. done. }
  apply M_bind_inv in E as (o & c3 & E3 & E). destruct (signVote_quiet _ _ _ _ _ _ E3) as [Q3 Hv].
  pose proof (quiet_trans _ _ _ _ Q Q3) as Q'. eapply quiet_trans; [by eapply quiet_weaken; [|exact Q']|].
  destruct o as [v|]; [|injection E as <- <-; apply quiet_refl]. eapply Quiet_emit; [|exact E].
  exists v. destruct (Hv v eq_refl) as (V1 & V2 & V3 & V4). destruct Q as (Qc & _). unfold core in Qc.
  split_and!; [done|congruence..].
Qed.
End Quiet.
#[export] Hint Resolve Quiet_newStep Quiet_fillProposal Quiet_proposalHashesTo Quiet_getVotes Quiet_prevotesAt
  Quiet_precommitsAt Quiet_getValidators Quiet_validateProposal Quiet_isProposalComplete Quiet_isProposer Quiet_needProofBlock
  Quiet_defaultDecideProposal Quiet_updateValid Quiet_defaultSetProposal Quiet_lastPrecommits Quiet_recordMetrics : quiet.

Section Invariant.
Context `{Codec} `{Curves} `{Amino} `{ValidatorCodec} `{Block.BlockCodec} `{Block.TxDecoder}.
Context {Svc : Services} {Laws : ServiceLaws}.
Implicit Types cs : CS.

(** ** The invariant *)

(** The votes of height [h]: the current ones, or those of a finished height. *)
Definition votesOf cs (h : Z) (votes : HeightVoteSet.HeightVoteSet) : Prop :=
  (Height (cs_rs cs) = h /\ Votes (cs_rs cs) = Some votes) \/ EffVotes h (Some votes) ∈ cs_effects cs.

Definition polka cs (h r : Z) (id : BlockID) : Prop :=
  exists votes, votesOf cs h votes /\ HeightVoteSet.majority votes VoteTypePrevote r id.
Definition decided cs (h r : Z) (id : BlockID) : Prop :=
  exists votes, votesOf cs h votes /\ HeightVoteSet.majority votes VoteTypePrecommit r id.

(** The block is in the store: just saved, or with a height the store has. *)
Definition savedAs (b : option Block.Block) (e : Effect) : Prop :=
  (exists ps c, e = EffSaved b ps c) \/
  (exists blk hd, b = Some blk /\ Block.b_Header blk = Some hd /\ e = EffAlreadyStored (Block.Height hd)).

(** The block was saved and the end of its height logged before it was
    applied. *)
Definition loggedFirst cs (h : Z) (st : State.State) (id : BlockID) (b : option Block.Block) : Prop :=
  exists l1 e l2, cs_effects cs = l1 ++ e :: EffWal (WalEndHeight h) :: EffApplied st id b :: l2 /\ savedAs b e.

(** The votes of height [h] are sound. *)
Definition votesOK (h : Z) (votes : HeightVoteSet.HeightVoteSet) : Prop :=
  HeightVoteSet.hvs_height votes = h /\ valsOK (HeightVoteSet.hvs_valSet votes) /\ cacheOK (HeightVoteSet.hvs_valSet votes) /\
  HeightVoteSet.sound votes.

(** A timeout is for a round not after the current one; a precommit for a
    block was signed on a polka of its height and round; a block was applied
    as the valid next block, decided by the precommits of its height. *)
Definition effectOK cs (e : Effect) : Prop :=
  match e with
  | EffTimeout ti => ti_Height ti <= Height (cs_rs cs) /\ (ti_Height ti = Height (cs_rs cs) -> ti_Round ti <= Round (cs_rs cs))
  | EffInternal (VoteMessage (Some v)) =>
      v_Type v = VoteTypePrecommit -> bid_Hash (v_BlockID v) <> [] -> polka cs (v_Height v) (v_Round v) (v_BlockID v)
  | EffApplied st id b =>
      exists r, decided cs (add64 (State.LastBlockHeight st) 1) r id /\ Block.HashesTo b (bid_Hash id) = true /\
        State.validateBlock st b = Ret None /\ loggedFirst cs (add64 (State.LastBlockHeight st) 1) st id b
  | EffVotes h (Some votes) => votesOK h votes
  | _ => True
  end.

(** The locked block [b] had a polka at the locked round, is valid, and was
    locked in an earlier round or at the precommit step of this one. *)
Definition lockOK (rs : RoundState) (st : option State.State) (b : Block.Block) : Prop :=
  0 <= LockedRound rs <= Round rs /\ (LockedRound rs = Round rs -> RoundStepPrecommit <= Step rs) /\
  exists votes id s, Votes rs = Some votes /\ HeightVoteSet.majority votes VoteTypePrevote (LockedRound rs) id /\
    Block.HashesTo (Some b) (bid_Hash id) = true /\ st = Some s /\ State.validateBlock s (Some b) = Ret None.

Record roundOK (rs : RoundState) (st : option State.State) : Prop := mkRoundOK {
  ro_votes : exists votes, Votes rs = Some votes /\ votesOK (Height rs) votes;
  ro_state : exists s, st = Some s /\ State.heightOK s /\ Height rs = State.LastBlockHeight s + 1;
  ro_round : 0 <= Round rs;
  ro_step : RoundStepNewHeight <= Step rs;
  ro_new : Step rs = RoundStepNewHeight -> Round rs = 0;
  ro_lock : forall b, LockedBlock rs = Some b -> lockOK rs st b }.

(** ** The history of votes *)

(** The node signed [v], a vote of type [t]. *)
Definition didVote cs (t : Z) (v : Vote) : Prop := EffInternal (VoteMessage (Some v)) ∈ cs_effects cs /\ v_Type v = t.

(** The step from which votes of type [t] are cast. *)
Definition stepOf (t : Z) : Z := if t =? VoteTypePrevote then RoundStepPrevote else RoundStepPrecommit.

(** Round [r] and step [s] are not after those of [rs]. *)
Definition reached (rs : RoundState) (r s : Z) : Prop := r < Round rs \/ (r = Round rs /\ s <= Step rs).

(** What became of a precommit for a block: the node is still locked on that
    block, or saw a later polka for another one (in an earlier round, or in
    this one at the precommit step, if [strict]). *)
Definition lockedOn (rs : RoundState) (v : Vote) : Prop :=
  exists b, LockedBlock rs = Some b /\ Block.Hash (Some b) = bid_Hash (v_BlockID v) /\ v_Round v <= LockedRound rs.
Definition overruled (strict : bool) (rs : RoundState) (after : Z) (hash : bytes) : Prop :=
  exists votes r id, Votes rs = Some votes /\ HeightVoteSet.majority votes VoteTypePrevote r id /\ bid_Hash id <> hash /\
    after < r <= Round rs /\ (strict = true -> reached rs r RoundStepPrecommit).

(** The votes a node signed: none ahead of its round and step; a precommit
    for a block was followed by a lock on it, or overruled; a prevote against
    a block that the node precommitted before has a polka for another block
    in between; one vote of each type per round. *)
Record historyOf (did : Z -> Vote -> Prop) (strict : bool) cs : Prop := mkHistory {
  hs_past : forall t v, did t v -> v_Height v < Height (cs_rs cs) \/
    (v_Height v = Height (cs_rs cs) /\ reached (cs_rs cs) (v_Round v) (stepOf t));
  hs_lock : forall v, did VoteTypePrecommit v -> bid_Hash (v_BlockID v) <> [] -> v_Height v = Height (cs_rs cs) ->
    lockedOn (cs_rs cs) v \/ overruled strict (cs_rs cs) (v_Round v) (bid_Hash (v_BlockID v));
  hs_pair : forall v w, did VoteTypePrecommit v -> bid_Hash (v_BlockID v) <> [] -> did VoteTypePrevote w ->
    v_Height w = v_Height v -> v_Round v < v_Round w -> bid_Hash (v_BlockID w) = bid_Hash (v_BlockID v) \/
    exists r id, v_Round v < r < v_Round w /\ polka cs (v_Height v) r id /\ bid_Hash id <> bid_Hash (v_BlockID v);
  hs_one : forall t v w, did t v -> did t w -> v_Height w = v_Height v -> v_Round w = v_Round v ->
    v_BlockID w = v_BlockID v }.
Definition history (strict : bool) cs : Prop := historyOf (didVote cs) strict cs.

Record InvUpTo (strict : bool) cs : Prop := mkInv {
  inv_round : roundOK (cs_rs cs) (cs_state cs);
  inv_effects : Forall (effectOK cs) (cs_effects cs);
  inv_history : history strict cs }.
Abbreviation Inv := (InvUpTo true).

(** ** Evolution *)

Definition hrsLe (a b : RoundState) : Prop :=
  Height a < Height b \/ (Height a = Height b /\ (Round a < Round b \/ (Round a = Round b /\ Step a <= Step b))).

(** How a step changes the state: height, round and step do not go back;
    effects are only added; majorities are kept while the height lasts, and
    recorded when it ends; a lock is kept, possibly at a later round, unless
    a later polka is for another block. *)
Record evolves (strict : bool) cs cs' : Prop := mkEvolves {
  ev_hrs : hrsLe (cs_rs cs) (cs_rs cs');
  ev_effects : exists l, cs_effects cs' = cs_effects cs ++ l;
  ev_votes : Height (cs_rs cs') = Height (cs_rs cs) -> forall v, Votes (cs_rs cs) = Some v ->
    exists v', Votes (cs_rs cs') = Some v' /\ HeightVoteSet.keeps v v';
  ev_past : Height (cs_rs cs) < Height (cs_rs cs') -> forall v, Votes (cs_rs cs) = Some v ->
    exists v', EffVotes (Height (cs_rs cs)) (Some v') ∈ cs_effects cs' /\ HeightVoteSet.keeps v v';
  ev_lock : Height (cs_rs cs') = Height (cs_rs cs) -> forall b, LockedBlock (cs_rs cs) = Some b ->
    (LockedBlock (cs_rs cs') = Some b /\ LockedRound (cs_rs cs) <= LockedRound (cs_rs cs')) \/
    (exists r id v', LockedRound (cs_rs cs) < r <= Round (cs_rs cs') /\ (strict = true -> reached (cs_rs cs') r RoundStepPrecommit) /\
       Votes (cs_rs cs') = Some v' /\
       HeightVoteSet.majority v' VoteTypePrevote r id /\ Block.HashesTo (Some b) (bid_Hash id) = false) }.

Lemma hrsLe_refl a : hrsLe a a.
Proof. unfold hrsLe. lia. Qed.
Lemma hrsLe_trans a b c : hrsLe a b -> hrsLe b c -> hrsLe a c.
Proof. unfold hrsLe. lia. Qed.

Lemma reached_le a b r s : hrsLe a b -> Height b = Height a -> reached a r s -> reached b r s.
Proof. unfold hrsLe, reached. lia. Qed.

Lemma evolves_trans q cs1 cs2 cs3 : evolves q cs1 cs2 -> evolves q cs2 cs3 -> evolves q cs1 cs3.
Proof.
  intros [A1 (l & A2) A3 A4 A5] [B1 (k & B2) B3 B4 B5]. split.
  - by eapply hrsLe_trans.
  - exists (l ++ k). by rewrite B2, A2, app_assoc.
  - intros Eh v Hv. assert (E2 : Height (cs_rs cs2) = Height (cs_rs cs1)) by (unfold hrsLe in *; lia).
    destruct (A3 E2 v Hv) as (v2 & Hv2 & K2), (B3 ltac:(congruence) v2 Hv2) as (v3 & Hv3 & K3). exists v3. split; [done|by etrans].
  - intros Hlt v Hv. destruct (decide (Height (cs_rs cs2) = Height (cs_rs cs1))) as [E2|Hne].
    + destruct (A3 E2 v Hv) as (v2 & Hv2 & K2). rewrite E2 in B4. destruct (B4 Hlt v2 Hv2) as (v3 & Hv3 & K3).
      exists v3. split; [done|by etrans].
    + destruct (A4 ltac:(unfold hrsLe in *; lia) v Hv) as (v2 & Hv2 & K2). exists v2. split; [|done].
      rewrite B2. apply elem_of_app. by left.
  - intros Eh b Hb. assert (E2 : Height (cs_rs cs2) = Height (cs_rs cs1)) by (unfold hrsLe in *; lia).
    destruct (A5 E2 b Hb) as [[Hb2 Hr2]|(r & id & v2 & Hr & Hq & Hv2 & Hm & Hd)].
    + destruct (B5 ltac:(congruence) b Hb2) as [[Hb3 Hr3]|(r & id & v3 & Hr & Hq & Hv3 & Hm & Hd)]; [left; split; [done|lia]|].
      right. exists r, id, v3. split; [lia|done].
    + right. destruct (B3 ltac:(congruence) v2 Hv2) as (v3 & Hv3 & K3). exists r, id, v3.
      split; [unfold hrsLe in *; lia|]. split; [intros q1; eapply reached_le; [done|congruence|by apply Hq]|].
      split; [done|]. split; [by apply K3|done].
Qed.

Lemma votesOf_evolves q cs cs' h v : evolves q cs cs' -> votesOf cs h v -> exists v', votesOf cs' h v' /\ HeightVoteSet.keeps v v'.
Proof.
  intros [A1 (l & A2) A3 A4 _] [[<- Hv]|He].
  - destruct (decide (Height (cs_rs cs') = Height (cs_rs cs))) as [E|Hne].
    + destruct (A3 E v Hv) as (v' & Hv' & K). exists v'. split; [left; split; [done|done]|done].
    + destruct (A4 ltac:(unfold hrsLe in *; lia) v Hv) as (v' & Hv' & K). exists v'. split; [by right|done].
  - exists v. split; [right; rewrite A2; apply elem_of_app; by left|reflexivity].
Qed.

Lemma majorityOf_evolves q cs cs' t h r id : evolves q cs cs' ->
  (exists votes, votesOf cs h votes /\ HeightVoteSet.majority votes t r id) ->
  exists votes, votesOf cs' h votes /\ HeightVoteSet.majority votes t r id.
Proof.
  intros He (v & Hv & Hm). destruct (votesOf_evolves q cs cs' h v He Hv) as (v' & Hv' & K). exists v'. split; [done|by apply K].
Qed.

Lemma polka_evolves q cs cs' h r id : evolves q cs cs' -> polka cs h r id -> polka cs' h r id.
Proof. apply majorityOf_evolves. Qed.

Lemma effectOK_evolves q cs cs' e : evolves q cs cs' -> effectOK cs e -> effectOK cs' e.
Proof.
  intros He. destruct e as [ti|m|w|ev|h r|b ps c|h|st id b| |h v]; cbn; try done.
  - pose proof (ev_hrs _ _ _ He) as Hh. unfold hrsLe in Hh. intros [H1' H2']. split; lia.
  - destruct m as [p|h r p|[v|]]; try done. intros Hp Ht Hn. eapply polka_evolves; [done|]. by apply Hp.
  - intros (r & Hd & Hb & Hv & l1 & s & l2 & El & Hs). exists r. split; [by eapply majorityOf_evolves|]. split_and!; [done..|].
    destruct (ev_effects _ _ _ He) as (l & El'). exists l1, s, (l2 ++ l). split; [|done]. by rewrite El', El, <- app_assoc.
Qed.

(** A block that is not the one [id] names, with the hash of a precommit. *)
Lemma HashesTo_other b id h : Block.Hash (Some b) = h -> h <> [] -> Block.HashesTo (Some b) (bid_Hash id) = false -> bid_Hash id <> h.
Proof.
  intros Hb Hn Hd E. rewrite E in Hd. unfold Block.HashesTo in Hd. destruct (zlen h =? 0) eqn:Ez.
  - apply Z.eqb_eq in Ez. apply Hn. destruct h; [done|unfold zlen in Ez; cbn in Ez; lia].
  - rewrite Hb, bytes_eqb_refl in Hd. done.
Qed.

(** The history goes on as the state evolves. *)
Lemma history_evolves did q cs cs' : historyOf did q cs -> evolves q cs cs' -> historyOf did q cs'.
Proof.
  intros [P1 P2 P3 P4] He. pose proof (ev_hrs _ _ _ He) as Hle. split.
  - intros t v Hv. destruct (P1 t v Hv) as [Hlt|[Hh Hr]]; [left; unfold hrsLe in Hle; lia|].
    destruct (decide (Height (cs_rs cs') = Height (cs_rs cs))) as [E|Hne]; [|left; unfold hrsLe in Hle; lia].
    right. split; [congruence|by eapply reached_le].
  - intros v Hv Hn Hh. assert (Height (cs_rs cs') = Height (cs_rs cs)) as E.
    { destruct (P1 _ v Hv) as [|[]]; unfold hrsLe in Hle; lia. }
    destruct (P2 v Hv Hn ltac:(congruence)) as [(b & Hb & Hbh & Hbr)|(votes & r & id & Hvo & Hm & Hi & Hr & Hq)].
    + destruct (ev_lock _ _ _ He E b Hb) as [[Hb' Hr']|(r & id & v' & Hr & Hq & Hvo & Hm & Hx)]; [left; exists b; split_and!; [done..|lia]|].
      right. exists v', r, id. split_and!; [done..|by eapply HashesTo_other|lia|lia|done].
    + right. destruct (ev_votes _ _ _ He E votes Hvo) as (v' & Hv' & K). exists v', r, id. split; [done|]. split; [by apply K|].
      split; [done|]. split; [unfold hrsLe in Hle; lia|]. intros q1. eapply reached_le; [done|done|by apply Hq].
  - intros v w Hv Hn Hw Hh Hr. destruct (P3 v w Hv Hn Hw Hh Hr) as [|(r & id & Hx & Hp & Hne)]; [by left|].
    right. exists r, id. split; [done|]. split; [by eapply polka_evolves|done].
  - done.
Qed.

Lemma history_sub (did did' : Z -> Vote -> Prop) q cs : (forall t v, did' t v -> did t v) -> historyOf did q cs -> historyOf did' q cs.
Proof.
  intros Hd [P1 P2 P3 P4]. split.
  - intros t v Hv. by apply P1, Hd.
  - intros v Hv. by apply P2, Hd.
  - intros v w Hv Hn Hw. apply P3; [by apply Hd|done|by apply Hd].
  - intros t v w Hv Hw. apply (P4 t); by apply Hd.
Qed.

(** A vote of type [t] for [id] in the current round, the first of its type. *)
Lemma history_add did q cs t id : historyOf did q cs -> stepOf t <= Step (cs_rs cs) ->
  (forall v, did t v -> v_Height v = Height (cs_rs cs) -> v_Round v < Round (cs_rs cs)) ->
  (t = VoteTypePrecommit -> bid_Hash id <> [] -> exists b, LockedBlock (cs_rs cs) = Some b /\
     Block.Hash (Some b) = bid_Hash id /\ LockedRound (cs_rs cs) = Round (cs_rs cs)) ->
  (t = VoteTypePrevote -> forall v, did VoteTypePrecommit v -> bid_Hash (v_BlockID v) <> [] -> v_Height v = Height (cs_rs cs) ->
     v_Round v < Round (cs_rs cs) -> bid_Hash id = bid_Hash (v_BlockID v) \/
     exists r id', v_Round v < r < Round (cs_rs cs) /\ polka cs (v_Height v) r id' /\ bid_Hash id' <> bid_Hash (v_BlockID v)) ->
  historyOf (fun t' v => did t' v \/ (t' = t /\ v_Height v = Height (cs_rs cs) /\ v_Round v = Round (cs_rs cs) /\ v_BlockID v = id)) q cs.
Proof.
  intros [P1 P2 P3 P4] Hs Hfirst Hpre Hvote. split.
  - intros t' v [Hv|(-> & Vh & Vr & _)]; [by apply P1|]. right. split; [done|]. right. by split.
  - intros v [Hv|(<- & Vh & Vr & <-)] Hn Hh; [by apply P2|]. left. destruct (Hpre eq_refl Hn) as (b & B1 & B2 & B3). exists b. split_and!; [done..|lia].
  - intros v w [Hv|(<- & Vh & Vr & Vi)] Hn [Hw|(E & Wh & Wr & Wi)] Hh Hr; [by apply P3| | |done].
    + rewrite Wi, Wr. apply Hvote; [done..| |]; congruence.
    + destruct (P1 _ w Hw) as [Hlt|[_ Hre]]; unfold reached in *; lia.
  - intros t' v w [Hv|(-> & Vh & Vr & Vi)] [Hw|(E & Wh & Wr & Wi)] Hh Hr; [by apply (P4 t')| | |congruence].
    + rewrite E in Hv. specialize (Hfirst v Hv). lia.
    + specialize (Hfirst w Hw). lia.
Qed.

(** Effects that are right in any state that has these votes. *)
Definition noVote (e : Effect) : Prop := match e with EffInternal (VoteMessage (Some _)) => False | _ => True end.

(** An evolution without votes keeps the invariant if the new effects and the
    new round state are right. *)
Lemma Inv_evolves q cs cs' l : InvUpTo q cs -> evolves q cs cs' -> cs_effects cs' = cs_effects cs ++ l ->
  Forall (effectOK cs') l -> Forall noVote l -> roundOK (cs_rs cs') (cs_state cs') -> InvUpTo q cs'.
Proof.
  intros [_ Hf Hh] He El Hl Hn Hr. split; [done| |].
  - rewrite El. apply Forall_app. split; [|done]. eapply Forall_impl; [done|]. intros e. by eapply effectOK_evolves.
  - eapply (history_sub (didVote cs)); [|by eapply history_evolves]. intros t v [Hv Ht]. split; [|done].
    rewrite El, elem_of_app in Hv. destruct Hv as [|Hv]; [done|]. by pose proof (proj1 (Forall_forall _ _) Hn _ Hv).
Qed.

(** At the precommit step, being strict makes no difference. *)
Lemma Inv_strict cs : InvUpTo false cs -> RoundStepPrecommit <= Step (cs_rs cs) -> Inv cs.
Proof.
  intros [I1 I2 [P1 P2 P3 P4]] Hs. split; [done..|]. split; [done| |done|done]. intros v Hv Hn Hh.
  destruct (P2 v Hv Hn Hh) as [|(votes & r & id & Hvo & Hm & Hi & Hr & _)]; [by left|right]. exists votes, r, id.
  split_and!; [done..|lia|lia|]. intros _. unfold reached. lia.
Qed.

Lemma Inv_weaken q cs : Inv cs -> InvUpTo q cs.
Proof.
  intros [I1 I2 [P1 P2 P3 P4]]. split; [done..|]. split; [done| |done|done]. intros v Hv Hn Hh.
  destruct (P2 v Hv Hn Hh) as [|(votes & r & id & Hvo & Hm & Hi & Hr & Hq)]; [by left|right]. exists votes, r, id.
  split_and!; [done..|lia|lia|]. intros _. by apply Hq.
Qed.

Lemma evolves_strict cs cs' : evolves false cs cs' -> RoundStepPrecommit <= Step (cs_rs cs') -> evolves true cs cs'.
Proof.
  intros [A1 A2 A3 A4 A5] Hs. split; [done..|]. intros E b Hb. destruct (A5 E b Hb) as [|(r & id & v' & Hr & _ & Hx)]; [by left|right].
  exists r, id, v'. split; [done|]. split; [|done]. intros _. unfold reached. lia.
Qed.

Lemma evolves_weaken q cs cs' : evolves true cs cs' -> evolves q cs cs'.
Proof.
  intros [A1 A2 A3 A4 A5]. split; [done..|]. intros E b Hb. destruct (A5 E b Hb) as [|(r & id & v' & Hr & Hq & Hx)]; [by left|right].
  exists r, id, v'. split; [done|]. split; [|done]. intros _. by apply Hq.
Qed.
End Invariant.

Section Steps.
Context `{Codec} `{Curves} `{Amino} `{ValidatorCodec} `{Block.BlockCodec} `{Block.TxDecoder}.
Context {Svc : Services} {Laws : ServiceLaws}.
Implicit Types cs : CS.
Abbreviation Inv := (InvUpTo true).

(** ** Kinds of steps *)

(** A step keeps the invariant and evolves the state. *)
Definition goodUpTo (q : bool) cs cs' : Prop := InvUpTo q cs -> InvUpTo q cs' /\ evolves q cs cs'.
Abbreviation good := (goodUpTo true).

Lemma good_trans q cs1 cs2 cs3 : goodUpTo q cs1 cs2 -> goodUpTo q cs2 cs3 -> goodUpTo q cs1 cs3.
Proof. intros Ha Hb Hi. destruct (Ha Hi) as [Hi2 E2], (Hb Hi2) as [Hi3 E3]. split; [done|by eapply evolves_trans]. Qed.

Lemma core_eq rs rs' : core rs' = core rs ->
  Height rs' = Height rs /\ Round rs' = Round rs /\ Step rs' = Step rs /\ LockedRound rs' = LockedRound rs /\
  LockedBlock rs' = LockedBlock rs /\ Votes rs' = Votes rs.
Proof. unfold core. intros [= ]. done. Qed.

Lemma lockOK_core rs rs' st b : core rs' = core rs -> lockOK rs st b -> lockOK rs' st b.
Proof. intros (E1 & E2 & E3 & E4 & E5 & E6)%core_eq. unfold lockOK. by rewrite E2, E3, E4, E6. Qed.

Lemma roundOK_core rs rs' st : core rs' = core rs -> roundOK rs st -> roundOK rs' st.
Proof.
  intros Hc. pose proof (core_eq _ _ Hc) as (E1 & E2 & E3 & E4 & E5 & E6). intros [R1 R2 R3 R4 R5 R6].
  split; rewrite ?E1, ?E2, ?E3, ?E6; try done. intros b Hb. eapply lockOK_core; [done|]. apply R6. congruence.
Qed.

Lemma evolves_core q cs cs' l : core (cs_rs cs') = core (cs_rs cs) -> cs_effects cs' = cs_effects cs ++ l -> evolves q cs cs'.
Proof.
  intros (E1 & E2 & E3 & E4 & E5 & E6)%core_eq El. split.
  - right. rewrite E1, E2, E3. split; [done|]. right. lia.
  - by exists l.
  - intros _ v Hv. exists v. split; [congruence|reflexivity].
  - lia.
  - intros _ b Hb. left. split; [congruence|lia].
Qed.

Lemma harmless_ok cs e : harmless e -> effectOK cs e.
Proof. by destruct e as [ti|[p|h r p|[v|]]|w|ev|h r|b ps c|h|st id b| |h v]. Qed.
Lemma harmless_noVote e : harmless e -> noVote e.
Proof. by destruct e as [ti|[p|h r p|[v|]]|w|ev|h r|b ps c|h|st id b| |h v]. Qed.

(** Effects that are right in the state after. *)
Lemma good_quiet (P : Effect -> Prop) q cs cs' : (forall e, P e -> effectOK cs' e /\ noVote e) -> quiet P cs cs' -> goodUpTo q cs cs'.
Proof.
  intros HP (Hc & Hs & l & El & Hl) Hi. pose proof (evolves_core q cs cs' l Hc El) as He. split; [|done].
  eapply Inv_evolves; [done..| | |].
  - eapply Forall_impl; [done|]. intros e Pe. by apply HP.
  - eapply Forall_impl; [done|]. intros e Pe. by apply HP.
  - rewrite Hs. eapply roundOK_core; [done|]. apply Hi.
Qed.

Lemma good_harmless q cs cs' : quiet harmless cs cs' -> goodUpTo q cs cs'.
Proof. apply good_quiet. intros e He. split; [by apply harmless_ok|by apply harmless_noVote]. Qed.

(** Going to a later round or step. *)
Definition later (rs : RoundState) (round step : Z) : Prop :=
  Round rs < round \/ (Round rs = round /\ Step rs < step).

Lemma pastStep_false rs height round step : pastStep rs height round step = false ->
  Height rs = height /\ later rs round step.
Proof.
  unfold pastStep, later. rewrite !orb_false_iff, andb_false_iff, negb_false_iff, Z.eqb_eq, Z.ltb_ge, Z.eqb_neq, Z.leb_gt. lia.
Qed.

Definition timeoutFor (height round : Z) (e : Effect) : Prop :=
  harmless e \/ exists ti, e = EffTimeout ti /\ ti_Height ti = height /\ ti_Round ti = round.

Lemma harmless_timeoutFor h r e : harmless e -> timeoutFor h r e.
Proof. by left. Qed.
Lemma timeoutFor_noVote h r e : timeoutFor h r e -> noVote e.
Proof. intros [He|(ti & -> & _)]; [by apply harmless_noVote|done]. Qed.
Lemma timeoutFor_ok h r cs e : h = Height (cs_rs cs) -> r <= Round (cs_rs cs) -> timeoutFor h r e -> effectOK cs e.
Proof. intros -> Hr [He|(ti & -> & T1 & T2)]; [by apply harmless_ok|]. cbn. lia. Qed.

(** The same state at a later round or step. *)
Lemma evolves_raise q cs cs1 round step l : core (cs_rs cs1) = core (cs_rs cs) -> cs_effects cs1 = cs_effects cs ++ l ->
  later (cs_rs cs) round step -> forall cs', updateRoundStep round step cs1 = Ret (tt, cs') -> evolves q cs cs'.
Proof.
  intros (E1 & E2 & E3 & E4 & E5 & E6)%core_eq El Hl cs' [= <-]. unfold later in Hl. split; cbn.
  - unfold hrsLe; cbn. rewrite E1. lia.
  - by exists l.
  - intros _ v Hv. exists v. split; [congruence|reflexivity].
  - lia.
  - intros _ b Hb. left. split; [congruence|lia].
Qed.

Lemma roundOK_raise cs cs1 round step : core (cs_rs cs1) = core (cs_rs cs) -> cs_state cs1 = cs_state cs ->
  later (cs_rs cs) round step -> RoundStepNewRound <= step -> roundOK (cs_rs cs) (cs_state cs) ->
  roundOK (setRoundStep round step (cs_rs cs1)) (cs_state cs1).
Proof.
  intros (E1 & E2 & E3 & E4 & E5 & E6)%core_eq Hs Hl Hstep [R1 R2 R3 R4 R5 R6].
  unfold later in *. split; unfold RoundStepNewRound, RoundStepNewHeight in *; cbn; rewrite ?E1, ?E2, ?E3, ?E6, ?Hs; try done; try lia.
  intros b Hb. rewrite E5 in Hb. destruct (R6 b Hb) as (L1 & L2 & L3). unfold lockOK; cbn. rewrite E4, E6.
  split; [lia|]. split; [lia|done].
Qed.

(** A quiet computation that may schedule a timeout for the round it leads
    to, followed by the change of round and step. *)
Lemma good_raise q cs cs1 round step : quiet (timeoutFor (Height (cs_rs cs)) round) cs cs1 ->
  later (cs_rs cs) round step -> RoundStepNewRound <= step -> forall cs', updateRoundStep round step cs1 = Ret (tt, cs') -> goodUpTo q cs cs'.
Proof.
  intros (Hc & Hs & l & El & Hl) Hlater Hstep cs' E Hi. pose proof (evolves_raise q _ _ _ _ _ Hc El Hlater _ E) as He.
  split; [|done]. injection E as <-. eapply Inv_evolves; [done|done|exact El| | |].
  - eapply Forall_impl; [done|]. intros e. apply timeoutFor_ok; cbn; [by apply core_eq in Hc as (-> & _)|lia].
  - eapply Forall_impl; [done|]. intros e. apply timeoutFor_noVote.
  - cbn. apply (roundOK_raise cs cs1); [done..|apply Hi].
Qed.

Lemma votesOK_keeps h v v' : HeightVoteSet.keeps v v' -> votesOK h v -> votesOK h v'.
Proof. intros [_ K1 K2] (V1 & V2 & V3 & V4). injection K1 as _ K1 K3. split_and!; [congruence..|by apply K2]. Qed.

(** More votes. *)
Lemma good_votes q cs v v' : Votes (cs_rs cs) = Some v -> HeightVoteSet.keeps v v' ->
  forall cs', modRS (setVotes (Some v')) cs = Ret (tt, cs') -> goodUpTo q cs cs'.
Proof.
  intros Hv K cs' [= <-] Hi. set (cs' := mkCS _ _ _ _ _).
  assert (He : evolves q cs cs').
  { split; cbn.
    - right. cbn. split; [done|]. right. split; [done|lia].
    - exists []. by rewrite app_nil_r.
    - intros _ w Hw. assert (w = v) as -> by congruence. by exists v'.
    - lia.
    - intros _ b Hb. left. split; [done|lia]. }
  split; [|done]. destruct (inv_round _ _ Hi) as [(w & Hw & Hok) R2 R3 R4 R5 R6]. assert (w = v) as -> by congruence.
  eapply (Inv_evolves _ _ _ []); [done..| |constructor|constructor|].
  - cbn. by rewrite app_nil_r.
  - split; cbn; try done; [exists v'; split; [done|by eapply votesOK_keeps]|].
    intros b Hb. destruct (R6 b Hb) as (L1 & L2 & votes & id & s & L3 & L4 & L5 & L6 & L7).
    split; [done|]. split; [done|]. exists v', id, s. split; [done|]. split; [|done]. apply K. by assert (votes = v) as <- by congruence.
Qed.

Definition Good {A} (m : M A) : Prop := forall cs a cs', m cs = Ret (a, cs') -> good cs cs'.

Lemma good_refl q cs : goodUpTo q cs cs.
Proof. apply good_harmless, quiet_refl. Qed.
Lemma Good_ret {A} (a : A) : Good (mret a).
Proof. intros cs b cs' [= <- <-]. apply good_refl. Qed.
Lemma Good_bind {A B} (m : M A) (k : A -> M B) : Good m -> (forall a, Good (k a)) -> Good (m ≫= k).
Proof. intros Hm Hk cs b cs' (a & cs1 & E1 & E2)%M_bind_inv. eapply good_trans; [by eapply Hm|by eapply Hk]. Qed.
Lemma Good_quiet {A} (m : M A) : Quiet harmless m -> Good m.
Proof. intros Hq cs a cs' E. apply good_harmless. by eapply Hq. Qed.
Lemma Good_when b m : Good m -> Good (whenM b m).
Proof. intros Hm. destruct b; [done|apply Good_ret]. Qed.
Lemma Good_panic {A} p : Good (panic_ p : M A).
Proof. intros cs a cs' [=]. Qed.

(** A computation with a quiet first step. *)
Tactic Notation "quietly" simple_intropattern(p) := apply Good_bind; [apply Good_quiet; quiet_solve|intros p].

(** A computation that starts by reading the round state. *)
Lemma Good_getRS {A} (k : RoundState -> M A) :
  (forall cs a cs', k (cs_rs cs) cs = Ret (a, cs') -> good cs cs') -> Good (getRS ≫= k).
Proof. intros Hk cs a cs' (rs & cs1 & [= <- <-] & E)%M_bind_inv. by eapply Hk. Qed.

Lemma Quiet_weaken {A} (P Q : Effect -> Prop) (m : M A) : (forall e, P e -> Q e) -> Quiet P m -> Quiet Q m.
Proof. intros HPQ Hm cs a cs' E. eapply quiet_weaken; [done|by eapply Hm]. Qed.
Lemma Quiet_timeoutFor {A} h r (m : M A) : Quiet harmless m -> Quiet (timeoutFor h r) m.
Proof. apply Quiet_weaken. apply harmless_timeoutFor. Qed.

(** The steps of a round: a quiet part, the new round and step, and a rest. *)
Definition Enters (h r s : Z) {A} (m : M A) : Prop := forall cs0 cs a cs', Height (cs_rs cs0) = h -> later (cs_rs cs0) r s ->
  quiet (timeoutFor h r) cs0 cs -> m cs = Ret (a, cs') -> good cs0 cs'.

Lemma Enters_bind {A B} h r s (m : M A) (k : A -> M B) : Quiet (timeoutFor h r) m -> (forall a, Enters h r s (k a)) ->
  Enters h r s (m ≫= k).
Proof.
  intros Hm Hk cs0 cs b cs' Hh Hl Hq (a & cs1 & E1 & E2)%M_bind_inv. eapply Hk; [done..| |done].
  eapply quiet_trans; [done|by eapply Hm].
Qed.
Lemma Enters_panic {A} h r s p : Enters h r s (panic_ p : M A).
Proof. intros cs0 cs a cs' _ _ _ [=]. Qed.
Lemma Enters_raise {A} h r s (rest : M A) : RoundStepNewRound <= s -> Good rest ->
  Enters h r s (updateRoundStep r s ≫= fun _ => rest).
Proof.
  intros Hs Hr cs0 cs a cs' <- Hl Hq ([] & cs1 & E1 & E2)%M_bind_inv.
  eapply good_trans; [by eapply good_raise|by eapply Hr].
Qed.

Lemma Good_guarded h r s (m : M unit) : Enters h r s m ->
  Good (rs ← getRS; if pastStep rs h r s then mret tt else m).
Proof.
  intros Hm. apply Good_getRS. intros cs u cs' E. destruct (pastStep _ _ _ _) eqn:Eg; [injection E as <- <-; apply good_refl|].
  apply pastStep_false in Eg as [Hh Hl]. eapply Hm; [done..|apply quiet_refl|done].
Qed.

Lemma Quiet_scheduleTimeout d h r s : Quiet (timeoutFor h r) (scheduleTimeout d h r s).
Proof. apply Quiet_emit. right. by eexists. Qed.
#[local] Hint Resolve Quiet_scheduleTimeout : quiet.

(** Each quiet part is harmless, or schedules the timeout. *)
Ltac enter_step :=
  match goal with
  | |- Enters _ _ _ (updateRoundStep _ _ ≫= _) => apply Enters_raise; [by vm_compute|]
  | |- Enters _ _ _ (_ ≫= _) => apply Enters_bind; [first [solve [eauto with quiet]|apply Quiet_timeoutFor; solve [quiet_solve]]|intros ?]
  | |- Enters _ _ _ (if ?b then _ else _) => destruct b
  | |- Enters _ _ _ (panic_ _) => apply Enters_panic
  end.
Ltac good_newStep := apply Good_quiet, Quiet_newStep.

(** ** Votes *)

(** Signing votes of type [t] for [id], the first of this round. *)
Lemma Inv_vote q cs cs' t id l : InvUpTo q cs -> evolves q cs cs' -> roundOK (cs_rs cs') (cs_state cs') ->
  cs_effects cs' = cs_effects cs ++ l -> Height (cs_rs cs') = Height (cs_rs cs) -> Round (cs_rs cs') = Round (cs_rs cs) ->
  Step (cs_rs cs) < stepOf t <= Step (cs_rs cs') ->
  Forall (fun e => effectOK cs' e /\ (noVote e \/ signed (cs_rs cs) t id e)) l ->
  (t = VoteTypePrecommit -> bid_Hash id <> [] -> exists b, LockedBlock (cs_rs cs') = Some b /\
     Block.Hash (Some b) = bid_Hash id /\ LockedRound (cs_rs cs') = Round (cs_rs cs')) ->
  (t = VoteTypePrevote -> q = true /\ forall b, LockedBlock (cs_rs cs) = Some b -> bid_Hash id = Block.Hash (Some b)) ->
  InvUpTo q cs'.
Proof.
  intros Hi He Hr El Eh Er [Hs1 Hs2] Hl Hpre Hvote. split; [done| |].
  - rewrite El. apply Forall_app. split.
    + eapply Forall_impl; [apply Hi|]. intros e. by eapply effectOK_evolves.
    + eapply Forall_impl; [done|]. by intros e [].
  - pose proof (inv_history _ _ Hi) as Hh. eapply (history_sub (fun t' v => didVote cs t' v \/
      (t' = t /\ v_Height v = Height (cs_rs cs') /\ v_Round v = Round (cs_rs cs') /\ v_BlockID v = id))).
    + intros t' v [Hv Ht]. rewrite El, elem_of_app in Hv. destruct Hv as [Hv|Hv]; [by left; split|right].
      destruct (proj1 (Forall_forall _ _) Hl _ Hv) as [_ [[]|(w & [= <-] & W1 & W2 & W3 & W4)]]. split_and!; congruence.
    + apply history_add; [by eapply history_evolves|done| |done|].
      * intros v Hv Hvh. destruct (hs_past _ _ _ Hh t v Hv) as [Hlt|[_ Hre]]; [lia|]. unfold reached in Hre. lia.
      * intros Ht v Hv Hn Hvh Hvr. destruct (Hvote Ht) as [-> Hlk]. rewrite Ht in Hs1. change (stepOf VoteTypePrevote) with RoundStepPrevote in Hs1.
        destruct (hs_lock _ _ _ Hh v Hv Hn ltac:(congruence)) as [(b & B1 & B2 & _)|(votes & r & id' & V1 & V2 & V3 & V4 & V5)].
        -- left. rewrite <- B2. by apply Hlk.
        -- right. exists r, id'. specialize (V5 eq_refl). unfold reached, RoundStepPrevote, RoundStepPrecommit in *. split; [lia|].
           split; [|done]. eapply polka_evolves; [done|]. exists votes. split; [left; split; [congruence|done]|done].
Qed.

Lemma signed_core rs rs' t id e : core rs' = core rs -> signed rs' t id e -> signed rs t id e.
Proof. intros (E1 & E2 & _)%core_eq. unfold signed. by rewrite E1, E2. Qed.

(** The prevote of a locked node is for the locked block. *)
Lemma defaultDoPrevote_spec cs u cs' : defaultDoPrevote cs = Ret (u, cs') -> exists id,
  quiet (signed (cs_rs cs) VoteTypePrevote id) cs cs' /\ forall b, LockedBlock (cs_rs cs) = Some b -> bid_Hash id = Block.Hash (Some b).
Proof.
  unfold defaultDoPrevote. intros (rs & c & [= <- <-] & E)%M_bind_inv. destruct (LockedBlock (cs_rs cs)) as [b|] eqn:Eb.
  { apply M_bind_inv in E as (ps & c & E1 & E). assert (c = cs) as -> by (by destruct (LockedBlockParts (cs_rs cs)); injection E1 as _ <-).
    eexists. split; [by eapply signAddVote_spec|]. by intros b' [= <-]. }
  destruct (ProposalBlock (cs_rs cs)); [|eexists; split; [by eapply signAddVote_spec|by intros b' [=]]].
  apply M_bind_inv in E as (err & c1 & E1 & E). pose proof (Quiet_validateProposal (fun _ => False) _ _ _ E1) as Q1.
  destruct err as [e|].
  - apply signAddVote_spec in E. eexists. split; [|by intros b' [=]]. pose proof Q1 as (K1 & _).
    eapply quiet_trans; [by eapply quiet_weaken; [|exact Q1]|]. eapply quiet_weaken; [|exact E]. intros e'. by apply signed_core.
  - apply M_bind_inv in E as ([] & c2 & E2 & E). pose proof (Quiet_fillProposal (fun _ => False) _ _ _ E2) as Q2.
    apply M_bind_inv in E as (rs & c & [= <- <-] & E). apply M_bind_inv in E as (ps & c3 & E3 & E).
    pose proof (Quiet_loadParts (fun _ => False) _ _ _ _ E3) as Q3. apply signAddVote_spec in E.
    pose proof (quiet_trans _ _ _ _ Q1 (quiet_trans _ _ _ _ Q2 Q3)) as Q. pose proof Q as (K & _).
    eexists. split; [|by intros b' [=]]. eapply quiet_trans; [by eapply quiet_weaken; [|exact Q]|].
    eapply quiet_weaken; [|exact E]. intros e'. by apply signed_core.
Qed.

(** A prevote is cast in the round that was reached. *)
Lemma enterPrevote_spec h r cs u cs' : enterPrevote h r cs = Ret (u, cs') ->
  (Height (cs_rs cs) = h -> r <= Round (cs_rs cs)) -> good cs cs'.
Proof.
  unfold enterPrevote. intros (rs & c & [= <- <-] & E)%M_bind_inv Hr. destruct (pastStep _ _ _ _) eqn:Eg.
  { injection E as <- <-. apply good_refl. }
  apply pastStep_false in Eg as [Hh Hl]. specialize (Hr Hh). assert (r = Round (cs_rs cs)) as -> by (unfold later in Hl; lia).
  apply M_bind_inv in E as (ok & c1 & E1 & E). apply (Quiet_isProposalComplete harmless) in E1 as Q1.
  apply M_bind_inv in E as ([] & c2 & E2 & E). assert (Q2 : quiet harmless c1 c2) by (revert E2; apply Quiet_when; quiet_solve).
  pose proof (quiet_trans _ _ _ _ Q1 Q2) as Q. pose proof Q as (K & S & l & L & F).
  apply M_bind_inv in E as ([] & c3 & (id & (K3 & S3 & l3 & L3 & F3) & Hlk)%defaultDoPrevote_spec & E).
  apply M_bind_inv in E as ([] & c4 & E4 & E). eapply (good_trans _ _ c4); [|by eapply good_harmless, Quiet_newStep].
  assert (K13 : core (cs_rs c3) = core (cs_rs cs)) by congruence. pose proof (core_eq _ _ K13) as (C1 & C2 & C3 & C4 & C5 & C6).
  pose proof (core_eq _ _ K) as (D1 & D2 & D3 & D4 & D5 & D6).
  assert (L13 : cs_effects c3 = cs_effects cs ++ (l ++ l3)) by (by rewrite L3, L, app_assoc).
  intros Hi. pose proof (evolves_raise true _ _ _ _ _ K13 L13 Hl _ E4) as He. split; [|done]. injection E4 as <-.
  eapply (Inv_vote true cs _ VoteTypePrevote id (l ++ l3)); cbn; [done|exact He| |exact L13|done|done| | |done|].
  - apply (roundOK_raise cs c3); [done|congruence|done|by vm_compute|apply Hi].
  - change (stepOf VoteTypePrevote) with RoundStepPrevote. unfold later, RoundStepPrevote in *. lia.
  - apply Forall_app. split; [eapply Forall_impl; [exact F|]; intros e He'; split; [by apply harmless_ok|left; by apply harmless_noVote]|].
    eapply Forall_impl; [exact F3|]. intros e He'. split; [|right; exact (signed_core _ _ _ _ _ K He')].
    destruct He' as (v & -> & _ & _ & Vt & _). cbn. intros E'. rewrite E' in Vt. discriminate.
  - intros _. split; [done|]. intros b Hb. apply Hlk. congruence.
Qed.

(** In the current round, after a quiet part. *)
Lemma good_prevoteAfter h cs c u cs' : quiet harmless cs c -> enterPrevote h (Round (cs_rs cs)) c = Ret (u, cs') -> good cs cs'.
Proof.
  intros Q E. eapply good_trans; [by apply good_harmless|]. eapply enterPrevote_spec; [exact E|]. intros _.
  destruct Q as ((_ & Q2 & _)%core_eq & _). lia.
Qed.

Lemma Good_enterPrevoteWait h r : Good (enterPrevoteWait h r).
Proof. apply Good_guarded. repeat enter_step. good_newStep. Qed.

Lemma Good_enterPrecommitWait h r : Good (enterPrecommitWait h r).
Proof. apply Good_guarded. repeat enter_step. good_newStep. Qed.

Lemma Good_enterPropose h r : Good (enterPropose h r).
Proof.
  apply Good_guarded. repeat enter_step.
  apply Good_bind; [good_newStep|intros _]. quietly c.
  apply Good_getRS. intros cs u cs' E. destruct c; [|injection E as _ <-; apply good_refl].
  by eapply good_prevoteAfter; [apply quiet_refl|].
Qed.

(** Computations that are good at height [h] and round [r]. *)
Definition GoodAt (h r : Z) {A} (m : M A) : Prop := forall cs a cs', Height (cs_rs cs) = h -> Round (cs_rs cs) = r ->
  m cs = Ret (a, cs') -> good cs cs'.

Lemma GoodAt_good {A} h r (m : M A) : Good m -> GoodAt h r m.
Proof. intros Hm cs a cs' _ _ E. by eapply Hm. Qed.

Lemma GoodAt_bind {A B} h r (m : M A) (k : A -> M B) : Quiet (timeoutFor h r) m -> (forall a, GoodAt h r (k a)) ->
  GoodAt h r (m ≫= k).
Proof.
  intros Hm Hk cs b cs' Hh Hr (a & cs1 & E1 & E2)%M_bind_inv. pose proof (Hm _ _ _ E1) as Hq.
  pose proof Hq as (Hc & _). apply core_eq in Hc as (C1 & C2 & _).
  eapply good_trans; [|by eapply Hk; [..|done]; congruence]. eapply good_quiet; [|exact Hq].
  intros e He. split; [eapply timeoutFor_ok; [..|exact He]; lia|by eapply timeoutFor_noVote].
Qed.

Lemma GoodAt_setVotes {A} h r (f : HeightVoteSet.HeightVoteSet -> go HeightVoteSet.HeightVoteSet) (k : M A) :
  (forall v v', f v = Ret v' -> HeightVoteSet.keeps v v') -> GoodAt h r k ->
  GoodAt h r (votes ← getVotes; votes ← lift (f votes); modRS (setVotes (Some votes));; k).
Proof.
  intros Hf Hk cs a cs' Hh Hr (v & cs1 & E1 & E)%M_bind_inv.
  assert (cs1 = cs /\ Votes (cs_rs cs) = Some v) as [-> Hv].
  { unfold getVotes in E1. apply M_bind_inv in E1 as (rs & c & [= <- <-] & E1). unfold lift in E1.
    by destruct (Votes (cs_rs cs)) as [x|]; [injection E1 as <- <-|]. }
  apply M_bind_inv in E as (v' & cs1 & E2 & E). unfold lift in E2. destruct (f v) as [x|] eqn:Ef; [injection E2 as <- <-|done].
  apply M_bind_inv in E as ([] & cs2 & E3 & E). eapply good_trans; [eapply (good_votes true cs v x); [done|by apply Hf|exact E3]|].
  injection E3 as <-. by eapply Hk; [..|exact E].
Qed.

Lemma enters_raise_at {A} h r s (rest : M A) cs0 cs a cs' : RoundStepNewRound <= s -> GoodAt h r rest ->
  Height (cs_rs cs0) = h -> later (cs_rs cs0) r s -> quiet (timeoutFor h r) cs0 cs ->
  (updateRoundStep r s ≫= fun _ => rest) cs = Ret (a, cs') ->
  good cs0 cs' /\ (Inv cs0 -> Height (cs_rs cs') = h -> r <= Round (cs_rs cs')).
Proof.
  intros Hs Hr <- Hl Hq ([] & cs1 & E1 & E2)%M_bind_inv.
  assert (Hg1 : good cs0 cs1) by (by eapply good_raise).
  assert (Hg2 : good cs1 cs').
  { eapply Hr; [..|exact E2]; injection E1 as <-; cbn; [|done]. by destruct Hq as ((? & _)%core_eq & _). }
  split; [by eapply good_trans|]. intros Hi Hh. destruct (Hg1 Hi) as [Hi1 _]. destruct (Hg2 Hi1) as [_ [Hle _ _ _ _]].
  unfold hrsLe in Hle. injection E1 as <-. cbn in Hle. destruct Hq as ((? & _)%core_eq & _). lia.
Qed.

Lemma enterNewRound_rest h r vals : GoodAt h r (
    modRS (setValidators (Some vals));;
    whenM (negb (r =? 0)) (modRS (setProposal None None None));;
    votes ← getVotes;
    votes ← lift (HeightVoteSet.SetRound votes (add64 r 1));
    modRS (setVotes (Some votes));;
    emit (EffEvent EventNewRound);;
    needProof ← (if WaitForTxs config && (r =? 0) then needProofBlock h else mret true);
    let waitForTxs := WaitForTxs config && (r =? 0) && negb needProof in
    if waitForTxs then
      whenM (0 <? CreateEmptyBlocksInterval config)
        (scheduleTimeout (EmptyBlocksInterval config) h r RoundStepNewRound);;
      emit (EffHeartbeat h r)
    else enterPropose h r).
Proof.
  apply GoodAt_bind; [quiet_solve|intros _]. apply GoodAt_bind; [quiet_solve|intros _].
  apply (GoodAt_setVotes h r (fun v => HeightVoteSet.SetRound v (add64 r 1))); [intros v v'; apply HeightVoteSet.SetRound_keeps|].
  apply GoodAt_bind; [apply Quiet_timeoutFor; quiet_solve|intros _]. apply GoodAt_bind; [quiet_solve|intros needProof].
  cbv zeta. destruct (_ && negb needProof); [|apply GoodAt_good, Good_enterPropose].
  apply GoodAt_bind; [apply Quiet_when, Quiet_scheduleTimeout|intros _].
  apply GoodAt_good, Good_quiet. quiet_solve.
Qed.

Lemma enterNewRound_spec h r cs u cs' : enterNewRound h r cs = Ret (u, cs') ->
  good cs cs' /\ (Inv cs -> Height (cs_rs cs') = h -> r <= Round (cs_rs cs')).
Proof.
  unfold enterNewRound. intros (rs & c & [= <- <-] & E)%M_bind_inv. destruct (_ || _) eqn:Eg.
  { injection E as <- <-. split; [apply good_refl|]. intros _ <-.
    rewrite !orb_true_iff, andb_true_iff, negb_true_iff, Z.eqb_neq, Z.ltb_lt, Z.eqb_eq in Eg. lia. }
  rewrite !orb_false_iff, andb_false_iff, negb_false_iff, Z.eqb_eq, Z.ltb_ge, Z.eqb_neq, negb_false_iff, Z.eqb_eq in Eg.
  destruct Eg as [[Hh Hr] Hs].
  assert (Hl : later (cs_rs cs) r RoundStepNewRound) by (unfold later, RoundStepNewRound, RoundStepNewHeight in *; lia).
  apply M_bind_inv in E as (now & c1 & E1 & E). pose proof (Quiet_call (timeoutFor h r) _ _ _ _ E1) as Q1.
  apply M_bind_inv in E as (vals & c2 & E2 & E). pose proof (Quiet_getValidators (timeoutFor h r) _ _ _ E2) as Q2.
  apply M_bind_inv in E as (vals' & c3 & E3 & E).
  assert (Q3 : quiet (timeoutFor h r) c2 c3).
  { destruct (Round (cs_rs cs) <? r); [by eapply Quiet_lift|by eapply Quiet_ret]. }
  eapply (enters_raise_at h r RoundStepNewRound); [by vm_compute|apply enterNewRound_rest|done|exact Hl| |exact E].
  eapply quiet_trans; [exact Q1|]. by eapply quiet_trans.
Qed.

Lemma Good_enterNewRound h r : Good (enterNewRound h r).
Proof. intros cs u cs' E. by apply (enterNewRound_spec h r cs u cs'). Qed.

(** ** Precommit *)

Lemma getVotes_ret cs v cs' : getVotes cs = Ret (v, cs') -> cs' = cs /\ Votes (cs_rs cs) = Some v.
Proof.
  unfold getVotes. intros (rs & c & [= <- <-] & E)%M_bind_inv. unfold lift in E.
  by destruct (Votes (cs_rs cs)) as [x|]; [injection E as <- <-|].
Qed.

Lemma lift_ret {A} (m : go A) cs a cs' : lift m cs = Ret (a, cs') -> cs' = cs /\ m = Ret a.
Proof. unfold lift. destruct m; [|done]. by intros [= <- <-]. Qed.

Lemma getState_ret cs st cs' : getState cs = Ret (st, cs') -> cs' = cs /\ cs_state cs = Some st.
Proof. unfold getState. destruct (cs_state cs); [|done]. by intros [= <- <-]. Qed.

Lemma prevotesAt_ret r cs o cs' : prevotesAt r cs = Ret (o, cs') ->
  cs' = cs /\ exists v, Votes (cs_rs cs) = Some v /\ forall id, VoteSet.TwoThirdsMajority o = (id, true) -> HeightVoteSet.majority v VoteTypePrevote r id.
Proof.
  unfold prevotesAt. intros (v & c & [-> Hv]%getVotes_ret & [-> E]%lift_ret)%M_bind_inv. split; [done|]. exists v. split; [done|].
  intros id Hm. destruct o as [vs|]; [|done]. exists vs. split; [exact E|]. cbn in Hm. destruct (VoteSet.vs_maj23 vs); [congruence|done].
Qed.

Lemma precommitsAt_ret r cs o cs' : precommitsAt r cs = Ret (o, cs') ->
  cs' = cs /\ exists v, Votes (cs_rs cs) = Some v /\ forall id, VoteSet.TwoThirdsMajority o = (id, true) -> HeightVoteSet.majority v VoteTypePrecommit r id.
Proof.
  unfold precommitsAt. intros (v & c & [-> Hv]%getVotes_ret & [-> E]%lift_ret)%M_bind_inv. split; [done|]. exists v. split; [done|].
  intros id Hm. destruct o as [vs|]; [|done]. exists vs. split; [exact E|]. cbn in Hm. destruct (VoteSet.vs_maj23 vs); [congruence|done].
Qed.

Lemma validateProposal_ret cs e cs' : validateProposal cs = Ret (e, cs') ->
  cs' = cs /\ exists s, cs_state cs = Some s /\ State.validateBlock s (ProposalBlock (cs_rs cs)) = Ret e.
Proof.
  unfold validateProposal. intros (st & c & [-> Hs]%getState_ret & E)%M_bind_inv.
  apply M_bind_inv in E as (rs & c & [= <- <-] & [-> E]%lift_ret). split; [done|]. by exists st.
Qed.

(** Reading the part sets. *)
Lemma loadParts_ret p cs ps cs' : loadParts p cs = Ret (ps, cs') -> cs' = cs.
Proof. unfold loadParts. by destruct p; intros [= _ ->]. Qed.

(** The proposal block hashes to [h]: it is there, with its header filled in. *)
Lemma proposalHashesTo_ret h cs b cs' : proposalHashesTo h cs = Ret (b, cs') ->
  quiet (fun _ => False) cs cs' /\
  (b = true -> exists blk, ProposalBlock (cs_rs cs') = Some blk /\ Block.HashesTo (Some blk) h = true).
Proof.
  intros E. split; [by eapply Quiet_proposalHashesTo|]. intros ->. unfold proposalHashesTo in E. destruct (zlen h =? 0); [done|].
  apply M_bind_inv in E as ([] & c & E1 & E). apply M_bind_inv in E as (rs & c' & [= <- <-] & E). injection E as E <-.
  destruct (ProposalBlock (cs_rs c)) as [blk|]; [by exists blk|]. unfold Block.HashesTo in E. by destruct (zlen h =? 0).
Qed.

(** What [doPrecommit] does with the lock: the new lock is the old one, or on
    a valid block with a polka; the old lock goes on, or a polka is for
    another block; the node is locked on the block it precommits. *)
Record lockStep (r : Z) cs cs1 : Prop := mkLockStep {
  ls_hrs : Height (cs_rs cs1) = Height (cs_rs cs) /\ Round (cs_rs cs1) = Round (cs_rs cs) /\
           Step (cs_rs cs1) = Step (cs_rs cs) /\ Votes (cs_rs cs1) = Votes (cs_rs cs) /\ cs_state cs1 = cs_state cs;
  ls_effects : exists l id, cs_effects cs1 = cs_effects cs ++ l /\
    Forall (fun e => effectOK cs1 e /\ (noVote e \/ signed (cs_rs cs) VoteTypePrecommit id e)) l /\
    (bid_Hash id <> [] -> exists b, LockedBlock (cs_rs cs1) = Some b /\ Block.Hash (Some b) = bid_Hash id /\ LockedRound (cs_rs cs1) = r);
  ls_new : forall b, LockedBlock (cs_rs cs1) = Some b ->
    (LockedBlock (cs_rs cs) = Some b /\ LockedRound (cs_rs cs1) = LockedRound (cs_rs cs)) \/
    (LockedRound (cs_rs cs1) = r /\ exists v id s, Votes (cs_rs cs) = Some v /\ HeightVoteSet.majority v VoteTypePrevote r id /\
       Block.HashesTo (Some b) (bid_Hash id) = true /\ cs_state cs = Some s /\ State.validateBlock s (Some b) = Ret None);
  ls_old : forall b, LockedBlock (cs_rs cs) = Some b ->
    (LockedBlock (cs_rs cs1) = Some b /\ (LockedRound (cs_rs cs1) = LockedRound (cs_rs cs) \/ LockedRound (cs_rs cs1) = r)) \/
    (exists v id, Votes (cs_rs cs) = Some v /\ HeightVoteSet.majority v VoteTypePrevote r id /\
       Block.HashesTo (Some b) (bid_Hash id) = false) }.

Lemma evolves_lockStep r cs cs1 cs2 : roundOK (cs_rs cs) (cs_state cs) -> Round (cs_rs cs) = r -> Step (cs_rs cs) < RoundStepPrecommit ->
  lockStep r cs cs1 -> updateRoundStep r RoundStepPrecommit cs1 = Ret (tt, cs2) -> evolves false cs cs2.
Proof.
  intros [_ _ _ _ _ R6] Hr Hs [(E1 & E2 & E3 & E4 & E5) (l & id & El & _) _ Hold] [= <-]. split; cbn.
  - unfold hrsLe; cbn. lia.
  - by exists l.
  - intros _ v Hv. exists v. split; [congruence|reflexivity].
  - lia.
  - intros _ b Hb. destruct (R6 b Hb) as (L1 & L2 & _). assert (LockedRound (cs_rs cs) < r) by lia.
    destruct (Hold b Hb) as [[Hb1 Hlr]|(v & id' & Hv & Hm & Hd)]; [left; split; [done|lia]|].
    right. exists r, id', v. split; [lia|]. split; [done|]. split; [congruence|done].
Qed.

Lemma roundOK_lockStep r cs cs1 : roundOK (cs_rs cs) (cs_state cs) -> Round (cs_rs cs) = r -> Step (cs_rs cs) < RoundStepPrecommit ->
  lockStep r cs cs1 -> roundOK (setRoundStep r RoundStepPrecommit (cs_rs cs1)) (cs_state cs1).
Proof.
  intros [R1 R2 R3 R4 R5 R6] Hr Hs [(E1 & E2 & E3 & E4 & E5) _ Hnew _]. split; cbn; rewrite ?E1, ?E4, ?E5; try done; [lia|].
  intros b Hb. unfold lockOK; cbn. rewrite E4. destruct (Hnew b Hb) as [[Hb0 Hlr]|[Hlr Hx]].
  - destruct (R6 b Hb0) as (L1 & L2 & L3). rewrite Hlr. split; [lia|]. split; [lia|done].
  - rewrite Hlr. split; [lia|]. split; [done|done].
Qed.

Lemma lockStep_raise r cs cs1 cs2 : InvUpTo false cs -> Round (cs_rs cs) = r -> Step (cs_rs cs) < RoundStepPrecommit -> lockStep r cs cs1 ->
  updateRoundStep r RoundStepPrecommit cs1 = Ret (tt, cs2) -> Inv cs2 /\ evolves true cs cs2.
Proof.
  intros Hi Hr Hs Hl E. pose proof (evolves_lockStep r cs cs1 cs2 (inv_round _ _ Hi) Hr Hs Hl E) as He.
  pose proof (roundOK_lockStep r cs cs1 (inv_round _ _ Hi) Hr Hs Hl) as Hro.
  destruct Hl as [(E1 & E2 & E3 & E4 & E5) (l & id & El & Fl & Hid) _ _]. injection E as <-.
  split; [|by apply evolves_strict]. apply Inv_strict; [|done].
  eapply (Inv_vote false cs _ VoteTypePrecommit id l); [done|exact He|exact Hro|exact El|exact E1|by cbn; lia| | | |done].
  - cbn. change (stepOf VoteTypePrecommit) with RoundStepPrecommit. lia.
  - eapply Forall_impl; [exact Fl|]. intros e [Hok Hv]. split; [|done]. revert Hok.
    destruct e as [ti|[p|h x p|[v|]]|w|ev|h x|b ps c|h|st id' b| |h v]; cbn; try done. by rewrite E2, Hr.
  - intros _ Hn. by apply Hid.
Qed.

(** The votes [doPrecommit] casts for nil. *)
Definition nilID : BlockID := mkBlockID [] zeroPartSetHeader.
Definition maySign (rs : RoundState) (id : BlockID) (e : Effect) : Prop := harmless e \/ signed rs VoteTypePrecommit id e.

Lemma maySign_nil cs rs e : maySign rs nilID e -> effectOK cs e.
Proof. intros [He|(v & -> & _ & _ & _ & Hid)]; [by apply harmless_ok|]. cbn. rewrite Hid. by intros _ []. Qed.

Lemma maySign_noVote rs id e : maySign rs id e -> noVote e \/ signed rs VoteTypePrecommit id e.
Proof. intros [He|He]; [left; by apply harmless_noVote|by right]. Qed.

Lemma signed_polka c c' v r id : core (cs_rs c') = core (cs_rs c) -> Votes (cs_rs c) = Some v -> Round (cs_rs c) = r ->
  HeightVoteSet.majority v VoteTypePrevote r id -> forall e, maySign (cs_rs c) id e -> effectOK c' e.
Proof.
  intros (C1 & C2 & _ & _ & _ & C6)%core_eq Hv Hr Hm e [He|(w & -> & W1 & W2 & _ & W4)]; [by apply harmless_ok|]. intros _ _. exists v.
  rewrite W1, W2, W4, Hr. split; [left; split; congruence|done].
Qed.

(** Voting for nil, with the lock as it was. *)
Lemma lockStep_quiet r cs cs1 : quiet (maySign (cs_rs cs) nilID) cs cs1 -> lockStep r cs cs1.
Proof.
  intros (Hc & Hs & l & El & Hl). destruct (core_eq _ _ Hc) as (E1 & E2 & E3 & E4 & E5 & E6). split.
  - done.
  - exists l, nilID. split; [done|]. split; [|done]. eapply Forall_impl; [done|]. intros e He.
    split; [by eapply maySign_nil|by apply maySign_noVote].
  - intros b Hb. left. split; congruence.
  - intros b Hb. left. split; [congruence|by left].
Qed.

(** The lock is set (or reset) between two quiet parts. *)
Lemma lockStep_set r r' b ps id cs c1 c2 c3 : quiet harmless cs c1 -> modRS (setLocked r' b ps) c1 = Ret (tt, c2) ->
  quiet (maySign (cs_rs cs) id) c2 c3 -> (forall e, maySign (cs_rs cs) id e -> effectOK c3 e) ->
  (bid_Hash id <> [] -> exists b', b = Some b' /\ Block.Hash (Some b') = bid_Hash id) ->
  (forall b', b = Some b' -> r' = r /\ exists v id s, Votes (cs_rs cs) = Some v /\ HeightVoteSet.majority v VoteTypePrevote r id /\
     Block.HashesTo (Some b') (bid_Hash id) = true /\ cs_state cs = Some s /\ State.validateBlock s (Some b') = Ret None) ->
  (forall b0, LockedBlock (cs_rs cs) = Some b0 -> (b = Some b0 /\ r' = r) \/
     exists v id, Votes (cs_rs cs) = Some v /\ HeightVoteSet.majority v VoteTypePrevote r id /\
       Block.HashesTo (Some b0) (bid_Hash id) = false) ->
  lockStep r cs c3.
Proof.
  intros (K1 & S1 & l1 & L1 & F1) [= <-] (K2 & S2 & l2 & L2 & F2) HP Hid Hn Ho.
  apply core_eq in K1 as (A1 & A2 & A3 & A4 & A5 & A6), K2 as (B1 & B2 & B3 & B4 & B5 & B6). cbn in *. split.
  - split_and!; congruence.
  - exists (l1 ++ l2), id. rewrite L2, L1, app_assoc. split; [done|]. split.
    + apply Forall_app. split; (eapply Forall_impl; [done|]); intros e He; (split; [|]).
      * by apply harmless_ok.
      * left. by apply harmless_noVote.
      * by apply HP.
      * by apply maySign_noVote.
    + intros Hne. destruct (Hid Hne) as (b' & -> & Hb). exists b'. split; [congruence|]. split; [done|]. destruct (Hn b' eq_refl) as [-> _]. done.
  - intros b' Hb. right. rewrite B4. apply Hn. congruence.
  - intros b0 Hb. rewrite B4, B5. destruct (Ho b0 Hb) as [[-> ->]|Hu]; [left; split; [done|by right]|by right].
Qed.

Lemma lockStep_quiet_l r cs c1 c2 : quiet harmless cs c1 -> lockStep r c1 c2 -> lockStep r cs c2.
Proof.
  intros (K & S & l & L & F) [(E1 & E2 & E3 & E4 & E5) (l' & id & L' & F' & Hid) Hn Ho].
  pose proof (core_eq _ _ K) as (A1 & A2 & A3 & A4 & A5 & A6). split.
  - split_and!; congruence.
  - exists (l ++ l'), id. rewrite L', L, app_assoc. split; [done|]. split; [|done]. apply Forall_app. split; (eapply Forall_impl; [done|]).
    + intros e He. split; [by apply harmless_ok|left; by apply harmless_noVote].
    + intros e [He [Hv|Hv]]; (split; [done|]); [by left|right; by eapply signed_core].
  - rewrite <- A4, <- A5, <- A6, <- S. done.
  - rewrite <- A4, <- A5, <- A6. done.
Qed.

Lemma Inv_quiet q cs cs' : quiet harmless cs cs' -> InvUpTo q cs -> InvUpTo q cs'.
Proof. intros Hq Hi. by destruct (good_harmless q _ _ Hq Hi). Qed.

Lemma HashesTo_nil b : Block.HashesTo b [] = false.
Proof. by destruct b. Qed.

Lemma HashesTo_true b h : Block.HashesTo b h = true -> Block.Hash b = h.
Proof. unfold Block.HashesTo. destruct (_ =? 0); [done|]. destruct b; [|done]. apply bytes_eqb_true. Qed.

Lemma mkBlockID_eta id : mkBlockID (bid_Hash id) (bid_PartsHeader id) = id.
Proof. by destruct id. Qed.

Lemma emit_quiet ev cs u cs' : emit (EffEvent ev) cs = Ret (u, cs') -> quiet harmless cs cs'.
Proof. by apply Quiet_emit. Qed.

(** Events, then a vote for [id], in a state with the round of [rs]. *)
Lemma signAfter rs id cs u cs' (m : M unit) : Quiet harmless m -> core (cs_rs cs) = core rs \/ (Height (cs_rs cs) = Height rs /\ Round (cs_rs cs) = Round rs) ->
  (m;; signAddVote VoteTypePrecommit (bid_Hash id) (bid_PartsHeader id)) cs = Ret (u, cs') -> quiet (maySign rs id) cs cs'.
Proof.
  intros Hm Hc ([] & c & E1 & E2)%M_bind_inv. pose proof (Hm _ _ _ E1) as Q. eapply quiet_trans; [eapply quiet_weaken; [|exact Q]; by left|].
  apply signAddVote_spec in E2. rewrite mkBlockID_eta in E2. eapply quiet_weaken; [|exact E2]. intros e (v & -> & V1 & V2 & V3 & V4). right.
  exists v. destruct Q as ((Q1 & Q2 & _)%core_eq & _). assert (Height (cs_rs cs) = Height rs /\ Round (cs_rs cs) = Round rs) as [H1' H2'].
  { destruct Hc as [(C1 & C2 & _)%core_eq|[]]; done. }
  split_and!; congruence.
Qed.

(** Setting the lock and voting for [id], after a quiet part. *)
Lemma lockAndVote_spec v id cs c1 b ps ev u cs' : Votes (cs_rs cs) = Some v ->
  HeightVoteSet.majority v VoteTypePrevote (Round (cs_rs cs)) id -> quiet harmless cs c1 ->
  (modRS (setLocked (Round (cs_rs cs)) b ps);; emit (EffEvent ev);;
   signAddVote VoteTypePrecommit (bid_Hash id) (bid_PartsHeader id)) c1 = Ret (u, cs') ->
  (exists b', b = Some b' /\ Block.HashesTo (Some b') (bid_Hash id) = true /\
     exists s, cs_state cs = Some s /\ State.validateBlock s (Some b') = Ret None) ->
  (forall b0, LockedBlock (cs_rs cs) = Some b0 -> b = Some b0 \/ Block.HashesTo (Some b0) (bid_Hash id) = false) ->
  lockStep (Round (cs_rs cs)) cs cs'.
Proof.
  intros Hv Hm Q F (b' & -> & Hb & s & Hs & Hval) Hold. set (r := Round (cs_rs cs)) in *.
  apply M_bind_inv in F as ([] & c2 & F1 & F). pose proof Q as (KQ & _). pose proof (core_eq _ _ KQ) as (A1 & A2 & A3 & A4 & A5 & A6).
  apply (signAfter (cs_rs cs)) in F; [|apply Quiet_emit; exact I|injection F1 as <-; by right]. pose proof F as (K3 & _).
  eapply (lockStep_set r r (Some b') ps id); [exact Q|exact F1|exact F| | | |].
  - intros e He. injection F1 as <-. apply (core_eq _ _) in K3 as (B1 & B2 & B3 & B4 & B5 & B6). cbn in *.
    destruct He as [He|(w & -> & W1 & W2 & _ & W4)]; [by apply harmless_ok|]. intros _ _. exists v. rewrite W1, W2, W4.
    split; [left; split; congruence|done].
  - intros _. exists b'. split; [done|]. by apply HashesTo_true.
  - intros b0 [= <-]. split; [done|]. by exists v, id, s.
  - intros b0 Hb0. destruct (Hold b0 Hb0) as [[= ->]|Hd]; [by left|right]. by exists v, id.
Qed.

Lemma precommitBlock_spec q v id cs u cs' : InvUpTo q cs -> Votes (cs_rs cs) = Some v ->
  HeightVoteSet.majority v VoteTypePrevote (Round (cs_rs cs)) id ->
  precommitBlock (Round (cs_rs cs)) id cs = Ret (u, cs') -> lockStep (Round (cs_rs cs)) cs cs'.
Proof.
  intros Hi Hv Hm. unfold precommitBlock. intros (rs & c & [= <- <-] & E)%M_bind_inv.
  destruct (Block.HashesTo (LockedBlock (cs_rs cs)) (bid_Hash id)) eqn:Eh.
  - destruct (LockedBlock (cs_rs cs)) as [b|] eqn:Eb; [|unfold Block.HashesTo in Eh; by destruct (_ =? 0)].
    eapply (lockAndVote_spec v id cs cs); [done|done|apply quiet_refl|exact E| |intros b0 Hb0; left; congruence].
    destruct (ro_lock _ _ (inv_round _ _ Hi) b Eb) as (_ & _ & w & i & s & _ & _ & _ & Hs & Hval). exists b. split_and!; [done..|by exists s].
  - apply M_bind_inv in E as (prop & c1 & E1 & E). apply proposalHashesTo_ret in E1 as [Q1 Hp].
    assert (Q1' : quiet harmless cs c1) by (by eapply quiet_weaken; [|exact Q1]). pose proof Q1 as (K1 & S1 & _).
    assert (Hu : forall b0, LockedBlock (cs_rs cs) = Some b0 -> Block.HashesTo (Some b0) (bid_Hash id) = false) by congruence.
    destruct prop.
    + destruct (Hp eq_refl) as (blk & Hb & Hh). apply M_bind_inv in E as (err & c2 & (-> & s & Hs & Hval)%validateProposal_ret & E).
      destruct err; [done|]. apply M_bind_inv in E as (rs & c2 & [= <- <-] & E). rewrite Hb in E, Hval.
      eapply (lockAndVote_spec v id cs c1); [done|done|done|exact E| |by right; apply Hu]. exists blk. split_and!; [done..|]. exists s.
      split; congruence.
    + apply M_bind_inv in E as ([] & c2 & E2 & E). eapply (lockStep_set _ 0 None None nilID); [exact Q1'|exact E2| |intros e; apply maySign_nil|done|done|].
      * apply M_bind_inv in E as (rs & c & [= <- <-] & E). apply M_bind_inv in E as (ps & c & ->%loadParts_ret & E).
        apply M_bind_inv in E as ([] & c3 & E3 & E). assert (Q3 : quiet harmless c2 c3).
        { revert E3. destruct (negb _); [apply Quiet_bind; [apply Quiet_lift|intros ps']; quiet_solve|apply Quiet_ret]. }
        eapply quiet_trans; [eapply quiet_weaken; [|exact Q3]; by left|]. eapply (signAfter (cs_rs cs) nilID c3 u cs' (emit (EffEvent EventUnlock))); [apply Quiet_emit; exact I| |exact E].
        right. pose proof Q3 as ((C1 & C2 & _)%core_eq & _). injection E2 as <-. cbn in *. apply core_eq in K1 as (D1 & D2 & _). split; congruence.
      * intros b0 Hb. right. exists v, id. by rewrite (Hu b0 Hb).
Qed.

Lemma doPrecommit_spec q cs u cs' : InvUpTo q cs -> doPrecommit (Round (cs_rs cs)) cs = Ret (u, cs') -> lockStep (Round (cs_rs cs)) cs cs'.
Proof.
  intros Hi. unfold doPrecommit. intros (prevotes & c & (-> & v & Hv & Hm)%prevotesAt_ret & E)%M_bind_inv.
  destruct (VoteSet.TwoThirdsMajority prevotes) as [id []].
  2: { apply lockStep_quiet. eapply quiet_weaken; [|by eapply signAddVote_spec]. by right. }
  specialize (Hm id eq_refl). set (r := Round (cs_rs cs)) in *. apply M_bind_inv in E as ([] & c1 & E1 & E).
  pose proof (emit_quiet _ _ _ _ E1) as Q1. apply (lockStep_quiet_l _ _ _ _ Q1).
  pose proof Q1 as ((A1 & A2 & _ & _ & _ & A6)%core_eq & _). rewrite <- A6 in Hv. unfold r in *. rewrite <- A2 in *. clear r.
  apply M_bind_inv in E as (v2 & c2 & [-> _]%getVotes_ret & E). apply M_bind_inv in E as (pol & c2 & [-> _]%lift_ret & E).
  destruct (pol.1 <? _); [done|]. destruct (zlen (bid_Hash id) =? 0) eqn:Ez.
  2: by eapply precommitBlock_spec; [by eapply Inv_quiet|done..].
  apply Z.eqb_eq in Ez. assert (bid_Hash id = []) as Hnil by (destruct (bid_Hash id); [done|unfold zlen in Ez; cbn in Ez; lia]).
  apply M_bind_inv in E as (rs & c2 & [= <- <-] & E). destruct (LockedBlock (cs_rs c1)) as [b|] eqn:Eb.
  - apply M_bind_inv in E as ([] & c2 & E2 & E). apply M_bind_inv in E2 as ([] & c3 & E2 & E3).
    eapply (lockStep_set _ 0 None None nilID); [apply quiet_refl|exact E2| |intros e; apply maySign_nil|done|done|].
    + eapply quiet_trans; [eapply quiet_weaken; [|exact (emit_quiet _ _ _ _ E3)]; by left|].
      eapply quiet_weaken; [|by eapply signAddVote_spec]. intros e He. right. injection E3 as <-. injection E2 as <-. exact He.
    + intros b0 _. right. exists v, id. rewrite Hnil. by rewrite HashesTo_nil.
  - apply M_bind_inv in E as ([] & c2 & [= <-] & E). apply lockStep_quiet. eapply quiet_weaken; [|by eapply signAddVote_spec]. by right.
Qed.

(** A round is left for its precommit step only once it is reached. *)
Lemma enterPrecommit_now h cs u cs' : enterPrecommit h (Round (cs_rs cs)) cs = Ret (u, cs') -> Height (cs_rs cs) = h ->
  InvUpTo false cs -> Inv cs' /\ evolves true cs cs'.
Proof.
  unfold enterPrecommit. intros (rs & c & [= <- <-] & E)%M_bind_inv Hh Hi. destruct (pastStep _ _ _ _) eqn:Eg.
  { injection E as <- <-. assert (RoundStepPrecommit <= Step (cs_rs cs)).
    { unfold pastStep in Eg. rewrite !orb_true_iff, andb_true_iff, negb_true_iff, Z.eqb_neq, Z.ltb_lt, Z.eqb_eq, Z.leb_le in Eg. lia. }
    split; [by apply Inv_strict|]. by eapply (evolves_core true cs cs []); [|rewrite app_nil_r]. }
  apply pastStep_false in Eg as [_ Hl]. unfold later in Hl.
  apply M_bind_inv in E as ([] & c1 & E1 & E). apply M_bind_inv in E as ([] & c2 & E2 & E).
  destruct (lockStep_raise _ cs c1 c2 Hi eq_refl ltac:(lia) (doPrecommit_spec _ _ tt _ Hi E1) E2) as [Hi2 He2].
  destruct (good_harmless true c2 cs' (Quiet_newStep _ _ _ E) Hi2) as [Hi3 He3]. split; [done|by eapply evolves_trans].
Qed.

Lemma enterPrecommit_step h cs u cs' : enterPrecommit h (Round (cs_rs cs)) cs = Ret (u, cs') -> Height (cs_rs cs) = h ->
  RoundStepPrecommit <= Step (cs_rs cs').
Proof.
  unfold enterPrecommit. intros (rs & c & [= <- <-] & E)%M_bind_inv Hh. destruct (pastStep _ _ _ _) eqn:Eg.
  { injection E as <- <-. unfold pastStep in Eg. rewrite !orb_true_iff, andb_true_iff, negb_true_iff, Z.eqb_neq, Z.ltb_lt, Z.eqb_eq, Z.leb_le in Eg. lia. }
  apply M_bind_inv in E as ([] & c1 & _ & E). apply M_bind_inv in E as ([] & c2 & [= <-] & E).
  apply Quiet_newStep in E as ((_ & _ & -> & _)%core_eq & _). done.
Qed.

Lemma enterPrecommit_spec h r cs u cs' : enterPrecommit h r cs = Ret (u, cs') ->
  (Height (cs_rs cs) = h -> r <= Round (cs_rs cs)) -> good cs cs'.
Proof.
  intros E Hr. destruct (pastStep (cs_rs cs) h r RoundStepPrecommit) eqn:Eg.
  - unfold enterPrecommit in E. apply M_bind_inv in E as (rs & c & [= <- <-] & E). rewrite Eg in E. injection E as <- <-. apply good_refl.
  - apply pastStep_false in Eg as [Hh Hl]. specialize (Hr Hh). unfold later in Hl. assert (r = Round (cs_rs cs)) as -> by lia.
    intros Hi. eapply enterPrecommit_now; [done..|by apply Inv_weaken].
Qed.

(** ** Commit *)

(** Effects that are right in every state. *)
Definition always (e : Effect) : Prop := (forall cs, effectOK cs e) /\ noVote e.

Lemma harmless_always e : harmless e -> always e.
Proof. intros He. split; [intros cs; by apply harmless_ok|by apply harmless_noVote]. Qed.

Lemma always_ok cs e : always e -> effectOK cs e /\ noVote e.
Proof. intros [He Hn]. split; [apply He|done]. Qed.

Lemma Quiet_always {A} (m : M A) : Quiet harmless m -> Quiet always m.
Proof. apply Quiet_weaken, harmless_always. Qed.

Lemma Good_always {A} (m : M A) : Quiet always m -> Good m.
Proof. intros Hm cs a cs' E. eapply (good_quiet always); [apply always_ok|by eapply Hm]. Qed.

Lemma Quiet_saveBlock b ps h : Quiet always (saveBlock b ps h).
Proof. unfold saveBlock. repeat quiet_step; (split; [intros ?|]; exact I). Qed.

Lemma add64_height st : State.heightOK st -> add64 (State.LastBlockHeight st) 1 = State.LastBlockHeight st + 1.
Proof. unfold State.heightOK, add64. intros. apply wrap64_small. unfold_int64. lia. Qed.

(** The state after [updateToState]: a new height, nothing locked. *)
Lemma good_newHeight st cs c1 c2 votes rs' : State.heightOK st -> notAhead (cs_state cs) st = false -> quiet always cs c1 ->
  emit (EffVotes (Height (cs_rs cs)) (Votes (cs_rs cs))) c1 = Ret (tt, c2) ->
  Height rs' = State.LastBlockHeight st + 1 -> Round rs' = 0 -> Step rs' = RoundStepNewHeight -> LockedBlock rs' = None ->
  Votes rs' = Some votes -> votesOK (Height rs') votes ->
  good cs (mkCS rs' (Some st) (cs_parts c2) (cs_world c2) (cs_effects c2)).
Proof.
  intros Hst Hna (K & S & l & L & F) [= <-] R1 R2 R3 R4 R5 R6 Hi. set (cs' := mkCS _ _ _ _ _).
  destruct (inv_round _ _ Hi) as [(v & Hv & Hvok) (s & Hs & Hok & Hh) I3 I4 I5 I6].
  assert (Hlt : Height (cs_rs cs) < Height (cs_rs cs')). { cbn. unfold notAhead in Hna. rewrite Hs in Hna. apply Z.leb_gt in Hna. lia. }
  assert (El : cs_effects cs' = cs_effects cs ++ (l ++ [EffVotes (Height (cs_rs cs)) (Votes (cs_rs cs))])).
  { cbn. by rewrite L, app_assoc. }
  assert (He : evolves true cs cs').
  { split; [by left|by eexists|lia| |lia]. intros _ w Hw. exists w. split; [|reflexivity]. rewrite El, Hw.
    rewrite !elem_of_app, list_elem_of_singleton. by right; right. }
  split; [|done]. eapply Inv_evolves; [done|done|exact El| | |].
  - apply Forall_app. split; [eapply Forall_impl; [done|]; intros e Ha; by apply always_ok|]. constructor; [|done]. rewrite Hv. exact Hvok.
  - apply Forall_app. split; [eapply Forall_impl; [done|]; intros e Ha; by apply Ha|]. by constructor.
  - split; cbn; [by exists votes|by exists st|lia|lia|done|congruence].
Qed.

Lemma updateToState_good st cs u cs' : stateOK st -> updateToState st cs = Ret (u, cs') -> good cs cs'.
Proof.
  intros (Hst & Hvals & Hcache). unfold updateToState. intros (c & c' & [= <- <-] & E)%M_bind_inv.
  destruct (_ && _); [done|]. match type of E with (if ?b then _ else _) _ = _ => destruct b; [done|] end.
  destruct (notAhead _ _) eqn:Hna; [by eapply Good_quiet; [apply Quiet_newStep|exact E]|].
  apply M_bind_inv in E as (last & c1 & E1 & E). apply (Quiet_lastPrecommits always) in E1.
  apply M_bind_inv in E as (start & c2 & E2 & E).
  assert (Q2 : quiet always c1 c2) by (revert E2; destruct (_ =? _); [apply Quiet_bind; [apply Quiet_call|intros; apply Quiet_ret]|apply Quiet_ret]).
  apply M_bind_inv in E as (votes & c3 & [-> Hn]%lift_ret & E). apply M_bind_inv in E as ([] & c4 & E3 & E).
  apply M_bind_inv in E as ([] & c5 & [= <-] & E). apply M_bind_inv in E as ([] & c6 & [= <-] & E).
  eapply good_trans; [|by eapply Good_quiet; [apply Quiet_newStep|exact E]].
  apply HeightVoteSet.NewHeightVoteSet_sound in Hn as (N1 & N2 & N3).
  eapply (good_newHeight st cs c2 c4 votes); cbn; try done; [by eapply quiet_trans|by apply add64_height|].
  split_and!; [done|congruence..|done].
Qed.

Lemma Good_scheduleRound0 : Good scheduleRound0.
Proof.
  unfold scheduleRound0. quietly now. apply Good_getRS. intros cs u cs' E Hi.
  eapply (good_quiet (fun e => effectOK cs' e /\ noVote e)); [done| |done]. eapply Quiet_emit; [|exact E].
  injection E as _ <-. cbn. split; [|done]. split; [lia|]. intros _. apply (ro_round _ _ (inv_round _ _ Hi)).
Qed.

Lemma HasHeader_true ps hd : PartSet.HasHeader ps hd = true -> PartSet.Header ps = hd.
Proof. unfold PartSet.HasHeader. destruct ps; [|done]. apply PartSetHeader_Equals_eq. Qed.

(** [saveBlock] adds one effect: the block is saved, or was. *)
Lemma saveBlock_ret blk hd ps cs u cs' : Block.b_Header blk = Some hd -> saveBlock (Some blk) ps (Block.Height hd) cs = Ret (u, cs') ->
  cs_rs cs' = cs_rs cs /\ cs_state cs' = cs_state cs /\ exists e, cs_effects cs' = cs_effects cs ++ [e] /\ savedAs (Some blk) e /\ always e.
Proof.
  intros Hh. unfold saveBlock. intros (stored & c & E1 & E)%M_bind_inv. injection E1 as <- <-. destruct (_ <? _).
  - apply M_bind_inv in E as (rs & c & [= <- <-] & E). apply M_bind_inv in E as (p & c & (-> & _)%precommitsAt_ret & E).
    apply M_bind_inv in E as (p' & c & [-> _]%lift_ret & E). apply M_bind_inv in E as (seen & c & [-> _]%lift_ret & E).
    apply M_bind_inv in E as ([] & c & [= <-] & E). unfold callGo in E. cbn in E.
    destruct (storeSave _ _ _ _) as [w|]; [|done]. injection E as _ <-. cbn. split_and!; [done..|]. eexists. split; [done|].
    split; [|by repeat split]. left. by do 2 eexists.
  - injection E as _ <-. cbn. split_and!; [done..|]. eexists. split; [done|]. split; [|by repeat split]. right. by exists blk, hd.
Qed.

(** A block was applied: decided, valid, saved and logged. *)
Lemma good_applied cs c1 v r id s blk hd ps c2 c3 c4 : quiet (fun _ => False) cs c1 -> Votes (cs_rs cs) = Some v ->
  HeightVoteSet.majority v VoteTypePrecommit r id -> cs_state cs = Some s -> Block.HashesTo (Some blk) (bid_Hash id) = true ->
  State.validateBlock s (Some blk) = Ret None -> Block.b_Header blk = Some hd ->
  saveBlock (Some blk) ps (Block.Height hd) c1 = Ret (tt, c2) -> emit (EffWal (WalEndHeight (Height (cs_rs cs)))) c2 = Ret (tt, c3) ->
  emit (EffApplied s id (Some blk)) c3 = Ret (tt, c4) -> good cs c4.
Proof.
  intros Q Hv Hm Hs Hb Hval Hh (R2 & S2 & e & E2 & Hsav & Hal)%saveBlock_ret [= <-] [= <-] Hi; [|done]. set (c4 := mkCS _ _ _ _ _).
  destruct Q as (K & S & l & L & F). assert (l = []) as ->. { destruct F as [|x]; done. } rewrite app_nil_r in L.
  destruct (inv_round _ _ Hi) as [_ (s' & Hs' & Hok & Hht) _ _ _ _]. rewrite Hs in Hs'. injection Hs' as <-.
  rewrite <- (add64_height _ Hok) in Hht.
  assert (El : cs_effects c4 = cs_effects cs ++ [e; EffWal (WalEndHeight (Height (cs_rs cs))); EffApplied s id (Some blk)]).
  { cbn. by rewrite E2, L, <- !app_assoc. }
  assert (K4 : core (cs_rs c4) = core (cs_rs cs)) by (cbn; by rewrite R2).
  pose proof (core_eq _ _ K4) as (C1 & _ & _ & _ & _ & C6).
  eapply (good_quiet (fun x => effectOK c4 x /\ noVote x)); [done| |done]. split; [exact K4|]. split; [cbn; by rewrite S2|].
  eexists. split; [exact El|]. constructor; [by apply always_ok|]. constructor; [done|]. constructor; [|done]. split; [|done].
  cbn [effectOK]. exists r. split_and!; [|done..|].
  - exists v. split; [left; split; congruence|done].
  - exists (cs_effects cs), e, []. rewrite El, Hht. done.
Qed.

Lemma callGo_quiet {A} (f : World -> go (A * World)) cs a cs' : callGo f cs = Ret (a, cs') ->
  quiet always cs cs' /\ exists w', f (cs_world cs) = Ret (a, w').
Proof.
  intros E. split; [by eapply Quiet_callGo|]. unfold callGo in E. destruct (f (cs_world cs)) as [[x w]|] eqn:Ef; [|done].
  injection E as <- <-. by exists w.
Qed.

Lemma Good_finalizeCommit h : Good (finalizeCommit h).
Proof.
  unfold finalizeCommit. apply Good_getRS. intros cs u cs' E. destruct (negb _ || negb _) eqn:Eg; [injection E as _ <-; apply good_refl|].
  apply orb_false_iff in Eg as [Eg%negb_false_iff%Z.eqb_eq _].
  apply M_bind_inv in E as (pre & c & (-> & v & Hv & Hm)%precommitsAt_ret & E).
  apply M_bind_inv in E as (parts & c & ->%loadParts_ret & E).
  destruct (VoteSet.TwoThirdsMajority pre) as [id []]; [|done]. specialize (Hm id eq_refl).
  destruct (PartSet.HasHeader _ _) eqn:Ehd; [|done]. apply HasHeader_true in Ehd. cbn [negb] in E.
  apply M_bind_inv in E as (hs & c1 & [Q1 Hp]%proposalHashesTo_ret & E). destruct hs; [|done]. cbn [negb] in E.
  destruct (Hp eq_refl) as (blk & Hb & Hhash). apply M_bind_inv in E as (err & c & (-> & s & Hs & Hval)%validateProposal_ret & E).
  destruct err; [done|]. apply M_bind_inv in E as (rs & c & [= <- <-] & E). rewrite Hb in E, Hval.
  apply M_bind_inv in E as (b & c & [-> [= <-]]%lift_ret & E).
  apply M_bind_inv in E as (hd & c & [-> Hh]%lift_ret & E). assert (Block.b_Header blk = Some hd) as Hh'.
  { destruct (Block.b_Header blk); [by injection Hh as ->|done]. }
  apply M_bind_inv in E as ([] & c2 & E2 & E). apply M_bind_inv in E as ([] & c3 & E3 & E).
  apply M_bind_inv in E as (st & c & [-> Hst]%getState_ret & E). apply M_bind_inv in E as ([] & c4 & E4 & E).
  pose proof Q1 as (_ & S1 & _). destruct (saveBlock_ret _ _ _ _ _ _ Hh' E2) as (_ & S2 & _).
  assert (st = s) as ->. { injection E3 as <-. cbn in Hst. congruence. }
  rewrite (HashesTo_true _ _ Hhash), Ehd, mkBlockID_eta in *. rewrite <- Eg in E3.
  assert (G4 : good cs c4) by (eapply (good_applied cs c1 v _ id s blk hd); try done; congruence). eapply good_trans; [exact G4|].
  apply M_bind_inv in E as (res & c5 & [Q5 (w' & Hap)]%callGo_quiet & E).
  eapply good_trans; [eapply (good_quiet always); [apply always_ok|exact Q5]|].
  destruct res as [st'|]; [|by eapply Good_quiet; [|exact E]; quiet_solve].
  apply apply_ok in Hap. apply M_bind_inv in E as ([] & c6 & E6 & E). apply M_bind_inv in E as ([] & c7 & E7 & E).
  eapply good_trans; [by eapply (Good_quiet (recordMetrics h blk)); [apply Quiet_recordMetrics|]|].
  eapply good_trans; [by eapply updateToState_good|]. by eapply Good_scheduleRound0.
Qed.

Lemma Good_tryFinalizeCommit h : Good (tryFinalizeCommit h).
Proof.
  unfold tryFinalizeCommit. apply Good_bind; [apply Good_quiet; quiet_solve|intros rs]. destruct (negb _); [apply Good_panic|].
  apply Good_bind; [apply Good_quiet; quiet_solve|intros pre]. destruct (VoteSet.TwoThirdsMajority pre) as [id ok].
  destruct (_ || _); [apply Good_ret|]. apply Good_bind; [apply Good_quiet; quiet_solve|intros hs].
  destruct (negb hs); [apply Good_ret|]. apply Good_finalizeCommit.
Qed.

(** To the commit step, in the current round. *)
Lemma Good_toCommit {A} (k : M A) : Good k ->
  forall cs0 cs a cs', Step (cs_rs cs0) < RoundStepCommit -> quiet harmless cs0 cs ->
  (rs ← getRS; updateRoundStep (Round rs) RoundStepCommit;; k) cs = Ret (a, cs') -> good cs0 cs'.
Proof.
  intros Hk cs0 cs a cs' Hs Hq (rs & c & [= <- <-] & ([] & c1 & E1 & E2)%M_bind_inv)%M_bind_inv.
  pose proof Hq as ((C1 & C2 & _)%core_eq & _). eapply good_trans; [|by eapply Hk]. rewrite C2 in E1.
  eapply (good_raise true cs0 cs (Round (cs_rs cs0)) RoundStepCommit); [|right; done|by vm_compute|exact E1].
  eapply quiet_weaken; [apply harmless_timeoutFor|done].
Qed.

Lemma Good_enterCommit h r : Good (enterCommit h r).
Proof.
  unfold enterCommit. apply Good_getRS. intros cs u cs' E. destruct (_ || _) eqn:Eg; [injection E as _ <-; apply good_refl|].
  apply orb_false_iff in Eg as [_ Eg%Z.leb_gt]. apply M_bind_inv in E as (pre & c & (-> & _)%precommitsAt_ret & E).
  destruct (VoteSet.TwoThirdsMajority pre) as [id []]; [|done].
  apply M_bind_inv in E as ([] & c1 & E1 & E). apply M_bind_inv in E as (hs & c2 & E2 & E). apply M_bind_inv in E as (rs & c & [= <- <-] & E).
  apply M_bind_inv in E as (ps & c & ->%loadParts_ret & E). apply M_bind_inv in E as ([] & c3 & E3 & E).
  eapply Good_toCommit; [|exact Eg| |exact E].
  - quietly now. quietly [].
    apply Good_bind; [good_newStep|intros []]. apply Good_tryFinalizeCommit.
  - eapply quiet_trans; [|eapply quiet_trans; [by eapply Quiet_proposalHashesTo|]].
    + eapply Quiet_when; [|exact E1]. apply Quiet_modRS. done.
    + revert E3. destruct (_ && _); [|apply Quiet_ret]. apply Quiet_bind; [apply Quiet_lift|intros ps']. quiet_solve.
Qed.

(** ** Messages *)

Lemma Good_completeBlock h ps : Good (completeBlock h ps).
Proof.
  unfold completeBlock. quietly _. quietly rs.
  quietly st. destruct (Block.UnmarshalBlock _ _ _) as [b ok].
  quietly _. destruct (negb ok); [apply Good_ret|]. quietly b'. quietly hd. quietly _.
  apply Good_getRS. intros cs a cs' E. apply M_bind_inv in E as (prevotes & c & (-> & _)%prevotesAt_ret & E).
  apply M_bind_inv in E as ([] & c1 & E1 & E). assert (Q1 : quiet harmless cs c1).
  { revert E1. destruct (VoteSet.TwoThirdsMajority prevotes) as [id two]. apply Quiet_when, Quiet_updateValid. }
  apply M_bind_inv in E as (complete & c2 & E2 & E). assert (Q2 : quiet harmless c1 c2).
  { revert E2. destruct (_ <=? _); [apply Quiet_isProposalComplete|apply Quiet_ret]. }
  pose proof (quiet_trans _ _ _ _ Q1 Q2) as Q. apply M_bind_inv in E as ([] & c3 & E3 & E). injection E as _ <-.
  destruct complete; [by eapply good_prevoteAfter|]. eapply good_trans; [by apply good_harmless|]. revert E3. apply Good_when, Good_tryFinalizeCommit.
Qed.

Lemma Good_addProposalBlockPart h part : Good (addProposalBlockPart h part).
Proof.
  unfold addProposalBlockPart. quietly rs. destruct (negb _); [apply Good_ret|].
  quietly [ps|]; [|apply Good_quiet; quiet_solve].
  quietly [[ps' added] err]. quietly _.
  destruct err; [apply Good_ret|]. destruct (_ && _); [apply Good_completeBlock|apply Good_ret].
Qed.

Lemma Good_addLastCommitVote v : Good (addLastCommitVote v).
Proof.
  unfold addLastCommitVote. quietly rs. destruct (negb _); [apply Good_ret|].
  quietly [[last added] err]. quietly _.
  destruct (negb added); [apply Good_ret|]. quietly _.
  apply Good_bind; [apply Good_when, Good_enterNewRound|intros _]. apply Good_ret.
Qed.

(** A later polka for another block unlocks; in a round that is not over, the
    precommit step must follow. *)
Lemma good_unlock q cs cs' v id r b : LockedBlock (cs_rs cs) = Some b -> LockedRound (cs_rs cs) < r <= Round (cs_rs cs) ->
  (q = true -> reached (cs_rs cs) r RoundStepPrecommit) ->
  Votes (cs_rs cs) = Some v -> HeightVoteSet.majority v VoteTypePrevote r id -> Block.HashesTo (Some b) (bid_Hash id) = false ->
  modRS (setLocked 0 None None) cs = Ret (tt, cs') -> goodUpTo q cs cs'.
Proof.
  intros Hb Hr Hq Hv Hm Hd [= <-] Hi. set (cs' := mkCS _ _ _ _ _).
  assert (He : evolves q cs cs').
  { split; cbn.
    - unfold hrsLe; cbn. lia.
    - exists []. by rewrite app_nil_r.
    - intros _ w Hw. exists w. split; [done|reflexivity].
    - lia.
    - intros _ b' Hb'. rewrite Hb in Hb'. injection Hb' as <-. right. by exists r, id, v. }
  split; [|done]. destruct (inv_round _ _ Hi) as [R1 R2 R3 R4 R5 R6]. eapply (Inv_evolves _ _ _ []); [done..| |constructor|constructor|].
  - cbn. by rewrite app_nil_r.
  - by split.
Qed.

(** The condition to unlock. *)
Definition unlocks (rs : RoundState) (id : BlockID) (r : Z) : Prop :=
  exists b, LockedBlock rs = Some b /\ LockedRound rs < r <= Round rs /\ Block.HashesTo (Some b) (bid_Hash id) = false.

Lemma onPolka_good q v id r cs u cs' : Votes (cs_rs cs) = Some v -> HeightVoteSet.majority v VoteTypePrevote r id ->
  (q = true -> unlocks (cs_rs cs) id r -> reached (cs_rs cs) r RoundStepPrecommit) ->
  onPolka id r cs = Ret (u, cs') -> goodUpTo q cs cs'.
Proof.
  intros Hv Hm Hq. unfold onPolka. intros (rs & c & [= <- <-] & ([] & c1 & E1 & E2)%M_bind_inv)%M_bind_inv.
  eapply good_trans; [|by apply good_harmless; eapply Quiet_updateValid].
  destruct (LockedBlock (cs_rs cs)) as [b|] eqn:Hb; [|injection E1 as <-; apply good_refl]. cbn [andb] in E1.
  destruct (_ && _) eqn:Eg; [|injection E1 as <-; apply good_refl].
  rewrite !andb_true_iff, Z.ltb_lt, Z.leb_le, negb_true_iff in Eg. destruct Eg as [[L1 L2] Hd].
  apply M_bind_inv in E1 as ([] & c2 & E1 & E3). eapply good_trans; [|by apply good_harmless; eapply emit_quiet].
  eapply (good_unlock q cs _ v id r b); [exact Hb|lia| |exact Hv|exact Hm|exact Hd|exact E1]. intros q1. apply Hq; [done|]. exists b. split_and!; [done|lia|lia|done].
Qed.

Lemma onPolka_hrs id r cs u cs' : onPolka id r cs = Ret (u, cs') ->
  Height (cs_rs cs') = Height (cs_rs cs) /\ Round (cs_rs cs') = Round (cs_rs cs) /\ Step (cs_rs cs') = Step (cs_rs cs).
Proof.
  unfold onPolka. intros (rs & c & [= <- <-] & ([] & c1 & E1 & E2)%M_bind_inv)%M_bind_inv.
  apply (Quiet_updateValid harmless) in E2 as ((U1 & U2 & U3 & _)%core_eq & _).
  unfold whenM in E1. destruct (_ && _) in E1; [|injection E1 as <-; done].
  apply M_bind_inv in E1 as ([] & c2 & [= <-] & [= <-]). done.
Qed.

(** In a round that [enterNewRound] has reached. *)
Lemma Good_inRound {A} h r (k : M A) : (forall cs a cs', (Height (cs_rs cs) = h -> r <= Round (cs_rs cs)) -> k cs = Ret (a, cs') -> good cs cs') ->
  Good (enterNewRound h r;; k).
Proof.
  intros Hk cs a cs' ([] & c & [G1 Hr]%enterNewRound_spec & E)%M_bind_inv Hi. destruct (G1 Hi) as [Hi1 _].
  eapply good_trans; [exact G1| |done]. eapply Hk; [|exact E]. by apply Hr.
Qed.

Lemma good_precommitThen {A} h r (k : M A) cs a cs' : Good k -> (Height (cs_rs cs) = h -> r <= Round (cs_rs cs)) ->
  (enterPrecommit h r;; k) cs = Ret (a, cs') -> good cs cs'.
Proof. intros Hk Hr ([] & c & E1 & E2)%M_bind_inv. eapply good_trans; [by eapply enterPrecommit_spec|by eapply Hk]. Qed.

(** A polka in a set is two thirds of the votes. *)
Lemma prevotes_any cs r o cs' id : Inv cs -> prevotesAt r cs = Ret (o, cs') -> VoteSet.TwoThirdsMajority o = (id, true) ->
  VoteSet.HasTwoThirdsAny o = true.
Proof.
  intros Hi. unfold prevotesAt. intros (v & c & [-> Hv]%getVotes_ret & [-> E]%lift_ret)%M_bind_inv Hm. destruct o as [vs|]; [|done].
  destruct (ro_votes _ _ (inv_round _ _ Hi)) as (w & Hw & _ & W1 & W2 & W3). assert (w = v) as -> by congruence.
  destruct (W3 W1 W2 _ _ _ E) as [Iv _]. cbn in Hm. destruct (VoteSet.vs_maj23 vs) as [b|] eqn:Eb; [|done]. by eapply VoteSet.maj23_any.
Qed.

(** What [onPrevote] does once it has looked for a polka. *)
Lemma Good_onPrevoteRest h r prevotes : Good (
    rs ← getRS;
    if (Round rs <=? r) && VoteSet.HasTwoThirdsAny prevotes then
      enterNewRound h r;;
      if VoteSet.HasTwoThirdsMajority prevotes then enterPrecommit h r
      else enterPrevote h r;; enterPrevoteWait h r
    else
      match Proposal_ rs with
      | None => mret tt
      | Some p =>
          if (0 <=? p_POLRound p) && (p_POLRound p =? r) then
            complete ← isProposalComplete;
            whenM complete (enterPrevote h (Round rs))
          else mret tt
      end).
Proof.
  apply Good_getRS. intros cs u cs'.
  destruct (_ && _); [|destruct (Proposal_ (cs_rs cs)) as [p|]; [|apply Good_ret]; destruct (_ && _); [|apply Good_ret]].
  - apply Good_inRound. intros c' a' c'' Hr. destruct (VoteSet.HasTwoThirdsMajority prevotes).
    + intros E. by eapply enterPrecommit_spec.
    + intros ([] & c & E1 & E2)%M_bind_inv. eapply good_trans; [by eapply enterPrevote_spec|by eapply Good_enterPrevoteWait].
  - intros (ok & c & E1 & E2)%M_bind_inv. apply (Quiet_isProposalComplete harmless) in E1.
    destruct ok; [by eapply good_prevoteAfter|]. injection E2 as _ <-. by apply good_harmless.
Qed.

(** The polka is for the current round, before its precommit step, and
    against the lock: the node unlocks and goes to the precommit step. *)
Lemma unlock_precommits h id cs c1 c u cs' prevotes v : onPolka id (Round (cs_rs cs)) cs = Ret (tt, c1) -> Votes (cs_rs cs) = Some v ->
  HeightVoteSet.majority v VoteTypePrevote (Round (cs_rs cs)) id -> unlocks (cs_rs cs) id (Round (cs_rs cs)) -> Height (cs_rs cs) = h ->
  VoteSet.TwoThirdsMajority prevotes = (id, true) -> VoteSet.HasTwoThirdsAny prevotes = true ->
  c = Round (cs_rs cs) ->
  (rs ← getRS;
    if (Round rs <=? c) && VoteSet.HasTwoThirdsAny prevotes then
      enterNewRound h c;;
      if VoteSet.HasTwoThirdsMajority prevotes then enterPrecommit h c
      else enterPrevote h c;; enterPrevoteWait h c
    else
      match Proposal_ rs with
      | None => mret tt
      | Some p =>
          if (0 <=? p_POLRound p) && (p_POLRound p =? c) then
            complete ← isProposalComplete;
            whenM complete (enterPrevote h (Round rs))
          else mret tt
      end) c1 = Ret (u, cs') -> good cs cs'.
Proof.
  intros E1 Hv Hm (b & Hb & Hlr & _) Hh Hmaj Hany -> E Hi.
  assert (Gf : goodUpTo false cs c1) by (eapply onPolka_good; [exact Hv|exact Hm|done|exact E1]).
  destruct (Gf (Inv_weaken _ _ Hi)) as [Hi1 He1]. pose proof (onPolka_hrs _ _ _ _ _ E1) as (U1 & U2 & U3).
  apply M_bind_inv in E as (rs & c & [= <- <-] & E). rewrite U2, Z.leb_refl, Hany in E. cbn [andb] in E.
  destruct (ro_lock _ _ (inv_round _ _ Hi) b Hb) as [L1 _]. pose proof (ro_new _ _ (inv_round _ _ Hi)) as Hnew.
  apply M_bind_inv in E as ([] & c & E2 & E). assert (c = c1) as ->.
  { unfold enterNewRound in E2. apply M_bind_inv in E2 as (rs & c' & [= <- <-] & E2). rewrite U1, U2, U3, Hh, Z.eqb_refl, Z.ltb_irrefl, Z.eqb_refl in E2.
    cbn [negb orb andb] in E2. destruct (Z.eqb_spec (Step (cs_rs cs)) RoundStepNewHeight) as [Es|]; [specialize (Hnew Es); lia|].
    by injection E2 as <-. }
  assert (VoteSet.HasTwoThirdsMajority prevotes = true) as Hmj.
  { destruct prevotes as [vs|]; [|done]. cbn in Hmaj |- *. by destruct (VoteSet.vs_maj23 vs). }
  rewrite Hmj, <- U2 in E. destruct (enterPrecommit_now h c1 u cs' E ltac:(congruence) Hi1) as [Hi' He']. split; [done|].
  apply evolves_strict; [eapply evolves_trans; [exact He1|by apply evolves_weaken]|].
  eapply enterPrecommit_step; [exact E|congruence].
Qed.

Lemma Good_onPrevote h r cs u cs' : Height (cs_rs cs) = h -> onPrevote h r cs = Ret (u, cs') -> good cs cs'.
Proof.
  intros Hh. unfold onPrevote. intros (prevotes & c & E0 & E)%M_bind_inv. pose proof E0 as (-> & v & Hv & Hm)%prevotesAt_ret.
  apply M_bind_inv in E as ([] & c1 & E1 & E). destruct (VoteSet.TwoThirdsMajority prevotes) as [id []] eqn:Emaj.
  2: { injection E1 as <-. by eapply Good_onPrevoteRest. }
  specialize (Hm id eq_refl). cbn [whenM] in E1.
  destruct (decide (r = Round (cs_rs cs) /\ Step (cs_rs cs) < RoundStepPrecommit /\ bool_decide (is_Some (LockedBlock (cs_rs cs))) = true /\
     LockedRound (cs_rs cs) < r /\ Block.HashesTo (LockedBlock (cs_rs cs)) (bid_Hash id) = false)) as [(-> & _ & [b Hb]%bool_decide_eq_true & Hlr & Hd)|Hno].
  - intros Hi. eapply (unlock_precommits h id cs c1); [exact E1|exact Hv|exact Hm| |exact Hh|exact Emaj| |reflexivity|exact E|exact Hi].
    + exists b. rewrite Hb in Hd. split_and!; [done|lia|lia|done].
    + eapply prevotes_any; [exact Hi|exact E0|exact Emaj].
  - eapply good_trans; [|by eapply Good_onPrevoteRest]. eapply onPolka_good; [exact Hv|exact Hm| |exact E1].
    intros _ (b & Hb & Hlr & Hd). unfold reached. destruct (decide (r = Round (cs_rs cs))) as [->|]; [|lia]. right. split; [done|].
    destruct (Z.le_gt_cases RoundStepPrecommit (Step (cs_rs cs))); [done|]. exfalso. apply Hno. rewrite Hb. split_and!; [done|lia| |lia|done].
    apply bool_decide_eq_true. by eexists.
Qed.

Lemma Good_onPrecommit h r : Good (onPrecommit h r).
Proof.
  unfold onPrecommit. quietly pre. destruct (VoteSet.TwoThirdsMajority pre) as [id []].
  - destruct (_ =? 0); [apply Good_enterNewRound|]. apply Good_inRound. intros c a c' Hr. apply good_precommitThen; [|done].
    apply Good_bind; [apply Good_enterCommit|intros _]. quietly p.
    destruct (_ && _); [|apply Good_ret]. quietly rs. apply Good_enterNewRound.
  - quietly rs. destruct (_ && _); [|apply Good_ret].
    apply Good_inRound. intros c a c' Hr. apply good_precommitThen; [|done]. apply Good_enterPrecommitWait.
Qed.

Lemma Good_addVote v peer : Good (addVote v peer).
Proof.
  unfold addVote. apply Good_getRS. intros cs a cs'. destruct (_ =? _); [apply Good_addLastCommitVote|].
  destruct (negb _); [apply Good_ret|]. intros (votes & c & [-> Hv]%getVotes_ret & E)%M_bind_inv.
  apply M_bind_inv in E as ([[votes' added] err] & c & [-> Ha]%lift_ret & E). apply M_bind_inv in E as ([] & c1 & E1 & E).
  eapply good_trans; [eapply good_votes; [exact Hv|by eapply HeightVoteSet.AddVote_keeps|exact E1]|].
  destruct (negb added); [by eapply Good_ret|]. apply M_bind_inv in E as ([] & c2 & E2 & E). apply emit_quiet in E2 as Q2.
  eapply good_trans; [by apply good_harmless|]. apply M_bind_inv in E as ([] & c3 & E3 & E). injection E as _ <-.
  destruct (_ =? _); [|destruct (_ =? _); [by eapply Good_onPrecommit|done]]. eapply Good_onPrevote; [|exact E3].
  destruct Q2 as ((-> & _)%core_eq & _). by injection E1 as <-.
Qed.

Lemma Good_handleMsg m peer : Good (handleMsg m peer).
Proof.
  destruct m as [p|h r part|v]; cbn [handleMsg]; (apply Good_bind; [|intros ?; apply Good_ret]).
  - apply Good_quiet; quiet_solve.
  - apply Good_addProposalBlockPart.
  - unfold tryAddVote. quietly w. apply Good_bind; [apply Good_addVote|intros r].
    apply Good_quiet. quiet_solve.
Qed.

Lemma handleTimeout_good ti cs u cs' : effectOK cs (EffTimeout ti) -> handleTimeout ti cs = Ret (u, cs') -> good cs cs'.
Proof.
  intros Ht. unfold handleTimeout. intros (rs & c & [= <- <-] & E)%M_bind_inv.
  destruct (_ || _); [injection E as _ <-; apply good_refl|]. revert E.
  destruct (_ =? _); [apply Good_enterNewRound|]. destruct (_ =? _); [apply Good_enterPropose|].
  destruct (_ =? _).
  { intros ([] & c & E1 & E2)%M_bind_inv. eapply good_trans; [by eapply good_harmless, emit_quiet|].
    eapply enterPrevote_spec; [exact E2|]. injection E1 as <-. cbn. intros Hh. by apply Ht. }
  destruct (_ =? _).
  - intros ([] & c & E1 & E2)%M_bind_inv. eapply good_trans; [by eapply good_harmless, emit_quiet|].
    eapply enterPrecommit_spec; [exact E2|]. injection E1 as <-. cbn. intros Hh. by apply Ht.
  - destruct (_ =? _); [|apply Good_panic]. quietly _; apply Good_enterNewRound.
Qed.

Lemma Good_setPeerMaj23 h r t peer id : Good (setPeerMaj23 h r t peer id).
Proof.
  unfold setPeerMaj23. quietly rs. destruct (negb _); [apply Good_ret|].
  intros cs u cs' (v & c & [-> Hv]%getVotes_ret & E)%M_bind_inv. apply M_bind_inv in E as ([v' err] & c & [-> Hs]%lift_ret & E).
  destruct u. eapply good_votes; [exact Hv| |exact E]. by eapply HeightVoteSet.SetPeerMaj23_keeps.
Qed.

(** A timeout fires only after it was scheduled. *)
Definition allowed cs (i : Input) : Prop :=
  match i with InTimeout ti => EffTimeout ti ∈ cs_effects cs | _ => True end.

Lemma receive_good i cs u cs' : allowed cs i -> receive i cs = Ret (u, cs') -> good cs cs'.
Proof.
  intros Ha. destruct i as [h|m peer|m|ti|h r t peer id]; cbn [receive].
  - apply Good_enterPropose.
  - quietly _; apply Good_handleMsg.
  - quietly _; apply Good_handleMsg.
  - intros ([] & c & E1 & E2)%M_bind_inv Hi. eapply good_trans; [by eapply Good_quiet; [|exact E1]; quiet_solve| |done].
    eapply handleTimeout_good; [|exact E2]. injection E1 as <-. cbn in *.
    pose proof (proj1 (Forall_forall _ _) (inv_effects _ _ Hi) _ Ha) as Ht. exact Ht.
  - apply Good_setPeerMaj23.
Qed.

(** ** Runs *)

(** Before the first state: no votes, nothing happened. *)
Lemma updateToState_start st cs u cs' : cs_state cs = None -> Votes (cs_rs cs) = None -> cs_effects cs = [] -> stateOK st ->
  updateToState st cs = Ret (u, cs') -> Inv cs'.
Proof.
  intros Hs0 Hv0 He0 (Hst & Hvals & Hcache). unfold updateToState. intros (c & c' & [= <- <-] & E)%M_bind_inv. rewrite Hs0 in E.
  destruct (_ && _); [done|]. cbn [notAhead] in E. apply M_bind_inv in E as (last & c1 & (K1 & S1 & l1 & L1 & F1)%(Quiet_lastPrecommits always) & E).
  apply M_bind_inv in E as (start & c2 & E2 & E).
  assert (Q2 : quiet always c1 c2) by (revert E2; destruct (_ =? _); [apply Quiet_bind; [apply Quiet_call|intros; apply Quiet_ret]|apply Quiet_ret]).
  destruct Q2 as (K2 & S2 & l2 & L2 & F2). apply M_bind_inv in E as (votes & c3 & [-> Hn]%lift_ret & E).
  apply M_bind_inv in E as ([] & c4 & [= <-] & E). apply M_bind_inv in E as ([] & c5 & [= <-] & E). apply M_bind_inv in E as ([] & c6 & [= <-] & E).
  apply HeightVoteSet.NewHeightVoteSet_sound in Hn as (N1 & N2 & N3).
  refine (proj1 (Good_quiet _ Quiet_newStep _ _ _ E _)). rewrite He0 in L1.
  assert (El : forall x, x ∈ cs_effects c2 -> always x) by (intros x; rewrite L2, L1; cbn; rewrite elem_of_app;
    intros [Hx|Hx]; by eapply Forall_forall; [|exact Hx]). split; cbn.
  - split; cbn; [|exists st; split_and!; [done..|by apply add64_height]|lia|lia|done|done]. exists votes. split; [done|].
    split_and!; [done|congruence..|done].
  - apply Forall_app. split; [apply Forall_forall; intros x Hx; by apply El|]. constructor; [|done]. destruct (Votes (cs_rs cs)) as [v|] eqn:Ev; [|done].
    by rewrite Hv0 in Ev.
  - match goal with |- history _ ?c => assert (forall t v, didVote c t v -> False) as Hnone end.
    { intros t v [Hv _]. cbn in Hv. rewrite elem_of_app, list_elem_of_singleton in Hv. destruct Hv as [Hv%El|[=]]. apply Hv. }
    split; [intros t v []%Hnone|intros v []%Hnone|intros v w []%Hnone|intros t v w []%Hnone].
Qed.

(** Nothing has happened yet. *)
Lemma Inv_fresh q cs : InvUpTo q cs -> InvUpTo q (mkCS (cs_rs cs) (cs_state cs) (cs_parts cs) (cs_world cs) []).
Proof.
  intros Hi. split; cbn; [apply Hi|constructor|].
  split; [intros t v [[]%elem_of_nil _]|intros v [[]%elem_of_nil _]|intros v w [[]%elem_of_nil _]|intros t v w [[]%elem_of_nil _]].
Qed.

Lemma start_Inv st w cs : stateOK st -> start st w = Ret cs -> Inv cs.
Proof.
  intros Hst. unfold start, NewConsensusState.
  destruct ((updateToState st;; reconstructLastCommit st) _) as [[[] c1]|] eqn:E1; [|done]. cbn [mbind go_mbind snd].
  destruct (scheduleRound0 _) as [[[] c3]|] eqn:E2; [|done]. intros [= <-]. apply Good_scheduleRound0 in E2 as G.
  apply M_bind_inv in E1 as ([] & c2 & Eu & Er).
  apply G, Inv_fresh. assert (Quiet harmless (reconstructLastCommit st)) as Q by (unfold reconstructLastCommit; quiet_solve).
  eapply Inv_quiet; [by eapply Q|]. by eapply updateToState_start; [..|exact Eu].
Qed.

(** The states of a run of the receive routine. *)
Inductive reachable : CS -> Prop :=
| reach_start st w cs : stateOK st -> start st w = Ret cs -> reachable cs
| reach_step cs i cs' : reachable cs -> allowed cs i -> receive i cs = Ret (tt, cs') -> reachable cs'.

Lemma reachable_safe cs : reachable cs -> Inv cs.
Proof. induction 1 as [st w cs Hst E|cs i cs' _ IH Ha E]; [by eapply start_Inv|]. by eapply (receive_good i). Qed.

(** [cs'] comes later in the same run. *)
Inductive runs : CS -> CS -> Prop :=
| runs_refl cs : runs cs cs
| runs_step cs i cs' cs'' : runs cs cs' -> allowed cs' i -> receive i cs' = Ret (tt, cs'') -> runs cs cs''.

Lemma runs_good cs cs' : runs cs cs' -> good cs cs'.
Proof.
  induction 1 as [|cs i cs' cs'' _ IH Ha E]; [apply good_refl|]. eapply good_trans; [exact IH|]. by eapply receive_good.
Qed.
End Steps.
End Safety.
