(* ===== verification/Agreement.v ===== *)
(** * Agreement of the consensus state machine

    Safety properties of one node in every run, and agreement between nodes:
    as long as faulty validators hold less than a third of the power, no two
    correct nodes apply different blocks at one height. *)

From S2P Require Import Prelude Sha256 Crypto Merkle Types ValidatorSet VoteSet HeightVoteSet PartSet Block State Consensus Safety.
Import Crypto Types ValidatorSet Consensus Safety.

#[local] Opaque Block.Hash State.validateBlock.
#[local] Arguments Block.HashesTo : simpl never.

Module Agreement.

(** ** The votes a node has *)

Section Stored.
Context `{Codec} `{Curves} {Svc : Services}.

(** The vote sets of height [h], current and past. *)
Definition votesAt (cs : CS) (h : Z) : list HeightVoteSet.HeightVoteSet :=
  (if Height (cs_rs cs) =? h then match Votes (cs_rs cs) with Some v => [v] | None => [] end else []) ++
  omap (fun e => match e with EffVotes h' (Some v) => if h' =? h then Some v else None | _ => None end) (cs_effects cs).

Definition setsOf (v : HeightVoteSet.HeightVoteSet) : list VoteSet.VoteSet :=
  x ← (map_to_list (HeightVoteSet.hvs_roundVoteSets v)).*2; [HeightVoteSet.Prevotes_ x; HeightVoteSet.Precommits_ x].
Definition recordsOf (vs : VoteSet.VoteSet) : list (nat * Vote) :=
  bv ← (map_to_list (VoteSet.vs_votesByBlock vs)).*2;
  omap (fun x => x) (imap (fun i o => option_map (pair i) o) (VoteSet.bv_votes bv)).

(** The votes of height [h] that are counted, with the index of their
    validator, and the blocks with a majority. *)
Definition stored (cs : CS) (h : Z) : list (nat * Vote) := v ← votesAt cs h; vs ← setsOf v; recordsOf vs.
Definition majorities (cs : CS) (h : Z) : list BlockID := v ← votesAt cs h; vs ← setsOf v; option_list (VoteSet.vs_maj23 vs).

Lemma votesAt_spec cs h v : v ∈ votesAt cs h <-> votesOf cs h v.
Proof.
  unfold votesAt, votesOf. rewrite elem_of_app. apply Morphisms_Prop.or_iff_morphism.
  - destruct (Z.eqb_spec (Height (cs_rs cs)) h) as [Hh|Hh]; destruct (Votes (cs_rs cs)) as [w|]; cbn.
    + rewrite list_elem_of_singleton. split; [by intros ->|]. by intros [_ [= ->]].
    + split; [by intros ?%elem_of_nil|by intros [_ [=]]].
    + split; [by intros ?%elem_of_nil|by intros [? _]].
    + split; [by intros ?%elem_of_nil|by intros [? _]].
  - rewrite list_elem_of_omap. split.
    + intros (e & He & Ev). destruct e as [| | | | | | | | |h' [w|]]; try done. destruct (Z.eqb_spec h' h) as [->|]; [|done]. by injection Ev as ->.
    + intros He. eexists. split; [done|]. cbn. by rewrite Z.eqb_refl.
Qed.

Lemma setsOf_get v r t vs : HeightVoteSet.getVoteSet v r t = Ret (Some vs) -> vs ∈ setsOf v.
Proof.
  intros (x & Hx & Hcase)%HeightVoteSet.getVoteSet_some. unfold setsOf. apply list_elem_of_bind. exists x. split.
  - destruct Hcase as [[_ ->]|[_ ->]]; [left|right; left].
  - apply list_elem_of_fmap. exists (r, x). split; [done|]. by apply elem_of_map_to_list.
Qed.

Lemma recordsOf_get vs k bv i w : VoteSet.vs_votesByBlock vs !! k = Some bv -> VoteSet.bv_votes bv !! i = Some (Some w) ->
  (i, w) ∈ recordsOf vs.
Proof.
  intros Hk Hi. unfold recordsOf. apply list_elem_of_bind. exists bv. split.
  - apply list_elem_of_omap. exists (Some (i, w)). split; [|done]. apply list_elem_of_lookup. exists i. rewrite list_lookup_imap, Hi. done.
  - apply list_elem_of_fmap. exists (k, bv). split; [done|]. by apply elem_of_map_to_list.
Qed.
End Stored.

(** ** One node *)

Section Node.
Context `{Codec} `{Curves} `{Amino} `{ValidatorCodec} `{Block.BlockCodec} `{Block.TxDecoder}.
Context {Svc : Services} {Laws : ServiceLaws}.
Implicit Types cs : CS.

Lemma votesOf_ok cs h v : InvUpTo true cs -> votesOf cs h v -> votesOK h v.
Proof.
  intros Hi [[<- Hv]|He].
  - destruct (ro_votes _ _ (inv_round _ _ Hi)) as (w & Hw & Hok). by assert (w = v) as <- by congruence.
  - exact (proj1 (Forall_forall _ _) (inv_effects _ _ Hi) _ He).
Qed.

(** The counted votes behind a majority. *)
Lemma majority_voters cs h v t r id : InvUpTo true cs -> votesOf cs h v -> HeightVoteSet.majority v t r id ->
  id ∈ majorities cs h /\ exists votes,
    (forall i w, votes !! i = Some (Some w) -> (i, w) ∈ stored cs h /\ v_Height w = h /\ v_Round w = r /\ v_Type w = t /\
       Key (v_BlockID w) = Key id) /\
    2 * sumZ val_VotingPower (ValidatorSet.Validators (HeightVoteSet.hvs_valSet v)) <
    3 * VoteSet.votedPower VoteSet.anyVote (ValidatorSet.Validators (HeightVoteSet.hvs_valSet v)) votes.
Proof.
  intros Hi Hv (vs & Eg & Hm). destruct (votesOf_ok cs h v Hi Hv) as (Hh & Hp & Hc & Hs). destruct (Hs Hp Hc _ _ _ Eg) as [Iv St].
  pose proof (setsOf_get _ _ _ _ Eg) as Hset. apply votesAt_spec in Hv. split.
  { apply list_elem_of_bind. exists v. split; [|done]. apply list_elem_of_bind. exists vs. split; [|done]. rewrite Hm. left. }
  pose proof (VoteSet.inv_maj _ _ Iv) as Hmaj. unfold VoteSet.majOK in Hmaj. rewrite Hm in Hmaj. destruct Hmaj as (bv & Hk & Hq & _).
  destruct (VoteSet.inv_blocks None vs (VoteSet.inv_core _ _ Iv) _ bv Hk) as (_ & _ & B3 & B4). exists (VoteSet.bv_votes bv). split.
  - intros i w Hw. destruct (B3 i w Hw) as ((_ & W1 & W2 & W3 & _) & Hkey & _). unfold VoteSet.static in St. injection St as _ S2 S3 S4 _.
    split_and!; [|congruence..|done]. apply list_elem_of_bind. exists v. split; [|done]. apply list_elem_of_bind. exists vs. split; [|done].
    by eapply recordsOf_get.
  - rewrite (VoteSet.quorum_iff None vs _ (VoteSet.inv_core _ _ Iv)), B4 in Hq. unfold VoteSet.total, VoteSet.vals in Hq. unfold VoteSet.static in St.
    injection St as _ _ _ _ S5. by rewrite S5 in Hq.
Qed.
End Node.

(** ** The network *)

(** Power of the validators that [bad] holds of. *)
Definition powerOf (bad : nat -> bool) (vals : list Validator) : Z :=
  sumZ (fun x => x) (imap (fun i v => if bad i then val_VotingPower v else 0) vals).

Lemma votedPower_bad (bad : nat -> bool) vals votes : Forall (fun v => 0 <= val_VotingPower v) vals ->
  (forall i w, votes !! i = Some (Some w) -> bad i = true) ->
  VoteSet.votedPower VoteSet.anyVote vals votes <= powerOf bad vals.
Proof.
  unfold VoteSet.votedPower, powerOf. revert bad votes. induction vals as [|x vals IH]; intros bad votes Hf Hb; [done|].
  apply Forall_cons in Hf as [Hx Hf]. destruct votes as [|o votes].
  - cbn [zip_with]. change (sumZ (VoteSet.contrib VoteSet.anyVote) []) with 0. apply sumZ_nonneg. intros y Hy.
    apply list_elem_of_lookup in Hy as (i & Hy). rewrite list_lookup_imap in Hy. destruct ((x :: vals) !! i) as [z|] eqn:Ez; [|done].
    injection Hy as <-. apply list_elem_of_lookup_2 in Ez. assert (0 <= val_VotingPower z); [|by destruct (bad i)].
    apply elem_of_cons in Ez as [->|Ez]; [done|]. by eapply Forall_forall in Hf.
  - rewrite imap_cons. cbn [zip_with]. rewrite !sumZ_cons, VoteSet.contrib_any. specialize (IH (fun i => bad (S i)) votes Hf (fun i w => Hb (S i) w)).
    destruct o as [w|]; [rewrite (Hb 0%nat w eq_refl); unfold compose in *; lia|]. destruct (bad 0%nat); unfold compose in *; lia.
Qed.

Section Network.
Context `{Codec} `{Curves} `{Amino} `{ValidatorCodec} `{Block.BlockCodec} `{Block.TxDecoder}.

(** A correct validator: its services, and the state it reached. *)
Record node := mkNode { n_svc : Services; n_laws : ServiceLaws; n_cs : CS }.
#[local] Existing Instance n_laws.

Variable nodes : nat -> option node.
Variable vals : ValidatorSet.
Variable h : Z.

Definition faulty (i : nat) : bool := match nodes i with Some _ => false | None => true end.

(** Validators that run the state machine, by index; the others, with at most
    a third of the power, are faulty.  The nodes count votes of height [h] for
    the same validators.  A counted vote of a correct validator is one that
    it signed, as signatures cannot be forged.  Its vote has the key of the
    block of a majority only if it has its hash. *)
Record network : Prop := mkNetwork {
  net_reachable : forall i n, nodes i = Some n -> reachable (n_cs n);
  net_vals : forall i n v, nodes i = Some n -> votesOf (n_cs n) h v -> HeightVoteSet.hvs_valSet v = vals;
  net_power : 3 * powerOf faulty (ValidatorSet.Validators vals) <= sumZ val_VotingPower (ValidatorSet.Validators vals);
  net_signed : forall j m i n w, nodes j = Some m -> nodes i = Some n -> (i, w) ∈ stored (n_cs m) h ->
    exists v, didVote (n_cs n) (v_Type w) v /\ v_Height v = v_Height w /\ v_Round v = v_Round w /\ v_BlockID v = v_BlockID w;
  net_keys : forall j m i w id, nodes j = Some m -> is_Some (nodes i) -> (i, w) ∈ stored (n_cs m) h -> id ∈ majorities (n_cs m) h ->
    Key (v_BlockID w) = Key id -> bid_Hash (v_BlockID w) = bid_Hash id }.

Hypothesis Hnet : network.

Lemma node_Inv i n : nodes i = Some n -> InvUpTo true (n_cs n).
Proof. intros Hn. apply reachable_safe. by eapply (net_reachable Hnet). Qed.

(** Node [m] has a majority of type [t] at round [r]. *)
Definition sees (m : node) (t r : Z) (id : BlockID) : Prop :=
  exists v, votesOf (n_cs m) h v /\ HeightVoteSet.majority v t r id.

(** Two majorities have a correct validator in common. *)
Lemma common_voter j m t r id j' m' t' r' id' : nodes j = Some m -> nodes j' = Some m' -> sees m t r id -> sees m' t' r' id' ->
  exists i n v v', nodes i = Some n /\
    (didVote (n_cs n) t v /\ v_Height v = h /\ v_Round v = r /\ bid_Hash (v_BlockID v) = bid_Hash id) /\
    (didVote (n_cs n) t' v' /\ v_Height v' = h /\ v_Round v' = r' /\ bid_Hash (v_BlockID v') = bid_Hash id').
Proof.
  intros Hm Hm' (x & Hx & Mx) (y & Hy & My).
  pose proof (net_vals Hnet _ _ _ Hm Hx) as Ex. pose proof (net_vals Hnet _ _ _ Hm' Hy) as Ey.
  destruct (votesOf_ok _ _ _ (node_Inv _ _ Hm) Hx) as (_ & (Hp & _) & _). rewrite Ex in Hp.
  destruct (majority_voters _ _ _ _ _ _ (node_Inv _ _ Hm) Hx Mx) as (Ix & votes & Vx & Qx).
  destruct (majority_voters _ _ _ _ _ _ (node_Inv _ _ Hm') Hy My) as (Iy & votes' & Vy & Qy). rewrite Ex in Qx. rewrite Ey in Qy.
  pose proof (VoteSet.quorum_overlap (ValidatorSet.Validators vals) votes votes' Hp) as Hov.
  set (both := zip_with VoteSet.bothVoted votes votes') in *.
  assert (Hex : exists i w, both !! i = Some (Some w) /\ faulty i = false).
  { destruct (decide (Exists (fun p => p.2 <> None /\ faulty p.1 = false) (imap pair both))) as [(p & Hp1 & Hp2 & Hp3)%Exists_exists|Hno].
    - apply list_elem_of_lookup in Hp1 as (i & Hi). rewrite list_lookup_imap in Hi. destruct (both !! i) as [[w|]|] eqn:Eb; [|by injection Hi as <-|done].
      injection Hi as <-. by exists i, w.
    - exfalso. pose proof (net_power Hnet). assert (VoteSet.votedPower VoteSet.anyVote (ValidatorSet.Validators vals) both <= powerOf faulty (ValidatorSet.Validators vals)); [|lia].
      apply votedPower_bad; [done|]. intros i w Hw. apply not_false_is_true. intros Hf. apply Hno. apply Exists_exists. exists (i, Some w).
      split; [|done]. apply list_elem_of_lookup. exists i. by rewrite list_lookup_imap, Hw. }
  destruct Hex as (i & w & Hw & Hf). apply lookup_zip_with_Some in Hw as (o & o' & Eo & L & L'). destruct o as [a|], o' as [b|]; try done.
  unfold faulty in Hf. destruct (nodes i) as [n|] eqn:En; [|done].
  destruct (Vx i a L) as (A1 & A2 & A3 & A4 & A5), (Vy i b L') as (B1 & B2 & B3 & B4 & B5).
  pose proof (net_keys Hnet _ _ _ _ _ Hm (mk_is_Some _ _ En) A1 Ix A5) as A6. pose proof (net_keys Hnet _ _ _ _ _ Hm' (mk_is_Some _ _ En) B1 Iy B5) as B6.
  destruct (net_signed Hnet _ _ _ _ _ Hm En A1) as (v & D1 & D2 & D3 & D4), (net_signed Hnet _ _ _ _ _ Hm' En B1) as (v' & E1 & E2 & E3 & E4).
  exists i, n, v, v'. rewrite A4 in D1. rewrite B4 in E1. split; [done|]. split; split_and!; congruence.
Qed.

(** Polkas of one round are for one block. *)
Lemma polka_unique j m j' m' r id id' : nodes j = Some m -> nodes j' = Some m' -> sees m VoteTypePrevote r id -> sees m' VoteTypePrevote r id' ->
  bid_Hash id = bid_Hash id'.
Proof.
  intros Hm Hm' Hs Hs'. destruct (common_voter _ _ _ _ _ _ _ _ _ _ Hm Hm' Hs Hs') as (i & n & v & v' & Hn & (D1 & D2 & D3 & D4) & (E1 & E2 & E3 & E4)).
  pose proof (hs_one _ _ _ (inv_history _ _ (node_Inv _ _ Hn)) _ _ _ D1 E1 ltac:(congruence) ltac:(congruence)) as Eid. congruence.
Qed.

(** A block with two thirds of the precommits had a polka in that round. *)
Lemma decided_polka j m r id : nodes j = Some m -> bid_Hash id <> [] -> sees m VoteTypePrecommit r id ->
  exists i n id', nodes i = Some n /\ sees n VoteTypePrevote r id' /\ bid_Hash id' = bid_Hash id.
Proof.
  intros Hm Hn Hs. destruct (common_voter _ _ _ _ _ _ _ _ _ _ Hm Hm Hs Hs) as (i & n & v & _ & Hi & (D1 & D2 & D3 & D4) & _).
  exists i, n, (v_BlockID v). split; [done|]. split; [|done]. destruct D1 as [De Dt].
  pose proof (proj1 (Forall_forall _ _) (inv_effects _ _ (node_Inv _ _ Hi)) _ De) as Hp. cbn in Hp. destruct (Hp Dt ltac:(congruence)) as (votes & V1 & V2).
  exists votes. rewrite D2, D3 in *. done.
Qed.

(** After a decision, no later polka is for another block. *)
Lemma decided_locks j m r id j' m' r' id' : nodes j = Some m -> bid_Hash id <> [] -> sees m VoteTypePrecommit r id ->
  nodes j' = Some m' -> sees m' VoteTypePrevote r' id' -> r < r' -> bid_Hash id' = bid_Hash id.
Proof.
  intros Hm Hne Hs. revert j' m' id'. induction (Z.lt_wf r r') as [r' _ IH]. intros j' m' id' Hm' Hs' Hlt.
  destruct (common_voter _ _ _ _ _ _ _ _ _ _ Hm Hm' Hs Hs') as (i & n & v & w & Hn & (D1 & D2 & D3 & D4) & (E1 & E2 & E3 & E4)).
  destruct (hs_pair _ _ _ (inv_history _ _ (node_Inv _ _ Hn)) v w D1 ltac:(congruence) E1 ltac:(congruence) ltac:(lia))
    as [Heq|(x & idx & Hx & Hp & Hd)]; [congruence|].
  exfalso. apply Hd. rewrite D4. rewrite D2 in Hp. eapply (IH x ltac:(lia)); [exact Hn|exact Hp|lia].
Qed.

Lemma decided_agree j m r id j' m' r' id' : nodes j = Some m -> nodes j' = Some m' -> bid_Hash id <> [] -> bid_Hash id' <> [] ->
  sees m VoteTypePrecommit r id -> sees m' VoteTypePrecommit r' id' -> bid_Hash id = bid_Hash id'.
Proof.
  intros Hm Hm' Hn Hn' Hs Hs'.
  destruct (decided_polka _ _ _ _ Hm Hn Hs) as (i & n & idp & Hi & Hp & Ep), (decided_polka _ _ _ _ Hm' Hn' Hs') as (i' & n' & idp' & Hi' & Hp' & Ep').
  destruct (Z.lt_trichotomy r r') as [Hlt|[->|Hlt]].
  - pose proof (decided_locks _ _ _ _ _ _ _ _ Hm Hn Hs Hi' Hp' Hlt). congruence.
  - pose proof (polka_unique _ _ _ _ _ _ _ Hi Hi' Hp Hp'). congruence.
  - pose proof (decided_locks _ _ _ _ _ _ _ _ Hm' Hn' Hs' Hi Hp Hlt). congruence.
Qed.
End Network.

(** ** Properties *)

Section Properties.
Context `{Codec} `{Curves} `{Amino} `{ValidatorCodec} `{Block.BlockCodec} `{Block.TxDecoder}.

(** C1: agreement on the hash.  No two correct nodes apply blocks with different
    hashes at one height, in whatever rounds they decide, whatever the order of
    messages and timeouts, provided that: faulty validators hold at most a third
    of the power; the nodes count the votes of the height for the same
    validators; a vote of a correct validator that a node counted is one that the
    validator signed; a vote with the key of the block of a majority has its
    hash; signing keeps what a vote is about, and applying a block leads to a
    state whose validators have keys and powers that can be added up.  Blocks
    that differ only in what the hash leaves out are not told apart. *)
Theorem agreement nodes vals h i n j m st id b st' id' b' : network nodes vals h -> nodes i = Some n -> nodes j = Some m ->
  EffApplied st id b ∈ cs_effects (n_cs n) -> EffApplied st' id' b' ∈ cs_effects (n_cs m) ->
  add64 (State.LastBlockHeight st) 1 = h -> add64 (State.LastBlockHeight st') 1 = h ->
  bid_Hash id = bid_Hash id' /\ Block.Hash b = Block.Hash b'.
Proof.
  intros Hnet Hi Hj Ha Hb Eh Eh'.
  assert (Hx : forall k (x : node) s y z, nodes k = Some x -> EffApplied s y z ∈ cs_effects (n_cs x) -> add64 (State.LastBlockHeight s) 1 = h ->
    exists r, sees h x VoteTypePrecommit r y /\ bid_Hash y <> [] /\ Block.Hash z = bid_Hash y).
  { intros k x s y z Hk He Es. pose proof (n_laws x) as Laws.
    destruct (proj1 (Forall_forall _ _) (inv_effects _ _ (node_Inv _ _ _ Hnet _ _ Hk)) _ He) as (r & Hd & Hh & _). rewrite Es in Hd.
    exists r. split; [done|]. split; [|by apply HashesTo_true]. intros E. by rewrite E, HashesTo_nil in Hh. }
  destruct (Hx _ _ _ _ _ Hi Ha Eh) as (r & Hs & Hn & Hhash), (Hx _ _ _ _ _ Hj Hb Eh') as (r' & Hs' & Hn' & Hhash').
  pose proof (decided_agree _ _ _ Hnet _ _ _ _ _ _ _ _ Hi Hj Hn Hn' Hs Hs'). split; congruence.
Qed.

Context {Svc : Services} {Laws : ServiceLaws}.

(** C2: every block a node hands to the application was decided: more than
    two thirds of the precommits of one round of its height are for its id,
    it hashes to that id, it is a valid next block of the state it is applied
    to, and it was saved and the end of its height logged before. *)
Theorem applied_decided cs st id b : reachable cs -> EffApplied st id b ∈ cs_effects cs ->
  let h := add64 (State.LastBlockHeight st) 1 in
  (exists r, decided cs h r id) /\ Block.HashesTo b (bid_Hash id) = true /\ State.validateBlock st b = Ret None /\
  exists l1 e l2, cs_effects cs = l1 ++ e :: EffWal (WalEndHeight h) :: EffApplied st id b :: l2 /\ savedAs b e.
Proof.
  intros Hr He h. destruct (proj1 (Forall_forall _ _) (inv_effects _ _ (reachable_safe _ Hr)) _ He) as (r & Hd & Hh & Hv & Hl).
  split; [by exists r|]. done.
Qed.

(** C4: the lock.  A locked block is a valid next block with a polka at the
    locked round, which is not after the current round.  Later in the run, at
    the same height, the node is still locked on it, at that round or a later
    one, or a later round had a polka for another block (or for nil). *)
Theorem lock_rule cs b : reachable cs -> LockedBlock (cs_rs cs) = Some b ->
  let rs := cs_rs cs in
  (0 <= LockedRound rs <= Round rs /\ exists votes id s, Votes rs = Some votes /\
     HeightVoteSet.majority votes VoteTypePrevote (LockedRound rs) id /\ Block.HashesTo (Some b) (bid_Hash id) = true /\
     cs_state cs = Some s /\ State.validateBlock s (Some b) = Ret None) /\
  forall cs', runs cs cs' -> Height (cs_rs cs') = Height rs ->
    (LockedBlock (cs_rs cs') = Some b /\ LockedRound rs <= LockedRound (cs_rs cs')) \/
    (exists r id votes, LockedRound rs < r <= Round (cs_rs cs') /\ Votes (cs_rs cs') = Some votes /\
       HeightVoteSet.majority votes VoteTypePrevote r id /\ Block.HashesTo (Some b) (bid_Hash id) = false).
Proof.
  intros Hr Hb rs. pose proof (reachable_safe _ Hr) as Hi. split.
  - destruct (ro_lock _ _ (inv_round _ _ Hi) b Hb) as (L1 & _ & L3). done.
  - intros cs' Hrun Hh. destruct (runs_good _ _ Hrun Hi) as [_ He]. destruct (ev_lock _ _ _ He Hh b Hb) as [|(r & id & v & Hx & _ & Hy)]; [by left|].
    right. by exists r, id, v.
Qed.

(** C3: the votes a node signs.  A precommit for a block has a polka for that
    block in its round; a prevote in a later round of the same height for
    anything else has a polka for another block in a round between the two;
    and the votes of one type, height and round are for one block. *)
Theorem voting_rule cs : reachable cs ->
  (forall v, didVote cs VoteTypePrecommit v -> bid_Hash (v_BlockID v) <> [] ->
     polka cs (v_Height v) (v_Round v) (v_BlockID v) /\
     forall w, didVote cs VoteTypePrevote w -> v_Height w = v_Height v -> v_Round v < v_Round w ->
       bid_Hash (v_BlockID w) = bid_Hash (v_BlockID v) \/
       exists r id, v_Round v < r < v_Round w /\ polka cs (v_Height v) r id /\ bid_Hash id <> bid_Hash (v_BlockID v)) /\
  (forall t v w, didVote cs t v -> didVote cs t w -> v_Height w = v_Height v -> v_Round w = v_Round v -> v_BlockID w = v_BlockID v).
Proof.
  intros Hr. pose proof (reachable_safe _ Hr) as Hi. destruct (inv_history _ _ Hi) as [_ _ P3 P4]. split; [|done].
  intros v Hv Hn. split; [|intros w Hw; by apply P3]. destruct Hv as [He Ht].
  by apply (proj1 (Forall_forall _ _) (inv_effects _ _ Hi) _ He).
Qed.

(** Progress is never undone.  Along a run, height, round and step only
    go up in the order of [CompareHRS], what was written, sent and applied
    stays so, and a majority once seen at a height is seen for good. *)
Theorem run_monotone cs cs' : reachable cs -> runs cs cs' ->
  let rs := cs_rs cs in let rs' := cs_rs cs' in
  CompareHRS (Height rs) (Round rs) (Step rs) (Height rs') (Round rs') (Step rs') <= 0 /\
  (exists l, cs_effects cs' = cs_effects cs ++ l) /\
  (forall h r id, polka cs h r id -> polka cs' h r id) /\ (forall h r id, decided cs h r id -> decided cs' h r id).
Proof.
  intros Hr Hrun rs rs'. destruct (runs_good _ _ Hrun (reachable_safe _ Hr)) as [_ He]. split_and!.
  - pose proof (ev_hrs _ _ _ He) as Hle. unfold hrsLe in Hle. unfold CompareHRS, rs, rs' in *.
    repeat match goal with |- context [?a <? ?b] => destruct (Z.ltb_spec a b) end; lia.
  - apply He.
  - intros h r id. by eapply majorityOf_evolves.
  - intros h r id. by eapply majorityOf_evolves.
Qed.

(** The machine before the first block: waiting for round 0 of height 1, with
    no commit of an earlier height. *)
Lemma start_genesis st w cs : start st w = Ret cs -> State.LastBlockHeight st = 0 ->
  Height (cs_rs cs) = 1 /\ Step (cs_rs cs) = RoundStepNewHeight /\ LastCommit (cs_rs cs) = None.
Proof.
  unfold start, NewConsensusState. destruct ((updateToState st;; reconstructLastCommit st) _) as [[[] c1]|] eqn:E1; [|done].
  cbn [mbind go_mbind snd]. destruct (scheduleRound0 _) as [[[] c2]|] eqn:E2; [|done]. intros [= <-] Hst.
  assert (R2 : cs_rs c2 = cs_rs c1).
  { unfold scheduleRound0 in E2. apply M_bind_inv in E2 as (now & c & E & E2). unfold call in E. destruct (timeNow _). injection E as _ <-.
    by apply M_bind_inv in E2 as (rs & c & [= <- <-] & [= <-]). }
  apply M_bind_inv in E1 as ([] & c3 & E3 & E4). unfold reconstructLastCommit in E4. rewrite Hst in E4. injection E4 as <-. rewrite R2. clear R2 E2.
  unfold updateToState in E3. apply M_bind_inv in E3 as (c & c' & [= <- <-] & E3). cbn in E3.
  apply M_bind_inv in E3 as (last & c4 & E4 & E3). cbn in E4. injection E4 as <- <-.
  apply M_bind_inv in E3 as (start & c5 & _ & E3). apply M_bind_inv in E3 as (votes & c6 & [-> _]%lift_ret & E3).
  apply M_bind_inv in E3 as ([] & c7 & [= <-] & E3). apply M_bind_inv in E3 as ([] & c8 & [= <-] & E3). apply M_bind_inv in E3 as ([] & c9 & [= <-] & E3).
  unfold newStep in E3. apply M_bind_inv in E3 as (rs & c & [= <- <-] & E3). apply M_bind_inv in E3 as ([] & c & [= <-] & [= <-]). cbn.
  by rewrite Hst.
Qed.

(** A node that has not decided its first block panics on a precommit for
    height 0, which any peer can send: it is taken for a precommit of the
    previous height, whose vote set is nil. *)
Theorem genesis_vote_panics st w cs v peer : start st w = Ret cs -> State.LastBlockHeight st = 0 ->
  v_Height v = 0 -> v_Type v = VoteTypePrecommit -> exists p, receive (InPeer (VoteMessage (Some v)) peer) cs = Panic p.
Proof.
  intros Hs Hst Hv Ht. destruct (start_genesis _ _ _ Hs Hst) as (Hh & Hstep & Hl).
  destruct (receive (InPeer (VoteMessage (Some v)) peer) cs) as [[u cs']|p] eqn:E; [exfalso|by exists p].
  cbn [receive handleMsg] in E. apply M_bind_inv in E as ([] & c & [= <-] & E). apply M_bind_inv in E as (r & c & E & _).
  unfold tryAddVote in E. apply M_bind_inv in E as (x & c1 & [-> [= <-]]%lift_ret & E). apply M_bind_inv in E as (y & c2 & E & _).
  unfold addVote in E. apply M_bind_inv in E as (rs & c3 & [= <- <-] & E). cbn [cs_rs] in E. rewrite Hv, Hh in E. cbn [add64] in E.
  change (add64 0 1 =? 1) with true in E. unfold addLastCommitVote in E. apply M_bind_inv in E as (rs & c3 & [= <- <-] & E). cbn [cs_rs] in E.
  rewrite Hstep, Ht, Hl in E. cbn [Z.eqb RoundStepNewHeight VoteTypePrecommit andb negb Pos.eqb] in E.
  apply M_bind_inv in E as (z & c4 & [_ Hz]%lift_ret & _). done.
Qed.

(** Double voting crashes the nodes that notice it.  When adding a vote of
    another validator reports a conflict with its earlier vote, the node does
    not return from handling it: the evidence pool it reports to is nil. *)
Theorem conflicting_vote_panics cs v peer votes votes' added pk a b addr : Votes (cs_rs cs) = Some votes ->
  v_Height v = Height (cs_rs cs) -> int64 (v_Height v) ->
  HeightVoteSet.AddVote votes (Some v) peer = Ret (votes', added, Some (HeightVoteSet.VoteSetError (ErrVoteConflictingVotes pk a b))) ->
  privAddress = Some addr -> v_ValidatorAddress v <> addr -> exists p, receive (InPeer (VoteMessage (Some v)) peer) cs = Panic p.
Proof.
  intros Hv Hh H64 Ha Hp Hne. destruct (receive (InPeer (VoteMessage (Some v)) peer) cs) as [[u cs']|p] eqn:E; [exfalso|by exists p]. cbn [receive handleMsg] in E. apply M_bind_inv in E as ([] & c & [= <-] & E).
  apply M_bind_inv in E as (r & c & E & _). unfold tryAddVote in E. apply M_bind_inv in E as (w & c1 & [-> [= <-]]%lift_ret & E).
  apply M_bind_inv in E as ([ok err] & c2 & E2 & E). assert (err = Some (ErrVote (HeightVoteSet.VoteSetError (ErrVoteConflictingVotes pk a b)))) as ->.
  { unfold addVote in E2. apply M_bind_inv in E2 as (rs & c3 & [= <- <-] & E2). cbn [cs_rs] in E2. rewrite <- Hh in E2.
    rewrite (proj2 (Z.eqb_neq _ _)) in E2 by (unfold add64; intros Ew; destruct (wrap64_eq (v_Height v + 1)) as (k & Ek); unfold two64 in Ek; lia).
    rewrite Z.eqb_refl in E2. cbn [negb] in E2. apply M_bind_inv in E2 as (v0 & c3 & [-> Hv0]%getVotes_ret & E2). cbn in Hv0.
    assert (v0 = votes) as -> by congruence. apply M_bind_inv in E2 as (x & c3 & [-> Hx]%lift_ret & E2). rewrite Ha in Hx. injection Hx as <-.
    apply M_bind_inv in E2 as ([] & c3 & [= <-] & E2). destruct (negb added); [by injection E2 as _ <- _|].
    apply M_bind_inv in E2 as ([] & c4 & [= <-] & E2). apply M_bind_inv in E2 as ([] & c5 & _ & E2). by injection E2 as _ <- _. }
  cbn [snd] in E. apply M_bind_inv in E as (ad & c3 & [-> Had]%lift_ret & E). rewrite Hp in Had. injection Had as <-.
  rewrite (proj2 (bytes_eqb_false _ _) Hne) in E. done.
Qed.
End Properties.

(** ** Witnesses *)

(** One validator with all the power, whose application accepts every block:
    it proposes, prevotes, precommits and commits the first block. *)
Section Solo.
#[local] Existing Instance toyCodec.
#[local] Existing Instance toyCurves.
#[local] Existing Instance uvarintAmino.
#[local] Existing Instance State.toyValidatorCodec.
#[local] Existing Instance Block.toyDecoder.

Definition soloVals : ValidatorSet := Eval vm_compute in mkValidatorSet [VoteSet.exVal "A" 5] None 0.
Definition soloState (h : Z) : State.State :=
  State.mkState (str "chain") h 0 zeroBlockID 0 soloVals soloVals 1 Block.DefaultConsensusParams 1 [] (str "app").
Definition soloBlock : option Block.Block := Eval vm_compute in
  match (let _ := Block.toyBlockCodec in State.MakeBlock (soloState 0) 0 1 [] (Some (mkCommit zeroBlockID []))) with
  | Ret (b, _) => Some b
  | _ => None
  end.

(** Decoding always gives the block of the only proposer. *)
Definition soloCodec : Block.BlockCodec := let c := Block.toyBlockCodec in {|
  Block.aminoString := @Block.aminoString c; Block.aminoInt64 := @Block.aminoInt64 c; Block.aminoInt := @Block.aminoInt c;
  Block.aminoTime := @Block.aminoTime c; Block.aminoBlockID := @Block.aminoBlockID c; Block.aminoHexBytes := @Block.aminoHexBytes c;
  Block.aminoVote := @Block.aminoVote c; Block.MarshalBlock := @Block.MarshalBlock c;
  Block.UnmarshalBlock := fun _ _ _ => (soloBlock, true) |}.
#[local] Existing Instance soloCodec.

(** The signatures of the two votes of the only round. *)
Definition soloAddress : bytes := Eval vm_compute in val_Address (VoteSet.exVal "A" 5).
Definition soloID : BlockID := Eval vm_compute in
  match Block.MakePartSet soloBlock 65536 with
  | Ret ps => mkBlockID (Block.Hash soloBlock) (PartSet.Header ps)
  | _ => zeroBlockID
  end.
Definition soloSignature (t : Z) : bytes :=
  str "A" ++ Sha256.tmhash (Vote_SignBytes (str "chain") (mkVote soloAddress 0 1 0 0 t soloID None)).
Definition soloPrevoteSig : bytes := Eval vm_compute in soloSignature VoteTypePrevote.
Definition soloPrecommitSig : bytes := Eval vm_compute in soloSignature VoteTypePrecommit.
Definition signAsSolo (v : Vote) : Vote :=
  mkVote (v_ValidatorAddress v) (v_ValidatorIndex v) (v_Height v) (v_Round v) (v_Timestamp v) (v_Type v) (v_BlockID v)
    (Some (SignatureEd25519 (if v_Type v =? VoteTypePrevote then soloPrevoteSig else soloPrecommitSig))).

Definition soloServices : Services := {|
  World := unit;
  timeNow := fun w => (0, w);
  privAddress := Some soloAddress;
  privSignVote := fun w _ v => (Some (signAsSolo v), w);
  privSignProposal := fun w _ p => (Some p, w);
  storeHeight := fun _ => 0; storeMeta := fun _ _ => None; storeSeenCommit := fun _ _ => None;
  storeSave := fun w _ _ _ => Ret w;
  applyBlock := fun w _ _ _ => Ret (Some (soloState 1), w);
  reap := fun _ _ => []; accounts := fun w _ => Ret (None, w); marshalUTXO := fun _ _ => [];
  config := mkConfig 3000 500 1000 500 1000 500 1000 false true 0 |}.
#[local] Existing Instance soloServices.

Lemma soloState_ok h : 0 <= h < MaxInt64 -> stateOK (soloState h).
Proof. intros Hh. split; [done|]. split; [apply (bool_decide_unpack _); vm_compute; exact I|by left]. Qed.

Definition soloLaws : ServiceLaws.
Proof.
  split.
  - intros w chainID v v' w' [= <- <-]. done.
  - intros w st id b st' w' [= <- _]. by apply soloState_ok.
Defined.
#[local] Existing Instance soloLaws.

Definition internals (cs : CS) : list Msg := omap (fun e => match e with EffInternal m => Some m | _ => None end) (cs_effects cs).
Definition timeouts (cs : CS) : list timeoutInfo := omap (fun e => match e with EffTimeout t => Some t | _ => None end) (cs_effects cs).

Definition emptyCS : CS := mkCS zeroRoundState None [] tt [].
Definition next (i : option Input) (cs : CS) : go CS := match i with Some i => r ← receive i cs; Ret r.2 | None => Panic NilDeref end.
(** The scheduled timeout fires, then the machine handles its own messages. *)
Definition fire (k : nat) (cs : CS) : option Input := InTimeout <$> timeouts cs !! k.
Definition deliver (k : nat) (cs : CS) : option Input := InInternal <$> internals cs !! k.

Definition solo0 : CS := Eval vm_compute in fromRet emptyCS (start (soloState 0) tt).
Definition solo1 : CS := Eval vm_compute in fromRet emptyCS (next (fire 0 solo0) solo0).
Definition solo2 : CS := Eval vm_compute in fromRet emptyCS (next (deliver 0 solo1) solo1).
Definition solo3 : CS := Eval vm_compute in fromRet emptyCS (next (deliver 1 solo2) solo2).
Definition solo4 : CS := Eval vm_compute in fromRet emptyCS (next (deliver 2 solo3) solo3).
Definition solo5 : CS := Eval vm_compute in fromRet emptyCS (next (deliver 3 solo4) solo4).

Lemma solo0_start : start (soloState 0) tt = Ret solo0.
Proof. vm_compute. reflexivity. Qed.
Lemma solo0_reachable : reachable solo0.
Proof. eapply reach_start; [|exact solo0_start]. by apply soloState_ok. Qed.

Lemma fire_allowed k cs x : fire k cs = Some x -> allowed cs x.
Proof.
  unfold fire, timeouts. intros (t & Ht & ->)%fmap_Some. apply list_elem_of_lookup_2, list_elem_of_omap in Ht as (e & He & Ee).
  destruct e; try done. by injection Ee as ->.
Qed.
Lemma deliver_allowed k cs x : deliver k cs = Some x -> allowed cs x.
Proof. by intros (m & _ & ->)%fmap_Some. Qed.

Lemma runs_next (f : CS -> option Input) c0 cs cs' : (forall cs x, f cs = Some x -> allowed cs x) -> next (f cs) cs = Ret cs' ->
  runs c0 cs -> runs c0 cs'.
Proof.
  intros Ha En Hr. unfold next in En. destruct (f cs) as [x|] eqn:Ef; [|done]. destruct (receive x cs) as [[[] c]|] eqn:Er; [|done].
  injection En as <-. eapply runs_step; [exact Hr|by apply Ha|exact Er].
Qed.

Lemma reachable_runs cs cs' : reachable cs -> runs cs cs' -> reachable cs'.
Proof. intros Hr. induction 1 as [|cs i cs' cs'' _ IH Ha E]; [done|]. eapply reach_step; [by apply IH|done|done]. Qed.

Lemma solo1_next : next (fire 0 solo0) solo0 = Ret solo1.
Proof. vm_compute. reflexivity. Qed.
Lemma solo2_next : next (deliver 0 solo1) solo1 = Ret solo2.
Proof. vm_compute. reflexivity. Qed.
Lemma solo3_next : next (deliver 1 solo2) solo2 = Ret solo3.
Proof. vm_compute. reflexivity. Qed.
Lemma solo4_next : next (deliver 2 solo3) solo3 = Ret solo4.
Proof. vm_compute. reflexivity. Qed.
Lemma solo5_next : next (deliver 3 solo4) solo4 = Ret solo5.
Proof. vm_compute. reflexivity. Qed.

Lemma solo_runs4 : runs solo0 solo4.
Proof.
  apply (runs_next _ _ _ _ (deliver_allowed 2) solo4_next), (runs_next _ _ _ _ (deliver_allowed 1) solo3_next),
    (runs_next _ _ _ _ (deliver_allowed 0) solo2_next), (runs_next _ _ _ _ (fire_allowed 0) solo1_next), runs_refl.
Qed.
Lemma solo_runs5 : runs solo0 solo5.
Proof. exact (runs_next _ _ _ _ (deliver_allowed 3) solo5_next solo_runs4). Qed.

(** The votes the node signed. *)
Definition didVotes (cs : CS) : list Vote :=
  omap (fun e => match e with EffInternal (VoteMessage (Some v)) => Some v | _ => None end) (cs_effects cs).
Lemma didVotes_spec cs v : v ∈ didVotes cs -> didVote cs (v_Type v) v.
Proof.
  intros (e & He & Ee)%list_elem_of_omap. destruct e as [|[| |[w|]]| | | | | | | |]; try done. injection Ee as ->. by split.
Qed.

Definition soloNode : node := mkNode soloServices soloLaws solo5.
Definition soloNodes (i : nat) : option node := match i with O => Some soloNode | _ => None end.

Lemma solo_network : network soloNodes soloVals 1.
Proof.
  assert (Hc : Forall (fun v => HeightVoteSet.hvs_valSet v = soloVals) (votesAt solo5 1) /\
    Forall (fun x => Exists (fun v => v_Type v = v_Type x.2 /\ v_Height v = v_Height x.2 /\ v_Round v = v_Round x.2 /\ v_BlockID v = v_BlockID x.2)
      (didVotes solo5)) (stored solo5 1) /\
    Forall (fun x => Forall (fun id => Key (v_BlockID x.2) = Key id -> bid_Hash (v_BlockID x.2) = bid_Hash id) (majorities solo5 1)) (stored solo5 1)).
  { apply (bool_decide_unpack _). vm_compute. exact I. }
  destruct Hc as (Hv & Hs & Hk). pose proof (proj1 (Forall_forall _ _) Hv) as Hv'. pose proof (proj1 (Forall_forall _ _) Hs) as Hs'. pose proof (proj1 (Forall_forall _ _) Hk) as Hk'.
  assert (Hn : forall i n, soloNodes i = Some n -> i = 0%nat /\ n = soloNode) by (intros [|i] n [= <-]; done). split.
  - intros i n [-> ->]%Hn. exact (reachable_runs _ _ solo0_reachable solo_runs5).
  - intros i n v [-> ->]%Hn Hvo. apply Hv'. by apply votesAt_spec.
  - vm_compute. discriminate.
  - intros j m i n w [-> ->]%Hn [-> ->]%Hn Hw. destruct (proj1 (Exists_exists _ _) (Hs' _ Hw)) as (v & Hd & V1 & V2 & V3 & V4). exists v.
    split; [|done]. cbn in V1. rewrite <- V1. by apply didVotes_spec.
  - intros j m i w id [-> ->]%Hn _ Hw Hid. exact (proj1 (Forall_forall _ _) (Hk' _ Hw) id Hid).
Qed.

(** What was applied. *)
Definition applied (cs : CS) : list (State.State * BlockID * option Block.Block) :=
  omap (fun e => match e with EffApplied st id b => Some (st, id, b) | _ => None end) (cs_effects cs).
Lemma applied_spec cs st id b : (st, id, b) ∈ applied cs -> EffApplied st id b ∈ cs_effects cs.
Proof. intros (e & He & Ee)%list_elem_of_omap. destruct e; try done. by injection Ee as -> -> ->. Qed.

Definition soloApplied : option Block.Block := Eval vm_compute in match applied solo5 with [(_, _, b)] => b | _ => None end.
Definition soloSt : State.State := Eval vm_compute in match applied solo5 with [(st, _, _)] => st | _ => soloState 7 end.
Lemma solo_applied : EffApplied soloSt soloID soloApplied ∈ cs_effects solo5.
Proof.
  apply applied_spec. assert (applied solo5 = [(soloSt, soloID, soloApplied)]) as -> by (vm_compute; reflexivity). left.
Qed.
Lemma solo_height : add64 (State.LastBlockHeight soloSt) 1 = 1.
Proof. vm_compute. reflexivity. Qed.

Lemma agreement_witness : bid_Hash soloID = bid_Hash soloID /\ Block.Hash soloApplied = Block.Hash soloApplied.
Proof.
  exact (agreement soloNodes soloVals 1 0 soloNode 0 soloNode soloSt soloID soloApplied soloSt soloID soloApplied solo_network eq_refl eq_refl
    solo_applied solo_applied solo_height solo_height).
Defined.

Lemma applied_decided_witness : (exists r, decided solo5 1 r soloID) /\ State.validateBlock soloSt soloApplied = Ret None.
Proof.
  destruct (applied_decided solo5 soloSt soloID soloApplied (reachable_runs _ _ solo0_reachable solo_runs5) solo_applied) as (Hd & _ & Hv & _).
  rewrite solo_height in Hd. split; [exact Hd|exact Hv].
Defined.

Definition soloLocked : Block.Block := Eval vm_compute in match LockedBlock (cs_rs solo4) with Some b => b | None => Block.mkBlock None None None end.
Lemma solo_locked : LockedBlock (cs_rs solo4) = Some soloLocked.
Proof. reflexivity. Qed.
Lemma lock_rule_witness : 0 <= LockedRound (cs_rs solo4) <= Round (cs_rs solo4).
Proof. exact (proj1 (proj1 (lock_rule solo4 soloLocked (reachable_runs _ _ solo0_reachable solo_runs4) solo_locked))). Defined.

(** The precommit of the run. *)
Definition soloPrecommit : Vote := Eval vm_compute in
  default (mkVote [] 0 0 0 0 0 zeroBlockID None) (head (filter (fun v => v_Type v = VoteTypePrecommit) (didVotes solo5))).
Lemma solo_precommit : didVote solo5 VoteTypePrecommit soloPrecommit.
Proof. apply (didVotes_spec solo5 soloPrecommit). apply (bool_decide_unpack _). vm_compute. exact I. Qed.
Lemma voting_rule_witness : polka solo5 (v_Height soloPrecommit) (v_Round soloPrecommit) (v_BlockID soloPrecommit).
Proof.
  refine (proj1 (proj1 (voting_rule solo5 (reachable_runs _ _ solo0_reachable solo_runs5)) soloPrecommit solo_precommit _)).
  discriminate.
Defined.

Lemma run_monotone_witness : CompareHRS (Height (cs_rs solo0)) (Round (cs_rs solo0)) (Step (cs_rs solo0))
  (Height (cs_rs solo5)) (Round (cs_rs solo5)) (Step (cs_rs solo5)) <= 0.
Proof. exact (proj1 (run_monotone solo0 solo5 solo0_reachable solo_runs5)). Defined.

Definition height0Vote : Vote := mkVote (str "x") 0 0 0 0 VoteTypePrecommit zeroBlockID None.
Lemma genesis_vote_panics_witness : exists p, receive (InPeer (VoteMessage (Some height0Vote)) (str "peer")) solo0 = Panic p.
Proof. exact (genesis_vote_panics (soloState 0) tt solo0 height0Vote (str "peer") solo0_start eq_refl eq_refl eq_refl). Defined.

(** A vote set of three validators in which B voted; its second vote is for
    another block. *)
Definition trioCS : CS := mkCS (mkRoundState 7 0 RoundStepPrevote 0 0 (Some VoteSet.exVals) None None None 0 None None 0 None None
  (Some (fromRet HeightVoteSet.emptyHVS (HeightVoteSet.hrun HeightVoteSet.hvsNew
     (HeightVoteSet.HAddVote (VoteSet.exVote "B" 1 1 VoteSet.blockA) (str "peer"))))) (-1) None None) None [] tt [].
Definition secondVote : Vote := VoteSet.exVote "B" 1 1 VoteSet.blockB.
Definition trioVotes : HeightVoteSet.HeightVoteSet := match Votes (cs_rs trioCS) with Some v => v | None => HeightVoteSet.emptyHVS end.
Definition trioAnswer := fromRet (trioVotes, true, None) (HeightVoteSet.AddVote trioVotes (Some secondVote) (str "peer")).

Lemma conflicting_vote_panics_witness : exists p, receive (InPeer (VoteMessage (Some secondVote)) (str "peer")) trioCS = Panic p.
Proof.
  assert (exists votes' added pk a b, HeightVoteSet.AddVote trioVotes (Some secondVote) (str "peer") =
    Ret (votes', added, Some (HeightVoteSet.VoteSetError (ErrVoteConflictingVotes pk a b)))) as (votes' & added & pk & a & b & E).
  { assert (Hr : isRet (HeightVoteSet.AddVote trioVotes (Some secondVote) (str "peer")) = true /\
      match trioAnswer.2 with Some (HeightVoteSet.VoteSetError (ErrVoteConflictingVotes _ _ _)) => true | _ => false end = true) by (vm_compute; done).
    destruct Hr as [Hr Hc]. apply (fromRet_ok (trioVotes, true, None)) in Hr. fold trioAnswer in Hr. rewrite Hr.
    destruct trioAnswer as [[votes' added] [[[]|]|]]; try discriminate Hc; by do 5 eexists. }
  refine (conflicting_vote_panics trioCS secondVote (str "peer") trioVotes votes' added pk a b _ eq_refl eq_refl _ E eq_refl _).
  - apply (bool_decide_unpack _). vm_compute. exact I.
  - intros Ea. apply (f_equal (fun x => bytes_eqb x soloAddress)) in Ea. vm_compute in Ea. discriminate.
Defined.
End Solo.
End Agreement.
