(* ===== verification/DMCCoin.v ===== *)
(** * The DMC coin application: abci/app/dmccoin

    Accounts and their store ([account.go], [kvs.go], [state.go]), the
    transactions ([tx.go]), their execution ([execution.go]) and the handlers
    of the application ([dmccoin.go]).

    [go-wire] writes the accounts and reads and writes the transactions; it is
    not part of the repository, and its functions are the members of the
    classes [Wire] and [JSON].  Reading is [json.Unmarshal]: it never sets a
    field whose type is an interface with methods, so a decoded account has a
    nil [PubKey], and a decoded transaction a nil [Signature] and [PubKey].

    Go walks a map in an order of its own.  The operations that do so take the
    walk, a list of the entries, as an argument. *)

From S2P Require Import Prelude Sha256 Crypto Types State.
Import Crypto Types.

Module DMCCoin.

(** ** kvs.go *)

(** The map of a [MemKVS]. *)
Abbreviation MemKVS := (gmap bytes bytes).
Definition NewMemKVS : MemKVS := ∅.
Definition kvs_Set (m : MemKVS) (key value : bytes) : MemKVS := <[key := value]> m.
(** A key that is missing reads as nil. *)
Definition kvs_Get (m : MemKVS) (key : bytes) : bytes := default [] (m !! key).

(** [walk] is a walk over a map. *)
Definition walks (walk : list (bytes * bytes)) (m : MemKVS) : Prop := walk ≡ₚ map_to_list m.

Definition GetAll (walk : list (bytes * bytes)) (key : bytes) (prefixSize : Z) : go (list bytes) :=
  go_fold (fun (kv : bytes * bytes) value =>
    a ← slice kv.1 0 prefixSize;
    b ← slice key 0 prefixSize;
    Ret (if bytes_eqb a b then value ++ [kv.2] else value)) walk [].
Definition GetAllAcc (walk : list (bytes * bytes)) : list bytes := snd <$> walk.

(** The element of [keys] that a cache entry points to is the one that holds
    its key. *)
Record KVCache := mkKVCache { kvc_store : MemKVS; kvc_cache : gmap bytes bytes; kvc_keys : list bytes }.

Definition kvc_Reset (c : KVCache) : KVCache := mkKVCache (kvc_store c) ∅ [].
Definition NewKVCache (store : option MemKVS) : KVCache := mkKVCache (default NewMemKVS store) ∅ [].
Definition moveToBack (k : bytes) (l : list bytes) : list bytes := filter (fun x => x <> k) l ++ [k].
Definition kvc_Set (c : KVCache) (key value : bytes) : KVCache :=
  mkKVCache (kvc_store c) (<[key := value]> (kvc_cache c))
    (if kvc_cache c !! key is Some _ then moveToBack key (kvc_keys c) else kvc_keys c ++ [key]).
Definition kvc_Get (c : KVCache) (key : bytes) : bytes * KVCache :=
  match kvc_cache c !! key with
  | Some v => (v, c)
  | None =>
      let value := kvs_Get (kvc_store c) key in
      (value, mkKVCache (kvc_store c) (<[key := value]> (kvc_cache c)) (kvc_keys c ++ [key]))
  end.
Definition kvc_Sync (c : KVCache) : KVCache :=
  kvc_Reset (mkKVCache (foldl (fun store key => kvs_Set store key (default [] (kvc_cache c !! key))) (kvc_store c) (kvc_keys c))
    (kvc_cache c) (kvc_keys c)).

(** ** account.go *)

Record Account := mkAccount { acc_PubKey : option PubKey; acc_Height : Z; acc_Balance : Z; acc_Address : bytes }.
Definition zeroAccount : Account := mkAccount None 0 0 [].

(** What [json.Unmarshal] leaves in the fields that are not interfaces. *)
Record accountFields := mkFields { f_Height : Z; f_Balance : Z; f_Address : bytes }.

(** ** tx.go: the transactions *)

Record TxInput := mkTxInput {
  in_Address : bytes; in_Coins : Z; in_Sequence : Z; in_Signature : option Signature; in_PubKey : option PubKey }.
Record TxOutput := mkTxOutput { out_Address : bytes; out_Coins : Z }.
Record TxUTXO := mkTxUTXO { utxo_Address : bytes; utxo_Balance : Z }.
Record DMCTx := mkDMCTx { dmc_Fee : Z; dmc_Input : TxInput; dmc_Output : TxOutput }.
Record AppTx := mkAppTx { app_Gas : Z; app_Fee : Z; app_Name : bytes; app_Input : TxInput; app_Data : bytes }.

Inductive Tx := TDMC (tx : DMCTx) | TUTXO (tx : TxUTXO) | TApp (tx : AppTx).

(** [go-wire]: the bytes of a key, of an account as JSON, of a transaction,
    and back; a decoded interface may be nil. *)
Class Wire := {
  PubKey_Bytes : PubKey -> bytes;
  JSONBytes : Account -> go bytes;
  BinaryBytes : Tx -> bytes;
  BinaryRipemd160 : bytes -> bytes;
  ReadBinaryBytes : bytes -> option (option Tx) }.

(** [json.Unmarshal] of an account and of the two kinds of transactions that
    the application decodes; errors are ignored. *)
Class JSON := {
  UnmarshalAccount : bytes -> accountFields;
  UnmarshalUTXO : bytes -> TxUTXO;
  UnmarshalDMC : bytes -> Z * (bytes * Z * Z) * TxOutput;
  formatAddress : bytes -> bytes }.

(** An account without a key is written and read back. *)
Class JSONLaws `{Wire} `{JSON} := {
  json_account : forall h b a, exists data, JSONBytes (mkAccount None h b a) = Ret data /\ data <> [] /\
    UnmarshalAccount data = mkFields h b a }.

(** [sort.Slice] sorts, in no particular order of equal elements. *)
Class SortSlice := { sort_Slice : forall {A}, (A -> A -> bool) -> list A -> list A }.
Class SortSliceLaws `{SortSlice} := {
  sort_perm : forall A (less : A -> A -> bool) l, sort_Slice less l ≡ₚ l;
  sort_sorted : forall A (less : A -> A -> bool) l, (forall x y, less x y = true -> less y x = false) ->
    (forall x y z, less y x = false -> less z y = false -> less z x = false) -> sortedBy less (sort_Slice less l) }.

Section App.
Context `{Curves} `{Wire} `{JSON} `{SortSlice}.

Definition TopkAccounts (acc : list Account) (k : Z) : go (list Account) :=
  if zlen acc =? 0 then Ret [] else
  let accounts := sort_Slice (fun a b => acc_Balance a <? acc_Balance b) acc in
  if k <? zlen accounts then slice accounts 0 k else Ret accounts.

Definition AccountKey (addr : bytes) : bytes := str "base/a/" ++ addr.

Definition decodeAccount (data : bytes) : Account :=
  let f := UnmarshalAccount data in mkAccount None (f_Height f) (f_Balance f) (f_Address f).
Definition GetAccount (store : MemKVS) (addr : bytes) : option Account :=
  let data := kvs_Get store (AccountKey addr) in
  if zlen data =? 0 then None else Some (decodeAccount data).
Definition GetAllAccountsInSegment (walk : list (bytes * bytes)) (addr : bytes) (prefixSize : Z) : go (list Account) :=
  data ← GetAll walk (AccountKey addr) prefixSize;
  Ret (decodeAccount <$> (data : list bytes)).
Definition GetAllAccounts (walk : list (bytes * bytes)) : list Account := decodeAccount <$> GetAllAcc walk.
Definition SetAccount (store : MemKVS) (addr : bytes) (acc : Account) : go MemKVS :=
  accBytes ← JSONBytes acc;
  Ret (kvs_Set store (AccountKey addr) accBytes).

(** ** tx.go: checks and ids.  The code's 0 and 1 are [false] and [true]. *)

Definition TxInput_ValidateBasic (i : TxInput) : go bool :=
  if negb (zlen (in_Address i) =? 64) then Ret false else
  if (in_Coins i >? 100) || (in_Coins i <? 0) then Ret false else
  if in_Coins i =? 0 then Ret false else
  if in_Sequence i <=? 0 then Ret false else
  first ← (if in_Sequence i =? 1 then pk ← deref (in_PubKey i); Ret (zlen (PubKey_Bytes pk) =? 0) else Ret false);
  if (first : bool) then Ret false else
  later ← (if in_Sequence i >? 1 then pk ← deref (in_PubKey i); Ret (zlen (PubKey_Bytes pk) >? 0) else Ret false);
  Ret (negb later).

Definition NewTxInput (pubKey : PubKey) (coins sequence : Z) : TxInput :=
  mkTxInput (Address pubKey) coins sequence None (if sequence =? 1 then Some pubKey else None).

(** [bytes.SplitN(address, "/", 2)]: what is before and after the first
    slash. *)
Definition slash : Byte.byte := "/"%byte.
Fixpoint splitSlash (b : bytes) : option (bytes * bytes) :=
  match b with
  | [] => None
  | x :: b' => if bool_decide (x = slash) then Some ([], b') else '(p, q) ← splitSlash b'; Some (x :: p, q)
  end.

Definition ChainAndAddress (o : TxOutput) : option bytes * bytes * bool :=
  let address := out_Address o in
  match (if zlen address >? 20 then '(p, q) ← splitSlash address; Some (Some p, q) else Some (None, address)) with
  | None => (None, [], false)
  | Some (chainPrefix, address) =>
      if negb (zlen address =? 20) then (None, [], false) else (chainPrefix, address, true)
  end.

Definition TxOutput_ValidateBasic (o : TxOutput) : bool :=
  if negb (ChainAndAddress o).2 then false else
  if out_Coins o >? 100 then false else
  negb (out_Coins o =? 0).

Definition clearSignature (i : TxInput) : TxInput :=
  mkTxInput (in_Address i) (in_Coins i) (in_Sequence i) None (in_PubKey i).
Definition SignBytes (tx : Tx) : bytes :=
  match tx with
  | TDMC t => BinaryBytes (TDMC (mkDMCTx (dmc_Fee t) (clearSignature (dmc_Input t)) (dmc_Output t)))
  | TUTXO _ => []
  | TApp t => BinaryBytes (TApp t)
  end.
Definition TxID (tx : Tx) : bytes := BinaryRipemd160 (SignBytes tx).

Definition SetSignature (tx : DMCTx) (addr : bytes) (sig_ : option Signature) : DMCTx * bool :=
  if bytes_eqb (in_Address (dmc_Input tx)) addr then
    let i := dmc_Input tx in
    (mkDMCTx (dmc_Fee tx) (mkTxInput (in_Address i) (in_Coins i) (in_Sequence i) sig_ (in_PubKey i)) (dmc_Output tx), true)
  else (tx, false).

(** ** execution.go *)

(** What the [Log] of the response says. *)
Inductive ExecLog :=
| LogValidateInputBasic
| LogValidateOutputBasic
| LogGetInput
| LogGetOrMakeOutput
| LogValidateInputAdvanced
| LogTotals (inTotal outPlusFees : Z)
| LogTxID (id : bytes).

Definition setKey (acc : Account) (pk : option PubKey) : Account := mkAccount pk (acc_Height acc) (acc_Balance acc) (acc_Address acc).

(** [in.PubKey.Equals(acc.PubKey)]; a nil [acc.PubKey] equals no key. *)
Definition getInput (store : MemKVS) (i : TxInput) : go (Account * bool) :=
  let acc := GetAccount store (in_Address i) in
  pk ← deref (in_PubKey i);
  acc ← deref acc;
  let equal := match acc_PubKey acc with Some pk' => PubKey_Equals pk pk' | None => false end in
  Ret (if equal then acc else setKey acc (in_PubKey i), true).

Definition getOrMakeOutput (store : MemKVS) (accounts : Account) (o : TxOutput) : Account * bool :=
  (default zeroAccount (GetAccount store (out_Address o)), true).

Definition validateInputAdvanced (acc : Account) (signBytes : bytes) (i : TxInput) : go bool :=
  if acc_Balance acc <? in_Coins i then Ret false else
  pk ← deref (acc_PubKey acc);
  Ret (VerifyBytes pk signBytes (in_Signature i)).

Definition adjustByInput (store : MemKVS) (acc : Account) (i : TxInput) : go (MemKVS * Account) :=
  if acc_Balance acc <? in_Coins i then Panic (PanicSanity "adjustByInput() expects sufficient funds") else
  let acc := mkAccount (acc_PubKey acc) (add64 (acc_Height acc) 1) (uwrap64 (acc_Balance acc - in_Coins i)) (acc_Address acc) in
  store ← SetAccount store (in_Address i) acc;
  Ret (store, acc).

Definition adjustByOutput (store : MemKVS) (acc : Account) (o : TxOutput) (isCheckTx : bool) : go MemKVS :=
  let '(_, outAddress, _) := ChainAndAddress o in
  let acc := mkAccount (acc_PubKey acc) (acc_Height acc) (uwrap64 (acc_Balance acc + out_Coins o)) (acc_Address acc) in
  if isCheckTx then Ret store else SetAccount store outAddress acc.

Definition execDMC (store : MemKVS) (tx : DMCTx) (isCheckTx : bool) : go (MemKVS * ExecLog) :=
  inputOK ← TxInput_ValidateBasic (dmc_Input tx);
  if negb inputOK then Ret (store, LogValidateInputBasic) else
  if negb (TxOutput_ValidateBasic (dmc_Output tx)) then Ret (store, LogValidateOutputBasic) else
  '(account, res) ← getInput store (dmc_Input tx);
  if negb res then Ret (store, LogGetInput) else
  let '(account, res) := getOrMakeOutput store account (dmc_Output tx) in
  if negb res then Ret (store, LogGetOrMakeOutput) else
  let signBytes := SignBytes (TDMC tx) in
  res ← validateInputAdvanced account signBytes (dmc_Input tx);
  let inTotal := in_Coins (dmc_Input tx) in
  if negb res then Ret (store, LogValidateInputAdvanced) else
  let outTotal := out_Coins (dmc_Output tx) in
  let outPlusFees := if negb (dmc_Fee tx =? 1) then uwrap64 (outTotal + dmc_Fee tx) else outTotal in
  if negb (inTotal =? outPlusFees) then Ret (store, LogTotals inTotal outPlusFees) else
  '(store, account) ← adjustByInput store account (dmc_Input tx);
  store ← adjustByOutput store account (dmc_Output tx) isCheckTx;
  Ret (store, LogTxID (TxID (TDMC tx))).

(** The id of a nil transaction is asked of a nil interface. *)
Definition ExecTx (store : MemKVS) (tx : option Tx) (isCheckTx : bool) (height : Z) : go (MemKVS * ExecLog) :=
  match tx with
  | Some (TDMC tx) => execDMC store tx isCheckTx
  | Some (TUTXO tx) =>
      store ← SetAccount store (utxo_Address tx) (mkAccount None height (utxo_Balance tx) (utxo_Address tx));
      Ret (store, LogTxID (TxID (TUTXO tx)))
  | Some (TApp tx) => Ret (store, LogTxID (TxID (TApp tx)))
  | None => Panic NilDeref
  end.

(** ** dmccoin.go.  The state of the application is its store; [chainID] and
    the caches of [State] are never used by it. *)

Definition maxTxSize : Z := 10240.
Definition CodeTypeOK : Z := 0.

Definition SetInitAccount (store : MemKVS) (address : bytes) (balance : Z) : go MemKVS :=
  SetAccount store address (mkAccount None 0 balance address).

(** The store and the [Code] of the response. *)
Definition DeliverTx (store : MemKVS) (txBytes : bytes) (height : Z) : go (MemKVS * Z) :=
  if zlen txBytes >? maxTxSize then Ret (store, 1) else
  match ReadBinaryBytes txBytes with
  | None => Ret (store, 1)
  | Some tx =>
      '(store, _) ← ExecTx store tx false height;
      Ret (store, 0)
  end.

(** The transactions [trs] and [trx] of the code are never assigned. *)
Definition zeroDMC : DMCTx := mkDMCTx 0 (mkTxInput [] 0 0 None None) (mkTxOutput [] 0).
Definition zeroUTXO : TxUTXO := mkTxUTXO [] 0.
Definition isUTXOHeight (height : Z) : bool := (Z.rem height 100 =? 1) && (height >? 1).

Definition DeliverBucketedTx (store : MemKVS) (txBytes : bytes) (height : Z) (bucketID : bytes) : go (MemKVS * Z) :=
  if zlen txBytes >? maxTxSize then Ret (store, 1) else
  let trs := zeroDMC in
  let trx := zeroUTXO in
  store ← (if isUTXOHeight height then
             SetAccount store (in_Address (dmc_Input trs)) (mkAccount None height (utxo_Balance trx) [])
           else Ret store);
  prefix ← slice (out_Address (dmc_Output trs)) 0 2;
  store ← (if bytes_eqb prefix bucketID then
             old ← deref (GetAccount store (out_Address (dmc_Output trs)));
             SetAccount store (out_Address (dmc_Output trs))
               (mkAccount None height (uwrap64 (acc_Balance old - out_Coins (dmc_Output trs))) [])
           else Ret store);
  Ret (store, 0).

Record ResponseCheckTx := mkCheckTx { ctx_Code : Z; ctx_BucketIDs : list bytes }.

Definition CheckTx (store : MemKVS) (txBytes : bytes) (height : Z) : go ResponseCheckTx :=
  if zlen txBytes >? maxTxSize then Ret (mkCheckTx 1 []) else
  if isUTXOHeight height then
    let trx := UnmarshalUTXO txBytes in
    acc ← deref (GetAccount store (utxo_Address trx));
    _ ← (if negb (acc_Height acc =? sub64 height 1) then slice (utxo_Address trx) 0 2 else Ret []);
    Ret (mkCheckTx CodeTypeOK [])
  else
    let '(fee, (address, coins, sequence), output) := UnmarshalDMC txBytes in
    if negb (sequence =? height) then Ret (mkCheckTx 1 []) else
    bucketID ← slice (formatAddress address) 0 2;
    Ret (mkCheckTx CodeTypeOK [bucketID]).

Definition appValidator (power : Z) (address : bytes) : State.abciValidator :=
  State.mkAbciValidator address (State.mkAbciPubKey [] []) power.

(** [fmt.Sprintf("%x", segmentID)] of a number from 0 to 99. *)
Definition formatHex (n : Z) : bytes := if n <? 16 then [hexDigit n] else [hexDigit (n / 16); hexDigit (n mod 16)].

(** The log lines read the first account. *)
Definition GetValidatorSet (walk : list (bytes * bytes)) (height : Z) : go (list State.abciValidator) :=
  if height <? 0 then
    let allAccounts := GetAllAccounts walk in
    _ ← idx allAccounts 0;
    Ret ((fun a => appValidator (wrap64 (acc_Balance a)) (acc_Address a)) <$> allAccounts)
  else
    let segmentID := Z.rem height 100 in
    let SegmentHex := formatHex segmentID in
    let lastUTXOheight := add64 (mul64 (Z.quot height 100) 100) 1 in
    accs ← GetAllAccountsInSegment walk SegmentHex 2;
    _ ← idx accs 0;
    if existsb (fun a => acc_Height a >=? lastUTXOheight) accs then Ret [] else
    validatorAccounts ← TopkAccounts accs 100;
    Ret ((fun a => appValidator 1 (acc_Address a)) <$> (validatorAccounts : list Account)).

#[local] Arguments AccountKey : simpl never.

(** ** Transfers *)

Lemma GetAccount_key store a : acc_PubKey (default zeroAccount (GetAccount store a)) = None.
Proof. unfold GetAccount. by destruct (_ =? 0). Qed.

(** A decoded account has no key to check a signature with. *)
Lemma validateInputAdvanced_no_key acc signBytes i : acc_PubKey acc = None ->
  validateInputAdvanced acc signBytes i = Ret false \/ validateInputAdvanced acc signBytes i = Panic NilDeref.
Proof. intros Hk. unfold validateInputAdvanced. rewrite Hk. case_match; [by left|by right]. Qed.

Lemma ValidateBasic_panic i p : TxInput_ValidateBasic i = Panic p -> p = NilDeref.
Proof.
  unfold TxInput_ValidateBasic. do 4 (case_match; [done|]).
  destruct (in_PubKey i); destruct (in_Sequence i =? 1), (in_Sequence i >? 1); cbn; repeat case_match; congruence.
Qed.

Lemma getInput_panic store i p : getInput store i = Panic p -> p = NilDeref.
Proof. unfold getInput. destruct (in_PubKey i); cbn; [|by intros [= <-]]. destruct (GetAccount _ _); cbn; [done|by intros [= <-]]. Qed.

(** Whatever the accounts, the transfer fails with the store as it was, or
    panics on the nil key of the account it checks. *)
Lemma execDMC_fails store tx isCheckTx :
  match execDMC store tx isCheckTx with
  | Ret (store', log) => store' = store /\ forall id, log <> LogTxID id
  | Panic p => p = NilDeref
  end.
Proof.
  unfold execDMC. destruct (TxInput_ValidateBasic (dmc_Input tx)) as [[]|p] eqn:Ei; cbn; [|done|by eapply ValidateBasic_panic].
  destruct (TxOutput_ValidateBasic (dmc_Output tx)); cbn; [|done]. destruct (getInput store (dmc_Input tx)) as [[account []]|p] eqn:Eg; cbn; [|done|by eapply getInput_panic].
  match goal with |- context [validateInputAdvanced ?a ?s ?i] => destruct (validateInputAdvanced_no_key a s i (GetAccount_key _ _)) as [-> | ->] end; done.
Qed.

(** ** Accounts *)

Lemma AccountKey_inj a b : AccountKey a = AccountKey b -> a = b.
Proof. apply app_inv_head. Qed.

Lemma GetAccount_other store a k v : k <> AccountKey a -> GetAccount (kvs_Set store k v) a = GetAccount store a.
Proof. intros Hk. unfold GetAccount, kvs_Get, kvs_Set. by rewrite lookup_insert_ne. Qed.

Lemma GetAccount_same store a v : v <> [] -> GetAccount (kvs_Set store (AccountKey a) v) a = Some (decodeAccount v).
Proof. intros Hv. unfold GetAccount, kvs_Get, kvs_Set. rewrite lookup_insert_eq. by destruct v. Qed.

Section Ledger.
Context `{!JSONLaws}.

Lemma SetAccount_spec store addr h b a : exists store', SetAccount store addr (mkAccount None h b a) = Ret store' /\
  GetAccount store' addr = Some (mkAccount None h b a) /\ forall x, x <> addr -> GetAccount store' x = GetAccount store x.
Proof.
  destruct (json_account h b a) as (data & E & Hd & Hu). exists (kvs_Set store (AccountKey addr) data).
  split; [unfold SetAccount; by rewrite E|]. split.
  - rewrite GetAccount_same by done. unfold decodeAccount. by rewrite Hu.
  - intros x Hx. apply GetAccount_other. intros Hk. by apply Hx, AccountKey_inj.
Qed.

(** The ledger as a function from addresses to accounts, and what a delivered
    transaction does to it: a [TxUTXO] sets an account, nothing else changes
    any. *)
Definition ledger := bytes -> option Account.
Definition specExec (tx : option Tx) (height : Z) (l : ledger) : ledger :=
  match tx with
  | Some (TUTXO u) => fun a => if bool_decide (a = utxo_Address u) then Some (mkAccount None height (utxo_Balance u) a) else l a
  | _ => l
  end.
Definition specDeliver (txBytes : bytes) (height : Z) (l : ledger) : ledger :=
  if zlen txBytes >? maxTxSize then l else
  match ReadBinaryBytes txBytes with None => l | Some tx => specExec tx height l end.

Lemma ExecTx_refines store tx isCheckTx height store' log : ExecTx store tx isCheckTx height = Ret (store', log) ->
  forall a, GetAccount store' a = specExec tx height (GetAccount store) a.
Proof.
  destruct tx as [[t|t|t]|]; cbn; intros E a.
  - pose proof (execDMC_fails store t isCheckTx) as Hf. rewrite E in Hf. by destruct Hf as [-> _].
  - destruct (SetAccount_spec store (utxo_Address t) height (utxo_Balance t) (utxo_Address t)) as (s & Es & Hs & Ho).
    rewrite Es in E. injection E as <- _. case_bool_decide as Ha; [by subst|by apply Ho].
  - by injection E as <- _.
  - done.
Qed.

Lemma DeliverTx_spec store txBytes height store' code : DeliverTx store txBytes height = Ret (store', code) ->
  forall a, GetAccount store' a = specDeliver txBytes height (GetAccount store) a.
Proof.
  unfold DeliverTx, specDeliver. intros E a. case_match; [by injection E as <- _|].
  destruct (ReadBinaryBytes txBytes) as [tx|]; [|by injection E as <- _].
  destruct (ExecTx store tx false height) as [[s log]|] eqn:Ee; [|done]. injection E as <- _. by eapply ExecTx_refines.
Qed.

(** Transactions delivered one after the other. *)
Definition deliverAll (txs : list bytes) (height : Z) (store : MemKVS) : go MemKVS :=
  go_fold (fun tx store => r ← DeliverTx store tx height; Ret r.1) txs store.
End Ledger.

(** ** The write cache *)

Inductive kvOp := KSet (k v : bytes) | KGet (k : bytes).

Definition kvc_step (c : KVCache) (o : kvOp) : KVCache * list bytes :=
  match o with KSet k v => (kvc_Set c k v, []) | KGet k => let '(v, c') := kvc_Get c k in (c', [v]) end.
Definition kvs_step (m : MemKVS) (o : kvOp) : MemKVS * list bytes :=
  match o with KSet k v => (kvs_Set m k v, []) | KGet k => (m, [kvs_Get m k]) end.
Fixpoint runKV {S} (step : S -> kvOp -> S * list bytes) (s : S) (ops : list kvOp) : S * list bytes :=
  match ops with
  | [] => (s, [])
  | o :: ops => let '(s1, a) := step s o in let '(s2, b) := runKV step s1 ops in (s2, a ++ b)
  end.

(** The cache and the keys it will write agree, and the cache over its store
    reads as [m]. *)
Record cacheView (c : KVCache) (m : MemKVS) : Prop := {
  cv_keys : forall k, k ∈ kvc_keys c <-> is_Some (kvc_cache c !! k);
  cv_view : forall k, default (kvs_Get (kvc_store c) k) (kvc_cache c !! k) = kvs_Get m k }.

Lemma moveToBack_elem x k l : k ∈ l -> x ∈ moveToBack k l <-> x ∈ l.
Proof. intros Hk. unfold moveToBack. rewrite elem_of_app, list_elem_of_filter, list_elem_of_singleton. destruct (decide (x = k)); naive_solver. Qed.

Lemma cacheView_Set c m k v : cacheView c m -> cacheView (kvc_Set c k v) (kvs_Set m k v).
Proof.
  intros [Hk Hv]. split; intros x; cbn.
  - transitivity (x ∈ kvc_keys c \/ x = k).
    + destruct (kvc_cache c !! k) eqn:E; [|by rewrite elem_of_app, list_elem_of_singleton].
      assert (k ∈ kvc_keys c) by (apply Hk; eauto). rewrite moveToBack_elem by done. naive_solver.
    + rewrite Hk. destruct (decide (x = k)) as [->|]; [rewrite lookup_insert_eq|rewrite lookup_insert_ne by done]; naive_solver.
  - unfold kvs_Get, kvs_Set. destruct (decide (x = k)) as [->|]; [by rewrite !lookup_insert_eq|].
    rewrite !lookup_insert_ne by done. apply Hv.
Qed.

Lemma cacheView_Get c m k : cacheView c m -> (kvc_Get c k).1 = kvs_Get m k /\ cacheView (kvc_Get c k).2 m.
Proof.
  intros [Hk Hv]. pose proof (Hv k) as Hvk. unfold kvc_Get. destruct (kvc_cache c !! k) eqn:E; [done|]. split; [done|]. split; intros x; cbn.
  - rewrite elem_of_app, list_elem_of_singleton, Hk. destruct (decide (x = k)) as [->|]; [rewrite lookup_insert_eq|rewrite lookup_insert_ne by done]; naive_solver.
  - destruct (decide (x = k)) as [->|]; [by rewrite lookup_insert_eq|]. rewrite lookup_insert_ne by done. apply Hv.
Qed.

Lemma syncLoop_spec (f : bytes -> bytes) keys store k :
  kvs_Get (foldl (fun store key => kvs_Set store key (f key)) store keys) k = if bool_decide (k ∈ keys) then f k else kvs_Get store k.
Proof.
  revert store. induction keys as [|x keys IH]; intros store; [done|]. cbn [foldl]. rewrite IH. unfold kvs_Get, kvs_Set.
  destruct (decide (k = x)) as [->|Hne].
  - rewrite lookup_insert_eq. rewrite (bool_decide_eq_true_2 (x ∈ x :: keys)) by left. by case_bool_decide.
  - rewrite lookup_insert_ne by done. rewrite (bool_decide_ext (k ∈ x :: keys) (k ∈ keys)); [done|]. rewrite elem_of_cons. naive_solver.
Qed.

Lemma cacheView_Sync c m : cacheView c m -> forall k, kvs_Get (kvc_store (kvc_Sync c)) k = kvs_Get m k.
Proof.
  intros [Hk Hv] k. cbn. rewrite (syncLoop_spec (fun key => default [] (kvc_cache c !! key))). rewrite <- Hv.
  case_bool_decide as He; rewrite Hk in He; destruct (kvc_cache c !! k) eqn:E; try done; naive_solver.
Qed.

Lemma runKV_view ops c m : cacheView c m ->
  (runKV kvc_step c ops).2 = (runKV kvs_step m ops).2 /\ cacheView (runKV kvc_step c ops).1 (runKV kvs_step m ops).1.
Proof.
  revert c m. induction ops as [|o ops IH]; intros c m Hc; [done|]. cbn [runKV].
  assert (Hs : (kvc_step c o).2 = (kvs_step m o).2 /\ cacheView (kvc_step c o).1 (kvs_step m o).1).
  { destruct o as [k v|k]; cbn; [split; [done|by apply cacheView_Set]|].
    destruct (cacheView_Get c m k Hc) as [A B]. by destruct (kvc_Get c k) as [v c']; cbn in *; subst. }
  destruct (kvc_step c o) as [c1 a], (kvs_step m o) as [m1 b]. cbn in Hs. destruct Hs as [-> H1'].
  destruct (IH c1 m1 H1') as [A B]. destruct (runKV kvc_step c1 ops), (runKV kvs_step m1 ops). cbn in *. by subst.
Qed.

(** ** The validator set *)

(** Every key of the store is the key of an account. *)
Definition accountStore (m : MemKVS) : Prop := forall k v, m !! k = Some v -> exists a, k = AccountKey a.

Lemma accountStore_SetAccount m addr acc m' : accountStore m -> SetAccount m addr acc = Ret m' -> accountStore m'.
Proof.
  intros Hm E. unfold SetAccount in E. destruct (JSONBytes acc); [|done]. injection E as <-. intros k v Hk. unfold kvs_Set in Hk.
  apply lookup_insert_Some in Hk as [[<- _]|[_ Hk]]; [by exists addr|by eapply Hm].
Qed.

(** The stores the application comes to. *)
Inductive appReach : MemKVS -> Prop :=
| reach_new : appReach NewMemKVS
| reach_init m addr balance m' : appReach m -> SetInitAccount m addr balance = Ret m' -> appReach m'
| reach_deliver m tx height m' code : appReach m -> DeliverTx m tx height = Ret (m', code) -> appReach m'.

Lemma appReach_accounts m : appReach m -> accountStore m.
Proof.
  induction 1 as [|m addr balance m' _ IH E|m tx height m' code _ IH E].
  - intros k v Hk. unfold NewMemKVS in Hk. by rewrite lookup_empty in Hk.
  - by eapply accountStore_SetAccount.
  - unfold DeliverTx in E. case_match; [by injection E as <- _|]. destruct (ReadBinaryBytes tx) as [t|]; [|by injection E as <- _].
    destruct (ExecTx m t false height) as [[s log]|] eqn:Ee; [|done]. injection E as <- _. destruct t as [[t|t|t]|]; cbn in Ee.
    + pose proof (execDMC_fails m t false) as Hf. rewrite Ee in Hf. by destruct Hf as [-> _].
    + destruct (SetAccount m _ _) as [s'|] eqn:Es; [|done]. injection Ee as <- _. by eapply accountStore_SetAccount.
    + by injection Ee as <- _.
    + done.
Qed.

Lemma slice_AccountKey a : slice (AccountKey a) 0 2 = Ret (str "ba").
Proof.
  unfold AccountKey. rewrite slice_ret; [done|lia|]. rewrite zlen_app. change (zlen (str "base/a/")) with 7. pose proof (zlen_nonneg a). lia.
Qed.

(** The first two bytes of every account key are the same. *)
Lemma GetAll_accounts walk addr : Forall (fun kv : bytes * bytes => exists a, kv.1 = AccountKey a) walk ->
  GetAll walk (AccountKey addr) 2 = Ret (snd <$> walk).
Proof.
  intros Hw. unfold GetAll. match goal with |- go_fold ?g _ _ = _ => set (f := g) end.
  assert (Hf : forall a v acc, f (AccountKey a, v) acc = Ret (acc ++ [v])).
  { clear. intros a v acc. unfold f. cbn [fst snd]. rewrite !slice_AccountKey. cbn. by rewrite bytes_eqb_refl. } clearbody f.
  enough (forall acc, go_fold f walk acc = Ret (acc ++ (snd <$> walk))) as Hg by apply (Hg []).
  induction Hw as [|[k v] walk [a Ha] _ IH]; intros acc; [cbn; by rewrite app_nil_r|]. cbn in Ha. subst k.
  cbn [go_fold]. rewrite Hf. cbn. rewrite IH. by rewrite <- app_assoc.
Qed.

(** The accounts of a store. *)
Definition accountsOf (m : MemKVS) : list Account := (fun kv => decodeAccount kv.2) <$> map_to_list m.

Lemma walk_accounts walk m : accountStore m -> walks walk m ->
  Forall (fun kv : bytes * bytes => exists a, kv.1 = AccountKey a) walk /\ decodeAccount <$> (snd <$> walk) ≡ₚ accountsOf m.
Proof.
  intros Hm Hw. split.
  - apply Forall_forall. intros [k v] Hk. rewrite Hw in Hk. apply elem_of_map_to_list in Hk. by eapply Hm.
  - unfold accountsOf. rewrite <- list_fmap_compose. by rewrite Hw.
Qed.

(** [chosen] are the [k] accounts with the least balances. *)
Definition leastBalances (k : nat) (chosen l : list Account) : Prop := exists rest, l ≡ₚ chosen ++ rest /\
  length chosen = min k (length l) /\ forall a b, a ∈ chosen -> b ∈ rest -> acc_Balance a <= acc_Balance b.

Lemma TopkAccounts_spec `{!SortSliceLaws} l (k : nat) : l <> [] -> exists chosen, TopkAccounts l (Z.of_nat k) = Ret chosen /\ leastBalances k chosen l.
Proof.
  intros Hl. unfold TopkAccounts. replace (zlen l =? 0) with false by (destruct l; [done|unfold zlen; cbn [length]; symmetry; apply Z.eqb_neq; lia]).
  set (s := sort_Slice _ l). assert (Hp : s ≡ₚ l) by apply sort_perm. assert (Hlen : length s = length l) by (by rewrite Hp).
  assert (Hs : sortedBy (fun a b => acc_Balance a <? acc_Balance b) s).
  { apply sort_sorted; intros; rewrite ?Z.ltb_lt, ?Z.ltb_ge in *; lia. }
  exists (take k s). split.
  - case_match eqn:Ek; rewrite ?Z.ltb_lt, ?Z.ltb_ge in Ek; unfold zlen in Ek; [|by rewrite take_ge by lia].
    rewrite slice_ret by (unfold zlen; lia). by rewrite drop_0, Z.sub_0_r, Nat2Z.id.
  - exists (drop k s). rewrite take_drop. split; [done|]. split; [rewrite length_take; lia|].
    intros a b Ha Hb. rewrite <- (take_drop k s) in Hs. unfold sortedBy in Hs. apply StronglySorted_app in Hs as (Hab & _ & _).
    specialize (Hab a b Ha Hb). cbn in Hab. apply Z.ltb_ge in Hab. lia.
Qed.

Lemma lastUTXO_eq height : 0 <= height <= MaxInt64 -> add64 (mul64 (Z.quot height 100) 100) 1 = height / 100 * 100 + 1.
Proof.
  intros Hh. rewrite Z.quot_div_nonneg by lia. unfold add64, mul64, MaxInt64 in *. pose proof (Z.div_mod height 100). pose proof (Z.mod_pos_bound height 100).
  rewrite (wrap64_small (height / 100 * 100)) by (unfold int64, MinInt64, MaxInt64; lia). rewrite wrap64_small; [done|].
  unfold int64, MinInt64, MaxInt64. enough (height / 100 * 100 <> 9223372036854775807) by lia. intros E.
  assert (9223372036854775807 mod 100 = 0) by (rewrite <- E; apply Z_mod_mult). done.
Qed.

(** ** The theorems *)

(** C17: no transfer is ever executed.  Whatever the store and the
    transaction, [ExecTx] of a [DMCTx] leaves the store as it was and reports
    a failure, or panics on a nil pointer: the account whose signature it
    checks was read back from JSON and has no key. *)
Theorem transfer_never_executes store tx isCheckTx height :
  match ExecTx store (Some (TDMC tx)) isCheckTx height with
  | Ret (store', log) => store' = store /\ forall id, log <> LogTxID id
  | Panic p => p = NilDeref
  end.
Proof. apply execDMC_fails. Qed.

(** A transaction that is delivered without touching a nil pointer. *)
Definition delivers (txBytes : bytes) : Prop :=
  maxTxSize < zlen txBytes \/ ReadBinaryBytes txBytes = None \/
  exists tx, ReadBinaryBytes txBytes = Some (Some tx) /\ match tx with TDMC _ => False | _ => True end.

Lemma DeliverTx_returns `{!JSONLaws} store txBytes height : delivers txBytes -> exists store' code, DeliverTx store txBytes height = Ret (store', code).
Proof.
  unfold DeliverTx. intros Hd. case_match eqn:El; [by do 2 eexists|]. destruct Hd as [Hd|[->|(tx & -> & Ht)]].
  - rewrite Z.gtb_ltb in El. apply Z.ltb_ge in El. lia.
  - by do 2 eexists.
  - destruct tx as [t|t|t]; [done| |by do 2 eexists]. cbn.
    destruct (SetAccount_spec store (utxo_Address t) height (utxo_Balance t) (utxo_Address t)) as (s & -> & _). by do 2 eexists.
Qed.

(** C12: the ledger of a block.  Delivering transactions that are not
    transfers never panics; and whenever a sequence of transactions is
    delivered, every account is as the specification says: each decodable
    [TxUTXO] sets the account it names to the balance it names, with no
    signature asked for, and nothing else changes any account. *)
Theorem deliver_refines `{!JSONLaws} txs height store :
  (Forall delivers txs -> exists store', deliverAll txs height store = Ret store') /\
  (forall store', deliverAll txs height store = Ret store' ->
     forall a, GetAccount store' a = foldl (fun l tx => specDeliver tx height l) (GetAccount store) txs a).
Proof.
  split.
  - intros Hd. revert store. induction Hd as [|tx txs Ht _ IH]; intros store; [by eexists|]. cbn.
    destruct (DeliverTx_returns store tx height Ht) as (s & code & ->). cbn. apply IH.
  - assert (Hx : forall txs l l', (forall a, l a = l' a) ->
      forall a, foldl (fun l tx => specDeliver tx height l) l txs a = foldl (fun l tx => specDeliver tx height l) l' txs a).
    { clear. induction txs as [|tx txs IH]; intros l l' Hl a; [apply Hl|]. cbn. apply IH. intros x. unfold specDeliver.
      case_match; [apply Hl|]. destruct (ReadBinaryBytes tx) as [[[t|t|t]|]|]; try apply Hl. cbn. by rewrite Hl. }
    revert store. induction txs as [|tx txs IH]; intros store store' E a; [by injection E as <-|]. cbn in E.
    destruct (DeliverTx store tx height) as [[s code]|] eqn:Ed; [|done]. cbn in E. rewrite (IH s store' E a). cbn. apply Hx.
    by eapply DeliverTx_spec.
Qed.

(** The validators the application names.  At a height from 0 the call
    panics when there is no account; it names no validator when an account is
    as recent as the last balance update; and otherwise it names, each with
    power 1, the hundred accounts with the smallest balances of all accounts,
    of whatever segment. *)
Theorem GetValidatorSet_outcome `{!SortSliceLaws} m walk height : appReach m -> walks walk m -> 0 <= height <= MaxInt64 ->
  (accountsOf m = [] -> GetValidatorSet walk height = Panic IndexOutOfRange) /\
  (accountsOf m <> [] -> (exists a, a ∈ accountsOf m /\ height / 100 * 100 + 1 <= acc_Height a) -> GetValidatorSet walk height = Ret []) /\
  (accountsOf m <> [] -> (forall a, a ∈ accountsOf m -> acc_Height a < height / 100 * 100 + 1) ->
     exists chosen, leastBalances 100 chosen (accountsOf m) /\
       GetValidatorSet walk height = Ret ((fun a => appValidator 1 (acc_Address a)) <$> chosen)).
Proof.
  intros Hr Hw Hh. destruct (walk_accounts walk m (appReach_accounts m Hr) Hw) as [Hk Hp].
  unfold GetValidatorSet. rewrite (proj2 (Z.ltb_ge height 0)), lastUTXO_eq by lia. unfold GetAllAccountsInSegment.
  rewrite (GetAll_accounts walk _ Hk). cbn [mbind go_mbind]. set (accs := decodeAccount <$> (snd <$> walk)) in *. split_and!.
  - intros E. rewrite E in Hp. by rewrite (proj1 (Permutation_nil_r _) Hp).
  - intros Hn (a & Ha & Hl). destruct (idx_total accs 0) as (x & -> & _).
    { destruct accs; [by apply Permutation_nil in Hp|]. unfold zlen. cbn [length]. lia. }
    cbn. rewrite (proj2 (existsb_exists _ _)); [done|]. exists a. split; [|by apply Z.geb_le]. rewrite <- Hp in Ha. by apply list_elem_of_In.
  - intros Hn Ha. assert (accs <> []) by (intros E; rewrite E in Hp; by apply Permutation_nil in Hp).
    destruct (idx_total accs 0) as (x & -> & _); [destruct accs; [done|]; unfold zlen; cbn [length]; lia|]. cbn [mbind go_mbind].
    replace (existsb _ accs) with false.
    + destruct (TopkAccounts_spec accs 100) as (chosen & E & rest & Hc & Hl & Hb); [done|]. change (Z.of_nat 100) with 100 in E. rewrite E. exists chosen.
      split; [|done]. exists rest. rewrite <- Hp. by split.
    + symmetry. apply not_true_iff_false. intros (a & Hi & Hg)%existsb_exists. apply Z.geb_le in Hg.
      apply list_elem_of_In in Hi. rewrite Hp in Hi. specialize (Ha a Hi). lia.
Qed.

(** The write cache.  Whatever is set and read through a [KVCache], every
    read answers what the store alone would have answered, and after [Sync]
    the store reads as if everything had been written to it. *)
Theorem KVCache_refines ops m :
  let c := runKV kvc_step (NewKVCache (Some m)) ops in
  c.2 = (runKV kvs_step m ops).2 /\
  (forall k, kvs_Get (kvc_store (kvc_Sync c.1)) k = kvs_Get (runKV kvs_step m ops).1 k) /\
  kvc_cache (kvc_Sync c.1) = ∅ /\ kvc_keys (kvc_Sync c.1) = [].
Proof.
  destruct (runKV_view ops (NewKVCache (Some m)) m) as [A B].
  { split; intros k; cbn; rewrite ?lookup_empty; [|done]. split; [by intros ?%elem_of_nil|by intros [? ?]]. }
  split; [done|]. split; [by apply cacheView_Sync|done].
Qed.

(** Every bucketed transaction of a size that is allowed panics: the output
    whose address selects the bucket is never decoded. *)
Theorem DeliverBucketedTx_panics store txBytes height bucketID : zlen txBytes <= maxTxSize ->
  exists p, DeliverBucketedTx store txBytes height bucketID = Panic p.
Proof.
  intros Hl. unfold DeliverBucketedTx. rewrite Z.gtb_ltb, (proj2 (Z.ltb_ge _ _)) by done.
  destruct (isUTXOHeight height); cbn; [destruct (SetAccount _ _ _); cbn|]; by eexists.
Qed.
End App.

(** ** Examples *)

Section Examples.
#[local] Existing Instance toyCurves.

(** A [TxUTXO] is written as its address and balance, an account as its
    height, balance and address. *)
Definition exWire : Wire := {|
  PubKey_Bytes := fun k => match k with PubKeyEd25519 b => b | PubKeySecp256k1 b => b end;
  JSONBytes := fun a => Ret (enc (acc_Height a, acc_Balance a, acc_Address a));
  BinaryBytes := fun tx => match tx with TUTXO u => enc (utxo_Address u, utxo_Balance u) | _ => [] end;
  BinaryRipemd160 := fun b => b;
  ReadBinaryBytes := fun b => match (dec b : option (bytes * Z)) with Some (a, n) => Some (Some (TUTXO (mkTxUTXO a n))) | None => None end |}.
Definition exJSON : JSON := {|
  UnmarshalAccount := fun b => match (dec b : option (Z * Z * bytes)) with Some (h, n, a) => mkFields h n a | None => mkFields 0 0 [] end;
  UnmarshalUTXO := fun _ => zeroUTXO;
  UnmarshalDMC := fun _ => (0, ([], 0, 0), mkTxOutput [] 0);
  formatAddress := hexEncode |}.
Definition exSort : SortSlice := {| sort_Slice := fun A less l => isort less l |}.
#[local] Existing Instances exWire exJSON exSort.

Lemma exJSONLaws : JSONLaws.
Proof. split. intros h b a. exists (enc (h, b, a)). split; [done|]. split; [done|]. cbn. by rewrite dec_enc. Qed.
Lemma exSortLaws : SortSliceLaws.
Proof. split; intros; [apply isort_perm|by apply isort_sorted]. Qed.
#[local] Existing Instances exJSONLaws exSortLaws.

Definition exTx : bytes := enc (str "alice", 70).
Definition exStep (store : MemKVS) (tx : bytes) (height : Z) : MemKVS := (fromRet (NewMemKVS, 0) (DeliverTx store tx height)).1.
Definition exStore1 : MemKVS := exStep NewMemKVS (enc (str "bob", 5)) 1.
Definition exStore : MemKVS := exStep exStore1 exTx 7.

Lemma deliver_refines_witness : exists store', deliverAll [exTx] 7 NewMemKVS = Ret store' /\
  GetAccount store' (str "alice") = Some (mkAccount None 7 70 (str "alice")).
Proof.
  destruct (deliver_refines [exTx] 7 NewMemKVS) as [Hr Hs]. destruct Hr as [store' E].
  { constructor; [|constructor]. right; right. exists (TUTXO (mkTxUTXO (str "alice") 70)). split; [vm_compute; reflexivity|exact I]. }
  exists store'. split; [exact E|]. rewrite (Hs store' E). vm_compute. reflexivity.
Defined.

Lemma exStep_reach store tx height : isRet (DeliverTx store tx height) = true -> appReach store -> appReach (exStep store tx height).
Proof.
  intros Hr Hs. apply (fromRet_ok (NewMemKVS, 0)) in Hr. unfold exStep. destruct (fromRet _ (DeliverTx store tx height)) as [store' code].
  exact (reach_deliver store tx height store' code Hs Hr).
Qed.
Lemma exStore_reach : appReach exStore.
Proof. do 2 (apply exStep_reach; [vm_compute; reflexivity|]). constructor. Qed.

Lemma GetValidatorSet_outcome_witness : exists chosen, leastBalances 100 chosen (accountsOf exStore) /\
  GetValidatorSet (map_to_list exStore) 250 = Ret ((fun a => appValidator 1 (acc_Address a)) <$> chosen).
Proof.
  apply (GetValidatorSet_outcome exStore (map_to_list exStore) 250 exStore_reach (reflexivity _) ltac:(vm_compute; split; discriminate)).
  - vm_compute. discriminate.
  - assert (Hf : Forall (fun a => acc_Height a < 250 / 100 * 100 + 1) (accountsOf exStore)) by (vm_compute; repeat constructor).
    exact (proj1 (Forall_forall _ _) Hf).
Defined.
End Examples.
End DMCCoin.
